(* ===== verification/_CoqProject ===== *)
-Q . S2P
Prelude.v
Fault.v
Scc.v
Value.v
Resource.v
Ordered.v
Schedule.v
Indexes.v
Scheduler.v
SchedulerSafe.v
SchedulerWake.v
Exhaust.v
Codec.v
Bytecode.v
BytecodeFacts.v
BytecodeTables.v
Types.v
TypesStore.v
TypesSub.v
TypesLaws.v
TypesJoin.v
Pages.v
TextViews.v
SlotTable.v
TextViewsInv.v
TextViewsBatch.v
MapIndex.v
MapIndexFacts.v
Heap.v
Objects.v
Ledger.v
HeapInv.v
HeapOps.v
HeapAlloc.v
HeapSweep.v
Graph.v
GraphTables.v
GraphWalk.v
GraphModes.v
HeapSteps.v
HeapProps.v
HeapFrame.v
Transfer.v
TransferFacts.v
TransferProps.v
Machine.v
Collections.v
Interp.v
MachineFacts.v
Quantum.v
Arenas.v
Callbacks.v
MachineProps.v
MapKeys.v
Maps.v
MapOps.v
MapProps.v
ModuleTables.v
VerifyCtx.v
VerifySub.v
VerifyStep.v
VerifyPerform.v
VerifyRules.v
VerifyFunc.v
VerifyStable.v
VerifyFine.v
VerifyFlow.v
VerifyFix.v
VerifySound.v
VerifyReplay.v
VerifyShape.v
VerifyAccept.v
VerifyProps.v
