(* ===== verification/Prelude.v ===== *)
(** * A verification library for Loom

    Loom is a language with a virtual machine, written in Rust as a workspace
    of crates under src/crates/.  A program is parsed and checked (lm-source,
    lm-hir, on the type store of lm-types), lowered to bytecode (lm-bytecode),
    verified and linked (lm-verify, lm-link), and run by machines (lm-vm, on
    the values of lm-value) that a scheduler (lm-proc) drives; machines reach
    the outside through host operations named by an ABI (lm-abi, lm-host) and
    account for what they hold in a resource registry.  This library models
    the components of that pipeline that carry a contract of their own, one
    file per component, translated from the source, with the theorems other
    components rely on.

    ** Conventions

    Unsigned machine integers are [N], [i64] is [Z]; a conversion that can
    wrap is written out ([as_u32], [to_i64]), and so is saturating or checked
    arithmetic.  [exec] is the outcome of a call: [Ret], [Panic] (an index out
    of range, a failed assertion, an [expect] on [None]) or [NoFuel] (the
    bound of a recursive model, which the termination theorems rule out).
    [result] is Rust's [Result].  A [Vec] is a list, updated by index with
    stdpp's lookup and insert and an explicit out-of-range outcome; a
    [HashMap] or [BTreeMap] is a [gmap] or a sorted list where the order
    matters.  Debug assertions are modelled as panics.

    ** Files and components

    - [Prelude]: outcomes, machine integers, shared tactics and lemmas.
    - [Fault], [Value]: lm-abi/src/fault.rs (codes, names, snapshot classes)
      and lm-value/src/lib.rs (values, tags, NaN normalisation).
    - [Resource]: lm-vm/src/resource.rs.  [ResourceRegistry] with every
      operation, over an explicit shared [Ledger]; [rstep] is the system of
      all registries and leases that share it.
    - [Scc]: lm-scc/src/lib.rs.  Strongly connected components by one iterative
      depth-first walk.
    - [Ordered]: total orders and sorting for the derived [Ord] of keys.
    - [Schedule]: lm-vm/src/schedule.rs.  Keys, the marked event buffers
      [ScheduleEvents] and the swap-remove set [ActiveProcs].
    - [Indexes], [Scheduler], [SchedulerSafe], [SchedulerWake]:
      lm-proc/src/lib.rs.  The wake, park and task indexes; the scheduler with
      its loop against [WorldOps], the interface the world promises to it;
      safety of every call sequence; wake-up delivery.
    - [Exhaust]: lm-hir/src/exhaust.rs and the arm analysis of
      lm-hir/src/checkfn/flow.rs.  Usefulness of pattern rows under a work
      budget, against a typed value semantics.
    - [Codec], [Bytecode], [BytecodeFacts], [BytecodeTables]:
      lm-bytecode/src/lib.rs.  The cursor; the instruction set, the type
      table and the slot contracts with writers and readers in the order of
      the source's arms; the codec theorems.
    - [Types], [TypesStore], [TypesSub], [TypesLaws], [TypesJoin]:
      lm-types/src/lib.rs.  The interned type store with every operation; the
      table invariant; the declarative subtype relation and the memoised query;
      the laws; joins as least upper bounds.
    - [Pages], [SlotTable]: paged tables of slots with generations and a free
      list, shared by the two tables of a heap.
    - [TextViews], [TextViewsInv], [TextViewsBatch]: lm-heap/src/text_views.rs.
      Compact text views and their roots, swept and installed in batches.
    - [MapIndex], [MapIndexFacts]: the map index of lm-heap/src/shape.rs.
    - [Heap], [Ledger], [HeapInv], [HeapOps], [HeapAlloc], [HeapSweep],
      [HeapSteps], [HeapProps]: lm-heap/src/lib.rs.  The heap over the interface
      [HeapTypes] of its objects; the ledger of shared allocations; the
      invariant [heap_ok]; one file per group of operations; [heap_step], the
      operations a machine performs; the theorems.
    - [Objects]: lm-heap/src/shape.rs.  The 42 object shapes and the walks over
      one object; discharges [HeapTypes] and [HeapLaws].
    - [Graph], [GraphTables], [GraphWalk], [GraphModes]: lm-graph/src/engine.rs
      and mode.rs.  The one walk of every graph mode, its work tables, and the
      modes built on it.
    - [HeapFrame], [Transfer], [TransferFacts], [TransferProps]: the copies of
      lm-graph/src/mode.rs.  Frame facts of the heap's operations; transfers,
      detached copies and copies inside one heap over the interface [CopyTypes]
      of shells and remapping, which [Objects] discharges; their theorems.
    - [Machine]: mod.rs, stack.rs, calls.rs and heap.rs of lm-vm/src/machine.
      One machine: its arenas of operands, locals, frames and captures, its heap,
      its callback table and its clock; pushes, pops, frames, calls, returns,
      the roots of a collection and allocation behind a collection.
    - [Collections]: lm-vm/src/machine/collections.rs.  List and map
      instructions: key hashes and key equality, the lazily built index, probe
      tokens, epochs, traversal.
    - [Interp]: lm-vm/src/machine/interpreter.rs and execution.rs.  The dispatch
      of an instruction, integer arithmetic at 64 bits, tiering counters, the
      code cache, the quantum loop.
    - [MachineFacts], [Quantum], [Arenas], [Callbacks], [MachineProps]: a unary
      logic of the machine monad ([spec], [stable]) and what every instruction
      keeps; the accounting of a quantum; the arena bounds; the reachability of
      callbacks; the theorems.
    - [MapKeys], [Maps], [MapOps], [MapProps]: what keys a map distinguishes; the
      invariant of its entries and index and the dictionary they stand for; the
      map instructions on a machine; the theorems, with a map as a snapshot
      restores it (lm-vm/src/snapshot/codec.rs).
    - [ModuleTables]: the module container of lm-bytecode/src/lib.rs, the core
      roles of corepin.rs, and of lm-abi the manifest types, the operation slots
      and the lookups of a bundle (lib.rs, bundle.rs).
    - [VerifyCtx], [VerifySub]: lm-verify/src/ctx.rs.  The growing universe of
      types with their facts, as the state monad [V]; subtyping, joins,
      substitution, projection and conformance under interface bounds.
    - [VerifyStep], [VerifyPerform], [VerifyRules], [VerifyFunc]:
      lm-verify/src/step.rs and func.rs.  The abstract [State] of a program
      point and the rule of every instruction, the VM-control operations, calls,
      closures, objects, collections and reflection included; [merge], the
      worklist of [dataflow], and [states_at_points].
    - [VerifyShape]: lm-verify/src/func.rs, tables.rs and lib.rs.  Signatures,
      the structural pass, [verify_func], the bodies of a module.
    - [VerifyStable], [VerifyFine]: a call that succeeds answers the same in every
      larger universe, for every query and every rule.
    - [VerifyFlow], [VerifyFix], [VerifySound], [VerifyReplay], [VerifyAccept],
      [VerifyProps]: the flow order and joins; merges and runs of a block; the
      invariant of the worklist; replays at points; acceptance; the theorems.

    ** What the theorems show

    Scheduler: no sequence of calls panics or loses a queued task; the ready
    queue is first in, first out; a wake reaches every waiter.  Resources: the
    shared ledger is exact and bounded in every reachable state, release never
    underflows, registration is atomic.  Event buffers, wake index and active
    set refine a sorted set, a finite relation and a finite map.  Patterns:
    the search terminates within an explicit bound and decides coverage.
    Codec: encode then decode is the identity, what decodes is canonical up to
    two named cases, and prefixes are refused.  Type store: interning is
    hash-consing, fact bits are exact, the memoised subtype query decides the
    subtype relation, which is a preorder, and a join is a least upper bound.
    Components: the walk returns exactly the strongly connected components,
    callees first.  Heap: the byte, object and ledger accounts are exact after
    every sequence of operations; allocation answers exactly for the cap and
    the table; freeing revokes one reference (a plain theorem).  Graph: the walk visits exactly
    the reachable objects in preorder under exact limits; a collection keeps
    exactly what is reachable; a freeze is all or nothing; a copy is an
    isomorphic graph at fresh references or leaves the destination as it was,
    up to a collection.  Objects: costs,
    shells, remapping and child order agree on every shape.  Maps: the
    map instructions refine an insertion-ordered dictionary, also across a
    collection; a restored map keeps an epoch that its cursors and tokens
    outlive.  Interpreter: a
    quantum is the composition of its parts, and what it reports as spent is
    what the clock shows; every instruction keeps the arenas within their
    limits; integer instructions compute the 64-bit results and fault exactly
    where they overflow or divide by zero; a call followed by its return leaves
    the stacks as they were with the result pushed.  Verifier: an accepted
    module has entry states that hold inductively in the final universe, so a
    replay of any reached block cannot be refused; the states at points are
    those of the replay; the stack stays within its limit and the branch
    targets inside the function; two theorems show where the verifier does not
    answer, a fixpoint that alternates and a scope table indexed before it is
    checked.

    ** Fuel and bounds

    Every fuelled definition has a theorem that gives enough fuel: the
    usefulness search needs the weight of the matrix; the class walks need one
    unit per registered class on an acyclic hierarchy; the subtype recursion
    needs one unit per type, because parts have smaller ids; the draining
    loops need the size of the buffers; the graph walk needs one unit per root
    and per reference held in the table; a probe of the map index needs one
    round of the table; reserving slots needs one page per slot asked for; a
    quantum needs one round more than its instruction fuel; marking callbacks
    needs one unit per callback and per capture ([mark_fuel]).  The walks over
    types of the verifier take [cx_fuel] and its worklist a number of rounds:
    their theorems are about the runs that answer, for every fuel, because the
    worklist has no bound that is always enough ([verify_diverges]).  The scheduler's outer loop runs as
    long as the guest does and takes a turn bound; its theorems are about each
    turn.  Tables are assumed to stay below 2^32 entries where the source
    truncates a length to [u32] ([room], [slot_room]).  A heap is assumed to
    receive references of its own ([live], [closed]) and one capacity per
    shared allocation ([agrees]); the host allocator is the parameter
    [HostMemory], which may refuse any reservation the code checks.  The
    interpreter takes as parameters the facts of loaded code it reads
    ([MachineTypes], [EnvTable]), frames of compiled code ([NativeFrames]), the
    bytes behind texts ([TextBytes]), the tiering policy ([TierState]) and the
    handlers of cold instructions ([ColdCode], with [ColdLaws]).

    ** Not modelled

    The parser, the checker's syntax-directed passes and lowering; the bytes of
    the module container and its debug section, and identity hashing; of the
    verifier the passes over classes, interfaces, conformances, imports, slots
    and core roles, whose results are the context [Ctx]; the linker, the JIT; of the interpreter the cold instructions
    (text, bytes, effects, host calls: [ColdCode]), deep equality, vector
    capacities and compiled frames; the world and effect routing, of which
    [WorldOps] states what the scheduler uses; canonical digests, heap compaction and
    the addresses a heap keeps for compiled code; the bytes of texts and
    buffers ([Payloads]); worker threads and the parallel barrier; host operations, which are I/O; the constant
    tables of the ABI; rendering of types for diagnostics. *)

From stdpp Require Import base numbers option functions list.
From Stdlib Require Import Lia.

(** ** Notation scope of the development *)

Declare Scope loom_scope.
Delimit Scope loom_scope with loom.
Open Scope loom_scope.

(** ** Outcomes

    A Rust call returns, panics, or, for a recursive model, runs out of the
    fuel the model was given.  [exec] keeps the three apart: [Panic] is a
    behaviour of the program (an out-of-range index, a failed assertion, an
    [expect] on [None]), [NoFuel] is a limit of the model that the
    termination theorems rule out. *)

Inductive exec (A : Type) : Type :=
| Ret (a : A)
| Panic
| NoFuel.

Arguments Ret {A} a.
Arguments Panic {A}.
Arguments NoFuel {A}.

#[export] Instance exec_ret : MRet exec := @Ret.
#[export] Instance exec_bind : MBind exec := λ A B f m,
  match m with
  | Ret a => f a
  | Panic => Panic
  | NoFuel => NoFuel
  end.
#[export] Instance exec_fmap : FMap exec := λ A B f m,
  match m with
  | Ret a => Ret (f a)
  | Panic => Panic
  | NoFuel => NoFuel
  end.

(** The panic of an [assert!], a [debug_assert!] or an [expect]. *)
Definition guard_panic (b : bool) : exec unit := if b then Ret tt else Panic.

(** [v[i]] and [o.unwrap()]: a missing value panics. *)
Definition of_option {A} (o : option A) : exec A :=
  match o with
  | Some a => Ret a
  | None => Panic
  end.

(** Rust's [Result]. *)
Inductive result (A E : Type) : Type :=
| Ok (a : A)
| Err (e : E).

Arguments Ok {A E} a.
Arguments Err {A E} e.

#[export] Instance result_eq_dec {A E} `{EqDecision A} `{EqDecision E} :
  EqDecision (result A E).
Proof. solve_decision. Defined.

#[export] Instance exec_eq_dec {A} `{EqDecision A} : EqDecision (exec A).
Proof. solve_decision. Defined.

(** ** Machine integers

    Unsigned values are natural numbers in [N]; the widths appear where a
    cast, a checked or a saturating operation makes them observable. *)

Definition U8_MAX : N := 255.
Definition U32_MAX : N := 4294967295.
Definition U64_MAX : N := 18446744073709551615.
Definition USIZE_MAX : N := U64_MAX.
Definition I64_MIN : Z := (-9223372036854775808)%Z.
Definition I64_MAX : Z := 9223372036854775807%Z.

(** [x as u32] truncates. *)
Definition as_u32 (x : N) : N := (x mod 4294967296)%N.

Definition saturating_add_u64 (a b : N) : N := (N.min (a + b) U64_MAX)%N.
Definition saturating_sub (a b : N) : N := (a - b)%N.
Definition checked_add_usize (a b : N) : option N :=
  if (a + b <=? USIZE_MAX)%N then Some (a + b)%N else None.

(** The length of a vector as a [usize]. *)
Definition lenN {A} (l : list A) : N := N.of_nat (length l).

(** ** Tactics *)

(** Case on the scrutinee of a [match] or [if] in the goal or a hypothesis. *)
Ltac case_goal :=
  match goal with
  | |- context [match ?x with _ => _ end] => destruct x eqn:?
  end.
Ltac case_hyp H :=
  match type of H with
  | context [match ?x with _ => _ end] => destruct x eqn:?
  end.

(** Turn boolean tests into propositions. *)
Ltac to_prop :=
  repeat match goal with
  | H : context [bool_decide _ = true] |- _ => rewrite bool_decide_eq_true in H
  | H : context [bool_decide _ = false] |- _ => rewrite bool_decide_eq_false in H
  | H : andb _ _ = true |- _ => apply andb_prop in H as [? ?]
  | H : orb _ _ = false |- _ => apply orb_false_elim in H as [? ?]
  | H : (_ <=? _)%Z = true |- _ => apply Z.leb_le in H
  | H : (_ <? _)%Z = true |- _ => apply Z.ltb_lt in H
  | H : (_ <=? _)%N = true |- _ => apply N.leb_le in H
  | H : (_ <=? _)%N = false |- _ => apply N.leb_gt in H
  | H : (_ <? _)%N = true |- _ => apply N.ltb_lt in H
  | H : (_ <? _)%N = false |- _ => apply N.ltb_ge in H
  | H : (_ =? _)%N = true |- _ => apply N.eqb_eq in H
  | H : (_ =? _)%N = false |- _ => apply N.eqb_neq in H
  end.

Create HintDb loom.

(** ** Shared lemmas *)

Lemma bind_Ret {A B} (m : exec A) (f : A → exec B) b :
  (m ≫= f) = Ret b ↔ ∃ a, m = Ret a ∧ f a = Ret b.
Proof.
  destruct m as [a| |]; simpl; split; [eauto | intros (? & [= <-] & ?); done | | | | ];
    first [discriminate | intros (? & ? & ?); discriminate].
Qed.

Lemma as_u32_small x : (x <= U32_MAX)%N → as_u32 x = x.
Proof. unfold as_u32, U32_MAX. intros. apply N.mod_small. lia. Qed.

(** A sum over a vector changes at the updated position alone. *)
Definition sumN {A} (f : A → N) (l : list A) : N := foldr (λ x n, (f x + n)%N) 0%N l.

Lemma sumN_app {A} (f : A → N) l1 l2 : sumN f (l1 ++ l2) = (sumN f l1 + sumN f l2)%N.
Proof. induction l1; simpl; [done|]. rewrite IHl1. lia. Qed.

Lemma sumN_insert {A} (f : A → N) (l : list A) i x y :
  l !! i = Some x → (sumN f (<[i:=y]> l) + f x = sumN f l + f y)%N.
Proof.
  revert i. induction l as [|z l IH]; intros [|i] H; simpl in *; simplify_eq; try lia.
  specialize (IH _ H). lia.
Qed.

Lemma sumN_delete {A} (f : A → N) (l : list A) i x :
  l !! i = Some x → (sumN f (delete i l) + f x = sumN f l)%N.
Proof.
  revert i. induction l as [|z l IH]; intros [|i] H; simpl in *; simplify_eq; try lia.
  specialize (IH _ H). lia.
Qed.

Lemma sumN_zero {A} (f : A → N) (l : list A) : (∀ i x, l !! i = Some x → f x = 0%N) → sumN f l = 0%N.
Proof.
  induction l as [|x l IH]; intros H; [done|]. simpl. rewrite (H 0 x eq_refl), IH; [done|].
  intros i y Hy. by apply (H (S i)).
Qed.

Lemma sumN_elem {A} (f : A → N) (l : list A) i x :
  l !! i = Some x → (f x <= sumN f l)%N.
Proof. intros H. pose proof (sumN_delete f l i x H). lia. Qed.

#[export] Hint Resolve as_u32_small : loom.
