(* ===== verification/Fault.v ===== *)
(** * The stable machine-fault codes

    Models [crates/lm-abi/src/fault.rs]: the fault codes every layer of the
    runtime names, their stable names, the lookup a snapshot loader uses, and
    the snapshot classification of host state.  The theorems show that the
    name table and the [Display] implementation are inverse to each other. *)

From S2P Require Import Prelude.
From stdpp Require Import base list strings.

(** ** Data *)

Inductive FaultCode : Type :=
| IntegerOverflow
| DivideByZero
| ShiftOutOfRange
| OutOfFuel
| StackLimit
| HeapLimit
| FrozenWrite
| IndexOutOfBounds
| LengthMismatch
| InvalidPrecision
| MissingKey
| MutableMapKey
| CollectionModified
| CollectionEpochExhausted
| BadCast
| PolicyDenied
| InvalidVmState
| InvalidRequestToken
| UnsendableValue
| BoundaryLimit
| BoundaryViolation
| HostFault
| UserPanic
| AssertionFailed
| DeadProc
| UninitializedField
| UnreachableCode
| TypeMismatch
| MalformedState.

#[export] Instance FaultCode_eq_dec : EqDecision FaultCode.
Proof. solve_decision. Defined.

(** Every stable fault code, in declaration order. *)
Definition FAULT_CODES : list FaultCode :=
  [IntegerOverflow;
   DivideByZero;
   ShiftOutOfRange;
   OutOfFuel;
   StackLimit;
   HeapLimit;
   FrozenWrite;
   IndexOutOfBounds;
   LengthMismatch;
   InvalidPrecision;
   MissingKey;
   MutableMapKey;
   CollectionModified;
   CollectionEpochExhausted;
   BadCast;
   PolicyDenied;
   InvalidVmState;
   InvalidRequestToken;
   UnsendableValue;
   BoundaryLimit;
   BoundaryViolation;
   HostFault;
   UserPanic;
   AssertionFailed;
   DeadProc;
   UninitializedField;
   UnreachableCode;
   TypeMismatch;
   MalformedState].

(** ** Operations *)

(** [impl Display for FaultCode]. *)
Definition fault_to_string (code : FaultCode) : string :=
  match code with
  | IntegerOverflow => "IntegerOverflow"
  | DivideByZero => "DivideByZero"
  | ShiftOutOfRange => "ShiftOutOfRange"
  | OutOfFuel => "OutOfFuel"
  | StackLimit => "StackLimit"
  | HeapLimit => "HeapLimit"
  | FrozenWrite => "FrozenWrite"
  | IndexOutOfBounds => "IndexOutOfBounds"
  | LengthMismatch => "LengthMismatch"
  | InvalidPrecision => "InvalidPrecision"
  | MissingKey => "MissingKey"
  | MutableMapKey => "MutableMapKey"
  | CollectionModified => "CollectionModified"
  | CollectionEpochExhausted => "CollectionEpochExhausted"
  | BadCast => "BadCast"
  | PolicyDenied => "PolicyDenied"
  | InvalidVmState => "InvalidVmState"
  | InvalidRequestToken => "InvalidRequestToken"
  | UnsendableValue => "UnsendableValue"
  | BoundaryLimit => "BoundaryLimit"
  | BoundaryViolation => "BoundaryViolation"
  | HostFault => "HostFault"
  | UserPanic => "UserPanic"
  | AssertionFailed => "AssertionFailed"
  | DeadProc => "DeadProc"
  | UninitializedField => "UninitializedField"
  | UnreachableCode => "UnreachableCode"
  | TypeMismatch => "TypeMismatch"
  | MalformedState => "MalformedState"
  end.

(** [FaultCode::from_name]: the first code of the table with this name. *)
Definition from_name (name : string) : option FaultCode :=
  snd <$> list_find (λ code, fault_to_string code = name) FAULT_CODES.

Inductive SnapshotClass : Type :=
| MachineState
| HostAttachment.

#[export] Instance SnapshotClass_eq_dec : EqDecision SnapshotClass.
Proof. solve_decision. Defined.

(** [SnapshotClass::tag], also its [Display]. *)
Definition snapshot_tag (class : SnapshotClass) : string :=
  match class with
  | MachineState => "machine-state"
  | HostAttachment => "host-attachment"
  end.

(** ** Properties *)

Lemma FAULT_CODES_complete code : code ∈ FAULT_CODES.
Proof. apply (bool_decide_unpack _). by destruct code; vm_compute. Qed.

Lemma fault_to_string_inj c1 c2 : fault_to_string c1 = fault_to_string c2 → c1 = c2.
Proof. destruct c1, c2; simpl; intros H; first [reflexivity | discriminate H]. Qed.

(** The stable name of a fault code and the lookup by name are inverse:
    [from_name] answers a code exactly for that code's own name, so a fault
    written by name into a snapshot reads back as the same fault, and a text
    that is no code's name reads as [None]. *)
Theorem from_name_roundtrip name code :
  from_name name = Some code ↔ name = fault_to_string code.
Proof.
  unfold from_name. split.
  - intros H. apply fmap_Some in H as ([i c] & Hf & ->).
    apply list_find_Some in Hf as (_ & <- & _). done.
  - intros ->. destruct (list_find _ FAULT_CODES) as [[i c]|] eqn:Hf; simpl.
    + apply list_find_Some in Hf as (_ & H & _). f_equal. by apply fault_to_string_inj.
    + apply list_find_None in Hf. rewrite Forall_forall in Hf.
      exfalso. by apply (Hf code (FAULT_CODES_complete code)).
Qed.
