(* ===== verification/Scc.v ===== *)
(** * Strongly connected components

    lm-scc/src/lib.rs: one depth-first walk with an explicit work stack that
    emits the strongly connected components of a graph, callees first.

    [Walk] is the state of the walk, one field per local variable of
    [components_from_iter]; vectors used as stacks are lists with the top
    first, every other vector is in order.  [scc_step] is one iteration of the
    [while] loop, [scc_loop] the loop, [components] and
    [components_from_roots] the entry points.

    The proof separates the graph argument from the vectors.  [Logic] is the
    invariant of the walk over its two stacks, the emitted components and the
    two numberings; [Shape] ties the vectors to them.  Each step preserves
    both and lowers [measure], so the walk ends; the components are then read
    off the invariant. *)

From stdpp Require Import base numbers option relations sorting list.
From S2P Require Import Prelude.

(** ** Definitions *)

(** The marker for a node the walk has not reached. *)
Definition UNSET : N := U32_MAX.

Record Walk := mkWalk {
  sc_index : list N;
  sc_low : list N;
  sc_on_stack : list bool;
  sc_stack : list N;
  sc_next : N;
  sc_comps : list (list N);
  sc_comp_of : list N;
  sc_work : list (N * nat);
}.

(** [v[i]] and [v[i] = x]: out of range panics. *)
Definition get_at {A} (l : list A) (v : N) : exec A := of_option (l !! N.to_nat v).
Definition set_at {A} (l : list A) (v : N) (x : A) : exec (list A) :=
  if (v <? lenN l)%N then Ret (<[N.to_nat v := x]> l) else Panic.

(** [next += 1] on a [u32]. *)
Definition incr_u32 (x : N) : exec N := if (x <? U32_MAX)%N then Ret (x + 1)%N else Panic.

Definition walk_new (n : nat) : Walk :=
  mkWalk (replicate n UNSET) (replicate n 0%N) (replicate n false) [] 0 [] (replicate n UNSET) [].

(** Number a node, put it on both stacks. *)
Definition visit (st : Walk) (v : N) : exec Walk :=
  index ← set_at (sc_index st) v (sc_next st);
  low ← set_at (sc_low st) v (sc_next st);
  next ← incr_u32 (sc_next st);
  on_stack ← set_at (sc_on_stack st) v true;
  Ret (mkWalk index low on_stack (v :: sc_stack st) next (sc_comps st) (sc_comp_of st)
         ((v, 0) :: sc_work st)).

(** The inner [loop]: pop members up to and with [node]. *)
Fixpoint pop_component (node count : N) (stack : list N) (on_stack : list bool)
    (comp_of comp : list N) : exec (list N * list bool * list N * list N) :=
  match stack with
  | [] => Panic
  | member :: stack =>
      on_stack ← set_at on_stack member false;
      comp_of ← set_at comp_of member (as_u32 count);
      let comp := comp ++ [member] in
      if (member =? node)%N then Ret (stack, on_stack, comp_of, comp)
      else pop_component node count stack on_stack comp_of comp
  end.

Definition set_low (st : Walk) (low : list N) : Walk :=
  mkWalk (sc_index st) low (sc_on_stack st) (sc_stack st) (sc_next st) (sc_comps st)
    (sc_comp_of st) (sc_work st).

Definition set_work (st : Walk) (work : list (N * nat)) : Walk :=
  mkWalk (sc_index st) (sc_low st) (sc_on_stack st) (sc_stack st) (sc_next st) (sc_comps st)
    (sc_comp_of st) work.

(** [low[v] = low[v].min(bound)]. *)
Definition lower (st : Walk) (v bound : N) : exec Walk :=
  l ← get_at (sc_low st) v;
  low ← set_at (sc_low st) v (N.min l bound);
  Ret (set_low st low).

(** A frame with a successor left. *)
Definition scan (st : Walk) (node child : N) : exec Walk :=
  i ← get_at (sc_index st) child;
  if (i =? UNSET)%N then visit st child
  else
    on ← get_at (sc_on_stack st) child;
    if (on : bool) then lower st node i else Ret st.

(** A frame with no successor left. *)
Definition leave (st : Walk) (node : N) (rest : list (N * nat)) : exec Walk :=
  let st := set_work st rest in
  st ← match rest with
       | (parent, _) :: _ => l ← get_at (sc_low st) node; lower st parent l
       | [] => Ret st
       end;
  l ← get_at (sc_low st) node;
  i ← get_at (sc_index st) node;
  if (l =? i)%N then
    '(stack, on_stack, comp_of, comp) ←
      pop_component node (lenN (sc_comps st)) (sc_stack st) (sc_on_stack st) (sc_comp_of st) [];
    Ret (mkWalk (sc_index st) (sc_low st) on_stack stack (sc_next st) (sc_comps st ++ [comp])
           comp_of (sc_work st))
  else Ret st.

Definition scc_step (succ : list (list N)) (st : Walk) (node : N) (pos : nat)
    (rest : list (N * nat)) : exec Walk :=
  succs ← get_at succ node;
  match succs !! pos with
  | Some child => scan (set_work st ((node, S pos) :: rest)) node child
  | None => leave st node rest
  end.

Fixpoint scc_loop (fuel : nat) (succ : list (list N)) (st : Walk) : exec Walk :=
  match sc_work st with
  | [] => Ret st
  | (node, pos) :: rest =>
      match fuel with
      | 0 => NoFuel
      | S fuel => st ← scc_step succ st node pos rest; scc_loop fuel succ st
      end
  end.

Fixpoint scc_roots (fuel : nat) (succ : list (list N)) (roots : list N) (st : Walk) : exec Walk :=
  match roots with
  | [] => Ret st
  | root :: roots =>
      i ← get_at (sc_index st) root;
      if (i =? UNSET)%N then
        st ← visit st root;
        st ← scc_loop fuel succ st;
        scc_roots fuel succ roots st
      else scc_roots fuel succ roots st
  end.

(** One unit per node and per edge: enough for every frame of the walk. *)
Definition scc_fuel (succ : list (list N)) : nat := sum_list_with (λ s, S (length s)) succ.

Definition components_from_iter (n : nat) (succ : list (list N)) (roots : list N) :
    exec (list (list N) * list N) :=
  st ← scc_roots (scc_fuel succ) succ roots (walk_new n);
  Ret (sc_comps st, sc_comp_of st).

Definition components_from_roots (n : nat) (succ : list (list N)) (roots : list N) :
    exec (list (list N) * list N) :=
  components_from_iter n succ roots.

(** [0..node_count as u32]. *)
Definition components (n : nat) (succ : list (list N)) : exec (list (list N) * list N) :=
  components_from_iter n succ (N.of_nat <$> seq 0 (N.to_nat (as_u32 (N.of_nat n)))).

(** ** The graph *)

Definition edge (succ : list (list N)) (x y : N) : Prop :=
  ∃ s, succ !! N.to_nat x = Some s ∧ y ∈ s.

Definition reach (succ : list (list N)) : N → N → Prop := rtc (edge succ).

(** What the caller promises: a successor list per node, successors in range. *)
Record graph_ok (n : nat) (succ : list (list N)) : Prop := {
  g_len : n ≤ length succ;
  g_succ : ∀ x y, (x < N.of_nat n)%N → edge succ x y → (y < N.of_nat n)%N;
}.

(** ** The invariant of the walk *)

Lemma elem_of_concat {A} (x : A) (l : list (list A)) : x ∈ concat l ↔ ∃ c, x ∈ c ∧ c ∈ l.
Proof. rewrite list_elem_of_In, in_concat. setoid_rewrite list_elem_of_In. naive_solver. Qed.

Lemma concat_snoc {A} (l : list (list A)) c : concat (l ++ [c]) = concat l ++ c.
Proof. rewrite concat_app. simpl. by rewrite app_nil_r. Qed.

Section logic.
Context (succ : list (list N)).
Implicit Types (stk : list N) (wk : list (N * nat)) (cs : list (list N)) (ix lw : N → N).

(** The edges a walk has read: all of a left node, those before the position
    of an open frame. *)
Definition Scanned wk (x y : N) : Prop :=
  ∃ s p, succ !! N.to_nat x = Some s ∧ s !! p = Some y ∧ ∀ q, (x, q) ∈ wk → p < q.

(** The open node whose part of the stack holds [x]. *)
Definition Owner wk ix (g x : N) : Prop :=
  g ∈ wk.*1 ∧ (ix g <= ix x)%N ∧ ∀ g', g' ∈ wk.*1 → (ix g' <= ix x)%N → (ix g' <= ix g)%N.

Definition later ix (a b : N) : Prop := (ix b < ix a)%N.

Record Logic stk wk cs ix lw : Prop := {
  lo_nodup : NoDup (stk ++ concat cs);
  lo_sorted : StronglySorted (later ix) stk;
  lo_wsorted : StronglySorted (later ix) (wk.*1);
  lo_wsub : ∀ g, g ∈ wk.*1 → g ∈ stk;
  lo_seen : ∀ x y, x ∈ stk → Scanned wk x y → y ∈ stk ++ concat cs;
  lo_closed : ∀ i c x y, cs !! i = Some c → x ∈ c → edge succ x y →
    ∃ j c', j ≤ i ∧ cs !! j = Some c' ∧ y ∈ c';
  lo_conn : ∀ c x y, c ∈ cs → x ∈ c → y ∈ c → reach succ x y;
  lo_le : ∀ g, g ∈ wk.*1 → (lw g <= ix g)%N;
  lo_wit : ∀ g, g ∈ wk.*1 → ∃ w, w ∈ stk ∧ ix w = lw g ∧ reach succ g w;
  lo_cut : ∀ g x y, Owner wk ix g x → x ∈ stk → Scanned wk x y → y ∈ stk → (lw g <= ix y)%N;
  lo_up : ∀ x, x ∈ stk → x ∉ wk.*1 → ∃ y, y ∈ stk ∧ (ix y < ix x)%N ∧ reach succ x y;
  lo_down : ∀ g x, g ∈ wk.*1 → x ∈ stk → (ix g <= ix x)%N → reach succ g x;
}.

Lemma sorted_head ix a l x : StronglySorted (later ix) (a :: l) → x ∈ l → (ix x < ix a)%N.
Proof. intros H Hx. apply StronglySorted_inv in H as [_ H]. by apply (proj1 (list.Forall_forall _ _) H) in Hx. Qed.

Lemma sorted_inj ix l x y :
  StronglySorted (later ix) l → x ∈ l → y ∈ l → ix x = ix y → x = y.
Proof.
  induction l as [|a l IH]; intros Hs Hx Hy E; [by apply not_elem_of_nil in Hx|].
  pose proof (sorted_head ix a l) as Hh.
  apply elem_of_cons in Hx, Hy. destruct Hx as [->|Hx], Hy as [->|Hy]; try done.
  - specialize (Hh y Hs Hy). lia.
  - specialize (Hh x Hs Hx). lia.
  - apply StronglySorted_inv in Hs as [Hs _]. by apply IH.
Qed.

Lemma sorted_split ix l1 g l2 x :
  StronglySorted (later ix) (l1 ++ g :: l2) → x ∈ l1 ++ g :: l2 →
  (x ∈ l1 ++ [g] ↔ (ix g <= ix x)%N).
Proof.
  induction l1 as [|a l1 IH]; simpl; intros Hs Hx.
  - apply elem_of_cons in Hx as [->|Hx].
    { split; [lia|]. intros _. by apply list_elem_of_singleton. }
    pose proof (sorted_head ix g l2 x Hs Hx). split; [|lia].
    intros ->%list_elem_of_singleton. lia.
  - pose proof (sorted_head ix a (l1 ++ g :: l2) g Hs) as Hg.
    specialize (Hg ltac:(apply elem_of_app; right; by left)).
    apply elem_of_cons in Hx as [->|Hx].
    { split; [lia|]. intros _. by left. }
    pose proof (sorted_head ix a _ x Hs Hx).
    apply StronglySorted_inv in Hs as [Hs _].
    rewrite elem_of_cons, (IH Hs Hx). split; [intros [->|?]; lia|auto].
Qed.

Lemma sorted_agree ix ix' l :
  (∀ x, x ∈ l → ix' x = ix x) → StronglySorted (later ix) l → StronglySorted (later ix') l.
Proof.
  induction l as [|a l IH]; intros E Hs; [constructor|].
  apply StronglySorted_inv in Hs as [Hs Ha]. constructor.
  - apply IH; [|done]. intros x ?. apply E. by right.
  - apply list.Forall_forall. intros x Hx. apply (proj1 (list.Forall_forall _ _) Ha) in Hx as Hl.
    unfold later in *. rewrite (E x), (E a); [done|by left|by right].
Qed.

(** Numbering a new node and opening its frame. *)
Lemma logic_visit stk wk cs ix lw v n :
  Logic stk wk cs ix lw → v ∉ stk ++ concat cs →
  (∀ x, x ∈ stk ++ concat cs → (ix x < n)%N) →
  (∀ g, g ∈ wk.*1 → reach succ g v) →
  Logic (v :: stk) ((v, 0) :: wk) cs
    (λ x, if (x =? v)%N then n else ix x) (λ x, if (x =? v)%N then n else lw x).
Proof.
  intros L Hv Hn Hr.
  assert (Hne : ∀ x, x ∈ stk → (x =? v)%N = false).
  { intros x Hx. apply N.eqb_neq. intros ->. apply Hv, elem_of_app. by left. }
  assert (Hnw : ∀ x, x ∈ wk.*1 → (x =? v)%N = false).
  { intros x Hx. apply Hne. by apply (lo_wsub _ _ _ _ _ L). }
  assert (Hlt : ∀ x, x ∈ stk → (ix x < n)%N).
  { intros x Hx. apply Hn, elem_of_app. by left. }
  assert (Hsc : ∀ x y, x ∈ stk → Scanned ((v, 0) :: wk) x y → Scanned wk x y).
  { intros x y _ (s & p & ? & ? & Hp). exists s, p. split_and!; [done..|].
    intros q Hq. apply Hp. by right. }
  assert (Hsv : ∀ y, ¬ Scanned ((v, 0) :: wk) v y).
  { intros y (s & p & _ & _ & Hp). specialize (Hp 0 ltac:(by left)). lia. }
  constructor; simpl.
  - apply NoDup_cons. split; [done|apply L].
  - constructor; [apply (sorted_agree ix); [|apply L]; intros x Hx; by rewrite (Hne x Hx)|].
    apply list.Forall_forall. intros x Hx. unfold later. rewrite (Hne x Hx), N.eqb_refl. auto.
  - constructor; [apply (sorted_agree ix); [|apply L]; intros x Hx; by rewrite (Hnw x Hx)|].
    apply list.Forall_forall. intros x Hx. unfold later. rewrite (Hnw x Hx), N.eqb_refl.
    apply Hlt. by apply L.
  - intros g [->|Hg]%elem_of_cons; [by left|]. right. by apply L.
  - intros x y [->|Hx]%elem_of_cons Hs; [by destruct (Hsv y)|]. right.
    apply (lo_seen _ _ _ _ _ L x); auto.
  - apply L.
  - apply L.
  - intros g [->|Hg]%elem_of_cons; [rewrite N.eqb_refl; lia|]. rewrite (Hnw g Hg). by apply L.
  - intros g [->|Hg]%elem_of_cons.
    + exists v. rewrite N.eqb_refl. split_and!; [by left|done|apply rtc_refl].
    + destruct (lo_wit _ _ _ _ _ L g Hg) as (w & Hw & Ew & Rw).
      exists w. rewrite (Hnw g Hg), (Hne w Hw). split_and!; [by right|done|done].
  - intros g x y (Hg & Hle & Hmax) [->|Hx]%elem_of_cons Hs Hy; [by destruct (Hsv y)|].
    apply elem_of_cons in Hg as [->|Hg].
    { rewrite N.eqb_refl, (Hne x Hx) in Hle. specialize (Hlt x Hx). lia. }
    rewrite (Hnw g Hg). rewrite (Hnw g Hg), (Hne x Hx) in Hle.
    destruct (decide (y = v)) as [->|Hyv].
    { rewrite N.eqb_refl. pose proof (lo_le _ _ _ _ _ L g Hg). specialize (Hlt x Hx). lia. }
    apply elem_of_cons in Hy as [->|Hy]; [done|]. rewrite (Hne y Hy).
    apply (lo_cut _ _ _ _ _ L g x); auto. split_and!; [done..|].
    intros g' Hg' Hle'. specialize (Hmax g' ltac:(by right)).
    rewrite (Hnw g' Hg'), (Hne x Hx), (Hnw g Hg) in Hmax. auto.
  - intros x [->|Hx]%elem_of_cons Hw; [destruct Hw; by left|].
    destruct (lo_up _ _ _ _ _ L x Hx) as (y & Hy & Hl & R).
    { intros ?. apply Hw. by right. }
    exists y. rewrite (Hne x Hx), (Hne y Hy). split_and!; [by right|done|done].
  - intros g x [->|Hg]%elem_of_cons [->|Hx]%elem_of_cons Hle; [apply rtc_refl| |by apply Hr|].
    + rewrite N.eqb_refl, (Hne x Hx) in Hle. specialize (Hlt x Hx). lia.
    + rewrite (Hnw g Hg), (Hne x Hx) in Hle. by apply L.
Qed.

(** Reading one more edge of an open node. *)
Lemma logic_scan stk wk wk' cs ix lw node child :
  Logic stk wk cs ix lw → wk'.*1 = wk.*1 → node ∈ wk.*1 →
  (∀ x y, Scanned wk' x y → Scanned wk x y ∨ (x = node ∧ y = child)) →
  child ∈ stk ++ concat cs → (child ∈ stk → (lw node <= ix child)%N) →
  Logic stk wk' cs ix lw.
Proof.
  intros L Ew Hnode Hs Hc Hl.
  destruct L as [L1 L2 L3 L4 L5 L6 L7 L8 L9 L10 L11 L12].
  constructor; try rewrite Ew; try done.
  - intros x y Hx [?|[-> ->]]%Hs; [by apply (L5 x)|done].
  - intros g x y Ho Hx Hxy Hy. unfold Owner in Ho. rewrite Ew in Ho.
    apply Hs in Hxy as [?|[-> ->]]; [by apply (L10 g x y)|].
    destruct Ho as (Hg & Hle & Hmax). specialize (Hmax node Hnode ltac:(lia)).
    rewrite (sorted_inj ix stk g node); auto. lia.
Qed.

(** Lowering an open node to the number of a stack node it reaches. *)
Lemma logic_lower stk wk cs ix lw node w :
  Logic stk wk cs ix lw → w ∈ stk → reach succ node w →
  Logic stk wk cs ix (λ x, if (x =? node)%N then N.min (lw node) (ix w) else lw x).
Proof.
  intros [L1 L2 L3 L4 L5 L6 L7 L8 L9 L10 L11 L12] Hw Hr.
  constructor; try done.
  - intros g Hg. specialize (L8 g Hg). destruct (N.eqb_spec g node); subst; lia.
  - intros g Hg. destruct (N.eqb_spec g node) as [->|]; [|by apply L9].
    destruct (N.min_spec (lw node) (ix w)) as [[_ ->]|[_ ->]]; [by apply L9|by exists w].
  - intros g x y Ho Hx Hxy Hy. specialize (L10 g x y Ho Hx Hxy Hy).
    destruct (N.eqb_spec g node); subst; lia.
Qed.

Lemma logic_ext stk wk cs ix ix' lw lw' :
  (∀ x, ix' x = ix x) → (∀ x, lw' x = lw x) → Logic stk wk cs ix lw → Logic stk wk cs ix' lw'.
Proof.
  intros Ei El L. constructor; try apply L; unfold Owner.
  - apply (sorted_agree ix); [auto|apply L].
  - apply (sorted_agree ix); [auto|apply L].
  - intros g ?. rewrite Ei, El. by apply L.
  - intros g ?. setoid_rewrite Ei. rewrite El. by apply L.
  - intros g x y. setoid_rewrite Ei. rewrite El. by apply L.
  - intros x. setoid_rewrite Ei. by apply L.
  - intros g x. rewrite !Ei. by apply L.
Qed.

Section leave.
Context (stk : list N) (rest : list (N * nat)) (cs : list (list N)) (ix lw : N → N) (node : N) (pos : nat) (s : list N).
Context (L : Logic stk ((node, pos) :: rest) cs ix lw).
Context (Hs : succ !! N.to_nat node = Some s) (Hpos : length s ≤ pos).

Lemma leave_scanned x y : Scanned rest x y → Scanned ((node, pos) :: rest) x y.
Proof.
  intros (s' & p & E & Ey & Hp). exists s', p. split_and!; [done..|].
  intros q [[= -> ->]|Hq]%elem_of_cons; [|by apply Hp].
  rewrite Hs in E. simplify_eq. apply lookup_lt_Some in Ey. lia.
Qed.

Lemma leave_node : node ∈ stk ∧ node ∉ rest.*1.
Proof.
  split; [apply (lo_wsub _ _ _ _ _ L); by left|].
  intros H. pose proof (lo_wsorted _ _ _ _ _ L) as HS.
  apply (sorted_head ix node (rest.*1)) in H; [lia|done].
Qed.

Lemma leave_below g : g ∈ rest.*1 → (ix g < ix node)%N.
Proof. apply (sorted_head ix node (rest.*1)), L. Qed.

Lemma leave_owner x : (ix node <= ix x)%N → Owner ((node, pos) :: rest) ix node x.
Proof.
  intros Hx. split_and!; [by left|done|].
  intros g' [->|Hg']%elem_of_cons _; [simpl; lia|]. apply leave_below in Hg'. lia.
Qed.

Lemma leave_owner_below g x :
  Owner rest ix g x → (ix x < ix node)%N → Owner ((node, pos) :: rest) ix g x.
Proof.
  intros (Hg & Hle & Hmax) Hx. split_and!; [by right|done|].
  intros g' [->|Hg']%elem_of_cons ?; [simpl in *; lia|auto].
Qed.

Lemma leave_parent g x : Owner rest ix g x → (ix node <= ix x)%N → ∃ q t, rest = (g, q) :: t.
Proof.
  intros (Hg & Hgx & Hmax) Hx.
  assert (HR : ∀ p q t, rest = (p, q) :: t → g = p).
  { intros p q t E. rewrite E in Hg. simpl in Hg.
    apply elem_of_cons in Hg as [->|Hg]; [done|].
    assert (Hp : p ∈ rest.*1) by (rewrite E; by left).
    pose proof (leave_below p Hp). specialize (Hmax p Hp ltac:(lia)).
    pose proof (lo_wsorted _ _ _ _ _ L) as [HS _]%StronglySorted_inv. rewrite E in HS.
    pose proof (sorted_head ix p (t.*1) g HS Hg). lia. }
  destruct rest as [|[p q] t]; [by apply not_elem_of_nil in Hg|].
  rewrite (HR p q t eq_refl). by exists q, t.
Qed.

(** The frame ends and its node stays on the stack. *)
Lemma logic_leave_keep :
  (lw node < ix node)%N → (∀ p q t, rest = (p, q) :: t → (lw p <= lw node)%N) →
  Logic stk rest cs ix lw.
Proof.
  intros Hlow Hpar. destruct leave_node as [Hn1 Hn2].
  constructor; try apply L.
  - pose proof (lo_wsorted _ _ _ _ _ L) as HS. by apply StronglySorted_inv in HS as [? _].
  - intros g Hg. apply L. by right.
  - intros x y Hx Hxy. by apply (lo_seen _ _ _ _ _ L x), leave_scanned.
  - intros g Hg. apply L. by right.
  - intros g Hg. apply L. by right.
  - intros g x y Ho Hx Hxy Hy. apply leave_scanned in Hxy.
    destruct (decide (ix node <= ix x)%N) as [Hle|Hlt].
    + pose proof (lo_cut _ _ _ _ _ L node x y (leave_owner x Hle) Hx Hxy Hy) as Hcut.
      destruct (leave_parent g x Ho Hle) as (q & t & E). specialize (Hpar g q t E). lia.
    + apply (lo_cut _ _ _ _ _ L g x y); [apply leave_owner_below; [done|lia]|done..].
  - intros x Hx Hnx. destruct (decide (x = node)) as [->|Hne].
    + destruct (lo_wit _ _ _ _ _ L node ltac:(by left)) as (w & Hw & Ew & Rw).
      exists w. split_and!; [done|lia|done].
    + apply (lo_up _ _ _ _ _ L x Hx). by intros [?|?]%elem_of_cons.
  - intros g x Hg. apply L. by right.
Qed.

(** The frame ends and the stack down to its node is a component. *)
Section component.
Context (seg low_stk : list N).
Context (Hstk : stk = seg ++ node :: low_stk) (Hroot : lw node = ix node).
Let comp := seg ++ [node].

Lemma comp_mem x : x ∈ stk → (x ∈ comp ↔ (ix node <= ix x)%N).
Proof.
  intros Hx. pose proof (lo_sorted _ _ _ _ _ L) as HS. rewrite Hstk in HS, Hx.
  by apply (sorted_split ix seg node low_stk).
Qed.

Lemma comp_low x : x ∈ stk → (ix x < ix node)%N → x ∈ low_stk.
Proof.
  intros Hx Hlt. pose proof (comp_mem x Hx) as Hm.
  rewrite Hstk in Hx. rewrite cons_middle, app_assoc in Hx.
  apply elem_of_app in Hx as [Hx|Hx]; [|done]. apply Hm in Hx. lia.
Qed.

Lemma low_below x : x ∈ low_stk → x ∈ stk ∧ (ix x < ix node)%N.
Proof.
  intros Hx. split; [rewrite Hstk, elem_of_app; right; by right|].
  pose proof (lo_sorted _ _ _ _ _ L) as HS. rewrite Hstk in HS.
  apply StronglySorted_app_1_r in HS. by apply (sorted_head ix node low_stk).
Qed.

Lemma comp_stk x : x ∈ comp → x ∈ stk.
Proof. unfold comp. rewrite Hstk. set_solver. Qed.

Lemma comp_scanned x y : x ∈ comp → edge succ x y → Scanned ((node, pos) :: rest) x y.
Proof.
  intros Hx (s' & E & [p Hp]%list_elem_of_lookup). exists s', p. split_and!; [done..|].
  intros q [[= -> ->]|Hq]%elem_of_cons.
  - rewrite Hs in E. simplify_eq. apply lookup_lt_Some in Hp. lia.
  - apply (list_elem_of_fmap_2 fst) in Hq. simpl in Hq. apply leave_below in Hq.
    pose proof (comp_stk x Hx) as Hxs. apply comp_mem in Hx; [lia|done].
Qed.

Lemma concat_edge x y : x ∈ concat cs → edge succ x y → y ∈ concat cs.
Proof.
  intros (c & Hx & [i Hi]%list_elem_of_lookup)%elem_of_concat He.
  destruct (lo_closed _ _ _ _ _ L i c x y Hi Hx He) as (j & c' & _ & Hj & Hy).
  apply elem_of_concat. exists c'. split; [done|]. by apply list_elem_of_lookup_2 in Hj.
Qed.

Lemma comp_edge x y : x ∈ comp → edge succ x y → y ∈ comp ∨ y ∈ concat cs.
Proof.
  intros Hx He. pose proof (comp_scanned x y Hx He) as Hsc. pose proof (comp_stk x Hx) as Hxs.
  pose proof (lo_seen _ _ _ _ _ L x y Hxs Hsc) as [Hy|Hy]%elem_of_app; [left|by right].
  apply comp_mem; [done|]. rewrite <-Hroot. apply comp_mem in Hx; [|done].
  by apply (lo_cut _ _ _ _ _ L node x y); [apply leave_owner|..].
Qed.

Lemma comp_reach x y : x ∈ comp → reach succ x y → y ∈ stk → y ∈ comp.
Proof.
  intros Hx Hr Hy.
  assert (Hc : y ∈ comp ∨ y ∈ concat cs).
  { assert (Hx' : x ∈ comp ∨ x ∈ concat cs) by (by left). clear Hx Hy.
    induction Hr as [x|x z y He Hr IH]; [done|]. apply IH.
    destruct Hx' as [Hx|Hx]; [by apply (comp_edge x)|].
    right. by apply (concat_edge x). }
  destruct Hc as [?|Hc]; [done|].
  pose proof (lo_nodup _ _ _ _ _ L) as (_ & Hd & _)%NoDup_app. by destruct (Hd y Hy).
Qed.

Lemma comp_up x : x ∈ comp → reach succ x node.
Proof.
  assert (H : ∀ k x, (ix x < k)%N → x ∈ comp → reach succ x node).
  { intros k. induction k as [|k IH] using N.peano_ind; [lia|]. clear x.
    intros x Hk Hx. destruct (decide (x = node)) as [->|Hne]; [apply rtc_refl|].
    pose proof (comp_stk x Hx) as Hxs.
    destruct (lo_up _ _ _ _ _ L x Hxs) as (y & Hy & Hlt & R).
    { intros [?|Hw%leave_below]%elem_of_cons; [done|]. apply comp_mem in Hx; [lia|done]. }
    transitivity y; [done|]. apply IH; [lia|]. by apply (comp_reach x y). }
  apply (H (N.succ (ix x))). lia.
Qed.

Lemma comp_closed i c x y : (cs ++ [comp]) !! i = Some c → x ∈ c → edge succ x y →
  ∃ j c', j ≤ i ∧ (cs ++ [comp]) !! j = Some c' ∧ y ∈ c'.
Proof.
  intros Hi Hx He. apply lookup_app_Some in Hi as [Hi|[Hle Hi]].
  - destruct (lo_closed _ _ _ _ _ L i c x y Hi Hx He) as (j & c' & Hj & Hc & Hy).
    exists j, c'. split_and!; [done| |done]. by apply lookup_app_l_Some.
  - apply list_lookup_singleton_Some in Hi as [Hi <-].
    apply comp_edge in He as [Hy|(c' & Hy & [j Hj]%list_elem_of_lookup)%elem_of_concat];
      [| |done].
    + exists i, comp. split_and!; [done| |done]. rewrite lookup_app_r by done.
      by apply list_lookup_singleton_Some.
    + exists j, c'. pose proof (lookup_lt_Some _ _ _ Hj).
      split_and!; [lia| |done]. by apply lookup_app_l_Some.
Qed.

Lemma comp_conn c x y : c ∈ cs ++ [comp] → x ∈ c → y ∈ c → reach succ x y.
Proof.
  intros [Hc| ->%list_elem_of_singleton]%elem_of_app Hx Hy; [by apply (lo_conn _ _ _ _ _ L c)|].
  transitivity node; [by apply comp_up|].
  apply (lo_down _ _ _ _ _ L); [by left|by apply comp_stk|].
  apply comp_mem; [by apply comp_stk|done].
Qed.

(** The stack down to [node] becomes the next component. *)
Lemma logic_leave_comp : Logic low_stk rest (cs ++ [comp]) ix lw.
Proof.
  pose proof (lo_nodup _ _ _ _ _ L) as Hnd.
  assert (Hperm : stk ++ concat cs ≡ₚ low_stk ++ concat (cs ++ [comp])).
  { rewrite concat_snoc, Hstk. unfold comp. solve_Permutation. }
  assert (Hmem : ∀ x, x ∈ rest.*1 → x ∈ low_stk).
  { intros x Hx. apply comp_low; [apply L; by right|by apply leave_below]. }
  constructor.
  - by rewrite <-Hperm.
  - pose proof (lo_sorted _ _ _ _ _ L) as HS. rewrite Hstk in HS.
    apply StronglySorted_app_1_r in HS. by apply StronglySorted_inv in HS as [? _].
  - pose proof (lo_wsorted _ _ _ _ _ L) as HS. by apply StronglySorted_inv in HS as [? _].
  - done.
  - intros x y [Hx _]%low_below Hxy. rewrite <-Hperm.
    by apply (lo_seen _ _ _ _ _ L x), leave_scanned.
  - apply comp_closed.
  - apply comp_conn.
  - intros g Hg. apply L. by right.
  - intros g Hg. destruct (lo_wit _ _ _ _ _ L g ltac:(by right)) as (w & Hw & Ew & Rw).
    exists w. split_and!; [|done..]. apply comp_low; [done|].
    pose proof (lo_le _ _ _ _ _ L g ltac:(by right)). apply leave_below in Hg. lia.
  - intros g x y Ho [Hx Hlt]%low_below Hxy [Hy _]%low_below.
    apply (lo_cut _ _ _ _ _ L g x y); auto using leave_owner_below, leave_scanned.
  - intros x [Hx Hlt]%low_below Hnx.
    destruct (lo_up _ _ _ _ _ L x Hx) as (y & Hy & Hyx & R).
    { intros [->|?]%elem_of_cons; simpl in *; [lia|done]. }
    exists y. split_and!; [apply comp_low; [done|lia]|done..].
  - intros g x Hg [Hx _]%low_below. apply L; [by right|done].
Qed.
End component.
End leave.
End logic.

(** ** The vectors of the walk *)

Definition ixf (st : Walk) (v : N) : N := default UNSET (sc_index st !! N.to_nat v).
Definition lwf (st : Walk) (v : N) : N := default 0%N (sc_low st !! N.to_nat v).
Definition visited (st : Walk) : list N := sc_stack st ++ concat (sc_comps st).

Record Shape (n : nat) (st : Walk) : Prop := {
  sh_index : length (sc_index st) = n;
  sh_low : length (sc_low st) = n;
  sh_on_len : length (sc_on_stack st) = n;
  sh_comp_len : length (sc_comp_of st) = n;
  sh_bound : ∀ v, v ∈ visited st → (v < N.of_nat n)%N;
  sh_nodup : NoDup (visited st);
  sh_visited : ∀ v, ixf st v ≠ UNSET ↔ v ∈ visited st;
  sh_lt : ∀ v, v ∈ visited st → (ixf st v < sc_next st)%N;
  sh_next : sc_next st = lenN (visited st);
  sh_on : ∀ v, (v < N.of_nat n)%N →
    sc_on_stack st !! N.to_nat v = Some (bool_decide (v ∈ sc_stack st));
  sh_comp_of : ∀ i c v, sc_comps st !! i = Some c → v ∈ c →
    sc_comp_of st !! N.to_nat v = Some (N.of_nat i);
  sh_nonempty : ∀ c, c ∈ sc_comps st → c ≠ [];
  sh_unset : ∀ v, (v < N.of_nat n)%N → v ∉ concat (sc_comps st) →
    sc_comp_of st !! N.to_nat v = Some UNSET;
}.

Lemma get_at_ok {A} (l : list A) v x : l !! N.to_nat v = Some x → get_at l v = Ret x.
Proof. unfold get_at. by intros ->. Qed.

Lemma get_at_index st v : ixf st v ≠ UNSET → get_at (sc_index st) v = Ret (ixf st v).
Proof. unfold ixf, get_at. by destruct (sc_index st !! N.to_nat v). Qed.

Lemma set_at_ok {A} (l : list A) v x :
  (v < lenN l)%N → set_at l v x = Ret (<[N.to_nat v := x]> l).
Proof. unfold set_at. intros H%N.ltb_lt. by rewrite H. Qed.

(** A vector read after a write, as a function update. *)
Lemma default_insert {A} (d : A) (l : list A) v x w :
  (v < lenN l)%N →
  default d (<[N.to_nat v := x]> l !! N.to_nat w) = if (w =? v)%N then x else default d (l !! N.to_nat w).
Proof.
  unfold lenN. intros Hv. destruct (N.eqb_spec w v) as [->|Hne].
  - rewrite list_lookup_insert_eq by lia. done.
  - rewrite list_lookup_insert_ne by lia. done.
Qed.

Lemma get_default {A} (d : A) (l : list A) v :
  (v < lenN l)%N → get_at l v = Ret (default d (l !! N.to_nat v)).
Proof.
  unfold lenN, get_at. intros Hv.
  destruct (lookup_lt_is_Some_2 l (N.to_nat v)) as [x ->]; [lia|done].
Qed.

(** There are at most as many visited nodes as nodes, one fewer while some
    node is not visited. *)
Lemma nodup_bounded (l : list N) (n : nat) :
  NoDup l → (∀ v, v ∈ l → (v < N.of_nat n)%N) → length l ≤ n.
Proof.
  intros Hnd Hb.
  transitivity (length (N.of_nat <$> seq 0 n)); [|by rewrite length_fmap, length_seq].
  apply submseteq_length, NoDup_submseteq; [done|]. intros v Hv.
  apply list_elem_of_fmap. exists (N.to_nat v). specialize (Hb v Hv).
  rewrite elem_of_seq. split; lia.
Qed.

Lemma shape_room n st v : Shape n st → v ∉ visited st → (v < N.of_nat n)%N →
  (sc_next st < N.of_nat n)%N.
Proof.
  intros Sh Hv Hn. pose proof (nodup_bounded (v :: visited st) n) as H.
  rewrite (sh_next _ _ Sh). unfold lenN. simpl in H.
  assert (S (length (visited st)) ≤ n); [|lia]. apply H.
  - apply NoDup_cons. split; [done|apply Sh].
  - intros w [->|?]%elem_of_cons; [done|by apply Sh].
Qed.

Lemma length_concat_nonempty {A} (l : list (list A)) :
  (∀ c, c ∈ l → c ≠ []) → length l ≤ length (concat l).
Proof.
  induction l as [|c l IH]; intros H; simpl; [done|]. rewrite length_app.
  assert (length l ≤ length (concat l)) by (apply IH; intros; apply H; by right).
  assert (c ≠ []) by (apply H; by left). destruct c; simpl in *; [done|lia].
Qed.

Lemma shape_count n st : Shape n st → (lenN (sc_comps st) <= N.of_nat n)%N.
Proof.
  intros Sh. pose proof (nodup_bounded (visited st) n (sh_nodup _ _ Sh) (sh_bound _ _ Sh)) as H.
  unfold visited in H. rewrite length_app in H. unfold lenN.
  pose proof (length_concat_nonempty (sc_comps st) (sh_nonempty _ _ Sh)). lia.
Qed.

(** [visit] on a node that was not reached. *)
Lemma visit_shape n st v : Shape n st → (N.of_nat n <= U32_MAX)%N →
  ixf st v = UNSET → (v < N.of_nat n)%N →
  ∃ st', visit st v = Ret st' ∧ Shape n st' ∧
    sc_stack st' = v :: sc_stack st ∧ sc_work st' = (v, 0) :: sc_work st ∧
    sc_comps st' = sc_comps st ∧
    (∀ x, ixf st' x = if (x =? v)%N then sc_next st else ixf st x) ∧
    (∀ x, lwf st' x = if (x =? v)%N then sc_next st else lwf st x).
Proof.
  intros Sh Hmax Hu Hv.
  assert (Hnv : v ∉ visited st) by (intros H%(sh_visited _ _ Sh); done).
  pose proof (shape_room n st v Sh Hnv Hv) as Hroom.
  assert (Hlt : ∀ A (l : list A), length l = n → (v < lenN l)%N) by (unfold lenN; intros; lia).
  unfold visit. rewrite !set_at_ok by (apply Hlt; apply Sh). simpl.
  unfold incr_u32. rewrite (proj2 (N.ltb_lt _ _)) by lia. simpl.
  set (st' := mkWalk _ _ _ _ _ _ _ _). exists st'.
  assert (Hix : ∀ x, ixf st' x = if (x =? v)%N then sc_next st else ixf st x).
  { intros x. apply default_insert, Hlt, Sh. }
  split_and!; try done; [|intros x; apply default_insert, Hlt, Sh].
  assert (Hvis : visited st' = v :: visited st) by done.
  constructor; simpl; rewrite ?length_insert, ?Hvis; try apply Sh.
  - intros w [->|?]%elem_of_cons; [done|by apply Sh].
  - apply NoDup_cons. split; [done|apply Sh].
  - intros w. rewrite Hix, elem_of_cons, <-(sh_visited _ _ Sh). unfold UNSET in *.
    destruct (N.eqb_spec w v) as [->|]; [split; [by left|lia]|naive_solver].
  - intros w Hw. rewrite Hix. destruct (N.eqb_spec w v); [lia|].
    apply elem_of_cons in Hw as [?|Hw]; [done|]. apply (sh_lt _ _ Sh) in Hw. lia.
  - rewrite (sh_next _ _ Sh). unfold lenN. simpl. lia.
  - intros w Hw. destruct (decide (w = v)) as [->|Hne].
    + rewrite list_lookup_insert_eq by (rewrite (sh_on_len _ _ Sh); lia).
      rewrite bool_decide_true; [done|by left].
    + rewrite list_lookup_insert_ne by lia. rewrite (sh_on _ _ Sh w Hw). f_equal.
      apply bool_decide_ext. rewrite elem_of_cons. naive_solver.
Qed.

(** Popping the stack down to [node] clears the marks and numbers the members. *)
Lemma pop_component_spec node count seg low on_stack comp_of acc :
  node ∉ seg → NoDup seg → length on_stack = length comp_of →
  (∀ v, v ∈ seg ++ [node] → (v < lenN on_stack)%N) →
  ∃ on_stack' comp_of',
    pop_component node count (seg ++ node :: low) on_stack comp_of acc
      = Ret (low, on_stack', comp_of', acc ++ seg ++ [node]) ∧
    length on_stack' = length on_stack ∧ length comp_of' = length comp_of ∧
    (∀ v, (v ∈ seg ++ [node] →
             on_stack' !! N.to_nat v = Some false ∧ comp_of' !! N.to_nat v = Some (as_u32 count)) ∧
          (v ∉ seg ++ [node] →
             on_stack' !! N.to_nat v = on_stack !! N.to_nat v ∧
             comp_of' !! N.to_nat v = comp_of !! N.to_nat v)).
Proof.
  revert on_stack comp_of acc. induction seg as [|m seg IH]; intros on_stack comp_of acc Hn Hd Hlen Hb.
  - simpl. unfold lenN in *. specialize (Hb node ltac:(by left)).
    rewrite !set_at_ok by (unfold lenN; lia). simpl. rewrite N.eqb_refl.
    eexists _, _. split; [done|]. rewrite !length_insert. split_and!; [done..|]. intros v.
    rewrite list_elem_of_singleton. split; [intros ->|intros Hv].
    + rewrite !list_lookup_insert_eq by lia. done.
    + rewrite !list_lookup_insert_ne by lia. done.
  - apply not_elem_of_cons in Hn as [Hne Hn]. apply NoDup_cons in Hd as [Hm Hd].
    pose proof (Hb m ltac:(by left)) as Hbm. unfold lenN in *. simpl.
    rewrite !set_at_ok by (unfold lenN; lia). simpl.
    rewrite (proj2 (N.eqb_neq m node)) by done.
    destruct (IH (<[N.to_nat m:=false]> on_stack) (<[N.to_nat m:=as_u32 count]> comp_of) (acc ++ [m]))
      as (on' & co' & E & L1 & L2 & Hv); [done|done|by rewrite !length_insert| |].
    { intros v ?. rewrite length_insert. apply Hb. by right. }
    rewrite length_insert in L1. rewrite length_insert in L2. exists on', co'. rewrite E.
    split_and!; [by rewrite <-app_assoc|done..|]. intros v. destruct (Hv v) as [H1 H2].
    rewrite elem_of_cons. split.
    + intros [->|?]; [|by apply H1].
      destruct H2 as [E1 E2].
      { intros [?| ->%list_elem_of_singleton]%elem_of_app; done. }
      rewrite E1, E2, !list_lookup_insert_eq by lia. done.
    + intros Hnv. destruct H2 as [E1 E2]; [tauto|].
      rewrite E1, E2, !list_lookup_insert_ne by (intros ?; apply Hnv; left; lia). done.
Qed.

Lemma lower_spec n st v b : Shape n st → (v < N.of_nat n)%N →
  ∃ st', lower st v b = Ret st' ∧ Shape n st' ∧
    sc_stack st' = sc_stack st ∧ sc_work st' = sc_work st ∧ sc_comps st' = sc_comps st ∧
    (∀ x, ixf st' x = ixf st x) ∧
    (∀ x, lwf st' x = if (x =? v)%N then N.min (lwf st v) b else lwf st x).
Proof.
  intros Sh Hv. assert (Hl : (v < lenN (sc_low st))%N) by (unfold lenN; rewrite (sh_low _ _ Sh); lia).
  unfold lower. rewrite (get_default 0%N) by done. simpl. rewrite set_at_ok by done. simpl.
  eexists. split; [done|]. split_and!; try done; [|intros x; by apply default_insert].
  constructor; simpl; try apply Sh. rewrite length_insert. apply Sh.
Qed.

(** [leave] at the root of a component. *)
Lemma pop_shape n st node seg low :
  Shape n st → (N.of_nat n <= U32_MAX)%N → sc_stack st = seg ++ node :: low →
  ∃ on_stack comp_of,
    pop_component node (lenN (sc_comps st)) (sc_stack st) (sc_on_stack st) (sc_comp_of st) []
      = Ret (low, on_stack, comp_of, seg ++ [node]) ∧
    Shape n (mkWalk (sc_index st) (sc_low st) on_stack low (sc_next st)
               (sc_comps st ++ [seg ++ [node]]) comp_of (sc_work st)).
Proof.
  intros Sh Hmax Hstk. set (comp := seg ++ [node]).
  assert (Hsplit : sc_stack st = comp ++ low) by (unfold comp; by rewrite <-app_assoc).
  pose proof (sh_nodup _ _ Sh) as Hnd. unfold visited in Hnd.
  assert (Hperm : visited st ≡ₚ low ++ concat (sc_comps st ++ [comp])).
  { unfold visited. rewrite concat_snoc, Hsplit. solve_Permutation. }
  apply NoDup_app in Hnd as (Hns & Hdis & Hnc). rewrite Hsplit in Hns.
  apply NoDup_app in Hns as (Hcomp & Hcl & Hlow).
  pose proof Hcomp as (Hseg & Hns & _)%NoDup_app.
  assert (Hin : ∀ v, v ∈ comp → v ∈ visited st).
  { intros v Hv. apply elem_of_app. left. rewrite Hsplit. apply elem_of_app. by left. }
  pose proof (shape_count n st Sh) as Hcount.
  destruct (pop_component_spec node (lenN (sc_comps st)) seg low (sc_on_stack st) (sc_comp_of st) [])
    as (on' & co' & E & L1 & L2 & Hv).
  - intros Hn. apply (Hns node Hn). by left.
  - done.
  - by rewrite (sh_on_len _ _ Sh), (sh_comp_len _ _ Sh).
  - intros v Hvc. unfold lenN. rewrite (sh_on_len _ _ Sh). by apply Sh, Hin.
  - exists on', co'. rewrite Hstk, E. split; [done|].
    rewrite as_u32_small in Hv by lia.
    constructor; unfold visited, ixf; simpl; rewrite <-?Hperm; try apply Sh.
    + rewrite L1. apply Sh.
    + rewrite L2. apply Sh.
    + intros v. rewrite <-Hperm. apply Sh.
    + intros v. rewrite <-Hperm. apply Sh.
    + intros v. rewrite <-Hperm. apply Sh.
    + rewrite (sh_next _ _ Sh). unfold lenN. by rewrite Hperm.
    + intros v Hvn. destruct (Hv v) as [Hv1 Hv2]. destruct (decide (v ∈ comp)) as [Hc|Hc].
      * rewrite (proj1 (Hv1 Hc)), bool_decide_false; [done|]. by apply Hcl.
      * rewrite (proj1 (Hv2 Hc)), (sh_on _ _ Sh v Hvn). f_equal. apply bool_decide_ext.
        rewrite Hsplit, elem_of_app. naive_solver.
    + intros i c v [Hi|[Hi Hc]]%lookup_app_Some Hvc.
      * destruct (Hv v) as [_ [_ ->]]; [|by apply (sh_comp_of _ _ Sh i c)].
        intros Hc. apply (Hdis v); [rewrite Hsplit; apply elem_of_app; by left|].
        apply elem_of_concat. exists c. split; [done|]. by apply list_elem_of_lookup_2 in Hi.
      * apply list_lookup_singleton_Some in Hc as [Hi' <-].
        rewrite (proj2 (proj1 (Hv v) Hvc)). unfold lenN. f_equal. lia.
    + intros c [?| ->%list_elem_of_singleton]%elem_of_app; [by apply Sh|].
      unfold comp. by destruct seg.
    + intros v Hvn Hnv. rewrite concat_snoc, not_elem_of_app in Hnv. destruct Hnv as [Hnv Hnc'].
      rewrite (proj2 (proj2 (Hv v) Hnc')). by apply Sh.
Qed.

(** ** One step, the loop, the roots *)

Definition deg (succ : list (list N)) (v : nat) : nat := length (default [] (succ !! v)).

(** Successors left to read and frames left to close. *)
Definition todo (succ : list (list N)) (ix : N → N) (v : nat) : nat :=
  if (ix (N.of_nat v) =? UNSET)%N then S (deg succ v) else 0.
Definition open_frames (succ : list (list N)) (wk : list (N * nat)) : nat :=
  sum_list_with (λ f, S (deg succ (N.to_nat f.1) - f.2)) wk.
Definition measure (n : nat) (succ : list (list N)) (st : Walk) : nat :=
  sum_list_with (todo succ (ixf st)) (seq 0 n) + open_frames succ (sc_work st).

Record Inv (n : nat) (succ : list (list N)) (roots : list N) (st : Walk) : Prop := {
  inv_shape : Shape n st;
  inv_logic : Logic succ (sc_stack st) (sc_work st) (sc_comps st) (ixf st) (lwf st);
  inv_roots : ∀ v, v ∈ visited st → ∃ r, r ∈ roots ∧ reach succ r v;
}.

Lemma sum_list_ext {A} (f g : A → nat) l :
  (∀ x, x ∈ l → f x = g x) → sum_list_with f l = sum_list_with g l.
Proof.
  induction l as [|x l IH]; intros E; simpl; [done|].
  rewrite (E x), IH; [done| |by left]. intros y Hy. apply E. by right.
Qed.

Lemma sum_seq_change (f g : nat → nat) n i :
  i < n → (∀ j, j ≠ i → f j = g j) →
  sum_list_with f (seq 0 n) + g i = sum_list_with g (seq 0 n) + f i.
Proof.
  intros Hi E. replace n with (i + S (n - S i)) by lia.
  rewrite seq_app, !sum_list_with_app. simpl.
  rewrite (sum_list_ext f g (seq 0 i)), (sum_list_ext f g (seq (S i) (n - S i))); [lia|..];
    intros j Hj%elem_of_seq; apply E; lia.
Qed.

Lemma sum_seq_shift (f : nat → nat) k n :
  sum_list_with f (seq (S k) n) = sum_list_with (λ v, f (S v)) (seq k n).
Proof. revert k. induction n as [|n IH]; intros k; simpl; [done|]. by rewrite IH. Qed.

Lemma todo_le (succ : list (list N)) ix n :
  n ≤ length succ → sum_list_with (todo succ ix) (seq 0 n) ≤ scc_fuel succ.
Proof.
  intros Hn. unfold scc_fuel.
  transitivity (sum_list_with (λ v, S (deg succ v)) (seq 0 (length succ))).
  - replace (length succ) with (n + (length succ - n)) by lia. rewrite seq_app, sum_list_with_app.
    transitivity (sum_list_with (λ v, S (deg succ v)) (seq 0 n)); [|lia].
    clear. induction (seq 0 n) as [|v l IH]; simpl; [done|]. unfold todo at 1. case_match; lia.
  - clear. induction succ as [|s succ IH]; simpl; [done|]. rewrite sum_seq_shift.
    apply le_n_S, Nat.add_le_mono_l, IH.
Qed.

Lemma measure_visit n succ st st' v i wk :
  ixf st v = UNSET → i ≠ UNSET → (v < N.of_nat n)%N →
  (∀ x, ixf st' x = if (x =? v)%N then i else ixf st x) → sc_work st' = (v, 0) :: wk →
  measure n succ st' = sum_list_with (todo succ (ixf st)) (seq 0 n) + open_frames succ wk.
Proof.
  intros Hu Hi Hv Hix Hw. unfold measure. rewrite Hw. simpl.
  assert (E1 : todo succ (ixf st) (N.to_nat v) = S (deg succ (N.to_nat v))).
  { unfold todo. by rewrite N2Nat.id, Hu. }
  assert (E2 : todo succ (ixf st') (N.to_nat v) = 0).
  { unfold todo. rewrite N2Nat.id, Hix, N.eqb_refl. by rewrite (proj2 (N.eqb_neq i UNSET) Hi). }
  pose proof (sum_seq_change (todo succ (ixf st')) (todo succ (ixf st)) n (N.to_nat v)) as H.
  rewrite E1, E2 in H. unfold open_frames. simpl. rewrite Nat.sub_0_r.
  assert (N.to_nat v < n) by lia. specialize (H ltac:(done)). rewrite <-plus_n_O in H.
  rewrite <-H; [lia|].
  intros j Hj. unfold todo. rewrite Hix, (proj2 (N.eqb_neq (N.of_nat j) v)); [done|lia].
Qed.

Lemma scanned_bump succ w1 node pos rest s child x y :
  succ !! N.to_nat node = Some s → s !! pos = Some child →
  Scanned succ (w1 ++ (node, S pos) :: rest) x y →
  Scanned succ (w1 ++ (node, pos) :: rest) x y ∨ (x = node ∧ y = child).
Proof.
  intros Hs Hc (s' & p & E & Hy & Hp).
  destruct (decide (x = node ∧ p = pos)) as [[-> ->]|Hne]; [right; naive_solver|].
  left. exists s', p. split_and!; [done..|]. intros q Hq.
  apply elem_of_app in Hq as [Hq|[[= -> ->]|Hq]%elem_of_cons].
  - apply Hp, elem_of_app. by left.
  - assert (p < S pos); [apply Hp, elem_of_app; right; by left|]. destruct (decide (p = pos)); [naive_solver|lia].
  - apply Hp, elem_of_app. right. by right.
Qed.

Section steps.
Context (n : nat) (succ : list (list N)) (roots : list N).
Context (Hg : graph_ok n succ) (Hmax : (N.of_nat n <= U32_MAX)%N).

Lemma set_work_shape st wk : Shape n st → Shape n (set_work st wk).
Proof. intros Sh. constructor; apply Sh. Qed.

Lemma visit_inv st v wk1 wk2 :
  Shape n st → Logic succ (sc_stack st) wk1 (sc_comps st) (ixf st) (lwf st) →
  (∀ x, x ∈ visited st → ∃ r, r ∈ roots ∧ reach succ r x) → sc_work st = wk2 →
  ixf st v = UNSET → (v < N.of_nat n)%N → (∃ r, r ∈ roots ∧ reach succ r v) →
  (∀ g, g ∈ wk1.*1 → reach succ g v) →
  (∀ ix lw, (∀ x, x ∈ sc_stack st → (ix x < ix v)%N) →
     Logic succ (v :: sc_stack st) ((v, 0) :: wk1) (sc_comps st) ix lw →
     Logic succ (v :: sc_stack st) ((v, 0) :: wk2) (sc_comps st) ix lw) →
  ∃ st', visit st v = Ret st' ∧ Inv n succ roots st' ∧
    measure n succ st' = measure n succ st.
Proof using Hmax.
  intros Sh L HR Hwk Hu Hv Hr Hgray Hconv.
  destruct (visit_shape n st v Sh Hmax Hu Hv) as (st' & E & Sh' & Es & Ew & Ec & Ei & El).
  assert (Hnv : v ∉ visited st) by (intros H%(sh_visited _ _ Sh); done).
  exists st'. split_and!; [done| |].
  - constructor; [done| |].
    + rewrite Es, Ew, Ec, Hwk. apply (logic_ext _ _ _ _ _ _ _ _ Ei El), Hconv.
      * intros x Hx. rewrite N.eqb_refl. destruct (N.eqb_spec x v) as [->|].
        { destruct Hnv. apply elem_of_app. by left. }
        apply (sh_lt _ _ Sh), elem_of_app. by left.
      * apply logic_visit; [done..| |done]. intros x Hx. by apply (sh_lt _ _ Sh).
    + intros x Hx. unfold visited in Hx. rewrite Es, Ec in Hx.
      apply elem_of_cons in Hx as [->|Hx]; [done|]. by apply HR.
  - rewrite (measure_visit n succ st st' v (sc_next st) (sc_work st)); try done.
    pose proof (shape_room n st v Sh Hnv Hv). unfold UNSET. lia.
Qed.

Section frame.
Context (st : Walk) (node : N) (pos : nat) (rest : list (N * nat)) (s : list N).
Context (I : Inv n succ roots st) (Hw : sc_work st = (node, pos) :: rest).
Context (Hs : succ !! N.to_nat node = Some s).

Lemma frame_logic :
  Logic succ (sc_stack st) ((node, pos) :: rest) (sc_comps st) (ixf st) (lwf st).
Proof. rewrite <-Hw. apply I. Qed.

Lemma frame_node : node ∈ sc_stack st ∧ (node < N.of_nat n)%N.
Proof.
  assert (H : node ∈ sc_stack st) by (apply (lo_wsub _ _ _ _ _ _ frame_logic); by left).
  split; [done|]. apply (sh_bound _ _ (inv_shape _ _ _ _ I)), elem_of_app. by left.
Qed.

Lemma frame_gray g : g ∈ ((node, pos) :: rest).*1 → reach succ g node.
Proof.
  intros Hgr. apply (lo_down _ _ _ _ _ _ frame_logic); [done|apply frame_node|].
  apply elem_of_cons in Hgr as [->|Hgr]; simpl; [lia|].
  pose proof (lo_wsorted _ _ _ _ _ _ frame_logic) as HS.
  pose proof (sorted_head (ixf st) node (rest.*1) g HS Hgr). lia.
Qed.

Section successor.
Context (child : N) (Hc : s !! pos = Some child).
Let st1 := set_work st ((node, S pos) :: rest).

Lemma scan_edge : edge succ node child.
Proof. exists s. split; [done|]. by apply list_elem_of_lookup_2 in Hc. Qed.

Lemma scan_measure : measure n succ st1 < measure n succ st.
Proof.
  unfold measure. rewrite Hw. apply Nat.add_lt_mono_l. simpl. unfold open_frames, deg. simpl.
  rewrite Hs. simpl. apply lookup_lt_Some in Hc. lia.
Qed.

Lemma scan_bump w1 x y : Scanned succ (w1 ++ (node, S pos) :: rest) x y →
  Scanned succ (w1 ++ (node, pos) :: rest) x y ∨ (x = node ∧ y = child).
Proof. by apply (scanned_bump succ w1 node pos rest s child). Qed.

Lemma scan_new : ixf st child = UNSET → (child < N.of_nat n)%N →
  ∃ st', visit st1 child = Ret st' ∧
    Inv n succ roots st' ∧ measure n succ st' < measure n succ st.
Proof.
  intros Hu Hcn. destruct I as [Sh _ HR]. pose proof frame_logic as L.
  destruct frame_node as [Hns Hn].
  destruct (visit_inv st1 child ((node, pos) :: rest) ((node, S pos) :: rest))
    as (st' & E & I' & Em); try done.
  - by apply set_work_shape.
  - destruct (HR node) as (r & ? & ?); [apply elem_of_app; by left|].
    exists r. split; [done|]. by eapply rtc_r, scan_edge.
  - intros g Hgr. eapply rtc_r; [by apply frame_gray|apply scan_edge].
  - intros ix lw Hix L'.
    apply (logic_scan succ _ ((child, 0) :: (node, pos) :: rest) _ _ _ _ node child); try done.
    + right. by left.
    + intros x y. apply (scan_bump [(child, 0)]).
    + by left.
    + intros _. transitivity (ix node).
      { apply (lo_le _ _ _ _ _ _ L'). right. by left. }
      specialize (Hix node Hns). lia.
  - exists st'. split_and!; [done..|]. rewrite Em. apply scan_measure.
Qed.

Lemma scan_on_stack : child ∈ sc_stack st →
  ∃ st', lower st1 node (ixf st child) = Ret st' ∧
    Inv n succ roots st' ∧ measure n succ st' < measure n succ st.
Proof.
  intros Hon. destruct I as [Sh _ HR]. pose proof frame_logic as L.
  destruct frame_node as [Hns Hn].
  destruct (lower_spec n st1 node (ixf st child)) as (st' & E & Sh' & Es & Ew & Ec & Ei & El);
    [by apply set_work_shape|done|].
  exists st'. split_and!; [done| |].
  - constructor; [done| |unfold visited; rewrite Es, Ec; done].
    rewrite Es, Ew, Ec. apply (logic_ext _ _ _ _ _ _ _ _ Ei El).
    apply (logic_scan succ _ ((node, pos) :: rest) _ _ _ _ node child); try done.
    + apply (logic_lower succ _ _ _ (ixf st) (lwf st)); [done..|]. apply rtc_once, scan_edge.
    + by left.
    + apply (scan_bump []).
    + apply elem_of_app. by left.
    + intros _. rewrite N.eqb_refl. change (ixf st1 child) with (ixf st child). lia.
  - unfold measure. rewrite (sum_list_ext _ (todo succ (ixf st))), Ew; [apply scan_measure|].
    intros v _. unfold todo. by rewrite Ei.
Qed.

Lemma scan_emitted : child ∈ visited st → child ∉ sc_stack st → Inv n succ roots st1.
Proof.
  intros Hvis Hon. destruct I as [Sh _ HR]. constructor; [by apply set_work_shape| |done].
  apply (logic_scan succ _ ((node, pos) :: rest) _ _ _ _ node child); try done.
  - apply frame_logic.
  - by left.
  - apply (scan_bump []).
Qed.

(** A frame whose successor list is not finished. *)
Lemma scan_inv : ∃ st', scan st1 node child = Ret st' ∧
  Inv n succ roots st' ∧ measure n succ st' < measure n succ st.
Proof.
  pose proof (inv_shape _ _ _ _ I) as Sh. destruct frame_node as [Hns Hn].
  pose proof (g_succ _ _ Hg node child Hn scan_edge) as Hcn.
  unfold scan. change (sc_index st1) with (sc_index st).
  rewrite (get_default UNSET) by (unfold lenN; rewrite (sh_index _ _ Sh); lia). simpl.
  fold (ixf st child). destruct (N.eqb_spec (ixf st child) UNSET) as [Hu|Hv]; [by apply scan_new|].
  rewrite (get_at_ok _ _ (bool_decide (child ∈ sc_stack st))) by by apply (sh_on _ _ Sh).
  simpl. case_bool_decide as Hon; [by apply scan_on_stack|].
  exists st1. split_and!; [done| |apply scan_measure].
  apply scan_emitted; [|done]. by apply (sh_visited _ _ Sh).
Qed.
End successor.

(** Lowering the parent of a frame that ends. *)
Lemma leave_lower :
  ∃ st', match rest with
         | (parent, _) :: _ =>
             l ← get_at (sc_low (set_work st rest)) node; lower (set_work st rest) parent l
         | [] => Ret (set_work st rest)
         end = Ret st' ∧ Shape n st' ∧
    sc_stack st' = sc_stack st ∧ sc_work st' = rest ∧ sc_comps st' = sc_comps st ∧
    (∀ x, ixf st' x = ixf st x) ∧ lwf st' node = lwf st node ∧
    (∀ p q t, rest = (p, q) :: t → (lwf st' p <= lwf st node)%N) ∧
    Logic succ (sc_stack st) ((node, pos) :: rest) (sc_comps st) (ixf st) (lwf st').
Proof.
  pose proof frame_logic as L. pose proof frame_gray as Hgr. destruct frame_node as [Hns Hn].
  pose proof (inv_shape _ _ _ _ I) as Sh. destruct rest as [|[p q] t].
  - exists (set_work st []). split_and!; try done. by apply set_work_shape.
  - rewrite (get_default 0%N) by (simpl; unfold lenN; rewrite (sh_low _ _ Sh); lia). simpl.
    assert (Hp : p ∈ sc_stack st) by (apply (lo_wsub _ _ _ _ _ _ L); right; by left).
    fold (lwf st node). assert (Hpn : (p < N.of_nat n)%N).
    { apply (sh_bound _ _ Sh), elem_of_app. by left. }
    destruct (lower_spec n (set_work st ((p, q) :: t)) p (lwf st node))
      as (st' & E & Sh' & Es & Ew & Ec & Ei & El); [by apply set_work_shape|done|].
    exists st'. rewrite E. split_and!; try done.
    + rewrite El. destruct (N.eqb_spec node p) as [->|]; [|done].
      pose proof (lo_wsorted _ _ _ _ _ _ L) as HS.
      pose proof (sorted_head _ _ _ p HS ltac:(by left)). simpl in *. lia.
    + intros p' q' t' [= <- <- <-]. rewrite El, N.eqb_refl. lia.
    + destruct (lo_wit _ _ _ _ _ _ L node ltac:(by left)) as (w & Hws & Ew' & Rw).
      apply (logic_ext _ _ _ _ (ixf st) _
               (λ x, if (x =? p)%N then N.min (lwf st p) (ixf st w) else lwf st x)); [done| |].
      * intros x. rewrite El, Ew'. done.
      * apply logic_lower; [done..|]. transitivity node; [|done]. apply Hgr. right. by left.
Qed.

Lemma leave_measure st' : sc_work st' = rest → (∀ x, ixf st' x = ixf st x) →
  measure n succ st' < measure n succ st.
Proof.
  intros Ew Ei. unfold measure. rewrite Hw, Ew, (sum_list_ext _ (todo succ (ixf st))).
  - unfold open_frames. simpl. lia.
  - intros v _. unfold todo. by rewrite Ei.
Qed.

(** A frame whose successor list is finished. *)
Lemma leave_inv : s !! pos = None →
  ∃ st', leave st node rest = Ret st' ∧
    Inv n succ roots st' ∧ measure n succ st' < measure n succ st.
Proof.
  intros Hpos%lookup_ge_None. destruct frame_node as [Hns Hn].
  destruct leave_lower as (st1 & E & Sh & Es & Ew & Ec & Ei & El & Hpar & L).
  assert (HR : ∀ v, v ∈ visited st1 → ∃ r, r ∈ roots ∧ reach succ r v).
  { unfold visited. rewrite Es, Ec. apply I. }
  unfold leave. rewrite E. simpl.
  rewrite (get_default 0%N (sc_low st1)), (get_default UNSET (sc_index st1))
    by (unfold lenN; rewrite ?(sh_low _ _ Sh), ?(sh_index _ _ Sh); lia). simpl.
  fold (lwf st1 node) (ixf st1 node). rewrite Ei.
  destruct (N.eqb_spec (lwf st1 node) (ixf st node)) as [Heq|Hne].
  - destruct (list_elem_of_split (sc_stack st) node Hns) as (seg & low & Hsplit).
    destruct (pop_shape n st1 node seg low Sh Hmax) as (on' & co' & Ep & Sh'); [by rewrite Es|].
    rewrite Ep. simpl. eexists. split_and!; [done| |by apply leave_measure].
    constructor; [done| |].
    + simpl. rewrite Ew, Ec. apply (logic_ext succ _ _ _ (ixf st) _ (lwf st1)); [done..|].
      by apply (logic_leave_comp succ (sc_stack st) rest _ _ _ node pos s).
    + intros v Hv. apply HR. unfold visited in *. rewrite Es, Hsplit. simpl in Hv.
      rewrite concat_snoc in Hv. set_solver.
  - exists st1. split_and!; [done| |by apply leave_measure]. constructor; [done| |done].
    rewrite Es, Ew, Ec. apply (logic_ext succ _ _ _ (ixf st) _ (lwf st1)); [done..|].
    pose proof (lo_le _ _ _ _ _ _ L node ltac:(by left)).
    apply (logic_leave_keep succ _ rest _ _ _ node pos s); [done..|lia|].
    intros p q t Hr. rewrite El. by apply (Hpar p q t).
Qed.
End frame.

Lemma step_inv st node pos rest :
  Inv n succ roots st → sc_work st = (node, pos) :: rest →
  ∃ st', scc_step succ st node pos rest = Ret st' ∧
    Inv n succ roots st' ∧ measure n succ st' < measure n succ st.
Proof.
  intros I Hw. destruct (frame_node st node pos rest I Hw) as [_ Hn].
  destruct (lookup_lt_is_Some_2 succ (N.to_nat node)) as [s Hs].
  { pose proof (g_len _ _ Hg). lia. }
  unfold scc_step. rewrite (get_at_ok _ _ _ Hs). simpl. destruct (s !! pos) eqn:Hp.
  - by apply (scan_inv st node pos rest s).
  - by apply (leave_inv st node pos rest s).
Qed.

Lemma loop_inv fuel st :
  Inv n succ roots st → measure n succ st ≤ fuel →
  ∃ st', scc_loop fuel succ st = Ret st' ∧ Inv n succ roots st' ∧ sc_work st' = [].
Proof.
  revert st. induction fuel as [|fuel IH]; intros st I Hm.
  - exists st. simpl. destruct (sc_work st) as [|[node pos] rest] eqn:Hw; [done|].
    destruct (step_inv st node pos rest I Hw) as (st' & _ & _ & ?). lia.
  - simpl. destruct (sc_work st) as [|[node pos] rest] eqn:Hw; [by exists st|].
    destruct (step_inv st node pos rest I Hw) as (st' & E & I' & ?). rewrite E. simpl.
    apply IH; [done|lia].
Qed.

(** Between roots nothing is open, so nothing is left on the stack. *)
Lemma idle_stack st : Inv n succ roots st → sc_work st = [] → sc_stack st = [].
Proof.
  clear Hg Hmax. intros I Hw. pose proof (inv_logic _ _ _ _ I) as L. rewrite Hw in L.
  assert (H : ∀ k x, (ixf st x < k)%N → x ∉ sc_stack st).
  { intros k. induction k as [|k IH] using N.peano_ind; [lia|]. intros x Hk Hx.
    destruct (lo_up _ _ _ _ _ _ L x Hx) as (y & Hy & Hlt & _); [apply not_elem_of_nil|].
    apply (IH y); [lia|done]. }
  destruct (sc_stack st) as [|x l] eqn:E; [done|].
  destruct (H (N.succ (ixf st x)) x); [lia|by left].
Qed.

(** A reached node stays reached. *)
Definition keeps (st st' : Walk) : Prop := ∀ v, ixf st v ≠ UNSET → ixf st' v ≠ UNSET.

Lemma visit_marks st v st' : visit st v = Ret st' → keeps st st' ∧ ixf st' v ≠ UNSET.
Proof.
  unfold visit, set_at, incr_u32. intros H. repeat (case_match; simpl in H; try done).
  simplify_eq. to_prop. unfold keeps, ixf, UNSET. simpl.
  setoid_rewrite default_insert; [|done..]. rewrite N.eqb_refl.
  split; [|lia]. intros w Hw. case_match; [lia|done].
Qed.

Lemma lower_keeps st v b st' : lower st v b = Ret st' → sc_index st' = sc_index st.
Proof. unfold lower. by intros (l & _ & (low & _ & [= <-])%bind_Ret)%bind_Ret. Qed.

Lemma step_keeps st node pos rest st' : scc_step succ st node pos rest = Ret st' → keeps st st'.
Proof.
  assert (Hsame : ∀ st', sc_index st' = sc_index st → keeps st st').
  { unfold keeps, ixf. by intros ? ->. }
  unfold scc_step. intros (s & _ & H)%bind_Ret. destruct (s !! pos) as [child|].
  - unfold scan in H. apply bind_Ret in H as (i & _ & H). case_match.
    + by apply visit_marks in H as [? _].
    + apply bind_Ret in H as ([|] & _ & H); simplify_eq; [|by apply Hsame].
      by apply lower_keeps in H; apply Hsame.
  - unfold leave in H. apply bind_Ret in H as (st1 & H1 & H).
    assert (E1 : sc_index st1 = sc_index st).
    { destruct rest as [|[p q] t]; [by simplify_eq|].
      apply bind_Ret in H1 as (l & _ & H1). by apply lower_keeps in H1. }
    apply bind_Ret in H as (l & _ & (i & _ & H)%bind_Ret). case_match.
    + apply bind_Ret in H as ([[[? ?] ?] ?] & _ & H). simplify_eq. by apply Hsame.
    + simplify_eq. by apply Hsame.
Qed.

Lemma loop_keeps fuel st st' : scc_loop fuel succ st = Ret st' → keeps st st'.
Proof.
  revert st. induction fuel as [|fuel IH]; intros st; simpl;
    (destruct (sc_work st) as [|[node pos] rest]; [intros [= ->]; by intros v|]); [done|].
  intros (st1 & H1%step_keeps & H2%IH)%bind_Ret. intros v ?. by apply H2, H1.
Qed.

Lemma roots_inv rs st :
  Inv n succ roots st → sc_work st = [] → (∀ r, r ∈ rs → r ∈ roots ∧ (r < N.of_nat n)%N) →
  ∃ st', scc_roots (scc_fuel succ) succ rs st = Ret st' ∧ Inv n succ roots st' ∧
    sc_work st' = [] ∧ keeps st st' ∧ (∀ r, r ∈ rs → ixf st' r ≠ UNSET).
Proof.
  revert st. induction rs as [|r rs IH]; intros st I Hw Hr; simpl.
  { exists st. split_and!; [done..|by intros ?|]. intros r Hr'. by apply not_elem_of_nil in Hr'. }
  destruct (Hr r ltac:(by left)) as [Hrr Hrn]. pose proof (inv_shape _ _ _ _ I) as Sh.
  rewrite (get_default UNSET) by (unfold lenN; rewrite (sh_index _ _ Sh); lia). simpl.
  fold (ixf st r). destruct (N.eqb_spec (ixf st r) UNSET) as [Hu|Hu].
  - destruct (visit_inv st r [] []) as (st1 & E1 & I1 & M1); try done.
    { rewrite <-Hw. apply I. }
    { apply (inv_roots _ _ _ _ I). }
    { exists r. split; [done|apply rtc_refl]. }
    { intros g Hgn. by apply not_elem_of_nil in Hgn. }
    rewrite E1. simpl.
    destruct (loop_inv (scc_fuel succ) st1 I1) as (st2 & E2 & I2 & W2).
    { rewrite M1. unfold measure. rewrite Hw. pose proof (todo_le succ (ixf st) n (g_len _ _ Hg)).
      unfold open_frames. simpl. lia. }
    rewrite E2. simpl. destruct (IH st2 I2 W2) as (st3 & E3 & I3 & W3 & K3 & R3).
    { intros r' ?. apply Hr. by right. }
    exists st3. split_and!; [done..| |].
    + intros v Hv. by apply K3, (loop_keeps _ _ _ E2), (visit_marks _ _ _ E1).
    + intros r' [->|?]%elem_of_cons; [|by apply R3].
      by apply K3, (loop_keeps _ _ _ E2), (visit_marks _ _ _ E1).
  - destruct (IH st I Hw) as (st3 & E3 & I3 & W3 & K3 & R3).
    { intros r' ?. apply Hr. by right. }
    exists st3. split_and!; [done..|]. intros r' [->|?]%elem_of_cons; [by apply K3|by apply R3].
Qed.
End steps.

(** ** What the walk promises *)

(** [comps] are the strongly connected components of the nodes in [P], callees
    first, and [comp_of] is their index table. *)
Record scc_spec (n : nat) (succ : list (list N)) (P : N → Prop)
    (comps : list (list N)) (comp_of : list N) : Prop := {
  scc_distinct : NoDup (concat comps);
  scc_members : ∀ v, v ∈ concat comps ↔ P v;
  scc_component : ∀ c x y, c ∈ comps → x ∈ c → (y ∈ c ↔ reach succ x y ∧ reach succ y x);
  scc_callees_first : ∀ i j c d x y, comps !! i = Some c → comps !! j = Some d →
    x ∈ c → y ∈ d → reach succ x y → j ≤ i;
  scc_table_len : length comp_of = n;
  scc_table : ∀ i c v, comps !! i = Some c → v ∈ c → comp_of !! N.to_nat v = Some (N.of_nat i);
  scc_unreached : ∀ v, (v < N.of_nat n)%N → ¬ P v → comp_of !! N.to_nat v = Some UNSET;
}.

Lemma walk_new_inv n succ roots : Inv n succ roots (walk_new n).
Proof.
  assert (Hix : ∀ v, ixf (walk_new n) v = UNSET).
  { intros v. unfold ixf. simpl. destruct (replicate n UNSET !! N.to_nat v) eqn:E; [|done].
    by apply lookup_replicate in E as [-> _]. }
  assert (Hnil : ∀ (v : N), v ∉ []) by (intros v; apply not_elem_of_nil).
  constructor; [constructor|constructor|]; simpl; try done; rewrite ?length_replicate; try done;
    try (by intros ? ?%Hnil); try (by constructor).
  - intros v. rewrite Hix. split; [done|by intros ?%Hnil].
  - intros v Hv. rewrite lookup_replicate. split; [done|lia].
  - by intros ? ?%not_elem_of_nil.
  - intros v Hv _. rewrite lookup_replicate. split; [done|lia].
  - by intros ? ? ?%not_elem_of_nil.
  - by intros ? ? ? ?%not_elem_of_nil.
  - by intros ? ? ? _ ?%not_elem_of_nil.
  - by intros ? ? ?%not_elem_of_nil.
Qed.

Lemma closed_reach succ stk wk cs ix lw i c x y :
  Logic succ stk wk cs ix lw → cs !! i = Some c → x ∈ c → reach succ x y →
  ∃ j c', j ≤ i ∧ cs !! j = Some c' ∧ y ∈ c'.
Proof.
  intros L Hi Hx Hr. revert i c Hi Hx.
  induction Hr as [x|x z y He _ IH]; intros i c Hi Hx; [by exists i, c|].
  destruct (lo_closed _ _ _ _ _ _ L i c x z Hi Hx He) as (j & c' & Hj & Hc & Hz).
  destruct (IH j c' Hc Hz) as (k & d & Hk & Hd & Hy). exists k, d. split_and!; [lia|done..].
Qed.

Lemma idle_spec n succ roots st :
  Inv n succ roots st → sc_work st = [] → (∀ r, r ∈ roots → ixf st r ≠ UNSET) →
  scc_spec n succ (λ v, ∃ r, r ∈ roots ∧ reach succ r v) (sc_comps st) (sc_comp_of st).
Proof.
  intros I Hw Hroots. pose proof (idle_stack n succ roots st I Hw) as Hs.
  destruct I as [Sh L HR].
  assert (Hvis : visited st = concat (sc_comps st)) by (unfold visited; by rewrite Hs).
  assert (Huniq : ∀ i j c d x, sc_comps st !! i = Some c → sc_comps st !! j = Some d →
            x ∈ c → x ∈ d → i = j).
  { intros i j c d x Hi Hj Hc Hd. apply (sh_comp_of _ _ Sh i c x Hi) in Hc.
    apply (sh_comp_of _ _ Sh j d x Hj) in Hd. rewrite Hc in Hd. simplify_eq. lia. }
  assert (Hmem : ∀ v, v ∈ concat (sc_comps st) ↔ ∃ r, r ∈ roots ∧ reach succ r v).
  { intros v. rewrite <-Hvis. split; [apply HR|]. intros (r & Hr & Hrv).
    specialize (Hroots r Hr). apply (sh_visited _ _ Sh) in Hroots. rewrite Hvis in *.
    apply elem_of_concat in Hroots as (c & Hc & [i Hi]%list_elem_of_lookup).
    destruct (closed_reach _ _ _ _ _ _ i c r v L Hi Hc Hrv) as (j & d & _ & Hj & Hv).
    apply elem_of_concat. exists d. split; [done|]. by apply list_elem_of_lookup_2 in Hj. }
  constructor; try apply Sh; try done.
  - rewrite <-Hvis. apply Sh.
  - intros c x y [i Hi]%list_elem_of_lookup Hx. split.
    + intros Hy. apply list_elem_of_lookup_2 in Hi. split; by apply (lo_conn _ _ _ _ _ _ L c).
    + intros [Hxy Hyx].
      destruct (closed_reach _ _ _ _ _ _ i c x y L Hi Hx Hxy) as (j & d & Hj & Hd & Hy).
      destruct (closed_reach _ _ _ _ _ _ j d y x L Hd Hy Hyx) as (k & e & Hk & He & Hx').
      pose proof (Huniq i k c e x Hi He Hx Hx'). assert (j = i) by lia. naive_solver.
  - intros i j c d x y Hi Hj Hx Hy Hr.
    destruct (closed_reach _ _ _ _ _ _ i c x y L Hi Hx Hr) as (k & e & Hk & He & Hy').
    rewrite (Huniq j k d e y); done.
  - intros v Hv Hn. apply Sh; [done|]. by rewrite Hmem.
Qed.

(** From the given roots, for every graph with successors in range and at
    most [u32::MAX] nodes, the walk ends without a panic; it returns exactly
    the strongly connected components of the nodes the roots reach, each node
    once, with a component after every component it reaches, and the table maps
    a reached node to the index of its component and another node to
    [u32::MAX]. *)
Theorem components_from_roots_correct (n : nat) (succ : list (list N)) (roots : list N) :
  graph_ok n succ → (N.of_nat n <= U32_MAX)%N → (∀ r, r ∈ roots → (r < N.of_nat n)%N) →
  ∃ comps comp_of, components_from_roots n succ roots = Ret (comps, comp_of) ∧
    scc_spec n succ (λ v, ∃ r, r ∈ roots ∧ reach succ r v) comps comp_of.
Proof.
  intros Hg Hmax Hr. unfold components_from_roots, components_from_iter.
  destruct (roots_inv n succ roots Hg Hmax roots (walk_new n)) as (st & E & I & W & _ & HR);
    [apply walk_new_inv|done|auto|].
  exists (sc_comps st), (sc_comp_of st). rewrite E. split; [done|]. by apply idle_spec.
Qed.

Lemma reach_bounded n succ x y :
  graph_ok n succ → (x < N.of_nat n)%N → reach succ x y → (y < N.of_nat n)%N.
Proof. intros Hg Hx Hr. induction Hr as [|x z y He _ IH]; [done|]. by apply IH, (g_succ _ _ Hg x). Qed.

Lemma scc_spec_ext n succ (P Q : N → Prop) comps comp_of :
  (∀ v, P v ↔ Q v) → scc_spec n succ P comps comp_of → scc_spec n succ Q comps comp_of.
Proof. intros E []. split; try done; intros v; rewrite <-?E; auto. Qed.

(** C11. Over all nodes, the walk returns the strongly connected components of
    the whole graph, callees first. *)
Theorem components_correct (n : nat) (succ : list (list N)) :
  graph_ok n succ → (N.of_nat n <= U32_MAX)%N →
  ∃ comps comp_of, components n succ = Ret (comps, comp_of) ∧
    scc_spec n succ (λ v, (v < N.of_nat n)%N) comps comp_of.
Proof.
  intros Hg Hmax. unfold components. rewrite as_u32_small, Nat2N.id by done.
  set (roots := N.of_nat <$> seq 0 n).
  assert (Hroots : ∀ r, r ∈ roots ↔ (r < N.of_nat n)%N).
  { intros r. unfold roots. rewrite list_elem_of_fmap. setoid_rewrite elem_of_seq. split.
    - intros (k & -> & ?). lia.
    - intros ?. exists (N.to_nat r). lia. }
  unfold components_from_iter.
  destruct (roots_inv n succ roots Hg Hmax roots (walk_new n)) as (st & E & I & W & _ & HR);
    [apply walk_new_inv|done|by intros r ?; split; [|apply Hroots]|].
  exists (sc_comps st), (sc_comp_of st). rewrite E. split; [done|].
  eapply scc_spec_ext, idle_spec; [|done..]. intros v. split.
  - intros (r & Hr%Hroots & ?). by apply (reach_bounded n succ r).
  - intros Hv. exists v. split; [by apply Hroots|apply rtc_refl].
Qed.

(** ** A concrete graph: two cycles with a bridge *)

Definition demo_graph : list (list N) := [[1]; [2; 3]; [0]; [4]; [3]; []]%N.

Lemma demo_graph_ok : graph_ok 6 demo_graph.
Proof.
  constructor; [vm_compute; lia|]. intros x y Hx (s & Hs & Hy).
  assert (HF : Forall (Forall (λ y, (y < 6)%N)) demo_graph).
  { unfold demo_graph. repeat constructor. }
  apply list_elem_of_lookup_2, (proj1 (list.Forall_forall _ _) HF) in Hs.
  by apply (proj1 (list.Forall_forall _ _) Hs).
Qed.

Lemma components_from_roots_correct_witness :
  components_from_roots 6 demo_graph [3]%N =
    Ret ([[4; 3]]%N, [UNSET; UNSET; UNSET; 0; 0; UNSET]%N) ∧
  ∃ comps comp_of, components_from_roots 6 demo_graph [3]%N = Ret (comps, comp_of) ∧
    scc_spec 6 demo_graph (λ v, ∃ r, r ∈ [3]%N ∧ reach demo_graph r v) comps comp_of.
Proof.
  split; [vm_compute; reflexivity|].
  apply (components_from_roots_correct 6 demo_graph [3]%N); [apply demo_graph_ok|done|].
  intros r ->%list_elem_of_singleton. done.
Defined.

Lemma components_correct_witness :
  components 6 demo_graph = Ret ([[4; 3]; [2; 1; 0]; [5]]%N, [1; 1; 1; 0; 0; 2]%N) ∧
  ∃ comps comp_of, components 6 demo_graph = Ret (comps, comp_of) ∧
    scc_spec 6 demo_graph (λ v, (v < 6)%N) comps comp_of.
Proof.
  split; [vm_compute; reflexivity|].
  apply (components_correct 6 demo_graph); [apply demo_graph_ok|done].
Defined.
