(* ===== verification/Value.v ===== *)
(** * Runtime values

    Models [crates/lm-value/src/lib.rs]: the tagged runtime value, its ABI
    tags, generation-checked references, provenance witnesses, and the
    normalisation of NaN bit patterns. *)

From S2P Require Import Prelude.
From stdpp Require Import base numbers.

(** ** Data *)

(** A generation-checked reference to one object-table slot. *)
Record ObjRef := mkObjRef { obj_slot : N; obj_generation : N }.

(** A generation-checked reference to one machine callback slot. *)
Record CallbackRef := mkCallbackRef { cb_slot : N; cb_generation : N }.

#[export] Instance ObjRef_eq_dec : EqDecision ObjRef.
Proof. solve_decision. Defined.
#[export] Instance CallbackRef_eq_dec : EqDecision CallbackRef.
Proof. solve_decision. Defined.

(** One type environment of one world; index zero names the empty one. *)
Record TypeEnvId := mkTypeEnvId { env_index : N }.

Definition TypeEnvId_EMPTY : TypeEnvId := mkTypeEnvId 0.
Definition env_is_empty (e : TypeEnvId) : bool := (env_index e =? 0)%N.

(** The type environment one heap object was created under. *)
Record Witness := mkWitness { witness_env : TypeEnvId }.

(** [impl PartialEq for Witness]: provenance never decides equality. *)
Definition witness_eqb (_ _ : Witness) : bool := true.

Inductive ValueTag : Type :=
| TagUnit | TagBool | TagInt | TagFloat | TagChar
| TagObj | TagOp | TagCallback | TagEmptyCase | TagUninit.

(** The discriminants of [#[repr(u64)] enum ValueTag]. *)
Definition tag_word (t : ValueTag) : N :=
  match t with
  | TagUnit => 0
  | TagBool => 1
  | TagInt => 2
  | TagFloat => 3
  | TagChar => 4
  | TagObj => 5
  | TagOp => 6
  | TagCallback => 7
  | TagEmptyCase => 8
  | TagUninit => 9
  end.

(** One runtime value.  [VFloat] holds IEEE 754 binary64 bits and [VChar] a
    Unicode scalar value. *)
Inductive Value : Type :=
| VUnit
| VBool (b : bool)
| VInt (v : Z)
| VFloat (bits : N)
| VChar (c : N)
| VObj (r : ObjRef)
| VOp (slot : N)
| VCallback (r : CallbackRef)
| VEmptyCase (ty arm : N)
| VUninit.

#[export] Instance Value_eq_dec : EqDecision Value.
Proof. solve_decision. Defined.

(** ** Operations *)

(** [Value::tag]. *)
Definition value_tag (v : Value) : ValueTag :=
  match v with
  | VUnit => TagUnit
  | VBool _ => TagBool
  | VInt _ => TagInt
  | VFloat _ => TagFloat
  | VChar _ => TagChar
  | VObj _ => TagObj
  | VOp _ => TagOp
  | VCallback _ => TagCallback
  | VEmptyCase _ _ => TagEmptyCase
  | VUninit => TagUninit
  end.

(** [Value::as_obj]. *)
Definition as_obj (v : Value) : option ObjRef :=
  match v with
  | VObj r => Some r
  | _ => None
  end.

Definition CANONICAL_NAN_BITS : N := 0x7ff8000000000000.

(** [f64::from_bits(bits).is_nan()]: all exponent bits set and a non-zero
    mantissa, whatever the sign bit. *)
Definition is_nan_bits (bits : N) : bool :=
  (N.land (N.shiftr bits 52) 0x7ff =? 0x7ff)%N && negb (N.land bits 0xfffffffffffff =? 0)%N.

(** [canonical_float_bits]. *)
Definition canonical_float_bits (bits : N) : N :=
  if is_nan_bits bits then CANONICAL_NAN_BITS else bits.

(** ** Properties *)

Lemma canonical_nan_is_nan : is_nan_bits CANONICAL_NAN_BITS = true.
Proof. reflexivity. Qed.

(** Normalisation keeps the class of a pattern and is idempotent. *)
Lemma canonical_float_bits_idempotent bits :
  canonical_float_bits (canonical_float_bits bits) = canonical_float_bits bits.
Proof.
  unfold canonical_float_bits. destruct (is_nan_bits bits) eqn:E; [reflexivity | rewrite E; reflexivity].
Qed.

Lemma canonical_float_bits_nan bits :
  is_nan_bits (canonical_float_bits bits) = is_nan_bits bits.
Proof.
  unfold canonical_float_bits. destruct (is_nan_bits bits) eqn:E; [reflexivity | exact E].
Qed.

(** [char::from_u32]. *)
Definition char_from_u32 (c : N) : option N :=
  if (c <? 0xd800)%N || ((0xe000 <=? c) && (c <=? 0x10ffff))%N then Some c else None.
