(* ===== verification/Resource.v ===== *)
(** * The host resource registry

    Models [crates/lm-vm/src/resource.rs]: the per-machine registry of live
    host attachments and the live-resource ledger that a root machine and its
    spawned procs share.

    The ledger is an [Arc<AtomicUsize>]: several registries hold a clone of
    one [ResourceBudget] and charge the same cell.  [Ledger] is that shared
    store, a map from cell to counter, and every operation that touches the
    ledger takes and returns it.  Debug assertions are modelled as panics.

    The second half is a small step system over every registry and every
    outstanding lease of one execution; its invariant says that each ledger
    cell equals the number of live records charged to it. *)

From S2P Require Import Prelude Fault.
From stdpp Require Import base numbers functions option list.

(** ** Data *)

(** The shared counters: [Arc<AtomicUsize>] cells by identity. *)
Abbreviation Ledger := (N → N).

Record ResourceBudget := mkBudget { budget_cell : N; budget_limit : N }.

Inductive ResourceAccounting : Type :=
| Detached
| Shared (b : ResourceBudget)
| Leased (lease : N) (live : N).

Record ResourceBudgetReservation := mkReservation {
  resv_lease : N;
  resv_budget : ResourceBudget;
  resv_live : N
}.

Inductive ResourceKind : Type :=
| PendingOperation
| File
| TcpStream
| TcpListener
| TlsStream
| RawMode
| SignalStream
| PipeReader
| PipeWriter
| Child
| UdpSocket
| Extension (kind : list N).

Inductive ResourceState : Type :=
| Live
| Closed.

Record ResourceRecord := mkRecord {
  rec_kind : ResourceKind;
  rec_owner : N;
  rec_scope : N;
  rec_ordinal : N;
  rec_op : N;
  rec_state : ResourceState
}.

Record ResourceRegistry := mkRegistry {
  records : list ResourceRecord;
  cap : N;
  closed : N;
  accounting : ResourceAccounting
}.

#[export] Instance ResourceBudget_eq_dec : EqDecision ResourceBudget.
Proof. solve_decision. Defined.
#[export] Instance ResourceKind_eq_dec : EqDecision ResourceKind.
Proof. solve_decision. Defined.
#[export] Instance ResourceState_eq_dec : EqDecision ResourceState.
Proof. solve_decision. Defined.
#[export] Instance ResourceRecord_eq_dec : EqDecision ResourceRecord.
Proof. solve_decision. Defined.

(** [ResourceKind::snapshot]. *)
Definition kind_snapshot (k : ResourceKind) : SnapshotClass :=
  match k with
  | PendingOperation => HostAttachment
  | File => HostAttachment
  | TcpStream | TcpListener | TlsStream | RawMode | SignalStream
  | PipeReader | PipeWriter | Child => HostAttachment
  | UdpSocket => HostAttachment
  | Extension _ => HostAttachment
  end.

(** ** The ledger *)

(** [ResourceBudget::new]: a fresh cell starts at zero. *)
Definition budget_new (cell limit : N) (led : Ledger) : ResourceBudget * Ledger :=
  (mkBudget cell limit, <[cell := 0%N]> led).

(** [ResourceBudget::take]. *)
Definition budget_take (b : ResourceBudget) (led : Ledger) : bool * Ledger :=
  let used := led (budget_cell b) in
  match checked_add_usize used 1 with
  | None => (false, led)
  | Some next =>
      if (budget_limit b <? next)%N then (false, led)
      else (true, <[budget_cell b := next]> led)
  end.

(** [ResourceBudget::has_room]. *)
Definition budget_has_room (b : ResourceBudget) (led : Ledger) : bool :=
  (led (budget_cell b) <? budget_limit b)%N.

(** [ResourceBudget::give], with its debug assertion. *)
Definition budget_give (b : ResourceBudget) (count : N) (led : Ledger) : exec Ledger :=
  let used := led (budget_cell b) in
  _ ← guard_panic (count <=? used)%N;
  Ret (<[budget_cell b := saturating_sub used count]> led).

(** [ResourceBudget::used]. *)
Definition budget_used (b : ResourceBudget) (led : Ledger) : N := led (budget_cell b).

(** [ResourceBudgetReservation::cancel_destroyed]. *)
Definition cancel_destroyed (r : ResourceBudgetReservation) (led : Ledger) : exec Ledger :=
  budget_give (resv_budget r) (resv_live r) led.

(** Charge or release through the accounting of a registry. *)
Definition give_shared (a : ResourceAccounting) (count : N) (led : Ledger) : exec Ledger :=
  match a with
  | Shared b => budget_give b count led
  | _ => Ret led
  end.

(** ** The registry *)

Definition is_live (r : ResourceRecord) : bool := bool_decide (rec_state r = Live).
Definition is_closed (r : ResourceRecord) : bool := bool_decide (rec_state r = Closed).

(** [ResourceRegistry::live] and [live_count]. *)
Definition live (reg : ResourceRegistry) : list ResourceRecord :=
  filter (λ r, is_live r = true) (records reg).
Definition live_count (reg : ResourceRegistry) : N := lenN (live reg).

(** [with_optional_budget], [new] and [with_budget]. *)
Definition with_optional_budget (cap : N) (budget : option ResourceBudget) : ResourceRegistry :=
  mkRegistry [] cap 0
    match budget with
    | Some b => Shared b
    | None => Detached
    end.
Definition registry_new (cap : N) : ResourceRegistry := with_optional_budget cap None.
Definition with_budget (cap : N) (b : ResourceBudget) : ResourceRegistry :=
  with_optional_budget cap (Some b).

(** [assert_coordinator_access]. *)
Definition assert_coordinator_access (reg : ResourceRegistry) : exec unit :=
  guard_panic match accounting reg with Leased _ _ => false | _ => true end.

Definition set_accounting (reg : ResourceRegistry) (a : ResourceAccounting) : ResourceRegistry :=
  mkRegistry (records reg) (cap reg) (closed reg) a.
Definition set_records (reg : ResourceRegistry) (rs : list ResourceRecord) : ResourceRegistry :=
  mkRegistry rs (cap reg) (closed reg) (accounting reg).

(** [begin_execution_lease]. *)
Definition begin_execution_lease (lease : N) (reg : ResourceRegistry) :
    exec (ResourceBudgetReservation * ResourceRegistry) :=
  _ ← guard_panic (negb (lease =? 0)%N);
  let count := live_count reg in
  match accounting reg with
  | Shared b =>
      Ret (mkReservation lease b count, set_accounting reg (Leased lease count))
  | _ => Panic
  end.

(** [end_execution_lease]. *)
Definition end_execution_lease (r : ResourceBudgetReservation) (reg : ResourceRegistry) :
    exec ResourceRegistry :=
  match accounting reg with
  | Leased lease count =>
      _ ← guard_panic (lease =? resv_lease r)%N;
      _ ← guard_panic (count =? resv_live r)%N;
      _ ← guard_panic (live_count reg =? resv_live r)%N;
      Ret (set_accounting reg (Shared (resv_budget r)))
  | _ => Panic
  end.

(** The final step of [register]: overwrite the reused slot or push. *)
Definition install_record (reuse : option nat) (record : ResourceRecord)
    (rs : list ResourceRecord) : list ResourceRecord :=
  match reuse with
  | Some slot => <[slot := record]> rs
  | None => rs ++ [record]
  end.

(** The slot [register] reuses: the first closed record. *)
Definition reuse_slot (rs : list ResourceRecord) : option nat :=
  fst <$> list_find (λ r, is_closed r = true) rs.

(** [register]: reuse a closed slot, else push below the cap, and charge the
    ledger before the record becomes live. *)
Definition register (kind : ResourceKind) (owner scope ordinal op : N)
    (reg : ResourceRegistry) (led : Ledger) :
    exec (result unit FaultCode * ResourceRegistry * Ledger) :=
  _ ← assert_coordinator_access reg;
  let record := mkRecord kind owner scope ordinal op Live in
  let reuse := reuse_slot (records reg) in
  if bool_decide (reuse = None) && (cap reg <=? as_u32 (lenN (records reg)))%N then
    Ret (Err HostFault, reg, led)
  else
    let '(charged, led') :=
      match accounting reg with
      | Shared b => budget_take b led
      | Leased _ _ => (false, led)
      | Detached => (true, led)
      end in
    if negb charged then Ret (Err HostFault, reg, led')
    else
      Ret (Ok tt, set_records reg (install_record reuse record (records reg)), led').

(** [prepare_register]; [reserve_ok] is the answer of the host allocator to
    [try_reserve]. *)
Definition prepare_register (reserve_ok : bool) (reg : ResourceRegistry) (led : Ledger) :
    exec (result unit FaultCode) :=
  _ ← assert_coordinator_access reg;
  let reuses_closed := existsb is_closed (records reg) in
  if negb reuses_closed && (cap reg <=? as_u32 (lenN (records reg)))%N then Ret (Err HostFault)
  else
    match accounting reg with
    | Shared b =>
        if negb (budget_has_room b led) then Ret (Err HostFault)
        else if negb reuses_closed && negb reserve_ok then Ret (Err HostFault)
        else Ret (Ok tt)
    | Leased _ _ => Ret (Err HostFault)
    | Detached =>
        if negb reuses_closed && negb reserve_ok then Ret (Err HostFault) else Ret (Ok tt)
    end.

(** The loop shared by the three close operations: the first live record the
    test accepts closes, the counter rises, and the ledger gets one back. *)
Definition close_where (test : ResourceRecord → bool) (reg : ResourceRegistry) (led : Ledger) :
    exec (bool * ResourceRegistry * Ledger) :=
  _ ← assert_coordinator_access reg;
  match list_find (λ r, is_live r && test r = true) (records reg) with
  | Some (i, r) =>
      let r' := mkRecord (rec_kind r) (rec_owner r) (rec_scope r) (rec_ordinal r) (rec_op r) Closed in
      let reg' := mkRegistry (<[i := r']> (records reg)) (cap reg)
                             (saturating_add_u64 (closed reg) 1) (accounting reg) in
      led' ← give_shared (accounting reg) 1 led;
      Ret (true, reg', led')
  | None => Ret (false, reg, led)
  end.

(** [close], [close_kind], [close_by_ordinal]. *)
Definition close (scope : N) : ResourceRegistry → Ledger → exec (bool * ResourceRegistry * Ledger) :=
  close_where (λ r, (rec_scope r =? scope)%N).
Definition close_kind (kind : ResourceKind) (scope : N) :=
  close_where (λ r, bool_decide (rec_kind r = kind) && (rec_scope r =? scope)%N).
Definition close_by_ordinal (ordinal : N) :=
  close_where (λ r, bool_decide (rec_kind r = PendingOperation) && (rec_ordinal r =? ordinal)%N).

(** [set_pending_scope]. *)
Definition set_pending_scope (ordinal scope : N) (reg : ResourceRegistry) :
    exec (bool * ResourceRegistry) :=
  _ ← assert_coordinator_access reg;
  match list_find (λ r, is_live r && (bool_decide (rec_kind r = PendingOperation)
                        && (rec_ordinal r =? ordinal)%N) = true) (records reg) with
  | Some (i, r) =>
      let r' := mkRecord (rec_kind r) (rec_owner r) scope (rec_ordinal r) (rec_op r) (rec_state r) in
      Ret (true, set_records reg (<[i := r']> (records reg)))
  | None => Ret (false, reg)
  end.

(** The loop body of [close_all] on one record and the closed counter. *)
Definition close_record (r : ResourceRecord) : ResourceRecord :=
  if is_live r then
    mkRecord (rec_kind r) (rec_owner r) (rec_scope r) (rec_ordinal r) (rec_op r) Closed
  else r.

(** [close_all]. *)
Definition close_all (reg : ResourceRegistry) (led : Ledger) :
    exec (N * ResourceRegistry * Ledger) :=
  _ ← assert_coordinator_access reg;
  let count := live_count reg in
  let closed' := N.iter count (λ c, saturating_add_u64 c 1) (closed reg) in
  led' ← give_shared (accounting reg) count led;
  Ret (count, mkRegistry (close_record <$> records reg) (cap reg) closed' (accounting reg), led').

(** [compact_closed], with its debug assertion. *)
Definition compact_closed (reg : ResourceRegistry) : exec ResourceRegistry :=
  _ ← assert_coordinator_access reg;
  _ ← guard_panic (live_count reg =? 0)%N;
  Ret (set_records reg []).

(** [pending]: the first live record with this ordinal, of any kind. *)
Definition pending (ordinal : N) (reg : ResourceRegistry) : option ResourceRecord :=
  snd <$> list_find (λ r, is_live r && (rec_ordinal r =? ordinal)%N = true) (records reg).

(** [pending_scopes]: the scopes of the pending-operation records. *)
Definition pending_scopes (reg : ResourceRegistry) : list N :=
  rec_scope <$> filter (λ r, rec_kind r = PendingOperation) (records reg).

(** [live_attachment]. *)
Definition live_attachment (reg : ResourceRegistry) : option ResourceRecord :=
  snd <$> list_find (λ r, kind_snapshot (rec_kind r) = HostAttachment) (live reg).

(** [Drop for ResourceRegistry]. *)
Definition drop_registry (reg : ResourceRegistry) (led : Ledger) : exec Ledger :=
  give_shared (accounting reg) (live_count reg) led.

(** ** Counting live records *)

Definition live_weight (r : ResourceRecord) : N := if is_live r then 1 else 0.

Lemma live_count_sum reg : live_count reg = sumN live_weight (records reg).
Proof.
  unfold live_count, live, lenN. induction (records reg) as [|r rs IH]; [done|].
  rewrite filter_cons. cbn [sumN foldr]. fold (sumN live_weight rs). rewrite <- IH.
  unfold live_weight.
  destruct (is_live r) eqn:E.
  - rewrite decide_True by done. simpl. lia.
  - rewrite decide_False by congruence. lia.
Qed.

Lemma is_closed_not_live r : is_closed r = true → is_live r = false.
Proof. unfold is_closed, is_live. destruct (rec_state r); done. Qed.

Lemma live_count_push reg r :
  is_live r = true → live_count (set_records reg (records reg ++ [r])) = (live_count reg + 1)%N.
Proof.
  intros H. rewrite !live_count_sum. simpl. rewrite sumN_app. simpl.
  unfold live_weight. rewrite H. lia.
Qed.

Lemma live_count_update reg i r r' :
  records reg !! i = Some r →
  (live_count (set_records reg (<[i := r']> (records reg))) + live_weight r
   = live_count reg + live_weight r')%N.
Proof. intros H. rewrite !live_count_sum. by apply sumN_insert. Qed.

Lemma close_record_dead r : is_live (close_record r) = false.
Proof. unfold close_record, is_live. destruct (rec_state r) eqn:E; simpl; rewrite ?E; done. Qed.

Lemma live_count_closed_all rs cap0 cl a :
  live_count (mkRegistry (close_record <$> rs) cap0 cl a) = 0%N.
Proof.
  rewrite live_count_sum. cbn [records]. induction rs as [|r rs IH]; [done|].
  rewrite fmap_cons. cbn [sumN foldr]. unfold live_weight at 1.
  rewrite close_record_dead. exact IH.
Qed.

(** ** Specifications of the operations *)

Lemma budget_take_true b led led' :
  budget_take b led = (true, led') →
  led' = <[budget_cell b := (led (budget_cell b) + 1)%N]> led
  ∧ (led (budget_cell b) + 1 <= budget_limit b)%N.
Proof.
  unfold budget_take, checked_add_usize. intros H. repeat case_match; simplify_eq.
  to_prop. split; [done|lia].
Qed.

Lemma budget_take_false b led led' : budget_take b led = (false, led') → led' = led.
Proof.
  unfold budget_take, checked_add_usize. intros H. repeat case_match; congruence.
Qed.

Lemma budget_take_room b led :
  (budget_limit b <= USIZE_MAX)%N → budget_has_room b led = true →
  fst (budget_take b led) = true.
Proof.
  unfold budget_has_room, budget_take, checked_add_usize. intros ? ?. to_prop.
  repeat case_match; simplify_eq; to_prop; try done; try lia.
  all: repeat case_match; simplify_eq; to_prop; lia.
Qed.

Lemma reuse_slot_Some rs i :
  reuse_slot rs = Some i → ∃ r, rs !! i = Some r ∧ is_live r = false.
Proof.
  unfold reuse_slot. intros H. apply fmap_Some in H as ([j r] & Hf & ->).
  apply list_find_Some in Hf as (? & ? & _). simpl. eauto using is_closed_not_live.
Qed.

Lemma install_live_count reg record :
  is_live record = true →
  live_count (set_records reg (install_record (reuse_slot (records reg)) record (records reg)))
  = (live_count reg + 1)%N.
Proof.
  intros H. destruct (reuse_slot (records reg)) as [i|] eqn:Hr; simpl.
  - apply reuse_slot_Some in Hr as (r & Hi & Hr).
    pose proof (live_count_update reg i r record Hi) as Hc.
    unfold live_weight in Hc. rewrite H, Hr in Hc. lia.
  - by apply live_count_push.
Qed.

Lemma install_elem rs record : record ∈ install_record (reuse_slot rs) record rs.
Proof.
  destruct (reuse_slot rs) as [i|] eqn:Hr; simpl.
  - apply reuse_slot_Some in Hr as (r & Hi & _). apply list_elem_of_lookup.
    exists i. apply list_lookup_insert_eq. by eapply lookup_lt_Some.
  - apply elem_of_app. right. by apply list_elem_of_singleton.
Qed.

(** What a registration leaves behind when it succeeds. *)
Definition registered (reg reg' : ResourceRegistry) (led led' : Ledger) : Prop :=
  live_count reg' = (live_count reg + 1)%N
  ∧ accounting reg' = accounting reg ∧ cap reg' = cap reg ∧ closed reg' = closed reg
  ∧ match accounting reg with
    | Shared b => led' = <[budget_cell b := (led (budget_cell b) + 1)%N]> led
                  ∧ (led (budget_cell b) + 1 <= budget_limit b)%N
    | _ => led' = led
    end.

Lemma register_cases kind owner scope ordinal op reg led res reg' led' :
  register kind owner scope ordinal op reg led = Ret (res, reg', led') →
  let record := mkRecord kind owner scope ordinal op Live in
  (res = Ok tt ∧ registered reg reg' led led'
   ∧ reg' = set_records reg (install_record (reuse_slot (records reg)) record (records reg))
   ∧ (reuse_slot (records reg) = None → (as_u32 (lenN (records reg)) < cap reg)%N))
  ∨ (res = Err HostFault ∧ reg' = reg ∧ led' = led).
Proof.
  unfold register, assert_coordinator_access, registered.
  destruct (accounting reg) as [|b|l n] eqn:Ha; simpl; [| |discriminate].
  all: destruct (bool_decide _ && _) eqn:Hc; simpl; [intros; simplify_eq; naive_solver|].
  all: assert (reuse_slot (records reg) = None → (as_u32 (lenN (records reg)) < cap reg)%N)
    by (intros Hn; rewrite bool_decide_true in Hc by done; simpl in Hc; to_prop; done).
  - intros; simplify_eq. left. rewrite install_live_count by done. naive_solver.
  - destruct (budget_take b led) as [[] led1] eqn:Ht; simpl; intros; simplify_eq.
    + apply budget_take_true in Ht as [-> ?].
      left. rewrite install_live_count by done. naive_solver.
    + apply budget_take_false in Ht. naive_solver.
Qed.

(** C20. A registration is atomic.  It either answers [Ok], with exactly one
    more live record, the requested record among the live ones, and the
    ledger charged by one within its limit; or it answers [HostFault] and
    leaves registry and ledger exactly as they were. *)
Theorem register_atomic kind owner scope ordinal op reg led res reg' led' :
  register kind owner scope ordinal op reg led = Ret (res, reg', led') →
  (res = Ok tt ∧ registered reg reg' led led'
   ∧ mkRecord kind owner scope ordinal op Live ∈ live reg')
  ∨ (res = Err HostFault ∧ reg' = reg ∧ led' = led).
Proof.
  intros H. apply register_cases in H as [(-> & Hreg & -> & _)|H]; [left|by right].
  split_and!; [done|done|]. apply list_elem_of_filter. split; [done|]. apply install_elem.
Qed.

Lemma negb_existsb_closed rs :
  negb (existsb is_closed rs) = bool_decide (reuse_slot rs = None).
Proof.
  unfold reuse_slot. destruct (list_find _ rs) as [[i x]|] eqn:Hf; simpl.
  - apply list_find_Some in Hf as (Hi & Hc & _).
    apply negb_false_iff, existsb_exists. exists x. split; [|done].
    apply list_elem_of_In. by eapply list_elem_of_lookup_2.
  - apply negb_true_iff, not_true_iff_false.
    intros (r & Hr & Hc)%existsb_exists. apply list_find_None in Hf.
    rewrite List.Forall_forall in Hf. by destruct (Hf r Hr).
Qed.

(** A prepared registration cannot fail: when [prepare_register] answers
    [Ok], a [register] on the same registry and ledger answers [Ok], whatever
    record it is asked to install.  The limit is a [usize], so it is at most
    [USIZE_MAX]. *)
Theorem prepare_then_register reserve_ok reg led kind owner scope ordinal op :
  match accounting reg with Shared b => (budget_limit b <= USIZE_MAX)%N | _ => True end →
  prepare_register reserve_ok reg led = Ret (Ok tt) →
  ∃ reg' led', register kind owner scope ordinal op reg led = Ret (Ok tt, reg', led').
Proof.
  unfold prepare_register, register, assert_coordinator_access. intros Hlim.
  rewrite negb_existsb_closed. destruct (bool_decide _ && (_ <=? _)%N) eqn:Hc.
  { destruct (accounting reg); discriminate. }
  destruct (accounting reg) as [|b|l n] eqn:Ha; simpl; [by eauto| |discriminate].
  destruct (budget_has_room b led) eqn:Hr; simpl; [|discriminate].
  pose proof (budget_take_room b led Hlim Hr) as Ht.
  destruct (budget_take b led) as [[] led1]; simpl in *; by eauto.
Qed.

(** ** One execution: registries, leases and the shared ledger

    [limit_of] fixes the limit of each ledger cell: clones of one
    [ResourceBudget] carry the same cell and the same limit. *)

Record RSys := mkRSys {
  sys_led : Ledger;
  sys_regs : list ResourceRegistry;
  sys_resv : list ResourceBudgetReservation
}.

Definition rsys_init : RSys := mkRSys (λ _, 0%N) [] [].

(** What one registry or one reservation charges to a cell. *)
Definition share (a : ResourceAccounting) (c n : N) : N :=
  match a with
  | Shared b => if decide (budget_cell b = c) then n else 0
  | _ => 0
  end.
Definition reg_charge (c : N) (reg : ResourceRegistry) : N :=
  share (accounting reg) c (live_count reg).
Definition resv_charge (c : N) (r : ResourceBudgetReservation) : N :=
  if decide (budget_cell (resv_budget r) = c) then resv_live r else 0.
Definition charged (s : RSys) (c : N) : N :=
  (sumN (reg_charge c) (sys_regs s) + sumN (resv_charge c) (sys_resv s))%N.

Section Execution.
Context (limit_of : N → N).

Definition budget_ok (b : ResourceBudget) : Prop := budget_limit b = limit_of (budget_cell b).

(** The operations of the coordinator on registry [i] and reservation [j]. *)
Inductive rstep : RSys → RSys → Prop :=
| step_spawn led regs rs cap0 cell :
    (cap0 <= U32_MAX)%N →
    rstep (mkRSys led regs rs)
          (mkRSys led (regs ++ [with_budget cap0 (mkBudget cell (limit_of cell))]) rs)
| step_detached led regs rs cap0 :
    (cap0 <= U32_MAX)%N →
    rstep (mkRSys led regs rs) (mkRSys led (regs ++ [registry_new cap0]) rs)
| step_register led regs rs i reg kind owner scope ordinal op res reg' led' :
    regs !! i = Some reg →
    register kind owner scope ordinal op reg led = Ret (res, reg', led') →
    rstep (mkRSys led regs rs) (mkRSys led' (<[i := reg']> regs) rs)
| step_close led regs rs i reg test res reg' led' :
    regs !! i = Some reg →
    close_where test reg led = Ret (res, reg', led') →
    rstep (mkRSys led regs rs) (mkRSys led' (<[i := reg']> regs) rs)
| step_set_pending_scope led regs rs i reg ordinal scope res reg' :
    regs !! i = Some reg →
    set_pending_scope ordinal scope reg = Ret (res, reg') →
    rstep (mkRSys led regs rs) (mkRSys led (<[i := reg']> regs) rs)
| step_close_all led regs rs i reg count reg' led' :
    regs !! i = Some reg →
    close_all reg led = Ret (count, reg', led') →
    rstep (mkRSys led regs rs) (mkRSys led' (<[i := reg']> regs) rs)
| step_compact led regs rs i reg reg' :
    regs !! i = Some reg →
    compact_closed reg = Ret reg' →
    rstep (mkRSys led regs rs) (mkRSys led (<[i := reg']> regs) rs)
| step_begin led regs rs i reg lease r reg' :
    regs !! i = Some reg →
    begin_execution_lease lease reg = Ret (r, reg') →
    rstep (mkRSys led regs rs) (mkRSys led (<[i := reg']> regs) (rs ++ [r]))
| step_end led regs rs i j reg r reg' :
    regs !! i = Some reg → rs !! j = Some r →
    end_execution_lease r reg = Ret reg' →
    rstep (mkRSys led regs rs) (mkRSys led (<[i := reg']> regs) (delete j rs))
| step_cancel led regs rs j r led' :
    rs !! j = Some r →
    cancel_destroyed r led = Ret led' →
    rstep (mkRSys led regs rs) (mkRSys led' regs (delete j rs))
| step_drop led regs rs i reg led' :
    regs !! i = Some reg →
    drop_registry reg led = Ret led' →
    rstep (mkRSys led regs rs) (mkRSys led' (delete i regs) rs).

Inductive rreachable : RSys → Prop :=
| reach_init : rreachable rsys_init
| reach_step s s' : rreachable s → rstep s s' → rreachable s'.

(** The invariant: the ledger counts what is charged, within the limit, and
    no record vector outgrows its cap. *)
Definition reg_ok (reg : ResourceRegistry) : Prop :=
  match accounting reg with Shared b => budget_ok b | _ => True end
  ∧ (lenN (records reg) <= cap reg)%N ∧ (cap reg <= U32_MAX)%N.
Definition rsys_ok (s : RSys) : Prop :=
  (∀ c, sys_led s c = charged s c) ∧ (∀ c, sys_led s c <= limit_of c)%N
  ∧ Forall reg_ok (sys_regs s) ∧ Forall (λ r, budget_ok (resv_budget r)) (sys_resv s).

Lemma budget_give_spec b n led led' :
  budget_give b n led = Ret led' →
  ∀ c, (led' c + (if decide (budget_cell b = c) then n else 0) = led c)%N.
Proof.
  unfold budget_give, guard_panic. destruct (n <=? _)%N eqn:E; [|discriminate]. to_prop.
  simpl. intros [= <-] c. case_decide as Hc.
  - subst. rewrite fn_lookup_insert. unfold saturating_sub. lia.
  - rewrite fn_lookup_insert_ne by done. lia.
Qed.

Lemma give_shared_spec a n led led' :
  give_shared a n led = Ret led' → ∀ c, (led' c + share a c n = led c)%N.
Proof.
  destruct a as [|b|]; simpl; intros H c; simplify_eq; try lia. by eapply budget_give_spec.
Qed.

Lemma rsys_update led led' regs rs i reg reg' :
  regs !! i = Some reg → rsys_ok (mkRSys led regs rs) →
  (∀ c, led' c + reg_charge c reg = led c + reg_charge c reg')%N →
  (∀ c, led' c <= limit_of c)%N → reg_ok reg' →
  rsys_ok (mkRSys led' (<[i := reg']> regs) rs).
Proof.
  intros Hi (He & Hl & Hr & Hs) Hc Hl' Hok. split_and!; simpl in *; [|done| |done].
  - intros c. specialize (He c). specialize (Hc c). unfold charged in *. simpl in *.
    pose proof (sumN_insert (reg_charge c) regs i reg reg' Hi). lia.
  - by apply Forall_insert.
Qed.

(** Growing the list of registries by one that charges nothing. *)
Lemma rsys_push led regs rs reg :
  rsys_ok (mkRSys led regs rs) → live_count reg = 0%N → reg_ok reg →
  rsys_ok (mkRSys led (regs ++ [reg]) rs).
Proof.
  intros (He & Hl & Hr & Hs) H0 Hok. split_and!; simpl in *; [|done| |done].
  - intros c. rewrite He. unfold charged. simpl. rewrite sumN_app. simpl.
    unfold reg_charge at 3, share. rewrite H0. repeat case_match; lia.
  - apply Forall_app. by split; [|constructor].
Qed.

Lemma close_where_spec test reg led res reg' led' :
  close_where test reg led = Ret (res, reg', led') →
  ∃ n, (live_count reg = live_count reg' + n ∧ (∀ c, led' c + share (accounting reg) c n = led c))%N
       ∧ accounting reg' = accounting reg ∧ cap reg' = cap reg
       ∧ length (records reg') = length (records reg)
       ∧ res = (n =? 1)%N.
Proof.
  unfold close_where, assert_coordinator_access.
  destruct (guard_panic _); simpl; try discriminate.
  destruct (list_find _ _) as [[i r]|] eqn:Hf; simpl.
  - intros (led1 & Hg & ?)%bind_Ret. simplify_eq. exists 1%N. simpl.
    apply list_find_Some in Hf as (Hi & Hlv & _). apply andb_prop in Hlv as [Hlv _].
    rewrite !live_count_sum. simpl. split_and!; try done.
    + pose proof (sumN_insert live_weight _ i r (mkRecord (rec_kind r) (rec_owner r)
        (rec_scope r) (rec_ordinal r) (rec_op r) Closed) Hi) as Hs.
      unfold live_weight at 2 4 in Hs. rewrite Hlv in Hs. simpl in Hs. lia.
    + by apply give_shared_spec.
    + by rewrite length_insert.
  - intros [= <- <- <-]. exists 0%N. split_and!; try done; try lia.
    intros c. destruct (accounting reg); simpl; try case_decide; lia.
Qed.

Lemma end_lease_spec r reg reg' :
  end_execution_lease r reg = Ret reg' →
  reg' = set_accounting reg (Shared (resv_budget r)) ∧ live_count reg = resv_live r
  ∧ ∃ l n, accounting reg = Leased l n.
Proof.
  unfold end_execution_lease, guard_panic. destruct (accounting reg) as [| |l n]; try discriminate.
  repeat (case_match; simpl; try discriminate). intros [= <-]. to_prop. eauto.
Qed.

Lemma rsys_ok_lookup led regs rs i reg :
  rsys_ok (mkRSys led regs rs) → regs !! i = Some reg → reg_ok reg.
Proof. intros (_ & _ & Hr & _) Hi. by apply (proj1 (Forall_lookup _ _) Hr i). Qed.

Lemma share_add a c n m : share a c (n + m) = (share a c n + share a c m)%N.
Proof. destruct a; simpl; try case_decide; lia. Qed.

Lemma register_preserves led regs rs i reg kind owner scope ordinal op res reg' led' :
  rsys_ok (mkRSys led regs rs) → regs !! i = Some reg →
  register kind owner scope ordinal op reg led = Ret (res, reg', led') →
  rsys_ok (mkRSys led' (<[i := reg']> regs) rs).
Proof.
  intros Hs Hi H. pose proof (rsys_ok_lookup _ _ _ _ _ Hs Hi) as (Hb & Hlen & Hcap).
  apply register_cases in H as [(_ & (Hn & Ha & Hc & _ & Hled) & -> & Hfull)|(_ & -> & ->)].
  2:{ by rewrite list_insert_id. }
  eapply rsys_update; [done|done| | |].
  - intros c. unfold reg_charge. rewrite Hn. simpl. rewrite share_add.
    destruct (accounting reg) as [|b|]; simpl in *; subst; try lia.
    destruct Hled as [-> _]. case_decide; subst.
    + rewrite fn_lookup_insert. lia.
    + rewrite fn_lookup_insert_ne by done. lia.
  - destruct Hs as (_ & Hl & _). intros c. simpl in Hl.
    destruct (accounting reg) as [|b|]; simpl in *; subst; try done.
    destruct Hled as [-> Hle]. unfold budget_ok in Hb. destruct (decide (budget_cell b = c)) as [<-|].
    + rewrite fn_lookup_insert. lia.
    + by rewrite fn_lookup_insert_ne.
  - split_and!; simpl; [done| |done].
    destruct (reuse_slot (records reg)) as [k|] eqn:Hr; simpl.
    + unfold lenN. by rewrite length_insert.
    + specialize (Hfull eq_refl). rewrite as_u32_small in Hfull by lia.
      unfold lenN in *. rewrite length_app. simpl. lia.
Qed.

(** The steps that only release: each leaves the ledger below its old value. *)
Lemma release_preserves led regs rs i reg reg' led' n :
  rsys_ok (mkRSys led regs rs) → regs !! i = Some reg →
  live_count reg = (live_count reg' + n)%N →
  (∀ c, led' c + share (accounting reg) c n = led c)%N →
  accounting reg' = accounting reg → cap reg' = cap reg →
  (length (records reg') <= length (records reg))%nat →
  rsys_ok (mkRSys led' (<[i := reg']> regs) rs).
Proof.
  intros Hs Hi Hn Hled Ha Hc Hlen. pose proof (rsys_ok_lookup _ _ _ _ _ Hs Hi) as (Hb & Hl & Hcap).
  eapply rsys_update; [done|done| | |].
  - intros c. specialize (Hled c). unfold reg_charge. rewrite Ha, Hn, share_add. lia.
  - intros c. specialize (Hled c). destruct Hs as (_ & Hlim & _). specialize (Hlim c). simpl in *. lia.
  - split_and!; rewrite ?Ha, ?Hc; [done| |done]. unfold lenN in *. lia.
Qed.

Lemma close_all_spec reg led count reg' led' :
  close_all reg led = Ret (count, reg', led') →
  count = live_count reg ∧ live_count reg' = 0%N
  ∧ (∀ c, led' c + share (accounting reg) c count = led c)%N
  ∧ accounting reg' = accounting reg ∧ cap reg' = cap reg
  ∧ length (records reg') = length (records reg).
Proof.
  unfold close_all. destruct (assert_coordinator_access reg); simpl; try discriminate.
  intros (led1 & Hg & [= <- <- <-])%bind_Ret. simpl. rewrite length_fmap.
  split_and!; try done; [apply live_count_closed_all|by apply give_shared_spec].
Qed.

Lemma set_pending_scope_spec ordinal scope reg res reg' :
  set_pending_scope ordinal scope reg = Ret (res, reg') →
  live_count reg' = live_count reg ∧ accounting reg' = accounting reg ∧ cap reg' = cap reg
  ∧ length (records reg') = length (records reg).
Proof.
  unfold set_pending_scope. destruct (assert_coordinator_access reg); simpl; try discriminate.
  destruct (list_find _ _) as [[i r]|] eqn:Hf; intros [= <- <-]; [|done].
  apply list_find_Some in Hf as (Hi & _ & _). simpl. rewrite length_insert. split_and!; try done.
  pose proof (live_count_update reg i r (mkRecord (rec_kind r) (rec_owner r) scope
    (rec_ordinal r) (rec_op r) (rec_state r)) Hi) as Hc.
  unfold live_weight, is_live in Hc. simpl in Hc. lia.
Qed.

Lemma compact_closed_spec reg reg' :
  compact_closed reg = Ret reg' → live_count reg = 0%N ∧ reg' = set_records reg [].
Proof.
  unfold compact_closed, guard_panic. destruct (assert_coordinator_access reg); simpl; try discriminate.
  destruct (live_count reg =? 0)%N eqn:E; [|discriminate]. intros [= <-]. by to_prop.
Qed.

Lemma share_zero a c : share a c 0 = 0%N.
Proof. destruct a; simpl; try case_decide; done. Qed.

Lemma lease_step_preserves led regs rs rs' i reg reg' :
  rsys_ok (mkRSys led regs rs) → regs !! i = Some reg →
  records reg' = records reg → cap reg' = cap reg →
  match accounting reg' with Shared b => budget_ok b | _ => True end →
  Forall (λ r, budget_ok (resv_budget r)) rs' →
  (∀ c, reg_charge c reg' + sumN (resv_charge c) rs'
        = reg_charge c reg + sumN (resv_charge c) rs)%N →
  rsys_ok (mkRSys led (<[i := reg']> regs) rs').
Proof.
  intros Hs Hi Hr Hc Hb Hrs Hsum.
  pose proof (rsys_ok_lookup _ _ _ _ _ Hs Hi) as (_ & Hl & Hcap).
  destruct Hs as (He & Hlim & Hregs & _). split_and!; simpl in *; [|done| |done].
  - intros c. specialize (He c). specialize (Hsum c). unfold charged in *. simpl in *.
    pose proof (sumN_insert (reg_charge c) regs i reg reg' Hi). lia.
  - apply Forall_insert; [done|]. split_and!; rewrite ?Hr, ?Hc; done.
Qed.

Lemma begin_preserves led regs rs i reg lease r reg' :
  rsys_ok (mkRSys led regs rs) → regs !! i = Some reg →
  begin_execution_lease lease reg = Ret (r, reg') →
  rsys_ok (mkRSys led (<[i := reg']> regs) (rs ++ [r])).
Proof.
  intros Hs Hi H. pose proof (rsys_ok_lookup _ _ _ _ _ Hs Hi) as (Hb & _).
  unfold begin_execution_lease, guard_panic in H. destruct (negb _); [|discriminate]. simpl in H.
  destruct (accounting reg) as [|b|] eqn:Ha; try discriminate. simplify_eq.
  eapply lease_step_preserves; try done.
  - apply Forall_app. split; [by apply Hs|by constructor].
  - intros c. rewrite sumN_app. simpl. unfold reg_charge, resv_charge. rewrite Ha. simpl. lia.
Qed.

Lemma end_preserves led regs rs i j reg r reg' :
  rsys_ok (mkRSys led regs rs) → regs !! i = Some reg → rs !! j = Some r →
  end_execution_lease r reg = Ret reg' →
  rsys_ok (mkRSys led (<[i := reg']> regs) (delete j rs)).
Proof.
  intros Hs Hi Hj H. apply end_lease_spec in H as (-> & Hn & l & n & Ha).
  pose proof Hs as (_ & _ & _ & Hrs). simpl in Hrs.
  eapply lease_step_preserves; try done; simpl.
  - by apply (proj1 (Forall_lookup _ _) Hrs j).
  - by apply Forall_delete.
  - intros c. pose proof (sumN_delete (resv_charge c) rs j r Hj) as Hd.
    unfold reg_charge, resv_charge in *. rewrite Ha. simpl.
    assert (live_count (set_accounting reg (Shared (resv_budget r))) = resv_live r) as ->
      by exact Hn. lia.
Qed.

Lemma cancel_preserves led regs rs j r led' :
  rsys_ok (mkRSys led regs rs) → rs !! j = Some r → cancel_destroyed r led = Ret led' →
  rsys_ok (mkRSys led' regs (delete j rs)).
Proof.
  intros (He & Hl & Hr & Hrs) Hj H. pose proof (budget_give_spec _ _ _ _ H) as Hg.
  split_and!; simpl in *; [| |done|by apply Forall_delete].
  - intros c. specialize (He c). specialize (Hg c).
    pose proof (sumN_delete (resv_charge c) rs j r Hj) as Hd.
    unfold charged, resv_charge in *. simpl in *. lia.
  - intros c. specialize (Hl c). specialize (Hg c). lia.
Qed.

Lemma drop_preserves led regs rs i reg led' :
  rsys_ok (mkRSys led regs rs) → regs !! i = Some reg → drop_registry reg led = Ret led' →
  rsys_ok (mkRSys led' (delete i regs) rs).
Proof.
  intros (He & Hl & Hr & Hrs) Hi H. pose proof (give_shared_spec _ _ _ _ H) as Hg.
  split_and!; simpl in *; [| |by apply Forall_delete|done].
  - intros c. specialize (He c). specialize (Hg c).
    pose proof (sumN_delete (reg_charge c) regs i reg Hi) as Hd.
    unfold charged, reg_charge in *. simpl in *. lia.
  - intros c. specialize (Hl c). specialize (Hg c). lia.
Qed.

Lemma rstep_preserves s s' : rsys_ok s → rstep s s' → rsys_ok s'.
Proof.
  intros Hs H. destruct H as [led regs rs cap0 cell Hcap|led regs rs cap0 Hcap
    | | | | | | | | |].
  - apply rsys_push; [done..|]. split_and!; simpl; [done|unfold lenN; simpl; lia|done].
  - apply rsys_push; [done..|]. split_and!; simpl; [done|unfold lenN; simpl; lia|done].
  - by eapply register_preserves.
  - match goal with H : close_where _ _ _ = _ |- _ =>
      apply close_where_spec in H as (n & [Hn Hled] & Ha & Hc & Hlen & _) end.
    eapply release_preserves; try done. lia.
  - match goal with H : set_pending_scope _ _ _ = _ |- _ =>
      apply set_pending_scope_spec in H as (Hn & Ha & Hc & Hlen) end.
    eapply (release_preserves _ _ _ _ _ _ _ 0); try done; try lia.
    intros c. rewrite share_zero. lia.
  - match goal with H : close_all _ _ = _ |- _ =>
      apply close_all_spec in H as (-> & Hn & Hled & Ha & Hc & Hlen) end.
    eapply release_preserves; try done; lia.
  - match goal with H : compact_closed _ = _ |- _ =>
      apply compact_closed_spec in H as (Hn & ->) end.
    eapply (release_preserves _ _ _ _ _ _ _ 0); try done; simpl; try lia.
    intros c. rewrite share_zero. lia.
  - by eapply begin_preserves.
  - by eapply end_preserves.
  - by eapply cancel_preserves.
  - by eapply drop_preserves.
Qed.

Lemma rreachable_ok s : rreachable s → rsys_ok s.
Proof.
  induction 1 as [|s s' _ IH Hstep]; [|by eapply rstep_preserves].
  split_and!; simpl; try done. intros c. simpl. lia.
Qed.

(** C3. In every reachable state the shared live-resource ledger is exact and
    bounded: each cell equals the live records of the registries charging it
    plus the live records of the machines leased from it to workers, and never
    exceeds the limit of the cell; and no registry holds more record slots
    than its cap. *)
Theorem resource_ledger_exact s :
  rreachable s →
  (∀ c, sys_led s c = charged s c) ∧ (∀ c, sys_led s c <= limit_of c)%N
  ∧ Forall (λ reg, lenN (records reg) <= cap reg)%N (sys_regs s).
Proof.
  intros (He & Hl & Hr & _)%rreachable_ok. split_and!; [done..|].
  eapply List.Forall_impl; [|exact Hr]. by intros reg (_ & ? & _).
Qed.

Lemma give_covered s a n :
  rsys_ok s → (∀ c, share a c n <= charged s c)%N → ∃ led', give_shared a n (sys_led s) = Ret led'.
Proof.
  intros (He & _) Hc. destruct a as [|b|]; simpl; [by eauto| |by eauto].
  specialize (Hc (budget_cell b)). simpl in Hc. rewrite decide_True in Hc by done.
  unfold budget_give. rewrite He.
  replace (n <=? charged s (budget_cell b))%N with true by (symmetry; by apply N.leb_le).
  by eauto.
Qed.

Lemma reg_charge_covered s i reg n :
  sys_regs s !! i = Some reg → (n <= live_count reg)%N →
  ∀ c, (share (accounting reg) c n <= charged s c)%N.
Proof.
  intros Hi Hn c. pose proof (sumN_elem (reg_charge c) _ _ _ Hi) as Hs.
  unfold charged. unfold reg_charge in Hs at 1.
  assert (share (accounting reg) c n <= share (accounting reg) c (live_count reg))%N; [|lia].
  destruct (accounting reg); simpl; try case_decide; lia.
Qed.

(** The ledger is never overdrawn: in every reachable state, closing
    records of a registry that is not leased, closing all of them, dropping
    any registry, and cancelling any outstanding reservation all return, so
    the [debug_assert!] of [ResourceBudget::give] never fires. *)
Theorem resource_release_never_panics s :
  rreachable s →
  (∀ i reg, sys_regs s !! i = Some reg →
     (∃ led', drop_registry reg (sys_led s) = Ret led')
     ∧ (assert_coordinator_access reg = Ret tt →
        (∀ test, ∃ out, close_where test reg (sys_led s) = Ret out)
        ∧ ∃ out, close_all reg (sys_led s) = Ret out))
  ∧ ∀ j r, sys_resv s !! j = Some r → ∃ led', cancel_destroyed r (sys_led s) = Ret led'.
Proof.
  intros Hok%rreachable_ok. split.
  - intros i reg Hi. split.
    { by eapply give_covered, reg_charge_covered. }
    intros Hacc. split.
    + intros test. unfold close_where. rewrite Hacc. simpl.
      destruct (list_find _ _) as [[k r]|] eqn:Hf; [|by eauto].
      apply list_find_Some in Hf as (Hk & Hlv & _). apply andb_prop in Hlv as [Hlv _].
      destruct (give_covered s (accounting reg) 1 Hok) as [led' ->]; [|by eauto].
      eapply reg_charge_covered; [done|]. rewrite live_count_sum.
      pose proof (sumN_elem live_weight _ _ _ Hk) as Hw. unfold live_weight in Hw at 1.
      by rewrite Hlv in Hw.
    + unfold close_all. rewrite Hacc. simpl.
      destruct (give_covered s (accounting reg) (live_count reg) Hok) as [led' ->]; [|by eauto].
      by eapply reg_charge_covered.
  - intros j r Hj. unfold cancel_destroyed.
    apply (give_covered s (Shared (resv_budget r)) (resv_live r) Hok).
    intros c. pose proof (sumN_elem (resv_charge c) _ _ _ Hj) as Hs.
    unfold charged. unfold resv_charge in Hs at 1. simpl. lia.
Qed.

End Execution.

(** ** Witnesses *)

Definition demo_reg0 : ResourceRegistry := with_budget 2 (mkBudget 7 3).
Definition demo_record : ResourceRecord := mkRecord PendingOperation 1 77 5 3 Live.
Definition demo_reg1 : ResourceRegistry := set_records demo_reg0 [demo_record].
Definition demo_sys : RSys := mkRSys (<[7%N := 1%N]> (λ _, 0%N)) [demo_reg1] [].

Lemma demo_reachable : rreachable (λ _, 3%N) demo_sys.
Proof.
  eapply reach_step; [eapply reach_step; [apply reach_init|]|].
  - apply (step_spawn _ _ [] [] 2 7). vm_compute. discriminate.
  - by eapply (step_register _ _ [demo_reg0] [] 0 demo_reg0 PendingOperation 1 77 5 3).
Qed.

Lemma resource_ledger_exact_witness :
  rreachable (λ _, 3%N) demo_sys ∧ sys_led demo_sys 7 = 1%N ∧ charged demo_sys 7 = 1%N.
Proof.
  split; [exact demo_reachable|]. split; [reflexivity|].
  rewrite <- (proj1 (resource_ledger_exact (λ _, 3%N) demo_sys demo_reachable) 7%N).
  reflexivity.
Defined.

Lemma resource_release_never_panics_witness :
  rreachable (λ _, 3%N) demo_sys
  ∧ ∃ led', drop_registry demo_reg1 (sys_led demo_sys) = Ret led'.
Proof.
  split; [exact demo_reachable|].
  exact (proj1 (proj1 (resource_release_never_panics (λ _, 3%N) demo_sys demo_reachable)
                  0%nat demo_reg1 eq_refl)).
Defined.

Lemma register_atomic_witness :
  (Ok tt = Ok (E:=FaultCode) tt ∧ registered demo_reg0 demo_reg1 (λ _, 0%N) (<[7%N := 1%N]> (λ _, 0%N))
   ∧ demo_record ∈ live demo_reg1)
  ∨ (Ok tt = Err HostFault ∧ demo_reg1 = demo_reg0
     ∧ <[7%N := 1%N]> (λ _, 0%N) = (λ _, 0%N)).
Proof.
  exact (register_atomic PendingOperation 1 77 5 3 demo_reg0 (λ _, 0%N) (Ok tt) demo_reg1
           (<[7%N := 1%N]> (λ _, 0%N)) eq_refl).
Defined.

Lemma prepare_then_register_witness :
  prepare_register true demo_reg0 (λ _, 0%N) = Ret (Ok tt)
  ∧ ∃ reg' led', register File 1 9 9 4 demo_reg0 (λ _, 0%N) = Ret (Ok tt, reg', led').
Proof.
  split; [reflexivity|].
  apply (prepare_then_register true demo_reg0 (λ _, 0%N) File 1 9 9 4); [|reflexivity].
  vm_compute. discriminate.
Defined.
