(* ===== verification/Ordered.v ===== *)
(** * Ordered keys and sorted vectors

    Rust's derived [Ord] on the scheduler keys, and the vector operations the
    sources use with it: [sort_unstable], [dedup] and [binary_search].  The
    class [Ordered] is the interface between the key types and the sorted
    vectors; [Schedule.v] discharges it for the scheduler keys. *)

From S2P Require Import Prelude.
From stdpp Require Import base numbers list.

(** ** The interface: a total order with Leibniz equality *)

Class Ordered (A : Type) := {
  cmp : A → A → comparison;
  cmp_eq a b : cmp a b = Eq ↔ a = b;
  cmp_opp a b : cmp b a = CompOpp (cmp a b);
  cmp_lt_trans a b c : cmp a b = Lt → cmp b c = Lt → cmp a c = Lt
}.

Definition key_lt {A} `{Ordered A} (a b : A) : Prop := cmp a b = Lt.

Section OrderedFacts.
Context {A : Type} `{Ordered A}.

Lemma cmp_refl (a : A) : cmp a a = Eq.
Proof. by apply cmp_eq. Qed.

Lemma cmp_gt_lt (a b : A) : cmp a b = Gt ↔ cmp b a = Lt.
Proof. rewrite (cmp_opp a b). destruct (cmp a b); simpl; split; done. Qed.

Lemma key_lt_irrefl (a : A) : ¬ key_lt a a.
Proof. unfold key_lt. rewrite cmp_refl. done. Qed.

Lemma key_lt_trans (a b c : A) : key_lt a b → key_lt b c → key_lt a c.
Proof. apply cmp_lt_trans. Qed.

#[export] Instance Ordered_eq_dec : EqDecision A.
Proof.
  intros a b. destruct (cmp a b) eqn:E.
  - left. by apply cmp_eq.
  - right. intros ->. by rewrite cmp_refl in E.
  - right. intros ->. by rewrite cmp_refl in E.
Defined.

End OrderedFacts.

#[export] Hint Resolve cmp_refl key_lt_irrefl key_lt_trans : loom.

(** ** Instances: numbers, pairs, and types that embed into an ordered type *)

#[export] Program Instance Ordered_N : Ordered N := {| cmp := N.compare |}.
Next Obligation. apply N.compare_eq_iff. Qed.
Next Obligation. intros. apply N.compare_antisym. Qed.
Next Obligation. intros a b c. rewrite !N.compare_lt_iff. lia. Qed.

(** The derived order of a struct compares the fields in turn. *)
Definition cmp_prod {A B} `{Ordered A} `{Ordered B} (p q : A * B) : comparison :=
  match cmp p.1 q.1 with
  | Eq => cmp p.2 q.2
  | c => c
  end.

#[export] Program Instance Ordered_prod {A B} `{Ordered A} `{Ordered B} : Ordered (A * B) := {|
  cmp := cmp_prod
|}.
Next Obligation.
  intros A B HA HB [a1 b1] [a2 b2]; unfold cmp_prod; simpl. destruct (cmp a1 a2) eqn:E.
  - apply cmp_eq in E as ->. rewrite cmp_eq. naive_solver.
  - split; [done|]. intros [= -> ->]. by rewrite cmp_refl in E.
  - split; [done|]. intros [= -> ->]. by rewrite cmp_refl in E.
Qed.
Next Obligation.
  intros A B HA HB [a1 b1] [a2 b2]; unfold cmp_prod; simpl. rewrite (cmp_opp a1 a2).
  destruct (cmp a1 a2); simpl; [apply cmp_opp|done..].
Qed.
Next Obligation.
  intros A B HA HB [a1 b1] [a2 b2] [a3 b3]; unfold cmp_prod; simpl.
  destruct (cmp a1 a2) eqn:E1; [|intros _|done].
  - apply cmp_eq in E1 as ->. destruct (cmp a2 a3); eauto using cmp_lt_trans.
  - destruct (cmp a2 a3) eqn:E2; [|intros _|done].
    + apply cmp_eq in E2 as ->. by rewrite E1.
    + by rewrite (cmp_lt_trans _ _ _ E1 E2).
Qed.

(** The order of [A] read off an injective embedding into [B]. *)
Program Definition Ordered_inj {A B} `{Ordered B} (f : A → B) (Hf : ∀ a a', f a = f a' → a = a') :
  Ordered A := {| cmp a a' := cmp (f a) (f a') |}.
Next Obligation. intros A B HB f Hf a b. rewrite cmp_eq. split; [apply Hf|by intros ->]. Qed.
Next Obligation. intros. apply cmp_opp. Qed.
Next Obligation. intros A B HB f Hf a b c. apply cmp_lt_trans. Qed.

(** ** Strictly ascending vectors *)

Inductive ascending {A} `{Ordered A} : list A → Prop :=
| asc_nil : ascending []
| asc_cons x l : Forall (key_lt x) l → ascending l → ascending (x :: l).

(** Insertion keeping duplicates, the step of a sort. *)
Fixpoint insert_sorted {A} `{Ordered A} (x : A) (l : list A) : list A :=
  match l with
  | [] => [x]
  | y :: l' =>
      match cmp x y with
      | Gt => y :: insert_sorted x l'
      | _ => x :: l
      end
  end.

(** [sort_unstable] on a total order: the sorted permutation. *)
Definition sort_keys {A} `{Ordered A} (l : list A) : list A := foldr insert_sorted [] l.

(** [Vec::dedup]: drop an element equal to its predecessor. *)
Fixpoint dedup {A} `{EqDecision A} (l : list A) : list A :=
  match l with
  | x :: ((y :: _) as l') => if decide (x = y) then dedup l' else x :: dedup l'
  | _ => l
  end.

(** [binary_search] on an ascending vector: the position of the key, or the
    position where it belongs. *)
Fixpoint binary_search {A} `{Ordered A} (x : A) (l : list A) : result nat nat :=
  match l with
  | [] => Err 0
  | y :: l' =>
      match cmp y x with
      | Eq => Ok 0
      | Gt => Err 0
      | Lt =>
          match binary_search x l' with
          | Ok i => Ok (S i)
          | Err i => Err (S i)
          end
      end
  end.

(** [Vec::insert] at a position within the vector. *)
Definition insert_at {A} (i : nat) (x : A) (l : list A) : list A := take i l ++ x :: drop i l.

(** ** Facts *)

Section SortedFacts.
Context {A : Type} `{Ordered A}.

Lemma ascending_cons_inv (x : A) l :
  ascending (x :: l) → Forall (key_lt x) l ∧ ascending l.
Proof. by inversion 1. Qed.

Lemma ascending_NoDup (l : list A) : ascending l → NoDup l.
Proof.
  induction 1 as [|x l Hx Hl IH]; constructor; [|done].
  intros Hin. eapply (key_lt_irrefl x). by eapply (proj1 (List.Forall_forall _ _) Hx), list_elem_of_In.
Qed.

(** Two ascending vectors with the same members are equal. *)
Lemma ascending_ext (l1 l2 : list A) :
  ascending l1 → ascending l2 → (∀ x, x ∈ l1 ↔ x ∈ l2) → l1 = l2.
Proof.
  intros H1. revert l2. induction H1 as [|x l1 Hx H1 IH]; intros l2 H2 Hext.
  - destruct l2 as [|y l2]; [done|]. exfalso. apply (not_elem_of_nil y), Hext. by left.
  - destruct H2 as [|y l2 Hy H2].
    { exfalso. apply (not_elem_of_nil x), Hext. by left. }
    rewrite List.Forall_forall in Hx, Hy. setoid_rewrite <- list_elem_of_In in Hx.
    setoid_rewrite <- list_elem_of_In in Hy.
    assert (x = y) as ->.
    { assert (x ∈ y :: l2) as [Hl|Hl]%elem_of_cons by (apply Hext; by left); [done|].
      assert (y ∈ x :: l1) as [Hr|Hr]%elem_of_cons by (apply Hext; by left); [done|].
      exfalso. apply (key_lt_irrefl x). eauto with loom. }
    f_equal. apply IH; [done|]. intros z. split; intros Hz.
    + assert (z ∈ y :: l2) as [->|?]%elem_of_cons by (apply Hext; by right); [|done].
      exfalso. by apply (key_lt_irrefl y), Hx.
    + assert (z ∈ y :: l1) as [->|?]%elem_of_cons by (apply Hext; by right); [|done].
      exfalso. by apply (key_lt_irrefl y), Hy.
Qed.

Lemma insert_sorted_elem (x y : A) l : y ∈ insert_sorted x l ↔ y = x ∨ y ∈ l.
Proof.
  induction l as [|z l IH]; simpl; [by rewrite list_elem_of_singleton, elem_of_nil; naive_solver|].
  destruct (cmp x z); rewrite !elem_of_cons, ?IH; naive_solver.
Qed.

Lemma sort_keys_elem (x : A) l : x ∈ sort_keys l ↔ x ∈ l.
Proof.
  induction l as [|y l IH]; simpl; [done|]. by rewrite insert_sorted_elem, elem_of_cons, IH.
Qed.

Lemma dedup_elem (x : A) l : x ∈ dedup l ↔ x ∈ l.
Proof.
  induction l as [|y l IH]; [done|]. destruct l as [|z l]; [done|].
  change (dedup (y :: z :: l)) with
    (if decide (y = z) then dedup (z :: l) else y :: dedup (z :: l)).
  case_decide; [subst|]; rewrite ?elem_of_cons, IH, ?elem_of_cons; naive_solver.
Qed.

(** Ascending up to repetitions. *)
Inductive nondecreasing : list A → Prop :=
| nd_nil : nondecreasing []
| nd_cons x l : Forall (λ y, x = y ∨ key_lt x y) l → nondecreasing l → nondecreasing (x :: l).

Lemma insert_sorted_nondecreasing (x : A) l : nondecreasing l → nondecreasing (insert_sorted x l).
Proof.
  induction 1 as [|y l Hy Hl IH]; simpl; [repeat constructor|].
  rewrite List.Forall_forall in Hy.
  destruct (cmp x y) eqn:E.
  - apply cmp_eq in E as ->. constructor; [|by constructor; [apply List.Forall_forall|]].
    apply List.Forall_forall. intros z [->|Hz]; [by left|by apply Hy].
  - constructor; [|by constructor; [apply List.Forall_forall|]].
    apply List.Forall_forall. intros z [->|Hz]; [by right|].
    right. destruct (Hy z Hz) as [<-|?]; [done|]. by eapply key_lt_trans.
  - apply cmp_gt_lt in E. constructor; [|done]. apply List.Forall_forall.
    intros z Hz%list_elem_of_In%insert_sorted_elem.
    destruct Hz as [->|Hz%list_elem_of_In]; [by right|by apply Hy].
Qed.

Lemma sort_keys_nondecreasing (l : list A) : nondecreasing (sort_keys l).
Proof. induction l; simpl; [constructor|by apply insert_sorted_nondecreasing]. Qed.

Lemma dedup_ascending (l : list A) : nondecreasing l → ascending (dedup l).
Proof.
  induction 1 as [|y l Hy Hl IH]; [constructor|]. destruct l as [|z l]; [repeat constructor|].
  change (dedup (y :: z :: l)) with
    (if decide (y = z) then dedup (z :: l) else y :: dedup (z :: l)).
  case_decide; [done|]. constructor; [|done]. rewrite List.Forall_forall in Hy.
  apply List.Forall_forall. intros x Hx%list_elem_of_In%dedup_elem%elem_of_cons.
  destruct (Hy z) as [?|Hyz]; [by left|done|].
  destruct Hx as [->|Hx%list_elem_of_In]; [done|]. inversion Hl as [|? ? Hz ?]; subst.
  rewrite List.Forall_forall in Hz. destruct (Hz x Hx) as [<-|?]; [done|]. by eapply key_lt_trans.
Qed.

(** Sorting and removing repetitions gives the ascending vector of the set. *)
Lemma sort_dedup_ascending (l : list A) : ascending (dedup (sort_keys l)).
Proof. apply dedup_ascending, sort_keys_nondecreasing. Qed.

Lemma sort_dedup_elem (x : A) (l : list A) : x ∈ dedup (sort_keys l) ↔ x ∈ l.
Proof. by rewrite dedup_elem, sort_keys_elem. Qed.

Lemma dedup_snoc (l : list A) x :
  dedup (l ++ [x]) = if decide (last l = Some x) then dedup l else dedup l ++ [x].
Proof.
  induction l as [|y l IH]; [by rewrite decide_False by done|].
  destruct l as [|z l].
  - simpl. repeat case_decide; simplify_eq; done.
  - change (dedup ((y :: z :: l) ++ [x])) with
      (if decide (y = z) then dedup ((z :: l) ++ [x]) else y :: dedup ((z :: l) ++ [x])).
    change (dedup (y :: z :: l)) with
      (if decide (y = z) then dedup (z :: l) else y :: dedup (z :: l)).
    change (last (y :: z :: l)) with (last (z :: l)). rewrite IH.
    repeat case_decide; done.
Qed.

(** Removing repetitions commutes with reversal, so a descending sort
    followed by [dedup] is the reversed ascending vector of the set. *)
Lemma dedup_reverse (l : list A) : dedup (reverse l) = reverse (dedup l).
Proof.
  induction l as [|y l IH]; [done|]. rewrite reverse_cons, dedup_snoc, IH.
  destruct l as [|z l]; [done|].
  change (dedup (y :: z :: l)) with
    (if decide (y = z) then dedup (z :: l) else y :: dedup (z :: l)).
  rewrite last_reverse. simpl head.
  destruct (decide (y = z)) as [->|Hyz]; [by rewrite decide_True|].
  case_decide; simplify_eq/=; by rewrite reverse_cons.
Qed.

Lemma elem_of_insert_at (x y : A) (l : list A) i : y ∈ insert_at i x l ↔ y = x ∨ y ∈ l.
Proof.
  unfold insert_at. rewrite <- (take_drop i l) at 3.
  rewrite !elem_of_app, elem_of_cons. naive_solver.
Qed.

Lemma binary_search_Ok (x : A) l i : binary_search x l = Ok i → l !! i = Some x.
Proof.
  revert i. induction l as [|y l IH]; intros i; simpl; [discriminate|].
  destruct (cmp y x) eqn:E; try discriminate.
  - apply cmp_eq in E as ->. by intros [= <-].
  - destruct (binary_search x l); [|discriminate]. intros [= <-]. simpl. by apply IH.
Qed.

Lemma binary_search_Err (x : A) l i :
  ascending l → binary_search x l = Err i →
  ((i ≤ length l)%nat) ∧ (x ∉ l) ∧ ascending (insert_at i x l).
Proof.
  intros Hl. revert i. induction Hl as [|y l Hy Hl IH]; intros i; simpl.
  - intros [= <-]. split_and!; [done|by apply not_elem_of_nil|repeat constructor].
  - rewrite List.Forall_forall in Hy. destruct (cmp y x) eqn:E; [discriminate| |].
    + destruct (binary_search x l) as [|j]; [discriminate|]. intros [= <-].
      destruct (IH j eq_refl) as (? & Hn & Hasc). split_and!; [lia| |].
      * rewrite elem_of_cons. intros [->|?]; [by apply (key_lt_irrefl y)|done].
      * change (insert_at (S j) x (y :: l)) with (y :: insert_at j x l).
        constructor; [|done]. apply List.Forall_forall.
        intros z Hin. apply list_elem_of_In, elem_of_insert_at in Hin.
        destruct Hin as [->|Hz%list_elem_of_In]; [done|by apply Hy].
    + intros [= <-]. apply cmp_gt_lt in E. assert (Forall (key_lt x) (y :: l)) as Hall.
      { apply List.Forall_forall. intros z [->|Hz]; [done|]. eapply key_lt_trans; [done|]. by apply Hy. }
      split_and!; [lia| |].
      * intros Hin%list_elem_of_In. eapply (key_lt_irrefl x). by eapply List.Forall_forall in Hall.
      * unfold insert_at. simpl. constructor; [done|]. constructor; [by apply List.Forall_forall|done].
Qed.

Lemma ascending_delete (l : list A) i : ascending l → ascending (delete i l).
Proof.
  intros Hl. revert i. induction Hl as [|y l Hy Hl IH]; intros [|i]; simpl; [constructor..|done|].
  constructor; [by apply Forall_delete|apply IH].
Qed.

(** A found key is the only copy, so removing it removes it from the set. *)
Lemma ascending_elem_delete (l : list A) i x y :
  ascending l → l !! i = Some x → (y ∈ delete i l ↔ y ∈ l ∧ y ≠ x).
Proof.
  intros Hl Hi. pose proof (ascending_NoDup l Hl) as Hnd.
  rewrite <- (take_drop_middle l i x Hi) in Hnd.
  rewrite (delete_take_drop l i). rewrite <- (take_drop_middle l i x Hi) at 3.
  apply list.NoDup_app in Hnd as (_ & Hd & Hnd). apply list.NoDup_cons in Hnd as [Hn _].
  rewrite !elem_of_app, elem_of_cons. split.
  - intros [?|?]; split; try tauto; intros ->; [|done].
    eapply Hd; [done|by left].
  - naive_solver.
Qed.

End SortedFacts.
