(* ===== verification/Schedule.v ===== *)
(** * Plain scheduler records (crates/lm-vm/src/schedule.rs)

    The scheduler keys with their derived orders, the batched
    [ScheduleEvents] with their coalescing marks, and the dense index of
    [ActiveProcs].

    The event batch is specified by the set of the keys pushed since it was
    last empty: a drain yields that set in ascending order, whatever marks
    earlier batches left behind.  The active index refines a finite map from
    machine slots to keys. *)

From S2P Require Import Prelude Fault Ordered.
From stdpp Require Import base numbers gmap list.

(** ** Keys *)

Record TaskKey := mkTaskKey { vm : N; generation : N }.

Inductive WakeKey :=
| Receive (k : TaskKey)
| Send (k : TaskKey)
| Done (k : TaskKey)
| Asked (k : TaskKey)
| Snapshot (k : TaskKey).

Record CompletionKey := mkCompletionKey { ck_machine : TaskKey; ck_ordinal : N }.

Record WaitSetKey := mkWaitSetKey { ws_owner : TaskKey; ws_token : N }.

Inductive WaitSourceKey :=
| SourceWake (w : WakeKey)
| SourceCompletion (c : CompletionKey).

Inductive SliceExit :=
| ExitYielded
| ExitBlocked (w : WakeKey)
| ExitWaiting (c : CompletionKey)
| ExitParked (p : WaitSetKey)
| ExitTerminal.

Inductive TaskStatus :=
| StatusReady
| StatusBlocked (w : WakeKey)
| StatusWaiting (c : CompletionKey)
| StatusParked (p : WaitSetKey)
| StatusTerminal
| StatusDormant.

#[export] Instance TaskKey_eq_dec : EqDecision TaskKey.
Proof. solve_decision. Defined.
#[export] Instance WakeKey_eq_dec : EqDecision WakeKey.
Proof. solve_decision. Defined.
#[export] Instance CompletionKey_eq_dec : EqDecision CompletionKey.
Proof. solve_decision. Defined.
#[export] Instance WaitSetKey_eq_dec : EqDecision WaitSetKey.
Proof. solve_decision. Defined.
#[export] Instance WaitSourceKey_eq_dec : EqDecision WaitSourceKey.
Proof. solve_decision. Defined.
#[export] Instance SliceExit_eq_dec : EqDecision SliceExit.
Proof. solve_decision. Defined.
#[export] Instance TaskStatus_eq_dec : EqDecision TaskStatus.
Proof. solve_decision. Defined.

(** [wake_parts]: the target and the mark lane, which is also the variant's
    rank in the derived order. *)
Definition wake_parts (w : WakeKey) : TaskKey * nat :=
  match w with
  | Receive k => (k, 0)
  | Send k => (k, 1)
  | Done k => (k, 2)
  | Asked k => (k, 3)
  | Snapshot k => (k, 4)
  end%nat.

(** The derived [Ord]: fields in turn, variants in declaration order. *)
Definition task_rank (k : TaskKey) : N * N := (vm k, generation k).
Definition wake_rank (w : WakeKey) : N * (N * N) :=
  (N.of_nat (wake_parts w).2, task_rank (wake_parts w).1).
Definition completion_rank (c : CompletionKey) : (N * N) * N :=
  (task_rank (ck_machine c), ck_ordinal c).
Definition wait_set_rank (p : WaitSetKey) : (N * N) * N :=
  (task_rank (ws_owner p), ws_token p).
Definition wait_source_rank (s : WaitSourceKey) : N * ((N * (N * N)) * ((N * N) * N)) :=
  match s with
  | SourceWake w => (0%N, (wake_rank w, ((0, 0), 0)%N))
  | SourceCompletion c => (1%N, ((0, (0, 0))%N, completion_rank c))
  end.

Lemma task_rank_inj a b : task_rank a = task_rank b → a = b.
Proof. destruct a, b. by intros [= -> ->]. Qed.
Lemma wake_rank_inj a b : wake_rank a = wake_rank b → a = b.
Proof.
  unfold wake_rank. destruct a as [a|a|a|a|a], b as [b|b|b|b|b]; simpl;
    intros H; try discriminate H; f_equal; apply task_rank_inj; congruence.
Qed.
Lemma completion_rank_inj a b : completion_rank a = completion_rank b → a = b.
Proof. destruct a, b. intros [= ? ? ->]. f_equal. apply task_rank_inj. unfold task_rank. congruence. Qed.
Lemma wait_set_rank_inj a b : wait_set_rank a = wait_set_rank b → a = b.
Proof. destruct a, b. intros [= ? ? ->]. f_equal. apply task_rank_inj. unfold task_rank. congruence. Qed.
Lemma wait_source_rank_inj a b : wait_source_rank a = wait_source_rank b → a = b.
Proof.
  unfold wait_source_rank. destruct a, b; intros H; try discriminate H; f_equal;
    [apply wake_rank_inj|apply completion_rank_inj]; congruence.
Qed.

#[export] Instance Ordered_TaskKey : Ordered TaskKey := Ordered_inj task_rank task_rank_inj.
#[export] Instance Ordered_WakeKey : Ordered WakeKey := Ordered_inj wake_rank wake_rank_inj.
#[export] Instance Ordered_CompletionKey : Ordered CompletionKey :=
  Ordered_inj completion_rank completion_rank_inj.
#[export] Instance Ordered_WaitSetKey : Ordered WaitSetKey :=
  Ordered_inj wait_set_rank wait_set_rank_inj.
#[export] Instance Ordered_WaitSourceKey : Ordered WaitSourceKey :=
  Ordered_inj wait_source_rank wait_source_rank_inj.

#[export] Instance TaskKey_countable : Countable TaskKey.
Proof.
  apply (inj_countable' task_rank (λ p, mkTaskKey p.1 p.2)). by intros [].
Defined.
#[export] Instance CompletionKey_countable : Countable CompletionKey.
Proof.
  apply (inj_countable' (λ c, (ck_machine c, ck_ordinal c)) (λ p, mkCompletionKey p.1 p.2)).
  by intros [].
Defined.
#[export] Instance WaitSetKey_countable : Countable WaitSetKey.
Proof.
  apply (inj_countable' (λ c, (ws_owner c, ws_token c)) (λ p, mkWaitSetKey p.1 p.2)).
  by intros [].
Defined.
#[export] Instance WakeKey_countable : Countable WakeKey.
Proof.
  apply (inj_countable' wake_parts (λ p,
    match p.2 with
    | 0 => Receive p.1 | 1 => Send p.1 | 2 => Done p.1 | 3 => Asked p.1 | _ => Snapshot p.1
    end%nat)). by intros [].
Defined.

(** ** Batched events *)

Record ScheduleEvents := mkEvents {
  ev_ready : list TaskKey;
  ev_removed : list TaskKey;
  ev_wakes : list WakeKey;
  ev_ready_marks : list N;
  ev_removed_marks : list N;
  ev_wake_marks : list (list N)
}.

(** [ScheduleEvents::default()]. *)
Definition events_default : ScheduleEvents := mkEvents [] [] [] [] [] [].

Definition events_is_empty (e : ScheduleEvents) : bool :=
  match ev_ready e, ev_removed e, ev_wakes e with
  | [], [], [] => true
  | _, _, _ => false
  end.

Definition task_slot (k : TaskKey) : nat := N.to_nat (vm k).
Definition task_mark (k : TaskKey) : N := (generation k + 1)%N.

Definition push_task (values : list TaskKey) (marks : list N) (key : TaskKey) :
    exec (list TaskKey * list N) :=
  let slot := task_slot key in
  let marks := if bool_decide (length marks ≤ slot)%nat then resize (S slot) 0%N marks else marks in
  let mark := task_mark key in
  current ← of_option (marks !! slot);
  if (current =? mark)%N then Ret (values, marks)
  else Ret (values ++ [key], <[slot := mark]> marks).

Definition push_ready (e : ScheduleEvents) (key : TaskKey) : exec ScheduleEvents :=
  '(values, marks) ← push_task (ev_ready e) (ev_ready_marks e) key;
  Ret (mkEvents values (ev_removed e) (ev_wakes e) marks (ev_removed_marks e) (ev_wake_marks e)).

Definition push_removed (e : ScheduleEvents) (key : TaskKey) : exec ScheduleEvents :=
  '(values, marks) ← push_task (ev_removed e) (ev_removed_marks e) key;
  Ret (mkEvents (ev_ready e) values (ev_wakes e) (ev_ready_marks e) marks (ev_wake_marks e)).

Definition push_wake (e : ScheduleEvents) (wake : WakeKey) : exec ScheduleEvents :=
  let '(key, lane) := wake_parts wake in
  let slot := task_slot key in
  let marks :=
    if bool_decide (length (ev_wake_marks e) ≤ slot)%nat
    then resize (S slot) (replicate 5 0%N) (ev_wake_marks e) else ev_wake_marks e in
  let mark := task_mark key in
  lanes ← of_option (marks !! slot);
  current ← of_option (lanes !! lane);
  if (current =? mark)%N
  then Ret (mkEvents (ev_ready e) (ev_removed e) (ev_wakes e)
              (ev_ready_marks e) (ev_removed_marks e) marks)
  else Ret (mkEvents (ev_ready e) (ev_removed e) (ev_wakes e ++ [wake])
              (ev_ready_marks e) (ev_removed_marks e) (<[slot := <[lane := mark]> lanes]> marks)).

Definition clear_task_mark (marks : list N) (key : TaskKey) : exec (list N) :=
  mark ← of_option (marks !! task_slot key);
  Ret (if (mark =? task_mark key)%N then <[task_slot key := 0%N]> marks else marks).

(** The wake arm of [release_marks]: [get_mut] on the outer vector tolerates
    a missing row, the lane index panics. *)
Definition clear_wake_mark (marks : list (list N)) (wake : WakeKey) : exec (list (list N)) :=
  let '(key, lane) := wake_parts wake in
  match marks !! task_slot key with
  | None => Ret marks
  | Some lanes =>
      mark ← of_option (lanes !! lane);
      Ret (if (mark =? task_mark key)%N
           then <[task_slot key := <[lane := 0%N]> lanes]> marks else marks)
  end.

(** A [for] loop whose body updates one table. *)
Fixpoint for_each_exec {A S} (step : S → A → exec S) (s : S) (l : list A) : exec S :=
  match l with
  | [] => Ret s
  | x :: l' => s' ← step s x; for_each_exec step s' l'
  end.

Definition release_marks (e : ScheduleEvents) : exec ScheduleEvents :=
  ready_marks ← for_each_exec clear_task_mark (ev_ready_marks e) (ev_ready e);
  removed_marks ← for_each_exec clear_task_mark (ev_removed_marks e) (ev_removed e);
  wake_marks ← for_each_exec clear_wake_mark (ev_wake_marks e) (ev_wakes e);
  Ret (mkEvents (ev_ready e) (ev_removed e) (ev_wakes e) ready_marks removed_marks wake_marks).

(** Descending order without repetitions, so that [Vec::pop] takes the least key. *)
Definition order_for_pop {A} `{Ordered A} (values : list A) : list A :=
  dedup (reverse (sort_keys values)).

Definition prepare_drain (e : ScheduleEvents) : exec ScheduleEvents :=
  e ← release_marks e;
  Ret (mkEvents (order_for_pop (ev_ready e)) (order_for_pop (ev_removed e))
         (order_for_pop (ev_wakes e)) (ev_ready_marks e) (ev_removed_marks e) (ev_wake_marks e)).

(** [Vec::pop]. *)
Definition vec_pop {A} (l : list A) : option A * list A := (last l, take (length l - 1)%nat l).

Definition pop_ready (e : ScheduleEvents) : option TaskKey * ScheduleEvents :=
  let '(key, values) := vec_pop (ev_ready e) in
  (key, mkEvents values (ev_removed e) (ev_wakes e)
          (ev_ready_marks e) (ev_removed_marks e) (ev_wake_marks e)).

Definition pop_removed (e : ScheduleEvents) : option TaskKey * ScheduleEvents :=
  let '(key, values) := vec_pop (ev_removed e) in
  (key, mkEvents (ev_ready e) values (ev_wakes e)
          (ev_ready_marks e) (ev_removed_marks e) (ev_wake_marks e)).

Definition pop_wake (e : ScheduleEvents) : option WakeKey * ScheduleEvents :=
  let '(key, values) := vec_pop (ev_wakes e) in
  (key, mkEvents (ev_ready e) (ev_removed e) values
          (ev_ready_marks e) (ev_removed_marks e) (ev_wake_marks e)).

Definition events_clear (e : ScheduleEvents) : exec ScheduleEvents :=
  e ← release_marks e;
  Ret (mkEvents [] [] [] (ev_ready_marks e) (ev_removed_marks e) (ev_wake_marks e)).

(** A [while let Some(key) = events.pop_..()] loop. *)
Fixpoint pop_all {K S} (fuel : nat) (pop : S → option K * S) (e : S) : exec (list K * S) :=
  match fuel with
  | O => NoFuel
  | S fuel =>
      match pop e with
      | (None, e) => Ret ([], e)
      | (Some k, e) => '(ks, e) ← pop_all fuel pop e; Ret (k :: ks, e)
      end
  end.

(** ** Marks

    The mark table of one event vector, seen through a lookup [get] by key:
    a mark that equals the key's own mark makes [push_..] skip the key, so
    every such key has to be in the vector ([marks_cover]). *)

Definition task_get (marks : list N) (k : TaskKey) : option N := marks !! task_slot k.

Definition wake_mark (w : WakeKey) : N := task_mark (wake_parts w).1.
Definition wake_get (marks : list (list N)) (w : WakeKey) : option N :=
  marks !! task_slot (wake_parts w).1 ≫= (.!! (wake_parts w).2).

Record marks_cover {K} (get : K → option N) (mark : K → N) (values : list K) : Prop := {
  cover_live k : get k = Some (mark k) → k ∈ values;
  cover_range k : k ∈ values → is_Some (get k)
}.

Definition five_lanes (marks : list (list N)) : Prop := Forall (λ row, length row = 5) marks.

Lemma task_mark_pos k : task_mark k ≠ 0%N.
Proof. unfold task_mark. lia. Qed.

Lemma task_key_eq a b : task_slot a = task_slot b → task_mark a = task_mark b → a = b.
Proof. destruct a, b. unfold task_slot, task_mark. simpl. intros. f_equal; lia. Qed.

Lemma wake_key_eq a b :
  task_slot (wake_parts a).1 = task_slot (wake_parts b).1 → (wake_parts a).2 = (wake_parts b).2 →
  wake_mark a = wake_mark b → a = b.
Proof.
  unfold wake_mark. destruct a, b; simpl; intros Hs Hl Hm; try discriminate Hl;
    f_equal; by apply task_key_eq.
Qed.

Lemma lookup_grown {A} (d : A) (marks : list A) slot j :
  (if bool_decide (length marks ≤ slot)%nat then resize (S slot) d marks else marks) !! j =
  match marks !! j with
  | Some m => Some m
  | None => if decide (length marks ≤ slot)%nat
            then if decide (j ≤ slot)%nat then Some d else None else None
  end.
Proof.
  case_bool_decide as Hl; [rewrite decide_True by done|rewrite decide_False by done].
  - destruct (marks !! j) as [m|] eqn:Hj.
    + rewrite lookup_resize; [done|..]; apply lookup_lt_Some in Hj; lia.
    + apply lookup_ge_None in Hj. case_decide.
      * rewrite lookup_resize_new; [done|lia..].
      * apply lookup_resize_old. lia.
  - by destruct (marks !! j).
Qed.

Lemma lookup_grown_slot {A} (d : A) (marks : list A) slot :
  is_Some ((if bool_decide (length marks ≤ slot)%nat then resize (S slot) d marks else marks) !! slot).
Proof.
  rewrite lookup_grown. destruct (marks !! slot) eqn:E; [by eexists|].
  apply lookup_ge_None in E. rewrite !decide_True by lia. by eexists.
Qed.

(** The table after a write that a push makes, in terms of lookups alone. *)
Lemma cover_push {K} (get get' : K → option N) (mark : K → N) values k :
  marks_cover get mark values → get' k = Some (mark k) →
  (∀ j, get' j = Some (mark j) → j = k ∨ get j = Some (mark j)) →
  (∀ j, is_Some (get j) → is_Some (get' j)) →
  marks_cover get' mark (values ++ [k]).
Proof.
  intros [Hl Hr] Hk Hlive Hrange. split.
  - intros j [->|Hj]%Hlive; rewrite elem_of_app; [right; by left|left; by apply Hl].
  - intros j [Hj| ->%list_elem_of_singleton]%elem_of_app; [by apply Hrange, Hr|by eexists].
Qed.

Lemma cover_same {K} (get get' : K → option N) (mark : K → N) values :
  marks_cover get mark values →
  (∀ j, get' j = Some (mark j) → get j = Some (mark j)) →
  (∀ j, is_Some (get j) → is_Some (get' j)) →
  marks_cover get' mark values.
Proof. intros [Hl Hr] Hlive Hrange. split; [by intros j ?%Hlive%Hl|by intros j ?%Hr%Hrange]. Qed.

Lemma push_task_spec values marks k :
  marks_cover (task_get marks) task_mark values →
  ∃ values' marks', push_task values marks k = Ret (values', marks') ∧
    marks_cover (task_get marks') task_mark values' ∧
    (∀ j, j ∈ values' ↔ j = k ∨ j ∈ values).
Proof.
  intros Hc. unfold push_task.
  destruct (lookup_grown_slot 0%N marks (task_slot k)) as [cur Hcur]. rewrite Hcur. simpl.
  set (grown := if bool_decide _ then _ else _) in *.
  assert (∀ j, task_get grown j = Some (task_mark j) → task_get marks j = Some (task_mark j)) as Hlive.
  { intros j. unfold task_get, grown. rewrite lookup_grown.
    destruct (marks !! task_slot j); [done|]. repeat case_decide; intros [= Hj].
    by destruct (task_mark_pos j). }
  assert (∀ j, is_Some (task_get marks j) → is_Some (task_get grown j)) as Hrange.
  { intros j [m Hm]. exists m. unfold task_get, grown in *. by rewrite lookup_grown, Hm. }
  destruct (cur =? task_mark k)%N eqn:E; to_prop.
  - exists values, grown. split_and!; [done|by eapply cover_same|].
    subst cur. assert (k ∈ values) by (eapply cover_live; [done|by apply Hlive]). naive_solver.
  - exists (values ++ [k]), (<[task_slot k:=task_mark k]> grown).
    pose proof (lookup_lt_Some _ _ _ Hcur). split_and!; [done| |].
    + eapply cover_push; [done|..].
      * unfold task_get. by apply list_lookup_insert_eq.
      * intros j. unfold task_get. destruct (decide (task_slot j = task_slot k)) as [Es|Es].
        -- rewrite Es, list_lookup_insert_eq by done. intros [= Em]. left. by apply task_key_eq.
        -- rewrite list_lookup_insert_ne by done. intros Hj. right. by apply Hlive.
      * intros j Hj%Hrange. unfold task_get in *. apply lookup_lt_is_Some.
        rewrite length_insert. by apply lookup_lt_is_Some.
    + intros j. rewrite elem_of_app, list_elem_of_singleton. naive_solver.
Qed.

(** What clearing one key's mark does to the table. *)
Definition clears {K T} (get : T → K → option N) (mark : K → N) (t : T) (k : K) (t' : T) : Prop :=
  (∀ j, get t' j = Some (mark j) → get t j = Some (mark j) ∧ j ≠ k) ∧
  (∀ j, is_Some (get t j) → is_Some (get t' j)).

Lemma clear_task_mark_spec marks k :
  is_Some (task_get marks k) →
  ∃ marks', clear_task_mark marks k = Ret marks' ∧ clears task_get task_mark marks k marks'.
Proof.
  intros [m Hm]. unfold clear_task_mark. unfold task_get in Hm. rewrite Hm. simpl.
  eexists. split; [done|]. pose proof (lookup_lt_Some _ _ _ Hm). unfold clears, task_get.
  destruct (m =? task_mark k)%N eqn:E; to_prop; split.
  - intros j. destruct (decide (task_slot j = task_slot k)) as [Es|Es].
    + rewrite Es, list_lookup_insert_eq by done. intros [= Hj]. by destruct (task_mark_pos j).
    + rewrite list_lookup_insert_ne by done. split; [done|]. by intros ->.
  - intros j Hj. apply lookup_lt_is_Some. rewrite length_insert. by apply lookup_lt_is_Some.
  - intros j Hj. split; [done|]. intros ->. congruence.
  - done.
Qed.

Lemma wake_lane_lt w : ((wake_parts w).2 < 5)%nat.
Proof. destruct w; simpl; lia. Qed.

Lemma five_lanes_lookup marks i row j :
  five_lanes marks → marks !! i = Some row → (j < 5)%nat → is_Some (row !! j).
Proof.
  intros Hf Hi Hj. apply lookup_lt_is_Some.
  by rewrite (Forall_lookup_1 _ _ _ _ Hf Hi).
Qed.

(** A lane write, in terms of [wake_get]. *)
Lemma wake_get_insert marks w row v j :
  marks !! task_slot (wake_parts w).1 = Some row → is_Some (row !! (wake_parts w).2) →
  wake_get (<[task_slot (wake_parts w).1 := <[(wake_parts w).2 := v]> row]> marks) j =
  if decide (task_slot (wake_parts j).1 = task_slot (wake_parts w).1 ∧
             (wake_parts j).2 = (wake_parts w).2)
  then Some v else wake_get marks j.
Proof.
  intros Hr [x Hx]. unfold wake_get. pose proof (lookup_lt_Some _ _ _ Hr).
  pose proof (lookup_lt_Some _ _ _ Hx).
  destruct (decide (task_slot (wake_parts j).1 = task_slot (wake_parts w).1)) as [Es|Es].
  - rewrite Es, list_lookup_insert_eq, Hr by done. simpl. case_decide as Hd.
    + destruct Hd as [_ ->]. by apply list_lookup_insert_eq.
    + rewrite list_lookup_insert_ne; [done|]. naive_solver.
  - rewrite list_lookup_insert_ne by done. by rewrite decide_False by naive_solver.
Qed.

Lemma five_lanes_insert marks i row j v :
  five_lanes marks → marks !! i = Some row → five_lanes (<[i := <[j := v]> row]> marks).
Proof.
  intros Hf Hi. apply Forall_insert; [done|]. rewrite length_insert.
  by rewrite (Forall_lookup_1 _ _ _ _ Hf Hi).
Qed.

Lemma clear_wake_mark_spec marks w :
  five_lanes marks → is_Some (wake_get marks w) →
  ∃ marks', clear_wake_mark marks w = Ret marks' ∧ five_lanes marks' ∧
    clears wake_get wake_mark marks w marks'.
Proof.
  intros Hf [m Hm]. unfold clear_wake_mark.
  unfold wake_get in Hm. destruct (marks !! task_slot (wake_parts w).1) as [row|] eqn:Hr; [|done].
  simpl in Hm. destruct (wake_parts w) as [key lane] eqn:Hw. simpl in *. rewrite Hr, Hm. simpl.
  eexists. split; [done|].
  assert (key = (wake_parts w).1) as -> by by rewrite Hw.
  assert (lane = (wake_parts w).2) as -> by by rewrite Hw. clear Hw.
  destruct (m =? _)%N eqn:E; to_prop; [split; [by apply five_lanes_insert|split]|split; [done|split]].
  - intros j. rewrite wake_get_insert by (by try eexists). case_decide as Hd.
    + intros [= Hj]. by destruct (task_mark_pos (wake_parts j).1).
    + split; [done|]. intros ->. naive_solver.
  - intros j Hj. rewrite wake_get_insert by (by try eexists). case_decide; [by eexists|done].
  - intros j Hj. split; [done|]. intros ->. unfold wake_get in Hj. rewrite Hr in Hj. simpl in Hj.
    unfold wake_mark in Hj. congruence.
  - done.
Qed.

(** Clearing the mark of every member leaves no live mark. *)
Lemma for_each_clears {K T} (get : T → K → option N) (mark : K → N) (P : T → Prop)
    (step : T → K → exec T) :
  (∀ t k, P t → is_Some (get t k) → ∃ t', step t k = Ret t' ∧ P t' ∧ clears get mark t k t') →
  ∀ values t, P t → (∀ k, k ∈ values → is_Some (get t k)) →
  ∃ t', for_each_exec step t values = Ret t' ∧ P t' ∧
    (∀ j, get t' j = Some (mark j) → get t j = Some (mark j) ∧ j ∉ values).
Proof.
  intros Hstep values. induction values as [|k values IH]; intros t HP Hrange; simpl.
  { exists t. split_and!; [done..|]. intros j Hj. split; [done|]. apply not_elem_of_nil. }
  destruct (Hstep t k HP) as (t1 & -> & HP1 & Hl & Hr); [apply Hrange; by left|]. simpl.
  destruct (IH t1 HP1) as (t2 & -> & HP2 & Hl2).
  { intros j Hj. apply Hr, Hrange. by right. }
  exists t2. split_and!; [done..|]. intros j [Hj Hn]%Hl2. destruct (Hl _ Hj).
  split; [done|]. rewrite elem_of_cons. naive_solver.
Qed.

(** ** The batch invariant *)

Record events_ok (e : ScheduleEvents) : Prop := {
  ok_ready : marks_cover (task_get (ev_ready_marks e)) task_mark (ev_ready e);
  ok_removed : marks_cover (task_get (ev_removed_marks e)) task_mark (ev_removed e);
  ok_wakes : marks_cover (wake_get (ev_wake_marks e)) wake_mark (ev_wakes e);
  ok_lanes : five_lanes (ev_wake_marks e)
}.

(** A batch without events and without a live mark. *)
Definition events_fresh (e : ScheduleEvents) : Prop := events_is_empty e = true ∧ events_ok e.

Lemma events_empty_inv e :
  events_is_empty e = true → ev_ready e = [] ∧ ev_removed e = [] ∧ ev_wakes e = [].
Proof. destruct e as [[] [] []]; done. Qed.

Lemma cover_released {K} (get get' : K → option N) (mark : K → N) values :
  marks_cover get mark values →
  (∀ j, get' j = Some (mark j) → get j = Some (mark j) ∧ j ∉ values) →
  ∀ j, get' j ≠ Some (mark j).
Proof. intros [Hl _] H j [Hj Hn]%H. by apply Hn, Hl. Qed.

Lemma release_marks_spec e :
  events_ok e →
  ∃ r d w, release_marks e = Ret (mkEvents (ev_ready e) (ev_removed e) (ev_wakes e) r d w) ∧
    five_lanes w ∧
    (∀ j, task_get r j ≠ Some (task_mark j)) ∧
    (∀ j, task_get d j ≠ Some (task_mark j)) ∧
    (∀ j, wake_get w j ≠ Some (wake_mark j)).
Proof.
  intros [Hr Hd Hw Hf]. unfold release_marks.
  assert (∀ t k, True → is_Some (task_get t k) →
    ∃ t', clear_task_mark t k = Ret t' ∧ True ∧ clears task_get task_mark t k t') as Hstep.
  { intros t k _ (t' & ? & ?)%clear_task_mark_spec. eauto. }
  destruct (for_each_clears task_get task_mark (λ _, True) _ Hstep (ev_ready e) (ev_ready_marks e) I)
    as (r & -> & _ & Hr'); [apply Hr|].
  destruct (for_each_clears task_get task_mark (λ _, True) _ Hstep (ev_removed e) (ev_removed_marks e) I)
    as (d & Ed & _ & Hd'); [apply Hd|].
  destruct (for_each_clears wake_get wake_mark five_lanes _ clear_wake_mark_spec
    (ev_wakes e) (ev_wake_marks e) Hf) as (w & Ew & Hf' & Hw'); [apply Hw|].
  simpl. rewrite Ed. simpl. rewrite Ew. exists r, d, w.
  split_and!; [done|done|exact (cover_released _ _ _ _ Hr Hr')|exact (cover_released _ _ _ _ Hd Hd')|exact (cover_released _ _ _ _ Hw Hw')].
Qed.

Lemma push_wake_spec e w :
  events_ok e →
  ∃ ws m, push_wake e w = Ret (mkEvents (ev_ready e) (ev_removed e) ws
                                 (ev_ready_marks e) (ev_removed_marks e) m) ∧
    marks_cover (wake_get m) wake_mark ws ∧ five_lanes m ∧
    (∀ j, j ∈ ws ↔ j = w ∨ j ∈ ev_wakes e).
Proof.
  intros [_ _ Hc Hf]. unfold push_wake. destruct (wake_parts w) as [key lane] eqn:Hw.
  destruct (lookup_grown_slot (replicate 5 0%N) (ev_wake_marks e) (task_slot key)) as [row Hrow].
  rewrite Hrow. set (grown := if bool_decide _ then _ else _) in *.
  assert (five_lanes grown) as Hf'.
  { unfold grown. case_bool_decide; [|done]. unfold five_lanes. by apply Forall_resize. }
  assert (key = (wake_parts w).1) as -> by by rewrite Hw.
  assert (lane = (wake_parts w).2) as -> by by rewrite Hw. clear Hw. simpl.
  destruct (five_lanes_lookup _ _ _ _ Hf' Hrow (wake_lane_lt w)) as [cur Hcur].
  rewrite Hcur. simpl.
  assert (∀ j, wake_get grown j = Some (wake_mark j) →
    wake_get (ev_wake_marks e) j = Some (wake_mark j)) as Hlive.
  { intros j. unfold wake_get, grown. rewrite lookup_grown.
    destruct (ev_wake_marks e !! _); [done|]. repeat case_decide; [|done..]. cbn [mbind option_bind].
    rewrite lookup_replicate_2 by apply wake_lane_lt.
    intros [= Hj]. by destruct (task_mark_pos (wake_parts j).1). }
  assert (∀ j, is_Some (wake_get (ev_wake_marks e) j) → is_Some (wake_get grown j)) as Hrange.
  { intros j. unfold wake_get, grown. rewrite lookup_grown.
    destruct (ev_wake_marks e !! _); [done|]. by intros [? ?]. }
  destruct (cur =? _)%N eqn:E; to_prop.
  - eexists _, _. split; [done|]. split_and!; [exact (cover_same _ _ _ _ Hc Hlive Hrange)|done|].
    assert (w ∈ ev_wakes e); [|naive_solver].
    apply Hc, Hlive. unfold wake_get. rewrite Hrow. simpl. unfold wake_mark. congruence.
  - eexists _, _. split; [done|]. split_and!; [|by apply five_lanes_insert|].
    + eapply cover_push; [done|..].
      * rewrite wake_get_insert by (by try eexists). by rewrite decide_True.
      * intros j. rewrite wake_get_insert by (by try eexists). case_decide as Hd.
        -- destruct Hd. intros [= Em]. left. by apply wake_key_eq.
        -- intros Hj. right. by apply Hlive.
      * intros j Hj%Hrange. rewrite wake_get_insert by (by try eexists).
        case_decide; [by eexists|done].
    + intros j. rewrite elem_of_app, list_elem_of_singleton. naive_solver.
Qed.

(** One event, and the events of a whole execution slice. *)
Inductive EventPush :=
| PushReady (k : TaskKey)
| PushRemoved (k : TaskKey)
| PushWake (w : WakeKey).

Definition push_event (e : ScheduleEvents) (p : EventPush) : exec ScheduleEvents :=
  match p with
  | PushReady k => push_ready e k
  | PushRemoved k => push_removed e k
  | PushWake w => push_wake e w
  end.

Definition push_events : ScheduleEvents → list EventPush → exec ScheduleEvents :=
  for_each_exec push_event.

Definition pushed_ready (ps : list EventPush) : list TaskKey :=
  omap (λ p, match p with PushReady k => Some k | _ => None end) ps.
Definition pushed_removed (ps : list EventPush) : list TaskKey :=
  omap (λ p, match p with PushRemoved k => Some k | _ => None end) ps.
Definition pushed_wakes (ps : list EventPush) : list WakeKey :=
  omap (λ p, match p with PushWake w => Some w | _ => None end) ps.

Lemma push_event_spec e p :
  events_ok e →
  ∃ e', push_event e p = Ret e' ∧ events_ok e' ∧
    (∀ j, j ∈ ev_ready e' ↔ j ∈ pushed_ready [p] ∨ j ∈ ev_ready e) ∧
    (∀ j, j ∈ ev_removed e' ↔ j ∈ pushed_removed [p] ∨ j ∈ ev_removed e) ∧
    (∀ j, j ∈ ev_wakes e' ↔ j ∈ pushed_wakes [p] ∨ j ∈ ev_wakes e).
Proof.
  intros Hok. pose proof Hok as [Hr Hd Hw Hf]. destruct p as [k|k|w]; simpl.
  - unfold push_ready. destruct (push_task_spec _ _ k Hr) as (v & m & -> & Hc & Hm). simpl.
    eexists. split; [done|]. setoid_rewrite elem_of_cons. setoid_rewrite elem_of_nil.
    split; [by split|]. naive_solver.
  - unfold push_removed. destruct (push_task_spec _ _ k Hd) as (v & m & -> & Hc & Hm). simpl.
    eexists. split; [done|]. setoid_rewrite elem_of_cons. setoid_rewrite elem_of_nil.
    split; [by split|]. naive_solver.
  - destruct (push_wake_spec e w Hok) as (v & m & -> & Hc & Hm & ?). simpl.
    eexists. split; [done|]. setoid_rewrite elem_of_cons. setoid_rewrite elem_of_nil.
    split; [by split|]. naive_solver.
Qed.

Lemma push_events_spec e ps :
  events_ok e →
  ∃ e', push_events e ps = Ret e' ∧ events_ok e' ∧
    (∀ j, j ∈ ev_ready e' ↔ j ∈ pushed_ready ps ∨ j ∈ ev_ready e) ∧
    (∀ j, j ∈ ev_removed e' ↔ j ∈ pushed_removed ps ∨ j ∈ ev_removed e) ∧
    (∀ j, j ∈ ev_wakes e' ↔ j ∈ pushed_wakes ps ∨ j ∈ ev_wakes e).
Proof.
  revert e. induction ps as [|p ps IH]; intros e Hok.
  { exists e. split_and!; [done|done|intros j; rewrite elem_of_nil; tauto..]. }
  destruct (push_event_spec e p Hok) as (e1 & E1 & Hok1 & Hr1 & Hd1 & Hw1).
  destruct (IH e1 Hok1) as (e2 & E2 & Hok2 & Hr2 & Hd2 & Hw2).
  exists e2. unfold push_events in *. cbn [for_each_exec]. rewrite E1. cbn [mbind exec_bind]. split_and!; [done|done|..];
    intros j.
  - change (p :: ps) with ([p] ++ ps). unfold pushed_ready in *. rewrite (omap_app _ [p] ps), elem_of_app, Hr2, Hr1. tauto.
  - change (p :: ps) with ([p] ++ ps). unfold pushed_removed in *. rewrite (omap_app _ [p] ps), elem_of_app, Hd2, Hd1. tauto.
  - change (p :: ps) with ([p] ++ ps). unfold pushed_wakes in *. rewrite (omap_app _ [p] ps), elem_of_app, Hw2, Hw1. tauto.
Qed.

(** The ascending vector of the members of a vector. *)
Definition key_set {A} `{Ordered A} (l : list A) : list A := dedup (sort_keys l).

Lemma order_for_pop_reverse {A} `{Ordered A} (values : list A) :
  order_for_pop values = reverse (key_set values).
Proof. apply dedup_reverse. Qed.

Lemma vec_pop_snoc {A} (l : list A) x : vec_pop (l ++ [x]) = (Some x, l).
Proof.
  unfold vec_pop. rewrite last_snoc, length_app. simpl. f_equal.
  replace (length l + 1 - 1)%nat with (length l) by lia. by rewrite take_app_length.
Qed.

(** Popping a vector stored in descending order yields it ascending. *)
Section PopAll.
Context {K S : Type} (get : S → list K) (set : S → list K → S) (pop : S → option K * S).
Hypothesis get_set : ∀ s l, get (set s l) = l.
Hypothesis set_set : ∀ s l l', set (set s l) l' = set s l'.
Hypothesis set_get : ∀ s, set s (get s) = s.
Hypothesis pop_def : ∀ s, pop s = ((vec_pop (get s)).1, set s (vec_pop (get s)).2).

Lemma pop_all_reverse l : ∀ s n,
  get s = reverse l → (length l < n)%nat → pop_all n pop s = Ret (l, set s []).
Proof.
  induction l as [|x l IH]; intros s [|n] Hs Hn; simpl in Hn; try lia.
  - simpl. rewrite pop_def, Hs. simpl. done.
  - simpl. rewrite pop_def, Hs, reverse_cons, vec_pop_snoc. simpl.
    rewrite (IH (set s (reverse l)) n), set_set by (rewrite ?get_set; done || lia). done.
Qed.

End PopAll.

Definition set_ready (e : ScheduleEvents) l :=
  mkEvents l (ev_removed e) (ev_wakes e) (ev_ready_marks e) (ev_removed_marks e) (ev_wake_marks e).
Definition set_removed (e : ScheduleEvents) l :=
  mkEvents (ev_ready e) l (ev_wakes e) (ev_ready_marks e) (ev_removed_marks e) (ev_wake_marks e).
Definition set_wakes (e : ScheduleEvents) l :=
  mkEvents (ev_ready e) (ev_removed e) l (ev_ready_marks e) (ev_removed_marks e) (ev_wake_marks e).

(** The three loops of a drain, in the order the scheduler runs them. *)
Definition drain_events (fuel : nat) (e : ScheduleEvents) :
    exec ((list TaskKey * list WakeKey * list TaskKey) * ScheduleEvents) :=
  e ← prepare_drain e;
  '(removed, e) ← pop_all fuel pop_removed e;
  '(wakes, e) ← pop_all fuel pop_wake e;
  '(ready, e) ← pop_all fuel pop_ready e;
  Ret ((removed, wakes, ready), e).

(** The specification of one drained vector: the ascending vector of a set. *)
Definition sorted_set {A} `{Ordered A} (l s : list A) : Prop :=
  ascending l ∧ ∀ x, x ∈ l ↔ x ∈ s.

Lemma sort_dedup_sorted_set {A} `{Ordered A} (l s : list A) :
  (∀ x, x ∈ l ↔ x ∈ s) → sorted_set (key_set l) s.
Proof. intros Hm. split; [apply sort_dedup_ascending|]. intros x. unfold key_set. by rewrite sort_dedup_elem. Qed.

Definition events_size (e : ScheduleEvents) : nat :=
  (length (ev_ready e) + length (ev_removed e) + length (ev_wakes e))%nat.

Lemma insert_sorted_length {A} `{Ordered A} (x : A) l : length (insert_sorted x l) = S (length l).
Proof. induction l as [|y l IH]; simpl; [done|]. destruct (cmp x y); simpl; auto. Qed.
Lemma dedup_length {A} `{EqDecision A} (l : list A) : (length (dedup l) ≤ length l)%nat.
Proof.
  induction l as [|x l IH]; [done|]. destruct l as [|y l]; [done|].
  change (dedup (x :: y :: l)) with (if decide (x = y) then dedup (y :: l) else x :: dedup (y :: l)).
  case_decide; simpl in *; lia.
Qed.
Lemma sort_dedup_length {A} `{Ordered A} (l : list A) : (length (key_set l) ≤ length l)%nat.
Proof.
  etransitivity; [apply dedup_length|]. induction l; simpl; [done|].
  rewrite insert_sorted_length. lia.
Qed.

Lemma events_ok_released r d w :
  five_lanes w → (∀ j, task_get r j ≠ Some (task_mark j)) →
  (∀ j, task_get d j ≠ Some (task_mark j)) → (∀ j, wake_get w j ≠ Some (wake_mark j)) →
  events_fresh (mkEvents [] [] [] r d w).
Proof.
  intros Hf Hr Hd Hw. split; [done|]. split; simpl; [split..|done];
    try (intros j Hj; by apply not_elem_of_nil in Hj);
    intros j Hj; exfalso; [by apply (Hr j)|by apply (Hd j)|by apply (Hw j)].
Qed.

Lemma drain_events_spec e n :
  events_ok e → (events_size e < n)%nat →
  ∃ e', drain_events n e =
      Ret ((key_set (ev_removed e), key_set (ev_wakes e), key_set (ev_ready e)), e') ∧ events_fresh e'.
Proof.
  intros Hok Hn. destruct (release_marks_spec e Hok) as (r & d & w & E & Hf & Hr & Hd & Hw).
  unfold drain_events, prepare_drain, events_size in *. rewrite E. simpl.
  rewrite !order_for_pop_reverse.
  pose proof (sort_dedup_length (ev_ready e)). pose proof (sort_dedup_length (ev_removed e)).
  pose proof (sort_dedup_length (ev_wakes e)).
  rewrite (pop_all_reverse ev_removed set_removed pop_removed
    ltac:(done) ltac:(done) ltac:(done) (key_set (ev_removed e))); [|done|simpl; lia]. simpl.
  rewrite (pop_all_reverse ev_wakes set_wakes pop_wake
    ltac:(done) ltac:(done) ltac:(done) (key_set (ev_wakes e))); [|done|simpl; lia]. simpl.
  rewrite (pop_all_reverse ev_ready set_ready pop_ready
    ltac:(done) ltac:(done) ltac:(done) (key_set (ev_ready e))); [|done|simpl; lia]. simpl.
  eexists. split; [done|]. by apply events_ok_released.
Qed.

Lemma events_default_fresh : events_fresh events_default.
Proof.
  apply events_ok_released; [constructor|..]; intros j; unfold task_get, wake_get; simpl; done.
Qed.

(** C15. No event is lost and none is repeated: whatever sequence of events
    execution pushes into an empty batch, the drain yields exactly the set of
    pushed removals, wakes and ready keys, each in ascending order, no push or
    drain panics, the loops end within the number of pushed events, and the
    drained batch is fresh, so the same statement holds of the next batch. *)
Theorem events_batch_drain e ps :
  events_fresh e →
  ∃ e1 removed wakes ready e2,
    push_events e ps = Ret e1 ∧
    drain_events (S (events_size e1)) e1 = Ret ((removed, wakes, ready), e2) ∧
    sorted_set removed (pushed_removed ps) ∧
    sorted_set wakes (pushed_wakes ps) ∧
    sorted_set ready (pushed_ready ps) ∧
    events_fresh e2.
Proof.
  intros [He Hok]. apply events_empty_inv in He as (Er & Ed & Ew).
  destruct (push_events_spec e ps Hok) as (e1 & E1 & Hok1 & Hr & Hd & Hw).
  destruct (drain_events_spec e1 (S (events_size e1)) Hok1 (Nat.lt_succ_diag_r _)) as (e2 & E2 & Hf).
  rewrite Er in Hr. rewrite Ed in Hd. rewrite Ew in Hw.
  exists e1. do 4 eexists. split; [done|]. split; [done|].
  split_and!; [apply sort_dedup_sorted_set..|done]; intros j;
    rewrite ?Hr, ?Hd, ?Hw, elem_of_nil; tauto.
Qed.

Lemma events_batch_drain_witness :
  let a := mkTaskKey 3 7 in let b := mkTaskKey 3 8 in
  ∃ e1 removed wakes ready e2,
    push_events events_default [PushReady b; PushReady a; PushReady b; PushWake (Send a)] = Ret e1 ∧
    drain_events (S (events_size e1)) e1 = Ret ((removed, wakes, ready), e2) ∧
    sorted_set removed [] ∧ sorted_set wakes [Send a] ∧ sorted_set ready [b; a; b] ∧
    events_fresh e2.
Proof. intros a b. apply (events_batch_drain events_default), events_default_fresh. Defined.

(** [clear] discards the batch and leaves no mark behind it. *)
Lemma events_clear_fresh e : events_ok e → ∃ e', events_clear e = Ret e' ∧ events_fresh e'.
Proof.
  intros (r & d & w & E & Hf & Hr & Hd & Hw)%release_marks_spec.
  unfold events_clear. rewrite E. eexists. split; [done|]. by apply events_ok_released.
Qed.

(** ** The active proc index *)

Record ActiveProcs := mkActive {
  ap_entries : list TaskKey;
  ap_positions : list (option nat)
}.

Definition active_new (machine_slots : nat) : ActiveProcs := mkActive [] (replicate machine_slots None).

(** [reserve_positions] and [reserve_entries] are the answers of the two
    [try_reserve] calls. *)
Definition active_prepare_batch (reserve_positions reserve_entries : bool)
    (a : ActiveProcs) (machine_slots added : nat) : result unit FaultCode * ActiveProcs :=
  if bool_decide (length (ap_positions a) < machine_slots)%nat then
    if reserve_positions then
      (if reserve_entries then Ok tt else Err HostFault,
       mkActive (ap_entries a) (resize machine_slots None (ap_positions a)))
    else (Err HostFault, a)
  else (if reserve_entries then Ok tt else Err HostFault, a).

Definition active_prepare (reserve_positions reserve_entries : bool)
    (a : ActiveProcs) (slot : N) : result unit FaultCode * ActiveProcs :=
  active_prepare_batch reserve_positions reserve_entries a (S (N.to_nat slot)) 1.

Definition active_insert_prepared (a : ActiveProcs) (key : TaskKey) : exec ActiveProcs :=
  let slot := task_slot key in
  _ ← guard_panic (bool_decide (slot < length (ap_positions a))%nat);
  position ← of_option (ap_positions a !! slot);
  match position with
  | Some at_ =>
      _ ← of_option (ap_entries a !! at_);
      Ret (mkActive (<[at_ := key]> (ap_entries a)) (ap_positions a))
  | None =>
      Ret (mkActive (ap_entries a ++ [key])
             (<[slot := Some (length (ap_entries a))]> (ap_positions a)))
  end.

(** [Vec::swap_remove]: the last element takes the vacated place. *)
Definition swap_remove {A} (l : list A) (i : nat) : exec (list A) :=
  x ← of_option (last l);
  _ ← of_option (l !! i);
  Ret (take (length l - 1)%nat (<[i := x]> l)).

Definition active_remove (a : ActiveProcs) (key : TaskKey) : exec (bool * ActiveProcs) :=
  match ap_positions a !! task_slot key with
  | None | Some None => Ret (false, a)
  | Some (Some at_) =>
      found ← of_option (ap_entries a !! at_);
      if bool_decide (found ≠ key) then Ret (false, a)
      else
        let positions := <[task_slot key := None]> (ap_positions a) in
        entries ← swap_remove (ap_entries a) at_;
        match entries !! at_ with
        | Some moved =>
            _ ← of_option (positions !! task_slot moved);
            Ret (true, mkActive entries (<[task_slot moved := Some at_]> positions))
        | None => Ret (true, mkActive entries positions)
        end
  end.

Definition active_contains (a : ActiveProcs) (key : TaskKey) : exec bool :=
  match ap_positions a !! task_slot key with
  | None | Some None => Ret false
  | Some (Some at_) => found ← of_option (ap_entries a !! at_); Ret (bool_decide (found = key))
  end.

(** The two vectors are inverse to each other. *)
Record active_ok (a : ActiveProcs) : Prop := {
  ao_forward slot i : ap_positions a !! slot = Some (Some i) →
    ∃ k, ap_entries a !! i = Some k ∧ task_slot k = slot;
  ao_backward i k : ap_entries a !! i = Some k →
    ap_positions a !! task_slot k = Some (Some i)
}.

(** The abstract state: which generation of each machine is active. *)
Definition active_view (a : ActiveProcs) : gmap N TaskKey :=
  list_to_map ((λ k, (vm k, k)) <$> ap_entries a).

Lemma task_slot_vm a b : task_slot a = task_slot b ↔ vm a = vm b.
Proof. unfold task_slot. lia. Qed.

Lemma active_view_lookup a v k :
  active_ok a → (active_view a !! v = Some k ↔ v = vm k ∧ k ∈ ap_entries a).
Proof.
  intros [Hf Hb]. unfold active_view. rewrite <- elem_of_list_to_map.
  - rewrite list_elem_of_fmap. naive_solver.
  - rewrite <- list_fmap_compose. apply NoDup_fmap_2_strong; simpl.
    + intros x y Hx Hy Hxy%task_slot_vm. apply list_elem_of_lookup in Hx as [i Hi].
      apply list_elem_of_lookup in Hy as [j Hj].
      pose proof (Hb _ _ Hi) as Hi'. pose proof (Hb _ _ Hj) as Hj'. rewrite Hxy in Hi'. congruence.
    + apply NoDup_alt. intros i j x Hi%Hb Hj%Hb. congruence.
Qed.

Lemma active_view_slot a slot i k :
  active_ok a → ap_positions a !! slot = Some (Some i) → ap_entries a !! i = Some k →
  active_view a !! N.of_nat slot = Some k.
Proof.
  intros Hok Hp Hk. apply active_view_lookup; [done|]. destruct Hok as [Hf Hb].
  destruct (Hf _ _ Hp) as (k' & Hk' & <-). split; [|by eapply list_elem_of_lookup_2].
  unfold task_slot. assert (k = k') as -> by congruence. lia.
Qed.

Lemma active_view_none a k :
  active_ok a → (∀ i, ap_positions a !! task_slot k ≠ Some (Some i)) → active_view a !! vm k = None.
Proof.
  intros Hok Hp. destruct (active_view a !! vm k) as [k'|] eqn:E; [|done]. exfalso.
  apply active_view_lookup in E as [E Hk]; [|done].
  apply list_elem_of_lookup in Hk as [i Hi]. apply (ao_backward _ Hok) in Hi.
  apply (Hp i). rewrite <- Hi. f_equal. by apply task_slot_vm.
Qed.

Lemma active_contains_view a k :
  active_ok a → active_contains a k = Ret (bool_decide (active_view a !! vm k = Some k)).
Proof.
  intros Hok. unfold active_contains.
  destruct (ap_positions a !! task_slot k) as [[i|]|] eqn:E.
  - destruct (ao_forward _ Hok _ _ E) as (k' & Hk' & Hs). rewrite Hk'. simpl. f_equal.
    pose proof (active_view_slot _ _ _ _ Hok E Hk') as Hv. unfold task_slot in Hv.
    rewrite N2Nat.id in Hv. rewrite Hv. apply bool_decide_ext. naive_solver.
  - rewrite active_view_none by (done || (intros i; rewrite E; done)). done.
  - rewrite active_view_none by (done || (intros i; rewrite E; done)). done.
Qed.

Lemma active_new_ok n : active_ok (active_new n) ∧ active_view (active_new n) = ∅.
Proof.
  split; [|done]. split; simpl; [|done]. intros slot i H.
  by apply lookup_replicate in H as [? _].
Qed.

Lemma active_prepare_batch_view r1 r2 a slots added res a' :
  active_ok a → active_prepare_batch r1 r2 a slots added = (res, a') →
  active_ok a' ∧ active_view a' = active_view a ∧
  (length (ap_positions a) ≤ length (ap_positions a'))%nat ∧
  (res = Ok tt → (slots ≤ length (ap_positions a'))%nat).
Proof.
  intros [Hf Hb] H. unfold active_prepare_batch in H. case_bool_decide as Hl.
  - destruct r1; simplify_eq/=; [|split_and!; [done..|lia|done]].
    split; [split|]; simpl.
    + intros slot i Hi. destruct (decide (slot < length (ap_positions a))%nat).
      * rewrite lookup_resize in Hi by lia. by apply Hf.
      * destruct (decide (slot < slots)%nat).
        -- rewrite lookup_resize_new in Hi by lia. done.
        -- rewrite lookup_resize_old in Hi by lia. done.
    + intros i k Hi%Hb. pose proof (lookup_lt_Some _ _ _ Hi). by rewrite lookup_resize by lia.
    + rewrite length_resize. split_and!; [done|lia|done].
  - simplify_eq. split_and!; [done..|lia].
Qed.

(** The view, read off the two vectors. *)
Lemma active_view_at a v :
  active_ok a →
  active_view a !! v =
  match ap_positions a !! N.to_nat v with
  | Some (Some i) => ap_entries a !! i
  | _ => None
  end.
Proof.
  intros Hok. pose proof (active_view_none a (mkTaskKey v 0) Hok) as Hn. unfold task_slot in Hn. simpl in Hn.
  destruct (ap_positions a !! N.to_nat v) as [[i|]|] eqn:E; [|by apply Hn..].
  destruct (ao_forward _ Hok _ _ E) as (k & Hk & Hs). rewrite Hk.
  pose proof (active_view_slot _ _ _ _ Hok E Hk) as Hv. by rewrite N2Nat.id in Hv.
Qed.

Lemma slot_ne_vm v k : v ≠ vm k → N.to_nat v ≠ task_slot k.
Proof. unfold task_slot. lia. Qed.

(** Inserting at a prepared slot is insertion in the map. *)
Lemma active_insert_view a k :
  active_ok a → (task_slot k < length (ap_positions a))%nat →
  ∃ a', active_insert_prepared a k = Ret a' ∧ active_ok a' ∧
    length (ap_positions a') = length (ap_positions a) ∧
    active_view a' = <[vm k := k]> (active_view a).
Proof.
  intros Hok Hlt. pose proof Hok as [Hf Hb]. unfold active_insert_prepared.
  rewrite bool_decide_eq_true_2 by done. simpl.
  destruct (lookup_lt_is_Some_2 _ _ Hlt) as [p Hp]. rewrite Hp. simpl. destruct p as [i|].
  - destruct (Hf _ _ Hp) as (k' & Hk' & Hs). rewrite Hk'. simpl. eexists. split; [done|].
    pose proof (lookup_lt_Some _ _ _ Hk') as Hi.
    assert (active_ok (mkActive (<[i:=k]> (ap_entries a)) (ap_positions a))) as Hok'.
    { split; simpl.
      - intros slot j Hj. destruct (decide (i = j)) as [<-|].
        + exists k. split; [by apply list_lookup_insert_eq|].
          destruct (Hf _ _ Hj) as (k2 & Hk2 & <-). congruence.
        + rewrite list_lookup_insert_ne by done. by apply Hf.
      - intros j x. destruct (decide (i = j)) as [<-|].
        + rewrite list_lookup_insert_eq by done. by intros [= <-].
        + rewrite list_lookup_insert_ne by done. apply Hb. }
    split_and!; [done..|]. apply map_eq. intros v. rewrite active_view_at by done. simpl.
    destruct (decide (v = vm k)) as [->|Hv].
    + fold (task_slot k). by rewrite lookup_insert_eq, Hp, list_lookup_insert_eq.
    + rewrite lookup_insert_ne, active_view_at by done.
      destruct (ap_positions a !! N.to_nat v) as [[j|]|] eqn:Ev; [|done..].
      rewrite list_lookup_insert_ne; [done|]. intros <-.
      destruct (Hf _ _ Ev) as (? & ? & ?). apply (slot_ne_vm _ _ Hv). congruence.
  - eexists. split; [done|].
    assert (active_ok (mkActive (ap_entries a ++ [k])
      (<[task_slot k := Some (length (ap_entries a))]> (ap_positions a)))) as Hok'.
    { split; simpl.
      - intros slot j. destruct (decide (task_slot k = slot)) as [<-|].
        + rewrite list_lookup_insert_eq by done. intros [= <-]. exists k.
          by rewrite list_lookup_middle.
        + rewrite list_lookup_insert_ne by done. intros (x & Hx & ?)%Hf. exists x.
          split; [by apply lookup_app_l_Some|done].
      - intros j x [Hj|[Hj Hx]]%lookup_app_Some.
        + pose proof (Hb _ _ Hj). rewrite list_lookup_insert_ne; [done|]. congruence.
        + apply list_lookup_singleton_Some in Hx as [Hx <-].
          rewrite list_lookup_insert_eq by done. do 2 f_equal. lia. }
    split_and!; [done|simpl; by rewrite length_insert|].
    apply map_eq. intros v. rewrite active_view_at by done. simpl.
    destruct (decide (v = vm k)) as [->|Hv].
    + fold (task_slot k). rewrite lookup_insert_eq, list_lookup_insert_eq by done.
      by rewrite list_lookup_middle.
    + rewrite lookup_insert_ne, active_view_at by done.
      rewrite list_lookup_insert_ne by (apply not_eq_sym; by apply slot_ne_vm).
      destruct (ap_positions a !! N.to_nat v) as [[j|]|] eqn:Ev; [|done..].
      destruct (Hf _ _ Ev) as (x & Hx & _). rewrite Hx. by apply lookup_app_l_Some.
Qed.

Lemma swap_remove_spec {A} (l : list A) i k :
  l !! i = Some k →
  ∃ l' x, l = l' ++ [x] ∧
    swap_remove l i = Ret (if decide (i = length l') then l' else <[i := x]> l').
Proof.
  intros Hi. pose proof (lookup_lt_Some _ _ _ Hi).
  destruct (exists_last (l := l)) as (l' & x & ->); [by intros ->|].
  exists l', x. split; [done|]. unfold swap_remove. rewrite last_snoc. simpl. rewrite Hi. simpl.
  rewrite length_app in *. simpl in *. replace (length l' + 1 - 1)%nat with (length l') by lia.
  f_equal. case_decide; subst.
  - by rewrite insert_app_r_alt, take_app_length' by lia.
  - rewrite insert_app_l by lia. rewrite take_app_length'; [done|]. by rewrite length_insert.
Qed.

(** Two different entries sit in different slots. *)
Lemma active_entry_slot a i j x y :
  active_ok a → ap_entries a !! i = Some x → ap_entries a !! j = Some y →
  task_slot x = task_slot y → i = j.
Proof. intros [_ Hb] Hi%Hb Hj%Hb Hs. rewrite Hs in Hi. congruence. Qed.

(** The index after the last entry [x] took the place of the removed one. *)
Lemma active_move_ok a l i k x :
  active_ok a → ap_entries a = l ++ [x] → l !! i = Some k →
  active_ok (mkActive (<[i := x]> l)
    (<[task_slot x := Some i]> (<[task_slot k := None]> (ap_positions a)))).
Proof.
  intros Hok He Hk. pose proof Hok as [Hf Hb].
  assert (ap_entries a !! i = Some k) as Hik by (rewrite He; by apply lookup_app_l_Some).
  assert (ap_entries a !! length l = Some x) as Hix by (rewrite He; by apply list_lookup_middle).
  pose proof (lookup_lt_Some _ _ _ Hk) as Hi.
  assert (task_slot k ≠ task_slot x) as Hne.
  { intros Hs. pose proof (active_entry_slot _ _ _ _ _ Hok Hik Hix Hs). lia. }
  pose proof (lookup_lt_Some _ _ _ (Hb _ _ Hik)). pose proof (lookup_lt_Some _ _ _ (Hb _ _ Hix)).
  split; simpl.
  - intros s j. destruct (decide (task_slot x = s)) as [<-|].
    + rewrite list_lookup_insert_eq by (by rewrite length_insert). intros [= <-].
      exists x. by rewrite list_lookup_insert_eq.
    + rewrite list_lookup_insert_ne by done. destruct (decide (task_slot k = s)) as [<-|].
      { by rewrite list_lookup_insert_eq. }
      rewrite list_lookup_insert_ne by done. intros (y & Hy & <-)%Hf.
      rewrite He in Hy. apply lookup_app_Some in Hy as [Hy|[_ Hy]].
      * exists y. rewrite list_lookup_insert_ne; [done|]. intros ->. congruence.
      * apply list_lookup_singleton_Some in Hy as [_ ->]. done.
  - intros j y. destruct (decide (i = j)) as [<-|].
    + rewrite list_lookup_insert_eq by done. intros [= <-].
      apply list_lookup_insert_eq. by rewrite length_insert.
    + rewrite list_lookup_insert_ne by done. intros Hy.
      assert (ap_entries a !! j = Some y) as Hjy by (rewrite He; by apply lookup_app_l_Some).
      pose proof (lookup_lt_Some _ _ _ Hy).
      rewrite !list_lookup_insert_ne; [by apply Hb|..]; intros Hs.
      * pose proof (active_entry_slot _ _ _ _ _ Hok Hik Hjy Hs). lia.
      * pose proof (active_entry_slot _ _ _ _ _ Hok Hix Hjy Hs). lia.
Qed.

(** The index after its last entry was removed. *)
Lemma active_drop_ok a l k :
  active_ok a → ap_entries a = l ++ [k] →
  active_ok (mkActive l (<[task_slot k := None]> (ap_positions a))).
Proof.
  intros Hok He. pose proof Hok as [Hf Hb].
  assert (ap_entries a !! length l = Some k) as Hik by (rewrite He; by apply list_lookup_middle).
  pose proof (lookup_lt_Some _ _ _ (Hb _ _ Hik)). split; simpl.
  - intros s j. destruct (decide (task_slot k = s)) as [<-|].
    { by rewrite list_lookup_insert_eq. }
    rewrite list_lookup_insert_ne by done. intros (y & Hy & <-)%Hf.
    rewrite He in Hy. apply lookup_app_Some in Hy as [Hy|[_ Hy]]; [eauto|].
    apply list_lookup_singleton_Some in Hy as [_ ->]. done.
  - intros j y Hy. pose proof (lookup_lt_Some _ _ _ Hy).
    assert (ap_entries a !! j = Some y) as Hjy by (rewrite He; by apply lookup_app_l_Some).
    rewrite list_lookup_insert_ne; [by apply Hb|]. intros Hs.
    pose proof (active_entry_slot _ _ _ _ _ Hok Hik Hjy Hs). lia.
Qed.

Lemma active_entries_NoDup a : active_ok a → NoDup (ap_entries a).
Proof. intros [_ Hb]. apply NoDup_alt. intros i j x Hi%Hb Hj%Hb. congruence. Qed.

(** Removing one entry, in whatever order the others are left, deletes its
    slot from the view. *)
Lemma active_view_delete a a' k :
  active_ok a → active_ok a' → ap_entries a ≡ₚ k :: ap_entries a' →
  active_view a' = delete (vm k) (active_view a).
Proof.
  intros Hok Hok' Hperm. pose proof (active_entries_NoDup _ Hok) as Hnd.
  rewrite Hperm in Hnd. apply list.NoDup_cons in Hnd as [Hn _].
  assert (k ∈ ap_entries a) as Hk by (rewrite Hperm; by left).
  apply map_eq. intros v. apply option_eq. intros y.
  rewrite lookup_delete_Some, !active_view_lookup, Hperm, elem_of_cons by done. split.
  - intros [-> Hy]. split_and!; [|done|by right]. intros Hs%task_slot_vm.
    apply list_elem_of_lookup in Hk as [i Hi].
    assert (y ∈ ap_entries a) as [j Hj]%list_elem_of_lookup by (rewrite Hperm; by right).
    pose proof (active_entry_slot _ _ _ _ _ Hok Hi Hj Hs). congruence.
  - naive_solver.
Qed.

Lemma swap_remove_perm {A} (l : list A) i (k x : A) :
  l !! i = Some k → l ++ [x] ≡ₚ k :: <[i := x]> l.
Proof.
  intros Hi. pose proof (lookup_lt_Some _ _ _ Hi).
  rewrite <- (take_drop_middle l i k Hi) at 1. rewrite insert_take_drop by done.
  rewrite <- app_assoc. simpl. rewrite <- Permutation_middle. apply perm_skip, Permutation_app_head.
  by rewrite (Permutation_app_comm _ [x]).
Qed.

(** Removal deletes the slot when the stored key is the given one, and
    changes nothing otherwise. *)
Lemma active_remove_view a k :
  active_ok a →
  ∃ a', active_remove a k = Ret (bool_decide (active_view a !! vm k = Some k), a') ∧ active_ok a' ∧
    length (ap_positions a') = length (ap_positions a) ∧
    active_view a' = if bool_decide (active_view a !! vm k = Some k)
                     then delete (vm k) (active_view a) else active_view a.
Proof.
  intros Hok. pose proof Hok as [Hf Hb]. rewrite active_view_at by done. fold (task_slot k).
  unfold active_remove. destruct (ap_positions a !! task_slot k) as [[i|]|] eqn:Hp;
    [|exists a; split_and!; done..].
  destruct (Hf _ _ Hp) as (k' & Hk' & Hs). rewrite Hk'. simpl.
  destruct (decide (k' = k)) as [->|Hne].
  2:{ rewrite bool_decide_eq_true_2 by done.
      rewrite bool_decide_eq_false_2 by congruence. by exists a. }
  rewrite bool_decide_eq_false_2 by (intros Hn; by apply Hn).
  rewrite bool_decide_eq_true_2 by done.
  destruct (swap_remove_spec _ _ _ Hk') as (l & x & He & ->). simpl.
  case_decide as Hi.
  - subst i. rewrite lookup_ge_None_2 by lia.
    rewrite He, list_lookup_middle in Hk' by done. simplify_eq.
    pose proof (active_drop_ok _ _ _ Hok He) as Hok'. eexists. split; [done|].
    split_and!; [done|simpl; by rewrite length_insert|]. apply active_view_delete; [done..|].
    rewrite He. simpl. by rewrite Permutation_app_comm.
  - assert (l !! i = Some k) as Hl.
    { rewrite He in Hk'. apply lookup_app_Some in Hk' as [?|[? Hx]]; [done|].
      apply list_lookup_singleton_Some in Hx as [? _]. lia. }
    pose proof (active_move_ok _ _ _ _ _ Hok He Hl) as Hok'.
    pose proof (lookup_lt_Some _ _ _ Hl).
    rewrite list_lookup_insert_eq by done. simpl.
    assert (ap_entries a !! length l = Some x) as Hix by (rewrite He; by apply list_lookup_middle).
    pose proof (lookup_lt_Some _ _ _ (Hb _ _ Hix)) as Hxlt.
    destruct (lookup_lt_is_Some_2 (<[task_slot k:=None]> (ap_positions a)) (task_slot x)) as [p ->].
    { by rewrite length_insert. }
    simpl. eexists. split; [done|].
    split_and!; [done|simpl; by rewrite !length_insert|]. apply active_view_delete; [done..|].
    rewrite He. by apply swap_remove_perm.
Qed.

(** *** Runs of the index against the map *)

Inductive ActiveOp :=
| OpPrepare (reserve_positions reserve_entries : bool) (slots added : nat)
| OpInsert (k : TaskKey)
| OpRemove (k : TaskKey).

(** The concrete step, with the answer of [remove]. *)
Definition active_step (a : ActiveProcs) (op : ActiveOp) : exec ActiveProcs :=
  match op with
  | OpPrepare r1 r2 slots added => Ret (active_prepare_batch r1 r2 a slots added).2
  | OpInsert k => active_insert_prepared a k
  | OpRemove k => snd <$> active_remove a k
  end.

(** The abstract step: the finite map of active generations. *)
Definition active_spec (m : gmap N TaskKey) (op : ActiveOp) : gmap N TaskKey :=
  match op with
  | OpPrepare _ _ _ _ => m
  | OpInsert k => <[vm k := k]> m
  | OpRemove k => if bool_decide (m !! vm k = Some k) then delete (vm k) m else m
  end.

(** The slots a successful reservation covers, along a run. *)
Definition op_slots (slots : nat) (op : ActiveOp) : nat :=
  match op with
  | OpPrepare true _ n _ => Nat.max slots n
  | _ => slots
  end.

Fixpoint inserts_prepared (slots : nat) (ops : list ActiveOp) : Prop :=
  match ops with
  | [] => True
  | op :: ops =>
      match op with OpInsert k => (task_slot k < slots)%nat | _ => True end ∧
      inserts_prepared (op_slots slots op) ops
  end.

Lemma active_step_refines a op slots :
  active_ok a → (slots ≤ length (ap_positions a))%nat → inserts_prepared slots [op] →
  ∃ a', active_step a op = Ret a' ∧ active_ok a' ∧
    (op_slots slots op ≤ length (ap_positions a'))%nat ∧
    active_view a' = active_spec (active_view a) op.
Proof.
  intros Hok Hs [Hin _]. destruct op as [r1 r2 n added|k|k]; simpl in *.
  - destruct (active_prepare_batch r1 r2 a n added) as [res a'] eqn:E.
    destruct (active_prepare_batch_view _ _ _ _ _ _ _ Hok E) as (? & ? & ? & Hres).
    exists a'. split_and!; [done..| |done]. destruct r1; [|lia].
    unfold active_prepare_batch in E. case_bool_decide; simplify_eq/=; [rewrite length_resize|]; lia.
  - destruct (active_insert_view a k Hok ltac:(lia)) as (a' & ? & ? & Hl & ?).
    exists a'. split_and!; [done..|lia|done].
  - destruct (active_remove_view a k Hok) as (a' & -> & ? & Hl & ?).
    exists a'. split_and!; [done..|lia|done].
Qed.

(** The active index refines a finite map from machine slots to keys:
    every run of preparations, insertions at prepared slots and removals
    executes without a panic (no index out of range, no broken assertion),
    ends in the state the map operations give, and its membership test and its
    entry vector read that map (each key once). *)
Theorem active_procs_refine n ops :
  inserts_prepared n ops →
  ∃ a, for_each_exec active_step (active_new n) ops = Ret a ∧
    active_view a = foldl active_spec ∅ ops ∧
    (∀ k, active_contains a k = Ret (bool_decide (foldl active_spec ∅ ops !! vm k = Some k))) ∧
    NoDup (ap_entries a) ∧
    (∀ k, k ∈ ap_entries a ↔ foldl active_spec ∅ ops !! vm k = Some k).
Proof.
  intros Hops. destruct (active_new_ok n) as [Hok <-].
  assert (n ≤ length (ap_positions (active_new n)))%nat as Hn by (simpl; by rewrite length_replicate).
  generalize dependent n. intros n. generalize (active_new n). revert n.
  induction ops as [|op ops IH]; intros n a Hops Hok Hn; simpl.
  - exists a. split_and!; [done|done| |by apply active_entries_NoDup|].
    + intros k. by apply active_contains_view.
    + intros k. rewrite active_view_lookup by done. naive_solver.
  - destruct Hops as [Hin Hops]. destruct (active_step_refines a op n Hok Hn) as (a' & -> & ? & ? & <-).
    { by split. }
    by apply IH with (op_slots n op).
Qed.

Lemma active_procs_refine_witness :
  let ops := [OpPrepare true true 4 3; OpInsert (mkTaskKey 1 0); OpInsert (mkTaskKey 2 0);
              OpInsert (mkTaskKey 3 0); OpRemove (mkTaskKey 2 0); OpInsert (mkTaskKey 1 1)] in
  ∃ a, for_each_exec active_step (active_new 1) ops = Ret a ∧
    active_view a = foldl active_spec ∅ ops ∧
    (∀ k, active_contains a k = Ret (bool_decide (foldl active_spec ∅ ops !! vm k = Some k))) ∧
    NoDup (ap_entries a) ∧
    (∀ k, k ∈ ap_entries a ↔ foldl active_spec ∅ ops !! vm k = Some k).
Proof.
  intros ops. apply (active_procs_refine 1 ops).
  unfold ops, inserts_prepared, op_slots, task_slot; simpl. repeat split; lia.
Defined.
