(* ===== verification/Indexes.v ===== *)
(** * The scheduler's indexes (crates/lm-proc/src/lib.rs)

    [Waiters], [WakeIndex], [ParkIndex] and [TaskIndex].  The wake index is a
    vector of buckets per target machine, each sorted by wake key, each bucket
    a compact sorted set of tasks; it refines the relation "task waits for
    wake", and a [take] answers with the ascending vector of that relation's
    row.  The task index refines a finite map in which a newer generation of a
    machine replaces the older one. *)

From S2P Require Import Prelude Ordered Schedule.
From stdpp Require Import base numbers gmap list.

(** ** Waiters *)

Inductive Waiters :=
| One (task : TaskKey)
| Many (tasks : list TaskKey).

#[export] Instance Waiters_eq_dec : EqDecision Waiters.
Proof. solve_decision. Defined.

Definition waiters_insert (w : Waiters) (task : TaskKey) : Waiters :=
  match w with
  | One held =>
      if bool_decide (held = task) then w else Many (sort_keys [held; task])
  | Many tasks =>
      match binary_search task tasks with
      | Err at_ => Many (insert_at at_ task tasks)
      | Ok _ => w
      end
  end.

(** The flag answers whether the whole bucket has to go. *)
Definition waiters_remove (w : Waiters) (task : TaskKey) : bool * Waiters :=
  match w with
  | One held => (bool_decide (held = task), w)
  | Many tasks =>
      match binary_search task tasks with
      | Err _ => (false, w)
      | Ok at_ =>
          match delete at_ tasks with
          | [task0] => (false, One task0)
          | tasks => (false, Many tasks)
          end
      end
  end.

(** The tasks that [for_each] visits, in order. *)
Definition waiters_list (w : Waiters) : list TaskKey :=
  match w with
  | One task => [task]
  | Many tasks => tasks
  end.

(** ** The wake index *)

Record WakeBucket := mkBucket { bucket_wake : WakeKey; bucket_waiters : Waiters }.

Record WakeIndex := mkWakeIndex { wi_slots : list (list WakeBucket) }.

Definition wake_task (w : WakeKey) : TaskKey :=
  match w with
  | Receive task | Send task | Done task | Asked task | Snapshot task => task
  end.

Definition wake_slot (w : WakeKey) : nat := N.to_nat (vm (wake_task w)).

Definition wake_index_default : WakeIndex := mkWakeIndex [].

Definition wake_index_clear (i : WakeIndex) : WakeIndex := mkWakeIndex [].

Definition wake_index_insert (i : WakeIndex) (wake : WakeKey) (task : TaskKey) : exec WakeIndex :=
  let slot := wake_slot wake in
  let slots :=
    if bool_decide (length (wi_slots i) ≤ slot)%nat
    then resize (S slot) [] (wi_slots i) else wi_slots i in
  buckets ← of_option (slots !! slot);
  match binary_search wake (bucket_wake <$> buckets) with
  | Ok at_ =>
      bucket ← of_option (buckets !! at_);
      Ret (mkWakeIndex (<[slot :=
        <[at_ := mkBucket (bucket_wake bucket) (waiters_insert (bucket_waiters bucket) task)]> buckets]>
        slots))
  | Err at_ =>
      _ ← guard_panic (bool_decide (at_ ≤ length buckets)%nat);
      Ret (mkWakeIndex (<[slot := insert_at at_ (mkBucket wake (One task)) buckets]> slots))
  end.

Definition wake_index_remove (i : WakeIndex) (wake : WakeKey) (task : TaskKey) : exec WakeIndex :=
  match wi_slots i !! wake_slot wake with
  | None => Ret i
  | Some buckets =>
      match binary_search wake (bucket_wake <$> buckets) with
      | Err _ => Ret i
      | Ok at_ =>
          bucket ← of_option (buckets !! at_);
          let '(drop, waiters) := waiters_remove (bucket_waiters bucket) task in
          let buckets :=
            if drop then delete at_ buckets
            else <[at_ := mkBucket (bucket_wake bucket) waiters]> buckets in
          Ret (mkWakeIndex (<[wake_slot wake := buckets]> (wi_slots i)))
      end
  end.

Definition wake_index_take (i : WakeIndex) (wake : WakeKey) : exec (option Waiters * WakeIndex) :=
  match wi_slots i !! wake_slot wake with
  | None => Ret (None, i)
  | Some buckets =>
      match binary_search wake (bucket_wake <$> buckets) with
      | Err _ => Ret (None, i)
      | Ok at_ =>
          bucket ← of_option (buckets !! at_);
          Ret (Some (bucket_waiters bucket),
               mkWakeIndex (<[wake_slot wake := delete at_ buckets]> (wi_slots i)))
      end
  end.

(** ** The park index *)

Record ParkIndex := mkParkIndex {
  pi_sets : gmap WaitSetKey (list WaitSourceKey);
  pi_wakes : WakeIndex;
  pi_completions : gmap CompletionKey Waiters
}.

Definition park_index_default : ParkIndex := mkParkIndex ∅ wake_index_default ∅.

Definition park_index_clear (p : ParkIndex) : ParkIndex :=
  mkParkIndex ∅ (wake_index_clear (pi_wakes p)) ∅.

Definition park_remove_source (task : TaskKey) (p : ParkIndex) (source : WaitSourceKey) :
    exec ParkIndex :=
  match source with
  | SourceWake wake =>
      wakes ← wake_index_remove (pi_wakes p) wake task;
      Ret (mkParkIndex (pi_sets p) wakes (pi_completions p))
  | SourceCompletion completion =>
      Ret (match pi_completions p !! completion with
           | None => p
           | Some waiters =>
               let '(remove, waiters) := waiters_remove waiters task in
               mkParkIndex (pi_sets p) (pi_wakes p)
                 (if remove then delete completion (pi_completions p)
                  else <[completion := waiters]> (pi_completions p))
           end)
  end.

Definition park_index_remove (p : ParkIndex) (wait : WaitSetKey) (task : TaskKey) : exec ParkIndex :=
  match pi_sets p !! wait with
  | None => Ret p
  | Some sources =>
      for_each_exec (park_remove_source task)
        (mkParkIndex (delete wait (pi_sets p)) (pi_wakes p) (pi_completions p)) sources
  end.

Definition park_insert_source (task : TaskKey) (p : ParkIndex) (source : WaitSourceKey) :
    exec ParkIndex :=
  match source with
  | SourceWake wake =>
      wakes ← wake_index_insert (pi_wakes p) wake task;
      Ret (mkParkIndex (pi_sets p) wakes (pi_completions p))
  | SourceCompletion completion =>
      let waiters :=
        match pi_completions p !! completion with
        | Some waiters => waiters_insert waiters task
        | None => One task
        end in
      Ret (mkParkIndex (pi_sets p) (pi_wakes p) (<[completion := waiters]> (pi_completions p)))
  end.

Definition park_index_insert (p : ParkIndex) (wait : WaitSetKey) (task : TaskKey)
    (sources : list WaitSourceKey) : exec ParkIndex :=
  p ← park_index_remove p wait task;
  p ← for_each_exec (park_insert_source task) p sources;
  Ret (mkParkIndex (<[wait := sources]> (pi_sets p)) (pi_wakes p) (pi_completions p)).

Definition park_take_wake (p : ParkIndex) (wake : WakeKey) : exec (option Waiters * ParkIndex) :=
  '(waiters, wakes) ← wake_index_take (pi_wakes p) wake;
  Ret (waiters, mkParkIndex (pi_sets p) wakes (pi_completions p)).

Definition park_take_completion (p : ParkIndex) (completion : CompletionKey) :
    option Waiters * ParkIndex :=
  (pi_completions p !! completion,
   mkParkIndex (pi_sets p) (pi_wakes p) (delete completion (pi_completions p))).

Definition park_has_completion (p : ParkIndex) (completion : CompletionKey) : bool :=
  bool_decide (is_Some (pi_completions p !! completion)).

Definition park_has_completions (p : ParkIndex) : bool :=
  negb (bool_decide (pi_completions p = ∅)).

Definition park_tasks_with_completions (p : ParkIndex) : list TaskKey :=
  key_set (concat ((λ e, waiters_list e.2) <$> map_to_list (pi_completions p))).

(** ** The task index *)

Inductive IndexedState :=
| Queued (ticket : N)
| Running
| IsBlocked (wake : WakeKey)
| IsWaiting (completion : CompletionKey)
| IsParked (wait : WaitSetKey).

#[export] Instance IndexedState_eq_dec : EqDecision IndexedState.
Proof. solve_decision. Defined.

Record IndexedTask := mkIndexed { it_key : TaskKey; it_state : IndexedState }.

Record TaskIndex := mkTaskIndex { ti_slots : list (option IndexedTask) }.

Definition task_index_default : TaskIndex := mkTaskIndex [].

Definition task_index_clear (t : TaskIndex) : TaskIndex := mkTaskIndex [].

Definition task_index_get (t : TaskIndex) (key : TaskKey) : option IndexedState :=
  match ti_slots t !! task_slot key with
  | Some (Some task) => if bool_decide (it_key task = key) then Some (it_state task) else None
  | _ => None
  end.

Definition task_index_insert (t : TaskIndex) (key : TaskKey) (state : IndexedState) : TaskIndex :=
  let slot := task_slot key in
  let slots :=
    if bool_decide (length (ti_slots t) ≤ slot)%nat
    then resize (S slot) None (ti_slots t) else ti_slots t in
  mkTaskIndex (<[slot := Some (mkIndexed key state)]> slots).

Definition task_index_remove (t : TaskIndex) (key : TaskKey) : TaskIndex :=
  match ti_slots t !! task_slot key with
  | Some (Some task) =>
      if bool_decide (it_key task = key)
      then mkTaskIndex (<[task_slot key := None]> (ti_slots t)) else t
  | _ => t
  end.

Definition task_index_iter (t : TaskIndex) : list (TaskKey * IndexedState) :=
  omap (λ slot, (λ task, (it_key task, it_state task)) <$> slot) (ti_slots t).

Definition task_index_values (t : TaskIndex) : list IndexedState := (task_index_iter t).*2.

(** ** Waiters are ascending sets *)

Definition waiters_ok (w : Waiters) : Prop :=
  ascending (waiters_list w) ∧
  match w with One _ => True | Many tasks => (2 ≤ length tasks)%nat end.

Lemma waiters_insert_spec w task :
  waiters_ok w →
  waiters_ok (waiters_insert w task) ∧
  ∀ t, t ∈ waiters_list (waiters_insert w task) ↔ t = task ∨ t ∈ waiters_list w.
Proof.
  intros [Ha Hl]. destruct w as [held|tasks]; cbn [waiters_insert].
  - case_bool_decide as E; [subst|].
    + split; [by split|]. intros t. cbn. rewrite list_elem_of_singleton. tauto.
    + assert (∀ t, t ∈ sort_keys [held; task] ↔ t = task ∨ t ∈ [held]) as Hm.
      { intros t. rewrite sort_keys_elem, !elem_of_cons, elem_of_nil. tauto. }
      split; [|exact Hm]. clear Hm.
      change (sort_keys [held; task]) with
        (match cmp held task with Gt => [task; held] | _ => [held; task] end).
      destruct (cmp held task) eqn:Hc.
      * by apply cmp_eq in Hc.
      * split; [|simpl; lia]. repeat constructor. done.
      * split; [|simpl; lia]. repeat constructor. by apply cmp_gt_lt.
  - destruct (binary_search task tasks) as [i|i] eqn:E; cbn [waiters_list] in *.
    + apply binary_search_Ok, list_elem_of_lookup_2 in E. split; [by split|]. naive_solver.
    + apply binary_search_Err in E as (Hi & Hn & Hasc); [|done].
      split; [split; [done|]|intros t; apply elem_of_insert_at].
      unfold insert_at. rewrite length_app. simpl. rewrite length_take, length_drop. lia.
Qed.

Lemma waiters_remove_spec w task :
  waiters_ok w →
  match waiters_remove w task with
  | (true, _) => ∀ t, t ∈ waiters_list w ↔ t = task
  | (false, w') => waiters_ok w' ∧ ∀ t, t ∈ waiters_list w' ↔ t ∈ waiters_list w ∧ t ≠ task
  end.
Proof.
  intros [Ha Hl]. destruct w as [held|tasks]; cbn [waiters_remove].
  - case_bool_decide; [subst|].
    + intros t. cbn. by rewrite list_elem_of_singleton.
    + split; [by split|]. intros t. cbn. rewrite list_elem_of_singleton. naive_solver.
  - destruct (binary_search task tasks) as [i|i] eqn:E; cbn [waiters_list] in *.
    + apply binary_search_Ok in E. pose proof (ascending_delete tasks i Ha) as Hd.
      pose proof (lookup_lt_Some _ _ _ E).
      assert (length (delete i tasks) = length tasks - 1)%nat as Hlen by (by rewrite length_delete).
      pose proof (λ t, ascending_elem_delete tasks i task t Ha E) as Hm.
      destruct (delete i tasks) as [|x [|y l]]; simpl in Hlen; [lia|..].
      * split; [by split|done].
      * split; [split; [done|simpl; lia]|done].
    + apply binary_search_Err in E as (_ & Hn & _); [|done]. split; [by split|]. naive_solver.
Qed.

(** ** The wake index refines the relation "task waits for wake" *)

Definition row_has (row : list WakeBucket) (w : WakeKey) (t : TaskKey) : Prop :=
  ∃ b, b ∈ row ∧ bucket_wake b = w ∧ t ∈ waiters_list (bucket_waiters b).

Record row_ok (slot : nat) (row : list WakeBucket) : Prop := {
  ro_sorted : ascending (bucket_wake <$> row);
  ro_buckets : Forall (λ b, wake_slot (bucket_wake b) = slot ∧ waiters_ok (bucket_waiters b)) row
}.

Definition wake_index_ok (i : WakeIndex) : Prop :=
  ∀ slot row, wi_slots i !! slot = Some row → row_ok slot row.

(** The abstract relation. *)
Definition waits (i : WakeIndex) (w : WakeKey) (t : TaskKey) : Prop :=
  ∃ row, wi_slots i !! wake_slot w = Some row ∧ row_has row w t.

(** [row'] has the row of [wake] replaced by the set [P]. *)
Definition row_update (slot : nat) (row row' : list WakeBucket) (wake : WakeKey)
    (P : TaskKey → Prop) : Prop :=
  row_ok slot row' ∧
  ∀ w t, row_has row' w t ↔ (w = wake ∧ P t) ∨ (w ≠ wake ∧ row_has row w t).

Lemma row_bucket_unique row i j a b :
  ascending (bucket_wake <$> row) → row !! i = Some a → row !! j = Some b →
  bucket_wake a = bucket_wake b → i = j.
Proof.
  intros Hs Hi Hj E. apply ascending_NoDup in Hs. eapply NoDup_lookup; [done|..];
    rewrite list_lookup_fmap, ?Hi, ?Hj; simpl; by rewrite ?E.
Qed.

Lemma row_search_Ok wake row i :
  binary_search wake (bucket_wake <$> row) = Ok i →
  ∃ b, row !! i = Some b ∧ bucket_wake b = wake.
Proof.
  intros H%binary_search_Ok. rewrite list_lookup_fmap in H.
  destruct (row !! i) as [b|]; [|done]. simplify_eq/=. eauto.
Qed.

Lemma row_has_at row i b w t :
  ascending (bucket_wake <$> row) → row !! i = Some b → bucket_wake b = w →
  (row_has row w t ↔ t ∈ waiters_list (bucket_waiters b)).
Proof.
  intros Hs Hi Hw. split.
  - intros (b' & [j Hj]%list_elem_of_lookup & Hb' & Ht).
    assert (i = j) as -> by (eapply row_bucket_unique; [done..|congruence]). congruence.
  - intros Ht. exists b. split_and!; [by eapply list_elem_of_lookup_2|done..].
Qed.

Lemma row_update_replace slot row i b ws :
  row_ok slot row → row !! i = Some b → waiters_ok ws →
  row_update slot row (<[i := mkBucket (bucket_wake b) ws]> row) (bucket_wake b)
    (λ t, t ∈ waiters_list ws).
Proof.
  intros [Hs Hb] Hi Hws. pose proof (lookup_lt_Some _ _ _ Hi) as Hlt.
  assert (bucket_wake <$> <[i := mkBucket (bucket_wake b) ws]> row = bucket_wake <$> row) as Hf.
  { rewrite list_fmap_insert. apply list_insert_id. by rewrite list_lookup_fmap, Hi. }
  assert (row_ok slot (<[i := mkBucket (bucket_wake b) ws]> row)) as Hok.
  { split; [by rewrite Hf|]. apply Forall_insert; [done|]. split; [|done].
    by apply (Forall_lookup_1 _ _ _ _ Hb Hi). }
  split; [done|]. intros w t. destruct (decide (w = bucket_wake b)) as [->|Hw].
  - rewrite (row_has_at _ i (mkBucket (bucket_wake b) ws)); [simpl; tauto|by rewrite Hf| |done].
    by apply list_lookup_insert_eq.
  - split.
    + intros (b' & [j Hj]%list_elem_of_lookup & Hb' & Ht). right. split; [done|].
      destruct (decide (i = j)) as [<-|]; [|rewrite list_lookup_insert_ne in Hj by done].
      * rewrite list_lookup_insert_eq in Hj by done. simplify_eq.
      * exists b'. split_and!; [by eapply list_elem_of_lookup_2|done..].
    + intros [[-> _]|[_ (b' & [j Hj]%list_elem_of_lookup & Hb' & Ht)]]; [done|].
      exists b'. split_and!; [|done..]. apply list_elem_of_lookup. exists j.
      rewrite list_lookup_insert_ne; [done|]. intros <-. congruence.
Qed.

Lemma fmap_delete_at {A B} (f : A → B) (l : list A) i : f <$> delete i l = delete i (f <$> l).
Proof. revert i. induction l; intros [|i]; simpl; [done..|]. f_equal. auto. Qed.

Lemma fmap_insert_at {A B} (f : A → B) (l : list A) i x :
  f <$> insert_at i x l = insert_at i (f x) (f <$> l).
Proof. unfold insert_at. by rewrite fmap_app, fmap_cons, fmap_take, fmap_drop. Qed.

Lemma elem_of_delete_at {A} (l : list A) i x y :
  l !! i = Some x → y ∈ l → y = x ∨ y ∈ delete i l.
Proof.
  intros Hi. rewrite delete_take_drop. rewrite <- (take_drop_middle l i x Hi) at 1.
  rewrite !elem_of_app, elem_of_cons. tauto.
Qed.

Lemma row_update_delete slot row i b :
  row_ok slot row → row !! i = Some b →
  row_update slot row (delete i row) (bucket_wake b) (λ _, False).
Proof.
  intros [Hs Hb] Hi. split.
  { split; [rewrite fmap_delete_at; by apply ascending_delete|by apply Forall_delete]. }
  intros w t. assert (∀ b', b' ∈ delete i row → b' ∈ row ∧ bucket_wake b' ≠ bucket_wake b) as Hd.
  { intros b' Hb'. split; [by eapply list_elem_of_delete_inv|].
    assert (bucket_wake b' ∈ delete i (bucket_wake <$> row)) as Hin.
    { rewrite <- fmap_delete_at. by apply list_elem_of_fmap_2. }
    eapply ascending_elem_delete in Hin as [_ ?]; [done|done|]. by rewrite list_lookup_fmap, Hi. }
  split.
  - intros (b' & [Hin Hne]%Hd & <- & Ht). right. split; [done|]. by exists b'.
  - intros [[_ []]|[Hw (b' & Hin & Hb' & Ht)]]. exists b'. split; [|done].
    destruct (elem_of_delete_at row i b b' Hi Hin) as [->|?]; [congruence|done].
Qed.

Lemma row_update_insert slot row i wake task :
  row_ok slot row → wake_slot wake = slot →
  binary_search wake (bucket_wake <$> row) = Err i →
  row_update slot row (insert_at i (mkBucket wake (One task)) row) wake (λ t, t = task) ∧
  (i ≤ length row)%nat ∧ (∀ t, ¬ row_has row wake t).
Proof.
  intros [Hs Hb] Hslot Hi. apply binary_search_Err in Hi as (Hle & Hn & Hasc); [|done].
  rewrite length_fmap in Hle.
  assert (∀ t, ¬ row_has row wake t) as Hnone.
  { intros t (b & Hin & <- & _). apply Hn. by apply list_elem_of_fmap_2. }
  split_and!; [|done|done]. split.
  - split; [by rewrite fmap_insert_at|]. apply list.Forall_forall.
    intros b [->|Hin]%elem_of_insert_at.
    + split; [done|]. split; [repeat constructor|done].
    + by apply (proj1 (list.Forall_forall _ _) Hb).
  - intros w t. unfold row_has at 1. setoid_rewrite elem_of_insert_at. split.
    + intros (b & [->|Hin] & <- & Ht).
      * left. split; [done|]. by apply list_elem_of_singleton in Ht.
      * right. split; [intros E; apply (Hnone t); rewrite <- E|]; by exists b.
    + intros [[-> ->]|[Hw (b & Hin & Hbw & Ht)]].
      * eexists. split_and!; [by left|done|by left].
      * exists b. split_and!; [by right|done..].
Qed.

(** The index after a row update. *)
Definition index_update (i i' : WakeIndex) (wake : WakeKey) (P : TaskKey → Prop) : Prop :=
  wake_index_ok i' ∧
  ∀ w t, waits i' w t ↔ (w = wake ∧ P t) ∨ (w ≠ wake ∧ waits i w t).

Lemma index_update_row slots wake row row' P :
  wake_index_ok (mkWakeIndex slots) → slots !! wake_slot wake = Some row →
  row_update (wake_slot wake) row row' wake P →
  index_update (mkWakeIndex slots) (mkWakeIndex (<[wake_slot wake := row']> slots)) wake P.
Proof.
  intros Hok Hrow [Hrok Hrel]. pose proof (lookup_lt_Some _ _ _ Hrow) as Hlt.
  split.
  - intros s r. simpl. destruct (decide (wake_slot wake = s)) as [<-|].
    + rewrite list_lookup_insert_eq by done. by intros [= <-].
    + rewrite list_lookup_insert_ne by done. apply Hok.
  - intros w t. unfold waits. simpl. destruct (decide (wake_slot wake = wake_slot w)) as [E|E].
    + rewrite <- E, list_lookup_insert_eq, Hrow by done. naive_solver.
    + rewrite list_lookup_insert_ne by done. split; [|naive_solver].
      intros H. right. split; [by intros ->|done].
Qed.

Lemma wake_index_grow i slot :
  wake_index_ok i →
  wake_index_ok (mkWakeIndex (if bool_decide (length (wi_slots i) ≤ slot)%nat
                              then resize (S slot) [] (wi_slots i) else wi_slots i)) ∧
  ∀ w t, waits (mkWakeIndex (if bool_decide (length (wi_slots i) ≤ slot)%nat
                              then resize (S slot) [] (wi_slots i) else wi_slots i)) w t ↔ waits i w t.
Proof.
  intros Hok. split.
  - intros s r. simpl. rewrite lookup_grown. destruct (wi_slots i !! s) eqn:E.
    + intros [= <-]. by apply Hok.
    + repeat case_decide; [|done..]. intros [= <-]. split; [constructor|by constructor].
  - intros w t. unfold waits. simpl. rewrite lookup_grown.
    destruct (wi_slots i !! wake_slot w); [done|]. repeat case_decide; [|done..].
    split; [|by intros (? & ? & _)]. intros (row & [= <-] & b & Hb & _).
    by apply not_elem_of_nil in Hb.
Qed.

Lemma wake_index_insert_spec i wake task :
  wake_index_ok i →
  ∃ i', wake_index_insert i wake task = Ret i' ∧ wake_index_ok i' ∧
    ∀ w t, waits i' w t ↔ (w = wake ∧ t = task) ∨ waits i w t.
Proof.
  intros Hok. unfold wake_index_insert.
  destruct (wake_index_grow i (wake_slot wake) Hok) as [Hok1 Hw1].
  destruct (lookup_grown_slot [] (wi_slots i) (wake_slot wake)) as [row Hrow]. rewrite Hrow.
  set (slots := if bool_decide _ then _ else _) in *. simpl.
  pose proof (Hok1 _ _ Hrow) as Hr.
  destruct (binary_search wake (bucket_wake <$> row)) as [at_|at_] eqn:Es.
  - apply row_search_Ok in Es as (b & Hb & Hbw). rewrite Hb. simpl. subst wake.
    destruct (waiters_insert_spec (bucket_waiters b) task) as [Hwok Hwm].
    { by apply (Forall_lookup_1 _ _ _ _ (ro_buckets _ _ Hr) Hb). }
    pose proof (row_update_replace _ _ _ _ _ Hr Hb Hwok) as Hup.
    destruct (index_update_row _ _ _ _ _ Hok1 Hrow Hup) as [Hok' Hrel].
    eexists. split; [done|]. split; [done|]. intros w t. rewrite Hrel, Hwm, Hw1.
    destruct (decide (w = bucket_wake b)) as [->|]; [|naive_solver].
    rewrite <- Hw1. unfold waits. simpl. rewrite Hrow.
    pose proof (row_has_at _ _ _ _ t (ro_sorted _ _ Hr) Hb eq_refl). naive_solver.
  - destruct (row_update_insert _ _ _ _ task Hr eq_refl Es) as (Hup & Hle & Hnone).
    rewrite bool_decide_eq_true_2 by done. simpl.
    destruct (index_update_row _ _ _ _ _ Hok1 Hrow Hup) as [Hok' Hrel].
    eexists. split; [done|]. split; [done|]. intros w t. rewrite Hrel, Hw1.
    destruct (decide (w = wake)) as [->|]; [|naive_solver].
    rewrite <- Hw1. unfold waits. simpl. rewrite Hrow. naive_solver.
Qed.

Lemma waits_no_row i wake t :
  wi_slots i !! wake_slot wake = None → ¬ waits i wake t.
Proof. intros E (row & Hrow & _). congruence. Qed.

Lemma waits_no_bucket i wake row at_ t :
  wake_index_ok i → wi_slots i !! wake_slot wake = Some row →
  binary_search wake (bucket_wake <$> row) = Err at_ → ¬ waits i wake t.
Proof.
  intros Hok Hrow Es (row' & Hrow' & b & Hb & Hw & _). simplify_eq.
  apply binary_search_Err in Es as (_ & Hn & _); [|by apply (Hok _ _ Hrow)].
  apply Hn. by apply list_elem_of_fmap_2.
Qed.

Lemma waits_bucket i row at_ b t :
  wake_index_ok i → wi_slots i !! wake_slot (bucket_wake b) = Some row → row !! at_ = Some b →
  (waits i (bucket_wake b) t ↔ t ∈ waiters_list (bucket_waiters b)).
Proof.
  intros Hok Hrow Hb. unfold waits. rewrite Hrow.
  pose proof (row_has_at _ _ _ _ t (ro_sorted _ _ (Hok _ _ Hrow)) Hb eq_refl). naive_solver.
Qed.

Lemma wake_index_remove_spec i wake task :
  wake_index_ok i →
  ∃ i', wake_index_remove i wake task = Ret i' ∧ wake_index_ok i' ∧
    ∀ w t, waits i' w t ↔ waits i w t ∧ ¬ (w = wake ∧ t = task).
Proof.
  intros Hok. unfold wake_index_remove.
  destruct (wi_slots i !! wake_slot wake) as [row|] eqn:Hrow.
  2:{ exists i. split_and!; [done..|]. intros w t. split; [|tauto]. intros H. split; [done|].
      intros [-> _]. by eapply waits_no_row. }
  destruct (binary_search wake (bucket_wake <$> row)) as [at_|at_] eqn:Es.
  2:{ exists i. split_and!; [done..|]. intros w t. split; [|tauto]. intros H. split; [done|].
      intros [-> _]. by eapply waits_no_bucket. }
  apply row_search_Ok in Es as (b & Hb & Hbw). rewrite Hb. simpl. subst wake.
  pose proof (Hok _ _ Hrow) as Hr.
  pose proof (waiters_remove_spec (bucket_waiters b) task) as Hrm.
  pose proof (λ t, waits_bucket _ _ _ _ t Hok Hrow Hb) as Hw. destruct i as [slots]. simpl in *.
  destruct (waiters_remove (bucket_waiters b) task) as [[] ws].
  - destruct (index_update_row _ _ _ _ _ Hok Hrow (row_update_delete _ _ _ _ Hr Hb)) as [Hok' Hrel].
    eexists. split; [done|]. split; [done|]. intros w t. rewrite Hrel.
    destruct (decide (w = bucket_wake b)) as [->|]; [|naive_solver].
    rewrite Hw, Hrm by apply (Forall_lookup_1 _ _ _ _ (ro_buckets _ _ Hr) Hb). naive_solver.
  - destruct Hrm as [Hwok Hrm]; [by apply (Forall_lookup_1 _ _ _ _ (ro_buckets _ _ Hr) Hb)|].
    destruct (index_update_row _ _ _ _ _ Hok Hrow (row_update_replace _ _ _ _ _ Hr Hb Hwok))
      as [Hok' Hrel].
    eexists. split; [done|]. split; [done|]. intros w t. rewrite Hrel, Hrm.
    destruct (decide (w = bucket_wake b)) as [->|]; [|naive_solver]. rewrite Hw. naive_solver.
Qed.

(** The waiters of [wake]: the ascending vector of its row, or none. *)
Definition takes (i : WakeIndex) (wake : WakeKey) (o : option Waiters) : Prop :=
  match o with
  | Some ws => ascending (waiters_list ws) ∧ ∀ t, t ∈ waiters_list ws ↔ waits i wake t
  | None => ∀ t, ¬ waits i wake t
  end.

Lemma wake_index_take_spec i wake :
  wake_index_ok i →
  ∃ o i', wake_index_take i wake = Ret (o, i') ∧ wake_index_ok i' ∧ takes i wake o ∧
    ∀ w t, waits i' w t ↔ w ≠ wake ∧ waits i w t.
Proof.
  intros Hok. unfold wake_index_take.
  destruct (wi_slots i !! wake_slot wake) as [row|] eqn:Hrow.
  2:{ exists None, i. split_and!; [done..|intros t; by apply waits_no_row|]. intros w t.
      split; [|tauto]. intros H. split; [|done]. intros ->. by eapply waits_no_row. }
  destruct (binary_search wake (bucket_wake <$> row)) as [at_|at_] eqn:Es.
  2:{ exists None, i. split_and!; [done..|intros t; by eapply waits_no_bucket|]. intros w t.
      split; [|tauto]. intros H. split; [|done]. intros ->. by eapply waits_no_bucket. }
  apply row_search_Ok in Es as (b & Hb & Hbw). rewrite Hb. simpl. subst wake.
  pose proof (Hok _ _ Hrow) as Hr.
  pose proof (λ t, waits_bucket _ _ _ _ t Hok Hrow Hb) as Hw. destruct i as [slots]. simpl in *.
  destruct (index_update_row _ _ _ _ _ Hok Hrow (row_update_delete _ _ _ _ Hr Hb)) as [Hok' Hrel].
  eexists _, _. split; [done|]. split; [done|]. split.
  - split; [by apply (Forall_lookup_1 _ _ _ _ (ro_buckets _ _ Hr) Hb)|]. intros t. by rewrite Hw.
  - intros w t. rewrite Hrel. tauto.
Qed.

(** *** Runs of the wake index against the relation *)

Inductive WakeOp :=
| WInsert (wake : WakeKey) (task : TaskKey)
| WRemove (wake : WakeKey) (task : TaskKey)
| WTake (wake : WakeKey).

Definition wake_step (s : WakeIndex * list (option Waiters)) (op : WakeOp) :
    exec (WakeIndex * list (option Waiters)) :=
  let '(i, answers) := s in
  match op with
  | WInsert wake task => i ← wake_index_insert i wake task; Ret (i, answers)
  | WRemove wake task => i ← wake_index_remove i wake task; Ret (i, answers)
  | WTake wake => '(o, i) ← wake_index_take i wake; Ret (i, answers ++ [o])
  end.

(** The specification: a finite set of pairs; a take answers with a row. *)
Definition wait_row (r : gset (WakeKey * TaskKey)) (wake : WakeKey) : list TaskKey :=
  key_set ((filter (λ p, p.1 = wake) (elements r)).*2).

Definition wake_spec (s : gset (WakeKey * TaskKey) * list (list TaskKey)) (op : WakeOp) :
    gset (WakeKey * TaskKey) * list (list TaskKey) :=
  let '(r, answers) := s in
  match op with
  | WInsert wake task => ({[ (wake, task) ]} ∪ r, answers)
  | WRemove wake task => (r ∖ {[ (wake, task) ]}, answers)
  | WTake wake => (filter (λ p, p.1 ≠ wake) r, answers ++ [wait_row r wake])
  end.

Definition answer_list (o : option Waiters) : list TaskKey :=
  match o with Some ws => waiters_list ws | None => [] end.

Lemma wait_row_elem r wake t : t ∈ wait_row r wake ↔ (wake, t) ∈ r.
Proof.
  unfold wait_row, key_set. rewrite sort_dedup_elem, list_elem_of_fmap. split.
  - intros ([w t'] & -> & Hp). apply list_elem_of_filter in Hp as [<- Hp]. by apply elem_of_elements.
  - intros Hin. exists (wake, t). split; [done|]. apply list_elem_of_filter.
    split; [done|]. by apply elem_of_elements.
Qed.

Lemma takes_row i r wake o :
  (∀ w t, waits i w t ↔ (w, t) ∈ r) → takes i wake o → answer_list o = wait_row r wake.
Proof.
  intros Hr Ht. apply ascending_ext.
  - destruct o; [by apply Ht|constructor].
  - apply sort_dedup_ascending.
  - intros t. rewrite wait_row_elem, <- Hr. destruct o as [ws|]; simpl.
    + by apply Ht.
    + split; [by intros ?%not_elem_of_nil|]. intros H. by apply Ht in H.
Qed.

Lemma wake_step_refines i answers r rows op :
  wake_index_ok i → (∀ w t, waits i w t ↔ (w, t) ∈ r) → answer_list <$> answers = rows →
  ∃ i' answers', wake_step (i, answers) op = Ret (i', answers') ∧ wake_index_ok i' ∧
    (∀ w t, waits i' w t ↔ (w, t) ∈ (wake_spec (r, rows) op).1) ∧
    answer_list <$> answers' = (wake_spec (r, rows) op).2.
Proof.
  intros Hok Hr Hans. destruct op as [wake task|wake task|wake]; simpl.
  - destruct (wake_index_insert_spec i wake task Hok) as (i' & -> & ? & Hw). simpl.
    eexists _, _. split_and!; [done..| |done]. intros w t.
    rewrite Hw, Hr, elem_of_union, elem_of_singleton. naive_solver.
  - destruct (wake_index_remove_spec i wake task Hok) as (i' & -> & ? & Hw). simpl.
    eexists _, _. split_and!; [done..| |done]. intros w t.
    rewrite Hw, Hr, elem_of_difference, elem_of_singleton. naive_solver.
  - destruct (wake_index_take_spec i wake Hok) as (o & i' & -> & ? & Ho & Hw). simpl.
    eexists _, _. split_and!; [done..| |].
    + intros w t. rewrite Hw, Hr, elem_of_filter. done.
    + rewrite fmap_app, Hans. simpl. by rewrite (takes_row _ _ _ _ Hr Ho).
Qed.

Lemma wake_run_refines ops : ∀ i answers r rows,
  wake_index_ok i → (∀ w t, waits i w t ↔ (w, t) ∈ r) → answer_list <$> answers = rows →
  ∃ i' answers', for_each_exec wake_step (i, answers) ops = Ret (i', answers') ∧
    answer_list <$> answers' = (foldl wake_spec (r, rows) ops).2 ∧
    ∀ w t, waits i' w t ↔ (w, t) ∈ (foldl wake_spec (r, rows) ops).1.
Proof.
  induction ops as [|op ops IH]; intros i answers r rows Hok Hr Hans.
  - by exists i, answers.
  - destruct (wake_step_refines i answers r rows op Hok Hr Hans) as (i' & answers' & E & Hok' & Hr' & Hans').
    cbn [for_each_exec]. rewrite E. cbn [mbind exec_bind foldl].
    destruct (wake_spec (r, rows) op) as [r' rows']. by apply IH.
Qed.

(** C16. The wake index refines a finite relation between wake keys and
    tasks: every run of insertions, removals and takes executes without a
    panic, and every take answers with the ascending, repetition-free vector
    of the tasks that the relation gives for the wake key. *)
Theorem wake_index_refines ops :
  ∃ i answers,
    for_each_exec wake_step (wake_index_default, []) ops = Ret (i, answers) ∧
    answer_list <$> answers = (foldl wake_spec (∅, []) ops).2 ∧
    ∀ w t, waits i w t ↔ (w, t) ∈ (foldl wake_spec (∅, []) ops).1.
Proof.
  apply wake_run_refines; [done| |done].
  intros w t. split; [by intros (? & ? & _)|set_solver].
Qed.

(** ** The task index refines a map in which a slot holds one generation *)

Definition task_index_ok (t : TaskIndex) : Prop :=
  ∀ slot task, ti_slots t !! slot = Some (Some task) → task_slot (it_key task) = slot.

Lemma task_index_get_insert t k s k' :
  task_index_get (task_index_insert t k s) k' =
  if decide (task_slot k' = task_slot k)
  then if decide (k' = k) then Some s else None
  else task_index_get t k'.
Proof.
  unfold task_index_get, task_index_insert. cbn [ti_slots].
  destruct (lookup_grown_slot None (ti_slots t) (task_slot k)) as [x Hx].
  apply lookup_lt_Some in Hx. destruct (decide (task_slot k' = task_slot k)) as [Es|Es].
  - rewrite Es. rewrite (list_lookup_insert_eq _ _ _ Hx). cbn [it_key it_state].
    repeat case_decide; repeat case_bool_decide; simplify_eq; done.
  - rewrite list_lookup_insert_ne by done. rewrite (lookup_grown None).
    destruct (ti_slots t !! task_slot k'); [done|]. by repeat case_decide.
Qed.

Lemma task_index_get_remove t k k' :
  task_index_get (task_index_remove t k) k' =
  if decide (k' = k) then None else task_index_get t k'.
Proof.
  unfold task_index_remove, task_index_get.
  destruct (ti_slots t !! task_slot k) as [[task|]|] eqn:E.
  - case_bool_decide as Hk; [subst k|].
    + pose proof (lookup_lt_Some _ _ _ E). cbn [ti_slots].
      destruct (decide (task_slot (it_key task) = task_slot k')) as [Es|Es].
      * rewrite <- Es, list_lookup_insert_eq, E by done. case_decide; [done|].
        by rewrite bool_decide_eq_false_2 by congruence.
      * rewrite list_lookup_insert_ne by done. case_decide; [congruence|done].
    + case_decide; [subst k'|done]. rewrite E. by rewrite bool_decide_eq_false_2 by done.
  - case_decide; [subst k'|done]. by rewrite E.
  - case_decide; [subst k'|done]. by rewrite E.
Qed.

Lemma task_index_insert_ok t k s : task_index_ok t → task_index_ok (task_index_insert t k s).
Proof.
  intros Hok slot task. unfold task_index_insert. cbn [ti_slots].
  destruct (lookup_grown_slot None (ti_slots t) (task_slot k)) as [x Hx].
  apply lookup_lt_Some in Hx. destruct (decide (task_slot k = slot)) as [<-|].
  - rewrite list_lookup_insert_eq by done. by intros [= <-].
  - rewrite list_lookup_insert_ne by done. rewrite (lookup_grown None).
    destruct (ti_slots t !! slot) eqn:E; [intros [= ->]; by apply Hok|]. by repeat case_decide.
Qed.

Lemma task_index_remove_ok t k : task_index_ok t → task_index_ok (task_index_remove t k).
Proof.
  intros Hok slot task. unfold task_index_remove.
  destruct (ti_slots t !! task_slot k) as [[old|]|] eqn:E; [|apply Hok..].
  case_bool_decide; [|apply Hok]. cbn [ti_slots]. pose proof (lookup_lt_Some _ _ _ E).
  destruct (decide (task_slot k = slot)) as [<-|].
  - by rewrite list_lookup_insert_eq.
  - rewrite list_lookup_insert_ne by done. apply Hok.
Qed.

(** The iterator yields the map's entries. *)
Lemma task_index_iter_elem t k s :
  task_index_ok t → ((k, s) ∈ task_index_iter t ↔ task_index_get t k = Some s).
Proof.
  intros Hok. unfold task_index_iter, task_index_get. rewrite list_elem_of_omap. split.
  - intros ([task|] & [slot Hs]%list_elem_of_lookup & Hp); simplify_eq/=.
    rewrite <- (Hok _ _ Hs) in Hs. rewrite Hs. by rewrite bool_decide_eq_true_2.
  - destruct (ti_slots t !! task_slot k) as [[task|]|] eqn:E; [|done..].
    case_bool_decide as Hk; [|done]. intros [= <-]. exists (Some task).
    split; [by eapply list_elem_of_lookup_2|]. simpl. by rewrite Hk.
Qed.

#[export] Hint Resolve task_index_insert_ok task_index_remove_ok : loom.

(** ** The park index *)

Definition park_ok (p : ParkIndex) : Prop :=
  wake_index_ok (pi_wakes p) ∧ ∀ c ws, pi_completions p !! c = Some ws → waiters_ok ws.

(** The abstract relation "task is indexed under source". *)
Definition source_waits (p : ParkIndex) (source : WaitSourceKey) (t : TaskKey) : Prop :=
  match source with
  | SourceWake w => waits (pi_wakes p) w t
  | SourceCompletion c => ∃ ws, pi_completions p !! c = Some ws ∧ t ∈ waiters_list ws
  end.

Lemma park_default_ok : park_ok park_index_default.
Proof. by split. Qed.

Lemma park_remove_source_spec task p source :
  park_ok p →
  ∃ p', park_remove_source task p source = Ret p' ∧ park_ok p' ∧ pi_sets p' = pi_sets p ∧
    ∀ src t, source_waits p' src t ↔ source_waits p src t ∧ ¬ (src = source ∧ t = task).
Proof.
  intros [Hw Hc]. destruct source as [wake|c]; simpl.
  - destruct (wake_index_remove_spec _ wake task Hw) as (i & -> & Hi & Hrel).
    eexists. split; [done|]. split_and!; [by split|done|].
    intros [w|c'] t; simpl; [rewrite Hrel|]; naive_solver.
  - eexists. split; [done|]. destruct (pi_completions p !! c) as [ws|] eqn:E.
    + pose proof (waiters_remove_spec ws task (Hc _ _ E)) as Hr.
      destruct (waiters_remove ws task) as [[] ws']; (split_and!; [split; [done|]|done|]); simpl.
      * intros c' ws2. rewrite lookup_delete_Some. naive_solver.
      * intros [w|c'] t; simpl; [naive_solver|]. setoid_rewrite lookup_delete_Some.
        destruct (decide (c = c')) as [<-|]; [|naive_solver].
        split; [naive_solver|]. intros [(ws2 & E2 & Ht) Hn]. simplify_eq.
        apply Hr in Ht. naive_solver.
      * intros c' ws2 [[<- <-]|[? E2]]%lookup_insert_Some; [apply Hr|by eapply Hc].
      * intros [w|c'] t; simpl; [naive_solver|]. setoid_rewrite lookup_insert_Some.
        destruct (decide (c = c')) as [<-|]; [|naive_solver].
        destruct Hr as [_ Hr]. specialize (Hr t). naive_solver.
    + split_and!; [by split|done|]. intros src t. split; [|tauto]. intros H. split; [done|].
      intros [-> ->]. destruct H as (? & ? & _). congruence.
Qed.

Lemma park_insert_source_spec task p source :
  park_ok p →
  ∃ p', park_insert_source task p source = Ret p' ∧ park_ok p' ∧ pi_sets p' = pi_sets p ∧
    ∀ src t, source_waits p' src t ↔ (src = source ∧ t = task) ∨ source_waits p src t.
Proof.
  intros [Hw Hc]. destruct source as [wake|c]; simpl.
  - destruct (wake_index_insert_spec _ wake task Hw) as (i & -> & Hi & Hrel).
    eexists. split; [done|]. split_and!; [by split|done|].
    intros [w|c'] t; simpl; [rewrite Hrel|]; naive_solver.
  - eexists. split; [done|]. destruct (pi_completions p !! c) as [ws|] eqn:E.
    + destruct (waiters_insert_spec ws task (Hc _ _ E)) as [Hwok Hwm].
      split_and!; [split; [done|]|done|]; simpl.
      * intros c' ws2 [[<- <-]|[? E2]]%lookup_insert_Some; [done|by eapply Hc].
      * intros [w|c'] t; simpl; [naive_solver|]. setoid_rewrite lookup_insert_Some.
        specialize (Hwm t). destruct (decide (c = c')) as [<-|]; naive_solver.
    + split_and!; [split; [done|]|done|]; simpl.
      * intros c' ws2 [[<- <-]|[? E2]]%lookup_insert_Some; [|by eapply Hc].
        split; [repeat constructor|done].
      * intros [w|c'] t; simpl; [naive_solver|]. setoid_rewrite lookup_insert_Some.
        assert (t ∈ waiters_list (One task) ↔ t = task) by apply list_elem_of_singleton.
        destruct (decide (c = c')) as [<-|]; naive_solver.
Qed.

Lemma park_remove_sources_spec task sources : ∀ p,
  park_ok p →
  ∃ p', for_each_exec (park_remove_source task) p sources = Ret p' ∧ park_ok p' ∧
    pi_sets p' = pi_sets p ∧
    ∀ src t, source_waits p' src t ↔ source_waits p src t ∧ ¬ (src ∈ sources ∧ t = task).
Proof.
  induction sources as [|source sources IH]; intros p Hok; simpl.
  - exists p. split_and!; [done..|]. intros src t. rewrite elem_of_nil. tauto.
  - destruct (park_remove_source_spec task p source Hok) as (p1 & -> & Hok1 & Hs1 & Hr1). simpl.
    destruct (IH p1 Hok1) as (p2 & -> & Hok2 & Hs2 & Hr2).
    exists p2. split_and!; [done..|congruence|]. intros src t.
    rewrite Hr2, Hr1, elem_of_cons. tauto.
Qed.

Lemma park_insert_sources_spec task sources : ∀ p,
  park_ok p →
  ∃ p', for_each_exec (park_insert_source task) p sources = Ret p' ∧ park_ok p' ∧
    pi_sets p' = pi_sets p ∧
    ∀ src t, source_waits p' src t ↔ (src ∈ sources ∧ t = task) ∨ source_waits p src t.
Proof.
  induction sources as [|source sources IH]; intros p Hok; simpl.
  - exists p. split_and!; [done..|]. intros src t. rewrite elem_of_nil. tauto.
  - destruct (park_insert_source_spec task p source Hok) as (p1 & -> & Hok1 & Hs1 & Hr1). simpl.
    destruct (IH p1 Hok1) as (p2 & -> & Hok2 & Hs2 & Hr2).
    exists p2. split_and!; [done..|congruence|]. intros src t.
    rewrite Hr2, Hr1, elem_of_cons. tauto.
Qed.

Lemma park_index_remove_spec p ws task :
  park_ok p →
  ∃ p', park_index_remove p ws task = Ret p' ∧ park_ok p' ∧
    pi_sets p' = delete ws (pi_sets p) ∧
    ∀ src t, source_waits p' src t ↔
      source_waits p src t ∧ ¬ (src ∈ default [] (pi_sets p !! ws) ∧ t = task).
Proof.
  intros Hok. unfold park_index_remove. destruct (pi_sets p !! ws) as [sources|] eqn:E; simpl.
  - destruct (park_remove_sources_spec task sources
      (mkParkIndex (delete ws (pi_sets p)) (pi_wakes p) (pi_completions p)))
      as (p' & -> & Hok' & Hs & Hr); [by destruct Hok|].
    exists p'. split_and!; [done..|]. intros src t. rewrite Hr. by destruct src.
  - exists p. split_and!; [done..|by rewrite delete_id|]. intros src t. rewrite elem_of_nil. tauto.
Qed.

Lemma park_index_insert_spec p ws task sources :
  park_ok p →
  ∃ p', park_index_insert p ws task sources = Ret p' ∧ park_ok p' ∧
    pi_sets p' = <[ws := sources]> (pi_sets p) ∧
    ∀ src t, source_waits p' src t ↔ (src ∈ sources ∧ t = task) ∨
      (source_waits p src t ∧ ¬ (src ∈ default [] (pi_sets p !! ws) ∧ t = task)).
Proof.
  intros Hok. unfold park_index_insert.
  destruct (park_index_remove_spec p ws task Hok) as (p1 & -> & Hok1 & Hs1 & Hr1). simpl.
  destruct (park_insert_sources_spec task sources p1 Hok1) as (p' & -> & Hok' & Hs & Hr). simpl.
  eexists. split; [done|]. split_and!; [by destruct Hok'|by rewrite Hs, Hs1, insert_delete_eq|].
  intros src t. rewrite <- Hr1, <- Hr. by destruct src.
Qed.

Lemma park_take_wake_spec p wake :
  park_ok p →
  ∃ o p', park_take_wake p wake = Ret (o, p') ∧ park_ok p' ∧ pi_sets p' = pi_sets p ∧
    takes (pi_wakes p) wake o ∧
    ∀ src t, source_waits p' src t ↔ src ≠ SourceWake wake ∧ source_waits p src t.
Proof.
  intros [Hw Hc]. unfold park_take_wake.
  destruct (wake_index_take_spec _ wake Hw) as (o & i & -> & Hi & Ho & Hr). simpl.
  eexists _, _. split; [done|]. split_and!; [by split|done..|].
  intros [w|c] t; simpl; [rewrite Hr|]; naive_solver.
Qed.

Lemma park_take_completion_spec p c o p' :
  park_ok p → park_take_completion p c = (o, p') →
  park_ok p' ∧ pi_sets p' = pi_sets p ∧
  (∀ t, t ∈ answer_list o ↔ source_waits p (SourceCompletion c) t) ∧
  ∀ src t, source_waits p' src t ↔ src ≠ SourceCompletion c ∧ source_waits p src t.
Proof.
  intros [Hw Hc] H. unfold park_take_completion in H. simplify_eq.
  split_and!; [split; [done|]|done| |]; simpl.
  - intros c' ws [_ E]%lookup_delete_Some. by eapply Hc.
  - intros t. destruct (pi_completions p !! c); simpl; [naive_solver|].
    split; [by intros ?%not_elem_of_nil|naive_solver].
  - intros [w|c'] t; simpl; [naive_solver|]. setoid_rewrite lookup_delete_Some. naive_solver.
Qed.
