(* ===== verification/Scheduler.v ===== *)
(** * The proc scheduler (crates/lm-proc/src/lib.rs)

    The deterministic scheduler over an abstract world.  The class
    [WorldOps] names the operations of [lm_vm::World] the scheduler calls;
    the theorems hold for every implementation of it, and the laws a theorem
    needs are the class [WorldLaws].

    The execution control's yield flag is the field [sc_yield]; the worker
    pool is a handle of the parallel mode and is left out.  A [u128] ticket
    counter cannot wrap in a run, so tickets are plain [N]. *)

From S2P Require Import Prelude Ordered Schedule Indexes.
From stdpp Require Import base numbers gmap list.

(** ** Configuration, counters and state *)

Definition DEFAULT_QUANTUM : N := 16384.
Definition DEFAULT_PARALLEL_QUANTUM : N := 16384.

Inductive SchedulerMode :=
| Deterministic
| Parallel (workers : N).

Inductive StopReason :=
| RootTerminal
| Deadlock.

Record SchedulerStats := mkStats {
  st_root_slices : N;
  st_proc_slices : N;
  st_unblocked : N;
  st_max_active_leases : N;
  st_worker_heap_growth_bytes : N;
  st_worker_recalls : N;
  st_local_continuations : N;
  st_local_rotations : N;
  st_global_quiescence : N;
  st_collection_quiescence : N;
  st_scoped_safepoint_waits : N
}.

Definition stats_default : SchedulerStats := mkStats 0 0 0 0 0 0 0 0 0 0 0.

Record Scheduler := mkScheduler {
  sc_mode : SchedulerMode;
  sc_quantum : N;
  sc_parallel_quantum : N;
  sc_fixed_quantum : bool;
  sc_yield : bool;
  sc_include_root : bool;
  sc_stats : SchedulerStats;
  sc_stop : option StopReason;
  sc_ready : list (TaskKey * N);
  sc_ready_ticket : N;
  sc_tasks : TaskIndex;
  sc_blocked : WakeIndex;
  sc_block_keys : gmap TaskKey (list WakeKey);
  sc_waiting : gmap CompletionKey TaskKey;
  sc_parked : ParkIndex;
  sc_events : ScheduleEvents
}.

Definition set_yield (s : Scheduler) (x : bool) : Scheduler :=
  mkScheduler (sc_mode s) (sc_quantum s) (sc_parallel_quantum s) (sc_fixed_quantum s) x (sc_include_root s) (sc_stats s) (sc_stop s)
    (sc_ready s) (sc_ready_ticket s) (sc_tasks s) (sc_blocked s) (sc_block_keys s) (sc_waiting s) (sc_parked s) (sc_events s).
Definition set_include_root (s : Scheduler) (x : bool) : Scheduler :=
  mkScheduler (sc_mode s) (sc_quantum s) (sc_parallel_quantum s) (sc_fixed_quantum s) (sc_yield s) x (sc_stats s) (sc_stop s)
    (sc_ready s) (sc_ready_ticket s) (sc_tasks s) (sc_blocked s) (sc_block_keys s) (sc_waiting s) (sc_parked s) (sc_events s).
Definition set_stats (s : Scheduler) (x : SchedulerStats) : Scheduler :=
  mkScheduler (sc_mode s) (sc_quantum s) (sc_parallel_quantum s) (sc_fixed_quantum s) (sc_yield s) (sc_include_root s) x (sc_stop s)
    (sc_ready s) (sc_ready_ticket s) (sc_tasks s) (sc_blocked s) (sc_block_keys s) (sc_waiting s) (sc_parked s) (sc_events s).
Definition set_stop (s : Scheduler) (x : option StopReason) : Scheduler :=
  mkScheduler (sc_mode s) (sc_quantum s) (sc_parallel_quantum s) (sc_fixed_quantum s) (sc_yield s) (sc_include_root s) (sc_stats s) x
    (sc_ready s) (sc_ready_ticket s) (sc_tasks s) (sc_blocked s) (sc_block_keys s) (sc_waiting s) (sc_parked s) (sc_events s).
Definition set_sc_ready (s : Scheduler) (x : list (TaskKey * N)) : Scheduler :=
  mkScheduler (sc_mode s) (sc_quantum s) (sc_parallel_quantum s) (sc_fixed_quantum s) (sc_yield s) (sc_include_root s) (sc_stats s) (sc_stop s)
    x (sc_ready_ticket s) (sc_tasks s) (sc_blocked s) (sc_block_keys s) (sc_waiting s) (sc_parked s) (sc_events s).
Definition set_ready_ticket (s : Scheduler) (x : N) : Scheduler :=
  mkScheduler (sc_mode s) (sc_quantum s) (sc_parallel_quantum s) (sc_fixed_quantum s) (sc_yield s) (sc_include_root s) (sc_stats s) (sc_stop s)
    (sc_ready s) x (sc_tasks s) (sc_blocked s) (sc_block_keys s) (sc_waiting s) (sc_parked s) (sc_events s).
Definition set_tasks (s : Scheduler) (x : TaskIndex) : Scheduler :=
  mkScheduler (sc_mode s) (sc_quantum s) (sc_parallel_quantum s) (sc_fixed_quantum s) (sc_yield s) (sc_include_root s) (sc_stats s) (sc_stop s)
    (sc_ready s) (sc_ready_ticket s) x (sc_blocked s) (sc_block_keys s) (sc_waiting s) (sc_parked s) (sc_events s).
Definition set_blocked (s : Scheduler) (x : WakeIndex) : Scheduler :=
  mkScheduler (sc_mode s) (sc_quantum s) (sc_parallel_quantum s) (sc_fixed_quantum s) (sc_yield s) (sc_include_root s) (sc_stats s) (sc_stop s)
    (sc_ready s) (sc_ready_ticket s) (sc_tasks s) x (sc_block_keys s) (sc_waiting s) (sc_parked s) (sc_events s).
Definition set_block_keys (s : Scheduler) (x : gmap TaskKey (list WakeKey)) : Scheduler :=
  mkScheduler (sc_mode s) (sc_quantum s) (sc_parallel_quantum s) (sc_fixed_quantum s) (sc_yield s) (sc_include_root s) (sc_stats s) (sc_stop s)
    (sc_ready s) (sc_ready_ticket s) (sc_tasks s) (sc_blocked s) x (sc_waiting s) (sc_parked s) (sc_events s).
Definition set_waiting (s : Scheduler) (x : gmap CompletionKey TaskKey) : Scheduler :=
  mkScheduler (sc_mode s) (sc_quantum s) (sc_parallel_quantum s) (sc_fixed_quantum s) (sc_yield s) (sc_include_root s) (sc_stats s) (sc_stop s)
    (sc_ready s) (sc_ready_ticket s) (sc_tasks s) (sc_blocked s) (sc_block_keys s) x (sc_parked s) (sc_events s).
Definition set_parked (s : Scheduler) (x : ParkIndex) : Scheduler :=
  mkScheduler (sc_mode s) (sc_quantum s) (sc_parallel_quantum s) (sc_fixed_quantum s) (sc_yield s) (sc_include_root s) (sc_stats s) (sc_stop s)
    (sc_ready s) (sc_ready_ticket s) (sc_tasks s) (sc_blocked s) (sc_block_keys s) (sc_waiting s) x (sc_events s).
Definition set_events (s : Scheduler) (x : ScheduleEvents) : Scheduler :=
  mkScheduler (sc_mode s) (sc_quantum s) (sc_parallel_quantum s) (sc_fixed_quantum s) (sc_yield s) (sc_include_root s) (sc_stats s) (sc_stop s)
    (sc_ready s) (sc_ready_ticket s) (sc_tasks s) (sc_blocked s) (sc_block_keys s) (sc_waiting s) (sc_parked s) x.

(** [stats.root_slices = stats.root_slices.saturating_add(1)]. *)
Definition count_root_slices (s : Scheduler) : Scheduler :=
  let st := sc_stats s in
  set_stats s (mkStats (saturating_add_u64 (st_root_slices st) 1) (st_proc_slices st) (st_unblocked st) (st_max_active_leases st) (st_worker_heap_growth_bytes st) (st_worker_recalls st) (st_local_continuations st) (st_local_rotations st) (st_global_quiescence st) (st_collection_quiescence st) (st_scoped_safepoint_waits st)).

(** [stats.proc_slices = stats.proc_slices.saturating_add(1)]. *)
Definition count_proc_slices (s : Scheduler) : Scheduler :=
  let st := sc_stats s in
  set_stats s (mkStats (st_root_slices st) (saturating_add_u64 (st_proc_slices st) 1) (st_unblocked st) (st_max_active_leases st) (st_worker_heap_growth_bytes st) (st_worker_recalls st) (st_local_continuations st) (st_local_rotations st) (st_global_quiescence st) (st_collection_quiescence st) (st_scoped_safepoint_waits st)).

(** [stats.unblocked = stats.unblocked.saturating_add(1)]. *)
Definition count_unblocked (s : Scheduler) : Scheduler :=
  let st := sc_stats s in
  set_stats s (mkStats (st_root_slices st) (st_proc_slices st) (saturating_add_u64 (st_unblocked st) 1) (st_max_active_leases st) (st_worker_heap_growth_bytes st) (st_worker_recalls st) (st_local_continuations st) (st_local_rotations st) (st_global_quiescence st) (st_collection_quiescence st) (st_scoped_safepoint_waits st)).

(** ** The world the scheduler drives *)

Class WorldOps (W Outcome : Type) := {
  w_root : W → N;
  w_task_key : W → N → option TaskKey;
  w_task_status : W → TaskKey → TaskStatus;
  w_task_outcome : W → TaskKey → Outcome;
  w_block_wakes : W → TaskKey → WakeKey → list WakeKey;
  w_wait_sources : W → WaitSetKey → list WaitSourceKey;
  w_scheduler_seeds : W → bool → list (TaskKey * TaskStatus);
  w_schedule_events : W → ScheduleEvents;
  w_set_schedule_events : W → ScheduleEvents → W;
  w_snapshot_wait_quantum : W → TaskKey → N → N;
  w_drive_slice : W → TaskKey → N → option SliceExit * W;
  w_drive_slice_polled : W → TaskKey → N → N → bool → option SliceExit * W * bool;
  w_world_fuel : W → N;
  w_heap_used : W → N → N;
  w_note_scheduler_slice : W → TaskKey → N → bool → N → W;
  w_poll_host_completion : W → (CompletionKey → bool) → option CompletionKey * W;
  w_wait_host_completion : W → (CompletionKey → bool) → option CompletionKey * W;
  w_retire_scheduler_task : W → TaskKey → W;
  w_fail_blocked_task : W → TaskKey → W;
  w_fail_waiting_task : W → TaskKey → W
}.

(** A [while let Some(k) = pop(..)] loop with a body. *)
Fixpoint while_some {K S} (fuel : nat) (pop : S → option K * S) (body : S → K → exec S) (s : S) :
    exec S :=
  match fuel with
  | O => NoFuel
  | S fuel =>
      match pop s with
      | (None, s) => Ret s
      | (Some k, s) => s ← body s k; while_some fuel pop body s
      end
  end.

Section Operations.
Context {W Outcome : Type} `{WorldOps W Outcome}.

(** [World::swap_schedule_events] (crates/lm-vm/src/world/sched.rs). *)
Definition swap_schedule_events (w : W) (events : ScheduleEvents) : bool * W * ScheduleEvents :=
  if events_is_empty (w_schedule_events w) then (false, w, events)
  else (true, w_set_schedule_events w events, w_schedule_events w).

Definition new_with_quanta (mode : SchedulerMode) (quantum parallel_quantum : N)
    (fixed_quantum : bool) : Scheduler :=
  mkScheduler mode (N.max quantum 1) (N.max parallel_quantum 1) fixed_quantum false true
    stats_default None [] 0 task_index_default wake_index_default ∅ ∅ park_index_default
    events_default.

Definition scheduler_default : Scheduler :=
  new_with_quanta Deterministic DEFAULT_QUANTUM DEFAULT_PARALLEL_QUANTUM false.

Definition is_queued (st : IndexedState) : bool :=
  match st with Queued _ => true | _ => false end.
Definition is_parked (st : IndexedState) : bool :=
  match st with IsParked _ => true | _ => false end.
Definition is_stuck (st : IndexedState) : bool :=
  match st with IsBlocked _ | IsParked _ => true | _ => false end.

Definition prepare_execution_poll (s : Scheduler) : Scheduler :=
  let s := set_yield s false in
  if sc_fixed_quantum s || existsb is_queued (task_index_values (sc_tasks s))
  then set_yield s true else s.

Definition remove_index (s : Scheduler) (task : TaskKey) : exec Scheduler :=
  match task_index_get (sc_tasks s) task with
  | Some (IsBlocked wake) =>
      match sc_block_keys s !! task with
      | Some keys =>
          blocked ← for_each_exec (λ i key, wake_index_remove i key task) (sc_blocked s) keys;
          Ret (set_blocked (set_block_keys s (delete task (sc_block_keys s))) blocked)
      | None =>
          blocked ← wake_index_remove (sc_blocked s) wake task;
          Ret (set_blocked s blocked)
      end
  | Some (IsWaiting completion) => Ret (set_waiting s (delete completion (sc_waiting s)))
  | Some (IsParked wait) =>
      parked ← park_index_remove (sc_parked s) wait task;
      Ret (set_parked s parked)
  | _ => Ret s
  end.

Definition drop_task (s : Scheduler) (task : TaskKey) : exec Scheduler :=
  s ← remove_index s task;
  Ret (set_tasks s (task_index_remove (sc_tasks s) task)).

Definition enqueue (s : Scheduler) (task : TaskKey) : exec Scheduler :=
  match task_index_get (sc_tasks s) task with
  | Some (Queued _) => Ret s
  | _ =>
      s ← remove_index s task;
      let ticket := sc_ready_ticket s in
      let s := set_ready_ticket s (ticket + 1)%N in
      let s := set_tasks s (task_index_insert (sc_tasks s) task (Queued ticket)) in
      Ret (set_sc_ready s (sc_ready s ++ [(task, ticket)]))
  end.

Definition block (w : W) (s : Scheduler) (task : TaskKey) (wake : WakeKey) : exec Scheduler :=
  if bool_decide (task_index_get (sc_tasks s) task = Some (IsBlocked wake)) then Ret s
  else
    s ← remove_index s task;
    let s := set_tasks s (task_index_insert (sc_tasks s) task (IsBlocked wake)) in
    let keys := w_block_wakes w task wake in
    blocked ← for_each_exec (λ i key, wake_index_insert i key task) (sc_blocked s) keys;
    let s := set_blocked s blocked in
    Ret (if bool_decide (1 < length keys)%nat
         then set_block_keys s (<[task := keys]> (sc_block_keys s)) else s).

Definition wait (s : Scheduler) (task : TaskKey) (completion : CompletionKey) : exec Scheduler :=
  if bool_decide (task_index_get (sc_tasks s) task = Some (IsWaiting completion)) then Ret s
  else
    s ← remove_index s task;
    let s := set_tasks s (task_index_insert (sc_tasks s) task (IsWaiting completion)) in
    Ret (set_waiting s (<[completion := task]> (sc_waiting s))).

Definition park (w : W) (s : Scheduler) (task : TaskKey) (wait : WaitSetKey) : exec Scheduler :=
  if bool_decide (task_index_get (sc_tasks s) task = Some (IsParked wait)) then Ret s
  else
    s ← remove_index s task;
    let sources := w_wait_sources w wait in
    match sources with
    | [] => enqueue s task
    | _ =>
        let s := set_tasks s (task_index_insert (sc_tasks s) task (IsParked wait)) in
        parked ← park_index_insert (sc_parked s) wait task sources;
        Ret (set_parked s parked)
    end.

Definition index_status (w : W) (s : Scheduler) (task : TaskKey) (status : TaskStatus) :
    exec Scheduler :=
  match status with
  | StatusReady => enqueue s task
  | StatusBlocked wake => block w s task wake
  | StatusWaiting completion => wait s task completion
  | StatusParked key => park w s task key
  | StatusTerminal | StatusDormant => drop_task s task
  end.

Definition refresh (w : W) (s : Scheduler) (task : TaskKey) : exec Scheduler :=
  index_status w s task (w_task_status w task).

(** The comparison of one indexed state with the world's view. *)
Definition state_matches (st : IndexedState) (status : TaskStatus) : bool :=
  match st, status with
  | Queued _, StatusReady => true
  | IsBlocked indexed, StatusBlocked actual => bool_decide (indexed = actual)
  | IsWaiting indexed, StatusWaiting actual => bool_decide (indexed = actual)
  | IsParked indexed, StatusParked actual => bool_decide (indexed = actual)
  | _, _ => false
  end.

Definition reconcile_parallel_states (w : W) (s : Scheduler) : exec (bool * Scheduler) :=
  let changed :=
    (filter (λ e, state_matches e.2 (w_task_status w e.1) = false) (task_index_iter (sc_tasks s))).*1 in
  s ← for_each_exec (refresh w) s changed;
  Ret (negb (bool_decide (changed = [])), s).

(** One waiter of a wake that the blocked index answered. *)
Definition wake_blocked (w : W) (wake : WakeKey) (s : Scheduler) (task : TaskKey) : exec Scheduler :=
  match task_index_get (sc_tasks s) task with
  | Some (IsBlocked primary) =>
      let holds :=
        bool_decide (primary = wake) ||
        match sc_block_keys s !! task with
        | Some keys => bool_decide (wake ∈ keys)
        | None => false
        end in
      if holds then
        s ← remove_index s task;
        let s := if bool_decide (w_task_status w task = StatusReady) then count_unblocked s else s in
        refresh w s task
      else Ret s
  | _ => Ret s
  end.

Definition wake_parked_task (w : W) (s : Scheduler) (task : TaskKey) : exec Scheduler :=
  match task_index_get (sc_tasks s) task with
  | Some (IsParked _) =>
      let s := if bool_decide (w_task_status w task = StatusReady) then count_unblocked s else s in
      refresh w s task
  | _ => Ret s
  end.

Definition wake_parked (w : W) (s : Scheduler) (waiters : Waiters) : exec Scheduler :=
  for_each_exec (wake_parked_task w) s (waiters_list waiters).

(** [if let Some(waiters) = self.parked.take_wake(wake) { .. }]. *)
Definition wake_parked_sets (w : W) (s : Scheduler) (wake : WakeKey) : exec Scheduler :=
  '(taken, parked) ← park_take_wake (sc_parked s) wake;
  let s := set_parked s parked in
  match taken with
  | Some waiters => wake_parked w s waiters
  | None => Ret s
  end.

Definition wake (w : W) (s : Scheduler) (key : WakeKey) : exec Scheduler :=
  '(taken, blocked) ← wake_index_take (sc_blocked s) key;
  let s := set_blocked s blocked in
  match taken with
  | None => wake_parked_sets w s key
  | Some waiters =>
      s ← for_each_exec (wake_blocked w key) s (waiters_list waiters);
      wake_parked_sets w s key
  end.

Definition complete_completion (w : W) (s : Scheduler) (completion : CompletionKey) : exec Scheduler :=
  s ←
    match sc_waiting s !! completion with
    | None => Ret s
    | Some task =>
        let s := set_waiting s (delete completion (sc_waiting s)) in
        if bool_decide (task_index_get (sc_tasks s) task = Some (IsWaiting completion))
        then refresh w (count_unblocked s) task
        else Ret s
    end;
  let '(taken, parked) := park_take_completion (sc_parked s) completion in
  let s := set_parked s parked in
  match taken with
  | Some waiters => wake_parked w s waiters
  | None => Ret s
  end.

Definition wanted (s : Scheduler) (key : CompletionKey) : bool :=
  bool_decide (is_Some (sc_waiting s !! key)) || park_has_completion (sc_parked s) key.

Fixpoint poll_loop (fuel : nat) (w : W) (s : Scheduler) : exec (W * Scheduler) :=
  match fuel with
  | O => NoFuel
  | S fuel =>
      match w_poll_host_completion w (wanted s) with
      | (None, w) => Ret (w, s)
      | (Some completion, w) => s ← complete_completion w s completion; poll_loop fuel w s
      end
  end.

Definition poll_completions (fuel : nat) (w : W) (s : Scheduler) : exec (W * Scheduler) :=
  if bool_decide (sc_waiting s = ∅) && negb (park_has_completions (sc_parked s)) then Ret (w, s)
  else poll_loop fuel w s.

(** The pops of the scheduler's own event buffer. *)
Definition take_removed (s : Scheduler) : option TaskKey * Scheduler :=
  let '(k, e) := pop_removed (sc_events s) in (k, set_events s e).
Definition take_wake (s : Scheduler) : option WakeKey * Scheduler :=
  let '(k, e) := pop_wake (sc_events s) in (k, set_events s e).
Definition take_ready (s : Scheduler) : option TaskKey * Scheduler :=
  let '(k, e) := pop_ready (sc_events s) in (k, set_events s e).

(** The three loops over the prepared buffer. *)
Definition drain_buffer (fuel : nat) (w : W) (s : Scheduler) : exec Scheduler :=
  s ← while_some fuel take_removed drop_task s;
  s ← while_some fuel take_wake (wake w) s;
  while_some fuel take_ready
    (λ s task, if sc_include_root s || negb (vm task =? w_root w)%N
               then refresh w s task else Ret s) s.

(** The loops pop at most the events of the batch, so its size bounds their
    fuel. *)
Definition consume_events (w : W) (s : Scheduler) : exec (W * Scheduler) :=
  let '(swapped, w, events) := swap_schedule_events w (sc_events s) in
  if negb swapped then Ret (w, s)
  else
    events ← prepare_drain events;
    s ← drain_buffer (S (events_size events)) w (set_events s events);
    Ret (w, s).

(** The queue loop; [park] can enqueue again, so the fuel is not the length. *)
Fixpoint next_ready (fuel : nat) (w : W) (s : Scheduler) : exec (option TaskKey * Scheduler) :=
  match fuel with
  | O => NoFuel
  | S fuel =>
      match sc_ready s with
      | [] => Ret (None, s)
      | (task, ticket) :: rest =>
          let s := set_sc_ready s rest in
          if bool_decide (task_index_get (sc_tasks s) task = Some (Queued ticket)) then
            match w_task_status w task with
            | StatusReady => Ret (Some task, s)
            | status => s ← index_status w s task status; next_ready fuel w s
            end
          else next_ready fuel w s
      end
  end.

Definition finish_terminal (w : W) (s : Scheduler) (task : TaskKey) : exec (W * Scheduler) :=
  s ← drop_task s task;
  let w := w_retire_scheduler_task w task in
  s ← wake w s (Send task);
  s ← wake w s (Done task);
  Ret (w, s).

Definition finish_slice (w : W) (s : Scheduler) (task : TaskKey) (exit : option SliceExit) :
    exec (W * Scheduler) :=
  match exit with
  | Some ExitYielded => s ← enqueue s task; Ret (w, s)
  | Some (ExitBlocked key) => s ← block w s task key; Ret (w, s)
  | Some (ExitWaiting completion) => s ← wait s task completion; Ret (w, s)
  | Some (ExitParked key) => s ← park w s task key; Ret (w, s)
  | Some ExitTerminal => finish_terminal w s task
  | None => s ← refresh w s task; Ret (w, s)
  end.

(** [world.fail_..(task); self.refresh(world, task)] for one task. *)
Definition fail_task (fail : W → TaskKey → W) (ws : W * Scheduler) (task : TaskKey) :
    exec (W * Scheduler) :=
  let w := fail ws.1 task in
  s ← refresh w ws.2 task;
  Ret (w, s).

Definition fail_every_block (w : W) (s : Scheduler) : exec (W * Scheduler) :=
  let tasks := (filter (λ e, is_stuck e.2 = true) (task_index_iter (sc_tasks s))).*1 in
  for_each_exec (fail_task w_fail_blocked_task) (w, s) tasks.

Definition fail_waiting (w : W) (s : Scheduler) : exec (W * Scheduler) :=
  let tasks :=
    key_set ((map_to_list (sc_waiting s)).*2 ++ park_tasks_with_completions (sc_parked s)) in
  let s := set_waiting s ∅ in
  let s := set_parked s (park_index_clear (sc_parked s)) in
  for_each_exec (fail_task w_fail_waiting_task) (w, s) tasks.

Definition drive_scheduler_slice (w : W) (s : Scheduler) (task : TaskKey) (extra_competition : bool) :
    option SliceExit * W * Scheduler :=
  if sc_fixed_quantum s then
    let quantum := w_snapshot_wait_quantum w task (sc_quantum s) in
    let '(exit, w) := w_drive_slice w task quantum in
    (exit, w, s)
  else
    let s := prepare_execution_poll s in
    let s := if extra_competition then set_yield s true else s in
    let limit := w_snapshot_wait_quantum w task U32_MAX in
    let '(exit, w, flag) := w_drive_slice_polled w task limit (sc_quantum s) (sc_yield s) in
    (exit, w, set_yield s flag).

Definition reset (w : W) (s : Scheduler) (include_root : bool) : exec (W * Scheduler) :=
  events ← events_clear (sc_events s);
  let s := mkScheduler (sc_mode s) (sc_quantum s) (sc_parallel_quantum s) (sc_fixed_quantum s)
    false include_root stats_default None [] 0 (task_index_clear (sc_tasks s))
    (wake_index_clear (sc_blocked s)) ∅ ∅ (park_index_clear (sc_parked s)) events in
  s ← for_each_exec (λ s e, index_status w s e.1 e.2) s (w_scheduler_seeds w include_root);
  consume_events w s.

(** One execution of the ready branch of the loop. *)
Definition run_slice (w : W) (s : Scheduler) (task : TaskKey) : exec (W * Scheduler) :=
  let s := if (vm task =? w_root w)%N then count_root_slices s else count_proc_slices s in
  let s := set_tasks s (task_index_insert (sc_tasks s) task Running) in
  let before := w_world_fuel w in
  let heap_before := w_heap_used w (vm task) in
  let '(exit, w, s) := drive_scheduler_slice w s task false in
  let retired := saturating_sub before (w_world_fuel w) in
  let w := w_note_scheduler_slice w task retired (bool_decide (is_Some exit)) heap_before in
  if bool_decide (exit = Some ExitTerminal) then
    '(w, s) ← finish_slice w s task exit; consume_events w s
  else
    '(w, s) ← consume_events w s; finish_slice w s task exit.

(** One turn of the loop: an outcome ends the run. *)
Definition run_turn (fuel : nat) (w : W) (s : Scheduler) : exec (option Outcome * W * Scheduler) :=
  '(w, s) ← consume_events w s;
  '(w, s) ← poll_completions fuel w s;
  let done :=
    match w_task_key w (w_root w) with
    | Some root => if bool_decide (w_task_status w root = StatusTerminal) then Some root else None
    | None => None
    end in
  match done with
  | Some root =>
      let s := match sc_stop s with Some _ => s | None => set_stop s (Some RootTerminal) end in
      Ret (Some (w_task_outcome w root), w, s)
  | None =>
      '(next, s) ← next_ready fuel w s;
      match next with
      | Some task => '(w, s) ← run_slice w s task; Ret (None, w, s)
      | None =>
          if negb (bool_decide (sc_waiting s = ∅)) || park_has_completions (sc_parked s) then
            match w_wait_host_completion w (wanted s) with
            | (Some completion, w) => s ← complete_completion w s completion; Ret (None, w, s)
            | (None, w) => '(w, s) ← fail_waiting w s; Ret (None, w, s)
            end
          else if existsb is_stuck (task_index_values (sc_tasks s)) then
            '(w, s) ← fail_every_block w (set_stop s (Some Deadlock)); Ret (None, w, s)
          else
            root ← of_option (w_task_key w (w_root w));
            let w := w_fail_blocked_task w root in
            s ← refresh w s root;
            Ret (None, w, set_stop s (Some Deadlock))
      end
  end.

Fixpoint run_loop (turns fuel : nat) (w : W) (s : Scheduler) : exec (Outcome * W * Scheduler) :=
  match turns with
  | O => NoFuel
  | S turns =>
      '(o, w, s) ← run_turn fuel w s;
      match o with
      | Some outcome => Ret (outcome, w, s)
      | None => run_loop turns fuel w s
      end
  end.

Definition run_deterministic_loop (turns fuel : nat) (w : W) (s : Scheduler) :
    exec (Outcome * W * Scheduler) :=
  '(w, s) ← reset w s true;
  run_loop turns fuel w s.

(** [drain_procs]: run procs until none is ready. *)
Fixpoint drain_loop (turns fuel : nat) (slices : N) (w : W) (s : Scheduler) : exec (N * W * Scheduler) :=
  match turns with
  | O => NoFuel
  | S turns =>
      '(w, s) ← consume_events w s;
      '(w, s) ← poll_completions fuel w s;
      '(next, s) ← next_ready fuel w s;
      match next with
      | None => Ret (slices, w, s)
      | Some task =>
          let s := set_tasks s (task_index_insert (sc_tasks s) task Running) in
          let '(exit, w) := w_drive_slice w task (sc_quantum s) in
          '(w, s) ←
            (if bool_decide (exit = Some ExitTerminal) then
               '(w, s) ← finish_slice w s task exit; consume_events w s
             else
               '(w, s) ← consume_events w s; finish_slice w s task exit);
          drain_loop turns fuel (slices + 1)%N w s
      end
  end.

Definition drain_procs (turns fuel : nat) (w : W) : exec (N * W * Scheduler) :=
  '(w, s) ← reset w scheduler_default false;
  drain_loop turns fuel 0 w s.

End Operations.

(** ** A table world

    A world given by tables, for evaluating the scheduler on concrete runs:
    the status of each task, the sources of each wait set, and the status
    every driven or failed task takes next. *)

Record TableWorld := mkTable {
  tw_status : list (TaskKey * TaskStatus);
  tw_sources : list (WaitSetKey * list WaitSourceKey);
  tw_next : TaskStatus;
  tw_events : ScheduleEvents
}.

Definition table_find {K A} `{EqDecision K} (d : A) (l : list (K * A)) (k : K) : A :=
  default d (snd ∘ snd <$> list_find (λ e, e.1 = k) l).

Definition table_fail (w : TableWorld) (t : TaskKey) : TableWorld :=
  mkTable ((t, tw_next w) :: tw_status w) (tw_sources w) (tw_next w) (tw_events w).

#[export] Instance table_world : WorldOps TableWorld N := {|
  w_root _ := 0%N;
  w_task_key _ v := Some (mkTaskKey v 0);
  w_task_status w t := table_find StatusDormant (tw_status w) t;
  w_task_outcome _ t := vm t;
  w_block_wakes _ _ k := [k];
  w_wait_sources w p := table_find [] (tw_sources w) p;
  w_scheduler_seeds w _ := tw_status w;
  w_schedule_events w := tw_events w;
  w_set_schedule_events w e := mkTable (tw_status w) (tw_sources w) (tw_next w) e;
  w_snapshot_wait_quantum _ _ q := q;
  w_drive_slice w t _ := (None, table_fail w t);
  w_drive_slice_polled w t _ _ y := (None, table_fail w t, y);
  w_world_fuel _ := 0%N;
  w_heap_used _ _ := 0%N;
  w_note_scheduler_slice w _ _ _ _ := w;
  w_poll_host_completion w _ := (None, w);
  w_wait_host_completion w _ := (None, w);
  w_retire_scheduler_task w _ := w;
  w_fail_blocked_task := table_fail;
  w_fail_waiting_task := table_fail
|}.

Module Demo.

Definition a : TaskKey := mkTaskKey 1 0.
Definition b : TaskKey := mkTaskKey 2 0.
Definition blocked_b : TableWorld :=
  mkTable [(b, StatusBlocked (Send a))] [] StatusTerminal events_default.
Definition ready_b : TableWorld :=
  mkTable [(b, StatusReady)] [] StatusTerminal events_default.
Definition parked_a : WaitSetKey := mkWaitSetKey a 7.
Definition wait_world : TableWorld :=
  mkTable [(a, StatusParked parked_a); (b, StatusWaiting (mkCompletionKey b 3))]
    [(parked_a, [SourceWake (Receive a)])] StatusTerminal events_default.

End Demo.

Definition demo_new : Scheduler := new_with_quanta Deterministic 1 1 false.

(** The schedulers in which [b] is queued, and blocked on [a]'s mailbox. *)
Definition demo_queued : Scheduler :=
  match enqueue demo_new Demo.b with Ret s => s | _ => demo_new end.
Definition demo_blocked : Scheduler :=
  match block Demo.blocked_b demo_new Demo.b (Send Demo.a) with Ret s => s | _ => demo_new end.

