(* ===== verification/SchedulerSafe.v ===== *)
(** * Safety of the scheduler

    Every operation of the scheduler returns and keeps its structural
    invariant, whatever the world answers, and the ready queue is first in,
    first out.  The single-task lemmas state which index entries an operation
    touches ([touches]); the composite operations reuse them. *)

From stdpp Require Import base numbers gmap list.
From S2P Require Import Prelude Ordered Schedule Indexes Scheduler.

(** ** The structural invariant

    The indexes are well formed, the queue's tickets are strictly ascending
    and below the next ticket, and a task marked queued has its entry. *)

Abbreviation state_of s t := (task_index_get (sc_tasks s) t).

Record sched_ok (s : Scheduler) : Prop := {
  so_tasks : task_index_ok (sc_tasks s);
  so_blocked : wake_index_ok (sc_blocked s);
  so_parked : park_ok (sc_parked s);
  so_bound t n : (t, n) ∈ sc_ready s → (n < sc_ready_ticket s)%N;
  so_sorted : ascending (sc_ready s).*2;
  so_queued t n : state_of s t = Some (Queued n) → (t, n) ∈ sc_ready s
}.

(** The invariant while the entry of [t] is off the queue. *)
Record sched_pre (t : TaskKey) (s : Scheduler) : Prop := {
  sp_tasks : task_index_ok (sc_tasks s);
  sp_blocked : wake_index_ok (sc_blocked s);
  sp_parked : park_ok (sc_parked s);
  sp_bound t' n : (t', n) ∈ sc_ready s → (n < sc_ready_ticket s)%N;
  sp_sorted : ascending (sc_ready s).*2;
  sp_queued t' n : t' ≠ t → state_of s t' = Some (Queued n) → (t', n) ∈ sc_ready s
}.

Lemma sched_ok_pre t s : sched_ok s → sched_pre t s.
Proof. intros []. by split; eauto. Qed.

(** [s'] differs from [s] in the indexing of the task [t] only. *)
Record touches (t : TaskKey) (s s' : Scheduler) : Prop := {
  tc_get t' : t' ≠ t → state_of s' t' = state_of s t' ∨ state_of s' t' = None;
  tc_slot t' : task_slot t' ≠ task_slot t → state_of s' t' = state_of s t';
  tc_waits k t' : t' ≠ t → (waits (sc_blocked s') k t' ↔ waits (sc_blocked s) k t');
  tc_keys t' : t' ≠ t → sc_block_keys s' !! t' = sc_block_keys s !! t';
  tc_waiting c : sc_waiting s' !! c = sc_waiting s !! c ∨
    state_of s t = Some (IsWaiting c) ∨ state_of s' t = Some (IsWaiting c);
  tc_source src t' : t' ≠ t →
    (source_waits (sc_parked s') src t' ↔ source_waits (sc_parked s) src t');
  tc_sets p : pi_sets (sc_parked s') !! p = pi_sets (sc_parked s) !! p ∨
    state_of s t = Some (IsParked p) ∨ state_of s' t = Some (IsParked p);
  tc_events : sc_events s' = sc_events s;
  tc_root : sc_include_root s' = sc_include_root s
}.

Definition with_index (s : Scheduler) b keys wt p : Scheduler :=
  set_parked (set_waiting (set_block_keys (set_blocked s b) keys) wt) p.

(** The outcome of [remove_index]. *)
Record removed_index (t : TaskKey) (s : Scheduler) (b : WakeIndex)
    (keys : gmap TaskKey (list WakeKey)) (wt : gmap CompletionKey TaskKey) (p : ParkIndex) : Prop := {
  ri_blocked : wake_index_ok b;
  ri_parked : park_ok p;
  ri_waits k t' : t' ≠ t → (waits b k t' ↔ waits (sc_blocked s) k t');
  ri_keys t' : t' ≠ t → keys !! t' = sc_block_keys s !! t';
  ri_own_keys : keys !! t = match state_of s t with
                            | Some (IsBlocked _) => None | _ => sc_block_keys s !! t end;
  ri_waiting c : wt !! c = sc_waiting s !! c ∨ state_of s t = Some (IsWaiting c);
  ri_source src t' : t' ≠ t → (source_waits p src t' ↔ source_waits (sc_parked s) src t');
  ri_sets ws : pi_sets p !! ws = pi_sets (sc_parked s) !! ws ∨ state_of s t = Some (IsParked ws)
}.

Lemma wake_index_remove_all task keys : ∀ i,
  wake_index_ok i →
  ∃ i', for_each_exec (λ i key, wake_index_remove i key task) i keys = Ret i' ∧ wake_index_ok i' ∧
    ∀ w t, waits i' w t ↔ waits i w t ∧ ¬ (w ∈ keys ∧ t = task).
Proof.
  induction keys as [|k keys IH]; intros i Hok; simpl.
  - exists i. split_and!; [done..|]. intros w t. rewrite elem_of_nil. tauto.
  - destruct (wake_index_remove_spec i k task Hok) as (i1 & -> & Hok1 & Hr1). simpl.
    destruct (IH i1 Hok1) as (i2 & -> & Hok2 & Hr2). exists i2. split_and!; [done..|].
    intros w t. rewrite Hr2, Hr1, elem_of_cons. tauto.
Qed.

Lemma wake_index_insert_all task keys : ∀ i,
  wake_index_ok i →
  ∃ i', for_each_exec (λ i key, wake_index_insert i key task) i keys = Ret i' ∧ wake_index_ok i' ∧
    ∀ w t, waits i' w t ↔ (w ∈ keys ∧ t = task) ∨ waits i w t.
Proof.
  induction keys as [|k keys IH]; intros i Hok; simpl.
  - exists i. split_and!; [done..|]. intros w t. rewrite elem_of_nil. tauto.
  - destruct (wake_index_insert_spec i k task Hok) as (i1 & -> & Hok1 & Hr1). simpl.
    destruct (IH i1 Hok1) as (i2 & -> & Hok2 & Hr2). exists i2. split_and!; [done..|].
    intros w t. rewrite Hr2, Hr1, elem_of_cons. tauto.
Qed.

Lemma scheduler_eta s :
  with_index s (sc_blocked s) (sc_block_keys s) (sc_waiting s) (sc_parked s) = s.
Proof. by destruct s. Qed.

Lemma remove_index_spec s t :
  sched_pre t s →
  ∃ b keys wt p, remove_index s t = Ret (with_index s b keys wt p) ∧ removed_index t s b keys wt p.
Proof.
  intros [Ht Hb Hp Hbound Hsort Hq]. unfold remove_index.
  destruct (state_of s t) as [[n| |k|c|ws]|] eqn:E.
  3:{ destruct (sc_block_keys s !! t) as [keys|] eqn:Ek.
      - destruct (wake_index_remove_all t keys _ Hb) as (b & -> & Hb' & Hr).
        exists b, (delete t (sc_block_keys s)), (sc_waiting s), (sc_parked s).
        split; [by destruct s|]. split; rewrite ?E; try done; [..|by left|by left].
        + intros k' t' Hne. rewrite Hr. naive_solver.
        + intros t' Hne. by rewrite lookup_delete_ne.
        + by rewrite lookup_delete_eq.
      - destruct (wake_index_remove_spec _ k t Hb) as (b & -> & Hb' & Hr).
        exists b, (sc_block_keys s), (sc_waiting s), (sc_parked s).
        split; [by destruct s|]. split; rewrite ?E, ?Ek; try done; [|by left|by left].
        intros k' t' Hne. rewrite Hr. naive_solver. }
  3:{ exists (sc_blocked s), (sc_block_keys s), (delete c (sc_waiting s)), (sc_parked s).
      split; [by destruct s|]. split; rewrite ?E; try done; [|by left].
      intros c'. destruct (decide (c = c')) as [<-|]; [by right|left]. by rewrite lookup_delete_ne. }
  3:{ destruct (park_index_remove_spec _ ws t Hp) as (p & -> & Hp' & Hs & Hr).
      exists (sc_blocked s), (sc_block_keys s), (sc_waiting s), p.
      split; [by destruct s|]. split; rewrite ?E; try done; [by left|..].
      - intros src t' Hne. rewrite Hr. naive_solver.
      - intros ws'. rewrite Hs. destruct (decide (ws = ws')) as [<-|]; [by right|left].
        by rewrite lookup_delete_ne. }
  all: exists (sc_blocked s), (sc_block_keys s), (sc_waiting s), (sc_parked s);
    split; [by destruct s|]; split; rewrite ?E; try done; by left.
Qed.

(** *** Reinstalling one task *)

Definition keys_left (s : Scheduler) (t : TaskKey) : option (list WakeKey) :=
  match state_of s t with
  | Some (IsBlocked _) => None
  | _ => sc_block_keys s !! t
  end.

Lemma install_ok s t st b keys wt p :
  sched_pre t s → wake_index_ok b → park_ok p → is_queued st = false →
  sched_ok (with_index (set_tasks s (task_index_insert (sc_tasks s) t st)) b keys wt p).
Proof.
  intros [Ht Hb Hp Hbound Hsort Hq] Hb' Hp' Hst. split; simpl; auto with loom.
  intros t' n. rewrite task_index_get_insert. destruct (decide (task_slot t' = task_slot t)).
  - case_decide; [|done]. intros [= ->]. done.
  - apply Hq. by intros ->.
Qed.

(** A state in which the task index changed at [t] and the other indexes
    changed for [t] only. *)
Lemma touches_insert t s st b keys wt p :
  (∀ k t', t' ≠ t → (waits b k t' ↔ waits (sc_blocked s) k t')) →
  (∀ t', t' ≠ t → keys !! t' = sc_block_keys s !! t') →
  (∀ c, wt !! c = sc_waiting s !! c ∨ state_of s t = Some (IsWaiting c) ∨ st = IsWaiting c) →
  (∀ src t', t' ≠ t → (source_waits p src t' ↔ source_waits (sc_parked s) src t')) →
  (∀ ws, pi_sets p !! ws = pi_sets (sc_parked s) !! ws ∨ state_of s t = Some (IsParked ws) ∨
     st = IsParked ws) →
  touches t s (with_index (set_tasks s (task_index_insert (sc_tasks s) t st)) b keys wt p).
Proof.
  intros H1 H2 H3 H4 H5. split; simpl; try done.
  - intros t' Hne. rewrite task_index_get_insert. destruct (decide (task_slot t' = task_slot t)).
    + rewrite decide_False by done. by right.
    + by left.
  - intros t' Hne. rewrite task_index_get_insert. by rewrite decide_False.
  - intros c. rewrite task_index_get_insert, !decide_True by done. naive_solver.
  - intros ws. rewrite task_index_get_insert, !decide_True by done. naive_solver.
Qed.

Lemma state_of_insert s t st b keys wt p :
  state_of (with_index (set_tasks s (task_index_insert (sc_tasks s) t st)) b keys wt p) t = Some st.
Proof. simpl. by rewrite task_index_get_insert, !decide_True. Qed.

Lemma drop_task_spec s t :
  sched_pre t s →
  ∃ s', drop_task s t = Ret s' ∧ sched_ok s' ∧ touches t s s' ∧ state_of s' t = None ∧
    sc_block_keys s' !! t = keys_left s t ∧
    (∀ t', t' ≠ t → state_of s' t' = state_of s t') ∧ sc_ready s' = sc_ready s.
Proof.
  intros Hok. destruct (remove_index_spec s t Hok) as (b & keys & wt & p & E & [Hb Hp Hw Hk Hk' Hwt Hs Hss]).
  pose proof Hok as [Ht _ _ Hbound Hsort Hq].
  unfold drop_task. rewrite E. simpl. eexists. split; [done|].
  split_and!; simpl; [split; simpl; auto with loom|split; simpl; try done| |done| |done].
  - intros t' n. rewrite task_index_get_remove. case_decide; [done|]. by apply Hq.
  - intros t' Hne. rewrite task_index_get_remove. rewrite decide_False by done. by left.
  - intros t' Hne. rewrite task_index_get_remove. rewrite decide_False; [done|]. by intros ->.
  - intros c. destruct (Hwt c); naive_solver.
  - intros ws. destruct (Hss ws); naive_solver.
  - rewrite task_index_get_remove. by rewrite decide_True.
  - intros t' Hne. rewrite task_index_get_remove. by rewrite decide_False.
Qed.

Lemma ascending_snoc {A} `{Ordered A} (l : list A) x :
  ascending l → Forall (λ y, key_lt y x) l → ascending (l ++ [x]).
Proof.
  induction 1 as [|y l Hy Hl IH]; intros Hx; simpl; [repeat constructor|].
  apply Forall_cons in Hx as [Hyx Hx]. constructor; [|by apply IH].
  apply Forall_app. split; [done|]. by constructor.
Qed.

Lemma enqueue_spec s t :
  sched_ok s →
  ∃ s', enqueue s t = Ret s' ∧ sched_ok s' ∧ touches t s s' ∧
    (∃ n, state_of s' t = Some (Queued n)) ∧ sc_block_keys s' !! t = keys_left s t ∧
    (s' = s ∨ ∃ n, sc_ready s' = sc_ready s ++ [(t, n)]).
Proof.
  intros Hok. unfold enqueue.
  destruct (remove_index_spec s t (sched_ok_pre t s Hok)) as (b & keys & wt & p & E & [Hb Hp Hw Hk Hk' Hwt Hs Hss]).
  assert ((∃ n, state_of s t = Some (Queued n)) ∨ ∀ n, state_of s t ≠ Some (Queued n)) as [[n Hn]|Hnq].
  { destruct (state_of s t) as [[]|]; eauto. }
  { rewrite Hn. exists s. split_and!; [done|done| |by exists n| |by left].
    - split; try done; intros; by left.
    - unfold keys_left. by rewrite Hn. }
  assert (∀ s1, match state_of s t with Some (Queued _) => Ret s | _ => s1 end = s1) as Hm.
  { intros s1. destruct (state_of s t) as [[]|]; naive_solver. }
  rewrite Hm, E. simpl. pose proof Hok as [Ht _ _ Hbound Hsort Hq].
  set (tk := sc_ready_ticket s).
  set (s1 := with_index (set_tasks s (task_index_insert (sc_tasks s) t (Queued tk))) b keys wt p).
  assert (touches t s s1) as Htc.
  { apply touches_insert; naive_solver. }
  eexists. split; [done|]. split_and!.
  - split; simpl; auto with loom.
    + intros t' n [Hin|Hin%list_elem_of_singleton]%elem_of_app; [apply Hbound in Hin|simplify_eq]; lia.
    + rewrite fmap_app. apply ascending_snoc; [done|]. apply list.Forall_forall.
      intros n ([t' n'] & -> & Hin)%list_elem_of_fmap. apply Hbound in Hin. simpl. by apply N.compare_lt_iff.
    + intros t' n. rewrite task_index_get_insert, elem_of_app.
      destruct (decide (task_slot t' = task_slot t)); [|intros ?%Hq; by left].
      case_decide; [|done]. subst. intros [= ->]. right. by left.
  - destruct Htc. by split.
  - simpl. rewrite task_index_get_insert, !decide_True by done. eauto.
  - done.
  - right. by exists tk.
Qed.

Lemma touches_refl t s : touches t s s.
Proof. split; try done; by left. Qed.

Lemma wait_spec s t c :
  sched_pre t s → state_of s t ≠ Some (IsWaiting c) →
  ∃ s', wait s t c = Ret s' ∧ sched_ok s' ∧ touches t s s' ∧
    state_of s' t = Some (IsWaiting c) ∧ sc_block_keys s' !! t = keys_left s t ∧
    sc_waiting s' !! c = Some t ∧ sc_ready s' = sc_ready s.
Proof.
  intros Hok Hne. destruct (remove_index_spec s t Hok) as (b & keys & wt & p & E & [Hb Hp Hw Hk Hk' Hwt Hs Hss]).
  unfold wait. rewrite bool_decide_eq_false_2 by done. rewrite E. simpl.
  exists (with_index (set_tasks s (task_index_insert (sc_tasks s) t (IsWaiting c)))
    b keys (<[c:=t]> wt) p).
  split_and!; [done|by apply install_ok| |by apply state_of_insert|done|apply lookup_insert_eq|done].
  apply touches_insert; [done..| |done|naive_solver].
  intros c'. destruct (decide (c = c')) as [<-|]; [by right; right|].
  rewrite lookup_insert_ne by done. destruct (Hwt c'); naive_solver.
Qed.

Section Specs.
Context {W Outcome : Type} `{WorldOps W Outcome}.

Lemma block_spec (w : W) s t k :
  sched_pre t s → state_of s t ≠ Some (IsBlocked k) →
  ∃ s', block w s t k = Ret s' ∧ sched_ok s' ∧ touches t s s' ∧
    state_of s' t = Some (IsBlocked k) ∧
    sc_block_keys s' !! t = (if bool_decide (1 < length (w_block_wakes w t k))%nat
                             then Some (w_block_wakes w t k) else keys_left s t) ∧
    (∀ k', k' ∈ w_block_wakes w t k → waits (sc_blocked s') k' t) ∧ sc_ready s' = sc_ready s.
Proof.
  intros Hok Hne. destruct (remove_index_spec s t Hok) as (b & keys & wt & p & E & [Hb Hp Hw Hk Hk' Hwt Hs Hss]).
  unfold block. rewrite bool_decide_eq_false_2 by done. rewrite E. simpl.
  destruct (wake_index_insert_all t (w_block_wakes w t k) b Hb) as (b' & -> & Hb' & Hr). simpl.
  set (keys' := if bool_decide (1 < length (w_block_wakes w t k))%nat
                then <[t := w_block_wakes w t k]> keys else keys).
  exists (with_index (set_tasks s (task_index_insert (sc_tasks s) t (IsBlocked k))) b' keys' wt p).
  split_and!; [|by apply install_ok| |by apply state_of_insert| | |done].
  - unfold keys'. by case_bool_decide.
  - apply touches_insert; [..|naive_solver|done|naive_solver].
    + intros k' t' Hn. rewrite Hr, <- Hw by done. naive_solver.
    + intros t' Hn. unfold keys'. case_bool_decide; [rewrite lookup_insert_ne by done|]; by apply Hk.
  - simpl. unfold keys'. case_bool_decide; [apply lookup_insert_eq|done].
  - simpl. intros k' Hin. apply Hr. by left.
Qed.

(** A parked task is indexed under its sources, or queued when it has none. *)
Lemma park_spec (w : W) s t ws :
  sched_pre t s → state_of s t ≠ Some (IsParked ws) →
  (w_wait_sources w ws = [] → sched_ok s) →
  ∃ s', park w s t ws = Ret s' ∧ sched_ok s' ∧ touches t s s' ∧
    sc_block_keys s' !! t = keys_left s t ∧
    (w_wait_sources w ws = [] ∧ (∃ n, state_of s' t = Some (Queued n)) ∨
     w_wait_sources w ws ≠ [] ∧ state_of s' t = Some (IsParked ws) ∧
     pi_sets (sc_parked s') !! ws = Some (w_wait_sources w ws) ∧
     (∀ src, src ∈ w_wait_sources w ws → source_waits (sc_parked s') src t) ∧
     sc_ready s' = sc_ready s).
Proof.
  intros Hok Hne Hfull. destruct (remove_index_spec s t Hok) as (b & keys & wt & p & E & Hri).
  unfold park. rewrite bool_decide_eq_false_2 by done. rewrite E. cbn [mbind exec_bind].
  pose proof Hri as [Hb Hp Hw Hk Hk' Hwt Hs Hss].
  destruct (w_wait_sources w ws) as [|src0 srcs] eqn:Hsrc.
  - assert (sched_ok (with_index s b keys wt p)) as Hok1.
    { destruct (Hfull eq_refl). by split. }
    destruct (enqueue_spec _ t Hok1) as (s' & -> & Hok' & [] & Hq & Hk2 & _).
    exists s'. split_and!; [done|done| | |by left].
    + split; simpl in *; try done.
      * intros k t' Hn. rewrite tc_waits0 by done. by apply Hw.
      * intros t' Hn. rewrite tc_keys0 by done. by apply Hk.
      * intros c. destruct (tc_waiting0 c) as [->|[|]]; destruct (Hwt c); naive_solver.
      * intros src t' Hn. rewrite tc_source0 by done. by apply Hs.
      * intros q. destruct (tc_sets0 q) as [->|[|]]; destruct (Hss q); naive_solver.
    + rewrite Hk2. unfold keys_left in *. simpl. rewrite Hk'. by destruct (state_of s t) as [[]|].
  - destruct (park_index_insert_spec p ws t (src0 :: srcs) Hp) as (p' & Ep & Hp' & Hset & Hr).
    cbn [sc_parked set_tasks with_index set_parked set_waiting set_block_keys set_blocked].
    rewrite Ep. simpl.
    exists (with_index (set_tasks s (task_index_insert (sc_tasks s) t (IsParked ws))) b keys wt p').
    split_and!; [done|by apply install_ok| |done|right].
    + apply touches_insert; [done|done|naive_solver|..].
      * intros src t' Hn. rewrite Hr, <- Hs by done. naive_solver.
      * intros q. rewrite Hset. destruct (decide (ws = q)) as [<-|]; [by right; right|].
        rewrite lookup_insert_ne by done. destruct (Hss q); naive_solver.
    + split_and!; [done|by apply state_of_insert| | |done].
      * simpl. rewrite Hset. apply lookup_insert_eq.
      * intros src Hin. simpl. apply Hr. by left.
Qed.

(** The indexed state the world's view asks for. *)
Definition synced (w : W) (s : Scheduler) (t : TaskKey) (status : TaskStatus) : Prop :=
  match status with
  | StatusReady => ∃ n, state_of s t = Some (Queued n)
  | StatusBlocked k => state_of s t = Some (IsBlocked k)
  | StatusWaiting c => state_of s t = Some (IsWaiting c)
  | StatusParked p => state_of s t = Some (IsParked p) ∨
      w_wait_sources w p = [] ∧ ∃ n, state_of s t = Some (Queued n)
  | StatusTerminal | StatusDormant => state_of s t = None
  end.

(** Reindexing one task needs its queue entry only when it stays queued. *)
Lemma index_status_spec (w : W) s t st :
  sched_pre t s →
  (∀ p, st = StatusParked p → w_wait_sources w p = [] → sched_ok s) →
  (st = StatusReady → sched_ok s) →
  ((∀ n, state_of s t ≠ Some (Queued n)) → sched_ok s) →
  ∃ s', index_status w s t st = Ret s' ∧ sched_ok s' ∧ touches t s s' ∧ synced w s' t st ∧
    (st ≠ StatusReady → (∀ p, st = StatusParked p → w_wait_sources w p ≠ []) →
     sc_ready s' = sc_ready s).
Proof.
  intros Hok Hpark Hready Hfull. destruct st as [|k|c|p| |]; simpl.
  - destruct (enqueue_spec s t (Hready eq_refl)) as (s' & ? & ? & ? & ? & _). exists s'. naive_solver.
  - destruct (decide (state_of s t = Some (IsBlocked k))) as [E|E].
    + exists s. unfold block. rewrite bool_decide_eq_true_2 by done.
      split_and!; [done|apply Hfull; congruence|apply touches_refl|done..].
    + destruct (block_spec w s t k Hok E) as (s' & ? & ? & ? & ? & _ & _ & ?). exists s'. naive_solver.
  - destruct (decide (state_of s t = Some (IsWaiting c))) as [E|E].
    + exists s. unfold wait. rewrite bool_decide_eq_true_2 by done.
      split_and!; [done|apply Hfull; congruence|apply touches_refl|done..].
    + destruct (wait_spec s t c Hok E) as (s' & ? & ? & ? & ? & _ & _ & ?). exists s'. naive_solver.
  - destruct (decide (state_of s t = Some (IsParked p))) as [E|E].
    + exists s. unfold park. rewrite bool_decide_eq_true_2 by done.
      split_and!; [done|apply Hfull; congruence|apply touches_refl|by left|done].
    + destruct (park_spec w s t p Hok E (Hpark p eq_refl)) as (s' & ? & ? & ? & _ & Hs).
      exists s'. split_and!; [done..|naive_solver|]. intros _ Hn. specialize (Hn p eq_refl). naive_solver.
  - destruct (drop_task_spec s t Hok) as (s' & ? & ? & ? & ? & _ & _ & ?). exists s'. naive_solver.
  - destruct (drop_task_spec s t Hok) as (s' & ? & ? & ? & ? & _ & _ & ?). exists s'. naive_solver.
Qed.

Lemma index_status_safe (w : W) s t st :
  sched_ok s →
  ∃ s', index_status w s t st = Ret s' ∧ sched_ok s' ∧ touches t s s' ∧ synced w s' t st.
Proof.
  intros Hok. destruct (index_status_spec w s t st) as (s' & ? & ? & ? & ? & _); eauto using sched_ok_pre.
Qed.


(** *** Composite operations *)

(** The operation returns, keeps the invariant and leaves the event buffer
    and the root flag alone. *)
Definition returns_ok (s : Scheduler) (r : exec Scheduler) : Prop :=
  ∃ s', r = Ret s' ∧ sched_ok s' ∧ sc_events s' = sc_events s ∧
    sc_include_root s' = sc_include_root s.

Lemma returns_ok_ret s s' :
  sched_ok s' → sc_events s' = sc_events s → sc_include_root s' = sc_include_root s →
  returns_ok s (Ret s').
Proof. unfold returns_ok. eauto. Qed.

Lemma returns_ok_bind s r f :
  returns_ok s r → (∀ s', sched_ok s' → returns_ok s' (f s')) → returns_ok s (r ≫= f).
Proof.
  intros (s1 & -> & Hok & He & Hi) Hf. destruct (Hf s1 Hok) as (s2 & E & ? & ? & ?).
  exists s2. simpl. split_and!; [done..|congruence|congruence].
Qed.



Lemma for_each_safe {A} (f : Scheduler → A → exec Scheduler) l : ∀ s,
  (∀ s a, sched_ok s → returns_ok s (f s a)) → sched_ok s → returns_ok s (for_each_exec f s l).
Proof.
  induction l as [|a l IH]; intros s Hf Hok; simpl; [by apply returns_ok_ret|].
  apply returns_ok_bind; [by apply Hf|]. intros. by apply IH.
Qed.

Lemma index_status_ok (w : W) s t st : sched_ok s → returns_ok s (index_status w s t st).
Proof.
  intros Hok. destruct (index_status_safe w s t st Hok) as (s' & ? & ? & [] & _).
  by exists s'.
Qed.

Lemma refresh_ok (w : W) s t : sched_ok s → returns_ok s (refresh w s t).
Proof. apply index_status_ok. Qed.

















Lemma reconcile_ok (w : W) s :
  sched_ok s → ∃ b s', reconcile_parallel_states w s = Ret (b, s') ∧ sched_ok s'.
Proof.
  intros Hok. unfold reconcile_parallel_states.
  destruct (for_each_safe (refresh w)
    ((filter (λ e, state_matches e.2 (w_task_status w e.1) = false) (task_index_iter (sc_tasks s))).*1) s)
    as (s' & -> & ? & _); [intros; by apply refresh_ok|done|].
  eexists _, s'. by split.
Qed.

(** *** Draining the events *)

Section WhileSome.
Context {K : Type} (getl : ScheduleEvents → list K) (setl : ScheduleEvents → list K → ScheduleEvents).
Context (pop : ScheduleEvents → option K * ScheduleEvents) (body : Scheduler → K → exec Scheduler).
Hypothesis get_set : ∀ e l, getl (setl e l) = l.
Hypothesis set_set : ∀ e l l', setl (setl e l) l' = setl e l'.
Hypothesis pop_def : ∀ e, pop e = ((vec_pop (getl e)).1, setl e (vec_pop (getl e)).2).
Hypothesis body_ok : ∀ s k, sched_ok s → returns_ok s (body s k).


End WhileSome.









Lemma new_with_quanta_ok mode q pq fixed :
  sched_ok (new_with_quanta mode q pq fixed) ∧ events_fresh (sc_events (new_with_quanta mode q pq fixed)).
Proof.
  split; [|apply events_default_fresh].
  split; simpl; try done; [by intros ? ? ?%not_elem_of_nil|constructor].
Qed.


(** *** The ready queue is first in, first out *)

Lemma state_of_slot s t t' st st' :
  state_of s t = Some st → state_of s t' = Some st' → task_slot t = task_slot t' → t = t'.
Proof.
  unfold task_index_get. intros H1 H2 E. rewrite E in H1.
  destruct (ti_slots (sc_tasks s) !! task_slot t') as [[x|]|]; [|done..].
  repeat case_bool_decide; congruence.
Qed.

(** Reindexing a task that holds its slot leaves every other task's state. *)
Lemma touches_others t s s' st :
  touches t s s' → state_of s t = Some st → ∀ t', t' ≠ t → state_of s' t' = state_of s t'.
Proof.
  intros Htc Hst t' Hne. destruct (decide (task_slot t' = task_slot t)) as [E|E].
  - destruct (state_of s t') eqn:E'.
    + exfalso. by apply Hne, (state_of_slot s t' t _ _ E' Hst).
    + destruct (tc_get _ _ _ Htc t' Hne) as [->| ->]; done.
  - by apply Htc.
Qed.

(** What [next_ready] promises about its answer. *)
Definition ready_answer (w : W) (s : Scheduler) (o : option TaskKey) (s' : Scheduler) : Prop :=
  match o with
  | None => sched_ok s' ∧ sc_ready s' = [] ∧
      (∀ t n, state_of s t = Some (Queued n) → w_task_status w t ≠ StatusReady)
  | Some t => w_task_status w t = StatusReady ∧ sched_pre t s' ∧
      ∃ n, state_of s t = Some (Queued n) ∧
        (∀ t' n', state_of s t' = Some (Queued n') → (n' < n)%N → w_task_status w t' ≠ StatusReady)
  end.

Lemma ready_answer_mono (w : W) s s2 o s' :
  (∀ t n, state_of s2 t = Some (Queued n) → state_of s t = Some (Queued n)) →
  (∀ t n, state_of s t = Some (Queued n) → w_task_status w t = StatusReady →
     state_of s2 t = Some (Queued n)) →
  ready_answer w s2 o s' → ready_answer w s o s'.
Proof. intros H1 H2. destruct o as [t|]; simpl; naive_solver. Qed.

(** Taking the front entry off the queue. *)
Lemma pop_front_ok s t n rest :
  sched_ok s → sc_ready s = (t, n) :: rest →
  sched_pre t (set_sc_ready s rest) ∧
  (state_of s t ≠ Some (Queued n) → sched_ok (set_sc_ready s rest)) ∧
  (∀ t' n', state_of s t' = Some (Queued n') → ¬ (n' < n)%N).
Proof.
  intros [H1 H2 H3 H4 H5 H6] Er. rewrite Er in *. apply ascending_cons_inv in H5 as [H5' H5].
  assert (∀ t' n', (t', n') ∈ rest → (n' < sc_ready_ticket s)%N) by (intros; eapply H4; by right).
  assert (∀ t' n', state_of s t' = Some (Queued n') → (t', n') ≠ (t, n) → (t', n') ∈ rest) as H7.
  { intros t' n' Hq Hne. apply H6, elem_of_cons in Hq. naive_solver. }
  split_and!.
  - split; simpl; auto. intros t' n' Hne Hq. apply H7; [done|]. congruence.
  - intros Hn; split; simpl; auto. intros t' n' Hq. apply H7; [done|]. congruence.
  - intros t' n' Hq Hlt. destruct (decide ((t', n') = (t, n))) as [?|Hne]; [simplify_eq; lia|].
    assert (n' ∈ rest.*2) as Hin by (apply list_elem_of_fmap; exists (t', n'); auto).
    assert (n < n')%N by (apply N.compare_lt_iff; exact (proj1 (list.Forall_forall _ _) H5' _ Hin)). lia.
Qed.

Lemma next_ready_spec (w : W) fuel : ∀ s,
  sched_ok s → (∀ t p, w_task_status w t = StatusParked p → w_wait_sources w p ≠ []) →
  (length (sc_ready s) < fuel)%nat →
  ∃ o s', next_ready fuel w s = Ret (o, s') ∧ ready_answer w s o s'.
Proof.
  induction fuel as [|fuel IH]; intros s Hok Hlaw Hf; [lia|].
  cbn [next_ready]. destruct (sc_ready s) as [|[t n] rest] eqn:Er.
  { exists None, s. split; [done|]. split_and!; [done..|]. intros t n Hq%(so_queued _ Hok).
    rewrite Er in Hq. by apply not_elem_of_nil in Hq. }
  destruct (pop_front_ok s t n rest Hok Er) as (Hpre1 & Hok1 & Hfirst).
  set (s1 := set_sc_ready s rest) in *. simpl in Hf.
  case_bool_decide as Hst; cbn [sc_tasks s1 set_sc_ready] in Hst.
  2:{ destruct (IH s1 (Hok1 Hst) Hlaw) as (o & s' & E' & Ho); [simpl; lia|].
      exists o, s'. split; [done|]. by apply (ready_answer_mono w s s1). }
  destruct (decide (w_task_status w t = StatusReady)) as [Hr|Hr].
  { rewrite Hr. exists (Some t), s1. split; [done|]. split_and!; [done..|]. exists n.
    split; [done|]. intros t' n' Hq Hlt. by destruct (Hfirst t' n' Hq). }
  destruct (index_status_spec w s1 t (w_task_status w t)) as (s2 & E2 & Hok2 & Htc & Hsy & Hrd).
  { done. }
  { intros p Hp Hs. by destruct (Hlaw _ _ Hp). }
  { done. }
  { intros Hn. by destruct (Hn n). }
  destruct (IH s2 Hok2 Hlaw) as (o & s' & E' & Ho).
  { rewrite Hrd; [simpl; lia|done|by intros; eapply Hlaw]. }
  exists o, s'. split.
  { destruct (w_task_status w t); try done; rewrite E2; exact E'. }
  pose proof (touches_others _ _ _ _ Htc Hst) as Hother.
  assert (∀ m, state_of s2 t ≠ Some (Queued m)) as Hnq.
  { intros m Hm. destruct (w_task_status w t) as [|k|c|p| |] eqn:Es; simpl in Hsy; try congruence.
    destruct Hsy as [?|[Hs _]]; [congruence|]. by destruct (Hlaw _ _ Es). }
  apply (ready_answer_mono w s s2); [..|done].
  - intros t' m Hm. destruct (decide (t' = t)) as [->|]; [by destruct (Hnq m)|].
    by rewrite Hother in Hm.
  - intros t' m Hm Hrt. rewrite Hother; [done|]. by intros ->.
Qed.

(** The ready queue is first in, first out and [next_ready] ends: with
    fuel for the queue's length it returns; an answer is a ready task that was
    queued, and every task queued earlier is not ready any more; without an
    answer the queue is empty and no queued task is ready.  A world reports a
    parked wait only while the wait has sources. *)
Theorem next_ready_fifo (w : W) s :
  sched_ok s → (∀ t p, w_task_status w t = StatusParked p → w_wait_sources w p ≠ []) →
  ∃ o s', next_ready (S (length (sc_ready s))) w s = Ret (o, s') ∧
    match o with
    | None => sched_ok s' ∧ sc_ready s' = [] ∧
        (∀ t n, state_of s t = Some (Queued n) → w_task_status w t ≠ StatusReady)
    | Some t => w_task_status w t = StatusReady ∧
        sched_ok (set_tasks s' (task_index_insert (sc_tasks s') t Running)) ∧
        ∃ n, state_of s t = Some (Queued n) ∧
          (∀ t' n', state_of s t' = Some (Queued n') → (n' < n)%N → w_task_status w t' ≠ StatusReady)
    end.
Proof.
  intros Hok Hlaw. destruct (next_ready_spec w (S (length (sc_ready s))) s Hok Hlaw)
    as (o & s' & E & Ho); [lia|]. exists o, s'. split; [done|]. destruct o as [t|]; [|done].
  destruct Ho as (Hr & Hpre & Hn). split_and!; [done| |done].
  pose proof (install_ok s' t Running (sc_blocked s') (sc_block_keys s') (sc_waiting s') (sc_parked s')
    Hpre (sp_blocked _ _ Hpre) (sp_parked _ _ Hpre) eq_refl) as Hi.
  by destruct s'.
Qed.

End Specs.


Lemma demo_queued_ok : sched_ok demo_queued.
Proof.
  unfold demo_queued. destruct (enqueue_spec demo_new Demo.b) as (s & -> & ? & _); [|done].
  apply new_with_quanta_ok.
Qed.

Lemma next_ready_fifo_witness :
  ∃ o s', next_ready (S (length (sc_ready demo_queued))) Demo.ready_b demo_queued = Ret (o, s') ∧
    match o with
    | None => sched_ok s' ∧ sc_ready s' = [] ∧
        (∀ t n, state_of demo_queued t = Some (Queued n) → w_task_status Demo.ready_b t ≠ StatusReady)
    | Some t => w_task_status Demo.ready_b t = StatusReady ∧
        sched_ok (set_tasks s' (task_index_insert (sc_tasks s') t Running)) ∧
        ∃ n, state_of demo_queued t = Some (Queued n) ∧
          (∀ t' n', state_of demo_queued t' = Some (Queued n') →
             (n' < n)%N → w_task_status Demo.ready_b t' ≠ StatusReady)
    end.
Proof.
  apply (next_ready_fifo Demo.ready_b demo_queued).
  - apply demo_queued_ok.
  - intros t p. simpl. unfold table_find, Demo.ready_b. simpl.
    destruct (decide (Demo.b = t)); discriminate.
Defined.

