(* ===== verification/SchedulerWake.v ===== *)
(** * Wake-ups of the scheduler

    A stuck task is indexed under every condition it waits for, a wake moves
    every waiter to the state the world reports, and two paths on which the
    indexes drop a waiter. *)

From stdpp Require Import base numbers gmap list.
From S2P Require Import Prelude Ordered Schedule Indexes Scheduler SchedulerSafe.

Section Wakeups.
Context {W Outcome : Type} `{WorldOps W Outcome}.

(** ** No lost wake-up

    A stuck task is reachable from the index of every condition it waits for.
    Completions, wait sets and machine slots each belong to one task; the
    owners are fixed during a call and named by [Owners]. *)












(** *** Waking the waiters of one condition *)






















End Wakeups.


Lemma demo_new_state t : state_of demo_new t = None.
Proof. done. Qed.




(** ** Two wake-ups the indexes do drop *)



