(* ===== verification/Exhaust.v ===== *)
(** * Pattern usefulness (crates/lm-hir/src/exhaust.rs)

    The matrix usefulness algorithm with its work budget, and the arm
    analysis that calls it ([analyze_arms] in
    crates/lm-hir/src/checkfn/flow.rs).  The budget is threaded as in the
    source; the recursion of the model runs on fuel, and fuel above the budget
    is always enough.

    The specification is the semantics of patterns: [useful] answers whether
    some well-typed vector of values matches the row and no row of the
    matrix. *)

From stdpp Require Import base numbers strings infinite list.
From S2P Require Import Prelude.

#[local] Set Warnings "-register-all".

(** ** Patterns *)

Inductive APat :=
| Wild
| PInt (z : Z)
| PBool (b : bool)
| PChar (c : N)
| PStr (s : string)
| Ctor (class : N) (args : list APat)
| Call (op : N)
| PTuple (args : list APat).

Inductive Head :=
| HClass (c : N)
| HTuple (n : nat)
| HCall (op : N)
| HInt (z : Z)
| HBool (b : bool)
| HChar (c : N)
| HStr (s : string).

#[export] Instance Head_eq_dec : EqDecision Head.
Proof. solve_decision. Defined.

(** The trait [PatMeta]. *)
Class PatMeta := {
  arm_arity : N → nat;
  family_arms : N → list N
}.

Definition pattern_head (pat : APat) : option Head :=
  match pat with
  | Wild => None
  | PInt v => Some (HInt v)
  | PBool v => Some (HBool v)
  | PChar v => Some (HChar v)
  | PStr v => Some (HStr v)
  | Ctor c _ => Some (HClass c)
  | PTuple args => Some (HTuple (length args))
  | Call op => Some (HCall op)
  end.

Definition column_heads (matrix : list (list APat)) : list Head :=
  foldl (λ heads row,
    match head row ≫= pattern_head with
    | Some h => if bool_decide (h ∈ heads) then heads else heads ++ [h]
    | None => heads
    end) [] matrix.

Definition complete_signature `{PatMeta} (heads : list Head) : bool :=
  match heads with
  | [] => false
  | first :: _ =>
      match first with
      | HBool _ => bool_decide (HBool true ∈ heads) && bool_decide (HBool false ∈ heads)
      | HClass c => forallb (λ arm, bool_decide (HClass arm ∈ heads)) (family_arms c)
      | HTuple _ => true
      | HInt _ | HChar _ | HStr _ | HCall _ => false
      end
  end.

Definition specialize_row (row : list APat) (h : Head) (arity : nat) : exec (option (list APat)) :=
  match row with
  | [] => Panic
  | first :: rest =>
      let expanded :=
        match first, h with
        | Wild, _ => Some (replicate arity Wild)
        | Ctor c args, HClass h => if bool_decide (c = h) then Some args else None
        | PTuple args, HTuple n => if bool_decide (length args = n) then Some args else None
        | Call op, HCall h => if bool_decide (op = h) then Some [] else None
        | PInt v, HInt h => if bool_decide (v = h) then Some [] else None
        | PBool v, HBool h => if bool_decide (v = h) then Some [] else None
        | PChar v, HChar h => if bool_decide (v = h) then Some [] else None
        | PStr v, HStr h => if bool_decide (v = h) then Some [] else None
        | _, _ => None
        end in
      Ret ((λ prefix, prefix ++ rest) <$> expanded)
  end.

Fixpoint specialize_matrix (matrix : list (list APat)) (h : Head) (arity : nat) :
    exec (list (list APat)) :=
  match matrix with
  | [] => Ret []
  | row :: matrix =>
      found ← specialize_row row h arity;
      rows ← specialize_matrix matrix h arity;
      Ret (match found with Some r => r :: rows | None => rows end)
  end.

Definition default_matrix (matrix : list (list APat)) : list (list APat) :=
  omap (λ row, match row with Wild :: rest => Some rest | _ => None end) matrix.

Definition head_arity `{PatMeta} (h : Head) : nat :=
  match h with
  | HClass c => arm_arity c
  | HTuple n => n
  | _ => 0
  end%nat.

(** [None] is [BudgetExceeded]; the second component is the budget left. *)
Definition UsefulResult : Type := option bool * N.

(** The loop over the heads of a complete signature; [search] is the
    recursive call on the specialized matrix. *)
Fixpoint useful_heads (search : Head → N → exec UsefulResult) (heads : list Head) (budget : N) :
    exec UsefulResult :=
  match heads with
  | [] => Ret (Some false, budget)
  | h :: heads =>
      '(found, budget) ← search h budget;
      match found with
      | None => Ret (None, budget)
      | Some true => Ret (Some true, budget)
      | Some false => useful_heads search heads budget
      end
  end.

Fixpoint useful `{PatMeta} (fuel : nat) (matrix : list (list APat)) (v : list APat) (budget : N) :
    exec UsefulResult :=
  match fuel with
  | O => NoFuel
  | S fuel =>
      if (budget =? 0)%N then Ret (None, budget)
      else
        let budget := (budget - 1)%N in
        match v with
        | [] => Ret (Some (match matrix with [] => true | _ => false end), budget)
        | Ctor class args :: rest =>
            spec ← specialize_matrix matrix (HClass class) (length args);
            useful fuel spec (args ++ rest) budget
        | PTuple args :: rest =>
            spec ← specialize_matrix matrix (HTuple (length args)) (length args);
            useful fuel spec (args ++ rest) budget
        | Call op :: rest =>
            spec ← specialize_matrix matrix (HCall op) 0; useful fuel spec rest budget
        | PInt value :: rest =>
            spec ← specialize_matrix matrix (HInt value) 0; useful fuel spec rest budget
        | PBool value :: rest =>
            spec ← specialize_matrix matrix (HBool value) 0; useful fuel spec rest budget
        | PChar value :: rest =>
            spec ← specialize_matrix matrix (HChar value) 0; useful fuel spec rest budget
        | PStr value :: rest =>
            spec ← specialize_matrix matrix (HStr value) 0; useful fuel spec rest budget
        | Wild :: rest =>
            let heads := column_heads matrix in
            if complete_signature heads then
              useful_heads (λ h budget,
                spec ← specialize_matrix matrix h (head_arity h);
                useful fuel spec (replicate (head_arity h) Wild ++ rest) budget) heads budget
            else useful fuel (default_matrix matrix) rest budget
        end
  end.

(** ** The arm analysis *)

Definition PATTERN_BUDGET : N := 1000000.

Inductive ArmError :=
| BudgetError
| UnreachableArm (arm : nat)
| MissingValues.

(** Arms after the first have to be useful after the arms before them. *)
Fixpoint check_reachable `{PatMeta} (fuel : nat) (before : list (list APat))
    (rows : list (list APat)) (budget : N) : exec (result N ArmError) :=
  match rows with
  | [] => Ret (Ok budget)
  | row :: rows =>
      match before with
      | [] => check_reachable fuel [row] rows budget
      | _ =>
          '(found, budget) ← useful fuel before row budget;
          match found with
          | None => Ret (Err BudgetError)
          | Some false => Ret (Err (UnreachableArm (length before)))
          | Some true => check_reachable fuel (before ++ [row]) rows budget
          end
      end
  end.

(** [impossible] are the patterns of the values outside the scrutinee's type
    ([impossible_patterns]), which count as covered. *)
Definition analyze_arms `{PatMeta} (fuel : nat) (pats impossible : list APat) (budget : N) :
    exec (result unit ArmError) :=
  let rows := (λ p, [p]) <$> pats in
  reachable ← check_reachable fuel [] rows budget;
  match reachable with
  | Err e => Ret (Err e)
  | Ok budget =>
      '(missing, _) ← useful fuel (rows ++ ((λ p, [p]) <$> impossible)) [Wild] budget;
      match missing with
      | None => Ret (Err BudgetError)
      | Some true => Ret (Err MissingValues)
      | Some false => Ret (Ok tt)
      end
  end.

(** ** Semantics *)

Inductive Val :=
| VInt (z : Z)
| VBool (b : bool)
| VChar (c : N)
| VStr (s : string)
| VObj (class : N) (fields : list Val)
| VCall (op : N)
| VTuple (fields : list Val)
| VOther.

(** Pointwise matching of two vectors of the same length. *)
Fixpoint all2 {A B} (f : A → B → bool) (l : list A) (k : list B) : bool :=
  match l, k with
  | [], [] => true
  | a :: l, b :: k => f a b && all2 f l k
  | _, _ => false
  end.

Fixpoint pmatch (p : APat) (v : Val) : bool :=
  match p, v with
  | Wild, _ => true
  | PInt z, VInt z' => bool_decide (z = z')
  | PBool b, VBool b' => bool_decide (b = b')
  | PChar c, VChar c' => bool_decide (c = c')
  | PStr s, VStr s' => bool_decide (s = s')
  | Ctor c ps, VObj c' vs => bool_decide (c = c') && all2 pmatch ps vs
  | Call op, VCall op' => bool_decide (op = op')
  | PTuple ps, VTuple vs => all2 pmatch ps vs
  | _, _ => false
  end.

Definition rmatch (row : list APat) (vs : list Val) : bool := all2 pmatch row vs.

Lemma all2_app {A B} (f : A → B → bool) l1 l2 k1 k2 :
  length l1 = length k1 → all2 f (l1 ++ l2) (k1 ++ k2) = all2 f l1 k1 && all2 f l2 k2.
Proof.
  revert k1. induction l1 as [|a l1 IH]; intros [|b k1] E; simpl in *; try done.
  rewrite IH by congruence. by rewrite andb_assoc.
Qed.

Lemma rmatch_wilds n vs : length vs = n → rmatch (replicate n Wild) vs = true.
Proof. intros <-. unfold rmatch. induction vs; simpl; done. Qed.

(** *** Types

    A type is known by the shape of its values; a family lists its arms with
    the field types at this instance, so recursive and generic families are
    covered.  The shapes are those the checker gives to scrutinees. *)

Section Typed.
Context {Ty : Type} `{PatMeta}.

Inductive Shape :=
| SInt
| SBool
| SChar
| SStr
| SRequest
| STuple (fields : list Ty)
| SFamily (arms : list (N * list Ty))
| SOpaque.

Context (shape : Ty → Shape).

Inductive vtyped : Val → Ty → Prop :=
| vt_int z τ : shape τ = SInt → (I64_MIN <= z <= I64_MAX)%Z → vtyped (VInt z) τ
| vt_bool b τ : shape τ = SBool → vtyped (VBool b) τ
| vt_char c τ : shape τ = SChar → (c < 1114112)%N → vtyped (VChar c) τ
| vt_str s τ : shape τ = SStr → vtyped (VStr s) τ
| vt_call op τ : shape τ = SRequest → (op <= U32_MAX)%N → vtyped (VCall op) τ
| vt_tuple vs τ τs : shape τ = STuple τs → Forall2 vtyped vs τs → vtyped (VTuple vs) τ
| vt_obj c vs τ arms τs :
    shape τ = SFamily arms → (c, τs) ∈ arms → Forall2 vtyped vs τs → vtyped (VObj c vs) τ
| vt_other τ : shape τ = SOpaque → vtyped VOther τ.

Inductive ptyped : APat → Ty → Prop :=
| pt_wild τ : ptyped Wild τ
| pt_int z τ : shape τ = SInt → (I64_MIN <= z <= I64_MAX)%Z → ptyped (PInt z) τ
| pt_bool b τ : shape τ = SBool → ptyped (PBool b) τ
| pt_char c τ : shape τ = SChar → (c < 1114112)%N → ptyped (PChar c) τ
| pt_str s τ : shape τ = SStr → ptyped (PStr s) τ
| pt_call op τ : shape τ = SRequest → (op <= U32_MAX)%N → ptyped (Call op) τ
| pt_tuple ps τ τs : shape τ = STuple τs → Forall2 ptyped ps τs → ptyped (PTuple ps) τ
| pt_ctor c ps τ arms τs :
    shape τ = SFamily arms → (c, τs) ∈ arms → Forall2 ptyped ps τs → ptyped (Ctor c ps) τ.

Abbreviation row_typed row τs := (Forall2 ptyped row τs).
Abbreviation vals_typed vs τs := (Forall2 vtyped vs τs).

(** What the class metadata says about the families. *)
Record meta_ok : Prop := {
  mo_functional τ arms c τs τs' :
    shape τ = SFamily arms → (c, τs) ∈ arms → (c, τs') ∈ arms → τs = τs';
  mo_family τ arms c τs d :
    shape τ = SFamily arms → (c, τs) ∈ arms → (d ∈ family_arms c ↔ d ∈ arms.*1);
  mo_arity τ arms c τs :
    shape τ = SFamily arms → (c, τs) ∈ arms → arm_arity c = length τs
}.

(** The head and the arguments of a value. *)
Definition val_head (v : Val) : option Head :=
  match v with
  | VInt z => Some (HInt z)
  | VBool b => Some (HBool b)
  | VChar c => Some (HChar c)
  | VStr s => Some (HStr s)
  | VObj c _ => Some (HClass c)
  | VCall op => Some (HCall op)
  | VTuple vs => Some (HTuple (length vs))
  | VOther => None
  end.

Definition val_args (v : Val) : list Val :=
  match v with
  | VObj _ vs | VTuple vs => vs
  | _ => []
  end.

(** A literal within its machine type. *)
Definition head_valid (h : Head) : Prop :=
  match h with
  | HInt z => (I64_MIN <= z <= I64_MAX)%Z
  | HChar c => (c < 1114112)%N
  | HCall op => (op <= U32_MAX)%N
  | _ => True
  end.

(** The argument types of a head at a type. *)
Definition head_types (τ : Ty) (h : Head) (τs : list Ty) : Prop :=
  match h, shape τ with
  | HInt _, SInt | HBool _, SBool | HChar _, SChar | HStr _, SStr | HCall _, SRequest => τs = []
  | HTuple n, STuple τs' => τs = τs' ∧ n = length τs'
  | HClass c, SFamily arms => (c, τs) ∈ arms
  | _, _ => False
  end.

Hypothesis Hmeta : meta_ok.

Lemma head_types_val τ v h τs :
  vtyped v τ → val_head v = Some h → head_types τ h τs → vals_typed (val_args v) τs.
Proof.
  intros Hv Hh Ht. destruct Hv; simplify_eq/=; unfold head_types in Ht;
    match goal with E : shape _ = _ |- _ => rewrite E in Ht end; simplify_eq; try constructor.
  - by destruct Ht as [-> _].
  - by rewrite (mo_functional Hmeta _ _ _ _ _ H0 Ht H1).
Qed.

(** A value of every head and typed arguments. *)
Lemma head_value τ h τs vs :
  head_types τ h τs → head_valid h → vals_typed vs τs →
  ∃ v, vtyped v τ ∧ val_head v = Some h ∧ val_args v = vs.
Proof.
  intros Ht Hval Hvs. unfold head_types in Ht.
  destruct h as [c|n|op|z|b|c|s], (shape τ) as [| | | | |τs'|arms|] eqn:E; try done; simplify_eq;
    try (apply Forall2_nil_inv_r in Hvs as ->).
  - exists (VObj c vs). split_and!; [by econstructor|done..].
  - destruct Ht as [<- ->]. exists (VTuple vs). split_and!; [by econstructor| |done].
    simpl. by rewrite (Forall2_length _ _ _ Hvs).
  - exists (VCall op). split_and!; [constructor; auto|done..].
  - exists (VInt z). split_and!; [constructor; auto|done..].
  - exists (VBool b). split_and!; [by constructor|done..].
  - exists (VChar c). split_and!; [constructor; auto|done..].
  - exists (VStr s). split_and!; [by constructor|done..].
Qed.

(** *** Patterns by head and arguments *)

Definition pat_args (p : APat) : list APat :=
  match p with
  | Ctor _ ps | PTuple ps => ps
  | _ => []
  end.

Lemma head_pattern τ p h :
  ptyped p τ → pattern_head p = Some h →
  head_valid h ∧ ∃ τs, head_types τ h τs ∧ row_typed (pat_args p) τs.
Proof.
  intros Hp Hh. unfold head_types. destruct Hp; simplify_eq/=;
    match goal with E : shape _ = _ |- _ => rewrite E end; (split; [done|]); eauto.
  exists τs. by rewrite (Forall2_length _ _ _ H1).
Qed.

Lemma pmatch_head p h v :
  pattern_head p = Some h →
  pmatch p v = bool_decide (val_head v = Some h) && rmatch (pat_args p) (val_args v).
Proof.
  intros Hh. destruct p; simplify_eq/=; destruct v; simpl; rewrite ?andb_true_r; try done;
    try (apply bool_decide_ext; split; congruence).
  - f_equal. apply bool_decide_ext. split; congruence.
  - case_bool_decide as E; [done|]. unfold rmatch. simpl. 
    destruct (all2 pmatch args fields) eqn:Ea; [|done]. destruct E. do 2 f_equal.
    revert fields Ea. induction args as [|a args IH]; intros [|f fields]; simpl; try done.
    intros [_ Ha]%andb_true_iff. f_equal. by apply IH.
Qed.

(** A head has one list of argument types. *)
Lemma head_types_fun τ h τs τs' : head_types τ h τs → head_types τ h τs' → τs = τs'.
Proof.
  unfold head_types. destruct h, (shape τ) eqn:E; try done; try congruence.
  - intros H1 H2. by eapply (mo_functional Hmeta).
  - intros [-> _] [-> _]. done.
Qed.

Lemma specialize_row_spec τ τs p rest h σs :
  row_typed (p :: rest) (τ :: τs) → head_types τ h σs →
  ∃ o, specialize_row (p :: rest) h (length σs) = Ret o ∧
    (∀ r, o = Some r → row_typed r (σs ++ τs)) ∧
    ∀ v vs, vtyped v τ → val_head v = Some h →
      rmatch (p :: rest) (v :: vs) =
      match o with Some r => rmatch r (val_args v ++ vs) | None => false end.
Proof.
  intros [Hp Hrest]%Forall2_cons Hh.
  assert (∀ v, vtyped v τ → val_head v = Some h → length (val_args v) = length σs) as Hlen.
  { intros v Hv Hvh. by eapply Forall2_length, head_types_val. }
  destruct (pattern_head p) as [h'|] eqn:Ep.
  - destruct (head_pattern _ _ _ Hp Ep) as (_ & σs' & Hh' & Hargs).
    assert (∃ o, specialize_row (p :: rest) h (length σs) = Ret o ∧
      o = if decide (h' = h) then Some (pat_args p ++ rest) else None) as (o & Eo & Ho).
    { eexists. split; [|done]. destruct p, h; simplify_eq/=;
        repeat case_bool_decide; repeat case_decide; simplify_eq; done. }
    exists o. split; [done|]. subst o. case_decide as Hd; [subst h'|].
    + assert (σs' = σs) as -> by (by eapply head_types_fun). split.
      * intros r [= <-]. by apply Forall2_app.
      * intros v vs Hv Hvh. unfold rmatch. rewrite all2_app; [|by rewrite Hlen, (Forall2_length _ _ _ Hargs)].
        simpl. rewrite (pmatch_head p h) by done. by rewrite bool_decide_eq_true_2.
    + split; [done|]. intros v vs Hv Hvh. unfold rmatch. simpl. rewrite (pmatch_head p h') by done.
      by rewrite bool_decide_eq_false_2 by congruence.
  - destruct p; try done. exists (Some (replicate (length σs) Wild ++ rest)). split; [done|]. split.
    + intros r [= <-]. apply Forall2_app; [|done]. clear. induction σs; simpl; constructor; auto using pt_wild.
    + intros v vs Hv Hvh. unfold rmatch. rewrite all2_app; [|by rewrite length_replicate, Hlen].
      change (all2 pmatch (replicate (length σs) Wild) (val_args v))
        with (rmatch (replicate (length σs) Wild) (val_args v)).
      by rewrite rmatch_wilds by auto.
Qed.

Definition covers (matrix : list (list APat)) (vs : list Val) : bool :=
  existsb (λ row, rmatch row vs) matrix.

Lemma specialize_matrix_spec τ τs matrix h σs :
  Forall (λ row, row_typed row (τ :: τs)) matrix → head_types τ h σs →
  ∃ spec, specialize_matrix matrix h (length σs) = Ret spec ∧
    Forall (λ row, row_typed row (σs ++ τs)) spec ∧ (length spec ≤ length matrix)%nat ∧
    ∀ v vs, vtyped v τ → val_head v = Some h →
      covers matrix (v :: vs) = covers spec (val_args v ++ vs).
Proof.
  intros Hm Hh. induction Hm as [|row matrix Hrow Hm (spec & E & Ht & Hl & Hc)]; simpl.
  { exists []. by split_and!. }
  destruct row as [|p rest]; [by inversion Hrow|].
  destruct (specialize_row_spec _ _ _ _ _ _ Hrow Hh) as (o & -> & Hot & Hoc). cbn [mbind exec_bind].
  rewrite E. cbn [mbind exec_bind]. eexists. split; [done|]. split_and!.
  - destruct o; [constructor; auto|done].
  - destruct o; simpl; lia.
  - intros v vs Hv Hvh. rewrite (Hoc v vs Hv Hvh), (Hc v vs Hv Hvh). by destruct o.
Qed.

(** *** The heads of a column *)

Lemma column_heads_fold matrix : ∀ heads h,
  h ∈ foldl (λ heads row,
    match head row ≫= pattern_head with
    | Some h => if bool_decide (h ∈ heads) then heads else heads ++ [h]
    | None => heads
    end) heads matrix ↔
  h ∈ heads ∨ ∃ p rest, p :: rest ∈ matrix ∧ pattern_head p = Some h.
Proof.
  induction matrix as [|row matrix IH]; intros heads h; simpl.
  { split; [by left|]. intros [?|(p & rest & []%not_elem_of_nil & _)]; done. }
  rewrite IH. destruct row as [|p rest]; simpl.
  { setoid_rewrite elem_of_cons. naive_solver. }
  destruct (pattern_head p) as [h'|] eqn:Ep.
  - case_bool_decide as Hin; setoid_rewrite elem_of_cons; rewrite ?elem_of_app, ?list_elem_of_singleton;
      split; naive_solver.
  - setoid_rewrite elem_of_cons. naive_solver.
Qed.

Lemma column_heads_elem matrix h :
  h ∈ column_heads matrix ↔ ∃ p rest, p :: rest ∈ matrix ∧ pattern_head p = Some h.
Proof.
  unfold column_heads. rewrite column_heads_fold. split; [|by right].
  intros [?%not_elem_of_nil|?]; done.
Qed.

Lemma column_heads_length matrix : (length (column_heads matrix) ≤ length matrix)%nat.
Proof.
  unfold column_heads. assert (∀ heads,
    length (foldl (λ heads row,
      match head row ≫= pattern_head with
      | Some h => if bool_decide (h ∈ heads) then heads else heads ++ [h]
      | None => heads
      end) heads matrix) ≤ length heads + length matrix)%nat as Hl; [|apply (Hl [])].
  induction matrix as [|row matrix IH]; intros heads; simpl; [lia|].
  etransitivity; [apply IH|]. repeat case_goal; rewrite ?length_app; simpl; lia.
Qed.

Lemma column_head_types τ τs matrix h :
  Forall (λ row, row_typed row (τ :: τs)) matrix → h ∈ column_heads matrix →
  head_valid h ∧ ∃ σs, head_types τ h σs.
Proof.
  intros Hm (p & rest & Hin & Hp)%column_heads_elem.
  apply (proj1 (list.Forall_forall _ _) Hm) in Hin. apply Forall2_cons in Hin as [Hpt _].
  destruct (head_pattern _ _ _ Hpt Hp) as (? & σs & ? & _). eauto.
Qed.

Lemma omap_length_le {A B} (f : A → option B) (l : list A) : (length (omap f l) ≤ length l)%nat.
Proof.
  induction l as [|a l IH]; [done|]. cbn [omap list_omap]. change (list_omap A B f l) with (omap f l).
  destruct (f a); cbn [length]; lia.
Qed.

(** The default matrix: rows that match a value whose head is not listed. *)
Lemma default_matrix_spec τ τs matrix :
  Forall (λ row, row_typed row (τ :: τs)) matrix →
  Forall (λ row, row_typed row τs) (default_matrix matrix) ∧
  (length (default_matrix matrix) ≤ length matrix)%nat ∧
  ∀ v vs, (∀ h, val_head v = Some h → h ∉ column_heads matrix) →
    covers matrix (v :: vs) = covers (default_matrix matrix) vs.
Proof.
  intros Hm. split_and!.
  - unfold default_matrix. apply list.Forall_forall. intros row (row' & Hin & E)%list_elem_of_omap.
    apply (proj1 (list.Forall_forall _ _) Hm) in Hin. destruct row' as [|[] rest]; simplify_eq.
    by apply Forall2_cons in Hin as [_ ?].
  - apply omap_length_le.
  - intros v vs. setoid_rewrite column_heads_elem. intros Hh.
    assert (∀ p rest, p :: rest ∈ matrix → p = Wild ∨ pmatch p v = false) as Hp.
    { intros p rest Hin. destruct (pattern_head p) as [h|] eqn:E; [right|by left; destruct p].
      rewrite (pmatch_head p h) by done. case_bool_decide as Hv; [|done].
      destruct (Hh h Hv). eauto. }
    clear Hh. induction Hm as [|row matrix Hrow Hm IH]; [done|].
    destruct row as [|p rest]; [by inversion Hrow|]. simpl.
    rewrite IH by (intros q rest' Hin; eapply Hp; by right).
    destruct (Hp p rest) as [->|Hf]; [by left|done|].
    unfold rmatch. simpl. rewrite Hf. simpl. destruct p; try done.
Qed.

(** Every value of a type has a head that a complete signature lists. *)
Lemma complete_signature_head τ τs matrix v :
  Forall (λ row, row_typed row (τ :: τs)) matrix → vtyped v τ →
  complete_signature (column_heads matrix) = true →
  ∃ h, val_head v = Some h ∧ h ∈ column_heads matrix.
Proof.
  intros Hm Hv Hc. destruct (column_heads matrix) as [|first heads] eqn:E; [done|].
  destruct (column_head_types τ τs matrix first Hm) as [_ [σs Hf]]; [rewrite E; by left|].
  unfold head_types in Hf. unfold complete_signature in Hc.
  destruct first, (shape τ) as [| | | | |τs'|arms|] eqn:Es; try done; destruct Hv; try congruence.
  - eexists. split; [done|]. assert (arms0 = arms) as -> by congruence.
    rewrite forallb_forall in Hc. specialize (Hc c0).
    assert (c0 ∈ family_arms c) as Hin.
    { apply (mo_family Hmeta τ arms c σs c0 Es Hf). apply list_elem_of_fmap. by exists (c0, τs0). }
    apply list_elem_of_In, Hc in Hin. by to_prop.
  - eexists. split; [done|]. destruct Hf as [-> ->]. assert (τs0 = τs') as -> by congruence.
    simpl. rewrite (Forall2_length _ _ _ H1). by left.
  - to_prop. eexists. split; [done|]. by destruct b0.
Qed.

Lemma fresh_below (l : list N) (n : nat) :
  (length l < n)%nat → ∃ x, (x < N.of_nat n)%N ∧ x ∉ l.
Proof.
  intros Hl. destruct (decide (Exists (λ x, x ∉ l) (N.of_nat <$> seq 0 n))) as [He|He].
  - apply list.Exists_exists in He as (x & (i & -> & Hi)%list_elem_of_fmap & Hx).
    apply elem_of_seq in Hi. exists (N.of_nat i). split; [lia|done].
  - exfalso. assert (length (N.of_nat <$> seq 0 n) ≤ length l)%nat as Hle.
    { apply submseteq_length, NoDup_submseteq.
      - apply NoDup_fmap_2; [apply _|apply NoDup_seq].
      - intros x Hx. destruct (decide (x ∈ l)); [done|]. exfalso. apply He.
        apply list.Exists_exists. eauto. }
    rewrite length_fmap, length_seq in Hle. lia.
Qed.

(** An incomplete signature leaves a value out.  The matrices of the checker
    are far smaller than the smallest literal type, the characters. *)
Hypothesis Hinhabited : ∀ τ, ∃ v, vtyped v τ.

Lemma inhabited_all τs : ∃ vs, vals_typed vs τs.
Proof.
  induction τs as [|τ τs [vs IH]]; [by exists []|].
  destruct (Hinhabited τ) as [v Hv]. exists (v :: vs). by constructor.
Qed.

Lemma head_all_or_missing {A} (l : list A) (P : A → Head) (heads : list Head) :
  forallb (λ a, bool_decide (P a ∈ heads)) l = false → ∃ a, a ∈ l ∧ P a ∉ heads.
Proof.
  induction l as [|a l IH]; simpl; [done|]. case_bool_decide; simpl.
  - intros (b & ? & ?)%IH. exists b. split; [by right|done].
  - intros _. exists a. split; [by left|done].
Qed.

Lemma fresh_literal (f : Head → option N) (heads : list Head) (n : N) :
  (lenN heads < n)%N → ∃ x, (x < n)%N ∧ ∀ h, h ∈ heads → f h ≠ Some x.
Proof.
  unfold lenN. intros Hl. destruct (fresh_below (omap f heads) (N.to_nat n)) as (x & Hx & Hn).
  - pose proof (omap_length_le f heads). lia.
  - rewrite N2Nat.id in Hx. exists x. split; [done|]. intros h Hin Hf. apply Hn, list_elem_of_omap. eauto.
Qed.

Lemma incomplete_signature_value τ τs matrix :
  Forall (λ row, row_typed row (τ :: τs)) matrix → (lenN matrix < 55296)%N →
  complete_signature (column_heads matrix) = false →
  ∃ v, vtyped v τ ∧ ∀ h, val_head v = Some h → h ∉ column_heads matrix.
Proof.
  intros Hm Hl Hc. pose proof (column_heads_length matrix) as Hlen.
  assert (∀ h, h ∈ column_heads matrix → ∃ σs, head_types τ h σs) as Hht.
  { intros h Hin. by eapply column_head_types in Hin as [_ ?]. }
  destruct (column_heads matrix) as [|first heads] eqn:E.
  { destruct (Hinhabited τ) as [v Hv]. exists v. split; [done|]. intros h _. apply not_elem_of_nil. }
  assert (lenN (first :: heads) < 55296)%N as Hlt by (unfold lenN in *; lia).
  destruct (Hht first) as [σs Hf]; [by left|]. unfold head_types in Hf. simpl in Hc.
  destruct first, (shape τ) as [| | | | |τs'|arms|] eqn:Es; try done.
  - apply head_all_or_missing in Hc as (d & Hd & Hn).
    apply (mo_family Hmeta τ arms c σs d Es Hf) in Hd.
    apply list_elem_of_fmap in Hd as ([d' δs] & -> & Hd).
    destruct (inhabited_all δs) as [vs Hvs]. exists (VObj d' vs). split; [by econstructor|].
    intros h [= <-]. done.
  - destruct (fresh_literal (λ h, match h with HCall x => Some x | _ => None end) _ _ Hlt) as (x & Hx & Hn).
    exists (VCall x). split; [constructor; [done|unfold U32_MAX; lia]|].
    intros h [= <-] Hin. by apply (Hn _ Hin).
  - destruct (fresh_literal (λ h, match h with HInt x => Some (Z.to_N x) | _ => None end) _ _ Hlt) as (x & Hx & Hn).
    exists (VInt (Z.of_N x)). split; [constructor; [done|unfold I64_MIN, I64_MAX; lia]|].
    intros h [= <-] Hin. apply (Hn _ Hin). f_equal. lia.
  - destruct (decide (HBool true ∈ HBool b :: heads)) as [Ht|Ht].
    + rewrite bool_decide_eq_true_2 in Hc by done. rewrite andb_true_l in Hc. to_prop. exists (VBool false).
      split; [by constructor|]. intros h [= <-]. done.
    + exists (VBool true). split; [by constructor|]. intros h [= <-]. done.
  - destruct (fresh_literal (λ h, match h with HChar x => Some x | _ => None end) _ _ Hlt) as (x & Hx & Hn).
    exists (VChar x). split; [constructor; [done|lia]|]. intros h [= <-] Hin. by apply (Hn _ Hin).
  - set (strs := omap (λ h, match h with HStr x => Some x | _ => None end) (HStr s :: heads)).
    exists (VStr (fresh strs)). split; [by constructor|]. intros h [= <-] Hin.
    apply (infinite_is_fresh strs). apply list_elem_of_omap. eexists. split; [done|]. done.
Qed.

(** *** The specification of [useful] *)

(** Some well-typed vector matches [v] and no row of the matrix. *)
Definition escapes (matrix : list (list APat)) (v : list APat) (τs : list Ty) : Prop :=
  ∃ vs, vals_typed vs τs ∧ rmatch v vs = true ∧ covers matrix vs = false.

Lemma useful_head fuel matrix p rest budget h :
  pattern_head p = Some h →
  useful (S fuel) matrix (p :: rest) budget =
  if (budget =? 0)%N then Ret (None, budget)
  else spec ← specialize_matrix matrix h (length (pat_args p));
       useful fuel spec (pat_args p ++ rest) (budget - 1)%N.
Proof. intros Hh. destruct p; simplify_eq/=; by destruct (budget =? 0)%N. Qed.

(** Escaping under one head, through the specialized matrix. *)
Lemma escapes_head τ τs matrix h σs qs rest spec :
  Forall (λ row, row_typed row (τ :: τs)) matrix → head_types τ h σs → head_valid h →
  specialize_matrix matrix h (length σs) = Ret spec → length qs = length σs →
  escapes spec (qs ++ rest) (σs ++ τs) ↔
  ∃ v vs, vtyped v τ ∧ val_head v = Some h ∧ vals_typed vs τs ∧
    rmatch qs (val_args v) = true ∧ rmatch rest vs = true ∧ covers matrix (v :: vs) = false.
Proof.
  intros Hm Hh Hval Hspec Hlen.
  destruct (specialize_matrix_spec _ _ _ _ _ Hm Hh) as (spec' & E & _ & _ & Hc).
  rewrite Hspec in E. injection E as <-. split.
  - intros (vs & Hvs & Hr & Hn). apply Forall2_app_inv_r in Hvs as (a & vs' & Ha & Hvs & ->).
    destruct (head_value τ h σs a Hh Hval Ha) as (v & Hv & Hvh & Hva).
    unfold rmatch in Hr. rewrite all2_app in Hr by (by rewrite Hlen, (Forall2_length _ _ _ Ha)).
    apply andb_true_iff in Hr as [Hq Hr]. exists v, vs'. rewrite Hva.
    split_and!; try done. rewrite (Hc v vs' Hv Hvh), Hva. exact Hn.
  - intros (v & vs & Hv & Hvh & Hvs & Hq & Hr & Hn).
    pose proof (head_types_val _ _ _ _ Hv Hvh Hh) as Ha.
    exists (val_args v ++ vs). split_and!; [by apply Forall2_app| |by rewrite <- (Hc v vs Hv Hvh)].
    unfold rmatch in *. rewrite all2_app by (by rewrite Hlen, (Forall2_length _ _ _ Ha)).
    by rewrite Hq, Hr.
Qed.

Lemma escapes_pattern τ τs matrix p rest h σs spec :
  Forall (λ row, row_typed row (τ :: τs)) matrix → head_types τ h σs → head_valid h →
  specialize_matrix matrix h (length σs) = Ret spec → pattern_head p = Some h →
  length (pat_args p) = length σs →
  escapes spec (pat_args p ++ rest) (σs ++ τs) ↔ escapes matrix (p :: rest) (τ :: τs).
Proof.
  intros Hm Hh Hval Hspec Hp Hlen. rewrite (escapes_head τ τs matrix h σs) by done. split.
  - intros (v & vs & Hv & Hvh & Hvs & Hq & Hr & Hn). exists (v :: vs).
    split_and!; [by constructor| |done]. unfold rmatch in *. simpl. rewrite (pmatch_head p h v Hp).
    unfold rmatch. rewrite Hq, Hr. by rewrite bool_decide_eq_true_2.
  - intros (vs0 & Hvs0 & Hr & Hn). destruct vs0 as [|v vs]; [by inversion Hvs0|].
    apply Forall2_cons in Hvs0 as [Hv Hvs]. unfold rmatch in Hr. simpl in Hr.
    rewrite (pmatch_head p h v Hp) in Hr. apply andb_true_iff in Hr as [[Hvh Hq]%andb_true_iff Hr].
    apply bool_decide_eq_true in Hvh. exists v, vs. by split_and!.
Qed.

(** The loop answers true exactly when the search does for some head. *)
Lemma useful_heads_true search (P : Head → Prop) heads : ∀ budget b budget',
  (∀ h c r c', h ∈ heads → search h c = Ret (Some r, c') → (r = true ↔ P h)) →
  useful_heads search heads budget = Ret (Some b, budget') →
  b = true ↔ ∃ h, h ∈ heads ∧ P h.
Proof.
  induction heads as [|h heads IH]; intros budget b budget' Hs; cbn [useful_heads].
  { intros [= <- <-]. split; [done|]. intros (h & ?%not_elem_of_nil & _). done. }
  intros ([o c] & E & Hrest)%bind_Ret. destruct o as [[]|]; [|..|done].
  - simplify_eq. split; [|done]. intros _. exists h. split; [by left|].
    eapply Hs; [by left|done|done].
  - assert (¬ P h) as Hn. { intros HP. assert (false = true); [|done]. by eapply Hs; [left| |]. }
    rewrite (IH c b budget'); [|by intros; eapply Hs; [right|]|done].
    setoid_rewrite elem_of_cons. naive_solver.
Qed.

Lemma wilds_typed σs : row_typed (replicate (length σs) Wild) σs.
Proof. induction σs; simpl; constructor; auto using pt_wild. Qed.

Lemma head_arity_types τ h σs : head_types τ h σs → head_arity h = length σs.
Proof.
  unfold head_types. destruct h, (shape τ) eqn:E; try done; try (by intros ->).
  - intros Hin. by eapply (mo_arity Hmeta).
  - by intros [-> ->].
Qed.

(** Some value with head [h] escapes. *)
Definition head_escapes (τ : Ty) (τs : list Ty) (matrix : list (list APat)) (rest : list APat)
    (h : Head) : Prop :=
  ∃ v vs, vtyped v τ ∧ val_head v = Some h ∧ vals_typed vs τs ∧
    rmatch rest vs = true ∧ covers matrix (v :: vs) = false.

Lemma default_covers matrix v vs :
  covers (default_matrix matrix) vs = true → covers matrix (v :: vs) = true.
Proof.
  unfold covers, default_matrix. rewrite !existsb_exists. intros (row & Hin & Hr).
  apply list_elem_of_In, list_elem_of_omap in Hin as (row' & Hin & E).
  exists row'. split; [by apply list_elem_of_In|]. by destruct row' as [|[] ?]; simplify_eq.
Qed.

(** The recursive search under one head of a wildcard column. *)
Lemma search_correct fuel τ τs matrix rest h c r c' :
  (∀ matrix v τs budget b budget',
    Forall (λ row, row_typed row τs) matrix → row_typed v τs → (lenN matrix < 55296)%N →
    useful fuel matrix v budget = Ret (Some b, budget') → b = true ↔ escapes matrix v τs) →
  Forall (λ row, row_typed row (τ :: τs)) matrix → row_typed rest τs → (lenN matrix < 55296)%N →
  h ∈ column_heads matrix →
  (spec ← specialize_matrix matrix h (head_arity h);
   useful fuel spec (replicate (head_arity h) Wild ++ rest) c) = Ret (Some r, c') →
  r = true ↔ head_escapes τ τs matrix rest h.
Proof.
  intros IH Hm Hrest Hl Hin (spec & E & Hs)%bind_Ret.
  destruct (column_head_types _ _ _ _ Hm Hin) as (Hval & σs & Hh).
  rewrite (head_arity_types _ _ _ Hh) in E, Hs.
  destruct (specialize_matrix_spec _ _ _ _ _ Hm Hh) as (spec' & E' & Ht & Hle & _).
  rewrite E in E'. injection E' as <-.
  rewrite (IH spec _ (σs ++ τs) c r c' Ht (Forall2_app (wilds_typed σs) Hrest)
    ltac:(unfold lenN in *; lia) Hs).
  rewrite (escapes_head τ τs matrix h σs _ _ _ Hm Hh Hval E (length_replicate _ _)).
  unfold head_escapes. split; [naive_solver|].
  intros (v & vs & Hv & Hvh & Hvs & Hr & Hn). exists v, vs. split_and!; try done.
  apply rmatch_wilds. by eapply Forall2_length, head_types_val.
Qed.

Lemma useful_correct_aux fuel : ∀ matrix v τs budget b budget',
  Forall (λ row, row_typed row τs) matrix → row_typed v τs → (lenN matrix < 55296)%N →
  useful fuel matrix v budget = Ret (Some b, budget') →
  b = true ↔ escapes matrix v τs.
Proof.
  induction fuel as [|fuel IH]; intros matrix v τs budget b budget' Hm Hv Hl; [done|].
  destruct v as [|p rest].
  { inversion Hv; subst. simpl. destruct (budget =? 0)%N; [done|]. intros [= <- <-].
    destruct matrix as [|row matrix]; split; try done.
    - intros _. exists []. by split_and!.
    - intros (vs & Hvs & _ & Hn). inversion Hvs; subst. apply list.Forall_cons in Hm as [Hrow _].
      inversion Hrow; subst. by simpl in Hn. }
  destruct τs as [|τ τs]; [by inversion Hv|]. apply Forall2_cons in Hv as [Hp Hrest].
  destruct (pattern_head p) as [h|] eqn:Eh.
  - rewrite (useful_head _ _ _ _ _ h Eh). destruct (budget =? 0)%N; [done|].
    destruct (head_pattern _ _ _ Hp Eh) as (Hval & σs & Hh & Hargs).
    destruct (specialize_matrix_spec _ _ _ _ _ Hm Hh) as (spec & E & Ht & Hle & _).
    pose proof (Forall2_length _ _ _ Hargs) as Hlen. rewrite Hlen, E. cbn [mbind exec_bind].
    intros Hu. rewrite <- (escapes_pattern τ τs matrix p rest h σs spec) by done.
    eapply IH; [done|by apply Forall2_app|unfold lenN in *; lia|done].
  - destruct p; try done. cbn [useful]. destruct (budget =? 0)%N; [done|].
    destruct (complete_signature (column_heads matrix)) eqn:Ec.
    + intros Hu. rewrite (useful_heads_true _ (head_escapes τ τs matrix rest) _ _ _ _
        (λ h c r c' Hin Hs, search_correct fuel τ τs matrix rest h c r c' IH Hm Hrest Hl Hin Hs) Hu).
      split.
      * intros (h & Hin & v & vs & Hv & Hvh & Hvs & Hr & Hn). exists (v :: vs).
        split_and!; [by constructor|done|done].
      * intros (vs0 & Hvs0 & Hr & Hn). destruct vs0 as [|v vs]; [by inversion Hvs0|].
        apply Forall2_cons in Hvs0 as [Hv Hvs].
        destruct (complete_signature_head _ _ _ _ Hm Hv Ec) as (h & Hvh & Hin).
        exists h. split; [done|]. exists v, vs. by split_and!.
    + intros Hu. destruct (default_matrix_spec _ _ _ Hm) as (Ht & Hle & Hc).
      rewrite (IH _ _ τs _ _ _ Ht Hrest ltac:(unfold lenN in *; lia) Hu). split.
      * intros (vs & Hvs & Hr & Hn).
        destruct (incomplete_signature_value _ _ _ Hm Hl Ec) as (v & Hv & Hvh).
        exists (v :: vs). split_and!; [by constructor|done|]. by rewrite (Hc v vs Hvh).
      * intros (vs0 & Hvs0 & Hr & Hn). destruct vs0 as [|v vs]; [by inversion Hvs0|].
        apply Forall2_cons in Hvs0 as [Hv Hvs]. exists vs. split_and!; [done|done|].
        apply not_true_iff_false. intros Hd. by rewrite (default_covers matrix v vs Hd) in Hn.
Qed.

(** *** The search ends *)

(** No panic, no missing fuel, and the budget only shrinks. *)
Lemma useful_heads_total search heads : ∀ budget limit,
  (∀ h c, h ∈ heads → (c <= limit)%N → ∃ r c', search h c = Ret (r, c') ∧ (c' <= c)%N) →
  (budget <= limit)%N →
  ∃ r c', useful_heads search heads budget = Ret (r, c') ∧ (c' <= budget)%N.
Proof.
  induction heads as [|h heads IH]; intros budget limit Hs Hb; cbn [useful_heads].
  { eauto using N.le_refl. }
  destruct (Hs h budget) as (r & c & -> & Hc); [by left|done|]. cbn [mbind exec_bind].
  destruct r as [[]|]; [eauto|..|eauto].
  destruct (IH c limit) as (r & c' & -> & Hc'); [|lia|exists r, c'; split; [done|lia]].
  intros h' c' Hin. apply Hs. by right.
Qed.

Lemma useful_total fuel : ∀ matrix v τs budget,
  Forall (λ row, row_typed row τs) matrix → row_typed v τs → (budget < N.of_nat fuel)%N →
  ∃ r budget', useful fuel matrix v budget = Ret (r, budget') ∧ (budget' <= budget)%N.
Proof.
  induction fuel as [|fuel IH]; intros matrix v τs budget Hm Hv Hf; [lia|].
  destruct v as [|p rest].
  { simpl. destruct (budget =? 0)%N; eexists _, _; (split; [done|lia]). }
  destruct τs as [|τ τs]; [by inversion Hv|]. apply Forall2_cons in Hv as [Hp Hrest].
  assert (∀ m v τs c, Forall (λ row, row_typed row τs) m → row_typed v τs → (c <= budget - 1)%N →
    budget ≠ 0%N → ∃ r c', useful fuel m v c = Ret (r, c') ∧ (c' <= c)%N) as IH'.
  { intros m v' τs' c Hm' Hv' Hc Hnz. apply (IH m v' τs'); [done..|lia]. }
  destruct (pattern_head p) as [h|] eqn:Eh.
  - rewrite (useful_head _ _ _ _ _ h Eh). destruct (budget =? 0)%N eqn:Ez; [eauto using N.le_refl|].
    to_prop. destruct (head_pattern _ _ _ Hp Eh) as (_ & σs & Hh & Hargs).
    destruct (specialize_matrix_spec _ _ _ _ _ Hm Hh) as (spec & E & Ht & _).
    rewrite (Forall2_length _ _ _ Hargs), E. cbn [mbind exec_bind].
    destruct (IH' spec (pat_args p ++ rest) (σs ++ τs) (budget - 1)%N) as (r & c & -> & ?);
      [done|by apply Forall2_app|lia|done|]. eexists _, _. split; [done|lia].
  - destruct p; try done. cbn [useful]. destruct (budget =? 0)%N eqn:Ez; [eauto using N.le_refl|].
    to_prop. destruct (complete_signature (column_heads matrix)).
    + edestruct (useful_heads_total) as (r & c & -> & ?); [|apply N.le_refl|eexists _, _; split; [done|lia]].
      intros h c Hin Hc. simpl.
      destruct (column_head_types _ _ _ _ Hm Hin) as (_ & σs & Hh).
      destruct (specialize_matrix_spec _ _ _ _ _ Hm Hh) as (spec & E & Ht & _).
      rewrite (head_arity_types _ _ _ Hh), E. cbn [mbind exec_bind].
      apply (IH' spec _ (σs ++ τs)); [done|by apply Forall2_app; [apply wilds_typed|]|done|done].
    + destruct (default_matrix_spec _ _ _ Hm) as (Ht & _).
      destruct (IH' (default_matrix matrix) rest τs (budget - 1)%N) as (r & c & -> & ?); [done..|lia|done|].
      eexists _, _. split; [done|lia].
Qed.

(** The size of the part of a pattern that is not a wildcard. *)
Fixpoint pweight (p : APat) : nat :=
  match p with
  | Wild => 0
  | Ctor _ ps | PTuple ps => S (sum_list_with pweight ps)
  | _ => 1
  end.

Definition rweight (row : list APat) : nat := sum_list_with pweight row.
Definition mweight (matrix : list (list APat)) : nat := sum_list_with rweight matrix.

Lemma rweight_app l k : rweight (l ++ k) = (rweight l + rweight k)%nat.
Proof. unfold rweight. induction l; simpl; lia. Qed.

Lemma rweight_wilds n : rweight (replicate n Wild) = 0%nat.
Proof. unfold rweight. induction n; simpl; done. Qed.

Lemma pweight_args p h : pattern_head p = Some h → pweight p = S (rweight (pat_args p)).
Proof. by destruct p. Qed.

Lemma specialize_row_weight p rest h n r :
  specialize_row (p :: rest) h n = Ret (Some r) →
  (rweight r ≤ rweight (p :: rest))%nat ∧
  (pattern_head p = Some h → rweight r < rweight (p :: rest))%nat.
Proof.
  intros E. destruct (pattern_head p) as [h'|] eqn:Ep.
  - assert (r = pat_args p ++ rest) as ->.
    { destruct p, h; simplify_eq/=; repeat case_bool_decide; by simplify_eq/=. }
    change (rweight (p :: rest)) with (pweight p + rweight rest)%nat.
    rewrite rweight_app, (pweight_args p h' Ep). lia.
  - destruct p; try done. simplify_eq/=. rewrite rweight_app, rweight_wilds.
    split; [|done]. unfold rweight. simpl. lia.
Qed.

Lemma specialize_row_head p rest h n o :
  specialize_row (p :: rest) h n = Ret o → pattern_head p = Some h →
  (match o with Some r => rweight r | None => 0%nat end < rweight (p :: rest))%nat.
Proof.
  intros E Hp. destruct o as [r|]; [by eapply specialize_row_weight|].
  change (rweight (p :: rest)) with (pweight p + rweight rest)%nat.
  rewrite (pweight_args p h Hp). lia.
Qed.

Lemma specialize_matrix_weight matrix h n : ∀ spec,
  specialize_matrix matrix h n = Ret spec →
  (mweight spec ≤ mweight matrix)%nat ∧
  (h ∈ column_heads matrix → mweight spec < mweight matrix)%nat.
Proof.
  setoid_rewrite column_heads_elem.
  induction matrix as [|row matrix IH]; intros spec E; cbn [specialize_matrix] in E.
  { simplify_eq. split; [done|]. intros (p & rest & []%not_elem_of_nil & _). }
  apply bind_Ret in E as (o & Eo & (spec' & Es & E)%bind_Ret). injection E as <-.
  destruct (IH spec' Es) as [IH1 IH2]. destruct row as [|p rest]; [done|].
  change (mweight ((p :: rest) :: matrix)) with (rweight (p :: rest) + mweight matrix)%nat.
  assert (mweight (match o with Some r => r :: spec' | None => spec' end) =
    match o with Some r => rweight r | None => 0%nat end + mweight spec')%nat as ->.
  { by destruct o. }
  assert (match o with Some r => rweight r | None => 0%nat end ≤ rweight (p :: rest))%nat as Hle.
  { destruct o as [r|]; [by eapply specialize_row_weight|lia]. }
  split; [lia|]. intros (q & rest' & Hin & Hq). apply elem_of_cons in Hin as [[= <- <-]|Hin].
  - pose proof (specialize_row_head _ _ _ _ _ Eo Hq). lia.
  - assert (mweight spec' < mweight matrix)%nat by eauto. lia.
Qed.

Lemma default_matrix_weight matrix : (mweight (default_matrix matrix) ≤ mweight matrix)%nat.
Proof.
  unfold default_matrix. induction matrix as [|row matrix IH]; [done|].
  change (mweight (row :: matrix)) with (rweight row + mweight matrix)%nat.
  cbn [omap list_omap]. change (list_omap _ _ ?f matrix) with (omap f matrix).
  destruct row as [|[] rest]; cbn [mweight sum_list_with]; unfold mweight in *; cbn [sum_list_with];
    unfold rweight in *; cbn [sum_list_with pweight]; lia.
Qed.

(** The search of a typed problem costs at most a fixed number of steps. *)
Definition costs_at_most (matrix : list (list APat)) (v : list APat) (bound : N) : Prop :=
  ∀ fuel budget, (bound <= budget)%N → (budget < N.of_nat fuel)%N →
  ∃ b budget', useful fuel matrix v budget = Ret (Some b, budget') ∧ (budget <= budget' + bound)%N.

Lemma useful_heads_cost search heads (Hcost : ∀ h, h ∈ heads → ∃ bound, ∀ limit budget,
    (bound <= budget)%N → (budget <= limit)%N →
    ∃ b c, search limit h budget = Ret (Some b, c) ∧ (budget <= c + bound)%N ∧ (c <= budget)%N) :
  ∃ bound, ∀ limit budget, (bound <= budget)%N → (budget <= limit)%N →
    ∃ b c, useful_heads (search limit) heads budget = Ret (Some b, c) ∧ (budget <= c + bound)%N.
Proof.
  induction heads as [|h heads IH].
  { exists 0%N. intros limit budget _ _. exists false, budget. split; [done|lia]. }
  destruct (Hcost h) as [b1 H1]; [by left|].
  destruct IH as [b2 H2]; [intros h' Hin; apply Hcost; by right|].
  exists (b1 + b2)%N. intros limit budget Hb Hlim. cbn [useful_heads].
  destruct (H1 limit budget) as ([] & c & -> & Hc & Hc'); [lia|lia|..]; cbn [mbind exec_bind].
  - exists true, c. split; [done|lia].
  - destruct (H2 limit c) as (b & c2 & -> & ?); [lia|lia|]. exists b, c2. split; [done|lia].
Qed.

Lemma useful_cost n m : ∀ matrix v τs,
  Forall (λ row, row_typed row τs) matrix → row_typed v τs →
  (mweight matrix + rweight v < n)%nat → (length v < m)%nat →
  ∃ bound, costs_at_most matrix v bound.
Proof.
  revert m. induction (lt_wf n) as [n _ IHn]. intros m. induction (lt_wf m) as [m _ IHm].
  intros matrix v τs Hm Hv Hn Hlen. destruct v as [|p rest].
  { exists 1%N. intros [|fuel] budget Hb Hf; [lia|]. cbn [useful].
    replace (budget =? 0)%N with false by (symmetry; apply N.eqb_neq; lia).
    eexists _, _. split; [done|lia]. }
  destruct τs as [|τ τs]; [by inversion Hv|]. apply Forall2_cons in Hv as [Hp Hrest].
  destruct (pattern_head p) as [h|] eqn:Eh.
  - destruct (head_pattern _ _ _ Hp Eh) as (_ & σs & Hh & Hargs).
    destruct (specialize_matrix_spec _ _ _ _ _ Hm Hh) as (spec & E & Ht & _).
    destruct (specialize_matrix_weight _ _ _ _ E) as [Hw _].
    change (rweight (p :: rest)) with (pweight p + rweight rest)%nat in Hn.
    rewrite (pweight_args p h Eh) in Hn.
    destruct (IHn (S (mweight spec + rweight (pat_args p ++ rest))) ltac:(rewrite rweight_app; lia)
      (S (length (pat_args p ++ rest))) spec (pat_args p ++ rest) (σs ++ τs) Ht
      (Forall2_app Hargs Hrest) ltac:(lia) ltac:(lia)) as [bound Hb].
    exists (bound + 1)%N. intros [|fuel] budget Hbd Hf; [lia|]. rewrite (useful_head _ _ _ _ _ h Eh).
    replace (budget =? 0)%N with false by (symmetry; apply N.eqb_neq; lia).
    rewrite (Forall2_length _ _ _ Hargs), E. cbn [mbind exec_bind].
    destruct (Hb fuel (budget - 1)%N) as (b & c & -> & ?); [lia|lia|]. exists b, c. split; [done|lia].
  - destruct p; try done. destruct (complete_signature (column_heads matrix)) eqn:Ec.
    + destruct (useful_heads_cost (λ limit h budget,
        spec ← specialize_matrix matrix h (head_arity h);
        useful (S (N.to_nat limit)) spec (replicate (head_arity h) Wild ++ rest) budget)
        (column_heads matrix)) as [bound Hb].
      { intros h Hin. destruct (column_head_types _ _ _ _ Hm Hin) as (_ & σs & Hh).
        destruct (specialize_matrix_spec _ _ _ _ _ Hm Hh) as (spec & E & Ht & _).
        destruct (specialize_matrix_weight _ _ _ _ E) as [_ Hw]. specialize (Hw Hin).
        change (rweight (Wild :: rest)) with (rweight rest) in Hn.
        pose proof (Forall2_app (wilds_typed σs) Hrest) as Hty.
        destruct (IHn (S (mweight spec + rweight (replicate (length σs) Wild ++ rest)))
          ltac:(rewrite rweight_app, rweight_wilds; lia)
          (S (length (replicate (length σs) Wild ++ rest))) spec _ (σs ++ τs) Ht Hty
          ltac:(lia) ltac:(lia)) as [bound Hb].
        exists bound. intros limit budget Hbd Hlim. rewrite (head_arity_types _ _ _ Hh), E.
        cbn [mbind exec_bind].
        destruct (Hb (S (N.to_nat limit)) budget) as (b & c & Eu & ?); [done|lia|].
        destruct (useful_total (S (N.to_nat limit)) spec _ _ budget Ht Hty ltac:(lia)) as (r & c' & Eu' & ?).
        exists b, c. split_and!; [done..|]. congruence. }
      exists (bound + 1)%N. intros [|fuel] budget Hbd Hf; [lia|]. cbn [useful]. rewrite Ec.
      replace (budget =? 0)%N with false by (symmetry; apply N.eqb_neq; lia).
      destruct fuel as [|fuel]; [lia|].
      destruct (Hb (N.of_nat fuel) (budget - 1)%N) as (b & c & Eu & ?); [lia|lia|].
      rewrite Nat2N.id in Eu. exists b, c. split; [exact Eu|lia].
    + destruct (default_matrix_spec _ _ _ Hm) as (Ht & _).
      pose proof (default_matrix_weight matrix) as Hw.
      change (rweight (Wild :: rest)) with (rweight rest) in Hn. simpl in Hlen.
      destruct (IHm (S (length rest)) ltac:(lia) (default_matrix matrix) rest τs Ht Hrest
        ltac:(lia) ltac:(lia)) as [bound Hb].
      exists (bound + 1)%N. intros [|fuel] budget Hbd Hf; [lia|]. cbn [useful]. rewrite Ec.
      replace (budget =? 0)%N with false by (symmetry; apply N.eqb_neq; lia).
      destruct (Hb fuel (budget - 1)%N) as (b & c & Eu & ?); [lia|lia|]. exists b, c. split; [exact Eu|lia].
Qed.

End Typed.

(** ** Properties *)

Section Properties.
Context {Ty : Type} `{PatMeta} (shape : Ty → @Shape Ty).
Hypothesis Hmeta : meta_ok shape.
Hypothesis Hinhabited : ∀ τ, ∃ v, vtyped shape v τ.

Abbreviation matrix_typed m τs := (Forall (λ row, Forall2 (ptyped shape) row τs) m).

(** Usefulness is decided correctly: on a well-typed matrix and row, with
    fuel above the budget, the analysis returns, and an answer within the
    budget is true exactly when some well-typed vector of values matches the
    row and no row of the matrix.  Every type has a value, the metadata
    describes the families, and the matrix has fewer rows than there are
    characters below the surrogates. *)
Theorem useful_correct fuel matrix v τs budget :
  matrix_typed matrix τs → Forall2 (ptyped shape) v τs → (lenN matrix < 55296)%N →
  (budget < N.of_nat fuel)%N →
  ∃ r budget', useful fuel matrix v budget = Ret (r, budget') ∧ (budget' <= budget)%N ∧
    ∀ b, r = Some b → (b = true ↔ escapes shape matrix v τs).
Proof.
  intros Hm Hv Hl Hf. destruct (useful_total shape Hmeta fuel matrix v τs budget Hm Hv Hf)
    as (r & c & E & Hc). exists r, c. split_and!; [done..|]. intros b ->.
  by eapply useful_correct_aux.
Qed.

(** C6. The budget is a limit of effort only: every well-typed problem has a
    bound such that each budget from the bound on decides it, at a cost of at
    most the bound. *)
Theorem useful_decides matrix v τs :
  matrix_typed matrix τs → Forall2 (ptyped shape) v τs → (lenN matrix < 55296)%N →
  ∃ bound, ∀ fuel budget, (bound <= budget)%N → (budget < N.of_nat fuel)%N →
  ∃ b budget', useful fuel matrix v budget = Ret (Some b, budget') ∧
    (budget <= budget' + bound)%N ∧ (b = true ↔ escapes shape matrix v τs).
Proof.
  intros Hm Hv Hl.
  destruct (useful_cost shape Hmeta (S (mweight matrix + rweight v)) (S (length v)) matrix v τs Hm Hv)
    as [bound Hb]; [lia..|]. exists bound. intros fuel budget Hbd Hf.
  destruct (Hb fuel budget Hbd Hf) as (b & c & E & Hc). exists b, c. split_and!; [done..|].
  by eapply useful_correct_aux.
Qed.

(** *** The arm analysis *)










End Properties.

(** ** A small checker context

    An [Option[Int]]-like family: class 1 with one integer field, class 2
    with none. *)

Module Demo.

Inductive DTy := DInt | DOpt | DBool.

Definition dshape (τ : DTy) : @Shape DTy :=
  match τ with
  | DInt => SInt
  | DOpt => SFamily [(1%N, [DInt]); (2%N, [])]
  | DBool => SBool
  end.

#[export] Instance dmeta : PatMeta := {|
  arm_arity c := if (c =? 1)%N then 1%nat else 0%nat;
  family_arms _ := [1%N; 2%N]
|}.

Lemma dmeta_ok : meta_ok dshape.
Proof.
  split; intros [] arms c τs; simpl; try done.
  - intros τs' [= <-]. rewrite !elem_of_cons, !elem_of_nil. naive_solver.
  - intros d [= <-] _. done.
  - intros [= <-]. rewrite !elem_of_cons, !elem_of_nil. naive_solver.
Qed.

Lemma dinhabited τ : ∃ v, vtyped dshape v τ.
Proof.
  destruct τ.
  - exists (VInt 0). by apply vt_int.
  - exists (VObj 2 []). by eapply vt_obj; [done|right; left|constructor].
  - exists (VBool true). by apply vt_bool.
Qed.

Definition some_wild : APat := Ctor 1 [Wild].
Definition none_pat : APat := Ctor 2 [].

Lemma some_wild_typed : ptyped dshape some_wild DOpt.
Proof. by eapply pt_ctor; [done|left|repeat constructor]. Qed.
Lemma none_pat_typed : ptyped dshape none_pat DOpt.
Proof. by eapply pt_ctor; [done|right; left|constructor]. Qed.

(** Two arms cover the family, one does not. *)
Example analyze_covers : analyze_arms 50 [some_wild; none_pat] [] 40 = Ret (Ok tt).
Proof. reflexivity. Qed.
Example analyze_missing : analyze_arms 50 [some_wild] [] 40 = Ret (Err MissingValues).
Proof. reflexivity. Qed.
Example analyze_unreachable :
  analyze_arms 50 [some_wild; Wild; none_pat] [] 40 = Ret (Err (UnreachableArm 2)).
Proof. reflexivity. Qed.

End Demo.

#[local] Existing Instance Demo.dmeta.

Lemma useful_correct_witness :
  ∃ r budget', useful 50 [[Demo.some_wild]] [Wild] 40 = Ret (r, budget') ∧ (budget' <= 40)%N ∧
    ∀ b, r = Some b → (b = true ↔ escapes Demo.dshape [[Demo.some_wild]] [Wild] [Demo.DOpt]).
Proof.
  apply (useful_correct Demo.dshape Demo.dmeta_ok Demo.dinhabited).
  - repeat constructor. apply Demo.some_wild_typed.
  - repeat constructor.
  - reflexivity.
  - reflexivity.
Defined.

Lemma useful_decides_witness :
  ∃ bound, ∀ fuel budget, (bound <= budget)%N → (budget < N.of_nat fuel)%N →
  ∃ b budget', useful fuel [[Demo.some_wild]; [Demo.none_pat]] [Wild] budget = Ret (Some b, budget') ∧
    (budget <= budget' + bound)%N ∧
    (b = true ↔ escapes Demo.dshape [[Demo.some_wild]; [Demo.none_pat]] [Wild] [Demo.DOpt]).
Proof.
  apply (useful_decides Demo.dshape Demo.dmeta_ok Demo.dinhabited).
  - repeat constructor; [apply Demo.some_wild_typed|apply Demo.none_pat_typed].
  - repeat constructor.
  - reflexivity.
Defined.

