(* ===== verification/Codec.v ===== *)
(** * The bytecode cursor (crates/lm-bytecode/src/lib.rs)

    [Cursor] and its readers as an error-and-state monad over byte vectors,
    the little-endian writers, and the relations the codec proofs use:
    [Parses] (a reader consumes exactly these bytes and answers this value),
    [Cuts] (what a reader that succeeds does on a prefix of its input) and
    [Reads] (what a successful read says about the bytes it took). *)

From stdpp Require Import base numbers list.
From S2P Require Import Prelude.

(** ** Errors and the cursor *)

Inductive DecodeError :=
| Truncated
| BadMagic
| BadVersion (v : N)
| BadBundle (expected found : list N)
| BadOpcode (op : N)
| BadTypeTag (tag : N)
| BadRowTag (tag : N)
| BadClassKind (tag : N)
| BadSlot
| BadFlag (v : N)
| BadUtf8
| BadCharacter
| BadLength
| TrailingBytes
| BadSectionTable
| ExportCountMismatch
| BadExport
| BadBinding
| BadImport
| MutMarkerCount
| BadCoreRole
| BadDebug.

Record Cursor := mkCursor { cur_bytes : list N; cur_pos : N }.

(** A reader: the answer with the moved cursor, or the first error. *)
Definition Dec (A : Type) : Type := Cursor → result (A * Cursor) DecodeError.

Definition dret {A} (a : A) : Dec A := λ c, Ok (a, c).
Definition derr {A} (e : DecodeError) : Dec A := λ _, Err e.

#[export] Instance dec_bind : MBind Dec := λ A B f p c,
  match p c with
  | Ok (a, c) => f a c
  | Err e => Err e
  end.

(** [Option::ok_or]. *)
Definition dok_or {A} (o : option A) (e : DecodeError) : Dec A :=
  match o with
  | Some a => dret a
  | None => derr e
  end.

(** *** Little-endian numbers *)

(** [to_le_bytes] of a value of [n] bytes. *)
Fixpoint le_bytes (n : nat) (v : N) : list N :=
  match n with
  | O => []
  | S n => (v mod 256)%N :: le_bytes n (v / 256)%N
  end.

(** [from_le_bytes]. *)
Fixpoint from_le (bs : list N) : N :=
  match bs with
  | [] => 0
  | b :: bs => b + 256 * from_le bs
  end%N.

Definition write_u32 (v : N) : list N := le_bytes 4 v.
Definition write_u64 (v : N) : list N := le_bytes 8 v.
(** Two's complement. *)
Definition write_i64 (v : Z) : list N := le_bytes 8 (Z.to_N (v mod 18446744073709551616)).
Definition write_bytes (bs : list N) : list N := write_u32 (as_u32 (lenN bs)) ++ bs.

(** [u8::from(bool)]. *)
Definition bool_byte (b : bool) : N := if b then 1%N else 0%N.

(** *** Readers *)

Definition cur_take (len : N) : Dec (list N) := λ c,
  match checked_add_usize (cur_pos c) len with
  | None => Err Truncated
  | Some end_ =>
      if (lenN (cur_bytes c) <? end_)%N then Err Truncated
      else Ok (take (N.to_nat len) (drop (N.to_nat (cur_pos c)) (cur_bytes c)),
               mkCursor (cur_bytes c) end_)
  end.

Definition cur_u8 : Dec N := b ← cur_take 1; dret (nth 0 b 0%N).
Definition cur_u16 : Dec N := b ← cur_take 2; dret (from_le b).
Definition cur_u32 : Dec N := b ← cur_take 4; dret (from_le b).
Definition cur_u64 : Dec N := b ← cur_take 8; dret (from_le b).

(** Reading a two's complement word. *)
Definition to_i64 (v : N) : Z :=
  if (v <? 9223372036854775808)%N then Z.of_N v else (Z.of_N v - 18446744073709551616)%Z.
Definition cur_i64 : Dec Z := b ← cur_take 8; dret (to_i64 (from_le b)).

Definition cur_remaining (c : Cursor) : N := saturating_sub (lenN (cur_bytes c)) (cur_pos c).

(** A table length: at least one byte per counted element has to follow. *)
Definition cur_len : Dec N := λ c,
  match cur_u32 c with
  | Ok (count, c) =>
      if (saturating_sub (lenN (cur_bytes c)) (cur_pos c) <? count)%N then Err BadLength
      else Ok (count, c)
  | Err e => Err e
  end.

Definition cur_flag : Dec bool :=
  v ← cur_u8;
  if (v =? 0)%N then dret false else if (v =? 1)%N then dret true else derr (BadFlag v).

Definition MAX_DECODE_VECTOR_BYTES : N := 67108864.

(** [decode_vec]: the size check and the reservation of one vector of
    elements of [elem_size] bytes; [reserve] is the allocator's answer for a
    number of bytes. *)
Definition decode_vec (reserve : N → bool) (elem_size count : N) : Dec unit :=
  let bytes := (count * N.max elem_size 1)%N in
  if (USIZE_MAX <? bytes)%N then derr BadLength
  else if (MAX_DECODE_VECTOR_BYTES <? bytes)%N then derr BadLength
  else if reserve bytes then dret tt else derr BadLength.

(** A counted loop that reads one element per turn. *)
Fixpoint dec_times {A} (n : nat) (p : Dec A) : Dec (list A) :=
  match n with
  | O => dret []
  | S n => a ← p; l ← dec_times n p; dret (a :: l)
  end.

(** ** Little-endian facts *)

Lemma le_bytes_length n v : length (le_bytes n v) = n.
Proof. revert v. induction n; intros v; simpl; auto. Qed.

Lemma from_le_bytes n v : from_le (le_bytes n v) = (v mod 256 ^ N.of_nat n)%N.
Proof.
  revert v. induction n as [|n IH]; intros v.
  - simpl. by rewrite N.mod_1_r.
  - cbn [le_bytes from_le]. rewrite IH, Nat2N.inj_succ, N.pow_succ_r'.
    rewrite (N.Div0.mod_mul_r v 256 (256 ^ N.of_nat n)). done.
Qed.

Lemma from_le_small n v : (v < 256 ^ N.of_nat n)%N → from_le (le_bytes n v) = v.
Proof. intros H. by rewrite from_le_bytes, N.mod_small. Qed.

Lemma from_le_bound bs : Forall (λ b, (b < 256)%N) bs → (from_le bs < 256 ^ lenN bs)%N.
Proof.
  unfold lenN. induction 1 as [|b bs Hb Hbs IH]; [done|]. cbn [from_le length].
  rewrite Nat2N.inj_succ, N.pow_succ_r'. nia.
Qed.

Lemma le_from_le bs : Forall (λ b, (b < 256)%N) bs → le_bytes (length bs) (from_le bs) = bs.
Proof.
  induction 1 as [|b bs Hb Hbs IH]; [done|]. cbn [length le_bytes from_le]. f_equal.
  - rewrite (N.mul_comm 256), N.Div0.mod_add. by apply N.mod_small.
  - rewrite (N.mul_comm 256), N.div_add by done. by rewrite (N.div_small b).
Qed.

Lemma le_bytes_ok n v : Forall (λ b, (b < 256)%N) (le_bytes n v).
Proof. revert v. induction n; intros v; simpl; constructor; [apply N.mod_lt; done|auto]. Qed.

Lemma to_i64_write (v : Z) :
  (I64_MIN <= v <= I64_MAX)%Z → to_i64 (Z.to_N (v mod 18446744073709551616)) = v.
Proof.
  unfold I64_MIN, I64_MAX, to_i64. intros Hv.
  destruct (Z.neg_nonneg_cases v) as [Hn|Hn].
  - rewrite <- (Z_mod_plus_full v 1). rewrite Z.mod_small by lia.
    destruct (_ <? _)%N eqn:E; to_prop; lia.
  - rewrite Z.mod_small by lia. destruct (_ <? _)%N eqn:E; to_prop; lia.
Qed.

(** ** Reading exactly these bytes *)

(** The cursor stands before [s] in a vector of machine length. *)
Definition cursor_at (c : Cursor) (s : list N) : Prop :=
  (lenN (cur_bytes c) <= USIZE_MAX)%N ∧ (cur_pos c <= lenN (cur_bytes c))%N ∧
  drop (N.to_nat (cur_pos c)) (cur_bytes c) = s.

Definition advance (c : Cursor) (n : N) : Cursor := mkCursor (cur_bytes c) (cur_pos c + n)%N.

(** [p] reads exactly [bs] and answers [a], when at least [k] bytes follow. *)
Definition Parses {A} (k : N) (p : Dec A) (bs : list N) (a : A) : Prop :=
  ∀ c rest, (k <= lenN rest)%N → cursor_at c (bs ++ rest) → p c = Ok (a, advance c (lenN bs)).

Lemma cursor_at_advance c bs rest : cursor_at c (bs ++ rest) → cursor_at (advance c (lenN bs)) rest.
Proof.
  intros (Hl & Hp & Hd). unfold cursor_at, advance, lenN in *. simpl.
  assert (length (drop (N.to_nat (cur_pos c)) (cur_bytes c)) = length (bs ++ rest)) as Hlen by (by rewrite Hd).
  rewrite length_drop, length_app in Hlen. split_and!; [done|lia|].
  rewrite N2Nat.inj_add, Nat2N.id, <- drop_drop, Hd, drop_app_length. done.
Qed.

Lemma cursor_at_app before s :
  (lenN (before ++ s) <= USIZE_MAX)%N → cursor_at (mkCursor (before ++ s) (lenN before)) s.
Proof.
  intros Hlen. unfold cursor_at, lenN in *. simpl. rewrite length_app in *. split_and!; [done|lia|].
  by rewrite Nat2N.id, drop_app_length.
Qed.

Lemma advance_advance c n m : advance (advance c n) m = advance c (n + m).
Proof. unfold advance. simpl. f_equal. lia. Qed.

Lemma lenN_app {A} (l k : list A) : lenN (l ++ k) = (lenN l + lenN k)%N.
Proof. unfold lenN. rewrite length_app. lia. Qed.

Lemma parses_ret {A} k (a : A) : Parses k (dret a) [] a.
Proof. intros c rest _ _. unfold dret, advance, lenN. simpl. rewrite N.add_0_r. by destruct c. Qed.

Lemma parses_bind {A B} k1 k (p : Dec A) (f : A → Dec B) bs1 bs2 a b :
  Parses k1 p bs1 a → (k1 <= lenN bs2 + k)%N → Parses k (f a) bs2 b →
  Parses k (p ≫= f) (bs1 ++ bs2) b.
Proof.
  intros H1 Hk H2 c rest Hr Hc. unfold mbind, dec_bind. rewrite <- app_assoc in Hc.
  rewrite (H1 c (bs2 ++ rest)) by (rewrite ?lenN_app; lia || done).
  rewrite (H2 _ rest) by (done || by apply cursor_at_advance).
  by rewrite advance_advance, lenN_app.
Qed.

Lemma parses_weaken {A} k k' (p : Dec A) bs a : Parses k p bs a → (k <= k')%N → Parses k' p bs a.
Proof. intros H Hk c rest Hr. apply H. lia. Qed.

Lemma parses_take k bs : Parses k (cur_take (lenN bs)) bs bs.
Proof.
  intros c rest _ (Hl & Hp & Hd). unfold cur_take, checked_add_usize, lenN in *.
  assert (length (drop (N.to_nat (cur_pos c)) (cur_bytes c)) = length (bs ++ rest)) as Hlen by (by rewrite Hd).
  rewrite length_drop, length_app in Hlen.
  replace (_ <=? USIZE_MAX)%N with true by (symmetry; apply N.leb_le; lia).
  replace (_ <? _)%N with false by (symmetry; apply N.ltb_ge; lia).
  by rewrite Nat2N.id, Hd, take_app_length.
Qed.

Lemma parses_take_map {A} k n bs (f : list N → A) a :
  lenN bs = n → f bs = a → Parses k (b ← cur_take n; dret (f b)) bs a.
Proof.
  intros <- <-. rewrite <- (app_nil_r bs) at 2.
  eapply parses_bind; [apply (parses_take 0)|lia|apply parses_ret].
Qed.

Lemma parses_u8 k b : Parses k cur_u8 [b] b.
Proof. by apply parses_take_map. Qed.

Lemma parses_u32 k v : (v <= U32_MAX)%N → Parses k cur_u32 (write_u32 v) v.
Proof.
  intros Hv. apply parses_take_map; [unfold lenN, write_u32; by rewrite le_bytes_length|].
  apply from_le_small. unfold U32_MAX in Hv. simpl. lia.
Qed.

Lemma parses_u64 k v : (v <= U64_MAX)%N → Parses k cur_u64 (write_u64 v) v.
Proof.
  intros Hv. apply parses_take_map; [unfold lenN, write_u64; by rewrite le_bytes_length|].
  apply from_le_small. unfold U64_MAX in Hv. simpl. lia.
Qed.

Lemma parses_i64 k v : (I64_MIN <= v <= I64_MAX)%Z → Parses k cur_i64 (write_i64 v) v.
Proof.
  intros Hv. apply parses_take_map; [unfold lenN, write_i64; by rewrite le_bytes_length|].
  unfold write_i64. rewrite from_le_small; [by apply to_i64_write|].
  pose proof (Z.mod_pos_bound v 18446744073709551616). simpl. lia.
Qed.

Lemma parses_bool k b : Parses k cur_flag [bool_byte b] b.
Proof.
  change [bool_byte b] with ([bool_byte b] ++ []).
  eapply parses_bind; [apply (parses_u8 0)|lia|]. destruct b; apply parses_ret.
Qed.

(** A length prefix needs as many bytes after it as it counts elements. *)
Lemma parses_len v : (v <= U32_MAX)%N → Parses v cur_len (write_u32 v) v.
Proof.
  intros Hv c rest Hr Hc. unfold cur_len. rewrite (parses_u32 0 v Hv c rest) by (done || lia).
  apply cursor_at_advance in Hc as (Hl & Hp & Hd). unfold saturating_sub, lenN in *.
  assert (length (drop (N.to_nat (cur_pos (advance c (N.of_nat (length (write_u32 v))))))
    (cur_bytes (advance c (N.of_nat (length (write_u32 v)))))) = length rest) as Hlen by (by rewrite Hd).
  rewrite length_drop in Hlen.
  replace (_ <? _)%N with false by (symmetry; apply N.ltb_ge; lia). done.
Qed.

Lemma parses_vec k reserve size count :
  (count * N.max size 1 <= MAX_DECODE_VECTOR_BYTES)%N → reserve (count * N.max size 1)%N = true →
  Parses k (decode_vec reserve size count) [] tt.
Proof.
  intros Hs Hr. unfold decode_vec, MAX_DECODE_VECTOR_BYTES, USIZE_MAX, U64_MAX in *.
  replace (_ <? _)%N with false by (symmetry; apply N.ltb_ge; lia).
  replace (_ <? _)%N with false by (symmetry; apply N.ltb_ge; lia).
  rewrite Hr. apply parses_ret.
Qed.

(** A counted loop over encodings. *)
Lemma parses_times {A} k (p : Dec A) (enc : A → list N) (l : list A) :
  Forall (λ a, ∀ k, Parses k p (enc a) a) l → Parses k (dec_times (length l) p) (concat (enc <$> l)) l.
Proof.
  induction 1 as [|a l Ha Hl IH]; simpl; [apply parses_ret|].
  eapply parses_bind; [apply (Ha 0%N)|lia|].
  rewrite <- (app_nil_r (concat _)). eapply parses_bind; [exact IH|lia|apply parses_ret].
Qed.

(** ** Cut inputs *)

(** The same position in the first [n] bytes. *)
Definition cut (n : N) (c : Cursor) : Cursor := mkCursor (take (N.to_nat n) (cur_bytes c)) (cur_pos c).

(** A reader that succeeds reads forward in the same bytes, and on any prefix
    of them it either stops with an error of [E] or reads the same value, and
    then the prefix holds all it read. *)
Definition Cuts {A} (E : DecodeError → Prop) (p : Dec A) : Prop :=
  ∀ c a c', p c = Ok (a, c') →
    cur_bytes c' = cur_bytes c ∧ (cur_pos c <= cur_pos c')%N ∧
    ∀ n, (cur_pos c <= n)%N →
      (∃ e, E e ∧ p (cut n c) = Err e) ∨ ((cur_pos c' <= n)%N ∧ p (cut n c) = Ok (a, cut n c')).

Section Cuts.
Context (E : DecodeError → Prop) (Htruncated : E Truncated).

Lemma cuts_ret {A} (a : A) : Cuts E (dret a).
Proof. intros c ? ? [= <- <-]. split_and!; [done|lia|]. intros n Hn. by right. Qed.

Lemma cuts_err {A} e : Cuts E (derr (A := A) e).
Proof. by intros c a c' [=]. Qed.

Lemma cuts_bind {A B} (p : Dec A) (f : A → Dec B) :
  Cuts E p → (∀ a, Cuts E (f a)) → Cuts E (p ≫= f).
Proof.
  intros Hp Hf c b c'' H. unfold mbind, dec_bind in *.
  destruct (p c) as [[a c']|] eqn:Ep; [|done].
  destruct (Hp _ _ _ Ep) as (Hb & Hle & Hcut), (Hf _ _ _ _ H) as (Hb' & Hle' & Hcut').
  split_and!; [congruence|lia|]. intros n Hn.
  destruct (Hcut n Hn) as [(e & He & ->)|[Hn' ->]]; [left; eauto|].
  destruct (Hcut' n Hn') as [(e & He & ->)|[Hn'' ->]]; [left; eauto|by right].
Qed.

Lemma cuts_ok_or {A} (o : option A) e : Cuts E (dok_or o e).
Proof. destruct o; [apply cuts_ret|apply cuts_err]. Qed.

Lemma cuts_if {A} (b : bool) (p q : Dec A) : Cuts E p → Cuts E q → Cuts E (if b then p else q).
Proof. by destruct b. Qed.

Lemma cuts_take n : Cuts E (cur_take n).
Proof using Htruncated.
  intros c a c'. unfold cur_take, checked_add_usize.
  destruct (_ <=? USIZE_MAX)%N eqn:Eu; [|done].
  destruct (_ <? _)%N eqn:El; [done|]. intros [= <- <-]. to_prop. simpl.
  split_and!; [done|lia|]. intros m Hm. unfold cut, lenN in *. simpl. rewrite length_take.
  replace (cur_pos c + n <=? USIZE_MAX)%N with true by (symmetry; by apply N.leb_le).
  destruct (N.ltb_spec (N.of_nat (N.to_nat m `min` length (cur_bytes c))) (cur_pos c + n)) as [Ec|Ec];
    [left; eauto|right]. split; [lia|].
  rewrite skipn_firstn_comm, take_take. do 3 f_equal. lia.
Qed.

Lemma cuts_u8 : Cuts E cur_u8.
Proof using Htruncated. apply cuts_bind; [apply cuts_take|intros; apply cuts_ret]. Qed.
Lemma cuts_u32 : Cuts E cur_u32.
Proof using Htruncated. apply cuts_bind; [apply cuts_take|intros; apply cuts_ret]. Qed.
Lemma cuts_u64 : Cuts E cur_u64.
Proof using Htruncated. apply cuts_bind; [apply cuts_take|intros; apply cuts_ret]. Qed.
Lemma cuts_i64 : Cuts E cur_i64.
Proof using Htruncated. apply cuts_bind; [apply cuts_take|intros; apply cuts_ret]. Qed.

Lemma cuts_flag : Cuts E cur_flag.
Proof using Htruncated.
  apply cuts_bind; [apply cuts_u8|intros v].
  repeat apply cuts_if; apply cuts_ret || apply cuts_err.
Qed.

(** A length prefix reports a cut table as [BadLength]. *)
Lemma cuts_len : E BadLength → Cuts E cur_len.
Proof using Htruncated.
  intros Hbad c a c'. unfold cur_len.
  destruct (cur_u32 c) as [[v c1]|] eqn:Eu; [|done].
  destruct (_ <? _)%N eqn:El; [done|]. intros [= -> ->].
  destruct (cuts_u32 _ _ _ Eu) as (Hb & Hp & Hcut). split_and!; [done..|]. intros n Hn.
  destruct (Hcut n Hn) as [(e & He & ->)|[Hn' ->]]; [left; eauto|].
  destruct (saturating_sub (lenN (cur_bytes (cut n c'))) _ <? a)%N; [left; eauto|by right].
Qed.

Lemma cuts_vec reserve size count : Cuts E (decode_vec reserve size count).
Proof. unfold decode_vec. repeat apply cuts_if; apply cuts_ret || apply cuts_err. Qed.

Lemma cuts_times {A} n (p : Dec A) : Cuts E p → Cuts E (dec_times n p).
Proof.
  intros Hp. induction n; simpl; [apply cuts_ret|].
  apply cuts_bind; [done|intros a]. apply cuts_bind; [done|intros l]. apply cuts_ret.
Qed.
End Cuts.

(** A strict prefix of what a reader took is refused with an error of [E]. *)
Lemma cuts_refused {A} (E : DecodeError → Prop) (p : Dec A) bs a n :
  Cuts E p → Parses 0 p bs a → (lenN bs <= USIZE_MAX)%N → (n < lenN bs)%N →
  ∃ e, E e ∧ p (mkCursor (take (N.to_nat n) bs) 0) = Err e.
Proof.
  intros Hp Hbs Hlen Hn.
  assert (p (mkCursor bs 0) = Ok (a, advance (mkCursor bs 0) (lenN bs))) as Hok.
  { apply (Hbs _ []); [unfold lenN; simpl; lia|]. rewrite app_nil_r.
    unfold cursor_at. simpl. split_and!; [done|lia|done]. }
  destruct (Hp _ _ _ Hok) as (_ & _ & Hcut). destruct (Hcut n ltac:(simpl; lia)) as [He|[Hle _]]; [done|].
  simpl in Hle. lia.
Qed.

(** ** What a successful read took *)

Definition byte_ok (b : N) : Prop := (b < 256)%N.

(** The bytes between two positions. *)
Definition slice (c c' : Cursor) : list N :=
  take (N.to_nat (cur_pos c' - cur_pos c)) (drop (N.to_nat (cur_pos c)) (cur_bytes c)).

(** On a byte vector of machine length, the bytes a successful read took and
    its answer are related by [R]. *)
Definition Reads {A} (p : Dec A) (R : list N → A → Prop) : Prop :=
  ∀ c a c', Forall byte_ok (cur_bytes c) → (cur_pos c <= lenN (cur_bytes c))%N → p c = Ok (a, c') →
    cur_bytes c' = cur_bytes c ∧ (cur_pos c <= cur_pos c' <= lenN (cur_bytes c))%N ∧
    Forall byte_ok (slice c c') ∧ R (slice c c') a.

Lemma slice_app c c' c'' :
  cur_bytes c' = cur_bytes c → (cur_pos c <= cur_pos c' <= cur_pos c'')%N →
  slice c c'' = slice c c' ++ slice c' c''.
Proof.
  intros Hb Hp. unfold slice. rewrite Hb.
  replace (N.to_nat (cur_pos c'' - cur_pos c)) with
    (N.to_nat (cur_pos c' - cur_pos c) + N.to_nat (cur_pos c'' - cur_pos c')) by lia.
  replace (N.to_nat (cur_pos c')) with (N.to_nat (cur_pos c) + N.to_nat (cur_pos c' - cur_pos c)) by lia.
  rewrite <- drop_drop, <- take_take_drop. done.
Qed.

Lemma reads_ret {A} (a : A) (R : list N → A → Prop) : R [] a → Reads (dret a) R.
Proof.
  intros HR c ? ? _ Hp [= <- <-]. assert (slice c c = []) as Hs by (unfold slice; by rewrite N.sub_diag).
  rewrite Hs. split_and!; [done|lia|lia|constructor|done].
Qed.

Lemma reads_err {A} e (R : list N → A → Prop) : Reads (derr e) R.
Proof. by intros c a c' _ _ [=]. Qed.

Lemma reads_weaken {A} (p : Dec A) (R R' : list N → A → Prop) :
  Reads p R → (∀ bs a, Forall byte_ok bs → R bs a → R' bs a) → Reads p R'.
Proof.
  intros Hp HR c a c' Hok Hc H. destruct (Hp _ _ _ Hok Hc H) as (Hb & Hle & Hs & Hr). eauto.
Qed.

Lemma reads_bind {A B} (p : Dec A) (f : A → Dec B) (R1 : list N → A → Prop) R :
  Reads p R1 → (∀ a bs, Forall byte_ok bs → R1 bs a → Reads (f a) (λ bs', R (bs ++ bs'))) →
  Reads (p ≫= f) R.
Proof.
  intros Hp Hf c b c'' Hok Hc H. unfold mbind, dec_bind in H.
  destruct (p c) as [[a c']|] eqn:Ep; [|done].
  destruct (Hp _ _ _ Hok Hc Ep) as (Hb & Hle & Hs & Hr1).
  destruct (Hf a _ Hs Hr1 c' b c'') as (Hb' & Hle' & Hs' & Hr); [by rewrite Hb|rewrite Hb; lia|done|].
  rewrite Hb in Hle'. rewrite (slice_app c c' c'') by (done || lia).
  split_and!; [congruence|lia|lia|by apply Forall_app|done].
Qed.

Lemma reads_ok_or {A} (o : option A) e : Reads (dok_or o e) (λ bs a, bs = [] ∧ o = Some a).
Proof. destruct o; [by apply reads_ret|apply reads_err]. Qed.

Lemma reads_if {A} (b : bool) (p q : Dec A) R :
  (b = true → Reads p R) → (b = false → Reads q R) → Reads (if b then p else q) R.
Proof. destruct b; auto. Qed.

Lemma reads_take n : Reads (cur_take n) (λ bs a, a = bs ∧ lenN bs = n).
Proof.
  intros c a c' Hok Hc. unfold cur_take, checked_add_usize.
  destruct (_ <=? USIZE_MAX)%N eqn:Eu; [|done].
  destruct (_ <? _)%N eqn:El; [done|]. intros [= <- <-]. to_prop. simpl.
  unfold slice. simpl. rewrite N.add_comm, N.add_sub.
  split_and!; [done|lia|lia|by apply Forall_take, Forall_drop|done|].
  unfold lenN in *. rewrite length_take, length_drop. lia.
Qed.

Lemma reads_take_map {A} n (f : list N → A) (R : list N → A → Prop) :
  (∀ bs, Forall byte_ok bs → lenN bs = n → R bs (f bs)) → Reads (b ← cur_take n; dret (f b)) R.
Proof.
  intros HR. eapply reads_bind; [apply reads_take|]. intros a bs Hok [-> Hl].
  apply reads_ret. rewrite app_nil_r. auto.
Qed.

Lemma reads_u8 : Reads cur_u8 (λ bs b, bs = [b] ∧ byte_ok b).
Proof.
  apply reads_take_map. intros bs Hok Hl. destruct bs as [|b [|]]; unfold lenN in Hl; simpl in Hl; [lia| |lia].
  inversion Hok; subst. done.
Qed.

Lemma reads_le n bs : Forall byte_ok bs → lenN bs = N.of_nat n →
  bs = le_bytes n (from_le bs) ∧ (from_le bs < 256 ^ N.of_nat n)%N.
Proof.
  intros Hok Hl. split; [|rewrite <- Hl; by apply from_le_bound].
  unfold lenN in Hl. apply Nat2N.inj in Hl as <-. symmetry. by apply le_from_le.
Qed.

Lemma reads_u32 : Reads cur_u32 (λ bs v, bs = write_u32 v ∧ (v <= U32_MAX)%N).
Proof.
  apply reads_take_map. intros bs Hok Hl. destruct (reads_le 4 bs Hok Hl) as [Hbs Hlt]. split; [done|].
  unfold U32_MAX. simpl in Hlt. lia.
Qed.

Lemma reads_u64 : Reads cur_u64 (λ bs v, bs = write_u64 v ∧ (v <= U64_MAX)%N).
Proof.
  apply reads_take_map. intros bs Hok Hl. destruct (reads_le 8 bs Hok Hl) as [Hbs Hlt]. split; [done|].
  unfold U64_MAX. simpl in Hlt. lia.
Qed.

Lemma write_to_i64 v : (v < 18446744073709551616)%N → Z.to_N (to_i64 v mod 18446744073709551616) = v.
Proof.
  intros Hv. unfold to_i64. destruct (_ <? _)%N eqn:E; to_prop.
  - rewrite Z.mod_small by lia. lia.
  - rewrite <- (Z_mod_plus_full _ 1). rewrite Z.mod_small by lia. lia.
Qed.

Lemma reads_i64 : Reads cur_i64 (λ bs v, bs = write_i64 v ∧ (I64_MIN <= v <= I64_MAX)%Z).
Proof.
  apply reads_take_map. intros bs Hok Hl. destruct (reads_le 8 bs Hok Hl) as [Hbs Hlt].
  change (256 ^ N.of_nat 8)%N with 18446744073709551616%N in Hlt.
  split; [unfold write_i64; by rewrite write_to_i64|].
  unfold I64_MIN, I64_MAX, to_i64. destruct (_ <? _)%N eqn:E; to_prop; lia.
Qed.

Lemma reads_flag : Reads cur_flag (λ bs b, bs = [bool_byte b]).
Proof.
  eapply reads_bind; [apply reads_u8|]. intros v bs _ [-> _].
  apply reads_if; intros E; to_prop; [by subst; apply reads_ret|].
  apply reads_if; intros E'; to_prop; [by subst; apply reads_ret|apply reads_err].
Qed.

Lemma reads_len : Reads cur_len (λ bs v, bs = write_u32 v ∧ (v <= U32_MAX)%N).
Proof.
  intros c a c' Hok Hc. unfold cur_len. destruct (cur_u32 c) as [[v c1]|] eqn:Eu; [|done].
  destruct (_ <? _)%N; [done|]. intros [= -> ->]. by apply reads_u32.
Qed.

Lemma reads_vec reserve size count :
  Reads (decode_vec reserve size count)
    (λ bs _, bs = [] ∧ (count * N.max size 1 <= MAX_DECODE_VECTOR_BYTES)%N).
Proof.
  unfold decode_vec. repeat (apply reads_if; intros ?; to_prop); try apply reads_err. by apply reads_ret.
Qed.

Lemma reads_times {A} n (p : Dec A) (enc : A → list N) (P : A → Prop) :
  Reads p (λ bs a, bs = enc a ∧ P a) →
  Reads (dec_times n p) (λ bs l, bs = concat (enc <$> l) ∧ length l = n ∧ Forall P l).
Proof.
  intros Hp. induction n as [|n IH]; simpl; [by apply reads_ret|].
  eapply reads_bind; [done|]. intros a bs _ [-> Ha]. eapply reads_bind; [done|].
  intros l bs' _ (-> & Hl & HP). apply reads_ret. rewrite app_nil_r. simpl. split_and!; [done|lia|by constructor].
Qed.
