(* ===== verification/Bytecode.v ===== *)
(** * The bytecode instruction set and its codec (crates/lm-bytecode/src/lib.rs)

    The serialized module's instruction enums, opcode constants and the
    [encode_instr]/[decode_instr] pair, in the order of the source's arms, and
    the entries of the type table with [encode_type]/[decode_type].  The
    writers answer the bytes they append; the readers run on the cursor of
    [Codec].  The facts about them are in [BytecodeFacts]. *)

From stdpp Require Import base numbers list.
From S2P Require Import Prelude Codec.

Open Scope N_scope.

(** ** Tags *)

(** Opcodes. *)
Definition OP_CONST_UNIT : N := 0.
Definition OP_CONST_BOOL : N := 1.
Definition OP_CONST_INT : N := 2.
Definition OP_CONST_STR : N := 3.
Definition OP_LOAD_LOCAL : N := 4.
Definition OP_STORE_LOCAL : N := 5.
Definition OP_POP : N := 6.
Definition OP_RAISE_FAULT : N := 7.
Definition OP_CONST_CHAR : N := 8.
Definition OP_ADD : N := 16.
Definition OP_SUB : N := 17.
Definition OP_MUL : N := 18.
Definition OP_DIV : N := 19.
Definition OP_REM : N := 20.
Definition OP_NEG : N := 21.
Definition OP_NOT : N := 22.
Definition OP_LT_INT : N := 32.
Definition OP_LE_INT : N := 33.
Definition OP_GT_INT : N := 34.
Definition OP_GE_INT : N := 35.
Definition OP_EQ_INT : N := 36.
Definition OP_NE_INT : N := 37.
Definition OP_EQ_BOOL : N := 38.
Definition OP_NE_BOOL : N := 39.
Definition OP_EQ_STR : N := 40.
Definition OP_NE_STR : N := 41.
Definition OP_EQ_REF : N := 42.
Definition OP_NE_REF : N := 43.
Definition OP_EQ_VALUE : N := 182.
Definition OP_NE_VALUE : N := 183.
Definition OP_CALL : N := 48.
Definition OP_JUMP : N := 49.
Definition OP_JUMP_IF_FALSE : N := 50.
Definition OP_JUMP_IF_TRUE : N := 51.
Definition OP_RETURN : N := 52.
Definition OP_CALL_VIRTUAL : N := 64.
Definition OP_CALL_VALUE : N := 65.
Definition OP_MAKE_CLOSURE : N := 66.
Definition OP_LOAD_CAPTURE : N := 67.
Definition OP_NEW : N := 68.
Definition OP_LOAD_FIELD : N := 69.
Definition OP_STORE_FIELD : N := 70.
Definition OP_LIST_NEW : N := 71.
Definition OP_LIST_LEN : N := 72.
Definition OP_LIST_AT : N := 73.
Definition OP_LIST_PUSH : N := 74.
Definition OP_MAP_NEW : N := 75.
Definition OP_MAP_LEN : N := 76.
Definition OP_MAP_HAS : N := 77.
Definition OP_MAP_AT : N := 78.
Definition OP_MAP_PUT : N := 79.
Definition OP_SB_NEW : N := 80.
Definition OP_SB_APPEND_STR : N := 81.
Definition OP_SB_APPEND_INT : N := 82.
Definition OP_SB_APPEND_BOOL : N := 83.
Definition OP_SB_BUILD : N := 84.
Definition OP_BB_NEW : N := 85.
Definition OP_BB_APPEND : N := 86.
Definition OP_BB_LEN : N := 87.
Definition OP_BB_BUILD : N := 88.
Definition OP_FREEZE : N := 89.
Definition OP_BYTES_NEW : N := 90.
Definition OP_BYTES_LEN : N := 91.
Definition OP_BYTES_TEXT : N := 92.
Definition OP_CALL_G : N := 96.
Definition OP_CALL_VIRTUAL_G : N := 97.
Definition OP_NEW_G : N := 98.
Definition OP_TUPLE_NEW : N := 99.
Definition OP_TUPLE_GET : N := 100.
Definition OP_IS_TYPE : N := 101.
Definition OP_CAST_TYPE : N := 102.
Definition OP_STR_BYTE_LEN : N := 103.
Definition OP_STR_CHAR_COUNT : N := 104.
Definition OP_STR_CONCAT : N := 105.
Definition OP_STR_STARTS_WITH : N := 106.
Definition OP_STR_ENDS_WITH : N := 107.
Definition OP_STR_CONTAINS : N := 108.
Definition OP_STR_FIND_INDEX : N := 109.
Definition OP_BYTES_AT : N := 110.
Definition OP_BYTES_GET : N := 111.
Definition OP_PERFORM : N := 112.
Definition OP_PERFORM_VALUE : N := 113.
Definition OP_OP_CONST : N := 114.
Definition OP_TABLE_EDIT : N := 115.
Definition OP_AS_CALL : N := 116.
Definition OP_CALL_ARGS : N := 117.
Definition OP_FAULT_CODE : N := 118.
Definition OP_UNREACHABLE : N := 119.
Definition OP_DIGEST : N := 120.
Definition OP_EQ_DIGEST : N := 121.
Definition OP_NE_DIGEST : N := 122.
Definition OP_BYTES_SLICE : N := 123.
Definition OP_BYTES_CONCAT : N := 124.
Definition OP_BYTES_STARTS_WITH : N := 125.
Definition OP_BYTES_FIND_INDEX : N := 126.
Definition OP_BYTES_HEX : N := 127.
Definition OP_BYTES_IS_UTF8 : N := 128.
Definition OP_EQ_BYTES : N := 129.
Definition OP_NE_BYTES : N := 130.
Definition OP_SB_LEN : N := 131.
Definition OP_SB_CLEAR : N := 132.
Definition OP_BB_EXTEND : N := 133.
Definition OP_BB_RESERVE : N := 134.
Definition OP_BB_CLEAR : N := 135.
Definition OP_FAULT_DENIED : N := 136.
Definition OP_REQUEST_OP : N := 137.
Definition OP_TEXT_AT : N := 138.
Definition OP_TEXT_SLICE : N := 139.
Definition OP_TEXT_IS_BOUNDARY : N := 140.
Definition OP_TEXT_SLICE_BYTES : N := 141.
Definition OP_TEXT_BYTES : N := 142.
Definition OP_TEXT_LT : N := 143.
Definition OP_TEXT_LE : N := 144.
Definition OP_TEXT_GT : N := 145.
Definition OP_TEXT_GE : N := 146.
Definition OP_TEXT_TO_STRING : N := 147.
Definition OP_CHAR_CODEPOINT : N := 148.
Definition OP_CHAR_UTF8_LEN : N := 149.
Definition OP_EQ_CHAR : N := 150.
Definition OP_NE_CHAR : N := 151.
Definition OP_LT_CHAR : N := 152.
Definition OP_LE_CHAR : N := 153.
Definition OP_GT_CHAR : N := 154.
Definition OP_GE_CHAR : N := 155.
Definition OP_BYTES_COMPACT : N := 156.
Definition OP_BYTES_TEXT_VIEW : N := 157.
Definition OP_LT_BYTES : N := 158.
Definition OP_LE_BYTES : N := 159.
Definition OP_GT_BYTES : N := 160.
Definition OP_GE_BYTES : N := 161.
Definition OP_SB_APPEND_CHAR : N := 162.
Definition OP_SB_BYTE_LEN : N := 163.
Definition OP_SB_FINISH : N := 164.
Definition OP_BB_FINISH : N := 165.
Definition OP_TEXT_FIND_BYTE_INDEX : N := 166.
Definition OP_TEXT_AT_BYTE : N := 167.
Definition OP_TEXT_TRIM : N := 168.
Definition OP_TEXT_TRIM_START : N := 169.
Definition OP_TEXT_TRIM_END : N := 170.
Definition OP_TEXT_TO_LOWER_ASCII : N := 171.
Definition OP_TEXT_TO_UPPER_ASCII : N := 172.
Definition OP_TEXT_REPLACE : N := 173.
Definition OP_TEXT_PARSE_INT_STATUS : N := 174.
Definition OP_TEXT_PARSE_INT_VALUE : N := 175.
Definition OP_BYTES_ENDS_WITH : N := 176.
Definition OP_BYTES_CONTAINS : N := 177.
Definition OP_TEXT_SPLIT : N := 178.
Definition OP_TEXT_LINES : N := 179.
Definition OP_BB_AT : N := 180.
Definition OP_BB_FIND_FROM : N := 181.
Definition OP_OPTION_SOME : N := 184.
Definition OP_OPTION_NONE : N := 185.
Definition OP_LIST_GET : N := 186.
Definition OP_MAP_GET : N := 187.
Definition OP_CALL_INTERFACE : N := 188.
Definition OP_LIST_EPOCH : N := 189.
Definition OP_LIST_ITER_LEN : N := 190.
Definition OP_MAP_EPOCH : N := 191.
Definition OP_MAP_ITER_LEN : N := 192.
Definition OP_MAP_KEY_AT : N := 193.
Definition OP_MAP_VALUE_AT : N := 194.
Definition OP_LIST_CAPACITY : N := 195.
Definition OP_LIST_SET : N := 196.
Definition OP_LIST_POP : N := 197.
Definition OP_LIST_INSERT : N := 198.
Definition OP_LIST_REMOVE : N := 199.
Definition OP_LIST_SWAP_REMOVE : N := 200.
Definition OP_LIST_RESERVE : N := 201.
Definition OP_LIST_TRUNCATE : N := 202.
Definition OP_LIST_CONTAINS : N := 203.
Definition OP_MAP_REMOVE : N := 204.
Definition OP_MAP_CLEAR : N := 205.
Definition OP_MAP_RESERVE : N := 206.
Definition OP_MAKE_CALLBACK : N := 207.
Definition OP_AS_CALLBACK : N := 208.
Definition OP_OPTION_PAYLOAD : N := 209.
Definition OP_LIST_REORDER : N := 210.
Definition OP_CALL_SLOT : N := 211.
Definition OP_NEW_SLOT : N := 212.
Definition OP_LOAD_SLOT : N := 213.
Definition OP_SEND_SLOT : N := 214.
Definition OP_SYNTAX_TREE_ROOT : N := 215.
Definition OP_SYNTAX_KIND : N := 216.
Definition OP_SYNTAX_CATEGORY : N := 217.
Definition OP_SYNTAX_RANGE_START : N := 218.
Definition OP_SYNTAX_RANGE_END : N := 219.
Definition OP_SYNTAX_TEXT : N := 220.
Definition OP_SYNTAX_CHILDREN : N := 221.
Definition OP_SYNTAX_DETACH : N := 222.
Definition OP_DYN_PACK : N := 223.
Definition OP_DYN_RENDER : N := 224.
Definition OP_SYNTAX_BUILD_TOKEN : N := 225.
Definition OP_SYNTAX_BUILD_TRIVIA : N := 226.
Definition OP_SYNTAX_BUILD_NODE : N := 227.
Definition OP_SYNTAX_TO_TREE : N := 228.
Definition OP_FUNCTION_CODE : N := 229.
Definition OP_CLASS_CODE : N := 230.
Definition OP_CODE_SOURCE : N := 231.
Definition OP_FAULT_SITE : N := 232.
Definition OP_FAULT_TRACE : N := 233.
Definition OP_CODE_DEFINITION : N := 234.
Definition OP_RAISE_USER_PANIC : N := 235.
Definition OP_RAISE_ASSERTION_FAILED : N := 236.
Definition OP_TEXT_HASH : N := 237.
Definition OP_BYTES_HASH : N := 238.
Definition OP_MAP_PROBE : N := 239.
Definition OP_MAP_PROBE_FOUND : N := 240.
Definition OP_MAP_PROBE_KEY : N := 241.
Definition OP_MAP_PROBE_VALUE : N := 242.
Definition OP_MAP_PROBE_SET_VALUE : N := 243.
Definition OP_MAP_PROBE_REMOVE : N := 244.
Definition OP_MAP_INSERT_HASHED : N := 245.
Definition OP_MAP_WRITE_GUARD : N := 246.
Definition OP_HASH_COMBINE : N := 247.
Definition OP_HASH_UNORDERED_COMBINE : N := 248.
Definition OP_MAP_NEXT_INDEX : N := 249.
Definition OP_SEAL_INSTANCE : N := 250.
Definition OP_NUMERIC : N := 251.
Definition OP_CONST_FLOAT : N := 252.
Definition OP_CONST_BYTES : N := 253.
Definition OP_EXTENSION : N := 254.
Definition OP_PREPARE_WAIT : N := 255.

(** Second bytes of the extension prefix. *)
Definition EXT_TEXT_PAD_START : N := 0.
Definition EXT_TEXT_PAD_END : N := 1.
Definition EXT_MAP_PUT_TEXT : N := 2.
Definition EXT_BYTES_TEXT_RANGE : N := 3.
Definition EXT_MAP_INTERN_TEXT_RANGE : N := 4.
Definition EXT_CONST_REGEX : N := 5.
Definition EXT_REGEX_COMPILE_STATUS : N := 6.
Definition EXT_REGEX_COMPILE_VALUE : N := 7.
Definition EXT_REGEX_SOURCE : N := 8.
Definition EXT_REGEX_IS_MATCH : N := 9.
Definition EXT_REGEX_COUNT : N := 10.
Definition EXT_REGEX_SPLIT : N := 11.
Definition EXT_REGEX_REPLACE_ALL : N := 12.
Definition EXT_REGEX_MATCH_START : N := 13.
Definition EXT_REGEX_MATCH_END : N := 14.
Definition EXT_REGEX_MATCH_TEXT : N := 15.
Definition EXT_REGEX_MATCH_GROUP_COUNT : N := 16.
Definition EXT_REGEX_CAPTURES : N := 17.
Definition EXT_REGEX_MATCH_GROUP : N := 18.
Definition EXT_REGEX_MATCH_NAMED : N := 19.
Definition EXT_LIST_SWAP : N := 20.
Definition EXT_BB_SET : N := 21.
Definition EXT_BB_CAPACITY : N := 22.
Definition EXT_BB_TRUNCATE : N := 23.
Definition EXT_BYTES_READ_U32_BE : N := 24.
Definition EXT_BYTES_READ_U32_LE : N := 25.
Definition EXT_MODULE_CODE : N := 26.
Definition EXT_REFLECTION_DECLARATIONS : N := 27.
Definition EXT_REFLECTION_MEMBERS : N := 28.
Definition EXT_REFLECTION_NAME : N := 29.
Definition EXT_REFLECTION_DECLARATION_KIND : N := 30.
Definition EXT_REFLECTION_MEMBER_KIND : N := 31.
Definition EXT_REFLECTION_REFINE : N := 32.
Definition EXT_REFLECTION_END : N := 33.
Definition EXT_REFLECTION_TYPE_PARAMETER_COUNT : N := 34.
Definition EXT_REFLECTION_INTERFACE_NAMES : N := 35.
Definition EXT_REFLECTION_OPEN : N := 36.

(** Tags of the type table. *)
Definition TY_UNIT : N := 0.
Definition TY_BOOL : N := 1.
Definition TY_INT : N := 2.
Definition TY_STR : N := 3.
Definition TY_CLASS : N := 4.
Definition TY_LIST : N := 5.
Definition TY_MAP : N := 6.
Definition TY_FN : N := 7.
Definition TY_INST : N := 10.
Definition TY_TUPLE : N := 11.
Definition TY_VAR : N := 12.
Definition TY_FAULT : N := 13.
Definition TY_REQUEST : N := 14.
Definition TY_POLICY_TABLE : N := 15.
Definition TY_VM : N := 16.
Definition TY_RUN : N := 17.
Definition TY_PENDING_CALL : N := 18.
Definition TY_OP : N := 19.
Definition TY_DIGEST : N := 20.
Definition TY_HANDLE : N := 21.
Definition TY_VM_SNAPSHOT : N := 22.
Definition TY_RUN_SNAPSHOT : N := 23.
Definition TY_BYTES : N := 24.
Definition TY_FILE_HANDLE : N := 25.
Definition TY_RESOURCE_HANDLE : N := 26.
Definition TY_WAIT : N := 27.
Definition TY_PROJECTION : N := 28.
Definition TY_CALLBACK : N := 29.
Definition TY_HOST_RESOURCE : N := 30.
Definition TY_FLOAT : N := 31.
Definition TY_NEVER : N := 32.

(** Tags of effect row elements. *)
Definition ROW_OP : N := 0.
Definition ROW_VAR : N := 1.
Definition ROW_GROUP : N := 2.

(** Tags of slot contracts. *)
Definition SLOT_FUNCTION : N := 0.
Definition SLOT_METHOD : N := 1.
Definition SLOT_CLASS : N := 2.
Definition SLOT_VALUE : N := 3.
Definition SLOT_PROCESS : N := 4.

(** The absent type application of a call site: [u32::MAX]. *)
Definition NO_APP : N := U32_MAX.

(** ** Instructions

    Every operand is a [u32], a float constant its [u64] bit pattern, an
    integer constant an [i64]; [ReflectionPattern] and [ReflectionBases] are
    transparent wrappers of a packed [u32]. *)

Inductive NumericInstr :=
| Num_IntBitAnd
| Num_IntBitOr
| Num_IntBitXor
| Num_IntBitNot
| Num_IntShl
| Num_IntShr
| Num_IntUshr
| Num_IntWrappingAdd
| Num_IntWrappingSub
| Num_IntWrappingMul
| Num_IntRotateLeft
| Num_IntRotateRight
| Num_IntToFloat
| Num_FloatNeg
| Num_FloatAdd
| Num_FloatSub
| Num_FloatMul
| Num_FloatDiv
| Num_FloatEq
| Num_FloatNe
| Num_FloatLt
| Num_FloatLe
| Num_FloatGt
| Num_FloatGe
| Num_FloatIsNan
| Num_FloatHash
| Num_FloatBits
| Num_FloatFromBits
| Num_FloatToIntStatus
| Num_FloatToIntValue
| Num_SbAppendFloat
| Num_BytesBitAnd
| Num_BytesBitOr
| Num_BytesBitXor
| Num_BytesBitNot
| Num_TextParseFloatStatus
| Num_TextParseFloatValue
| Num_FloatFixed
| Num_IntCountOnes
| Num_IntLeadingZeros
| Num_IntTrailingZeros
| Num_IntSignum
| Num_FloatAbs
| Num_FloatMin
| Num_FloatMax
| Num_FloatSqrt
| Num_FloatFloor
| Num_FloatCeil
| Num_FloatRound
| Num_FloatTrunc
| Num_FloatIsFinite
| Num_FloatIsInfinite
| Num_FloatRem
| Num_FloatCopySign
| Num_FloatMulAdd
| Num_FloatPow
| Num_FloatExp
| Num_FloatExp2
| Num_FloatExpM1
| Num_FloatLn
| Num_FloatLog2
| Num_FloatLog10
| Num_FloatLn1P
| Num_FloatCbrt
| Num_FloatHypot
| Num_FloatSin
| Num_FloatCos
| Num_FloatTan
| Num_FloatAsin
| Num_FloatAcos
| Num_FloatAtan
| Num_FloatAtan2
| Num_FloatSinh
| Num_FloatCosh
| Num_FloatTanh
| Num_FloatAsinh
| Num_FloatAcosh
| Num_FloatAtanh
| Num_IntRotateLeft32
| Num_IntRotateRight32.

Inductive NativeInstr :=
| Nat_EqStr
| Nat_NeStr
| Nat_StrByteLen
| Nat_StrCharCount
| Nat_StrConcat
| Nat_StrStartsWith
| Nat_StrEndsWith
| Nat_StrContains
| Nat_StrFindIndex
| Nat_TextFindByteIndex
| Nat_TextAtByte
| Nat_TextTrim
| Nat_TextTrimStart
| Nat_TextTrimEnd
| Nat_TextToLowerAscii
| Nat_TextToUpperAscii
| Nat_TextReplace
| Nat_TextParseIntStatus
| Nat_TextParseIntValue
| Nat_TextPadStart
| Nat_TextPadEnd
| Nat_BytesEndsWith
| Nat_BytesContains
| Nat_TextSplit
| Nat_TextLines
| Nat_TextAt
| Nat_TextSlice
| Nat_TextIsBoundary
| Nat_TextSliceBytes
| Nat_TextBytes
| Nat_TextLt
| Nat_TextLe
| Nat_TextGt
| Nat_TextGe
| Nat_TextToString
| Nat_CharCodepoint
| Nat_CharUtf8Len
| Nat_EqChar
| Nat_NeChar
| Nat_LtChar
| Nat_LeChar
| Nat_GtChar
| Nat_GeChar
| Nat_SbNew
| Nat_SbAppendStr
| Nat_SbAppendInt
| Nat_SbAppendBool
| Nat_SbBuild
| Nat_SbAppendChar
| Nat_SbByteLen
| Nat_SbFinish
| Nat_BbNew
| Nat_BbAppend
| Nat_BbLen
| Nat_BbBuild
| Nat_BbFinish
| Nat_BytesNew
| Nat_BytesLen
| Nat_BytesText
| Nat_BytesTextRange
| Nat_SbLen
| Nat_SbClear
| Nat_BbExtend
| Nat_BbReserve
| Nat_BbClear
| Nat_BbAt
| Nat_BbSet
| Nat_BbCapacity
| Nat_BbTruncate
| Nat_BbFindFrom
| Nat_BytesAt
| Nat_BytesGet
| Nat_BytesReadU32Be
| Nat_BytesReadU32Le
| Nat_BytesSlice
| Nat_BytesConcat
| Nat_BytesStartsWith
| Nat_BytesFindIndex
| Nat_BytesHex
| Nat_BytesIsUtf8
| Nat_EqBytes
| Nat_NeBytes
| Nat_LtBytes
| Nat_LeBytes
| Nat_GtBytes
| Nat_GeBytes
| Nat_BytesCompact
| Nat_BytesTextView
| Nat_TextHash
| Nat_BytesHash
| Nat_HashCombine
| Nat_HashUnorderedCombine
| Nat_RegexCompileStatus
| Nat_RegexCompileValue
| Nat_RegexSource
| Nat_RegexIsMatch
| Nat_RegexCount
| Nat_RegexSplit
| Nat_RegexReplaceAll
| Nat_RegexMatchStart
| Nat_RegexMatchEnd
| Nat_RegexMatchText
| Nat_RegexMatchGroupCount.

Inductive ReflectionKind :=
| Refl_Class
| Refl_Function
| Refl_Method
| Refl_Constant
| Refl_ClassDescriptor
| Refl_Code.

Inductive ExtendedInstr :=
| Ext_MakeCallback (func : N) (captures : N)
| Ext_AsCallback
| Ext_OptionSome (ty : N)
| Ext_OptionNone (ty : N)
| Ext_OptionPayload (ty : N)
| Ext_ListGet (ty : N)
| Ext_MapGet (ty : N)
| Ext_MapPutText (ty : N) (discard : bool)
| Ext_MapInternTextRange
| Ext_ListEpoch
| Ext_ListIterLen
| Ext_MapEpoch
| Ext_MapIterLen
| Ext_MapNextIndex
| Ext_SealInstance
| Ext_MapKeyAt
| Ext_MapValueAt
| Ext_ListCapacity
| Ext_ListSet
| Ext_ListPop (ty : N)
| Ext_ListInsert
| Ext_ListRemove
| Ext_ListSwapRemove
| Ext_ListSwap
| Ext_ListReserve
| Ext_ListTruncate
| Ext_ListContains
| Ext_ListReorder
| Ext_MapRemove (ty : N)
| Ext_MapClear
| Ext_MapReserve
| Ext_CallSlot (slot : N) (app : N)
| Ext_NewSlot (slot : N) (app : N)
| Ext_LoadSlot (slot : N)
| Ext_SendSlot (slot : N)
| Ext_SyntaxTreeRoot
| Ext_SyntaxKind
| Ext_SyntaxCategory
| Ext_SyntaxRangeStart
| Ext_SyntaxRangeEnd
| Ext_SyntaxText
| Ext_SyntaxChildren
| Ext_SyntaxDetach
| Ext_DynPack (ty : N)
| Ext_DynRender
| Ext_SyntaxBuildToken
| Ext_SyntaxBuildTrivia
| Ext_SyntaxBuildNode
| Ext_SyntaxToTree
| Ext_FunctionCode (func : N)
| Ext_ClassCode (class : N)
| Ext_ModuleCode (module : N)
| Ext_ReflectionDeclarations
| Ext_ReflectionOpen
| Ext_ReflectionMembers
| Ext_ReflectionName
| Ext_ReflectionDeclarationKind
| Ext_ReflectionMemberKind
| Ext_ReflectionTypeParameterCount
| Ext_ReflectionInterfaceNames
| Ext_ReflectionRefine (pattern : N) (fail : N)
| Ext_ReflectionEnd (pattern : N) (bases : N)
| Ext_CodeSource (ty : N)
| Ext_CodeDefinition
| Ext_FaultSite (ty : N)
| Ext_FaultTrace (ty : N)
| Ext_MapProbe
| Ext_MapProbeFound
| Ext_MapProbeKey
| Ext_MapProbeValue
| Ext_MapProbeSetValue
| Ext_MapProbeRemove
| Ext_MapInsertHashed
| Ext_MapWriteGuard
| Ext_PrepareWait (op_argc : N) (reply_ty : N)
| Ext_RegexCaptures (ty : N)
| Ext_RegexMatchGroup (ty : N)
| Ext_RegexMatchNamed (ty : N).

Inductive Instr :=
| I_ConstUnit
| I_ConstBool (x0 : bool)
| I_ConstInt (x0 : Z)
| I_ConstFloat (x0 : N)
| I_ConstChar (x0 : N)
| I_ConstStr (x0 : N)
| I_ConstBytes (x0 : N)
| I_ConstRegex (x0 : N)
| I_LoadLocal (x0 : N)
| I_StoreLocal (x0 : N)
| I_Pop
| I_Add
| I_Sub
| I_Mul
| I_Div
| I_Rem
| I_Neg
| I_Not
| I_LtInt
| I_LeInt
| I_GtInt
| I_GeInt
| I_EqInt
| I_NeInt
| I_EqBool
| I_NeBool
| I_Native (x0 : NativeInstr)
| I_Numeric (x0 : NumericInstr)
| I_EqRef
| I_NeRef
| I_Call (x0 : N)
| I_CallG (func : N) (app : N)
| I_CallVirtual (selector : N) (argc : N)
| I_CallVirtualG (selector : N) (argc : N) (app : N)
| I_CallValue (argc : N)
| I_MakeClosure (func : N) (captures : N)
| I_LoadCapture (x0 : N)
| I_New (x0 : N)
| I_NewG (class : N) (app : N)
| I_LoadField (x0 : N)
| I_StoreField (x0 : N)
| I_TupleNew (ty : N) (count : N)
| I_TupleGet (x0 : N)
| I_IsType (x0 : N)
| I_CastType (x0 : N)
| I_ListNew (ty : N) (count : N)
| I_ListLen
| I_ListAt
| I_ListPush
| I_MapNew (ty : N) (count : N)
| I_MapLen
| I_MapHas
| I_MapAt
| I_MapPut (ty : N) (discard : bool)
| I_Freeze
| I_Digest (ty : N)
| I_EqDigest
| I_NeDigest
| I_Jump (x0 : N)
| I_JumpIfFalse (x0 : N)
| I_JumpIfTrue (x0 : N)
| I_Return
| I_Perform (op : N) (argc : N) (reply_ty : N)
| I_PerformValue (argc : N) (reply_ty : N)
| I_OpConst (x0 : N)
| I_TableEdit (action : N) (kind : N) (slot : N)
| I_AsCall (op : N) (ty : N)
| I_CallArgs
| I_FaultCode
| I_RequestOp
| I_FaultDenied
| I_RaiseUserPanic
| I_RaiseAssertionFailed
| I_RaiseFault
| I_Unreachable
| I_EqValue
| I_NeValue
| I_CallInterface (site : N) (recv_ty : N) (app : N)
| I_Extended (x0 : ExtendedInstr).

Definition is_terminator (i : Instr) : bool :=
  match i with
  | I_Jump _ | I_Return | I_RaiseUserPanic | I_RaiseAssertionFailed | I_RaiseFault | I_Unreachable => true
  | _ => false
  end.

(** ** Packed operands *)

Definition refl_tag (k : ReflectionKind) : N :=
  match k with
  | Refl_Class => 0
  | Refl_Function => 1
  | Refl_Method => 2
  | Refl_Constant => 3
  | Refl_ClassDescriptor => 4
  | Refl_Code => 5
  end.

Definition refl_from_tag (tag : N) : option ReflectionKind :=
  match tag with
  | 0 => Some Refl_Class
  | 1 => Some Refl_Function
  | 2 => Some Refl_Method
  | 3 => Some Refl_Constant
  | 4 => Some Refl_ClassDescriptor
  | 5 => Some Refl_Code
  | _ => None
  end.

Definition REFLECTION_FUNCTION_BITS : N := 29.
Definition REFLECTION_FUNCTION_MASK : N := N.shiftl 1 REFLECTION_FUNCTION_BITS - 1.

(** [ReflectionPattern::new]. *)
Definition pattern_new (kind : ReflectionKind) (function : N) : option N :=
  if REFLECTION_FUNCTION_MASK <? function then None
  else Some (N.lor (as_u32 (N.shiftl (refl_tag kind) REFLECTION_FUNCTION_BITS)) function).

(** [ReflectionPattern::kind]. *)
Definition pattern_kind (p : N) : ReflectionKind :=
  match N.shiftr p REFLECTION_FUNCTION_BITS with
  | 0 => Refl_Class
  | 1 => Refl_Function
  | 2 => Refl_Method
  | 3 => Refl_Constant
  | 4 => Refl_ClassDescriptor
  | _ => Refl_Code
  end.

(** [ReflectionPattern::function]. *)
Definition pattern_function (p : N) : N := N.land p REFLECTION_FUNCTION_MASK.

Definition U16_MAX : N := 65535.

(** [ReflectionBases::new] and its fields. *)
Definition bases_new (type_base effect_base : N) : option N :=
  if (U16_MAX <? type_base) || (U16_MAX <? effect_base) then None
  else Some (N.lor type_base (as_u32 (N.shiftl effect_base 16))).
Definition bases_type_base (b : N) : N := N.land b U16_MAX.
Definition bases_effect_base (b : N) : N := N.shiftr b 16.

Definition WAIT_FIELD_BITS : N := 16.
Definition WAIT_FIELD_MAX : N := N.shiftl 1 WAIT_FIELD_BITS - 1.

Definition prepare_wait (op argc reply_ty : N) : option ExtendedInstr :=
  if (WAIT_FIELD_MAX <? op) || (WAIT_FIELD_MAX <? argc) then None
  else Some (Ext_PrepareWait (N.lor op (as_u32 (N.shiftl argc WAIT_FIELD_BITS))) reply_ty).

Definition wait_parts (op_argc : N) : N * N :=
  (N.land op_argc WAIT_FIELD_MAX, N.shiftr op_argc WAIT_FIELD_BITS).

(** ** Instruction writers *)

Definition numeric_tag (i : NumericInstr) : N :=
  match i with
  | Num_IntBitAnd => 0
  | Num_IntBitOr => 1
  | Num_IntBitXor => 2
  | Num_IntBitNot => 3
  | Num_IntShl => 4
  | Num_IntShr => 5
  | Num_IntUshr => 6
  | Num_IntWrappingAdd => 7
  | Num_IntWrappingSub => 8
  | Num_IntWrappingMul => 9
  | Num_IntRotateLeft => 10
  | Num_IntRotateRight => 11
  | Num_IntToFloat => 12
  | Num_FloatNeg => 13
  | Num_FloatAdd => 14
  | Num_FloatSub => 15
  | Num_FloatMul => 16
  | Num_FloatDiv => 17
  | Num_FloatEq => 18
  | Num_FloatNe => 19
  | Num_FloatLt => 20
  | Num_FloatLe => 21
  | Num_FloatGt => 22
  | Num_FloatGe => 23
  | Num_FloatIsNan => 24
  | Num_FloatHash => 25
  | Num_FloatBits => 26
  | Num_FloatFromBits => 27
  | Num_FloatToIntStatus => 28
  | Num_FloatToIntValue => 29
  | Num_SbAppendFloat => 30
  | Num_BytesBitAnd => 31
  | Num_BytesBitOr => 32
  | Num_BytesBitXor => 33
  | Num_BytesBitNot => 34
  | Num_TextParseFloatStatus => 35
  | Num_TextParseFloatValue => 36
  | Num_FloatFixed => 37
  | Num_IntCountOnes => 38
  | Num_IntLeadingZeros => 39
  | Num_IntTrailingZeros => 40
  | Num_IntSignum => 41
  | Num_FloatAbs => 42
  | Num_FloatMin => 43
  | Num_FloatMax => 44
  | Num_FloatSqrt => 45
  | Num_FloatFloor => 46
  | Num_FloatCeil => 47
  | Num_FloatRound => 48
  | Num_FloatTrunc => 49
  | Num_FloatIsFinite => 50
  | Num_FloatIsInfinite => 51
  | Num_FloatRem => 52
  | Num_FloatCopySign => 53
  | Num_FloatMulAdd => 54
  | Num_FloatPow => 55
  | Num_FloatExp => 56
  | Num_FloatExp2 => 57
  | Num_FloatExpM1 => 58
  | Num_FloatLn => 59
  | Num_FloatLog2 => 60
  | Num_FloatLog10 => 61
  | Num_FloatLn1P => 62
  | Num_FloatCbrt => 63
  | Num_FloatHypot => 64
  | Num_FloatSin => 65
  | Num_FloatCos => 66
  | Num_FloatTan => 67
  | Num_FloatAsin => 68
  | Num_FloatAcos => 69
  | Num_FloatAtan => 70
  | Num_FloatAtan2 => 71
  | Num_FloatSinh => 72
  | Num_FloatCosh => 73
  | Num_FloatTanh => 74
  | Num_FloatAsinh => 75
  | Num_FloatAcosh => 76
  | Num_FloatAtanh => 77
  | Num_IntRotateLeft32 => 78
  | Num_IntRotateRight32 => 79
  end.

Definition native_extension_tag (instr : NativeInstr) : option N :=
  match instr with
  | Nat_RegexCompileStatus => Some EXT_REGEX_COMPILE_STATUS
  | Nat_RegexCompileValue => Some EXT_REGEX_COMPILE_VALUE
  | Nat_RegexSource => Some EXT_REGEX_SOURCE
  | Nat_RegexIsMatch => Some EXT_REGEX_IS_MATCH
  | Nat_RegexCount => Some EXT_REGEX_COUNT
  | Nat_RegexSplit => Some EXT_REGEX_SPLIT
  | Nat_RegexReplaceAll => Some EXT_REGEX_REPLACE_ALL
  | Nat_RegexMatchStart => Some EXT_REGEX_MATCH_START
  | Nat_RegexMatchEnd => Some EXT_REGEX_MATCH_END
  | Nat_RegexMatchText => Some EXT_REGEX_MATCH_TEXT
  | Nat_RegexMatchGroupCount => Some EXT_REGEX_MATCH_GROUP_COUNT
  | Nat_BbSet => Some EXT_BB_SET
  | Nat_BbCapacity => Some EXT_BB_CAPACITY
  | Nat_BbTruncate => Some EXT_BB_TRUNCATE
  | Nat_BytesReadU32Be => Some EXT_BYTES_READ_U32_BE
  | Nat_BytesReadU32Le => Some EXT_BYTES_READ_U32_LE
  | _ => None
  end.

(** An optional index: a flag byte, then the index when there is one. *)
Definition encode_optional_index (value : N) : list N :=
  if value =? NO_APP then [0] else [1] ++ write_u32 value.

(** The arms of [Instr::Native]. *)
Definition encode_native (instr : NativeInstr) : list N :=
  match instr with
  | Nat_EqStr => [OP_EQ_STR]
  | Nat_NeStr => [OP_NE_STR]
  | Nat_StrByteLen => [OP_STR_BYTE_LEN]
  | Nat_StrCharCount => [OP_STR_CHAR_COUNT]
  | Nat_StrConcat => [OP_STR_CONCAT]
  | Nat_StrStartsWith => [OP_STR_STARTS_WITH]
  | Nat_StrEndsWith => [OP_STR_ENDS_WITH]
  | Nat_StrContains => [OP_STR_CONTAINS]
  | Nat_StrFindIndex => [OP_STR_FIND_INDEX]
  | Nat_TextFindByteIndex => [OP_TEXT_FIND_BYTE_INDEX]
  | Nat_TextAtByte => [OP_TEXT_AT_BYTE]
  | Nat_TextTrim => [OP_TEXT_TRIM]
  | Nat_TextTrimStart => [OP_TEXT_TRIM_START]
  | Nat_TextTrimEnd => [OP_TEXT_TRIM_END]
  | Nat_TextToLowerAscii => [OP_TEXT_TO_LOWER_ASCII]
  | Nat_TextToUpperAscii => [OP_TEXT_TO_UPPER_ASCII]
  | Nat_TextReplace => [OP_TEXT_REPLACE]
  | Nat_TextParseIntStatus => [OP_TEXT_PARSE_INT_STATUS]
  | Nat_TextParseIntValue => [OP_TEXT_PARSE_INT_VALUE]
  | Nat_TextPadStart => [OP_EXTENSION; EXT_TEXT_PAD_START]
  | Nat_TextPadEnd => [OP_EXTENSION; EXT_TEXT_PAD_END]
  | Nat_BytesEndsWith => [OP_BYTES_ENDS_WITH]
  | Nat_BytesContains => [OP_BYTES_CONTAINS]
  | Nat_TextSplit => [OP_TEXT_SPLIT]
  | Nat_TextLines => [OP_TEXT_LINES]
  | Nat_TextAt => [OP_TEXT_AT]
  | Nat_TextSlice => [OP_TEXT_SLICE]
  | Nat_TextIsBoundary => [OP_TEXT_IS_BOUNDARY]
  | Nat_TextSliceBytes => [OP_TEXT_SLICE_BYTES]
  | Nat_TextBytes => [OP_TEXT_BYTES]
  | Nat_TextLt => [OP_TEXT_LT]
  | Nat_TextLe => [OP_TEXT_LE]
  | Nat_TextGt => [OP_TEXT_GT]
  | Nat_TextGe => [OP_TEXT_GE]
  | Nat_TextToString => [OP_TEXT_TO_STRING]
  | Nat_CharCodepoint => [OP_CHAR_CODEPOINT]
  | Nat_CharUtf8Len => [OP_CHAR_UTF8_LEN]
  | Nat_EqChar => [OP_EQ_CHAR]
  | Nat_NeChar => [OP_NE_CHAR]
  | Nat_LtChar => [OP_LT_CHAR]
  | Nat_LeChar => [OP_LE_CHAR]
  | Nat_GtChar => [OP_GT_CHAR]
  | Nat_GeChar => [OP_GE_CHAR]
  | Nat_SbNew => [OP_SB_NEW]
  | Nat_SbAppendStr => [OP_SB_APPEND_STR]
  | Nat_SbAppendInt => [OP_SB_APPEND_INT]
  | Nat_SbAppendBool => [OP_SB_APPEND_BOOL]
  | Nat_SbBuild => [OP_SB_BUILD]
  | Nat_SbLen => [OP_SB_LEN]
  | Nat_SbClear => [OP_SB_CLEAR]
  | Nat_BbNew => [OP_BB_NEW]
  | Nat_BbAppend => [OP_BB_APPEND]
  | Nat_BbLen => [OP_BB_LEN]
  | Nat_BbBuild => [OP_BB_BUILD]
  | Nat_SbAppendChar => [OP_SB_APPEND_CHAR]
  | Nat_SbByteLen => [OP_SB_BYTE_LEN]
  | Nat_SbFinish => [OP_SB_FINISH]
  | Nat_BbFinish => [OP_BB_FINISH]
  | Nat_BytesCompact => [OP_BYTES_COMPACT]
  | Nat_BytesTextView => [OP_BYTES_TEXT_VIEW]
  | Nat_TextHash => [OP_TEXT_HASH]
  | Nat_BytesHash => [OP_BYTES_HASH]
  | Nat_HashCombine => [OP_HASH_COMBINE]
  | Nat_HashUnorderedCombine => [OP_HASH_UNORDERED_COMBINE]
  | Nat_LtBytes => [OP_LT_BYTES]
  | Nat_LeBytes => [OP_LE_BYTES]
  | Nat_GtBytes => [OP_GT_BYTES]
  | Nat_GeBytes => [OP_GE_BYTES]
  | Nat_BbExtend => [OP_BB_EXTEND]
  | Nat_BbReserve => [OP_BB_RESERVE]
  | Nat_BbClear => [OP_BB_CLEAR]
  | Nat_BbAt => [OP_BB_AT]
  | Nat_BbFindFrom => [OP_BB_FIND_FROM]
  | Nat_BytesNew => [OP_BYTES_NEW]
  | Nat_BytesLen => [OP_BYTES_LEN]
  | Nat_BytesText => [OP_BYTES_TEXT]
  | Nat_BytesTextRange => [OP_EXTENSION; EXT_BYTES_TEXT_RANGE]
  | Nat_BytesAt => [OP_BYTES_AT]
  | Nat_BytesGet => [OP_BYTES_GET]
  | Nat_BytesSlice => [OP_BYTES_SLICE]
  | Nat_BytesConcat => [OP_BYTES_CONCAT]
  | Nat_BytesStartsWith => [OP_BYTES_STARTS_WITH]
  | Nat_BytesFindIndex => [OP_BYTES_FIND_INDEX]
  | Nat_BytesHex => [OP_BYTES_HEX]
  | Nat_BytesIsUtf8 => [OP_BYTES_IS_UTF8]
  | Nat_EqBytes => [OP_EQ_BYTES]
  | Nat_NeBytes => [OP_NE_BYTES]
  | Nat_RegexCompileStatus | Nat_RegexCompileValue | Nat_RegexSource | Nat_RegexIsMatch | Nat_RegexCount | Nat_RegexSplit | Nat_RegexReplaceAll | Nat_RegexMatchStart | Nat_RegexMatchEnd | Nat_RegexMatchText | Nat_RegexMatchGroupCount | Nat_BbSet | Nat_BbCapacity | Nat_BbTruncate | Nat_BytesReadU32Be | Nat_BytesReadU32Le => 
      match native_extension_tag instr with
      | Some tag => [OP_EXTENSION; tag]
      | None => []
      end
  end.

Definition encode_extended (instr : ExtendedInstr) : list N :=
  match instr with
  | Ext_PrepareWait op_argc reply_ty => let (op, argc) := wait_parts op_argc in
      [OP_PREPARE_WAIT] ++ write_u32 op ++ write_u32 argc ++ write_u32 reply_ty
  | Ext_RegexCaptures ty => [OP_EXTENSION; EXT_REGEX_CAPTURES] ++ write_u32 ty
  | Ext_RegexMatchGroup ty => [OP_EXTENSION; EXT_REGEX_MATCH_GROUP] ++ write_u32 ty
  | Ext_RegexMatchNamed ty => [OP_EXTENSION; EXT_REGEX_MATCH_NAMED] ++ write_u32 ty
  | Ext_MakeCallback func captures => [OP_MAKE_CALLBACK] ++ write_u32 func ++ write_u32 captures
  | Ext_AsCallback => [OP_AS_CALLBACK]
  | Ext_OptionSome ty => [OP_OPTION_SOME] ++ write_u32 ty
  | Ext_OptionNone ty => [OP_OPTION_NONE] ++ write_u32 ty
  | Ext_OptionPayload ty => [OP_OPTION_PAYLOAD] ++ write_u32 ty
  | Ext_ListGet ty => [OP_LIST_GET] ++ write_u32 ty
  | Ext_MapGet ty => [OP_MAP_GET] ++ write_u32 ty
  | Ext_MapPutText ty discard => [OP_EXTENSION; EXT_MAP_PUT_TEXT] ++ write_u32 ty ++ [bool_byte discard]
  | Ext_MapInternTextRange => [OP_EXTENSION; EXT_MAP_INTERN_TEXT_RANGE]
  | Ext_ListEpoch => [OP_LIST_EPOCH]
  | Ext_ListIterLen => [OP_LIST_ITER_LEN]
  | Ext_MapEpoch => [OP_MAP_EPOCH]
  | Ext_MapIterLen => [OP_MAP_ITER_LEN]
  | Ext_MapNextIndex => [OP_MAP_NEXT_INDEX]
  | Ext_SealInstance => [OP_SEAL_INSTANCE]
  | Ext_MapKeyAt => [OP_MAP_KEY_AT]
  | Ext_MapValueAt => [OP_MAP_VALUE_AT]
  | Ext_ListCapacity => [OP_LIST_CAPACITY]
  | Ext_ListSet => [OP_LIST_SET]
  | Ext_ListPop ty => [OP_LIST_POP] ++ write_u32 ty
  | Ext_ListInsert => [OP_LIST_INSERT]
  | Ext_ListRemove => [OP_LIST_REMOVE]
  | Ext_ListSwapRemove => [OP_LIST_SWAP_REMOVE]
  | Ext_ListSwap => [OP_EXTENSION; EXT_LIST_SWAP]
  | Ext_ListReserve => [OP_LIST_RESERVE]
  | Ext_ListTruncate => [OP_LIST_TRUNCATE]
  | Ext_ListContains => [OP_LIST_CONTAINS]
  | Ext_ListReorder => [OP_LIST_REORDER]
  | Ext_MapRemove ty => [OP_MAP_REMOVE] ++ write_u32 ty
  | Ext_MapClear => [OP_MAP_CLEAR]
  | Ext_MapReserve => [OP_MAP_RESERVE]
  | Ext_CallSlot slot app => [OP_CALL_SLOT] ++ write_u32 slot ++ encode_optional_index app
  | Ext_NewSlot slot app => [OP_NEW_SLOT] ++ write_u32 slot ++ encode_optional_index app
  | Ext_LoadSlot slot => [OP_LOAD_SLOT] ++ write_u32 slot
  | Ext_SendSlot slot => [OP_SEND_SLOT] ++ write_u32 slot
  | Ext_SyntaxTreeRoot => [OP_SYNTAX_TREE_ROOT]
  | Ext_SyntaxKind => [OP_SYNTAX_KIND]
  | Ext_SyntaxCategory => [OP_SYNTAX_CATEGORY]
  | Ext_SyntaxRangeStart => [OP_SYNTAX_RANGE_START]
  | Ext_SyntaxRangeEnd => [OP_SYNTAX_RANGE_END]
  | Ext_SyntaxText => [OP_SYNTAX_TEXT]
  | Ext_SyntaxChildren => [OP_SYNTAX_CHILDREN]
  | Ext_SyntaxDetach => [OP_SYNTAX_DETACH]
  | Ext_DynPack ty => [OP_DYN_PACK] ++ write_u32 ty
  | Ext_DynRender => [OP_DYN_RENDER]
  | Ext_SyntaxBuildToken => [OP_SYNTAX_BUILD_TOKEN]
  | Ext_SyntaxBuildTrivia => [OP_SYNTAX_BUILD_TRIVIA]
  | Ext_SyntaxBuildNode => [OP_SYNTAX_BUILD_NODE]
  | Ext_SyntaxToTree => [OP_SYNTAX_TO_TREE]
  | Ext_FunctionCode func => [OP_FUNCTION_CODE] ++ write_u32 func
  | Ext_ClassCode class => [OP_CLASS_CODE] ++ write_u32 class
  | Ext_ModuleCode module => [OP_EXTENSION; EXT_MODULE_CODE] ++ write_u32 module
  | Ext_ReflectionDeclarations => [OP_EXTENSION; EXT_REFLECTION_DECLARATIONS]
  | Ext_ReflectionOpen => [OP_EXTENSION; EXT_REFLECTION_OPEN]
  | Ext_ReflectionMembers => [OP_EXTENSION; EXT_REFLECTION_MEMBERS]
  | Ext_ReflectionName => [OP_EXTENSION; EXT_REFLECTION_NAME]
  | Ext_ReflectionDeclarationKind => [OP_EXTENSION; EXT_REFLECTION_DECLARATION_KIND]
  | Ext_ReflectionMemberKind => [OP_EXTENSION; EXT_REFLECTION_MEMBER_KIND]
  | Ext_ReflectionTypeParameterCount => [OP_EXTENSION; EXT_REFLECTION_TYPE_PARAMETER_COUNT]
  | Ext_ReflectionInterfaceNames => [OP_EXTENSION; EXT_REFLECTION_INTERFACE_NAMES]
  | Ext_ReflectionRefine pattern fail => [OP_EXTENSION; EXT_REFLECTION_REFINE; refl_tag (pattern_kind pattern)] ++ write_u32 (pattern_function pattern) ++ write_u32 fail
  | Ext_ReflectionEnd pattern bases => [OP_EXTENSION; EXT_REFLECTION_END] ++ write_u32 pattern ++ write_u32 (bases_type_base bases) ++ write_u32 (bases_effect_base bases)
  | Ext_CodeSource ty => [OP_CODE_SOURCE] ++ write_u32 ty
  | Ext_CodeDefinition => [OP_CODE_DEFINITION]
  | Ext_FaultSite ty => [OP_FAULT_SITE] ++ write_u32 ty
  | Ext_FaultTrace ty => [OP_FAULT_TRACE] ++ write_u32 ty
  | Ext_MapProbe => [OP_MAP_PROBE]
  | Ext_MapProbeFound => [OP_MAP_PROBE_FOUND]
  | Ext_MapProbeKey => [OP_MAP_PROBE_KEY]
  | Ext_MapProbeValue => [OP_MAP_PROBE_VALUE]
  | Ext_MapProbeSetValue => [OP_MAP_PROBE_SET_VALUE]
  | Ext_MapProbeRemove => [OP_MAP_PROBE_REMOVE]
  | Ext_MapInsertHashed => [OP_MAP_INSERT_HASHED]
  | Ext_MapWriteGuard => [OP_MAP_WRITE_GUARD]
  end.

(** The arms of calls, allocations and containers; [encode_instr] sends exactly these here. *)
Definition encode_site (instr : Instr) : list N :=
  match instr with
  | I_Call idx => [OP_CALL] ++ write_u32 idx
  | I_CallG func app => [OP_CALL_G] ++ write_u32 func ++ write_u32 app
  | I_CallVirtual selector argc => [OP_CALL_VIRTUAL] ++ write_u32 selector ++ write_u32 argc
  | I_CallVirtualG selector argc app => [OP_CALL_VIRTUAL_G] ++ write_u32 selector ++ write_u32 argc ++ write_u32 app
  | I_CallValue argc => [OP_CALL_VALUE] ++ write_u32 argc
  | I_MakeClosure func captures => [OP_MAKE_CLOSURE] ++ write_u32 func ++ write_u32 captures
  | I_LoadCapture idx => [OP_LOAD_CAPTURE] ++ write_u32 idx
  | I_New class => [OP_NEW] ++ write_u32 class
  | I_NewG class app => [OP_NEW_G] ++ write_u32 class ++ write_u32 app
  | I_LoadField field => [OP_LOAD_FIELD] ++ write_u32 field
  | I_StoreField field => [OP_STORE_FIELD] ++ write_u32 field
  | I_TupleNew ty count => [OP_TUPLE_NEW] ++ write_u32 ty ++ write_u32 count
  | I_TupleGet index => [OP_TUPLE_GET] ++ write_u32 index
  | I_IsType ty => [OP_IS_TYPE] ++ write_u32 ty
  | I_CastType ty => [OP_CAST_TYPE] ++ write_u32 ty
  | I_ListNew ty count => [OP_LIST_NEW] ++ write_u32 ty ++ write_u32 count
  | I_ListLen => [OP_LIST_LEN]
  | I_ListAt => [OP_LIST_AT]
  | I_ListPush => [OP_LIST_PUSH]
  | I_MapNew ty count => [OP_MAP_NEW] ++ write_u32 ty ++ write_u32 count
  | I_MapLen => [OP_MAP_LEN]
  | I_MapHas => [OP_MAP_HAS]
  | I_MapAt => [OP_MAP_AT]
  | I_MapPut ty discard => [OP_MAP_PUT] ++ write_u32 ty ++ [bool_byte discard]
  | _ => []
  end.

(** The arms of control flow, effects and faults; [encode_instr] sends exactly these here. *)
Definition encode_control (instr : Instr) : list N :=
  match instr with
  | I_Freeze => [OP_FREEZE]
  | I_Digest ty => [OP_DIGEST] ++ write_u32 ty
  | I_EqDigest => [OP_EQ_DIGEST]
  | I_NeDigest => [OP_NE_DIGEST]
  | I_Jump block => [OP_JUMP] ++ write_u32 block
  | I_JumpIfFalse block => [OP_JUMP_IF_FALSE] ++ write_u32 block
  | I_JumpIfTrue block => [OP_JUMP_IF_TRUE] ++ write_u32 block
  | I_Return => [OP_RETURN]
  | I_Perform op argc reply_ty => [OP_PERFORM] ++ write_u32 op ++ write_u32 argc ++ write_u32 reply_ty
  | I_PerformValue argc reply_ty => [OP_PERFORM_VALUE] ++ write_u32 argc ++ write_u32 reply_ty
  | I_OpConst op => [OP_OP_CONST] ++ write_u32 op
  | I_TableEdit action kind slot => [OP_TABLE_EDIT] ++ write_u32 action ++ write_u32 kind ++ write_u32 slot
  | I_AsCall op ty => [OP_AS_CALL] ++ write_u32 op ++ write_u32 ty
  | I_CallArgs => [OP_CALL_ARGS]
  | I_FaultCode => [OP_FAULT_CODE]
  | I_FaultDenied => [OP_FAULT_DENIED]
  | I_RaiseUserPanic => [OP_RAISE_USER_PANIC]
  | I_RaiseAssertionFailed => [OP_RAISE_ASSERTION_FAILED]
  | I_RaiseFault => [OP_RAISE_FAULT]
  | I_RequestOp => [OP_REQUEST_OP]
  | I_Unreachable => [OP_UNREACHABLE]
  | _ => []
  end.

Definition encode_instr (instr : Instr) : list N :=
  match instr with
  | I_ConstUnit => [OP_CONST_UNIT]
  | I_ConstBool v => [OP_CONST_BOOL; bool_byte v]
  | I_ConstInt v => [OP_CONST_INT] ++ write_i64 v
  | I_ConstFloat bits => [OP_CONST_FLOAT] ++ write_u64 bits
  | I_ConstChar value => [OP_CONST_CHAR] ++ write_u32 value
  | I_ConstStr idx => [OP_CONST_STR] ++ write_u32 idx
  | I_ConstBytes idx => [OP_CONST_BYTES] ++ write_u32 idx
  | I_ConstRegex idx => [OP_EXTENSION; EXT_CONST_REGEX] ++ write_u32 idx
  | I_Numeric instr => [OP_NUMERIC; numeric_tag instr]
  | I_LoadLocal slot => [OP_LOAD_LOCAL] ++ write_u32 slot
  | I_StoreLocal slot => [OP_STORE_LOCAL] ++ write_u32 slot
  | I_Pop => [OP_POP]
  | I_Add => [OP_ADD]
  | I_Sub => [OP_SUB]
  | I_Mul => [OP_MUL]
  | I_Div => [OP_DIV]
  | I_Rem => [OP_REM]
  | I_Neg => [OP_NEG]
  | I_Not => [OP_NOT]
  | I_LtInt => [OP_LT_INT]
  | I_LeInt => [OP_LE_INT]
  | I_GtInt => [OP_GT_INT]
  | I_GeInt => [OP_GE_INT]
  | I_EqInt => [OP_EQ_INT]
  | I_NeInt => [OP_NE_INT]
  | I_EqBool => [OP_EQ_BOOL]
  | I_NeBool => [OP_NE_BOOL]
  | I_EqRef => [OP_EQ_REF]
  | I_EqValue => [OP_EQ_VALUE]
  | I_NeValue => [OP_NE_VALUE]
  | I_CallInterface site recv_ty app => [OP_CALL_INTERFACE] ++ write_u32 site ++ write_u32 recv_ty ++ encode_optional_index app
  | I_Extended instr => encode_extended instr
  | I_NeRef => [OP_NE_REF]
  | I_Native n => encode_native n
  | I_Call _ | I_CallG _ _ | I_CallVirtual _ _ | I_CallVirtualG _ _ _ | I_CallValue _ | I_MakeClosure _ _ | I_LoadCapture _ | I_New _ | I_NewG _ _ | I_LoadField _ | I_StoreField _ | I_TupleNew _ _ | I_TupleGet _ | I_IsType _ | I_CastType _ | I_ListNew _ _ | I_ListLen | I_ListAt | I_ListPush | I_MapNew _ _ | I_MapLen | I_MapHas | I_MapAt | I_MapPut _ _ => encode_site instr
  | I_Freeze | I_Digest _ | I_EqDigest | I_NeDigest | I_Jump _ | I_JumpIfFalse _ | I_JumpIfTrue _ | I_Return | I_Perform _ _ _ | I_PerformValue _ _ | I_OpConst _ | I_TableEdit _ _ _ | I_AsCall _ _ | I_CallArgs | I_FaultCode | I_FaultDenied | I_RaiseUserPanic | I_RaiseAssertionFailed | I_RaiseFault | I_RequestOp | I_Unreachable => encode_control instr
  end.

(** ** Instruction readers *)

Definition numeric_from_tag (tag : N) : option NumericInstr :=
  match tag with
  | 0 => Some Num_IntBitAnd
  | 1 => Some Num_IntBitOr
  | 2 => Some Num_IntBitXor
  | 3 => Some Num_IntBitNot
  | 4 => Some Num_IntShl
  | 5 => Some Num_IntShr
  | 6 => Some Num_IntUshr
  | 7 => Some Num_IntWrappingAdd
  | 8 => Some Num_IntWrappingSub
  | 9 => Some Num_IntWrappingMul
  | 10 => Some Num_IntRotateLeft
  | 11 => Some Num_IntRotateRight
  | 12 => Some Num_IntToFloat
  | 13 => Some Num_FloatNeg
  | 14 => Some Num_FloatAdd
  | 15 => Some Num_FloatSub
  | 16 => Some Num_FloatMul
  | 17 => Some Num_FloatDiv
  | 18 => Some Num_FloatEq
  | 19 => Some Num_FloatNe
  | 20 => Some Num_FloatLt
  | 21 => Some Num_FloatLe
  | 22 => Some Num_FloatGt
  | 23 => Some Num_FloatGe
  | 24 => Some Num_FloatIsNan
  | 25 => Some Num_FloatHash
  | 26 => Some Num_FloatBits
  | 27 => Some Num_FloatFromBits
  | 28 => Some Num_FloatToIntStatus
  | 29 => Some Num_FloatToIntValue
  | 30 => Some Num_SbAppendFloat
  | 31 => Some Num_BytesBitAnd
  | 32 => Some Num_BytesBitOr
  | 33 => Some Num_BytesBitXor
  | 34 => Some Num_BytesBitNot
  | 35 => Some Num_TextParseFloatStatus
  | 36 => Some Num_TextParseFloatValue
  | 37 => Some Num_FloatFixed
  | 38 => Some Num_IntCountOnes
  | 39 => Some Num_IntLeadingZeros
  | 40 => Some Num_IntTrailingZeros
  | 41 => Some Num_IntSignum
  | 42 => Some Num_FloatAbs
  | 43 => Some Num_FloatMin
  | 44 => Some Num_FloatMax
  | 45 => Some Num_FloatSqrt
  | 46 => Some Num_FloatFloor
  | 47 => Some Num_FloatCeil
  | 48 => Some Num_FloatRound
  | 49 => Some Num_FloatTrunc
  | 50 => Some Num_FloatIsFinite
  | 51 => Some Num_FloatIsInfinite
  | 52 => Some Num_FloatRem
  | 53 => Some Num_FloatCopySign
  | 54 => Some Num_FloatMulAdd
  | 55 => Some Num_FloatPow
  | 56 => Some Num_FloatExp
  | 57 => Some Num_FloatExp2
  | 58 => Some Num_FloatExpM1
  | 59 => Some Num_FloatLn
  | 60 => Some Num_FloatLog2
  | 61 => Some Num_FloatLog10
  | 62 => Some Num_FloatLn1P
  | 63 => Some Num_FloatCbrt
  | 64 => Some Num_FloatHypot
  | 65 => Some Num_FloatSin
  | 66 => Some Num_FloatCos
  | 67 => Some Num_FloatTan
  | 68 => Some Num_FloatAsin
  | 69 => Some Num_FloatAcos
  | 70 => Some Num_FloatAtan
  | 71 => Some Num_FloatAtan2
  | 72 => Some Num_FloatSinh
  | 73 => Some Num_FloatCosh
  | 74 => Some Num_FloatTanh
  | 75 => Some Num_FloatAsinh
  | 76 => Some Num_FloatAcosh
  | 77 => Some Num_FloatAtanh
  | 78 => Some Num_IntRotateLeft32
  | 79 => Some Num_IntRotateRight32
  | _ => None
  end%N.

Definition decode_optional_index : Dec N :=
  some ← cur_flag;
  if (some : bool) then cur_u32 else dret NO_APP.

(** The arms of the extension prefix. *)
Definition decode_extension (ext : N) : Dec Instr :=
  if (ext =? EXT_TEXT_PAD_START)%N then dret (I_Native Nat_TextPadStart)
  else if (ext =? EXT_TEXT_PAD_END)%N then dret (I_Native Nat_TextPadEnd)
  else if (ext =? EXT_MAP_PUT_TEXT)%N then ty ← cur_u32; discard ← cur_flag; dret (I_Extended (Ext_MapPutText ty discard))
  else if (ext =? EXT_BYTES_TEXT_RANGE)%N then dret (I_Native Nat_BytesTextRange)
  else if (ext =? EXT_MAP_INTERN_TEXT_RANGE)%N then dret (I_Extended Ext_MapInternTextRange)
  else if (ext =? EXT_CONST_REGEX)%N then x0 ← cur_u32; dret (I_ConstRegex x0)
  else if (ext =? EXT_REGEX_COMPILE_STATUS)%N then dret (I_Native Nat_RegexCompileStatus)
  else if (ext =? EXT_REGEX_COMPILE_VALUE)%N then dret (I_Native Nat_RegexCompileValue)
  else if (ext =? EXT_REGEX_SOURCE)%N then dret (I_Native Nat_RegexSource)
  else if (ext =? EXT_REGEX_IS_MATCH)%N then dret (I_Native Nat_RegexIsMatch)
  else if (ext =? EXT_REGEX_COUNT)%N then dret (I_Native Nat_RegexCount)
  else if (ext =? EXT_REGEX_SPLIT)%N then dret (I_Native Nat_RegexSplit)
  else if (ext =? EXT_REGEX_REPLACE_ALL)%N then dret (I_Native Nat_RegexReplaceAll)
  else if (ext =? EXT_REGEX_MATCH_START)%N then dret (I_Native Nat_RegexMatchStart)
  else if (ext =? EXT_REGEX_MATCH_END)%N then dret (I_Native Nat_RegexMatchEnd)
  else if (ext =? EXT_REGEX_MATCH_TEXT)%N then dret (I_Native Nat_RegexMatchText)
  else if (ext =? EXT_REGEX_MATCH_GROUP_COUNT)%N then dret (I_Native Nat_RegexMatchGroupCount)
  else if (ext =? EXT_REGEX_CAPTURES)%N then ty ← cur_u32; dret (I_Extended (Ext_RegexCaptures ty))
  else if (ext =? EXT_REGEX_MATCH_GROUP)%N then ty ← cur_u32; dret (I_Extended (Ext_RegexMatchGroup ty))
  else if (ext =? EXT_REGEX_MATCH_NAMED)%N then ty ← cur_u32; dret (I_Extended (Ext_RegexMatchNamed ty))
  else if (ext =? EXT_LIST_SWAP)%N then dret (I_Extended Ext_ListSwap)
  else if (ext =? EXT_BB_SET)%N then dret (I_Native Nat_BbSet)
  else if (ext =? EXT_BB_CAPACITY)%N then dret (I_Native Nat_BbCapacity)
  else if (ext =? EXT_BB_TRUNCATE)%N then dret (I_Native Nat_BbTruncate)
  else if (ext =? EXT_BYTES_READ_U32_BE)%N then dret (I_Native Nat_BytesReadU32Be)
  else if (ext =? EXT_BYTES_READ_U32_LE)%N then dret (I_Native Nat_BytesReadU32Le)
  else if (ext =? EXT_MODULE_CODE)%N then module ← cur_u32; dret (I_Extended (Ext_ModuleCode module))
  else if (ext =? EXT_REFLECTION_DECLARATIONS)%N then dret (I_Extended Ext_ReflectionDeclarations)
  else if (ext =? EXT_REFLECTION_OPEN)%N then dret (I_Extended Ext_ReflectionOpen)
  else if (ext =? EXT_REFLECTION_MEMBERS)%N then dret (I_Extended Ext_ReflectionMembers)
  else if (ext =? EXT_REFLECTION_NAME)%N then dret (I_Extended Ext_ReflectionName)
  else if (ext =? EXT_REFLECTION_DECLARATION_KIND)%N then dret (I_Extended Ext_ReflectionDeclarationKind)
  else if (ext =? EXT_REFLECTION_MEMBER_KIND)%N then dret (I_Extended Ext_ReflectionMemberKind)
  else if (ext =? EXT_REFLECTION_TYPE_PARAMETER_COUNT)%N then dret (I_Extended Ext_ReflectionTypeParameterCount)
  else if (ext =? EXT_REFLECTION_INTERFACE_NAMES)%N then dret (I_Extended Ext_ReflectionInterfaceNames)
  else if (ext =? EXT_REFLECTION_REFINE)%N then tag ← cur_u8; kind ← dok_or (refl_from_tag tag) (BadOpcode OP_EXTENSION);
    function ← cur_u32; pattern ← dok_or (pattern_new kind function) BadLength;
    fail ← cur_u32; dret (I_Extended (Ext_ReflectionRefine pattern fail))
  else if (ext =? EXT_REFLECTION_END)%N then pattern ← cur_u32; type_base ← cur_u32; effect_base ← cur_u32;
    bases ← dok_or (bases_new type_base effect_base) BadLength;
    dret (I_Extended (Ext_ReflectionEnd pattern bases))
  else derr (BadOpcode OP_EXTENSION).

(** The arms from OP_SYNTAX_TEXT on. *)
Definition decode_op_containers (op : N) : Dec Instr :=
  if (op =? OP_SYNTAX_TEXT)%N then dret (I_Extended Ext_SyntaxText)
  else if (op =? OP_SYNTAX_CHILDREN)%N then dret (I_Extended Ext_SyntaxChildren)
  else if (op =? OP_SYNTAX_DETACH)%N then dret (I_Extended Ext_SyntaxDetach)
  else if (op =? OP_DYN_PACK)%N then ty ← cur_u32; dret (I_Extended (Ext_DynPack ty))
  else if (op =? OP_DYN_RENDER)%N then dret (I_Extended Ext_DynRender)
  else if (op =? OP_SYNTAX_BUILD_TOKEN)%N then dret (I_Extended Ext_SyntaxBuildToken)
  else if (op =? OP_SYNTAX_BUILD_TRIVIA)%N then dret (I_Extended Ext_SyntaxBuildTrivia)
  else if (op =? OP_SYNTAX_BUILD_NODE)%N then dret (I_Extended Ext_SyntaxBuildNode)
  else if (op =? OP_SYNTAX_TO_TREE)%N then dret (I_Extended Ext_SyntaxToTree)
  else if (op =? OP_FUNCTION_CODE)%N then func ← cur_u32; dret (I_Extended (Ext_FunctionCode func))
  else if (op =? OP_CLASS_CODE)%N then class ← cur_u32; dret (I_Extended (Ext_ClassCode class))
  else if (op =? OP_CODE_SOURCE)%N then ty ← cur_u32; dret (I_Extended (Ext_CodeSource ty))
  else if (op =? OP_CODE_DEFINITION)%N then dret (I_Extended Ext_CodeDefinition)
  else if (op =? OP_FAULT_SITE)%N then ty ← cur_u32; dret (I_Extended (Ext_FaultSite ty))
  else if (op =? OP_FAULT_TRACE)%N then ty ← cur_u32; dret (I_Extended (Ext_FaultTrace ty))
  else if (op =? OP_MAP_PROBE)%N then dret (I_Extended Ext_MapProbe)
  else if (op =? OP_MAP_PROBE_FOUND)%N then dret (I_Extended Ext_MapProbeFound)
  else if (op =? OP_MAP_PROBE_KEY)%N then dret (I_Extended Ext_MapProbeKey)
  else if (op =? OP_MAP_PROBE_VALUE)%N then dret (I_Extended Ext_MapProbeValue)
  else if (op =? OP_MAP_PROBE_SET_VALUE)%N then dret (I_Extended Ext_MapProbeSetValue)
  else if (op =? OP_MAP_PROBE_REMOVE)%N then dret (I_Extended Ext_MapProbeRemove)
  else if (op =? OP_MAP_INSERT_HASHED)%N then dret (I_Extended Ext_MapInsertHashed)
  else if (op =? OP_MAP_WRITE_GUARD)%N then dret (I_Extended Ext_MapWriteGuard)
  else if (op =? OP_SB_NEW)%N then dret (I_Native Nat_SbNew)
  else if (op =? OP_SB_APPEND_STR)%N then dret (I_Native Nat_SbAppendStr)
  else if (op =? OP_SB_APPEND_INT)%N then dret (I_Native Nat_SbAppendInt)
  else if (op =? OP_SB_APPEND_BOOL)%N then dret (I_Native Nat_SbAppendBool)
  else if (op =? OP_SB_BUILD)%N then dret (I_Native Nat_SbBuild)
  else if (op =? OP_SB_LEN)%N then dret (I_Native Nat_SbLen)
  else if (op =? OP_SB_CLEAR)%N then dret (I_Native Nat_SbClear)
  else if (op =? OP_BB_NEW)%N then dret (I_Native Nat_BbNew)
  else if (op =? OP_BB_APPEND)%N then dret (I_Native Nat_BbAppend)
  else if (op =? OP_BB_LEN)%N then dret (I_Native Nat_BbLen)
  else if (op =? OP_BB_BUILD)%N then dret (I_Native Nat_BbBuild)
  else if (op =? OP_SB_APPEND_CHAR)%N then dret (I_Native Nat_SbAppendChar)
  else if (op =? OP_SB_BYTE_LEN)%N then dret (I_Native Nat_SbByteLen)
  else if (op =? OP_SB_FINISH)%N then dret (I_Native Nat_SbFinish)
  else if (op =? OP_BB_FINISH)%N then dret (I_Native Nat_BbFinish)
  else if (op =? OP_BYTES_COMPACT)%N then dret (I_Native Nat_BytesCompact)
  else if (op =? OP_BYTES_TEXT_VIEW)%N then dret (I_Native Nat_BytesTextView)
  else if (op =? OP_TEXT_HASH)%N then dret (I_Native Nat_TextHash)
  else if (op =? OP_BYTES_HASH)%N then dret (I_Native Nat_BytesHash)
  else if (op =? OP_HASH_COMBINE)%N then dret (I_Native Nat_HashCombine)
  else if (op =? OP_HASH_UNORDERED_COMBINE)%N then dret (I_Native Nat_HashUnorderedCombine)
  else if (op =? OP_LT_BYTES)%N then dret (I_Native Nat_LtBytes)
  else if (op =? OP_LE_BYTES)%N then dret (I_Native Nat_LeBytes)
  else if (op =? OP_GT_BYTES)%N then dret (I_Native Nat_GtBytes)
  else if (op =? OP_GE_BYTES)%N then dret (I_Native Nat_GeBytes)
  else if (op =? OP_BB_EXTEND)%N then dret (I_Native Nat_BbExtend)
  else if (op =? OP_BB_RESERVE)%N then dret (I_Native Nat_BbReserve)
  else if (op =? OP_BB_CLEAR)%N then dret (I_Native Nat_BbClear)
  else if (op =? OP_BB_AT)%N then dret (I_Native Nat_BbAt)
  else if (op =? OP_BB_FIND_FROM)%N then dret (I_Native Nat_BbFindFrom)
  else if (op =? OP_BYTES_NEW)%N then dret (I_Native Nat_BytesNew)
  else if (op =? OP_BYTES_LEN)%N then dret (I_Native Nat_BytesLen)
  else if (op =? OP_BYTES_TEXT)%N then dret (I_Native Nat_BytesText)
  else if (op =? OP_BYTES_AT)%N then dret (I_Native Nat_BytesAt)
  else if (op =? OP_BYTES_GET)%N then dret (I_Native Nat_BytesGet)
  else if (op =? OP_BYTES_SLICE)%N then dret (I_Native Nat_BytesSlice)
  else if (op =? OP_BYTES_CONCAT)%N then dret (I_Native Nat_BytesConcat)
  else if (op =? OP_BYTES_STARTS_WITH)%N then dret (I_Native Nat_BytesStartsWith)
  else if (op =? OP_BYTES_FIND_INDEX)%N then dret (I_Native Nat_BytesFindIndex)
  else if (op =? OP_BYTES_HEX)%N then dret (I_Native Nat_BytesHex)
  else if (op =? OP_BYTES_IS_UTF8)%N then dret (I_Native Nat_BytesIsUtf8)
  else if (op =? OP_EQ_BYTES)%N then dret (I_Native Nat_EqBytes)
  else if (op =? OP_NE_BYTES)%N then dret (I_Native Nat_NeBytes)
  else if (op =? OP_FREEZE)%N then dret I_Freeze
  else if (op =? OP_DIGEST)%N then ty ← cur_u32; dret (I_Digest ty)
  else if (op =? OP_EQ_DIGEST)%N then dret I_EqDigest
  else if (op =? OP_NE_DIGEST)%N then dret I_NeDigest
  else if (op =? OP_JUMP)%N then x0 ← cur_u32; dret (I_Jump x0)
  else if (op =? OP_JUMP_IF_FALSE)%N then x0 ← cur_u32; dret (I_JumpIfFalse x0)
  else if (op =? OP_JUMP_IF_TRUE)%N then x0 ← cur_u32; dret (I_JumpIfTrue x0)
  else if (op =? OP_RETURN)%N then dret I_Return
  else if (op =? OP_PERFORM)%N then op ← cur_u32; argc ← cur_u32; reply_ty ← cur_u32; dret (I_Perform op argc reply_ty)
  else if (op =? OP_PERFORM_VALUE)%N then argc ← cur_u32; reply_ty ← cur_u32; dret (I_PerformValue argc reply_ty)
  else if (op =? OP_OP_CONST)%N then x0 ← cur_u32; dret (I_OpConst x0)
  else if (op =? OP_PREPARE_WAIT)%N then op ← cur_u32; argc ← cur_u32; reply_ty ← cur_u32;
    instruction ← dok_or (prepare_wait op argc reply_ty) BadLength; dret (I_Extended instruction)
  else if (op =? OP_TABLE_EDIT)%N then action ← cur_u32; kind ← cur_u32; slot ← cur_u32; dret (I_TableEdit action kind slot)
  else if (op =? OP_AS_CALL)%N then op ← cur_u32; ty ← cur_u32; dret (I_AsCall op ty)
  else if (op =? OP_CALL_ARGS)%N then dret I_CallArgs
  else if (op =? OP_FAULT_CODE)%N then dret I_FaultCode
  else if (op =? OP_FAULT_DENIED)%N then dret I_FaultDenied
  else if (op =? OP_RAISE_USER_PANIC)%N then dret I_RaiseUserPanic
  else if (op =? OP_RAISE_ASSERTION_FAILED)%N then dret I_RaiseAssertionFailed
  else if (op =? OP_RAISE_FAULT)%N then dret I_RaiseFault
  else if (op =? OP_REQUEST_OP)%N then dret I_RequestOp
  else if (op =? OP_UNREACHABLE)%N then dret I_Unreachable
  else derr (BadOpcode op).

(** The arms after the extension prefix, up to OP_SYNTAX_RANGE_END. *)
Definition decode_op_text (op : N) : Dec Instr :=
  if (op =? OP_BYTES_ENDS_WITH)%N then dret (I_Native Nat_BytesEndsWith)
  else if (op =? OP_BYTES_CONTAINS)%N then dret (I_Native Nat_BytesContains)
  else if (op =? OP_TEXT_SPLIT)%N then dret (I_Native Nat_TextSplit)
  else if (op =? OP_TEXT_LINES)%N then dret (I_Native Nat_TextLines)
  else if (op =? OP_TEXT_AT)%N then dret (I_Native Nat_TextAt)
  else if (op =? OP_TEXT_SLICE)%N then dret (I_Native Nat_TextSlice)
  else if (op =? OP_TEXT_IS_BOUNDARY)%N then dret (I_Native Nat_TextIsBoundary)
  else if (op =? OP_TEXT_SLICE_BYTES)%N then dret (I_Native Nat_TextSliceBytes)
  else if (op =? OP_TEXT_BYTES)%N then dret (I_Native Nat_TextBytes)
  else if (op =? OP_TEXT_LT)%N then dret (I_Native Nat_TextLt)
  else if (op =? OP_TEXT_LE)%N then dret (I_Native Nat_TextLe)
  else if (op =? OP_TEXT_GT)%N then dret (I_Native Nat_TextGt)
  else if (op =? OP_TEXT_GE)%N then dret (I_Native Nat_TextGe)
  else if (op =? OP_TEXT_TO_STRING)%N then dret (I_Native Nat_TextToString)
  else if (op =? OP_CHAR_CODEPOINT)%N then dret (I_Native Nat_CharCodepoint)
  else if (op =? OP_CHAR_UTF8_LEN)%N then dret (I_Native Nat_CharUtf8Len)
  else if (op =? OP_EQ_CHAR)%N then dret (I_Native Nat_EqChar)
  else if (op =? OP_NE_CHAR)%N then dret (I_Native Nat_NeChar)
  else if (op =? OP_LT_CHAR)%N then dret (I_Native Nat_LtChar)
  else if (op =? OP_LE_CHAR)%N then dret (I_Native Nat_LeChar)
  else if (op =? OP_GT_CHAR)%N then dret (I_Native Nat_GtChar)
  else if (op =? OP_GE_CHAR)%N then dret (I_Native Nat_GeChar)
  else if (op =? OP_EQ_REF)%N then dret I_EqRef
  else if (op =? OP_EQ_VALUE)%N then dret I_EqValue
  else if (op =? OP_NE_VALUE)%N then dret I_NeValue
  else if (op =? OP_NE_REF)%N then dret I_NeRef
  else if (op =? OP_CALL)%N then x0 ← cur_u32; dret (I_Call x0)
  else if (op =? OP_CALL_G)%N then func ← cur_u32; app ← cur_u32; dret (I_CallG func app)
  else if (op =? OP_CALL_VIRTUAL)%N then selector ← cur_u32; argc ← cur_u32; dret (I_CallVirtual selector argc)
  else if (op =? OP_CALL_VIRTUAL_G)%N then selector ← cur_u32; argc ← cur_u32; app ← cur_u32; dret (I_CallVirtualG selector argc app)
  else if (op =? OP_CALL_INTERFACE)%N then site ← cur_u32; recv_ty ← cur_u32; app ← decode_optional_index; dret (I_CallInterface site recv_ty app)
  else if (op =? OP_CALL_VALUE)%N then argc ← cur_u32; dret (I_CallValue argc)
  else if (op =? OP_MAKE_CLOSURE)%N then func ← cur_u32; captures ← cur_u32; dret (I_MakeClosure func captures)
  else if (op =? OP_MAKE_CALLBACK)%N then func ← cur_u32; captures ← cur_u32; dret (I_Extended (Ext_MakeCallback func captures))
  else if (op =? OP_AS_CALLBACK)%N then dret (I_Extended Ext_AsCallback)
  else if (op =? OP_LOAD_CAPTURE)%N then x0 ← cur_u32; dret (I_LoadCapture x0)
  else if (op =? OP_NEW)%N then x0 ← cur_u32; dret (I_New x0)
  else if (op =? OP_NEW_G)%N then class ← cur_u32; app ← cur_u32; dret (I_NewG class app)
  else if (op =? OP_LOAD_FIELD)%N then x0 ← cur_u32; dret (I_LoadField x0)
  else if (op =? OP_STORE_FIELD)%N then x0 ← cur_u32; dret (I_StoreField x0)
  else if (op =? OP_TUPLE_NEW)%N then ty ← cur_u32; count ← cur_u32; dret (I_TupleNew ty count)
  else if (op =? OP_TUPLE_GET)%N then x0 ← cur_u32; dret (I_TupleGet x0)
  else if (op =? OP_IS_TYPE)%N then x0 ← cur_u32; dret (I_IsType x0)
  else if (op =? OP_CAST_TYPE)%N then x0 ← cur_u32; dret (I_CastType x0)
  else if (op =? OP_LIST_NEW)%N then ty ← cur_u32; count ← cur_u32; dret (I_ListNew ty count)
  else if (op =? OP_LIST_LEN)%N then dret I_ListLen
  else if (op =? OP_LIST_AT)%N then dret I_ListAt
  else if (op =? OP_LIST_PUSH)%N then dret I_ListPush
  else if (op =? OP_MAP_NEW)%N then ty ← cur_u32; count ← cur_u32; dret (I_MapNew ty count)
  else if (op =? OP_MAP_LEN)%N then dret I_MapLen
  else if (op =? OP_MAP_HAS)%N then dret I_MapHas
  else if (op =? OP_MAP_AT)%N then dret I_MapAt
  else if (op =? OP_MAP_PUT)%N then ty ← cur_u32; discard ← cur_flag; dret (I_MapPut ty discard)
  else if (op =? OP_OPTION_SOME)%N then ty ← cur_u32; dret (I_Extended (Ext_OptionSome ty))
  else if (op =? OP_OPTION_NONE)%N then ty ← cur_u32; dret (I_Extended (Ext_OptionNone ty))
  else if (op =? OP_OPTION_PAYLOAD)%N then ty ← cur_u32; dret (I_Extended (Ext_OptionPayload ty))
  else if (op =? OP_LIST_GET)%N then ty ← cur_u32; dret (I_Extended (Ext_ListGet ty))
  else if (op =? OP_MAP_GET)%N then ty ← cur_u32; dret (I_Extended (Ext_MapGet ty))
  else if (op =? OP_LIST_EPOCH)%N then dret (I_Extended Ext_ListEpoch)
  else if (op =? OP_LIST_ITER_LEN)%N then dret (I_Extended Ext_ListIterLen)
  else if (op =? OP_MAP_EPOCH)%N then dret (I_Extended Ext_MapEpoch)
  else if (op =? OP_MAP_ITER_LEN)%N then dret (I_Extended Ext_MapIterLen)
  else if (op =? OP_MAP_NEXT_INDEX)%N then dret (I_Extended Ext_MapNextIndex)
  else if (op =? OP_SEAL_INSTANCE)%N then dret (I_Extended Ext_SealInstance)
  else if (op =? OP_MAP_KEY_AT)%N then dret (I_Extended Ext_MapKeyAt)
  else if (op =? OP_MAP_VALUE_AT)%N then dret (I_Extended Ext_MapValueAt)
  else if (op =? OP_LIST_CAPACITY)%N then dret (I_Extended Ext_ListCapacity)
  else if (op =? OP_LIST_SET)%N then dret (I_Extended Ext_ListSet)
  else if (op =? OP_LIST_POP)%N then ty ← cur_u32; dret (I_Extended (Ext_ListPop ty))
  else if (op =? OP_LIST_INSERT)%N then dret (I_Extended Ext_ListInsert)
  else if (op =? OP_LIST_REMOVE)%N then dret (I_Extended Ext_ListRemove)
  else if (op =? OP_LIST_SWAP_REMOVE)%N then dret (I_Extended Ext_ListSwapRemove)
  else if (op =? OP_LIST_RESERVE)%N then dret (I_Extended Ext_ListReserve)
  else if (op =? OP_LIST_TRUNCATE)%N then dret (I_Extended Ext_ListTruncate)
  else if (op =? OP_LIST_CONTAINS)%N then dret (I_Extended Ext_ListContains)
  else if (op =? OP_LIST_REORDER)%N then dret (I_Extended Ext_ListReorder)
  else if (op =? OP_MAP_REMOVE)%N then ty ← cur_u32; dret (I_Extended (Ext_MapRemove ty))
  else if (op =? OP_MAP_CLEAR)%N then dret (I_Extended Ext_MapClear)
  else if (op =? OP_MAP_RESERVE)%N then dret (I_Extended Ext_MapReserve)
  else if (op =? OP_CALL_SLOT)%N then slot ← cur_u32; app ← decode_optional_index; dret (I_Extended (Ext_CallSlot slot app))
  else if (op =? OP_NEW_SLOT)%N then slot ← cur_u32; app ← decode_optional_index; dret (I_Extended (Ext_NewSlot slot app))
  else if (op =? OP_LOAD_SLOT)%N then slot ← cur_u32; dret (I_Extended (Ext_LoadSlot slot))
  else if (op =? OP_SEND_SLOT)%N then slot ← cur_u32; dret (I_Extended (Ext_SendSlot slot))
  else if (op =? OP_SYNTAX_TREE_ROOT)%N then dret (I_Extended Ext_SyntaxTreeRoot)
  else if (op =? OP_SYNTAX_KIND)%N then dret (I_Extended Ext_SyntaxKind)
  else if (op =? OP_SYNTAX_CATEGORY)%N then dret (I_Extended Ext_SyntaxCategory)
  else if (op =? OP_SYNTAX_RANGE_START)%N then dret (I_Extended Ext_SyntaxRangeStart)
  else if (op =? OP_SYNTAX_RANGE_END)%N then dret (I_Extended Ext_SyntaxRangeEnd)
  else decode_op_containers op.

(** The first arms, up to the extension prefix. *)
Definition decode_op (op : N) : Dec Instr :=
  if (op =? OP_CONST_UNIT)%N then dret I_ConstUnit
  else if (op =? OP_CONST_BOOL)%N then x ← cur_u8; dret (I_ConstBool (negb (x =? 0)%N))
  else if (op =? OP_CONST_INT)%N then x0 ← cur_i64; dret (I_ConstInt x0)
  else if (op =? OP_CONST_FLOAT)%N then x0 ← cur_u64; dret (I_ConstFloat x0)
  else if (op =? OP_CONST_CHAR)%N then x0 ← cur_u32; dret (I_ConstChar x0)
  else if (op =? OP_CONST_STR)%N then x0 ← cur_u32; dret (I_ConstStr x0)
  else if (op =? OP_CONST_BYTES)%N then x0 ← cur_u32; dret (I_ConstBytes x0)
  else if (op =? OP_NUMERIC)%N then tag ← cur_u8; instr ← dok_or (numeric_from_tag tag) (BadOpcode OP_NUMERIC); dret (I_Numeric instr)
  else if (op =? OP_LOAD_LOCAL)%N then x0 ← cur_u32; dret (I_LoadLocal x0)
  else if (op =? OP_STORE_LOCAL)%N then x0 ← cur_u32; dret (I_StoreLocal x0)
  else if (op =? OP_POP)%N then dret I_Pop
  else if (op =? OP_ADD)%N then dret I_Add
  else if (op =? OP_SUB)%N then dret I_Sub
  else if (op =? OP_MUL)%N then dret I_Mul
  else if (op =? OP_DIV)%N then dret I_Div
  else if (op =? OP_REM)%N then dret I_Rem
  else if (op =? OP_NEG)%N then dret I_Neg
  else if (op =? OP_NOT)%N then dret I_Not
  else if (op =? OP_LT_INT)%N then dret I_LtInt
  else if (op =? OP_LE_INT)%N then dret I_LeInt
  else if (op =? OP_GT_INT)%N then dret I_GtInt
  else if (op =? OP_GE_INT)%N then dret I_GeInt
  else if (op =? OP_EQ_INT)%N then dret I_EqInt
  else if (op =? OP_NE_INT)%N then dret I_NeInt
  else if (op =? OP_EQ_BOOL)%N then dret I_EqBool
  else if (op =? OP_NE_BOOL)%N then dret I_NeBool
  else if (op =? OP_EQ_STR)%N then dret (I_Native Nat_EqStr)
  else if (op =? OP_NE_STR)%N then dret (I_Native Nat_NeStr)
  else if (op =? OP_STR_BYTE_LEN)%N then dret (I_Native Nat_StrByteLen)
  else if (op =? OP_STR_CHAR_COUNT)%N then dret (I_Native Nat_StrCharCount)
  else if (op =? OP_STR_CONCAT)%N then dret (I_Native Nat_StrConcat)
  else if (op =? OP_STR_STARTS_WITH)%N then dret (I_Native Nat_StrStartsWith)
  else if (op =? OP_STR_ENDS_WITH)%N then dret (I_Native Nat_StrEndsWith)
  else if (op =? OP_STR_CONTAINS)%N then dret (I_Native Nat_StrContains)
  else if (op =? OP_STR_FIND_INDEX)%N then dret (I_Native Nat_StrFindIndex)
  else if (op =? OP_TEXT_FIND_BYTE_INDEX)%N then dret (I_Native Nat_TextFindByteIndex)
  else if (op =? OP_TEXT_AT_BYTE)%N then dret (I_Native Nat_TextAtByte)
  else if (op =? OP_TEXT_TRIM)%N then dret (I_Native Nat_TextTrim)
  else if (op =? OP_TEXT_TRIM_START)%N then dret (I_Native Nat_TextTrimStart)
  else if (op =? OP_TEXT_TRIM_END)%N then dret (I_Native Nat_TextTrimEnd)
  else if (op =? OP_TEXT_TO_LOWER_ASCII)%N then dret (I_Native Nat_TextToLowerAscii)
  else if (op =? OP_TEXT_TO_UPPER_ASCII)%N then dret (I_Native Nat_TextToUpperAscii)
  else if (op =? OP_TEXT_REPLACE)%N then dret (I_Native Nat_TextReplace)
  else if (op =? OP_TEXT_PARSE_INT_STATUS)%N then dret (I_Native Nat_TextParseIntStatus)
  else if (op =? OP_TEXT_PARSE_INT_VALUE)%N then dret (I_Native Nat_TextParseIntValue)
  else if (op =? OP_EXTENSION)%N then ext ← cur_u8; decode_extension ext
  else decode_op_text op.

Definition decode_instr : Dec Instr := op ← cur_u8; decode_op op.

(** ** The type table *)

Inductive BcRow :=
| Row_Op (idx : N)
| Row_Group (idx : N)
| Row_Var (idx : N).

Record TypeApp := mkTypeApp { app_types : list N; app_rows : list (list BcRow) }.

Record BcInterfaceUse := mkInterfaceUse {
  use_interface : N;
  use_types : list N;
  use_rows : list (list BcRow);
}.

Inductive BcType :=
| Ty_Unit
| Ty_Never
| Ty_Bool
| Ty_Int
| Ty_Float
| Ty_Str
| Ty_Class (c : N)
| Ty_Inst (c : N) (args : list N)
| Ty_List (e : N)
| Ty_Map (k v : N)
| Ty_Tuple (elems : list N)
| Ty_Fn (params : list N) (muts : list bool) (ret : N) (row : list BcRow)
| Ty_Callback (params : list N) (muts : list bool) (ret : N) (row : list BcRow)
| Ty_Var (i : N)
| Ty_Projection (base interface assoc : N)
| Ty_Fault
| Ty_Request
| Ty_PolicyTable
| Ty_Vm
| Ty_Run (t : N)
| Ty_Wait (t : N)
| Ty_PendingCall (a r : N)
| Ty_Handle (m r : N)
| Ty_Op (op f : N)
| Ty_Digest
| Ty_VmSnapshot
| Ty_RunSnapshot (t : N)
| Ty_Bytes
| Ty_FileHandle
| Ty_ResourceHandle
| Ty_HostResource.

Record BcCallableContract := mkCallable {
  cc_type_params : N;
  cc_effect_params : N;
  cc_type_bounds : list (list BcInterfaceUse);
  cc_params : list N;
  cc_param_muts : list bool;
  cc_ret : N;
  cc_row : list BcRow;
}.

Inductive SlotContract :=
| Slot_Function (c : BcCallableContract)
| Slot_Method (c : BcCallableContract)
| Slot_Class (type_params : N) (abi : list N) (ty : N) (constructor : BcCallableContract)
| Slot_Value (ty : N)
| Slot_Process (message result : N).

(** *** Writers *)

(** [write_u32(len as u32)] and the elements in order. *)
Definition write_vec {A} (enc : A → list N) (l : list A) : list N :=
  write_u32 (as_u32 (lenN l)) ++ concat (enc <$> l).

Definition encode_row_elem (elem : BcRow) : list N :=
  match elem with
  | Row_Op idx => [ROW_OP] ++ write_u32 idx
  | Row_Group idx => [ROW_GROUP] ++ write_u32 idx
  | Row_Var idx => [ROW_VAR] ++ write_u32 idx
  end.

Definition encode_row (row : list BcRow) : list N := write_vec encode_row_elem row.

Definition encode_interface_use (application : BcInterfaceUse) : list N :=
  write_u32 (use_interface application) ++ write_vec write_u32 (use_types application) ++
  write_vec encode_row (use_rows application).

Definition encode_type_bounds (bounds : list (list BcInterfaceUse)) : list N :=
  write_vec (write_vec encode_interface_use) bounds.

Definition encode_type (ty : BcType) : list N :=
  match ty with
  | Ty_Unit => [TY_UNIT]
  | Ty_Never => [TY_NEVER]
  | Ty_Bool => [TY_BOOL]
  | Ty_Int => [TY_INT]
  | Ty_Float => [TY_FLOAT]
  | Ty_Str => [TY_STR]
  | Ty_Class c => [TY_CLASS] ++ write_u32 c
  | Ty_Inst c args => [TY_INST] ++ write_u32 c ++ write_vec write_u32 args
  | Ty_List e => [TY_LIST] ++ write_u32 e
  | Ty_Map k v => [TY_MAP] ++ write_u32 k ++ write_u32 v
  | Ty_Tuple elems => [TY_TUPLE] ++ write_vec write_u32 elems
  | Ty_Fn params muts ret row =>
      [TY_FN] ++ write_vec write_u32 params ++ write_vec (λ m, [bool_byte m]) muts ++
      write_u32 ret ++ encode_row row
  | Ty_Callback params muts ret row =>
      [TY_CALLBACK] ++ write_vec write_u32 params ++ write_vec (λ m, [bool_byte m]) muts ++
      write_u32 ret ++ encode_row row
  | Ty_Var i => [TY_VAR] ++ write_u32 i
  | Ty_Projection base interface assoc =>
      [TY_PROJECTION] ++ write_u32 base ++ write_u32 interface ++ write_u32 assoc
  | Ty_Digest => [TY_DIGEST]
  | Ty_Fault => [TY_FAULT]
  | Ty_Request => [TY_REQUEST]
  | Ty_PolicyTable => [TY_POLICY_TABLE]
  | Ty_Vm => [TY_VM]
  | Ty_Run t => [TY_RUN] ++ write_u32 t
  | Ty_Wait t => [TY_WAIT] ++ write_u32 t
  | Ty_PendingCall a r => [TY_PENDING_CALL] ++ write_u32 a ++ write_u32 r
  | Ty_Handle m r => [TY_HANDLE] ++ write_u32 m ++ write_u32 r
  | Ty_VmSnapshot => [TY_VM_SNAPSHOT]
  | Ty_RunSnapshot t => [TY_RUN_SNAPSHOT] ++ write_u32 t
  | Ty_Bytes => [TY_BYTES]
  | Ty_FileHandle => [TY_FILE_HANDLE]
  | Ty_ResourceHandle => [TY_RESOURCE_HANDLE]
  | Ty_HostResource => [TY_HOST_RESOURCE]
  | Ty_Op op f => [TY_OP] ++ write_u32 op ++ write_u32 f
  end.

Definition encode_callable_contract (contract : BcCallableContract) : list N :=
  write_u32 (cc_type_params contract) ++ write_u32 (cc_effect_params contract) ++
  encode_type_bounds (cc_type_bounds contract) ++ write_vec write_u32 (cc_params contract) ++
  write_vec (λ m, [bool_byte m]) (cc_param_muts contract) ++ write_u32 (cc_ret contract) ++
  encode_row (cc_row contract).

Definition encode_slot_contract (contract : SlotContract) : list N :=
  match contract with
  | Slot_Function callable => [SLOT_FUNCTION] ++ encode_callable_contract callable
  | Slot_Method callable => [SLOT_METHOD] ++ encode_callable_contract callable
  | Slot_Class type_params abi ty constructor =>
      [SLOT_CLASS] ++ write_u32 type_params ++ abi ++ write_u32 ty ++ encode_callable_contract constructor
  | Slot_Value ty => [SLOT_VALUE] ++ write_u32 ty
  | Slot_Process message result => [SLOT_PROCESS] ++ write_u32 message ++ write_u32 result
  end.

(** *** Readers

    [reserve] answers whether the allocator grants a reservation of so many
    bytes; the element sizes are [size_of] of the elements on a 64-bit target. *)

Section Readers.
Context (reserve : N → bool).

(** A length, a reservation, and as many elements. *)
Definition read_vec {A} (size : N) (p : Dec A) : Dec (list A) :=
  count ← cur_len; _ ← decode_vec reserve size count; dec_times (N.to_nat count) p.

(** [if count > cur.remaining() / 4 { return Err(BadLength) }]. *)
Definition check_index_count (count : N) : Dec unit := λ c,
  if cur_remaining c / 4 <? count then Err BadLength else Ok (tt, c).

(** The same vector of indices after a check that four bytes each are left. *)
Definition read_index_vec : Dec (list N) :=
  count ← cur_len; _ ← check_index_count count;
  _ ← decode_vec reserve 4 count; dec_times (N.to_nat count) cur_u32.

Definition decode_row_elem : Dec BcRow :=
  tag ← cur_u8;
  if tag =? ROW_OP then idx ← cur_u32; dret (Row_Op idx)
  else if tag =? ROW_GROUP then idx ← cur_u32; dret (Row_Group idx)
  else if tag =? ROW_VAR then idx ← cur_u32; dret (Row_Var idx)
  else derr (BadRowTag tag).

Definition decode_row : Dec (list BcRow) := read_vec 8 decode_row_elem.

(** The parameter markers: their count has to be the parameter count. *)
Definition read_muts (count : N) : Dec (list bool) :=
  mut_count ← cur_len;
  if negb (mut_count =? count) then derr MutMarkerCount
  else _ ← decode_vec reserve 1 mut_count; dec_times (N.to_nat mut_count) cur_flag.

Definition decode_interface_use : Dec BcInterfaceUse :=
  interface ← cur_u32; types ← read_index_vec; rows ← read_vec 24 decode_row;
  dret (mkInterfaceUse interface types rows).

Definition decode_type_bounds : Dec (list (list BcInterfaceUse)) :=
  read_vec 24 (read_vec 56 decode_interface_use).

Definition decode_callable_contract : Dec BcCallableContract :=
  type_params ← cur_u32; effect_params ← cur_u32; type_bounds ← decode_type_bounds;
  params ← read_index_vec; param_muts ← read_muts (lenN params);
  ret ← cur_u32; row ← decode_row;
  dret (mkCallable type_params effect_params type_bounds params param_muts ret row).

(** The shared body of the TY_FN and TY_CALLBACK arms. *)
Definition decode_fn_parts : Dec (list N * list bool * N * list BcRow) :=
  params ← read_vec 4 cur_u32; muts ← read_muts (lenN params);
  ret ← cur_u32; row ← decode_row;
  dret (params, muts, ret, row).

Definition decode_type_tag (tag : N) : Dec BcType :=
  if tag =? TY_UNIT then dret Ty_Unit
  else if tag =? TY_NEVER then dret Ty_Never
  else if tag =? TY_BOOL then dret Ty_Bool
  else if tag =? TY_INT then dret Ty_Int
  else if tag =? TY_FLOAT then dret Ty_Float
  else if tag =? TY_STR then dret Ty_Str
  else if tag =? TY_CLASS then c ← cur_u32; dret (Ty_Class c)
  else if tag =? TY_INST then class ← cur_u32; args ← read_vec 4 cur_u32; dret (Ty_Inst class args)
  else if tag =? TY_LIST then e ← cur_u32; dret (Ty_List e)
  else if tag =? TY_MAP then k ← cur_u32; v ← cur_u32; dret (Ty_Map k v)
  else if tag =? TY_TUPLE then elems ← read_vec 4 cur_u32; dret (Ty_Tuple elems)
  else if tag =? TY_FN then
    parts ← decode_fn_parts;
    let '(params, muts, ret, row) := parts in dret (Ty_Fn params muts ret row)
  else if tag =? TY_CALLBACK then
    parts ← decode_fn_parts;
    let '(params, muts, ret, row) := parts in dret (Ty_Callback params muts ret row)
  else if tag =? TY_VAR then i ← cur_u32; dret (Ty_Var i)
  else if tag =? TY_PROJECTION then
    base ← cur_u32; interface ← cur_u32; assoc ← cur_u32; dret (Ty_Projection base interface assoc)
  else if tag =? TY_DIGEST then dret Ty_Digest
  else if tag =? TY_FAULT then dret Ty_Fault
  else if tag =? TY_REQUEST then dret Ty_Request
  else if tag =? TY_POLICY_TABLE then dret Ty_PolicyTable
  else if tag =? TY_VM then dret Ty_Vm
  else if tag =? TY_RUN then t ← cur_u32; dret (Ty_Run t)
  else if tag =? TY_WAIT then t ← cur_u32; dret (Ty_Wait t)
  else if tag =? TY_PENDING_CALL then a ← cur_u32; r ← cur_u32; dret (Ty_PendingCall a r)
  else if tag =? TY_HANDLE then m ← cur_u32; r ← cur_u32; dret (Ty_Handle m r)
  else if tag =? TY_VM_SNAPSHOT then dret Ty_VmSnapshot
  else if tag =? TY_RUN_SNAPSHOT then t ← cur_u32; dret (Ty_RunSnapshot t)
  else if tag =? TY_BYTES then dret Ty_Bytes
  else if tag =? TY_FILE_HANDLE then dret Ty_FileHandle
  else if tag =? TY_RESOURCE_HANDLE then dret Ty_ResourceHandle
  else if tag =? TY_HOST_RESOURCE then dret Ty_HostResource
  else if tag =? TY_OP then op ← cur_u32; f ← cur_u32; dret (Ty_Op op f)
  else derr (BadTypeTag tag).

Definition decode_type : Dec BcType := tag ← cur_u8; decode_type_tag tag.

Definition decode_slot_contract : Dec SlotContract :=
  tag ← cur_u8;
  if tag =? SLOT_FUNCTION then c ← decode_callable_contract; dret (Slot_Function c)
  else if tag =? SLOT_METHOD then c ← decode_callable_contract; dret (Slot_Method c)
  else if tag =? SLOT_CLASS then
    type_params ← cur_u32; abi ← cur_take 32; ty ← cur_u32; constructor ← decode_callable_contract;
    dret (Slot_Class type_params abi ty constructor)
  else if tag =? SLOT_VALUE then ty ← cur_u32; dret (Slot_Value ty)
  else if tag =? SLOT_PROCESS then message ← cur_u32; result ← cur_u32; dret (Slot_Process message result)
  else derr BadSlot.
End Readers.
