(* ===== verification/BytecodeFacts.v ===== *)
(** * Facts of the bytecode codec

    [instr_fits] says that the operands of an instruction are values of their
    Rust types.  The theorems: encoding then decoding an instruction gives it
    back; every instruction the decoder accepts fits, and its bytes are the
    encoder's, with two named exceptions; a strict prefix of an encoding is
    refused as [Truncated]; and the same for the type table and the slot
    contracts, where a cut length prefix is refused as [BadLength]. *)

From stdpp Require Import base numbers list.
From S2P Require Import Prelude Codec Bytecode.

Open Scope N_scope.

(** ** Operands in range *)

Definition fits_u32 (x : N) : bool := x <=? U32_MAX.

(** One past the last packed reflection pattern: six kinds. *)
Definition PATTERN_END : N := 6 * 2 ^ 29.

Definition ext_fits (i : ExtendedInstr) : bool :=
  match i with
  | Ext_MakeCallback func captures => fits_u32 func && fits_u32 captures
  | Ext_OptionSome ty => fits_u32 ty
  | Ext_OptionNone ty => fits_u32 ty
  | Ext_OptionPayload ty => fits_u32 ty
  | Ext_ListGet ty => fits_u32 ty
  | Ext_MapGet ty => fits_u32 ty
  | Ext_MapPutText ty _ => fits_u32 ty
  | Ext_ListPop ty => fits_u32 ty
  | Ext_MapRemove ty => fits_u32 ty
  | Ext_CallSlot slot app => fits_u32 slot && fits_u32 app
  | Ext_NewSlot slot app => fits_u32 slot && fits_u32 app
  | Ext_LoadSlot slot => fits_u32 slot
  | Ext_SendSlot slot => fits_u32 slot
  | Ext_DynPack ty => fits_u32 ty
  | Ext_FunctionCode func => fits_u32 func
  | Ext_ClassCode class => fits_u32 class
  | Ext_ModuleCode module => fits_u32 module
  | Ext_ReflectionRefine pattern fail => (pattern <? PATTERN_END) && fits_u32 fail
  | Ext_ReflectionEnd pattern bases => fits_u32 pattern && fits_u32 bases
  | Ext_CodeSource ty => fits_u32 ty
  | Ext_FaultSite ty => fits_u32 ty
  | Ext_FaultTrace ty => fits_u32 ty
  | Ext_PrepareWait op_argc reply_ty => fits_u32 op_argc && fits_u32 reply_ty
  | Ext_RegexCaptures ty => fits_u32 ty
  | Ext_RegexMatchGroup ty => fits_u32 ty
  | Ext_RegexMatchNamed ty => fits_u32 ty
  | _ => true
  end.

Definition instr_fits (i : Instr) : bool :=
  match i with
  | I_ConstInt x => ((I64_MIN <=? x)%Z && (x <=? I64_MAX)%Z)
  | I_ConstFloat x => (x <=? U64_MAX)
  | I_ConstChar x => fits_u32 x
  | I_ConstStr x => fits_u32 x
  | I_ConstBytes x => fits_u32 x
  | I_ConstRegex x => fits_u32 x
  | I_LoadLocal x => fits_u32 x
  | I_StoreLocal x => fits_u32 x
  | I_Call x => fits_u32 x
  | I_CallG func app => fits_u32 func && fits_u32 app
  | I_CallVirtual selector argc => fits_u32 selector && fits_u32 argc
  | I_CallVirtualG selector argc app => fits_u32 selector && fits_u32 argc && fits_u32 app
  | I_CallValue argc => fits_u32 argc
  | I_MakeClosure func captures => fits_u32 func && fits_u32 captures
  | I_LoadCapture x => fits_u32 x
  | I_New x => fits_u32 x
  | I_NewG class app => fits_u32 class && fits_u32 app
  | I_LoadField x => fits_u32 x
  | I_StoreField x => fits_u32 x
  | I_TupleNew ty count => fits_u32 ty && fits_u32 count
  | I_TupleGet x => fits_u32 x
  | I_IsType x => fits_u32 x
  | I_CastType x => fits_u32 x
  | I_ListNew ty count => fits_u32 ty && fits_u32 count
  | I_MapNew ty count => fits_u32 ty && fits_u32 count
  | I_MapPut ty _ => fits_u32 ty
  | I_Digest ty => fits_u32 ty
  | I_Jump x => fits_u32 x
  | I_JumpIfFalse x => fits_u32 x
  | I_JumpIfTrue x => fits_u32 x
  | I_Perform op argc reply_ty => fits_u32 op && fits_u32 argc && fits_u32 reply_ty
  | I_PerformValue argc reply_ty => fits_u32 argc && fits_u32 reply_ty
  | I_OpConst x => fits_u32 x
  | I_TableEdit action kind slot => fits_u32 action && fits_u32 kind && fits_u32 slot
  | I_AsCall op ty => fits_u32 op && fits_u32 ty
  | I_CallInterface site recv_ty app => fits_u32 site && fits_u32 recv_ty && fits_u32 app
  | I_Extended x => ext_fits x
  | _ => true
  end.

(** The bytes an accepted instruction can come from: the encoder's, except
    that a true constant may be any byte above one and an absent type
    application may be written out. *)
Definition instr_bytes (bs : list N) (i : Instr) : Prop :=
  bs = encode_instr i ∨
  match i with
  | I_ConstBool true => ∃ b, 1 < b < 256 ∧ bs = [OP_CONST_BOOL; b]
  | I_CallInterface site recv_ty app =>
      app = NO_APP ∧
      bs = [OP_CALL_INTERFACE] ++ write_u32 site ++ write_u32 recv_ty ++ [1] ++ write_u32 NO_APP
  | I_Extended (Ext_CallSlot slot app) =>
      app = NO_APP ∧ bs = [OP_CALL_SLOT] ++ write_u32 slot ++ [1] ++ write_u32 NO_APP
  | I_Extended (Ext_NewSlot slot app) =>
      app = NO_APP ∧ bs = [OP_NEW_SLOT] ++ write_u32 slot ++ [1] ++ write_u32 NO_APP
  | _ => False
  end.

(** ** Packed operands *)

Lemma land_shiftl_low a b n : a < 2 ^ n → N.land a (N.shiftl b n) = 0.
Proof.
  intros Ha. apply N.bits_inj_0. intros m. rewrite N.land_spec.
  destruct (N.lt_ge_cases m n) as [Hm|Hm]; [by rewrite N.shiftl_spec_low, andb_false_r|].
  destruct (N.eq_dec a 0) as [->|Hz]; [by rewrite N.bits_0|].
  rewrite N.bits_above_log2; [done|]. apply N.log2_lt_pow2; [lia|].
  eapply N.lt_le_trans; [exact Ha|]. by apply N.pow_le_mono_r.
Qed.

Lemma lor_shiftl a b n : a < 2 ^ n → N.lor a (N.shiftl b n) = a + b * 2 ^ n.
Proof.
  intros Ha. pose proof (land_shiftl_low a b n Ha) as Hz.
  by rewrite <- N.lxor_lor, <- N.add_nocarry_lxor, N.shiftl_mul_pow2 by done.
Qed.

(** Packing a high and a low field and taking them apart again. *)
Lemma pack_low a b n : a < 2 ^ n → (a + b * 2 ^ n) mod 2 ^ n = a.
Proof. intros Ha. rewrite N.Div0.mod_add. by apply N.mod_small. Qed.

Lemma pack_high a b n : a < 2 ^ n → (a + b * 2 ^ n) / 2 ^ n = b.
Proof.
  intros Ha. rewrite N.div_add by (apply N.pow_nonzero; lia). by rewrite N.div_small.
Qed.

Lemma unpack a n : a mod 2 ^ n + a / 2 ^ n * 2 ^ n = a.
Proof. rewrite (N.mul_comm (a / _)), N.add_comm. symmetry. apply N.div_mod. apply N.pow_nonzero. lia. Qed.

Lemma refl_tag_from k : refl_from_tag (refl_tag k) = Some k.
Proof. by destruct k. Qed.

Lemma refl_from_tag_Some t k : refl_from_tag t = Some k → t = refl_tag k.
Proof.
  unfold refl_from_tag. intros H.
  repeat match type of H with context [match ?x with _ => _ end] => destruct x end;
    by simplify_eq.
Qed.

Lemma numeric_tag_from i : numeric_from_tag (numeric_tag i) = Some i.
Proof. by destruct i. Qed.

Lemma numeric_from_tag_Some t i : numeric_from_tag t = Some i → t = numeric_tag i.
Proof.
  unfold numeric_from_tag. intros H.
  repeat match type of H with context [match ?x with _ => _ end] => destruct x end;
    by simplify_eq.
Qed.

Lemma refl_tag_bound k : refl_tag k < 6.
Proof. by destruct k. Qed.

Lemma refl_from_tag_lt t : t < 6 → ∃ k, refl_from_tag t = Some k.
Proof.
  intros Ht. assert (t = 0 ∨ t = 1 ∨ t = 2 ∨ t = 3 ∨ t = 4 ∨ t = 5) as Hc by lia.
  destruct Hc as [->|[->|[->|[->|[->| ->]]]]]; by eexists.
Qed.

(** [kind] as the inverse of the tag on the packed kinds. *)
Lemma pattern_kind_spec p k : p / 2 ^ 29 = refl_tag k → pattern_kind p = k.
Proof. intros H. unfold pattern_kind. rewrite N.shiftr_div_pow2. unfold REFLECTION_FUNCTION_BITS. rewrite H. by destruct k. Qed.

Lemma pattern_tag p : p < PATTERN_END → refl_tag (pattern_kind p) = p / 2 ^ 29.
Proof.
  intros Hp. assert (p / 2 ^ 29 < 6) as Hk by (apply N.Div0.div_lt_upper_bound; unfold PATTERN_END in Hp; lia).
  destruct (refl_from_tag_lt _ Hk) as [k E].
  apply refl_from_tag_Some in E. by rewrite (pattern_kind_spec p k E).
Qed.

Lemma pattern_function_spec p : pattern_function p = p mod 2 ^ 29.
Proof. apply (N.land_ones p 29). Qed.

Lemma pattern_new_spec k f :
  f < 2 ^ 29 → pattern_new k f = Some (f + refl_tag k * 2 ^ 29).
Proof.
  intros Hf. unfold pattern_new. change REFLECTION_FUNCTION_MASK with (2 ^ 29 - 1).
  replace (_ <? f) with false by (symmetry; apply N.ltb_ge; lia).
  rewrite as_u32_small by (destruct k; vm_compute; congruence). f_equal.
  rewrite N.lor_comm. by apply lor_shiftl.
Qed.

Lemma pattern_new_Some k f p : pattern_new k f = Some p →
  pattern_kind p = k ∧ pattern_function p = f ∧ p < PATTERN_END.
Proof.
  intros H. destruct (N.lt_ge_cases f (2 ^ 29)) as [Hf|Hf].
  - rewrite (pattern_new_spec k f Hf) in H. injection H as <-.
    rewrite pattern_function_spec, pack_low by done.
    split_and!; [apply pattern_kind_spec; by rewrite pack_high|done|].
    pose proof (refl_tag_bound k). unfold PATTERN_END. change (2 ^ 29) with 536870912 in *. lia.
  - unfold pattern_new in H. change REFLECTION_FUNCTION_MASK with (2 ^ 29 - 1) in H.
    replace (_ <? f) with true in H by (symmetry; apply N.ltb_lt; lia). done.
Qed.

Lemma pattern_repack p : p < PATTERN_END → pattern_new (pattern_kind p) (pattern_function p) = Some p.
Proof.
  intros Hp. rewrite pattern_function_spec, pattern_new_spec by (apply N.mod_lt; done).
  f_equal. rewrite (pattern_tag p Hp). apply unpack.
Qed.

(** Two 16-bit fields in a word. *)
Lemma low16 w : N.land w 65535 = w mod 2 ^ 16.
Proof. apply (N.land_ones w 16). Qed.

Lemma pack16 a b : a < 2 ^ 16 → b < 2 ^ 16 → N.lor a (as_u32 (N.shiftl b 16)) = a + b * 2 ^ 16.
Proof.
  intros Ha Hb. rewrite as_u32_small by (rewrite N.shiftl_mul_pow2; unfold U32_MAX; lia).
  by apply lor_shiftl.
Qed.

Lemma high16_bound w : w <= U32_MAX → w / 2 ^ 16 < 2 ^ 16.
Proof. intros Hw. apply N.Div0.div_lt_upper_bound. unfold U32_MAX in Hw. lia. Qed.

Lemma bases_repack w : w <= U32_MAX → bases_new (bases_type_base w) (bases_effect_base w) = Some w.
Proof.
  intros Hw. unfold bases_new, bases_type_base, bases_effect_base, U16_MAX.
  rewrite low16, N.shiftr_div_pow2. pose proof (high16_bound w Hw). pose proof (N.mod_lt w (2 ^ 16)).
  rewrite pack16 by lia. replace (_ || _) with false by (symmetry; apply orb_false_intro; apply N.ltb_ge; lia).
  f_equal. apply unpack.
Qed.

Lemma bases_new_Some t e w : bases_new t e = Some w →
  bases_type_base w = t ∧ bases_effect_base w = e ∧ w <= U32_MAX.
Proof.
  unfold bases_new, bases_type_base, bases_effect_base, U16_MAX. intros H.
  destruct (_ || _) eqn:E; [done|]. to_prop. rewrite pack16 in H by lia. injection H as <-.
  rewrite low16, N.shiftr_div_pow2, pack_low, pack_high by lia. split_and!; [done..|]. unfold U32_MAX. lia.
Qed.

Lemma wait_repack w ty op argc : w <= U32_MAX → wait_parts w = (op, argc) →
  prepare_wait op argc ty = Some (Ext_PrepareWait w ty) ∧ op <= U32_MAX ∧ argc <= U32_MAX.
Proof.
  intros Hw [= <- <-]. change WAIT_FIELD_MAX with 65535. change WAIT_FIELD_BITS with 16.
  unfold prepare_wait. change WAIT_FIELD_MAX with 65535. change WAIT_FIELD_BITS with 16.
  rewrite low16, N.shiftr_div_pow2. pose proof (high16_bound w Hw). pose proof (N.mod_lt w (2 ^ 16)).
  rewrite pack16 by lia. replace (_ || _) with false by (symmetry; apply orb_false_intro; apply N.ltb_ge; lia).
  rewrite unpack. unfold U32_MAX. split_and!; [done|lia..].
Qed.

Lemma prepare_wait_Some op argc ty i : prepare_wait op argc ty = Some i →
  ∃ w, i = Ext_PrepareWait w ty ∧ wait_parts w = (op, argc) ∧ w <= U32_MAX.
Proof.
  unfold prepare_wait, wait_parts. change WAIT_FIELD_MAX with 65535. change WAIT_FIELD_BITS with 16.
  destruct (_ || _) eqn:E; [done|]. to_prop. rewrite pack16 by lia. intros [= <-].
  eexists. split; [done|]. rewrite low16, N.shiftr_div_pow2, pack_low, pack_high by lia.
  split; [done|]. unfold U32_MAX. lia.
Qed.

(** ** Instructions: encode then decode *)

Lemma parses_last {A B} k (p : Dec A) (f : A → Dec B) bs a b :
  Parses 0 p bs a → f a = dret b → Parses k (p ≫= f) bs b.
Proof.
  intros Hp Hf. rewrite <- (app_nil_r bs). eapply parses_bind; [exact Hp|lia|].
  rewrite Hf. apply parses_ret.
Qed.

Lemma parses_ok_or {A B} k (o : option A) e (f : A → Dec B) bs a b :
  o = Some a → Parses k (f a) bs b → Parses k (dok_or o e ≫= f) bs b.
Proof. intros -> H c rest Hr Hc. exact (H c rest Hr Hc). Qed.

Lemma parses_index k v : v <= U32_MAX → Parses k decode_optional_index (encode_optional_index v) v.
Proof.
  intros Hv. unfold encode_optional_index, decode_optional_index. destruct (v =? NO_APP) eqn:E; to_prop.
  - subst v. eapply parses_last; [apply (parses_bool 0 false)|done].
  - eapply parses_bind; [apply (parses_bool 0 true)|lia|]. by apply parses_u32.
Qed.

Lemma parses_u8_bind {B} k (f : N → Dec B) x bs b :
  Parses k (f x) bs b → Parses k (cur_u8 ≫= f) (x :: bs) b.
Proof. intros H. change (x :: bs) with ([x] ++ bs). eapply parses_bind; [apply (parses_u8 0)|lia|done]. Qed.

Lemma parses_flag_bind {B} k (f : bool → Dec B) x bs b :
  Parses k (f x) bs b → Parses k (cur_flag ≫= f) (bool_byte x :: bs) b.
Proof.
  intros H. change (bool_byte x :: bs) with ([bool_byte x] ++ bs).
  eapply parses_bind; [apply (parses_bool 0)|lia|done].
Qed.

(** Compute the arm a concrete tag selects. *)
Ltac select_arm :=
  lazymatch goal with
  | |- Parses ?k ?t ?bs ?a =>
      let t' := eval lazy -[mbind dec_bind dret derr dok_or cur_u8 cur_u32 cur_u64 cur_i64 cur_flag
        decode_optional_index numeric_from_tag refl_from_tag pattern_new bases_new prepare_wait
        numeric_tag refl_tag pattern_kind pattern_function negb
        read_vec read_index_vec read_muts decode_row decode_interface_use decode_type_bounds
        decode_callable_contract decode_fn_parts cur_take] in t in
      change (Parses k t' bs a)
  end.

(** One read of a reader whose bytes are known. *)
Ltac parse_field :=
  first [apply (parses_u32 0); assumption | apply (parses_u64 0); assumption
        | apply (parses_i64 0); lia | apply (parses_index 0); assumption].

Ltac parse_step :=
  lazymatch goal with
  | |- Parses _ (dret _) [] _ => apply parses_ret
  | |- Parses _ (cur_u8 ≫= _) (_ :: _) _ => apply parses_u8_bind
  | |- Parses _ (cur_flag ≫= _) (_ :: _) _ => apply parses_flag_bind
  | |- Parses _ (dok_or _ _ ≫= _) _ _ => eapply parses_ok_or
  | |- Parses _ (_ ≫= _) (_ ++ _) _ => eapply parses_bind; [parse_field|lia|]
  | |- Parses _ (_ ≫= _) _ _ => eapply parses_last; [parse_field|reflexivity]
  | |- Parses _ _ _ _ => select_arm
  end; cbv beta.

Ltac fields_fit :=
  cbn [instr_fits ext_fits] in *; unfold fits_u32 in *; to_prop.

Ltac parse_all :=
  unfold decode_instr; fields_fit;
  cbv [encode_instr encode_site encode_control encode_extended encode_native native_extension_tag];
  cbn [app]; repeat parse_step.

Lemma encode_decode_native k n : Parses k decode_instr (encode_instr (I_Native n)) (I_Native n).
Proof. destruct n; parse_all. Qed.

Lemma packed_fits w : w <= U32_MAX →
  pattern_function w <= U32_MAX ∧ bases_type_base w <= U32_MAX ∧ bases_effect_base w <= U32_MAX.
Proof.
  intros Hw. rewrite pattern_function_spec. unfold bases_type_base, bases_effect_base, U16_MAX.
  rewrite low16, N.shiftr_div_pow2. pose proof (high16_bound w Hw).
  pose proof (N.mod_lt w (2 ^ 16)). pose proof (N.mod_lt w (2 ^ 29)). unfold U32_MAX. lia.
Qed.

Lemma pattern_fits p : p < PATTERN_END → p <= U32_MAX.
Proof. unfold PATTERN_END, U32_MAX. lia. Qed.

Lemma encode_decode_refine k pattern fail :
  ext_fits (Ext_ReflectionRefine pattern fail) = true →
  Parses k decode_instr (encode_instr (I_Extended (Ext_ReflectionRefine pattern fail)))
    (I_Extended (Ext_ReflectionRefine pattern fail)).
Proof.
  intros Hi. fields_fit. destruct (packed_fits pattern) as (Hf & _); [by apply pattern_fits|].
  parse_all; [apply refl_tag_from|by apply pattern_repack].
Qed.

Lemma encode_decode_end k pattern bases :
  ext_fits (Ext_ReflectionEnd pattern bases) = true →
  Parses k decode_instr (encode_instr (I_Extended (Ext_ReflectionEnd pattern bases)))
    (I_Extended (Ext_ReflectionEnd pattern bases)).
Proof.
  intros Hi. fields_fit. destruct (packed_fits bases) as (_ & Ht & He); [done|].
  parse_all. eapply parses_last; [by apply (parses_u32 0)|]. by rewrite bases_repack.
Qed.

Lemma encode_decode_wait k op_argc reply_ty :
  ext_fits (Ext_PrepareWait op_argc reply_ty) = true →
  Parses k decode_instr (encode_instr (I_Extended (Ext_PrepareWait op_argc reply_ty)))
    (I_Extended (Ext_PrepareWait op_argc reply_ty)).
Proof.
  intros Hi. fields_fit. cbn [encode_instr encode_extended].
  destruct (wait_parts op_argc) as [op argc] eqn:E.
  destruct (wait_repack op_argc reply_ty op argc) as (Hw & Ho & Ha); [done..|].
  parse_all. eapply parses_last; [by apply (parses_u32 0)|]. by rewrite Hw.
Qed.

Lemma encode_decode_extended k i :
  ext_fits i = true → Parses k decode_instr (encode_instr (I_Extended i)) (I_Extended i).
Proof.
  intros Hi. destruct i;
    auto using encode_decode_refine, encode_decode_end, encode_decode_wait; parse_all.
Qed.

Lemma encode_decode_numeric k n : Parses k decode_instr (encode_instr (I_Numeric n)) (I_Numeric n).
Proof. parse_all. apply numeric_tag_from. Qed.

Lemma encode_decode_bool k b : Parses k decode_instr (encode_instr (I_ConstBool b)) (I_ConstBool b).
Proof. parse_all. destruct b; apply parses_ret. Qed.

Lemma encode_decode_instr k i :
  instr_fits i = true → Parses k decode_instr (encode_instr i) i.
Proof.
  intros Hi. destruct i;
    auto using encode_decode_native, encode_decode_extended, encode_decode_numeric, encode_decode_bool;
    parse_all.
Qed.

(** C9. Encoding then decoding an instruction whose operands are values of
    their Rust types gives it back, wherever its bytes stand in a vector and
    whatever follows them, and the cursor ends right after them. *)
Theorem instr_roundtrip (i : Instr) (before after : list N) :
  instr_fits i = true → lenN (before ++ encode_instr i ++ after) <= USIZE_MAX →
  decode_instr (mkCursor (before ++ encode_instr i ++ after) (lenN before)) =
    Ok (i, mkCursor (before ++ encode_instr i ++ after) (lenN before + lenN (encode_instr i))).
Proof.
  intros Hi Hlen. apply (encode_decode_instr 0 i Hi (mkCursor _ _) after); [lia|]. by apply cursor_at_app.
Qed.

Lemma instr_roundtrip_witness :
  decode_instr (mkCursor ([9] ++ encode_instr (I_CallInterface 7 8 NO_APP) ++ [1; 2]) 1) =
    Ok (I_CallInterface 7 8 NO_APP,
        mkCursor ([9] ++ encode_instr (I_CallInterface 7 8 NO_APP) ++ [1; 2]) 11).
Proof. apply (instr_roundtrip (I_CallInterface 7 8 NO_APP) [9] [1; 2]); vm_compute; congruence. Defined.

(** ** Cut encodings *)

Ltac cuts_step :=
  lazymatch goal with
  | |- Cuts _ (dret _) => apply cuts_ret
  | |- Cuts _ (derr _) => apply cuts_err
  | |- Cuts _ (_ ≫= _) => apply cuts_bind; [|intros ?]
  | |- Cuts _ (dok_or _ _) => apply cuts_ok_or
  | |- Cuts _ (if _ then _ else _) => apply cuts_if
  | |- Cuts _ cur_u8 => apply cuts_u8; assumption
  | |- Cuts _ cur_u32 => apply cuts_u32; assumption
  | |- Cuts _ cur_u64 => apply cuts_u64; assumption
  | |- Cuts _ cur_i64 => apply cuts_i64; assumption
  | |- Cuts _ cur_flag => apply cuts_flag; assumption
  | |- Cuts _ (cur_take _) => apply cuts_take; assumption
  | |- Cuts _ cur_len => apply cuts_len; assumption
  | |- Cuts _ (decode_vec _ _ _) => apply cuts_vec
  | |- Cuts _ (dec_times _ _) => apply cuts_times
  | |- Cuts _ (match ?x with _ => _ end) => destruct x
  end.

Section Cut_readers.
Context (E : DecodeError → Prop) (Htruncated : E Truncated).

Lemma cuts_optional_index : Cuts E decode_optional_index.
Proof using Htruncated. unfold decode_optional_index. repeat cuts_step. Qed.

Lemma cuts_extension ext : Cuts E (decode_extension ext).
Proof using Htruncated. unfold decode_extension. repeat cuts_step. Qed.

Lemma cuts_op_containers op : Cuts E (decode_op_containers op).
Proof using Htruncated.
  unfold decode_op_containers. repeat cuts_step; apply cuts_optional_index.
Qed.

Lemma cuts_op_text op : Cuts E (decode_op_text op).
Proof using Htruncated.
  unfold decode_op_text. repeat cuts_step; [apply cuts_optional_index..|apply cuts_op_containers].
Qed.

Lemma cuts_instr : Cuts E decode_instr.
Proof using Htruncated.
  unfold decode_instr, decode_op. repeat cuts_step; [apply cuts_extension|apply cuts_op_text].
Qed.
End Cut_readers.

(** Every strict prefix of an encoded instruction is refused as truncated:
    no prefix decodes to another instruction or to another error. *)
Theorem instr_prefix_truncated (i : Instr) (n : N) :
  instr_fits i = true → n < lenN (encode_instr i) → lenN (encode_instr i) <= USIZE_MAX →
  decode_instr (mkCursor (take (N.to_nat n) (encode_instr i)) 0) = Err Truncated.
Proof.
  intros Hi Hn Hlen.
  destruct (cuts_refused (λ e, e = Truncated) decode_instr (encode_instr i) i n) as (e & -> & He);
    auto using cuts_instr, encode_decode_instr.
Qed.

Lemma instr_prefix_truncated_witness :
  decode_instr (mkCursor (take (N.to_nat 6) (encode_instr (I_Perform 1 2 3))) 0) = Err Truncated.
Proof. apply (instr_prefix_truncated (I_Perform 1 2 3) 6); vm_compute; congruence. Defined.

(** ** What the decoder accepts *)

Definition accepted (bs : list N) (i : Instr) : Prop := instr_fits i = true ∧ instr_bytes bs i.

Lemma encode_native_nonempty n : encode_native n ≠ [].
Proof. by destruct n. Qed.

Lemma encode_extended_nonempty i : encode_extended i ≠ [].
Proof. by destruct i. Qed.

Lemma instr_bytes_nonempty i : ¬ instr_bytes [] i.
Proof.
  intros [H|H].
  - destruct i; try discriminate H; [by eapply encode_native_nonempty|by eapply encode_extended_nonempty].
  - destruct i; try done; cbn in H.
    + destruct x0; [by destruct H as (? & ? & ?)|done].
    + by destruct H.
    + destruct x0; try done; by destruct H.
Qed.

Lemma accepted_canonical bs i : instr_fits i = true → bs = encode_instr i → accepted bs i.
Proof. intros ? ->. by split; [|left]. Qed.

Lemma reads_index : Reads decode_optional_index
  (λ bs v, v <= U32_MAX ∧
     (bs = encode_optional_index v ∨ v = NO_APP ∧ bs = [1] ++ write_u32 NO_APP)).
Proof.
  unfold decode_optional_index. eapply reads_bind; [apply reads_flag|]. intros b bs _ ->.
  destruct b; [|by apply reads_ret; split; [|left]].
  eapply reads_weaken; [apply reads_u32|]. intros bs v _ [-> Hv]. split; [done|].
  unfold encode_optional_index. destruct (v =? NO_APP) eqn:E; to_prop; subst; [by right|by left].
Qed.

Lemma fits_intro x : x <= U32_MAX → fits_u32 x = true.
Proof. apply N.leb_le. Qed.

(** The bytes of the reads so far, as one append. *)
Ltac accept :=
  apply accepted_canonical;
  [cbn [instr_fits ext_fits]; repeat (apply andb_true_intro; split);
     solve [done | by apply fits_intro | by apply N.leb_le | by apply N.ltb_lt | apply Z.leb_le; lia]
  |cbv [encode_instr encode_site encode_control encode_extended encode_native native_extension_tag];
     rewrite ?app_nil_r, <- ?app_assoc; try done].

Ltac reads_step :=
  lazymatch goal with
  | |- Reads (derr _) _ => apply reads_err
  | |- Reads (dret _) _ => apply reads_ret; try (accept; fail)
  | |- Reads (cur_u8 ≫= _) _ => eapply reads_bind; [apply reads_u8|intros ? ? _ [-> ?]]
  | |- Reads (cur_u32 ≫= _) _ => eapply reads_bind; [apply reads_u32|intros ? ? _ [-> ?]]
  | |- Reads (cur_u64 ≫= _) _ => eapply reads_bind; [apply reads_u64|intros ? ? _ [-> ?]]
  | |- Reads (cur_i64 ≫= _) _ => eapply reads_bind; [apply reads_i64|intros ? ? _ [-> ?]]
  | |- Reads (cur_flag ≫= _) _ => eapply reads_bind; [apply reads_flag|intros ? ? _ ->]
  | |- Reads (dok_or _ _ ≫= _) _ => eapply reads_bind; [apply reads_ok_or|intros ? ? _ [-> ?]]
  | |- Reads (decode_optional_index ≫= _) _ =>
      eapply reads_bind; [apply reads_index|intros ? ? _ [? ?]]
  | |- Reads (if _ =? _ then _ else _) _ =>
      apply reads_if; intros ?E; [apply N.eqb_eq in E; subst|clear E]
  end.

Lemma reads_extension ext : Reads (decode_extension ext) (λ bs, accepted ([OP_EXTENSION; ext] ++ bs)).
Proof.
  unfold decode_extension. repeat reads_step.
  - destruct (pattern_new_Some _ _ _ ltac:(eassumption)) as (Hk & Hf & Hp).
    apply accepted_canonical.
    + apply andb_true_intro. by split; [apply N.ltb_lt|apply fits_intro].
    + cbn [encode_instr encode_extended]. rewrite Hk, Hf, app_nil_r.
      by rewrite (refl_from_tag_Some _ _ ltac:(eassumption)).
  - destruct (bases_new_Some _ _ _ ltac:(eassumption)) as (Ht & He & Hw).
    apply accepted_canonical.
    + apply andb_true_intro. by split; apply fits_intro.
    + cbn [encode_instr encode_extended]. by rewrite Ht, He, !app_nil_r.
Qed.

(** An index read back: canonical, or the written-out [NO_APP]. *)
Ltac index_cases :=
  match goal with
  | H : _ = encode_optional_index _ ∨ _ |- _ => destruct H as [->|[-> ->]]; [accept|]
  end;
  split; [cbn [instr_fits ext_fits]; repeat (apply andb_true_intro; split); by apply fits_intro|];
  right; rewrite ?app_nil_r, <- ?app_assoc; done.

Lemma reads_op_containers op : Reads (decode_op_containers op) (λ bs, accepted ([op] ++ bs)).
Proof.
  unfold decode_op_containers. repeat reads_step. all: try index_cases.
  destruct (prepare_wait_Some _ _ _ _ ltac:(eassumption)) as (w & -> & Hparts & Hw).
  apply accepted_canonical; [apply andb_true_intro; by split; apply fits_intro|].
  cbn [encode_instr encode_extended]. by rewrite Hparts, !app_nil_r.
Qed.

Lemma reads_op_text op : Reads (decode_op_text op) (λ bs, accepted ([op] ++ bs)).
Proof. unfold decode_op_text. repeat reads_step; try index_cases. apply reads_op_containers. Qed.

Lemma bool_accepted b :
  byte_ok b → accepted [OP_CONST_BOOL; b] (I_ConstBool (negb (b =? 0))).
Proof.
  intros Hb. destruct (b =? 0) eqn:E; to_prop; [by subst; apply accepted_canonical|].
  destruct (N.eq_dec b 1) as [->|Hne]; [by apply accepted_canonical|]. split; [done|right].
  exists b. split; [unfold byte_ok in Hb; lia|done].
Qed.

Lemma reads_op op : Reads (decode_op op) (λ bs, accepted ([op] ++ bs)).
Proof.
  unfold decode_op. repeat reads_step.
  - by apply bool_accepted.
  - match goal with H : numeric_from_tag _ = Some _ |- _ => apply numeric_from_tag_Some in H as -> end.
    by apply accepted_canonical.
  - eapply reads_weaken; [apply reads_extension|]. by intros bs i _ Hacc.
  - apply reads_op_text.
Qed.

Lemma reads_instr : Reads decode_instr accepted.
Proof. eapply reads_bind; [apply reads_u8|]. intros op bs _ [-> _]. apply reads_op. Qed.

(** C13. Whatever byte vector the decoder reads, an instruction it accepts has
    operands that are values of their Rust types, the cursor moves forward
    inside the vector, and the bytes it took are the encoder's for that
    instruction, with two exceptions: a true constant written with a byte
    above one, and an absent type application written out as index
    [u32::MAX]. *)
Theorem decode_instr_sound (c c' : Cursor) (i : Instr) :
  Forall byte_ok (cur_bytes c) → cur_pos c <= lenN (cur_bytes c) → decode_instr c = Ok (i, c') →
  instr_fits i = true ∧ instr_bytes (slice c c') i ∧
  cur_bytes c' = cur_bytes c ∧ cur_pos c < cur_pos c' <= lenN (cur_bytes c).
Proof.
  intros Hok Hpos Hdec. destruct (reads_instr c i c' Hok Hpos Hdec) as (Hb & Hle & _ & Hf & Hi).
  split_and!; [done..| |lia]. destruct (N.eq_dec (cur_pos c') (cur_pos c)) as [Heq|]; [|lia].
  exfalso. assert (slice c c' = []) as Hs by (unfold slice; by rewrite Heq, N.sub_diag).
  rewrite Hs in Hi. by apply instr_bytes_nonempty in Hi.
Qed.

Lemma decode_instr_sound_witness :
  instr_fits (I_ConstBool true) = true ∧ instr_bytes [OP_CONST_BOOL; 7] (I_ConstBool true).
Proof.
  destruct (decode_instr_sound (mkCursor [OP_CONST_BOOL; 7; 4] 0) (mkCursor [OP_CONST_BOOL; 7; 4] 2)
    (I_ConstBool true)) as (Hf & Hb & _); [by repeat constructor|vm_compute; congruence|reflexivity|].
  split; [exact Hf|exact Hb].
Defined.
