(* ===== verification/BytecodeTables.v ===== *)
(** * Facts of the type table and of the slot contracts

    For every reader of the tables: [Exact], encoding then decoding gives the
    value back; [Canonical], what the reader accepts fits and its bytes are
    the encoder's; and [Cuts], a cut table is refused as [Truncated] or
    [BadLength].  The three are closed under the vector reader, so the proofs
    follow the structure of the tables. *)

From stdpp Require Import base numbers list.
From S2P Require Import Prelude Codec Bytecode BytecodeFacts.

Open Scope N_scope.

(** ** Values in range *)

(** A vector the decoder can reserve, of elements that fit. *)
Definition vec_fits {A} (size : N) (P : A → bool) (l : list A) : bool :=
  (lenN l * N.max size 1 <=? MAX_DECODE_VECTOR_BYTES) && forallb P l.

Definition row_elem_fits (e : BcRow) : bool :=
  match e with
  | Row_Op idx | Row_Group idx | Row_Var idx => fits_u32 idx
  end.

Definition indices_fit (l : list N) : bool := vec_fits 4 fits_u32 l.
Definition row_fits (row : list BcRow) : bool := vec_fits 8 row_elem_fits row.

(** The parts of a function type: as many markers as parameters. *)
Definition fn_fits (params : list N) (muts : list bool) (ret : N) (row : list BcRow) : bool :=
  indices_fit params && (lenN muts =? lenN params) && fits_u32 ret && row_fits row.

Definition type_fits (t : BcType) : bool :=
  match t with
  | Ty_Class x | Ty_List x | Ty_Var x | Ty_Run x | Ty_Wait x | Ty_RunSnapshot x => fits_u32 x
  | Ty_Inst c args => fits_u32 c && indices_fit args
  | Ty_Map a b | Ty_PendingCall a b | Ty_Handle a b | Ty_Op a b => fits_u32 a && fits_u32 b
  | Ty_Tuple elems => indices_fit elems
  | Ty_Fn params muts ret row | Ty_Callback params muts ret row => fn_fits params muts ret row
  | Ty_Projection a b c => fits_u32 a && fits_u32 b && fits_u32 c
  | _ => true
  end.

Definition use_fits (u : BcInterfaceUse) : bool :=
  fits_u32 (use_interface u) && indices_fit (use_types u) && vec_fits 24 row_fits (use_rows u).

Definition bounds_fit (b : list (list BcInterfaceUse)) : bool := vec_fits 24 (vec_fits 56 use_fits) b.

Definition callable_fits (c : BcCallableContract) : bool :=
  fits_u32 (cc_type_params c) && fits_u32 (cc_effect_params c) && bounds_fit (cc_type_bounds c) &&
  fn_fits (cc_params c) (cc_param_muts c) (cc_ret c) (cc_row c).

Definition slot_fits (s : SlotContract) : bool :=
  match s with
  | Slot_Function c | Slot_Method c => callable_fits c
  | Slot_Class type_params abi ty constructor =>
      fits_u32 type_params && (lenN abi =? 32) && fits_u32 ty && callable_fits constructor
  | Slot_Value ty => fits_u32 ty
  | Slot_Process message result => fits_u32 message && fits_u32 result
  end.

(** ** Encode then decode, and back *)

Definition Exact {A} (p : Dec A) (enc : A → list N) (P : A → bool) : Prop :=
  ∀ k a, P a = true → Parses k p (enc a) a.

Definition Canonical {A} (p : Dec A) (enc : A → list N) (P : A → bool) : Prop :=
  Reads p (λ bs a, bs = enc a ∧ P a = true).

Lemma forallb_Forall {A} (P : A → bool) l : forallb P l = true ↔ Forall (λ a, P a = true) l.
Proof. rewrite list.Forall_forall, List.forallb_forall. setoid_rewrite list_elem_of_In. done. Qed.

Lemma lenN_concat_ge {A} (enc : A → list N) l :
  Forall (λ a, 1 <= lenN (enc a)) l → lenN l <= lenN (concat (enc <$> l)).
Proof.
  unfold lenN. induction 1 as [|a l Ha Hl IH]; [done|]. cbn [concat fmap list_fmap length].
  rewrite length_app. lia.
Qed.

Lemma vec_fits_spec {A} size (P : A → bool) l : vec_fits size P l = true →
  lenN l * N.max size 1 <= MAX_DECODE_VECTOR_BYTES ∧ lenN l <= U32_MAX ∧
  as_u32 (lenN l) = lenN l ∧ Forall (λ a, P a = true) l.
Proof.
  unfold vec_fits. intros H. apply andb_prop in H as [Hs Hf]. to_prop.
  assert (lenN l <= U32_MAX) by (unfold MAX_DECODE_VECTOR_BYTES, U32_MAX in *; nia).
  split_and!; [done..|by apply as_u32_small|by apply forallb_Forall].
Qed.

Lemma lenN_to_nat {A} (l : list A) : N.to_nat (lenN l) = length l.
Proof. apply Nat2N.id. Qed.

(** Take a conjunction of range tests apart. *)
Ltac split_fits :=
  repeat match goal with
  | H : andb _ _ = true |- _ => apply andb_prop in H as [? ?]
  end.

Section Tables.
Context (reserve : N → bool).

(** The allocator grants every reservation up to the decoder's own bound. *)
Context (Hreserve : ∀ bytes, bytes <= MAX_DECODE_VECTOR_BYTES → reserve bytes = true).

Lemma exact_u32 : Exact cur_u32 write_u32 fits_u32.
Proof. intros k v Hv. apply parses_u32. by apply N.leb_le. Qed.

(** The body of a vector after its length. *)
Lemma parses_elements {A} k size (p : Dec A) enc P l :
  Exact p enc P → vec_fits size P l = true →
  Parses k (_ ← decode_vec reserve size (lenN l); dec_times (N.to_nat (lenN l)) p) (concat (enc <$> l)) l.
Proof using Hreserve.
  intros Hp Hl. apply vec_fits_spec in Hl as (Hs & _ & _ & Hf).
  change (concat (enc <$> l)) with ([] ++ concat (enc <$> l)).
  eapply parses_bind; [apply (parses_vec 0); auto|lia|]. rewrite lenN_to_nat. apply parses_times.
  eapply Forall_impl; [exact Hf|]. intros a Ha k'. by apply Hp.
Qed.

Lemma exact_vec {A} size (p : Dec A) enc P :
  Exact p enc P → (∀ a, 1 <= lenN (enc a)) →
  Exact (read_vec reserve size p) (write_vec enc) (vec_fits size P).
Proof using Hreserve.
  intros Hp Hne k l Hl. destruct (vec_fits_spec _ _ _ Hl) as (_ & Hu & Has & _).
  unfold read_vec, write_vec. rewrite Has. eapply parses_bind; [by apply parses_len| |by eapply parses_elements].
  pose proof (lenN_concat_ge enc l ltac:(by apply Forall_true)). lia.
Qed.

Lemma parses_index_count k bs n :
  4 * n <= lenN bs → ∀ B (f : unit → Dec B) b, Parses k (f tt) bs b → Parses k (check_index_count n ≫= f) bs b.
Proof.
  intros Hn B f b Hf c rest Hr Hc. unfold mbind, dec_bind, check_index_count.
  replace (_ <? n) with false; [exact (Hf c rest Hr Hc)|]. symmetry. apply N.ltb_ge.
  destruct Hc as (Hl & Hp & Hd). unfold cur_remaining, saturating_sub, lenN in *.
  assert (length (drop (N.to_nat (cur_pos c)) (cur_bytes c)) = length (bs ++ rest)) as Hlen by (by rewrite Hd).
  rewrite length_drop, length_app in Hlen. apply N.div_le_lower_bound; [done|]. lia.
Qed.

Lemma lenN_indices l : lenN (concat (write_u32 <$> l)) = 4 * lenN l.
Proof.
  unfold lenN. induction l as [|v l IH]; [done|]. cbn [concat fmap list_fmap length].
  rewrite length_app. unfold write_u32 at 1. rewrite le_bytes_length. lia.
Qed.

Lemma exact_indices : Exact (read_index_vec reserve) (write_vec write_u32) indices_fit.
Proof using Hreserve.
  intros k l Hl. destruct (vec_fits_spec _ _ _ Hl) as (_ & Hu & Has & _).
  unfold read_index_vec, write_vec. rewrite Has. pose proof (lenN_indices l) as Hlen.
  eapply parses_bind; [by apply parses_len|lia|]. apply parses_index_count; [lia|].
  by apply (parses_elements k 4 cur_u32 write_u32 fits_u32 l exact_u32).
Qed.

(** Readers composed with [≫=] follow their encodings. *)
Lemma parses_then {A B} k (p : Dec A) enc P (f : A → Dec B) a bs b :
  Exact p enc P → P a = true → Parses k (f a) bs b → Parses k (p ≫= f) (enc a ++ bs) b.
Proof. intros Hp Ha Hf. eapply parses_bind; [by apply (Hp 0)|lia|done]. Qed.

Lemma parses_end {A B} k (p : Dec A) enc P (f : A → Dec B) a b :
  Exact p enc P → P a = true → f a = dret b → Parses k (p ≫= f) (enc a) b.
Proof. intros Hp Ha Hf. eapply parses_last; [by apply (Hp 0)|done]. Qed.

Lemma encode_row_elem_nonempty e : 1 <= lenN (encode_row_elem e).
Proof. destruct e; unfold lenN; simpl; lia. Qed.

Lemma write_vec_nonempty {A} (enc : A → list N) l : 1 <= lenN (write_vec enc l).
Proof. unfold lenN, write_vec, write_u32. rewrite length_app, le_bytes_length. lia. Qed.

Lemma exact_row_elem : Exact decode_row_elem encode_row_elem row_elem_fits.
Proof.
  intros k e He. unfold decode_row_elem.
  destruct e; cbn [row_elem_fits encode_row_elem app] in *; apply parses_u8_bind;
    eapply (parses_end _ _ _ _ _ _ _ exact_u32); done.
Qed.

Lemma exact_row : Exact (decode_row reserve) encode_row row_fits.
Proof using Hreserve. apply exact_vec; [apply exact_row_elem|apply encode_row_elem_nonempty]. Qed.

Lemma exact_muts params :
  indices_fit params = true →
  Exact (read_muts reserve (lenN params)) (write_vec (λ m, [bool_byte m])) (λ muts, lenN muts =? lenN params).
Proof using Hreserve.
  intros Hp k muts Hm. apply vec_fits_spec in Hp as (Hs & Hu & Has & _). to_prop.
  unfold read_muts, write_vec. rewrite Hm, Has. eapply parses_bind; [by apply parses_len| |].
  - rewrite <- Hm. pose proof (lenN_concat_ge (λ m, [bool_byte m]) muts) as Hge.
    specialize (Hge ltac:(by apply Forall_true)). lia.
  - rewrite N.eqb_refl. cbn [negb]. rewrite <- Hm.
    apply (parses_elements k 1 cur_flag (λ m, [bool_byte m]) (λ _, true) muts).
    + intros k' m _. apply parses_bool.
    + unfold vec_fits. rewrite Hm. apply andb_true_intro. split; [apply N.leb_le; lia|].
      apply forallb_Forall. by apply Forall_true.
Qed.

Lemma exact_fn_parts k params muts ret row :
  fn_fits params muts ret row = true →
  Parses k (decode_fn_parts reserve)
    (write_vec write_u32 params ++ write_vec (λ m, [bool_byte m]) muts ++ write_u32 ret ++ encode_row row)
    (params, muts, ret, row).
Proof using Hreserve.
  unfold fn_fits. intros H. split_fits. unfold decode_fn_parts.
  eapply parses_then; [apply exact_vec; [apply exact_u32|]|eassumption|].
  { intros a. unfold lenN, write_u32. rewrite le_bytes_length. lia. }
  eapply parses_then; [by apply exact_muts|done|].
  eapply parses_then; [apply exact_u32|done|]. by eapply parses_end; [apply exact_row|..].
Qed.

(** One field of a table record. *)
Ltac table_step :=
  lazymatch goal with
  | |- Parses _ (dret _) [] _ => apply parses_ret
  | |- Parses _ (cur_u32 ≫= _) (write_u32 _ ++ _) _ =>
      eapply (parses_then _ cur_u32 write_u32 fits_u32); [apply exact_u32|assumption|]
  | |- Parses _ (cur_u32 ≫= _) (write_u32 _) _ =>
      eapply (parses_end _ cur_u32 write_u32 fits_u32); [apply exact_u32|assumption|reflexivity]
  end; cbv beta.

Lemma exact_type : Exact (decode_type reserve) encode_type type_fits.
Proof using Hreserve.
  assert (Exact (read_vec reserve 4 cur_u32) (write_vec write_u32) indices_fit) as Hvec.
  { apply exact_vec; [apply exact_u32|]. intros a. unfold lenN, write_u32. rewrite le_bytes_length. lia. }
  intros k t Ht. unfold decode_type.
  destruct t; cbn [type_fits] in Ht; split_fits; cbn [encode_type app]; apply parses_u8_bind;
    select_arm; repeat table_step.
  - by eapply parses_end.
  - by eapply parses_end.
  - eapply parses_last; [by apply (exact_fn_parts 0)|done].
  - eapply parses_last; [by apply (exact_fn_parts 0)|done].
Qed.

Lemma exact_use : Exact (decode_interface_use reserve) encode_interface_use use_fits.
Proof using Hreserve.
  intros k [interface types rows] Hu. unfold use_fits in Hu. cbn [use_interface use_types use_rows] in Hu.
  split_fits. unfold decode_interface_use, encode_interface_use. cbn [use_interface use_types use_rows].
  table_step. eapply parses_then; [apply exact_indices|done|].
  eapply parses_end; [apply exact_vec; [apply exact_row|intros; apply write_vec_nonempty]|done|done].
Qed.

Lemma encode_use_nonempty u : 1 <= lenN (encode_interface_use u).
Proof. unfold lenN, encode_interface_use, write_u32. rewrite length_app, le_bytes_length. lia. Qed.

Lemma exact_bounds : Exact (decode_type_bounds reserve) encode_type_bounds bounds_fit.
Proof using Hreserve.
  apply exact_vec; [apply exact_vec; [apply exact_use|apply encode_use_nonempty]|].
  intros; apply write_vec_nonempty.
Qed.

Lemma exact_callable : Exact (decode_callable_contract reserve) encode_callable_contract callable_fits.
Proof using Hreserve.
  intros k [tp ep bounds params muts ret row] Hc. unfold callable_fits, fn_fits in Hc.
  unfold decode_callable_contract, encode_callable_contract.
  cbn [cc_type_params cc_effect_params cc_type_bounds cc_params cc_param_muts cc_ret cc_row] in *.
  split_fits. do 2 table_step. eapply parses_then; [apply exact_bounds|done|].
  eapply parses_then; [apply exact_indices|done|]. eapply parses_then; [by apply exact_muts|done|].
  table_step. by eapply parses_end; [apply exact_row|..].
Qed.

Lemma exact_abi : Exact (cur_take 32) (λ abi, abi) (λ abi, lenN abi =? 32).
Proof. intros k abi Ha. to_prop. rewrite <- Ha. apply parses_take. Qed.

Lemma exact_slot : Exact (decode_slot_contract reserve) encode_slot_contract slot_fits.
Proof using Hreserve.
  intros k s Hs. unfold decode_slot_contract.
  destruct s; cbn [slot_fits] in Hs; split_fits; cbn [encode_slot_contract app]; apply parses_u8_bind;
    select_arm; repeat table_step.
  - by eapply parses_end; [apply exact_callable|..].
  - by eapply parses_end; [apply exact_callable|..].
  - eapply (parses_then _ _ (λ abi, abi)); [apply exact_abi|done|]. table_step.
    by eapply parses_end; [apply exact_callable|..].
Qed.
End Tables.

(** ** What the table readers accept *)

Section Accepted.
Context (reserve : N → bool).

Lemma canonical_u32 : Canonical cur_u32 write_u32 fits_u32.
Proof. eapply reads_weaken; [apply reads_u32|]. intros bs v _ [-> Hv]. split; [done|by apply N.leb_le]. Qed.

Lemma canonical_flag : Canonical cur_flag (λ m, [bool_byte m]) (λ _, true).
Proof. eapply reads_weaken; [apply reads_flag|]. by intros bs b _ ->. Qed.

Lemma reads_elements {A} size (p : Dec A) enc P count :
  Canonical p enc P → count <= U32_MAX →
  Reads (_ ← decode_vec reserve size count; dec_times (N.to_nat count) p)
    (λ bs l, bs = concat (enc <$> l) ∧ lenN l = count ∧ vec_fits size P l = true).
Proof.
  intros Hp Hc. eapply reads_bind; [apply reads_vec|]. intros [] bs _ [-> Hs].
  eapply reads_weaken; [apply (reads_times _ p enc (λ a, P a = true) Hp)|]. intros bs l _ (-> & Hl & HP).
  assert (lenN l = count) as Hcount by (unfold lenN; lia). split_and!; [done..|].
  unfold vec_fits. rewrite Hcount. apply andb_true_intro. split; [by apply N.leb_le|by apply forallb_Forall].
Qed.

Lemma canonical_vec {A} size (p : Dec A) enc P :
  Canonical p enc P → Canonical (read_vec reserve size p) (write_vec enc) (vec_fits size P).
Proof.
  intros Hp. eapply reads_bind; [apply reads_len|]. intros count bs _ [-> Hc].
  eapply reads_weaken; [by apply reads_elements|]. intros bs l _ (-> & <- & Hl).
  split; [|done]. unfold write_vec. rewrite as_u32_small by done. done.
Qed.

Lemma reads_index_count n : Reads (check_index_count n) (λ bs _, bs = []).
Proof.
  intros c a c' Hok Hc. unfold check_index_count. destruct (_ <? n); [done|]. intros [= <- <-].
  by apply (reads_ret tt (λ bs _, bs = []) eq_refl c tt c).
Qed.

Lemma canonical_indices : Canonical (read_index_vec reserve) (write_vec write_u32) indices_fit.
Proof.
  eapply reads_bind; [apply reads_len|]. intros count bs _ [-> Hc].
  eapply reads_bind; [apply reads_index_count|]. intros [] bs _ ->.
  eapply reads_weaken; [apply reads_elements; [apply canonical_u32|done]|].
  intros bs l _ (-> & <- & Hl). split; [|done]. unfold write_vec. rewrite as_u32_small by done. done.
Qed.

Lemma canonical_then {A B} (p : Dec A) enc P (f : A → Dec B) R :
  Canonical p enc P → (∀ a, P a = true → Reads (f a) (λ bs, R (enc a ++ bs))) → Reads (p ≫= f) R.
Proof. intros Hp Hf. eapply reads_bind; [exact Hp|]. intros a bs _ [-> Ha]. auto. Qed.

Lemma canonical_row_elem : Canonical decode_row_elem encode_row_elem row_elem_fits.
Proof.
  eapply reads_bind; [apply reads_u8|]. intros tag bs _ [-> _].
  repeat (apply reads_if; intros E; [apply N.eqb_eq in E; subst|clear E]); [..|apply reads_err].
  all: apply (canonical_then _ _ _ _ _ canonical_u32); intros v Hv; apply reads_ret; by rewrite app_nil_r.
Qed.

Lemma row_canonical : Canonical (decode_row reserve) encode_row row_fits.
Proof. apply canonical_vec, canonical_row_elem. Qed.

Lemma canonical_muts params : indices_fit params = true →
  Canonical (read_muts reserve (lenN params)) (write_vec (λ m, [bool_byte m])) (λ muts, lenN muts =? lenN params).
Proof.
  intros Hp. eapply reads_bind; [apply reads_len|]. intros count bs _ [-> Hc].
  apply reads_if; intros E; [apply reads_err|]. apply negb_false_iff in E. to_prop. subst count.
  eapply reads_weaken; [apply reads_elements; [apply canonical_flag|done]|].
  intros bs l _ (-> & Hl & _). unfold write_vec. rewrite Hl, as_u32_small by done.
  split; [done|by apply N.eqb_eq].
Qed.

(** Close a record: the bytes read are the encoder's. *)
Ltac close_record := apply reads_ret; rewrite ?app_nil_r, <- ?app_assoc.

Lemma canonical_fn_parts : Reads (decode_fn_parts reserve)
  (λ bs '(params, muts, ret, row),
     bs = write_vec write_u32 params ++ write_vec (λ m, [bool_byte m]) muts ++ write_u32 ret ++ encode_row row ∧
     fn_fits params muts ret row = true).
Proof.
  apply (canonical_then _ _ _ _ _ (canonical_vec 4 _ _ _ canonical_u32)); intros params Hp.
  apply (canonical_then _ _ _ _ _ (canonical_muts params Hp)); intros muts Hm.
  apply (canonical_then _ _ _ _ _ canonical_u32); intros ret Hr.
  apply (canonical_then _ _ _ _ _ row_canonical); intros row Hw.
  close_record. split; [done|]. unfold fn_fits, indices_fit. by rewrite Hp, Hm, Hr, Hw.
Qed.

Ltac close_type :=
  close_record; split; [done|];
  cbn [type_fits slot_fits];
  repeat match goal with |- andb _ _ = true => apply andb_true_intro; split end;
  first [reflexivity | assumption].

Lemma canonical_type : Canonical (decode_type reserve) encode_type type_fits.
Proof.
  eapply reads_bind; [apply reads_u8|]. intros tag bs _ [-> _]. unfold decode_type_tag.
  repeat lazymatch goal with
  | |- Reads (if _ =? _ then _ else _) _ => apply reads_if; intros ?E; [apply N.eqb_eq in E; subst|clear E]
  | |- Reads (derr _) _ => apply reads_err
  | |- Reads (cur_u32 ≫= _) _ => apply (canonical_then _ _ _ _ _ canonical_u32); intros ? ?
  | |- Reads (read_vec _ _ _ ≫= _) _ =>
      apply (canonical_then _ _ _ _ _ (canonical_vec 4 _ _ _ canonical_u32)); intros ? ?
  | |- Reads (decode_fn_parts _ ≫= _) _ =>
      eapply reads_bind; [apply canonical_fn_parts|intros [[[? ?] ?] ?] ? _ [-> ?]; cbv beta iota]
  | |- Reads (dret _) _ => close_type
  end.
Qed.

Lemma canonical_use : Canonical (decode_interface_use reserve) encode_interface_use use_fits.
Proof.
  apply (canonical_then _ _ _ _ _ canonical_u32); intros interface Hi.
  apply (canonical_then _ _ _ _ _ canonical_indices); intros types Ht.
  apply (canonical_then _ _ _ _ _ (canonical_vec 24 _ _ _ row_canonical)); intros rows Hr.
  close_record. split; [done|]. unfold use_fits. cbn [use_interface use_types use_rows]. by rewrite Hi, Ht, Hr.
Qed.

Lemma canonical_bounds : Canonical (decode_type_bounds reserve) encode_type_bounds bounds_fit.
Proof. apply canonical_vec, canonical_vec, canonical_use. Qed.

Lemma canonical_callable : Canonical (decode_callable_contract reserve) encode_callable_contract callable_fits.
Proof.
  apply (canonical_then _ _ _ _ _ canonical_u32); intros tp Htp.
  apply (canonical_then _ _ _ _ _ canonical_u32); intros ep Hep.
  apply (canonical_then _ _ _ _ _ canonical_bounds); intros bounds Hb.
  apply (canonical_then _ _ _ _ _ canonical_indices); intros params Hp.
  apply (canonical_then _ _ _ _ _ (canonical_muts params Hp)); intros muts Hm.
  apply (canonical_then _ _ _ _ _ canonical_u32); intros ret Hr.
  apply (canonical_then _ _ _ _ _ row_canonical); intros row Hw.
  close_record. split; [done|]. unfold callable_fits, fn_fits.
  cbn [cc_type_params cc_effect_params cc_type_bounds cc_params cc_param_muts cc_ret cc_row].
  by rewrite Htp, Hep, Hb, Hp, Hm, Hr, Hw.
Qed.

Lemma canonical_abi : Canonical (cur_take 32) (λ abi, abi) (λ abi, lenN abi =? 32).
Proof. eapply reads_weaken; [apply reads_take|]. intros bs a _ [-> Hl]. split; [done|by apply N.eqb_eq]. Qed.

Lemma canonical_slot : Canonical (decode_slot_contract reserve) encode_slot_contract slot_fits.
Proof.
  eapply reads_bind; [apply reads_u8|]. intros tag bs _ [-> _].
  repeat lazymatch goal with
  | |- Reads (if _ =? _ then _ else _) _ => apply reads_if; intros ?E; [apply N.eqb_eq in E; subst|clear E]
  | |- Reads (derr _) _ => apply reads_err
  | |- Reads (cur_u32 ≫= _) _ => apply (canonical_then _ _ _ _ _ canonical_u32); intros ? ?
  | |- Reads (cur_take _ ≫= _) _ => apply (canonical_then _ _ _ _ _ canonical_abi); intros ? ?
  | |- Reads (decode_callable_contract _ ≫= _) _ =>
      apply (canonical_then _ _ _ _ _ canonical_callable); intros ? ?
  | |- Reads (dret _) _ => close_type
  end.
Qed.
End Accepted.

(** ** Cut tables *)

Definition cut_error (e : DecodeError) : Prop := e = Truncated ∨ e = BadLength.

Section Cut_tables.
Context (reserve : N → bool).

Lemma cut_truncated : cut_error Truncated.
Proof. by left. Qed.
Lemma cut_bad_length : cut_error BadLength.
Proof. by right. Qed.

#[local] Hint Resolve cut_truncated cut_bad_length : core.


Lemma cuts_read_vec {A} size (p : Dec A) : Cuts cut_error p → Cuts cut_error (read_vec reserve size p).
Proof. intros Hp. pose proof cut_truncated. pose proof cut_bad_length. unfold read_vec. repeat cuts_step. done. Qed.

Lemma cuts_index_count n : Cuts cut_error (check_index_count n).
Proof.
  intros c a c'. unfold check_index_count. destruct (_ <? n) eqn:E; [done|]. intros [= <- <-].
  split_and!; [done|lia|]. intros m Hm. destruct (cur_remaining (cut m c) / 4 <? n); [left; eauto|by right].
Qed.

Lemma cuts_indices : Cuts cut_error (read_index_vec reserve).
Proof.
  pose proof cut_truncated. pose proof cut_bad_length.
  unfold read_index_vec. repeat cuts_step. apply cuts_index_count.
Qed.

Lemma cuts_row : Cuts cut_error (decode_row reserve).
Proof. pose proof cut_truncated. apply cuts_read_vec. unfold decode_row_elem. repeat cuts_step. Qed.

Lemma cuts_muts n : Cuts cut_error (read_muts reserve n).
Proof. pose proof cut_truncated. pose proof cut_bad_length. unfold read_muts. repeat cuts_step. Qed.

Lemma cuts_type : Cuts cut_error (decode_type reserve).
Proof.
  pose proof cut_truncated. unfold decode_type, decode_type_tag, decode_fn_parts.
  repeat lazymatch goal with
  | |- Cuts _ (read_vec _ _ _) => apply cuts_read_vec
  | |- Cuts _ (read_muts _ _) => apply cuts_muts
  | |- Cuts _ (decode_row _) => apply cuts_row
  | |- Cuts _ _ => cuts_step
  end.
Qed.

Lemma cuts_callable : Cuts cut_error (decode_callable_contract reserve).
Proof.
  pose proof cut_truncated. unfold decode_callable_contract, decode_type_bounds, decode_interface_use.
  repeat lazymatch goal with
  | |- Cuts _ (read_vec _ _ _) => apply cuts_read_vec
  | |- Cuts _ (read_index_vec _) => apply cuts_indices
  | |- Cuts _ (read_muts _ _) => apply cuts_muts
  | |- Cuts _ (decode_row _) => apply cuts_row
  | |- Cuts _ _ => cuts_step
  end.
Qed.

Lemma cuts_slot : Cuts cut_error (decode_slot_contract reserve).
Proof.
  pose proof cut_truncated. unfold decode_slot_contract.
  repeat lazymatch goal with
  | |- Cuts _ (decode_callable_contract _) => apply cuts_callable
  | |- Cuts _ _ => cuts_step
  end.
Qed.
End Cut_tables.

(** ** The properties *)

(** C17. A type table entry, and a slot contract, whose indices are [u32]s and
    whose vectors the decoder can reserve, decodes to itself from its own
    encoding wherever that stands in a vector; nested vectors, effect rows
    and parameter markers included. *)
Theorem tables_roundtrip (reserve : N → bool) (t : BcType) (s : SlotContract) (before after : list N) :
  (∀ bytes, bytes <= MAX_DECODE_VECTOR_BYTES → reserve bytes = true) →
  (type_fits t = true → lenN (before ++ encode_type t ++ after) <= USIZE_MAX →
   decode_type reserve (mkCursor (before ++ encode_type t ++ after) (lenN before)) =
     Ok (t, mkCursor (before ++ encode_type t ++ after) (lenN before + lenN (encode_type t)))) ∧
  (slot_fits s = true → lenN (before ++ encode_slot_contract s ++ after) <= USIZE_MAX →
   decode_slot_contract reserve (mkCursor (before ++ encode_slot_contract s ++ after) (lenN before)) =
     Ok (s, mkCursor (before ++ encode_slot_contract s ++ after)
              (lenN before + lenN (encode_slot_contract s)))).
Proof.
  intros Hr. split; intros Hf Hlen.
  - apply (exact_type reserve Hr 0 t Hf (mkCursor _ _) after); [lia|]. by apply cursor_at_app.
  - apply (exact_slot reserve Hr 0 s Hf (mkCursor _ _) after); [lia|]. by apply cursor_at_app.
Qed.

(** A function type with a marked parameter and an effect row, and a class
    contract with a bounded type parameter. *)
Definition demo_type : BcType := Ty_Fn [1; 2] [true; false] 3 [Row_Op 4; Row_Var 0].
Definition demo_slot : SlotContract :=
  Slot_Class 1 (repeat 5 32) 9
    (mkCallable 1 1 [[mkInterfaceUse 2 [7] [[Row_Group 3]; []]]] [1] [true] 4 [Row_Var 0]).

Lemma tables_roundtrip_witness :
  decode_type (λ _, true) (mkCursor ([0] ++ encode_type demo_type ++ [9]) 1) =
    Ok (demo_type, mkCursor ([0] ++ encode_type demo_type ++ [9]) 38) ∧
  decode_slot_contract (λ _, true) (mkCursor ([0] ++ encode_slot_contract demo_slot ++ [9]) 1) =
    Ok (demo_slot, mkCursor ([0] ++ encode_slot_contract demo_slot ++ [9])
                     (1 + lenN (encode_slot_contract demo_slot))).
Proof.
  destruct (tables_roundtrip (λ _, true) demo_type demo_slot [0] [9]) as [H1 H2]; [done|].
  split; [apply H1|apply H2]; vm_compute; congruence.
Defined.

(** C18. Whatever byte vector the decoder reads and whatever the allocator
    answers, a type table entry or a slot contract it accepts fits its Rust
    types and the decoder's vector bound, and the bytes it took are exactly
    the encoder's: the table encodings are canonical. *)
Theorem decode_tables_canonical (reserve : N → bool) (c c' : Cursor) (t : BcType) (s : SlotContract) :
  Forall byte_ok (cur_bytes c) → cur_pos c <= lenN (cur_bytes c) →
  (decode_type reserve c = Ok (t, c') →
   type_fits t = true ∧ slice c c' = encode_type t ∧ cur_pos c' <= lenN (cur_bytes c)) ∧
  (decode_slot_contract reserve c = Ok (s, c') →
   slot_fits s = true ∧ slice c c' = encode_slot_contract s ∧ cur_pos c' <= lenN (cur_bytes c)).
Proof.
  intros Hok Hpos. split; intros Hdec.
  - destruct (canonical_type reserve c t c' Hok Hpos Hdec) as (_ & Hle & _ & Hs & Hf). split_and!; [done..|lia].
  - destruct (canonical_slot reserve c s c' Hok Hpos Hdec) as (_ & Hle & _ & Hs & Hf). split_and!; [done..|lia].
Qed.

Lemma decode_tables_canonical_witness :
  type_fits (Ty_Map 1 2) = true ∧
  slice (mkCursor [6; 1; 0; 0; 0; 2; 0; 0; 0] 0) (mkCursor [6; 1; 0; 0; 0; 2; 0; 0; 0] 9) =
    encode_type (Ty_Map 1 2).
Proof.
  destruct (decode_tables_canonical (λ _, true) (mkCursor [6; 1; 0; 0; 0; 2; 0; 0; 0] 0)
    (mkCursor [6; 1; 0; 0; 0; 2; 0; 0; 0] 9) (Ty_Map 1 2) (Slot_Value 0)) as [H _];
    [by repeat constructor|vm_compute; congruence|].
  destruct (H eq_refl) as (Hf & Hs & _). split; [exact Hf|exact Hs].
Defined.

(** Every strict prefix of an encoded type table entry or slot contract is
    refused, as truncated or as a length the input cannot hold. *)
Theorem tables_prefix_refused (reserve : N → bool) (t : BcType) (s : SlotContract) (n : N) :
  (∀ bytes, bytes <= MAX_DECODE_VECTOR_BYTES → reserve bytes = true) →
  (type_fits t = true → lenN (encode_type t) <= USIZE_MAX → n < lenN (encode_type t) →
   ∃ e, cut_error e ∧ decode_type reserve (mkCursor (take (N.to_nat n) (encode_type t)) 0) = Err e) ∧
  (slot_fits s = true → lenN (encode_slot_contract s) <= USIZE_MAX → n < lenN (encode_slot_contract s) →
   ∃ e, cut_error e ∧
     decode_slot_contract reserve (mkCursor (take (N.to_nat n) (encode_slot_contract s)) 0) = Err e).
Proof.
  intros Hr. split; intros Hf Hlen Hn.
  - eapply cuts_refused; eauto using cuts_type. by apply exact_type.
  - eapply cuts_refused; eauto using cuts_slot. by apply exact_slot.
Qed.

Lemma tables_prefix_refused_witness :
  (∃ e, cut_error e ∧ decode_type (λ _, true) (mkCursor (take (N.to_nat 20) (encode_type demo_type)) 0) = Err e) ∧
  (∃ e, cut_error e ∧
     decode_slot_contract (λ _, true) (mkCursor (take (N.to_nat 50) (encode_slot_contract demo_slot)) 0) = Err e).
Proof.
  destruct (tables_prefix_refused (λ _, true) demo_type demo_slot 20) as [H1 _]; [done|].
  destruct (tables_prefix_refused (λ _, true) demo_type demo_slot 50) as [_ H2]; [done|].
  split; [apply H1|apply H2]; vm_compute; congruence.
Defined.
