(* ===== verification/Types.v ===== *)
(** * The interned type store (crates/lm-types/src/lib.rs)

    [TypeStore]: the type table with its hash index and structural facts, the
    class table, row names, native classes, conformances and the memo of
    subtype answers.  Every operation of the store is here; rendering for
    diagnostics is not.  A vector index out of range and a failed debug
    assertion panic; the class walks, the subtype recursion, [join] and
    [substitute] take fuel.  The facts are in [TypesStore] and [TypesSub]. *)

From stdpp Require Import base numbers strings gmap list.
From S2P Require Import Prelude.

(** ** Data *)

(** [TypeId], [ClassId] and [InterfaceId] are transparent [u32]s. *)
Abbreviation TypeId := N (only parsing).
Abbreviation ClassId := N (only parsing).
Abbreviation InterfaceId := N (only parsing).

Definition UNIT : TypeId := 0%N.
Definition BOOL : TypeId := 1%N.
Definition INT : TypeId := 2%N.
Definition STRING : TypeId := 3%N.
Definition NEVER : TypeId := 4%N.
Definition FAULT : TypeId := 5%N.
Definition REQUEST : TypeId := 6%N.
Definition POLICY_TABLE : TypeId := 7%N.
Definition VM : TypeId := 8%N.
Definition DIGEST : TypeId := 9%N.
Definition VM_SNAPSHOT : TypeId := 10%N.
Definition BYTES : TypeId := 11%N.
Definition FILE_HANDLE : TypeId := 12%N.
Definition RESOURCE_HANDLE : TypeId := 13%N.
Definition HOST_RESOURCE : TypeId := 14%N.
Definition FLOAT : TypeId := 15%N.

Inductive RowElem :=
| R_Op (n : N)
| R_Var (v : N).

Inductive ClassKind := ClassNormal | EnumParent | EnumCase.

Inductive Ty :=
| T_Unit
| T_Bool
| T_Int
| T_Float
| T_String
| T_Never
| T_Bytes
| T_Digest
| T_Class (c : ClassId)
| T_Inst (c : ClassId) (args : list TypeId)
| T_List (e : TypeId)
| T_Map (k v : TypeId)
| T_Tuple (elems : list TypeId)
| T_Fn (params : list TypeId) (muts : list bool) (ret : TypeId) (row : list RowElem)
| T_Callback (params : list TypeId) (muts : list bool) (ret : TypeId) (row : list RowElem)
| T_Var (i : N)
| T_Projection (base : TypeId) (interface : InterfaceId) (assoc : N)
| T_Fault
| T_Request
| T_PolicyTable
| T_Vm
| T_Run (t : TypeId)
| T_Wait (t : TypeId)
| T_PendingCall (a r : TypeId)
| T_Handle (m r : TypeId)
| T_VmSnapshot
| T_RunSnapshot (t : TypeId)
| T_FileHandle
| T_ResourceHandle
| T_HostResource
| T_Op (op : N) (f : TypeId).

#[export] Instance RowElem_eq_dec : EqDecision RowElem.
Proof. solve_decision. Defined.
#[export] Instance ClassKind_eq_dec : EqDecision ClassKind.
Proof. solve_decision. Defined.
#[export] Instance Ty_eq_dec : EqDecision Ty.
Proof. solve_decision. Defined.

#[export] Instance RowElem_countable : Countable RowElem.
Proof.
  refine (inj_countable' (λ e, match e with R_Op n => inl n | R_Var v => inr v end)
    (λ c : N + N, match c with inl n => R_Op n | inr v => R_Var v end) _).
  by intros [].
Defined.

(** A key of a type: its tag, ids, markers and row. *)
Definition ty_code (t : Ty) : N * list N * list bool * list RowElem :=
  match t with
  | T_Unit => (0, [], [], [])
  | T_Bool => (1, [], [], [])
  | T_Int => (2, [], [], [])
  | T_Float => (3, [], [], [])
  | T_String => (4, [], [], [])
  | T_Never => (5, [], [], [])
  | T_Bytes => (6, [], [], [])
  | T_Digest => (7, [], [], [])
  | T_Class c => (8, [c], [], [])
  | T_Inst c args => (9, c :: args, [], [])
  | T_List e => (10, [e], [], [])
  | T_Map k v => (11, [k; v], [], [])
  | T_Tuple elems => (12, elems, [], [])
  | T_Fn params muts ret row => (13, ret :: params, muts, row)
  | T_Callback params muts ret row => (14, ret :: params, muts, row)
  | T_Var i => (15, [i], [], [])
  | T_Projection base interface assoc => (16, [base; interface; assoc], [], [])
  | T_Fault => (17, [], [], [])
  | T_Request => (18, [], [], [])
  | T_PolicyTable => (19, [], [], [])
  | T_Vm => (20, [], [], [])
  | T_Run t => (21, [t], [], [])
  | T_Wait t => (22, [t], [], [])
  | T_PendingCall a r => (23, [a; r], [], [])
  | T_Handle m r => (24, [m; r], [], [])
  | T_VmSnapshot => (25, [], [], [])
  | T_RunSnapshot t => (26, [t], [], [])
  | T_FileHandle => (27, [], [], [])
  | T_ResourceHandle => (28, [], [], [])
  | T_HostResource => (29, [], [], [])
  | T_Op op f => (30, [op; f], [], [])
  end%N.

Definition ty_decode (c : N * list N * list bool * list RowElem) : option Ty :=
  match c with
  | (0, _, _, _) => Some T_Unit
  | (1, _, _, _) => Some T_Bool
  | (2, _, _, _) => Some T_Int
  | (3, _, _, _) => Some T_Float
  | (4, _, _, _) => Some T_String
  | (5, _, _, _) => Some T_Never
  | (6, _, _, _) => Some T_Bytes
  | (7, _, _, _) => Some T_Digest
  | (8, [c], _, _) => Some (T_Class c)
  | (9, c :: args, _, _) => Some (T_Inst c args)
  | (10, [e], _, _) => Some (T_List e)
  | (11, [k; v], _, _) => Some (T_Map k v)
  | (12, elems, _, _) => Some (T_Tuple elems)
  | (13, ret :: params, muts, row) => Some (T_Fn params muts ret row)
  | (14, ret :: params, muts, row) => Some (T_Callback params muts ret row)
  | (15, [i], _, _) => Some (T_Var i)
  | (16, [base; interface; assoc], _, _) => Some (T_Projection base interface assoc)
  | (17, _, _, _) => Some T_Fault
  | (18, _, _, _) => Some T_Request
  | (19, _, _, _) => Some T_PolicyTable
  | (20, _, _, _) => Some T_Vm
  | (21, [t], _, _) => Some (T_Run t)
  | (22, [t], _, _) => Some (T_Wait t)
  | (23, [a; r], _, _) => Some (T_PendingCall a r)
  | (24, [m; r], _, _) => Some (T_Handle m r)
  | (25, _, _, _) => Some T_VmSnapshot
  | (26, [t], _, _) => Some (T_RunSnapshot t)
  | (27, _, _, _) => Some T_FileHandle
  | (28, _, _, _) => Some T_ResourceHandle
  | (29, _, _, _) => Some T_HostResource
  | (30, [op; f], _, _) => Some (T_Op op f)
  | _ => None
  end%N.

#[export] Instance Ty_countable : Countable Ty.
Proof. apply (inj_countable ty_code ty_decode). by intros []. Defined.

Record ClassMeta := mkClassMeta {
  cm_name : string;
  cm_is_final : bool;
  cm_parent : option ClassId;
  cm_parent_args : list TypeId;
  cm_type_params : N;
  cm_kind : ClassKind;
}.

Definition TYPE_FACT_TYPE_VAR : N := 1.
Definition TYPE_FACT_EFFECT_VAR : N := 2.
Definition TYPE_FACT_CALLBACK : N := 4.
Definition TYPE_FACT_PROJECTION : N := 8.

(** The memo of subtype answers, keyed by expected and found type. *)
Abbreviation Memo := (gmap (TypeId * TypeId) bool).

Record TypeStore := mkStore {
  ts_types : list Ty;
  ts_facts : list N;
  ts_index : gmap Ty TypeId;
  ts_classes : list ClassMeta;
  ts_row_names : list string;
  ts_row_name_index : gmap string N;
  ts_native_classes : gmap TypeId ClassId;
  ts_native_list : option ClassId;
  ts_native_map : option ClassId;
  ts_native_tuples : list (option ClassId);
  ts_conformances : gmap (ClassId * InterfaceId) (list TypeId);
  ts_cache : Memo;
}.

Definition set_types (s : TypeStore) t f i : TypeStore :=
  mkStore t f i (ts_classes s) (ts_row_names s) (ts_row_name_index s) (ts_native_classes s)
    (ts_native_list s) (ts_native_map s) (ts_native_tuples s) (ts_conformances s) (ts_cache s).
Definition set_classes (s : TypeStore) c : TypeStore :=
  mkStore (ts_types s) (ts_facts s) (ts_index s) c (ts_row_names s) (ts_row_name_index s)
    (ts_native_classes s) (ts_native_list s) (ts_native_map s) (ts_native_tuples s)
    (ts_conformances s) (ts_cache s).
Definition set_row_names (s : TypeStore) r i : TypeStore :=
  mkStore (ts_types s) (ts_facts s) (ts_index s) (ts_classes s) r i (ts_native_classes s)
    (ts_native_list s) (ts_native_map s) (ts_native_tuples s) (ts_conformances s) (ts_cache s).
Definition set_natives (s : TypeStore) n l m t : TypeStore :=
  mkStore (ts_types s) (ts_facts s) (ts_index s) (ts_classes s) (ts_row_names s) (ts_row_name_index s)
    n l m t (ts_conformances s) (ts_cache s).
Definition set_conformances (s : TypeStore) c : TypeStore :=
  mkStore (ts_types s) (ts_facts s) (ts_index s) (ts_classes s) (ts_row_names s) (ts_row_name_index s)
    (ts_native_classes s) (ts_native_list s) (ts_native_map s) (ts_native_tuples s) c (ts_cache s).
Definition set_cache (s : TypeStore) c : TypeStore :=
  mkStore (ts_types s) (ts_facts s) (ts_index s) (ts_classes s) (ts_row_names s) (ts_row_name_index s)
    (ts_native_classes s) (ts_native_list s) (ts_native_map s) (ts_native_tuples s)
    (ts_conformances s) c.

(** [subtype_cache.borrow_mut().clear()]. *)
Definition clear_cache (s : TypeStore) : TypeStore := set_cache s ∅.

(** ** Monadic iteration *)

(** [iter().map(f).collect()] where [f] changes the store. *)
Fixpoint map_store {A B S} (f : S → A → exec (B * S)) (s : S) (l : list A) : exec (list B * S) :=
  match l with
  | [] => Ret ([], s)
  | a :: l => '(b, s) ← f s a; '(bs, s) ← map_store f s l; Ret (b :: bs, s)
  end.

(** [zip().all(f)], which stops at the first false answer. *)
Fixpoint all_pairs {A B S} (f : S → A → B → exec (bool * S)) (s : S) (l : list A) (k : list B) :
    exec (bool * S) :=
  match l, k with
  | a :: l, b :: k => '(ok, s) ← f s a b; if (ok : bool) then all_pairs f s l k else Ret (false, s)
  | _, _ => Ret (true, s)
  end.

(** [iter().all(f)] and [iter().any(f)] where [f] can panic. *)
Fixpoint all_exec {A} (f : A → exec bool) (l : list A) : exec bool :=
  match l with
  | [] => Ret true
  | a :: l => ok ← f a; if (ok : bool) then all_exec f l else Ret false
  end.
Fixpoint any_exec {A} (f : A → exec bool) (l : list A) : exec bool :=
  match l with
  | [] => Ret false
  | a :: l => ok ← f a; if (ok : bool) then Ret true else any_exec f l
  end.

(** [vec[i]]. *)
Definition vec_at {A} (l : list A) (i : N) : exec A := of_option (l !! N.to_nat i).

(** ** The type table *)

Definition get (s : TypeStore) (id : TypeId) : exec Ty := vec_at (ts_types s) id.
Definition find_type (s : TypeStore) (t : Ty) : option TypeId := ts_index s !! t.
Definition type_count (s : TypeStore) : N := lenN (ts_types s).

Definition child_facts (facts : list N) (id : TypeId) : exec N := vec_at facts id.

(** [items.iter().fold(0, |facts, item| facts | child(item))]. *)
Fixpoint children_facts (facts : list N) (acc : N) (items : list TypeId) : exec N :=
  match items with
  | [] => Ret acc
  | item :: items => f ← child_facts facts item; children_facts facts (N.lor acc f) items
  end.

Definition is_row_var (e : RowElem) : bool := match e with R_Var _ => true | R_Op _ => false end.

Definition row_facts (row : list RowElem) : N :=
  if existsb is_row_var row then TYPE_FACT_EFFECT_VAR else 0%N.

(** The facts of a type from the facts of its parts. *)
Definition type_facts (facts : list N) (t : Ty) : exec N :=
  match t with
  | T_Var _ => Ret TYPE_FACT_TYPE_VAR
  | T_Projection base _ _ => f ← child_facts facts base; Ret (N.lor f TYPE_FACT_PROJECTION)
  | T_List item | T_Run item | T_Wait item | T_RunSnapshot item => child_facts facts item
  | T_Op _ item => f ← child_facts facts item; Ret (N.land f (N.lor TYPE_FACT_CALLBACK TYPE_FACT_PROJECTION))
  | T_Inst _ args | T_Tuple args => children_facts facts 0 args
  | T_Map l r | T_PendingCall l r | T_Handle l r =>
      a ← child_facts facts l; b ← child_facts facts r; Ret (N.lor a b)
  | T_Fn params _ ret row =>
      p ← children_facts facts 0 params; r ← child_facts facts ret;
      Ret (N.lor (N.lor (N.ldiff p TYPE_FACT_CALLBACK) r) (row_facts row))
  | T_Callback params _ ret row =>
      p ← children_facts facts 0 params; r ← child_facts facts ret;
      Ret (N.lor (N.lor (N.lor p r) (row_facts row)) TYPE_FACT_CALLBACK)
  | _ => Ret 0%N
  end.

Definition intern (s : TypeStore) (ty : Ty) : exec (TypeId * TypeStore) :=
  match ts_index s !! ty with
  | Some id => Ret (id, s)
  | None =>
      facts ← type_facts (ts_facts s) ty;
      let id := as_u32 (lenN (ts_types s)) in
      Ret (id, set_types s (ts_types s ++ [ty]) (ts_facts s ++ [facts]) (<[ty := id]> (ts_index s)))
  end.

Definition has_fact (bit : N) (s : TypeStore) (ty : TypeId) : exec bool :=
  f ← vec_at (ts_facts s) ty; Ret (negb (N.land f bit =? 0)%N).

Definition has_projection := has_fact TYPE_FACT_PROJECTION.
Definition contains_callback := has_fact TYPE_FACT_CALLBACK.
Definition contains_var := has_fact TYPE_FACT_TYPE_VAR.
Definition contains_effect_var := has_fact TYPE_FACT_EFFECT_VAR.

Definition intern_fn (s : TypeStore) params muts ret row : exec (TypeId * TypeStore) :=
  _ ← guard_panic (bool_decide (length params = length muts)); intern s (T_Fn params muts ret row).
Definition intern_callback (s : TypeStore) params muts ret row : exec (TypeId * TypeStore) :=
  _ ← guard_panic (bool_decide (length params = length muts)); intern s (T_Callback params muts ret row).

Definition store_empty : TypeStore :=
  mkStore [] [] ∅ [] [] ∅ ∅ None None (replicate 17 None) ∅ ∅.

(** The primitive types in the order of their constants. *)
Definition primitive_types : list Ty :=
  [T_Unit; T_Bool; T_Int; T_String; T_Never; T_Fault; T_Request; T_PolicyTable; T_Vm; T_Digest;
   T_VmSnapshot; T_Bytes; T_FileHandle; T_ResourceHandle; T_HostResource; T_Float].

Definition new_with_bundle : exec TypeStore :=
  '(_, s) ← map_store intern store_empty primitive_types; Ret s.

Definition is_heap (s : TypeStore) (id : TypeId) : exec bool :=
  t ← get s id;
  Ret match t with
      | T_String | T_Bytes | T_Digest | T_Class _ | T_Inst _ _ | T_List _ | T_Map _ _ | T_Tuple _
      | T_Fn _ _ _ _ | T_Fault | T_Request | T_PolicyTable | T_Vm | T_Run _ | T_Wait _
      | T_PendingCall _ _ | T_Handle _ _ | T_VmSnapshot | T_RunSnapshot _ | T_FileHandle
      | T_ResourceHandle | T_HostResource => true
      | _ => false
      end.

Definition is_holder_local_native (s : TypeStore) (id : TypeId) : exec bool :=
  t ← get s id;
  Ret match t with
      | T_Request | T_PolicyTable | T_Vm | T_Run _ | T_Wait _ | T_PendingCall _ _
      | T_ResourceHandle | T_HostResource => true
      | _ => false
      end.

Definition by_name (name : string) : option TypeId :=
  if decide (name = "Bool") then Some BOOL
  else if decide (name = "Never") then Some NEVER
  else if decide (name = "Int") then Some INT
  else if decide (name = "Float") then Some FLOAT
  else if decide (name = "String") then Some STRING
  else if decide (name = "Fault") then Some FAULT
  else if decide (name = "Request") then Some REQUEST
  else if decide (name = "PolicyTable") then Some POLICY_TABLE
  else if decide (name = "Vm") then Some VM
  else if decide (name = "Digest") then Some DIGEST
  else if decide (name = "VmSnapshot") then Some VM_SNAPSHOT
  else if decide (name = "Bytes") then Some BYTES
  else if decide (name = "FileHandle") then Some FILE_HANDLE
  else if decide (name = "ResourceHandle") then Some RESOURCE_HANDLE
  else if decide (name = "HostResource") then Some HOST_RESOURCE
  else None.

(** ** Effect rows *)

Definition intern_row_name (s : TypeStore) (name : string) : N * TypeStore :=
  match ts_row_name_index s !! name with
  | Some idx => (idx, s)
  | None =>
      let idx := as_u32 (lenN (ts_row_names s)) in
      (idx, set_row_names s (ts_row_names s ++ [name]) (<[name := idx]> (ts_row_name_index s)))
  end.

Definition row_name (s : TypeStore) (idx : N) : exec string := vec_at (ts_row_names s) idx.

Definition row_elem_key (s : TypeStore) (e : RowElem) : exec (N * string * N) :=
  match e with
  | R_Op n => name ← row_name s n; Ret (0%N, name, 0%N)
  | R_Var v => Ret (1%N, EmptyString, v)
  end.

(** The order of the keys: the tag, then the text, then the index. *)
Definition key_leb (a b : N * string * N) : bool :=
  let '(ta, na, va) := a in
  let '(tb, nb, vb) := b in
  if (ta <? tb)%N then true else if (tb <? ta)%N then false
  else match String.compare na nb with
       | Lt => true
       | Gt => false
       | Eq => (va <=? vb)%N
       end.

(** A stable sort of keyed elements. *)
Fixpoint insert_keyed {A} (k : N * string * N) (a : A) (l : list ((N * string * N) * A)) :
    list ((N * string * N) * A) :=
  match l with
  | [] => [(k, a)]
  | (k', a') :: l => if key_leb k k' then (k, a) :: (k', a') :: l else (k', a') :: insert_keyed k a l
  end.

Definition sort_keyed {A} (l : list ((N * string * N) * A)) : list ((N * string * N) * A) :=
  foldr (λ p, insert_keyed p.1 p.2) [] l.

(** [Vec::dedup]. *)
Fixpoint dedup_adjacent {A} `{EqDecision A} (l : list A) : list A :=
  match l with
  | a :: ((b :: _) as l') => if decide (a = b) then dedup_adjacent l' else a :: dedup_adjacent l'
  | _ => l
  end.

Fixpoint row_keys (s : TypeStore) (row : list RowElem) : exec (list ((N * string * N) * RowElem)) :=
  match row with
  | [] => Ret []
  | e :: row => k ← row_elem_key s e; ks ← row_keys s row; Ret ((k, e) :: ks)
  end.

Definition canonical_row (s : TypeStore) (row : list RowElem) : exec (list RowElem) :=
  ks ← row_keys s row; Ret (dedup_adjacent (snd <$> sort_keyed ks)).

Section Rows.
(** [AbiBundle::row_name_operations]: the operations a row name stands for. *)
Context (row_name_operations : string → option (list N)).

(** [AbiBundle::row_name_included]. *)
Definition row_name_included (name expected : string) : bool :=
  if decide (name = expected) then true
  else match row_name_operations name, row_name_operations expected with
       | Some actual, Some required =>
           negb (bool_decide (actual = [])) && negb (bool_decide (required = [])) &&
           forallb (λ op, bool_decide (op ∈ required)) actual
       | _, _ => false
       end.

Definition row_elem_included (s : TypeStore) (elem : RowElem) (sup : list RowElem) : exec bool :=
  match elem with
  | R_Var v => Ret (bool_decide (R_Var v ∈ sup))
  | R_Op n =>
      name ← row_name s n;
      any_exec (λ e, match e with
                     | R_Op m => sup_name ← row_name s m; Ret (row_name_included name sup_name)
                     | R_Var _ => Ret false
                     end) sup
  end.

Definition row_included (s : TypeStore) (sub sup : list RowElem) : exec bool :=
  all_exec (λ e, row_elem_included s e sup) sub.
End Rows.

(** ** The class table *)

Definition register_class (s : TypeStore) (name : string) (type_params : N) (kind : ClassKind) :
    ClassId * TypeStore :=
  (as_u32 (lenN (ts_classes s)),
   set_classes s (ts_classes s ++ [mkClassMeta name false None [] type_params kind])).

Definition class_meta (s : TypeStore) (class : ClassId) : exec ClassMeta := vec_at (ts_classes s) class.
Definition class_count (s : TypeStore) : N := lenN (ts_classes s).

Definition set_class_final (s : TypeStore) (class : ClassId) : exec TypeStore :=
  m ← class_meta s class;
  Ret (set_classes s (<[N.to_nat class := mkClassMeta (cm_name m) true (cm_parent m) (cm_parent_args m)
                                             (cm_type_params m) (cm_kind m)]> (ts_classes s))).

Definition set_class_parent_args (s : TypeStore) (class parent : ClassId) (args : list TypeId) :
    exec TypeStore :=
  m ← class_meta s class;
  Ret (clear_cache (set_classes s
    (<[N.to_nat class := mkClassMeta (cm_name m) (cm_is_final m) (Some parent) args
                           (cm_type_params m) (cm_kind m)]> (ts_classes s)))).

Definition set_class_parent (s : TypeStore) (class parent : ClassId) : exec TypeStore :=
  set_class_parent_args s class parent [].

(** ** Native classes and conformances *)

Definition set_native_class (s : TypeStore) (ty : TypeId) (class : ClassId) : TypeStore :=
  clear_cache (set_natives s (<[ty := class]> (ts_native_classes s)) (ts_native_list s)
    (ts_native_map s) (ts_native_tuples s)).

Definition set_native_list_class (s : TypeStore) (class : ClassId) : TypeStore :=
  clear_cache (set_natives s (ts_native_classes s) (Some class) (ts_native_map s) (ts_native_tuples s)).

Definition set_native_map_class (s : TypeStore) (class : ClassId) : TypeStore :=
  clear_cache (set_natives s (ts_native_classes s) (ts_native_list s) (Some class) (ts_native_tuples s)).

Definition set_native_tuple_class (s : TypeStore) (arity : nat) (class : ClassId) : TypeStore :=
  if decide (arity < length (ts_native_tuples s))%nat then
    clear_cache (set_natives s (ts_native_classes s) (ts_native_list s) (ts_native_map s)
      (<[arity := Some class]> (ts_native_tuples s)))
  else s.

Definition set_conformance (s : TypeStore) (class : ClassId) (interface : InterfaceId)
    (associated : list TypeId) : TypeStore :=
  set_conformances s (<[(class, interface) := associated]> (ts_conformances s)).

Definition conformance (s : TypeStore) (class : ClassId) (interface : InterfaceId) :
    option (list TypeId) := ts_conformances s !! (class, interface).

Definition nominal_class (s : TypeStore) (ty : TypeId) : exec (option (ClassId * list TypeId)) :=
  t ← get s ty;
  Ret match t with
      | T_Class class => Some (class, [])
      | T_Inst class args => Some (class, args)
      | T_List element => (λ class, (class, [element])) <$> ts_native_list s
      | T_Map key value => (λ class, (class, [key; value])) <$> ts_native_map s
      | T_Tuple elements =>
          match ts_native_tuples s !! length elements with
          | Some (Some class) => Some (class, elements)
          | _ => None
          end
      | _ => (λ class, (class, [])) <$> ts_native_classes s !! ty
      end.

(** The position of the first tuple arity whose native class is [class]. *)
Definition tuple_arity (s : TypeStore) (class : ClassId) : option nat :=
  fst <$> list_find (λ c, c = Some class) (ts_native_tuples s).

Section NativeOrder.
(** The iteration order of the native class map. *)
Context (native_order : gmap TypeId ClassId → list (TypeId * ClassId)).

(** The structural native type of a class applied to arguments, if it has one. *)
Definition native_structure (s : TypeStore) (class : ClassId) (args : list TypeId) : option Ty :=
  let tuple :=
    match tuple_arity s class with
    | Some arity => if decide (length args = arity) then Some (T_Tuple args) else None
    | None => None
    end in
  match args with
  | [a] => if decide (ts_native_list s = Some class) then Some (T_List a) else tuple
  | [k; v] => if decide (ts_native_map s = Some class) then Some (T_Map k v) else tuple
  | _ => tuple
  end.

Definition type_for_nominal (s : TypeStore) (class : ClassId) (args : list TypeId) :
    exec (TypeId * TypeStore) :=
  match native_structure s class args with
  | Some t => intern s t
  | None =>
      match args with
      | [] =>
          match list_find (λ p, p.2 = class) (native_order (ts_native_classes s)) with
          | Some (_, (ty, _)) => Ret (ty, s)
          | None => intern s (T_Class class)
          end
      | _ => intern s (T_Inst class args)
      end
  end.
End NativeOrder.

(** ** Ancestors *)

(** The walk of [ancestor_args]; one unit of fuel per class visited. *)
Fixpoint ancestor_walk (fuel : nat) (s : TypeStore) (cur : ClassId) (cur_args : list TypeId)
    (ancestor : ClassId) : exec (option (list TypeId)) :=
  match fuel with
  | O => NoFuel
  | S fuel =>
      if decide (cur = ancestor) then Ret (Some cur_args)
      else
        m ← class_meta s cur;
        match cm_parent m with
        | None => Ret None
        | Some parent =>
            if decide (cm_parent_args m = []) then
              p ← class_meta s parent;
              ancestor_walk fuel s parent (if (cm_type_params p =? 0)%N then [] else cur_args) ancestor
            else ancestor_walk fuel s parent (cm_parent_args m) ancestor
        end
  end.

Definition walk_fuel (s : TypeStore) : nat := S (length (ts_classes s)).

Definition ancestor_args (s : TypeStore) (child : ClassId) (args : list TypeId) (ancestor : ClassId) :
    exec (option (list TypeId)) := ancestor_walk (walk_fuel s) s child args ancestor.

Fixpoint extends_walk (fuel : nat) (s : TypeStore) (cur : option ClassId) (ancestor : ClassId) : exec bool :=
  match cur with
  | None => Ret false
  | Some c =>
      match fuel with
      | O => NoFuel
      | S fuel =>
          if decide (c = ancestor) then Ret true
          else m ← class_meta s c; extends_walk fuel s (cm_parent m) ancestor
      end
  end.

Definition class_extends (s : TypeStore) (child ancestor : ClassId) : exec bool :=
  extends_walk (walk_fuel s) s (Some child) ancestor.

Fixpoint common_walk (fuel : nat) (s : TypeStore) (anc : option ClassId) (b : ClassId) : exec (option ClassId) :=
  match anc with
  | None => Ret None
  | Some c =>
      match fuel with
      | O => NoFuel
      | S fuel =>
          ok ← class_extends s b c;
          if (ok : bool) then Ret (Some c)
          else m ← class_meta s c; common_walk fuel s (cm_parent m) b
      end
  end.

Definition common_ancestor (s : TypeStore) (a b : ClassId) : exec (option ClassId) :=
  common_walk (walk_fuel s) s (Some a) b.

(** ** Subtyping *)

Section Subtyping.
Context (row_name_operations : string → option (list N)).

(** [ancestor_args(a, xs, b).as_ref() == Some(&ys)]. *)
Definition ancestor_is (s : TypeStore) (a : ClassId) (xs : list TypeId) (b : ClassId) (ys : list TypeId) :
    exec bool := o ← ancestor_args s a xs b; Ret (bool_decide (o = Some ys)).

(** The shared arm of function and callback types; [rec memo expected found]
    is the recursive query. *)
Definition compatible_fn (rec : Memo → TypeId → TypeId → exec (bool * Memo)) (s : TypeStore) (memo : Memo)
    (fp : list TypeId) (fm : list bool) (fr : TypeId) (frow : list RowElem)
    (ep : list TypeId) (em : list bool) (er : TypeId) (erow : list RowElem) : exec (bool * Memo) :=
  if negb (bool_decide (length fp = length ep)) then Ret (false, memo)
  else
    '(params, memo) ← all_pairs (λ memo f e, rec memo f e) memo fp ep;
    if negb params then Ret (false, memo)
    else if negb (forallb (λ p, negb p.1 || p.2) (zip fm em)) then Ret (false, memo)
    else
      '(result, memo) ← rec memo er fr;
      if negb result then Ret (false, memo)
      else row ← row_included row_name_operations s frow erow; Ret (row, memo).

(** The structural cases of [compatible]. *)
Definition compatible_types (rec : Memo → TypeId → TypeId → exec (bool * Memo)) (s : TypeStore) (memo : Memo)
    (found expected : Ty) : exec (bool * Memo) :=
  match found, expected with
  | T_Class a, T_Class b => ok ← class_extends s a b; Ret (ok, memo)
  | T_Class a, T_Inst b ys => ok ← ancestor_is s a [] b ys; Ret (ok, memo)
  | T_Inst a xs, T_Class b => ok ← ancestor_is s a xs b []; Ret (ok, memo)
  | T_Inst a xs, T_Inst b ys => ok ← ancestor_is s a xs b ys; Ret (ok, memo)
  | T_Tuple xs, T_Tuple ys =>
      if negb (bool_decide (length xs = length ys)) then Ret (false, memo)
      else all_pairs (λ memo x y, rec memo y x) memo xs ys
  | T_Fn fp fm fr frow, T_Fn ep em er erow => compatible_fn rec s memo fp fm fr frow ep em er erow
  | T_Callback fp fm fr frow, T_Callback ep em er erow => compatible_fn rec s memo fp fm fr frow ep em er erow
  | _, _ => Ret (false, memo)
  end.

Fixpoint compatible_memo (fuel : nat) (s : TypeStore) (memo : Memo) (expected found : TypeId) :
    exec (bool * Memo) :=
  match fuel with
  | O => NoFuel
  | S fuel =>
      if decide (found = expected ∨ found = NEVER) then Ret (true, memo)
      else
        match memo !! (expected, found) with
        | Some hit => Ret (hit, memo)
        | None =>
            nf ← nominal_class s found; ne ← nominal_class s expected;
            '(answer, memo) ←
              match nf, ne with
              | Some (a, xs), Some (b, ys) => ok ← ancestor_is s a xs b ys; Ret (ok, memo)
              | _, _ =>
                  tf ← get s found; te ← get s expected;
                  compatible_types (compatible_memo fuel s) s memo tf te
              end;
            Ret (answer, <[(expected, found) := answer]> memo)
        end
  end.

(** Enough for the recursion to parts, whose ids are smaller. *)
Definition type_fuel (s : TypeStore) : nat := S (length (ts_types s)).

Definition compatible (s : TypeStore) (expected found : TypeId) : exec (bool * TypeStore) :=
  '(answer, memo) ← compatible_memo (type_fuel s) s (ts_cache s) expected found;
  Ret (answer, set_cache s memo).

(** ** Joins *)

(** The common nominal type of two applied classes. *)
Definition join_nominal (build : TypeStore → ClassId → list TypeId → exec (TypeId * TypeStore))
    (s : TypeStore) (ca : ClassId) (xs : list TypeId) (cb : ClassId) (ys : list TypeId) :
    exec (option TypeId * TypeStore) :=
  common ← common_ancestor s ca cb;
  match common with
  | None => Ret (None, s)
  | Some common =>
      from_a ← ancestor_args s ca xs common;
      match from_a with
      | None => Ret (None, s)
      | Some from_a =>
          from_b ← ancestor_args s cb ys common;
          match from_b with
          | None => Ret (None, s)
          | Some from_b =>
              if decide (from_a = from_b) then '(t, s) ← build s common from_a; Ret (Some t, s)
              else Ret (None, s)
          end
      end
  end.

(** [Type::Class] without arguments, [Type::Inst] with. *)
Definition intern_class (s : TypeStore) (class : ClassId) (args : list TypeId) : exec (TypeId * TypeStore) :=
  match args with
  | [] => intern s (T_Class class)
  | _ => intern s (T_Inst class args)
  end.

(** The element loop of a tuple join, which stops at the first failure. *)
Fixpoint join_pairs (rec : TypeStore → TypeId → TypeId → exec (option TypeId * TypeStore))
    (s : TypeStore) (xs ys : list TypeId) : exec (option (list TypeId) * TypeStore) :=
  match xs, ys with
  | x :: xs, y :: ys =>
      '(t, s) ← rec s x y;
      match t with
      | None => Ret (None, s)
      | Some t =>
          '(ts, s) ← join_pairs rec s xs ys;
          Ret (option_map (cons t) ts, s)
      end
  | _, _ => Ret (Some [], s)
  end.

(** The structural cases of [join]. *)
Definition join_types (rec : TypeStore → TypeId → TypeId → exec (option TypeId * TypeStore))
    (s : TypeStore) (ta tb : Ty) : exec (option TypeId * TypeStore) :=
  match ta, tb with
  | T_Class ca, T_Class cb => join_nominal intern_class s ca [] cb []
  | T_Inst ca xs, T_Inst cb ys =>
      if decide (xs = ys) then
        common ← common_ancestor s ca cb;
        match common with
        | None => Ret (None, s)
        | Some common => '(t, s) ← intern s (T_Inst common xs); Ret (Some t, s)
        end
      else Ret (None, s)
  | T_Tuple xs, T_Tuple ys =>
      if negb (bool_decide (length xs = length ys)) then Ret (None, s)
      else
        '(elems, s) ← join_pairs rec s xs ys;
        match elems with
        | None => Ret (None, s)
        | Some elems => '(t, s) ← intern s (T_Tuple elems); Ret (Some t, s)
        end
  | _, _ => Ret (None, s)
  end.

Context (native_order : gmap TypeId ClassId → list (TypeId * ClassId)).

Fixpoint join (fuel : nat) (s : TypeStore) (a b : TypeId) : exec (option TypeId * TypeStore) :=
  match fuel with
  | O => NoFuel
  | S fuel =>
      '(ba, s) ← compatible s b a;
      if (ba : bool) then Ret (Some b, s)
      else
        '(ab, s) ← compatible s a b;
        if (ab : bool) then Ret (Some a, s)
        else
          na ← nominal_class s a; nb ← nominal_class s b;
          match na, nb with
          | Some (ca, xs), Some (cb, ys) => join_nominal (type_for_nominal native_order) s ca xs cb ys
          | _, _ => ta ← get s a; tb ← get s b; join_types (join fuel) s ta tb
          end
  end.
End Subtyping.

(** ** Substitution *)

(** The row with its variables replaced, before it is made canonical. *)
Definition substitute_elems (row : list RowElem) (rowargs : list (list RowElem)) : list RowElem :=
  e ← row;
  match e with
  | R_Var i => match rowargs !! N.to_nat i with Some replacement => replacement | None => [e] end
  | R_Op _ => [e]
  end.

Definition substitute_row (s : TypeStore) (row : list RowElem) (rowargs : list (list RowElem)) :
    exec (list RowElem) := canonical_row s (substitute_elems row rowargs).

(** The walk of [resolve_conformance] from an applied class upwards;
    [subst] is the substitution of type arguments. *)
Fixpoint conformance_walk (fuel : nat)
    (subst : TypeStore → TypeId → list TypeId → exec (TypeId * TypeStore))
    (s : TypeStore) (class : ClassId) (args : list TypeId) (interface : InterfaceId) :
    exec (option (list TypeId) * TypeStore) :=
  match fuel with
  | O => NoFuel
  | S fuel =>
      match conformance s class interface with
      | Some templates =>
          '(ts, s) ← map_store (λ s item, subst s item args) s templates; Ret (Some ts, s)
      | None =>
          m ← class_meta s class;
          match cm_parent m with
          | None => Ret (None, s)
          | Some parent =>
              if decide (cm_kind m = EnumCase ∧ cm_parent_args m = []) then
                conformance_walk fuel subst s parent args interface
              else
                '(args, s) ← map_store (λ s item, subst s item args) s (cm_parent_args m);
                conformance_walk fuel subst s parent args interface
          end
      end
  end.

Definition resolve_conformance (subst : TypeStore → TypeId → list TypeId → exec (TypeId * TypeStore))
    (s : TypeStore) (base : TypeId) (interface : InterfaceId) : exec (option (list TypeId) * TypeStore) :=
  n ← nominal_class s base;
  match n with
  | None => Ret (None, s)
  | Some (class, args) => conformance_walk (walk_fuel s) subst s class args interface
  end.

Definition project (subst : TypeStore → TypeId → list TypeId → exec (TypeId * TypeStore))
    (s : TypeStore) (base : TypeId) (interface : InterfaceId) (assoc : N) : exec (TypeId * TypeStore) :=
  '(associated, s) ← resolve_conformance subst s base interface;
  match associated ≫= (λ ts, ts !! N.to_nat assoc) with
  | Some t => Ret (t, s)
  | None => intern s (T_Projection base interface assoc)
  end.

(** The rebuilt type: [rec] substitutes in a part. *)
Definition substitute_parts (rec : TypeStore → TypeId → exec (TypeId * TypeStore))
    (proj : TypeStore → TypeId → InterfaceId → N → exec (TypeId * TypeStore))
    (s : TypeStore) (ty : TypeId) (t : Ty) (targs : list TypeId) (rowargs : list (list RowElem)) :
    exec (TypeId * TypeStore) :=
  match t with
  | T_Var i => Ret (default ty (targs !! N.to_nat i), s)
  | T_Projection base interface assoc => '(base, s) ← rec s base; proj s base interface assoc
  | T_Inst c args => '(args, s) ← map_store rec s args; intern s (T_Inst c args)
  | T_List e => '(e, s) ← rec s e; intern s (T_List e)
  | T_Map k v => '(k, s) ← rec s k; '(v, s) ← rec s v; intern s (T_Map k v)
  | T_Tuple elems => '(elems, s) ← map_store rec s elems; intern s (T_Tuple elems)
  | T_Fn params muts ret row =>
      '(params, s) ← map_store rec s params; '(ret, s) ← rec s ret;
      row ← substitute_row s row rowargs; intern s (T_Fn params muts ret row)
  | T_Callback params muts ret row =>
      '(params, s) ← map_store rec s params; '(ret, s) ← rec s ret;
      row ← substitute_row s row rowargs; intern s (T_Callback params muts ret row)
  | T_Run t => '(t, s) ← rec s t; intern s (T_Run t)
  | T_Wait t => '(t, s) ← rec s t; intern s (T_Wait t)
  | T_RunSnapshot t => '(t, s) ← rec s t; intern s (T_RunSnapshot t)
  | T_PendingCall a r => '(a, s) ← rec s a; '(r, s) ← rec s r; intern s (T_PendingCall a r)
  | T_Handle m r => '(m, s) ← rec s m; '(r, s) ← rec s r; intern s (T_Handle m r)
  | _ => Ret (ty, s)
  end.

Fixpoint substitute (fuel : nat) (s : TypeStore) (ty : TypeId) (targs : list TypeId)
    (rowargs : list (list RowElem)) : exec (TypeId * TypeStore) :=
  match fuel with
  | O => NoFuel
  | S fuel =>
      v ← (match targs with [] => Ret false | _ => contains_var s ty end);
      e ← (match rowargs with [] => Ret false | _ => contains_effect_var s ty end);
      if negb v && negb e then Ret (ty, s)
      else
        t ← get s ty;
        substitute_parts (λ s ty, substitute fuel s ty targs rowargs)
          (project (λ s item args, substitute fuel s item args [])) s ty t targs rowargs
  end.
