(* ===== verification/TypesStore.v ===== *)
(** * Facts of the type table

    The invariant of the interned table: ids and types are in bijection, every
    part of a type has a smaller id, and the recorded facts are the facts of
    the parts.  From it, interning is total, idempotent and injective, and the
    four fact bits decide whether a variable, an effect variable, a callback
    or a projection occurs in a type at a position that counts. *)

From stdpp Require Import base numbers strings gmap list.
From S2P Require Import Prelude Types.

(** ** Parts of a type *)

Definition children (t : Ty) : list TypeId :=
  match t with
  | T_Inst _ args | T_Tuple args => args
  | T_List x | T_Run x | T_Wait x | T_RunSnapshot x | T_Op _ x | T_Projection x _ _ => [x]
  | T_Map a b | T_PendingCall a b | T_Handle a b => [a; b]
  | T_Fn params _ ret _ | T_Callback params _ ret _ => params ++ [ret]
  | _ => []
  end.

Definition in_table (s : TypeStore) (id : TypeId) : Prop := (N.to_nat id < length (ts_types s))%nat.

(** There is an unused [u32] for one more type. *)
Definition room (s : TypeStore) : Prop := (lenN (ts_types s) <= U32_MAX)%N.

Record table_ok (s : TypeStore) : Prop := {
  tab_facts_length : length (ts_facts s) = length (ts_types s);
  tab_index : ∀ t i, ts_index s !! t = Some i ↔ ts_types s !! N.to_nat i = Some t;
  tab_below : ∀ i t, ts_types s !! i = Some t → Forall (λ c, (N.to_nat c < i)%nat) (children t);
  tab_facts : ∀ i t, ts_types s !! i = Some t →
    ∃ f, ts_facts s !! i = Some f ∧ type_facts (ts_facts s) t = Ret f;
}.

Lemma lenN_to_nat' {A} (l : list A) : N.to_nat (lenN l) = length l.
Proof. apply Nat2N.id. Qed.

(** ** Facts of a longer table *)

Lemma vec_at_app {A} (l k : list A) i : (N.to_nat i < length l)%nat → vec_at (l ++ k) i = vec_at l i.
Proof. intros Hi. unfold vec_at. by rewrite lookup_app_l. Qed.

Lemma vec_at_some {A} (l : list A) i : (N.to_nat i < length l)%nat → ∃ a, vec_at l i = Ret a ∧ l !! N.to_nat i = Some a.
Proof. intros Hi. destruct (lookup_lt_is_Some_2 l (N.to_nat i) Hi) as [a Ha]. exists a. unfold vec_at. by rewrite Ha. Qed.

Lemma children_facts_app l k acc items :
  Forall (λ c, (N.to_nat c < length l)%nat) items →
  children_facts (l ++ k) acc items = children_facts l acc items.
Proof.
  revert acc. induction items as [|c items IH]; intros acc H; [done|]. inversion H; subst.
  cbn [children_facts]. unfold child_facts. rewrite vec_at_app by done.
  destruct (vec_at l c); cbn; auto.
Qed.

Lemma type_facts_app l k t :
  Forall (λ c, (N.to_nat c < length l)%nat) (children t) → type_facts (l ++ k) t = type_facts l t.
Proof.
  intros H. destruct t; cbn [children type_facts] in *;
    repeat match goal with H : Forall _ (_ :: _) |- _ => inversion H; clear H; subst end;
    try (apply Forall_app in H as [? H]; inversion H; subst);
    unfold child_facts; rewrite ?vec_at_app, ?children_facts_app by done; done.
Qed.

Lemma children_facts_total l acc items :
  Forall (λ c, (N.to_nat c < length l)%nat) items → ∃ f, children_facts l acc items = Ret f.
Proof.
  revert acc. induction items as [|c items IH]; intros acc H; [by eexists|]. inversion H; subst.
  cbn [children_facts]. destruct (vec_at_some l c) as (a & Ha & _); [done|]. unfold child_facts.
  rewrite Ha. cbn. auto.
Qed.

Lemma type_facts_total l t :
  Forall (λ c, (N.to_nat c < length l)%nat) (children t) → ∃ f, type_facts l t = Ret f.
Proof.
  intros H. destruct t; cbn [children type_facts] in *; try (by eexists);
    repeat match goal with H : Forall _ (_ :: _) |- _ => inversion H; clear H; subst end;
    try (apply Forall_app in H as [? H]; inversion H; subst);
    unfold child_facts;
    repeat match goal with
    | Hc : (N.to_nat ?c < length l)%nat |- context [vec_at l ?c] =>
        destruct (vec_at_some l c Hc) as (? & -> & _); cbn [mbind exec_bind]
    | Hc : Forall _ ?items |- context [children_facts l ?a ?items] =>
        destruct (children_facts_total l a items Hc) as [? ->]; cbn [mbind exec_bind]
    end; by eexists.
Qed.

(** ** Interning *)

Lemma intern_known s t id : ts_index s !! t = Some id → intern s t = Ret (id, s).
Proof. intros H. unfold intern. by rewrite H. Qed.

(** The table after a new type. *)
Definition extended (s : TypeStore) (t : Ty) (f : N) : TypeStore :=
  set_types s (ts_types s ++ [t]) (ts_facts s ++ [f])
    (<[t := lenN (ts_types s)]> (ts_index s)).

Lemma intern_new s t :
  table_ok s → ts_index s !! t = None → Forall (in_table s) (children t) → room s →
  ∃ f, type_facts (ts_facts s) t = Ret f ∧ intern s t = Ret (lenN (ts_types s), extended s t f).
Proof.
  intros Hok Hnew Hch Hroom. destruct (type_facts_total (ts_facts s) t) as [f Hf].
  { rewrite (tab_facts_length s Hok). exact Hch. }
  exists f. split; [done|]. unfold intern. rewrite Hnew, Hf. cbn [mbind exec_bind].
  by rewrite as_u32_small.
Qed.

Lemma extended_ok s t f :
  table_ok s → ts_index s !! t = None → Forall (in_table s) (children t) →
  type_facts (ts_facts s) t = Ret f → table_ok (extended s t f).
Proof.
  intros Hok Hnew Hch Hf. pose proof (tab_facts_length s Hok) as Hlen. split; simpl.
  - rewrite !length_app. simpl. lia.
  - intros t' i. destruct (decide (t' = t)) as [->|Hne].
    + rewrite lookup_insert_eq. split.
      * intros [= <-]. rewrite lenN_to_nat'. by apply list_lookup_middle.
      * intros Hi. apply lookup_app_Some in Hi as [Hi|[Hge Hi]].
        { apply (tab_index s Hok) in Hi. congruence. }
        apply list_lookup_singleton_Some in Hi as [Hi _]. f_equal. unfold lenN. lia.
    + rewrite lookup_insert_ne by done. rewrite (tab_index s Hok). split.
      * intros Hi. by apply lookup_app_l_Some.
      * intros Hi. apply lookup_app_Some in Hi as [Hi|[Hge Hi]]; [done|].
        apply list_lookup_singleton_Some in Hi as [_ <-]. done.
  - intros i t' Hi. apply lookup_app_Some in Hi as [Hi|[Hge Hi]]; [by apply (tab_below s Hok)|].
    apply list_lookup_singleton_Some in Hi as [Hz <-]. eapply Forall_impl; [exact Hch|].
    unfold in_table. simpl. intros; lia.
  - intros i t' Hi. apply lookup_app_Some in Hi as [Hi|[Hge Hi]].
    + destruct (tab_facts s Hok i t' Hi) as (f' & Hf' & Ht').
      exists f'. split; [by apply lookup_app_l_Some|]. rewrite type_facts_app; [done|].
      pose proof (tab_below s Hok i t' Hi) as Hb. apply lookup_lt_Some in Hi.
      eapply Forall_impl; [exact Hb|]. simpl. intros; lia.
    + apply list_lookup_singleton_Some in Hi as [Hz <-]. exists f.
      assert (i = length (ts_facts s)) as -> by lia.
      split; [by apply list_lookup_middle|]. rewrite type_facts_app; [done|]. by rewrite Hlen.
Qed.

(** [s'] is [s] with types added at the end of the table. *)
Record table_grows (s s' : TypeStore) : Prop := {
  grow_rest : s' = set_types s (ts_types s') (ts_facts s') (ts_index s');
  grow_types : ts_types s `prefix_of` ts_types s';
}.

Lemma table_grows_refl s : table_grows s s.
Proof. split; [by destruct s|done]. Qed.

Lemma table_grows_trans s1 s2 s3 : table_grows s1 s2 → table_grows s2 s3 → table_grows s1 s3.
Proof.
  intros [H1 P1] [H2 P2]. split; [|by etrans].
  rewrite H2 at 1. rewrite H1 at 1. done.
Qed.

Lemma extended_grows s t f : table_grows s (extended s t f).
Proof. split; [done|]. by apply prefix_app_r. Qed.

Lemma grows_lookup s s' i t : table_grows s s' → ts_types s !! i = Some t → ts_types s' !! i = Some t.
Proof. intros [_ Hp] Hi. by eapply prefix_lookup_Some. Qed.

Lemma grows_in_table s s' id : table_grows s s' → in_table s id → in_table s' id.
Proof. intros [_ Hp] Hi. unfold in_table in *. apply prefix_length in Hp. lia. Qed.

Lemma intern_spec s t :
  table_ok s → Forall (in_table s) (children t) → room s →
  ∃ id s', intern s t = Ret (id, s') ∧ table_ok s' ∧ ts_types s' !! N.to_nat id = Some t ∧
    table_grows s s' ∧ (s' = s ∨ ts_types s' = ts_types s ++ [t]).
Proof.
  intros Hok Hch Hroom. destruct (ts_index s !! t) as [id|] eqn:E.
  - exists id, s. split_and!; [by apply intern_known|done|by apply (tab_index s Hok)|apply table_grows_refl|by left].
  - destruct (intern_new s t Hok E Hch Hroom) as (f & Hf & Hi).
    exists (lenN (ts_types s)), (extended s t f).
    split_and!; [done|by apply extended_ok| |apply extended_grows|by right].
    simpl. rewrite lenN_to_nat'. by apply list_lookup_middle.
Qed.

(** A type whose parts are not in the table is refused by a panic. *)
Lemma vec_at_panic {A} (l : list A) i : (length l <= N.to_nat i)%nat → vec_at l i = Panic.
Proof. intros Hi. unfold vec_at. by rewrite lookup_ge_None_2. Qed.

Lemma children_facts_panic l acc items :
  ¬ Forall (λ c, (N.to_nat c < length l)%nat) items → children_facts l acc items = Panic.
Proof.
  revert acc. induction items as [|c items IH]; intros acc H; [by destruct H|]. cbn [children_facts].
  unfold child_facts. destruct (decide (N.to_nat c < length l)%nat) as [Hc|Hc].
  - destruct (vec_at_some l c Hc) as (a & -> & _). cbn [mbind exec_bind]. apply IH.
    intros Hf. apply H. by constructor.
  - rewrite vec_at_panic by lia. done.
Qed.

Lemma type_facts_panic l t :
  ¬ Forall (λ c, (N.to_nat c < length l)%nat) (children t) → type_facts l t = Panic.
Proof.
  intros H.
  assert (∀ c, (∃ a, vec_at l c = Ret a ∧ (N.to_nat c < length l)%nat) ∨
               (vec_at l c = Panic ∧ ¬ (N.to_nat c < length l)%nat)) as Hat.
  { intros c. destruct (decide (N.to_nat c < length l)%nat) as [Hc|Hc].
    - left. destruct (vec_at_some l c Hc) as (a & Ha & _). eauto.
    - right. split; [apply vec_at_panic; lia|done]. }
  assert (∀ acc items, (∃ a, children_facts l acc items = Ret a ∧ Forall (λ c, (N.to_nat c < length l)%nat) items) ∨
                       children_facts l acc items = Panic) as Hch.
  { intros acc items. destruct (decide (Forall (λ c, (N.to_nat c < length l)%nat) items)) as [Hf|Hf].
    - left. destruct (children_facts_total l acc items Hf) as [a Ha]. eauto.
    - right. by apply children_facts_panic. }
  destruct t; cbn [children type_facts] in *; try (by destruct H; repeat constructor);
    unfold child_facts;
    repeat match goal with
    | |- context [vec_at l ?c] =>
        destruct (Hat c) as [(? & -> & ?)|[-> ?]]; cbn [mbind exec_bind]; [|done]
    | |- context [children_facts l ?a ?items] =>
        destruct (Hch a items) as [(? & -> & ?)| ->]; cbn [mbind exec_bind]; [|done]
    end; exfalso; apply H; repeat first [apply Forall_app; split | constructor]; done.
Qed.

Lemma get_Ret s id t : get s id = Ret t ↔ ts_types s !! N.to_nat id = Some t.
Proof. unfold get, vec_at. destruct (_ !! _); simpl; split; congruence. Qed.

(** C19. Hash-consing: interning a type whose parts are in the table succeeds;
    the id reads back the type, is the only id that does, is what a lookup and
    a second interning answer, and every older id keeps its type.  A type that
    is not in the table and has a part that is not either is refused by a
    panic, so a table never holds a dangling or circular part. *)
Theorem intern_hash_consing s t :
  table_ok s → room s →
  (Forall (in_table s) (children t) →
   ∃ id s', intern s t = Ret (id, s') ∧ table_ok s' ∧ get s' id = Ret t ∧ find_type s' t = Some id ∧
     (∀ id', get s' id' = Ret t → id' = id) ∧ intern s' t = Ret (id, s') ∧
     (∀ id0 t0, get s id0 = Ret t0 → get s' id0 = Ret t0)) ∧
  (find_type s t = None → ¬ Forall (in_table s) (children t) → intern s t = Panic).
Proof.
  intros Hok Hroom. split.
  - intros Hch. destruct (intern_spec s t Hok Hch Hroom) as (id & s' & Hi & Hok' & Ht & Hg & _).
    assert (ts_index s' !! t = Some id) as Hidx by (by apply (tab_index s' Hok')).
    exists id, s'. split_and!; [done|done|by apply get_Ret|done| |by apply intern_known|].
    + intros id' Hid'. apply get_Ret, (tab_index s' Hok') in Hid'. congruence.
    + intros id0 t0 H0. apply get_Ret. apply get_Ret in H0. by eapply grows_lookup.
  - intros Hnew Hch. unfold find_type in Hnew. unfold intern. rewrite Hnew, type_facts_panic; [done|].
    rewrite (tab_facts_length s Hok). exact Hch.
Qed.

(** ** The new store *)

Lemma table_ok_empty : table_ok store_empty.
Proof.
  split; [done| |by intros i t|by intros i t]. intros t i. simpl. rewrite lookup_empty, lookup_nil. done.
Qed.

(** Interning a list of types without parts. *)
Lemma map_store_intern_leaves ts s :
  table_ok s → Forall (λ t, children t = []) ts → (lenN (ts_types s) + lenN ts <= U32_MAX)%N →
  ∃ ids s', map_store intern s ts = Ret (ids, s') ∧ table_ok s' ∧ table_grows s s'.
Proof.
  revert s. induction ts as [|t ts IH]; intros s Hok Hl Hr.
  - exists [], s. split_and!; [done..|apply table_grows_refl].
  - inversion Hl as [|? ? Ht Hts]; subst. unfold lenN in Hr. cbn [length] in Hr.
    destruct (intern_spec s t Hok) as (id & s1 & Hi & Hok1 & _ & Hg & Hsize); [by rewrite Ht|unfold room, lenN; lia|].
    destruct (IH s1 Hok1 Hts) as (ids & s' & Hm & Hok' & Hg').
    { destruct Hsize as [->|Hs]; unfold lenN in *; [lia|]. rewrite Hs, length_app. simpl. lia. }
    exists (id :: ids), s'. cbn [map_store]. rewrite Hi. cbn [mbind exec_bind]. rewrite Hm.
    split_and!; [done..|by eapply table_grows_trans].
Qed.

Lemma new_store : ∃ s, new_with_bundle = Ret s ∧ table_ok s ∧ ts_types s = primitive_types ∧
  table_grows store_empty s.
Proof.
  destruct (map_store_intern_leaves primitive_types store_empty) as (ids & s & Hm & Hok & Hg).
  { apply table_ok_empty. }
  { by repeat constructor. }
  { done. }
  exists s. unfold new_with_bundle. rewrite Hm. split_and!; [done..| |done].
  assert (ts_types <$> new_with_bundle = Ret primitive_types) as H by (vm_compute; reflexivity).
  unfold new_with_bundle in H. rewrite Hm in H. by injection H.
Qed.

(** ** What the fact bits mean *)

Inductive Fact := TypeVarFact | EffectVarFact | CallbackFact | ProjectionFact.

Definition fact_bit (f : Fact) : N :=
  match f with
  | TypeVarFact => TYPE_FACT_TYPE_VAR
  | EffectVarFact => TYPE_FACT_EFFECT_VAR
  | CallbackFact => TYPE_FACT_CALLBACK
  | ProjectionFact => TYPE_FACT_PROJECTION
  end.

Definition fact_pos (f : Fact) : N :=
  match f with TypeVarFact => 0 | EffectVarFact => 1 | CallbackFact => 2 | ProjectionFact => 3 end%N.

(** The type itself has the fact. *)
Definition fact_here (f : Fact) (t : Ty) : bool :=
  match f, t with
  | TypeVarFact, T_Var _ => true
  | EffectVarFact, (T_Fn _ _ _ row | T_Callback _ _ _ row) => existsb is_row_var row
  | CallbackFact, T_Callback _ _ _ _ => true
  | ProjectionFact, T_Projection _ _ _ => true
  | _, _ => false
  end.

(** The parts through which a fact is inherited: a variable inside an
    operation value does not count, nor does a callback that is a parameter
    of a plain function. *)
Definition fact_parts (f : Fact) (t : Ty) : list TypeId :=
  match f, t with
  | (TypeVarFact | EffectVarFact), T_Op _ _ => []
  | CallbackFact, T_Fn _ _ ret _ => [ret]
  | _, _ => children t
  end.

Inductive HasFact (s : TypeStore) (f : Fact) : TypeId → Prop :=
| has_here id t : ts_types s !! N.to_nat id = Some t → fact_here f t = true → HasFact s f id
| has_part id t c : ts_types s !! N.to_nat id = Some t → c ∈ fact_parts f t → HasFact s f c → HasFact s f id.

Lemma fact_bit_test f n : negb (N.land n (fact_bit f) =? 0)%N = N.testbit n (fact_pos f).
Proof.
  assert (fact_bit f = 2 ^ fact_pos f)%N as -> by (by destruct f).
  destruct (N.testbit n (fact_pos f)) eqn:E.
  - apply negb_true_iff, N.eqb_neq. intros Hz. apply (f_equal (λ m, N.testbit m (fact_pos f))) in Hz.
    rewrite N.land_spec, E, N.pow2_bits_true, N.bits_0 in Hz. done.
  - apply negb_false_iff, N.eqb_eq. apply N.bits_inj_0. intros m. rewrite N.land_spec, N.pow2_bits_eqb.
    destruct (fact_pos f =? m)%N eqn:Em; [|apply andb_false_r]. apply N.eqb_eq in Em as <-. by rewrite E.
Qed.

(** The bit of a fact in the facts vector. *)
Definition bit_at (facts : list N) (f : Fact) (c : TypeId) : bool :=
  match facts !! N.to_nat c with Some n => N.testbit n (fact_pos f) | None => false end.

Lemma child_facts_bit facts f c n : child_facts facts c = Ret n → N.testbit n (fact_pos f) = bit_at facts f c.
Proof. unfold child_facts, vec_at, bit_at. destruct (_ !! _); simpl; congruence. Qed.

Lemma children_facts_bit facts f acc items n : children_facts facts acc items = Ret n →
  N.testbit n (fact_pos f) = N.testbit acc (fact_pos f) || existsb (bit_at facts f) items.
Proof.
  revert acc. induction items as [|c items IH]; intros acc; cbn [children_facts existsb].
  - intros [= ->]. by rewrite orb_false_r.
  - destruct (child_facts facts c) as [m| |] eqn:E; cbn; [|done..]. intros H. rewrite (IH _ H).
    by rewrite N.lor_spec, (child_facts_bit _ f _ _ E), orb_assoc.
Qed.

Lemma row_facts_bit f row : N.testbit (row_facts row) (fact_pos f) =
  match f with EffectVarFact => existsb is_row_var row | _ => false end.
Proof. unfold row_facts. destruct (existsb _ _), f; done. Qed.

(** The facts of a type, bit by bit. *)
Lemma type_facts_bit facts f t n : type_facts facts t = Ret n →
  N.testbit n (fact_pos f) = fact_here f t || existsb (bit_at facts f) (fact_parts f t).
Proof.
  destruct t; cbn [type_facts];
    try (intros [= <-]; by destruct f);
    repeat match goal with
    | |- context [child_facts facts ?c] =>
        let E := fresh "E" in destruct (child_facts facts c) eqn:E; cbn [mbind exec_bind]; [|done..];
        apply (child_facts_bit _ f) in E
    | |- context [children_facts facts ?a ?items] =>
        let E := fresh "E" in destruct (children_facts facts a items) eqn:E; cbn [mbind exec_bind]; [|done..];
        apply (children_facts_bit _ f) in E; rewrite N.bits_0 in E
    end; intros [= <-];
    rewrite ?N.lor_spec, ?N.land_spec, ?N.ldiff_spec, ?row_facts_bit;
    repeat match goal with E : N.testbit _ _ = _ |- _ => rewrite E; clear E end;
    destruct f; cbn [fact_here fact_parts children existsb]; rewrite ?existsb_app; cbn [existsb];
    repeat match goal with |- context [bit_at ?a ?b ?c] => destruct (bit_at a b c) end;
    repeat match goal with |- context [existsb ?a ?c] => destruct (existsb a c) end; reflexivity.
Qed.

Lemma existsb_elem {A} (p : A → bool) l : existsb p l = true ↔ ∃ a, a ∈ l ∧ p a = true.
Proof. rewrite existsb_exists. by setoid_rewrite list_elem_of_In. Qed.

Lemma fact_parts_children f t c : c ∈ fact_parts f t → c ∈ children t.
Proof. destruct f, t; simpl; try done; set_solver. Qed.

Lemma bit_at_HasFact s f id : table_ok s → in_table s id → bit_at (ts_facts s) f id = true ↔ HasFact s f id.
Proof.
  intros Hok. remember (N.to_nat id) as i eqn:Hi. revert id Hi.
  induction (lt_wf i) as [i _ IH]. intros id -> Hin.
  destruct (lookup_lt_is_Some_2 _ _ Hin) as [t Ht].
  destruct (tab_facts s Hok _ _ Ht) as (n & Hn & Hf).
  pose proof (tab_below s Hok _ _ Ht) as Hb.
  assert (∀ c, c ∈ fact_parts f t → bit_at (ts_facts s) f c = true ↔ HasFact s f c) as Hparts.
  { intros c Hc. apply fact_parts_children in Hc. eapply list.Forall_forall in Hb; [|exact Hc].
    apply (IH (N.to_nat c)); [done|done|]. unfold in_table in *. lia. }
  unfold bit_at at 1. rewrite Hn, (type_facts_bit _ f _ _ Hf), orb_true_iff, existsb_elem. split.
  - intros [Hh|(c & Hc & Hbit)]; [by eapply has_here|]. eapply has_part; [done..|]. by apply Hparts.
  - inversion 1 as [? t' Ht' Hh|? t' c Ht' Hc Hrec]; subst; rewrite Ht in Ht'; injection Ht' as <-.
    + by left.
    + right. exists c. split; [done|]. by apply Hparts.
Qed.

(** The recorded facts are exact: for every type in the table the four
    queries answer, and they answer true exactly when a type variable, an
    effect variable, a callback or a projection occurs in the type through
    the parts that count for it.  [substitute] and the checker rely on these
    answers to skip whole types. *)
Theorem fact_bits_correct s f id :
  table_ok s → in_table s id →
  ∃ b, has_fact (fact_bit f) s id = Ret b ∧ (b = true ↔ HasFact s f id).
Proof.
  intros Hok Hin. destruct (vec_at_some (ts_facts s) id) as (n & Hn & Hl).
  { by rewrite (tab_facts_length s Hok). }
  exists (N.testbit n (fact_pos f)). unfold has_fact. rewrite Hn. cbn [mbind exec_bind].
  rewrite fact_bit_test. split; [done|]. rewrite <- bit_at_HasFact by done. unfold bit_at. by rewrite Hl.
Qed.

(** ** Concrete stores *)

(** Every type of the list can be interned in turn. *)
Fixpoint can_intern (s : TypeStore) (ts : list Ty) : bool :=
  match ts with
  | [] => true
  | t :: ts =>
      forallb (λ c, (c <? lenN (ts_types s))%N) (children t) && (lenN (ts_types s) <=? U32_MAX)%N &&
      match intern s t with Ret (_, s) => can_intern s ts | _ => false end
  end.

Lemma forallb_in_table s l : forallb (λ c, (c <? lenN (ts_types s))%N) l = true → Forall (in_table s) l.
Proof.
  rewrite List.forallb_forall, list.Forall_forall. intros H c Hc. apply list_elem_of_In in Hc.
  specialize (H c Hc). to_prop. unfold in_table, lenN in *. lia.
Qed.

Lemma map_store_intern ts s :
  table_ok s → can_intern s ts = true →
  ∃ ids s', map_store intern s ts = Ret (ids, s') ∧ table_ok s'.
Proof.
  revert s. induction ts as [|t ts IH]; intros s Hok Hc; [by exists [], s|]. cbn [can_intern] in Hc.
  apply andb_prop in Hc as [Hc Hrec]. apply andb_prop in Hc as [Hch Hr]. to_prop.
  destruct (intern_spec s t Hok (forallb_in_table _ _ Hch) Hr) as (id & s1 & Hi & Hok1 & _).
  rewrite Hi in Hrec. destruct (IH s1 Hok1 Hrec) as (ids & s' & Hm & Hok').
  exists (id :: ids), s'. cbn [map_store]. rewrite Hi. cbn [mbind exec_bind]. by rewrite Hm.
Qed.

Module Demo.
(** [Var 0], the list of it, a function on such lists and an operation value. *)
Definition types : list Ty :=
  [T_Var 0; T_List 16%N; T_Fn [17%N] [true] INT [R_Var 0]; T_Op 3 18%N].
Definition base : TypeStore := match new_with_bundle with Ret s => s | _ => store_empty end.
Definition store : TypeStore := match map_store intern base types with Ret (_, s) => s | _ => store_empty end.
End Demo.

Lemma demo_base_ok : table_ok Demo.base.
Proof. unfold Demo.base. destruct new_store as (s & -> & Hok & _). done. Qed.

Lemma demo_store_ok : table_ok Demo.store.
Proof.
  unfold Demo.store. destruct (map_store_intern Demo.types Demo.base demo_base_ok) as (ids & s & -> & Hok); [|done].
  vm_compute. reflexivity.
Qed.

Lemma intern_hash_consing_witness :
  (∃ id s', intern Demo.store (T_Map 3%N 17%N) = Ret (id, s') ∧ get s' id = Ret (T_Map 3%N 17%N)) ∧
  intern Demo.store (T_List 99%N) = Panic.
Proof.
  split.
  - destruct (intern_hash_consing Demo.store (T_Map 3%N 17%N) demo_store_ok) as [H _]; [vm_compute; congruence|].
    destruct H as (id & s' & Hi & _ & Hg & _); [apply forallb_in_table; vm_compute; reflexivity|].
    exists id, s'. split; [exact Hi|exact Hg].
  - apply (intern_hash_consing Demo.store (T_List 99%N) demo_store_ok); [vm_compute; congruence|reflexivity|].
    intros H. inversion H as [|? ? Hc _]; subst. revert Hc. unfold in_table. vm_compute. lia.
Defined.

Lemma fact_bits_correct_witness :
  (∃ b, has_fact (fact_bit TypeVarFact) Demo.store 18%N = Ret b ∧ (b = true ↔ HasFact Demo.store TypeVarFact 18%N)) ∧
  (∃ b, has_fact (fact_bit TypeVarFact) Demo.store 19%N = Ret b ∧ (b = true ↔ HasFact Demo.store TypeVarFact 19%N)).
Proof.
  split; apply fact_bits_correct; try apply demo_store_ok; unfold in_table; vm_compute; lia.
Defined.
