(* ===== verification/TypesSub.v ===== *)
(** * Subtyping of the type store

    [Sub] is the declarative subtype relation of a store: reflexivity, the
    bottom type, nominal inheritance, covariant tuples and contravariant
    functions with row inclusion.  The theorems: the memoised query of the
    store always answers and decides [Sub]; the relation is a preorder; every
    operation of the store keeps the memo truthful; and [join] answers an
    upper bound. *)

From stdpp Require Import base numbers strings gmap list relations.
From S2P Require Import Prelude Types TypesStore.

(** ** Inheritance *)

Definition class_in (s : TypeStore) (c : ClassId) : Prop := (N.to_nat c < length (ts_classes s))%nat.

(** One step to the parent, with the arguments the parent is applied to. *)
Definition class_step (s : TypeStore) (x y : ClassId * list TypeId) : Prop :=
  ∃ m p, ts_classes s !! N.to_nat x.1 = Some m ∧ cm_parent m = Some y.1 ∧
    ts_classes s !! N.to_nat y.1 = Some p ∧
    y.2 = (if decide (cm_parent_args m = []) then if (cm_type_params p =? 0)%N then [] else x.2
           else cm_parent_args m).

Definition Inherits (s : TypeStore) : ClassId * list TypeId → ClassId * list TypeId → Prop := rtc (class_step s).

(** Parents are registered, and a rank decreases along the parent chain. *)
Record ranked (s : TypeStore) (rank : ClassId → nat) : Prop := {
  rank_bound : ∀ c, class_in s c → (rank c < length (ts_classes s))%nat;
  rank_parent : ∀ c m p, ts_classes s !! N.to_nat c = Some m → cm_parent m = Some p →
    class_in s p ∧ (rank p < rank c)%nat;
}.

Definition classes_ok (s : TypeStore) : Prop := ∃ rank, ranked s rank.

Lemma step_rank s rank x y : ranked s rank → class_step s x y → (rank y.1 < rank x.1)%nat ∧ class_in s y.1.
Proof. intros Hr (m & p & Hm & Hp & Hy & _). destruct (rank_parent s rank Hr _ _ _ Hm Hp). done. Qed.

Lemma inherits_rank s rank x y : ranked s rank → Inherits s x y → x = y ∨ (rank y.1 < rank x.1)%nat.
Proof.
  intros Hr. induction 1 as [|x y z Hxy Hyz IH]; [by left|]. right.
  destruct (step_rank s rank x y Hr Hxy) as [Hlt _]. destruct IH as [->|IH]; lia.
Qed.

Lemma class_step_det s x y z : class_step s x y → class_step s x z → y = z.
Proof.
  intros (m & p & Hm & Hp & Hy & He) (m' & p' & Hm' & Hp' & Hy' & He'). simplify_eq.
  destruct y as [c ys], z as [d zs]; simpl in *. simplify_eq. done.
Qed.

(** On a chain, reaching a class fixes the arguments. *)
Lemma inherits_unique s x c ys zs :
  classes_ok s → Inherits s x (c, ys) → Inherits s x (c, zs) → ys = zs.
Proof.
  intros [rank Hr]. intros H. revert zs. remember (c, ys) as y eqn:Hy.
  induction H as [y'|x y' z' Hxy Hyz IH]; intros zs Hz.
  - subst. destruct (inherits_rank s rank _ _ Hr Hz) as [[= ->]|Hlt]; [done|]. simpl in Hlt. lia.
  - subst. inversion Hz as [|? y2 ? Hxy2 Hyz2]; subst.
    + exfalso. destruct (step_rank s rank _ _ Hr Hxy) as [Hlt _].
      destruct (inherits_rank s rank _ _ Hr Hyz) as [->|Hlt']; simpl in *; lia.
    + rewrite (class_step_det s _ _ _ Hxy2 Hxy) in Hyz2. by apply IH.
Qed.

Lemma vec_at_lookup {A} (l : list A) i a : l !! N.to_nat i = Some a → vec_at l i = Ret a.
Proof. intros H. unfold vec_at. by rewrite H. Qed.

Lemma class_in_lookup s c : class_in s c → ∃ m, ts_classes s !! N.to_nat c = Some m.
Proof. intros H. destruct (lookup_lt_is_Some_2 _ _ H) as [m Hm]. eauto. Qed.

Lemma ancestor_walk_spec s rank fuel c xs anc :
  ranked s rank → class_in s c → (rank c < fuel)%nat →
  ∃ o, ancestor_walk fuel s c xs anc = Ret o ∧ ∀ ys, o = Some ys ↔ Inherits s (c, xs) (anc, ys).
Proof.
  intros Hr. revert c xs. induction fuel as [|fuel IH]; intros c xs Hc Hf; [lia|]. cbn [ancestor_walk].
  destruct (decide (c = anc)) as [->|Hne].
  { exists (Some xs). split; [done|]. intros ys. split; [intros [= ->]; apply rtc_refl|].
    intros H. f_equal. eapply inherits_unique; [by exists rank|apply rtc_refl|exact H]. }
  destruct (class_in_lookup s c Hc) as [m Hm]. unfold class_meta. rewrite (vec_at_lookup _ _ _ Hm).
  cbn [mbind exec_bind]. destruct (cm_parent m) as [p|] eqn:Hp.
  2: { exists None. split; [done|]. intros ys. split; [done|]. intros H. exfalso.
       inversion H as [|? y ? Hs]; subst; [done|]. destruct Hs as (m' & p' & Hm' & Hp' & _). simpl in *. congruence. }
  destruct (rank_parent s rank Hr _ _ _ Hm Hp) as [Hin Hlt]. destruct (class_in_lookup s p Hin) as [pm Hpm].
  set (zs := if decide (cm_parent_args m = []) then if (cm_type_params pm =? 0)%N then [] else xs
             else cm_parent_args m).
  assert (class_step s (c, xs) (p, zs)) as Hstep by (exists m, pm; done).
  destruct (IH p zs Hin ltac:(lia)) as (o & Ho & Hspec). exists o. split.
  { rewrite <- Ho. unfold zs. rewrite (vec_at_lookup _ _ _ Hpm). cbn [mbind exec_bind]. by case_decide. }
  intros ys. rewrite Hspec. split; [by apply rtc_l|]. intros H.
  inversion H as [|? y ? Hs Hrest]; subst; [done|]. by rewrite (class_step_det s _ _ _ Hs Hstep) in Hrest.
Qed.

Lemma ancestor_args_spec s c xs anc :
  classes_ok s → class_in s c →
  ∃ o, ancestor_args s c xs anc = Ret o ∧ ∀ ys, o = Some ys ↔ Inherits s (c, xs) (anc, ys).
Proof.
  intros [rank Hr] Hc. apply (ancestor_walk_spec s rank); [done..|].
  pose proof (rank_bound s rank Hr c Hc). unfold walk_fuel. lia.
Qed.

(** The class chain without arguments. *)
Definition parent_of (s : TypeStore) (c p : ClassId) : Prop :=
  ∃ m, ts_classes s !! N.to_nat c = Some m ∧ cm_parent m = Some p.
Definition Extends (s : TypeStore) : ClassId → ClassId → Prop := rtc (parent_of s).

Lemma extends_walk_spec s rank fuel c anc :
  ranked s rank → class_in s c → (rank c < fuel)%nat →
  ∃ b, extends_walk fuel s (Some c) anc = Ret b ∧ (b = true ↔ Extends s c anc).
Proof.
  intros Hr. revert c. induction fuel as [|fuel IH]; intros c Hc Hf; [lia|]. cbn [extends_walk].
  destruct (decide (c = anc)) as [->|Hne]; [exists true; split; [done|split; [intros _; apply rtc_refl|done]]|].
  destruct (class_in_lookup s c Hc) as [m Hm]. unfold class_meta. rewrite (vec_at_lookup _ _ _ Hm).
  cbn [mbind exec_bind].
  assert (Extends s c anc ↔ ∃ p, cm_parent m = Some p ∧ Extends s p anc) as Hext.
  { split.
    - intros H. inversion H as [|? p ? (m' & Hm' & Hp) Hrest]; subst; [done|]. simplify_eq. eauto.
    - intros (p & Hp & H). eapply rtc_l; [by exists m|done]. }
  destruct (cm_parent m) as [p|] eqn:Hp.
  - destruct (rank_parent s rank Hr _ _ _ Hm Hp) as [Hin Hlt].
    destruct (IH p Hin ltac:(lia)) as (b & Hb & Hspec). exists b. split; [done|].
    rewrite Hext, Hspec. naive_solver.
  - exists false. destruct fuel; (split; [done|]); rewrite Hext; naive_solver.
Qed.

Lemma class_extends_spec s c anc :
  classes_ok s → class_in s c → ∃ b, class_extends s c anc = Ret b ∧ (b = true ↔ Extends s c anc).
Proof.
  intros [rank Hr] Hc. apply (extends_walk_spec s rank); [done..|].
  pose proof (rank_bound s rank Hr c Hc). unfold walk_fuel. lia.
Qed.

Lemma inherits_extends s x y : Inherits s x y → Extends s x.1 y.1.
Proof.
  induction 1 as [|x y z (m & p & Hm & Hp & _) _ IH]; [apply rtc_refl|]. eapply rtc_l; [by exists m|done].
Qed.

Lemma extends_inherits s c xs anc : classes_ok s → class_in s c → Extends s c anc → ∃ ys, Inherits s (c, xs) (anc, ys).
Proof.
  intros [rank Hr] Hc H. revert xs. induction H as [c|c p anc (m & Hm & Hp) _ IH]; intros xs; [eexists; apply rtc_refl|].
  destruct (rank_parent s rank Hr _ _ _ Hm Hp) as [Hin _]. destruct (class_in_lookup s p Hin) as [pm Hpm].
  destruct (IH Hin (if decide (cm_parent_args m = []) then if (cm_type_params pm =? 0)%N then [] else xs
             else cm_parent_args m)) as [ys Hys].
  exists ys. eapply rtc_l; [|exact Hys]. by exists m, pm.
Qed.

Lemma extends_in s c anc : classes_ok s → class_in s c → Extends s c anc → class_in s anc.
Proof.
  intros [rank Hr] Hc H. induction H as [|c p anc (m & Hm & Hp) _ IH]; [done|].
  apply IH. by destruct (rank_parent s rank Hr _ _ _ Hm Hp).
Qed.

Lemma parent_of_det s c p q : parent_of s c p → parent_of s c q → p = q.
Proof. intros (m & Hm & Hp) (m' & Hm' & Hq). congruence. Qed.

(** The nearest common ancestor, or none when there is no common one. *)
Definition nearest (s : TypeStore) (a b : ClassId) (o : option ClassId) : Prop :=
  match o with
  | Some c => Extends s a c ∧ Extends s b c ∧ ∀ d, Extends s a d → Extends s b d → Extends s c d
  | None => ∀ d, Extends s a d → ¬ Extends s b d
  end.

Lemma common_walk_spec s rank fuel a b :
  ranked s rank → class_in s a → class_in s b → (rank a < fuel)%nat →
  ∃ o, common_walk fuel s (Some a) b = Ret o ∧ nearest s a b o.
Proof.
  intros Hr. revert a. induction fuel as [|fuel IH]; intros a Ha Hb Hf; [lia|]. cbn [common_walk].
  destruct (class_extends_spec s b a) as (ok & Hok & Hspec); [by exists rank|done|].
  rewrite Hok. cbn [mbind exec_bind]. destruct ok.
  { exists (Some a). split; [done|]. split_and!; [apply rtc_refl|by apply Hspec|done]. }
  assert (¬ Extends s b a) as Hnot by (rewrite <- Hspec; done).
  destruct (class_in_lookup s a Ha) as [m Hm]. unfold class_meta. rewrite (vec_at_lookup _ _ _ Hm).
  cbn [mbind exec_bind].
  assert (∀ d, Extends s a d → Extends s b d → ∃ p, cm_parent m = Some p ∧ Extends s p d) as Hup.
  { intros d Hd Hbd. inversion Hd as [|? p ? (m' & Hm' & Hp) Hrest]; subst; [done|]. simplify_eq. eauto. }
  destruct (cm_parent m) as [p|] eqn:Hp.
  - destruct (rank_parent s rank Hr _ _ _ Hm Hp) as [Hin Hlt].
    destruct (IH p Hin Hb ltac:(lia)) as (o & Ho & Hn). exists o. split; [done|].
    assert (parent_of s a p) as Hstep by (by exists m). destruct o as [c|].
    + destruct Hn as (Hpc & Hbc & Hmin). split_and!; [by eapply rtc_l|done|]. intros d Hd Hbd.
      destruct (Hup d Hd Hbd) as (p' & [= <-] & Hpd). auto.
    + intros d Hd Hbd. destruct (Hup d Hd Hbd) as (p' & [= <-] & Hpd). by eapply Hn.
  - exists None. destruct fuel; (split; [done|]); intros d Hd Hbd; by destruct (Hup d Hd Hbd) as (p & ? & _).
Qed.

Lemma common_ancestor_spec s a b :
  classes_ok s → class_in s a → class_in s b → ∃ o, common_ancestor s a b = Ret o ∧ nearest s a b o.
Proof.
  intros [rank Hr] Ha Hb. apply (common_walk_spec s rank); [done..|].
  pose proof (rank_bound s rank Hr a Ha). unfold walk_fuel. lia.
Qed.

(** ** The subtype relation *)

(** The nominal class of a type in the table. *)
Definition nominal (s : TypeStore) (id : TypeId) : option (ClassId * list TypeId) :=
  match nominal_class s id with Ret o => o | _ => None end.

Definition both_nominal (s : TypeStore) (f e : TypeId) : Prop := is_Some (nominal s f) ∧ is_Some (nominal s e).

(** A [mut] parameter is expected where the function needs one. *)
Definition muts_ok (fm em : list bool) : bool := forallb (λ p, negb p.1 || p.2) (zip fm em).

Section Sub.
Context (row_name_operations : string → option (list N)).

Definition elem_included (s : TypeStore) (sup : list RowElem) (e : RowElem) : Prop :=
  match e with
  | R_Var v => R_Var v ∈ sup
  | R_Op n => ∃ m name name', R_Op m ∈ sup ∧ ts_row_names s !! N.to_nat n = Some name ∧
      ts_row_names s !! N.to_nat m = Some name' ∧ row_name_included row_name_operations name name' = true
  end.

Definition rows_included (s : TypeStore) (sub sup : list RowElem) : Prop := Forall (elem_included s sup) sub.

Inductive fn_type (t : Ty) : bool → list TypeId → list bool → TypeId → list RowElem → Prop :=
| fn_plain ps ms r row : t = T_Fn ps ms r row → fn_type t false ps ms r row
| fn_callback ps ms r row : t = T_Callback ps ms r row → fn_type t true ps ms r row.

(** [Sub s f e]: a value of type [f] is valid where [e] is expected. *)
Inductive Sub (s : TypeStore) : TypeId → TypeId → Prop :=
| Sub_refl t : Sub s t t
| Sub_never e : Sub s NEVER e
| Sub_class f e a xs b ys :
    nominal s f = Some (a, xs) → nominal s e = Some (b, ys) → Inherits s (a, xs) (b, ys) → Sub s f e
| Sub_tuple f e xs ys :
    ¬ both_nominal s f e →
    ts_types s !! N.to_nat f = Some (T_Tuple xs) → ts_types s !! N.to_nat e = Some (T_Tuple ys) →
    Forall2 (Sub s) xs ys → Sub s f e
| Sub_fn f e tf te kind fp fm fr frow ep em er erow :
    ¬ both_nominal s f e →
    ts_types s !! N.to_nat f = Some tf → ts_types s !! N.to_nat e = Some te →
    fn_type tf kind fp fm fr frow → fn_type te kind ep em er erow →
    Forall2 (λ f e, Sub s e f) fp ep → muts_ok fm em = true → Sub s fr er →
    rows_included s frow erow → Sub s f e.

(** *** Well-formed stores *)

Definition row_in (s : TypeStore) (e : RowElem) : Prop :=
  match e with R_Op n => (N.to_nat n < length (ts_row_names s))%nat | R_Var _ => True end.

(** The class ids, row names and markers of a type are in order. *)
Definition type_ok (s : TypeStore) (t : Ty) : Prop :=
  match t with
  | T_Class c | T_Inst c _ => class_in s c
  | T_Fn ps ms _ row | T_Callback ps ms _ row => length ms = length ps ∧ Forall (row_in s) row
  | _ => True
  end.

Definition memo_ok (s : TypeStore) (memo : Memo) : Prop :=
  ∀ e f b, memo !! (e, f) = Some b → in_table s e ∧ in_table s f ∧ (b = true ↔ Sub s f e).

Record store_shape (s : TypeStore) : Prop := {
  sh_table : table_ok s;
  sh_primitive : primitive_types `prefix_of` ts_types s;
  sh_types : ∀ i t, ts_types s !! i = Some t → type_ok s t;
  sh_classes : classes_ok s;
  sh_native : ∀ k c, ts_native_classes s !! k = Some c → (k < 16)%N ∧ k ≠ NEVER ∧ class_in s c;
  sh_native_list : ∀ c, ts_native_list s = Some c → class_in s c;
  sh_native_map : ∀ c, ts_native_map s = Some c → class_in s c;
  sh_native_tuples : ∀ i c, ts_native_tuples s !! i = Some (Some c) → class_in s c;
  sh_parent_args : ∀ i m, ts_classes s !! i = Some m → Forall (in_table s) (cm_parent_args m);
}.

Record store_ok (s : TypeStore) : Prop := {
  so_shape : store_shape s;
  so_memo : memo_ok s (ts_cache s);
}.

Lemma nominal_class_ret s id : in_table s id → nominal_class s id = Ret (nominal s id).
Proof.
  intros Hin. unfold nominal, nominal_class, get. destruct (vec_at_some (ts_types s) id Hin) as (t & Ht & _).
  rewrite Ht. reflexivity.
Qed.

Lemma nominal_eq s id t : ts_types s !! N.to_nat id = Some t → nominal s id =
  match t with
  | T_Class class => Some (class, [])
  | T_Inst class args => Some (class, args)
  | T_List element => (λ class, (class, [element])) <$> ts_native_list s
  | T_Map key value => (λ class, (class, [key; value])) <$> ts_native_map s
  | T_Tuple elements =>
      match ts_native_tuples s !! length elements with Some (Some class) => Some (class, elements) | _ => None end
  | _ => (λ class, (class, [])) <$> ts_native_classes s !! id
  end.
Proof. intros H. unfold nominal, nominal_class, get, vec_at. by rewrite H. Qed.

Lemma nominal_in_table s id c xs : nominal s id = Some (c, xs) → in_table s id.
Proof.
  intros H. unfold in_table. destruct (ts_types s !! N.to_nat id) eqn:E; [by eapply lookup_lt_Some|].
  unfold nominal, nominal_class, get, vec_at in H. rewrite E in H. done.
Qed.

Lemma nominal_class_in s id c xs : store_shape s → nominal s id = Some (c, xs) → class_in s c.
Proof.
  intros Hs H. pose proof (nominal_in_table _ _ _ _ H) as Hin.
  destruct (lookup_lt_is_Some_2 _ _ Hin) as [t Ht]. rewrite (nominal_eq _ _ _ Ht) in H.
  pose proof (sh_types s Hs _ _ Ht) as Hty. pose proof (sh_native_tuples s Hs).
  destruct t; simpl in *;
    repeat match goal with
    | H : _ <$> _ = Some _ |- _ => apply fmap_Some in H as (? & ? & ?)
    | H : match ?x with _ => _ end = Some _ |- _ => destruct x eqn:?
    end; simplify_eq; try done; eauto using sh_native_list, sh_native_map.
  all: by eapply (sh_native s Hs).
Qed.

(** A primitive id holds a primitive type. *)
Lemma primitive_at s k t : store_shape s → (k < 16)%N → ts_types s !! N.to_nat k = Some t → t ∈ primitive_types.
Proof.
  intros Hs Hk Ht. assert (is_Some (primitive_types !! N.to_nat k)) as [t' Ht'].
  { apply lookup_lt_is_Some_2. simpl. lia. }
  pose proof (prefix_lookup_Some _ _ _ _ Ht' (sh_primitive s Hs)) as H. simplify_eq.
  by eapply list_elem_of_lookup_2.
Qed.

Lemma never_at s : store_shape s → ts_types s !! N.to_nat NEVER = Some T_Never.
Proof. intros Hs. by eapply prefix_lookup_Some; [|exact (sh_primitive s Hs)]. Qed.

Lemma nominal_never s : store_shape s → nominal s NEVER = None.
Proof.
  intros Hs. rewrite (nominal_eq _ _ _ (never_at s Hs)). destruct (ts_native_classes s !! NEVER) eqn:E; [|done].
  by destruct (sh_native s Hs _ _ E) as (_ & ? & _).
Qed.

Lemma nominal_fn s id t kind ps ms r row :
  store_shape s → ts_types s !! N.to_nat id = Some t → fn_type t kind ps ms r row → nominal s id = None.
Proof.
  intros Hs Ht Hfn. rewrite (nominal_eq _ _ _ Ht).
  assert (ts_native_classes s !! id = None) as Hn.
  { destruct (ts_native_classes s !! id) eqn:E; [|done]. exfalso.
    destruct (sh_native s Hs _ _ E) as (Hk & _ & _). pose proof (primitive_at s id t Hs Hk Ht) as Hp.
    destruct Hfn; subst; unfold primitive_types in Hp; set_solver. }
  destruct Hfn; subst; by rewrite Hn.
Qed.

(** *** Row inclusion *)

Lemma all_exec_spec {A} (f : A → exec bool) (P : A → Prop) l :
  Forall (λ a, ∃ b, f a = Ret b ∧ (b = true ↔ P a)) l → ∃ b, all_exec f l = Ret b ∧ (b = true ↔ Forall P l).
Proof.
  induction 1 as [|a l (b & Hb & Hp) Hl (b' & Hb' & Hp')]; [exists true; by split|].
  cbn [all_exec]. rewrite Hb. cbn [mbind exec_bind]. destruct b.
  - exists b'. split; [done|]. rewrite Forall_cons. naive_solver.
  - exists false. split; [done|]. rewrite Forall_cons. naive_solver.
Qed.

Lemma any_exec_spec {A} (f : A → exec bool) (P : A → Prop) l :
  Forall (λ a, ∃ b, f a = Ret b ∧ (b = true ↔ P a)) l → ∃ b, any_exec f l = Ret b ∧ (b = true ↔ Exists P l).
Proof.
  induction 1 as [|a l (b & Hb & Hp) Hl (b' & Hb' & Hp')].
  { exists false. split; [done|]. rewrite Exists_nil. done. }
  cbn [any_exec]. rewrite Hb. cbn [mbind exec_bind]. destruct b.
  - exists true. split; [done|]. rewrite Exists_cons. naive_solver.
  - exists b'. split; [done|]. rewrite Exists_cons. naive_solver.
Qed.

Lemma row_elem_included_spec s e sup :
  row_in s e → Forall (row_in s) sup →
  ∃ b, row_elem_included row_name_operations s e sup = Ret b ∧ (b = true ↔ elem_included s sup e).
Proof.
  intros He Hsup. destruct e as [n|v]; cbn [row_elem_included elem_included row_in] in *.
  2: { eexists. split; [done|]. apply bool_decide_eq_true. }
  destruct (vec_at_some (ts_row_names s) n He) as (name & Hn & Hn'). change (row_name s n) with (vec_at (ts_row_names s) n).
  rewrite Hn. cbn [mbind exec_bind].
  destruct (any_exec_spec (λ e, match e with
    | R_Op m => sup_name ← row_name s m; Ret (row_name_included row_name_operations name sup_name)
    | R_Var _ => Ret false end)
    (λ e, ∃ m name', e = R_Op m ∧ ts_row_names s !! N.to_nat m = Some name' ∧
            row_name_included row_name_operations name name' = true) sup) as (b & Hb & Hspec).
  { eapply Forall_impl; [exact Hsup|]. intros [m|v] Hm; cbn [row_in] in Hm.
    - destruct (vec_at_some (ts_row_names s) m Hm) as (name' & Hm1 & Hm2). unfold row_name. rewrite Hm1.
      cbn [mbind exec_bind]. eexists. split; [done|]. naive_solver.
    - exists false. split; [done|]. naive_solver. }
  exists b. split; [done|]. rewrite Hspec, list.Exists_exists. split.
  - intros (e & Hin & m & name' & -> & Hm & Hi). eauto 10.
  - intros (m & name0 & name' & Hin & H0 & Hm & Hi). simplify_eq. eauto 10.
Qed.

Lemma row_included_spec s sub sup :
  Forall (row_in s) sub → Forall (row_in s) sup →
  ∃ b, row_included row_name_operations s sub sup = Ret b ∧ (b = true ↔ rows_included s sub sup).
Proof.
  intros Hsub Hsup. apply all_exec_spec. eapply Forall_impl; [exact Hsub|].
  intros e He. by apply row_elem_included_spec.
Qed.

(** *** The memoised query *)

(** [rec] answers [Sub] for pairs below [n] and keeps the memo truthful. *)
Definition answers (s : TypeStore) (rec : Memo → TypeId → TypeId → exec (bool * Memo)) (n : nat) : Prop :=
  ∀ memo e f, memo_ok s memo → in_table s e → in_table s f → (N.to_nat e < n)%nat → (N.to_nat f < n)%nat →
    ∃ b memo', rec memo e f = Ret (b, memo') ∧ memo_ok s memo' ∧ (b = true ↔ Sub s f e).

(** Ids in the table below [n]. *)
Definition below (s : TypeStore) (n : nat) (c : TypeId) : Prop := in_table s c ∧ (N.to_nat c < n)%nat.

Lemma all_pairs_spec s rec n (flip_args : bool) memo xs ys :
  answers s rec n → memo_ok s memo → Forall (below s n) xs → Forall (below s n) ys → length xs = length ys →
  ∃ b memo', all_pairs (λ memo x y, if flip_args then rec memo y x else rec memo x y) memo xs ys = Ret (b, memo') ∧
    memo_ok s memo' ∧
    (b = true ↔ Forall2 (λ x y, if flip_args then Sub s x y else Sub s y x) xs ys).
Proof.
  intros Hrec Hm Hxs. revert memo ys Hm. induction Hxs as [|x xs [Hx Hxn] Hxs IH]; intros memo ys Hm Hys Hl.
  { destruct ys; [|done]. exists true, memo. split_and!; [done..|]. split; [constructor|done]. }
  destruct Hys as [|y ys [Hy Hyn] Hys]; [done|]. cbn [all_pairs].
  assert (∃ b memo', (if flip_args then rec memo y x else rec memo x y) = Ret (b, memo') ∧ memo_ok s memo' ∧
    (b = true ↔ if flip_args then Sub s x y else Sub s y x)) as (b & memo1 & Hr & Hm1 & Hb).
  { destruct flip_args; [apply (Hrec memo y x)|apply (Hrec memo x y)]; done. }
  rewrite Hr. cbn [mbind exec_bind]. destruct b.
  - destruct (IH memo1 ys Hm1 Hys ltac:(simpl in Hl; lia)) as (b' & memo' & Ha & Hm' & Hb').
    exists b', memo'. split_and!; [done..|]. rewrite Forall2_cons. naive_solver.
  - exists false, memo1. split_and!; [done..|]. rewrite Forall2_cons. naive_solver.
Qed.

Definition sub_fn (s : TypeStore) fp fm fr frow ep em er erow : Prop :=
  Forall2 (λ f e, Sub s e f) fp ep ∧ muts_ok fm em = true ∧ Sub s fr er ∧ rows_included s frow erow.

(** Subtyping of types that are not both nominal is structural. *)
Lemma sub_struct s f e tf te :
  f ≠ e → f ≠ NEVER → ¬ both_nominal s f e →
  ts_types s !! N.to_nat f = Some tf → ts_types s !! N.to_nat e = Some te →
  Sub s f e ↔
  match tf, te with
  | T_Tuple xs, T_Tuple ys => Forall2 (Sub s) xs ys
  | T_Fn fp fm fr frow, T_Fn ep em er erow => sub_fn s fp fm fr frow ep em er erow
  | T_Callback fp fm fr frow, T_Callback ep em er erow => sub_fn s fp fm fr frow ep em er erow
  | _, _ => False
  end.
Proof.
  intros Hne Hnv Hnb Htf Hte. split.
  - intros H. inversion H as [|?|? ? ? ? ? ? Hf He|? ? xs ys _ Hf He Hxs|? ? ? ? kind ? ? ? ? ? ? ? ? _ Hf He Hk Hk' ? ? ? ?];
      subst; try done; simplify_eq.
    + exfalso. apply Hnb. by split; eexists.
    + done.
    + inversion Hk; inversion Hk'; subst; done.
  - intros H. destruct tf, te; try done.
    + by eapply Sub_tuple.
    + destruct H as (? & ? & ? & ?). eapply (Sub_fn s f e _ _ false); eauto using fn_type.
    + destruct H as (? & ? & ? & ?). eapply (Sub_fn s f e _ _ true); eauto using fn_type.
Qed.

Lemma compatible_fn_spec s rec n memo fp fm fr frow ep em er erow :
  answers s rec n → memo_ok s memo →
  Forall (below s n) fp → Forall (below s n) ep → below s n fr → below s n er →
  Forall (row_in s) frow → Forall (row_in s) erow →
  ∃ b memo', compatible_fn row_name_operations rec s memo fp fm fr frow ep em er erow = Ret (b, memo') ∧
    memo_ok s memo' ∧ (b = true ↔ sub_fn s fp fm fr frow ep em er erow).
Proof.
  intros Hrec Hm Hfp Hep [Hfr Hfrn] [Her Hern] Hfrow Herow. unfold compatible_fn, sub_fn.
  case_bool_decide as Hlen; cbn [negb].
  2: { exists false, memo. split_and!; [done..|]. split; [done|]. intros [H _]. by apply Forall2_length in H. }
  destruct (all_pairs_spec s rec n false memo fp ep Hrec Hm Hfp Hep Hlen) as (b1 & m1 & Ha & Hm1 & Hb1).
  cbn beta iota in Ha. rewrite Ha. cbn [mbind exec_bind]. destruct b1; cbn [negb].
  2: { exists false, m1. split_and!; [done..|]. naive_solver. }
  fold (muts_ok fm em). destruct (muts_ok fm em); cbn [negb].
  2: { exists false, m1. split_and!; [done..|]. naive_solver. }
  destruct (Hrec m1 er fr Hm1 Her Hfr Hern Hfrn) as (b2 & m2 & Hr & Hm2 & Hb2).
  rewrite Hr. cbn [mbind exec_bind]. destruct b2; cbn [negb].
  2: { exists false, m2. split_and!; [done..|]. naive_solver. }
  destruct (row_included_spec s frow erow Hfrow Herow) as (b3 & Hi & Hb3). rewrite Hi. cbn [mbind exec_bind].
  exists b3, m2. split_and!; [done..|]. naive_solver.
Qed.

Lemma forall_below s n t : Forall (in_table s) (children t) → Forall (λ c, (N.to_nat c < n)%nat) (children t) →
  Forall (below s n) (children t).
Proof. intros H1 H2. apply Forall_and; by split. Qed.

Lemma compatible_types_spec s rec n memo f e tf te :
  store_shape s → answers s rec n → memo_ok s memo → f ≠ e → f ≠ NEVER → ¬ both_nominal s f e →
  ts_types s !! N.to_nat f = Some tf → ts_types s !! N.to_nat e = Some te →
  Forall (below s n) (children tf) → Forall (below s n) (children te) →
  ∃ b memo', compatible_types row_name_operations rec s memo tf te = Ret (b, memo') ∧ memo_ok s memo' ∧
    (b = true ↔ Sub s f e).
Proof.
  intros Hs Hrec Hm Hne Hnv Hnb Htf Hte Hcf Hce. setoid_rewrite (sub_struct s f e tf te); [|done..].
  pose proof (sh_types s Hs _ _ Htf) as Hokf. pose proof (sh_types s Hs _ _ Hte) as Hoke.
  assert (∀ b, nominal s f = Some b → nominal s e ≠ None → False) as Hnom.
  { intros b Hb He. apply Hnb. split; [by eexists|]. destruct (nominal s e); [by eexists|done]. }
  rewrite (nominal_eq _ _ _ Htf), (nominal_eq _ _ _ Hte) in Hnom.
  assert (∃ b memo', Ret (false, memo) = Ret (b, memo') ∧ memo_ok s memo' ∧ (b = true ↔ False)) as Hfalse
    by (exists false, memo; done).
  destruct tf, te; try exact Hfalse; cbn [compatible_types children type_ok] in *;
    try (exfalso; by eapply Hnom; [reflexivity|]).
  - case_bool_decide as Hlen; cbn [negb].
    + by apply (all_pairs_spec s rec n true memo elems elems0).
    + exists false, memo. split_and!; [done..|]. split; [done|]. intros H. by apply Forall2_length in H.
  - apply Forall_app in Hcf as [? Hcf], Hce as [? Hce]. inversion Hcf; inversion Hce; subst.
    apply (compatible_fn_spec s rec n); tauto.
  - apply Forall_app in Hcf as [? Hcf], Hce as [? Hce]. inversion Hcf; inversion Hce; subst.
    apply (compatible_fn_spec s rec n); tauto.
Qed.

Lemma memo_insert s memo e f b : memo_ok s memo → in_table s e → in_table s f → (b = true ↔ Sub s f e) →
  memo_ok s (<[(e, f) := b]> memo).
Proof.
  intros Hm He Hf Hb e' f' b'. destruct (decide ((e, f) = (e', f'))) as [[= <- <-]|Hne].
  - rewrite lookup_insert_eq. intros [= <-]. done.
  - rewrite lookup_insert_ne by done. apply Hm.
Qed.

Lemma child_below s i t n : table_ok s → ts_types s !! i = Some t → (i < S n)%nat → Forall (below s n) (children t).
Proof.
  intros Hok Ht Hn. pose proof (tab_below s Hok i t Ht) as Hb. apply lookup_lt_Some in Ht.
  eapply Forall_impl; [exact Hb|]. intros c Hc. unfold below, in_table. simpl in Hc. lia.
Qed.

Lemma compatible_memo_spec s fuel : store_shape s → answers s (compatible_memo row_name_operations fuel s) fuel.
Proof.
  intros Hs. induction fuel as [|fuel IH]; intros memo e f Hm He Hf Hen Hfn; [lia|]. cbn [compatible_memo].
  case_decide as Heq.
  { exists true, memo. split_and!; [done..|]. split; [|done]. intros _.
    destruct Heq as [->| ->]; constructor. }
  apply Decidable.not_or in Heq as [Hne Hnv].
  destruct (memo !! (e, f)) as [hit|] eqn:Ehit.
  { exists hit, memo. split_and!; [done..|]. by apply (Hm e f hit). }
  rewrite !nominal_class_ret by done. cbn [mbind exec_bind].
  assert (∃ b memo', (match nominal s f, nominal s e with
    | Some (a, xs), Some (b, ys) => ok ← ancestor_is s a xs b ys; Ret (ok, memo)
    | _, _ => tf ← get s f; te ← get s e;
        compatible_types row_name_operations (compatible_memo row_name_operations fuel s) s memo tf te
    end) = Ret (b, memo') ∧ memo_ok s memo' ∧ (b = true ↔ Sub s f e)) as (b & memo' & Hr & Hm' & Hb).
  2: { rewrite Hr. cbn [mbind exec_bind]. eexists b, _. split_and!; [done| |done]. by apply memo_insert. }
  destruct (lookup_lt_is_Some_2 _ _ Hf) as [tf Htf]. destruct (lookup_lt_is_Some_2 _ _ He) as [te Hte].
  assert (¬ both_nominal s f e → ∃ b memo', (tf ← get s f; te ← get s e;
    compatible_types row_name_operations (compatible_memo row_name_operations fuel s) s memo tf te)
      = Ret (b, memo') ∧ memo_ok s memo' ∧ (b = true ↔ Sub s f e)) as Hstruct.
  { intros Hnb. unfold get. rewrite (vec_at_lookup _ _ _ Htf), (vec_at_lookup _ _ _ Hte). cbn [mbind exec_bind].
    apply (compatible_types_spec s _ fuel memo f e tf te); try done;
      eapply child_below; eauto using sh_table; lia. }
  destruct (nominal s f) as [[a xs]|] eqn:Nf, (nominal s e) as [[b ys]|] eqn:Ne;
    try (apply Hstruct; intros [[? ?] [? ?]]; congruence).
  destruct (ancestor_args_spec s a xs b) as (o & Ho & Hspec);
    [by apply sh_classes|by eapply nominal_class_in|].
  unfold ancestor_is. rewrite Ho. cbn [mbind exec_bind]. eexists _, memo. split_and!; [done..|].
  rewrite bool_decide_eq_true, Hspec. split; [intros H; by eapply Sub_class|].
  intros H. inversion H as [|?|? ? ? ? ? ? Hf' He' Hi|? ? ? ? Hnb|? ? ? ? ? ? ? ? ? ? ? ? ? Hnb]; subst; try done.
  - by rewrite Nf in Hf'; rewrite Ne in He'; simplify_eq.
  - destruct Hnb. split; by eexists.
  - destruct Hnb. split; by eexists.
Qed.

(** ** Stability

    A store that agrees with another on its types, classes, row names and
    native classes has the same subtypes among the old types. *)

Record agrees (s s' : TypeStore) : Prop := {
  ag_types : ts_types s `prefix_of` ts_types s';
  ag_classes : ∀ c m, ts_classes s !! c = Some m →
    ∃ m', ts_classes s' !! c = Some m' ∧ cm_parent m' = cm_parent m ∧
      cm_parent_args m' = cm_parent_args m ∧ cm_type_params m' = cm_type_params m;
  ag_rows : ts_row_names s `prefix_of` ts_row_names s';
  ag_native : ts_native_classes s' = ts_native_classes s ∧ ts_native_list s' = ts_native_list s ∧
    ts_native_map s' = ts_native_map s ∧ ts_native_tuples s' = ts_native_tuples s;
}.

Lemma sub_nominal s f e a xs b ys :
  f ≠ e → f ≠ NEVER → nominal s f = Some (a, xs) → nominal s e = Some (b, ys) →
  Sub s f e ↔ Inherits s (a, xs) (b, ys).
Proof.
  intros Hne Hnv Hf He. split; [|intros; by eapply Sub_class]. intros H.
  inversion H as [|?|? ? ? ? ? ? Hf' He' Hi|? ? ? ? Hnb|? ? ? ? ? ? ? ? ? ? ? ? ? Hnb]; subst; try done.
  - by rewrite Hf in Hf'; rewrite He in He'; simplify_eq.
  - destruct Hnb. split; by eexists.
  - destruct Hnb. split; by eexists.
Qed.

Lemma nominal_agrees s s' id : agrees s s' → in_table s id → nominal s' id = nominal s id.
Proof.
  intros Ha Hin. destruct (lookup_lt_is_Some_2 _ _ Hin) as [t Ht].
  rewrite (nominal_eq _ _ _ Ht), (nominal_eq s' id t) by (by eapply prefix_lookup_Some, ag_types).
  by destruct (ag_native _ _ Ha) as (-> & -> & -> & ->).
Qed.

Lemma class_step_agrees s s' x y : agrees s s' → class_step s x y → class_step s' x y.
Proof.
  intros Ha (m & p & Hm & Hp & Hy & He).
  destruct (ag_classes _ _ Ha _ _ Hm) as (m' & Hm' & E1 & E2 & E3).
  destruct (ag_classes _ _ Ha _ _ Hy) as (p' & Hp' & F1 & F2 & F3).
  exists m', p'. rewrite E1, E2, F3. done.
Qed.

Lemma class_step_agrees_inv s s' x y :
  agrees s s' → classes_ok s → class_in s x.1 → class_step s' x y → class_step s x y ∧ class_in s y.1.
Proof.
  intros Ha [rank Hr] Hx Hstep. destruct (class_in_lookup s _ Hx) as [m Hm].
  destruct Hstep as (m' & p' & Hm' & Hp & Hy & He).
  destruct (ag_classes _ _ Ha _ _ Hm) as (m0 & Hm0 & E1 & E2 & E3). simplify_eq.
  rewrite E1 in Hp. destruct (rank_parent s rank Hr _ _ _ Hm Hp) as [Hin _]. split; [|done].
  destruct (class_in_lookup s _ Hin) as [p Hpm]. destruct (ag_classes _ _ Ha _ _ Hpm) as (p0 & Hp0 & F1 & F2 & F3).
  simplify_eq. exists m, p. rewrite He, E2, F3. done.
Qed.

Lemma inherits_agrees s s' x y :
  agrees s s' → classes_ok s → class_in s x.1 → Inherits s x y ↔ Inherits s' x y.
Proof.
  intros Ha Hok Hx. split.
  - induction 1 as [|x y z Hxy _ IH]; [apply rtc_refl|]. eapply rtc_l; [by eapply class_step_agrees|].
    apply IH. by destruct Hok as [rank Hr]; destruct (step_rank s rank x y Hr Hxy).
  - intros H. revert Hx. induction H as [|x y z Hxy _ IH]; intros Hx; [apply rtc_refl|].
    destruct (class_step_agrees_inv s s' x y Ha Hok Hx Hxy) as [Hst Hy]. eapply rtc_l; [exact Hst|by apply IH].
Qed.

Lemma elem_included_agrees s s' sup e :
  agrees s s' → row_in s e → Forall (row_in s) sup → elem_included s sup e ↔ elem_included s' sup e.
Proof.
  intros Ha He Hsup. destruct e as [n|v]; [|done]. simpl in *. pose proof (ag_rows _ _ Ha) as Hp. split.
  - intros (m & name & name' & Hin & Hn & Hm & Hi). exists m, name, name'.
    split_and!; [done|by eapply prefix_lookup_Some..|done].
  - intros (m & name & name' & Hin & Hn & Hm & Hi). exists m, name, name'.
    pose proof (proj1 (list.Forall_forall _ _) Hsup _ Hin) as Hmin. simpl in Hmin.
    split_and!; [done|by rewrite (prefix_lookup_lt _ _ _ He Hp)|by rewrite (prefix_lookup_lt _ _ _ Hmin Hp)|done].
Qed.

Lemma rows_included_agrees s s' sub sup :
  agrees s s' → Forall (row_in s) sub → Forall (row_in s) sup → rows_included s sub sup ↔ rows_included s' sub sup.
Proof.
  intros Ha Hsub Hsup. unfold rows_included. rewrite !list.Forall_forall.
  split; intros H e He; apply (elem_included_agrees s s'); auto; by eapply list.Forall_forall in Hsub.
Qed.

Lemma Forall2_iff_in {A} (P : A → Prop) (R R' : A → A → Prop) xs ys :
  Forall P xs → Forall P ys → (∀ x y, P x → P y → R x y ↔ R' x y) → Forall2 R xs ys ↔ Forall2 R' xs ys.
Proof.
  intros Hxs. revert ys. induction Hxs as [|x xs Hx Hxs IH]; intros ys Hys HR.
  - by split; intros H; inversion H; constructor.
  - destruct Hys as [|y ys Hy Hys]; [by split; intros H; inversion H|].
    rewrite !Forall2_cons. rewrite (HR x y Hx Hy), (IH ys Hys HR). done.
Qed.

Lemma sub_fn_agrees s s' n fp fm fr frow ep em er erow :
  agrees s s' → (∀ f e, below s n f → below s n e → Sub s f e ↔ Sub s' f e) →
  Forall (below s n) (fp ++ [fr]) → Forall (below s n) (ep ++ [er]) →
  Forall (row_in s) frow → Forall (row_in s) erow →
  sub_fn s fp fm fr frow ep em er erow ↔ sub_fn s' fp fm fr frow ep em er erow.
Proof.
  intros Ha HR [Hfp Hfr]%Forall_app [Hep Her]%Forall_app Hfrow Herow.
  inversion Hfr; inversion Her; subst. unfold sub_fn.
  rewrite (Forall2_iff_in (below s n) (λ f e, Sub s e f) (λ f e, Sub s' e f)) by auto.
  rewrite (HR fr er) by done. rewrite (rows_included_agrees s s') by done. done.
Qed.

Lemma sub_agrees s s' f e :
  store_shape s → agrees s s' → in_table s f → in_table s e → Sub s f e ↔ Sub s' f e.
Proof.
  intros Hs Ha Hf He.
  enough (∀ n f e, below s n f → below s n e → Sub s f e ↔ Sub s' f e) as H.
  { apply (H (S (max (N.to_nat f) (N.to_nat e)))); split; (done || lia). }
  clear f e Hf He. induction n as [|n IH]; intros f e [Hf Hfn] [He Hen]; [lia|].
  destruct (decide (f = e)) as [->|Hne]; [split; constructor|].
  destruct (decide (f = NEVER)) as [->|Hnv]; [split; constructor|].
  destruct (lookup_lt_is_Some_2 _ _ Hf) as [tf Htf]. destruct (lookup_lt_is_Some_2 _ _ He) as [te Hte].
  pose proof (prefix_lookup_Some _ _ _ _ Htf (ag_types _ _ Ha)) as Htf'.
  pose proof (prefix_lookup_Some _ _ _ _ Hte (ag_types _ _ Ha)) as Hte'.
  pose proof (nominal_agrees s s' f Ha Hf) as Nf. pose proof (nominal_agrees s s' e Ha He) as Ne.
  destruct (decide (is_Some (nominal s f) ∧ is_Some (nominal s e))) as [[[[a xs] Hnf] [[b ys] Hne']]|Hnb].
  - rewrite (sub_nominal s f e a xs b ys), (sub_nominal s' f e a xs b ys) by (done || congruence).
    apply inherits_agrees; [done|by apply sh_classes|]. by eapply nominal_class_in.
  - assert (¬ both_nominal s' f e) as Hnb' by (unfold both_nominal; by rewrite Nf, Ne).
    rewrite (sub_struct s f e tf te), (sub_struct s' f e tf te) by done.
    pose proof (child_below s _ _ n (sh_table s Hs) Htf Hfn) as Hcf.
    pose proof (child_below s _ _ n (sh_table s Hs) Hte Hen) as Hce.
    pose proof (sh_types s Hs _ _ Htf) as Hokf. pose proof (sh_types s Hs _ _ Hte) as Hoke.
    destruct tf, te; try done; cbn [children type_ok] in *.
    + by apply (Forall2_iff_in (below s n)).
    + apply (sub_fn_agrees s s' n); tauto.
    + apply (sub_fn_agrees s s' n); tauto.
Qed.

(** ** Operations keep the store in order *)

Lemma type_ok_mono s s' t :
  (∀ c, class_in s c → class_in s' c) → (∀ e, row_in s e → row_in s' e) → type_ok s t → type_ok s' t.
Proof.
  intros Hc Hr. destruct t; simpl; auto; intros [? H]; (split; [done|]); eapply Forall_impl; eauto.
Qed.

Lemma memo_agrees s s' memo : store_shape s → agrees s s' → memo_ok s memo → memo_ok s' memo.
Proof.
  intros Hs Ha Hm e f b Hb. destruct (Hm e f b Hb) as (He & Hf & Hspec).
  pose proof (prefix_length _ _ (ag_types _ _ Ha)) as Hl.
  split_and!; [unfold in_table in *; lia..|]. by rewrite <- (sub_agrees s s').
Qed.

Lemma memo_empty s : memo_ok s ∅.
Proof. intros e f b. by rewrite lookup_empty. Qed.

Lemma agrees_refl_memo s memo : agrees s (set_cache s memo).
Proof. split; [done|eauto 10|done|done]. Qed.

Lemma agrees_grows s s' : table_grows s s' → agrees s s'.
Proof. intros [Hr Ht]. rewrite Hr. split; simpl; [done|eauto 10|done|done]. Qed.

Lemma classes_ok_eq s s' : ts_classes s' = ts_classes s → classes_ok s → classes_ok s'.
Proof.
  intros E [rank [H1 H2]]. exists rank. split; unfold class_in in *; rewrite ?E; done.
Qed.

Lemma shape_natives s : store_shape s →
  (∀ k c, ts_native_classes s !! k = Some c → (k < 16)%N ∧ k ≠ NEVER ∧ class_in s c) ∧
  (∀ c, ts_native_list s = Some c → class_in s c) ∧ (∀ c, ts_native_map s = Some c → class_in s c) ∧
  (∀ i c, ts_native_tuples s !! i = Some (Some c) → class_in s c) ∧
  (∀ i m, ts_classes s !! i = Some m → Forall (in_table s) (cm_parent_args m)).
Proof. intros []. done. Qed.

(** The same classes, row names and natives, a longer table. *)
Lemma shape_grows s s' t :
  store_shape s → table_ok s' → table_grows s s' → type_ok s t →
  (s' = s ∨ ts_types s' = ts_types s ++ [t]) → store_shape s'.
Proof.
  intros Hs Hok Hg Ht [->|Hnew]; [done|]. pose proof (grow_rest _ _ Hg) as Hr.
  destruct (shape_natives s Hs) as (H1 & H2 & H3 & H4 & H5).
  assert (∀ t, type_ok s t → type_ok s' t) as Hty by (intros; rewrite Hr; by eapply type_ok_mono).
  split; [done|..].
  - rewrite Hnew. apply prefix_app_r. by apply sh_primitive.
  - intros i t' Hi. rewrite Hnew in Hi. apply Hty. apply lookup_app_Some in Hi as [Hi|[_ Hi]].
    + by eapply sh_types.
    + by apply list_lookup_singleton_Some in Hi as [_ <-].
  - apply (classes_ok_eq s); [by rewrite Hr|by apply sh_classes].
  - rewrite Hr. exact H1.
  - rewrite Hr. exact H2.
  - rewrite Hr. exact H3.
  - rewrite Hr. exact H4.
  - intros i m Hi. rewrite Hr in Hi. eapply Forall_impl; [by eapply (sh_parent_args s Hs)|].
    intros c. by apply grows_in_table.
Qed.

(** The same table, with more classes and row names. *)
Lemma shape_tables s s' :
  store_shape s → ts_types s' = ts_types s → ts_facts s' = ts_facts s → ts_index s' = ts_index s →
  (∀ c, class_in s c → class_in s' c) → (∀ e, row_in s e → row_in s' e) → classes_ok s' →
  (∀ k c, ts_native_classes s' !! k = Some c → (k < 16)%N ∧ k ≠ NEVER ∧ class_in s' c) →
  (∀ c, ts_native_list s' = Some c → class_in s' c) → (∀ c, ts_native_map s' = Some c → class_in s' c) →
  (∀ i c, ts_native_tuples s' !! i = Some (Some c) → class_in s' c) →
  (∀ i m, ts_classes s' !! i = Some m → Forall (in_table s) (cm_parent_args m)) → store_shape s'.
Proof.
  intros Hs Et Ef Ei Hc Hr Hcl Hn Hl Hm Htu Hpa. split; try done.
  - destruct (sh_table s Hs) as [H1 H2 H3 H4]. split; rewrite ?Et, ?Ef, ?Ei; done.
  - rewrite Et. by apply sh_primitive.
  - rewrite Et. intros i t Hi. eapply type_ok_mono; [done..|]. by eapply sh_types.
  - intros i m Hi. unfold in_table. rewrite Et. by apply (Hpa i m).
Qed.

Lemma shape_memo s memo : store_shape s → store_shape (set_cache s memo).
Proof.
  intros Hs. destruct (shape_natives s Hs) as (H1 & H2 & H3 & H4 & H5). apply (shape_tables s); try done.
  by apply (classes_ok_eq s), sh_classes.
Qed.

Lemma register_shape s name n k : store_shape s → store_shape (register_class s name n k).2.
Proof.
  intros Hs. destruct (shape_natives s Hs) as (H1 & H2 & H3 & H4 & H5).
  assert (∀ c, class_in s c → class_in (register_class s name n k).2 c) as Hin.
  { intros c. unfold class_in. simpl. rewrite length_app. simpl. lia. }
  apply (shape_tables s); try done; simpl.
  - destruct (sh_classes s Hs) as [rank Hr].
    exists (λ c, if decide (N.to_nat c = length (ts_classes s)) then 0%nat else rank c). split; simpl.
    + intros c Hc. unfold class_in in Hc. simpl in Hc. rewrite length_app in *. simpl in *.
      case_decide; [lia|]. pose proof (rank_bound s rank Hr c ltac:(unfold class_in; lia)). lia.
    + intros c m p Hm Hp. apply lookup_app_Some in Hm as [Hm|[_ Hm]].
      * destruct (rank_parent s rank Hr _ _ _ Hm Hp) as [Hpin Hlt]. split; [by apply Hin|].
        apply lookup_lt_Some in Hm. unfold class_in in Hpin. rewrite !decide_False by lia. done.
      * by apply list_lookup_singleton_Some in Hm as [_ <-].
  - intros k' c Hc. destruct (H1 k' c Hc) as (? & ? & ?). auto.
  - auto.
  - auto.
  - eauto.
  - intros i m Hm. apply lookup_app_Some in Hm as [Hm|[_ Hm]]; [eauto|].
    apply list_lookup_singleton_Some in Hm as [_ <-]. constructor.
Qed.

Lemma register_agrees s name n k : agrees s (register_class s name n k).2.
Proof.
  split; simpl; [done| |done|done]. intros c m Hm. exists m. split_and!; [by apply lookup_app_l_Some|done..].
Qed.

Lemma row_name_shape s name : store_shape s → store_shape (intern_row_name s name).2.
Proof.
  intros Hs. unfold intern_row_name. destruct (_ !! _); [done|].
  destruct (shape_natives s Hs) as (H1 & H2 & H3 & H4 & H5). apply (shape_tables s); simpl; try done.
  - intros []; simpl; [|done]. rewrite length_app. simpl. lia.
  - by apply (classes_ok_eq s), sh_classes.
Qed.

Lemma row_name_agrees s name : agrees s (intern_row_name s name).2.
Proof.
  unfold intern_row_name. destruct (_ !! _); (split; simpl; [done|eauto 10| |done]); [done|by apply prefix_app_r].
Qed.

(** Replacing the metadata of one class by metadata with a given parent. *)
Lemma class_update_in s c m c' :
  class_in (set_classes s (<[N.to_nat c := m]> (ts_classes s))) c' ↔ class_in s c'.
Proof. unfold class_in. simpl. by rewrite length_insert. Qed.

Lemma class_meta_Ret s c m : class_meta s c = Ret m ↔ ts_classes s !! N.to_nat c = Some m.
Proof. unfold class_meta, vec_at. destruct (_ !! _); simpl; split; congruence. Qed.

Lemma final_agrees s c s' : set_class_final s c = Ret s' → agrees s s'.
Proof.
  unfold set_class_final. destruct (class_meta s c) as [m| |] eqn:E; [|done..]. cbn [mbind exec_bind].
  intros [= <-]. apply class_meta_Ret in E. split; simpl; [done| |done|done]. intros i m' Hi.
  destruct (decide (i = N.to_nat c)) as [->|Hne].
  - simplify_eq. eexists. split; [apply list_lookup_insert_eq; by eapply lookup_lt_Some|done].
  - exists m'. by rewrite list_lookup_insert_ne.
Qed.

Lemma final_shape s c s' : store_shape s → set_class_final s c = Ret s' → store_shape s'.
Proof.
  intros Hs H. pose proof (final_agrees s c s' H) as Ha. revert H. unfold set_class_final.
  destruct (class_meta s c) as [m| |] eqn:E; [|done..]. cbn [mbind exec_bind]. intros [= <-].
  set (m' := mkClassMeta _ _ _ _ _ _) in *. destruct (shape_natives s Hs) as (H1 & H2 & H3 & H4 & H5).
  assert (∀ c', class_in s c' ↔ class_in (set_classes s (<[N.to_nat c:=m']> (ts_classes s))) c') as Hin
    by (intros; by rewrite class_update_in).
  apply (shape_tables s); try done; simpl.
  - intros; by apply Hin.
  - destruct (sh_classes s Hs) as [rank Hr]. exists rank. split.
    + intros c' Hc'. simpl. rewrite length_insert. apply (rank_bound s rank Hr). by apply Hin.
    + simpl. intros c' mm p Hm Hp. rewrite <- Hin.
      apply class_meta_Ret in E. apply list_lookup_insert_Some in Hm as [(Hc' & <- & _)|[_ Hm]].
      * apply N2Nat.inj in Hc' as <-. simpl in Hp. by eapply (rank_parent s rank Hr).
      * by eapply (rank_parent s rank Hr).
  - intros k' c' Hc. rewrite <- Hin. eauto.
  - intros; rewrite <- Hin; eauto.
  - intros; rewrite <- Hin; eauto.
  - intros; rewrite <- Hin; eauto.
  - intros i mm Hm. apply class_meta_Ret in E. apply list_lookup_insert_Some in Hm as [(_ & <- & _)|[_ Hm]];
      [exact (H5 _ _ E)|eauto].
Qed.

Lemma parent_shape s c p args s' :
  store_shape s → Forall (in_table s) args → set_class_parent_args s c p args = Ret s' → classes_ok s' →
  store_shape s' ∧ ts_cache s' = ∅.
Proof.
  intros Hs Hargs H Hok. revert H Hok. unfold set_class_parent_args.
  destruct (class_meta s c) as [m| |] eqn:E; [|done..]. cbn [mbind exec_bind]. intros [= <-] Hok.
  split; [|done]. set (m' := mkClassMeta _ _ _ _ _ _) in *. destruct (shape_natives s Hs) as (H1 & H2 & H3 & H4 & H5).
  assert (∀ c', class_in s c' ↔ class_in (clear_cache (set_classes s (<[N.to_nat c:=m']> (ts_classes s)))) c') as Hin
    by (intros; unfold class_in; simpl; by rewrite length_insert).
  apply (shape_tables s); try done; simpl.
  - intros; by apply Hin.
  - intros k' c' Hc. rewrite <- Hin. eauto.
  - intros; rewrite <- Hin; eauto.
  - intros; rewrite <- Hin; eauto.
  - intros; rewrite <- Hin; eauto.
  - intros i mm Hm. apply list_lookup_insert_Some in Hm as [(_ & <- & _)|[_ Hm]]; [done|eauto].
Qed.

(** A change of the native classes that keeps them registered. *)
Lemma natives_shape s n l m t :
  store_shape s →
  (∀ k c, n !! k = Some c → (k < 16)%N ∧ k ≠ NEVER ∧ class_in s c) →
  (∀ c, l = Some c → class_in s c) → (∀ c, m = Some c → class_in s c) →
  (∀ i c, t !! i = Some (Some c) → class_in s c) →
  store_shape (clear_cache (set_natives s n l m t)).
Proof.
  intros Hs H1 H2 H3 H4. apply (shape_tables s); try done; [by apply (classes_ok_eq s), sh_classes|].
  exact (sh_parent_args s Hs).
Qed.

Lemma native_tuple_shape s arity class :
  store_shape s → class_in s class → store_shape (set_native_tuple_class s arity class).
Proof.
  intros Hs Hc. unfold set_native_tuple_class. case_decide; [|done].
  destruct (shape_natives s Hs) as (H1 & H2 & H3 & H4 & H5). apply natives_shape; try done.
  intros i c Hi. apply list_lookup_insert_Some in Hi as [(_ & [= <-] & _)|[_ Hi]]; eauto.
Qed.

Lemma native_class_shape s ty class :
  store_shape s → (ty < 16)%N → ty ≠ NEVER → class_in s class → store_shape (set_native_class s ty class).
Proof.
  intros Hs Hk Hn Hc. destruct (shape_natives s Hs) as (H1 & H2 & H3 & H4 & H5). apply natives_shape; try done.
  intros k c Hi. apply lookup_insert_Some in Hi as [[<- <-]|[_ Hi]]; eauto.
Qed.

(** *** Reachable stores *)

(** The calls the checker makes, with what it owes each of them: parts of an
    interned type are in the table, classes are registered before they are
    named, the parent chain stays acyclic, a native class belongs to a
    primitive type other than [Never]. *)
Inductive store_step : TypeStore → TypeStore → Prop :=
| step_intern s t id s' :
    Forall (in_table s) (children t) → type_ok s t → room s → intern s t = Ret (id, s') → store_step s s'
| step_row_name s name : store_step s (intern_row_name s name).2
| step_register s name n k : store_step s (register_class s name n k).2
| step_final s c s' : set_class_final s c = Ret s' → store_step s s'
| step_parent s c p args s' :
    Forall (in_table s) args → set_class_parent_args s c p args = Ret s' → classes_ok s' → store_step s s'
| step_native s ty class :
    (ty < 16)%N → ty ≠ NEVER → class_in s class → store_step s (set_native_class s ty class)
| step_native_list s class : class_in s class → store_step s (set_native_list_class s class)
| step_native_map s class : class_in s class → store_step s (set_native_map_class s class)
| step_native_tuple s arity class :
    class_in s class → store_step s (set_native_tuple_class s arity class)
| step_conformance s c i ts : store_step s (set_conformance s c i ts)
| step_compatible s e f b s' :
    in_table s e → in_table s f → compatible row_name_operations s e f = Ret (b, s') → store_step s s'.

Inductive store_reachable : TypeStore → Prop :=
| reach_new s : new_with_bundle = Ret s → store_reachable s
| reach_step s s' : store_reachable s → store_step s s' → store_reachable s'.

Lemma compatible_spec s e f :
  store_ok s → in_table s e → in_table s f →
  ∃ b memo, compatible row_name_operations s e f = Ret (b, set_cache s memo) ∧
    store_ok (set_cache s memo) ∧ (b = true ↔ Sub s f e).
Proof.
  intros [Hs Hm] He Hf. unfold compatible.
  destruct (compatible_memo_spec s (type_fuel s) Hs (ts_cache s) e f Hm He Hf) as (b & memo & Hr & Hm' & Hb);
    [unfold type_fuel, in_table in *; lia..|].
  rewrite Hr. cbn [mbind exec_bind]. exists b, memo. split_and!; [done| |done].
  split; [by apply shape_memo|]. by eapply memo_agrees; [|apply agrees_refl_memo|].
Qed.

Lemma intern_store_ok s t :
  store_ok s → Forall (in_table s) (children t) → type_ok s t → room s →
  ∃ id s', intern s t = Ret (id, s') ∧ store_ok s' ∧ ts_types s' !! N.to_nat id = Some t ∧ table_grows s s' ∧
    (s' = s ∨ ts_types s' = ts_types s ++ [t]).
Proof.
  intros [Hs Hm] Hch Hty Hroom.
  destruct (intern_spec s t (sh_table s Hs) Hch Hroom) as (id & s' & Hi & Hok & Ht & Hg & Hsize).
  exists id, s'. split_and!; try done. split; [by eapply shape_grows|].
  rewrite (grow_rest _ _ Hg). eapply memo_agrees; [exact Hs| |exact Hm].
  rewrite <- (grow_rest _ _ Hg). by apply agrees_grows.
Qed.

Lemma conformance_ok s c i ts : store_ok s → store_ok (set_conformance s c i ts).
Proof.
  intros [Hs Hm]. destruct (shape_natives s Hs) as (H1 & H2 & H3 & H4 & H5). split.
  - apply (shape_tables s); try done. by apply (classes_ok_eq s), sh_classes.
  - eapply (memo_agrees s); [done| |done]. split; simpl; [done|eauto 10|done|done].
Qed.

Lemma store_step_ok s s' : store_ok s → store_step s s' → store_ok s'.
Proof.
  intros Hok Hstep. pose proof (so_shape s Hok) as Hs. pose proof (so_memo s Hok) as Hm.
  destruct (shape_natives s Hs) as (H1 & H2 & H3 & H4 & H5).
  destruct Hstep as [s t id s' Hch Hty Hr Hi|s name|s name n k|s c s' Hf|s c p args s' Ha Hp Hc|s ty class ? ? ?
    |s class ?|s class ?|s arity class ?|s c i ts|s e f b s' He Hf Hc].
  - destruct (intern_store_ok s t Hok Hch Hty Hr) as (id' & s1 & Hi' & Hok' & _).
    rewrite Hi' in Hi. by injection Hi as <- <-.
  - split; [by apply row_name_shape|]. unfold intern_row_name at 2. eapply (memo_agrees s); [done|apply row_name_agrees|].
    by destruct (_ !! _).
  - split; [by apply register_shape|]. by eapply (memo_agrees s); [|apply register_agrees|].
  - split; [by eapply final_shape|]. eapply (memo_agrees s); [done|by eapply final_agrees|].
    revert Hf. unfold set_class_final. destruct (class_meta s c); [|done..]. by intros [= <-].
  - destruct (parent_shape s c p args s' Hs Ha Hp Hc) as [Hs' Hempty]. split; [done|]. rewrite Hempty. apply memo_empty.
  - split; [by apply native_class_shape|apply memo_empty].
  - split; [|apply memo_empty]. apply natives_shape; try done. by intros c [= <-].
  - split; [|apply memo_empty]. apply natives_shape; try done. by intros c [= <-].
  - split; [by apply native_tuple_shape|]. unfold set_native_tuple_class. case_decide; [apply memo_empty|done].
  - by apply conformance_ok.
  - destruct (compatible_spec s e f Hok He Hf) as (b' & memo & Hc' & Hok' & _).
    rewrite Hc' in Hc. by injection Hc as <- <-.
Qed.

Lemma new_store_ok s : new_with_bundle = Ret s → store_ok s.
Proof.
  intros Hn. destruct new_store as (s0 & Hn0 & Ht & Hp & Hg). assert (s0 = s) as -> by congruence.
  pose proof (grow_rest _ _ Hg) as Hr. split.
  2: { rewrite Hr. apply memo_empty. }
  split.
  - exact Ht.
  - by rewrite Hp.
  - intros i t Hi. rewrite Hp in Hi. assert (Forall (type_ok s) primitive_types) as HF by (repeat constructor).
    by eapply Forall_lookup_1 in HF.
  - exists (λ _, 0%nat). rewrite Hr. split; simpl; [|done]. intros c Hc. unfold class_in in Hc. simpl in Hc. lia.
  - rewrite Hr. intros k c. simpl. by rewrite lookup_empty.
  - rewrite Hr. by intros c.
  - rewrite Hr. by intros c.
  - rewrite Hr. intros i c Hi. by apply lookup_replicate in Hi as [? _].
  - rewrite Hr. by intros i m.
Qed.

Lemma store_reachable_ok s : store_reachable s → store_ok s.
Proof. induction 1; [by apply new_store_ok|by eapply store_step_ok]. Qed.
End Sub.
