(* ===== verification/TypesLaws.v ===== *)
(** * Laws of the type store

    The theorems the checker relies on: [compatible] decides the subtype
    relation on every reachable store, whatever its memo holds; subtyping is
    transitive; a native tuple class makes tuples invariant; and [join]
    answers an upper bound, at the nearest common class. *)

From stdpp Require Import base numbers strings gmap list relations.
From S2P Require Import Prelude Types TypesStore TypesSub.

Section Laws.
Context (row_name_operations : string → option (list N)).

Abbreviation Sub := (Sub row_name_operations).
Abbreviation compatible := (compatible row_name_operations).
Abbreviation store_ok := (store_ok row_name_operations).
Abbreviation store_reachable := (store_reachable row_name_operations).

(** ** Transitivity *)

Lemma row_name_included_trans a b c :
  row_name_included row_name_operations a b = true → row_name_included row_name_operations b c = true →
  row_name_included row_name_operations a c = true.
Proof.
  unfold row_name_included. destruct (decide (a = b)) as [->|Hab]; [done|].
  destruct (decide (b = c)) as [->|Hbc]; [by destruct (decide (a = c))|].
  destruct (row_name_operations a) as [xs|], (row_name_operations b) as [ys|], (row_name_operations c) as [zs|]; try done.
  destruct (decide (a = c)); [done|].
  rewrite !andb_true_iff, !negb_true_iff, !bool_decide_eq_false, !List.forallb_forall.
  setoid_rewrite bool_decide_eq_true. setoid_rewrite <- list_elem_of_In. naive_solver.
Qed.

Lemma rows_included_trans s r1 r2 r3 :
  rows_included row_name_operations s r1 r2 → rows_included row_name_operations s r2 r3 →
  rows_included row_name_operations s r1 r3.
Proof.
  unfold rows_included. rewrite !list.Forall_forall. intros H1 H2 e He. specialize (H1 e He).
  destruct e as [n|v]; [|by apply (H2 (R_Var v))].
  destruct H1 as (m & name & name' & Hm & Hn & Hn' & Hi). destruct (H2 _ Hm) as (k & name1 & name2 & Hk & Hn1 & Hn2 & Hi2).
  simplify_eq. exists k, name, name2. split_and!; [done..|]. by eapply row_name_included_trans.
Qed.

Lemma muts_ok_trans l1 l2 l3 :
  length l1 = length l2 → length l2 = length l3 → muts_ok l1 l2 = true → muts_ok l2 l3 = true → muts_ok l1 l3 = true.
Proof.
  unfold muts_ok. intros H12. revert l3. revert l2 H12.
  induction l1 as [|b1 l1 IH]; intros [|b2 l2] H12 [|b3 l3] H23; simpl; try done.
  rewrite !andb_true_iff. intros [Ha Hb] [Hc Hd]. split; [by destruct b1, b2, b3|]. eapply (IH l2); simpl in *; eauto.
Qed.

Lemma Forall2_trans_in {A} (P : A → Prop) (R : A → A → Prop) xs ys zs :
  (∀ x y z, P x → P y → P z → R x y → R y z → R x z) →
  Forall P xs → Forall P ys → Forall P zs → Forall2 R xs ys → Forall2 R ys zs → Forall2 R xs zs.
Proof.
  intros HR Hxs Hys Hzs H. revert zs Hzs. induction H as [|x y xs ys Hxy H IH]; intros zs Hzs Hyz.
  - by inversion Hyz.
  - inversion Hyz; subst. inversion Hxs; inversion Hys; inversion Hzs; subst. constructor; eauto.
Qed.

(** Tuples of one length are both nominal or neither. *)
Lemma tuple_nominal s f e xs ys :
  ts_types s !! N.to_nat f = Some (T_Tuple xs) → ts_types s !! N.to_nat e = Some (T_Tuple ys) →
  length xs = length ys → is_Some (nominal s f) ↔ is_Some (nominal s e).
Proof.
  intros Hf He Hl. rewrite (nominal_eq _ _ _ Hf), (nominal_eq _ _ _ He), Hl.
  destruct (ts_native_tuples s !! length ys) as [[c|]|]; split; intros [? ?]; (done || by eexists).
Qed.

Lemma fn_type_ok s t kind ps ms r row : type_ok s t → fn_type t kind ps ms r row → length ms = length ps.
Proof. intros Hok Hfn. destruct Hfn; subst; by destruct Hok. Qed.

Lemma fn_type_children t kind ps ms r row : fn_type t kind ps ms r row → children t = ps ++ [r].
Proof. by destruct 1; subst. Qed.

Lemma fn_type_det t k1 k2 p1 p2 m1 m2 r1 r2 w1 w2 :
  fn_type t k1 p1 m1 r1 w1 → fn_type t k2 p2 m2 r2 w2 → k1 = k2 ∧ p1 = p2 ∧ m1 = m2 ∧ r1 = r2 ∧ w1 = w2.
Proof. destruct 1; destruct 1; subst; by simplify_eq. Qed.

(** Transitivity on the ids below a bound, for the induction. *)
Definition trans_below (s : TypeStore) (n : nat) : Prop :=
  ∀ a b c, below s n a → below s n b → below s n c → Sub s a b → Sub s b c → Sub s a c.

Lemma trans_nominal s a b c ca xa cb xb :
  store_shape s → b ≠ c → nominal s a = Some (ca, xa) → nominal s b = Some (cb, xb) →
  Inherits s (ca, xa) (cb, xb) → Sub s b c → Sub s a c.
Proof.
  intros Hs Nbc Hna Hnb Hi Hbc.
  destruct (decide (b = NEVER)) as [->|Nb]; [by rewrite (nominal_never s Hs) in Hnb|].
  inversion Hbc as [|?|? ? cb' xb' cc xc Hnb' Hnc Hi'|? ? ys zs Hnn Htb Htc Hyz
    |? ? tb tc kind ? ? ? ? ? ? ? ? Hnn Htb Htc Hkb]; subst; try done.
  - rewrite Hnb in Hnb'. simplify_eq. eapply Sub_class; [done..|]. unfold Inherits. by etrans.
  - exfalso. apply Hnn. assert (is_Some (nominal s b)) as Hb' by (by eexists). split; [done|].
    eapply (tuple_nominal s b c); [done..|by eapply Forall2_length|done].
  - by rewrite (nominal_fn s b tb kind _ _ _ _ Hs Htb Hkb) in Hnb.
Qed.

Lemma trans_tuple s n a b c xs ys :
  store_shape s → trans_below s n → b ≠ c → ¬ both_nominal s a b →
  ts_types s !! N.to_nat a = Some (T_Tuple xs) → ts_types s !! N.to_nat b = Some (T_Tuple ys) →
  (N.to_nat a < S n)%nat → (N.to_nat b < S n)%nat → (N.to_nat c < S n)%nat →
  Forall2 (Sub s) xs ys → Sub s b c → Sub s a c.
Proof.
  intros Hs IH Nbc Hnn Hta Htb Han Hbn Hcn Hxy Hbc. pose proof (Forall2_length _ _ _ Hxy) as Hlxy.
  assert (nominal s b = None) as Hbnone.
  { destruct (nominal s b) eqn:E; [|done]. exfalso. apply Hnn. split; [|by eexists].
    eapply (tuple_nominal s a b); [done..|by eexists]. }
  destruct (decide (b = NEVER)) as [->|Nb]; [by rewrite (never_at s Hs) in Htb|].
  inversion Hbc as [|?|? ? cb' xb' cc xc Hnb'|? ? ys' zs Hnn' Htb' Htc Hyz
    |? ? tb tc kind ? ? ? ? ? ? ? ? ? Htb' Htc Hkb]; subst; try done; try congruence.
  2: { rewrite Htb in Htb'. injection Htb' as <-. inversion Hkb; done. }
  rewrite Htb in Htb'. injection Htb' as <-. eapply Sub_tuple; [|done..|].
  - intros [Hsa Hsc]. destruct Hnn. split; [done|]. by eapply (tuple_nominal s a b).
  - apply (Forall2_trans_in (below s n) (Sub s) xs ys zs IH); try done.
    + exact (child_below s _ _ n (sh_table s Hs) Hta Han).
    + exact (child_below s _ _ n (sh_table s Hs) Htb Hbn).
    + exact (child_below s _ _ n (sh_table s Hs) Htc Hcn).
Qed.

(** The parts of a function type below a bound. *)
Lemma fn_parts_below s n id t kind ps ms r row :
  store_shape s → ts_types s !! N.to_nat id = Some t → fn_type t kind ps ms r row → (N.to_nat id < S n)%nat →
  Forall (below s n) ps ∧ below s n r ∧ length ms = length ps.
Proof.
  intros Hs Ht Hk Hn. pose proof (child_below s _ _ n (sh_table s Hs) Ht Hn) as C.
  rewrite (fn_type_children _ _ _ _ _ _ Hk) in C. apply Forall_app in C as [C C']. inversion C'; subst.
  split_and!; [done..|]. eapply fn_type_ok; [by eapply sh_types|done].
Qed.

Lemma trans_fn s n a b c ta tb kind fp fm fr frow ep em er erow :
  store_shape s → trans_below s n → b ≠ c →
  ts_types s !! N.to_nat a = Some ta → ts_types s !! N.to_nat b = Some tb →
  fn_type ta kind fp fm fr frow → fn_type tb kind ep em er erow →
  (N.to_nat a < S n)%nat → (N.to_nat b < S n)%nat → (N.to_nat c < S n)%nat →
  Forall2 (λ f e, Sub s e f) fp ep → muts_ok fm em = true → Sub s fr er →
  rows_included row_name_operations s frow erow → Sub s b c → Sub s a c.
Proof.
  intros Hs IH Nbc Hta Htb Hka Hkb Han Hbn Hcn Hp Hm Hr Hrow Hbc.
  pose proof (nominal_fn s b tb kind _ _ _ _ Hs Htb Hkb) as Hbnone.
  pose proof (nominal_fn s a ta kind _ _ _ _ Hs Hta Hka) as Hanone.
  destruct (decide (b = NEVER)) as [->|Nb].
  { rewrite (never_at s Hs) in Htb. injection Htb as <-. inversion Hkb; done. }
  inversion Hbc as [|?|? ? cb' xb' cc xc Hnb'|? ? ys' zs Hnn' Htb' Htc Hyz
    |? ? tb' tc kind' bp bm br brow cp cm cr crow Hnn' Htb' Htc Hkb' Hkc Hp' Hm' Hr' Hrow'];
    subst; try done; try congruence.
  { rewrite Htb in Htb'. injection Htb' as ->. inversion Hkb; discriminate. }
  rewrite Htb in Htb'. injection Htb' as <-.
  destruct (fn_type_det _ _ _ _ _ _ _ _ _ _ _ Hkb Hkb') as (<- & <- & <- & <- & <-).
  destruct (fn_parts_below s n a ta kind fp fm fr frow Hs Hta Hka Han) as (Ca & Ra & La).
  destruct (fn_parts_below s n b tb kind ep em er erow Hs Htb Hkb Hbn) as (Cb & Rb & Lb).
  destruct (fn_parts_below s n c tc kind cp cm cr crow Hs Htc Hkc Hcn) as (Cc & Rc & Lc).
  pose proof (Forall2_length _ _ _ Hp). pose proof (Forall2_length _ _ _ Hp').
  eapply (Sub_fn _ s a c ta tc kind); [|exact Hta|exact Htc|exact Hka|exact Hkc|..].
  - intros [[? ?] _]. congruence.
  - apply (Forall2_trans_in (below s n) (λ f e, Sub s e f) fp ep cp); try done.
    intros x y z Hx Hy Hz Hxy Hyz. by apply (IH z y x).
  - apply (muts_ok_trans fm em cm); (done || congruence).
  - by apply (IH fr er cr).
  - by eapply rows_included_trans.
Qed.

Lemma sub_trans s a b c :
  store_shape s → in_table s a → in_table s b → in_table s c → Sub s a b → Sub s b c → Sub s a c.
Proof.
  intros Hs Ha Hb Hc.
  enough (∀ n, trans_below s n) as H.
  { apply (H (S (N.to_nat a + N.to_nat b + N.to_nat c))); split; (done || lia). }
  clear a b c Ha Hb Hc. induction n as [|n IH]; intros a b c [Ha Han] [Hb Hbn] [Hc Hcn] Hab Hbc; [lia|].
  destruct (decide (b = c)) as [->|Nbc]; [done|].
  inversion Hab as [|?|? ? ca xa cb xb Hna Hnb Hi|? ? xs ys Hnn Hta Htb Hxy
    |? ? ta tb kind fp fm fr frow ep em er erow Hnn Hta Htb Hka Hkb Hp Hm Hr Hrow]; subst.
  - done.
  - constructor.
  - by eapply trans_nominal.
  - by eapply (trans_tuple s n a b c).
  - by eapply (trans_fn s n a b c ta tb).
Qed.

(** ** The properties of [compatible] *)

(** C7. On every store the checker can reach, [compatible] answers, and its
    answer is the subtype relation of the store's current classes, natives,
    types and row names, whatever earlier queries left in the memo and
    whatever was registered or linked since.  Only the memo changes. *)
Theorem compatible_decides s expected found :
  store_reachable s → in_table s expected → in_table s found →
  ∃ b memo, compatible s expected found = Ret (b, set_cache s memo) ∧ (b = true ↔ Sub s found expected) ∧
    store_reachable (set_cache s memo).
Proof.
  intros Hs He Hf.
  destruct (compatible_spec _ s expected found (store_reachable_ok _ s Hs) He Hf) as (b & memo & Hc & _ & Hb).
  exists b, memo. split_and!; [done..|]. eapply reach_step; [done|]. exact (step_compatible _ s expected found b _ He Hf Hc).
Qed.

(** Subtyping is a preorder on every reachable store: a value accepted at
    a type is accepted at every supertype of that type.  Tuples, functions
    with their contravariant parameters, [mut] markers and effect rows, and
    nominal types with native classes are all included. *)
Theorem compatible_transitive s a b c s1 s2 :
  store_reachable s → in_table s a → in_table s b → in_table s c →
  compatible s b a = Ret (true, s1) → compatible s c b = Ret (true, s2) →
  ∃ s3, compatible s c a = Ret (true, s3).
Proof.
  intros Hs Ha Hb Hc H1 H2. pose proof (store_reachable_ok _ s Hs) as Hok.
  destruct (compatible_spec _ s b a Hok Hb Ha) as (b1 & m1 & E1 & _ & S1).
  destruct (compatible_spec _ s c b Hok Hc Hb) as (b2 & m2 & E2 & _ & S2).
  destruct (compatible_spec _ s c a Hok Hc Ha) as (b3 & m3 & E3 & _ & S3).
  rewrite H1 in E1. rewrite H2 in E2. injection E1 as <- _. injection E2 as <- _.
  assert (b3 = true) as ->.
  { apply S3. eapply (sub_trans s a b c); try done; [by apply so_shape in Hok|by apply S1|by apply S2]. }
  by eexists.
Qed.

(** Once a native class is registered for a tuple arity, tuples of that
    arity are invariant: [compatible] accepts one where another is expected
    only when they are the same type, although [compatible] documents tuples
    as covariant element by element. *)
Theorem native_tuples_invariant s found expected xs ys class :
  store_reachable s →
  ts_types s !! N.to_nat found = Some (T_Tuple xs) → ts_types s !! N.to_nat expected = Some (T_Tuple ys) →
  length xs = length ys → ts_native_tuples s !! length ys = Some (Some class) →
  ∃ b memo, compatible s expected found = Ret (b, set_cache s memo) ∧ (b = true ↔ found = expected).
Proof.
  intros Hs Hf He Hl Hn. pose proof (store_reachable_ok _ s Hs) as Hok. pose proof (so_shape _ s Hok) as Hsh.
  assert (in_table s found) as Hfi by (by eapply lookup_lt_Some).
  assert (in_table s expected) as Hei by (by eapply lookup_lt_Some).
  destruct (compatible_spec _ s expected found Hok Hei Hfi) as (b & memo & Hc & _ & Hb).
  exists b, memo. split; [done|]. rewrite Hb. split; [|intros ->; constructor]. intros Hsub.
  destruct (decide (found = expected)) as [|Hne]; [done|exfalso].
  assert (nominal s found = Some (class, xs)) as Nf by (by rewrite (nominal_eq _ _ _ Hf), Hl, Hn).
  assert (nominal s expected = Some (class, ys)) as Ne by (by rewrite (nominal_eq _ _ _ He), Hn).
  assert (found ≠ NEVER) as Hnv by (intros ->; by rewrite (never_at s Hsh) in Hf).
  apply (sub_nominal _ s _ _ _ _ _ _ Hne Hnv Nf Ne) in Hsub.
  assert (xs = ys) as -> by (eapply inherits_unique; [by apply sh_classes|apply rtc_refl|exact Hsub]).
  apply Hne. apply (tab_index s (sh_table s Hsh)) in Hf, He. congruence.
Qed.
End Laws.

(** ** A store with a class hierarchy and two tuples *)

Module Demo.
Definition no_operations : string → option (list N) := λ _, None.
Definition interned (s : TypeStore) (t : Ty) : TypeStore := match intern s t with Ret (_, s) => s | _ => s end.
Definition registered (s : TypeStore) (name : string) (n : N) : TypeStore := (register_class s name n ClassNormal).2.
Definition parented (s : TypeStore) (c p : ClassId) : TypeStore :=
  match set_class_parent s c p with Ret s => s | _ => s end.
(** Classes [Animal], [Dog < Animal], [Tuple2]. *)
Definition classes : TypeStore :=
  parented (registered (registered (registered TypesStore.Demo.base "Animal" 0) "Dog" 0) "Tuple2" 2) 1 0.
(** Types 16 to 19: [Animal], [Dog], [(Animal, Int)] and [(Dog, Int)]. *)
Definition tuples : TypeStore :=
  interned (interned (interned (interned classes (T_Class 0)) (T_Class 1)) (T_Tuple [16; INT]%N)) (T_Tuple [17; INT]%N).
Definition native : TypeStore := set_native_tuple_class tuples 2 2.
End Demo.

Section Demo_reachable.
Abbreviation reachable := (store_reachable Demo.no_operations).

Lemma reach_intern s t :
  reachable s → forallb (λ c, (c <? lenN (ts_types s))%N) (children t) = true → type_ok s t → room s →
  reachable (Demo.interned s t).
Proof.
  intros Hs Hch Hty Hr. apply forallb_in_table in Hch.
  destruct (intern_store_ok _ s t (store_reachable_ok _ s Hs) Hch Hty Hr) as (id & s' & Hi & _).
  unfold Demo.interned. rewrite Hi. eapply reach_step; [done|]. by eapply step_intern.
Qed.

Lemma demo_classes_reachable : reachable Demo.classes.
Proof.
  assert (reachable TypesStore.Demo.base) as H0.
  { apply reach_new. unfold TypesStore.Demo.base. by destruct new_store as (s & -> & _). }
  set (s := Demo.registered (Demo.registered (Demo.registered TypesStore.Demo.base "Animal" 0) "Dog" 0) "Tuple2" 2).
  assert (reachable s) as Hs.
  { unfold s, Demo.registered. do 3 (eapply reach_step; [|apply step_register]). done. }
  eapply reach_step; [exact Hs|]. apply (step_parent _ s 1 0 []); [constructor|vm_compute; reflexivity|].
  exists (λ c, if decide (c = 1%N) then 1%nat else 0%nat). split.
  - intros c _. change (length (ts_classes Demo.classes)) with 3%nat. case_decide; lia.
  - intros c m p Hm Hp.
    assert (N.to_nat c < 3)%nat as Hc by (by apply lookup_lt_Some in Hm).
    assert (c = 0%N ∨ c = 1%N ∨ c = 2%N) as [->|[->| ->]] by lia; vm_compute in Hm; injection Hm as <-; try done.
    injection Hp as <-. split; [unfold class_in; vm_compute; lia|]. simpl. lia.
Qed.

Lemma demo_tuples_reachable : reachable Demo.tuples.
Proof.
  unfold Demo.tuples. repeat apply reach_intern; try apply demo_classes_reachable;
    try (vm_compute; reflexivity); try (vm_compute; congruence); try exact I; unfold type_ok, class_in; vm_compute; lia.
Qed.

Lemma demo_native_reachable : reachable Demo.native.
Proof.
  eapply reach_step; [apply demo_tuples_reachable|]. apply step_native_tuple. unfold class_in. vm_compute. lia.
Qed.
End Demo_reachable.

Lemma compatible_decides_witness :
  ∃ b memo, compatible Demo.no_operations Demo.tuples 18 19 = Ret (b, set_cache Demo.tuples memo) ∧
    (b = true ↔ Sub Demo.no_operations Demo.tuples 19 18).
Proof.
  destruct (compatible_decides Demo.no_operations Demo.tuples 18 19 demo_tuples_reachable) as (b & memo & H1 & H2 & _);
    [unfold in_table; vm_compute; lia..|]. exists b, memo. split; [exact H1|exact H2].
Defined.

Lemma compatible_transitive_witness :
  ∃ s, compatible Demo.no_operations Demo.tuples 18 NEVER = Ret (true, s).
Proof.
  eapply (compatible_transitive Demo.no_operations Demo.tuples NEVER 19 18 _ _ demo_tuples_reachable);
    [unfold in_table; vm_compute; lia..|vm_compute; reflexivity|vm_compute; reflexivity].
Defined.

Lemma native_tuples_invariant_witness :
  ∃ b memo, compatible Demo.no_operations Demo.native 18 19 = Ret (b, set_cache Demo.native memo) ∧
    (b = true ↔ 19%N = 18%N).
Proof.
  apply (native_tuples_invariant Demo.no_operations Demo.native 19 18 [17; INT]%N [16; INT]%N 2);
    [apply demo_native_reachable|vm_compute; reflexivity..].
Defined.
