(* ===== verification/TypesJoin.v ===== *)
(** * Joins of the type store

    [join] of lm-types/src/lib.rs answers the type two branches share.  The
    theorem: on every reachable store it answers without a panic, and a type
    it answers is the least upper bound of its arguments.  The store it leaves
    is reachable and agrees with the old one. *)

From stdpp Require Import base numbers strings gmap list relations.
From S2P Require Import Prelude Types TypesStore TypesSub TypesLaws.

(** ** Stores that agree, and applied classes *)

Lemma agrees_trans s1 s2 s3 : agrees s1 s2 → agrees s2 s3 → agrees s1 s3.
Proof.
  intros [T1 C1 R1 (N1 & N2 & N3 & N4)] [T2 C2 R2 (M1 & M2 & M3 & M4)].
  split; [by etrans| |by etrans|split_and!; congruence].
  intros c m (m' & Hm' & P1 & P2 & P3)%C1. apply C2 in Hm' as (m'' & ? & ? & ? & ?).
  exists m''. split_and!; congruence.
Qed.

Lemma agrees_in_table s s' id : agrees s s' → in_table s id → in_table s' id.
Proof. intros Ha Hi. unfold in_table in *. pose proof (prefix_length _ _ (ag_types _ _ Ha)). lia. Qed.

Lemma agrees_lookup s s' i t : agrees s s' → ts_types s !! i = Some t → ts_types s' !! i = Some t.
Proof. intros Ha Hi. by eapply prefix_lookup_Some, ag_types. Qed.

(** The arguments of a nominal type are parts of it. *)
Lemma nominal_args_in s id c xs :
  store_shape s → nominal s id = Some (c, xs) → Forall (in_table s) xs.
Proof.
  intros Hs H. pose proof (nominal_in_table _ _ _ _ H) as Hin.
  destruct (lookup_lt_is_Some_2 _ _ Hin) as [t Ht].
  pose proof (child_below s _ _ (N.to_nat id) (sh_table s Hs) Ht ltac:(lia)) as Hch.
  rewrite (nominal_eq _ _ _ Ht) in H.
  assert (Forall (in_table s) (children t)) as Hc by (eapply Forall_impl; [exact Hch|by intros ? []]).
  destruct t; simpl in *;
    repeat match goal with
    | H : _ <$> _ = Some _ |- _ => apply fmap_Some in H as (? & ? & ?)
    | H : match ?x with _ => _ end = Some _ |- _ => destruct x eqn:?
    end; simplify_eq; try done; by constructor.
Qed.

Lemma inherits_args_in s x y :
  store_shape s → Inherits s x y → Forall (in_table s) x.2 → Forall (in_table s) y.2.
Proof.
  intros Hs Hi. induction Hi as [|x y z Hxy _ IH]; [done|]. intros Hx. apply IH. clear IH.
  destruct Hxy as (m & p & Hm & _ & _ & ->).
  case_decide; [case_match; [constructor|done]|by eapply sh_parent_args].
Qed.

(** The arguments along a chain of classes do not depend on the way. *)
Lemma inherits_between s x c us d zs :
  classes_ok s → class_in s c → Inherits s x (c, us) → Inherits s x (d, zs) → Extends s c d →
  Inherits s (c, us) (d, zs).
Proof.
  intros Hc Hin Hxc Hxd Hcd. destruct (extends_inherits s c us d Hc Hin Hcd) as [zs' H].
  assert (zs' = zs) as <-; [|done]. eapply inherits_unique; [done| |exact Hxd]. by apply (rtc_trans x (c, us)).
Qed.

Lemma extends_antisym s c d : classes_ok s → class_in s c → Extends s c d → Extends s d c → c = d.
Proof.
  intros Hcl Hc Hcd Hdc. pose proof (extends_in s c d Hcl Hc Hcd) as Hd.
  destruct (extends_inherits s c [] d Hcl Hc Hcd) as [us Hu].
  destruct (extends_inherits s d us c Hcl Hd Hdc) as [vs Hv]. destruct Hcl as [rank Hr].
  destruct (inherits_rank s rank _ _ Hr Hu) as [[= ->]|H1]; [done|].
  destruct (inherits_rank s rank _ _ Hr Hv) as [[= -> _]|H2]; [done|]. simpl in *. lia.
Qed.

(** ** Building types in a reachable store *)

(** Iteration over the map of native classes lists its entries. *)
Definition iterates (native_order : gmap TypeId ClassId → list (TypeId * ClassId)) : Prop :=
  ∀ m k c, (k, c) ∈ native_order m ↔ m !! k = Some c.

Section Join.
Context (row_name_operations : string → option (list N)).
Context (native_order : gmap TypeId ClassId → list (TypeId * ClassId)).

Abbreviation Sub := (Sub row_name_operations).
Abbreviation store_reachable := (store_reachable row_name_operations).
Abbreviation join := (join row_name_operations native_order).

(** [s'] is a later store with at most [n] more types. *)
Record later (s s' : TypeStore) (n : N) : Prop := {
  lt_reachable : store_reachable s';
  lt_agrees : agrees s s';
  lt_size : (lenN (ts_types s') <= lenN (ts_types s) + n)%N;
}.

Lemma later_refl s n : store_reachable s → later s s n.
Proof. intros. split; [done|by apply agrees_grows, table_grows_refl|lia]. Qed.

Lemma later_trans s1 s2 s3 n m : later s1 s2 n → later s2 s3 m → later s1 s3 (n + m).
Proof. intros [? A1 L1] [R2 A2 L2]. split; [done|by eapply agrees_trans|lia]. Qed.

Lemma later_weaken s s' n m : later s s' n → (n <= m)%N → later s s' m.
Proof. intros [? ? ?] ?. split; [done..|lia]. Qed.

Lemma reachable_shape s : store_reachable s → store_shape s.
Proof. intros H. eapply so_shape, store_reachable_ok, H. Qed.

Lemma intern_later s t :
  store_reachable s → Forall (in_table s) (children t) → type_ok s t → room s →
  ∃ id s', intern s t = Ret (id, s') ∧ later s s' 1 ∧ ts_types s' !! N.to_nat id = Some t.
Proof.
  intros Hs Hch Hty Hroom.
  destruct (intern_store_ok _ s t (store_reachable_ok _ s Hs) Hch Hty Hroom)
    as (id & s' & Hi & _ & Ht & Hg & Hsize).
  exists id, s'. split_and!; [done| |done]. split.
  - eapply reach_step; [done|]. by eapply step_intern.
  - by apply agrees_grows.
  - unfold lenN. destruct Hsize as [->| ->]; [lia|]. rewrite length_app. simpl. lia.
Qed.

Lemma compatible_later s e f :
  store_reachable s → in_table s e → in_table s f →
  ∃ b s', compatible row_name_operations s e f = Ret (b, s') ∧ later s s' 0 ∧
    ts_types s' = ts_types s ∧ (b = true ↔ Sub s f e).
Proof.
  intros Hs He Hf.
  destruct (compatible_spec _ s e f (store_reachable_ok _ s Hs) He Hf) as (b & memo & Hc & _ & Hb).
  exists b, (set_cache s memo). split_and!; [done| |done..]. split.
  - eapply reach_step; [done|]. exact (step_compatible _ s e f b _ He Hf Hc).
  - apply agrees_refl_memo.
  - simpl. lia.
Qed.

(** [Sub] between old types is the same in a later store. *)
Lemma later_sub s s' n f e :
  store_reachable s → later s s' n → in_table s f → in_table s e → Sub s f e ↔ Sub s' f e.
Proof. intros Hs Hl. apply sub_agrees; [by apply reachable_shape|by eapply lt_agrees]. Qed.

Lemma later_in s s' n id : later s s' n → in_table s id → in_table s' id.
Proof. intros Hl. by eapply agrees_in_table, lt_agrees. Qed.

(** *** The nominal type of an applied class *)

Lemma native_structure_spec s class args t :
  native_structure s class args = Some t →
  children t = args ∧ (∀ s', type_ok s' t) ∧
  ∀ s' id, ts_types s' !! N.to_nat id = Some t → ts_native_list s' = ts_native_list s →
    ts_native_map s' = ts_native_map s → ts_native_tuples s' = ts_native_tuples s →
    nominal s' id = Some (class, args).
Proof.
  assert (Htuple : ∀ arity, tuple_arity s class = Some arity →
            ts_native_tuples s !! arity = Some (Some class)).
  { unfold tuple_arity. intros arity ([i c] & Hf & ->)%fmap_Some.
    by apply list_find_Some in Hf as (? & -> & _). }
  intros H. unfold native_structure in H.
  repeat match goal with
  | H : context [match ?x with _ => _ end] |- _ =>
      match x with
      | tuple_arity _ _ => destruct x eqn:?
      | _ => destruct x
      end
  end; simplify_eq; (split; [done|split; [done|]]); intros s' id Hid El Em Et;
    rewrite (nominal_eq _ _ _ Hid), ?El, ?Em, ?Et; simpl;
    try match goal with H : ts_native_list _ = _ |- _ => by rewrite H end;
    try match goal with H : ts_native_map _ = _ |- _ => by rewrite H end.
  all: by erewrite Htuple.
Qed.

Context (Horder : iterates native_order).

Lemma type_for_nominal_later s class args :
  store_reachable s → room s → class_in s class → Forall (in_table s) args →
  ∃ id s', type_for_nominal native_order s class args = Ret (id, s') ∧ later s s' 1 ∧
    nominal s' id = Some (class, args).
Proof.
  intros Hs Hr Hc Ha. pose proof (reachable_shape s Hs) as Hsh. unfold type_for_nominal.
  assert (Hnew : ∀ t, children t = args → type_ok s t →
            (∀ s' id, later s s' 1 → ts_types s' !! N.to_nat id = Some t → nominal s' id = Some (class, args)) →
            ∃ id s', intern s t = Ret (id, s') ∧ later s s' 1 ∧ nominal s' id = Some (class, args)).
  { intros t Hch Hty Hn. destruct (intern_later s t Hs) as (id & s' & Hi & Hl & Ht); [by rewrite Hch|done..|].
    exists id, s'. split_and!; [done..|]. by apply Hn. }
  destruct (native_structure s class args) as [t|] eqn:Hn.
  - apply native_structure_spec in Hn as (Hch & Hty & Hnom). apply Hnew; [done..|].
    intros s' id [_ Hag _] Ht. destruct (ag_native _ _ Hag) as (_ & ? & ? & ?). by apply Hnom.
  - destruct args as [|x args].
    + destruct (list_find _ _) as [[i [ty c]]|] eqn:Hf.
      * apply list_find_Some in Hf as (Hi & <- & _). simpl.
        apply list_elem_of_lookup_2, Horder in Hi as Hin.
        destruct (sh_native s Hsh ty c Hin) as (Hlt & _ & _).
        exists ty, s. split_and!; [done|by apply later_refl|].
        destruct (lookup_lt_is_Some_2 (ts_types s) (N.to_nat ty)) as [t Ht].
        { pose proof (prefix_length _ _ (sh_primitive s Hsh)) as Hp.
          change (length primitive_types) with 16 in Hp. lia. }
        rewrite (nominal_eq _ _ _ Ht). pose proof (primitive_at s ty t Hsh Hlt Ht) as Hprim.
        assert (Forall (λ t, match t with
                  | T_Class _ | T_Inst _ _ | T_List _ | T_Map _ _ | T_Tuple _ => False
                  | _ => True end) primitive_types) as HF by repeat constructor.
        apply (proj1 (list.Forall_forall _ _) HF) in Hprim. destruct t; try done; by rewrite Hin.
      * apply Hnew; [done..|]. intros s' id _ Ht. by rewrite (nominal_eq _ _ _ Ht).
    + apply Hnew; [done..|]. intros s' id _ Ht. by rewrite (nominal_eq _ _ _ Ht).
Qed.

(** The pairs that [join] answers: one is a subtype of the other, or their
    classes meet in a class that every common ancestor is an ancestor of, or
    they are tuples without a native class whose elements join. *)
Definition meet (s : TypeStore) (x y : ClassId * list TypeId) (z : ClassId * list TypeId) : Prop :=
  Inherits s x z ∧ Inherits s y z ∧
  ∀ d zs zs', Inherits s x (d, zs) → Inherits s y (d, zs') → Inherits s z (d, zs).

Inductive Joinable (s : TypeStore) (a b : TypeId) : Prop :=
| J_left : Sub s a b → Joinable s a b
| J_right : Sub s b a → Joinable s a b
| J_nominal x y z : nominal s a = Some x → nominal s b = Some y → meet s x y z → Joinable s a b
| J_tuple xs ys :
    ¬ both_nominal s a b →
    ts_types s !! N.to_nat a = Some (T_Tuple xs) → ts_types s !! N.to_nat b = Some (T_Tuple ys) →
    Forall2 (Joinable s) xs ys → Joinable s a b.

(** What [join] promises: it answers for the joinable pairs, and its answer is
    the least upper bound of [a] and [b]. *)
Definition least (s s' : TypeStore) (a b : TypeId) (o : option TypeId) : Prop :=
  (is_Some o ↔ Joinable s a b) ∧
  match o with
  | None => True
  | Some c => in_table s' c ∧ Sub s' a c ∧ Sub s' b c ∧
      ∀ d, in_table s d → Sub s a d → Sub s b d → Sub s' c d
  end.

(** A supertype of a nominal type is nominal, unless it is the type itself. *)
Lemma sub_of_nominal s a d ca xs :
  store_shape s → nominal s a = Some (ca, xs) → Sub s a d →
  a = d ∨ a = NEVER ∨ ∃ cd zs, nominal s d = Some (cd, zs) ∧ Inherits s (ca, xs) (cd, zs).
Proof.
  intros Hs Hn H.
  inversion H as [|?|? ? ca' xa cd zs Hna Hnd Hi|? ? ys zs Hnn Hta Htd Hyz
    |? ? ta td kind fp fm fr frow ep em er erow Hnn Hta Htd Hka Hkd Hp Hm Hr Hrow]; subst; auto.
  - right. right. rewrite Hn in Hna. simplify_eq. by exists cd, zs.
  - exfalso. apply Hnn. split; [by eexists|].
    rewrite (nominal_eq _ _ _ Hta) in Hn. rewrite (nominal_eq _ _ _ Htd).
    apply Forall2_length in Hyz. rewrite <-Hyz. by repeat case_match.
  - exfalso. by rewrite (nominal_fn s a ta kind fp fm fr frow Hs Hta Hka) in Hn.
Qed.

Lemma meet_agrees s s' x y z :
  store_shape s → agrees s s' → class_in s x.1 → class_in s y.1 → meet s x y z → meet s' x y z.
Proof.
  intros Hs Ha Hx Hy (H1 & H2 & H3). pose proof (sh_classes s Hs) as Hcl.
  split_and!; [by apply (inherits_agrees s)..|]. intros d zs zs' Hd Hd'.
  apply (inherits_agrees s s'); [done..| |].
  - apply (extends_in s x.1); [done..|]. by apply inherits_extends.
  - apply (H3 d zs zs'); by apply (inherits_agrees s s').
Qed.

Lemma meet_agrees_inv s s' x y z :
  store_shape s → agrees s s' → class_in s x.1 → class_in s y.1 → meet s' x y z → meet s x y z.
Proof.
  intros Hs Ha Hx Hy (H1 & H2 & H3). pose proof (sh_classes s Hs) as Hcl.
  assert (Hxz : Inherits s x z) by (by apply (inherits_agrees s s')).
  split_and!; [done|by apply (inherits_agrees s s')|]. intros d zs zs' Hd Hd'.
  apply (inherits_agrees s s'); [done..| |].
  - apply (extends_in s x.1); [done..|]. by apply inherits_extends.
  - apply (H3 d zs zs'); by apply (inherits_agrees s s').
Qed.

(** Pairs of old types stay joinable, and no more become so. *)
Lemma joinable_agrees s s' a b :
  store_shape s → agrees s s' → in_table s a → in_table s b → Joinable s a b ↔ Joinable s' a b.
Proof.
  intros Hs Hag Ha Hb.
  enough (∀ n a b, below s n a → below s n b → Joinable s a b ↔ Joinable s' a b) as H.
  { apply (H (S (max (N.to_nat a) (N.to_nat b)))); split; (done || lia). }
  clear a b Ha Hb. induction n as [|n IH]; intros a b [Ha Han] [Hb Hbn]; [lia|].
  pose proof (nominal_agrees s s' a Hag Ha) as Na. pose proof (nominal_agrees s s' b Hag Hb) as Nb.
  assert (Hin : ∀ id x, nominal s id = Some x → class_in s x.1).
  { intros id [c xs] H. by eapply nominal_class_in. }
  assert (Htup : ∀ id xs, below s (S n) id → ts_types s !! N.to_nat id = Some (T_Tuple xs) → Forall (below s n) xs).
  { intros id xs [_ Hid] Ht. apply (child_below s _ _ n (sh_table s Hs) Ht Hid). }
  assert (Hback : ∀ id xs, in_table s id → ts_types s' !! N.to_nat id = Some (T_Tuple xs) →
            ts_types s !! N.to_nat id = Some (T_Tuple xs)).
  { intros id xs [t Ht]%lookup_lt_is_Some_2 Ht'. rewrite (agrees_lookup s s' _ t Hag Ht) in Ht'. by simplify_eq. }
  split; intros [H|H|x y z Hx Hy Hm|xs ys Hnn Hta Htb HF].
  - by apply J_left, (sub_agrees _ s).
  - by apply J_right, (sub_agrees _ s).
  - eapply J_nominal; [by rewrite Na|by rewrite Nb|]. apply (meet_agrees s); eauto.
  - eapply J_tuple; [unfold both_nominal; by rewrite Na, Nb|by eapply agrees_lookup..|].
    apply (Forall2_iff_in (below s n) (Joinable s)); [by apply (Htup a xs)|by apply (Htup b ys)|done|done].
  - apply J_left. by apply (sub_agrees _ s s').
  - apply J_right. by apply (sub_agrees _ s s').
  - rewrite Na in Hx. rewrite Nb in Hy. eapply J_nominal; [done..|]. apply (meet_agrees_inv s s'); eauto.
  - apply Hback in Hta, Htb; [|done..].
    eapply J_tuple; [unfold both_nominal; by rewrite <-Na, <-Nb|done..|].
    apply (Forall2_iff_in (below s n) _ (Joinable s')); [by apply (Htup a xs)|by apply (Htup b ys)|done|done].
Qed.

(** A meeting point is the nearest common ancestor, with the same arguments
    from both sides. *)
Lemma meet_nearest s x y z o :
  classes_ok s → class_in s x.1 → class_in s y.1 → nearest s x.1 y.1 o → meet s x y z →
  o = Some z.1 ∧ ∃ us, Inherits s x (z.1, us) ∧ Inherits s y (z.1, us).
Proof.
  intros Hcl Hx Hy Hn (H1 & H2 & H3). destruct z as [c us]. split; [|by exists us].
  pose proof (inherits_extends s _ _ H1) as E1. pose proof (inherits_extends s _ _ H2) as E2.
  destruct o as [c'|]; [|by destruct (Hn c)]. destruct Hn as (Hxc & Hyc & Hmin).
  destruct x as [cx xs], y as [cy ys]. simpl in *.
  destruct (extends_inherits s cx xs c' Hcl Hx Hxc) as [zs Hzs].
  destruct (extends_inherits s cy ys c' Hcl Hy Hyc) as [zs' Hzs'].
  pose proof (inherits_extends s _ _ (H3 _ _ _ Hzs Hzs')) as Hcc. simpl in Hcc.
  f_equal. apply (extends_antisym s c' c Hcl); [by apply (extends_in s cx)|by apply Hmin|done].
Qed.

Lemma join_nominal_least s a b ca xs cb ys :
  store_reachable s → room s → nominal s a = Some (ca, xs) → nominal s b = Some (cb, ys) →
  ¬ Sub s a b → ¬ Sub s b a →
  ∃ o s', join_nominal (type_for_nominal native_order) s ca xs cb ys = Ret (o, s') ∧
    later s s' 1 ∧ least s s' a b o.
Proof.
  intros Hs Hroom Ha Hb Hab Hba. pose proof (reachable_shape s Hs) as Hsh.
  pose proof (sh_classes s Hsh) as Hcl.
  pose proof (nominal_class_in s a _ _ Hsh Ha) as Hca. pose proof (nominal_class_in s b _ _ Hsh Hb) as Hcb.
  assert (Hnone : (∀ z, ¬ meet s (ca, xs) (cb, ys) z) →
            ∃ o s', Ret (None (A := TypeId), s) = Ret (o, s') ∧ later s s' 1 ∧ least s s' a b o).
  { intros Hz. exists None, s. split_and!; [done|by apply later_refl|]. split; [|done].
    split; [by intros [? ?]|]. intros [H|H|x y z Hx Hy Hm|? ? Hnn]; [done..| |].
    - rewrite Ha in Hx. rewrite Hb in Hy. simplify_eq. by destruct (Hz z).
    - destruct Hnn. split; by eexists. }
  unfold join_nominal.
  destruct (common_ancestor_spec s ca cb Hcl Hca Hcb) as (common & Ec & Hnear). rewrite Ec. simpl.
  assert (Hz : ∀ z, meet s (ca, xs) (cb, ys) z → ∃ c us, common = Some c ∧
            Inherits s (ca, xs) (c, us) ∧ Inherits s (cb, ys) (c, us)).
  { intros z Hm. destruct (meet_nearest s (ca, xs) (cb, ys) z common Hcl Hca Hcb Hnear Hm) as (-> & us & ? & ?). eauto. }
  destruct common as [c|]; [|apply Hnone; by intros z (? & ? & ? & _)%Hz].
  destruct (ancestor_args_spec s ca xs c Hcl Hca) as (oa & Ea & Hoa). rewrite Ea. simpl.
  destruct oa as [us|]; [|apply Hnone; by intros z (? & us & [= <-] & ?%Hoa & _)%Hz].
  destruct (ancestor_args_spec s cb ys c Hcl Hcb) as (ob & Eb & Hob). rewrite Eb. simpl.
  destruct ob as [vs|]; [|apply Hnone; by intros z (? & vs & [= <-] & _ & ?%Hob)%Hz].
  case_decide as Huv; [subst vs|apply Hnone; intros z (? & ws & [= <-] & H1%Hoa & H2%Hob)%Hz; congruence].
  destruct Hnear as (Hac & Hbc & Hmin).
  pose proof (proj1 (Hoa us) eq_refl) as Hia. pose proof (proj1 (Hob us) eq_refl) as Hib.
  pose proof (extends_in s ca c Hcl Hca Hac) as Hcin.
  assert (Hus : Forall (in_table s) us).
  { apply (inherits_args_in s (ca, xs) (c, us) Hsh Hia). by eapply nominal_args_in. }
  destruct (type_for_nominal_later s c us Hs Hroom Hcin Hus) as (id & s' & Et & Hl & Hnid).
  rewrite Et. simpl. exists (Some id), s'. split_and!; [done..|].
  pose proof (lt_agrees _ _ _ Hl) as Hag.
  assert (Hm : meet s (ca, xs) (cb, ys) (c, us)).
  { split_and!; [done..|]. intros d zs zs' Hd Hd'. apply (inherits_between s (ca, xs)); [done..|].
    apply Hmin; [apply (inherits_extends s _ _ Hd)|apply (inherits_extends s _ _ Hd')]. }
  split; [split; [intros _; by eapply J_nominal|by eexists]|].
  assert (Hup : ∀ x cx zx, nominal s x = Some (cx, zx) → Inherits s (cx, zx) (c, us) → Sub s' x id).
  { intros x cx zx Hx Hi. eapply Sub_class; [|exact Hnid|].
    - rewrite (nominal_agrees s s' x Hag) by (by eapply nominal_in_table). exact Hx.
    - apply (inherits_agrees s s' (cx, zx) (c, us)); [done..| |done]. by eapply nominal_class_in. }
  split_and!; [by eapply nominal_in_table|by eapply Hup|by eapply Hup|].
  intros d Hd Had Hbd.
  destruct (sub_of_nominal s a d ca xs Hsh Ha Had) as [->|[->|(cd & zs & Hnd & Hid)]];
    [done|by destruct Hab; constructor|].
  destruct (sub_of_nominal s b d cb ys Hsh Hb Hbd) as [->|[->|(cd' & zs' & Hnd' & Hid')]];
    [done|by destruct Hba; constructor|].
  rewrite Hnd in Hnd'. simplify_eq.
  eapply Sub_class; [exact Hnid| |].
  - rewrite (nominal_agrees s s' d Hag Hd). exact Hnd.
  - apply (inherits_agrees s s'); [done..|]. by apply (proj2 (proj2 Hm) _ _ zs').
Qed.

(** *** The recursion over tuples *)

(** One unit per tuple of the type, as a tree: what [join] may add. *)
Fixpoint tuple_nodes (fuel : nat) (s : TypeStore) (a : TypeId) : N :=
  match fuel with
  | O => 1
  | S fuel =>
      match ts_types s !! N.to_nat a with
      | Some (T_Tuple xs) => 1 + sumN (tuple_nodes fuel s) xs
      | _ => 1
      end
  end.

Lemma sumN_ext {A} (f g : A → N) l : (∀ x, x ∈ l → f x = g x) → sumN f l = sumN g l.
Proof.
  induction l as [|x l IH]; intros E; simpl; [done|].
  rewrite (E x) by (by left). f_equal. apply IH. intros y Hy. apply E. by right.
Qed.

Lemma tuple_nodes_agrees fuel s s' a :
  table_ok s → agrees s s' → in_table s a → tuple_nodes fuel s' a = tuple_nodes fuel s a.
Proof.
  intros Hok Hag. revert a. induction fuel as [|fuel IH]; intros a Ha; [done|]. simpl.
  destruct (lookup_lt_is_Some_2 _ _ Ha) as [t Ht]. rewrite (agrees_lookup s s' _ t Hag Ht), Ht.
  destruct t; try done. f_equal. apply sumN_ext. intros x Hx. apply IH.
  pose proof (child_below s _ _ (N.to_nat a) Hok Ht ltac:(lia)) as Hch.
  by apply (proj1 (list.Forall_forall _ _) Hch x) in Hx as [? _].
Qed.

Definition joins (fuel : nat) : Prop := ∀ s a b,
  store_reachable s → in_table s a → in_table s b → (N.to_nat a < fuel)%nat →
  (lenN (ts_types s) + tuple_nodes fuel s a <= U32_MAX)%N →
  ∃ o s', join fuel s a b = Ret (o, s') ∧ later s s' (tuple_nodes fuel s a) ∧ least s s' a b o.

Definition least_all (s s' : TypeStore) (xs ys : list TypeId) (o : option (list TypeId)) : Prop :=
  (is_Some o ↔ Forall2 (Joinable s) xs ys) ∧
  match o with
  | None => True
  | Some ts => Forall (in_table s') ts ∧ Forall2 (Sub s') xs ts ∧ Forall2 (Sub s') ys ts ∧
      ∀ ds, Forall (in_table s) ds → Forall2 (Sub s) xs ds → Forall2 (Sub s) ys ds → Forall2 (Sub s') ts ds
  end.

Lemma later_sub_all s s' n xs ys :
  store_reachable s → later s s' n → Forall (in_table s) xs → Forall (in_table s) ys →
  Forall2 (Sub s) xs ys ↔ Forall2 (Sub s') xs ys.
Proof.
  intros Hs Hl Hx Hy. apply (Forall2_iff_in (in_table s)); [done..|].
  intros x y ? ?. by apply (later_sub s s' n).
Qed.

Lemma joinable_all_agrees s s' xs ys :
  store_shape s → agrees s s' → Forall (in_table s) xs → Forall (in_table s) ys →
  Forall2 (Joinable s) xs ys ↔ Forall2 (Joinable s') xs ys.
Proof.
  intros Hs Ha Hx Hy. apply (Forall2_iff_in (in_table s)); [done..|].
  intros x y ? ?. by apply joinable_agrees.
Qed.

Lemma join_pairs_least fuel : joins fuel → ∀ xs ys s,
  store_reachable s → length xs = length ys → Forall (below s fuel) xs → Forall (in_table s) ys →
  (lenN (ts_types s) + sumN (tuple_nodes fuel s) xs <= U32_MAX)%N →
  ∃ o s', join_pairs (join fuel) s xs ys = Ret (o, s') ∧
    later s s' (sumN (tuple_nodes fuel s) xs) ∧ least_all s s' xs ys o.
Proof.
  intros IH xs. induction xs as [|x xs IHxs]; intros [|y ys] s Hs Hlen Hxs Hys Hroom; try done.
  { exists (Some []), s. split_and!; [done|by apply later_refl|]. split; [by split|]. split_and!; [constructor..|].
    intros ds _ H _. by inversion H. }
  apply Forall_cons in Hxs as [[Hx Hxf] Hxs]. apply Forall_cons in Hys as [Hy Hys]. simpl in *.
  destruct (IH s x y Hs Hx Hy Hxf ltac:(lia)) as (o & s1 & E1 & L1 & H1). rewrite E1. simpl.
  destruct o as [t|].
  2: { exists None, s1. split_and!; [done|eapply later_weaken; [done|lia]|]. split; [|done].
       split; [by intros [? ?]|]. intros [Hj%H1 _]%Forall2_cons. by destruct Hj. }
  destruct H1 as (Hj & Ht & Hxt & Hyt & Hmin).
  pose proof (lt_reachable _ _ _ L1) as Hs1.
  assert (Hsum : sumN (tuple_nodes fuel s1) xs = sumN (tuple_nodes fuel s) xs).
  { apply sumN_ext. intros z Hz. apply (proj1 (list.Forall_forall _ _) Hxs) in Hz as [Hz _].
    apply tuple_nodes_agrees; [by apply sh_table, reachable_shape|apply L1|done]. }
  assert (Hin1 : ∀ l, Forall (in_table s) l → Forall (in_table s1) l).
  { intros l Hl. eapply Forall_impl; [exact Hl|]. intros z. by apply (later_in s s1 _ _ L1). }
  assert (Hxin : Forall (in_table s) xs) by (eapply Forall_impl; [exact Hxs|by intros ? []]).
  destruct (IHxs ys s1) as (o2 & s2 & E2 & L2 & H2).
  { done. } { lia. }
  { apply list.Forall_forall. intros z Hz. apply (proj1 (list.Forall_forall _ _) Hxs) in Hz as [? ?].
    split; [by apply (later_in s s1 _ _ L1)|done]. }
  { by apply Hin1. }
  { rewrite Hsum. pose proof (lt_size _ _ _ L1). lia. }
  rewrite E2. simpl. exists (option_map (cons t) o2), s2. rewrite Hsum in L2.
  split_and!; [done|by eapply later_trans|]. destruct H2 as [Hj2 H2]. split.
  { assert (Joinable s x y) as Hxy by (apply Hj; by eexists).
    rewrite Forall2_cons, (joinable_all_agrees s s1 xs ys), <-Hj2;
      [|by apply reachable_shape|apply L1|done|done].
    destruct o2; simpl; split; intros [? ?]; first [done|split; [done|by eexists]|by eexists]. }
  destruct o2 as [ts|]; [|done]. destruct H2 as (Hts & Hxts & Hyts & Hmin2). simpl.
  assert (Hlift : ∀ f e, in_table s1 f → in_table s1 e → Sub s1 f e → Sub s2 f e).
  { intros f e ? ?. by apply (later_sub s1 s2 _ _ _ Hs1 L2). }
  pose proof (later_in s s1 _ x L1 Hx). pose proof (later_in s s1 _ y L1 Hy).
  split_and!.
  - constructor; [by apply (later_in s1 s2 _ _ L2)|done].
  - constructor; [by apply Hlift|done].
  - constructor; [by apply Hlift|done].
  - intros ds Hds Hxds Hyds. destruct ds as [|d ds]; [by inversion Hxds|].
    apply Forall_cons in Hds as [Hd Hds]. apply Forall2_cons in Hxds as [Hxd Hxds].
    apply Forall2_cons in Hyds as [Hyd Hyds]. constructor.
    + apply Hlift; [done|by apply (later_in s s1 _ _ L1)|by apply Hmin].
    + apply Hmin2; [by apply Hin1|by apply (later_sub_all s s1 _ _ _ Hs L1)..].
Qed.

(** A supertype of a tuple without a native class is a tuple, unless it is the
    type itself. *)
Lemma sub_of_tuple s a d xs :
  ts_types s !! N.to_nat a = Some (T_Tuple xs) → nominal s a = None → Sub s a d →
  a = d ∨ a = NEVER ∨ ∃ ds, ts_types s !! N.to_nat d = Some (T_Tuple ds) ∧ Forall2 (Sub s) xs ds.
Proof.
  intros Ht Hn H.
  inversion H as [|?|? ? ca xa cd zs Hna Hnd Hi|? ? ys zs Hnn Hta Htd Hyz
    |? ? ta td kind fp fm fr frow ep em er erow Hnn Hta Htd Hka Hkd Hp Hm Hr Hrow]; subst; auto.
  - by rewrite Hn in Hna.
  - rewrite Ht in Hta. simplify_eq. right. right. by exists zs.
  - rewrite Ht in Hta. simplify_eq. by inversion Hka.
Qed.

(** The tuple arm: both tuples have no native class. *)
Lemma join_tuple_least fuel s a b xs ys :
  joins fuel → store_reachable s → (N.to_nat a < S fuel)%nat →
  ts_types s !! N.to_nat a = Some (T_Tuple xs) → ts_types s !! N.to_nat b = Some (T_Tuple ys) →
  ¬ both_nominal s a b → ¬ Sub s a b → ¬ Sub s b a →
  (lenN (ts_types s) + tuple_nodes (S fuel) s a <= U32_MAX)%N →
  ∃ o s', join_types (join fuel) s (T_Tuple xs) (T_Tuple ys) = Ret (o, s') ∧
    later s s' (tuple_nodes (S fuel) s a) ∧ least s s' a b o.
Proof.
  intros IH Hs Haf Hta Htb Hnn Hab Hba Hroom. pose proof (reachable_shape s Hs) as Hsh.
  cbn [tuple_nodes] in *. rewrite Hta in *. simpl.
  assert (Hjoin : Joinable s a b ↔ Forall2 (Joinable s) xs ys).
  { split; [|by eapply J_tuple]. intros [?|?|x y z Hx Hy _|xs' ys' _ Hta' Htb' ?]; [done..| |by simplify_eq].
    destruct Hnn. split; by eexists. }
  case_bool_decide as Hlen; simpl.
  2: { exists None, s. split_and!; [done|by apply later_refl|]. split; [|done].
       rewrite Hjoin. split; [by intros [? ?]|by intros ?%Forall2_length]. }
  pose proof (child_below s _ _ fuel (sh_table s Hsh) Hta Haf) as Hxs.
  assert (Hys : Forall (in_table s) ys).
  { pose proof (child_below s _ _ _ (sh_table s Hsh) Htb (Nat.lt_succ_diag_r _)) as H.
    eapply Forall_impl; [exact H|by intros ? []]. }
  destruct (join_pairs_least fuel IH xs ys s Hs Hlen Hxs Hys ltac:(lia)) as (o & s1 & E1 & L1 & H1).
  rewrite E1. simpl. destruct o as [ts|].
  2: { exists None, s1. split_and!; [done|eapply later_weaken; [done|lia]|].
       split; [|done]. rewrite Hjoin. split; [by intros [? ?]|]. by intros [? ?]%H1. }
  destruct H1 as (Hj & Hts & Hxts & Hyts & Hmin). pose proof (lt_reachable _ _ _ L1) as Hs1.
  destruct (intern_later s1 (T_Tuple ts) Hs1 Hts) as (id & s2 & Ei & L2 & Hid);
    [done|unfold room; pose proof (lt_size _ _ _ L1); lia|].
  rewrite Ei. simpl. exists (Some id), s2.
  pose proof (later_trans _ _ _ _ _ L1 L2) as L.
  split_and!; [done|eapply later_weaken; [exact L|lia]|].
  assert (Hin1 : ∀ l, Forall (in_table s) l → Forall (in_table s1) l).
  { intros l Hl. eapply Forall_impl; [exact Hl|]. intros z. by apply (later_in s s1 _ _ L1). }
  assert (Hxin : Forall (in_table s) xs) by (eapply Forall_impl; [exact Hxs|by intros ? []]).
  destruct (ag_native _ _ (lt_agrees _ _ _ L)) as (_ & _ & _ & Htup).
  assert (Hplain : ∀ s' x zs, ts_types s' !! N.to_nat x = Some (T_Tuple zs) → length zs = length xs →
            ts_native_tuples s' = ts_native_tuples s → nominal s' x = None).
  { intros s' x zs Hx Hl Ht. rewrite (nominal_eq _ _ _ Hx), Ht, Hl.
    destruct (ts_native_tuples s !! length xs) as [[c|]|] eqn:E; [|done..]. destruct Hnn.
    split; [rewrite (nominal_eq _ _ _ Hta), E|rewrite (nominal_eq _ _ _ Htb), <-Hlen, E]; by eexists. }
  assert (Hnid : ∀ x, ¬ both_nominal s2 x id ∧ ¬ both_nominal s2 id x).
  { assert (nominal s2 id = None) as E.
    { apply (Hplain s2 id ts); [done| |done]. by apply Forall2_length in Hxts. }
    intros x. split; [intros [_ [? H]]|intros [[? H] _]]; by rewrite E in H. }
  split; [rewrite Hjoin; split; [intros _; apply Hj|]; by eexists|].
  split_and!.
  - by eapply lookup_lt_Some.
  - eapply (Sub_tuple _ _ a id xs ts); [apply Hnid|by eapply agrees_lookup, Hta; apply L|done|].
    apply (later_sub_all s1 s2 1); [done|done|by apply Hin1|done|done].
  - eapply (Sub_tuple _ _ b id ys ts); [apply Hnid|by eapply agrees_lookup, Htb; apply L|done|].
    apply (later_sub_all s1 s2 1); [done|done|by apply Hin1|done|done].
  - intros d Hd Had Hbd.
    destruct (sub_of_tuple s a d xs Hta) as [->|[->|(ds & Htd & Hxds)]];
      [by eapply Hplain|done|done|by destruct Hab; constructor|].
    destruct (sub_of_tuple s b d ys Htb) as [->|[->|(ds' & Htd' & Hyds)]];
      [by eapply Hplain|done|done|by destruct Hba; constructor|].
    rewrite Htd in Htd'. simplify_eq.
    assert (Hds : Forall (in_table s) ds').
    { pose proof (child_below s _ _ _ (sh_table s Hsh) Htd (Nat.lt_succ_diag_r _)) as H.
      eapply Forall_impl; [exact H|by intros ? []]. }
    eapply (Sub_tuple _ _ id d ts ds'); [apply Hnid|done|by eapply agrees_lookup, Htd; apply L|].
    apply (later_sub_all s1 s2 1); [done|done|done|by apply Hin1|by apply Hmin].
Qed.

(** The arms below the nominal one. *)
Lemma join_types_least fuel s a b ta tb :
  joins fuel → store_reachable s → (N.to_nat a < S fuel)%nat →
  ts_types s !! N.to_nat a = Some ta → ts_types s !! N.to_nat b = Some tb →
  ¬ both_nominal s a b → ¬ Sub s a b → ¬ Sub s b a →
  (lenN (ts_types s) + tuple_nodes (S fuel) s a <= U32_MAX)%N →
  ∃ o s', join_types (join fuel) s ta tb = Ret (o, s') ∧
    later s s' (tuple_nodes (S fuel) s a) ∧ least s s' a b o.
Proof.
  intros IH Hs Haf Hta Htb Hnn Hab Hba Hroom.
  assert (Hnone : (∀ xs ys, ta = T_Tuple xs → tb = T_Tuple ys → False) →
            join_types (join fuel) s ta tb = Ret (None, s) →
            ∃ o s', join_types (join fuel) s ta tb = Ret (o, s') ∧
              later s s' (tuple_nodes (S fuel) s a) ∧ least s s' a b o).
  { intros Hne E. exists None, s. split_and!; [done|by apply later_refl|]. split; [|done].
    split; [by intros [? ?]|]. intros [?|?|x y z Hx Hy _|xs ys _ Hta' Htb' _]; [done..| |].
    - destruct Hnn. split; by eexists.
    - simplify_eq. exfalso. by eapply Hne. }
  assert (Hnom : ∀ ca xs cb ys, nominal s a = Some (ca, xs) → nominal s b = Some (cb, ys) → False).
  { intros ca xs cb ys Na Nb. apply Hnn. split; by eexists. }
  destruct ta, tb; try (by apply Hnone); try by eapply join_tuple_least.
  - exfalso. by eapply Hnom; [rewrite (nominal_eq _ _ _ Hta)|rewrite (nominal_eq _ _ _ Htb)].
  - exfalso. by eapply Hnom; [rewrite (nominal_eq _ _ _ Hta)|rewrite (nominal_eq _ _ _ Htb)].
Qed.

(** One call after its two subtype queries. *)
Lemma join_rest_least fuel s a b :
  joins fuel → store_reachable s → in_table s a → in_table s b → (N.to_nat a < S fuel)%nat →
  ¬ Sub s a b → ¬ Sub s b a → (lenN (ts_types s) + tuple_nodes (S fuel) s a <= U32_MAX)%N →
  ∃ o s', (na ← nominal_class s a; nb ← nominal_class s b;
           match na, nb with
           | Some (ca, xs), Some (cb, ys) => join_nominal (type_for_nominal native_order) s ca xs cb ys
           | _, _ => ta ← get s a; tb ← get s b; join_types (join fuel) s ta tb
           end) = Ret (o, s') ∧
    later s s' (tuple_nodes (S fuel) s a) ∧ least s s' a b o.
Proof.
  intros IH Hs Ha Hb Haf Hab Hba Hroom. rewrite !nominal_class_ret by done. cbn [mbind exec_bind].
  destruct (lookup_lt_is_Some_2 _ _ Ha) as [ta Hta]. destruct (lookup_lt_is_Some_2 _ _ Hb) as [tb Htb].
  unfold get. rewrite (vec_at_lookup _ _ _ Hta), (vec_at_lookup _ _ _ Htb). cbn [mbind exec_bind].
  destruct (decide (both_nominal s a b)) as [[[[ca xs] Na] [[cb ys] Nb]]|Hnn].
  - rewrite Na, Nb. destruct (join_nominal_least s a b ca xs cb ys) as (o & s' & E & L' & Hl); try done.
    { unfold room. lia. }
    exists o, s'. split_and!; [done| |done]. eapply later_weaken; [done|]. simpl. repeat case_match; lia.
  - pose proof (join_types_least fuel s a b ta tb IH Hs Haf Hta Htb Hnn Hab Hba Hroom) as Hstruct.
    destruct (nominal s a) as [[ca xs]|] eqn:Na; [|done]. destruct (nominal s b) as [[cb ys]|] eqn:Nb; [|done].
    destruct Hnn. split; [rewrite Na|rewrite Nb]; by eexists.
Qed.

(** A bound in a later store with the same types is one in the first. *)
Lemma least_before s s2 s' a b o n m :
  store_reachable s → in_table s a → in_table s b → later s s2 n → later s2 s' m → least s2 s' a b o →
  later s s' (n + m) ∧ least s s' a b o.
Proof.
  intros Hs Ha Hb L Lr [Hj Hr]. split; [by eapply later_trans|]. split.
  { rewrite Hj. symmetry. apply joinable_agrees; [by apply reachable_shape|apply L|done..]. }
  destruct o as [c|]; [|done]. destruct Hr as (H1 & H2 & H3 & H4). split_and!; [done..|].
  intros d Hd Had Hbd. apply H4; [by apply (later_in s s2 _ _ L)|by apply (later_sub s s2 n)..].
Qed.

Lemma joins_all fuel : joins fuel.
Proof.
  induction fuel as [|fuel IH]; intros s a b Hs Ha Hb Haf Hroom; [lia|].
  cbn [Types.join].
  destruct (compatible_later s b a Hs Hb Ha) as (ba & s1 & E1 & L1 & T1 & B1).
  rewrite E1. cbn [mbind exec_bind]. pose proof (lt_reachable _ _ _ L1) as Hs1.
  assert (Hin1 : ∀ x, in_table s x → in_table s1 x) by (intros x; unfold in_table; by rewrite T1).
  destruct ba.
  { exists (Some b), s1. split_and!; [done|eapply later_weaken; [done|lia]|].
    split; [split; [intros _; by apply J_left, B1|by eexists]|]. split_and!; [by apply Hin1|..].
    - apply (later_sub s s1 0); [done..|]. by apply B1.
    - constructor.
    - intros d Hd _ Hbd. by apply (later_sub s s1 0 b d Hs L1). }
  destruct (compatible_later s1 a b Hs1 (Hin1 a Ha) (Hin1 b Hb)) as (ab & s2 & E2 & L2 & T2 & B2).
  rewrite E2. cbn [mbind exec_bind]. pose proof (lt_reachable _ _ _ L2) as Hs2.
  pose proof (later_trans _ _ _ _ _ L1 L2) as L.
  assert (Hin2 : ∀ x, in_table s x → in_table s2 x) by (intros x; unfold in_table; by rewrite T2, T1).
  assert (Hsub : ∀ f e, in_table s f → in_table s e → Sub s f e ↔ Sub s2 f e).
  { intros f e. by apply (later_sub s s2 _ f e Hs L). }
  destruct ab.
  { exists (Some a), s2. split_and!; [done|eapply later_weaken; [done|lia]|].
    split; [split; [intros _; apply J_right, (later_sub s s1 0); [..|by apply B2]; auto|by eexists]|].
    split_and!; [by apply Hin2|constructor|..].
    - apply (later_sub s1 s2 0); [done|done|by apply Hin1..|]. by apply B2.
    - intros d Hd Had _. by apply Hsub. }
  assert (Hn2 : tuple_nodes (S fuel) s2 a = tuple_nodes (S fuel) s a).
  { apply tuple_nodes_agrees; [by apply sh_table, reachable_shape|apply L|done]. }
  destruct (join_rest_least fuel s2 a b) as (o & s' & E & L' & Hl); auto.
  { rewrite <-Hsub, <-B1 by done. done. }
  { rewrite <-(later_sub s1 s2 0), <-B2 by auto. done. }
  { rewrite Hn2, T2, T1. lia. }
  destruct (least_before s s2 s' a b o _ _ Hs Ha Hb L L' Hl) as [Ls Hls].
  exists o, s'. split_and!; [done| |done]. by rewrite <-Hn2.
Qed.

(** C23. On every reachable store, [join] answers without a panic.  It answers a
    type exactly for the pairs where one is a subtype of the other, where the
    classes meet in a nearest common ancestor with the same arguments, or that
    are tuples whose elements join; and the type is the least upper bound: both
    are subtypes of it, and it is a subtype of every type of the store that
    both are subtypes of.  The store it leaves is reachable, keeps every old
    type and every old subtype answer, and has at most one new type per tuple
    of the first type. *)
Theorem join_least_upper_bound s a b fuel :
  store_reachable s → in_table s a → in_table s b → (N.to_nat a < fuel)%nat →
  (lenN (ts_types s) + tuple_nodes fuel s a <= U32_MAX)%N →
  ∃ o s', join fuel s a b = Ret (o, s') ∧ later s s' (tuple_nodes fuel s a) ∧
    (is_Some o ↔ Joinable s a b) ∧
    ∀ c, o = Some c → in_table s' c ∧ Sub s' a c ∧ Sub s' b c ∧
      ∀ d, in_table s d → Sub s a d → Sub s b d → Sub s' c d.
Proof.
  intros Hs Ha Hb Hf Hroom. destruct (joins_all fuel s a b Hs Ha Hb Hf Hroom) as (o & s' & E & L & Hj & Hl).
  exists o, s'. split_and!; [done..|]. by intros c ->.
Qed.
End Join.

(** ** Two tuples over a class and its parent *)

Lemma map_order_iterates : iterates (λ m, map_to_list m).
Proof. intros m k c. apply elem_of_map_to_list. Qed.

Lemma join_least_upper_bound_witness :
  ∃ o s', join Demo.no_operations (λ m, map_to_list m) 20 Demo.tuples 19 18 = Ret (o, s') ∧
    later Demo.no_operations Demo.tuples s' (tuple_nodes 20 Demo.tuples 19) ∧
    (is_Some o ↔ Joinable Demo.no_operations Demo.tuples 19 18) ∧
    ∀ c, o = Some c → in_table s' c ∧ Sub Demo.no_operations s' 19 c ∧ Sub Demo.no_operations s' 18 c ∧
      ∀ d, in_table Demo.tuples d → Sub Demo.no_operations Demo.tuples 19 d →
        Sub Demo.no_operations Demo.tuples 18 d → Sub Demo.no_operations s' c d.
Proof.
  apply (join_least_upper_bound Demo.no_operations (λ m, map_to_list m) map_order_iterates Demo.tuples 19 18 20);
    [apply demo_tuples_reachable|unfold in_table; vm_compute; lia..|vm_compute; congruence].
Defined.
