(* ===== verification/Pages.v ===== *)
(** * Paged slot tables

    lm-heap keeps its objects and its text views in vectors of fixed pages of
    [PAGE_SLOTS] entries.  The page and the offset of a slot are its quotient
    and remainder; over full pages that is the slot's position in the
    flattened table, which is how the invariants of [Heap] are stated. *)

From stdpp Require Import base numbers option list.
From S2P Require Import Prelude.

Definition PAGE_SLOTS : N := 1024.

Section pages.
Context {A : Type}.
Implicit Types pages : list (list A).

(** [pages.get(slot / PAGE_SLOTS)?.get(slot % PAGE_SLOTS)]. *)
Definition page_get pages (slot : N) : option A :=
  page ← pages !! N.to_nat (slot / PAGE_SLOTS)%N; page !! N.to_nat (slot mod PAGE_SLOTS)%N.

(** A write through [pages[slot / PAGE_SLOTS][slot % PAGE_SLOTS]]. *)
Definition page_set pages (slot : N) (a : A) : list (list A) :=
  alter (λ page, <[N.to_nat (slot mod PAGE_SLOTS)%N := a]> page)
    (N.to_nat (slot / PAGE_SLOTS)%N) pages.

Definition table_slots pages : N := (lenN pages * PAGE_SLOTS)%N.

Definition pages_ok pages : Prop := Forall (λ page, lenN page = PAGE_SLOTS) pages.

Lemma length_flat pages : pages_ok pages → lenN (concat pages) = table_slots pages.
Proof.
  unfold table_slots, lenN. induction 1 as [|p pages Hp _ IH]; [done|].
  simpl. rewrite length_app. unfold lenN in Hp. lia.
Qed.

Lemma flat_lookup pages i j :
  pages_ok pages → (N.of_nat j < PAGE_SLOTS)%N →
  (page ← pages !! i; page !! j) = concat pages !! (i * N.to_nat PAGE_SLOTS + j).
Proof.
  intros H Hj. revert i. induction H as [|p pages Hp _ IH]; intros [|i]; try done.
  - simpl. rewrite lookup_app_l; [done|]. unfold lenN in Hp. lia.
  - cbn [concat]. change ((p :: pages) !! S i) with (pages !! i).
    assert (length p = N.to_nat PAGE_SLOTS) as Hl by (unfold lenN in Hp; lia).
    rewrite lookup_app_r by nia. rewrite IH. f_equal. nia.
Qed.

Lemma flat_update pages i j a :
  pages_ok pages → (N.of_nat j < PAGE_SLOTS)%N →
  concat (alter (λ page, <[j := a]> page) i pages) =
    <[i * N.to_nat PAGE_SLOTS + j := a]> (concat pages).
Proof.
  intros H Hj. revert i. induction H as [|p pages Hp _ IH]; intros [|i]; try done.
  - simpl. rewrite insert_app_l; [done|]. unfold lenN in Hp. lia.
  - assert (length p = N.to_nat PAGE_SLOTS) as Hl by (unfold lenN in Hp; lia).
    cbn [concat]. rewrite insert_app_r_alt by nia.
    change (alter (λ page, <[j:=a]> page) (S i) (p :: pages))
      with (p :: alter (λ page, <[j:=a]> page) i pages).
    cbn [concat]. rewrite IH. do 2 f_equal. nia.
Qed.

Lemma slot_split slot :
  N.to_nat slot = N.to_nat (slot / PAGE_SLOTS)%N * N.to_nat PAGE_SLOTS + N.to_nat (slot mod PAGE_SLOTS)%N.
Proof.
  rewrite <-N2Nat.inj_mul, <-N2Nat.inj_add. f_equal. rewrite N.mul_comm. apply N.div_mod'.
Qed.

Lemma slot_offset slot : (N.of_nat (N.to_nat (slot mod PAGE_SLOTS)) < PAGE_SLOTS)%N.
Proof. rewrite N2Nat.id. by apply N.mod_lt. Qed.

Lemma page_get_flat pages slot : pages_ok pages → page_get pages slot = concat pages !! N.to_nat slot.
Proof. intros H. unfold page_get. rewrite flat_lookup, <-slot_split; [done..|apply slot_offset]. Qed.

Lemma page_set_flat pages slot a :
  pages_ok pages → concat (page_set pages slot a) = <[N.to_nat slot := a]> (concat pages).
Proof. intros H. unfold page_set. rewrite flat_update, <-slot_split; [done..|apply slot_offset]. Qed.

Lemma page_set_ok pages slot a : pages_ok pages → pages_ok (page_set pages slot a).
Proof.
  intros H. unfold pages_ok, page_set. apply Forall_alter; [done|].
  intros p _ Hp. unfold lenN in *. by rewrite length_insert.
Qed.

Lemma page_set_slots pages slot a : table_slots (page_set pages slot a) = table_slots pages.
Proof. unfold table_slots, lenN, page_set. by rewrite length_alter. Qed.

Lemma pages_ok_snoc pages page : pages_ok pages → lenN page = PAGE_SLOTS → pages_ok (pages ++ [page]).
Proof. intros. apply Forall_app. split; [done|]. by constructor. Qed.

Lemma table_slots_snoc pages page : table_slots (pages ++ [page]) = (table_slots pages + PAGE_SLOTS)%N.
Proof. unfold table_slots, lenN. rewrite length_app. simpl. lia. Qed.
End pages.
