(* ===== verification/TextViews.v ===== *)
(** * The compact text-view table

    lm-heap/src/text_views.rs: immutable views of shared text live in their own
    paged table.  An entry names the root it reads from; a root holds the owner
    of the text and counts the entries that name it, and is released with the
    last of them.  A reference to a view carries [TEXT_VIEW_GENERATION_TAG] in
    its generation.

    The texts themselves (lm-heap/src/shared.rs) are the types [Owner] and
    [View] of the class [TextTypes], of which the table uses the allocation key
    of an owner alone.  Vectors used as stacks are lists with the top first.
    The stable page addresses kept for compiled code are not modelled. *)

From stdpp Require Import base numbers option gmap list.
From S2P Require Import Prelude Value Pages.

(** [a + b] and [a - b] on [usize], with the overflow checks of a debug build. *)
Definition add_usize (a b : N) : exec N := if (a + b <=? USIZE_MAX)%N then Ret (a + b)%N else Panic.
Definition sub_usize (a b : N) : exec N := if (b <=? a)%N then Ret (a - b)%N else Panic.
Definition saturating_add_usize (a b : N) : N := N.min (a + b) USIZE_MAX.
Definition saturating_mul_usize (a b : N) : N := N.min (a * b) USIZE_MAX.
Definition checked_sub (a b : N) : option N := if (b <=? a)%N then Some (a - b)%N else None.

(** [v.resize(len, x)], which also shortens. *)
Definition resize_vec {A} (l : list A) (len : N) (x : A) : list A :=
  take (N.to_nat len) l ++ replicate (N.to_nat len - length l) x.

(** Entries [start..start + count] of a generation table, 0 past its end. *)
Definition generations_from (generations : list N) (start count : N) : list N :=
  (λ i, default 0%N (generations !! (N.to_nat start + i))) <$> seq 0 (N.to_nat count).
#[global] Arguments generations_from : simpl never.
#[global] Arguments resize_vec : simpl never.

Class TextTypes := {
  Owner : Type;
  View : Type;
  owner_key : Owner → N;
  empty_view : View;
}.

(** What the heap asks of the host allocator: room for one more page of objects
    or of views, for one more text root, by what the table has, or for the items
    of a list of views. *)
Inductive Reservation := ObjectPage (pages : N) | ViewPage (pages : N) | ViewRoot (roots : N) | ViewItems (count : N).

(** The answer of the host allocator. *)
Class HostMemory := host_reserve : Reservation → bool.

Definition DEAD_ROOT : N := U32_MAX.
Definition GENERATION_MASK : N := 0x7fffffff.
Definition TEXT_VIEW_GENERATION_TAG : N := 0x80000000.

(** [generation.wrapping_add(1) & GENERATION_MASK]. *)
Definition next_generation (g : N) : N := N.land (as_u32 (g + 1)) GENERATION_MASK.

Definition is_reference (r : ObjRef) : bool :=
  negb (N.land (obj_generation r) TEXT_VIEW_GENERATION_TAG =? 0)%N.

Section TextViews.
Context `{TT : TextTypes} `{HM : HostMemory}.

Record TextViewEntry := mkViewEntry { te_generation : N; te_root : N; te_view : View }.

Definition view_dead (generation : N) : TextViewEntry := mkViewEntry generation DEAD_ROOT empty_view.
Definition te_is_live (e : TextViewEntry) : bool := negb (te_root e =? DEAD_ROOT)%N.
Definition te_replace (e : TextViewEntry) (root : N) (view : View) : exec TextViewEntry :=
  guard_panic (negb (te_is_live e));; Ret (mkViewEntry (te_generation e) root view).
(** The root of a live entry, and the entry without it. *)
Definition te_take (e : TextViewEntry) : option (N * TextViewEntry) :=
  if te_is_live e then Some (te_root e, view_dead (te_generation e)) else None.

Record TextViewRoot := mkRoot { tr_owner : Owner; tr_references : N }.

Record TextViewTable := mkTable {
  tv_pages : list (list TextViewEntry);
  tv_generations : list N;
  tv_slots : N;
  tv_free : list N;
  tv_live : N;
  tv_roots : list (option TextViewRoot);
  tv_free_roots : list N;
}.

Definition text_views_default : TextViewTable := mkTable [] [] 0 [] 0 [] [].

Definition set_view_pages (t : TextViewTable) pages generations slots free live : TextViewTable :=
  mkTable pages generations slots free live (tv_roots t) (tv_free_roots t).
Definition set_view_roots (t : TextViewTable) roots free_roots : TextViewTable :=
  mkTable (tv_pages t) (tv_generations t) (tv_slots t) (tv_free t) (tv_live t) roots free_roots.

Definition view_entry (t : TextViewTable) (slot : N) : option TextViewEntry := page_get (tv_pages t) slot.

Definition view_try_add_page (t : TextViewTable) : bool * TextViewTable :=
  if negb (host_reserve (ViewPage (lenN (tv_pages t)))) then (false, t)
  else
    let page_start := saturating_mul_usize (lenN (tv_pages t)) PAGE_SLOTS in
    match checked_add_usize page_start PAGE_SLOTS with
    | None => (false, t)
    | Some page_end =>
        if (U32_MAX <? page_end)%N then (false, t)
        else
          let page := view_dead <$> generations_from (tv_generations t) page_start PAGE_SLOTS in
          (true, set_view_pages t (tv_pages t ++ [page]) (resize_vec (tv_generations t) page_end 0%N)
                   (tv_slots t) (tv_free t) (tv_live t))
    end.

Definition view_add_page (t : TextViewTable) : exec TextViewTable :=
  let '(ok, t) := view_try_add_page t in guard_panic ok;; Ret t.

Definition view_available_slots (t : TextViewTable) : N :=
  let unused := saturating_sub (saturating_mul_usize (lenN (tv_pages t)) PAGE_SLOTS) (tv_slots t) in
  saturating_add_usize (lenN (tv_free t)) unused.

(** Every page adds slots, so [count] rounds are enough. *)
Fixpoint view_reserve_loop (fuel : nat) (t : TextViewTable) (count : N) : exec (bool * TextViewTable) :=
  if (view_available_slots t <? count)%N then
    match fuel with
    | O => NoFuel
    | S fuel =>
        let '(ok, t) := view_try_add_page t in
        if (ok : bool) then view_reserve_loop fuel t count else Ret (false, t)
    end
  else Ret (true, t).

Definition try_reserve_batch (t : TextViewTable) (count : N) (needs_root : bool) :
    exec (bool * TextViewTable) :=
  if (count =? 0)%N then Ret (true, t)
  else if needs_root && ((U32_MAX <=? lenN (tv_roots t))%N && bool_decide (tv_free_roots t = [])
                         || negb (host_reserve (ViewRoot (lenN (tv_roots t))))) then Ret (false, t)
  else view_reserve_loop (N.to_nat count) t count.

Definition install_root (t : TextViewTable) (owner : Owner) (references : N) : exec (N * TextViewTable) :=
  let root := mkRoot owner references in
  match tv_free_roots t with
  | index :: free_roots =>
      old ← of_option (tv_roots t !! N.to_nat index);
      guard_panic (bool_decide (old = None));;
      Ret (index, set_view_roots t (<[N.to_nat index := Some root]> (tv_roots t)) free_roots)
  | [] => Ret (as_u32 (lenN (tv_roots t)), set_view_roots t (tv_roots t ++ [Some root]) [])
  end.

(** The entry a reference names, if it is live and current. *)
Definition view_current (t : TextViewTable) (r : ObjRef) : option TextViewEntry :=
  if negb (is_reference r) then None
  else
    e ← view_entry t (obj_slot r);
    if negb (te_is_live e) || negb (te_generation e =? N.land (obj_generation r) GENERATION_MASK)%N
    then None else Some e.

(** [self.roots.get(index)?.as_ref()?]. *)
Definition root_at (roots : list (option TextViewRoot)) (index : N) : option TextViewRoot :=
  roots !! N.to_nat index ≫= id.

Definition existing_root (t : TextViewTable) (r : ObjRef) : option N :=
  e ← view_current t r; _ ← root_at (tv_roots t) (te_root e); Some (te_root e).

Definition view_get (t : TextViewTable) (r : ObjRef) : option (Owner * View) :=
  e ← view_current t r; root ← root_at (tv_roots t) (te_root e); Some (tr_owner root, te_view e).

Inductive TextViewBatchOwner :=
| NewOwner (owner : Owner)
| ExistingOwner (r : ObjRef).

Record TextViewBatch := mkBatch {
  tb_owner : TextViewBatchOwner;
  tb_shared_allocation : N * N;
  tb_views : list View;
}.

Definition batch_shared_allocation (b : TextViewBatch) : option (N * N) :=
  if bool_decide (tb_views b = []) then None else Some (tb_shared_allocation b).
Definition needs_new_owner (b : TextViewBatch) : bool :=
  match tb_owner b with NewOwner _ => true | ExistingOwner _ => false end.

Definition can_install_batch (t : TextViewTable) (b : TextViewBatch) : bool :=
  match tb_owner b with
  | NewOwner _ => true
  | ExistingOwner r => bool_decide (is_Some (existing_root t r))
  end.

(** The slot of the next view. *)
Definition take_view_slot (t : TextViewTable) : exec (N * TextViewTable) :=
  match tv_free t with
  | slot :: free => Ret (slot, set_view_pages t (tv_pages t) (tv_generations t) (tv_slots t) free (tv_live t))
  | [] =>
      t ← (if (tv_slots t =? lenN (tv_pages t) * PAGE_SLOTS)%N then view_add_page t else Ret t);
      slots ← add_usize (tv_slots t) 1;
      Ret (as_u32 (tv_slots t), set_view_pages t (tv_pages t) (tv_generations t) slots (tv_free t) (tv_live t))
  end.

Fixpoint install_views (t : TextViewTable) (root : N) (views : list View) (values : list Value) :
    exec (TextViewTable * list Value) :=
  match views with
  | [] => Ret (t, values)
  | view :: views =>
      '(slot, t) ← take_view_slot t;
      e ← of_option (view_entry t slot);
      e' ← te_replace e root view;
      let t := set_view_pages t (page_set (tv_pages t) slot e') (tv_generations t) (tv_slots t)
                 (tv_free t) (tv_live t) in
      let r := mkObjRef slot (N.lor (te_generation e) TEXT_VIEW_GENERATION_TAG) in
      install_views t root views (values ++ [VObj r])
  end.

(** The root of a batch, charged with its views. *)
Definition batch_root (t : TextViewTable) (owner : TextViewBatchOwner) (count : N) :
    exec (N * TextViewTable) :=
  match owner with
  | NewOwner owner => install_root t owner count
  | ExistingOwner r =>
      root ← of_option (existing_root t r);
      held ← of_option (root_at (tv_roots t) root);
      references ← add_usize (tr_references held) count;
      Ret (root, set_view_roots t
                   (<[N.to_nat root := Some (mkRoot (tr_owner held) references)]> (tv_roots t))
                   (tv_free_roots t))
  end.

Definition install_batch (t : TextViewTable) (b : TextViewBatch) (values : list Value) :
    exec (TextViewTable * list Value) :=
  let count := lenN (tb_views b) in
  if (count =? 0)%N then Ret (t, values)
  else
    guard_panic (count <=? view_available_slots t)%N;;
    '(root, t) ← batch_root t (tb_owner b) count;
    '(t, values) ← install_views t root (tb_views b) values;
    live ← add_usize (tv_live t) count;
    Ret (set_view_pages t (tv_pages t) (tv_generations t) (tv_slots t) (tv_free t) live, values).

(** Drop [count] references of a root; the key of its owner. *)
Definition drop_root (roots : list (option TextViewRoot)) (free_roots : list N) (root count : N) :
    exec (N * list (option TextViewRoot) * list N) :=
  held ← of_option (root_at roots root);
  references ← of_option (checked_sub (tr_references held) count);
  let key := owner_key (tr_owner held) in
  if (references =? 0)%N then Ret (key, <[N.to_nat root := None]> roots, root :: free_roots)
  else Ret (key, <[N.to_nat root := Some (mkRoot (tr_owner held) references)]> roots, free_roots).

Definition release_root (t : TextViewTable) (root count : N) : exec (N * TextViewTable) :=
  '(key, roots, free_roots) ← drop_root (tv_roots t) (tv_free_roots t) root count;
  Ret (key, set_view_roots t roots free_roots).

Definition view_free (t : TextViewTable) (r : ObjRef) : exec (N * TextViewTable) :=
  guard_panic (is_reference r);;
  e ← of_option (view_entry t (obj_slot r));
  guard_panic (te_generation e =? N.land (obj_generation r) GENERATION_MASK)%N;;
  '(root, e) ← of_option (te_take e);
  let generation := next_generation (te_generation e) in
  guard_panic (obj_slot r <? lenN (tv_generations t))%N;;
  live ← sub_usize (tv_live t) 1;
  let t := set_view_pages t
             (page_set (tv_pages t) (obj_slot r) (mkViewEntry generation (te_root e) (te_view e)))
             (<[N.to_nat (obj_slot r) := generation]> (tv_generations t)) (tv_slots t)
             (obj_slot r :: tv_free t) live in
  release_root t root 1.

(** *** Sweeping

    [keep] is the collector's answer and [release] gives back references of a
    shared allocation, on the state [S] of the caller. *)

Section sweep.
Context {S : Type} (keep : ObjRef → exec bool) (release : S → N → N → exec (N * S)).

Record ViewSweep := mkViewSweep {
  vs_objects : N;
  vs_bytes : N;
  vs_generations : list N;
  vs_free : list N;
  vs_roots : list (option TextViewRoot);
  vs_free_roots : list N;
  vs_shared : S;
}.

(** One entry of the table. *)
Definition view_sweep_entry (slot : N) (e : TextViewEntry) (st : ViewSweep) :
    exec (TextViewEntry * ViewSweep) :=
  if negb (te_is_live e) then Ret (e, st)
  else
    let r := mkObjRef slot (N.lor (te_generation e) TEXT_VIEW_GENERATION_TAG) in
    kept ← keep r;
    if (kept : bool) then Ret (e, st)
    else
      '(root, e) ← of_option (te_take e);
      let generation := next_generation (te_generation e) in
      guard_panic (slot <? lenN (vs_generations st))%N;;
      '(key, roots, free_roots) ← drop_root (vs_roots st) (vs_free_roots st) root 1;
      '(released, shared) ← release (vs_shared st) key 1%N;
      bytes ← add_usize (vs_bytes st) released;
      objects ← add_usize (vs_objects st) 1;
      Ret (mkViewEntry generation (te_root e) (te_view e),
           mkViewSweep objects bytes (<[N.to_nat slot := generation]> (vs_generations st))
             (slot :: vs_free st) roots free_roots shared).

Fixpoint view_sweep_page (slot : N) (page : list TextViewEntry) (st : ViewSweep) :
    exec (list TextViewEntry * ViewSweep) :=
  match page with
  | [] => Ret ([], st)
  | e :: page =>
      '(e, st) ← view_sweep_entry (as_u32 slot) e st;
      '(page, st) ← view_sweep_page (slot + 1) page st;
      Ret (e :: page, st)
  end.

Fixpoint view_sweep_pages (page_index : N) (pages : list (list TextViewEntry)) (st : ViewSweep) :
    exec (list (list TextViewEntry) * ViewSweep) :=
  match pages with
  | [] => Ret ([], st)
  | page :: pages =>
      '(page, st) ← view_sweep_page (page_index * PAGE_SLOTS) page st;
      '(pages, st) ← view_sweep_pages (page_index + 1) pages st;
      Ret (page :: pages, st)
  end.

(** Free every live view that [keep] rejects: the number of freed views, the
    bytes of shared text they released, and the new table. *)
Definition view_sweep (t : TextViewTable) (shared : S) : exec (N * N * TextViewTable * S) :=
  '(pages, st) ← view_sweep_pages 0 (tv_pages t)
    (mkViewSweep 0 0 (tv_generations t) (tv_free t) (tv_roots t) (tv_free_roots t) shared);
  live ← sub_usize (tv_live t) (vs_objects st);
  Ret (vs_objects st, vs_bytes st,
       mkTable pages (vs_generations st) (tv_slots t) (vs_free st) live (vs_roots st) (vs_free_roots st),
       vs_shared st).
End sweep.

(** [while pages.last() is dead { pages.pop() }]. *)
Fixpoint drop_dead_pages {A} (is_live : A → bool) (pages : list (list A)) : list (list A) :=
  match pages with
  | [] => []
  | page :: pages =>
      match drop_dead_pages is_live pages with
      | [] => if existsb is_live page then [page] else []
      | pages => page :: pages
      end
  end.

Definition view_trim_free_pages (t : TextViewTable) : TextViewTable :=
  let pages := drop_dead_pages te_is_live (tv_pages t) in
  let slots := N.min (tv_slots t) (lenN pages * PAGE_SLOTS) in
  set_view_pages t pages (tv_generations t) slots
    (filter (λ slot, (slot < slots)%N) (tv_free t)) (tv_live t).
End TextViews.
