(* ===== verification/SlotTable.v ===== *)
(** * Tables of generation-checked slots

    The object table and the text-view table of lm-heap share one discipline:
    fixed pages of entries, a vector with the latest generation of each slot, a
    fill mark and a free list.  [slots_ok] is that discipline, over any entry
    type with a generation and a live test; each lemma is one way the tables
    change. *)

From stdpp Require Import base numbers option list.
From S2P Require Import Prelude Pages TextViews.

Lemma resize_lookup {A} (l : list A) len x i :
  resize_vec l len x !! i =
    if decide (i < N.to_nat len) then Some (default x (l !! i)) else None.
Proof.
  unfold resize_vec. case_decide as Hi.
  - destruct (decide (i < length l)) as [Hl|Hl].
    + rewrite lookup_app_l by (rewrite length_take; lia). rewrite lookup_take_lt by lia.
      destruct (lookup_lt_is_Some_2 l i Hl) as [y Hy]. by rewrite Hy.
    + rewrite lookup_app_r by (rewrite length_take; lia). rewrite length_take.
      rewrite (lookup_ge_None_2 l i) by lia. simpl. apply lookup_replicate. split; [done|lia].
  - apply lookup_ge_None_2. rewrite length_app, length_take, length_replicate. lia.
Qed.

Lemma length_resize {A} (l : list A) len x : lenN (resize_vec l len x) = len.
Proof. unfold lenN, resize_vec. rewrite length_app, length_take, length_replicate. lia. Qed.

Lemma generations_from_lookup g start count i :
  (i < N.to_nat count)%nat → generations_from g start count !! i = Some (default 0%N (g !! (N.to_nat start + i))).
Proof. intros Hi. unfold generations_from. rewrite list_lookup_fmap, lookup_seq_lt by done. done. Qed.

Lemma length_generations_from g start count : lenN (generations_from g start count) = count.
Proof. unfold lenN, generations_from. rewrite length_fmap, length_seq. lia. Qed.

(** A page read after the resize is the page read before it. *)
Lemma generations_from_resize g start count :
  generations_from (resize_vec g (start + count) 0%N) start count = generations_from g start count.
Proof.
  unfold generations_from. apply list_fmap_ext. intros i x Hx. apply lookup_seq in Hx as [-> Hi].
  rewrite resize_lookup. simpl. rewrite decide_True by lia. done.
Qed.

Section slots.
Context {A : Type} (gen : A → N) (live : A → bool).
Implicit Types (flat : list A) (pages : list (list A)) (generations free : list N) (slots : N).

(** The discipline over the flattened table. *)
Record flat_ok flat generations slots free : Prop := {
  st_gens : ∀ i e, flat !! i = Some e → generations !! i = Some (gen e);
  st_stored : ∀ i g, generations !! i = Some g → (g <= GENERATION_MASK)%N;
  st_slots : (slots <= lenN flat)%N;
  st_live : ∀ i e, flat !! i = Some e → live e = true → (N.of_nat i < slots)%N;
  st_nodup : NoDup free;
  st_free : ∀ s, s ∈ free → (s < slots)%N ∧ ∃ e, flat !! N.to_nat s = Some e ∧ live e = false;
}.

Record slots_ok pages generations slots free : Prop := {
  st_pages : pages_ok pages;
  st_flat : flat_ok (concat pages) generations slots free;
}.

Lemma slots_ok_nil : slots_ok [] [] 0 [].
Proof.
  split; [constructor|]. constructor; try done; try constructor.
  - by apply not_elem_of_nil in H.
  - by apply not_elem_of_nil in H.
Qed.

Lemma flat_mask flat generations slots free i e :
  flat_ok flat generations slots free → flat !! i = Some e → (gen e <= GENERATION_MASK)%N.
Proof. intros H Hi. by eapply st_stored, st_gens. Qed.

Lemma slots_at pages generations slots free s :
  slots_ok pages generations slots free → (s < table_slots pages)%N → ∃ e, page_get pages s = Some e.
Proof.
  intros H Hs. rewrite page_get_flat by apply H. apply lookup_lt_is_Some_2.
  pose proof (length_flat pages (st_pages _ _ _ _ H)) as Hl. unfold lenN in Hl. lia.
Qed.

(** An entry changes in place: same generation, and live stays live. *)
Lemma slots_update pages generations slots free s e e' :
  slots_ok pages generations slots free → page_get pages s = Some e →
  gen e' = gen e → live e' = live e → slots_ok (page_set pages s e') generations slots free.
Proof.
  intros [Hp H] Hs Hg Hl. split; [by apply page_set_ok|].
  rewrite page_get_flat in Hs by done. rewrite page_set_flat by done.
  assert (Hlook : ∀ i x, <[N.to_nat s := e']> (concat pages) !! i = Some x →
            ∃ y, concat pages !! i = Some y ∧ gen x = gen y ∧ live x = live y).
  { intros i x Hx.
    apply list_lookup_insert_Some in Hx as [(<- & <- & _)|[_ Hx]]; [by exists e|by exists x]. }
  constructor; try apply H.
  - intros i x (y & Hy & -> & _)%Hlook. by apply H.
  - unfold lenN. rewrite length_insert. apply H.
  - intros i x (y & Hy & _ & ->)%Hlook. by eapply st_live.
  - intros f Hf. destruct (st_free _ _ _ _ H f Hf) as (Hlt & x & Hx & Hd). split; [done|].
    destruct (decide (f = s)) as [->|Hne].
    + rewrite list_lookup_insert_eq by (by eapply lookup_lt_Some). exists e'.
      split; [done|]. rewrite Hl. congruence.
    + rewrite list_lookup_insert_ne by lia. by exists x.
Qed.

(** A dead slot under the mark becomes live and leaves the free list. *)
Lemma slots_fill pages generations slots free slots' free' s e e' :
  slots_ok pages generations slots free → page_get pages s = Some e →
  gen e' = gen e → (slots <= slots' <= table_slots pages)%N → (s < slots')%N →
  NoDup free' → (∀ f, f ∈ free' → f ∈ free ∧ f ≠ s) →
  slots_ok (page_set pages s e') generations slots' free'.
Proof.
  intros [Hp H] Hs Hg [Hs1 Hs2] Hlt Hnd Hfree. split; [by apply page_set_ok|].
  rewrite page_get_flat in Hs by done. rewrite page_set_flat by done.
  assert (Hlook : ∀ i x, <[N.to_nat s := e']> (concat pages) !! i = Some x →
            (i = N.to_nat s ∧ x = e') ∨ (i ≠ N.to_nat s ∧ concat pages !! i = Some x)).
  { intros i x Hx.
    apply list_lookup_insert_Some in Hx as [(<- & <- & _)|[? Hx]]; [by left|by right]. }
  constructor; try apply H; try done.
  - intros i x [[-> ->]|[_ Hx]]%Hlook; [rewrite Hg|]; by apply H.
  - unfold lenN. rewrite length_insert. fold (lenN (concat pages)). by rewrite length_flat.
  - intros i x [[-> ->]|[_ Hx]]%Hlook Hl; [lia|]. pose proof (st_live _ _ _ _ H i x Hx Hl). lia.
  - intros f [Hf Hne]%Hfree. destruct (st_free _ _ _ _ H f Hf) as (Hlt' & x & Hx & Hd).
    split; [lia|]. rewrite list_lookup_insert_ne by lia. by exists x.
Qed.

(** A live slot dies: its generation moves on and it joins the free list. *)
Lemma flat_kill flat generations slots free s e e' :
  flat_ok flat generations slots free → flat !! N.to_nat s = Some e → live e = true →
  live e' = false → (gen e' <= GENERATION_MASK)%N →
  flat_ok (<[N.to_nat s := e']> flat) (<[N.to_nat s := gen e']> generations) slots (s :: free).
Proof.
  intros H Hs Hl Hd Hg.
  pose proof (lookup_lt_Some _ _ _ (st_gens _ _ _ _ H _ _ Hs)) as Hgl.
  assert (Hnf : s ∉ free).
  { intros Hf. destruct (st_free _ _ _ _ H s Hf) as (_ & x & Hx & Hx'). congruence. }
  constructor.
  - intros i x Hx. apply list_lookup_insert_Some in Hx as [(<- & <- & _)|[Hne Hx]].
    + by rewrite list_lookup_insert_eq.
    + rewrite list_lookup_insert_ne by done. by apply H.
  - intros i g Hi. apply list_lookup_insert_Some in Hi as [(_ & <- & _)|[_ Hi]]; [done|by eapply st_stored].
  - unfold lenN. rewrite length_insert. apply H.
  - intros i x Hx. apply list_lookup_insert_Some in Hx as [(<- & <- & _)|[Hne Hx]]; [congruence|by eapply st_live].
  - apply NoDup_cons. split; [done|apply H].
  - intros f [->|Hf]%elem_of_cons.
    + split; [pose proof (st_live _ _ _ _ H _ _ Hs Hl); lia|]. exists e'.
      rewrite list_lookup_insert_eq by (by eapply lookup_lt_Some). done.
    + destruct (st_free _ _ _ _ H f Hf) as (Hlt & x & Hx & Hx'). split; [done|]. exists x.
      rewrite list_lookup_insert_ne; [done|]. intros Heq. apply Hnf. by replace s with f by lia.
Qed.

Lemma slots_kill pages generations slots free s e e' :
  slots_ok pages generations slots free → page_get pages s = Some e → live e = true →
  live e' = false → (gen e' <= GENERATION_MASK)%N →
  slots_ok (page_set pages s e') (<[N.to_nat s := gen e']> generations) slots (s :: free).
Proof.
  intros [Hp H] Hs Hl Hd Hg. split; [by apply page_set_ok|]. rewrite page_set_flat by done.
  rewrite page_get_flat in Hs by done. by eapply flat_kill.
Qed.

(** A new page of dead entries with the generations on record. *)
Lemma slots_add_page pages generations slots free (dead : N → A) :
  (∀ g, gen (dead g) = g) → (∀ g, live (dead g) = false) →
  slots_ok pages generations slots free →
  slots_ok (pages ++ [dead <$> generations_from generations (table_slots pages) PAGE_SLOTS])
    (resize_vec generations (table_slots pages + PAGE_SLOTS) 0%N) slots free.
Proof.
  intros Hg Hd [Hp H]. set (page := dead <$> _).
  assert (Hlen : lenN page = PAGE_SLOTS).
  { unfold page, lenN. rewrite length_fmap. apply length_generations_from. }
  assert (Hflat : concat (pages ++ [page]) = concat pages ++ page).
  { rewrite concat_app. cbn [concat]. by rewrite app_nil_r. }
  pose proof (length_flat pages Hp) as Hfl. unfold lenN in Hfl, Hlen.
  split; [by apply pages_ok_snoc|]. rewrite Hflat.
  assert (Hlook : ∀ i x, (concat pages ++ page) !! i = Some x →
            (i < N.to_nat (table_slots pages + PAGE_SLOTS))%nat ∧
            (concat pages !! i = Some x ∨
             (N.to_nat (table_slots pages) <= i)%nat ∧ x = dead (default 0%N (generations !! i)))).
  { intros i x [Hx|[Hle Hx]]%lookup_app_Some.
    - split; [apply lookup_lt_Some in Hx; lia|by left].
    - pose proof (lookup_lt_Some _ _ _ Hx). split; [lia|]. right. split; [lia|].
      unfold page in Hx. rewrite list_lookup_fmap in Hx.
      rewrite generations_from_lookup in Hx by lia. simplify_eq/=. do 3 f_equal. lia. }
  constructor; try apply H.
  - intros i x [Hlt [Hx|[_ ->]]]%Hlook; rewrite resize_lookup, decide_True by done.
    + by rewrite (st_gens _ _ _ _ H i x Hx).
    + by rewrite Hg.
  - intros i g. rewrite resize_lookup. case_decide; [|done]. intros [= <-].
    destruct (generations !! i) eqn:E; simpl; [by eapply st_stored|unfold GENERATION_MASK; lia].
  - unfold lenN. rewrite length_app. pose proof (st_slots _ _ _ _ H) as Hsl. unfold lenN in Hsl. lia.
  - intros i x [Hlt [Hx|[_ ->]]]%Hlook Hl; [by eapply st_live|]. by rewrite Hd in Hl.
  - intros f Hf. destruct (st_free _ _ _ _ H f Hf) as (Hlt & x & Hx & Hx'). split; [done|].
    exists x. split; [|done]. by apply lookup_app_l_Some.
Qed.

(** Trailing pages without a live entry are dropped. *)
Lemma drop_dead_spec pages :
  ∃ tail, pages = drop_dead_pages live pages ++ tail ∧ ∀ e, e ∈ concat tail → live e = false.
Proof.
  induction pages as [|page pages (tail & E & Hd)]; [exists []; split; [done|by intros ? ?%not_elem_of_nil]|].
  simpl. destruct (drop_dead_pages live pages) as [|q qs] eqn:Eq.
  - destruct (existsb live page) eqn:Ex.
    + exists tail. split; [|done]. simpl. by f_equal.
    + exists (page :: pages). split; [done|]. simpl in E. subst tail.
      intros e [He|He]%elem_of_app; [|by apply Hd].
      destruct (live e) eqn:El; [|done]. rewrite <-Ex. symmetry. apply existsb_exists.
      exists e. split; [by apply list_elem_of_In|done].
  - exists tail. split; [|done]. simpl. simpl in E. by f_equal.
Qed.

Lemma slots_trim pages generations slots free pages' tail slots' :
  slots_ok pages generations slots free → pages = pages' ++ tail →
  (∀ e, e ∈ concat tail → live e = false) → (slots' <= table_slots pages')%N →
  (∀ i e, concat pages' !! i = Some e → live e = true → (N.of_nat i < slots')%N) →
  slots_ok pages' generations slots' (filter (λ s, (s < slots')%N) free).
Proof.
  intros [Hp H] -> Hdead Hslots Hlive. apply Forall_app in Hp as [Hp _]. split; [done|].
  rewrite concat_app in H. pose proof (length_flat pages' Hp) as Hfl. constructor.
  - intros i e Hi. apply (st_gens _ _ _ _ H). by apply lookup_app_l_Some.
  - apply H.
  - by rewrite Hfl.
  - done.
  - apply NoDup_filter, H.
  - intros s [Hs Hf]%list_elem_of_filter. split; [done|].
    destruct (st_free _ _ _ _ H s Hf) as (_ & e & He & Hd). exists e. split; [|done].
    rewrite lookup_app_l in He; [done|]. unfold lenN in Hfl. lia.
Qed.
End slots.
