(* ===== verification/TextViewsInv.v ===== *)
(** * The invariant of the text-view table

    [views_ok]: the slots follow the table discipline, the live count is
    exact, every live view names a root, and every root counts exactly the
    views that name it.  [views_key] counts the views that read one shared
    allocation, which is what the heap's ledger charges. *)

From stdpp Require Import base numbers option gmap list.
From S2P Require Import Prelude Value Pages TextViews SlotTable.

Section Views.
Context `{TT : TextTypes} `{HM : HostMemory}.

Definition one_if (b : bool) : N := if b then 1%N else 0%N.
Definition view_lives (e : TextViewEntry) : N := one_if (te_is_live e).
Definition view_names (root : N) (e : TextViewEntry) : N := one_if (te_is_live e && (te_root e =? root)%N).

(** The references a root holds on the allocation [key]. *)
Definition root_key (key : N) (root : option TextViewRoot) : N :=
  match root with
  | Some root => if (owner_key (tr_owner root) =? key)%N then tr_references root else 0%N
  | None => 0%N
  end.
Definition roots_key (roots : list (option TextViewRoot)) (key : N) : N := sumN (root_key key) roots.
Definition views_key (t : TextViewTable) (key : N) : N := roots_key (tv_roots t) key.

Record views_flat (flat : list TextViewEntry) generations slots free live
    (roots : list (option TextViewRoot)) free_roots : Prop := {
  vf_slots : flat_ok te_generation te_is_live flat generations slots free;
  vf_live : live = sumN view_lives flat;
  vf_root : ∀ i e, flat !! i = Some e → te_is_live e = true → is_Some (root_at roots (te_root e));
  vf_refs : ∀ j root, root_at roots j = Some root →
    tr_references root = sumN (view_names j) flat ∧ (0 < tr_references root)%N;
  vf_roots_room : (lenN roots <= U32_MAX)%N;
  vf_free_nodup : NoDup free_roots;
  vf_free_roots : ∀ j, j ∈ free_roots → roots !! N.to_nat j = Some None;
}.

Record views_ok (t : TextViewTable) : Prop := {
  vo_pages : pages_ok (tv_pages t);
  vo_room : (table_slots (tv_pages t) <= U32_MAX)%N;
  vo_flat : views_flat (concat (tv_pages t)) (tv_generations t) (tv_slots t) (tv_free t) (tv_live t)
              (tv_roots t) (tv_free_roots t);
}.

Lemma views_slots t : views_ok t →
  slots_ok te_generation te_is_live (tv_pages t) (tv_generations t) (tv_slots t) (tv_free t).
Proof. intros H. split; [apply H|]. eapply vf_slots, vo_flat, H. Qed.

Lemma views_ok_default : views_ok text_views_default.
Proof.
  split; [constructor|by unfold table_slots|]. constructor.
  - apply (st_flat _ _ _ _ _ _ (slots_ok_nil te_generation te_is_live)).
  - done.
  - done.
  - intros j root H. by unfold root_at in H.
  - done.
  - constructor.
  - by intros j H%not_elem_of_nil.
Qed.

Lemma root_at_Some roots j root : root_at roots j = Some root ↔ roots !! N.to_nat j = Some (Some root).
Proof. unfold root_at. destruct (roots !! N.to_nat j) as [[?|]|]; simpl; naive_solver. Qed.

(** What a reference reads is decided by its slot and generation alone. *)
Lemma view_current_Some t r e :
  view_current t r = Some e ↔
  is_reference r = true ∧ page_get (tv_pages t) (obj_slot r) = Some e ∧ te_is_live e = true ∧
  te_generation e = N.land (obj_generation r) GENERATION_MASK.
Proof.
  unfold view_current, view_entry.
  assert (Hno : ∀ P : Prop, (P → False) → (None = Some e ↔ P)) by (intros P HP; split; [done|tauto]).
  destruct (is_reference r); simpl; [|apply Hno; by intros (? & _)].
  destruct (page_get (tv_pages t) (obj_slot r)) as [e'|]; simpl; [|apply Hno; by intros (_ & ? & _)].
  destruct (te_is_live e') eqn:El; simpl.
  2: { apply Hno. intros (_ & [= ->] & ? & _). congruence. }
  destruct (N.eqb_spec (te_generation e') (N.land (obj_generation r) GENERATION_MASK)) as [Eg|Ng]; simpl.
  - split; [by intros [= <-]|by intros (_ & [= ->] & _)].
  - apply Hno. by intros (_ & [= ->] & _ & ?).
Qed.

(** *** Dropping references of a root *)

Lemma names_le_root flat generations slots free live roots free_roots i e :
  views_flat flat generations slots free live roots free_roots →
  flat !! i = Some e → te_is_live e = true →
  ∃ root, root_at roots (te_root e) = Some root ∧ (1 <= tr_references root)%N.
Proof.
  intros H Hi Hl. destruct (vf_root _ _ _ _ _ _ _ H i e Hi Hl) as [root Hr].
  exists root. split; [done|]. destruct (vf_refs _ _ _ _ _ _ _ H _ _ Hr). lia.
Qed.

Lemma next_generation_mask g : (next_generation g <= GENERATION_MASK)%N.
Proof.
  unfold next_generation. change GENERATION_MASK with (N.ones 31). rewrite N.land_ones.
  pose proof (N.mod_lt (as_u32 (g + 1)) (2 ^ 31) ltac:(done)). change (N.ones 31) with (2 ^ 31 - 1)%N. lia.
Qed.

Section kill.
Context flat generations slots free live roots free_roots
  (H : views_flat flat generations slots free live roots free_roots).
Context (s : N) (e : TextViewEntry) (root : TextViewRoot).
Context (Hs : flat !! N.to_nat s = Some e) (Hl : te_is_live e = true).
Context (Hr : root_at roots (te_root e) = Some root).
Let e' := view_dead (next_generation (te_generation e)).
Let flat' := <[N.to_nat s := e']> flat.

Lemma kill_names j : (sumN (view_names j) flat' + one_if (te_root e =? j) = sumN (view_names j) flat)%N.
Proof.
  pose proof (sumN_insert (view_names j) flat (N.to_nat s) e e' Hs) as E.
  unfold view_names at 2 4 in E. rewrite Hl in E. simpl in E. fold flat' in E. lia.
Qed.

Lemma kill_lives : (sumN view_lives flat' + 1 = sumN view_lives flat)%N.
Proof.
  pose proof (sumN_insert view_lives flat (N.to_nat s) e e' Hs) as E.
  unfold view_lives at 2 4 in E. rewrite Hl in E. simpl in E. fold flat' in E. lia.
Qed.

Lemma kill_count : (sumN (view_names (te_root e)) flat' = tr_references root - 1)%N.
Proof.
  pose proof (kill_names (te_root e)) as E. rewrite N.eqb_refl in E. simpl in E.
  destruct (vf_refs _ _ _ _ _ _ _ H _ _ Hr). lia.
Qed.

(** The root after the drop: gone with its last reference, one fewer else. *)
Inductive dropped : option TextViewRoot → list N → Prop :=
| dropped_last : (tr_references root - 1 = 0)%N → dropped None (te_root e :: free_roots)
| dropped_one : (tr_references root - 1 ≠ 0)%N →
    dropped (Some (mkRoot (tr_owner root) (tr_references root - 1))) free_roots.

Lemma kill_live_root o free_roots' i x :
  dropped o free_roots' → flat' !! i = Some x → te_is_live x = true →
  is_Some (root_at (<[N.to_nat (te_root e) := o]> roots) (te_root x)).
Proof.
  intros Ho Hx Hxl. apply list_lookup_insert_Some in Hx as Hx'.
  destruct Hx' as [(_ & <- & _)|[_ Hx']]; [done|].
  destruct (vf_root _ _ _ _ _ _ _ H i x Hx' Hxl) as [root' Hr'].
  apply root_at_Some in Hr as Hrl. unfold root_at.
  destruct (decide (te_root x = te_root e)) as [Ej|Nj].
  - rewrite Ej, list_lookup_insert_eq by (by eapply lookup_lt_Some).
    destruct Ho as [Hz|_]; [|by eexists].
    pose proof (sumN_elem (view_names (te_root e)) _ _ _ Hx) as Hx1. unfold view_names at 1 in Hx1.
    rewrite Hxl, Ej, N.eqb_refl, kill_count in Hx1. simpl in Hx1. lia.
  - rewrite list_lookup_insert_ne by lia. by exists root'.
Qed.

Lemma kill_refs o free_roots' j root' :
  dropped o free_roots' → root_at (<[N.to_nat (te_root e) := o]> roots) j = Some root' →
  tr_references root' = sumN (view_names j) flat' ∧ (0 < tr_references root')%N.
Proof.
  intros Ho Hr'%root_at_Some. apply root_at_Some in Hr as Hrl.
  destruct (decide (j = te_root e)) as [->|Nj].
  - rewrite list_lookup_insert_eq in Hr' by (by eapply lookup_lt_Some).
    destruct Ho as [|Hz]; simplify_eq/=. split; [by rewrite kill_count|lia].
  - rewrite list_lookup_insert_ne in Hr' by lia. apply root_at_Some in Hr'.
    destruct (vf_refs _ _ _ _ _ _ _ H _ _ Hr') as [E1 E2]. split; [|done].
    pose proof (kill_names j) as E. rewrite (proj2 (N.eqb_neq _ j)) in E by done. simpl in E. lia.
Qed.

Lemma kill_free_roots o free_roots' :
  dropped o free_roots' →
  NoDup free_roots' ∧
  ∀ j, j ∈ free_roots' → <[N.to_nat (te_root e) := o]> roots !! N.to_nat j = Some None.
Proof.
  intros Ho. apply root_at_Some in Hr as Hrl.
  assert (Hnf : te_root e ∉ free_roots).
  { intros Hj%(vf_free_roots _ _ _ _ _ _ _ H). by rewrite Hrl in Hj. }
  assert (Hold : ∀ j, j ∈ free_roots → <[N.to_nat (te_root e) := o]> roots !! N.to_nat j = Some None).
  { intros j Hj. rewrite list_lookup_insert_ne; [by apply (vf_free_roots _ _ _ _ _ _ _ H)|].
    intros E. apply Hnf. by replace (te_root e) with j by lia. }
  destruct Ho as [Hz|Hz]; (split; [|]).
  - apply NoDup_cons. split; [done|apply H].
  - intros j [->|Hj]%elem_of_cons; [|by apply Hold].
    by rewrite list_lookup_insert_eq by (by eapply lookup_lt_Some).
  - apply H.
  - done.
Qed.

Lemma kill_flat o free_roots' :
  dropped o free_roots' →
  views_flat flat' (<[N.to_nat s := next_generation (te_generation e)]> generations) slots (s :: free)
    (live - 1)%N (<[N.to_nat (te_root e) := o]> roots) free_roots'.
Proof.
  intros Ho. constructor.
  - change (next_generation (te_generation e)) with (te_generation e').
    eapply flat_kill; [apply H|done..|apply next_generation_mask].
  - pose proof (vf_live _ _ _ _ _ _ _ H). pose proof kill_lives. lia.
  - intros i x. by apply (kill_live_root o free_roots').
  - intros j root'. by apply (kill_refs o free_roots').
  - unfold lenN. rewrite length_insert. apply H.
  - by apply (kill_free_roots o free_roots').
  - by apply (kill_free_roots o free_roots').
Qed.

Lemma kill_keys o free_roots' k :
  dropped o free_roots' → (1 <= tr_references root)%N →
  (roots_key (<[N.to_nat (te_root e) := o]> roots) k + one_if (k =? owner_key (tr_owner root)) = roots_key roots k)%N.
Proof.
  intros Ho Hpos. apply root_at_Some in Hr as Hrl.
  pose proof (sumN_insert (root_key k) roots _ _ o Hrl) as E. fold (roots_key roots k) in E.
  unfold roots_key at 1. simpl in E. rewrite N.eqb_sym.
  destruct Ho as [Hz|Hz]; simpl in E; destruct (owner_key (tr_owner root) =? k)%N; simpl; lia.
Qed.

Lemma kill_owners o free_roots' j root' :
  dropped o free_roots' → root_at (<[N.to_nat (te_root e) := o]> roots) j = Some root' →
  ∃ old, root_at roots j = Some old ∧ tr_owner old = tr_owner root'.
Proof.
  intros Ho Hr'%root_at_Some. apply root_at_Some in Hr as Hrl.
  apply list_lookup_insert_Some in Hr' as [(Ej & Eo & _)|[_ Hr']].
  - assert (j = te_root e) as -> by lia. exists root. split; [done|]. by destruct Ho; simplify_eq.
  - exists root'. by rewrite root_at_Some.
Qed.
End kill.

(** A live view dies: its slot is freed and its root drops one reference. *)
Lemma views_kill flat generations slots free live roots free_roots s e :
  views_flat flat generations slots free live roots free_roots →
  flat !! N.to_nat s = Some e → te_is_live e = true →
  ∃ key roots' free_roots',
    drop_root roots free_roots (te_root e) 1 = Ret (key, roots', free_roots') ∧
    views_flat (<[N.to_nat s := view_dead (next_generation (te_generation e))]> flat)
      (<[N.to_nat s := next_generation (te_generation e)]> generations) slots (s :: free)
      (live - 1)%N roots' free_roots' ∧
    (1 <= live)%N ∧ (1 <= roots_key roots key)%N ∧
    (∀ k, (roots_key roots' k + one_if (k =? key) = roots_key roots k)%N) ∧
    (∀ j root, root_at roots' j = Some root → ∃ old, root_at roots j = Some old ∧ tr_owner old = tr_owner root).
Proof.
  intros H Hs Hl. destruct (names_le_root _ _ _ _ _ _ _ _ _ H Hs Hl) as (root & Hr & Hpos).
  assert (Hdrop : ∃ o free_roots', drop_root roots free_roots (te_root e) 1
            = Ret (owner_key (tr_owner root), <[N.to_nat (te_root e) := o]> roots, free_roots') ∧
            dropped free_roots e root o free_roots').
  { unfold drop_root. rewrite Hr. simpl. unfold checked_sub. rewrite (proj2 (N.leb_le _ _) Hpos). simpl.
    destruct (N.eqb_spec (tr_references root - 1) 0); eexists _, _; (split; [done|by constructor]). }
  destruct Hdrop as (o & free_roots' & E & Ho). exists (owner_key (tr_owner root)), (<[N.to_nat (te_root e) := o]> roots), free_roots'.
  assert (Hkeys : ∀ k, (roots_key (<[N.to_nat (te_root e) := o]> roots) k + one_if (k =? owner_key (tr_owner root)) = roots_key roots k)%N).
  { intros k. by eapply kill_keys. }
  split_and!; [done|by eapply kill_flat| | |done|].
  - pose proof (vf_live _ _ _ _ _ _ _ H). pose proof (kill_lives flat s e Hs Hl). lia.
  - pose proof (Hkeys (owner_key (tr_owner root))) as Hk. rewrite N.eqb_refl in Hk. simpl in Hk. lia.
  - intros j root'. by eapply kill_owners.
Qed.

(** *** Reading and freeing *)

(** Every root of [t'] reads the text it reads in [t]. *)
Definition same_owners (roots roots' : list (option TextViewRoot)) : Prop :=
  ∀ j root', root_at roots' j = Some root' → ∃ root, root_at roots j = Some root ∧ tr_owner root = tr_owner root'.

Lemma same_owners_trans r1 r2 r3 : same_owners r1 r2 → same_owners r2 r3 → same_owners r1 r3.
Proof.
  intros H1 H2 j root3 (root2 & Hr2 & E2)%H2. apply H1 in Hr2 as (root1 & Hr1 & E1).
  exists root1. split; [done|congruence].
Qed.

Lemma view_live_root t r e :
  views_ok t → view_current t r = Some e → is_Some (root_at (tv_roots t) (te_root e)).
Proof.
  intros H (_ & Hp & Hl & _)%view_current_Some. rewrite page_get_flat in Hp by apply H.
  by eapply vf_root; [apply vo_flat, H|..].
Qed.

Lemma view_get_current t r :
  views_ok t → is_Some (view_get t r) ↔ is_Some (view_current t r).
Proof.
  intros H. unfold view_get. destruct (view_current t r) as [e|] eqn:E; simpl; [|done].
  destruct (view_live_root t r e H E) as [root Hr]. rewrite Hr. simpl. split; by eexists.
Qed.

Lemma view_get_same t t' r :
  views_ok t → views_ok t' → same_owners (tv_roots t) (tv_roots t') →
  page_get (tv_pages t') (obj_slot r) = page_get (tv_pages t) (obj_slot r) →
  view_get t' r = view_get t r.
Proof.
  intros H H' Ho Hp. unfold view_get.
  assert (view_current t' r = view_current t r) as Ec by (unfold view_current, view_entry; by rewrite Hp).
  rewrite Ec. destruct (view_current t r) as [e|] eqn:E; simpl; [|done].
  destruct (view_live_root t' r e H' Ec) as [root' Hr']. rewrite Hr'. simpl.
  destruct (Ho _ _ Hr') as (root & Hr & Eo). rewrite Hr. simpl. by rewrite Eo.
Qed.

Lemma view_get_dead t r e :
  page_get (tv_pages t) (obj_slot r) = Some e → te_is_live e = false → view_get t r = None.
Proof.
  intros Hp Hd. unfold view_get. destruct (view_current t r) as [e'|] eqn:E; [|done].
  apply view_current_Some in E as (_ & Hp' & Hl & _). congruence.
Qed.

Lemma page_get_set {A} (pages : list (list A)) s s' a :
  pages_ok pages → (s < table_slots pages)%N →
  page_get (page_set pages s a) s' = if decide (s' = s) then Some a else page_get pages s'.
Proof.
  intros Hp Hs. rewrite !page_get_flat, page_set_flat by (done || by apply page_set_ok).
  pose proof (length_flat pages Hp) as Hl. unfold lenN in Hl. case_decide as E.
  - subst s'. by rewrite list_lookup_insert_eq by lia.
  - by rewrite list_lookup_insert_ne by lia.
Qed.

Lemma page_get_lt {A} (pages : list (list A)) s e :
  pages_ok pages → page_get pages s = Some e → (s < table_slots pages)%N.
Proof.
  intros Hp Hs. rewrite page_get_flat in Hs by done. apply lookup_lt_Some in Hs.
  pose proof (length_flat pages Hp) as Hl. unfold lenN in Hl. lia.
Qed.

Lemma view_free_spec t r e :
  views_ok t → view_current t r = Some e →
  ∃ key t', view_free t r = Ret (key, t') ∧ views_ok t' ∧
    (tv_live t' + 1 = tv_live t)%N ∧ (1 <= views_key t key)%N ∧
    (∀ k, (views_key t' k + one_if (k =? key) = views_key t k)%N) ∧
    tv_slots t' = tv_slots t ∧
    (∀ r', view_get t' r' = if decide (obj_slot r' = obj_slot r) then None else view_get t r').
Proof.
  intros H Hc. apply view_current_Some in Hc as (Href & Hp & Hl & Hg).
  pose proof (vo_pages t H) as Hpg. pose proof (vo_flat t H) as Hf.
  pose proof Hp as Hi. rewrite page_get_flat in Hi by done.
  destruct (views_kill _ _ _ _ _ _ _ _ _ Hf Hi Hl) as (key & roots' & fr' & Ed & Hf' & Hl1 & Hk1 & Hk & Ho).
  pose proof (lookup_lt_Some _ _ _ (st_gens _ _ _ _ _ _ (vf_slots _ _ _ _ _ _ _ Hf) _ _ Hi)) as Hgl.
  unfold view_free, view_entry, te_take. rewrite Href, Hp. simpl. rewrite Hg, N.eqb_refl, <-Hg, Hl. simpl.
  unfold sub_usize. rewrite (proj2 (N.ltb_lt _ _)) by (unfold lenN; lia). simpl.
  rewrite (proj2 (N.leb_le 1 _)) by done. simpl. unfold release_root. simpl. rewrite Ed. simpl.
  set (t' := set_view_roots _ _ _).
  change (mkViewEntry (next_generation (te_generation e)) DEAD_ROOT empty_view)
    with (view_dead (next_generation (te_generation e))) in t'.
  assert (H' : views_ok t').
  { split; simpl; [by apply page_set_ok|rewrite page_set_slots; apply H|]. by rewrite page_set_flat. }
  exists key, t'. split_and!; [done|done|simpl; lia|done|done|done|].
  intros r'. pose proof (page_get_lt _ _ _ Hpg Hp) as Hlt.
  pose proof (page_get_set (tv_pages t) (obj_slot r) (obj_slot r') (view_dead (next_generation (te_generation e))) Hpg Hlt) as Hps.
  case_decide as E; [by eapply view_get_dead|]. by apply view_get_same.
Qed.

(** *** Trimming *)

Lemma view_trim_ok t : views_ok t → views_ok (view_trim_free_pages t).
Proof.
  intros H. destruct (drop_dead_spec te_is_live (tv_pages t)) as (tail & E & Hd).
  pose proof (vo_flat t H) as Hf. pose proof (vo_pages t H) as Hp.
  unfold view_trim_free_pages. set (pages' := drop_dead_pages te_is_live (tv_pages t)) in *.
  pose proof (views_slots t H) as Hs.
  assert (Hp' : pages_ok pages') by (unfold pages_ok in *; rewrite E in Hp; by apply Forall_app in Hp as [? _]).
  assert (Hflat : concat (tv_pages t) = concat pages' ++ concat tail) by (rewrite E at 1; apply concat_app).
  assert (Hsum : ∀ f : TextViewEntry → N, (∀ e, te_is_live e = false → f e = 0%N) →
            sumN f (concat (tv_pages t)) = sumN f (concat pages')).
  { intros f Hz. rewrite Hflat, sumN_app.
    assert (sumN f (concat tail) = 0%N); [|lia]. clear -Hd Hz.
    induction (concat tail) as [|e l IH]; [done|]. simpl. rewrite IH, Hz; [done|apply Hd; by left|].
    intros x Hx. apply Hd. by right. }
  assert (Hslots : slots_ok te_generation te_is_live pages' (tv_generations t)
            (N.min (tv_slots t) (lenN pages' * PAGE_SLOTS))
            (filter (λ s, (s < N.min (tv_slots t) (lenN pages' * PAGE_SLOTS))%N) (tv_free t))).
  { eapply slots_trim; [exact Hs|exact E|done|unfold table_slots; lia|].
    intros i e Hi Hl.
    assert (Hi' : concat (tv_pages t) !! i = Some e) by (rewrite Hflat; by apply lookup_app_l_Some).
    pose proof (st_live _ _ _ _ _ _ (vf_slots _ _ _ _ _ _ _ Hf) i e Hi' Hl).
    apply lookup_lt_Some in Hi. pose proof (length_flat pages' Hp') as Hlen.
    unfold lenN, table_slots in Hlen. unfold lenN in *. lia. }
  split; simpl; [done|..].
  - transitivity (table_slots (tv_pages t)); [|apply H]. rewrite E. unfold table_slots, lenN.
    rewrite length_app. lia.
  - constructor; try apply Hf.
    + apply Hslots.
    + rewrite (vf_live _ _ _ _ _ _ _ Hf). apply Hsum. intros x Hx. unfold view_lives. by rewrite Hx.
    + intros i x Hi. eapply (vf_root _ _ _ _ _ _ _ Hf i). rewrite Hflat. by apply lookup_app_l_Some.
    + intros j root Hr. destruct (vf_refs _ _ _ _ _ _ _ Hf j root Hr) as [E1 E2]. split; [|done].
      rewrite E1. apply Hsum. intros x Hx. unfold view_names. by rewrite Hx.
Qed.

Lemma view_trim_get t r : views_ok t → view_get (view_trim_free_pages t) r = view_get t r.
Proof.
  intros H. pose proof (view_trim_ok t H) as H'.
  destruct (drop_dead_spec te_is_live (tv_pages t)) as (tail & E & Hd).
  set (pages' := drop_dead_pages te_is_live (tv_pages t)) in *.
  pose proof (vo_pages _ H) as Hp. pose proof (vo_pages _ H' : pages_ok pages') as Hp'.
  assert (Hflat : concat (tv_pages t) = concat pages' ++ concat tail) by (rewrite E at 1; apply concat_app).
  destruct (concat pages' !! N.to_nat (obj_slot r)) as [e|] eqn:Hi.
  - apply view_get_same; [done..|by intros j root Hr; exists root|]. simpl. fold pages'.
    rewrite !page_get_flat by done. rewrite Hi, Hflat. symmetry. by apply lookup_app_l_Some.
  - transitivity (@None (Owner * View)).
    + unfold view_get, view_current, view_entry. destruct (is_reference r); [|done]. simpl.
      fold pages'. rewrite page_get_flat, Hi by done. done.
    + destruct (page_get (tv_pages t) (obj_slot r)) as [e|] eqn:Hg.
      * symmetry. apply (view_get_dead t r e Hg). rewrite page_get_flat, Hflat in Hg by done.
        apply lookup_app_Some in Hg as [Hg|[_ Hg]]; [congruence|].
        by apply Hd, (list_elem_of_lookup_2 _ _ _ Hg).
      * unfold view_get, view_current, view_entry. rewrite Hg. by destruct (is_reference r).
Qed.

(** *** Sweeping *)

Definition view_ref (i : N) (e : TextViewEntry) : ObjRef :=
  mkObjRef i (N.lor (te_generation e) TEXT_VIEW_GENERATION_TAG).

(** The entry at [i] after a sweep that keeps the references in [kept]. *)
Definition swept_view (kept : ObjRef → bool) (i : N) (e : TextViewEntry) : TextViewEntry :=
  if te_is_live e && negb (kept (view_ref i e)) then view_dead (next_generation (te_generation e)) else e.

Lemma lives_le flat : (sumN view_lives flat <= lenN flat)%N.
Proof.
  induction flat as [|e flat IH]; [done|]. unfold lenN in *. simpl. unfold view_lives at 1, one_if. case_match; lia.
Qed.

Section sweep.
Context {S : Type} (keep : ObjRef → exec bool) (kept : ObjRef → bool).
Context (release : S → N → N → exec (N * S)).
(** What the caller keeps true of its ledger, the bytes given back so far and
    the references the views still hold. *)
Context (J : S → N → (N → N) → Prop).
Context (HJ : ∀ shared bytes keys key, J shared bytes keys → (1 <= keys key)%N →
  ∃ released shared', release shared key 1%N = Ret (released, shared') ∧
    (bytes + released <= USIZE_MAX)%N ∧
    ∀ keys', (∀ k, keys' k + one_if (k =? key) = keys k)%N → J shared' (bytes + released) keys').
Context (slots live : N) (roots : list (option TextViewRoot)).

Record sweeping (flat : list TextViewEntry) (st : ViewSweep) : Prop := {
  sg_flat : views_flat flat (vs_generations st) slots (vs_free st) (live - vs_objects st)%N
              (vs_roots st) (vs_free_roots st);
  sg_objects : (vs_objects st <= live)%N;
  sg_room : (lenN flat <= U32_MAX)%N;
  sg_shared : J (vs_shared st) (vs_bytes st) (roots_key (vs_roots st));
  sg_owners : same_owners roots (vs_roots st);
  sg_live : (live <= U32_MAX)%N;
}.

Lemma view_sweep_entry_spec flat i e st :
  sweeping flat st → flat !! N.to_nat i = Some e →
  (te_is_live e = true → keep (view_ref i e) = Ret (kept (view_ref i e))) →
  ∃ st', view_sweep_entry keep release i e st = Ret (swept_view kept i e, st') ∧
    sweeping (<[N.to_nat i := swept_view kept i e]> flat) st'.
Proof.
  intros H Hi Hk. unfold view_sweep_entry, swept_view. fold (view_ref i e).
  destruct (te_is_live e) eqn:El; simpl.
  2: { exists st. split; [done|]. by rewrite list_insert_id. }
  rewrite Hk by done. simpl. destruct (kept (view_ref i e)); simpl.
  { exists st. split; [done|]. by rewrite list_insert_id. }
  destruct H as [Hf Hobj Hroom HJs Ho Hlive].
  destruct (views_kill _ _ _ _ _ _ _ _ _ Hf Hi El) as (key & roots' & fr' & Ed & Hf' & Hl1 & Hk1 & Hks & Ho').
  pose proof (lookup_lt_Some _ _ _ (st_gens _ _ _ _ _ _ (vf_slots _ _ _ _ _ _ _ Hf) _ _ Hi)) as Hgl.
  destruct (HJ _ _ _ _ HJs Hk1) as (released & shared' & Er & Hb & HJ').
  unfold te_take. rewrite El. simpl. rewrite (proj2 (N.ltb_lt _ _)) by (unfold lenN; lia). simpl.
  rewrite Ed. simpl. rewrite Er. simpl. unfold add_usize. rewrite (proj2 (N.leb_le _ _) Hb). simpl.
  rewrite (proj2 (N.leb_le _ _)) by (unfold USIZE_MAX, U64_MAX, U32_MAX in *; lia). simpl.
  eexists. split; [done|]. constructor; simpl.
  - by replace (live - (vs_objects st + 1))%N with (live - vs_objects st - 1)%N by lia.
  - lia.
  - unfold lenN in *. by rewrite length_insert.
  - by apply HJ'.
  - by eapply same_owners_trans.
  - done.
Qed.

Definition swept_page (start : N) (page : list TextViewEntry) : list TextViewEntry :=
  imap (λ j e, swept_view kept (start + N.of_nat j) e) page.

Lemma swept_page_cons start e page :
  swept_page start (e :: page) = swept_view kept start e :: swept_page (start + 1) page.
Proof.
  unfold swept_page. simpl. rewrite N.add_0_r. f_equal. apply imap_ext. intros j x _. simpl. f_equal. lia.
Qed.

(** No view dies exactly when every live view is kept. *)
Lemma swept_lives page : ∀ start,
  (sumN view_lives (swept_page start page) <= sumN view_lives page)%N ∧
  ((sumN view_lives page <= sumN view_lives (swept_page start page))%N →
   ∀ j e, page !! j = Some e → te_is_live e = true → kept (view_ref (start + N.of_nat j) e) = true).
Proof.
  induction page as [|e page IH]; intros start; [split; [done|intros _ j e Hj; done]|].
  rewrite swept_page_cons. destruct (IH (start + 1)%N) as [IH1 IH2]. simpl.
  assert (Hv : (view_lives (swept_view kept start e) <= view_lives e)%N ∧
    ((view_lives e <= view_lives (swept_view kept start e))%N → te_is_live e = true → kept (view_ref start e) = true)).
  { unfold swept_view, view_lives. destruct (te_is_live e) eqn:El; simpl; [|by rewrite El].
    destruct (kept (view_ref start e)); simpl; [by rewrite El|]. split; [lia|]. simpl. lia. }
  destruct Hv as [Hv1 Hv2]. split; [lia|]. intros Hle [|j] x Hx Hl; simpl in Hx.
  - simplify_eq. rewrite N.add_0_r. apply Hv2; [lia|done].
  - replace (start + N.of_nat (Datatypes.S j))%N with (start + 1 + N.of_nat j)%N by lia. apply IH2; [lia|done..].
Qed.

(** The collector's test answers on every live view. *)
Definition answers_from (start : N) (page : list TextViewEntry) : Prop :=
  ∀ j e, page !! j = Some e → te_is_live e = true →
    keep (view_ref (start + N.of_nat j) e) = Ret (kept (view_ref (start + N.of_nat j) e)).

Lemma view_sweep_page_spec page : ∀ done rest st start,
  start = lenN done → sweeping (done ++ page ++ rest) st → answers_from start page →
  ∃ st', view_sweep_page keep release start page st = Ret (swept_page start page, st') ∧
    sweeping (done ++ swept_page start page ++ rest) st'.
Proof.
  induction page as [|e page IH]; intros done rest st start -> Hst Hk; [by exists st|].
  assert (Hi : (done ++ (e :: page) ++ rest) !! N.to_nat (lenN done) = Some e).
  { unfold lenN. rewrite Nat2N.id. by apply list_lookup_middle. }
  assert (Hsmall : as_u32 (lenN done) = lenN done).
  { apply as_u32_small. pose proof (sg_room _ _ Hst) as Hr. unfold lenN in *. rewrite length_app in Hr. lia. }
  destruct (view_sweep_entry_spec _ _ _ _ Hst Hi) as (st1 & E1 & H1).
  { intros Hl. specialize (Hk 0 e eq_refl Hl). by rewrite N.add_0_r in Hk. }
  cbn [view_sweep_page]. rewrite Hsmall, E1. cbn [mbind exec_bind].
  rewrite swept_page_cons. set (e1 := swept_view kept (lenN done) e) in *.
  assert (Hins : <[N.to_nat (lenN done) := e1]> (done ++ (e :: page) ++ rest) = (done ++ [e1]) ++ page ++ rest).
  { unfold lenN. rewrite Nat2N.id, <-(Nat.add_0_r (length done)), insert_app_r. simpl. by rewrite <-app_assoc. }
  rewrite Hins in H1.
  destruct (IH (done ++ [e1]) rest st1 (lenN done + 1)%N) as (st2 & E2 & H2).
  - unfold lenN. rewrite length_app. simpl. lia.
  - done.
  - intros j x Hx Hxl. specialize (Hk (Datatypes.S j) x Hx Hxl).
    by replace (lenN done + 1 + N.of_nat j)%N with (lenN done + N.of_nat (Datatypes.S j))%N by lia.
  - exists st2. rewrite E2. split; [done|]. by rewrite <-app_assoc in H2.
Qed.

Lemma view_sweep_pages_spec pages : ∀ done st index,
  pages_ok pages → (index * PAGE_SLOTS = lenN done)%N → sweeping (done ++ concat pages) st →
  answers_from (lenN done) (concat pages) →
  ∃ pages' st', view_sweep_pages keep release index pages st = Ret (pages', st') ∧
    pages_ok pages' ∧ concat pages' = swept_page (lenN done) (concat pages) ∧
    length pages' = length pages ∧ sweeping (done ++ concat pages') st'.
Proof.
  induction pages as [|page pages IH]; intros done st index Hp Hix Hst Hk; [by exists [], st|].
  apply Forall_cons in Hp as [Hpl Hp]. cbn [concat] in *.
  destruct (view_sweep_page_spec page done (concat pages) st (lenN done) eq_refl) as (st1 & E1 & H1);
    [done|intros j e Hj; apply Hk; by apply lookup_app_l_Some|].
  cbn [view_sweep_pages]. rewrite Hix, E1. cbn [mbind exec_bind].
  set (page1 := swept_page (lenN done) page) in *.
  assert (Hlen1 : length page1 = length page) by apply length_imap.
  assert (Hnext : ((index + 1) * PAGE_SLOTS = lenN (done ++ page1))%N).
  { unfold lenN in *. rewrite length_app, Hlen1. lia. }
  destruct (IH (done ++ page1) st1 (index + 1)%N) as (pages2 & st2 & E2 & Hp2 & Ec2 & El2 & H2); [done|done| | |].
  - by rewrite <-app_assoc.
  - intros j e Hj Hl. specialize (Hk (length page + j) e).
    rewrite lookup_app_r, Nat.add_sub_swap, Nat.sub_diag in Hk by lia. specialize (Hk Hj Hl).
    replace (lenN (done ++ page1) + N.of_nat j)%N with (lenN done + N.of_nat (length page + j))%N; [done|].
    unfold lenN. rewrite length_app, Hlen1. lia.
  - exists (page1 :: pages2), st2. rewrite E2. split_and!; [done|..].
    + constructor; [unfold lenN in *; by rewrite Hlen1|done].
    + cbn [concat]. rewrite Ec2. unfold swept_page at 2. rewrite imap_app. f_equal.
      apply imap_ext. intros j x _. simpl. f_equal. unfold lenN. rewrite length_app, Hlen1. lia.
    + simpl. by rewrite El2.
    + cbn [concat]. by rewrite app_assoc.
Qed.

End sweep.

(** A reference of the machine's width is the one its entry hands out. *)
Lemma tagged_generation g :
  (g <= U32_MAX)%N → N.land g TEXT_VIEW_GENERATION_TAG ≠ 0%N →
  N.lor (N.land g GENERATION_MASK) TEXT_VIEW_GENERATION_TAG = g.
Proof.
  change TEXT_VIEW_GENERATION_TAG with (2 ^ 31)%N. change GENERATION_MASK with (N.ones 31).
  intros Hg Ht. assert (Hb : N.testbit g 31 = true).
  { destruct (N.testbit g 31) eqn:E; [done|]. destruct Ht. apply N.bits_inj. intros n.
    rewrite N.land_spec, N.bits_0, N.pow2_bits_eqb. destruct (N.eqb_spec 31 n) as [<-|]; [by rewrite E|apply andb_false_r]. }
  apply N.bits_inj. intros n. rewrite N.lor_spec, N.land_spec, N.pow2_bits_eqb.
  destruct (N.eqb_spec 31 n) as [<-|Hn]; [by rewrite orb_true_r, Hb|]. rewrite orb_false_r.
  destruct (decide (n < 31)%N) as [Hlt|Hge].
  - by rewrite N.ones_spec_low, andb_true_r.
  - rewrite N.ones_spec_high, andb_false_r by lia. symmetry. apply N.bits_above_log2.
    assert (g < 2 ^ 32)%N by (unfold U32_MAX in Hg; simpl; lia).
    destruct (decide (g = 0%N)) as [->|]; [simpl; lia|]. apply N.log2_lt_pow2; [lia|].
    eapply N.lt_le_trans; [done|]. apply N.pow_le_mono_r; lia.
Qed.

Lemma view_ref_current t r e :
  (obj_generation r <= U32_MAX)%N → view_current t r = Some e → view_ref (obj_slot r) e = r.
Proof.
  intros Hr (Ht & _ & _ & Hg)%view_current_Some. unfold view_ref. rewrite Hg.
  unfold is_reference in Ht. apply negb_true_iff, N.eqb_neq in Ht.
  rewrite tagged_generation by done. by destruct r.
Qed.

Lemma view_sweep_spec {S} keep kept (release : S → N → N → exec (N * S)) (J : S → N → (N → N) → Prop) t shared :
  (∀ shared bytes keys key, J shared bytes keys → (1 <= keys key)%N →
    ∃ released shared', release shared key 1%N = Ret (released, shared') ∧
      (bytes + released <= USIZE_MAX)%N ∧
      ∀ keys', (∀ k, keys' k + one_if (k =? key) = keys k)%N → J shared' (bytes + released)%N keys') →
  views_ok t → J shared 0%N (views_key t) → answers_from keep kept 0 (concat (tv_pages t)) →
  ∃ objects bytes t' shared', view_sweep keep release t shared = Ret (objects, bytes, t', shared') ∧
    views_ok t' ∧ (tv_live t' + objects = tv_live t)%N ∧ tv_slots t' = tv_slots t ∧
    J shared' bytes (views_key t') ∧
    (objects = 0%N → ∀ r, (obj_generation r <= U32_MAX)%N → is_Some (view_get t r) → kept r = true) ∧
    (∀ r, (obj_generation r <= U32_MAX)%N → view_get t' r = if kept r then view_get t r else None).
Proof.
  intros HJ H HJ0 Hk. pose proof (vo_flat t H) as Hf. pose proof (vo_pages t H) as Hp.
  assert (Hroom : (lenN (concat (tv_pages t)) <= U32_MAX)%N) by (rewrite length_flat by done; apply H).
  pose proof (lives_le (concat (tv_pages t))) as Hlv. rewrite <-(vf_live _ _ _ _ _ _ _ Hf) in Hlv.
  unfold view_sweep.
  destruct (view_sweep_pages_spec keep kept release J HJ (tv_slots t) (tv_live t) (tv_roots t) (tv_pages t) []
    (mkViewSweep 0 0 (tv_generations t) (tv_free t) (tv_roots t) (tv_free_roots t) shared) 0)
    as (pages' & st & E & Hp' & Ec & El & Hst); [done|done| |done|].
  { constructor; simpl; [by rewrite N.sub_0_r|lia|done|done|by intros j root Hr; exists root|lia]. }
  rewrite E. simpl. unfold sub_usize. rewrite (proj2 (N.leb_le _ _) (sg_objects _ _ _ _ _ _ Hst)). simpl.
  set (t' := mkTable _ _ _ _ _ _ _).
  assert (H' : views_ok t').
  { split; simpl; [done| |apply Hst]. unfold table_slots, lenN. rewrite El. apply H. }
  exists (vs_objects st), (vs_bytes st), t', (vs_shared st).
  split_and!; [done|done|simpl; pose proof (sg_objects _ _ _ _ _ _ Hst); lia|done|apply Hst| |].
  { intros Hz r Hw Hs. destruct (proj1 (view_get_current t r H) Hs) as [e He].
    pose proof (view_ref_current t r e Hw He) as Eref. apply view_current_Some in He as (_ & Hpe & Hle & _).
    rewrite page_get_flat in Hpe by done. pose proof (vf_live _ _ _ _ _ _ _ (vo_flat t' H')) as Hlv'. simpl in Hlv'.
    rewrite Hz, N.sub_0_r, Ec, (vf_live _ _ _ _ _ _ _ Hf) in Hlv'.
    pose proof (proj2 (swept_lives kept (concat (tv_pages t)) 0)) as Hkept.
    change (lenN []) with 0%N in Hlv'. rewrite <-Hlv' in Hkept. specialize (Hkept ltac:(done) _ _ Hpe Hle).
    rewrite N2Nat.id, N.add_0_l, Eref in Hkept. done. }
  intros r Hr. simpl in Ec.
  assert (Hpg : page_get pages' (obj_slot r) = swept_view kept (obj_slot r) <$> page_get (tv_pages t) (obj_slot r)).
  { rewrite !page_get_flat by done. rewrite Ec. unfold swept_page. rewrite list_lookup_imap.
    destruct (concat (tv_pages t) !! N.to_nat (obj_slot r)); simpl; [|done]. unfold lenN. simpl. by rewrite N2Nat.id. }
  destruct (view_current t r) as [e|] eqn:Ecur.
  - pose proof (view_ref_current t r e Hr Ecur) as Eref.
    apply view_current_Some in Ecur as (Ht & Hpe & Hle & Hge). rewrite Hpe in Hpg. simpl in Hpg.
    unfold swept_view in Hpg. rewrite Hle, Eref in Hpg. simpl in Hpg. destruct (kept r); simpl in Hpg.
    + apply view_get_same; [done..|apply Hst|]. change (tv_pages t') with pages'. by rewrite Hpg, Hpe.
    + by eapply view_get_dead.
  - assert (view_get t r = None) as -> by (unfold view_get; by rewrite Ecur).
    assert (view_get t' r = None) as ->; [|by case_match].
    destruct (view_get t' r) as [x|] eqn:Eg; [|done].
    destruct (proj1 (view_get_current t' r H') (ex_intro _ x Eg)) as [e' Ecur'].
    apply view_current_Some in Ecur' as (Ht & Hpe & Hle & Hge). simpl in Hpe. rewrite Hpg in Hpe.
    destruct (page_get (tv_pages t) (obj_slot r)) as [e|] eqn:Hpe0; [|done]. simpl in Hpe. injection Hpe as <-.
    unfold swept_view in Hle, Hge. destruct (te_is_live e && _); [done|].
    assert (view_current t r = Some e); [by apply view_current_Some|congruence].
Qed.
End Views.
