(* ===== verification/TextViewsBatch.v ===== *)
(** * Installing batches of text views

    A batch reserves slots, charges one root with all its views and fills the
    entries one by one.  [filling] is the invariant in between: the root counts
    views that are not in the table yet. *)

From stdpp Require Import base numbers option gmap list.
From S2P Require Import Prelude Value Pages TextViews SlotTable TextViewsInv.

Section Batch.
Context `{TT : TextTypes} `{HM : HostMemory}.

(** The slots a batch may use. *)
Definition view_room (t : TextViewTable) : N :=
  (lenN (tv_free t) + (table_slots (tv_pages t) - tv_slots t))%N.

Lemma free_le {A} (gen : A → N) live flat generations slots free :
  flat_ok gen live flat generations slots free → (lenN free <= slots)%N.
Proof.
  intros H. unfold lenN.
  assert (length free ≤ N.to_nat slots); [|lia].
  transitivity (length (N.of_nat <$> seq 0 (N.to_nat slots))); [|by rewrite length_fmap, length_seq].
  apply submseteq_length, NoDup_submseteq; [apply H|]. intros s Hs.
  destruct (st_free _ _ _ _ _ _ H s Hs) as [Hlt _].
  apply list_elem_of_fmap. exists (N.to_nat s). rewrite elem_of_seq. split; lia.
Qed.

Lemma available_room t : views_ok t → view_available_slots t = view_room t.
Proof.
  intros H. unfold view_available_slots, view_room, saturating_add_usize, saturating_mul_usize, saturating_sub.
  fold (table_slots (tv_pages t)). pose proof (vo_room t H) as Hr.
  pose proof (free_le _ _ _ _ _ _ (vf_slots _ _ _ _ _ _ _ (vo_flat t H))) as Hf.
  pose proof (st_slots _ _ _ _ _ _ (vf_slots _ _ _ _ _ _ _ (vo_flat t H))) as Hs.
  rewrite length_flat in Hs by apply H. unfold USIZE_MAX, U64_MAX, U32_MAX in *.
  rewrite (N.min_l (table_slots (tv_pages t))) by lia. lia.
Qed.

(** [t'] is [t] with more pages of dead entries. *)
Record view_paged (t t' : TextViewTable) : Prop := {
  vp_ok : views_ok t';
  vp_slots : tv_slots t' = tv_slots t;
  vp_free : tv_free t' = tv_free t;
  vp_live : tv_live t' = tv_live t;
  vp_roots : tv_roots t' = tv_roots t;
  vp_free_roots : tv_free_roots t' = tv_free_roots t;
  vp_get : ∀ r, view_get t' r = view_get t r;
  vp_current : ∀ r, view_current t' r = view_current t r;
}.

Lemma view_paged_refl t : views_ok t → view_paged t t.
Proof. by constructor. Qed.

Lemma view_paged_trans t1 t2 t3 : view_paged t1 t2 → view_paged t2 t3 → view_paged t1 t3.
Proof. intros [] []. constructor; try congruence; intros r; by etrans. Qed.

(** The host refuses memory. *)
Definition memory_short : Prop := ∃ request, host_reserve request = false.

Lemma view_page_spec t :
  views_ok t → ∃ ok t', view_try_add_page t = (ok, t') ∧ view_paged t t' ∧
    if (ok : bool) then table_slots (tv_pages t') = (table_slots (tv_pages t) + PAGE_SLOTS)%N
    else t' = t ∧ (memory_short ∨ (U32_MAX < table_slots (tv_pages t) + PAGE_SLOTS)%N).
Proof.
  intros H. unfold view_try_add_page.
  assert (Hfalse : memory_short ∨ (U32_MAX < table_slots (tv_pages t) + PAGE_SLOTS)%N →
    ∃ ok t', (false, t) = (ok, t') ∧ view_paged t t' ∧
    if (ok : bool) then table_slots (tv_pages t') = (table_slots (tv_pages t) + PAGE_SLOTS)%N
    else t' = t ∧ (memory_short ∨ (U32_MAX < table_slots (tv_pages t) + PAGE_SLOTS)%N)).
  { intros Hwhy. exists false, t. split_and!; [done|by apply view_paged_refl|done|done]. }
  destruct (host_reserve _) eqn:Ehost; cbn [negb]; [|apply Hfalse; left; by eexists]. pose proof (vo_room t H) as Hr.
  unfold saturating_mul_usize. fold (table_slots (tv_pages t)).
  rewrite N.min_l by (unfold USIZE_MAX, U64_MAX, U32_MAX in *; lia).
  unfold checked_add_usize. rewrite (proj2 (N.leb_le _ _)) by (unfold PAGE_SLOTS, USIZE_MAX, U64_MAX, U32_MAX in *; lia).
  destruct (N.ltb_spec U32_MAX (table_slots (tv_pages t) + PAGE_SLOTS)); [apply Hfalse; by right|].
  set (page := view_dead <$> generations_from (tv_generations t) (table_slots (tv_pages t)) PAGE_SLOTS).
  set (t' := set_view_pages _ _ _ _ _ _). exists true, t'. split; [done|].
  pose proof (slots_add_page te_generation te_is_live _ _ _ _ view_dead (λ _, eq_refl) (λ _, eq_refl) (views_slots t H)) as Hs.
  fold page in Hs. pose proof (vo_flat t H) as Hf.
  assert (Hflat : concat (tv_pages t ++ [page]) = concat (tv_pages t) ++ page).
  { rewrite concat_app. cbn [concat]. by rewrite app_nil_r. }
  assert (Hdead : ∀ e, e ∈ page → te_is_live e = false).
  { intros e He. apply list_elem_of_fmap in He as (g & -> & _). done. }
  clearbody page.
  assert (Hsum : ∀ f : TextViewEntry → N, (∀ e, te_is_live e = false → f e = 0%N) →
            sumN f (concat (tv_pages t) ++ page) = sumN f (concat (tv_pages t))).
  { intros f Hz. rewrite sumN_app. assert (sumN f page = 0%N); [|lia]. clear -Hdead Hz.
    induction page as [|e l IH]; [done|]. simpl. rewrite IH, Hz; [done|apply Hdead; by left|].
    intros x Hx. apply Hdead. by right. }
  assert (H' : views_ok t').
  { split; simpl; [apply Hs|by rewrite table_slots_snoc|]. constructor; try apply Hf.
    - apply Hs.
    - rewrite Hflat, Hsum; [apply Hf|]. intros e He. unfold view_lives. by rewrite He.
    - intros i e. rewrite Hflat. intros [Hi|[_ Hi]]%lookup_app_Some Hl; [by eapply vf_root|].
      apply list_elem_of_lookup_2, Hdead in Hi. congruence.
    - intros j root Hj. rewrite Hflat, Hsum; [by apply (vf_refs _ _ _ _ _ _ _ Hf)|].
      intros e He. unfold view_names. by rewrite He. }
  assert (Hcur : ∀ r, view_current t' r = view_current t r).
  { intros r. destruct (view_current t r) as [e|] eqn:E.
    - apply view_current_Some in E as (? & Hp & ? & ?). apply view_current_Some. split_and!; try done.
      rewrite page_get_flat in * by apply H || apply H'. simpl. rewrite Hflat. by apply lookup_app_l_Some.
    - destruct (view_current t' r) as [e|] eqn:E'; [|done]. exfalso.
      apply view_current_Some in E' as (Ht & Hp & Hl & Hg). rewrite page_get_flat in Hp by apply H'.
      simpl in Hp. rewrite Hflat in Hp. apply lookup_app_Some in Hp as [Hp|[_ Hp]].
      + assert (view_current t r = Some e); [|congruence]. apply view_current_Some.
        rewrite page_get_flat by apply H. done.
      + apply list_elem_of_lookup_2, Hdead in Hp. congruence. }
  split; [|apply table_slots_snoc]. constructor; try done. intros r. unfold view_get. by rewrite Hcur.
Qed.

Lemma view_reserve_spec count : ∀ fuel t,
  views_ok t → (count <= view_room t + N.of_nat fuel)%N →
  ∃ ok t', view_reserve_loop fuel t count = Ret (ok, t') ∧ view_paged t t' ∧
    if (ok : bool) then (count <= view_room t')%N
    else memory_short ∨ (U32_MAX < tv_slots t + count + PAGE_SLOTS)%N.
Proof.
  induction fuel as [|fuel IH]; intros t H Hf; simpl; rewrite available_room by done;
    destruct (N.ltb_spec (view_room t) count) as [Hlt|Hge].
  - lia.
  - exists true, t. split_and!; [done|by apply view_paged_refl|done].
  - destruct (view_page_spec t H) as (ok & t1 & E & Hp & Hok). rewrite E. destruct ok.
    + destruct (IH t1) as (ok & t2 & E2 & Hp2 & Hr); [apply Hp| |].
      * pose proof (st_slots _ _ _ _ _ _ (vf_slots _ _ _ _ _ _ _ (vo_flat t H))) as Hs.
        rewrite length_flat in Hs by apply H. unfold view_room in *.
        rewrite (vp_free _ _ Hp), (vp_slots _ _ Hp), Hok. unfold PAGE_SLOTS. lia.
      * exists ok, t2. rewrite (vp_slots _ _ Hp) in Hr. split_and!; [done|by eapply view_paged_trans|done].
    + destruct Hok as [-> Hwhy]. exists false, t. split_and!; [done|by apply view_paged_refl|].
      destruct Hwhy as [?|Hwhy]; [by left|right]. unfold view_room in Hlt. lia.
  - exists true, t. split_and!; [done|by apply view_paged_refl|done].
Qed.

Lemma try_reserve_batch_spec t count needs :
  views_ok t → ∃ ok t', try_reserve_batch t count needs = Ret (ok, t') ∧ view_paged t t' ∧
    if (ok : bool)
    then (count <= view_room t')%N ∧
      (needs = true → (0 < count)%N → (lenN (tv_roots t) < U32_MAX)%N ∨ tv_free_roots t ≠ [])
    else memory_short ∨ (U32_MAX <= lenN (tv_roots t))%N ∨ (U32_MAX < tv_slots t + count + PAGE_SLOTS)%N.
Proof.
  intros H. unfold try_reserve_batch. destruct (N.eqb_spec count 0) as [->|Hc].
  { exists true, t. split_and!; [done|by apply view_paged_refl|lia|]. intros _ ?. lia. }
  destruct (needs && _) eqn:En.
  - exists false, t. split_and!; [done|by apply view_paged_refl|]. apply andb_true_iff in En as [_ En].
    apply orb_true_iff in En as [En|En]; [right; left|left].
    + apply andb_true_iff in En as [En _]. by apply N.leb_le.
    + eexists. by apply negb_true_iff.
  - destruct (view_reserve_spec count (N.to_nat count) t H) as (ok & t' & E & Hp & Hr); [lia|].
    exists ok, t'. split_and!; [done..|]. destruct ok; [|tauto]. split; [done|]. intros -> _.
    apply andb_false_iff in En as [En|En]; [done|]. apply orb_false_iff in En as [En _].
    apply andb_false_iff in En as [En|En]; [left; by apply N.leb_gt in En|right].
    by apply bool_decide_eq_false in En.
Qed.

(** *** Filling a batch *)

Record filling (t : TextViewTable) (root : N) (owner : Owner) (remaining installed : N) : Prop := {
  fl_slots : slots_ok te_generation te_is_live (tv_pages t) (tv_generations t) (tv_slots t) (tv_free t);
  fl_room : (table_slots (tv_pages t) <= U32_MAX)%N;
  fl_live : (tv_live t + installed)%N = sumN view_lives (concat (tv_pages t));
  fl_root : ∀ i e, concat (tv_pages t) !! i = Some e → te_is_live e = true →
    is_Some (root_at (tv_roots t) (te_root e));
  fl_refs : ∀ j r, root_at (tv_roots t) j = Some r →
    tr_references r = (sumN (view_names j) (concat (tv_pages t)) + if (j =? root)%N then remaining else 0)%N ∧
    (0 < tr_references r)%N;
  fl_roots_room : (lenN (tv_roots t) <= U32_MAX)%N;
  fl_free_nodup : NoDup (tv_free_roots t);
  fl_free_roots : ∀ j, j ∈ tv_free_roots t → tv_roots t !! N.to_nat j = Some None;
  fl_this : ∃ r, root_at (tv_roots t) root = Some r ∧ tr_owner r = owner;
}.

Lemma filling_done t root owner installed :
  filling t root owner 0 installed →
  views_ok (set_view_pages t (tv_pages t) (tv_generations t) (tv_slots t) (tv_free t) (tv_live t + installed)).
Proof.
  intros H. pose proof (fl_slots _ _ _ _ _ H) as Hs. split; simpl; [apply Hs|apply H|]. constructor; try apply H; try apply Hs.
  intros j r Hj. destruct (fl_refs _ _ _ _ _ H j r Hj) as [E ?]. split; [|done]. rewrite E. case_match; lia.
Qed.

(** The slot the next view takes. *)
Record fresh_slot (t t1 : TextViewTable) (s : N) (e : TextViewEntry) : Prop := {
  fs_take : take_view_slot t = Ret (s, t1);
  fs_pages : tv_pages t1 = tv_pages t;
  fs_generations : tv_generations t1 = tv_generations t;
  fs_live : tv_live t1 = tv_live t;
  fs_roots : tv_roots t1 = tv_roots t;
  fs_free_roots : tv_free_roots t1 = tv_free_roots t;
  fs_entry : page_get (tv_pages t) s = Some e;
  fs_dead : te_is_live e = false;
  fs_slots : (tv_slots t <= tv_slots t1 <= table_slots (tv_pages t))%N;
  fs_mark : (s < tv_slots t1)%N;
  fs_nodup : NoDup (tv_free t1);
  fs_free : ∀ f, f ∈ tv_free t1 → f ∈ tv_free t ∧ f ≠ s;
  fs_room : (view_room t1 + 1 = view_room t)%N;
}.

Lemma take_view_slot_spec t :
  slots_ok te_generation te_is_live (tv_pages t) (tv_generations t) (tv_slots t) (tv_free t) →
  (table_slots (tv_pages t) <= U32_MAX)%N → (0 < view_room t)%N → ∃ s t1 e, fresh_slot t t1 s e.
Proof.
  intros H Hroom Hpos. pose proof (st_pages _ _ _ _ _ _ H) as Hp. pose proof (st_flat _ _ _ _ _ _ H) as Hf.
  destruct (tv_free t) as [|s free] eqn:Ef.
  - assert (Hlt : (tv_slots t < table_slots (tv_pages t))%N).
    { unfold view_room, lenN in Hpos. rewrite Ef in Hpos. simpl in Hpos. lia. }
    destruct (slots_at _ _ _ _ _ _ _ H Hlt) as [e He].
    eexists _, _, e. constructor.
    + unfold take_view_slot. rewrite Ef. fold (table_slots (tv_pages t)).
      rewrite (proj2 (N.eqb_neq _ _)) by lia. simpl. unfold add_usize.
      rewrite (proj2 (N.leb_le _ _)) by (unfold USIZE_MAX, U64_MAX, U32_MAX in *; lia). simpl. reflexivity.
    + done.
    + done.
    + done.
    + done.
    + done.
    + by rewrite as_u32_small by lia.
    + destruct (te_is_live e) eqn:El; [|done]. rewrite page_get_flat in He by done.
      pose proof (st_live _ _ _ _ _ _ Hf _ _ He El). lia.
    + simpl. lia.
    + simpl. rewrite as_u32_small by lia. lia.
    + simpl. rewrite Ef. constructor.
    + simpl. rewrite Ef. by intros f ?%not_elem_of_nil.
    + unfold view_room. simpl. lia.
  - destruct (st_free _ _ _ _ _ _ Hf s) as (Hlt & e & He & Hd); [by left|].
    pose proof (st_nodup _ _ _ _ _ _ Hf) as [Hn1 Hn2]%NoDup_cons.
    pose proof (st_slots _ _ _ _ _ _ Hf) as Hs. rewrite length_flat in Hs by done.
    exists s, (set_view_pages t (tv_pages t) (tv_generations t) (tv_slots t) free (tv_live t)), e.
    constructor; try done.
    + unfold take_view_slot. by rewrite Ef.
    + by rewrite page_get_flat.
    + simpl. intros f Hff. rewrite Ef. split; [by right|]. by intros ->.
    + unfold view_room, lenN. simpl. rewrite Ef. simpl. lia.
Qed.

Section fill.
Context (t t1 : TextViewTable) (root : N) (owner : Owner) (remaining installed s : N)
  (e : TextViewEntry) (view : View).
Context (H : filling t root owner (remaining + 1) installed) (Hs : fresh_slot t t1 s e).
Let e' := mkViewEntry (te_generation e) root view.
Let t2 := set_view_pages t1 (page_set (tv_pages t1) s e') (tv_generations t1) (tv_slots t1)
            (tv_free t1) (tv_live t1).

Lemma fill_live : te_is_live e' = true.
Proof.
  unfold te_is_live, e'. simpl. destruct (fl_this _ _ _ _ _ H) as (r & Hr & _). apply root_at_Some in Hr.
  apply lookup_lt_Some in Hr. pose proof (fl_roots_room _ _ _ _ _ H). unfold DEAD_ROOT, lenN, U32_MAX in *.
  apply negb_true_iff, N.eqb_neq. lia.
Qed.

Lemma fill_flat : concat (tv_pages t2) = <[N.to_nat s := e']> (concat (tv_pages t)).
Proof. simpl. rewrite (fs_pages _ _ _ _ Hs). apply page_set_flat, H. Qed.

Lemma fill_at : concat (tv_pages t) !! N.to_nat s = Some e.
Proof. rewrite <-page_get_flat by apply H. apply Hs. Qed.

Lemma fill_filling : filling t2 root owner remaining (installed + 1).
Proof.
  pose proof fill_live as Hl. pose proof fill_at as Hat.
  assert (Hlook : ∀ i x, concat (tv_pages t2) !! i = Some x → x = e' ∨ concat (tv_pages t) !! i = Some x).
  { intros i x. rewrite fill_flat. intros [(_ & <- & _)|[_ ?]]%list_lookup_insert_Some; [by left|by right]. }
  constructor.
  - simpl. rewrite (fs_pages _ _ _ _ Hs), (fs_generations _ _ _ _ Hs).
    eapply slots_fill; [apply H|apply Hs|done|apply Hs..].
  - simpl. rewrite page_set_slots, (fs_pages _ _ _ _ Hs). apply H.
  - rewrite fill_flat. pose proof (sumN_insert view_lives _ _ _ e' Hat) as E.
    unfold view_lives at 2 4 in E. rewrite Hl, (fs_dead _ _ _ _ Hs) in E. simpl in *.
    rewrite (fs_live _ _ _ _ Hs). pose proof (fl_live _ _ _ _ _ H). lia.
  - intros i x [->|Hi]%Hlook Hx; simpl; rewrite (fs_roots _ _ _ _ Hs); [|by eapply fl_root].
    destruct (fl_this _ _ _ _ _ H) as (r & Hr & _). by exists r.
  - intros j r. simpl. rewrite (fs_roots _ _ _ _ Hs). intros Hj.
    destruct (fl_refs _ _ _ _ _ H j r Hj) as [E ?]. split; [|done]. rewrite E.
    change (page_set (tv_pages t1) s e') with (tv_pages t2). rewrite fill_flat.
    pose proof (sumN_insert (view_names j) _ _ _ e' Hat) as E2.
    unfold view_names at 2 4 in E2. rewrite Hl, (fs_dead _ _ _ _ Hs) in E2. simpl in E2.
    rewrite (N.eqb_sym root j) in E2. destruct (j =? root)%N; simpl in E2; lia.
  - simpl. rewrite (fs_roots _ _ _ _ Hs). apply H.
  - simpl. rewrite (fs_free_roots _ _ _ _ Hs). apply H.
  - simpl. rewrite (fs_roots _ _ _ _ Hs), (fs_free_roots _ _ _ _ Hs). apply H.
  - simpl. rewrite (fs_roots _ _ _ _ Hs). apply H.
Qed.

Lemma fill_get s' : page_get (tv_pages t2) s' = if decide (s' = s) then Some e' else page_get (tv_pages t) s'.
Proof.
  simpl. rewrite (fs_pages _ _ _ _ Hs). apply page_get_set; [apply H|]. eapply page_get_lt; [apply H|apply Hs].
Qed.
End fill.

(** [e] is a view of [root] that the reference [r] names. *)
Definition installed_as (t : TextViewTable) (root : N) (r : ObjRef) (view : View) : Prop :=
  ∃ e, page_get (tv_pages t) (obj_slot r) = Some e ∧ te_is_live e = true ∧ r = view_ref (obj_slot r) e ∧
    te_root e = root ∧ te_view e = view ∧ (te_generation e <= GENERATION_MASK)%N.

Lemma install_views_spec root owner views : ∀ t values installed,
  filling t root owner (lenN views) installed → (lenN views <= view_room t)%N →
  ∃ t' refs, install_views t root views values = Ret (t', values ++ (VObj <$> refs)) ∧
    filling t' root owner 0 (installed + lenN views) ∧
    tv_roots t' = tv_roots t ∧ tv_live t' = tv_live t ∧
    Forall2 (installed_as t' root) refs views ∧
    (∀ s e, page_get (tv_pages t) s = Some e → te_is_live e = true → page_get (tv_pages t') s = Some e) ∧
    (∀ r, r ∈ refs → ∃ e, page_get (tv_pages t) (obj_slot r) = Some e ∧ te_is_live e = false) ∧
    (∀ s e, page_get (tv_pages t') s = Some e → te_is_live e = true →
       page_get (tv_pages t) s = Some e ∨ view_ref s e ∈ refs).
Proof.
  induction views as [|view views IH]; intros t values installed H Hroom.
  { exists t, []. simpl. rewrite app_nil_r, N.add_0_r. split_and!; try done; [|by left].
    intros r Hr. by apply not_elem_of_nil in Hr. }
  assert (Hcount : lenN (view :: views) = (lenN views + 1)%N) by (unfold lenN; simpl; lia).
  rewrite Hcount in *.
  destruct (take_view_slot_spec t) as (s & t1 & e & Hs); [apply H..|lia|].
  pose proof (fill_filling t t1 root owner (lenN views) installed s e view H Hs) as H2.
  pose proof (fill_get t t1 root owner (lenN views) installed s e view H Hs) as Hget.
  pose proof (fill_live t root owner (lenN views) installed e view H) as Hlive.
  set (e' := mkViewEntry (te_generation e) root view) in *.
  set (t2 := set_view_pages t1 _ _ _ _ _) in *.
  destruct (IH t2 (values ++ [VObj (view_ref s e')]) (installed + 1)%N H2) as
    (t3 & refs & E3 & H3 & Er3 & El3 & Hinst & Hold & Hfresh & Hnew).
  { pose proof (fs_room _ _ _ _ Hs) as Hr. unfold view_room in *. simpl. rewrite page_set_slots. lia. }
  exists t3, (view_ref s e' :: refs). split_and!.
  - simpl. rewrite (fs_take _ _ _ _ Hs). simpl. unfold view_entry. rewrite (fs_pages _ _ _ _ Hs), (fs_entry _ _ _ _ Hs).
    simpl. unfold te_replace. rewrite (fs_dead _ _ _ _ Hs). simpl. fold e'.
    change (mkObjRef s (N.lor (te_generation e) TEXT_VIEW_GENERATION_TAG)) with (view_ref s e').
    rewrite <-(fs_pages _ _ _ _ Hs). fold t2. rewrite E3. by rewrite <-app_assoc.
  - by replace (installed + (lenN views + 1))%N with (installed + 1 + lenN views)%N by lia.
  - rewrite Er3. apply (fs_roots _ _ _ _ Hs).
  - rewrite El3. apply (fs_live _ _ _ _ Hs).
  - constructor; [|done]. exists e'. simpl.
    assert (page_get (tv_pages t2) s = Some e') as Hs2 by (rewrite Hget; by rewrite decide_True).
    split_and!; [by apply Hold|done|done|done|done|].
    eapply (flat_mask te_generation te_is_live); [apply (fl_slots _ _ _ _ _ H)|]. apply (fill_at t t1 root owner (lenN views) installed s e H Hs).
  - intros s' x Hx Hxl. apply Hold; [|done]. rewrite Hget, decide_False; [done|].
    intros ->. rewrite (fs_entry _ _ _ _ Hs) in Hx. simplify_eq. by rewrite (fs_dead _ _ _ _ Hs) in Hxl.
  - intros r [->|Hr]%elem_of_cons.
    + exists e. split; [apply (fs_entry _ _ _ _ Hs)|apply Hs].
    + destruct (Hfresh r Hr) as (x & Hx & Hd). rewrite Hget in Hx. case_decide; [|by exists x].
      simplify_eq. congruence.
  - intros s' x Hx Hxl. destruct (Hnew s' x Hx Hxl) as [Hx2|Hx2]; [|right; by right].
    rewrite Hget in Hx2. case_decide; [|by left]. simplify_eq. right. by left.
Qed.

(** *** Charging the root *)

Lemma names_none t j : views_ok t → root_at (tv_roots t) j = None → sumN (view_names j) (concat (tv_pages t)) = 0%N.
Proof.
  intros H Hj. apply sumN_zero. intros i e Hi. unfold view_names.
  destruct (te_is_live e) eqn:El; [|done]. destruct (vf_root _ _ _ _ _ _ _ (vo_flat t H) i e Hi El) as [r Hr].
  destruct (N.eqb_spec (te_root e) j); [|done]. congruence.
Qed.

Lemma names_le j flat : (sumN (view_names j) flat <= lenN flat)%N.
Proof.
  induction flat as [|e flat IH]; [done|]. unfold lenN in *. simpl. unfold view_names at 1, one_if. case_match; lia.
Qed.

(** The views of one allocation are among the live views. *)
Lemma sumN_swap {A B} (f : A → B → N) (l : list A) (k : list B) :
  sumN (λ a, sumN (f a) k) l = sumN (λ b, sumN (λ a, f a b) l) k.
Proof.
  induction l as [|a l IH]; simpl; [symmetry; by apply sumN_zero|]. rewrite IH. clear IH.
  induction k as [|b k IHk]; simpl; [done|]. lia.
Qed.

Lemma sumN_seq_le {A} (f : A → N) (g : nat → N) (l : list A) : ∀ start,
  (∀ j x, l !! j = Some x → (f x <= g (start + j)%nat)%N) → (sumN f l <= sumN g (seq start (length l)))%N.
Proof.
  induction l as [|x l IH]; intros start H; simpl; [done|].
  pose proof (H 0 x eq_refl) as H0. rewrite Nat.add_0_r in H0.
  specialize (IH (S start)). assert (sumN f l <= sumN g (seq (S start) (length l)))%N; [|lia].
  apply IH. intros j y Hy. replace (S start + j) with (start + S j) by lia. by apply H.
Qed.

Lemma names_once e n : ∀ start,
  (sumN (λ j, view_names (N.of_nat j) e) (seq start n) <= view_lives e)%N ∧
  ((te_root e < N.of_nat start)%N → sumN (λ j, view_names (N.of_nat j) e) (seq start n) = 0%N).
Proof.
  induction n as [|n IH]; intros start; simpl; [split; [lia|done]|].
  destruct (IH (S start)) as [IH1 IH2]. unfold view_names at 1 3. unfold view_lives, one_if in *.
  destruct (te_is_live e); simpl; [|split; [lia|intros; rewrite IH2 by lia; done]].
  destruct (N.eqb_spec (te_root e) (N.of_nat start)) as [E|E]; simpl.
  - rewrite IH2 by lia. split; lia.
  - split; [lia|]. intros Hlt. rewrite IH2 by lia. done.
Qed.

Lemma views_key_le t key : views_ok t → (views_key t key <= tv_live t)%N.
Proof.
  intros H. pose proof (vo_flat t H) as Hf. rewrite (vf_live _ _ _ _ _ _ _ Hf). unfold views_key, roots_key.
  transitivity (sumN (λ j, sumN (view_names (N.of_nat j)) (concat (tv_pages t))) (seq 0 (length (tv_roots t)))).
  - apply sumN_seq_le. intros j [root|] Hj; simpl; [|lia]. case_match; [|lia].
    destruct (vf_refs _ _ _ _ _ _ _ Hf (N.of_nat j) root) as [-> _]; [|done].
    apply root_at_Some. by rewrite Nat2N.id.
  - rewrite (sumN_swap (λ j, view_names (N.of_nat j))). clear. induction (concat (tv_pages t)) as [|e l IH]; simpl; [done|].
    pose proof (proj1 (names_once e (length (tv_roots t)) 0)). lia.
Qed.

Lemma live_le t : views_ok t → (tv_live t <= U32_MAX)%N.
Proof.
  intros H. rewrite (vf_live _ _ _ _ _ _ _ (vo_flat t H)). etrans; [apply lives_le|].
  rewrite length_flat by apply H. apply H.
Qed.

(** The references a root holds, 0 when there is none. *)
Definition held (roots : list (option TextViewRoot)) (j : N) : N := default 0%N (tr_references <$> root_at roots j).

Lemma held_names t j : views_ok t → held (tv_roots t) j = sumN (view_names j) (concat (tv_pages t)).
Proof.
  intros H. unfold held. destruct (root_at (tv_roots t) j) as [r|] eqn:E; simpl; [|by rewrite names_none].
  by apply (vf_refs _ _ _ _ _ _ _ (vo_flat t H)).
Qed.

Lemma filling_start t roots free_roots root owner count :
  views_ok t → (0 < count)%N →
  (∀ j, root_at roots j =
     if decide (j = root) then Some (mkRoot owner (held (tv_roots t) root + count)) else root_at (tv_roots t) j) →
  (∀ r, root_at (tv_roots t) root = Some r → tr_owner r = owner) →
  (lenN roots <= U32_MAX)%N → NoDup free_roots → (∀ j, j ∈ free_roots → roots !! N.to_nat j = Some None) →
  filling (set_view_roots t roots free_roots) root owner count 0.
Proof.
  intros H Hc Hroots Howner Hroom Hnd Hfree. pose proof (vo_flat t H) as Hf. constructor; simpl; try done.
  - by apply views_slots.
  - apply H.
  - rewrite N.add_0_r. apply Hf.
  - intros i e Hi Hl. rewrite Hroots. case_decide; [by eexists|]. by eapply vf_root.
  - intros j r. rewrite Hroots. destruct (N.eqb_spec j root) as [->|Hne].
    + rewrite decide_True by done. intros [= <-]. simpl. rewrite held_names by done. split; lia.
    + rewrite decide_False by done. intros Hj. rewrite N.add_0_r. by apply (vf_refs _ _ _ _ _ _ _ Hf).
  - rewrite Hroots, decide_True by done. by eexists.
Qed.

(** The owner a batch reads from. *)
Definition batch_owner (t : TextViewTable) (b : TextViewBatch) : option Owner :=
  match tb_owner b with NewOwner owner => Some owner | ExistingOwner r => fst <$> view_get t r end.

Definition root_room (t : TextViewTable) (b : TextViewBatch) : Prop :=
  needs_new_owner b = true → (lenN (tv_roots t) < U32_MAX)%N ∨ tv_free_roots t ≠ [].

(** [t1] is [t] with [count] references of [owner] charged to [root]. *)
Record charged (t t1 : TextViewTable) (root : N) (owner : Owner) (count : N) : Prop := {
  cg_filling : filling t1 root owner count 0;
  cg_pages : tv_pages t1 = tv_pages t;
  cg_room : view_room t1 = view_room t;
  cg_live : tv_live t1 = tv_live t;
  cg_owners : ∀ j r, root_at (tv_roots t) j = Some r →
    ∃ r', root_at (tv_roots t1) j = Some r' ∧ tr_owner r' = tr_owner r;
  cg_keys : ∀ k, views_key t1 k = (views_key t k + if (k =? owner_key owner)%N then count else 0)%N;
}.

Lemma root_at_insert roots i o j :
  (N.to_nat i < length roots)%nat → root_at (<[N.to_nat i := o]> roots) j = if decide (j = i) then o else root_at roots j.
Proof.
  intros Hi. unfold root_at. case_decide as E.
  - subst j. by rewrite list_lookup_insert_eq.
  - by rewrite list_lookup_insert_ne by lia.
Qed.

Lemma owners_replaced roots roots1 root owner references :
  (∀ j, root_at roots1 j = if decide (j = root) then Some (mkRoot owner references) else root_at roots j) →
  (∀ r, root_at roots root = Some r → tr_owner r = owner) →
  ∀ j r, root_at roots j = Some r → ∃ r', root_at roots1 j = Some r' ∧ tr_owner r' = tr_owner r.
Proof.
  intros Hroots Howner j r Hj. rewrite Hroots. case_decide as E; [|by exists r]. subst j.
  eexists. split; [done|]. simpl. symmetry. by apply Howner.
Qed.

Lemma batch_root_new t owner count :
  views_ok t → (0 < count)%N → (lenN (tv_roots t) < U32_MAX)%N ∨ tv_free_roots t ≠ [] →
  ∃ root t1, batch_root t (NewOwner owner) count = Ret (root, t1) ∧ charged t t1 root owner count.
Proof.
  intros H Hc Hroom. pose proof (vo_flat t H) as Hf. simpl. unfold install_root.
  destruct (tv_free_roots t) as [|index free_roots] eqn:Ef.
  - destruct Hroom as [Hroom|]; [|done]. rewrite as_u32_small by lia. eexists _, _. split; [done|].
    assert (Hnone : root_at (tv_roots t) (lenN (tv_roots t)) = None).
    { unfold root_at, lenN. rewrite Nat2N.id. by rewrite lookup_ge_None_2. }
    assert (Hroots : ∀ j, root_at (tv_roots t ++ [Some (mkRoot owner count)]) j =
      if decide (j = lenN (tv_roots t)) then Some (mkRoot owner (held (tv_roots t) (lenN (tv_roots t)) + count))
      else root_at (tv_roots t) j).
    { intros j. unfold held. rewrite Hnone. simpl. unfold root_at, lenN. case_decide as E.
      - subst j. rewrite Nat2N.id. by rewrite list_lookup_middle.
      - destruct (decide (N.to_nat j < length (tv_roots t))); [by rewrite lookup_app_l|].
        rewrite !lookup_ge_None_2; [done|lia|rewrite length_app; simpl; lia]. }
    constructor; try done.
    + apply filling_start; try done; [by rewrite Hnone|unfold lenN in *; rewrite length_app; simpl; lia|constructor|].
      by intros j Hj%not_elem_of_nil.
    + eapply owners_replaced; [exact Hroots|by rewrite Hnone].
    + intros k. unfold views_key, roots_key. simpl. rewrite sumN_app. simpl. rewrite N.eqb_sym. lia.
  - pose proof (vf_free_roots _ _ _ _ _ _ _ Hf index) as Hi. specialize (Hi ltac:(by left)).
    pose proof (vf_free_nodup _ _ _ _ _ _ _ Hf) as Hnd. apply NoDup_cons in Hnd as [Hnd1 Hnd2].
    pose proof (lookup_lt_Some _ _ _ Hi) as Hlt. rewrite Hi. simpl. eexists _, _. split; [done|].
    assert (Hnone : root_at (tv_roots t) index = None) by (unfold root_at; by rewrite Hi).
    assert (Hroots : ∀ j, root_at (<[N.to_nat index := Some (mkRoot owner count)]> (tv_roots t)) j =
      if decide (j = index) then Some (mkRoot owner (held (tv_roots t) index + count)) else root_at (tv_roots t) j).
    { intros j. unfold held. rewrite Hnone. by apply root_at_insert. }
    constructor; try done.
    + apply filling_start; try done; [by rewrite Hnone|unfold lenN; rewrite length_insert; apply Hf|].
      intros j Hj. rewrite list_lookup_insert_ne.
      * apply (vf_free_roots _ _ _ _ _ _ _ Hf). by right.
      * intros E. apply Hnd1. by replace index with j by lia.
    + eapply owners_replaced; [exact Hroots|by rewrite Hnone].
    + intros k. unfold views_key, roots_key. simpl. rewrite N.eqb_sym.
      pose proof (sumN_insert (root_key k) _ _ _ (Some (mkRoot owner count)) Hi) as E. simpl in E. lia.
Qed.

Lemma batch_root_existing t r owner view count :
  views_ok t → (0 < count)%N → (count <= view_room t)%N → view_get t r = Some (owner, view) →
  ∃ root t1, batch_root t (ExistingOwner r) count = Ret (root, t1) ∧ charged t t1 root owner count.
Proof.
  intros H Hc Hroom Hg. pose proof (vo_flat t H) as Hf. unfold view_get in Hg.
  destruct (view_current t r) as [e|] eqn:Ec; [|done]. simpl in Hg.
  destruct (root_at (tv_roots t) (te_root e)) as [root|] eqn:Er; [|done]. injection Hg as <- _.
  pose proof (proj1 (root_at_Some _ _ _) Er) as Hi. pose proof (lookup_lt_Some _ _ _ Hi) as Hlt.
  assert (Eh : held (tv_roots t) (te_root e) = tr_references root) by (unfold held; by rewrite Er).
  assert (Hfit : (tr_references root + count <= USIZE_MAX)%N).
  { rewrite <-Eh, held_names by done. pose proof (names_le (te_root e) (concat (tv_pages t))) as Hn.
    rewrite length_flat in Hn by apply H. pose proof (vo_room t H). unfold view_room in Hroom.
    pose proof (free_le _ _ _ _ _ _ (vf_slots _ _ _ _ _ _ _ Hf)).
    pose proof (st_slots _ _ _ _ _ _ (vf_slots _ _ _ _ _ _ _ Hf)) as Hs. rewrite length_flat in Hs by apply H.
    unfold USIZE_MAX, U64_MAX, U32_MAX in *. lia. }
  simpl. unfold existing_root. rewrite Ec. simpl. rewrite Er. simpl. rewrite Er. simpl. unfold add_usize.
  rewrite (proj2 (N.leb_le _ _) Hfit). simpl. eexists _, _. split; [done|].
  assert (Hroots : ∀ j, root_at (<[N.to_nat (te_root e) := Some (mkRoot (tr_owner root) (tr_references root + count))]> (tv_roots t)) j =
    if decide (j = te_root e) then Some (mkRoot (tr_owner root) (held (tv_roots t) (te_root e) + count)) else root_at (tv_roots t) j).
  { intros j. rewrite Eh. by apply root_at_insert. }
  constructor; try done.
  - apply filling_start; try done; [rewrite Er; by intros ? [= <-]|unfold lenN; rewrite length_insert; apply Hf|apply Hf|].
    intros j Hj. pose proof (vf_free_roots _ _ _ _ _ _ _ Hf j Hj) as Hj'. rewrite list_lookup_insert_ne; [done|].
    intros E. rewrite E in Hi. congruence.
  - eapply owners_replaced; [exact Hroots|rewrite Er; by intros ? [= <-]].
  - intros k. unfold views_key, roots_key. simpl. rewrite N.eqb_sym.
    pose proof (sumN_insert (root_key k) _ _ _ (Some (mkRoot (tr_owner root) (tr_references root + count))) Hi) as E.
    simpl in E. destruct (owner_key (tr_owner root) =? k)%N; lia.
Qed.

Lemma batch_root_spec t b owner count :
  views_ok t → (0 < count)%N → (count <= view_room t)%N → batch_owner t b = Some owner → root_room t b →
  ∃ root t1, batch_root t (tb_owner b) count = Ret (root, t1) ∧ charged t t1 root owner count.
Proof.
  unfold batch_owner, root_room, needs_new_owner. intros H Hc Hroom Ho Hr. destruct (tb_owner b) as [o|r].
  - injection Ho as ->. apply batch_root_new; [done..|]. by apply Hr.
  - destruct (view_get t r) as [[o v]|] eqn:Eg; [|done]. injection Ho as ->. by eapply batch_root_existing.
Qed.

Lemma mask_tag g : (g <= GENERATION_MASK)%N → N.land (N.lor g TEXT_VIEW_GENERATION_TAG) GENERATION_MASK = g.
Proof.
  change TEXT_VIEW_GENERATION_TAG with (2 ^ 31)%N. change GENERATION_MASK with (N.ones 31). intros Hg.
  rewrite N.land_lor_distr_l, !N.land_ones, (N.Div0.mod_same (2 ^ 31)), N.lor_0_r. apply N.mod_small.
  change (N.ones 31) with (2 ^ 31 - 1)%N in Hg. lia.
Qed.

Lemma is_reference_tag s g : is_reference (mkObjRef s (N.lor g TEXT_VIEW_GENERATION_TAG)) = true.
Proof.
  unfold is_reference. simpl. change TEXT_VIEW_GENERATION_TAG with (2 ^ 31)%N.
  apply negb_true_iff, N.eqb_neq. intros E.
  assert (N.testbit (N.land (N.lor g (2 ^ 31)) (2 ^ 31)) 31 = true) as Ht.
  { by rewrite N.land_spec, N.lor_spec, N.pow2_bits_true, orb_true_r. }
  by rewrite E in Ht.
Qed.

Lemma installed_current t root r view :
  installed_as t root r view → ∃ e, view_current t r = Some e ∧ te_root e = root ∧ te_view e = view.
Proof.
  intros (e & Hp & Hl & Er & Eroot & Ev & Hm). exists e. split_and!; try done. apply view_current_Some.
  rewrite Er at 1 3. unfold view_ref. rewrite is_reference_tag. simpl. by rewrite mask_tag.
Qed.

(** What a batch leaves behind: [refs] read its views, every other reference
    reads what it did. *)
Record batch_installed (t t' : TextViewTable) (owner : Owner) (views : list View) (refs : list ObjRef) : Prop := {
  bi_ok : views_ok t';
  bi_live : tv_live t' = (tv_live t + lenN views)%N;
  bi_keys : ∀ k, views_key t' k = (views_key t k + if (k =? owner_key owner)%N then lenN views else 0)%N;
  bi_refs : Forall2 (λ r view, view_get t' r = Some (owner, view)) refs views;
  bi_fresh : ∀ r, r ∈ refs → view_get t r = None;
  bi_other : ∀ r, (obj_generation r <= U32_MAX)%N → r ∉ refs → view_get t' r = view_get t r;
}.

Lemma install_batch_spec t b owner values :
  views_ok t → (lenN (tb_views b) <= view_room t)%N → batch_owner t b = Some owner →
  (tb_views b ≠ [] → root_room t b) →
  ∃ t' refs, install_batch t b values = Ret (t', values ++ (VObj <$> refs)) ∧
    batch_installed t t' owner (tb_views b) refs.
Proof.
  intros H Hroom Ho Hr. unfold install_batch. destruct (tb_views b) as [|view views] eqn:Ev.
  { simpl. exists t, []. rewrite app_nil_r. split; [done|]. constructor; try done.
    - unfold lenN. simpl. lia.
    - intros k. case_match; unfold lenN; simpl; lia.
    - by intros r Hr'%not_elem_of_nil. }
  rewrite <-Ev in *. set (count := lenN (tb_views b)) in *.
  assert (Hc : (0 < count)%N) by (unfold count, lenN; rewrite Ev; simpl; lia).
  rewrite (proj2 (N.eqb_neq count 0)) by lia. rewrite available_room by done.
  rewrite (proj2 (N.leb_le _ _) Hroom). simpl.
  destruct (batch_root_spec t b owner count) as (root & t1 & E1 & [Hfill Epages Eroom Elive Howners Hkeys]); try done.
  { apply Hr. by rewrite Ev. }
  rewrite E1. simpl.
  destruct (install_views_spec root owner (tb_views b) t1 values 0 Hfill) as
    (t2 & refs & E2 & H2 & Er2 & El2 & Hinst & Hold & Hfresh & Hnew); [by rewrite Eroom|].
  rewrite E2. simpl. rewrite N.add_0_l in H2. fold count in H2.
  pose proof (filling_done _ _ _ _ H2) as H3. pose proof (vo_flat _ H3) as Hf3.
  assert (Hfit : (tv_live t2 + count <= USIZE_MAX)%N).
  { pose proof (vf_live _ _ _ _ _ _ _ Hf3) as E3. simpl in E3. rewrite E3.
    etrans; [apply lives_le|]. pose proof (vo_room _ H3) as Hr3. pose proof (length_flat _ (vo_pages _ H3)) as Hl3.
    simpl in Hr3, Hl3. rewrite Hl3. unfold USIZE_MAX, U64_MAX, U32_MAX in *. lia. }
  unfold add_usize. rewrite (proj2 (N.leb_le _ _) Hfit). simpl. eexists _, refs. split; [done|].
  set (t3 := set_view_pages _ _ _ _ _ _) in *. fold (tv_pages t2) in *.
  assert (Hsome : ∀ r, is_Some (view_get t r) → view_get t3 r = view_get t r).
  { intros r Hs. apply view_get_current in Hs as [e Hc']; [|done].
    destruct (view_live_root t r e H Hc') as [held Hheld]. destruct (Howners _ _ Hheld) as (held' & Hheld' & Eo).
    unfold view_get. rewrite Hc'. simpl. rewrite Hheld. simpl.
    apply view_current_Some in Hc' as (Hi & Hp & Hl & Hg).
    assert (view_current t3 r = Some e) as ->.
    { apply view_current_Some. split_and!; try done. apply Hold; [by rewrite Epages|done]. }
    simpl. rewrite Er2, Hheld'. simpl. by rewrite Eo. }
  constructor.
  - done.
  - simpl. by rewrite El2, Elive.
  - intros k. unfold views_key. simpl. rewrite Er2. apply Hkeys.
  - eapply Forall2_impl; [exact Hinst|]. intros r v (e & Hc3 & Ero & Evi)%installed_current.
    unfold view_get. change (view_current t3 r) with (view_current t2 r). rewrite Hc3. simpl. rewrite Ero.
    destruct (fl_this _ _ _ _ _ H2) as (held & Hheld & Eo). rewrite Hheld. simpl. by rewrite Eo, Evi.
  - intros r Hr'. destruct (Hfresh r Hr') as (e & He & Hd). rewrite Epages in He. by eapply view_get_dead.
  - intros r Hw Hn. destruct (view_get t r) as [x|] eqn:Eg; [by rewrite Hsome, Eg|].
    destruct (view_get t3 r) as [y|] eqn:Eg3; [|done].
    destruct (proj1 (view_get_current t3 r H3) (ex_intro _ y Eg3)) as [e Hc3].
    pose proof (view_ref_current _ _ _ Hw Hc3) as Eref. apply view_current_Some in Hc3 as (Hi & Hp & Hl & Hg).
    destruct (Hnew _ _ Hp Hl) as [Hp1|Hin]; [|by rewrite Eref in Hin].
    rewrite Epages in Hp1. assert (Hc0 : view_current t r = Some e) by (by apply view_current_Some).
    destruct (proj2 (view_get_current t r H) (ex_intro _ e Hc0)) as [z Hz]. congruence.
Qed.
End Batch.
