(* ===== verification/MapIndex.v ===== *)
(** * The lookup index of a map

    lm-heap/src/shape.rs: the structural epoch of a collection, map entries with
    their tombstones, and the open-addressed index over the entries.  The index
    is a cache: [built] counts the indexed prefix of the entries. *)

From stdpp Require Import base numbers option list.
From S2P Require Import Prelude Fault Value Pages TextViews.

(** *** Epochs *)

(** A collection epoch; 0 is not observed yet. *)
Record StructuralEpoch := mkEpoch { ep_value : N }.

Definition epoch_default : StructuralEpoch := mkEpoch 0.
Definition epoch_observe (e : StructuralEpoch) : N * StructuralEpoch :=
  let e := if (ep_value e =? 0)%N then mkEpoch 1 else e in (ep_value e, e).
Definition ensure_bumpable (e : StructuralEpoch) : result unit FaultCode :=
  if (ep_value e =? 0)%N then Ok tt
  else if (ep_value e =? U32_MAX)%N then Err CollectionEpochExhausted else Ok tt.
Definition epoch_bump (e : StructuralEpoch) : result StructuralEpoch FaultCode :=
  if (ep_value e =? 0)%N then Ok e
  else match ensure_bumpable e with Err fault => Err fault | Ok _ => Ok (mkEpoch (ep_value e + 1)) end.

(** *** Entries *)

Record MapEntry := mkMapEntry { me_key : Value; me_value : Value; me_semantic_hash : Z }.

Definition me_is_live (e : MapEntry) : bool := match me_key e with VUninit => false | _ => true end.
Definition me_remove (e : MapEntry) : exec (Value * MapEntry) :=
  guard_panic (me_is_live e);; Ret (me_value e, mkMapEntry VUninit VUninit 0).

(** *** The index *)

Definition EMPTY_MAP_ENTRY : N := U32_MAX.
Definition MIN_MAP_SLOTS : N := 8.

Record MapSlot := mkMapSlot { ms_hash : N; ms_entry : N }.
Definition MapSlot_EMPTY : MapSlot := mkMapSlot 0 EMPTY_MAP_ENTRY.
Definition ms_is_empty (s : MapSlot) : bool := (ms_entry s =? EMPTY_MAP_ENTRY)%N.

Record MapIndex := mkIndex {
  mi_built : N;
  mi_live : N;
  mi_epoch : StructuralEpoch;
  mi_slots : list MapSlot;
}.

Definition index_with_live (epoch : StructuralEpoch) (live : N) : exec MapIndex :=
  guard_panic (live <=? U32_MAX)%N;; Ret (mkIndex 0 live epoch []).

(** [a + b] and [a * b] on machine words, with the checks of a debug build. *)
Definition add_u32 (a b : N) : exec N := if (a + b <=? U32_MAX)%N then Ret (a + b)%N else Panic.
Definition mul_usize (a b : N) : exec N := if (a * b <=? USIZE_MAX)%N then Ret (a * b)%N else Panic.

Definition rotate_left_u64 (x k : N) : N :=
  N.lor (N.land (N.shiftl x k) U64_MAX) (N.shiftr x (64 - k)).
Definition rotate_right_u64 (x k : N) : N :=
  N.lor (N.shiftr x k) (N.land (N.shiftl x (64 - k)) U64_MAX).

(** The home slot of a hash; [len] is a power of two. *)
Definition map_slot (hash len : N) : exec N :=
  if (len =? 0)%N then Ret 0%N
  else
    guard_panic (bool_decide (len = 2 ^ N.log2 len)%N);;
    let mixed := N.lxor (N.lxor hash (rotate_right_u64 hash 25)) (rotate_left_u64 hash 17) in
    Ret (N.land mixed (len - 1)).

Definition slot_after (at_ len : N) : N := N.land (at_ + 1) (len - 1).

(** The first empty slot from [at_]; a full table loops for ever. *)
Fixpoint insert_probe (fuel : nat) (slots : list MapSlot) (at_ : N) (slot : MapSlot) : exec (list MapSlot) :=
  match fuel with
  | O => NoFuel
  | S fuel =>
      held ← of_option (slots !! N.to_nat at_);
      if ms_is_empty held then Ret (<[N.to_nat at_ := slot]> slots)
      else insert_probe fuel slots (slot_after at_ (lenN slots)) slot
  end.

(** One round of the table is enough when a slot is empty. *)
Definition insert_map_slot (slots : list MapSlot) (hash entry : N) : exec (list MapSlot) :=
  at_ ← map_slot hash (lenN slots); insert_probe (length slots) slots at_ (mkMapSlot hash entry).

Fixpoint insert_all (old slots : list MapSlot) : exec (list MapSlot) :=
  match old with
  | [] => Ret slots
  | slot :: old =>
      slots ← (if ms_is_empty slot then Ret slots else insert_map_slot slots (ms_hash slot) (ms_entry slot));
      insert_all old slots
  end.

Definition grow_slots (slots : list MapSlot) : exec (list MapSlot) :=
  doubled ← mul_usize (lenN slots) 2;
  insert_all slots (replicate (N.to_nat (N.max doubled MIN_MAP_SLOTS)) MapSlot_EMPTY).

Definition index_insert (i : MapIndex) (hash entry : N) : exec MapIndex :=
  guard_panic (entry =? mi_built i)%N;;
  next ← add_usize (mi_built i) 1;
  required ← mul_usize (N.max (mi_live i) next) 3;
  filled ← mul_usize (lenN (mi_slots i)) 2;
  slots ← (if bool_decide (mi_slots i = []) || (filled <? required)%N then grow_slots (mi_slots i) else Ret (mi_slots i));
  slots ← insert_map_slot slots hash entry;
  built ← add_u32 (mi_built i) 1;
  Ret (mkIndex built (mi_live i) (mi_epoch i) slots).

Definition push_live (i : MapIndex) (hash entry : N) : exec MapIndex :=
  index_insert (mkIndex (mi_built i) (N.min (mi_live i + 1) U32_MAX) (mi_epoch i) (mi_slots i)) hash entry.

Definition skip_tombstone (i : MapIndex) (entry : N) : exec MapIndex :=
  guard_panic (entry =? mi_built i)%N;;
  built ← add_u32 (mi_built i) 1;
  Ret (mkIndex built (mi_live i) (mi_epoch i) (mi_slots i)).

Definition record_removal (i : MapIndex) : exec MapIndex :=
  guard_panic (0 <? mi_live i)%N;; Ret (mkIndex (mi_built i) (mi_live i - 1) (mi_epoch i) (mi_slots i)).

Definition needs_compaction (i : MapIndex) (storage_len : N) : bool :=
  let tombstones := saturating_sub storage_len (mi_live i) in
  (8 <=? tombstones)%N && (storage_len <? saturating_mul_usize tombstones 3)%N.

Definition record_compaction (i : MapIndex) : MapIndex := mkIndex 0 (mi_live i) (mi_epoch i) [].
Definition index_reset (i : MapIndex) : MapIndex := mkIndex 0 0 (mi_epoch i) [].
Definition index_clear (i : MapIndex) : MapIndex := mkIndex 0 (mi_live i) (mi_epoch i) [].

Definition index_entry_at (i : MapIndex) (slot : N) : option N :=
  held ← mi_slots i !! N.to_nat slot; if ms_is_empty held then None else Some (ms_entry held).

(** *** Lookup *)

Fixpoint probe_loop (remaining : nat) (slots : list MapSlot) (hash next : N) : exec (option (N * N)) :=
  match remaining with
  | O => Ret None
  | S remaining =>
      slot ← of_option (slots !! N.to_nat next);
      if ms_is_empty slot then Ret None
      else if (ms_hash slot =? hash)%N then Ret (Some (as_u32 next, ms_entry slot))
      else probe_loop remaining slots hash (slot_after next (lenN slots))
  end.

Definition probe (i : MapIndex) (hash : N) (prior : option N) : exec (option (N * N)) :=
  if bool_decide (mi_slots i = []) then Ret None
  else
    next ← match prior with
           | Some slot => Ret (slot_after slot (lenN (mi_slots i)))
           | None => map_slot hash (lenN (mi_slots i))
           end;
    probe_loop (length (mi_slots i)) (mi_slots i) hash next.

(** The candidates an iterator over [remaining] slots yields. *)
Fixpoint candidates_loop (remaining : nat) (slots : list MapSlot) (hash next : N) : exec (list N) :=
  match remaining with
  | O => Ret []
  | S remaining =>
      slot ← of_option (slots !! N.to_nat next);
      if ms_is_empty slot then Ret []
      else
        rest ← candidates_loop remaining slots hash (slot_after next (lenN slots));
        Ret (if (ms_hash slot =? hash)%N then ms_entry slot :: rest else rest)
  end.

Definition candidates (i : MapIndex) (hash : N) : exec (list N) :=
  next ← map_slot hash (lenN (mi_slots i)); candidates_loop (length (mi_slots i)) (mi_slots i) hash next.
