(* ===== verification/MapIndexFacts.v ===== *)
(** * The lookup index finds what was inserted

    [table_ok]: linear probing from the home slot of every indexed hash meets no
    empty slot before it, and the occupied slots are the indexed entries.  An
    insertion therefore ends, and the candidates of a hash are exactly the
    entries indexed under it, also across growth. *)

From stdpp Require Import base numbers option list.
From S2P Require Import Prelude Fault Value Pages TextViews MapIndex.

(** *** Positions of a probe *)

Definition posn (n home : N) (k : nat) : N := ((home + N.of_nat k) mod n)%N.

Lemma mod_wrap x n : (x < 2 * n)%N → (x mod n = if x <? n then x else x - n)%N.
Proof.
  intros Hx. destruct (N.ltb_spec x n); [by apply N.mod_small|].
  symmetry. apply N.mod_unique with 1%N; lia.
Qed.

Lemma posn_lt n home k : (0 < n)%N → (posn n home k < n)%N.
Proof. intros Hn. unfold posn. apply N.mod_lt. lia. Qed.

Lemma posn_inj n home j k :
  (home < n)%N → (N.of_nat j < n)%N → (N.of_nat k < n)%N → posn n home j = posn n home k → j = k.
Proof.
  intros Hh Hj Hk. unfold posn. rewrite !mod_wrap by lia.
  repeat case_match; to_prop; lia.
Qed.

Lemma posn_cover n home p : (home < n)%N → (p < n)%N → ∃ k, (N.of_nat k < n)%N ∧ posn n home k = p.
Proof.
  intros Hh Hp. exists (N.to_nat (if (home <=? p) then p - home else p + n - home)%N).
  unfold posn. rewrite N2Nat.id. destruct (N.leb_spec home p).
  - split; [lia|]. rewrite N.mod_small; lia.
  - split; [lia|]. rewrite mod_wrap by lia. case_match; to_prop; lia.
Qed.

Definition pow2 (n : N) : Prop := (n = 2 ^ N.log2 n)%N.

Lemma land_mod n x : pow2 n → (N.land x (n - 1) = x mod n)%N.
Proof.
  intros Hp. unfold pow2 in Hp. rewrite Hp. replace (2 ^ N.log2 n - 1)%N with (N.ones (N.log2 n)); [apply N.land_ones|].
  rewrite N.ones_equiv. lia.
Qed.

Lemma posn_next n home k : pow2 n → (0 < n)%N → slot_after (posn n home k) n = posn n home (S k).
Proof.
  intros Hp Hn. unfold slot_after, posn. rewrite land_mod by done. rewrite N.Div0.add_mod_idemp_l. f_equal. lia.
Qed.

Definition home (hash n : N) : N :=
  N.land (N.lxor (N.lxor hash (rotate_right_u64 hash 25)) (rotate_left_u64 hash 17)) (n - 1).

Lemma home_lt hash n : pow2 n → (0 < n)%N → (home hash n < n)%N.
Proof. intros Hp Hn. unfold home. rewrite land_mod by done. apply N.mod_lt. lia. Qed.

Lemma map_slot_home hash n : pow2 n → (0 < n)%N → map_slot hash n = Ret (home hash n).
Proof.
  intros Hp Hn. unfold map_slot. rewrite (proj2 (N.eqb_neq n 0)) by lia. by rewrite bool_decide_true.
Qed.

(** The first position where a test holds. *)
Lemma least (P : nat → bool) d : P d = true → ∃ m, m ≤ d ∧ P m = true ∧ ∀ j, j < m → P j = false.
Proof.
  induction d as [d IH] using lt_wf_ind. intros Hd.
  destruct (existsb P (seq 0 d)) eqn:E.
  - apply existsb_exists in E as (j & Hj & Pj). apply in_seq in Hj.
    destruct (IH j ltac:(lia) Pj) as (m & ? & ? & ?). exists m. split_and!; [lia|done..].
  - exists d. split_and!; [done..|]. intros j Hj. apply not_true_is_false. intros Pj.
    assert (existsb P (seq 0 d) = true); [|congruence]. apply existsb_exists. exists j. split; [|done]. apply in_seq. lia.
Qed.

(** *** Tables *)

Definition occupied (slots : list MapSlot) : list MapSlot := filter (λ s, ms_is_empty s = false) slots.

(** The slot at the [k]-th step of a probe. *)
Definition probed (slots : list MapSlot) (start : N) (k : nat) : MapSlot :=
  default MapSlot_EMPTY (slots !! N.to_nat (posn (lenN slots) start k)).

Record table_ok (slots content : list MapSlot) : Prop := {
  to_pow2 : pow2 (lenN slots);
  to_some : (0 < lenN slots)%N;
  to_content : occupied slots ≡ₚ content;
  to_probe : ∀ s k, ms_is_empty s = false → (N.of_nat k < lenN slots)%N →
    probed slots (home (ms_hash s) (lenN slots)) k = s →
    ∀ j, j < k → ms_is_empty (probed slots (home (ms_hash s) (lenN slots)) j) = false;
}.

Lemma probed_at slots start k : (0 < lenN slots)%N →
  slots !! N.to_nat (posn (lenN slots) start k) = Some (probed slots start k).
Proof.
  intros Hn. unfold probed. pose proof (posn_lt (lenN slots) start k Hn) as Hp.
  destruct (slots !! N.to_nat (posn (lenN slots) start k)) eqn:E; [done|].
  apply lookup_ge_None in E. unfold lenN in *. lia.
Qed.

Lemma occupied_elem slots s : s ∈ occupied slots ↔ ms_is_empty s = false ∧ s ∈ slots.
Proof. unfold occupied. by rewrite list_elem_of_filter. Qed.

(** A table with fewer entries than slots has an empty slot on every probe. *)
Lemma empty_probe slots content start :
  table_ok slots content → (lenN content < lenN slots)%N → (start < lenN slots)%N →
  ∃ d, (N.of_nat d < lenN slots)%N ∧ ms_is_empty (probed slots start d) = true ∧
    ∀ j, j < d → ms_is_empty (probed slots start j) = false.
Proof.
  intros H Hlt Hs. destruct (existsb ms_is_empty slots) eqn:E.
  - apply existsb_exists in E as (s & Hin & He). apply list_elem_of_In, list_elem_of_lookup in Hin as [p Hp].
    destruct (posn_cover (lenN slots) start (N.of_nat p)) as (k & Hk & Ek); [done| |].
    { apply lookup_lt_Some in Hp. unfold lenN. lia. }
    assert (Hpk : probed slots start k = s) by (unfold probed; by rewrite Ek, Nat2N.id, Hp).
    destruct (least (λ d, ms_is_empty (probed slots start d)) k) as (m & Hm & He' & Hj); [by rewrite Hpk|].
    exists m. split_and!; [lia|done|done].
  - exfalso. assert (Hall : occupied slots = slots).
    { unfold occupied. clear -E. induction slots as [|s slots IH]; [done|]. simpl in E. apply orb_false_iff in E as [E1 E2].
      rewrite filter_cons, decide_True by done. by rewrite IH. }
    pose proof (Permutation_length (to_content _ _ H)) as Hl. rewrite Hall in Hl. unfold lenN in Hlt. lia.
Qed.

Lemma insert_probe_spec slots start slot d : pow2 (lenN slots) → (0 < lenN slots)%N →
  ms_is_empty (probed slots start d) = true → (∀ j, j < d → ms_is_empty (probed slots start j) = false) →
  ∀ m k fuel, d - k = m → k ≤ d → d - k < fuel →
  insert_probe fuel slots (posn (lenN slots) start k) slot = Ret (<[N.to_nat (posn (lenN slots) start d) := slot]> slots).
Proof.
  intros Hp Hn He Hj. induction m as [|m IH]; intros k fuel Hm Hk Hf; (destruct fuel as [|fuel]; [lia|]);
    cbn [insert_probe]; rewrite probed_at by done; cbn [of_option mbind exec_bind].
  - assert (k = d) as -> by lia. by rewrite He.
  - rewrite (Hj k) by lia. rewrite posn_next by done. apply IH; lia.
Qed.

Lemma probed_insert slots start p s k : (0 < lenN slots)%N → (p < lenN slots)%N →
  probed (<[N.to_nat p := s]> slots) start k =
    if decide (posn (lenN slots) start k = p) then s else probed slots start k.
Proof.
  intros Hn Hp. unfold probed. assert (El : lenN (<[N.to_nat p := s]> slots) = lenN slots) by (unfold lenN; by rewrite length_insert).
  rewrite El. case_decide as E.
  - rewrite E, list_lookup_insert_eq; [done|]. unfold lenN in Hp. lia.
  - by rewrite list_lookup_insert_ne by lia.
Qed.

Lemma occupied_insert slots i old s :
  slots !! i = Some old → ms_is_empty old = true → ms_is_empty s = false → occupied (<[i := s]> slots) ≡ₚ s :: occupied slots.
Proof.
  intros Hi He Hs. rewrite <-(take_drop_middle slots i old Hi) at 2.
  rewrite insert_take_drop by (by eapply lookup_lt_Some). unfold occupied. rewrite !filter_app, !filter_cons.
  rewrite decide_True by done. rewrite (decide_False (P := ms_is_empty old = false)) by congruence.
  by rewrite Permutation_middle.
Qed.

(** Inserting ends in the first empty slot of the probe. *)
Lemma insert_map_slot_spec slots content hash entry :
  table_ok slots content → (lenN content < lenN slots)%N → entry ≠ EMPTY_MAP_ENTRY →
  ∃ slots', insert_map_slot slots hash entry = Ret slots' ∧ table_ok slots' (mkMapSlot hash entry :: content) ∧
    lenN slots' = lenN slots.
Proof.
  intros H Hlt Hne. pose proof (to_pow2 _ _ H) as Hp. pose proof (to_some _ _ H) as Hn.
  set (start := home hash (lenN slots)). assert (Hs : (start < lenN slots)%N) by (by apply home_lt).
  destruct (empty_probe slots content start H Hlt Hs) as (d & Hd & He & Hj).
  set (new := mkMapSlot hash entry). set (p := posn (lenN slots) start d).
  assert (Hp0 : (p < lenN slots)%N) by (by apply posn_lt).
  assert (Hnew : ms_is_empty new = false) by (by apply N.eqb_neq).
  exists (<[N.to_nat p := new]> slots).
  assert (El : lenN (<[N.to_nat p := new]> slots) = lenN slots) by (unfold lenN; by rewrite length_insert).
  split_and!; [| |done].
  - unfold insert_map_slot. rewrite map_slot_home by done. cbn [mbind exec_bind].
    replace (home hash (lenN slots)) with (posn (lenN slots) start 0) by (unfold posn; rewrite N.add_0_r; by apply N.mod_small).
    eapply insert_probe_spec; [done..| |lia|]; [done|]. unfold lenN in Hd. lia.
  - constructor; rewrite ?El; try done.
    + rewrite (occupied_insert slots (N.to_nat p) (probed slots start d)) by (done || by apply probed_at). by rewrite (to_content _ _ H).
    + intros s k Hse Hk Hat j Hjk. rewrite probed_insert in Hat |- * by done.
      destruct (decide (posn (lenN slots) (home (ms_hash s) (lenN slots)) j = p)) as [Ej|Nj]; [done|].
      destruct (decide (posn (lenN slots) (home (ms_hash s) (lenN slots)) k = p)) as [Ek|Nk]; [|by eapply (to_probe _ _ H s k)].
      rewrite <-Hat in *. assert (k = d) as -> by (eapply posn_inj; [exact Hs|done..]). by apply Hj.
Qed.

Lemma empty_table n : pow2 n → (0 < n)%N → table_ok (replicate (N.to_nat n) MapSlot_EMPTY) [].
Proof.
  intros Hp Hn. assert (El : lenN (replicate (N.to_nat n) MapSlot_EMPTY) = n) by (unfold lenN; rewrite length_replicate; lia).
  constructor; rewrite ?El; try done.
  - unfold occupied. clear. induction (N.to_nat n) as [|m IH]; [done|]. by rewrite replicate_S, filter_cons, decide_False.
  - intros s k Hs Hk Hat. exfalso. unfold probed in Hat. set (i := N.to_nat (posn _ _ _)) in Hat.
    destruct (replicate (N.to_nat n) MapSlot_EMPTY !! i) eqn:E; simpl in Hat; subst s; [|done].
    by apply lookup_replicate in E as [-> _].
Qed.

(** Growing keeps every entry. *)
Lemma insert_all_spec old : ∀ slots content,
  table_ok slots content → (lenN content + lenN (occupied old) < lenN slots)%N →
  ∃ slots', insert_all old slots = Ret slots' ∧ table_ok slots' (occupied old ++ content) ∧ lenN slots' = lenN slots.
Proof.
  induction old as [|s old IH]; intros slots content H Hlt; [by exists slots|].
  unfold occupied in *. rewrite filter_cons in *. cbn [insert_all]. destruct (ms_is_empty s) eqn:Es.
  - rewrite decide_False in * by congruence. cbn [mbind exec_bind]. by apply IH.
  - rewrite decide_True in * by done. unfold lenN in Hlt at 2. simpl in Hlt.
    destruct (insert_map_slot_spec slots content (ms_hash s) (ms_entry s) H) as (slots1 & E1 & H1 & El1); [unfold lenN in *; lia|by apply N.eqb_neq|].
    rewrite E1. cbn [mbind exec_bind]. destruct (IH slots1 (s :: content)) as (slots2 & E2 & H2 & El2).
    + by destruct s.
    + rewrite El1. unfold lenN in *. simpl. lia.
    + exists slots2. split_and!; [done| |by rewrite El2].
      destruct H2. constructor; try done. etrans; [exact to_content0|]. symmetry. apply Permutation_middle.
Qed.

(** *** Lookup *)

(** The candidates are the matching slots of the run from the home slot. *)
Lemma candidates_run slots start hash d : pow2 (lenN slots) → (0 < lenN slots)%N →
  (N.of_nat d < lenN slots)%N → ms_is_empty (probed slots start d) = true →
  (∀ j, j < d → ms_is_empty (probed slots start j) = false) →
  ∀ m k fuel, d - k = m → k ≤ d → d - k < fuel →
  candidates_loop fuel slots hash (posn (lenN slots) start k) =
    Ret (ms_entry <$> filter (λ s, ms_hash s = hash) (probed slots start <$> seq k (d - k))).
Proof.
  intros Hp Hn Hd He Hj. induction m as [|m IH]; intros k fuel Hm Hk Hf; (destruct fuel as [|fuel]; [lia|]);
    cbn [candidates_loop]; rewrite probed_at by done; cbn [of_option mbind exec_bind].
  - assert (k = d) as -> by lia. rewrite He, Nat.sub_diag. done.
  - rewrite (Hj k) by lia. rewrite posn_next by done. rewrite (IH (S k)) by lia. cbn [mbind exec_bind].
    replace (d - k) with (S (d - S k)) by lia. cbn [seq]. rewrite fmap_cons, filter_cons.
    destruct (N.eqb_spec (ms_hash (probed slots start k)) hash) as [Eh|Nh];
      [by rewrite decide_True|by rewrite decide_False].
Qed.

Lemma fmap_seq_lookup (slots : list MapSlot) :
  (λ p, default MapSlot_EMPTY (slots !! p)) <$> seq 0 (length slots) = slots.
Proof.
  induction slots as [|s slots IH]; [done|]. cbn [length seq]. rewrite fmap_cons, <-fmap_S_seq, <-list_fmap_compose.
  simpl. f_equal. exact IH.
Qed.

Lemma filter_fmap {A B} (P : B → Prop) `{!∀ x, Decision (P x)} (f : A → B) (l : list A) :
  filter P (f <$> l) = f <$> filter (λ a, P (f a)) l.
Proof.
  induction l as [|a l IH]; [done|]. rewrite fmap_cons, !filter_cons.
  destruct (decide (P (f a))); [|done]. by rewrite fmap_cons, IH.
Qed.

Lemma filter_all {A} (P Q : A → Prop) `{!∀ x, Decision (P x), !∀ x, Decision (Q x)} (l : list A) :
  Forall Q l → filter P l = filter (λ x, P x ∧ Q x) l.
Proof.
  induction 1 as [|x l Hx _ IH]; [done|]. rewrite !filter_cons, IH.
  destruct (decide (P x)), (decide (P x ∧ Q x)); naive_solver.
Qed.

(** Positions of the slots that hold [hash]. *)
Lemma matching_positions slots content hash d :
  table_ok slots content → let start := home hash (lenN slots) in
  (N.of_nat d < lenN slots)%N → ms_is_empty (probed slots start d) = true →
  (∀ j, j < d → ms_is_empty (probed slots start j) = false) →
  filter (λ s, ms_hash s = hash) (occupied slots) ≡ₚ filter (λ s, ms_hash s = hash) (probed slots start <$> seq 0 d).
Proof.
  intros H start Hd He Hj. pose proof (to_pow2 _ _ H) as Hp. pose proof (to_some _ _ H) as Hn.
  assert (Hs : (start < lenN slots)%N) by (by apply home_lt).
  set (get := λ p, default MapSlot_EMPTY (slots !! p)).
  set (Q := λ s : MapSlot, ms_hash s = hash ∧ ms_is_empty s = false).
  assert (Eget : ∀ k, probed slots start k = get (N.to_nat (posn (lenN slots) start k))) by done.
  assert (E1 : filter (λ s, ms_hash s = hash) (occupied slots) = get <$> filter (λ p, Q (get p)) (seq 0 (length slots))).
  { unfold occupied. rewrite list_filter_filter, <-(fmap_seq_lookup slots) at 1. by rewrite filter_fmap. }
  assert (E2 : filter (λ s, ms_hash s = hash) (probed slots start <$> seq 0 d)
    = get <$> filter (λ p, Q (get p)) ((λ k, N.to_nat (posn (lenN slots) start k)) <$> seq 0 d)).
  { rewrite (filter_all _ (λ s, ms_is_empty s = false)).
    - transitivity (filter Q (get <$> ((λ k, N.to_nat (posn (lenN slots) start k)) <$> seq 0 d)));
        [by rewrite <-list_fmap_compose|apply filter_fmap].
    - apply Forall_fmap, list.Forall_forall. intros k Hk%elem_of_seq. apply Hj. lia. }
  rewrite E1, E2.
  apply Permutation_map, NoDup_Permutation.
  - apply NoDup_filter, NoDup_seq.
  - apply NoDup_filter, NoDup_fmap_2_strong; [|apply NoDup_seq]. intros j k Hjs%elem_of_seq Hks%elem_of_seq E.
    eapply (posn_inj (lenN slots) start); lia.
  - intros p. rewrite !list_elem_of_filter, list_elem_of_fmap, elem_of_seq. unfold Q. split.
    + intros [[Hh Hne] Hp2]. split; [done|].
      destruct (posn_cover (lenN slots) start (N.of_nat p)) as (k & Hk & Ek); [done|unfold lenN; lia|].
      exists k. split; [lia|]. apply elem_of_seq. split; [lia|]. destruct (decide (k < d)) as [|Hge]; [lia|]. exfalso.
      assert (Eg : probed slots start k = get p) by (rewrite Eget, Ek; f_equal; lia).
      assert (k ≠ d) by (intros ->; congruence).
      pose proof (to_probe _ _ H (get p) k Hne Hk) as Hpr. rewrite Hh in Hpr. fold start in Hpr.
      specialize (Hpr Eg d ltac:(lia)). congruence.
    + intros [[Hh Hne] (k & -> & Hk%elem_of_seq)]. split; [done|].
      pose proof (posn_lt (lenN slots) start k Hn). unfold lenN in *. lia.
Qed.

(** The candidates of a hash are the entries indexed under it. *)
Lemma table_candidates slots content hash :
  table_ok slots content → (lenN content < lenN slots)%N →
  ∃ entries, (next ← map_slot hash (lenN slots); candidates_loop (length slots) slots hash next) = Ret entries ∧
    entries ≡ₚ ms_entry <$> filter (λ s, ms_hash s = hash) content.
Proof.
  intros H Hlt. pose proof (to_pow2 _ _ H) as Hp. pose proof (to_some _ _ H) as Hn.
  set (start := home hash (lenN slots)). assert (Hs : (start < lenN slots)%N) by (by apply home_lt).
  destruct (empty_probe slots content start H Hlt Hs) as (d & Hd & He & Hj).
  eexists. split.
  - rewrite map_slot_home by done. cbn [mbind exec_bind]. fold start.
    assert (E0 : start = posn (lenN slots) start 0) by (unfold posn; rewrite N.add_0_r; symmetry; by apply N.mod_small).
    rewrite E0 at 1. eapply candidates_run; [done..| |lia|]; [done|]. unfold lenN in Hd. lia.
  - rewrite Nat.sub_0_r. apply Permutation_map.
    etrans; [symmetry; by eapply matching_positions|]. by rewrite (to_content _ _ H).
Qed.

(** *** The index *)

Record index_ok (i : MapIndex) (content : list MapSlot) : Prop := {
  io_content : (lenN content <= mi_built i)%N;
  io_built : (mi_built i <= U32_MAX)%N;
  io_live : (mi_live i <= U32_MAX)%N;
  io_slots : (mi_slots i = [] ∧ content = []) ∨
    (table_ok (mi_slots i) content ∧ (8 <= lenN (mi_slots i) <= 2 ^ 34)%N ∧
     (3 * lenN content <= 2 * lenN (mi_slots i))%N);
}.

Lemma index_empty built live epoch :
  (built <= U32_MAX)%N → (live <= U32_MAX)%N → index_ok (mkIndex built live epoch []) [].
Proof. intros Hb Hl. constructor; simpl; [unfold lenN; simpl; lia|done|done|by left]. Qed.

Lemma pow2_double n : pow2 n → (0 < n)%N → pow2 (2 * n).
Proof.
  unfold pow2. intros Hp Hn. rewrite N.log2_double by lia. rewrite N.pow_succ_r'. lia.
Qed.

(** The doubled table has room for the old entries and one more. *)
Lemma grow_spec i content :
  index_ok i content → (lenN (mi_slots i) * 2 <= 2 ^ 34)%N →
  ∃ slots, grow_slots (mi_slots i) = Ret slots ∧ table_ok slots content ∧
    lenN slots = N.max (lenN (mi_slots i) * 2) 8 ∧ (3 * (lenN content + 1) <= 2 * lenN slots)%N.
Proof.
  intros H Hsmall. unfold grow_slots, mul_usize, MIN_MAP_SLOTS.
  rewrite (proj2 (N.leb_le (lenN (mi_slots i) * 2) _)) by (etrans; [exact Hsmall|done]). cbn [mbind exec_bind].
  set (n := N.max (lenN (mi_slots i) * 2) 8).
  assert (Hn : pow2 n ∧ (8 <= n)%N).
  { split; [|lia]. destruct (io_slots _ _ H) as [[E _]|(Ht & Hl & _)].
    - unfold n. by rewrite E.
    - unfold n. rewrite N.max_l by lia. rewrite N.mul_comm. apply pow2_double; [apply Ht|lia]. }
  destruct Hn as [Hp Hn8].
  assert (Hocc : occupied (mi_slots i) ≡ₚ content).
  { destruct (io_slots _ _ H) as [[E ->]|(Ht & _)]; [by rewrite E|apply Ht]. }
  assert (Hload : (3 * (lenN content + 1) <= 2 * n)%N).
  { destruct (io_slots _ _ H) as [[E ->]|(Ht & Hl & Hld)]; [unfold lenN; simpl; lia|unfold n; lia]. }
  assert (El : lenN (replicate (N.to_nat n) MapSlot_EMPTY) = n) by (unfold lenN; rewrite length_replicate; lia).
  destruct (insert_all_spec (mi_slots i) (replicate (N.to_nat n) MapSlot_EMPTY) []) as (slots & E & Ht & Els).
  - apply empty_table; [done|lia].
  - rewrite El. unfold lenN at 1 2. rewrite (Permutation_length Hocc). unfold lenN in Hload. simpl. lia.
  - exists slots. rewrite app_nil_r in Ht. split_and!; [done| |by rewrite Els|by rewrite Els, El].
    destruct Ht. constructor; try done. by rewrite to_content0.
Qed.

Lemma index_insert_spec i content hash :
  index_ok i content → (mi_built i < U32_MAX)%N →
  ∃ i', index_insert i hash (mi_built i) = Ret i' ∧ index_ok i' (mkMapSlot hash (mi_built i) :: content) ∧
    mi_built i' = (mi_built i + 1)%N ∧ mi_live i' = mi_live i ∧ mi_epoch i' = mi_epoch i.
Proof.
  intros H Hb. pose proof (io_live _ _ H) as Hl. pose proof (io_content _ _ H) as Hc.
  assert (Hs : (lenN (mi_slots i) <= 2 ^ 34)%N).
  { destruct (io_slots _ _ H) as [[E _]|(_ & Hs & _)]; [by rewrite E|apply Hs]. }
  unfold index_insert, mul_usize, add_usize, add_u32. rewrite N.eqb_refl. cbn [guard_panic mbind exec_bind].
  rewrite (proj2 (N.leb_le (mi_built i + 1) USIZE_MAX)) by (unfold USIZE_MAX, U64_MAX, U32_MAX in *; lia). cbn [mbind exec_bind].
  set (required := N.max (mi_live i) (mi_built i + 1)). assert (Hr : (required <= U32_MAX)%N) by lia.
  rewrite (proj2 (N.leb_le (required * 3) USIZE_MAX)) by (unfold USIZE_MAX, U64_MAX, U32_MAX in *; lia). cbn [mbind exec_bind].
  rewrite (proj2 (N.leb_le (lenN (mi_slots i) * 2) USIZE_MAX)) by (unfold USIZE_MAX, U64_MAX in *; simpl in Hs; lia). cbn [mbind exec_bind].
  assert (Hslots : ∃ slots,
    (if bool_decide (mi_slots i = []) || (lenN (mi_slots i) * 2 <? required * 3)%N
     then grow_slots (mi_slots i) else Ret (mi_slots i)) = Ret slots ∧
    table_ok slots content ∧ (8 <= lenN slots <= 2 ^ 34)%N ∧ (3 * (lenN content + 1) <= 2 * lenN slots)%N).
  { destruct (bool_decide (mi_slots i = []) || _) eqn:Eg.
    - assert (Hsm : (lenN (mi_slots i) * 2 <= 2 ^ 34)%N).
      { apply orb_true_iff in Eg as [E%bool_decide_eq_true|E%N.ltb_lt]; [by rewrite E|]. unfold U32_MAX in Hr. simpl. lia. }
      destruct (grow_spec i content H Hsm) as (slots & E & Ht & El & Hld). exists slots. split_and!; [done|done|lia| |done].
      rewrite El. apply N.max_lub; [done|]. simpl. lia.
    - apply orb_false_iff in Eg as [E%bool_decide_eq_false El%N.ltb_ge].
      destruct (io_slots _ _ H) as [[? _]|(Ht & Hl8 & _)]; [done|]. exists (mi_slots i). split_and!; [done|done|lia|lia|].
      unfold required in El. lia. }
  destruct Hslots as (slots & -> & Ht & Hl8 & Hld). cbn [mbind exec_bind].
  destruct (insert_map_slot_spec slots content hash (mi_built i) Ht) as (slots' & E' & Ht' & El').
  { lia. }
  { unfold EMPTY_MAP_ENTRY. lia. }
  rewrite E'. cbn [mbind exec_bind]. rewrite (proj2 (N.leb_le (mi_built i + 1) U32_MAX)) by lia. cbn [mbind exec_bind].
  eexists. split; [done|]. split_and!; try done. constructor; simpl; [unfold lenN in *; simpl; lia|lia|done|].
  right. rewrite El'. split_and!; [done|lia|lia|]. unfold lenN in *. simpl. lia.
Qed.

Lemma skip_tombstone_spec i content :
  index_ok i content → (mi_built i < U32_MAX)%N →
  ∃ i', skip_tombstone i (mi_built i) = Ret i' ∧ index_ok i' content ∧
    mi_built i' = (mi_built i + 1)%N ∧ mi_live i' = mi_live i ∧ mi_epoch i' = mi_epoch i.
Proof.
  intros [H1 H2 H3 H4] Hb. unfold skip_tombstone, add_u32. rewrite N.eqb_refl. cbn [guard_panic mbind exec_bind].
  rewrite (proj2 (N.leb_le _ _)) by lia. eexists. split; [done|]. split; [|done]. constructor; simpl; [lia|lia|done|done].
Qed.

Lemma candidates_spec i content hash :
  index_ok i content →
  ∃ entries, candidates i hash = Ret entries ∧ entries ≡ₚ ms_entry <$> filter (λ s, ms_hash s = hash) content.
Proof.
  intros H. unfold candidates. destruct (io_slots _ _ H) as [[E ->]|(Ht & Hl & Hld)].
  - rewrite E. by exists [].
  - apply table_candidates; [done|]. lia.
Qed.

(** The loop of [ensure_map_index] over the entries from [position] on:
    [Some hash] for a live entry, [None] for a tombstone. *)
Fixpoint extend_index (i : MapIndex) (position : N) (items : list (option N)) : exec MapIndex :=
  match items with
  | [] => Ret i
  | Some hash :: items => i ← index_insert i hash (as_u32 position); extend_index i (position + 1) items
  | None :: items => i ← skip_tombstone i (as_u32 position); extend_index i (position + 1) items
  end.

(** The entries from [start] on that hold [hash]. *)
Definition entries_with (hash start : N) (items : list (option N)) : list N :=
  concat (imap (λ j item, if decide (item = Some hash) then [(start + N.of_nat j)%N] else []) items).

Lemma entries_with_cons hash start item items :
  entries_with hash start (item :: items) =
    (if decide (item = Some hash) then [start] else []) ++ entries_with hash (start + 1) items.
Proof.
  unfold entries_with. cbn [imap concat]. rewrite N.add_0_r. f_equal. f_equal. apply imap_ext.
  intros j x _. simpl. replace (start + N.of_nat (S j))%N with (start + 1 + N.of_nat j)%N by lia. done.
Qed.

Lemma extend_index_spec items : ∀ i content,
  index_ok i content → (mi_built i + lenN items <= U32_MAX)%N →
  ∃ i' content', extend_index i (mi_built i) items = Ret i' ∧ index_ok i' content' ∧
    mi_built i' = (mi_built i + lenN items)%N ∧ mi_live i' = mi_live i ∧ mi_epoch i' = mi_epoch i ∧
    ∀ hash, (ms_entry <$> filter (λ s, ms_hash s = hash) content') ≡ₚ
      entries_with hash (mi_built i) items ++ (ms_entry <$> filter (λ s, ms_hash s = hash) content).
Proof.
  induction items as [|item items IH]; intros i content H Hb.
  { exists i, content. split_and!; [done|done|unfold lenN; simpl; lia|done..]. }
  assert (El : lenN (item :: items) = (1 + lenN items)%N) by (unfold lenN; simpl; lia). rewrite El in *.
  destruct item as [h|]; cbn [extend_index]; rewrite as_u32_small by lia.
  - destruct (index_insert_spec i content h H) as (i1 & E1 & H1 & Eb & El1 & Ee1); [lia|]. rewrite E1. cbn [mbind exec_bind].
    destruct (IH i1 _ H1) as (i2 & c2 & E2 & H2 & Eb2 & El2 & Ee2 & Hp); [lia|].
    exists i2, c2. rewrite <-Eb. split_and!; [done|done|lia|congruence|congruence|]. intros hash.
    rewrite entries_with_cons, Hp, Eb, filter_cons. simpl.
    destruct (decide (h = hash)) as [->|Hne].
    + rewrite decide_True by done. simpl. by rewrite Permutation_middle.
    + rewrite decide_False by congruence. done.
  - destruct (skip_tombstone_spec i content H) as (i1 & E1 & H1 & Eb & El1 & Ee1); [lia|]. rewrite E1. cbn [mbind exec_bind].
    destruct (IH i1 _ H1) as (i2 & c2 & E2 & H2 & Eb2 & El2 & Ee2 & Hp); [lia|].
    exists i2, c2. rewrite <-Eb. split_and!; [done|done|lia|congruence|congruence|]. intros hash. by rewrite entries_with_cons, Hp, Eb.
Qed.

Lemma entries_with_app hash start l k :
  entries_with hash start (l ++ k) = entries_with hash start l ++ entries_with hash (start + lenN l) k.
Proof.
  revert start. induction l as [|x l IH]; intros start; cbn [app].
  { unfold lenN. simpl. by rewrite N.add_0_r. }
  rewrite !entries_with_cons, IH, <-app_assoc. do 3 f_equal. unfold lenN. simpl. lia.
Qed.
