(* ===== verification/Heap.v ===== *)
(** * The object heap

    lm-heap/src/lib.rs: the object table with its generations and free list,
    the byte and object accounts, the ledger of shared allocations, host
    roots, the digest cache, and the sweep that the collector of [Graph] drives.

    [Heap] has the fields of the source's struct.  The objects themselves
    (lm-heap/src/shape.rs) are the type [Obj] of the class [HeapTypes], which
    states what the heap reads of an object: its base cost, its shared
    allocation, its children.  The graph work tables are threaded by [Graph];
    the addresses kept for compiled code and the layout constants are not
    modelled, nor is compaction. *)

From stdpp Require Import base numbers option gmap list.
From S2P Require Import Prelude Value Pages TextViews.

#[export] Instance ObjRef_countable : Countable ObjRef :=
  inj_countable' (λ r, (obj_slot r, obj_generation r)) (λ p, mkObjRef p.1 p.2)
    (λ r, match r with mkObjRef _ _ => eq_refl end).

Definition OBJECT_GENERATION_MASK : N := 0x7fffffff.
Definition INITIAL_COLLECTION_BYTES : N := 4194304.

(** The logical cost of a header, and of every object at least. *)
Definition MIN_OBJECT_COST : N := 32.
(** [size_of::<Value>()]. *)
Definition VALUE_SIZE : N := 16.

Class HeapTypes := {
  heap_texts :: TextTypes;
  Obj : Type;
  heap_base_cost : Obj → N;
  shared_allocation : Obj → option (N * N);
  shared_allocation_is_unique : Obj → bool;
  born_frozen : Obj → bool;
  object_children : Obj → list ObjRef;
  (** [shape().boundary == HolderLocal] and [shape().snapshot == HostAttachment]. *)
  shape_holder_local : Obj → bool;
  shape_host_attachment : Obj → bool;
  (** [Object::List] over values, at the first epoch. *)
  list_object : list Value → Obj;
  (** [Object::Substring] of a compact view. *)
  substring_object : Owner → View → Obj;
}.

(** What the heap relies on of the objects it makes and charges. *)
Class HeapLaws `{HT : HeapTypes} := {
  cost_at_least : ∀ object, (MIN_OBJECT_COST <= heap_base_cost object)%N;
  list_cost : ∀ values, heap_base_cost (list_object values) = (MIN_OBJECT_COST + lenN values * VALUE_SIZE)%N;
  list_shared : ∀ values, shared_allocation (list_object values) = None;
  list_frozen : ∀ values, born_frozen (list_object values) = false;
  substring_children : ∀ owner view, object_children (substring_object owner view) = [];
}.

Definition next_collection_threshold (used_bytes cap_bytes : N) : N :=
  N.min cap_bytes (N.max INITIAL_COLLECTION_BYTES (saturating_mul_usize used_bytes 2)).

(** [shared] is the key of the shared allocation charged through the object. *)
Record Header := mkHeader { hd_frozen : bool; hd_bytes : N; hd_shared : option N }.

Record SharedCharge := mkCharge { ch_capacity : N; ch_references : N }.

Abbreviation SharedAllocations := (gmap N SharedCharge).

Definition remove_shared_references (allocations : SharedAllocations) (key references : N) :
    exec (N * SharedAllocations) :=
  match allocations !! key with
  | None => Panic
  | Some charge =>
      left ← of_option (checked_sub (ch_references charge) references);
      if negb (left =? 0)%N then Ret (0%N, <[key := mkCharge (ch_capacity charge) left]> allocations)
      else Ret (ch_capacity charge, delete key allocations)
  end.

(** A digest is 32 bytes; [None] names the untyped digest. *)
Record DigestCacheEntry := mkDigests { dg_generation : N; dg_values : list (option N * list N) }.

Section Heap.
Context `{HT : HeapTypes} `{HM : HostMemory}.

Record Entry := mkEntry { en_generation : N; en_state : option (Header * Obj) }.

Definition entry_dead (generation : N) : Entry := mkEntry generation None.
Definition en_is_live (e : Entry) : bool := bool_decide (is_Some (en_state e)).
Definition en_object (e : Entry) : option Obj := snd <$> en_state e.
Definition en_replace (e : Entry) (header : Header) (object : Obj) : exec Entry :=
  guard_panic (negb (en_is_live e));; Ret (mkEntry (en_generation e) (Some (header, object))).
(** The header of a live entry, and the entry without its object. *)
Definition en_take (e : Entry) : option (Header * Entry) :=
  '(header, _) ← en_state e; Some (header, entry_dead (en_generation e)).

Record Heap := mkHeap {
  hp_pages : list (list Entry);
  hp_generations : list N;
  hp_slots : N;
  hp_free : list N;
  hp_live : N;
  hp_used_bytes : N;
  hp_cap_bytes : N;
  hp_collection_threshold : N;
  hp_collections : N;
  hp_host_roots : list ObjRef;
  hp_digests : gmap ObjRef DigestCacheEntry;
  hp_shared_allocations : SharedAllocations;
  hp_text_views : TextViewTable;
}.

Definition heap_new (cap_bytes : N) : Heap :=
  mkHeap [] [] 0 [] 0 0 cap_bytes (N.min cap_bytes INITIAL_COLLECTION_BYTES) 0 [] ∅ ∅ text_views_default.

Definition set_objects (h : Heap) pages generations slots free : Heap :=
  mkHeap pages generations slots free (hp_live h) (hp_used_bytes h) (hp_cap_bytes h)
    (hp_collection_threshold h) (hp_collections h) (hp_host_roots h) (hp_digests h)
    (hp_shared_allocations h) (hp_text_views h).
Definition set_account (h : Heap) live used_bytes : Heap :=
  mkHeap (hp_pages h) (hp_generations h) (hp_slots h) (hp_free h) live used_bytes (hp_cap_bytes h)
    (hp_collection_threshold h) (hp_collections h) (hp_host_roots h) (hp_digests h)
    (hp_shared_allocations h) (hp_text_views h).
Definition set_threshold (h : Heap) threshold collections : Heap :=
  mkHeap (hp_pages h) (hp_generations h) (hp_slots h) (hp_free h) (hp_live h) (hp_used_bytes h)
    (hp_cap_bytes h) threshold collections (hp_host_roots h) (hp_digests h)
    (hp_shared_allocations h) (hp_text_views h).
Definition set_host_roots (h : Heap) roots : Heap :=
  mkHeap (hp_pages h) (hp_generations h) (hp_slots h) (hp_free h) (hp_live h) (hp_used_bytes h)
    (hp_cap_bytes h) (hp_collection_threshold h) (hp_collections h) roots (hp_digests h)
    (hp_shared_allocations h) (hp_text_views h).
Definition set_digests (h : Heap) digests : Heap :=
  mkHeap (hp_pages h) (hp_generations h) (hp_slots h) (hp_free h) (hp_live h) (hp_used_bytes h)
    (hp_cap_bytes h) (hp_collection_threshold h) (hp_collections h) (hp_host_roots h) digests
    (hp_shared_allocations h) (hp_text_views h).
Definition set_shared (h : Heap) shared : Heap :=
  mkHeap (hp_pages h) (hp_generations h) (hp_slots h) (hp_free h) (hp_live h) (hp_used_bytes h)
    (hp_cap_bytes h) (hp_collection_threshold h) (hp_collections h) (hp_host_roots h) (hp_digests h)
    shared (hp_text_views h).
Definition set_text_views (h : Heap) views : Heap :=
  mkHeap (hp_pages h) (hp_generations h) (hp_slots h) (hp_free h) (hp_live h) (hp_used_bytes h)
    (hp_cap_bytes h) (hp_collection_threshold h) (hp_collections h) (hp_host_roots h) (hp_digests h)
    (hp_shared_allocations h) views.

Definition slot_count (h : Heap) : N := hp_slots h.
Definition reference_slot_count (h : Heap) : N :=
  saturating_add_usize (hp_slots h) (tv_slots (hp_text_views h)).
Definition text_view_slot_count (h : Heap) : N := tv_slots (hp_text_views h).

(** *** Pages *)

Definition try_add_page (h : Heap) : bool * Heap :=
  if negb (host_reserve (ObjectPage (lenN (hp_pages h)))) then (false, h)
  else
    let page_start := saturating_mul_usize (lenN (hp_pages h)) PAGE_SLOTS in
    match checked_add_usize page_start PAGE_SLOTS with
    | None => (false, h)
    | Some page_end =>
        let page := entry_dead <$> generations_from (hp_generations h) page_start PAGE_SLOTS in
        (true, set_objects h (hp_pages h ++ [page]) (resize_vec (hp_generations h) page_end 0%N)
                 (hp_slots h) (hp_free h))
    end.

Definition add_page (h : Heap) : exec Heap :=
  let page_start := (lenN (hp_pages h) * PAGE_SLOTS)%N in
  page_end ← add_usize page_start PAGE_SLOTS;
  let generations := resize_vec (hp_generations h) page_end 0%N in
  let page := entry_dead <$> generations_from generations page_start PAGE_SLOTS in
  Ret (set_objects h (hp_pages h ++ [page]) generations (hp_slots h) (hp_free h)).

Definition entry_at (h : Heap) (slot : N) : exec Entry := of_option (page_get (hp_pages h) slot).
Definition set_entry (h : Heap) (slot : N) (e : Entry) : Heap :=
  set_objects h (page_set (hp_pages h) slot e) (hp_generations h) (hp_slots h) (hp_free h).

(** *** Limits *)

Definition would_exceed_batch (h : Heap) (bytes objects : N) : bool :=
  match checked_add_usize (hp_used_bytes h) bytes with
  | None => true
  | Some total => (hp_cap_bytes h <? total)%N
  end || bool_decide (checked_add_usize (hp_live h) objects = None).
Definition would_exceed (h : Heap) (cost : N) : bool := would_exceed_batch h cost 1.
Definition would_exceed_growth (h : Heap) (cost : N) : bool :=
  match checked_add_usize (hp_used_bytes h) cost with
  | None => true
  | Some total => (hp_cap_bytes h <? total)%N
  end.
Definition collection_due (h : Heap) (growth : N) : bool :=
  match checked_add_usize (hp_used_bytes h) growth with
  | None => true
  | Some total => (hp_collection_threshold h <? total)%N
  end.
Definition set_next_collection_threshold (h : Heap) : Heap :=
  set_threshold h (next_collection_threshold (hp_used_bytes h) (hp_cap_bytes h)) (hp_collections h).

(** *** Shared allocations *)

Definition allocation_cost (h : Heap) (object : Obj) : exec N :=
  add_usize (heap_base_cost object)
    match shared_allocation object with
    | Some (key, capacity) =>
        if shared_allocation_is_unique object
           || negb (bool_decide (is_Some (hp_shared_allocations h !! key)))
        then capacity else 0%N
    | None => 0%N
    end.

(** The bytes newly charged, and the ledger. *)
Definition add_shared_references (allocations : SharedAllocations) (shared : option (N * N))
    (references : N) : exec (N * SharedAllocations) :=
  if (references =? 0)%N then Ret (0%N, allocations)
  else
    match shared with
    | None => Ret (0%N, allocations)
    | Some (key, capacity) =>
        match allocations !! key with
        | Some charge =>
            guard_panic (ch_capacity charge =? capacity)%N;;
            total ← add_usize (ch_references charge) references;
            Ret (0%N, <[key := mkCharge (ch_capacity charge) total]> allocations)
        | None => Ret (capacity, <[key := mkCharge capacity references]> allocations)
        end
    end.
Definition add_shared (allocations : SharedAllocations) (shared : option (N * N)) :
    exec (N * SharedAllocations) := add_shared_references allocations shared 1.
Definition remove_shared (allocations : SharedAllocations) (key : option N) :
    exec (N * SharedAllocations) :=
  match key with
  | None => Ret (0%N, allocations)
  | Some key => remove_shared_references allocations key 1
  end.

(** *** Allocation *)

Definition install_entry (h : Heap) (header : Header) (object : Obj) : exec (ObjRef * Heap) :=
  match hp_free h with
  | slot :: free =>
      let h := set_objects h (hp_pages h) (hp_generations h) (hp_slots h) free in
      e ← entry_at h slot;
      e' ← en_replace e header object;
      Ret (mkObjRef slot (en_generation e), set_entry h slot e')
  | [] =>
      h ← (if (hp_slots h =? lenN (hp_pages h) * PAGE_SLOTS)%N then add_page h else Ret h);
      let slot := hp_slots h in
      e ← entry_at h (as_u32 slot);
      e' ← en_replace e header object;
      slots ← add_usize slot 1;
      let h := set_entry h (as_u32 slot) e' in
      Ret (mkObjRef (as_u32 slot) (en_generation e),
           set_objects h (hp_pages h) (hp_generations h) slots (hp_free h))
  end.

Definition alloc (h : Heap) (object : Obj) : exec (ObjRef * Heap) :=
  let base := heap_base_cost object in
  let shared := shared_allocation object in
  '(shared_cost, allocations) ← add_shared (hp_shared_allocations h) shared;
  cost ← add_usize base shared_cost;
  let header := mkHeader (born_frozen object) base (fst <$> shared) in
  used_bytes ← add_usize (hp_used_bytes h) cost;
  live ← add_usize (hp_live h) 1;
  install_entry (set_account (set_shared h allocations) live used_bytes) header object.

Definition try_alloc (h : Heap) (object : Obj) : exec (result ObjRef Obj * Heap) :=
  cost ← allocation_cost h object;
  if would_exceed h cost then Ret (Err object, h)
  else
    let '(ok, h) :=
      if bool_decide (hp_free h = []) && (hp_slots h =? lenN (hp_pages h) * PAGE_SLOTS)%N
      then try_add_page h else (true, h) in
    if (ok : bool) then '(r, h) ← alloc h object; Ret (Ok r, h) else Ret (Err object, h).

(** *** Access *)

(** The entry a reference names, if its generation is current. *)
Definition current_entry (h : Heap) (r : ObjRef) : option Entry :=
  e ← page_get (hp_pages h) (obj_slot r);
  if (en_generation e =? obj_generation r)%N then Some e else None.

Definition try_get (h : Heap) (r : ObjRef) : option Obj :=
  if is_reference r then None else current_entry h r ≫= en_object.

(** [assert_eq!(entry.generation, r.generation)] and the live payload. *)
Definition live_entry (h : Heap) (r : ObjRef) : exec (Entry * Header * Obj) :=
  e ← entry_at h (obj_slot r);
  guard_panic (en_generation e =? obj_generation r)%N;;
  '(header, object) ← of_option (en_state e);
  Ret (e, header, object).

Definition get (h : Heap) (r : ObjRef) : exec Obj :=
  guard_panic (negb (is_reference r));; '(_, _, object) ← live_entry h r; Ret object.

(** A write through [get_mut]. *)
Definition put (h : Heap) (r : ObjRef) (object : Obj) : exec Heap :=
  '(e, header, _) ← live_entry h r;
  Ret (set_entry h (obj_slot r) (mkEntry (en_generation e) (Some (header, object)))).

Definition is_live_reference (h : Heap) (r : ObjRef) : bool :=
  if is_reference r then bool_decide (is_Some (view_get (hp_text_views h) r))
  else bool_decide (is_Some (try_get h r)).

Definition is_frozen (h : Heap) (r : ObjRef) : exec bool :=
  if is_reference r then Ret (bool_decide (is_Some (view_get (hp_text_views h) r)))
  else
    e ← entry_at h (obj_slot r);
    guard_panic (en_generation e =? obj_generation r)%N;;
    Ret match en_state e with Some (header, _) => hd_frozen header | None => false end.

Definition set_frozen (h : Heap) (r : ObjRef) : exec Heap :=
  if is_reference r then guard_panic (bool_decide (is_Some (view_get (hp_text_views h) r)));; Ret h
  else
    '(e, header, object) ← live_entry h r;
    Ret (set_entry h (obj_slot r)
           (mkEntry (en_generation e) (Some (mkHeader true (hd_bytes header) (hd_shared header), object)))).

(** *** Charges *)

Definition recharge (h : Heap) (r : ObjRef) : exec Heap :=
  '(e, header, object) ← live_entry h r;
  let new_shared := shared_allocation object in
  let new_key := fst <$> new_shared in
  '(released, added, allocations) ←
    (if decide (hd_shared header = new_key) then Ret (0%N, 0%N, hp_shared_allocations h)
     else
       '(released, allocations) ← remove_shared (hp_shared_allocations h) (hd_shared header);
       '(added, allocations) ← add_shared allocations new_shared;
       Ret (released, added, allocations));
  let new_cost := heap_base_cost object in
  used ← sub_usize (hp_used_bytes h) (hd_bytes header);
  used ← sub_usize used released;
  used ← add_usize used new_cost;
  used ← add_usize used added;
  let h := set_entry h (obj_slot r)
             (mkEntry (en_generation e) (Some (mkHeader (hd_frozen header) new_cost new_key, object))) in
  Ret (set_account (set_shared h allocations) (hp_live h) used).

Definition recharge_local (h : Heap) (r : ObjRef) : exec Heap :=
  '(e, header, object) ← live_entry h r;
  guard_panic (bool_decide (hd_shared header = None));;
  guard_panic (bool_decide (shared_allocation object = None));;
  let new_cost := heap_base_cost object in
  used ← sub_usize (hp_used_bytes h) (hd_bytes header);
  used ← add_usize used new_cost;
  let h := set_entry h (obj_slot r)
             (mkEntry (en_generation e) (Some (mkHeader (hd_frozen header) new_cost (hd_shared header), object))) in
  Ret (set_account h (hp_live h) used).

Definition free_view (h : Heap) (r : ObjRef) : exec Heap :=
  '(key, views) ← view_free (hp_text_views h) r;
  '(shared, allocations) ← remove_shared_references (hp_shared_allocations h) key 1;
  cost ← add_usize MIN_OBJECT_COST shared;
  used ← sub_usize (hp_used_bytes h) cost;
  live ← sub_usize (hp_live h) 1;
  Ret (set_digests (set_text_views (set_account (set_shared h allocations) live used) views)
         (delete r (hp_digests h))).

Definition free_object (h : Heap) (r : ObjRef) : exec Heap :=
  e ← entry_at h (obj_slot r);
  guard_panic (en_generation e =? obj_generation r)%N;;
  '(header, e) ← of_option (en_take e);
  let generation := N.land (as_u32 (en_generation e + 1)) OBJECT_GENERATION_MASK in
  guard_panic (obj_slot r <? lenN (hp_generations h))%N;;
  '(shared, allocations) ← remove_shared (hp_shared_allocations h) (hd_shared header);
  released ← add_usize (hd_bytes header) shared;
  used ← sub_usize (hp_used_bytes h) released;
  live ← sub_usize (hp_live h) 1;
  let h := set_objects h (page_set (hp_pages h) (obj_slot r) (mkEntry generation (en_state e)))
             (<[N.to_nat (obj_slot r) := generation]> (hp_generations h)) (hp_slots h)
             (obj_slot r :: hp_free h) in
  Ret (set_digests (set_account (set_shared h allocations) live used) (delete r (hp_digests h))).

Definition free (h : Heap) (r : ObjRef) : exec Heap :=
  if is_reference r then free_view h r else free_object h r.

(** *** Host roots *)

Definition push_host_root (h : Heap) (r : ObjRef) : Heap := set_host_roots h (r :: hp_host_roots h).
Definition pop_host_root (h : Heap) (r : ObjRef) : exec Heap :=
  match hp_host_roots h with
  | top :: roots => guard_panic (bool_decide (top = r));; Ret (set_host_roots h roots)
  | [] => Panic
  end.
(** [host_roots()], oldest first. *)
Definition host_roots (h : Heap) : list ObjRef := reverse (hp_host_roots h).

(** *** The digest cache *)

Definition cached_digest_for (h : Heap) (r : ObjRef) (ty : option N) : option (list N) :=
  entry ← hp_digests h !! r;
  if (dg_generation entry =? obj_generation r)%N then
    snd <$> (snd <$> list_find (λ p, p.1 = ty) (dg_values entry))
  else None.

Definition cache_digest_for (h : Heap) (r : ObjRef) (ty : option N) (digest : list N) : exec Heap :=
  frozen ← is_frozen h r;
  guard_panic frozen;;
  let entry := default (mkDigests (obj_generation r) []) (hp_digests h !! r) in
  let entry :=
    if (dg_generation entry =? obj_generation r)%N then entry else mkDigests (obj_generation r) [] in
  let values :=
    match list_find (λ p, p.1 = ty) (dg_values entry) with
    | Some (i, (held, _)) => <[i := (held, digest)]> (dg_values entry)
    | None => dg_values entry ++ [(ty, digest)]
    end in
  Ret (set_digests h (<[r := mkDigests (dg_generation entry) values]> (hp_digests h))).

(** *** The sweep *)

Record SweepState := mkSweep {
  sw_freed_bytes : N;
  sw_freed : N;
  sw_shared : SharedAllocations;
  (** References of one key not given back yet. *)
  sw_pending : option (N * N);
  sw_generations : list N;
  sw_free : list N;
  sw_digests : gmap ObjRef DigestCacheEntry;
}.

(** Collect one freed reference of [key]; a run of one key is given back at
    once. *)
Definition sweep_shared (st : SweepState) (freed_bytes : N) (key : option N) :
    exec (N * SharedAllocations * option (N * N)) :=
  match key with
  | None => Ret (freed_bytes, sw_shared st, sw_pending st)
  | Some key =>
      match sw_pending st with
      | Some (pending, references) =>
          if (pending =? key)%N then
            total ← add_usize references 1;
            Ret (freed_bytes, sw_shared st, Some (pending, total))
          else
            '(released, shared) ← remove_shared_references (sw_shared st) pending references;
            freed_bytes ← add_usize freed_bytes released;
            Ret (freed_bytes, shared, Some (key, 1%N))
      | None => Ret (freed_bytes, sw_shared st, Some (key, 1%N))
      end
  end.

Section sweep.
Context (keep : ObjRef → exec bool) (has_digests : bool).

Definition sweep_entry (slot : N) (e : Entry) (st : SweepState) : exec (Entry * SweepState) :=
  let r := mkObjRef slot (en_generation e) in
  if negb (en_is_live e) then Ret (e, st)
  else
    kept ← keep r;
    if (kept : bool) then Ret (e, st)
    else
      '(header, e) ← of_option (en_take e);
      freed_bytes ← add_usize (sw_freed_bytes st) (hd_bytes header);
      '(freed_bytes, shared, pending) ← sweep_shared st freed_bytes (hd_shared header);
      freed ← add_usize (sw_freed st) 1;
      let generation := N.land (as_u32 (en_generation e + 1)) OBJECT_GENERATION_MASK in
      guard_panic (slot <? lenN (sw_generations st))%N;;
      Ret (mkEntry generation (en_state e),
           mkSweep freed_bytes freed shared pending
             (<[N.to_nat slot := generation]> (sw_generations st)) (slot :: sw_free st)
             (if has_digests then delete r (sw_digests st) else sw_digests st)).

Fixpoint sweep_page (slot : N) (page : list Entry) (st : SweepState) : exec (list Entry * SweepState) :=
  match page with
  | [] => Ret ([], st)
  | e :: page =>
      '(e, st) ← sweep_entry (as_u32 slot) e st;
      '(page, st) ← sweep_page (slot + 1) page st;
      Ret (e :: page, st)
  end.

Fixpoint sweep_pages (page_index : N) (pages : list (list Entry)) (st : SweepState) :
    exec (list (list Entry) * SweepState) :=
  match pages with
  | [] => Ret ([], st)
  | page :: pages =>
      '(page, st) ← sweep_page (page_index * PAGE_SLOTS) page st;
      '(pages, st) ← sweep_pages (page_index + 1) pages st;
      Ret (page :: pages, st)
  end.
End sweep.

(** The objects, then the text views, then the accounts. *)
Definition sweep (h : Heap) (keep : ObjRef → exec bool) : exec Heap :=
  let has_digests := negb (bool_decide (hp_digests h = ∅)) in
  '(pages, st) ← sweep_pages keep has_digests 0 (hp_pages h)
    (mkSweep 0 0 (hp_shared_allocations h) None (hp_generations h) (hp_free h) (hp_digests h));
  '(freed_bytes, shared) ←
    match sw_pending st with
    | Some (key, references) =>
        '(released, shared) ← remove_shared_references (sw_shared st) key references;
        freed_bytes ← add_usize (sw_freed_bytes st) released;
        Ret (freed_bytes, shared)
    | None => Ret (sw_freed_bytes st, sw_shared st)
    end;
  '(objects, bytes, views, shared) ←
    view_sweep keep remove_shared_references (hp_text_views h) shared;
  freed ← add_usize (sw_freed st) objects;
  view_bytes ← add_usize (objects * MIN_OBJECT_COST) bytes;
  freed_bytes ← add_usize freed_bytes view_bytes;
  let digests :=
    if has_digests && negb (objects =? 0)%N then
      filter (λ p, is_reference p.1 = false ∨ is_Some (view_get views p.1)) (sw_digests st)
    else sw_digests st in
  used ← sub_usize (hp_used_bytes h) freed_bytes;
  live ← sub_usize (hp_live h) freed;
  Ret (mkHeap pages (sw_generations st) (hp_slots h) (sw_free st) live used (hp_cap_bytes h)
         (next_collection_threshold used (hp_cap_bytes h))
         (N.min (hp_collections h + 1) U64_MAX) (hp_host_roots h) digests shared views).

(** [free.retain(|slot| *slot < self.slots)]. *)
Definition trim_free_pages (h : Heap) : Heap :=
  let pages := drop_dead_pages en_is_live (hp_pages h) in
  let slots :=
    if bool_decide (length pages = length (hp_pages h)) then hp_slots h else (lenN pages * PAGE_SLOTS)%N in
  set_text_views
    (set_objects h pages (hp_generations h) slots (filter (λ slot, (slot < slots)%N) (hp_free h)))
    (view_trim_free_pages (hp_text_views h)).

(** *** Batches of text views *)

(** Every page adds slots, so [count] rounds are enough. *)
Fixpoint reserve_loop (fuel : nat) (h : Heap) (available count : N) : exec (bool * Heap) :=
  if (available <? count)%N then
    match fuel with
    | O => NoFuel
    | S fuel =>
        let '(ok, h) := try_add_page h in
        if (ok : bool) then reserve_loop fuel h (saturating_add_usize available PAGE_SLOTS) count
        else Ret (false, h)
    end
  else Ret (true, h).

Definition reserve_precharged_slots (h : Heap) (count : N) : exec (bool * Heap) :=
  let unused := saturating_sub (saturating_mul_usize (lenN (hp_pages h)) PAGE_SLOTS) (hp_slots h) in
  reserve_loop (N.to_nat count) h (saturating_add_usize (lenN (hp_free h)) unused) count.

Definition text_view_list_base_cost (count : N) : option N :=
  if (count * (MIN_OBJECT_COST + VALUE_SIZE) <=? USIZE_MAX)%N
  then checked_add_usize (count * (MIN_OBJECT_COST + VALUE_SIZE)) MIN_OBJECT_COST else None.

(** The views and their list as one batch; [None] leaves the accounts as they
    were. *)
Definition install_text_view_list (h : Heap) (b : TextViewBatch) (shared_cost : N) :
    exec (option ObjRef * Heap) :=
  let count := lenN (tb_views b) in
  '(charged, allocations) ←
    add_shared_references (hp_shared_allocations h) (batch_shared_allocation b) count;
  guard_panic (charged =? shared_cost)%N;;
  view_cost ← add_usize (count * MIN_OBJECT_COST) charged;
  used ← add_usize (hp_used_bytes h) view_cost;
  live ← add_usize (hp_live h) count;
  '(views, values) ← install_batch (hp_text_views h) b [];
  '(r, h) ← alloc (set_text_views (set_account (set_shared h allocations) live used) views)
              (list_object values);
  Ret (Some r, h).

Definition try_alloc_text_view_list (h : Heap) (b : TextViewBatch) : exec (option ObjRef * Heap) :=
  let count := lenN (tb_views b) in
  let shared_cost :=
    match batch_shared_allocation b with
    | Some (key, capacity) =>
        if bool_decide (is_Some (hp_shared_allocations h !! key)) then 0%N else capacity
    | None => 0%N
    end in
  match text_view_list_base_cost count ≫= (λ base,
          _ ← checked_add_usize count 1; checked_add_usize base shared_cost) with
  | None => Ret (None, h)
  | Some cost =>
      if negb (can_install_batch (hp_text_views h) b) || would_exceed_batch h cost (count + 1)
      then Ret (None, h)
      else if negb (host_reserve (ViewItems count)) then Ret (None, h)
      else
        '(ok, h) ← reserve_precharged_slots h 1;
        if negb (ok : bool) then Ret (None, h)
        else
          '(ok, views) ← try_reserve_batch (hp_text_views h) count (needs_new_owner b);
          let h := set_text_views h views in
          if negb (ok : bool) then Ret (None, h) else install_text_view_list h b shared_cost
  end.
End Heap.
