(* ===== verification/Objects.v ===== *)
(** * Heap objects and their shapes

    lm-heap/src/shape.rs: the 42 object shapes, the shape table, and the walks
    every graph mode reads: the cost of an object, its shared allocation, its
    children in canonical order, the empty shell of a copy, and the rebuilt
    object with every child remapped.  [objects_heap] discharges the interface
    the heap is proved against.

    The payloads that live in other files (shared text and bytes, builders,
    regular expressions, decoded artifacts) are the types of the class
    [Payloads], of which the walks read sizes and allocation keys alone.
    Sizes are natural numbers: the host holds every payload, so the sums here
    never reach the machine's width. *)

From stdpp Require Import base numbers option gmap strings list.
From S2P Require Import Prelude Fault Value Pages TextViews MapIndex Heap.

#[local] Open Scope string_scope.

(** *** Payloads of other files *)

Class Payloads := {
  payload_texts :: TextTypes;
  SharedText : Type;
  (** The allocation key and the retained capacity. *)
  text_allocation : SharedText → N * N;
  text_is_unique : SharedText → bool;
  (** [TextRef::to_shared] of a compact view. *)
  text_of_view : Owner → View → SharedText;
  SharedBytes : Type;
  bytes_allocation : SharedBytes → N * N;
  bytes_is_unique : SharedBytes → bool;
  NativeStringBuilder : Type;
  builder_capacity : NativeStringBuilder → N;
  (** [try_clone_buffer], under the host's answer to an exact reservation. *)
  builder_try_clone : (N → bool) → NativeStringBuilder → option NativeStringBuilder;
  NativeByteBuffer : Type;
  buffer_capacity : NativeByteBuffer → N;
  buffer_try_clone : (N → bool) → NativeByteBuffer → option NativeByteBuffer;
  Regex : Type;
  regex_memory_usage : Regex → N;
  regex_source_len : Regex → N;
  Artifact : Type;
  artifact_key : Artifact → N;
  artifact_is_unique : Artifact → bool;
}.

(** *** Costs *)

Definition HEADER_COST : N := 32.
Definition VALUE_COST : N := 16.
Definition ENTRY_COST : N := 2 * VALUE_COST + 8.

Record FaultSite := mkSite { fs_function : N; fs_block : N; fs_instruction : N }.
(** [size_of::<FaultSite>()] and [size_of::<Option<RegexCaptureRange>>()]. *)
Definition FAULT_SITE_SIZE : N := 12.
Definition CAPTURE_SIZE : N := 12.

(** *** Code values *)

Inductive PortableCodeKind := CodeArtifactKind | CodeVerifiedModule | CodeSlotSpec | CodeFunction | CodeClass.
Inductive CodeHandleKind :=
| HandleInstance | HandleSlot | HandleFunction | HandleClass | HandleFunctionBinding | HandleClassBinding.
Inductive SlotChangeKind := ChangeFunction | ChangeClass | ChangeValue | ChangeProcess.
Inductive CodeDescriptorKind := DescriptorDeclaration | DescriptorMember.
Inductive LinkedCodeKind := LinkedModule | LinkedOpen.

Record LinkedCode := mkLinked { lc_kind : LinkedCodeKind; lc_unit : list N; lc_descriptor : option ObjRef }.
Record RegexCaptureRange := mkCapture { rc_start : N; rc_end : N }.

(** *** The shape table *)

Inductive BoundaryPolicy := Sendable | HolderLocal.

#[export] Instance BoundaryPolicy_eq_dec : EqDecision BoundaryPolicy.
Proof. solve_decision. Defined.

Record ShapeDesc := mkShape {
  sd_name : string;
  sd_has_refs : bool;
  sd_born_frozen : bool;
  sd_child_order : string;
  sd_boundary : BoundaryPolicy;
  sd_digestible : bool;
  sd_snapshot : SnapshotClass;
}.

#[export] Instance ShapeDesc_eq_dec : EqDecision ShapeDesc.
Proof. solve_decision. Defined.

Definition SHAPE_STR : ShapeDesc := mkShape "String" false true "none" Sendable true MachineState.
Definition SHAPE_INSTANCE : ShapeDesc := mkShape "Instance" true false "fields in class layout order" Sendable true MachineState.
Definition SHAPE_LIST : ShapeDesc := mkShape "List" true false "items in index order" Sendable true MachineState.
Definition SHAPE_MAP : ShapeDesc := mkShape "Map" true false "entries in insertion order, key before value" Sendable true MachineState.
Definition SHAPE_TUPLE : ShapeDesc := mkShape "Tuple" true true "elements in index order" Sendable true MachineState.
Definition SHAPE_CLOSURE : ShapeDesc := mkShape "Closure" true true "captures in capture-list order" Sendable true MachineState.
Definition SHAPE_SB : ShapeDesc := mkShape "StringBuilder" false false "none" HolderLocal false MachineState.
Definition SHAPE_BB : ShapeDesc := mkShape "ByteBuffer" false false "none" HolderLocal false MachineState.
Definition SHAPE_VM : ShapeDesc := mkShape "Vm" false true "none" HolderLocal false MachineState.
Definition SHAPE_RUN : ShapeDesc := mkShape "Run" false true "none" HolderLocal false MachineState.
Definition SHAPE_DYN_REF : ShapeDesc := mkShape "DynRef" false true "none" HolderLocal false MachineState.
Definition SHAPE_TABLE : ShapeDesc := mkShape "PolicyTable" false true "none" HolderLocal false MachineState.
Definition SHAPE_REQUEST : ShapeDesc := mkShape "Request" false true "none" HolderLocal false MachineState.
Definition SHAPE_CALL : ShapeDesc := mkShape "PendingCall" false true "none" HolderLocal false MachineState.
Definition SHAPE_FAULT : ShapeDesc := mkShape "Fault" false true "none" Sendable true MachineState.
Definition SHAPE_DIGEST : ShapeDesc := mkShape "Digest" false true "none" Sendable true MachineState.
Definition SHAPE_HANDLE : ShapeDesc := mkShape "Handle" false true "none" Sendable false MachineState.
Definition SHAPE_SNAPSHOT : ShapeDesc := mkShape "Snapshot" false true "none" Sendable false MachineState.
Definition SHAPE_SNAPSHOT_REF : ShapeDesc := mkShape "SnapshotRef" false true "none" Sendable false MachineState.
Definition SHAPE_BYTES : ShapeDesc := mkShape "Bytes" false true "none" Sendable true MachineState.
Definition SHAPE_FILE_HANDLE : ShapeDesc := mkShape "FileHandle" false true "none" Sendable false MachineState.
Definition SHAPE_RESOURCE_HANDLE : ShapeDesc := mkShape "ResourceHandle" false true "none" HolderLocal false MachineState.
Definition SHAPE_WAIT : ShapeDesc := mkShape "Wait" false true "none" HolderLocal false MachineState.
Definition SHAPE_SUBSTRING : ShapeDesc := mkShape "Substring" false true "none" Sendable true MachineState.
Definition SHAPE_TCP_STREAM : ShapeDesc := mkShape "TcpStream" false true "none" Sendable false MachineState.
Definition SHAPE_TCP_LISTENER : ShapeDesc := mkShape "TcpListener" false true "none" Sendable false MachineState.
Definition SHAPE_TLS_STREAM : ShapeDesc := mkShape "TlsStream" false true "none" Sendable false MachineState.
Definition SHAPE_RAW_MODE : ShapeDesc := mkShape "RawMode" false true "none" Sendable false MachineState.
Definition SHAPE_SIGNAL_STREAM : ShapeDesc := mkShape "SignalStream" false true "none" Sendable false MachineState.
Definition SHAPE_PIPE_READER : ShapeDesc := mkShape "PipeReader" false true "none" Sendable false MachineState.
Definition SHAPE_PIPE_WRITER : ShapeDesc := mkShape "PipeWriter" false true "none" Sendable false MachineState.
Definition SHAPE_CHILD : ShapeDesc := mkShape "Child" false true "none" Sendable false MachineState.
Definition SHAPE_UDP_SOCKET : ShapeDesc := mkShape "UdpSocket" false true "none" Sendable false MachineState.
Definition SHAPE_HOST_RESOURCE : ShapeDesc := mkShape "HostResource" false true "none" HolderLocal false MachineState.
Definition SHAPE_CODE : ShapeDesc := mkShape "PortableCode" false true "none" Sendable true MachineState.
Definition SHAPE_CODE_HANDLE : ShapeDesc := mkShape "CodeHandle" false true "none" HolderLocal false MachineState.
Definition SHAPE_DYN_VALUE : ShapeDesc := mkShape "DynValue" true true "the packaged value" Sendable true MachineState.
Definition SHAPE_SLOT_CHANGE : ShapeDesc := mkShape "SlotChange" true true "the replacement target" HolderLocal false MachineState.
Definition SHAPE_REGEX : ShapeDesc := mkShape "Regex" false true "none" Sendable false MachineState.
Definition SHAPE_REGEX_MATCH : ShapeDesc := mkShape "RegexMatch" false true "none" Sendable false MachineState.
Definition SHAPE_CODE_DESCRIPTOR : ShapeDesc := mkShape "CodeDescriptor" true true "the verified module" Sendable false MachineState.
Definition SHAPE_LINKED_CODE : ShapeDesc := mkShape "LinkedCode" true true "the verified module, then the opened descriptor" HolderLocal false MachineState.
Definition SHAPES : list ShapeDesc :=
  [SHAPE_STR; SHAPE_INSTANCE; SHAPE_LIST; SHAPE_MAP; SHAPE_TUPLE; SHAPE_CLOSURE; SHAPE_SB; SHAPE_BB; SHAPE_VM; SHAPE_TABLE; SHAPE_REQUEST; SHAPE_CALL; SHAPE_FAULT; SHAPE_DIGEST; SHAPE_HANDLE; SHAPE_SNAPSHOT; SHAPE_BYTES; SHAPE_FILE_HANDLE; SHAPE_RESOURCE_HANDLE; SHAPE_WAIT; SHAPE_SUBSTRING; SHAPE_TCP_STREAM; SHAPE_TCP_LISTENER; SHAPE_TLS_STREAM; SHAPE_SNAPSHOT_REF; SHAPE_RUN; SHAPE_CODE; SHAPE_CODE_HANDLE; SHAPE_DYN_VALUE; SHAPE_SLOT_CHANGE; SHAPE_HOST_RESOURCE; SHAPE_RAW_MODE; SHAPE_SIGNAL_STREAM; SHAPE_PIPE_READER; SHAPE_PIPE_WRITER; SHAPE_CHILD; SHAPE_UDP_SOCKET; SHAPE_DYN_REF; SHAPE_REGEX; SHAPE_REGEX_MATCH; SHAPE_CODE_DESCRIPTOR; SHAPE_LINKED_CODE].

Section Objects.
Context `{PL : Payloads}.

Record CodeArtifact := mkArtifact {
  ca_artifact : Artifact;
  ca_encoded : option SharedBytes;
  ca_retained_bytes : N;
}.

Definition code_artifact_with_bytes (artifact : Artifact) (encoded : SharedBytes) : CodeArtifact :=
  mkArtifact artifact (Some encoded) (bytes_allocation encoded).2.

Inductive PortableCodeStorage :=
| CodeBytes (bytes : SharedBytes)
| CodeVerified (artifact : CodeArtifact).

Record PortableCode := mkCode {
  pc_kind : PortableCodeKind;
  pc_storage : PortableCodeStorage;
  pc_slot : option N;
  pc_origin : option (list N);
}.

Record CodeDescriptor := mkDescriptor {
  cd_kind : CodeDescriptorKind;
  cd_artifact : CodeArtifact;
  cd_declaration : N;
  cd_member : option string;
}.

(** [NativeRegexMatch]. *)
Record RegexMatch := mkMatch {
  rm_text : SharedText;
  rm_start : N;
  rm_end : N;
  rm_groups : list (option RegexCaptureRange);
  rm_names : list (string * N);
}.

Inductive Object :=
| OStr (text : SharedText)
| OInstance (class : N) (fields : list Value) (env : Witness)
| OList (items : list Value) (epoch : StructuralEpoch)
| OMap (entries : list MapEntry) (index : MapIndex)
| OTuple (items : list Value)
| OClosure (func : N) (captures : list Value) (env : Witness)
| OStrBuilder (text : NativeStringBuilder)
| OByteBuf (bytes : NativeByteBuffer)
| OBytes (bytes : SharedBytes)
| OSubstring (text : SharedText)
| NativeVm (image generation : N)
| NativeRun (vm : N)
| NativeDynRef (vm generation : N)
| NativeCode (code : PortableCode)
| NativeCodeHandle (image generation instance : N) (kind : CodeHandleKind) (index : N)
| NativeSlotChange (image generation slot version : N) (kind : SlotChangeKind) (target : Value)
| NativeTable (vm : N)
| NativeRequest (vm ordinal : N)
| NativeCall (vm ordinal op : N)
| NativeFault (code : FaultCode) (message : string) (op : option N) (trace : list FaultSite)
| NativeDigest (bytes : list N)
| NativeHandle (proc generation : N)
| NativeSnapshot (image : list N)
| NativeSnapshotRef (image : N)
| NativeFileHandle (resource : N)
| NativeResourceHandle (surface resource : N)
| NativeWait (owner token : N)
| NativeTcpStream (resource : N)
| NativeTcpListener (resource : N)
| NativeTlsStream (resource : N)
| NativeRawMode (resource : N)
| NativeSignalStream (resource : N)
| NativePipeReader (resource : N)
| NativePipeWriter (resource : N)
| NativeChild (resource : N)
| NativeUdpSocket (resource : N)
| NativeHostResource (kind : list N) (resource : N)
| DynValue (value : Value) (ty : N)
| NativeRegex (regex : Regex)
| NativeRegexMatch (matched : RegexMatch)
| NativeCodeDescriptor (descriptor : CodeDescriptor)
| NativeLinkedCode (linked : LinkedCode).

Definition tag (o : Object) : N :=
  match o with
  | OStr _ => 0
  | OInstance _ _ _ => 1
  | OList _ _ => 2
  | OMap _ _ => 3
  | OTuple _ => 4
  | OClosure _ _ _ => 5
  | OStrBuilder _ => 6
  | OByteBuf _ => 7
  | NativeVm _ _ => 8
  | NativeTable _ => 9
  | NativeRequest _ _ => 10
  | NativeCall _ _ _ => 11
  | NativeFault _ _ _ _ => 12
  | NativeDigest _ => 13
  | NativeHandle _ _ => 14
  | NativeSnapshot _ => 15
  | OBytes _ => 16
  | NativeFileHandle _ => 17
  | NativeResourceHandle _ _ => 18
  | NativeWait _ _ => 19
  | OSubstring _ => 20
  | NativeTcpStream _ => 21
  | NativeTcpListener _ => 22
  | NativeTlsStream _ => 23
  | NativeSnapshotRef _ => 24
  | NativeRun _ => 25
  | NativeCode _ => 26
  | NativeCodeHandle _ _ _ _ _ => 27
  | DynValue _ _ => 28
  | NativeSlotChange _ _ _ _ _ _ => 29
  | NativeHostResource _ _ => 30
  | NativeRawMode _ => 31
  | NativeSignalStream _ => 32
  | NativePipeReader _ => 33
  | NativePipeWriter _ => 34
  | NativeChild _ => 35
  | NativeUdpSocket _ => 36
  | NativeDynRef _ _ => 37
  | NativeRegex _ => 38
  | NativeRegexMatch _ => 39
  | NativeCodeDescriptor _ => 40
  | NativeLinkedCode _ => 41
  end%N.

(** [SHAPES[self.tag()]]; every tag is in the table, so the default never
    answers. *)
Definition shape (o : Object) : ShapeDesc := nth (N.to_nat (tag o)) SHAPES SHAPE_STR.

(** *** Costs *)

Definition strlen (s : string) : N := N.of_nat (String.length s).

(** The bytes of an object beyond its header. *)
Definition payload_cost (o : Object) : N :=
  match o with
  | OStr _ | OBytes _ | OSubstring _ => 0
  | OInstance _ fields _ => lenN fields * VALUE_COST
  | OList items _ => lenN items * VALUE_COST
  | OMap entries _ => lenN entries * ENTRY_COST
  | OTuple items => lenN items * VALUE_COST
  | OClosure _ captures _ => lenN captures * VALUE_COST
  | OStrBuilder text => builder_capacity text
  | OByteBuf bytes => buffer_capacity bytes
  | NativeVm _ _
  | NativeRun _
  | NativeDynRef _ _
  | NativeCodeHandle _ _ _ _ _
  | NativeSlotChange _ _ _ _ _ _
  | NativeTable _
  | NativeRequest _ _
  | NativeCall _ _ _
  | NativeHandle _ _
  | NativeCode _
  | NativeFileHandle _
  | NativeResourceHandle _ _
  | NativeWait _ _
  | NativeTcpStream _
  | NativeTcpListener _
  | NativeTlsStream _
  | NativeRawMode _
  | NativeSignalStream _
  | NativePipeReader _
  | NativePipeWriter _
  | NativeChild _
  | NativeUdpSocket _
  | NativeHostResource _ _ => VALUE_COST
  | NativeFault _ message _ trace =>
      saturating_add_usize (strlen message) (saturating_mul_usize (lenN trace) FAULT_SITE_SIZE)
  | NativeDigest bytes => lenN bytes
  | NativeSnapshot image => lenN image
  | NativeSnapshotRef _ => VALUE_COST
  | DynValue _ _ => VALUE_COST
  | NativeRegex regex => saturating_add_usize (regex_memory_usage regex) (regex_source_len regex)
  | NativeRegexMatch matched =>
      saturating_add_usize
        (saturating_add_usize (text_allocation (rm_text matched)).2
           (saturating_mul_usize (lenN (rm_groups matched)) CAPTURE_SIZE))
        (sumN (λ p, saturating_add_usize (strlen p.1) 4) (rm_names matched))
  | NativeCodeDescriptor descriptor =>
      match cd_member descriptor with
      | Some member => saturating_add_usize VALUE_COST (strlen member)
      | None => VALUE_COST
      end
  | NativeLinkedCode _ => VALUE_COST
  end%N.

Definition object_base_cost (o : Object) : N := (HEADER_COST + payload_cost o)%N.

Definition artifact_allocation (a : CodeArtifact) : N * N := (artifact_key (ca_artifact a), ca_retained_bytes a).

Definition object_shared_allocation (o : Object) : option (N * N) :=
  match o with
  | OStr text | OSubstring text => Some (text_allocation text)
  | OBytes bytes => Some (bytes_allocation bytes)
  | NativeCode code =>
      match pc_storage code with
      | CodeBytes bytes => Some (bytes_allocation bytes)
      | CodeVerified artifact => Some (artifact_allocation artifact)
      end
  | NativeCodeDescriptor descriptor => Some (artifact_allocation (cd_artifact descriptor))
  | _ => None
  end.

Definition object_allocation_is_unique (o : Object) : bool :=
  match o with
  | OStr text | OSubstring text => text_is_unique text
  | OBytes bytes => bytes_is_unique bytes
  | NativeCode code =>
      match pc_storage code with
      | CodeBytes bytes => bytes_is_unique bytes
      | CodeVerified artifact => artifact_is_unique (ca_artifact artifact)
      end
  | NativeCodeDescriptor descriptor => artifact_is_unique (ca_artifact (cd_artifact descriptor))
  | _ => false
  end.

(** *** The walks *)

Definition value_refs (v : Value) : list ObjRef := match v with VObj r => [r] | _ => [] end.

Definition children (o : Object) : list ObjRef :=
  match o with
  | NativeLinkedCode linked => option_list (lc_descriptor linked)
  | DynValue value _ => value_refs value
  | NativeSlotChange _ _ _ _ _ target => value_refs target
  | OInstance _ fields _ => concat (value_refs <$> fields)
  | OList items _ | OTuple items => concat (value_refs <$> items)
  | OMap entries _ =>
      concat ((λ e, if me_is_live e then (value_refs (me_key e) ++ value_refs (me_value e))%list else []) <$> entries)
  | OClosure _ captures _ => concat (value_refs <$> captures)
  | _ => []
  end.

Definition units (count : nat) : list Value := replicate count VUnit.

(** The empty destination of one sendable object. *)
Definition shell (o : Object) : option Object :=
  match o with
  | OStr text => Some (OStr text)
  | OSubstring text => Some (OSubstring text)
  | NativeFault code message op trace => Some (NativeFault code message op trace)
  | NativeDigest bytes => Some (NativeDigest bytes)
  | NativeHandle proc generation => Some (NativeHandle proc generation)
  | NativeSnapshot image => Some (NativeSnapshot image)
  | NativeSnapshotRef image => Some (NativeSnapshotRef image)
  | OBytes bytes => Some (OBytes bytes)
  | NativeCode code => Some (NativeCode code)
  | NativeRegex regex => Some (NativeRegex regex)
  | NativeRegexMatch matched => Some (NativeRegexMatch matched)
  | NativeCodeDescriptor descriptor =>
      Some (NativeCodeDescriptor (mkDescriptor (cd_kind descriptor) (cd_artifact descriptor)
              (cd_declaration descriptor) (cd_member descriptor)))
  | NativeFileHandle resource => Some (NativeFileHandle resource)
  | NativeTcpStream resource => Some (NativeTcpStream resource)
  | NativeTcpListener resource => Some (NativeTcpListener resource)
  | NativeTlsStream resource => Some (NativeTlsStream resource)
  | NativeRawMode resource => Some (NativeRawMode resource)
  | NativeSignalStream resource => Some (NativeSignalStream resource)
  | NativePipeReader resource => Some (NativePipeReader resource)
  | NativePipeWriter resource => Some (NativePipeWriter resource)
  | NativeChild resource => Some (NativeChild resource)
  | NativeUdpSocket resource => Some (NativeUdpSocket resource)
  | OTuple items => Some (OTuple (units (length items)))
  | OList items epoch => Some (OList (units (length items)) epoch)
  | OMap entries index =>
      Some (OMap ((λ e, mkMapEntry VUnit VUnit (me_semantic_hash e)) <$> filter (λ e, me_is_live e = true) entries)
              (mkIndex 0 (mi_live index) (mi_epoch index) []))
  | OInstance class fields env => Some (OInstance class (units (length fields)) env)
  | OClosure func captures env => Some (OClosure func (units (length captures)) env)
  | DynValue _ ty => Some (DynValue VUnit ty)
  | _ => None
  end.

Definition map_value (f : ObjRef → ObjRef) (v : Value) : Value := match v with VObj r => VObj (f r) | v => v end.
Definition map_entry (f : ObjRef → ObjRef) (e : MapEntry) : MapEntry :=
  mkMapEntry (map_value f (me_key e)) (map_value f (me_value e)) (me_semantic_hash e).

(** The object with every child remapped; [None] for a shape that holds none.
    The live count of an index fits 32 bits, so [MapIndex::with_live] holds. *)
Definition remap (f : ObjRef → ObjRef) (o : Object) : option Object :=
  match o with
  | NativeCodeDescriptor descriptor =>
      Some (NativeCodeDescriptor (mkDescriptor (cd_kind descriptor) (cd_artifact descriptor)
              (cd_declaration descriptor) (cd_member descriptor)))
  | NativeLinkedCode linked =>
      Some (NativeLinkedCode (mkLinked (lc_kind linked) (lc_unit linked) (f <$> lc_descriptor linked)))
  | OTuple items => Some (OTuple (map_value f <$> items))
  | OList items epoch => Some (OList (map_value f <$> items) epoch)
  | OMap entries index =>
      Some (OMap (map_entry f <$> filter (λ e, me_is_live e = true) entries)
              (mkIndex 0 (mi_live index) (mi_epoch index) []))
  | OInstance class fields env => Some (OInstance class (map_value f <$> fields) env)
  | OClosure func captures env => Some (OClosure func (map_value f <$> captures) env)
  | DynValue value ty => Some (DynValue (map_value f value) ty)
  | NativeSlotChange image generation slot version kind target =>
      Some (NativeSlotChange image generation slot version kind (map_value f target))
  | _ => None
  end.

(** *** The fallible clone *)

(** The host's answer to an exact reservation of [n] elements. *)
Definition copy_values (reserve : N → bool) (f : ObjRef → ObjRef) (source : list Value) (capacity : N) :
    option (list Value) :=
  if reserve capacity then Some (map_value f <$> source) else None.

(** [capacity] is that of a list's or a map's storage, which is at least its
    length. *)
Definition try_clone_remapped (reserve : N → bool) (capacity : N) (f : ObjRef → ObjRef) (o : Object) : option Object :=
  match o with
  | OInstance class fields env => (λ fields, OInstance class fields env) <$> copy_values reserve f fields (lenN fields)
  | OList items epoch => (λ items, OList items epoch) <$> copy_values reserve f items capacity
  | OMap entries index =>
      if reserve capacity then
        let copied := map_entry f <$> filter (λ e, me_is_live e = true) entries in
        Some (OMap copied (mkIndex 0 (lenN copied) (mi_epoch index) []))
      else None
  | OTuple items => OTuple <$> copy_values reserve f items (lenN items)
  | OClosure func captures env => (λ captures, OClosure func captures env) <$> copy_values reserve f captures (lenN captures)
  | OStrBuilder text => OStrBuilder <$> builder_try_clone reserve text
  | OByteBuf bytes => OByteBuf <$> buffer_try_clone reserve bytes
  | NativeSlotChange image generation slot version kind target =>
      Some (NativeSlotChange image generation slot version kind (map_value f target))
  | NativeFault code message op trace =>
      if reserve (strlen message) then Some (NativeFault code message op trace) else None
  | DynValue value ty => Some (DynValue (map_value f value) ty)
  | NativeCodeDescriptor descriptor =>
      Some (NativeCodeDescriptor (mkDescriptor (cd_kind descriptor) (cd_artifact descriptor)
              (cd_declaration descriptor) (cd_member descriptor)))
  | NativeLinkedCode linked =>
      Some (NativeLinkedCode (mkLinked (lc_kind linked) (lc_unit linked) (f <$> lc_descriptor linked)))
  | o => Some o
  end.

(** *** The interface of the heap *)

#[global] Instance objects_heap : HeapTypes := {
  Obj := Object;
  heap_base_cost := object_base_cost;
  shared_allocation := object_shared_allocation;
  shared_allocation_is_unique := object_allocation_is_unique;
  born_frozen := λ o, sd_born_frozen (shape o);
  object_children := children;
  shape_holder_local := λ o, bool_decide (sd_boundary (shape o) = HolderLocal);
  shape_host_attachment := λ o, bool_decide (sd_snapshot (shape o) = HostAttachment);
  list_object := λ values, OList values epoch_default;
  substring_object := λ owner view, OSubstring (text_of_view owner view);
}.

#[global] Instance objects_laws : HeapLaws.
Proof.
  split.
  - intros o. unfold heap_base_cost. simpl. unfold object_base_cost, HEADER_COST, MIN_OBJECT_COST. lia.
  - intros values. done.
  - done.
  - done.
  - done.
Qed.

(** *** The walks agree *)

Lemma shape_lookup o : SHAPES !! N.to_nat (tag o) = Some (shape o).
Proof. by destruct o. Qed.

Lemma value_refs_map f v : value_refs (map_value f v) = f <$> value_refs v.
Proof. by destruct v. Qed.

Lemma refs_map f (vs : list Value) : concat (value_refs <$> (map_value f <$> vs)) = f <$> concat (value_refs <$> vs).
Proof.
  induction vs as [|v vs IH]; [done|]. rewrite !fmap_cons. cbn [concat]. by rewrite IH, value_refs_map, fmap_app.
Qed.

Definition entry_refs (e : MapEntry) : list ObjRef :=
  if me_is_live e then (value_refs (me_key e) ++ value_refs (me_value e))%list else [].

Lemma map_entry_live f e : me_is_live (map_entry f e) = me_is_live e.
Proof. unfold me_is_live. simpl. by destruct (me_key e). Qed.

Lemma entry_refs_map f (es : list MapEntry) :
  concat (entry_refs <$> (map_entry f <$> filter (λ e, me_is_live e = true) es)) = f <$> concat (entry_refs <$> es).
Proof.
  induction es as [|e es IH]; [done|]. rewrite filter_cons, fmap_cons. cbn [concat]. rewrite fmap_app, <-IH.
  case_decide as El.
  - rewrite !fmap_cons. cbn [concat]. f_equal. unfold entry_refs. rewrite map_entry_live, El.
    by rewrite fmap_app, <-!value_refs_map.
  - apply not_true_is_false in El. by assert (entry_refs e = []) as -> by (unfold entry_refs; by rewrite El).
Qed.

Lemma units_refs n : concat (value_refs <$> units n) = [].
Proof. induction n; [done|]. unfold units in *. rewrite replicate_S, fmap_cons. cbn [concat]. by rewrite IHn. Qed.

Lemma remap_children f o o' : remap f o = Some o' → children o' = f <$> children o ∧ tag o' = tag o.
Proof.
  destruct o; simpl; try done; intros [= <-]; simpl; (split; [|done]);
    try apply refs_map; try apply value_refs_map; try done.
  - apply (entry_refs_map f).
  - by destruct (lc_descriptor linked).
Qed.

Lemma remap_none f o : remap f o = None → children o = [].
Proof. by destruct o. Qed.

Lemma clone_children reserve capacity f o o' :
  try_clone_remapped reserve capacity f o = Some o' → children o' = f <$> children o ∧ tag o' = tag o.
Proof.
  unfold try_clone_remapped, copy_values. destruct o; simpl; intros E;
    repeat (case_match; simplify_eq/=); simplify_option_eq; try done; simpl;
    try (split; [|done]); try apply refs_map; try apply value_refs_map; try done.
  - apply (entry_refs_map f).
  - by destruct (lc_descriptor linked).
Qed.

Lemma shell_children o sh : shell o = Some sh → children sh = [] ∧ tag sh = tag o.
Proof.
  destruct o; simpl; try done; intros [= <-]; simpl; (split; [|done]); try apply units_refs; try done.
  induction entries as [|e es IH]; [done|]. rewrite filter_cons. by case_decide.
Qed.

(** The shell is charged as the rebuilt object. *)
Lemma shell_cost o sh f :
  shell o = Some sh → payload_cost sh = payload_cost (default o (remap f o)) ∧
    object_shared_allocation sh = object_shared_allocation (default o (remap f o)).
Proof.
  destruct o; simpl; try done; intros [= <-]; simpl; (split; [|done]); unfold units, lenN;
    rewrite ?length_fmap, ?length_replicate; done.
Qed.

Lemma shell_sendable o : is_Some (shell o) ↔ sd_boundary (shape o) = Sendable.
Proof. destruct o; unfold shape; simpl; split; try done; try (by eexists); by intros [? [=]]. Qed.
End Objects.
