(* ===== verification/Ledger.v ===== *)
(** * The ledger of shared allocations

    Several objects and text views may read one shared byte allocation; the
    heap charges its capacity once.  [ledger_ok m refs] says that the ledger
    counts exactly the references [refs] of each key and forgets a key with
    its last reference; the bytes charged are the capacities of the keys
    present. *)

From stdpp Require Import base numbers option gmap list.
From S2P Require Import Prelude Value Pages TextViews SlotTable TextViewsInv Heap.

Definition ledger_refs (m : SharedAllocations) (key : N) : N :=
  default 0%N (ch_references <$> m !! key).

Definition shared_bytes (m : SharedAllocations) : N :=
  map_fold (λ _ charge total, (ch_capacity charge + total)%N) 0%N m.

Record ledger_ok (m : SharedAllocations) (refs : N → N) : Prop := {
  lo_refs : ∀ key, ledger_refs m key = refs key;
  lo_pos : ∀ key charge, m !! key = Some charge → (0 < ch_references charge)%N;
}.

(** A new reference of [shared] names the allocation already charged. *)
Definition agrees (m : SharedAllocations) (shared : option (N * N)) : Prop :=
  ∀ key capacity charge, shared = Some (key, capacity) → m !! key = Some charge →
    ch_capacity charge = capacity.

(** The bytes a reference of [shared] adds. *)
Definition new_charge (m : SharedAllocations) (shared : option (N * N)) : N :=
  match shared with
  | Some (key, capacity) => if bool_decide (is_Some (m !! key)) then 0%N else capacity
  | None => 0%N
  end.

Lemma shared_bytes_empty : shared_bytes ∅ = 0%N.
Proof. apply map_fold_empty. Qed.

Lemma shared_bytes_insert m key charge :
  m !! key = None → shared_bytes (<[key := charge]> m) = (ch_capacity charge + shared_bytes m)%N.
Proof.
  intros H. unfold shared_bytes. rewrite map_fold_insert_L; [done| |done]. intros. lia.
Qed.

Lemma shared_bytes_delete m key charge :
  m !! key = Some charge → shared_bytes m = (ch_capacity charge + shared_bytes (delete key m))%N.
Proof.
  intros H. rewrite <-(insert_delete_id m key charge H) at 1.
  rewrite shared_bytes_insert; [done|apply lookup_delete_eq].
Qed.

Lemma shared_bytes_update m key charge charge' :
  m !! key = Some charge → ch_capacity charge' = ch_capacity charge →
  shared_bytes (<[key := charge']> m) = shared_bytes m.
Proof.
  intros H E. rewrite (shared_bytes_delete m key charge H), <-insert_delete_eq.
  rewrite shared_bytes_insert by apply lookup_delete_eq. by rewrite E.
Qed.

Lemma ledger_ok_empty : ledger_ok ∅ (λ _, 0%N).
Proof. split; [done|]. intros key charge H. by rewrite lookup_empty in H. Qed.

Lemma ledger_ok_ext m refs refs' : (∀ k, refs' k = refs k) → ledger_ok m refs → ledger_ok m refs'.
Proof. intros E [H1 H2]. split; [|done]. intros key. by rewrite E. Qed.

Lemma ledger_refs_insert m key charge k :
  ledger_refs (<[key := charge]> m) k = if decide (k = key) then ch_references charge else ledger_refs m k.
Proof.
  unfold ledger_refs. case_decide as E; [subst; by rewrite lookup_insert_eq|by rewrite lookup_insert_ne].
Qed.

Lemma ledger_refs_delete m key k :
  ledger_refs (delete key m) k = if decide (k = key) then 0%N else ledger_refs m k.
Proof.
  unfold ledger_refs. case_decide as E; [subst; by rewrite lookup_delete_eq|by rewrite lookup_delete_ne].
Qed.

(** Adding references charges the capacity exactly when the key is new. *)
Lemma add_shared_references_spec m refs shared count :
  ledger_ok m refs → agrees m shared → (0 < count)%N →
  (∀ key, (refs key + count <= USIZE_MAX)%N) →
  ∃ m', add_shared_references m shared count = Ret (new_charge m shared, m') ∧
    shared_bytes m' = (shared_bytes m + new_charge m shared)%N ∧
    ledger_ok m' (λ k, refs k + if bool_decide (fst <$> shared = Some k) then count else 0)%N.
Proof.
  intros [H1 H2] Ha Hc Hfit. unfold add_shared_references. rewrite (proj2 (N.eqb_neq _ _)) by lia.
  destruct shared as [[key capacity]|]; simpl.
  2: { exists m. rewrite N.add_0_r. split_and!; [done..|]. split; [|done]. intros k. rewrite H1. simpl. lia. }
  destruct (m !! key) as [charge|] eqn:E.
  - rewrite (Ha key capacity charge eq_refl E), N.eqb_refl. simpl. unfold add_usize.
    assert (Er : ch_references charge = refs key) by (rewrite <-H1; unfold ledger_refs; by rewrite E).
    rewrite Er, (proj2 (N.leb_le _ _) (Hfit key)). simpl. eexists. split; [done|]. split.
    { rewrite N.add_0_r. eapply shared_bytes_update; [done|]. simpl. symmetry. by eapply Ha. }
    split.
    + intros k. rewrite ledger_refs_insert. case_decide as Ek.
      * subst k. rewrite bool_decide_true by done. done.
      * rewrite bool_decide_false by congruence. rewrite H1. lia.
    + intros k ch Hk. destruct (decide (key = k)) as [<-|Hne].
      * rewrite lookup_insert_eq in Hk. simplify_eq/=. lia.
      * rewrite lookup_insert_ne in Hk by done. by eapply H2.
  - eexists. split; [done|]. split; [rewrite shared_bytes_insert by done; simpl; lia|].
    assert (Er : refs key = 0%N) by (rewrite <-H1; unfold ledger_refs; by rewrite E). split.
    + intros k. rewrite ledger_refs_insert. case_decide as Ek.
      * subst k. rewrite bool_decide_true by done. simpl. lia.
      * rewrite bool_decide_false by congruence. rewrite H1. lia.
    + intros k ch Hk. destruct (decide (key = k)) as [<-|Hne].
      * rewrite lookup_insert_eq in Hk. by simplify_eq/=.
      * rewrite lookup_insert_ne in Hk by done. by eapply H2.
Qed.

(** Removing references gives the capacity back exactly with the last one. *)
Lemma remove_shared_references_spec m refs key count :
  ledger_ok m refs → (0 < count <= refs key)%N →
  ∃ released m', remove_shared_references m key count = Ret (released, m') ∧
    (shared_bytes m' + released)%N = shared_bytes m ∧
    ledger_ok m' (λ k, refs k - if (k =? key)%N then count else 0)%N.
Proof.
  intros [H1 H2] [Hc Hle]. unfold remove_shared_references. pose proof (H1 key) as Hr. unfold ledger_refs in Hr.
  destruct (m !! key) as [charge|] eqn:E; simpl in Hr; [|lia].
  unfold checked_sub. rewrite (proj2 (N.leb_le _ _)) by lia. simpl.
  destruct (N.eqb_spec (ch_references charge - count) 0) as [Ez|Nz]; simpl.
  - eexists _, _. split; [done|]. split; [rewrite (shared_bytes_delete m key charge E); lia|]. split.
    + intros k. rewrite ledger_refs_delete. case_decide as Ek.
      * subst k. rewrite N.eqb_refl. lia.
      * rewrite (proj2 (N.eqb_neq _ _) Ek), H1. lia.
    + intros k ch [_ Hk]%lookup_delete_Some. by eapply H2.
  - eexists _, _. split; [done|]. split; [rewrite N.add_0_r; by eapply shared_bytes_update|]. split.
    + intros k. rewrite ledger_refs_insert. case_decide as Ek; simpl.
      * subst k. rewrite N.eqb_refl. lia.
      * rewrite (proj2 (N.eqb_neq _ _) Ek), H1. lia.
    + intros k ch Hk. apply lookup_insert_Some in Hk as [[<- <-]|[_ Hk]]; [simpl; lia|by eapply H2].
Qed.

Lemma remove_shared_frame m key count released m' k :
  remove_shared_references m key count = Ret (released, m') → k ≠ key → m' !! k = m !! k.
Proof.
  unfold remove_shared_references. intros E Hne. destruct (m !! key) as [charge|]; [|done].
  destruct (checked_sub (ch_references charge) count) as [left|]; [|done]. simpl in E.
  destruct (negb _); simplify_eq; [by rewrite lookup_insert_ne|by rewrite lookup_delete_ne].
Qed.

(** One reference of an optional key. *)
Lemma remove_shared_spec m refs key :
  ledger_ok m refs → (∀ k, key = Some k → (1 <= refs k)%N) →
  ∃ released m', remove_shared m key = Ret (released, m') ∧
    (shared_bytes m' + released)%N = shared_bytes m ∧
    ledger_ok m' (λ k, refs k - one_if (bool_decide (key = Some k)))%N ∧
    ∀ k, key ≠ Some k → m' !! k = m !! k.
Proof.
  intros H Hk. unfold remove_shared. destruct key as [key|].
  - specialize (Hk key eq_refl).
    destruct (remove_shared_references_spec m refs key 1 H) as (released & m' & E & Eb & Hm); [lia|].
    exists released, m'. split_and!; [done|done| |].
    + eapply ledger_ok_ext; [|exact Hm]. intros k. simpl. f_equal. unfold one_if.
      destruct (N.eqb_spec k key) as [->|Hne]; [by rewrite bool_decide_true|by rewrite bool_decide_false by congruence].
    + intros k Hne. eapply remove_shared_frame; [exact E|]. congruence.
  - exists 0%N, m. split_and!; [done|lia| |done]. eapply ledger_ok_ext; [|exact H]. intros k. simpl. lia.
Qed.
