(* ===== verification/HeapInv.v ===== *)
(** * The invariant of the heap

    [heap_ok]: the object table follows the slot discipline, the live count
    and the byte account are exact, the ledger counts exactly the objects and
    views that read each shared allocation, and only live references have
    cached digests.

    [read h r] is what a reference reads, the heap as a partial map from
    references to objects; it is what the operations are specified against. *)

From stdpp Require Import base numbers option gmap list.
From S2P Require Import Prelude Value Pages TextViews SlotTable TextViewsInv TextViewsBatch Heap Ledger.

(** Slots that a 32-bit reference can name. *)
Definition SLOT_LIMIT : N := 4294967296.

Section HeapInv.
Context `{HT : HeapTypes} `{HM : HostMemory}.

Definition en_lives (e : Entry) : N := one_if (en_is_live e).
Definition en_bytes (e : Entry) : N :=
  match en_state e with Some (header, _) => hd_bytes header | None => 0%N end.
Definition en_key (key : N) (e : Entry) : N :=
  match en_state e with Some (header, _) => one_if (bool_decide (hd_shared header = Some key)) | None => 0%N end.

Definition entry_read (e : Entry) (r : ObjRef) : option (bool * Obj) :=
  if (en_generation e =? obj_generation r)%N
  then '(header, object) ← en_state e; Some (hd_frozen header, object) else None.

Definition read (h : Heap) (r : ObjRef) : option (bool * Obj) :=
  if is_reference r
  then '(owner, view) ← view_get (hp_text_views h) r; Some (true, substring_object owner view)
  else e ← page_get (hp_pages h) (obj_slot r); entry_read e r.

(** The references of [key] that the objects and the views hold. *)
Definition held_keys (h : Heap) (key : N) : N :=
  (sumN (en_key key) (concat (hp_pages h)) + views_key (hp_text_views h) key)%N.

(** A cached digest is of a live reference, at its generation. *)
Definition digest_ok (h : Heap) (r : ObjRef) (d : DigestCacheEntry) : Prop :=
  is_Some (read h r) ∧ dg_generation d = obj_generation r ∧ (obj_generation r <= U32_MAX)%N.

Record heap_ok (h : Heap) : Prop := {
  ho_slots : slots_ok en_generation en_is_live (hp_pages h) (hp_generations h) (hp_slots h) (hp_free h);
  ho_room : (table_slots (hp_pages h) <= SLOT_LIMIT)%N;
  ho_views : views_ok (hp_text_views h);
  ho_live : hp_live h = (sumN en_lives (concat (hp_pages h)) + tv_live (hp_text_views h))%N;
  ho_used : hp_used_bytes h = (sumN en_bytes (concat (hp_pages h)) + shared_bytes (hp_shared_allocations h)
              + MIN_OBJECT_COST * tv_live (hp_text_views h))%N;
  ho_used_max : (hp_used_bytes h <= USIZE_MAX)%N;
  ho_ledger : ledger_ok (hp_shared_allocations h) (held_keys h);
  ho_digests : ∀ r d, hp_digests h !! r = Some d → digest_ok h r d;
}.

(** Every header charges its object as it is. *)
Definition heap_exact (h : Heap) : Prop :=
  ∀ s e header object, page_get (hp_pages h) s = Some e → en_state e = Some (header, object) →
    hd_bytes header = heap_base_cost object ∧ hd_shared header = fst <$> shared_allocation object.

Lemma en_dead e : en_is_live e = false ↔ en_state e = None.
Proof.
  unfold en_is_live. rewrite bool_decide_eq_false. symmetry. apply eq_None_not_Some.
Qed.

Lemma entry_read_dead e r : en_is_live e = false → entry_read e r = None.
Proof. intros H%en_dead. unfold entry_read. rewrite H. by case_match. Qed.

Lemma heap_new_ok cap : heap_ok (heap_new cap).
Proof.
  constructor; simpl; try done; [apply slots_ok_nil|apply views_ok_default].
Qed.

(** *** Tables with the same live entries *)

Definition live_at (pages : list (list Entry)) (s : N) : option Entry :=
  e ← page_get pages s; if en_is_live e then Some e else None.

(** A count that dead entries do not enter. *)
Definition of_live (f : Entry → N) : Prop := ∀ e, en_is_live e = false → f e = 0%N.

Record same_live (pages pages' : list (list Entry)) : Prop := {
  sl_at : ∀ s, live_at pages' s = live_at pages s;
  sl_sum : ∀ f, of_live f → sumN f (concat pages') = sumN f (concat pages);
}.

Lemma same_live_refl pages : same_live pages pages.
Proof. done. Qed.
Lemma same_live_sym pages pages' : same_live pages pages' → same_live pages' pages.
Proof. intros [H1 H2]. split; intros; symmetry; [apply H1|by apply H2]. Qed.
Lemma same_live_trans p1 p2 p3 : same_live p1 p2 → same_live p2 p3 → same_live p1 p3.
Proof. intros [H1 H2] [H3 H4]. split; intros; [by rewrite H3|by rewrite H4, H2]. Qed.

Lemma same_live_app pages tail :
  pages_ok (pages ++ tail) → (∀ e, e ∈ concat tail → en_is_live e = false) → same_live pages (pages ++ tail).
Proof.
  intros Hp Hd. pose proof Hp as [Hp' _]%Forall_app. split.
  - intros s. unfold live_at. rewrite !page_get_flat, concat_app by done.
    destruct (concat pages !! N.to_nat s) as [e|] eqn:E; [by rewrite (lookup_app_l_Some _ _ _ _ E)|].
    apply lookup_ge_None in E. rewrite lookup_app_r by done. simpl.
    destruct (concat tail !! _) as [e|] eqn:E'; [|done]. simpl.
    by rewrite (Hd e (list_elem_of_lookup_2 _ _ _ E')).
  - intros f Hf. rewrite concat_app, sumN_app, (sumN_zero f (concat tail)); [lia|].
    intros i e Hi. apply Hf, Hd. by eapply list_elem_of_lookup_2.
Qed.

Lemma of_live_lives : of_live en_lives.
Proof. intros e H. unfold en_lives. by rewrite H. Qed.
Lemma of_live_bytes : of_live en_bytes.
Proof. intros e H%en_dead. unfold en_bytes. by rewrite H. Qed.
Lemma of_live_key key : of_live (en_key key).
Proof. intros e H%en_dead. unfold en_key. by rewrite H. Qed.
Hint Resolve of_live_lives of_live_bytes of_live_key : core.

Lemma read_live h r :
  read h r = if is_reference r
             then '(owner, view) ← view_get (hp_text_views h) r; Some (true, substring_object owner view)
             else e ← live_at (hp_pages h) (obj_slot r); entry_read e r.
Proof.
  unfold read, live_at. destruct (is_reference r); [done|].
  destruct (page_get (hp_pages h) (obj_slot r)) as [e|]; [|done]. simpl.
  destruct (en_is_live e) eqn:E; [done|]. simpl. by apply entry_read_dead.
Qed.

Lemma read_same h h' r :
  same_live (hp_pages h) (hp_pages h') → view_get (hp_text_views h') r = view_get (hp_text_views h) r →
  read h' r = read h r.
Proof. intros [H _] E. by rewrite !read_live, H, E. Qed.

(** The table is laid out anew around the same live entries. *)
Lemma heap_ok_same h pages generations slots free :
  heap_ok h → same_live (hp_pages h) pages →
  slots_ok en_generation en_is_live pages generations slots free → (table_slots pages <= SLOT_LIMIT)%N →
  heap_ok (set_objects h pages generations slots free).
Proof.
  intros H Hs Hslots Hroom.
  assert (Hsum : ∀ f, of_live f → sumN f (concat pages) = sumN f (concat (hp_pages h))) by apply Hs.
  constructor; simpl; try apply H; try done.
  - rewrite Hsum by done. apply H.
  - rewrite Hsum by done. apply H.
  - eapply ledger_ok_ext; [|apply H]. intros k. unfold held_keys. simpl. by rewrite Hsum.
  - intros r d Hr. unfold digest_ok. rewrite (read_same h) by done. by apply (ho_digests h H).
Qed.

Lemma held_same h pages generations slots free key :
  same_live (hp_pages h) pages → held_keys (set_objects h pages generations slots free) key = held_keys h key.
Proof. intros Hs. unfold held_keys. simpl. by rewrite (sl_sum _ _ Hs) by auto. Qed.

Lemma live_at_state pages s e header object :
  page_get pages s = Some e → en_state e = Some (header, object) → live_at pages s = Some e.
Proof.
  intros Hp Hst. unfold live_at. rewrite Hp. simpl.
  assert (en_is_live e = true) as ->; [|done]. apply not_false_is_true. rewrite en_dead. congruence.
Qed.

Lemma live_at_get pages s e : live_at pages s = Some e → page_get pages s = Some e ∧ en_is_live e = true.
Proof. unfold live_at. destruct (page_get pages s); [|done]. simpl. case_match; [|done]. by intros [= ->]. Qed.

Lemma exact_same h h' : same_live (hp_pages h) (hp_pages h') → heap_exact h → heap_exact h'.
Proof.
  intros Hs Hx s e header object Hp Hst. apply (Hx s e); [|done].
  pose proof (live_at_state _ _ _ _ _ Hp Hst) as Hl. rewrite (sl_at _ _ Hs) in Hl. by apply live_at_get in Hl as [? _].
Qed.

(** *** Changing one entry *)

Section change.
Context (h h' : Heap) (s : N) (e e' : Entry).
Context (H : heap_ok h) (Hs : page_get (hp_pages h) s = Some e).
Context (Hpages : hp_pages h' = page_set (hp_pages h) s e').
Context (Hviews : hp_text_views h' = hp_text_views h).

Lemma change_sum f : (sumN f (concat (hp_pages h')) + f e = sumN f (concat (hp_pages h)) + f e')%N.
Proof.
  pose proof (st_pages _ _ _ _ _ _ (ho_slots h H)) as Hp.
  rewrite Hpages, page_set_flat by done. rewrite page_get_flat in Hs by done. by apply sumN_insert.
Qed.

Lemma change_read r :
  read h' r = if bool_decide (is_reference r = false ∧ obj_slot r = s) then entry_read e' r else read h r.
Proof.
  pose proof (st_pages _ _ _ _ _ _ (ho_slots h H)) as Hp. unfold read.
  destruct (is_reference r); [by rewrite bool_decide_false, Hviews by naive_solver|].
  rewrite Hpages, page_get_set by (done || by eapply page_get_lt). case_decide as E.
  - by rewrite bool_decide_true.
  - by rewrite bool_decide_false by naive_solver.
Qed.

Lemma change_held k : (held_keys h' k + en_key k e = held_keys h k + en_key k e')%N.
Proof. unfold held_keys. rewrite Hviews. pose proof (change_sum (en_key k)). lia. Qed.

Lemma change_ok :
  slots_ok en_generation en_is_live (hp_pages h') (hp_generations h') (hp_slots h') (hp_free h') →
  (hp_live h' + en_lives e = hp_live h + en_lives e')%N →
  (hp_used_bytes h' + en_bytes e + shared_bytes (hp_shared_allocations h)
    = hp_used_bytes h + en_bytes e' + shared_bytes (hp_shared_allocations h'))%N →
  (hp_used_bytes h' <= USIZE_MAX)%N →
  ledger_ok (hp_shared_allocations h') (held_keys h') →
  (∀ r d, hp_digests h' !! r = Some d → digest_ok h' r d) →
  heap_ok h'.
Proof.
  intros Hslots Hlive Hused Hmax Hledger Hdig. constructor; try done.
  - rewrite Hpages, page_set_slots. apply H.
  - rewrite Hviews. apply H.
  - rewrite Hviews. pose proof (ho_live h H). pose proof (change_sum en_lives). lia.
  - rewrite Hviews. pose proof (ho_used h H). pose proof (change_sum en_bytes). lia.
Qed.

Lemma change_exact :
  heap_exact h → (∀ header object, en_state e' = Some (header, object) →
    hd_bytes header = heap_base_cost object ∧ hd_shared header = fst <$> shared_allocation object) →
  heap_exact h'.
Proof.
  intros Hx He' s' x header object Hg Hst.
  pose proof (st_pages _ _ _ _ _ _ (ho_slots h H)) as Hp.
  rewrite Hpages, page_get_set in Hg by (done || by eapply page_get_lt).
  case_decide; simplify_eq; [by apply He'|by eapply Hx].
Qed.
End change.
End HeapInv.
