(* ===== verification/HeapOps.v ===== *)
(** * The heap operations against the invariant

    Allocation, writes, charges and frees: each returns without a panic when
    its stated room is there, keeps [heap_ok], and changes [read] at the
    reference it is about and nowhere else. *)

From stdpp Require Import base numbers option gmap list.
From S2P Require Import Prelude Value Pages TextViews SlotTable TextViewsInv TextViewsBatch Heap Ledger HeapInv.

Section HeapOps.
Context `{HT : HeapTypes} `{HM : HostMemory}.

(** *** Pages *)

Lemma page_slots_fit (pages : list (list Entry)) : (table_slots pages <= SLOT_LIMIT)%N → (table_slots pages + PAGE_SLOTS <= USIZE_MAX)%N.
Proof. unfold SLOT_LIMIT, PAGE_SLOTS, USIZE_MAX, U64_MAX. lia. Qed.

Lemma same_live_page pages generations slots free :
  slots_ok en_generation en_is_live pages generations slots free →
  same_live pages (pages ++ [entry_dead <$> generations_from generations (table_slots pages) PAGE_SLOTS]).
Proof.
  intros H. apply same_live_app.
  - apply pages_ok_snoc; [apply H|]. unfold lenN. rewrite length_fmap. apply length_generations_from.
  - intros e. cbn [concat]. rewrite app_nil_r. by intros (g & -> & _)%list_elem_of_fmap.
Qed.

Lemma slots_page pages generations slots free :
  slots_ok en_generation en_is_live pages generations slots free →
  slots_ok en_generation en_is_live
    (pages ++ [entry_dead <$> generations_from generations (table_slots pages) PAGE_SLOTS])
    (resize_vec generations (table_slots pages + PAGE_SLOTS) 0%N) slots free.
Proof. by apply slots_add_page. Qed.

(** Room for one more object. *)
Definition slot_room (h : Heap) : Prop :=
  hp_free h ≠ [] ∨ (hp_slots h < table_slots (hp_pages h))%N ∨
  (table_slots (hp_pages h) + PAGE_SLOTS <= SLOT_LIMIT)%N.

(** The slot [s] of a table with the live entries of [h] receives an object. *)
Record installs (h : Heap) (header : Header) (object : Obj) (r : ObjRef) (h' : Heap)
    (pages : list (list Entry)) (e : Entry) : Prop := {
  in_result : hp_pages h' = page_set pages (obj_slot r) (mkEntry (en_generation e) (Some (header, object)));
  in_rest : h' = set_objects h (hp_pages h') (hp_generations h') (hp_slots h') (hp_free h');
  in_same : same_live (hp_pages h) pages;
  in_room : (table_slots pages <= SLOT_LIMIT)%N;
  in_at : page_get pages (obj_slot r) = Some e;
  in_dead : en_is_live e = false;
  in_ref : obj_generation r = en_generation e;
  in_before : slots_ok en_generation en_is_live pages (hp_generations h') (hp_slots h) (hp_free h);
  in_after : slots_ok en_generation en_is_live (hp_pages h') (hp_generations h') (hp_slots h') (hp_free h');
}.

(** The fill mark moves over a page with an unused slot. *)
Lemma install_mark h header object pages generations :
  slots_ok en_generation en_is_live pages generations (hp_slots h) [] → hp_free h = [] →
  same_live (hp_pages h) pages → (table_slots pages <= SLOT_LIMIT)%N → (hp_slots h < table_slots pages)%N →
  ∃ r e h', page_get pages (as_u32 (hp_slots h)) = Some e ∧ en_is_live e = false ∧
    r = mkObjRef (as_u32 (hp_slots h)) (en_generation e) ∧ (hp_slots h + 1 <= USIZE_MAX)%N ∧
    h' = set_objects h (page_set pages (as_u32 (hp_slots h)) (mkEntry (en_generation e) (Some (header, object))))
           generations (hp_slots h + 1)%N [] ∧
    installs h header object r h' pages e.
Proof.
  intros Hs Hf Hl Hroom Hlt. pose proof (st_pages _ _ _ _ _ _ Hs) as Hp.
  assert (Hu : as_u32 (hp_slots h) = hp_slots h) by (apply as_u32_small; unfold SLOT_LIMIT, U32_MAX in *; lia).
  rewrite Hu. destruct (slots_at _ _ _ _ _ _ _ Hs Hlt) as [e He].
  assert (Hd : en_is_live e = false).
  { destruct (en_is_live e) eqn:El; [|done]. rewrite page_get_flat in He by done.
    pose proof (st_live _ _ _ _ _ _ (st_flat _ _ _ _ _ _ Hs) _ _ He El). lia. }
  eexists _, e, _. split_and!; [done|done|done|unfold SLOT_LIMIT, USIZE_MAX, U64_MAX in *; lia|done|].
  constructor; simpl; try done.
  - by rewrite Hf.
  - eapply slots_fill; [exact Hs|done|done|lia|lia|constructor|]. by intros f Hff%not_elem_of_nil.
Qed.

Lemma install_entry_spec h header object :
  slots_ok en_generation en_is_live (hp_pages h) (hp_generations h) (hp_slots h) (hp_free h) →
  (table_slots (hp_pages h) <= SLOT_LIMIT)%N → slot_room h →
  ∃ r h' pages e, install_entry h header object = Ret (r, h') ∧ installs h header object r h' pages e.
Proof.
  intros Hs Hroom Hslot. pose proof (st_flat _ _ _ _ _ _ Hs) as Hf. unfold install_entry.
  destruct (hp_free h) as [|s free] eqn:Ef.
  - fold (table_slots (hp_pages h)).
    assert (Hle : (hp_slots h <= table_slots (hp_pages h))%N).
    { rewrite <-length_flat by apply Hs. apply Hf. }
    destruct (N.eqb_spec (hp_slots h) (table_slots (hp_pages h))) as [Eq|Ne]; simpl.
    + unfold add_page, add_usize. fold (table_slots (hp_pages h)).
      rewrite (proj2 (N.leb_le _ _) (page_slots_fit _ Hroom)). cbn [mbind exec_bind]. rewrite generations_from_resize.
      pose proof (slots_page _ _ _ _ Hs) as Hs'. pose proof (same_live_page _ _ _ _ Hs) as Hl'.
      set (page := entry_dead <$> _) in *. set (generations := resize_vec _ _ _) in *.
      destruct (install_mark h header object _ _ Hs' Ef Hl')
        as (r & e & h' & He & Hd & Er & Hfit & Eh & Hi).
      { rewrite table_slots_snoc. destruct Hslot as [?|[?|?]]; [done|lia|done]. }
      { rewrite table_slots_snoc, <-Eq. unfold PAGE_SLOTS. lia. }
      eexists r, h', _, e. split; [|exact Hi]. unfold entry_at. simpl. rewrite He. simpl.
      unfold en_replace. rewrite Hd. simpl. rewrite (proj2 (N.leb_le _ _) Hfit). simpl. by rewrite Eh, Er, Ef.
    + destruct (install_mark h header object _ _ Hs Ef (same_live_refl _) Hroom)
        as (r & e & h' & He & Hd & Er & Hfit & Eh & Hi); [lia|].
      eexists r, h', _, e. split; [|exact Hi]. unfold entry_at. simpl. rewrite He. simpl.
      unfold en_replace, add_usize. rewrite Hd. simpl. rewrite (proj2 (N.leb_le _ _) Hfit). simpl. by rewrite Eh, Er, Ef.
  - destruct (st_free _ _ _ _ _ _ Hf s) as (Hlt & e & He & Hd); [by left|].
    pose proof (st_nodup _ _ _ _ _ _ Hf) as [Hn1 Hn2]%NoDup_cons.
    rewrite <-page_get_flat in He by apply Hs. unfold entry_at. simpl. rewrite He. simpl.
    unfold en_replace. rewrite Hd. simpl. eexists _, _, (hp_pages h), e. split; [done|].
    constructor; simpl; try done; [by rewrite Ef|].
    eapply slots_fill; [exact Hs|done|done| |done|done|].
    + split; [done|]. rewrite <-length_flat by apply Hs. apply Hf.
    + intros f Hff. split; [by right|]. by intros ->.
Qed.

(** *** Bounds *)

Lemma sumN_le_length {A} (f : A → N) (l : list A) : (∀ x, (f x <= 1)%N) → (sumN f l <= lenN l)%N.
Proof. intros Hf. unfold lenN. induction l as [|x l IH]; simpl; [done|]. specialize (Hf x). lia. Qed.

Lemma one_if_le b : (one_if b <= 1)%N.
Proof. destruct b; simpl; lia. Qed.

Lemma held_keys_fit h key : heap_ok h → (held_keys h key + SLOT_LIMIT <= USIZE_MAX)%N.
Proof.
  intros H. unfold held_keys. pose proof (views_key_le _ key (ho_views h H)). pose proof (live_le _ (ho_views h H)).
  assert (Hs : (sumN (en_key key) (concat (hp_pages h)) <= SLOT_LIMIT)%N).
  { etrans; [apply sumN_le_length|]; [|rewrite length_flat; apply H].
    intros e. unfold en_key. case_match; [case_match; apply one_if_le|lia]. }
  unfold SLOT_LIMIT, USIZE_MAX, U64_MAX, U32_MAX in *. lia.
Qed.

Lemma live_fit h : heap_ok h → (hp_live h + SLOT_LIMIT <= USIZE_MAX)%N.
Proof.
  intros H. rewrite (ho_live h H). pose proof (live_le _ (ho_views h H)).
  assert (Hs : (sumN en_lives (concat (hp_pages h)) <= SLOT_LIMIT)%N).
  { etrans; [apply sumN_le_length|]; [|rewrite length_flat; apply H]. intros e. apply one_if_le. }
  unfold SLOT_LIMIT, USIZE_MAX, U64_MAX, U32_MAX in *. lia.
Qed.

Lemma object_reference pages generations slots free s e :
  slots_ok en_generation en_is_live pages generations slots free → page_get pages s = Some e →
  is_reference (mkObjRef s (en_generation e)) = false.
Proof.
  intros H Hs. rewrite page_get_flat in Hs by apply H.
  pose proof (flat_mask _ _ _ _ _ _ _ _ (st_flat _ _ _ _ _ _ H) Hs) as Hm.
  unfold is_reference. simpl. apply negb_false_iff, N.eqb_eq. apply N.bits_inj. intros n.
  rewrite N.land_spec, N.bits_0. change TEXT_VIEW_GENERATION_TAG with (2 ^ 31)%N. rewrite N.pow2_bits_eqb.
  destruct (N.eqb_spec 31 n) as [<-|]; [|apply andb_false_r]. rewrite andb_true_r.
  destruct (decide (en_generation e = 0%N)) as [->|Hnz]; [done|].
  apply N.bits_above_log2, N.log2_lt_pow2; [lia|]. unfold GENERATION_MASK in Hm. simpl. lia.
Qed.

(** *** Allocation *)

(** [h'] is [h] with [object] at the new reference [r]. *)
Record allocated (h h' : Heap) (object : Obj) (r : ObjRef) : Prop := {
  al_ok : heap_ok h';
  al_object : is_reference r = false;
  al_fresh : read h r = None;
  al_read : ∀ r', read h' r' = if decide (r' = r) then Some (born_frozen object, object) else read h r';
  al_live : hp_live h' = (hp_live h + 1)%N;
  al_used : hp_used_bytes h' = (hp_used_bytes h + heap_base_cost object
              + new_charge (hp_shared_allocations h) (shared_allocation object))%N;
  al_exact : heap_exact h → heap_exact h';
  al_views : hp_text_views h' = hp_text_views h;
  al_digests : hp_digests h' = hp_digests h;
  al_roots : hp_host_roots h' = hp_host_roots h;
  al_cap : hp_cap_bytes h' = hp_cap_bytes h;
}.

(** A dead slot reads as nothing. *)
Lemma read_dead h r e :
  is_reference r = false → page_get (hp_pages h) (obj_slot r) = Some e → en_is_live e = false → read h r = None.
Proof. intros Hr Hs Hd. unfold read. rewrite Hr, Hs. simpl. by apply entry_read_dead. Qed.

Lemma alloc_spec h object :
  heap_ok h → slot_room h → agrees (hp_shared_allocations h) (shared_allocation object) →
  (hp_used_bytes h + heap_base_cost object
    + new_charge (hp_shared_allocations h) (shared_allocation object) <= USIZE_MAX)%N →
  ∃ r h', alloc h object = Ret (r, h') ∧ allocated h h' object r.
Proof.
  intros H Hroom Ha Hfit. unfold alloc, add_shared.
  destruct (add_shared_references_spec _ _ _ 1 (ho_ledger h H) Ha ltac:(lia)) as (m' & Em & Eb & Hm').
  { intros key. pose proof (held_keys_fit h key H). unfold SLOT_LIMIT in *. lia. }
  rewrite Em. simpl. set (charge := new_charge _ _) in *. unfold add_usize.
  pose proof (live_fit h H) as Hlf. unfold SLOT_LIMIT in Hlf.
  rewrite (proj2 (N.leb_le (heap_base_cost object + charge) _)) by lia. simpl.
  rewrite (proj2 (N.leb_le (hp_used_bytes h + _) _)) by lia. simpl.
  rewrite (proj2 (N.leb_le (hp_live h + 1) _)) by lia. simpl.
  set (h1 := set_account (set_shared h m') _ _). set (header := mkHeader _ _ _).
  destruct (install_entry_spec h1 header object) as (r & h' & pages & e & E & [Er Erest Hsame Hr Hat Hd Hg Hb Haf]);
    [apply H|apply H|done|].
  exists r, h'. split; [done|].
  set (hg := set_objects h pages (hp_generations h') (hp_slots h) (hp_free h)).
  assert (Hg0 : heap_ok hg) by (by apply heap_ok_same).
  assert (Hdig : hp_digests h' = hp_digests h) by (by rewrite Erest).
  assert (Hv : hp_text_views h' = hp_text_views hg) by (by rewrite Erest).
  assert (Href : is_reference r = false).
  { pose proof (object_reference _ _ _ _ _ _ Hb Hat) as Ho. rewrite <-Hg in Ho. by destruct r. }
  assert (Hfresh : read h r = None).
  { rewrite <-(read_same h hg) by done. by eapply read_dead. }
  assert (Hread : ∀ r', read h' r' = if decide (r' = r) then Some (born_frozen object, object) else read h r').
  { intros r'. rewrite (change_read hg h' _ _ _ Hg0 Hat Er Hv). unfold entry_read. simpl. rewrite <-Hg.
    rewrite (read_same h hg) by done. case_bool_decide as Hc; case_decide as Hrr.
    - subst r'. by rewrite N.eqb_refl.
    - destruct Hc as [Hc1 Hc2]. destruct (N.eqb_spec (obj_generation r) (obj_generation r')).
      + destruct Hrr. destruct r, r'; simpl in *; congruence.
      + symmetry. rewrite <-(read_same h hg) by done. eapply read_dead; [done| |exact Hd]. simpl. by rewrite Hc2.
    - subst r'. destruct Hc. done.
    - done. }
  constructor; try done; try (by rewrite Erest).
  - eapply (change_ok hg h'); try done.
    + rewrite Erest. simpl. unfold en_lives. rewrite Hd. simpl. lia.
    + rewrite Erest. simpl. rewrite Eb. unfold en_bytes. simpl. rewrite (proj1 (en_dead e) Hd). lia.
    + rewrite Erest. simpl. lia.
    + rewrite Erest at 1. simpl. eapply ledger_ok_ext; [|exact Hm']. intros k. simpl.
      pose proof (change_held hg h' _ _ _ Hg0 Hat Er Hv k) as Hh.
      unfold en_key in Hh. rewrite (proj1 (en_dead e) Hd) in Hh. simpl in Hh.
      unfold hg in Hh. rewrite N.add_0_r, held_same in Hh by done.
      by rewrite Hh.
    + rewrite Hdig. intros r' d Hr'. destruct (ho_digests h H r' d Hr') as [Hl Hdg]. split; [|done].
      rewrite Hread. case_decide; [by eexists|done].
  - rewrite Erest. simpl. lia.
  - intros Hx. eapply (change_exact hg h'); try done.
    + by eapply exact_same.
    + intros hd o [= <- <-]. done.
Qed.

(** *** Writes in place *)

(** The live entry a reference names. *)
Record names (h : Heap) (r : ObjRef) (e : Entry) (header : Header) (object : Obj) : Prop := {
  nm_object : is_reference r = false;
  nm_at : page_get (hp_pages h) (obj_slot r) = Some e;
  nm_state : en_state e = Some (header, object);
  nm_generation : en_generation e = obj_generation r;
}.

Lemma read_names h r frozen object :
  is_reference r = false → read h r = Some (frozen, object) →
  ∃ e header, names h r e header object ∧ hd_frozen header = frozen.
Proof.
  unfold read, entry_read. intros Hr. rewrite Hr. destruct (page_get (hp_pages h) (obj_slot r)) as [e|] eqn:E; [|done].
  simpl. destruct (N.eqb_spec (en_generation e) (obj_generation r)); [|done].
  destruct (en_state e) as [[header o]|] eqn:Es; [|done]. simpl. intros [= <- <-]. by exists e, header.
Qed.

Lemma names_read h r e header object : names h r e header object → read h r = Some (hd_frozen header, object).
Proof. intros [Hr Ha Hs Hg]. unfold read, entry_read. rewrite Hr, Ha. simpl. by rewrite Hg, N.eqb_refl, Hs. Qed.

Lemma names_live_entry h r e header object :
  names h r e header object → live_entry h r = Ret (e, header, object).
Proof. intros [Hr Ha Hs Hg]. unfold live_entry, entry_at. rewrite Ha. simpl. by rewrite Hg, N.eqb_refl, Hs. Qed.

Lemma names_live h r e header object : names h r e header object → en_is_live e = true.
Proof. intros [_ _ Hs _]. apply not_false_is_true. rewrite en_dead. congruence. Qed.

Lemma names_key h r e header object key :
  heap_ok h → names h r e header object → (en_key key e <= held_keys h key)%N.
Proof.
  intros H [_ Ha _ _]. rewrite page_get_flat in Ha by apply (ho_slots h H).
  pose proof (sumN_elem (en_key key) _ _ _ Ha). unfold held_keys. lia.
Qed.

(** The entry of [r] receives a new header and object. *)
Lemma update_spec h h' r e header object header' object' m' used' :
  heap_ok h → names h r e header object →
  h' = set_account (set_shared (set_entry h (obj_slot r) (mkEntry (en_generation e) (Some (header', object')))) m')
         (hp_live h) used' →
  (used' + hd_bytes header + shared_bytes (hp_shared_allocations h)
    = hp_used_bytes h + hd_bytes header' + shared_bytes m')%N → (used' <= USIZE_MAX)%N →
  ledger_ok m' (λ k, held_keys h k - one_if (bool_decide (hd_shared header = Some k))
                     + one_if (bool_decide (hd_shared header' = Some k)))%N →
  heap_ok h' ∧ ∀ r', read h' r' = if decide (r' = r) then Some (hd_frozen header', object') else read h r'.
Proof.
  intros H Hn Eh Hused Hmax Hm. pose proof Hn as [Hr Ha Hs Hg].
  set (e' := mkEntry (en_generation e) (Some (header', object'))) in *.
  assert (Hp : hp_pages h' = page_set (hp_pages h) (obj_slot r) e') by (by rewrite Eh).
  assert (Hv : hp_text_views h' = hp_text_views h) by (by rewrite Eh).
  assert (Hl : en_is_live e' = en_is_live e) by (by rewrite (names_live _ _ _ _ _ Hn)).
  assert (Hread : ∀ r', read h' r' = if decide (r' = r) then Some (hd_frozen header', object') else read h r').
  { intros r'. rewrite (change_read h h' _ _ _ H Ha Hp Hv). unfold entry_read, e'. simpl. rewrite Hg.
    case_bool_decide as Hc; case_decide as Hrr; try done.
    - subst r'. by rewrite N.eqb_refl.
    - destruct Hc as [Hc1 Hc2]. unfold read. rewrite Hc1, Hc2, Ha. simpl. unfold entry_read. rewrite Hg.
      destruct (N.eqb_spec (obj_generation r) (obj_generation r')); [|done].
      destruct Hrr. destruct r, r'; simpl in *; congruence.
    - subst r'. by destruct Hc. }
  split; [|done]. eapply (change_ok h h'); try done.
  - rewrite Eh. simpl. by eapply slots_update; [apply H|..].
  - rewrite Eh. simpl. unfold en_lives. by rewrite Hl.
  - rewrite Eh. simpl. unfold en_bytes. rewrite Hs. simpl. lia.
  - by rewrite Eh.
  - rewrite Eh at 1. simpl. eapply ledger_ok_ext; [|exact Hm]. intros k. simpl.
    pose proof (change_held h h' _ _ _ H Ha Hp Hv k) as Hk. pose proof (names_key _ _ _ _ _ k H Hn) as Hle.
    unfold en_key, e' in *. rewrite Hs in Hk, Hle. simpl in Hk, Hle. lia.
  - intros r' d Hr'. assert (Hd0 : hp_digests h !! r' = Some d) by (by rewrite Eh in Hr').
    destruct (ho_digests h H r' d Hd0) as [Hd Hdg]. split; [|done]. rewrite Hread. case_decide; [by eexists|done].
Qed.

Lemma held_update h r e header object key :
  heap_ok h → names h r e header object →
  (held_keys h key - one_if (bool_decide (hd_shared header = Some key))
    + one_if (bool_decide (hd_shared header = Some key)) = held_keys h key)%N.
Proof.
  intros H Hn. pose proof (names_key _ _ _ _ _ key H Hn) as Hk. pose proof (nm_state _ _ _ _ _ Hn) as Hs.
  unfold en_key in Hk. rewrite Hs in Hk. lia.
Qed.

(** Every header but that of [r] charges its object as it is. *)
Definition exact_but (h : Heap) (r : ObjRef) : Prop :=
  ∀ s e header object, s ≠ obj_slot r → page_get (hp_pages h) s = Some e → en_state e = Some (header, object) →
    hd_bytes header = heap_base_cost object ∧ hd_shared header = fst <$> shared_allocation object.

Lemma put_spec h r frozen object object' :
  heap_ok h → is_reference r = false → read h r = Some (frozen, object) →
  ∃ h', put h r object' = Ret h' ∧ heap_ok h' ∧
    hp_used_bytes h' = hp_used_bytes h ∧ hp_shared_allocations h' = hp_shared_allocations h ∧
    (heap_exact h → exact_but h' r) ∧
    ∀ r', read h' r' = if decide (r' = r) then Some (frozen, object') else read h r'.
Proof.
  intros H Hr Hread. destruct (read_names h r frozen object Hr Hread) as (e & header & Hn & <-).
  unfold put. rewrite (names_live_entry _ _ _ _ _ Hn). simpl. eexists. split; [done|].
  edestruct (update_spec h) as [Hok Hrd]; [exact H|exact Hn| | | | |split_and!; [exact Hok|..|exact Hrd]].
  - by destruct h.
  - lia.
  - apply H.
  - eapply ledger_ok_ext; [|apply H]. intros k. by eapply held_update.
  - done.
  - done.
  - intros Hx s x hd o Hne Hg Hst. simpl in Hg. pose proof (st_pages _ _ _ _ _ _ (ho_slots h H)) as Hp.
    rewrite page_get_set, decide_False in Hg by (done || (eapply page_get_lt; [done|apply Hn])). by eapply Hx.
Qed.

Lemma set_frozen_spec h r frozen object :
  heap_ok h → is_reference r = false → read h r = Some (frozen, object) →
  ∃ h', set_frozen h r = Ret h' ∧ heap_ok h' ∧ (heap_exact h → heap_exact h') ∧
    hp_used_bytes h' = hp_used_bytes h ∧ hp_text_views h' = hp_text_views h ∧
    ∀ r', read h' r' = if decide (r' = r) then Some (true, object) else read h r'.
Proof.
  intros H Hr Hread. destruct (read_names h r frozen object Hr Hread) as (e & header & Hn & _).
  unfold set_frozen. rewrite Hr, (names_live_entry _ _ _ _ _ Hn). simpl. eexists. split; [done|].
  edestruct (update_spec h) as [Hok Hrd]; [exact H|exact Hn| | | | |split_and!; [exact Hok| |..]].
  - by destruct h.
  - simpl. lia.
  - apply H.
  - eapply ledger_ok_ext; [|apply H]. intros k. simpl. by eapply held_update.
  - intros Hx. eapply (change_exact h); [exact H|apply Hn|done|done|].
    intros hd o [= <- <-]. simpl. eapply Hx; [apply Hn|apply Hn].
  - done.
  - done.
  - exact Hrd.
Qed.

(** *** Charges *)

(** The bytes charged to an entry are in the account. *)
Lemma names_bytes h r e header object :
  heap_ok h → names h r e header object →
  (hd_bytes header + shared_bytes (hp_shared_allocations h) <= hp_used_bytes h)%N.
Proof.
  intros H [_ Ha Hs _]. rewrite page_get_flat in Ha by apply (ho_slots h H).
  pose proof (sumN_elem en_bytes _ _ _ Ha) as Hb. unfold en_bytes at 1 in Hb. rewrite Hs in Hb.
  rewrite (ho_used h H). lia.
Qed.

Lemma names_shared h r e header object k :
  heap_ok h → names h r e header object → hd_shared header = Some k → (1 <= held_keys h k)%N.
Proof.
  intros H Hn Hk. pose proof (names_key _ _ _ _ _ k H Hn) as Hle. unfold en_key in Hle.
  rewrite (nm_state _ _ _ _ _ Hn), Hk, bool_decide_true in Hle by done. done.
Qed.

(** The ledger moves one reference from the old key to the new one. *)
Lemma recharge_ledger h r e header object :
  heap_ok h → names h r e header object → agrees (hp_shared_allocations h) (shared_allocation object) →
  ∃ released added m',
    (if decide (hd_shared header = fst <$> shared_allocation object) then Ret (0%N, 0%N, hp_shared_allocations h)
     else
       '(released, allocations) ← remove_shared (hp_shared_allocations h) (hd_shared header);
       '(added, allocations) ← add_shared allocations (shared_allocation object);
       Ret (released, added, allocations)) = Ret (released, added, m') ∧
    (shared_bytes m' + released = shared_bytes (hp_shared_allocations h) + added)%N ∧
    (released <= shared_bytes (hp_shared_allocations h))%N ∧
    (added <= new_charge (hp_shared_allocations h) (shared_allocation object))%N ∧
    ledger_ok m' (λ k, held_keys h k - one_if (bool_decide (hd_shared header = Some k))
                       + one_if (bool_decide (fst <$> shared_allocation object = Some k)))%N.
Proof.
  intros H Hn Ha. case_decide as E.
  { exists 0%N, 0%N, (hp_shared_allocations h). split_and!; [done|lia|lia|lia|].
    eapply ledger_ok_ext; [|apply H]. intros k. rewrite <-E. by eapply held_update. }
  destruct (remove_shared_spec _ _ (hd_shared header) (ho_ledger h H)) as (released & m1 & E1 & Eb1 & H1 & Hf1).
  { intros k. by eapply names_shared. }
  assert (Hf : ∀ key capacity, shared_allocation object = Some (key, capacity) → m1 !! key = hp_shared_allocations h !! key).
  { intros key capacity Hs. apply Hf1. rewrite Hs in E. simpl in E. congruence. }
  destruct (add_shared_references_spec m1 _ (shared_allocation object) 1 H1) as (m2 & E2 & Eb2 & H2).
  - intros key capacity charge Hs Hc. eapply Ha; [done|]. by rewrite <-(Hf _ _ Hs).
  - lia.
  - intros key. pose proof (held_keys_fit h key H). unfold SLOT_LIMIT in *. lia.
  - exists released, (new_charge m1 (shared_allocation object)), m2. rewrite E1. simpl. unfold add_shared. rewrite E2.
    split_and!; [done|lia|lia| |exact H2].
    unfold new_charge. destruct (shared_allocation object) as [[key capacity]|]; [|done]. by rewrite (Hf _ _ eq_refl).
Qed.

Lemma exact_but_update h h' r e header object e' :
  heap_ok h → names h r e header object → hp_pages h' = page_set (hp_pages h) (obj_slot r) e' →
  (∀ header object, en_state e' = Some (header, object) →
    hd_bytes header = heap_base_cost object ∧ hd_shared header = fst <$> shared_allocation object) →
  exact_but h r → heap_exact h'.
Proof.
  intros H Hn Hp He' Hx s x hd o Hg Hst. pose proof (st_pages _ _ _ _ _ _ (ho_slots h H)) as Hpg.
  rewrite Hp, page_get_set in Hg by (done || (eapply page_get_lt; [done|apply Hn])).
  case_decide; simplify_eq; [by apply He'|by eapply Hx].
Qed.

Lemma recharge_spec h r frozen object :
  heap_ok h → is_reference r = false → read h r = Some (frozen, object) →
  agrees (hp_shared_allocations h) (shared_allocation object) →
  (hp_used_bytes h + heap_base_cost object
    + new_charge (hp_shared_allocations h) (shared_allocation object) <= USIZE_MAX)%N →
  ∃ h', recharge h r = Ret h' ∧ heap_ok h' ∧ (∀ r', read h' r' = read h r') ∧
    (exact_but h r → heap_exact h').
Proof.
  intros H Hr Hread Ha Hfit. destruct (read_names h r frozen object Hr Hread) as (e & header & Hn & Hfz).
  destruct (recharge_ledger h r e header object H Hn Ha) as (released & added & m' & E & Eb & Hle1 & Hle2 & Hm).
  pose proof (names_bytes _ _ _ _ _ H Hn) as Hb.
  unfold recharge. rewrite (names_live_entry _ _ _ _ _ Hn). cbn [mbind exec_bind]. rewrite E. simpl.
  unfold sub_usize, add_usize. rewrite (proj2 (N.leb_le (hd_bytes header) _)) by lia. simpl.
  rewrite (proj2 (N.leb_le released _)) by lia. simpl.
  rewrite (proj2 (N.leb_le (_ + heap_base_cost object) _)) by lia. simpl.
  rewrite (proj2 (N.leb_le (_ + added) _)) by lia. simpl.
  set (header' := mkHeader (hd_frozen header) (heap_base_cost object) (fst <$> shared_allocation object)).
  set (h' := set_account _ _ _).
  destruct (update_spec h h' r e header object header' object m'
    (hp_used_bytes h - hd_bytes header - released + heap_base_cost object + added)%N) as [Hok Hrd];
    [done|done|done|simpl; lia|lia|exact Hm|].
  exists h'. split_and!; [done|exact Hok|..].
  - intros r'. clear E. rewrite Hrd. case_decide; [|done]. subst r'. by rewrite Hread, <-Hfz.
  - eapply exact_but_update; [exact H|exact Hn|done|]. by intros hd o [= <- <-].
Qed.

(** *** Frees *)

Record freed (h h' : Heap) (r : ObjRef) : Prop := {
  fr_ok : heap_ok h';
  fr_read : ∀ r', (obj_generation r' <= U32_MAX)%N → read h' r' = if decide (r' = r) then None else read h r';
  fr_live : (hp_live h' + 1 = hp_live h)%N;
  fr_used : (hp_used_bytes h' <= hp_used_bytes h)%N;
  fr_exact : heap_exact h → heap_exact h';
}.

Lemma free_object_spec h r frozen object :
  heap_ok h → is_reference r = false → read h r = Some (frozen, object) →
  ∃ h', free h r = Ret h' ∧ freed h h' r.
Proof.
  intros H Hr Hread. destruct (read_names h r frozen object Hr Hread) as (e & header & Hn & _).
  pose proof Hn as [_ Ha Hs Hg]. pose proof (names_bytes _ _ _ _ _ H Hn) as Hb.
  pose proof (ho_used_max h H) as Hmax. pose proof (names_live _ _ _ _ _ Hn) as Hl.
  destruct (remove_shared_spec _ _ (hd_shared header) (ho_ledger h H)) as (released & m' & Em & Eb & Hm & _).
  { intros k. by eapply names_shared. }
  unfold free, free_object, entry_at, en_take. rewrite Hr, Ha. simpl. rewrite Hg, N.eqb_refl, <-Hg, Hs. simpl.
  change (N.land (as_u32 (en_generation e + 1)) OBJECT_GENERATION_MASK) with (next_generation (en_generation e)).
  pose proof Ha as Hflat. rewrite page_get_flat in Hflat by apply (ho_slots h H).
  pose proof (lookup_lt_Some _ _ _ (st_gens _ _ _ _ _ _ (st_flat _ _ _ _ _ _ (ho_slots h H)) _ _ Hflat)) as Hgl.
  assert (Hlv : (1 <= hp_live h)%N).
  { rewrite (ho_live h H). pose proof (sumN_elem en_lives _ _ _ Hflat) as Hle. unfold en_lives at 1 in Hle.
    rewrite Hl in Hle. simpl in Hle. lia. }
  rewrite (proj2 (N.ltb_lt _ _)) by (unfold lenN; lia). simpl. rewrite Em. simpl. unfold add_usize, sub_usize.
  rewrite (proj2 (N.leb_le (hd_bytes header + released) _)) by lia. simpl.
  rewrite (proj2 (N.leb_le (hd_bytes header + released) _)) by lia. simpl.
  rewrite (proj2 (N.leb_le 1 _) Hlv). simpl. eexists. split; [done|]. set (h' := set_digests _ _).
  set (e' := mkEntry (next_generation (en_generation e)) None).
  assert (Hp : hp_pages h' = page_set (hp_pages h) (obj_slot r) e') by done.
  assert (Hrd : ∀ r', read h' r' = if decide (r' = r) then None else read h r').
  { intros r'. rewrite (change_read h h' _ _ _ H Ha Hp eq_refl).
    assert (entry_read e' r' = None) as -> by (by apply entry_read_dead).
    case_bool_decide as Hc; case_decide as Hrr; try done.
    - destruct Hc as [Hc1 Hc2]. unfold read, entry_read. rewrite Hc1, Hc2, Ha. simpl. rewrite Hg.
      destruct (N.eqb_spec (obj_generation r) (obj_generation r')); [|done].
      destruct Hrr. destruct r, r'; simpl in *; congruence.
    - subst r'. by destruct Hc. }
  constructor; [|intros r' _; apply Hrd|simpl; lia|simpl; lia|].
  - eapply (change_ok h h'); try done.
    + simpl. eapply (slots_kill en_generation en_is_live _ _ _ _ _ e e'); [apply H|done|done|done|apply next_generation_mask].
    + simpl. unfold en_lives. rewrite Hl. simpl. lia.
    + simpl. unfold en_bytes. rewrite Hs. simpl. lia.
    + simpl. lia.
    + simpl. eapply ledger_ok_ext; [|exact Hm]. intros k. simpl.
      pose proof (change_held h h' _ _ _ H Ha Hp eq_refl k) as Hk. unfold en_key, e' in Hk. rewrite Hs in Hk. simpl in Hk. lia.
    + simpl. intros r' d [Hne Hd]%lookup_delete_Some. unfold digest_ok. rewrite Hrd, decide_False by done. by apply (ho_digests h H).
  - intros Hx. eapply (change_exact h h'); [exact H|exact Ha|done|done|done].
Qed.

Lemma free_view_spec h r frozen object :
  heap_ok h → is_reference r = true → (obj_generation r <= U32_MAX)%N → read h r = Some (frozen, object) →
  ∃ h', free h r = Ret h' ∧ freed h h' r.
Proof.
  intros H Hr Hw Hread. unfold free. rewrite Hr.
  assert (Hcur : is_Some (view_current (hp_text_views h) r)).
  { apply view_get_current; [apply H|]. unfold read in Hread. rewrite Hr in Hread.
    destruct (view_get (hp_text_views h) r); [by eexists|done]. }
  destruct Hcur as [e He].
  destruct (view_free_spec _ _ _ (ho_views h H) He) as (key & t' & Et & Ht & Hlive & Hk1 & Hk & Hsl & Hget).
  destruct (remove_shared_references_spec _ _ key 1 (ho_ledger h H)) as (released & m' & Em & Eb & Hm).
  { unfold held_keys. lia. }
  pose proof (ho_used_max h H) as Hmax. pose proof (ho_used h H) as Hu. pose proof (ho_live h H) as Hl.
  unfold free_view. rewrite Et. simpl. rewrite Em. simpl. unfold add_usize, sub_usize.
  assert (Hc : (MIN_OBJECT_COST + released <= hp_used_bytes h)%N) by (unfold MIN_OBJECT_COST in *; lia).
  rewrite (proj2 (N.leb_le (MIN_OBJECT_COST + released) USIZE_MAX)) by lia. simpl.
  rewrite (proj2 (N.leb_le (MIN_OBJECT_COST + released) _) Hc). simpl.
  rewrite (proj2 (N.leb_le 1 _)) by lia. simpl. eexists. split; [done|]. set (h' := set_digests _ _).
  assert (Hrd : ∀ r', (obj_generation r' <= U32_MAX)%N → read h' r' = if decide (r' = r) then None else read h r').
  { intros r' Hw'. unfold read. simpl. rewrite Hget. case_decide as Hs; case_decide as Hrr; try done.
    - destruct (is_reference r') eqn:Hr'; [done|]. subst r'. congruence.
    - destruct (is_reference r') eqn:Hr'; [|done]. simpl.
      destruct (view_get (hp_text_views h) r') as [[o v]|] eqn:Eg; [|done]. exfalso. apply Hrr.
      destruct (proj1 (view_get_current _ r' (ho_views h H)) (ex_intro _ _ Eg)) as [e2 He2].
      pose proof (view_ref_current _ _ _ Hw He) as <-. pose proof (view_ref_current _ _ _ Hw' He2) as <-.
      apply view_current_Some in He as (_ & Hp1 & _), He2 as (_ & Hp2 & _). rewrite Hs in *. congruence.
    - subst r'. congruence. }
  constructor; [|done|simpl; lia|simpl; lia|done].
  constructor; simpl; try apply H; try done.
  - lia.
  - unfold MIN_OBJECT_COST in *. lia.
  - lia.
  - eapply ledger_ok_ext; [|exact Hm]. intros k. unfold held_keys. simpl. specialize (Hk k). unfold one_if in Hk.
    destruct (k =? key)%N; lia.
  - intros r' d [Hne Hd]%lookup_delete_Some. destruct (ho_digests h H r' d Hd) as [Hlr [Hdg Hwd]]. split; [|done].
    by rewrite Hrd, decide_False.
Qed.
End HeapOps.
