(* ===== verification/HeapAlloc.v ===== *)
(** * Allocation against the limits

    [try_alloc] answers by the byte cap, the slots and the host allocator, and
    a refusal leaves every account and every read as it was.
    [try_alloc_text_view_list] does the same for a batch of text views and the
    list that holds them. *)

From stdpp Require Import base numbers option gmap list.
From S2P Require Import Prelude Value Pages TextViews SlotTable TextViewsInv TextViewsBatch Heap Ledger HeapInv HeapOps.

Section HeapAlloc.
Context `{HT : HeapTypes} `{HM : HostMemory}.

(** [h'] is [h] with another layout of the object table. *)
Record relaid (h h' : Heap) : Prop := {
  rl_ok : heap_ok h';
  rl_same : same_live (hp_pages h) (hp_pages h');
  rl_rest : h' = set_objects h (hp_pages h') (hp_generations h') (hp_slots h') (hp_free h');
}.

Lemma relaid_refl h : heap_ok h → relaid h h.
Proof. intros H. split; [done|done|by destruct h]. Qed.

Lemma relaid_trans h1 h2 h3 : relaid h1 h2 → relaid h2 h3 → relaid h1 h3.
Proof.
  intros [_ Hs1 E1] [Ho2 Hs2 E2]. split; [done|by eapply same_live_trans|].
  rewrite E2 at 1. by rewrite E1.
Qed.

Lemma relaid_read h h' r : relaid h h' → read h' r = read h r.
Proof. intros [_ Hs E]. apply read_same; [done|]. by rewrite E. Qed.

Lemma relaid_exact h h' : relaid h h' → heap_exact h → heap_exact h'.
Proof. intros [_ Hs _]. by apply exact_same. Qed.

Lemma try_add_page_spec h :
  heap_ok h → (table_slots (hp_pages h) + PAGE_SLOTS <= SLOT_LIMIT)%N →
  ∃ h', try_add_page h = (host_reserve (ObjectPage (lenN (hp_pages h))), h') ∧ relaid h h' ∧
    hp_slots h' = hp_slots h ∧ hp_free h' = hp_free h ∧
    table_slots (hp_pages h') = (table_slots (hp_pages h) + if host_reserve (ObjectPage (lenN (hp_pages h))) then PAGE_SLOTS else 0)%N.
Proof.
  intros H Hroom. unfold try_add_page. destruct (host_reserve _); cbn [negb].
  2: { exists h. split_and!; [done|by apply relaid_refl|done|done|lia]. }
  unfold saturating_mul_usize. fold (table_slots (hp_pages h)).
  rewrite N.min_l by (unfold SLOT_LIMIT, USIZE_MAX, U64_MAX in *; lia). unfold checked_add_usize.
  rewrite (proj2 (N.leb_le _ _)) by (apply page_slots_fit, H).
  pose proof (slots_page _ _ _ _ (ho_slots h H)) as Hs'. pose proof (same_live_page _ _ _ _ (ho_slots h H)) as Hl'.
  set (page := entry_dead <$> _) in *. set (generations := resize_vec _ _ _) in *.
  eexists. split; [done|]. split_and!; [|done|done|apply table_slots_snoc].
  split; [|done|done]. apply heap_ok_same; [done|done|done|]. by rewrite table_slots_snoc.
Qed.

Lemma allocated_relaid h h1 h' object r : relaid h h1 → allocated h1 h' object r → allocated h h' object r.
Proof.
  intros Hr [Hok Hobj Hfresh Hread Hlive Hused Hex Hviews Hdig Hroots Hcap]. pose proof (rl_rest _ _ Hr) as E.
  constructor; try done.
  - by rewrite <-(relaid_read h h1).
  - intros r'. by rewrite Hread, (relaid_read h h1).
  - by rewrite Hlive, E.
  - by rewrite Hused, E.
  - intros Hx. by apply Hex, (relaid_exact h).
  - by rewrite Hviews, E.
  - by rewrite Hdig, E.
  - by rewrite Hroots, E.
  - by rewrite Hcap, E.
Qed.

(** *** One object *)

(** An object whose full cost fits the machine. *)
Definition object_fits (object : Obj) : Prop :=
  (heap_base_cost object + default 0%N (snd <$> shared_allocation object) <= USIZE_MAX)%N.

(** The cost checked against the cap. *)
Definition checked_cost (h : Heap) (object : Obj) : N :=
  heap_base_cost object +
  match shared_allocation object with
  | Some (key, capacity) =>
      if shared_allocation_is_unique object then capacity else new_charge (hp_shared_allocations h) (shared_allocation object)
  | None => 0
  end.

Lemma allocation_cost_spec h object :
  object_fits object → allocation_cost h object = Ret (checked_cost h object) ∧
    (heap_base_cost object + new_charge (hp_shared_allocations h) (shared_allocation object) <= checked_cost h object)%N.
Proof.
  unfold object_fits, allocation_cost, checked_cost, add_usize, new_charge. intros Hf.
  destruct (shared_allocation object) as [[key capacity]|]; simpl in *.
  - destruct (shared_allocation_is_unique object); simpl.
    + rewrite (proj2 (N.leb_le _ _) Hf). split; [done|]. case_bool_decide; lia.
    + case_bool_decide; simpl; [|by rewrite (proj2 (N.leb_le _ _) Hf)].
      rewrite (proj2 (N.leb_le _ _)) by lia. done.
  - rewrite (proj2 (N.leb_le _ _)) by lia. done.
Qed.

(** A slot is there, or the host gives a page. *)
Definition slot_ready (h : Heap) : bool :=
  negb (bool_decide (hp_free h = [])) || negb (hp_slots h =? table_slots (hp_pages h))%N
  || host_reserve (ObjectPage (lenN (hp_pages h))).

Lemma slots_le_table h : heap_ok h → (hp_slots h <= table_slots (hp_pages h))%N.
Proof. intros H. rewrite <-length_flat by apply (ho_slots h H). apply (ho_slots h H). Qed.

(** The page a full table asks for. *)
Lemma try_alloc_page h :
  heap_ok h → slot_room h →
  ∃ h', (if bool_decide (hp_free h = []) && (hp_slots h =? table_slots (hp_pages h))%N
         then try_add_page h else (true, h)) = (slot_ready h, h') ∧
    relaid h h' ∧ (slot_ready h = true → slot_room h').
Proof.
  intros H Hroom. unfold slot_ready. case_bool_decide as Hf; simpl.
  - pose proof (slots_le_table h H) as Hle. destruct (N.eqb_spec (hp_slots h) (table_slots (hp_pages h))) as [Eq|Ne]; simpl.
    + destruct (try_add_page_spec h H) as (h' & E & Hr & Es & Ef & Et).
      { destruct Hroom as [?|[?|?]]; [done|lia|done]. }
      exists h'. split_and!; [done|done|]. intros Hh. rewrite Hh in Et. right. left. rewrite Es, Et, Eq.
      unfold PAGE_SLOTS. lia.
    + exists h. split_and!; [done|by apply relaid_refl|]. intros _. right. left. lia.
  - exists h. split_and!; [done|by apply relaid_refl|]. intros _. by left.
Qed.

Lemma would_exceed_batch_spec h bytes objects :
  heap_ok h → (hp_cap_bytes h <= USIZE_MAX)%N → (objects <= SLOT_LIMIT)%N →
  would_exceed_batch h bytes objects = negb (hp_used_bytes h + bytes <=? hp_cap_bytes h)%N.
Proof.
  intros H Hcap Ho. unfold would_exceed_batch, checked_add_usize. pose proof (live_fit h H).
  rewrite (proj2 (N.leb_le (hp_live h + objects) _)) by lia. rewrite bool_decide_false by done. rewrite orb_false_r.
  destruct (N.leb_spec (hp_used_bytes h + bytes) USIZE_MAX); [|symmetry; apply negb_true_iff, N.leb_gt; lia].
  destruct (N.ltb_spec (hp_cap_bytes h) (hp_used_bytes h + bytes)); symmetry;
    [apply negb_true_iff, N.leb_gt; lia|apply negb_false_iff, N.leb_le; lia].
Qed.

(** An object is refused exactly when its cost passes the cap or no slot can
    be had; a refusal changes no account and no read. *)
Lemma try_alloc_cases h object :
  heap_ok h → (hp_cap_bytes h <= USIZE_MAX)%N → slot_room h → object_fits object →
  agrees (hp_shared_allocations h) (shared_allocation object) →
  ∃ result h', try_alloc h object = Ret (result, h') ∧
    if (hp_used_bytes h + checked_cost h object <=? hp_cap_bytes h)%N && slot_ready h
    then ∃ r, result = Ok r ∧ allocated h h' object r
    else result = Err object ∧ relaid h h'.
Proof.
  intros H Hcap Hroom Hfits Ha. unfold try_alloc. destruct (allocation_cost_spec h object Hfits) as [-> Hle]. simpl.
  unfold would_exceed. rewrite would_exceed_batch_spec by (done || unfold SLOT_LIMIT; lia).
  destruct (N.leb_spec (hp_used_bytes h + checked_cost h object) (hp_cap_bytes h)) as [Hin|Hout]; simpl.
  2: { eexists _, _. split; [done|]. split; [done|by apply relaid_refl]. }
  fold (table_slots (hp_pages h)). destruct (try_alloc_page h H Hroom) as (h1 & E1 & Hr & Hroom1). rewrite E1.
  destruct (slot_ready h) eqn:Er.
  - pose proof (rl_rest _ _ Hr) as Erest.
    destruct (alloc_spec h1 object) as (r & h' & E & Hal); [apply Hr|by apply Hroom1|by rewrite Erest|rewrite Erest; simpl; lia|].
    rewrite E. simpl. eexists _, _. split; [done|]. exists r. split; [done|]. by eapply allocated_relaid.
  - eexists _, _. split; [done|]. by split.
Qed.

(** *** Reserving slots *)

Definition slots_available (h : Heap) : N := (lenN (hp_free h) + (table_slots (hp_pages h) - hp_slots h))%N.

(** Room for [count] more objects. *)
Definition slots_room (h : Heap) (count : N) : Prop :=
  (count <= slots_available h ∨ hp_slots h + count + PAGE_SLOTS <= SLOT_LIMIT + 1)%N.

Lemma free_count_le h : heap_ok h → (lenN (hp_free h) <= hp_slots h)%N.
Proof. intros H. eapply free_le, (ho_slots h H). Qed.

Lemma reserve_loop_S fuel h available count :
  reserve_loop (S fuel) h available count =
    if (available <? count)%N then
      let '(ok, h) := try_add_page h in
      if (ok : bool) then reserve_loop fuel h (saturating_add_usize available PAGE_SLOTS) count else Ret (false, h)
    else Ret (true, h).
Proof. reflexivity. Qed.

Lemma reserve_loop_enough fuel h available count :
  (count <= available)%N → reserve_loop fuel h available count = Ret (true, h).
Proof. intros H. destruct fuel; cbn [reserve_loop]; by rewrite (proj2 (N.ltb_ge _ _) H). Qed.

Lemma saturating_page a : (a <= 2 * SLOT_LIMIT)%N → saturating_add_usize a PAGE_SLOTS = (a + PAGE_SLOTS)%N.
Proof. intros H. unfold saturating_add_usize. apply N.min_l. unfold SLOT_LIMIT, PAGE_SLOTS, USIZE_MAX, U64_MAX in *. lia. Qed.

Lemma available_small h : heap_ok h → (slots_available h <= 2 * SLOT_LIMIT)%N.
Proof.
  intros H. pose proof (ho_room h H). pose proof (free_count_le h H). pose proof (slots_le_table h H).
  unfold slots_available. lia.
Qed.

Lemma reserve_loop_spec count : ∀ fuel h,
  heap_ok h → slots_room h count → (count <= slots_available h + N.of_nat fuel)%N →
  ∃ ok h', reserve_loop fuel h (slots_available h) count = Ret (ok, h') ∧ relaid h h' ∧
    hp_slots h' = hp_slots h ∧ hp_free h' = hp_free h ∧ if (ok : bool) then (count <= slots_available h')%N else memory_short.
Proof.
  induction fuel as [|fuel IH]; intros h H Hroom Hf; (destruct (N.lt_ge_cases (slots_available h) count) as [Hlt|Hge];
    [|exists true, h; rewrite reserve_loop_enough by done; split_and!; try done; by apply relaid_refl]); [lia|].
  rewrite reserve_loop_S, (proj2 (N.ltb_lt _ _) Hlt).
  pose proof (slots_le_table h H) as Hle. pose proof (free_count_le h H) as Hfc.
  destruct Hroom as [?|Hroom]; [lia|].
  destruct (try_add_page_spec h H) as (h1 & E & Hr & Es & Ef & Et).
  { unfold slots_available in Hlt. lia. }
  rewrite E. destruct (host_reserve (ObjectPage (lenN (hp_pages h)))) eqn:Ehost.
  2: { exists false, h1. split_and!; try done. by eexists. }
  assert (Ea : (slots_available h + PAGE_SLOTS)%N = slots_available h1).
  { unfold slots_available. rewrite Es, Ef, Et. clear -Hle. lia. }
  rewrite saturating_page by (by apply available_small).
  rewrite Ea. destruct (IH h1) as (ok & h2 & E2 & Hr2 & Es2 & Ef2 & Hav); [apply Hr| | |].
  - right. by rewrite Es.
  - rewrite <-Ea. assert (1 <= PAGE_SLOTS)%N by done. clear -Hf H0. lia.
  - exists ok, h2. split_and!; [done|by eapply relaid_trans|congruence..|done].
Qed.

Lemma reserve_precharged_spec h count :
  heap_ok h → slots_room h count →
  ∃ ok h', reserve_precharged_slots h count = Ret (ok, h') ∧ relaid h h' ∧
    hp_slots h' = hp_slots h ∧ hp_free h' = hp_free h ∧ if (ok : bool) then (count <= slots_available h')%N else memory_short.
Proof.
  intros H Hroom. unfold reserve_precharged_slots, saturating_mul_usize, saturating_sub, saturating_add_usize.
  fold (table_slots (hp_pages h)). pose proof (ho_room h H) as Hr. pose proof (free_count_le h H). pose proof (slots_le_table h H).
  rewrite (N.min_l (table_slots _)) by (unfold SLOT_LIMIT, USIZE_MAX, U64_MAX in *; lia).
  rewrite N.min_l by (unfold SLOT_LIMIT, USIZE_MAX, U64_MAX in *; lia). fold (slots_available h).
  apply reserve_loop_spec; [done|done|lia].
Qed.

Lemma available_slot_room h : (1 <= slots_available h)%N → slot_room h.
Proof.
  unfold slots_available, slot_room. destruct (hp_free h); [|by left]. unfold lenN. simpl. intros ?. right. left. lia.
Qed.

Lemma slot_room_slots h : heap_ok h → slot_room h → slots_room h 1.
Proof.
  intros H Hr. pose proof (slots_le_table h H). unfold slots_room, slots_available.
  destruct Hr as [Hr|[Hr|Hr]]; [|left; lia|right; lia].
  left. destruct (hp_free h); [done|]. unfold lenN. simpl. lia.
Qed.

(** *** Replacing the text views *)

(** The views change and the ledger and the accounts with them. *)
Lemma set_views_ok h views m live used :
  heap_ok h → views_ok views →
  (live + tv_live (hp_text_views h) = hp_live h + tv_live views)%N →
  (used + shared_bytes (hp_shared_allocations h) + MIN_OBJECT_COST * tv_live (hp_text_views h)
    = hp_used_bytes h + shared_bytes m + MIN_OBJECT_COST * tv_live views)%N → (used <= USIZE_MAX)%N →
  ledger_ok m (λ k, sumN (en_key k) (concat (hp_pages h)) + views_key views k)%N →
  (∀ r, (obj_generation r <= U32_MAX)%N → is_reference r = true → is_Some (view_get (hp_text_views h) r) →
     is_Some (view_get views r)) →
  heap_ok (set_text_views (set_account (set_shared h m) live used) views).
Proof.
  intros H Hv Hl Hu Hmax Hm Hget. pose proof (ho_live h H). pose proof (ho_used h H).
  constructor; simpl; try apply H; try done; try lia.
  intros r d Hd. destruct (ho_digests h H r d Hd) as (Hr & Hg & Hw). split; [|done].
  unfold read in *. simpl. destruct (is_reference r) eqn:Er; [|done].
  destruct (Hget r Hw Er) as [[o v] ->]; [|by eexists].
  destruct (view_get (hp_text_views h) r); [by eexists|by destruct Hr].
Qed.

Lemma paged_views_ok h views :
  heap_ok h → view_paged (hp_text_views h) views →
  heap_ok (set_text_views h views) ∧ ∀ r, read (set_text_views h views) r = read h r.
Proof.
  intros H Hp. split.
  - assert (set_text_views h views =
      set_text_views (set_account (set_shared h (hp_shared_allocations h)) (hp_live h) (hp_used_bytes h)) views) as ->
      by (by destruct h).
    apply set_views_ok; [done|apply Hp|..].
    + by rewrite (vp_live _ _ Hp).
    + by rewrite (vp_live _ _ Hp).
    + apply H.
    + eapply ledger_ok_ext; [|apply H]. intros k. unfold held_keys, views_key. by rewrite (vp_roots _ _ Hp).
    + intros r _ _. by rewrite (vp_get _ _ Hp).
  - intros r. unfold read. simpl. by rewrite (vp_get _ _ Hp).
Qed.

(** *** A batch of text views and its list *)

Section lists.
Context `{HL : !HeapLaws}.

(** The batch names one shared allocation, the one its owner reads. *)
Definition batch_ok (h : Heap) (b : TextViewBatch) : Prop :=
  agrees (hp_shared_allocations h) (Some (tb_shared_allocation b)) ∧
  ∀ owner, batch_owner (hp_text_views h) b = Some owner → owner_key owner = (tb_shared_allocation b).1.

Definition batch_charge (h : Heap) (b : TextViewBatch) : N :=
  new_charge (hp_shared_allocations h) (batch_shared_allocation b).

(** The cost of the views and their list. *)
Definition batch_cost (h : Heap) (b : TextViewBatch) : N :=
  (lenN (tb_views b) * (MIN_OBJECT_COST + VALUE_SIZE) + MIN_OBJECT_COST + batch_charge h b)%N.

(** [refs] read the views of the batch, [r] is the list of them, and every
    other reference reads what it did. *)
Record list_allocated (h h' : Heap) (b : TextViewBatch) (owner : Owner) (r : ObjRef) (refs : list ObjRef) : Prop := {
  ll_ok : heap_ok h';
  ll_list : read h' r = Some (false, list_object (VObj <$> refs));
  ll_views : Forall2 (λ r view, read h' r = Some (true, substring_object owner view)) refs (tb_views b);
  ll_fresh : ∀ r', r' ∈ r :: refs → read h r' = None;
  ll_other : ∀ r', (obj_generation r' <= U32_MAX)%N → r' ∉ r :: refs → read h' r' = read h r';
  ll_live : hp_live h' = (hp_live h + lenN (tb_views b) + 1)%N;
  ll_used : hp_used_bytes h' = (hp_used_bytes h + batch_cost h b)%N;
  ll_exact : heap_exact h → heap_exact h';
}.

Lemma view_read h r owner view :
  view_get (hp_text_views h) r = Some (owner, view) → read h r = Some (true, substring_object owner view).
Proof.
  intros Hg. unfold read. assert (Hr : is_reference r = true).
  { unfold view_get, view_current in Hg. by destruct (is_reference r). }
  by rewrite Hr, Hg.
Qed.

(** The ledger and the views after the batch, before its list. *)
Lemma install_views_heap h b owner :
  heap_ok h → batch_ok h b → batch_owner (hp_text_views h) b = Some owner →
  (lenN (tb_views b) <= view_room (hp_text_views h))%N → (tb_views b ≠ [] → root_room (hp_text_views h) b) →
  (hp_used_bytes h + lenN (tb_views b) * MIN_OBJECT_COST + batch_charge h b <= USIZE_MAX)%N →
  ∃ m' views refs,
    add_shared_references (hp_shared_allocations h) (batch_shared_allocation b) (lenN (tb_views b))
      = Ret (batch_charge h b, m') ∧
    install_batch (hp_text_views h) b [] = Ret (views, VObj <$> refs) ∧
    batch_installed (hp_text_views h) views owner (tb_views b) refs ∧
    heap_ok (set_text_views (set_account (set_shared h m') (hp_live h + lenN (tb_views b))
              (hp_used_bytes h + (lenN (tb_views b) * MIN_OBJECT_COST + batch_charge h b))) views).
Proof.
  intros H [Hag Hkey] Ho Hroom Hroot Hfit. specialize (Hkey owner Ho).
  destruct (install_batch_spec _ b owner [] (ho_views h H) Hroom Ho Hroot) as (views & refs & Ei & Hi).
  assert (Hledger : ∃ m',
    add_shared_references (hp_shared_allocations h) (batch_shared_allocation b) (lenN (tb_views b))
      = Ret (batch_charge h b, m') ∧
    shared_bytes m' = (shared_bytes (hp_shared_allocations h) + batch_charge h b)%N ∧
    ledger_ok m' (λ k, sumN (en_key k) (concat (hp_pages h)) + views_key views k)%N).
  { unfold batch_charge, batch_shared_allocation. destruct (tb_views b) as [|v vs] eqn:Ev.
    - exists (hp_shared_allocations h). rewrite bool_decide_true by done. split_and!; [done|simpl; lia|].
      eapply ledger_ok_ext; [|apply H]. intros k. unfold held_keys. rewrite (bi_keys _ _ _ _ _ Hi).
      unfold lenN. simpl. case_match; lia.
    - rewrite bool_decide_false by done. rewrite <-Ev in *.
      destruct (add_shared_references_spec _ _ (Some (tb_shared_allocation b)) (lenN (tb_views b)) (ho_ledger h H) Hag)
        as (m' & E & Eb & Hm).
      + unfold lenN. rewrite Ev. simpl. lia.
      + intros k. pose proof (held_keys_fit h k H). pose proof (vo_room _ (ho_views h H)) as Hvr.
        pose proof (free_le _ _ _ _ _ _ (vf_slots _ _ _ _ _ _ _ (vo_flat _ (ho_views h H)))) as Hfl.
        pose proof (st_slots _ _ _ _ _ _ (vf_slots _ _ _ _ _ _ _ (vo_flat _ (ho_views h H)))) as Hsl.
        rewrite length_flat in Hsl by apply (ho_views h H). unfold view_room in Hroom.
        assert (U32_MAX <= SLOT_LIMIT)%N by done. clear -H0 H1 Hvr Hfl Hsl Hroom. lia.
      + exists m'. split_and!; [done|done|]. eapply ledger_ok_ext; [|exact Hm]. intros k. simpl.
        rewrite (bi_keys _ _ _ _ _ Hi). unfold held_keys. rewrite N.add_assoc. f_equal.
        destruct (N.eqb_spec k (owner_key owner)) as [->|Hne].
        * rewrite bool_decide_true; [done|]. simpl. by rewrite Hkey.
        * rewrite bool_decide_false; [done|]. simpl. rewrite <-Hkey. congruence. }
  destruct Hledger as (m' & Em & Eb & Hm). exists m', views, refs. split_and!; [done|done|done|].
  apply set_views_ok; [done|apply Hi| | | |done|].
  - rewrite (bi_live _ _ _ _ _ Hi). lia.
  - rewrite Eb, (bi_live _ _ _ _ _ Hi). lia.
  - lia.
  - intros r Hw _ Hs. destruct (decide (r ∈ refs)) as [Hin|Hin].
    + rewrite (bi_fresh _ _ _ _ _ Hi r Hin) in Hs. by destruct Hs.
    + by rewrite (bi_other _ _ _ _ _ Hi r Hw Hin).
Qed.

Lemma install_list_spec h b owner :
  heap_ok h → batch_ok h b → batch_owner (hp_text_views h) b = Some owner → slot_room h →
  (lenN (tb_views b) <= view_room (hp_text_views h))%N → (tb_views b ≠ [] → root_room (hp_text_views h) b) →
  (hp_used_bytes h + batch_cost h b <= USIZE_MAX)%N →
  ∃ r refs h', install_text_view_list h b (batch_charge h b) = Ret (Some r, h') ∧
    list_allocated h h' b owner r refs.
Proof.
  intros H Hb Ho Hslot Hroom Hroot Hfit. unfold batch_cost in Hfit.
  assert (Hvs : VALUE_SIZE = 16%N) by done. assert (Hmc : MIN_OBJECT_COST = 32%N) by done.
  assert (Hmul : (lenN (tb_views b) * (MIN_OBJECT_COST + VALUE_SIZE)
    = lenN (tb_views b) * MIN_OBJECT_COST + lenN (tb_views b) * VALUE_SIZE)%N) by apply N.mul_add_distr_l.
  destruct (install_views_heap h b owner) as (m' & views & refs & Em & Ei & Hi & Hok); try done; [lia|].
  set (count := lenN (tb_views b)) in *. set (h1 := set_text_views _ _) in Hok.
  assert (Hlen : lenN refs = count) by (unfold count, lenN; by rewrite (Forall2_length _ _ _ (bi_refs _ _ _ _ _ Hi))).
  assert (Hlist : heap_base_cost (list_object (VObj <$> refs)) = (MIN_OBJECT_COST + count * VALUE_SIZE)%N).
  { rewrite list_cost. unfold lenN in *. by rewrite length_fmap, Hlen. }
  destruct (alloc_spec h1 (list_object (VObj <$> refs)) Hok) as (r & h' & Ea & Hal).
  { exact Hslot. }
  { rewrite list_shared. by intros ? ? ? [=]. }
  { rewrite list_shared, Hlist. simpl. lia. }
  exists r, refs, h'. split.
  - unfold install_text_view_list. fold count. rewrite Em. simpl. rewrite N.eqb_refl. simpl. unfold add_usize.
    rewrite (proj2 (N.leb_le (count * MIN_OBJECT_COST + _) _)) by lia. simpl.
    rewrite (proj2 (N.leb_le (hp_used_bytes h + _) _)) by lia. simpl.
    pose proof (live_fit _ Hok) as Hlf. simpl in Hlf.
    rewrite (proj2 (N.leb_le (hp_live h + count) _)) by lia. simpl. rewrite Ei. simpl.
    fold h1. by rewrite Ea.
  - assert (Hrefs : ∀ r', r' ∈ refs → is_reference r' = true ∧ read h r' = None).
    { intros r' Hin. pose proof (bi_fresh _ _ _ _ _ Hi r' Hin) as Hn.
      apply list_elem_of_lookup in Hin as [i Hin].
      destruct (Forall2_lookup_l _ _ _ _ _ (bi_refs _ _ _ _ _ Hi) Hin) as (v & _ & Hg).
      unfold read. assert (is_reference r' = true) as ->; [|by rewrite Hn].
      unfold view_get, view_current in Hg. by destruct (is_reference r'). }
    assert (Hne : ∀ r', r' ∈ refs → r' ≠ r) by (intros r' [Hin _]%Hrefs ->; by rewrite (al_object _ _ _ _ Hal) in Hin).
    assert (Hr1 : ∀ r', is_reference r' = false → read h1 r' = read h r').
    { intros r' Hf. unfold read. by rewrite Hf. }
    constructor.
    + apply Hal.
    + rewrite (al_read _ _ _ _ Hal), decide_True by done. by rewrite list_frozen.
    + pose proof (bi_refs _ _ _ _ _ Hi) as Hrv. apply Forall2_same_length_lookup_2; [by eapply Forall2_length|].
      intros i r' v Hin Hv. rewrite (al_read _ _ _ _ Hal), decide_False by (apply Hne; by eapply list_elem_of_lookup_2).
      apply view_read. by eapply (Forall2_lookup_lr _ _ _ _ _ _ Hrv).
    + intros r' [->|Hin]%elem_of_cons; [|by apply Hrefs].
      rewrite <-Hr1 by apply Hal. apply Hal.
    + intros r' Hw [Hn1 Hn2]%not_elem_of_cons. rewrite (al_read _ _ _ _ Hal), decide_False by done.
      unfold read. destruct (is_reference r'); [|done]. simpl. by rewrite (bi_other _ _ _ _ _ Hi r' Hw Hn2).
    + rewrite (al_live _ _ _ _ Hal). simpl. lia.
    + rewrite (al_used _ _ _ _ Hal), list_shared, Hlist. simpl. unfold batch_cost. fold count. lia.
    + intros Hx. apply (al_exact _ _ _ _ Hal). exact Hx.
Qed.

(** No batch: every account and every read is as it was. *)
Record list_refused (h h' : Heap) : Prop := {
  rf_ok : heap_ok h';
  rf_read : ∀ r, read h' r = read h r;
  rf_live : hp_live h' = hp_live h;
  rf_used : hp_used_bytes h' = hp_used_bytes h;
  rf_shared : hp_shared_allocations h' = hp_shared_allocations h;
  rf_exact : heap_exact h → heap_exact h';
}.

Lemma refused_relaid h h' : relaid h h' → list_refused h h'.
Proof.
  intros H. pose proof (rl_rest _ _ H) as E. constructor; [apply H|intros r; by apply relaid_read|by rewrite E..|by apply relaid_exact].
Qed.

Lemma batch_cost_checked h b :
  match text_view_list_base_cost (lenN (tb_views b)) ≫= (λ base,
    _ ← checked_add_usize (lenN (tb_views b)) 1; checked_add_usize base (batch_charge h b)) with
  | Some cost => cost = batch_cost h b
  | None => (USIZE_MAX < batch_cost h b)%N
  end.
Proof.
  unfold batch_cost, text_view_list_base_cost, checked_add_usize. set (count := lenN (tb_views b)). set (charge := batch_charge h b).
  assert (Hmc : (MIN_OBJECT_COST + VALUE_SIZE = 48)%N) by done. rewrite Hmc. assert (MIN_OBJECT_COST = 32%N) as -> by done.
  destruct (N.leb_spec (count * 48) USIZE_MAX); simpl; [|lia].
  destruct (N.leb_spec (count * 48 + 32) USIZE_MAX); simpl; [|lia].
  rewrite (proj2 (N.leb_le (count + 1) _)) by lia. simpl.
  destruct (N.leb_spec (count * 48 + 32 + charge) USIZE_MAX); lia.
Qed.

Lemma can_install_owner h b :
  heap_ok h → can_install_batch (hp_text_views h) b = true → ∃ owner, batch_owner (hp_text_views h) b = Some owner.
Proof.
  intros H. unfold can_install_batch, batch_owner. destruct (tb_owner b) as [o|r]; [by exists o|].
  intros He%bool_decide_eq_true. assert (Hc : is_Some (view_current (hp_text_views h) r)).
  { unfold existing_root in He. destruct (view_current _ r); [by eexists|by destruct He]. }
  apply view_get_current in Hc as [[o v] Hg]; [|apply H]. exists o. by rewrite Hg.
Qed.

(** Why a batch is refused: its cost is past the cap, it names a dead view, the
    host is out of memory, or the view table is near the width of a slot. *)
Definition batch_refusable (h : Heap) (b : TextViewBatch) : Prop :=
  (hp_cap_bytes h < hp_used_bytes h + batch_cost h b)%N ∨ can_install_batch (hp_text_views h) b = false ∨ memory_short ∨
  (U32_MAX <= lenN (tv_roots (hp_text_views h)))%N ∨
  (U32_MAX < tv_slots (hp_text_views h) + lenN (tb_views b) + PAGE_SLOTS)%N.

(** The list and its views are there, or nothing has changed; a batch past the
    cap is refused, and one that is taken stays under it. *)
Lemma try_alloc_list_cases h b :
  heap_ok h → (hp_cap_bytes h <= USIZE_MAX)%N → slot_room h → batch_ok h b → (lenN (tb_views b) < SLOT_LIMIT)%N →
  ∃ result h', try_alloc_text_view_list h b = Ret (result, h') ∧
    match result with
    | Some r => (hp_used_bytes h + batch_cost h b <= hp_cap_bytes h)%N ∧
        ∃ owner refs, batch_owner (hp_text_views h) b = Some owner ∧ list_allocated h h' b owner r refs
    | None => list_refused h h' ∧ batch_refusable h b
    end.
Proof.
  intros H Hcap Hslot Hb Hcount. unfold try_alloc_text_view_list.
  change (match batch_shared_allocation b with
          | Some (key, capacity) => if bool_decide (is_Some (hp_shared_allocations h !! key)) then 0%N else capacity
          | None => 0%N end) with (batch_charge h b).
  pose proof (batch_cost_checked h b) as Hcost.
  assert (Hrefl : list_refused h h) by (by apply refused_relaid, relaid_refl).
  destruct (text_view_list_base_cost (lenN (tb_views b)) ≫= _) as [cost|].
  2: { exists None, h. split; [done|]. split; [done|]. left. lia. }
  subst cost. destruct (can_install_batch (hp_text_views h) b) eqn:Ec.
  2: { exists None, h. split; [done|]. split; [done|]. by right; left. } cbn [negb orb].
  rewrite would_exceed_batch_spec by (done || clear -Hcount; lia).
  destruct (N.leb_spec (hp_used_bytes h + batch_cost h b) (hp_cap_bytes h)) as [Hin|Hout].
  2: { exists None, h. split; [done|]. split; [done|]. by left. }
  cbn [negb]. destruct (host_reserve (ViewItems (lenN (tb_views b)))) eqn:Ehost.
  2: { exists None, h. split; [done|]. split; [done|]. right; right; left. by eexists. }
  cbn [negb]. destruct (can_install_owner h b H Ec) as [owner Ho].
  destruct (reserve_precharged_spec h 1 H (slot_room_slots h H Hslot)) as (ok & h1 & E1 & Hr & Es & Ef & Hav).
  rewrite E1. cbn [mbind exec_bind]. destruct ok.
  2: { exists None, h1. split; [done|]. split; [by apply refused_relaid|]. by right; right; left. }
  pose proof (rl_rest _ _ Hr) as Erest. assert (Ev : hp_text_views h1 = hp_text_views h) by (by rewrite Erest).
  cbn [negb]. destruct (try_reserve_batch_spec (hp_text_views h1) (lenN (tb_views b)) (needs_new_owner b))
    as (ok & views & E2 & Hp & Hok); [apply Hr|].
  rewrite E2. cbn [mbind exec_bind]. rewrite Ev in Hp, Hok.
  destruct (paged_views_ok h1 views (rl_ok _ _ Hr)) as [Hok2 Hread2]; [by rewrite Ev|].
  set (h2 := set_text_views h1 views) in *.
  destruct ok.
  2: { exists None, h2. split; [done|]. split; [|by right; right]. constructor; [done| |unfold h2; by rewrite Erest..|].
       - intros r. by rewrite Hread2, (relaid_read h).
       - intros Hx. by eapply (relaid_exact h h1). }
  destruct Hok as [Hroom Hroots]. cbn [negb].
  assert (Ho2 : batch_owner views b = Some owner).
  { unfold batch_owner in *. destruct (tb_owner b); [done|]. by rewrite (vp_get _ _ Hp). }
  assert (Esh : hp_shared_allocations h2 = hp_shared_allocations h) by (unfold h2; by rewrite Erest).
  assert (Eu : hp_used_bytes h2 = hp_used_bytes h) by (unfold h2; by rewrite Erest).
  assert (Ebc : batch_charge h2 b = batch_charge h b) by (unfold batch_charge; by rewrite Esh).
  destruct (install_list_spec h2 b owner) as (r & refs & h' & E & [Hl1 Hl2 Hl3 Hl4 Hl5 Hl6 Hl7 Hl8]); try done.
  - split; [rewrite Esh; apply Hb|]. intros o Hob. apply Hb. change (batch_owner views b = Some o) in Hob. congruence.
  - by apply available_slot_room.
  - intros Hne Hneeds. destruct (Hroots Hneeds) as [?|?].
    + unfold lenN. destruct (tb_views b); [done|]. simpl. clear. lia.
    + left. simpl. by rewrite (vp_roots _ _ Hp).
    + right. simpl. by rewrite (vp_free_roots _ _ Hp).
  - unfold batch_cost. rewrite Ebc, Eu. fold (batch_cost h b). clear -Hin Hcap. lia.
  - rewrite Ebc in E. exists (Some r), h'. split; [done|]. split; [done|]. exists owner, refs. split; [done|].
    assert (Hrd : ∀ r', read h2 r' = read h r') by (intros r'; by rewrite Hread2, (relaid_read h)).
    constructor; try done.
    + intros r' Hr'. rewrite <-Hrd. by apply Hl4.
    + intros r' Hw Hr'. rewrite <-Hrd. by apply Hl5.
    + rewrite Hl6. unfold h2. by rewrite Erest.
    + rewrite Hl7. unfold batch_cost. by rewrite Ebc, Eu.
    + intros Hx. apply Hl8. by eapply (relaid_exact h h1).
Qed.
End lists.
End HeapAlloc.
