(* ===== verification/HeapSweep.v ===== *)
(** * The sweep against the invariant

    [sweep_spec]: sweeping with a test that answers on every live reference
    never panics, keeps exactly the references the test keeps, and leaves every
    account exact.  Runs of freed references of one shared allocation are
    given back at once; [pend] counts those not given back yet. *)

From stdpp Require Import base numbers option gmap list.
From S2P Require Import Prelude Value Pages TextViews SlotTable TextViewsInv TextViewsBatch Heap Ledger HeapInv HeapOps HeapAlloc.

Section HeapSweep.
Context `{HT : HeapTypes} `{HM : HostMemory}.

Definition pend (pending : option (N * N)) (key : N) : N :=
  match pending with Some (k, n) => if (key =? k)%N then n else 0%N | None => 0%N end.
Definition pend_pos (pending : option (N * N)) : Prop := ∀ k n, pending = Some (k, n) → (0 < n)%N.

Lemma sweep_shared_spec st freed_bytes refs key :
  ledger_ok (sw_shared st) (λ k, refs k + pend (sw_pending st) k)%N → pend_pos (sw_pending st) →
  (∀ k, (refs k + pend (sw_pending st) k + 1 <= USIZE_MAX)%N) → (∀ k, key = Some k → (1 <= refs k)%N) →
  (freed_bytes + shared_bytes (sw_shared st) <= USIZE_MAX)%N →
  ∃ freed' shared' pending', sweep_shared st freed_bytes key = Ret (freed', shared', pending') ∧
    (freed' + shared_bytes shared' = freed_bytes + shared_bytes (sw_shared st))%N ∧
    ledger_ok shared' (λ k, refs k - one_if (bool_decide (key = Some k)) + pend pending' k)%N ∧ pend_pos pending' ∧
    ∀ k, (pend pending' k <= pend (sw_pending st) k + one_if (bool_decide (key = Some k)))%N.
Proof.
  intros Hl Hp Hb Hk Hfit. unfold sweep_shared. destruct key as [key|].
  2: { eexists _, _, _. split_and!; [done|done| |done|intros k; simpl; lia]. eapply ledger_ok_ext; [|exact Hl]. intros k. simpl. lia. }
  specialize (Hk key eq_refl).
  assert (Hone : ∀ k, one_if (bool_decide (Some key = Some k)) = if (k =? key)%N then 1%N else 0%N).
  { intros k. destruct (N.eqb_spec k key) as [->|Hne]; [by rewrite bool_decide_true|by rewrite bool_decide_false by congruence]. }
  destruct (sw_pending st) as [[p n]|] eqn:Ep; simpl in *.
  2: { eexists _, _, _. split_and!; [done|done| |by intros k n [= <- <-]|intros k; rewrite Hone; simpl; case_match; lia].
       eapply ledger_ok_ext; [|exact Hl]. intros k. simpl. rewrite Hone.
       destruct (N.eqb_spec k key) as [->|Hne]; lia. }
  specialize (Hp p n eq_refl). destruct (N.eqb_spec p key) as [->|Hne].
  - unfold add_usize. rewrite (proj2 (N.leb_le (n + 1) _)) by (specialize (Hb key); rewrite N.eqb_refl in Hb; lia). simpl.
    eexists _, _, _. split_and!; [done|done| |intros k m [= <- <-]; lia|intros k; rewrite Hone; simpl; case_match; lia].
    eapply ledger_ok_ext; [|exact Hl]. intros k. simpl. rewrite Hone. destruct (N.eqb_spec k key) as [->|Hne]; lia.
  - destruct (remove_shared_references_spec _ _ p n Hl) as (released & m' & E & Eb & Hm).
    { simpl. rewrite N.eqb_refl. lia. }
    rewrite E. simpl. unfold add_usize. rewrite (proj2 (N.leb_le (freed_bytes + released) _)) by lia. simpl.
    eexists _, _, _. split_and!; [done|lia| |by intros k m [= <- <-]|intros k; rewrite Hone; simpl; repeat case_match; lia].
    eapply ledger_ok_ext; [|exact Hm]. intros k. simpl. rewrite Hone.
    destruct (N.eqb_spec k key) as [->|Hk1].
    + rewrite (proj2 (N.eqb_neq key p)) by done. lia.
    + destruct (N.eqb_spec k p); lia.
Qed.

Definition object_ref (i : N) (e : Entry) : ObjRef := mkObjRef i (en_generation e).

Definition swept_entry (kept : ObjRef → bool) (i : N) (e : Entry) : Entry :=
  if en_is_live e && negb (kept (object_ref i e)) then entry_dead (next_generation (en_generation e)) else e.

Section objects.
Context (keep : ObjRef → exec bool) (kept : ObjRef → bool) (h : Heap) (H : heap_ok h).
Context (has_digests : bool) (Hdig : has_digests = negb (bool_decide (hp_digests h = ∅))).

Definition dropped_digests (n : N) (digests : gmap ObjRef DigestCacheEntry) : Prop :=
  ∀ r d, digests !! r = Some d → hp_digests h !! r = Some d ∧
    (is_reference r = false → (obj_slot r < n)%N → kept r = true).

(** The first [n] entries of [flat] are swept. *)
Record object_sweeping (n : N) (flat : list Entry) (st : SweepState) : Prop := {
  os_flat : flat_ok en_generation en_is_live flat (sw_generations st) (hp_slots h) (sw_free st);
  os_room : (lenN flat <= SLOT_LIMIT)%N;
  os_rest : ∀ i, (n <= N.of_nat i)%N → flat !! i = concat (hp_pages h) !! i;
  os_freed : (sw_freed st + sumN en_lives flat = sumN en_lives (concat (hp_pages h)))%N;
  os_bytes : (sw_freed_bytes st + sumN en_bytes flat + shared_bytes (sw_shared st)
    = sumN en_bytes (concat (hp_pages h)) + shared_bytes (hp_shared_allocations h))%N;
  os_ledger : ledger_ok (sw_shared st)
    (λ k, sumN (en_key k) flat + views_key (hp_text_views h) k + pend (sw_pending st) k)%N;
  os_held : ∀ k, (sumN (en_key k) flat + pend (sw_pending st) k <= sumN (en_key k) (concat (hp_pages h)))%N;
  os_pend : pend_pos (sw_pending st);
  os_digests : dropped_digests n (sw_digests st);
}.

(** A digest of slot [i] is of the entry there. *)
Lemma digest_entry i e r d :
  concat (hp_pages h) !! N.to_nat i = Some e → hp_digests h !! r = Some d → is_reference r = false →
  obj_slot r = i → r = object_ref i e ∧ en_is_live e = true.
Proof.
  intros Hi Hd Hr Hs. destruct (ho_digests h H r d Hd) as ([[fz o] Hread] & _ & _).
  destruct (read_names h r fz o Hr Hread) as (e' & header & Hn & _).
  pose proof (names_live _ _ _ _ _ Hn) as Hl. destruct Hn as [_ Ha _ Hg].
  rewrite page_get_flat, Hs, Hi in Ha by apply (ho_slots h H). injection Ha as <-.
  split; [|done]. unfold object_ref. rewrite Hg, <-Hs. by destruct r.
Qed.

Lemma digests_step i e digests :
  concat (hp_pages h) !! N.to_nat i = Some e → dropped_digests i digests →
  (en_is_live e = true → kept (object_ref i e) = true) → dropped_digests (i + 1) digests.
Proof.
  intros Hi Hd Hk r d Hr. destruct (Hd r d Hr) as [H0 H1]. split; [done|]. intros Hf Hlt.
  destruct (decide (obj_slot r = i)) as [Hs|Hs]; [|apply H1; [done|lia]].
  destruct (digest_entry i e r d Hi H0 Hf Hs) as [-> Hl]. by apply Hk.
Qed.

Lemma digests_drop i e digests :
  concat (hp_pages h) !! N.to_nat i = Some e → dropped_digests i digests →
  dropped_digests (i + 1) (if has_digests then delete (object_ref i e) digests else digests).
Proof.
  intros Hi Hd r d Hr.
  assert (Hr' : digests !! r = Some d ∧ r ≠ object_ref i e).
  { destruct has_digests; [apply lookup_delete_Some in Hr as [? ?]; by split|].
    destruct (Hd r d Hr) as [H0 _]. symmetry in Hdig. apply negb_false_iff, bool_decide_eq_true in Hdig.
    by rewrite Hdig, lookup_empty in H0. }
  destruct Hr' as [Hr' Hne]. destruct (Hd r d Hr') as [H0 H1]. split; [done|]. intros Hf Hlt.
  destruct (decide (obj_slot r = i)) as [Hs|Hs]; [|apply H1; [done|lia]].
  destruct (digest_entry i e r d Hi H0 Hf Hs) as [-> Hl]. done.
Qed.

Lemma sweep_entry_kept i e flat st :
  object_sweeping i flat st → flat !! N.to_nat i = Some e →
  (en_is_live e = true → kept (object_ref i e) = true) → object_sweeping (i + 1) flat st.
Proof.
  intros Hst Hi Hk. pose proof (os_rest _ _ _ Hst (N.to_nat i) ltac:(lia)) as Hrest.
  destruct Hst. constructor; try done.
  - intros j Hj. apply os_rest0. lia.
  - eapply digests_step; [by rewrite <-Hrest|done|done].
Qed.

Lemma sweep_entry_spec i e flat st :
  object_sweeping i flat st → flat !! N.to_nat i = Some e →
  (en_is_live e = true → keep (object_ref i e) = Ret (kept (object_ref i e))) →
  ∃ st', sweep_entry keep has_digests i e st = Ret (swept_entry kept i e, st') ∧
    object_sweeping (i + 1) (<[N.to_nat i := swept_entry kept i e]> flat) st'.
Proof.
  intros Hst Hi Hk. unfold sweep_entry, swept_entry. fold (object_ref i e).
  destruct (en_is_live e) eqn:El; simpl.
  2: { exists st. split; [done|]. rewrite list_insert_id by done. eapply sweep_entry_kept; [done..|]. by rewrite El. }
  rewrite Hk by done. simpl. destruct (kept (object_ref i e)) eqn:Ek; simpl.
  { exists st. split; [done|]. rewrite list_insert_id by done. by eapply sweep_entry_kept. }
  pose proof (os_rest _ _ _ Hst (N.to_nat i) ltac:(lia)) as Hrest. rewrite Hi in Hrest. symmetry in Hrest.
  destruct (en_state e) as [[header object]|] eqn:Es; [|by rewrite (proj2 (en_dead e) Es) in El].
  unfold en_take. rewrite Es. simpl.
  pose proof (st_gens _ _ _ _ _ _ (os_flat _ _ _ Hst) _ _ Hi) as Hg. pose proof (lookup_lt_Some _ _ _ Hg) as Hgl.
  set (e' := entry_dead (next_generation (en_generation e))).
  assert (Hsum : ∀ f, (sumN f (<[N.to_nat i := e']> flat) + f e = sumN f flat + f e')%N) by (intros f; by apply sumN_insert).
  pose proof (Hsum en_bytes) as Hsb. unfold en_bytes at 2 4 in Hsb. rewrite Es in Hsb. simpl in Hsb.
  pose proof (Hsum en_lives) as Hsl. unfold en_lives at 2 4 in Hsl. rewrite El in Hsl. simpl in Hsl.
  assert (Hsk : ∀ k, (sumN (en_key k) (<[N.to_nat i := e']> flat) + one_if (bool_decide (hd_shared header = Some k))
                      = sumN (en_key k) flat)%N).
  { intros k. pose proof (Hsum (en_key k)) as Hk2. unfold en_key at 2 4 in Hk2. rewrite Es in Hk2. simpl in Hk2. lia. }
  pose proof (os_bytes _ _ _ Hst) as Hbytes. pose proof (ho_used h H) as Hused. pose proof (ho_used_max h H) as Humax.
  unfold add_usize. rewrite (proj2 (N.leb_le (sw_freed_bytes st + hd_bytes header) _)) by lia. simpl.
  destruct (sweep_shared_spec st (sw_freed_bytes st + hd_bytes header)
    (λ k, sumN (en_key k) flat + views_key (hp_text_views h) k)%N (hd_shared header))
    as (freed' & shared' & pending' & E & Eb & Hm & Hp & Hpk); [apply Hst|apply Hst| | |lia|].
  { intros k. pose proof (held_keys_fit h k H) as Hf. pose proof (os_held _ _ _ Hst k). unfold held_keys in Hf.
    assert (1 <= SLOT_LIMIT)%N by done. lia. }
  { intros k Hkk. specialize (Hsk k). rewrite Hkk, bool_decide_true in Hsk by done. simpl in Hsk. lia. }
  rewrite E. simpl. pose proof (os_freed _ _ _ Hst) as Hfr. pose proof (live_fit h H) as Hlf. rewrite (ho_live h H) in Hlf.
  rewrite (proj2 (N.leb_le (sw_freed st + 1) _)) by lia. simpl.
  rewrite (proj2 (N.ltb_lt i _)) by (unfold lenN; lia). simpl.
  change (N.land (as_u32 (en_generation e + 1)) OBJECT_GENERATION_MASK) with (next_generation (en_generation e)).
  eexists. split; [done|]. constructor; simpl.
  - change (next_generation (en_generation e)) with (en_generation e').
    eapply flat_kill; [apply Hst|done..|apply next_generation_mask].
  - unfold lenN. rewrite length_insert. apply Hst.
  - intros j Hj. rewrite list_lookup_insert_ne by lia. apply Hst. lia.
  - lia.
  - lia.
  - eapply ledger_ok_ext; [|exact Hm]. intros k. simpl. specialize (Hsk k). lia.
  - intros k. specialize (Hpk k). specialize (Hsk k). pose proof (os_held _ _ _ Hst k). lia.
  - done.
  - eapply digests_drop; [exact Hrest|apply Hst].
Qed.

Definition swept_objects (start : N) (page : list Entry) : list Entry :=
  imap (λ j e, swept_entry kept (start + N.of_nat j) e) page.

Lemma swept_objects_cons start e page :
  swept_objects start (e :: page) = swept_entry kept start e :: swept_objects (start + 1) page.
Proof.
  unfold swept_objects. simpl. rewrite N.add_0_r. f_equal. apply imap_ext. intros j x _. simpl. f_equal. lia.
Qed.

(** The collector's test answers on every live object. *)
Definition objects_answer (start : N) (page : list Entry) : Prop :=
  ∀ j e, page !! j = Some e → en_is_live e = true →
    keep (object_ref (start + N.of_nat j) e) = Ret (kept (object_ref (start + N.of_nat j) e)).

Lemma sweep_page_spec page : ∀ done rest st start,
  start = lenN done → object_sweeping start (done ++ page ++ rest) st → objects_answer start page →
  ∃ st', sweep_page keep has_digests start page st = Ret (swept_objects start page, st') ∧
    object_sweeping (start + lenN page) (done ++ swept_objects start page ++ rest) st'.
Proof.
  induction page as [|e page IH]; intros done rest st start -> Hst Hk.
  { exists st. split; [done|]. by rewrite N.add_0_r. }
  assert (Hi : (done ++ (e :: page) ++ rest) !! N.to_nat (lenN done) = Some e).
  { unfold lenN. rewrite Nat2N.id. by apply list_lookup_middle. }
  assert (Hsmall : as_u32 (lenN done) = lenN done).
  { apply as_u32_small. pose proof (os_room _ _ _ Hst) as Hr. unfold lenN in *. rewrite length_app in Hr. simpl in Hr.
    unfold SLOT_LIMIT in Hr. clear -Hr. unfold U32_MAX. lia. }
  destruct (sweep_entry_spec _ _ _ _ Hst Hi) as (st1 & E1 & H1).
  { intros Hl. specialize (Hk 0 e eq_refl Hl). by rewrite N.add_0_r in Hk. }
  cbn [sweep_page]. rewrite Hsmall, E1. cbn [mbind exec_bind].
  rewrite swept_objects_cons. set (e1 := swept_entry kept (lenN done) e) in *.
  assert (Hins : <[N.to_nat (lenN done) := e1]> (done ++ (e :: page) ++ rest) = (done ++ [e1]) ++ page ++ rest).
  { unfold lenN. rewrite Nat2N.id, <-(Nat.add_0_r (length done)), insert_app_r. simpl. by rewrite <-app_assoc. }
  rewrite Hins in H1.
  destruct (IH (done ++ [e1]) rest st1 (lenN done + 1)%N) as (st2 & E2 & H2).
  - unfold lenN. rewrite length_app. simpl. lia.
  - done.
  - intros j x Hx Hxl. specialize (Hk (S j) x Hx Hxl).
    by replace (lenN done + 1 + N.of_nat j)%N with (lenN done + N.of_nat (S j))%N by lia.
  - exists st2. rewrite E2. split; [done|]. rewrite <-app_assoc in H2.
    by replace (lenN done + lenN (e :: page))%N with (lenN done + 1 + lenN page)%N by (unfold lenN; simpl; lia).
Qed.

Lemma sweep_pages_spec pages : ∀ done st index,
  pages_ok pages → (index * PAGE_SLOTS = lenN done)%N → object_sweeping (lenN done) (done ++ concat pages) st →
  objects_answer (lenN done) (concat pages) →
  ∃ pages' st', sweep_pages keep has_digests index pages st = Ret (pages', st') ∧
    pages_ok pages' ∧ concat pages' = swept_objects (lenN done) (concat pages) ∧
    length pages' = length pages ∧
    object_sweeping (lenN done + lenN (concat pages)) (done ++ concat pages') st'.
Proof.
  induction pages as [|page pages IH]; intros done st index Hp Hix Hst Hk.
  { exists [], st. split_and!; try done. by rewrite N.add_0_r. }
  apply Forall_cons in Hp as [Hpl Hp]. cbn [concat] in *.
  destruct (sweep_page_spec page done (concat pages) st (lenN done) eq_refl) as (st1 & E1 & H1);
    [done|intros j e Hj; apply Hk; by apply lookup_app_l_Some|].
  cbn [sweep_pages]. rewrite Hix, E1. cbn [mbind exec_bind].
  set (page1 := swept_objects (lenN done) page) in *.
  assert (Hlen1 : length page1 = length page) by apply length_imap.
  assert (Hd1 : (lenN done + lenN page = lenN (done ++ page1))%N) by (unfold lenN; rewrite length_app, Hlen1; lia).
  assert (Hnext : ((index + 1) * PAGE_SLOTS = lenN (done ++ page1))%N) by (rewrite <-Hd1, Hpl; lia).
  destruct (IH (done ++ page1) st1 (index + 1)%N) as (pages2 & st2 & E2 & Hp2 & Ec2 & El2 & H2); [done|done| | |].
  - by rewrite <-app_assoc, <-Hd1.
  - intros j e Hj Hl. specialize (Hk (length page + j) e).
    rewrite lookup_app_r, Nat.add_sub_swap, Nat.sub_diag in Hk by lia. specialize (Hk Hj Hl).
    replace (lenN (done ++ page1) + N.of_nat j)%N with (lenN done + N.of_nat (length page + j))%N; [done|].
    rewrite <-Hd1. unfold lenN. lia.
  - exists (page1 :: pages2), st2. rewrite E2. split_and!; [done|..].
    + constructor; [unfold lenN in *; by rewrite Hlen1|done].
    + cbn [concat]. rewrite Ec2. unfold swept_objects at 2. rewrite imap_app. f_equal.
      apply imap_ext. intros j x _. simpl. f_equal. rewrite <-Hd1. unfold lenN. lia.
    + simpl. by rewrite El2.
    + cbn [concat]. rewrite app_assoc. rewrite <-Hd1 in H2.
      replace (lenN done + lenN (page ++ concat pages))%N with (lenN done + lenN page + lenN (concat pages))%N; [done|].
      unfold lenN. rewrite length_app. lia.
Qed.
End objects.

(** The references of the last run are given back. *)
Lemma flush_spec st refs :
  ledger_ok (sw_shared st) (λ k, refs k + pend (sw_pending st) k)%N → pend_pos (sw_pending st) →
  (sw_freed_bytes st + shared_bytes (sw_shared st) <= USIZE_MAX)%N →
  ∃ freed m,
    match sw_pending st with
    | Some (key, references) =>
        '(released, shared) ← remove_shared_references (sw_shared st) key references;
        freed_bytes ← add_usize (sw_freed_bytes st) released;
        Ret (freed_bytes, shared)
    | None => Ret (sw_freed_bytes st, sw_shared st)
    end = Ret (freed, m) ∧
    (freed + shared_bytes m = sw_freed_bytes st + shared_bytes (sw_shared st))%N ∧ ledger_ok m refs.
Proof.
  intros Hl Hp Hfit. destruct (sw_pending st) as [[key n]|]; simpl in Hl.
  2: { eexists _, _. split_and!; [done|done|]. eapply ledger_ok_ext; [|exact Hl]. intros k. simpl. lia. }
  specialize (Hp key n eq_refl).
  destruct (remove_shared_references_spec _ _ key n Hl) as (released & m & E & Eb & Hm); [rewrite N.eqb_refl; lia|].
  rewrite E. simpl. unfold add_usize. rewrite (proj2 (N.leb_le _ _)) by lia. simpl. eexists _, _.
  split_and!; [done|lia|]. eapply ledger_ok_ext; [|exact Hm]. intros k. simpl. case_match; lia.
Qed.

(** The ledger while the views are swept. *)
Definition views_ledger (objects : N → N) (total : N) (m : SharedAllocations) (bytes : N) (keys : N → N) : Prop :=
  ledger_ok m (λ k, objects k + keys k)%N ∧ (bytes + shared_bytes m)%N = total.

Lemma views_ledger_release objects total : (total <= USIZE_MAX)%N →
  ∀ m bytes keys key, views_ledger objects total m bytes keys → (1 <= keys key)%N →
  ∃ released m', remove_shared_references m key 1 = Ret (released, m') ∧ (bytes + released <= USIZE_MAX)%N ∧
    ∀ keys', (∀ k, keys' k + one_if (k =? key) = keys k)%N → views_ledger objects total m' (bytes + released)%N keys'.
Proof.
  intros Ht m bytes keys key [Hl Eb] Hk.
  destruct (remove_shared_references_spec _ _ key 1 Hl) as (released & m' & E & Eb' & Hm); [lia|].
  exists released, m'. split_and!; [done|lia|]. intros keys' Hk'. split; [|lia].
  eapply ledger_ok_ext; [|exact Hm]. intros k. simpl. specialize (Hk' k). unfold one_if in Hk'. case_match; lia.
Qed.

Lemma object_ref_wide h s e : heap_ok h → page_get (hp_pages h) s = Some e → (obj_generation (object_ref s e) <= U32_MAX)%N.
Proof.
  intros H Hs. rewrite page_get_flat in Hs by apply (ho_slots h H).
  pose proof (flat_mask _ _ _ _ _ _ _ _ (st_flat _ _ _ _ _ _ (ho_slots h H)) Hs) as Hm.
  simpl. etrans; [exact Hm|]. done.
Qed.

(** A test that answers on every live reference. *)
Definition answers (h : Heap) (keep : ObjRef → exec bool) (kept : ObjRef → bool) : Prop :=
  ∀ r, (obj_generation r <= U32_MAX)%N → is_Some (read h r) → keep r = Ret (kept r).

Lemma answers_objects h keep kept : heap_ok h → answers h keep kept → objects_answer keep kept 0 (concat (hp_pages h)).
Proof.
  intros H Ha j e Hj Hl. rewrite N.add_0_l. pose proof (st_pages _ _ _ _ _ _ (ho_slots h H)) as Hp.
  assert (Hg : page_get (hp_pages h) (N.of_nat j) = Some e) by (rewrite page_get_flat, Nat2N.id; done).
  apply Ha; [by eapply object_ref_wide|].
  unfold read, object_ref. rewrite (object_reference _ _ _ _ _ _ (ho_slots h H) Hg). simpl. rewrite Hg. simpl.
  unfold entry_read. simpl. rewrite N.eqb_refl. unfold en_is_live in Hl. apply bool_decide_eq_true in Hl as [[hd o] ->].
  by eexists.
Qed.

Lemma view_ref_wide g : (g <= GENERATION_MASK)%N → (N.lor g TEXT_VIEW_GENERATION_TAG <= U32_MAX)%N.
Proof.
  intros Hg. assert (N.lor g TEXT_VIEW_GENERATION_TAG < 2 ^ 32)%N; [|unfold U32_MAX; lia].
  change TEXT_VIEW_GENERATION_TAG with (2 ^ 31)%N.
  assert (Hb : (N.log2 (N.lor g (2 ^ 31)) < 32)%N).
  { rewrite N.log2_lor. apply N.max_lub_lt; [|done]. destruct (decide (g = 0%N)) as [->|]; [done|].
    apply N.log2_lt_pow2; [lia|]. unfold GENERATION_MASK in Hg. simpl. lia. }
  apply N.log2_lt_pow2; [|done]. destruct (decide (N.lor g (2 ^ 31) = 0%N)) as [E|]; [|lia].
  by apply N.lor_eq_0_iff in E as [_ E].
Qed.

Lemma answers_views h keep kept : heap_ok h → answers h keep kept → answers_from keep kept 0 (concat (tv_pages (hp_text_views h))).
Proof.
  intros H Ha j e Hj Hl. rewrite N.add_0_l. pose proof (ho_views h H) as Hv.
  pose proof (flat_mask _ _ _ _ _ _ _ _ (vf_slots _ _ _ _ _ _ _ (vo_flat _ Hv)) Hj) as Hm.
  assert (Ht : is_reference (view_ref (N.of_nat j) e) = true) by apply is_reference_tag.
  apply Ha; [by apply view_ref_wide|]. unfold read. rewrite Ht.
  assert (Hc : view_current (hp_text_views h) (view_ref (N.of_nat j) e) = Some e).
  { apply view_current_Some. split; [done|]. simpl.
    rewrite page_get_flat, Nat2N.id, mask_tag by (done || apply Hv). done. }
  destruct (proj2 (view_get_current _ (view_ref (N.of_nat j) e) Hv) (ex_intro _ _ Hc)) as [[o v] Hg].
  rewrite Hg. by eexists.
Qed.

(** [h'] is [h] with what [kept] keeps. *)
Record swept (h h' : Heap) (kept : ObjRef → bool) : Prop := {
  sp_ok : heap_ok h';
  sp_read : ∀ r, (obj_generation r <= U32_MAX)%N → read h' r = if kept r then read h r else None;
  sp_used : (hp_used_bytes h' <= hp_used_bytes h)%N;
  sp_exact : heap_exact h → heap_exact h';
  sp_roots : hp_host_roots h' = hp_host_roots h;
  sp_cap : hp_cap_bytes h' = hp_cap_bytes h;
  sp_threshold : hp_collection_threshold h' = next_collection_threshold (hp_used_bytes h') (hp_cap_bytes h);
}.

Lemma swept_page_get h kept pages s :
  heap_ok h → pages_ok pages → concat pages = swept_objects kept 0 (concat (hp_pages h)) →
  page_get pages s = swept_entry kept s <$> page_get (hp_pages h) s.
Proof.
  intros H Hp Ec. rewrite !page_get_flat by (done || apply (ho_slots h H)). rewrite Ec. unfold swept_objects.
  rewrite list_lookup_imap. destruct (concat (hp_pages h) !! N.to_nat s); simpl; [|done]. by rewrite N2Nat.id.
Qed.

(** What an object reference reads after the sweep. *)
Lemma swept_read_object h kept pages r :
  heap_ok h → pages_ok pages → concat pages = swept_objects kept 0 (concat (hp_pages h)) →
  (e ← page_get pages (obj_slot r); entry_read e r) =
    if kept r then (e ← page_get (hp_pages h) (obj_slot r); entry_read e r) else None.
Proof.
  intros H Hp Ec. rewrite (swept_page_get h kept pages) by done.
  destruct (page_get (hp_pages h) (obj_slot r)) as [e|] eqn:E; simpl; [|by case_match].
  unfold swept_entry. destruct (en_is_live e) eqn:El; simpl.
  2: { rewrite entry_read_dead by done. by case_match. }
  destruct (N.eqb_spec (en_generation e) (obj_generation r)) as [Eg|Ng].
  - assert (Er : object_ref (obj_slot r) e = r) by (unfold object_ref; rewrite Eg; by destruct r).
    rewrite Er. destruct (kept r); simpl; [done|]. by apply entry_read_dead.
  - assert (Hn : entry_read e r = None) by (unfold entry_read; by rewrite (proj2 (N.eqb_neq _ _) Ng)).
    destruct (kept (object_ref _ e)); simpl; [rewrite Hn; by case_match|].
    rewrite Hn, entry_read_dead by done. by case_match.
Qed.

(** After the objects: the table, the ledger without pending references and the
    bytes given back. *)
Lemma sweep_objects h keep kept :
  heap_ok h → answers h keep kept →
  ∃ pages st freed_bytes m,
    sweep_pages keep (negb (bool_decide (hp_digests h = ∅))) 0 (hp_pages h)
      (mkSweep 0 0 (hp_shared_allocations h) None (hp_generations h) (hp_free h) (hp_digests h)) = Ret (pages, st) ∧
    match sw_pending st with
    | Some (key, references) =>
        '(released, shared) ← remove_shared_references (sw_shared st) key references;
        freed_bytes ← add_usize (sw_freed_bytes st) released;
        Ret (freed_bytes, shared)
    | None => Ret (sw_freed_bytes st, sw_shared st)
    end = Ret (freed_bytes, m) ∧
    slots_ok en_generation en_is_live pages (sw_generations st) (hp_slots h) (sw_free st) ∧
    concat pages = swept_objects kept 0 (concat (hp_pages h)) ∧ length pages = length (hp_pages h) ∧
    (sw_freed st + sumN en_lives (concat pages) = sumN en_lives (concat (hp_pages h)))%N ∧
    (freed_bytes + sumN en_bytes (concat pages) + shared_bytes m
      = sumN en_bytes (concat (hp_pages h)) + shared_bytes (hp_shared_allocations h))%N ∧
    ledger_ok m (λ k, sumN (en_key k) (concat pages) + views_key (hp_text_views h) k)%N ∧
    ∀ r d, sw_digests st !! r = Some d → hp_digests h !! r = Some d ∧ (is_reference r = false → kept r = true).
Proof.
  intros H Ha. pose proof (st_pages _ _ _ _ _ _ (ho_slots h H)) as Hp.
  destruct (sweep_pages_spec keep kept h H _ eq_refl (hp_pages h) []
    (mkSweep 0 0 (hp_shared_allocations h) None (hp_generations h) (hp_free h) (hp_digests h)) 0)
    as (pages & st & E & Hp' & Ec & El & Hst); [done|done| |by apply answers_objects|].
  { constructor; simpl; try done.
    - apply (ho_slots h H).
    - rewrite length_flat by done. apply H.
    - eapply ledger_ok_ext; [|apply H]. intros k. unfold held_keys. lia.
    - intros k. lia.
    - intros r d Hr. split; [done|]. intros _ Hlt. change (lenN []) with 0%N in Hlt. lia. }
  simpl in Hst, Ec. change (lenN []) with 0%N in Ec, Hst. rewrite N.add_0_l in Hst.
  pose proof (ho_used h H) as Hused. pose proof (ho_used_max h H) as Humax. pose proof (os_bytes _ _ _ _ _ Hst) as Hbytes.
  destruct (flush_spec st _ (os_ledger _ _ _ _ _ Hst) (os_pend _ _ _ _ _ Hst)) as (freed_bytes & m & Ef & Eb & Hm); [lia|].
  exists pages, st, freed_bytes, m. split_and!; try done.
  - split; [done|apply Hst].
  - apply Hst.
  - lia.
  - intros r d Hr. destruct (os_digests _ _ _ _ _ Hst r d Hr) as [H0 H1]. split; [done|]. intros Hf. apply H1; [done|].
    destruct (ho_digests h H r d H0) as ([[fz o] Hread] & _). destruct (read_names h r fz o Hf Hread) as (e & hd & Hn & _).
    rewrite length_flat by done. eapply page_get_lt; [done|apply Hn].
Qed.

Lemma sweep_spec h keep kept :
  heap_ok h → answers h keep kept → ∃ h', sweep h keep = Ret h' ∧ swept h h' kept.
Proof.
  intros H Ha. destruct (sweep_objects h keep kept H Ha) as
    (pages & st & freed_bytes & m & E1 & E2 & Hslots & Ec & El & Hfr & Hby & Hm & Hdg).
  pose proof (ho_used h H) as Hused. pose proof (ho_used_max h H) as Humax. pose proof (ho_live h H) as Hlive.
  pose proof (live_fit h H) as Hlf.
  destruct (view_sweep_spec keep kept remove_shared_references
    (views_ledger (λ k, sumN (en_key k) (concat pages)) (shared_bytes m)) (hp_text_views h) m)
    as (objects & bytes & views & m2 & E3 & Hv & Hvl & _ & [Hm2 Hb2] & Hzero & Hget).
  { apply views_ledger_release. lia. }
  { apply H. }
  { by split. }
  { by apply answers_views. }
  unfold sweep. rewrite E1. cbn [mbind exec_bind]. rewrite E2. cbn [mbind exec_bind]. rewrite E3. cbn [mbind exec_bind].
  assert (Hmc : MIN_OBJECT_COST = 32%N) by done. rewrite Hmc in *.
  unfold add_usize, sub_usize. rewrite (proj2 (N.leb_le (sw_freed st + objects) _)) by lia. cbn [mbind exec_bind].
  rewrite (proj2 (N.leb_le (objects * 32 + bytes) _)) by lia. cbn [mbind exec_bind].
  rewrite (proj2 (N.leb_le (freed_bytes + _) USIZE_MAX)) by lia. cbn [mbind exec_bind].
  rewrite (proj2 (N.leb_le (freed_bytes + _) (hp_used_bytes h))) by lia. cbn [mbind exec_bind].
  rewrite (proj2 (N.leb_le (sw_freed st + objects) (hp_live h))) by lia. cbn [mbind exec_bind].
  set (digests := if _ && _ then _ else _). eexists. split; [done|]. set (h' := mkHeap _ _ _ _ _ _ _ _ _ _ _ _ _).
  pose proof (st_pages _ _ _ _ _ _ Hslots) as Hp'.
  assert (Hread : ∀ r, (obj_generation r <= U32_MAX)%N → read h' r = if kept r then read h r else None).
  { intros r Hw. unfold read. simpl. destruct (is_reference r).
    - rewrite Hget by done. by destruct (kept r).
    - by apply swept_read_object. }
  assert (Hd : ∀ r d, digests !! r = Some d → sw_digests st !! r = Some d ∧
            (is_reference r = true → (obj_generation r <= U32_MAX)%N → is_Some (view_get (hp_text_views h) r) → is_Some (view_get views r))).
  { intros r d. unfold digests. destruct (negb _ && negb (objects =? 0)%N) eqn:Ed.
    - rewrite map_lookup_filter_Some. simpl. intros [Hr [Hf|Hs]]; (split; [done|]); [congruence|done].
    - intros Hr. split; [done|]. intros Hf Hw Hs. rewrite Hget by done. apply andb_false_iff in Ed as [Ed|Ed].
      + destruct (Hdg r d Hr) as [H0 _]. apply negb_false_iff, bool_decide_eq_true in Ed. by rewrite Ed, lookup_empty in H0.
      + apply negb_false_iff, N.eqb_eq in Ed. by rewrite Hzero. }
  constructor; simpl; try done.
  - constructor; simpl; try done.
    + unfold table_slots, lenN. rewrite El. apply H.
    + lia.
    + rewrite Hmc. lia.
    + lia.
    + intros r d [Hr Hview]%Hd. destruct (Hdg r d Hr) as [H0 Hk]. destruct (ho_digests h H r d H0) as (Hl & Hg & Hw).
      split; [|done]. rewrite Hread by done. destruct (is_reference r) eqn:Er.
      * unfold read in Hl |- *. rewrite Er in *. specialize (Hview eq_refl Hw). rewrite Hget in Hview by done.
        destruct (view_get (hp_text_views h) r) as [[o v]|]; [|by destruct Hl].
        destruct (kept r); [by eexists|]. by destruct (Hview ltac:(by eexists)).
      * by rewrite Hk.
  - lia.
  - intros Hx s e header object Hs Hst. simpl in Hs. rewrite (swept_page_get h kept pages) in Hs by done.
    destruct (page_get (hp_pages h) s) as [e0|] eqn:E0; [|done]. simpl in Hs. injection Hs as <-.
    unfold swept_entry in Hst. destruct (en_is_live e0 && _); [done|]. by eapply Hx.
Qed.

(** *** Trimming *)

Lemma trim_free_pages_spec h :
  heap_ok h → let h' := trim_free_pages h in
  heap_ok h' ∧ (∀ r, read h' r = read h r) ∧ (heap_exact h → heap_exact h') ∧
  hp_used_bytes h' = hp_used_bytes h ∧ hp_live h' = hp_live h ∧ hp_host_roots h' = hp_host_roots h.
Proof.
  intros H. destruct (drop_dead_spec en_is_live (hp_pages h)) as (tail & E & Hd).
  pose proof (ho_slots h H) as Hs. pose proof (st_pages _ _ _ _ _ _ Hs) as Hp. pose proof (slots_le_table h H) as Hle.
  unfold trim_free_pages. set (pages := drop_dead_pages en_is_live (hp_pages h)) in *.
  set (slots := if bool_decide _ then _ else _).
  assert (Hp' : pages_ok pages) by (unfold pages_ok in *; rewrite E in Hp; by apply Forall_app in Hp as [? _]).
  assert (Hsame : same_live (hp_pages h) pages).
  { apply same_live_sym. rewrite E. apply same_live_app; [by rewrite <-E|done]. }
  assert (Hslots : slots_ok en_generation en_is_live pages (hp_generations h) slots
            (filter (λ s, (s < slots)%N) (hp_free h))).
  { eapply slots_trim; [exact Hs|exact E|done| |].
    - unfold slots. case_bool_decide as Hc; [|done]. rewrite E in Hle.
      assert (tail = []) as -> by (apply nil_length_inv; rewrite E, length_app in Hc; lia). by rewrite app_nil_r in Hle.
    - intros i e Hi Hl. unfold slots. case_bool_decide.
      + apply (st_live _ _ _ _ _ _ (st_flat _ _ _ _ _ _ Hs) i e); [|done]. rewrite E, concat_app. by apply lookup_app_l_Some.
      + apply lookup_lt_Some in Hi. pose proof (length_flat pages Hp') as Hfl. unfold lenN at 1 in Hfl.
        unfold table_slots in Hfl. lia. }
  assert (Hroom : (table_slots pages <= SLOT_LIMIT)%N).
  { etrans; [|apply H]. rewrite E. unfold table_slots, lenN. rewrite length_app. lia. }
  pose proof (heap_ok_same h pages _ _ _ H Hsame Hslots Hroom) as H1. set (h1 := set_objects h _ _ _ _) in *.
  assert (Hv : ∀ r, view_get (view_trim_free_pages (hp_text_views h)) r = view_get (hp_text_views h) r)
    by (intros r; apply view_trim_get, H).
  assert (H2 : heap_ok (set_text_views h1 (view_trim_free_pages (hp_text_views h)))).
  { assert (set_text_views h1 (view_trim_free_pages (hp_text_views h)) =
      set_text_views (set_account (set_shared h1 (hp_shared_allocations h1)) (hp_live h1) (hp_used_bytes h1))
        (view_trim_free_pages (hp_text_views h))) as -> by done.
    apply set_views_ok; [done|apply view_trim_ok, H|done|done|apply H1| |].
    - eapply ledger_ok_ext; [|apply H1]. intros k. done.
    - intros r _ _. change (hp_text_views h1) with (hp_text_views h). by rewrite Hv. }
  split_and!; try done.
  - intros r. apply read_same; [done|]. apply Hv.
  - by apply exact_same.
Qed.
End HeapSweep.
