(* ===== verification/Graph.v ===== *)
(** * The graph engine and its modes

    lm-graph/src/engine.rs: one explicit-stack walk assigns ordinals to the
    reachable objects in preorder, under four work limits, with the identity
    table of lm-heap's [GraphScratch].  lm-graph/src/mode.rs: garbage
    collection, deep freeze, frozen and sendable verification and snapshot
    ordinals are that walk with a visitor.

    The heap hands its scratch tables to the walk and takes them back; here
    they travel beside the heap.  The visitors of the source keep no state, so
    [enter] is a function.  A transfer between heaps and the digests are not
    modelled. *)

From stdpp Require Import base numbers option gmap list.
From S2P Require Import Prelude Fault Value Pages TextViews Heap.

(** *** The work tables *)

Record GraphScratch := mkScratch {
  gs_epoch : N;
  gs_normal_slots : N;
  gs_seen : list N;
  gs_ordinal : list N;
  (** Reached objects; the position is the ordinal. *)
  gs_order : list ObjRef;
}.

Definition scratch_default : GraphScratch := mkScratch 0 0 [] [] [].

Definition scratch_begin (s : GraphScratch) (normal_slots text_view_slots : N) : GraphScratch :=
  let slots := saturating_add_usize normal_slots text_view_slots in
  let '(seen, ordinal) :=
    if (lenN (gs_seen s) <? slots)%N
    then (resize_vec (gs_seen s) slots 0%N, resize_vec (gs_ordinal s) slots 0%N)
    else (gs_seen s, gs_ordinal s) in
  let epoch := as_u32 (gs_epoch s + 1) in
  if (epoch =? 0)%N then mkScratch 1 normal_slots ((λ _, 0%N) <$> seen) ordinal []
  else mkScratch epoch normal_slots seen ordinal [].

Definition scratch_index (s : GraphScratch) (r : ObjRef) : exec N :=
  if is_reference r then add_usize (gs_normal_slots s) (obj_slot r) else Ret (obj_slot r).

Definition scratch_seen (s : GraphScratch) (r : ObjRef) : exec bool :=
  index ← scratch_index s r;
  held ← of_option (gs_seen s !! N.to_nat index);
  Ret (held =? gs_epoch s)%N.

Definition scratch_record (s : GraphScratch) (r : ObjRef) : exec (N * GraphScratch) :=
  let ordinal := as_u32 (lenN (gs_order s)) in
  index ← scratch_index s r;
  guard_panic (index <? lenN (gs_seen s))%N;;
  guard_panic (index <? lenN (gs_ordinal s))%N;;
  Ret (ordinal, mkScratch (gs_epoch s) (gs_normal_slots s)
                  (<[N.to_nat index := gs_epoch s]> (gs_seen s))
                  (<[N.to_nat index := ordinal]> (gs_ordinal s)) (gs_order s ++ [r])).

Definition scratch_ordinal (s : GraphScratch) (r : ObjRef) : exec N :=
  seen ← scratch_seen s r;
  guard_panic seen;;
  index ← scratch_index s r;
  of_option (gs_ordinal s !! N.to_nat index).

Definition scratch_trim (s : GraphScratch) (slots : N) : GraphScratch :=
  mkScratch (gs_epoch s) (gs_normal_slots s) (take (N.to_nat slots) (gs_seen s))
    (take (N.to_nat slots) (gs_ordinal s)) [].

(** *** Limits *)

Record GraphLimits := mkLimits { max_objects : N; max_edges : N; max_bytes : N; max_work : N }.

Definition UNBOUNDED : GraphLimits := mkLimits U64_MAX U64_MAX U64_MAX U64_MAX.
Definition default_limits : GraphLimits := mkLimits (2 ^ 24) (2 ^ 26) (2 ^ 30) (2 ^ 26).

Record GraphCost := mkCost { gc_objects : N; gc_edges : N; gc_bytes : N; gc_work : N }.
Definition cost_default : GraphCost := mkCost 0 0 0 0.

(** [a + b] on [u64], with the overflow check of a debug build. *)
Definition add_u64 (a b : N) : exec N := if (a + b <=? U64_MAX)%N then Ret (a + b)%N else Panic.

Section Graph.
Context `{HT : HeapTypes} `{HM : HostMemory}.

Definition Visitor := ObjRef → N → Obj → exec (result unit FaultCode).

Definition accept_all : Visitor := λ _ _ _, Ret (Ok tt).

(** *** The walk *)

(** The object of either storage class. *)
Definition walk_object (h : Heap) (r : ObjRef) : option Obj :=
  match try_get h r with
  | Some object => Some object
  | None =>
      match view_get (hp_text_views h) r with
      | Some (owner, view) => Some (substring_object owner view)
      | None => None
      end
  end.

Definition object_cost (object : Obj) : exec N :=
  add_usize (heap_base_cost object) (default 0%N (snd <$> shared_allocation object)).

(** The stack has its top first. *)
Fixpoint walk_loop (fuel : nat) (h : Heap) (limits : GraphLimits) (visit : Visitor)
    (s : GraphScratch) (stack : list ObjRef) (cost : GraphCost) :
    exec (result GraphCost FaultCode * GraphScratch) :=
  match fuel with
  | O => NoFuel
  | S fuel =>
      match stack with
      | [] => Ret (Ok cost, s)
      | r :: stack =>
          work ← add_u64 (gc_work cost) 1;
          let cost := mkCost (gc_objects cost) (gc_edges cost) (gc_bytes cost) work in
          if (max_work limits <? work)%N then Ret (Err BoundaryLimit, s)
          else
            seen ← scratch_seen s r;
            if (seen : bool) then walk_loop fuel h limits visit s stack cost
            else
              match walk_object h r with
              | None => Ret (Err BoundaryViolation, s)
              | Some object =>
                  objects ← add_u64 (gc_objects cost) 1;
                  size ← object_cost object;
                  bytes ← add_u64 (gc_bytes cost) size;
                  if (max_objects limits <? objects)%N || (max_bytes limits <? bytes)%N
                  then Ret (Err BoundaryLimit, s)
                  else
                    '(ordinal, s) ← scratch_record s r;
                    entered ← visit r ordinal object;
                    match entered with
                    | Err fault => Ret (Err fault, s)
                    | Ok _ =>
                        let children := object_children object in
                        edges ← add_u64 (gc_edges cost) (lenN children);
                        if (max_edges limits <? edges)%N then Ret (Err BoundaryLimit, s)
                        else walk_loop fuel h limits visit s (children ++ stack) (mkCost objects edges bytes work)
                    end
              end
      end
  end.

(** The references held by the object table. *)
Definition entry_edges (e : Entry) : N :=
  match en_state e with Some (_, object) => lenN (object_children object) | None => 0%N end.
Definition table_edges (h : Heap) : N := sumN entry_edges (concat (hp_pages h)).

(** Every object is entered once, so its references are pushed once. *)
Definition walk_fuel (h : Heap) (roots : list ObjRef) : nat := S (length roots + N.to_nat (table_edges h)).

Definition walk (h : Heap) (s : GraphScratch) (roots : list ObjRef) (limits : GraphLimits) (visit : Visitor) :
    exec (result GraphCost FaultCode * GraphScratch) :=
  walk_loop (walk_fuel h roots) h limits visit (scratch_begin s (slot_count h) (text_view_slot_count h))
    roots cost_default.

(** *** Modes *)

Definition collect (h : Heap) (s : GraphScratch) (roots : list ObjRef) : exec (Heap * GraphScratch) :=
  let all := roots ++ host_roots h in
  '(walked, s) ← walk h s all UNBOUNDED accept_all;
  match walked with
  | Err _ => Panic
  | Ok _ =>
      h ← sweep h (scratch_seen s);
      let h := trim_free_pages h in
      Ret (h, scratch_trim s (reference_slot_count h))
  end.

Fixpoint set_frozen_all (h : Heap) (order : list ObjRef) : exec Heap :=
  match order with
  | [] => Ret h
  | r :: order => h ← set_frozen h r; set_frozen_all h order
  end.

Definition freeze (h : Heap) (s : GraphScratch) (root : ObjRef) (limits : GraphLimits) :
    exec (result unit FaultCode * Heap * GraphScratch) :=
  '(walked, s) ← walk h s [root] limits accept_all;
  match walked with
  | Err fault => Ret (Err fault, h, s)
  | Ok _ => h ← set_frozen_all h (gs_order s); Ret (Ok tt, h, s)
  end.

Definition FrozenCheck (h : Heap) : Visitor := λ r _ _,
  frozen ← is_frozen h r; Ret (if (frozen : bool) then Ok tt else Err UnsendableValue).

Definition verify_frozen (h : Heap) (s : GraphScratch) (root : ObjRef) (limits : GraphLimits) :
    exec (result GraphCost FaultCode * GraphScratch) :=
  walk h s [root] limits (FrozenCheck h).

Definition CopyCheck : Visitor := λ _ _ object,
  Ret (if shape_holder_local object then Err UnsendableValue else Ok tt).

Definition verify_sendable (h : Heap) (s : GraphScratch) (root : ObjRef) (limits : GraphLimits) :
    exec (result GraphCost FaultCode * GraphScratch) :=
  walk h s [root] limits CopyCheck.

Definition SnapshotCheck : Visitor := λ _ _ object,
  Ret (if shape_host_attachment object then Err BoundaryViolation else Ok tt).

Definition snapshot_ordinals (h : Heap) (s : GraphScratch) (roots : list ObjRef) (limits : GraphLimits) :
    exec (result (list ObjRef) FaultCode * GraphScratch) :=
  '(walked, s) ← walk h s roots limits SnapshotCheck;
  Ret (match walked with Ok _ => Ok (gs_order s) | Err fault => Err fault end, s).
End Graph.
