(* ===== verification/GraphTables.v ===== *)
(** * The identity table of a walk

    [walking h s]: the work tables answer, for every live reference, whether
    the walk has reached it, and hold its ordinal.  Objects and text views
    share one table, the views past the object slots. *)

From stdpp Require Import base numbers option gmap list.
From S2P Require Import Prelude Fault Value Pages TextViews SlotTable TextViewsInv TextViewsBatch Heap Ledger HeapInv HeapOps HeapAlloc HeapSweep Graph.

Section GraphTables.
Context `{HT : HeapTypes} `{HM : HostMemory}.

(** A reference of the machine's width that reads an object. *)
Definition live (h : Heap) (r : ObjRef) : Prop := (obj_generation r <= U32_MAX)%N ∧ is_Some (read h r).

Definition object_of (h : Heap) (r : ObjRef) : option Obj := snd <$> read h r.

Lemma walk_object_of h r : walk_object h r = object_of h r.
Proof.
  unfold walk_object, object_of, try_get, read. destruct (is_reference r) eqn:Hr.
  - by destruct (view_get (hp_text_views h) r) as [[o v]|].
  - assert (view_get (hp_text_views h) r = None) as -> by (unfold view_get, view_current; by rewrite Hr).
    unfold current_entry, entry_read, en_object. destruct (page_get (hp_pages h) (obj_slot r)) as [e|]; simpl; [|done].
    destruct (en_generation e =? obj_generation r)%N; simpl; [|done]. by destruct (en_state e) as [[hd o]|].
Qed.

Lemma live_object h r : live h r → ∃ object, object_of h r = Some object.
Proof. intros [_ [[f o] Hr]]. exists o. unfold object_of. by rewrite Hr. Qed.

Definition index_of (h : Heap) (r : ObjRef) : N :=
  if is_reference r then (hp_slots h + obj_slot r)%N else obj_slot r.

Definition index_count (h : Heap) : N := (hp_slots h + tv_slots (hp_text_views h))%N.

Lemma live_object_slot h r : heap_ok h → live h r → is_reference r = false → (obj_slot r < hp_slots h)%N.
Proof.
  intros H [_ [[f o] Hr]] Hn. destruct (read_names h r f o Hn Hr) as (e & hd & Hnm & _).
  pose proof (names_live _ _ _ _ _ Hnm) as Hl. pose proof (nm_at _ _ _ _ _ Hnm) as Ha.
  rewrite page_get_flat in Ha by apply (ho_slots h H).
  pose proof (st_live _ _ _ _ _ _ (st_flat _ _ _ _ _ _ (ho_slots h H)) _ _ Ha Hl). lia.
Qed.

Lemma live_view h r : heap_ok h → live h r → is_reference r = true → ∃ e, view_current (hp_text_views h) r = Some e.
Proof.
  intros H [_ Hs] Hr. apply view_get_current; [apply H|]. unfold read in Hs. rewrite Hr in Hs.
  destruct (view_get (hp_text_views h) r); [by eexists|by destruct Hs].
Qed.

Lemma live_view_slot h r : heap_ok h → live h r → is_reference r = true → (obj_slot r < tv_slots (hp_text_views h))%N.
Proof.
  intros H Hl Hr. destruct (live_view h r H Hl Hr) as [e He]. apply view_current_Some in He as (_ & Hp & Hlive & _).
  rewrite page_get_flat in Hp by apply (ho_views h H).
  pose proof (st_live _ _ _ _ _ _ (vf_slots _ _ _ _ _ _ _ (vo_flat _ (ho_views h H))) _ _ Hp Hlive). lia.
Qed.

Lemma index_lt h r : heap_ok h → live h r → (index_of h r < index_count h)%N.
Proof.
  intros H Hl. unfold index_of, index_count. destruct (is_reference r) eqn:Hr.
  - pose proof (live_view_slot h r H Hl Hr). lia.
  - pose proof (live_object_slot h r H Hl Hr). lia.
Qed.

(** The index tells live references apart. *)
Lemma index_inj h r r' : heap_ok h → live h r → live h r' → index_of h r = index_of h r' → r = r'.
Proof.
  intros H Hl Hl'. unfold index_of. destruct (is_reference r) eqn:Hr, (is_reference r') eqn:Hr'; intros E.
  - assert (Es : obj_slot r = obj_slot r') by lia.
    destruct (live_view h r H Hl Hr) as [e He]. destruct (live_view h r' H Hl' Hr') as [e' He'].
    pose proof (view_ref_current _ _ _ (proj1 Hl) He) as <-. pose proof (view_ref_current _ _ _ (proj1 Hl') He') as <-.
    apply view_current_Some in He as (_ & Hp & _), He' as (_ & Hp' & _). rewrite Es in *. congruence.
  - pose proof (live_object_slot h r' H Hl' Hr'). lia.
  - pose proof (live_object_slot h r H Hl Hr). lia.
  - destruct Hl as [_ [[f o] Hread]], Hl' as [_ [[f' o'] Hread']].
    destruct (read_names h r f o Hr Hread) as (e & hd & Hn & _). destruct (read_names h r' f' o' Hr' Hread') as (e' & hd' & Hn' & _).
    pose proof (nm_at _ _ _ _ _ Hn) as Ha. pose proof (nm_at _ _ _ _ _ Hn') as Ha'. rewrite <-E, Ha in Ha'. injection Ha' as <-.
    pose proof (nm_generation _ _ _ _ _ Hn). pose proof (nm_generation _ _ _ _ _ Hn').
    destruct r, r'; simpl in *; congruence.
Qed.

(** No more live references than slots. *)
Lemma live_count h order : heap_ok h → NoDup order → (∀ r, r ∈ order → live h r) → (lenN order <= index_count h)%N.
Proof.
  intros H Hnd Hl. unfold lenN. assert (length order ≤ N.to_nat (index_count h)); [|lia].
  rewrite <-(length_fmap (index_of h)), <-(length_seq (N.to_nat (index_count h)) 0), <-(length_fmap N.of_nat).
  apply submseteq_length, NoDup_submseteq.
  - apply NoDup_fmap_2_strong; [|done]. intros x y Hx Hy. apply index_inj; [done|by apply Hl..].
  - intros i (r & -> & Hr)%list_elem_of_fmap. apply list_elem_of_fmap. exists (N.to_nat (index_of h r)).
    rewrite elem_of_seq. pose proof (index_lt h r H (Hl r Hr)). split; lia.
Qed.

(** *** The tables *)

(** Between walks. *)
Record scratch_ok (s : GraphScratch) : Prop := {
  so_epoch : (gs_epoch s <= U32_MAX)%N;
  so_seen : ∀ i x, gs_seen s !! i = Some x → (x <= gs_epoch s)%N;
  so_ordinal : length (gs_ordinal s) = length (gs_seen s);
}.

Lemma scratch_default_ok : scratch_ok scratch_default.
Proof. by constructor. Qed.

Lemma scratch_trim_ok s slots : scratch_ok s → scratch_ok (scratch_trim s slots).
Proof.
  intros [H1 H2 H3]. constructor; simpl; [done| |by rewrite !length_take, H3].
  intros i x Hx. apply lookup_take_Some in Hx as [Hx _]. by eapply H2.
Qed.

(** During a walk of [h]. *)
Record walking (h : Heap) (s : GraphScratch) : Prop := {
  wk_ok : scratch_ok s;
  wk_epoch : (0 < gs_epoch s)%N;
  wk_normal : gs_normal_slots s = hp_slots h;
  wk_room : (index_count h <= lenN (gs_seen s))%N;
  wk_nodup : NoDup (gs_order s);
  wk_live : ∀ r, r ∈ gs_order s → live h r;
  wk_seen : ∀ i, gs_seen s !! i = Some (gs_epoch s) → ∃ r, r ∈ gs_order s ∧ N.to_nat (index_of h r) = i;
  wk_order : ∀ r, r ∈ gs_order s → gs_seen s !! N.to_nat (index_of h r) = Some (gs_epoch s);
  wk_ordinal : ∀ k r, gs_order s !! k = Some r →
    gs_ordinal s !! N.to_nat (index_of h r) = Some (as_u32 (N.of_nat k));
}.

Lemma index_count_small h : heap_ok h → (index_count h <= 2 * SLOT_LIMIT)%N.
Proof.
  intros H. unfold index_count. pose proof (slots_le_table h H). pose proof (ho_room h H).
  pose proof (st_slots _ _ _ _ _ _ (vf_slots _ _ _ _ _ _ _ (vo_flat _ (ho_views h H)))) as Hs.
  rewrite length_flat in Hs by apply (ho_views h H). pose proof (vo_room _ (ho_views h H)).
  assert (U32_MAX <= SLOT_LIMIT)%N by done. lia.
Qed.

Lemma begin_walking h s : heap_ok h → scratch_ok s →
  walking h (scratch_begin s (slot_count h) (text_view_slot_count h)) ∧
  gs_order (scratch_begin s (slot_count h) (text_view_slot_count h)) = [].
Proof.
  intros H [He Hs Ho]. unfold scratch_begin, slot_count, text_view_slot_count, saturating_add_usize.
  fold (index_count h). rewrite N.min_l.
  2: { etrans; [by apply index_count_small|]. done. }
  set (p := if (lenN (gs_seen s) <? index_count h)%N
    then (resize_vec (gs_seen s) (index_count h) 0%N, resize_vec (gs_ordinal s) (index_count h) 0%N)
    else (gs_seen s, gs_ordinal s)).
  assert (Hp : length p.2 = length p.1 ∧ (index_count h <= lenN p.1)%N ∧ ∀ i x, p.1 !! i = Some x → (x <= gs_epoch s)%N).
  { unfold p. destruct (N.ltb_spec (lenN (gs_seen s)) (index_count h)) as [Hlt|Hge]; simpl; [|by split_and!].
    split_and!.
    - pose proof (length_resize (gs_seen s) (index_count h) 0%N). pose proof (length_resize (gs_ordinal s) (index_count h) 0%N).
      unfold lenN in *. lia.
    - by rewrite length_resize.
    - intros i x. rewrite resize_lookup. case_decide; [|done]. intros [= <-].
      destruct (gs_seen s !! i) eqn:E; simpl; [by eapply Hs|lia]. }
  destruct p as [seen ordinal]. simpl in Hp. destruct Hp as (Hlen & Hroom & Hle).
  destruct (N.eqb_spec (as_u32 (gs_epoch s + 1)) 0) as [Ez|Nz]; (split; [|done]).
  - constructor; simpl; try done; try (by constructor).
    + constructor; simpl; [done| |by rewrite length_fmap].
      intros i x Hx. rewrite list_lookup_fmap in Hx. destruct (seen !! i); simplify_eq/=. lia.
    + unfold lenN. by rewrite length_fmap.
    + by intros r Hr%not_elem_of_nil.
    + intros i Hx. rewrite list_lookup_fmap in Hx. by destruct (seen !! i).
    + by intros r Hr%not_elem_of_nil.
  - assert (Ee : as_u32 (gs_epoch s + 1) = (gs_epoch s + 1)%N).
    { apply as_u32_small. destruct (decide (gs_epoch s = U32_MAX)) as [E|]; [|lia]. by rewrite E in Nz. }
    rewrite Ee in *. constructor; simpl; try done; try (by constructor).
    + constructor; simpl; [|intros i x Hx; specialize (Hle i x Hx); lia|done].
      destruct (decide (gs_epoch s = U32_MAX)) as [E|]; [|lia]. by rewrite E in Ee.
    + lia.
    + by intros r Hr%not_elem_of_nil.
    + intros i Hx. specialize (Hle _ _ Hx). lia.
    + by intros r Hr%not_elem_of_nil.
Qed.

Lemma scratch_index_spec h s r :
  heap_ok h → walking h s → live h r → scratch_index s r = Ret (index_of h r).
Proof.
  intros H Hw Hl. unfold scratch_index, index_of. pose proof (index_lt h r H Hl) as Hi. unfold index_of in Hi.
  destruct (is_reference r); [|done]. rewrite (wk_normal h s Hw). unfold add_usize. rewrite (proj2 (N.leb_le _ _)); [done|].
  pose proof (index_count_small h H). assert (2 * SLOT_LIMIT <= USIZE_MAX)%N by done. lia.
Qed.

Lemma scratch_seen_spec h s r :
  heap_ok h → walking h s → live h r → scratch_seen s r = Ret (bool_decide (r ∈ gs_order s)).
Proof.
  intros H Hw Hl. unfold scratch_seen. rewrite (scratch_index_spec h) by done. cbn [mbind exec_bind].
  pose proof (index_lt h r H Hl) as Hi. pose proof (wk_room h s Hw) as Hr.
  destruct (gs_seen s !! N.to_nat (index_of h r)) as [x|] eqn:E.
  2: { apply lookup_ge_None in E. unfold lenN in Hr. lia. }
  simpl. f_equal. destruct (N.eqb_spec x (gs_epoch s)) as [->|Hne].
  - destruct (wk_seen h s Hw _ E) as (r' & Hr' & Ei). symmetry. apply bool_decide_eq_true.
    assert (r' = r) as <-; [|done]. eapply index_inj; [done|by eapply wk_live|done|lia].
  - symmetry. apply bool_decide_eq_false. intros Hin. rewrite (wk_order h s Hw r Hin) in E. congruence.
Qed.

Lemma scratch_record_spec h s r :
  heap_ok h → walking h s → live h r → r ∉ gs_order s →
  ∃ s', scratch_record s r = Ret (as_u32 (lenN (gs_order s)), s') ∧ walking h s' ∧ gs_order s' = gs_order s ++ [r].
Proof.
  intros H Hw Hl Hn. unfold scratch_record. rewrite (scratch_index_spec h) by done. cbn [mbind exec_bind].
  pose proof (index_lt h r H Hl) as Hi. pose proof (wk_room h s Hw) as Hr. pose proof (so_ordinal _ (wk_ok h s Hw)) as Ho.
  rewrite (proj2 (N.ltb_lt (index_of h r) (lenN (gs_seen s)))) by lia.
  rewrite (proj2 (N.ltb_lt (index_of h r) (lenN (gs_ordinal s)))) by (unfold lenN in *; lia). cbn.
  eexists. split; [done|]. split; [|done].
  assert (Hix : N.to_nat (index_of h r) < length (gs_seen s)) by (unfold lenN in Hr; lia).
  assert (Hne : ∀ r', r' ∈ gs_order s → N.to_nat (index_of h r) ≠ N.to_nat (index_of h r')).
  { intros r' Hr' E. apply Hn. assert (r = r') as ->; [|done]. eapply index_inj; [done|done|by eapply wk_live|lia]. }
  constructor; simpl; try apply Hw.
  - constructor; simpl; [apply Hw| |by rewrite !length_insert].
    intros i x Hx. apply list_lookup_insert_Some in Hx as [(_ & <- & _)|[_ Hx]]; [done|]. by eapply so_seen, Hx; apply Hw.
  - unfold lenN. by rewrite length_insert.
  - apply NoDup_app. split_and!; [apply Hw| |by apply NoDup_singleton]. intros x Hx ->%list_elem_of_singleton. done.
  - intros x [Hx| ->%list_elem_of_singleton]%elem_of_app; [by eapply wk_live|done].
  - intros i Hx. apply list_lookup_insert_Some in Hx as [(<- & _ & _)|[_ Hx]].
    + exists r. split; [|done]. apply elem_of_app. right. by left.
    + destruct (wk_seen h s Hw i Hx) as (r' & Hr' & E). exists r'. split; [|done]. apply elem_of_app. by left.
  - intros x [Hx| ->%list_elem_of_singleton]%elem_of_app; [|by apply list_lookup_insert_eq].
    rewrite list_lookup_insert_ne by (by apply Hne). by apply wk_order.
  - intros k x [Hx|[Hk Hx]]%lookup_app_Some.
    + rewrite list_lookup_insert_ne by (apply Hne; by eapply list_elem_of_lookup_2). by apply wk_ordinal.
    + apply list_lookup_singleton_Some in Hx as [Hk0 <-]. rewrite list_lookup_insert_eq by lia.
      do 2 f_equal. unfold lenN. lia.
Qed.
End GraphTables.
