(* ===== verification/GraphWalk.v ===== *)
(** * The walk

    [preorder] is the recursive traversal the engine documents: an object, then
    its children, then its later siblings, each object once.  The explicit
    stack computes it: a walk succeeds exactly when the whole reachable graph
    is within the limits and no visitor rejects, and then the order is the
    preorder, which holds exactly the reachable references. *)

From stdpp Require Import base numbers option gmap list relations.
From S2P Require Import Prelude Fault Value Pages TextViews SlotTable TextViewsInv TextViewsBatch Heap Ledger HeapInv HeapOps HeapAlloc HeapSweep Graph GraphTables.

Section GraphWalk.
Context `{HT : HeapTypes} `{HM : HostMemory}.

(** *** Reachability *)

Definition children_of (h : Heap) (r : ObjRef) : list ObjRef := default [] (object_children <$> object_of h r).

Definition edge (h : Heap) (r r' : ObjRef) : Prop := r' ∈ children_of h r.

Definition reachable (h : Heap) (roots : list ObjRef) (r : ObjRef) : Prop :=
  ∃ root, root ∈ roots ∧ rtc (edge h) root r.

(** Every reachable reference is live. *)
Definition closed (h : Heap) (roots : list ObjRef) : Prop := ∀ r, reachable h roots r → live h r.

Lemma reachable_root h roots r : r ∈ roots → reachable h roots r.
Proof. intros Hr. exists r. by split. Qed.

Lemma reachable_step h roots r r' : reachable h roots r → edge h r r' → reachable h roots r'.
Proof. intros (root & Hr & Hp) He. exists root. split; [done|]. by eapply rtc_r. Qed.

Lemma reachable_cons h r roots x : reachable h roots x → reachable h (r :: roots) x.
Proof. intros (root & Hr & Hp). exists root. split; [by right|done]. Qed.

Lemma reachable_children h r roots x : reachable h (children_of h r) x → reachable h (r :: roots) x.
Proof. intros (c & Hc & Hp). exists r. split; [by left|]. by eapply rtc_l. Qed.

Lemma closed_cons h r roots : closed h (r :: roots) → live h r ∧ closed h (children_of h r) ∧ closed h roots.
Proof.
  intros Hc. split_and!.
  - apply Hc, reachable_root. by left.
  - intros x Hx. by apply Hc, reachable_children.
  - intros x Hx. by apply Hc, reachable_cons.
Qed.

(** *** The preorder *)

Inductive preorder (h : Heap) : list ObjRef → list ObjRef → list ObjRef → Prop :=
| pre_nil seen : preorder h [] seen seen
| pre_skip r rs seen out : r ∈ seen → preorder h rs seen out → preorder h (r :: rs) seen out
| pre_visit r rs seen mid out : r ∉ seen →
    preorder h (children_of h r) (seen ++ [r]) mid → preorder h rs mid out → preorder h (r :: rs) seen out.

Lemma preorder_extends h rs seen out : preorder h rs seen out → ∃ v, out = seen ++ v.
Proof.
  induction 1 as [seen|r rs seen out _ _ IH|r rs seen mid out _ _ [v1 E1] _ [v2 E2]].
  - exists []. by rewrite app_nil_r.
  - done.
  - exists ([r] ++ v1 ++ v2). by rewrite E2, E1, <-!app_assoc.
Qed.

Lemma preorder_nodup h rs seen out : preorder h rs seen out → NoDup seen → NoDup out.
Proof.
  induction 1 as [seen|r rs seen out _ _ IH|r rs seen mid out Hn _ IH1 _ IH2]; intros Hnd; [done|by apply IH|].
  apply IH2, IH1, NoDup_app. split_and!; [done| |by apply NoDup_singleton].
  intros x Hx ->%list_elem_of_singleton. done.
Qed.

Lemma preorder_sound h rs seen out :
  preorder h rs seen out → ∀ x, x ∈ out → x ∈ seen ∨ reachable h rs x.
Proof.
  induction 1 as [seen|r rs seen out _ _ IH|r rs seen mid out Hn _ IH1 _ IH2]; intros x Hx; [by left| |].
  - destruct (IH x Hx) as [?|?]; [by left|right; by apply reachable_cons].
  - destruct (IH2 x Hx) as [Hm|Hr]; [|right; by apply reachable_cons].
    destruct (IH1 x Hm) as [[Hs| ->%list_elem_of_singleton]%elem_of_app|Hr]; [by left| |right; by apply reachable_children].
    right. apply reachable_root. by left.
Qed.

Lemma preorder_complete h rs seen out :
  preorder h rs seen out →
  (∀ x, x ∈ rs → x ∈ out) ∧ (∀ x, x ∈ out → x ∉ seen → ∀ c, c ∈ children_of h x → c ∈ out).
Proof.
  induction 1 as [seen|r rs seen out Hin Hp [IH1 IH2]|r rs seen mid out Hn Hp1 [IH1 IH2] Hp2 [IH3 IH4]].
  - split; [by intros x Hx%not_elem_of_nil|by intros x Hx Hx'].
  - split; [|done]. intros x [->|Hx]%elem_of_cons; [|by apply IH1].
    destruct (preorder_extends _ _ _ _ Hp) as [v ->]. apply elem_of_app. by left.
  - destruct (preorder_extends _ _ _ _ Hp1) as [v1 E1]. destruct (preorder_extends _ _ _ _ Hp2) as [v2 E2].
    assert (Hmid : ∀ x, x ∈ mid → x ∈ out) by (intros x Hx; rewrite E2; apply elem_of_app; by left).
    split.
    + intros x [->|Hx]%elem_of_cons; [|by apply IH3]. apply Hmid. rewrite E1, !elem_of_app. left. right. by left.
    + intros x Hx Hns c Hc. destruct (decide (x ∈ mid)) as [Hm|Hm]; [|by eapply IH4].
      apply Hmid. destruct (decide (x = r)) as [->|Hne]; [by apply IH1|].
      apply (IH2 x); [done| |done]. intros [?| ->%list_elem_of_singleton]%elem_of_app; done.
Qed.

Lemma preorder_reachable h roots order :
  preorder h roots [] order → ∀ r, r ∈ order ↔ reachable h roots r.
Proof.
  intros Hp. destruct (preorder_complete _ _ _ _ Hp) as [H1 H2]. intros r. split.
  - intros Hr. destruct (preorder_sound _ _ _ _ Hp r Hr) as [Hn|?]; [by apply not_elem_of_nil in Hn|done].
  - intros (root & Hroot & Hpath). apply H1 in Hroot. induction Hpath as [|x y z Hxy _ IH]; [done|].
    apply IH. eapply H2; [done| |exact Hxy]. apply not_elem_of_nil.
Qed.

Lemma preorder_exists h rs seen :
  heap_ok h → closed h rs → NoDup seen → (∀ x, x ∈ seen → live h x) → ∃ out, preorder h rs seen out.
Proof.
  intros H. remember (N.to_nat (index_count h) - length seen) as n eqn:En. assert (Hn : N.to_nat (index_count h) - length seen ≤ n) by lia.
  clear En. revert rs seen Hn. induction n as [n IHn] using lt_wf_ind. intros rs.
  induction rs as [|r rs IHrs]; intros seen Hn Hc Hnd Hl; [exists seen; constructor|].
  destruct (closed_cons h r rs Hc) as (Hlr & Hcc & Hcr).
  destruct (decide (r ∈ seen)) as [Hin|Hnin].
  { destruct (IHrs seen) as [out Hout]; [done..|]. exists out. by apply pre_skip. }
  assert (Hnd' : NoDup (seen ++ [r])).
  { apply NoDup_app. split_and!; [done| |by apply NoDup_singleton]. intros x Hx ->%list_elem_of_singleton. done. }
  assert (Hl' : ∀ x, x ∈ seen ++ [r] → live h x).
  { intros x [Hx| ->%list_elem_of_singleton]%elem_of_app; [by apply Hl|done]. }
  pose proof (live_count h (seen ++ [r]) H Hnd' Hl') as Hcount. unfold lenN in Hcount. rewrite length_app in Hcount. simpl in Hcount.
  destruct (IHn (n - 1) ltac:(lia) (children_of h r) (seen ++ [r])) as [mid Hmid]; [rewrite length_app; simpl; lia|done..|].
  destruct (preorder_extends _ _ _ _ Hmid) as [v Ev].
  destruct (IHn (n - 1) ltac:(lia) rs mid) as [out Hout]; [rewrite Ev, !length_app; simpl; lia|done| | |].
  - by eapply preorder_nodup.
  - intros x Hx. destruct (preorder_sound _ _ _ _ Hmid x Hx) as [?|?]; [by apply Hl'|by apply Hcc].
  - exists out. by eapply pre_visit.
Qed.

(** *** Costs *)

Definition size_of (h : Heap) (r : ObjRef) : N :=
  match object_of h r with
  | Some object => (heap_base_cost object + default 0 (snd <$> shared_allocation object))%N
  | None => 0%N
  end.
Definition degree (h : Heap) (r : ObjRef) : N := lenN (children_of h r).

(** The cost after entering [visited] and popping [popped] more references. *)
Definition cost_after (h : Heap) (cost : GraphCost) (visited : list ObjRef) (popped : N) : GraphCost :=
  mkCost (gc_objects cost + lenN visited) (gc_edges cost + sumN (degree h) visited)
    (gc_bytes cost + sumN (size_of h) visited) (gc_work cost + popped).

Definition within (limits : GraphLimits) (cost : GraphCost) : bool :=
  (gc_objects cost <=? max_objects limits)%N && (gc_edges cost <=? max_edges limits)%N &&
  (gc_bytes cost <=? max_bytes limits)%N && (gc_work cost <=? max_work limits)%N.

Definition cost_le (a b : GraphCost) : Prop :=
  (gc_objects a <= gc_objects b)%N ∧ (gc_edges a <= gc_edges b)%N ∧ (gc_bytes a <= gc_bytes b)%N ∧ (gc_work a <= gc_work b)%N.

Definition cost_fits (cost : GraphCost) : Prop := cost_le cost (mkCost U64_MAX U64_MAX U64_MAX U64_MAX).

Lemma within_le limits a b : cost_le a b → within limits b = true → within limits a = true.
Proof.
  unfold within. intros (H1 & H2 & H3 & H4) Hw. to_prop. rewrite !andb_true_iff, !N.leb_le. lia.
Qed.

Lemma cost_after_app h cost v1 v2 p1 p2 :
  cost_after h (cost_after h cost v1 p1) v2 p2 = cost_after h cost (v1 ++ v2) (p1 + p2).
Proof. unfold cost_after. simpl. rewrite !sumN_app. unfold lenN. rewrite length_app. f_equal; lia. Qed.

Lemma cost_after_nil h cost : cost_after h cost [] 0 = cost.
Proof. unfold cost_after. destruct cost. simpl. unfold lenN. simpl. by rewrite !N.add_0_r. Qed.

Lemma cost_after_le h cost v v' p p' : (p <= p')%N → cost_le (cost_after h cost v p) (cost_after h cost (v ++ v') p').
Proof.
  intros Hp. unfold cost_after, cost_le. simpl. rewrite !sumN_app. unfold lenN. rewrite length_app. lia.
Qed.

(** The references popped for [rs] and for what they enter. *)
Definition pops (h : Heap) (rs visited : list ObjRef) : N := (lenN rs + sumN (degree h) visited)%N.

(** *** The loop *)

Section loop.
Context (h : Heap) (H : heap_ok h) (limits : GraphLimits) (visit : Visitor) (verdict : ObjRef → option FaultCode).
Context (Hvisit : ∀ r ordinal object, live h r → object_of h r = Some object →
  visit r ordinal object = Ret (match verdict r with Some fault => Err fault | None => Ok tt end)).

(** The first of [v] that is rejected, with [fault]. *)
Definition rejects (v : list ObjRef) (fault : FaultCode) : Prop :=
  ∃ v1 r v2, v = v1 ++ r :: v2 ∧ Forall (λ r, verdict r = None) v1 ∧ verdict r = Some fault.

Definition stops (v : list ObjRef) (cost : GraphCost) (fault : FaultCode) : Prop :=
  (fault = BoundaryLimit ∧ within limits cost = false) ∨ rejects v fault.

Lemma stops_app v1 v2 c1 c2 fault : cost_le c1 c2 → stops v1 c1 fault → stops (v1 ++ v2) c2 fault.
Proof.
  intros Hle [[-> Hw]|(a & r & b & -> & Ha & Hr)].
  - left. split; [done|]. apply not_true_is_false. intros Hw2. by rewrite (within_le limits c1 c2 Hle Hw2) in Hw.
  - right. exists a, r, (b ++ v2). by rewrite <-app_assoc.
Qed.

Lemma stops_prefix v1 v2 c fault : Forall (λ r, verdict r = None) v1 → stops v2 c fault → stops (v1 ++ v2) c fault.
Proof.
  intros Hv [?|(a & r & b & -> & Ha & Hr)]; [by left|]. right. exists (v1 ++ a), r, b.
  rewrite <-app_assoc. split_and!; [done|by apply Forall_app|done].
Qed.

(** A seen reference is popped and skipped. *)
Lemma loop_skip fuel s r stack cost :
  walking h s → live h r → r ∈ gs_order s → (gc_work cost + 1 <= U64_MAX)%N →
  walk_loop (S fuel) h limits visit s (r :: stack) cost =
    if (max_work limits <? gc_work cost + 1)%N then Ret (Err BoundaryLimit, s)
    else walk_loop fuel h limits visit s stack (cost_after h cost [] 1).
Proof.
  intros Hw Hl Hin Hfit. cbn [walk_loop]. unfold add_u64. rewrite (proj2 (N.leb_le _ _) Hfit). cbn [mbind exec_bind].
  case_match; [done|]. rewrite (scratch_seen_spec h) by done. cbn [mbind exec_bind].
  rewrite bool_decide_true by done. unfold cost_after. simpl. by rewrite !N.add_0_r.
Qed.

(** A new reference is entered and its children are pushed. *)
Lemma loop_visit fuel s r stack cost :
  walking h s → live h r → r ∉ gs_order s → cost_fits (cost_after h cost [r] 1) →
  (∃ s', walking h s' ∧ gs_order s' = gs_order s ++ [r] ∧ verdict r = None ∧
     within limits (cost_after h cost [r] 1) = true ∧
     walk_loop (S fuel) h limits visit s (r :: stack) cost =
       walk_loop fuel h limits visit s' (children_of h r ++ stack) (cost_after h cost [r] 1)) ∨
  (∃ s' fault, scratch_ok s' ∧ walk_loop (S fuel) h limits visit s (r :: stack) cost = Ret (Err fault, s') ∧
     stops [r] (cost_after h cost [r] 1) fault).
Proof.
  intros Hw Hl Hnin (Ho & He & Hb & Hwk). destruct (live_object h r Hl) as [object Eo].
  assert (Es : size_of h r = (heap_base_cost object + default 0 (snd <$> shared_allocation object))%N) by (unfold size_of; by rewrite Eo).
  assert (Ec : children_of h r = object_children object) by (unfold children_of; by rewrite Eo).
  assert (Ea : cost_after h cost [r] 1 = mkCost (gc_objects cost + 1) (gc_edges cost + lenN (object_children object))
                 (gc_bytes cost + size_of h r) (gc_work cost + 1)).
  { unfold cost_after, degree. simpl. by rewrite !N.add_0_r, Ec. }
  rewrite Ea in *. simpl in Ho, He, Hb, Hwk. clear Ea. set (c := mkCost _ _ _ _).
  assert (Hstop : ∀ s, scratch_ok s → within limits c = false → ∃ s' fault, scratch_ok s' ∧
    Ret (Err BoundaryLimit : result GraphCost FaultCode, s) = Ret (Err fault, s') ∧ stops [r] c fault).
  { intros s0 Hs0 Hf. exists s0, BoundaryLimit. split_and!; [done|done|]. by left. }
  cbn [walk_loop]. unfold add_u64. rewrite (proj2 (N.leb_le _ _) Hwk). cbn [mbind exec_bind].
  destruct (N.ltb_spec (max_work limits) (gc_work cost + 1)) as [H1|H1].
  { right. apply Hstop; [apply Hw|]. apply not_true_is_false. unfold within, c. simpl. intros ?. to_prop. lia. }
  rewrite (scratch_seen_spec h) by done. cbn [mbind exec_bind]. rewrite bool_decide_false by done.
  rewrite walk_object_of, Eo. simpl. rewrite (proj2 (N.leb_le _ _) Ho). simpl.
  unfold object_cost, add_usize. rewrite <-Es, (proj2 (N.leb_le (size_of h r) _)) by (unfold USIZE_MAX; lia). simpl.
  rewrite (proj2 (N.leb_le _ _) Hb). simpl.
  destruct (N.ltb_spec (max_objects limits) (gc_objects cost + 1)) as [H2|H2]; simpl.
  { right. apply Hstop; [apply Hw|]. apply not_true_is_false. unfold within, c. simpl. intros ?. to_prop. lia. }
  destruct (N.ltb_spec (max_bytes limits) (gc_bytes cost + size_of h r)) as [H3|H3]; simpl.
  { right. apply Hstop; [apply Hw|]. apply not_true_is_false. unfold within, c. simpl. intros ?. to_prop. lia. }
  destruct (scratch_record_spec h s r H Hw Hl Hnin) as (s' & E' & Hw' & Eo'). rewrite E'. simpl.
  rewrite (Hvisit r _ object Hl Eo). simpl. destruct (verdict r) as [fault|] eqn:Ev.
  { right. exists s', fault. split_and!; [apply Hw'|done|]. right. exists [], r, []. by split_and!. }
  rewrite (proj2 (N.leb_le _ _) He). simpl.
  destruct (N.ltb_spec (max_edges limits) (gc_edges cost + lenN (object_children object))) as [H4|H4].
  { right. apply Hstop; [apply Hw'|]. apply not_true_is_false. unfold within, c. simpl. intros ?. to_prop. lia. }
  left. exists s'. rewrite Ec. split_and!; try done. unfold within, c. simpl. rewrite !andb_true_iff, !N.leb_le. lia.
Qed.

Lemma pops_cons r rs v : pops h (r :: rs) v = (1 + pops h rs v)%N.
Proof. unfold pops, lenN. simpl. lia. Qed.

Lemma loop_spec rs seen out : preorder h rs seen out → ∀ fuel s stack cost v,
  walking h s → gs_order s = seen → closed h rs → out = seen ++ v → within limits cost = true →
  cost_fits (cost_after h cost v (pops h rs v)) →
  (∃ s', walking h s' ∧ gs_order s' = out ∧ Forall (λ r, verdict r = None) v ∧
     within limits (cost_after h cost v (pops h rs v)) = true ∧
     walk_loop (N.to_nat (pops h rs v) + fuel) h limits visit s (rs ++ stack) cost =
       walk_loop fuel h limits visit s' stack (cost_after h cost v (pops h rs v))) ∨
  (∃ s' fault, scratch_ok s' ∧
     walk_loop (N.to_nat (pops h rs v) + fuel) h limits visit s (rs ++ stack) cost = Ret (Err fault, s') ∧
     stops v (cost_after h cost v (pops h rs v)) fault).
Proof.
  induction 1 as [seen|r rs seen out Hin Hp IH|r rs seen mid out Hnin Hp1 IH1 Hp2 IH2];
    intros fuel s stack cost v Hw Es Hc Ev Hwi Hfit.
  - rewrite <-(app_nil_r seen) in Ev at 1. apply app_inv_head in Ev. subst v. left. exists s.
    change (pops h [] []) with 0%N. rewrite cost_after_nil.
    by split_and!.
  - destruct (closed_cons h r rs Hc) as (Hl & _ & Hcr). rewrite pops_cons in *.
    assert (Ec : cost_after h cost v (1 + pops h rs v) = cost_after h (cost_after h cost [] 1) v (pops h rs v)).
    { by rewrite cost_after_app. }
    rewrite Ec in *. replace (N.to_nat (1 + pops h rs v) + fuel) with (S (N.to_nat (pops h rs v) + fuel)) by lia.
    cbn [app]. rewrite loop_skip; [|done|done|by rewrite Es|].
    2: { destruct Hfit as (_ & _ & _ & Hf). simpl in Hf. lia. }
    destruct (N.ltb_spec (max_work limits) (gc_work cost + 1)) as [H1|H1].
    + right. exists s, BoundaryLimit. split_and!; [apply Hw|done|]. left. split; [done|].
      apply not_true_is_false. unfold within, cost_after. simpl. intros ?. to_prop. lia.
    + apply IH; try done. unfold within in *. simpl. unfold lenN. simpl. to_prop. rewrite !andb_true_iff, !N.leb_le. lia.
  - destruct (closed_cons h r rs Hc) as (Hl & Hcc & Hcr).
    destruct (preorder_extends _ _ _ _ Hp1) as [v1 E1]. destruct (preorder_extends _ _ _ _ Hp2) as [v2 E2].
    assert (Ev' : v = [r] ++ v1 ++ v2).
    { rewrite E2, E1, <-!app_assoc in Ev. by apply app_inv_head in Ev. }
    assert (Ep : pops h (r :: rs) v = (1 + (pops h (children_of h r) v1 + pops h rs v2))%N).
    { subst v. unfold pops. rewrite !sumN_app. simpl. unfold degree at 1. unfold lenN. simpl. lia. }
    set (c1 := cost_after h cost [r] 1). set (c2 := cost_after h c1 v1 (pops h (children_of h r) v1)).
    assert (Ec : cost_after h cost v (pops h (r :: rs) v) = cost_after h c2 v2 (pops h rs v2)).
    { unfold c2, c1. rewrite !cost_after_app. subst v. rewrite Ep. f_equal; lia. }
    rewrite Ec in *.
    replace (N.to_nat (pops h (r :: rs) v) + fuel)
      with (S (N.to_nat (pops h (children_of h r) v1) + (N.to_nat (pops h rs v2) + fuel))) by lia.
    assert (Hle1 : cost_le c1 (cost_after h c2 v2 (pops h rs v2))).
    { unfold c2, c1. rewrite !cost_after_app. apply cost_after_le. lia. }
    assert (Hle2 : cost_le c2 (cost_after h c2 v2 (pops h rs v2))).
    { pose proof (cost_after_le h c2 [] v2 0 (pops h rs v2) ltac:(lia)) as Hx. by rewrite cost_after_nil in Hx. }
    assert (Hfits : ∀ c, cost_le c (cost_after h c2 v2 (pops h rs v2)) → cost_fits c).
    { intros c (?&?&?&?). destruct Hfit as (?&?&?&?). unfold cost_fits, cost_le in *. simpl in *. lia. }
    cbn [app]. destruct (loop_visit (N.to_nat (pops h (children_of h r) v1) + (N.to_nat (pops h rs v2) + fuel)) s r (rs ++ stack) cost)
      as [(s1 & Hw1 & Eo1 & Hv1 & Hwi1 & Er)|(s1 & f & Hs1 & Er & Hst)]; [done|done|by rewrite Es|by apply Hfits| |].
    2: { right. exists s1, f. split_and!; [done|done|]. subst v. eapply stops_app; [exact Hle1|exact Hst]. }
    rewrite Er. fold c1.
    destruct (IH1 (N.to_nat (pops h rs v2) + fuel) s1 (rs ++ stack) c1 v1) as
      [(s2 & Hw2 & Eo2 & Hv2 & Hwi2 & Er2)|(s2 & f & Hs2 & Er2 & Hst)];
      [done|by rewrite Eo1, Es|done|done|done|by apply Hfits| |].
    2: { right. exists s2, f. rewrite Er2. split_and!; [done|done|]. subst v. apply stops_prefix; [by constructor|]. by eapply stops_app. }
    rewrite Er2. fold c2.
    destruct (IH2 fuel s2 stack c2 v2) as [(s3 & Hw3 & Eo3 & Hv3 & Hwi3 & Er3)|(s3 & f & Hs3 & Er3 & Hst)];
      [done|done|done|done|done|done| |].
    + left. exists s3. rewrite Er3. split_and!; try done. subst v. by repeat (apply Forall_app; split; [by repeat constructor|]).
    + right. exists s3, f. rewrite Er3. split_and!; [done|done|]. subst v.
      apply stops_prefix; [by constructor|]. by apply stops_prefix.
Qed.
End loop.
End GraphWalk.
