(* ===== verification/GraphModes.v ===== *)
(** * The graph modes

    The walk as a whole, with fuel that is always enough, and the modes built
    on it: a collection keeps exactly the reachable objects, a freeze sets the
    frozen bit of exactly those, and the verifications answer for all of them. *)

From stdpp Require Import base numbers option gmap list relations.
From S2P Require Import Prelude Fault Value Pages TextViews SlotTable TextViewsInv TextViewsBatch Heap Ledger HeapInv HeapOps HeapAlloc HeapSweep Graph GraphTables GraphWalk.

Lemma sumN_submseteq {A} (f : A → N) (l k : list A) : l ⊆+ k → (sumN f l <= sumN f k)%N.
Proof. induction 1; simpl; lia. Qed.

Lemma sumN_fmap {A B} (f : B → N) (g : A → B) (l : list A) : sumN f (g <$> l) = sumN (λ a, f (g a)) l.
Proof.
  induction l as [|a l IH]; [done|].
  change (f (g a) + sumN f (g <$> l) = f (g a) + sumN (λ a, f (g a)) l)%N. by rewrite IH.
Qed.

Lemma sumN_ext_in {A} (f g : A → N) (l : list A) : (∀ x, x ∈ l → (f x <= g x)%N) → (sumN f l <= sumN g l)%N.
Proof.
  induction l as [|a l IH]; intros Hfg; simpl; [done|]. pose proof (Hfg a ltac:(by left)).
  assert (sumN f l <= sumN g l)%N; [|lia]. apply IH. intros x Hx. apply Hfg. by right.
Qed.

Lemma sumN_seq {A} (f : A → N) (l : list A) : sumN (λ k, default 0%N (f <$> l !! k)) (seq 0 (length l)) = sumN f l.
Proof.
  induction l as [|x l IH]; [done|]. simpl. rewrite <-fmap_S_seq, sumN_fmap. simpl. by rewrite IH.
Qed.

(** Distinct positions of a list sum to at most the whole. *)
Lemma sumN_positions {A} (f : A → N) (l : list A) (ks : list nat) :
  NoDup ks → (∀ k, k ∈ ks → k < length l) → (sumN (λ k, default 0%N (f <$> l !! k)) ks <= sumN f l)%N.
Proof.
  intros Hnd Hlt. rewrite <-(sumN_seq f l). apply sumN_submseteq, NoDup_submseteq; [done|].
  intros k Hk. rewrite elem_of_seq. specialize (Hlt k Hk). lia.
Qed.

Section GraphModes.
Context `{HT : HeapTypes} `{HL : !HeapLaws} `{HM : HostMemory}.

Lemma view_degree h r : is_reference r = true → degree h r = 0%N.
Proof.
  intros Hr. unfold degree, children_of, object_of, read. rewrite Hr.
  destruct (view_get (hp_text_views h) r) as [[o v]|]; simpl; [|done]. by rewrite substring_children.
Qed.

Lemma object_degree h r : heap_ok h → is_reference r = false →
  (degree h r <= default 0 (entry_edges <$> concat (hp_pages h) !! N.to_nat (obj_slot r)))%N.
Proof.
  intros H Hr. unfold degree, children_of, object_of, read. rewrite Hr, page_get_flat by apply (ho_slots h H).
  destruct (concat (hp_pages h) !! N.to_nat (obj_slot r)) as [e|]; simpl; [|done].
  unfold entry_read, entry_edges. case_match; [|apply N.le_0_l]. by destruct (en_state e) as [[hd o]|].
Qed.

(** Distinct live references hold no more references than the table. *)
Lemma degree_sum h order : heap_ok h → NoDup order → (∀ r, r ∈ order → live h r) → (sumN (degree h) order <= table_edges h)%N.
Proof.
  intros H Hnd Hl. set (objects := filter (λ r, is_reference r = false) order).
  transitivity (sumN (λ k, default 0%N (entry_edges <$> concat (hp_pages h) !! k)) ((λ r, N.to_nat (obj_slot r)) <$> objects)).
  - rewrite sumN_fmap. unfold objects. clear -H HL. induction order as [|r order IH]; [done|].
    rewrite filter_cons. simpl. case_decide as Hr; simpl.
    + pose proof (object_degree h r H Hr). lia.
    + rewrite view_degree by (by destruct (is_reference r)). lia.
  - unfold table_edges. apply sumN_positions.
    + apply NoDup_fmap_2_strong; [|by apply NoDup_filter]. intros x y Hx Hy E.
      apply list_elem_of_filter in Hx as [Hx1 Hx2], Hy as [Hy1 Hy2].
      eapply index_inj; [done|by apply Hl..|]. unfold index_of. rewrite Hx1, Hy1. lia.
    + intros k (r & -> & Hr)%list_elem_of_fmap. apply list_elem_of_filter in Hr as [Hr1 Hr2].
      pose proof (live_object_slot h r H (Hl r Hr2) Hr1) as Hs. pose proof (slots_le_table h H) as Ht.
      rewrite <-length_flat in Ht by apply (ho_slots h H). unfold lenN in Ht. lia.
Qed.

(** The cost of the graph under [roots]. *)
Definition graph_cost (h : Heap) (roots order : list ObjRef) : GraphCost :=
  cost_after h cost_default order (pops h roots order).

(** What one visitor answers about each live object. *)
Definition answers_for (h : Heap) (visit : Visitor) (verdict : ObjRef → option FaultCode) : Prop :=
  ∀ r ordinal object, live h r → object_of h r = Some object →
    visit r ordinal object = Ret (match verdict r with Some fault => Err fault | None => Ok tt end).

(** The walk finishes; it succeeds exactly when the graph is within the limits
    and nothing is rejected, with the preorder of the reachable references. *)
Lemma walk_spec h s roots limits visit verdict order :
  heap_ok h → scratch_ok s → closed h roots → answers_for h visit verdict →
  preorder h roots [] order → cost_fits (graph_cost h roots order) →
  ∃ result s', walk h s roots limits visit = Ret (result, s') ∧
    match result with
    | Ok cost => cost = graph_cost h roots order ∧ within limits cost = true ∧
        Forall (λ r, verdict r = None) order ∧ walking h s' ∧ gs_order s' = order
    | Err fault => scratch_ok s' ∧ stops limits verdict order (graph_cost h roots order) fault
    end.
Proof.
  intros H Hs Hc Hv Hp Hfit. unfold walk. destruct (begin_walking h s H Hs) as [Hw Eo].
  assert (Hl : ∀ r, r ∈ order → live h r) by (intros r Hr; by apply Hc, (preorder_reachable h roots order Hp)).
  assert (Hnd : NoDup order) by (eapply preorder_nodup; [done|constructor]).
  assert (Hf : ∃ fuel, walk_fuel h roots = N.to_nat (pops h roots order) + S fuel).
  { exists (length roots + N.to_nat (table_edges h) - N.to_nat (pops h roots order)). unfold walk_fuel, pops, lenN.
    pose proof (degree_sum h order H Hnd Hl). lia. }
  destruct Hf as [fuel ->]. unfold graph_cost in *.
  destruct (loop_spec h H limits visit verdict Hv roots [] order Hp (S fuel) _ [] cost_default order Hw Eo Hc eq_refl)
    as [(s' & Hw' & Eo' & Hacc & Hwi & E)|(s' & fault & Hs' & E & Hst)]; [|done|..].
  - unfold within. simpl. by rewrite !(proj2 (N.leb_le 0 _)) by lia.
  - rewrite app_nil_r in E. rewrite E. eexists _, _. split; [done|]. done.
  - rewrite app_nil_r in E. rewrite E. eexists _, _. split; [done|]. done.
Qed.

Lemma accept_all_answers h : answers_for h accept_all (λ _, None).
Proof. by intros r ordinal object _ _. Qed.

Lemma frozen_check_answers h : heap_ok h →
  answers_for h (FrozenCheck h) (λ r, match read h r with Some (true, _) => None | _ => Some UnsendableValue end).
Proof.
  intros H r ordinal object [_ [[f o] Hr]] _. unfold FrozenCheck, is_frozen. rewrite Hr. destruct (is_reference r) eqn:Er.
  - unfold read in Hr. rewrite Er in Hr. destruct (view_get (hp_text_views h) r) as [[ow v]|]; [|done]. by injection Hr as <- _.
  - destruct (read_names h r f o Er Hr) as (e & hd & Hn & <-). unfold entry_at.
    rewrite (nm_at _ _ _ _ _ Hn). simpl. rewrite (nm_generation _ _ _ _ _ Hn), N.eqb_refl, (nm_state _ _ _ _ _ Hn). simpl.
    by destruct (hd_frozen hd).
Qed.

Lemma copy_check_answers h :
  answers_for h CopyCheck (λ r, match object_of h r with Some o => if shape_holder_local o then Some UnsendableValue else None | None => None end).
Proof. intros r ordinal object _ Eo. unfold CopyCheck. rewrite Eo. by destruct (shape_holder_local object). Qed.

Lemma snapshot_check_answers h :
  answers_for h SnapshotCheck (λ r, match object_of h r with Some o => if shape_host_attachment o then Some BoundaryViolation else None | None => None end).
Proof. intros r ordinal object _ Eo. unfold SnapshotCheck. rewrite Eo. by destruct (shape_host_attachment object). Qed.

Lemma closed_preorder h roots : heap_ok h → closed h roots → ∃ order, preorder h roots [] order.
Proof. intros H Hc. apply preorder_exists; [done|done|constructor|by intros x Hx%not_elem_of_nil]. Qed.

(** The totals of the graph fit the machine's counters. *)
Definition graph_fits (h : Heap) (roots : list ObjRef) : Prop :=
  ∀ order, preorder h roots [] order → cost_fits (graph_cost h roots order).

(** *** Collection *)

Record collected (h h' : Heap) (roots : list ObjRef) : Prop := {
  cl_ok : heap_ok h';
  cl_kept : ∀ r, reachable h roots r → read h' r = read h r;
  cl_freed : ∀ r, (obj_generation r <= U32_MAX)%N → ¬ reachable h roots r → read h' r = None;
  cl_used : (hp_used_bytes h' <= hp_used_bytes h)%N;
  cl_exact : heap_exact h → heap_exact h';
  cl_roots : hp_host_roots h' = hp_host_roots h;
}.

Lemma collect_cases h s roots :
  heap_ok h → scratch_ok s → closed h (roots ++ host_roots h) → graph_fits h (roots ++ host_roots h) →
  ∃ h' s', collect h s roots = Ret (h', s') ∧ scratch_ok s' ∧ collected h h' (roots ++ host_roots h).
Proof.
  intros H Hs Hc Hfit. set (all := roots ++ host_roots h) in *.
  destruct (closed_preorder h all H Hc) as [order Hp]. pose proof (preorder_reachable h all order Hp) as Hreach.
  specialize (Hfit order Hp).
  destruct (walk_spec h s all UNBOUNDED accept_all _ order H Hs Hc (accept_all_answers h) Hp Hfit) as (res & s1 & E & Hres).
  unfold collect. fold all. rewrite E. cbn [mbind exec_bind]. destruct res as [cost|fault].
  2: { exfalso. destruct Hres as [_ [[_ Hw]|(v1 & r & v2 & _ & _ & Hr)]]; [|done].
       apply not_true_iff_false in Hw. apply Hw. destruct Hfit as (?&?&?&?). unfold within. simpl in *.
       by rewrite !andb_true_iff, !N.leb_le. }
  destruct Hres as (_ & _ & _ & Hw & Eo).
  destruct (sweep_spec h (scratch_seen s1) (λ r, bool_decide (r ∈ order)) H) as (h1 & E1 & Hsw).
  { intros r Hwide Hl. rewrite <-Eo. by apply (scratch_seen_spec h). }
  rewrite E1. cbn [mbind exec_bind]. destruct (trim_free_pages_spec h1 (sp_ok _ _ _ Hsw)) as (H2 & Hr2 & Hx2 & Eu2 & _ & Ert2).
  eexists _, _. split; [done|]. split; [apply scratch_trim_ok, Hw|].
  assert (Hwide : ∀ r, reachable h all r → (obj_generation r <= U32_MAX)%N) by (intros r Hr; apply (Hc r Hr)).
  constructor.
  - done.
  - intros r Hr. rewrite Hr2, (sp_read _ _ _ Hsw) by (by apply Hwide). by rewrite bool_decide_true by (by apply Hreach).
  - intros r Hwd Hr. rewrite Hr2, (sp_read _ _ _ Hsw) by done. rewrite bool_decide_false; [done|]. by rewrite Hreach.
  - rewrite Eu2. apply Hsw.
  - intros Hx. by apply Hx2, Hsw.
  - rewrite Ert2. apply Hsw.
Qed.

(** *** Freezing *)

Definition freeze_read (x : option (bool * Obj)) : option (bool * Obj) := (λ p, (true, p.2)) <$> x.

Lemma set_frozen_any h r : heap_ok h → live h r →
  ∃ h', set_frozen h r = Ret h' ∧ heap_ok h' ∧ (heap_exact h → heap_exact h') ∧
    ∀ r', read h' r' = if decide (r' = r) then freeze_read (read h r') else read h r'.
Proof.
  intros H [Hw [[f o] Hr]]. destruct (is_reference r) eqn:Er.
  - exists h. unfold set_frozen. rewrite Er. unfold read in Hr. rewrite Er in Hr.
    destruct (view_get (hp_text_views h) r) as [[ow v]|] eqn:Eg; [|done].
    split_and!; [by rewrite bool_decide_true|done|done|].
    intros r'. case_decide; [|done]. subst r'. unfold freeze_read, read. by rewrite Er, Eg.
  - destruct (set_frozen_spec h r f o H Er Hr) as (h' & E & Hok & Hx & _ & _ & Hrd).
    exists h'. split_and!; [done|done|done|]. intros r'. rewrite Hrd. case_decide; [|done]. subst r'. by rewrite Hr.
Qed.

Lemma live_frozen h h' r r' :
  read h' r' = (if decide (r' = r) then freeze_read (read h r') else read h r') → live h r' → live h' r'.
Proof. intros E [Hw [x Hx]]. split; [done|]. rewrite E, Hx. case_decide; by eexists. Qed.

Lemma set_frozen_all_spec order : ∀ h, heap_ok h → (∀ r, r ∈ order → live h r) →
  ∃ h', set_frozen_all h order = Ret h' ∧ heap_ok h' ∧ (heap_exact h → heap_exact h') ∧
    ∀ r, read h' r = if decide (r ∈ order) then freeze_read (read h r) else read h r.
Proof.
  induction order as [|r order IH]; intros h H Hl; cbn [set_frozen_all].
  { exists h. split_and!; [done..|]. intros r. by rewrite decide_False by apply not_elem_of_nil. }
  destruct (set_frozen_any h r H (Hl r ltac:(by left))) as (h1 & E1 & H1 & Hx1 & Hr1).
  destruct (IH h1 H1) as (h2 & E2 & H2 & Hx2 & Hr2).
  { intros x Hx. eapply live_frozen; [apply Hr1|]. apply Hl. by right. }
  exists h2. rewrite E1. cbn [mbind exec_bind]. split_and!; [done|done|tauto|].
  intros x. rewrite Hr2, Hr1. destruct (decide (x = r)) as [->|Hne].
  - destruct (decide (r ∈ r :: order)) as [_|Hno]; [|destruct Hno; by left].
    case_decide; [|done]. by destruct (read h r) as [[]|].
  - destruct (decide (x ∈ order)) as [Hin|Hin]; [by rewrite decide_True by (by right)|].
    rewrite decide_False; [done|]. by intros [?|?]%elem_of_cons.
Qed.

(** [h'] is [h] with the frozen bit of everything under [root]. *)
Record frozen_under (h h' : Heap) (root : ObjRef) : Prop := {
  fz_ok : heap_ok h';
  fz_exact : heap_exact h → heap_exact h';
  fz_set : ∀ r, reachable h [root] r → read h' r = freeze_read (read h r);
  fz_rest : ∀ r, ¬ reachable h [root] r → read h' r = read h r;
}.

Lemma freeze_cases h s root limits :
  heap_ok h → scratch_ok s → closed h [root] → graph_fits h [root] →
  ∃ order, preorder h [root] [] order ∧ ∃ result h' s', freeze h s root limits = Ret (result, h', s') ∧ scratch_ok s' ∧
    if within limits (graph_cost h [root] order) then result = Ok tt ∧ frozen_under h h' root
    else result = Err BoundaryLimit ∧ h' = h.
Proof.
  intros H Hs Hc Hfit. destruct (closed_preorder h [root] H Hc) as [order Hp]. exists order. split; [done|].
  pose proof (preorder_reachable h [root] order Hp) as Hreach. specialize (Hfit order Hp).
  destruct (walk_spec h s [root] limits accept_all _ order H Hs Hc (accept_all_answers h) Hp Hfit) as (res & s1 & E & Hres).
  unfold freeze. rewrite E. cbn [mbind exec_bind]. destruct res as [cost|fault].
  - destruct Hres as (-> & Hwi & _ & Hw & Eo). rewrite Hwi.
    destruct (set_frozen_all_spec (gs_order s1) h H (wk_live h s1 Hw)) as (h' & E' & H' & Hx' & Hr').
    rewrite E'. eexists _, _, _. split; [done|]. split; [apply Hw|]. split; [done|]. rewrite Eo in Hr'.
    constructor; [done|done|..]; intros r Hr; rewrite Hr'.
    + by rewrite decide_True by (by apply Hreach).
    + by rewrite decide_False by (by rewrite Hreach).
  - destruct Hres as [Hs' Hst]. eexists _, _, _. split; [done|]. split; [done|].
    destruct Hst as [[-> Hw]|(v1 & r & v2 & _ & _ & Hr)]; [by rewrite Hw|done].
Qed.

(** *** Verification *)

Definition is_frozen_read (x : option (bool * Obj)) : bool := match x with Some (true, _) => true | _ => false end.

Lemma verify_frozen_cases h s root limits order :
  heap_ok h → scratch_ok s → closed h [root] → preorder h [root] [] order → cost_fits (graph_cost h [root] order) →
  ∃ result s', verify_frozen h s root limits = Ret (result, s') ∧ scratch_ok s' ∧
    if within limits (graph_cost h [root] order) then
      (∀ r, reachable h [root] r → is_frozen_read (read h r) = true) ∧ result = Ok (graph_cost h [root] order) ∨
      (∃ r, reachable h [root] r ∧ is_frozen_read (read h r) = false) ∧ result = Err UnsendableValue
    else ∃ fault, result = Err fault.
Proof.
  intros H Hs Hc Hp Hfit. pose proof (preorder_reachable h [root] order Hp) as Hreach.
  destruct (walk_spec h s [root] limits _ _ order H Hs Hc (frozen_check_answers h H) Hp Hfit) as (res & s1 & E & Hres).
  exists res, s1. split; [done|]. destruct res as [cost|fault].
  - destruct Hres as (-> & Hwi & Hall & Hw & Eo). split; [apply Hw|]. rewrite Hwi. left. split; [|done].
    intros r Hr%Hreach. rewrite list.Forall_forall in Hall. specialize (Hall r Hr).
    by destruct (read h r) as [[[] ?]|].
  - destruct Hres as [Hs' Hst]. split; [done|]. destruct (within limits (graph_cost h [root] order)) eqn:Ew; [|by eexists].
    right. destruct Hst as [[_ Hw]|(v1 & r & v2 & -> & _ & Hr)]; [congruence|].
    assert (reachable h [root] r) by (apply Hreach; rewrite elem_of_app, elem_of_cons; tauto).
    destruct (read h r) as [[[] ?]|] eqn:Er; simplify_eq; (split; [|done]); exists r; by rewrite Er.
Qed.

(** Freezing changes no object, so the frozen graph is walked as before. *)
Lemma frozen_object h h' root order r :
  preorder h [root] [] order → frozen_under h h' root → object_of h' r = object_of h r.
Proof.
  intros Hp Hf. pose proof (preorder_reachable h [root] order Hp r) as Hreach. unfold object_of.
  destruct (decide (r ∈ order)) as [Hin|Hin].
  - rewrite (fz_set _ _ _ Hf) by (by apply Hreach). by destruct (read h r) as [[]|].
  - by rewrite (fz_rest _ _ _ Hf) by (by rewrite <-Hreach).
Qed.

(** Two heaps with the same edges and sizes are walked alike. *)
Section same_objects.
Context (h h' : Heap) (Hch : ∀ r, children_of h' r = children_of h r) (Hz : ∀ r, size_of h' r = size_of h r).

Lemma same_preorder rs seen out : preorder h rs seen out → preorder h' rs seen out.
Proof.
  induction 1; [constructor|by apply pre_skip|]. eapply pre_visit; [done| |done]. by rewrite Hch.
Qed.

Lemma same_reachable rs r : reachable h' rs r → reachable h rs r.
Proof.
  intros (root & Hr & Hp). exists root. split; [done|]. eapply rtc_subrel; [|exact Hp].
  intros x y. unfold edge. by rewrite Hch.
Qed.

Lemma same_cost roots order : graph_cost h' roots order = graph_cost h roots order.
Proof.
  assert (Hd : ∀ r, degree h' r = degree h r) by (intros r; unfold degree; by rewrite Hch).
  assert (Hs : ∀ f g : ObjRef → N, (∀ r, f r = g r) → sumN f order = sumN g order).
  { intros f g Hfg. unfold sumN. induction order; simpl; [done|]. by rewrite Hfg, IHorder. }
  unfold graph_cost, cost_after, pops. by rewrite (Hs _ _ Hd), (Hs _ _ Hz).
Qed.

Lemma same_closed roots : (∀ r, is_Some (read h r) → is_Some (read h' r)) → closed h roots → closed h' roots.
Proof. intros Hl Hc r Hr%same_reachable. destruct (Hc r Hr) as [Hw Hread]. split; [done|by apply Hl]. Qed.
End same_objects.

Lemma same_fits h h' roots : (∀ r, children_of h' r = children_of h r) → (∀ r, size_of h' r = size_of h r) →
  graph_fits h roots → graph_fits h' roots.
Proof.
  intros Hch Hz Hf order Hp. rewrite (same_cost h h' Hch Hz). apply Hf. by apply (same_preorder h' h).
Qed.

(** What a freeze admits, the verification accepts. *)
Lemma freeze_verify_cases h s root limits :
  heap_ok h → scratch_ok s → closed h [root] → graph_fits h [root] →
  ∃ result h' s', freeze h s root limits = Ret (result, h', s') ∧
    (result = Ok tt → ∃ cost s'', verify_frozen h' s' root limits = Ret (Ok cost, s'')).
Proof.
  intros H Hs Hc Hfit. destruct (freeze_cases h s root limits H Hs Hc Hfit) as (order & Hp & result & h' & s' & E & Hs' & Hres).
  exists result, h', s'. split; [done|]. intros ->. destruct (within limits _) eqn:Ew; [|by destruct Hres].
  destruct Hres as [_ Hf]. pose proof (λ r, frozen_object h h' root order r Hp Hf) as Ho.
  assert (Hch : ∀ r, children_of h' r = children_of h r) by (intros r; unfold children_of; by rewrite Ho).
  assert (Hz : ∀ r, size_of h' r = size_of h r) by (intros r; unfold size_of; by rewrite Ho).
  assert (Hc' : closed h' [root]).
  { intros r Hr. apply (same_reachable h h' Hch) in Hr. destruct (Hc r Hr) as [Hw [[f o] Hread]]. split; [done|].
    rewrite (fz_set _ _ _ Hf r Hr), Hread. by eexists. }
  destruct (verify_frozen_cases h' s' root limits order (fz_ok _ _ _ Hf) Hs' Hc' (same_preorder h h' Hch _ _ _ Hp))
    as (res & s'' & E' & _ & Hres); [rewrite (same_cost h h' Hch Hz); by apply Hfit|].
  rewrite (same_cost h h' Hch Hz), Ew in Hres. destruct Hres as [[_ ->]|[(r & Hr & Hn) _]]; [by eexists _, _|].
  apply (same_reachable h h' Hch) in Hr. rewrite (fz_set _ _ _ Hf r Hr) in Hn.
  destruct (Hc r Hr) as [_ [[f o] Hread]]. by rewrite Hread in Hn.
Qed.

(** *** Snapshots *)

Lemma snapshot_cases h s roots limits order :
  heap_ok h → scratch_ok s → closed h roots → preorder h roots [] order → cost_fits (graph_cost h roots order) →
  ∃ result s', snapshot_ordinals h s roots limits = Ret (result, s') ∧ scratch_ok s' ∧
    if within limits (graph_cost h roots order) then
      (∀ r o, reachable h roots r → object_of h r = Some o → shape_host_attachment o = false) ∧ result = Ok order ∨
      (∃ r o, reachable h roots r ∧ object_of h r = Some o ∧ shape_host_attachment o = true) ∧ result = Err BoundaryViolation
    else ∃ fault, result = Err fault.
Proof.
  intros H Hs Hc Hp Hfit. pose proof (preorder_reachable h roots order Hp) as Hreach.
  destruct (walk_spec h s roots limits _ _ order H Hs Hc (snapshot_check_answers h) Hp Hfit) as (res & s1 & E & Hres).
  unfold snapshot_ordinals. rewrite E. cbn [mbind exec_bind]. destruct res as [cost|fault].
  - destruct Hres as (-> & Hwi & Hall & Hw & Eo). eexists _, _. split; [done|]. split; [apply Hw|]. rewrite Hwi. left.
    split; [|by rewrite Eo]. intros r o Hr%Hreach Eor. rewrite list.Forall_forall in Hall. specialize (Hall r Hr).
    rewrite Eor in Hall. by destruct (shape_host_attachment o).
  - destruct Hres as [Hs' Hst]. eexists _, _. split; [done|]. split; [done|].
    destruct (within limits (graph_cost h roots order)) eqn:Ew; [|by eexists].
    right. destruct Hst as [[_ Hw]|(v1 & r & v2 & -> & _ & Hr)]; [congruence|].
    assert (reachable h roots r) by (apply Hreach; rewrite elem_of_app, elem_of_cons; tauto).
    destruct (object_of h r) as [o|] eqn:Er; [|done]. destruct (shape_host_attachment o) eqn:Ea; simplify_eq.
    split; [|done]. by exists r, o.
Qed.
End GraphModes.
