(* ===== verification/HeapSteps.v ===== *)
(** * Heaps a machine can reach

    [heap_step]: one operation of a machine on its heap, under what the machine
    owes it: a fresh key names a fresh allocation, writes and frees go through
    live references, and the roots of a collection reach live objects only.
    Along every sequence of steps the accounts stay exact. *)

From stdpp Require Import base numbers option gmap list relations.
From S2P Require Import Prelude Fault Value Pages TextViews SlotTable TextViewsInv TextViewsBatch MapIndex Heap Objects Ledger HeapInv HeapOps HeapAlloc HeapSweep Graph GraphTables GraphWalk GraphModes.

Section HeapSteps.
Context `{HT : HeapTypes} `{HL : !HeapLaws} `{HM : HostMemory}.

(** The object fits the account. *)
Definition charge_fits (h : Heap) (object : Obj) : Prop :=
  (hp_used_bytes h + heap_base_cost object
    + new_charge (hp_shared_allocations h) (shared_allocation object) <= USIZE_MAX)%N.

(** [*heap.get_mut(r) = object; heap.recharge(r)]. *)
Definition write (h : Heap) (r : ObjRef) (object : Obj) : exec Heap := h ← put h r object; recharge h r.

Inductive heap_step (h : Heap) : Heap → Prop :=
| step_alloc object r h' : slot_room h → agrees (hp_shared_allocations h) (shared_allocation object) →
    charge_fits h object → alloc h object = Ret (r, h') → heap_step h h'
| step_try_alloc object result h' : (hp_cap_bytes h <= USIZE_MAX)%N → slot_room h → object_fits object →
    agrees (hp_shared_allocations h) (shared_allocation object) →
    try_alloc h object = Ret (result, h') → heap_step h h'
| step_text_view_list b result h' : (hp_cap_bytes h <= USIZE_MAX)%N → slot_room h → batch_ok h b →
    (lenN (tb_views b) < SLOT_LIMIT)%N → try_alloc_text_view_list h b = Ret (result, h') → heap_step h h'
| step_reserve count ok h' : slots_room h count → reserve_precharged_slots h count = Ret (ok, h') → heap_step h h'
| step_write r object h' : is_reference r = false → live h r →
    agrees (hp_shared_allocations h) (shared_allocation object) → charge_fits h object →
    write h r object = Ret h' → heap_step h h'
| step_freeze s root limits result s' h' : scratch_ok s → closed h [root] → graph_fits h [root] →
    freeze h s root limits = Ret (result, h', s') → heap_step h h'
| step_free r h' : live h r → free h r = Ret h' → heap_step h h'
| step_push_root r : heap_step h (push_host_root h r)
| step_pop_root r h' : pop_host_root h r = Ret h' → heap_step h h'
| step_cache_digest r ty digest h' : (obj_generation r <= U32_MAX)%N →
    cache_digest_for h r ty digest = Ret h' → heap_step h h'
| step_collect s roots s' h' : scratch_ok s → closed h (roots ++ host_roots h) → graph_fits h (roots ++ host_roots h) →
    collect h s roots = Ret (h', s') → heap_step h h'.

Lemma host_roots_ok h roots : heap_ok h → heap_ok (set_host_roots h roots).
Proof. intros []. by constructor. Qed.

Lemma is_frozen_live h r : is_frozen h r = Ret true → is_Some (read h r).
Proof.
  unfold is_frozen, read. destruct (is_reference r).
  - intros [= E]. apply bool_decide_eq_true in E as [[o v] ->]. by eexists.
  - unfold entry_at. destruct (page_get (hp_pages h) (obj_slot r)) as [e|]; [|done]. simpl.
    unfold entry_read. destruct (en_generation e =? obj_generation r)%N; [|done]. simpl.
    destruct (en_state e) as [[hd o]|]; [|done]. by eexists.
Qed.

Lemma cache_digest_ok h r ty digest h' :
  heap_ok h → (obj_generation r <= U32_MAX)%N → cache_digest_for h r ty digest = Ret h' →
  heap_ok h' ∧ hp_pages h' = hp_pages h.
Proof.
  intros H Hw. unfold cache_digest_for. destruct (is_frozen h r) as [frozen| |] eqn:Ef; simpl; try done.
  destruct frozen; simpl; [|done]. intros [= <-]. split; [|done].
  pose proof (ho_digests h H) as Hd. destruct H. constructor; try done. intros r' d Hr'. simpl in Hr'.
  apply lookup_insert_Some in Hr' as [[<- <-]|[_ Hr']]; [|by apply Hd].
  split; [by apply is_frozen_live|]. split; [|done]. simpl. case_match; [by apply N.eqb_eq|done].
Qed.

Lemma write_spec h r object frozen old :
  heap_ok h → is_reference r = false → read h r = Some (frozen, old) →
  agrees (hp_shared_allocations h) (shared_allocation object) → charge_fits h object →
  ∃ h', write h r object = Ret h' ∧ heap_ok h' ∧ (heap_exact h → heap_exact h') ∧
    ∀ r', read h' r' = if decide (r' = r) then Some (frozen, object) else read h r'.
Proof.
  intros H Hr Hread Ha Hfit. destruct (put_spec h r frozen old object H Hr Hread) as (h1 & E1 & H1 & Eu & Es & Hx1 & Hr1).
  destruct (recharge_spec h1 r frozen object H1 Hr) as (h2 & E2 & H2 & Hr2 & Hx2).
  - by rewrite Hr1, decide_True.
  - by rewrite Es.
  - rewrite Eu, Es. exact Hfit.
  - exists h2. unfold write. rewrite E1. simpl. rewrite E2. split_and!; [done|done|tauto|].
    intros r'. by rewrite Hr2, Hr1.
Qed.

Lemma free_spec h r : heap_ok h → live h r → ∃ h', free h r = Ret h' ∧ freed h h' r.
Proof.
  intros H [Hw [[f o] Hr]]. destruct (is_reference r) eqn:Er; [by eapply free_view_spec|by eapply free_object_spec].
Qed.

Lemma heap_step_ok h h' : heap_step h h' → heap_ok h → heap_exact h → heap_ok h' ∧ heap_exact h'.
Proof.
  intros Hst H Hx. destruct Hst as [object r h' Hroom Ha Hfit E|object result h' Hcap Hroom Hfit Ha E|b result h' Hcap Hroom Hb Hc E|
    count ok h' Hroom E|r object h' Hr Hl Ha Hfit E|s root limits result s' h' Hs Hc Hf E|r h' Hl E|r|r h' E|r ty digest h' Hw E|
    s roots s' h' Hs Hc Hf E].
  - destruct (alloc_spec h object H Hroom Ha Hfit) as (r1 & h1 & E1 & Hal). rewrite E1 in E. simplify_eq.
    split; [apply Hal|by apply (al_exact _ _ _ _ Hal)].
  - destruct (try_alloc_cases h object H Hcap Hroom Hfit Ha) as (res & h1 & E1 & Hres). rewrite E1 in E. simplify_eq.
    destruct (_ && _); [destruct Hres as (r & _ & Hal); split; [apply Hal|by apply (al_exact _ _ _ _ Hal)]|].
    destruct Hres as [_ Hrl]. split; [apply Hrl|by eapply relaid_exact].
  - destruct (try_alloc_list_cases h b H Hcap Hroom Hb Hc) as (res & h1 & E1 & Hres). rewrite E1 in E. simplify_eq.
    destruct result; [destruct Hres as (_ & owner & refs & _ & Hal)|destruct Hres as [Hres _]]; (split; [by apply Hres||apply Hal|]).
    + by apply (ll_exact _ _ _ _ _ _ Hal).
    + by apply (rf_exact _ _ Hres).
  - destruct (reserve_precharged_spec h count H Hroom) as (ok1 & h1 & E1 & Hrl & _). rewrite E1 in E. simplify_eq.
    split; [apply Hrl|by eapply relaid_exact].
  - destruct Hl as [_ [[f o] Hread]]. destruct (write_spec h r object f o H Hr Hread Ha Hfit) as (h1 & E1 & H1 & Hx1 & _).
    rewrite E1 in E. simplify_eq. split; [done|by apply Hx1].
  - destruct (freeze_cases h s root limits H Hs Hc Hf) as (order & _ & res & h1 & s1 & E1 & _ & Hres). rewrite E1 in E. simplify_eq.
    destruct (within _ _); [destruct Hres as [_ Hfz]; split; [apply Hfz|by apply (fz_exact _ _ _ Hfz)]|].
    by destruct Hres as [_ ->].
  - destruct (free_spec h r H Hl) as (h1 & E1 & Hfr). rewrite E1 in E. simplify_eq. split; [apply Hfr|by apply (fr_exact _ _ _ Hfr)].
  - split; [by apply host_roots_ok|done].
  - unfold pop_host_root in E. destruct (hp_host_roots h) as [|top roots]; [done|]. case_bool_decide; [|done]. simplify_eq/=.
    split; [by apply host_roots_ok|done].
  - destruct (cache_digest_ok h r ty digest h' H Hw E) as [H' Ep]. split; [done|]. intros s e hd o. rewrite Ep. apply Hx.
  - destruct (collect_cases h s roots H Hs Hc Hf) as (h1 & s1 & E1 & _ & Hcl). rewrite E1 in E. simplify_eq.
    split; [apply Hcl|by apply (cl_exact _ _ _ Hcl)].
Qed.
End HeapSteps.
