(* ===== verification/HeapProps.v ===== *)
(** * What the heap promises

    The theorems about a machine's heap and the walks over it, each with a
    concrete heap that satisfies its hypotheses: [demo], built by four
    allocations, holds a list that reaches a text and itself, and a text
    nothing reaches. *)

From stdpp Require Import base numbers option gmap strings list relations.
From S2P Require Import Prelude Fault Value Pages TextViews SlotTable TextViewsInv TextViewsBatch MapIndex MapIndexFacts Heap Objects Ledger HeapInv HeapOps HeapAlloc HeapSweep Graph GraphTables GraphWalk GraphModes HeapSteps.

(** ** Lemmas the theorems and their witnesses share *)

Section shared.
Context `{HT : HeapTypes} `{HL : !HeapLaws} `{HM : HostMemory}.

Lemma heap_new_exact cap : heap_exact (heap_new cap).
Proof. intros s e header object Hs. done. Qed.

Lemma heap_steps_ok h h' : rtc heap_step h h' → heap_ok h → heap_exact h → heap_ok h' ∧ heap_exact h'.
Proof.
  induction 1 as [|h1 h2 h3 Hst _ IH]; [done|]. intros H Hx.
  destruct (heap_step_ok h1 h2 Hst H Hx). by apply IH.
Qed.

(** A set of live references that holds the roots and all its children. *)
Lemma closed_set h roots rs :
  Forall (.∈ rs) roots → Forall (λ r, live h r ∧ Forall (.∈ rs) (children_of h r)) rs → closed h roots.
Proof.
  rewrite !list.Forall_forall. intros Hr Hs r (root & Hroot & Hp).
  assert (Hin : r ∈ rs); [|by apply Hs]. apply Hr in Hroot. clear Hr.
  induction Hp as [|x y z Hxy _ IH]; [done|]. apply IH. destruct (Hs x Hroot) as [_ Hc].
  rewrite list.Forall_forall in Hc. by apply Hc.
Qed.

Lemma preorder_det h rs seen out out' : preorder h rs seen out → preorder h rs seen out' → out = out'.
Proof.
  intros H1. revert out'. induction H1 as [seen|r rs seen out Hin _ IH|r rs seen mid out Hin _ IH1 _ IH2]; intros out' H2;
    inversion H2; subst; try done.
  - by apply IH.
  - match goal with H : preorder _ (children_of _ _) _ ?m |- _ => assert (mid = m) as <- by (by apply IH1) end. by apply IH2.
Qed.

Lemma graph_fits_order h roots order :
  preorder h roots [] order → cost_fits (graph_cost h roots order) → graph_fits h roots.
Proof. intros Hp Hf order' Hp'. by rewrite <-(preorder_det h roots [] _ _ Hp Hp'). Qed.
End shared.

(** ** A heap to witness them on *)

(** Texts and bytes as an allocation key with a capacity; builders, patterns
    and artifacts as a size. *)
#[local] Instance plain_texts : TextTypes := {| Owner := N * N; View := N * N; owner_key := fst; empty_view := (0, 0)%N |}.
#[local] Instance plain : Payloads := {|
  payload_texts := plain_texts;
  SharedText := N * N;
  text_allocation := id;
  text_is_unique := λ _, false;
  text_of_view := λ owner _, owner;
  SharedBytes := N * N;
  bytes_allocation := id;
  bytes_is_unique := λ _, false;
  NativeStringBuilder := N;
  builder_capacity := id;
  builder_try_clone := λ reserve n, if reserve n then Some n else None;
  NativeByteBuffer := N;
  buffer_capacity := id;
  buffer_try_clone := λ reserve n, if reserve n then Some n else None;
  Regex := N * N;
  regex_memory_usage := fst;
  regex_source_len := snd;
  Artifact := N;
  artifact_key := id;
  artifact_is_unique := λ _, false;
|}.
#[local] Instance ample : HostMemory := λ _, true.

Definition ret_or {A} (a : A) (x : exec A) : A := match x with Ret a => a | _ => a end.

Definition str (key capacity : N) : Object := OStr (key, capacity).
Definition demo_text : ObjRef := mkObjRef 0 0.
Definition demo_list : ObjRef := mkObjRef 1 0.
Definition demo_junk : ObjRef := mkObjRef 2 0.
Definition demo_ring : Object := OList [VObj demo_text; VObj demo_list] epoch_default.
Definition demo0 : Heap := heap_new 1000.
Definition demo1 : Heap := (ret_or (demo_text, demo0) (alloc demo0 (str 7 10))).2.
Definition demo2 : Heap := (ret_or (demo_text, demo0) (alloc demo1 (OList [VObj demo_text] epoch_default))).2.
Definition demo3 : Heap := ret_or demo0 (write demo2 demo_list demo_ring).
Definition demo : Heap := (ret_or (demo_text, demo0) (alloc demo3 (str 8 20))).2.

Definition returns {A} (x : exec A) : bool := match x with Ret _ => true | _ => false end.

Lemma ret_or_ret {A} (a : A) x : returns x = true → x = Ret (ret_or a x).
Proof. by destruct x. Qed.

Lemma ret_or_pair {A B} (p : A * B) x a : returns x = true → (ret_or p x).1 = a → x = Ret (a, (ret_or p x).2).
Proof. destruct x as [[]| |]; try done. by intros _ <-. Qed.

(** The hypotheses on concrete heaps are decided by evaluation. *)
Ltac by_compute := vm_compute; first [reflexivity | discriminate | by eexists | by intros [=]].

Lemma agrees_at (m : SharedAllocations) key capacity :
  match m !! key with Some charge => ch_capacity charge = capacity | None => True end → agrees m (Some (key, capacity)).
Proof. intros H k c charge [= <- <-] E. by rewrite E in H. Qed.

Lemma demo_steps : rtc heap_step demo0 demo.
Proof.
  apply (rtc_l _ _ demo1); [apply (step_alloc demo0 (str 7 10) demo_text)|apply (rtc_l _ _ demo2)].
  - right; right. by_compute.
  - apply agrees_at. by_compute.
  - by_compute.
  - apply ret_or_pair; by_compute.
  - apply (step_alloc demo1 (OList [VObj demo_text] epoch_default) demo_list);
      [right; left; by_compute|done|by_compute|apply ret_or_pair; by_compute].
  - apply (rtc_l _ _ demo3); [apply (step_write demo2 demo_list demo_ring)|apply rtc_once, (step_alloc demo3 (str 8 20) demo_junk)].
    + done.
    + split; by_compute.
    + done.
    + by_compute.
    + apply ret_or_ret. by_compute.
    + right; left. by_compute.
    + apply agrees_at. by_compute.
    + by_compute.
    + apply ret_or_pair; by_compute.
Qed.

Lemma demo_ok : heap_ok demo ∧ heap_exact demo.
Proof. apply (heap_steps_ok demo0 demo demo_steps); [apply heap_new_ok|apply heap_new_exact]. Qed.

Lemma demo_closed : closed demo [demo_list].
Proof.
  apply (closed_set demo [demo_list] [demo_list; demo_text]).
  - constructor; [by left|constructor].
  - assert (Ec : children_of demo demo_list = [demo_text; demo_list]) by by_compute.
    assert (Et : children_of demo demo_text = []) by by_compute.
    constructor; [|constructor; [|constructor]]; (split; [split; by_compute|]); rewrite ?Ec, ?Et; repeat constructor;
      by apply elem_of_list_In; vm_compute; auto.
Qed.

Lemma demo_order : preorder demo [demo_list] [] [demo_list; demo_text].
Proof.
  assert (Ec : children_of demo demo_list = [demo_text; demo_list]) by by_compute.
  assert (Et : children_of demo demo_text = []) by by_compute.
  apply (pre_visit _ _ _ _ [demo_list; demo_text]); [apply not_elem_of_nil|rewrite Ec|constructor].
  apply (pre_visit _ _ _ _ [demo_list; demo_text]); [by intros [?|?%not_elem_of_nil]%elem_of_cons|rewrite Et; constructor|].
  apply pre_skip; [by left|constructor].
Qed.

Lemma demo_fits : graph_fits demo [demo_list].
Proof. apply (graph_fits_order _ _ _ demo_order). split_and!; by_compute. Qed.

(** ** The theorems *)

Section theorems.
Context `{HT : HeapTypes} `{HL : !HeapLaws} `{HM : HostMemory}.

(** C4. The accounts of a heap are exact.  Along every sequence of operations
    from an empty heap, the byte count is the sum of what the live entries, the
    shared allocations and the text views are charged, every shared allocation
    is charged once and counts its holders, the object count is the number of
    live objects, the free list and the generations fit the table, every
    cached digest is of a live object, and every entry charges its object at
    its present size. *)
Theorem heap_accounts cap h : rtc heap_step (heap_new cap) h → heap_ok h ∧ heap_exact h.
Proof. intros Hs. apply (heap_steps_ok _ _ Hs); [apply heap_new_ok|apply heap_new_exact]. Qed.

(** A checked allocation on a heap in order succeeds exactly when the cost
    is within the cap and a slot can be had; it then returns a reference that
    was dead, reads the new object there and the same object everywhere else,
    and charges exactly the base cost with the bytes of a shared allocation
    not yet held.  Otherwise the object comes back and no reference reads
    anything else. *)
Theorem try_alloc_exact h object :
  heap_ok h → (hp_cap_bytes h <= USIZE_MAX)%N → slot_room h → object_fits object →
  agrees (hp_shared_allocations h) (shared_allocation object) →
  ∃ result h', try_alloc h object = Ret (result, h') ∧
    if (hp_used_bytes h + checked_cost h object <=? hp_cap_bytes h)%N && slot_ready h
    then ∃ r, result = Ok r ∧ allocated h h' object r ∧ (hp_used_bytes h' <= hp_cap_bytes h')%N
    else result = Err object ∧ (∀ r, read h' r = read h r) ∧ hp_used_bytes h' = hp_used_bytes h.
Proof.
  intros H Hcap Hroom Hfits Ha. destruct (try_alloc_cases h object H Hcap Hroom Hfits Ha) as (result & h' & E & Hres).
  exists result, h'. split; [done|]. destruct (_ <=? _)%N eqn:El; simpl in *; [destruct (slot_ready h)|].
  - destruct Hres as (r & -> & Hal). exists r. split_and!; [done|done|]. apply N.leb_le in El.
    rewrite (al_used _ _ _ _ Hal), (al_cap _ _ _ _ Hal). destruct (allocation_cost_spec h object Hfits) as [_ Hle]. lia.
  - destruct Hres as [-> Hrl]. split_and!; [done|intros r; by apply relaid_read|by rewrite (rl_rest _ _ Hrl)].
  - destruct Hres as [-> Hrl]. split_and!; [done|intros r; by apply relaid_read|by rewrite (rl_rest _ _ Hrl)].
Qed.

(** Freeing a live reference revokes it: the call does not panic, the
    reference then reads nothing, every other reference reads what it did, one
    object less is counted, and the accounts stay exact. *)
Theorem free_revokes h r : heap_ok h → live h r → ∃ h', free h r = Ret h' ∧ freed h h' r.
Proof. apply free_spec. Qed.

(** A split of one text into views is all or nothing.  The call returns a
    list only when its whole cost is within the cap; the list then holds fresh
    references that read the views of the batch in order, and the account grew
    by exactly the cost of the views, their list and the text not yet held.
    When it refuses, every reference reads what it did and the account is as
    before, and it refuses only a batch past the cap or of a dead view, when
    the host is out of memory, or when the view table is at its width. *)
Theorem text_view_list_exact h b :
  heap_ok h → (hp_cap_bytes h <= USIZE_MAX)%N → slot_room h → batch_ok h b → (lenN (tb_views b) < SLOT_LIMIT)%N →
  ∃ result h', try_alloc_text_view_list h b = Ret (result, h') ∧
    match result with
    | Some r => (hp_used_bytes h + batch_cost h b <= hp_cap_bytes h)%N ∧
        ∃ owner refs, batch_owner (hp_text_views h) b = Some owner ∧ list_allocated h h' b owner r refs
    | None => list_refused h h' ∧ batch_refusable h b
    end.
Proof. apply try_alloc_list_cases. Qed.

(** C8. The one walk of every graph mode ends, visits exactly the reachable
    references, each once and in the preorder of the shapes' child order, and
    its cost is the sum over them.  It succeeds exactly when the visitor rejects
    none of them and the whole cost is within the limits; otherwise its fault is
    the limit fault of a graph beyond the limits, or the first rejection. *)
Theorem walk_exact h s roots limits visit verdict :
  heap_ok h → scratch_ok s → closed h roots → answers_for h visit verdict → graph_fits h roots →
  ∃ order, NoDup order ∧ (∀ r, r ∈ order ↔ reachable h roots r) ∧ preorder h roots [] order ∧
  ∃ result s', walk h s roots limits visit = Ret (result, s') ∧
    match result with
    | Ok cost => cost = graph_cost h roots order ∧ within limits cost = true ∧
        Forall (λ r, verdict r = None) order ∧ gs_order s' = order
    | Err fault => stops limits verdict order (graph_cost h roots order) fault
    end.
Proof.
  intros H Hs Hc Hv Hf. destruct (closed_preorder h roots H Hc) as [order Hp]. exists order.
  split_and!; [eapply preorder_nodup; [done|constructor]|by apply preorder_reachable|done|].
  destruct (walk_spec h s roots limits visit verdict order H Hs Hc Hv Hp (Hf order Hp)) as (result & s' & E & Hres).
  exists result, s'. split; [done|]. destruct result; [|apply Hres]. destruct Hres as (?&?&?&?&?). done.
Qed.

(** C2. A collection keeps exactly what its roots and the host roots reach.
    Every reachable reference reads what it did, frozen bit included, every
    other reference reads nothing, the byte count does not grow, and the
    accounts stay exact. *)
Theorem collect_exact h s roots :
  heap_ok h → scratch_ok s → closed h (roots ++ host_roots h) → graph_fits h (roots ++ host_roots h) →
  ∃ h' s', collect h s roots = Ret (h', s') ∧ scratch_ok s' ∧ collected h h' (roots ++ host_roots h).
Proof. apply collect_cases. Qed.

(** C24. A freeze is all or nothing, and admits what the verification accepts.
    Beyond the limits it faults and leaves the heap as it was; within them it
    sets the frozen bit of exactly the references under the root, and a later
    verification under the same limits answers for the whole graph. *)
Theorem freeze_exact h s root limits :
  heap_ok h → scratch_ok s → closed h [root] → graph_fits h [root] →
  ∃ order result h' s', preorder h [root] [] order ∧ freeze h s root limits = Ret (result, h', s') ∧
    if within limits (graph_cost h [root] order)
    then result = Ok tt ∧ frozen_under h h' root ∧ ∃ cost s'', verify_frozen h' s' root limits = Ret (Ok cost, s'')
    else result = Err BoundaryLimit ∧ h' = h.
Proof.
  intros H Hs Hc Hf. destruct (freeze_cases h s root limits H Hs Hc Hf) as (order & Hp & result & h' & s' & E & _ & Hres).
  destruct (freeze_verify_cases h s root limits H Hs Hc Hf) as (result2 & h2 & s2 & E2 & Hv). rewrite E in E2.
  injection E2 as <- <- <-. exists order, result, h', s'. split_and!; [done|done|].
  destruct (within _ _); [|done]. destruct Hres as [-> Hfz]. split_and!; [done|done|by apply Hv].
Qed.
End theorems.

(** The index of a map finds every entry.  Indexing the entries of a map in
    any pieces does not panic, and a lookup of a hash through the index yields,
    each once, exactly the positions of the live entries with that hash:
    tombstones, collisions, probe sequences that wrap and the growth of the
    table lose and invent none. *)
Theorem map_index_finds live epoch before after hash :
  (live <= U32_MAX)%N → (lenN before + lenN after <= U32_MAX)%N →
  ∃ i i' entries, extend_index (mkIndex 0 live epoch []) 0 before = Ret i ∧ extend_index i (lenN before) after = Ret i' ∧
    mi_built i' = (lenN before + lenN after)%N ∧
    candidates i' hash = Ret entries ∧ entries ≡ₚ entries_with hash 0 (before ++ after).
Proof.
  intros Hl Hn. pose proof (index_empty 0 live epoch ltac:(done) Hl) as H0.
  destruct (extend_index_spec before _ _ H0) as (i & c & E & H & Eb & _ & _ & Hp); [simpl; lia|]. simpl in *.
  destruct (extend_index_spec after i c H) as (i' & c' & E' & H' & Eb' & _ & _ & Hp'); [lia|].
  destruct (candidates_spec i' c' hash H') as (entries & Ec & Hc).
  exists i, i', entries. rewrite Eb in *. split_and!; [done|done|done|done|].
  rewrite Hc, Hp', Hp, app_nil_r, entries_with_app. by rewrite Permutation_app_comm.
Qed.

(** C25. The walks over an object agree.  Every sendable shape, and no other,
    has a shell; a shell holds no reference, and it has the tag, the charge and
    the shared allocation of the object with its children remapped, so filling
    it needs no further memory; and both the remapped object and the fallible
    clone hold exactly the images of the children, in the same order. *)
Theorem shape_walks_agree `{PL : Payloads} (o : Object) (f : ObjRef → ObjRef) :
  let copy := default o (remap f o) in
  (is_Some (shell o) ↔ sd_boundary (shape o) = Sendable) ∧
  children copy = f <$> children o ∧ tag copy = tag o ∧
  (∀ sh, shell o = Some sh → children sh = [] ∧ tag sh = tag o ∧
     object_base_cost sh = object_base_cost copy ∧ object_shared_allocation sh = object_shared_allocation copy) ∧
  (∀ reserve capacity clone, try_clone_remapped reserve capacity f o = Some clone →
     children clone = children copy ∧ tag clone = tag o).
Proof.
  assert (Hc : children (default o (remap f o)) = f <$> children o ∧ tag (default o (remap f o)) = tag o).
  { destruct (remap f o) as [o'|] eqn:E; simpl; [by apply remap_children|]. by rewrite (remap_none f o E). }
  split_and!; [apply shell_sendable|apply Hc|apply Hc|..].
  - intros sh Hsh. destruct (shell_children o sh Hsh), (shell_cost o sh f Hsh) as [Ep Es].
    split_and!; [done|done| |done]. unfold object_base_cost. by rewrite Ep.
  - intros reserve capacity clone E. destruct Hc as [-> _]. by eapply clone_children.
Qed.

(** ** Their witnesses *)

Lemma heap_accounts_witness : rtc heap_step demo0 demo ∧ heap_ok demo ∧ heap_exact demo.
Proof. split; [exact demo_steps|exact (heap_accounts 1000 demo demo_steps)]. Defined.

Lemma demo_room : slot_room demo.
Proof. right; left. by_compute. Qed.

Lemma try_alloc_exact_witness :
  slot_room demo ∧ ∃ result h', try_alloc demo (str 7 10) = Ret (result, h') ∧
    ∃ r, result = Ok r ∧ allocated demo h' (str 7 10) r ∧ (hp_used_bytes h' <= hp_cap_bytes h')%N.
Proof.
  split; [exact demo_room|]. 
  destruct (try_alloc_exact demo (str 7 10) (proj1 demo_ok)) as (result & h' & E & Hres);
    [by_compute|exact demo_room|by_compute|apply agrees_at; by_compute|].
  exists result, h'. split; [exact E|]. 
  replace (_ && _) with true in Hres by by_compute. exact Hres.
Defined.

Lemma free_revokes_witness : live demo demo_junk ∧ ∃ h', free demo demo_junk = Ret h' ∧ freed demo h' demo_junk.
Proof.
  assert (Hl : live demo demo_junk) by (split; by_compute). split; [exact Hl|exact (free_revokes demo demo_junk (proj1 demo_ok) Hl)].
Defined.

Definition demo_batch : TextViewBatch := mkBatch (NewOwner (9, 5)%N) (9, 5)%N [(0, 2)%N; (3, 2)%N].

Lemma demo_batch_fits : ¬ batch_refusable demo demo_batch.
Proof.
  intros [Hw|[Hw|[[n Hw]|[Hw|Hw]]]].
  - revert Hw. apply N.le_ngt. by_compute.
  - revert Hw. by_compute.
  - done.
  - revert Hw. apply N.lt_nge. by_compute.
  - revert Hw. apply N.le_ngt. by_compute.
Qed.

Lemma text_view_list_exact_witness :
  batch_ok demo demo_batch ∧ ∃ r h', try_alloc_text_view_list demo demo_batch = Ret (Some r, h') ∧
    ∃ owner refs, list_allocated demo h' demo_batch owner r refs.
Proof.
  assert (Hb : batch_ok demo demo_batch).
  { split; [apply agrees_at; by_compute|]. intros owner Ho. vm_compute in Ho. by injection Ho as <-. }
  split; [exact Hb|].
  destruct (text_view_list_exact demo demo_batch (proj1 demo_ok)) as (result & h' & E & Hres);
    [by_compute|exact demo_room|exact Hb|by_compute|].
  destruct result as [r|].
  - destruct Hres as (_ & owner & refs & _ & Hal). exists r, h'. split; [exact E|]. exists owner, refs. exact Hal.
  - exfalso. destruct Hres as [_ Hw]. by apply demo_batch_fits.
Defined.

Lemma walk_exact_witness :
  closed demo [demo_list] ∧ ∃ result s', walk demo scratch_default [demo_list] UNBOUNDED accept_all = Ret (result, s') ∧
    gs_order s' = [demo_list; demo_text].
Proof.
  split; [exact demo_closed|].
  destruct (walk_exact demo scratch_default [demo_list] UNBOUNDED accept_all (λ _, None) (proj1 demo_ok)
    scratch_default_ok demo_closed (accept_all_answers demo) demo_fits) as (order & _ & _ & Hp & result & s' & E & Hres).
  exists result, s'. split; [exact E|]. rewrite (preorder_det demo _ _ _ _ Hp demo_order) in Hres.
  destruct result as [cost|fault]; [apply Hres|]. exfalso.
  destruct Hres as [[_ Hw]|(v1 & r & v2 & _ & _ & Hr)]; [|discriminate]. revert Hw. by_compute.
Defined.

Lemma demo_roots : [demo_list] ++ host_roots demo = [demo_list].
Proof. by_compute. Qed.

Lemma collect_exact_witness :
  ∃ h' s', collect demo scratch_default [demo_list] = Ret (h', s') ∧
    read h' demo_list = read demo demo_list ∧ read demo demo_junk ≠ None ∧ read h' demo_junk = None.
Proof.
  destruct (collect_exact demo scratch_default [demo_list] (proj1 demo_ok) scratch_default_ok) as (h' & s' & E & _ & Hc);
    [rewrite demo_roots; exact demo_closed|rewrite demo_roots; exact demo_fits|].
  exists h', s'. rewrite demo_roots in Hc. split_and!; [exact E| |by_compute|].
  - apply (cl_kept _ _ _ Hc), reachable_root. by left.
  - apply (cl_freed _ _ _ Hc); [by_compute|]. rewrite <-(preorder_reachable demo _ _ demo_order).
    by intros [?|[?|?%not_elem_of_nil]%elem_of_cons]%elem_of_cons.
Defined.

Lemma freeze_exact_witness :
  ∃ result h' s', freeze demo scratch_default demo_list UNBOUNDED = Ret (result, h', s') ∧
    frozen_under demo h' demo_list ∧ ∃ cost s'', verify_frozen h' s' demo_list UNBOUNDED = Ret (Ok cost, s'').
Proof.
  destruct (freeze_exact demo scratch_default demo_list UNBOUNDED (proj1 demo_ok) scratch_default_ok demo_closed demo_fits)
    as (order & result & h' & s' & Hp & E & Hres).
  rewrite (preorder_det demo _ _ _ _ Hp demo_order) in Hres. exists result, h', s'. split; [exact E|].
  destruct (within _ _) eqn:Ew; [apply Hres|]. exfalso. revert Ew. by_compute.
Defined.

Lemma map_index_finds_witness :
  ∃ i i' entries, extend_index (mkIndex 0 0 epoch_default []) 0 [Some 5; None; Some 5]%N = Ret i ∧
    extend_index i 3 [Some 6; Some 5]%N = Ret i' ∧ candidates i' 5 = Ret entries ∧ entries ≡ₚ [0; 2; 4]%N.
Proof.
  destruct (map_index_finds 0 epoch_default [Some 5; None; Some 5]%N [Some 6; Some 5]%N 5) as (i & i' & entries & E & E' & _ & Ec & Hp);
    [by_compute|by_compute|]. exists i, i', entries. split_and!; [exact E|exact E'|exact Ec|exact Hp].
Defined.

(** ** Generations and trimmed pages *)


