(* ===== verification/HeapFrame.v ===== *)
(** * What an operation leaves of the heap's tables

    Facts that follow from the operations alone, without the invariant: the
    capacities of the ledger, the slots and the cap after an allocation or a
    collection, the host roots after a write.  The copies of [Transfer] chain
    many operations and need their hypotheses at each. *)

From stdpp Require Import base numbers option gmap list relations.
From S2P Require Import Prelude Fault Value Pages TextViews SlotTable TextViewsInv TextViewsBatch Heap Ledger HeapInv HeapOps HeapAlloc HeapSweep Graph GraphTables GraphWalk GraphModes HeapSteps.

(** Invert the binds of a call that returned. *)
Ltac inv_bind H :=
  repeat match type of H with
  | (_ ≫= _) = Ret _ =>
      let E := fresh "E" in let a := fresh "a" in apply bind_Ret in H as (a & E & H);
      repeat match goal with x : (_ * _)%type |- _ => destruct x end; cbn [mbind exec_bind] in H
  | (guard_panic ?b;; _) = Ret _ => destruct b; [|discriminate H]; cbn [guard_panic mbind exec_bind] in H
  end.

(** Every allocation of the ledger has the capacity [cap] gives its key. *)
Definition capped (cap : N → N) (m : SharedAllocations) : Prop :=
  ∀ key charge, m !! key = Some charge → ch_capacity charge = cap key.

Definition shared_capped (cap : N → N) (shared : option (N * N)) : Prop :=
  ∀ key capacity, shared = Some (key, capacity) → capacity = cap key.

Lemma capped_agrees cap m shared : capped cap m → shared_capped cap shared → agrees m shared.
Proof. intros Hm Hs key capacity charge Es Ek. by rewrite (Hm key charge Ek), (Hs key capacity Es). Qed.

Lemma remove_references_capped cap m key count released m' :
  remove_shared_references m key count = Ret (released, m') → capped cap m → capped cap m'.
Proof.
  unfold remove_shared_references. destruct (m !! key) as [charge|] eqn:Ek; [|done]. intros E Hm. inv_bind E.
  destruct (negb _); simplify_eq; intros k c Hk.
  - apply lookup_insert_Some in Hk as [[<- <-]|[_ Hk]]; [by apply (Hm key charge)|by apply Hm].
  - apply lookup_delete_Some in Hk as [_ Hk]. by apply Hm.
Qed.

Lemma add_references_capped cap m shared count added m' :
  add_shared_references m shared count = Ret (added, m') → capped cap m → shared_capped cap shared → capped cap m'.
Proof.
  unfold add_shared_references. intros E Hm Hs. destruct (count =? 0)%N; [by simplify_eq|].
  destruct shared as [[key capacity]|]; [|by simplify_eq]. destruct (m !! key) as [charge|] eqn:Ek.
  - inv_bind E. destruct (ch_capacity charge =? capacity)%N; [|discriminate]. cbn in E. inv_bind E. simplify_eq.
    intros k c [[<- <-]|[_ Hk]]%lookup_insert_Some; [by apply (Hm key charge)|by apply Hm].
  - simplify_eq. intros k c [[<- <-]|[_ Hk]]%lookup_insert_Some; [by apply (Hs _ _ eq_refl)|by apply Hm].
Qed.

Section HeapFrame.
Context `{HT : HeapTypes} `{HL : !HeapLaws} `{HM : HostMemory}.

(** *** Allocation *)

Lemma install_slots h header object r h' :
  install_entry h header object = Ret (r, h') →
  (hp_slots h' <= hp_slots h + 1)%N ∧ hp_shared_allocations h' = hp_shared_allocations h.
Proof.
  unfold install_entry. intros E. destruct (hp_free h) as [|slot free].
  - apply bind_Ret in E as (h1 & E1 & E).
    assert (H1 : hp_slots h1 = hp_slots h ∧ hp_shared_allocations h1 = hp_shared_allocations h).
    { destruct (_ =? _)%N; [|by simplify_eq]. unfold add_page in E1. inv_bind E1. by simplify_eq. }
    destruct H1 as [<- <-]. inv_bind E. simplify_eq. simpl. split; [|done]. unfold add_usize in *.
    repeat case_match; simplify_eq; lia.
  - inv_bind E. simplify_eq. simpl. split; [lia|done].
Qed.

Lemma alloc_slots h object r h' : alloc h object = Ret (r, h') → (hp_slots h' <= hp_slots h + 1)%N.
Proof.
  unfold alloc. intros E. apply bind_Ret in E as ([added m] & _ & E). inv_bind E. by apply install_slots in E as [? _].
Qed.

Lemma alloc_capped cap h object r h' :
  alloc h object = Ret (r, h') → capped cap (hp_shared_allocations h) →
  shared_capped cap (shared_allocation object) → capped cap (hp_shared_allocations h').
Proof.
  unfold alloc. intros E Hm Hs. apply bind_Ret in E as ([added m] & Ea & E). inv_bind E.
  apply install_slots in E as [_ ->]. simpl. by eapply add_references_capped.
Qed.

(** *** Collection *)

Lemma sweep_shared_capped cap st freed key freed' shared' pending' :
  sweep_shared st freed key = Ret (freed', shared', pending') → capped cap (sw_shared st) → capped cap shared'.
Proof.
  unfold sweep_shared. intros E Hm. destruct key as [key|]; [|by simplify_eq].
  destruct (sw_pending st) as [[pending references]|]; [|by simplify_eq].
  destruct (pending =? key)%N; inv_bind E; simplify_eq; [done|]. by eapply remove_references_capped.
Qed.

Lemma sweep_entry_capped cap keep digests slot e st e' st' :
  sweep_entry keep digests slot e st = Ret (e', st') → capped cap (sw_shared st) → capped cap (sw_shared st').
Proof.
  unfold sweep_entry. intros E Hm. destruct (negb (en_is_live e)); [by simplify_eq|].
  apply bind_Ret in E as (kept & _ & E). destruct kept; [by simplify_eq|].
  apply bind_Ret in E as ([header taken] & _ & E). apply bind_Ret in E as (freed & _ & E).
  apply bind_Ret in E as ([[freed' shared'] pending'] & Es & E). inv_bind E.
  destruct (_ <? _)%N; [|done]. cbn in E. simplify_eq. simpl. by eapply sweep_shared_capped.
Qed.

Lemma sweep_page_frame keep digests page : ∀ slot st page' st',
  sweep_page keep digests slot page st = Ret (page', st') →
  ∀ cap, capped cap (sw_shared st) → capped cap (sw_shared st').
Proof.
  induction page as [|e page IH]; intros slot st page' st' E cap Hm; cbn [sweep_page] in E; [by simplify_eq|].
  apply bind_Ret in E as ([e1 st1] & E1 & E). apply bind_Ret in E as ([page1 st2] & E2 & E). simplify_eq.
  eapply IH; [exact E2|]. by eapply sweep_entry_capped.
Qed.

Lemma sweep_pages_frame keep digests pages : ∀ index st pages' st',
  sweep_pages keep digests index pages st = Ret (pages', st') →
  length pages' = length pages ∧ ∀ cap, capped cap (sw_shared st) → capped cap (sw_shared st').
Proof.
  induction pages as [|page pages IH]; intros index st pages' st' E; cbn [sweep_pages] in E; [by simplify_eq|].
  apply bind_Ret in E as ([page1 st1] & E1 & E). apply bind_Ret in E as ([pages1 st2] & E2 & E). simplify_eq.
  apply IH in E2 as [El Hc]. split; [simpl; by rewrite El|]. intros cap Hm. by eapply Hc, sweep_page_frame.
Qed.

Lemma view_entry_capped cap keep slot e st e' st' :
  view_sweep_entry keep remove_shared_references slot e st = Ret (e', st') →
  capped cap (vs_shared st) → capped cap (vs_shared st').
Proof.
  unfold view_sweep_entry. intros E Hm. destruct (negb (te_is_live e)); [by simplify_eq|].
  apply bind_Ret in E as (kept & _ & E). destruct kept; [by simplify_eq|].
  apply bind_Ret in E as ([root taken] & _ & E). destruct (_ <? _)%N; [|done]. cbn [guard_panic mbind exec_bind] in E.
  apply bind_Ret in E as ([[key roots] free_roots] & _ & E). apply bind_Ret in E as ([released shared] & Er & E).
  inv_bind E. simplify_eq. simpl. by eapply remove_references_capped.
Qed.

Lemma view_page_capped cap keep page : ∀ slot st page' st',
  view_sweep_page keep remove_shared_references slot page st = Ret (page', st') →
  capped cap (vs_shared st) → capped cap (vs_shared st').
Proof.
  induction page as [|e page IH]; intros slot st page' st' E Hm; cbn [view_sweep_page] in E; [by simplify_eq|].
  apply bind_Ret in E as ([e1 st1] & E1 & E). apply bind_Ret in E as ([page1 st2] & E2 & E). simplify_eq.
  eapply IH; [exact E2|]. by eapply view_entry_capped.
Qed.

Lemma view_pages_capped cap keep pages : ∀ index st pages' st',
  view_sweep_pages keep remove_shared_references index pages st = Ret (pages', st') →
  capped cap (vs_shared st) → capped cap (vs_shared st').
Proof.
  induction pages as [|page pages IH]; intros index st pages' st' E Hm; cbn [view_sweep_pages] in E; [by simplify_eq|].
  apply bind_Ret in E as ([page1 st1] & E1 & E). apply bind_Ret in E as ([pages1 st2] & E2 & E). simplify_eq.
  eapply IH; [exact E2|]. by eapply view_page_capped.
Qed.

(** [h'] has no allocation, page or byte of cap that [h] has not. *)
Record shrunk (h h' : Heap) : Prop := {
  sk_capped : ∀ cap, capped cap (hp_shared_allocations h) → capped cap (hp_shared_allocations h');
  sk_pages : (lenN (hp_pages h') <= lenN (hp_pages h))%N;
  sk_cap : hp_cap_bytes h' = hp_cap_bytes h;
}.

Lemma sweep_shrunk h keep h' : sweep h keep = Ret h' → shrunk h h'.
Proof.
  unfold sweep. intros E. apply bind_Ret in E as ([pages st] & E1 & E).
  apply bind_Ret in E as ([freed shared] & E2 & E).
  apply bind_Ret in E as ([[[objects bytes] views] shared2] & E3 & E). inv_bind E. simplify_eq.
  apply sweep_pages_frame in E1 as [El Hc]. constructor; simpl; [|unfold lenN; by rewrite El|done].
  intros cap Hm. unfold view_sweep in E3. apply bind_Ret in E3 as ([vpages vst] & Ev & E3). inv_bind E3. simplify_eq.
  eapply view_pages_capped; [exact Ev|]. simpl. specialize (Hc cap Hm).
  destruct (sw_pending st) as [[key references]|]; [|by simplify_eq]. inv_bind E2. simplify_eq.
  by eapply remove_references_capped.
Qed.

Lemma drop_dead_length {A} (is_live : A → bool) pages : length (drop_dead_pages is_live pages) <= length pages.
Proof.
  induction pages as [|page pages IH]; simpl; [done|]. destruct (drop_dead_pages is_live pages); simpl in *; [|lia].
  destruct (existsb is_live page); simpl; lia.
Qed.

Lemma collect_shrunk h s roots h' s' : collect h s roots = Ret (h', s') → shrunk h h'.
Proof.
  unfold collect. intros E. apply bind_Ret in E as ([walked s1] & _ & E). destruct walked; [|done].
  apply bind_Ret in E as (h1 & E1 & E). simplify_eq. destruct (sweep_shrunk _ _ _ E1) as [H1 H2 H3].
  constructor; simpl; [done| |done]. pose proof (drop_dead_length en_is_live (hp_pages h1)). unfold lenN in *. lia.
Qed.

(** *** Writes *)

(** Replacing an object by one of the same charge touches no account. *)
Lemma refill_spec h r frozen old object :
  heap_ok h → heap_exact h → is_reference r = false → read h r = Some (frozen, old) →
  heap_base_cost object = heap_base_cost old → shared_allocation object = shared_allocation old →
  ∃ h', write h r object = Ret h' ∧ heap_ok h' ∧ heap_exact h' ∧ hp_host_roots h' = hp_host_roots h ∧
    hp_live h' = hp_live h ∧ hp_used_bytes h' = hp_used_bytes h ∧
    ∀ r', read h' r' = if decide (r' = r) then Some (frozen, object) else read h r'.
Proof.
  intros H Hx Hr Hread Eb Es. destruct (read_names h r frozen old Hr Hread) as (e & header & Hn & <-).
  pose proof (names_bytes _ _ _ _ _ H Hn) as Hb.
  destruct (Hx _ _ _ _ (nm_at _ _ _ _ _ Hn) (nm_state _ _ _ _ _ Hn)) as [Ehb Ehs].
  destruct (put_spec h r _ old object H Hr Hread) as (h1 & E1 & H1 & Eu1 & Es1 & Hx1 & Hr1).
  unfold write. rewrite E1. cbn [mbind exec_bind]. unfold put in E1. rewrite (names_live_entry _ _ _ _ _ Hn) in E1.
  injection E1 as E1. set (e1 := mkEntry (en_generation e) (Some (header, object))) in *.
  assert (Hn1 : names h1 r e1 header object).
  { constructor; [done| |done|apply Hn]. rewrite <-E1. simpl. rewrite page_get_set, decide_True; [done|done|..].
    - apply (st_pages _ _ _ _ _ _ (ho_slots h H)).
    - eapply page_get_lt; [apply (st_pages _ _ _ _ _ _ (ho_slots h H))|apply Hn]. }
  assert (Eh : header = mkHeader (hd_frozen header) (heap_base_cost object) (fst <$> shared_allocation object)).
  { rewrite Eb, Es, <-Ehb, <-Ehs. by destruct header. }
  unfold recharge. rewrite (names_live_entry _ _ _ _ _ Hn1). cbn [mbind exec_bind].
  rewrite decide_True by (by rewrite Es). cbn [mbind exec_bind]. rewrite Eu1. unfold sub_usize, add_usize.
  pose proof (ho_used_max h H) as Hmax.
  rewrite (proj2 (N.leb_le (hd_bytes header) _)) by lia. cbn [mbind exec_bind].
  rewrite (proj2 (N.leb_le 0 _)) by lia. cbn [mbind exec_bind].
  rewrite (proj2 (N.leb_le (_ + heap_base_cost object) _)) by lia. cbn [mbind exec_bind].
  rewrite (proj2 (N.leb_le (_ + 0) _)) by lia. cbn [mbind exec_bind]. rewrite <-Eh.
  replace (hp_used_bytes h - hd_bytes header - 0 + heap_base_cost object + 0)%N with (hp_used_bytes h) by lia.
  set (h' := set_account _ _ _).
  destruct (update_spec h1 h' r e1 header object header object (hp_shared_allocations h1) (hp_used_bytes h) H1 Hn1 eq_refl)
    as [Hok Hrd]; [lia|done|eapply ledger_ok_ext; [|apply H1]; intros k; by eapply held_update|].
  exists h'. split_and!; [done|done| |unfold h'; by rewrite <-E1..|].
  - eapply exact_but_update; [exact H1|exact Hn1|done| |by apply Hx1]. intros hd o [= <- <-]. by rewrite Eb, Es.
  - intros r'. rewrite Hrd, Hr1. by case_decide.
Qed.

Lemma set_frozen_roots h r h' : set_frozen h r = Ret h' → hp_host_roots h' = hp_host_roots h.
Proof.
  unfold set_frozen. intros E. destruct (is_reference r); [destruct (bool_decide _); by simplify_eq/=|].
  apply bind_Ret in E as ([[e header] object] & _ & E). by simplify_eq.
Qed.

Lemma is_frozen_read h r f o : read h r = Some (f, o) → is_frozen h r = Ret f.
Proof.
  intros Hr. unfold is_frozen. destruct (is_reference r) eqn:Er.
  - unfold read in Hr. rewrite Er in Hr. destruct (view_get (hp_text_views h) r) as [[ow v]|]; [|done]. by injection Hr as <- _.
  - destruct (read_names h r f o Er Hr) as (e & hd & Hn & <-). unfold entry_at.
    rewrite (nm_at _ _ _ _ _ Hn). simpl. by rewrite (nm_generation _ _ _ _ _ Hn), N.eqb_refl, (nm_state _ _ _ _ _ Hn).
Qed.
End HeapFrame.
