(* ===== verification/Transfer.v ===== *)
(** * Copies of an object graph

    lm-graph/src/mode.rs: a boundary transfer and a detached copy between two
    heaps, and a copy inside one heap.  Pass 1 is the walk with [CopyCheck];
    pass 2 allocates one shell per reached object and roots it; pass 3 patches
    every child through the identity table of the walk; the frozen bits follow.

    The two pass functions of the source differ in where they read the source
    objects: [source] is the constant source heap between two heaps, and the
    heap as it is inside one.  The work tables of the destination travel beside
    it, as in [Graph]. *)

From stdpp Require Import base numbers option gmap list.
From S2P Require Import Prelude Fault Value Pages TextViews MapIndex Heap Objects Graph HeapSteps.

(** What a copy reads of an object: its empty destination, and the object with
    every child remapped, [None] for a shape that holds no reference. *)
Class CopyTypes `{HT : HeapTypes} := {
  object_shell : Obj → option Obj;
  object_remap : (ObjRef → ObjRef) → Obj → option Obj;
}.

Definition copy_object `{CT : CopyTypes} (f : ObjRef → ObjRef) (o : Obj) : Obj := default o (object_remap f o).

(** What the copies rely on of them. *)
Class CopyLaws `{CT : CopyTypes} := {
  shell_sendable_law : ∀ o, shape_holder_local o = false → is_Some (object_shell o);
  shell_cost_law : ∀ o sh f, object_shell o = Some sh → heap_base_cost sh = heap_base_cost (copy_object f o);
  shell_small_law : ∀ o sh, object_shell o = Some sh → (heap_base_cost sh <= heap_base_cost o)%N;
  shell_shared_law : ∀ o sh, object_shell o = Some sh → shared_allocation sh = shared_allocation o;
  shell_frozen_law : ∀ o sh, object_shell o = Some sh → born_frozen sh = born_frozen o;
  shell_plain_law : ∀ o sh f, object_shell o = Some sh → object_remap f o = None → sh = o;
  copy_shared_law : ∀ o f, shared_allocation (copy_object f o) = shared_allocation o;
  copy_children_law : ∀ o f, object_children (copy_object f o) = f <$> object_children o;
  remap_ext_law : ∀ o f g, (∀ c, c ∈ object_children o → f c = g c) → object_remap f o = object_remap g o;
}.

Inductive CopyMode := ModeTransfer | ModeDetach.

#[export] Instance CopyMode_eq_dec : EqDecision CopyMode.
Proof. solve_decision. Defined.

Section Transfer.
Context `{HT : HeapTypes} `{CT : !CopyTypes} `{HM : HostMemory}.

(** Clone one object from either storage class. *)
Definition try_clone_object (h : Heap) (r : ObjRef) : option Obj :=
  match view_get (hp_text_views h) r with
  | Some (owner, view) => Some (substring_object owner view)
  | None => try_get h r
  end.

(** *** The passes *)

Section passes.
Context (source : Heap → Heap).

(** Pass 2.  The shells so far are rooted, so a collection keeps them. *)
Fixpoint copy_shells (roots order : list ObjRef) (dst : Heap) (ds : GraphScratch) (new_refs : list ObjRef) :
    exec (result unit FaultCode * Heap * GraphScratch * list ObjRef) :=
  match order with
  | [] => Ret (Ok tt, dst, ds, new_refs)
  | r :: order =>
      match try_clone_object (source dst) r with
      | None => Ret (Err BoundaryViolation, dst, ds, new_refs)
      | Some object =>
          match object_shell object with
          | None => Ret (Err UnsendableValue, dst, ds, new_refs)
          | Some shell =>
              cost ← allocation_cost dst shell;
              '(fits, dst, ds) ←
                (if would_exceed dst cost then
                   '(dst, ds) ← collect dst ds roots;
                   cost ← allocation_cost dst shell;
                   Ret (negb (would_exceed dst cost), dst, ds)
                 else Ret (true, dst, ds));
              if (fits : bool) then
                '(new_ref, dst) ← alloc dst shell;
                copy_shells roots order (push_host_root dst new_ref) ds (new_refs ++ [new_ref])
              else Ret (Err HeapLimit, dst, ds, new_refs)
          end
      end
  end.

(** [new_refs[scratch.ordinal(child) as usize]]. *)
Definition forwarded (s : GraphScratch) (new_refs : list ObjRef) (child : ObjRef) : exec ObjRef :=
  ordinal ← scratch_ordinal s child; of_option (new_refs !! N.to_nat ordinal).

Fixpoint forward_all (s : GraphScratch) (new_refs children : list ObjRef) : exec (list ObjRef) :=
  match children with
  | [] => Ret []
  | child :: children =>
      r ← forwarded s new_refs child; rest ← forward_all s new_refs children; Ret (r :: rest)
  end.

(** The remapped object; the forwarding of a child may panic. *)
Definition patched (s : GraphScratch) (new_refs : list ObjRef) (object : Obj) : exec (option Obj) :=
  _ ← forward_all s new_refs (object_children object);
  Ret (object_remap (λ child, match forwarded s new_refs child with Ret r => r | _ => child end) object).

(** Pass 3, over the pairs of old and new references. *)
Fixpoint copy_patch (s : GraphScratch) (new_refs : list ObjRef) (pairs : list (ObjRef * ObjRef)) (dst : Heap) :
    exec (result unit FaultCode * Heap) :=
  match pairs with
  | [] => Ret (Ok tt, dst)
  | (old, new) :: pairs =>
      match try_clone_object (source dst) old with
      | None => Ret (Err BoundaryViolation, dst)
      | Some object =>
          patch ← patched s new_refs object;
          dst ← match patch with Some object => write dst new object | None => Ret dst end;
          copy_patch s new_refs pairs dst
      end
  end.

Fixpoint pop_roots (dst : Heap) (refs : list ObjRef) : exec Heap :=
  match refs with
  | [] => Ret dst
  | r :: refs => dst ← pop_host_root dst r; pop_roots dst refs
  end.

Fixpoint free_all (dst : Heap) (refs : list ObjRef) : exec Heap :=
  match refs with
  | [] => Ret dst
  | r :: refs => dst ← free dst r; free_all dst refs
  end.

Fixpoint copy_frozen (mode : CopyMode) (pairs : list (ObjRef * ObjRef)) (dst : Heap) : exec Heap :=
  match pairs with
  | [] => Ret dst
  | (old, new) :: pairs =>
      frozen ← (if bool_decide (mode = ModeDetach) then Ret true else is_frozen (source dst) old);
      dst ← (if (frozen : bool) then set_frozen dst new else Ret dst);
      copy_frozen mode pairs dst
  end.

(** A fault of pass 2 frees every shell; a missing source object in pass 3
    returns at once. *)
Definition passes (roots : list ObjRef) (s : GraphScratch) (root : ObjRef) (mode : CopyMode)
    (dst : Heap) (ds : GraphScratch) : exec (result Value FaultCode * Heap * GraphScratch) :=
  let order := gs_order s in
  '(shelled, dst, ds, new_refs) ← copy_shells roots order dst ds [];
  match shelled with
  | Err fault =>
      dst ← pop_roots dst (reverse new_refs);
      dst ← free_all dst (reverse new_refs);
      Ret (Err fault, dst, ds)
  | Ok _ =>
      '(filled, dst) ← copy_patch s new_refs (zip order new_refs) dst;
      match filled with
      | Err fault => Ret (Err fault, dst, ds)
      | Ok _ =>
          dst ← pop_roots dst (reverse new_refs);
          dst ← copy_frozen mode (zip order new_refs) dst;
          r ← forwarded s new_refs root;
          Ret (Ok (VObj r), dst, ds)
      end
  end.
End passes.

Definition copy_passes (src : Heap) : list ObjRef → GraphScratch → ObjRef → CopyMode → Heap → GraphScratch →
    exec (result Value FaultCode * Heap * GraphScratch) := passes (λ _, src).

Definition copy_passes_within (roots : list ObjRef) (s : GraphScratch) (root : ObjRef) (h : Heap)
    (ds : GraphScratch) : exec (result Value FaultCode * Heap * GraphScratch) :=
  passes (λ h, h) roots s root ModeTransfer h ds.

(** *** The modes *)

(** A value that is its own copy, a fault, or the root of a graph. *)
Definition copy_root (value : Value) : result Value FaultCode + ObjRef :=
  match value with
  | VUnit | VBool _ | VInt _ | VFloat _ | VChar _ | VOp _ | VEmptyCase _ _ => inl (Ok value)
  | VCallback _ | VUninit => inl (Err BoundaryViolation)
  | VObj r => inr r
  end.

(** [usize] and [u64] have one width, so the conversions of the costs hold. *)
Definition copy_value (src : Heap) (s : GraphScratch) (dst : Heap) (ds : GraphScratch) (dst_roots : list ObjRef)
    (value : Value) (limits : GraphLimits) (mode : CopyMode) :
    exec (result Value FaultCode * GraphScratch * Heap * GraphScratch) :=
  match copy_root value with
  | inl result => Ret (result, s, dst, ds)
  | inr root =>
      '(discovered, s) ← walk src s [root] limits CopyCheck;
      match discovered with
      | Err fault => Ret (Err fault, s, dst, ds)
      | Ok cost =>
          '(fits, dst, ds) ←
            (if would_exceed_batch dst (gc_bytes cost) (gc_objects cost) then
               '(dst, ds) ← collect dst ds dst_roots;
               Ret (negb (would_exceed_batch dst (gc_bytes cost) (gc_objects cost)), dst, ds)
             else Ret (true, dst, ds));
          if (fits : bool) then
            '(result, dst, ds) ← copy_passes src dst_roots s root mode dst ds; Ret (result, s, dst, ds)
          else Ret (Err HeapLimit, s, dst, ds)
      end
  end.

Definition transfer (src : Heap) (s : GraphScratch) (dst : Heap) (ds : GraphScratch) (dst_roots : list ObjRef)
    (value : Value) (limits : GraphLimits) : exec (result Value FaultCode * GraphScratch * Heap * GraphScratch) :=
  copy_value src s dst ds dst_roots value limits ModeTransfer.

Definition detach (src : Heap) (s : GraphScratch) (dst : Heap) (ds : GraphScratch) (dst_roots : list ObjRef)
    (value : Value) (limits : GraphLimits) : exec (result Value FaultCode * GraphScratch * Heap * GraphScratch) :=
  copy_value src s dst ds dst_roots value limits ModeDetach.

(** The walk holds the tables of the heap, so a collection starts on new ones. *)
Definition copy_within (h : Heap) (s : GraphScratch) (roots : list ObjRef) (value : Value) (limits : GraphLimits) :
    exec (result Value FaultCode * Heap * GraphScratch) :=
  match copy_root value with
  | inl result => Ret (result, h, s)
  | inr root =>
      '(discovered, s) ← walk h s [root] limits CopyCheck;
      match discovered with
      | Err fault => Ret (Err fault, h, s)
      | Ok cost =>
          let h := push_host_root h root in
          '(h, ds) ←
            (if would_exceed_batch h (gc_bytes cost) (gc_objects cost)
             then collect h scratch_default roots else Ret (h, scratch_default));
          '(result, h, _) ←
            (if would_exceed_batch h (gc_bytes cost) (gc_objects cost)
             then Ret (Err HeapLimit, h, ds) else copy_passes_within roots s root h ds);
          h ← pop_host_root h root;
          Ret (result, h, s)
      end
  end.
End Transfer.

(** *** The shapes *)

#[export] Instance objects_copy `{PL : Payloads} : CopyTypes := { object_shell := shell; object_remap := remap }.

Lemma map_value_ext f g v : (∀ c, c ∈ value_refs v → f c = g c) → map_value f v = map_value g v.
Proof. intros H. destruct v; simpl; try done. by rewrite H by (by left). Qed.

Lemma map_values_ext f g vs : (∀ c, c ∈ concat (value_refs <$> vs) → f c = g c) → map_value f <$> vs = map_value g <$> vs.
Proof.
  induction vs as [|v vs IH]; intros H; [done|]. rewrite !fmap_cons. rewrite fmap_cons in H. cbn [concat] in H. f_equal.
  - apply map_value_ext. intros c Hc. apply H, elem_of_app. by left.
  - apply IH. intros c Hc. apply H, elem_of_app. by right.
Qed.

Lemma map_entries_ext f g es : (∀ c, c ∈ concat (entry_refs <$> es) → f c = g c) →
  map_entry f <$> filter (λ e, me_is_live e = true) es = map_entry g <$> filter (λ e, me_is_live e = true) es.
Proof.
  induction es as [|e es IH]; intros H; [done|]. rewrite fmap_cons in H. cbn [concat] in H.
  assert (IH' := IH (λ c Hc, H c ltac:(apply elem_of_app; by right))).
  rewrite filter_cons. case_decide as Hl; [|done]. rewrite !fmap_cons, IH'. f_equal. unfold map_entry.
  assert (He : ∀ c, c ∈ value_refs (me_key e) ++ value_refs (me_value e) → f c = g c).
  { intros c Hc. apply H, elem_of_app. left. unfold entry_refs. by rewrite Hl. }
  f_equal; apply map_value_ext; intros c Hc; apply He, elem_of_app; [by left|by right].
Qed.

Section objects.
Context `{PL : Payloads}.

Lemma remap_ext o f g : (∀ c, c ∈ children o → f c = g c) → remap f o = remap g o.
Proof.
  destruct o; intros H; simpl; try done; simpl in H; try (by rewrite (map_values_ext f g)).
  - by rewrite (map_entries_ext f g).
  - by rewrite (map_value_ext f g).
  - by rewrite (map_value_ext f g).
  - destruct (lc_descriptor linked) as [d|]; simpl; [|done]. by rewrite H by (by left).
Qed.

Lemma remap_shared o f : object_shared_allocation (default o (remap f o)) = object_shared_allocation o.
Proof. by destruct o. Qed.

Lemma shell_small o sh : shell o = Some sh → (payload_cost sh <= payload_cost o)%N.
Proof.
  destruct o; simpl; try done; intros [= <-]; simpl; unfold lenN, units; rewrite ?length_replicate, ?length_fmap; try done.
  pose proof (length_filter (λ e, me_is_live e = true) entries). nia.
Qed.

#[export] Instance objects_copy_laws : CopyLaws.
Proof.
  constructor; simpl; unfold copy_object; simpl.
  - intros o Ho. apply shell_sendable. apply bool_decide_eq_false in Ho. by destruct (sd_boundary (shape o)).
  - intros o sh f Hsh. unfold object_base_cost. by rewrite (proj1 (shell_cost o sh f Hsh)).
  - intros o sh Hsh. unfold object_base_cost. pose proof (shell_small o sh Hsh). lia.
  - intros o sh Hsh. by rewrite (proj2 (shell_cost o sh id Hsh)), remap_shared.
  - intros o sh Hsh. unfold shape. by rewrite (proj2 (shell_children o sh Hsh)).
  - intros o sh f Hsh Hn. by destruct o; simplify_eq/=.
  - intros o f. apply remap_shared.
  - intros o f. destruct (remap f o) as [o'|] eqn:E; simpl; [by apply remap_children|]. by rewrite (remap_none f o E).
  - apply remap_ext.
Qed.
End objects.
