(* ===== verification/TransferFacts.v ===== *)
(** * Copies preserve the graph

    The passes of [Transfer] against the invariant of the heap.  Pass 2 never
    runs out of room once pass 1 has measured the graph, so a copy either
    happens whole or leaves the destination to at most a collection; the copy
    is the source graph with every reference forwarded. *)

From stdpp Require Import base numbers option gmap list relations.
From S2P Require Import Prelude Fault Value Pages TextViews SlotTable TextViewsInv TextViewsBatch Heap Ledger HeapInv HeapOps HeapAlloc HeapSweep Graph GraphTables GraphWalk GraphModes HeapSteps HeapFrame Transfer.

Lemma Forall2_right {A B} (P : A → B → Prop) l k y : Forall2 P l k → y ∈ k → ∃ x, x ∈ l ∧ P x y.
Proof.
  intros Hp [i Hi]%list_elem_of_lookup. destruct (Forall2_lookup_r _ _ _ _ _ Hp Hi) as (x & Hx & HP).
  exists x. split; [by eapply list_elem_of_lookup_2|done].
Qed.

Lemma Forall2_impl_in {A B} (P Q : A → B → Prop) l k :
  Forall2 P l k → (∀ x y, x ∈ l → y ∈ k → P x y → Q x y) → Forall2 Q l k.
Proof.
  induction 1 as [|x y l k Hxy _ IH]; intros H; constructor.
  - apply H; [by left|by left|done].
  - apply IH. intros x' y' Hx Hy. apply H; by right.
Qed.

Section TransferFacts.
Context `{HT : HeapTypes} `{HL : !HeapLaws} `{CT : !CopyTypes} `{CL : !CopyLaws} `{HM : HostMemory}.

Lemma try_clone_of h r : try_clone_object h r = object_of h r.
Proof.
  rewrite <-walk_object_of. unfold try_clone_object, walk_object, try_get. destruct (is_reference r) eqn:Hr.
  - by destruct (view_get (hp_text_views h) r) as [[o v]|].
  - assert (view_get (hp_text_views h) r = None) as -> by (unfold view_get, view_current; by rewrite Hr).
    by destruct (_ ≫= _).
Qed.

Lemma slots_room_next h n : heap_ok h → (hp_slots h + (1 + n) + PAGE_SLOTS <= SLOT_LIMIT)%N → slot_room h.
Proof.
  intros H Hs. pose proof (slots_le_table h H) as Hle. right.
  destruct (N.lt_ge_cases (hp_slots h) (table_slots (hp_pages h))); [by left|right; lia].
Qed.

(** *** The passes *)

Section passes.
Context (source : Heap → Heap) (src dst : Heap) (order : list ObjRef) (cap : N → N).
Context (Hsource : (∀ h, source h = src) ∨ (∀ h, source h = h)).
Context (Hcap : (hp_cap_bytes dst <= USIZE_MAX)%N).
Context (Horder : ∀ r, r ∈ order → ∃ f o, read src r = Some (f, o) ∧ shape_holder_local o = false).
Context (Hshared : ∀ r o, r ∈ order → object_of src r = Some o → shared_capped cap (shared_allocation o)).

(** The source graph reads as it did. *)
Definition unmoved (h : Heap) : Prop := ∀ r, r ∈ order → read (source h) r = read src r.

Context (Hdst : unmoved dst).

Lemma unmoved_step h h' new :
  unmoved h → read dst new = None → (∀ r, r ≠ new → read h' r = read h r) → unmoved h'.
Proof.
  intros Hu Hnew Hr r Hin. destruct Hsource as [Hs|Hs]; [by rewrite Hs|].
  rewrite Hs, Hr, <-(Hs h); [by apply Hu|]. intros ->. specialize (Hdst new Hin). rewrite Hs, Hnew in Hdst.
  destruct (Horder new Hin) as (f & o & E & _). by rewrite E in Hdst.
Qed.

Record shelling (done rest new : list ObjRef) (h : Heap) : Prop := {
  sh_ok : heap_ok h;
  sh_exact : heap_exact h;
  sh_roots : hp_host_roots h = reverse new ++ hp_host_roots dst;
  sh_cap : hp_cap_bytes h = hp_cap_bytes dst;
  sh_nodup : NoDup new;
  sh_fresh : ∀ r, r ∈ new → is_reference r = false ∧ read dst r = None;
  sh_shells : Forall2 (λ r r', ∃ f o sh, read src r = Some (f, o) ∧ object_shell o = Some sh ∧
                read h r' = Some (born_frozen sh, sh)) done new;
  sh_other : ∀ r, r ∉ new → read h r = read dst r;
  sh_source : unmoved h;
  sh_capped : capped cap (hp_shared_allocations h);
  sh_slots : (hp_slots h + lenN rest + PAGE_SLOTS <= SLOT_LIMIT)%N;
  sh_used : (hp_used_bytes h + sumN (size_of src) rest <= hp_cap_bytes dst)%N;
}.

Lemma shell_step done r rest new h ds roots :
  order = done ++ r :: rest → shelling done (r :: rest) new h →
  ∃ h' r', copy_shells source roots (r :: rest) h ds new = copy_shells source roots rest h' ds (new ++ [r']) ∧
    shelling (done ++ [r]) rest (new ++ [r']) h'.
Proof.
  intros Eo H. assert (Hin : r ∈ order) by (rewrite Eo, elem_of_app, elem_of_cons; tauto).
  destruct (Horder r Hin) as (f & o & Er & Hloc). destruct (shell_sendable_law o Hloc) as [sh Esh].
  assert (Eobj : object_of src r = Some o) by (unfold object_of; by rewrite Er).
  pose proof (sh_used _ _ _ _ H) as Hused. simpl in Hused. unfold size_of at 1 in Hused. rewrite Eobj in Hused.
  pose proof (shell_small_law o sh Esh) as Hsmall. pose proof (shell_shared_law o sh Esh) as Eshared.
  assert (Hcapped : shared_capped cap (shared_allocation sh)) by (rewrite Eshared; by eapply Hshared).
  cbn [copy_shells]. rewrite try_clone_of. unfold object_of at 1. rewrite (sh_source _ _ _ _ H r Hin), Er. cbn [fmap option_fmap option_map snd].
  rewrite Esh. destruct (allocation_cost_spec h sh) as [Ec Hle]; [unfold object_fits; rewrite Eshared; lia|].
  rewrite Ec. cbn [mbind exec_bind].
  assert (Hck : (checked_cost h sh <= heap_base_cost o + default 0 (snd <$> shared_allocation o))%N).
  { unfold checked_cost, new_charge. rewrite Eshared. destruct (shared_allocation o) as [[key capacity]|]; simpl; [|lia].
    destruct (shared_allocation_is_unique sh); [lia|]. case_bool_decide; lia. }
  unfold would_exceed. rewrite would_exceed_batch_spec; [|apply H|by rewrite (sh_cap _ _ _ _ H)|done].
  rewrite (sh_cap _ _ _ _ H), (proj2 (N.leb_le _ _)) by lia. cbn [negb mbind exec_bind].
  pose proof (sh_slots _ _ _ _ H) as Hslots.
  assert (El : lenN (r :: rest) = (1 + lenN rest)%N) by (unfold lenN; simpl; lia). rewrite El in Hslots.
  destruct (alloc_spec h sh) as (r' & h1 & Ea & Hal).
  { apply H. } { eapply slots_room_next; [apply H|done]. } { by eapply capped_agrees, Hcapped; apply H. } { lia. }
  rewrite Ea. cbn [mbind exec_bind]. eexists _, r'. split; [done|].
  assert (Hnew : r' ∉ new).
  { intros Hn. destruct (Forall2_right _ _ _ _ (sh_shells _ _ _ _ H) Hn) as (x & _ & f1 & o1 & sh1 & _ & _ & E1).
    by rewrite (al_fresh _ _ _ _ Hal) in E1. }
  assert (Hfresh : read dst r' = None) by (rewrite <-(sh_other _ _ _ _ H) by done; apply Hal).
  pose proof (alloc_slots _ _ _ _ Ea) as Hs1. pose proof (al_read _ _ _ _ Hal) as Hrd.
  constructor.
  - by apply host_roots_ok, Hal.
  - apply (al_exact _ _ _ _ Hal), H.
  - simpl. rewrite (al_roots _ _ _ _ Hal), (sh_roots _ _ _ _ H), reverse_app. done.
  - simpl. by rewrite (al_cap _ _ _ _ Hal), (sh_cap _ _ _ _ H).
  - apply NoDup_app. split_and!; [apply H| |apply NoDup_singleton]. by intros x Hx ->%list_elem_of_singleton.
  - intros x [Hx| ->%list_elem_of_singleton]%elem_of_app; [by eapply sh_fresh|]. split; [apply Hal|done].
  - apply Forall2_app; [|constructor; [|constructor]].
    + eapply Forall2_impl_in; [apply H|].
      intros x x' _ Hx' (f1 & o1 & sh1 & E1 & E2 & E3). exists f1, o1, sh1. split_and!; [done|done|].
      change (read h1 x' = Some (born_frozen sh1, sh1)). rewrite Hrd, decide_False; [done|]. by intros ->.
    + exists f, o, sh. split_and!; [done|done|]. change (read h1 r' = Some (born_frozen sh, sh)). by rewrite Hrd, decide_True.
  - intros x [Hx1 Hx2]%not_elem_of_app. change (read h1 x = read dst x). rewrite Hrd, decide_False; [by eapply sh_other|].
    intros ->. apply Hx2. by left.
  - eapply unmoved_step; [apply H|exact Hfresh|]. intros x Hx. change (read h1 x = read h x). by rewrite Hrd, decide_False.
  - simpl. by eapply alloc_capped, Hcapped; [|apply H].
  - simpl. lia.
  - simpl. rewrite (al_used _ _ _ _ Hal). lia.
Qed.
Lemma copy_shells_spec roots rest : ∀ done new h ds,
  order = done ++ rest → shelling done rest new h →
  ∃ h' new', copy_shells source roots rest h ds new = Ret (Ok tt, h', ds, new') ∧ shelling order [] new' h'.
Proof.
  induction rest as [|r rest IH]; intros done new h ds Eo H.
  - exists h, new. rewrite app_nil_r in Eo. by rewrite Eo.
  - destruct (shell_step done r rest new h ds roots Eo H) as (h1 & r' & E & H1). rewrite E.
    apply (IH (done ++ [r])); [by rewrite <-app_assoc|done].
Qed.

(** *** Pass 3 *)

Context (s : GraphScratch) (new : list ObjRef) (fw : ObjRef → ObjRef).
Context (Hforward : ∀ r, r ∈ order → forwarded s new r = Ret (fw r)).
Context (Hchildren : ∀ r o c, r ∈ order → object_of src r = Some o → c ∈ object_children o → c ∈ order).

Lemma forward_all_spec cs : (∀ c, c ∈ cs → c ∈ order) → forward_all s new cs = Ret (fw <$> cs).
Proof.
  induction cs as [|c cs IH]; intros H; [done|]. cbn [forward_all]. rewrite Hforward by (apply H; by left).
  cbn [mbind exec_bind]. rewrite IH; [done|]. intros x Hx. apply H. by right.
Qed.

Lemma patched_spec r o : r ∈ order → object_of src r = Some o → patched s new o = Ret (object_remap fw o).
Proof.
  intros Hin Eo. unfold patched. rewrite forward_all_spec by (intros c; by eapply Hchildren). cbn [mbind exec_bind].
  f_equal. apply remap_ext_law. intros c Hc. by rewrite Hforward by (by eapply Hchildren).
Qed.

Definition shell_of (h : Heap) (r r' : ObjRef) : Prop :=
  ∃ f o sh, read src r = Some (f, o) ∧ object_shell o = Some sh ∧ read h r' = Some (born_frozen sh, sh).
Definition copy_of (h : Heap) (r r' : ObjRef) : Prop :=
  ∃ f o, read src r = Some (f, o) ∧ read h r' = Some (born_frozen o, copy_object fw o).

(** One object of pass 3. *)
Lemma patch_step r r' h :
  r ∈ order → heap_ok h → heap_exact h → unmoved h → is_reference r' = false → read dst r' = None → shell_of h r r' →
  ∃ h', (∀ pairs, copy_patch source s new ((r, r') :: pairs) h = copy_patch source s new pairs h') ∧
    heap_ok h' ∧ heap_exact h' ∧ unmoved h' ∧ hp_host_roots h' = hp_host_roots h ∧ copy_of h' r r' ∧
    ∀ x, x ≠ r' → read h' x = read h x.
Proof.
  intros Hin H Hx Hu Hr' Hfresh (f & o & sh & Er & Esh & Er').
  assert (Eo : object_of src r = Some o) by (unfold object_of; by rewrite Er).
  assert (Ep : ∀ pairs, copy_patch source s new ((r, r') :: pairs) h =
    (dst ← match object_remap fw o with Some object => write h r' object | None => Ret h end; copy_patch source s new pairs dst)).
  { intros pairs. cbn [copy_patch]. rewrite try_clone_of. unfold object_of at 1. rewrite (Hu r Hin), Er. cbn [fmap option_fmap option_map snd].
    by rewrite (patched_spec r o Hin Eo). }
  destruct (object_remap fw o) as [object|] eqn:Em.
  - assert (Ecp : copy_object fw o = object) by (unfold copy_object; by rewrite Em).
    destruct (refill_spec h r' _ sh object H Hx Hr' Er') as (h' & Ew & H' & Hx' & Ert & _ & _ & Hrd).
    { by rewrite (shell_cost_law o sh fw Esh), Ecp. }
    { by rewrite (shell_shared_law o sh Esh), <-(copy_shared_law o fw), Ecp. }
    exists h'. split_and!; [|done|done| |done| |].
    + intros pairs. by rewrite Ep, Ew.
    + eapply unmoved_step; [exact Hu|exact Hfresh|]. intros x Hne. by rewrite Hrd, decide_False.
    + exists f, o. split; [done|]. by rewrite Hrd, decide_True, Ecp, (shell_frozen_law o sh Esh) by done.
    + intros x Hne. by rewrite Hrd, decide_False.
  - exists h. split_and!; [|done|done|done|done| |done].
    + intros pairs. by rewrite Ep.
    + exists f, o. split; [done|]. unfold copy_object. rewrite Em. simpl. by rewrite <-(shell_plain_law o sh fw Esh Em).
Qed.

Lemma copy_patch_spec rest : ∀ newrest h,
  (∀ r, r ∈ rest → r ∈ order) → heap_ok h → heap_exact h → unmoved h → NoDup newrest →
  (∀ r, r ∈ newrest → is_reference r = false ∧ read dst r = None) → Forall2 (shell_of h) rest newrest →
  ∃ h', copy_patch source s new (zip rest newrest) h = Ret (Ok tt, h') ∧
    heap_ok h' ∧ heap_exact h' ∧ unmoved h' ∧ hp_host_roots h' = hp_host_roots h ∧ Forall2 (copy_of h') rest newrest ∧
    ∀ x, x ∉ newrest → read h' x = read h x.
Proof.
  induction rest as [|r rest IH]; intros newrest h Hin H Hx Hu Hnd Hfr Hsh; inversion Hsh as [|? r' ? newrest' Hr Hrest]; subst.
  { exists h. split_and!; done. }
  apply NoDup_cons in Hnd as [Hn Hnd]. destruct (Hfr r' ltac:(by left)) as [Hro Hfresh].
  destruct (patch_step r r' h) as (h1 & E1 & H1 & Hx1 & Hu1 & Ert1 & Hc1 & Hrd1); [by apply Hin; left|done..|].
  destruct (IH newrest' h1) as (h2 & E2 & H2 & Hx2 & Hu2 & Ert2 & Hc2 & Hrd2); [|done..|done| | |].
  - intros x Hx'. apply Hin. by right.
  - intros x Hx'. apply Hfr. by right.
  - eapply Forall2_impl_in; [exact Hrest|]. intros x x' _ Hx' (f & o & sh & E & Esh & Er). exists f, o, sh.
    split_and!; [done|done|]. rewrite Hrd1; [done|]. by intros ->.
  - exists h2. cbn [zip zip_with]. rewrite E1. split_and!; [done..|congruence| |].
    + constructor; [|done]. destruct Hc1 as (f & o & E & Er). exists f, o. split; [done|]. by rewrite Hrd2.
    + intros x [Hne Hx']%not_elem_of_cons. by rewrite Hrd2, Hrd1.
Qed.

(** *** Roots and frozen bits *)

Lemma pop_roots_spec refs : ∀ h roots, hp_host_roots h = refs ++ roots → pop_roots h refs = Ret (set_host_roots h roots).
Proof.
  induction refs as [|r refs IH]; intros h roots E; cbn [pop_roots].
  - simpl in E. rewrite <-E. by destruct h.
  - unfold pop_host_root. rewrite E. cbn [app]. rewrite bool_decide_true by done. cbn [guard_panic mbind exec_bind].
    rewrite (IH _ roots) by done. by destruct h.
Qed.

Definition copied_bit (mode : CopyMode) (f : bool) (o : Obj) : bool := born_frozen o || bool_decide (mode = ModeDetach) || f.
Definition copied_as (mode : CopyMode) (h : Heap) (r r' : ObjRef) : Prop :=
  ∃ f o, read src r = Some (f, o) ∧ read h r' = Some (copied_bit mode f o, copy_object fw o).

Lemma frozen_step mode r r' h :
  r ∈ order → heap_ok h → heap_exact h → unmoved h → is_reference r' = false → read dst r' = None → copy_of h r r' →
  ∃ h', (∀ pairs, copy_frozen source mode ((r, r') :: pairs) h = copy_frozen source mode pairs h') ∧
    heap_ok h' ∧ heap_exact h' ∧ unmoved h' ∧ hp_host_roots h' = hp_host_roots h ∧ copied_as mode h' r r' ∧
    ∀ x, x ≠ r' → read h' x = read h x.
Proof.
  intros Hin H Hx Hu Hr' Hfresh (f & o & Er & Er').
  set (bit := bool_decide (mode = ModeDetach) || f).
  assert (Ep : ∀ pairs, copy_frozen source mode ((r, r') :: pairs) h =
    (h ← (if bit then set_frozen h r' else Ret h); copy_frozen source mode pairs h)).
  { intros pairs. cbn [copy_frozen]. unfold bit. destruct (bool_decide (mode = ModeDetach)); [done|].
    rewrite (is_frozen_read _ _ f o); [done|]. by rewrite (Hu r Hin). }
  destruct bit eqn:Ebit.
  - destruct (set_frozen_spec h r' _ _ H Hr' Er') as (h' & Ef & H' & Hx' & _ & _ & Hrd).
    exists h'. split_and!; [|done|by apply Hx'| |by eapply set_frozen_roots| |].
    + intros pairs. by rewrite Ep, Ef.
    + eapply unmoved_step; [exact Hu|exact Hfresh|]. intros x Hne. by rewrite Hrd, decide_False.
    + exists f, o. split; [done|]. rewrite Hrd, decide_True by done. unfold copied_bit. rewrite <-orb_assoc. fold bit.
      by rewrite Ebit, orb_true_r.
    + intros x Hne. by rewrite Hrd, decide_False.
  - exists h. split_and!; [|done|done|done|done| |done].
    + intros pairs. by rewrite Ep.
    + exists f, o. split; [done|]. unfold copied_bit. rewrite <-orb_assoc. fold bit. by rewrite Ebit, orb_false_r.
Qed.

Lemma copy_frozen_spec mode rest : ∀ newrest h,
  (∀ r, r ∈ rest → r ∈ order) → heap_ok h → heap_exact h → unmoved h → NoDup newrest →
  (∀ r, r ∈ newrest → is_reference r = false ∧ read dst r = None) → Forall2 (copy_of h) rest newrest →
  ∃ h', copy_frozen source mode (zip rest newrest) h = Ret h' ∧
    heap_ok h' ∧ heap_exact h' ∧ hp_host_roots h' = hp_host_roots h ∧ Forall2 (copied_as mode h') rest newrest ∧
    ∀ x, x ∉ newrest → read h' x = read h x.
Proof.
  induction rest as [|r rest IH]; intros newrest h Hin H Hx Hu Hnd Hfr Hsh; inversion Hsh as [|? r' ? newrest' Hr Hrest]; subst.
  { exists h. split_and!; done. }
  apply NoDup_cons in Hnd as [Hn Hnd]. destruct (Hfr r' ltac:(by left)) as [Hro Hfresh].
  destruct (frozen_step mode r r' h) as (h1 & E1 & H1 & Hx1 & Hu1 & Ert1 & Hc1 & Hrd1); [by apply Hin; left|done..|].
  destruct (IH newrest' h1) as (h2 & E2 & H2 & Hx2 & Ert2 & Hc2 & Hrd2); [|done..|done| | |].
  - intros x Hx'. apply Hin. by right.
  - intros x Hx'. apply Hfr. by right.
  - eapply Forall2_impl_in; [exact Hrest|]. intros x x' _ Hx' (f & o & E & Er). exists f, o.
    split; [done|]. rewrite Hrd1; [done|]. by intros ->.
  - exists h2. cbn [zip zip_with]. rewrite E1. split_and!; [done..|congruence| |].
    + constructor; [|done]. destruct Hc1 as (f & o & E & Er). exists f, o. split; [done|]. by rewrite Hrd2.
    + intros x [Hne Hx']%not_elem_of_cons. by rewrite Hrd2, Hrd1.
Qed.
End passes.

(** *** The whole copy *)

(** The new reference of [r]. *)
Definition forward (order new : list ObjRef) (r : ObjRef) : ObjRef :=
  default r (list_find (λ x, x = r) order ≫= λ p, new !! p.1).

Lemma forward_at order new i r r' :
  NoDup order → order !! i = Some r → new !! i = Some r' → forward order new r = r'.
Proof.
  intros Hnd Hr Hr'. unfold forward. assert (list_find (λ x, x = r) order = Some (i, r)) as ->.
  { apply list_find_Some. split_and!; [done|done|]. intros j y Hj Hlt ->. pose proof (NoDup_lookup _ _ _ _ Hnd Hr Hj). lia. }
  simpl. by rewrite Hr'.
Qed.

Lemma forwarded_spec src s new r :
  heap_ok src → walking src s → (lenN (gs_order s) <= U32_MAX)%N → length new = length (gs_order s) → r ∈ gs_order s →
  forwarded s new r = Ret (forward (gs_order s) new r).
Proof.
  intros H Hw Hlen El Hin. pose proof (wk_live src s Hw r Hin) as Hl. apply list_elem_of_lookup in Hin as Hi. destruct Hi as [i Hi].
  pose proof (lookup_lt_Some _ _ _ Hi) as Hlt. unfold forwarded, scratch_ordinal.
  rewrite (scratch_seen_spec src), bool_decide_true by done. cbn [guard_panic mbind exec_bind].
  rewrite (scratch_index_spec src) by done. cbn [mbind exec_bind]. rewrite (wk_ordinal src s Hw i r Hi). cbn [of_option mbind exec_bind].
  rewrite as_u32_small, Nat2N.id by (unfold lenN in Hlen; lia).
  destruct (lookup_lt_is_Some_2 new i) as [r' Hr']; [lia|]. rewrite Hr'. by rewrite (forward_at _ _ i r r' (wk_nodup src s Hw) Hi Hr').
Qed.

(** [dst'] is [dst] with the graph [order] of [src] at the fresh references
    [new]. *)
Record copied (src dst dst' : Heap) (mode : CopyMode) (order new : list ObjRef) : Prop := {
  cp_ok : heap_ok dst';
  cp_exact : heap_exact dst';
  cp_nodup : NoDup new;
  cp_fresh : ∀ r, r ∈ new → read dst r = None;
  cp_graph : Forall2 (λ r r', r' = forward order new r ∧
               copied_as src (forward order new) mode dst' r r') order new;
  cp_other : ∀ r, r ∉ new → read dst' r = read dst r;
  cp_roots : hp_host_roots dst' = hp_host_roots dst;
}.

Lemma forward_graph order new (P : ObjRef → ObjRef → Prop) :
  NoDup order → Forall2 P order new → Forall2 (λ r r', r' = forward order new r ∧ P r r') order new.
Proof.
  intros Hnd Hp. apply Forall2_same_length_lookup. split; [by eapply Forall2_length|]. intros i r r' Hr Hr'.
  split; [symmetry; by eapply forward_at|]. by eapply Forall2_lookup_lr.
Qed.

Lemma passes_spec source src s cap mode dst ds roots root :
  heap_ok src → walking src s →
  (∀ r o c, r ∈ gs_order s → object_of src r = Some o → c ∈ object_children o → c ∈ gs_order s) →
  (∀ r o, r ∈ gs_order s → object_of src r = Some o → shape_holder_local o = false ∧ shared_capped cap (shared_allocation o)) →
  ((∀ h, source h = src) ∨ (∀ h, source h = h)) → unmoved source src (gs_order s) dst →
  heap_ok dst → heap_exact dst → capped cap (hp_shared_allocations dst) → (hp_cap_bytes dst <= USIZE_MAX)%N →
  (hp_slots dst + lenN (gs_order s) + PAGE_SLOTS <= SLOT_LIMIT)%N →
  (hp_used_bytes dst + sumN (size_of src) (gs_order s) <= hp_cap_bytes dst)%N → root ∈ gs_order s →
  ∃ dst' new, passes source roots s root mode dst ds = Ret (Ok (VObj (forward (gs_order s) new root)), dst', ds) ∧
    copied src dst dst' mode (gs_order s) new.
Proof.
  intros Hsrc Hw Hch Hobj Hso Hun Hd Hx Hcd Hcap Hslots Hused Hroot. set (order := gs_order s) in *.
  assert (Horder : ∀ r, r ∈ order → ∃ f o, read src r = Some (f, o) ∧ shape_holder_local o = false).
  { intros r Hin. destruct (wk_live src s Hw r Hin) as [_ [[f o] Er]]. exists f, o. split; [done|].
    apply (Hobj r o Hin). unfold object_of. by rewrite Er. }
  assert (Hsh : ∀ r o, r ∈ order → object_of src r = Some o → shared_capped cap (shared_allocation o)) by (intros r o Hin Eo; by eapply Hobj).
  assert (Hlen : (lenN order <= U32_MAX)%N) by (clear -Hslots; unfold SLOT_LIMIT, PAGE_SLOTS, U32_MAX in *; lia).
  destruct (copy_shells_spec source src dst order cap Hso Hcap Horder Hsh Hun roots order [] [] dst ds eq_refl) as (h1 & new & E1 & H1).
  { constructor; try done; [by constructor|by intros r Hr%not_elem_of_nil]. }
  unfold passes. fold order. rewrite E1. cbn [mbind exec_bind].
  pose proof (Forall2_length _ _ _ (sh_shells _ _ _ _ _ _ _ _ _ H1)) as El.
  assert (Hfw : ∀ r, r ∈ order → forwarded s new r = Ret (forward order new r)).
  { intros r Hin. by apply (forwarded_spec src). }
  destruct (copy_patch_spec source src dst order Hso Horder Hun s new (forward order new) Hfw Hch order new h1)
    as (h2 & E2 & H2 & Hx2 & Hu2 & Ert2 & Hc2 & Hrd2); try done; try apply H1.
  rewrite E2. cbn [mbind exec_bind].
  rewrite (pop_roots_spec (reverse new) h2 (hp_host_roots dst)) by (rewrite Ert2; apply H1). cbn [mbind exec_bind].
  destruct (copy_frozen_spec source src dst order Hso Horder Hun (forward order new) mode order new (set_host_roots h2 (hp_host_roots dst)))
    as (h3 & E3 & H3 & Hx3 & Ert3 & Hc3 & Hrd3); try done; try apply H1; [by apply host_roots_ok| |].
  { intros r Hin. specialize (Hu2 r Hin). destruct Hso as [Hs|Hs]; rewrite Hs in *; done. }
  rewrite E3. cbn [mbind exec_bind]. rewrite (Hfw root Hroot). cbn [mbind exec_bind]. exists h3, new. split; [done|].
  constructor; [done|done|apply H1|intros r Hr; by eapply sh_fresh| |..].
  - apply forward_graph; [apply Hw|done].
  - intros r Hr. rewrite Hrd3 by done. change (read h2 r = read dst r). rewrite Hrd2 by done. by eapply sh_other.
  - by rewrite Ert3.
Qed.

(** *** The modes *)

Definition sendable_verdict (h : Heap) (r : ObjRef) : option FaultCode :=
  match object_of h r with Some o => if shape_holder_local o then Some UnsendableValue else None | None => None end.

(** What a successful first pass gives the others. *)
Lemma walked_graph src s root order :
  walking src s → gs_order s = order → preorder src [root] [] order →
  Forall (λ r, sendable_verdict src r = None) order → root ∈ order ∧
  (∀ r o c, r ∈ order → object_of src r = Some o → c ∈ object_children o → c ∈ order) ∧
  (∀ r o, r ∈ order → object_of src r = Some o → shape_holder_local o = false).
Proof.
  intros Hw Eo Hp Hv. pose proof (preorder_reachable src [root] order Hp) as Hreach. split_and!.
  - apply Hreach, reachable_root. by left.
  - intros r o c Hr Er Hc. apply Hreach. apply Hreach in Hr. eapply reachable_step; [done|].
    unfold edge, children_of. by rewrite Er.
  - intros r o Hr Er. rewrite list.Forall_forall in Hv. specialize (Hv r Hr). unfold sendable_verdict in Hv.
    rewrite Er in Hv. by destruct (shape_holder_local o).
Qed.

(** The shared allocations of the graph under [root]. *)
Definition graph_capped (cap : N → N) (h : Heap) (root : ObjRef) : Prop :=
  ∀ r o, reachable h [root] r → object_of h r = Some o → shared_capped cap (shared_allocation o).

(** The destination as the copy finds it: as it was, or collected. *)
Definition settled (dst dst1 : Heap) (roots : list ObjRef) : Prop := dst1 = dst ∨ collected dst dst1 roots.

(** A destination in order, with room for the slots of [n] more objects. *)
Record copy_ready (cap : N → N) (h : Heap) (n : N) : Prop := {
  cr_ok : heap_ok h;
  cr_exact : heap_exact h;
  cr_capped : capped cap (hp_shared_allocations h);
  cr_cap : (hp_cap_bytes h <= USIZE_MAX)%N;
  cr_slots : (table_slots (hp_pages h) + n + PAGE_SLOTS <= SLOT_LIMIT)%N;
}.

Lemma collected_ready cap h n h' s s' roots all :
  copy_ready cap h n → collect h s roots = Ret (h', s') → collected h h' all → copy_ready cap h' n.
Proof.
  intros [H Hx Hc Hcap Hs] E Hcl. destruct (collect_shrunk _ _ _ _ _ E) as [Hk Hp Ec]. constructor.
  - apply Hcl.
  - by apply (cl_exact _ _ _ Hcl).
  - by apply Hk.
  - by rewrite Ec.
  - unfold table_slots in *. unfold PAGE_SLOTS in *. lia.
Qed.

(** The check before the second pass, with its collection. *)
Lemma settle cap dst ds roots n bytes :
  copy_ready cap dst n → scratch_ok ds → closed dst (roots ++ host_roots dst) → graph_fits dst (roots ++ host_roots dst) →
  ∃ dst1 ds1, (if would_exceed_batch dst bytes n then collect dst ds roots else Ret (dst, ds)) = Ret (dst1, ds1) ∧
    scratch_ok ds1 ∧ copy_ready cap dst1 n ∧ hp_cap_bytes dst1 = hp_cap_bytes dst ∧
    settled dst dst1 (roots ++ host_roots dst) ∧
    if would_exceed_batch dst1 bytes n
    then collected dst dst1 (roots ++ host_roots dst) ∧ (hp_cap_bytes dst < hp_used_bytes dst1 + bytes)%N
    else (hp_used_bytes dst1 + bytes <= hp_cap_bytes dst)%N.
Proof.
  intros Hr Hds Hc Hf. pose proof (cr_slots _ _ _ Hr) as Hs. assert (Hn : (n <= SLOT_LIMIT)%N) by lia.
  rewrite (would_exceed_batch_spec dst); [|apply Hr|apply Hr|done].
  destruct (N.leb_spec (hp_used_bytes dst + bytes) (hp_cap_bytes dst)) as [Hin|Hout]; cbn [negb].
  { exists dst, ds. split_and!; [done|done|done|done|by left|].
    rewrite (would_exceed_batch_spec dst); [|apply Hr|apply Hr|done]. by rewrite (proj2 (N.leb_le _ _) Hin). }
  destruct (collect_cases dst ds roots (cr_ok _ _ _ Hr) Hds Hc Hf) as (dst1 & ds1 & E & Hds1 & Hcl).
  pose proof (collected_ready _ _ _ _ _ _ _ _ Hr E Hcl) as Hr1. pose proof (sk_cap _ _ (collect_shrunk _ _ _ _ _ E)) as Ecap.
  exists dst1, ds1. split_and!; [done|done|done|done|by right|].
  rewrite (would_exceed_batch_spec dst1); [|apply Hr1|apply Hr1|done]. rewrite Ecap.
  destruct (N.leb_spec (hp_used_bytes dst1 + bytes) (hp_cap_bytes dst)); [done|by split].
Qed.

Lemma make_room dst ds roots bytes n :
  (if would_exceed_batch dst bytes n then
     '(dst, ds) ← collect dst ds roots; Ret (negb (would_exceed_batch dst bytes n), dst, ds)
   else Ret (true, dst, ds)) =
  ('(dst, ds) ← (if would_exceed_batch dst bytes n then collect dst ds roots else Ret (dst, ds));
   Ret (negb (would_exceed_batch dst bytes n), dst, ds)).
Proof. destruct (would_exceed_batch dst bytes n) eqn:E; [done|]. cbn [mbind exec_bind]. by rewrite E. Qed.

Lemma copy_value_spec cap src s dst ds roots root limits mode order :
  heap_ok src → scratch_ok s → closed src [root] → graph_fits src [root] → preorder src [root] [] order →
  copy_ready cap dst (lenN order) → scratch_ok ds →
  closed dst (roots ++ host_roots dst) → graph_fits dst (roots ++ host_roots dst) → graph_capped cap src root →
  ∃ result s' dst' ds', copy_value src s dst ds roots (VObj root) limits mode = Ret (result, s', dst', ds') ∧ scratch_ok s' ∧
    match result with
    | Ok value => within limits (graph_cost src [root] order) = true ∧ Forall (λ r, sendable_verdict src r = None) order ∧
        ∃ dst1 new, settled dst dst1 (roots ++ host_roots dst) ∧ copied src dst1 dst' mode order new ∧
          value = VObj (forward order new root)
    | Err fault => (dst' = dst ∧ stops limits (sendable_verdict src) order (graph_cost src [root] order) fault) ∨
        (fault = HeapLimit ∧ collected dst dst' (roots ++ host_roots dst) ∧
         (hp_cap_bytes dst < hp_used_bytes dst' + sumN (size_of src) order)%N)
    end.
Proof.
  intros Hsrc Hs Hc Hfit Hp Hready Hds Hcd Hfd Hcapped. unfold copy_value. cbn [copy_root].
  destruct (walk_spec src s [root] limits CopyCheck (sendable_verdict src) order Hsrc Hs Hc (copy_check_answers src) Hp (Hfit _ Hp))
    as (res & s1 & E & Hres). rewrite E. cbn [mbind exec_bind]. destruct res as [cost|fault].
  2: { destruct Hres as [Hs1 Hst]. eexists _, _, _, _. split; [done|]. split; [done|]. by left. }
  destruct Hres as (-> & Hwi & Hv & Hw & Eo).
  destruct (walked_graph src s1 root order Hw Eo Hp Hv) as (Hroot & Hch & Hloc).
  assert (Eob : gc_objects (graph_cost src [root] order) = lenN order) by done.
  assert (Eby : gc_bytes (graph_cost src [root] order) = sumN (size_of src) order) by done. rewrite Eob, Eby.
  destruct (settle cap dst ds roots (lenN order) (sumN (size_of src) order) Hready Hds Hcd Hfd)
    as (dst1 & ds1 & E1 & _ & Hr1 & Ecap & Hset & Hroom). rewrite make_room, E1. cbn [mbind exec_bind].
  destruct (would_exceed_batch dst1 _ _); cbn [negb].
  { eexists _, _, _, _. split; [done|]. split; [apply Hw|]. right. split; [done|]. by destruct Hroom. }
  subst order. pose proof (preorder_reachable src [root] _ Hp) as Hreach.
  destruct (passes_spec (λ _, src) src s1 cap mode dst1 ds1 roots root) as (dst' & new & E2 & Hcp); try done; try apply Hr1.
  - intros r o Hin Er. split; [by eapply Hloc|]. eapply Hcapped; [by apply Hreach|done].
  - by left.
  - pose proof (slots_le_table dst1 (cr_ok _ _ _ Hr1)). pose proof (cr_slots _ _ _ Hr1). lia.
  - by rewrite Ecap.
  - unfold copy_passes. rewrite E2. cbn [mbind exec_bind]. eexists _, _, _, _. split; [done|]. split; [apply Hw|].
    split_and!; [done|done|]. by exists dst1, new.
Qed.

(** *** Inside one heap *)

Lemma collected_unrooted h r h1 all :
  collected (push_host_root h r) h1 all → collected h (set_host_roots h1 (hp_host_roots h)) all.
Proof. intros [H1 H2 H3 H4 H5 H6]. constructor; [by apply host_roots_ok|done..]. Qed.

Lemma copied_unrooted src dst dst' mode order new roots :
  copied src dst dst' mode order new → copied src (set_host_roots dst roots) (set_host_roots dst' roots) mode order new.
Proof. intros [H1 H2 H3 H4 H5 H6 H7]. constructor; [by apply host_roots_ok|done..]. Qed.

Lemma graph_fits_pushed h r roots : graph_fits h roots → graph_fits (push_host_root h r) roots.
Proof.
  intros Hf order Hp. rewrite (same_cost h (push_host_root h r)) by done. apply Hf.
  by apply (same_preorder (push_host_root h r) h).
Qed.

(** The roots a collection during the copy reads. *)
Definition within_roots (h : Heap) (roots : list ObjRef) (root : ObjRef) : list ObjRef :=
  roots ++ host_roots (push_host_root h root).

Lemma within_reachable h roots root r : reachable h [root] r → reachable h (within_roots h roots root) r.
Proof.
  intros (x & ->%list_elem_of_singleton & Hp). exists root. split; [|done]. unfold within_roots, host_roots. simpl.
  rewrite reverse_cons. apply elem_of_app. right. apply elem_of_app. right. by left.
Qed.

Lemma copy_within_spec cap h s roots root limits order :
  copy_ready cap h (lenN order) → scratch_ok s → preorder h [root] [] order → graph_fits h [root] →
  closed h (within_roots h roots root) → graph_fits h (within_roots h roots root) → graph_capped cap h root →
  ∃ result h' s', copy_within h s roots (VObj root) limits = Ret (result, h', s') ∧ scratch_ok s' ∧
    match result with
    | Ok value => within limits (graph_cost h [root] order) = true ∧ Forall (λ r, sendable_verdict h r = None) order ∧
        ∃ h1 new, settled h h1 (within_roots h roots root) ∧ copied h h1 h' ModeTransfer order new ∧
          value = VObj (forward order new root)
    | Err fault => (h' = h ∧ stops limits (sendable_verdict h) order (graph_cost h [root] order) fault) ∨
        (fault = HeapLimit ∧ collected h h' (within_roots h roots root) ∧
         (hp_cap_bytes h < hp_used_bytes h' + sumN (size_of h) order)%N)
    end.
Proof.
  intros Hready Hs Hp Hfit Hca Hfa Hcapped. pose proof (cr_ok _ _ _ Hready) as H.
  assert (Hc : closed h [root]) by (intros r Hr; by eapply Hca, within_reachable).
  unfold copy_within. cbn [copy_root].
  destruct (walk_spec h s [root] limits CopyCheck (sendable_verdict h) order H Hs Hc (copy_check_answers h) Hp (Hfit _ Hp))
    as (res & s1 & E & Hres). rewrite E. cbn [mbind exec_bind]. destruct res as [cost|fault].
  2: { destruct Hres as [Hs1 Hst]. eexists _, _, _. split; [done|]. split; [done|]. by left. }
  destruct Hres as (-> & Hwi & Hv & Hw & Eo).
  destruct (walked_graph h s1 root order Hw Eo Hp Hv) as (Hroot & Hch & Hloc).
  assert (Eob : gc_objects (graph_cost h [root] order) = lenN order) by done.
  assert (Eby : gc_bytes (graph_cost h [root] order) = sumN (size_of h) order) by done. rewrite Eob, Eby.
  assert (Hready' : copy_ready cap (push_host_root h root) (lenN order)).
  { destruct Hready. constructor; [by apply host_roots_ok|done..]. }
  destruct (settle cap (push_host_root h root) scratch_default roots (lenN order) (sumN (size_of h) order)
    Hready' scratch_default_ok Hca (graph_fits_pushed _ _ _ Hfa)) as (h1 & ds1 & E1 & _ & Hr1 & Ecap & Hset & Hroom).
  rewrite E1. cbn [mbind exec_bind]. fold (within_roots h roots root) in Hset, Hroom.
  assert (Ert : hp_host_roots h1 = root :: hp_host_roots h).
  { destruct Hset as [->|Hcl]; [done|]. by rewrite (cl_roots _ _ _ Hcl). }
  destruct (would_exceed_batch h1 _ _).
  { cbn [mbind exec_bind]. unfold pop_host_root. rewrite Ert, bool_decide_true by done. cbn [guard_panic mbind exec_bind].
    eexists _, _, _. split; [done|]. split; [apply Hw|]. right. destruct Hroom as [Hcl Hout].
    split_and!; [done|by apply collected_unrooted in Hcl|done]. }
  subst order. pose proof (preorder_reachable h [root] _ Hp) as Hreach.
  destruct (passes_spec (λ h, h) h s1 cap ModeTransfer h1 ds1 roots root) as (h2 & new & E2 & Hcp); try done; try apply Hr1.
  - intros r o Hin Er. split; [by eapply Hloc|]. eapply Hcapped; [by apply Hreach|done].
  - by right.
  - intros r Hin. destruct Hset as [->|Hcl]; [done|]. rewrite (cl_kept _ _ _ Hcl); [done|].
    change (reachable h (within_roots h roots root) r). by apply within_reachable, Hreach.
  - pose proof (slots_le_table h1 (cr_ok _ _ _ Hr1)). pose proof (cr_slots _ _ _ Hr1). lia.
  - by rewrite Ecap.
  - unfold copy_passes_within. rewrite E2. cbn [mbind exec_bind]. unfold pop_host_root.
    rewrite (cp_roots _ _ _ _ _ _ Hcp), Ert, bool_decide_true by done. cbn [guard_panic mbind exec_bind].
    eexists _, _, _. split; [done|]. split; [apply Hw|]. split_and!; [done|done|].
    exists (set_host_roots h1 (hp_host_roots h)), new. split_and!; [|by apply copied_unrooted|done].
    destruct Hset as [->|Hcl]; [left; by destruct h|right; by apply collected_unrooted in Hcl].
Qed.

(** *** The copy is the same graph *)

Section copied_graph.
Context (src dst dst' : Heap) (mode : CopyMode) (order new : list ObjRef) (root : ObjRef).
Context (Hp : preorder src [root] [] order) (Hc : copied src dst dst' mode order new).

Lemma copied_at r : r ∈ order → forward order new r ∈ new ∧ copied_as src (forward order new) mode dst' r (forward order new r).
Proof.
  intros [i Hi]%list_elem_of_lookup. destruct (Forall2_lookup_l _ _ _ _ _ (cp_graph _ _ _ _ _ _ Hc) Hi) as (r' & Hr' & -> & Hcp).
  split; [by eapply list_elem_of_lookup_2|done].
Qed.

Lemma copied_from r' : r' ∈ new → ∃ r, r ∈ order ∧ r' = forward order new r.
Proof.
  intros Hr'. destruct (Forall2_right _ _ _ _ (cp_graph _ _ _ _ _ _ Hc) Hr') as (r & Hr & E & _). by exists r.
Qed.

Lemma forward_inj r1 r2 : r1 ∈ order → r2 ∈ order → forward order new r1 = forward order new r2 → r1 = r2.
Proof.
  intros [i Hi]%list_elem_of_lookup [j Hj]%list_elem_of_lookup E. pose proof (cp_graph _ _ _ _ _ _ Hc) as Hg.
  destruct (Forall2_lookup_l _ _ _ _ _ Hg Hi) as (r1' & H1 & E1 & _). destruct (Forall2_lookup_l _ _ _ _ _ Hg Hj) as (r2' & H2 & E2 & _).
  assert (i = j) as -> by (eapply (NoDup_lookup new); [apply Hc|exact H1|congruence]). congruence.
Qed.

Lemma copied_children r : r ∈ order → children_of dst' (forward order new r) = forward order new <$> children_of src r.
Proof.
  intros Hr. destruct (copied_at r Hr) as (_ & f & o & E & E'). unfold children_of, object_of. rewrite E, E'. simpl.
  apply copy_children_law.
Qed.

Lemma copied_reachable x : reachable dst' [forward order new root] x ↔ ∃ r, reachable src [root] r ∧ x = forward order new r.
Proof.
  pose proof (preorder_reachable src [root] order Hp) as Hreach. split.
  - intros (x0 & ->%list_elem_of_singleton & Hpath). revert x Hpath. apply rtc_ind_r; [|intros y z _ He IH].
    + exists root. split; [apply reachable_root; by left|done].
    + destruct IH as (r & Hr & ->). unfold edge in He. rewrite copied_children in He by (by apply Hreach).
      apply list_elem_of_fmap in He as (c & -> & Hcr). exists c. split; [|done]. by eapply reachable_step.
  - intros (r & (r0 & ->%list_elem_of_singleton & Hpath) & ->). exists (forward order new root). split; [by left|].
    revert r Hpath. apply (rtc_ind_r (λ r, rtc (edge dst') (forward order new root) (forward order new r))); [done|].
    intros y z Hpath He IH. eapply rtc_r; [exact IH|].
    unfold edge. rewrite copied_children; [by apply list_elem_of_fmap_2|]. apply Hreach. exists root. split; [by left|done].
Qed.
End copied_graph.
End TransferFacts.
