(* ===== verification/TransferProps.v ===== *)
(** * What a copy promises

    A transfer or a detached copy between heaps, and a copy inside one: the
    result is the same graph at fresh references, or the destination keeps
    everything its roots reach. *)

From stdpp Require Import base numbers option gmap strings list relations.
From S2P Require Import Prelude Fault Value Pages TextViews SlotTable TextViewsInv TextViewsBatch MapIndex Heap Objects Ledger HeapInv HeapOps HeapAlloc HeapSweep Graph GraphTables GraphWalk GraphModes HeapSteps HeapProps HeapFrame Transfer TransferFacts.

Section theorems.
Context `{HT : HeapTypes} `{HL : !HeapLaws} `{CT : !CopyTypes} `{CL : !CopyLaws} `{HM : HostMemory}.

(** [dst'] holds at fresh references the graph of [src] under [root], with
    [root'] in the place of [root]: one new object per source object, cycles
    and sharing kept, every frozen bit kept or set, and nothing else changed. *)
Definition same_graph (src dst dst' : Heap) (mode : CopyMode) (root root' : ObjRef) : Prop :=
  ∃ fw : ObjRef → ObjRef, root' = fw root ∧
    (∀ r1 r2, reachable src [root] r1 → reachable src [root] r2 → fw r1 = fw r2 → r1 = r2) ∧
    (∀ r, reachable src [root] r → read dst (fw r) = None ∧
       ∃ f o, read src r = Some (f, o) ∧ read dst' (fw r) = Some (copied_bit mode f o, copy_object fw o)) ∧
    (∀ r, reachable src [root] r → children_of dst' (fw r) = fw <$> children_of src r) ∧
    (∀ x, reachable dst' [root'] x ↔ ∃ r, reachable src [root] r ∧ x = fw r) ∧
    (∀ x, (∀ r, reachable src [root] r → x ≠ fw r) → read dst' x = read dst x) ∧
    heap_ok dst' ∧ heap_exact dst' ∧ hp_host_roots dst' = hp_host_roots dst.

Lemma copied_same_graph src dst dst' mode order new root :
  preorder src [root] [] order → copied src dst dst' mode order new →
  same_graph src dst dst' mode root (forward order new root).
Proof.
  intros Hp Hc. pose proof (preorder_reachable src [root] order Hp) as Hreach.
  exists (forward order new). split_and!; [done|..|apply Hc|apply Hc|apply Hc].
  - intros r1 r2 H1%Hreach H2%Hreach. by eapply forward_inj.
  - intros r Hr%Hreach. destruct (copied_at src dst dst' mode order new Hc r Hr) as [Hn Hcp].
    split; [by apply (cp_fresh _ _ _ _ _ _ Hc)|exact Hcp].
  - intros r Hr%Hreach. by eapply copied_children.
  - intros x. by eapply copied_reachable.
  - intros x Hx. apply (cp_other _ _ _ _ _ _ Hc). intros Hn.
    destruct (copied_from src dst dst' mode order new Hc x Hn) as (r & Hr & E). apply (Hx r); [by apply Hreach|done].
Qed.

(** C5. A transfer between two heaps copies the graph or changes nothing that
    is reachable.  It never panics.  When the graph is within the limits, every
    object of it may cross, and it fits the destination, if need be after a
    collection, the result is the root of an isomorphic copy at fresh
    references, with cycles, sharing and frozen bits kept (all set by a
    detached copy), and the accounts of the destination stay exact.  Otherwise
    the destination is as it was, or has only been collected, and the fault is
    the limit, the unsendable object or the heap limit that caused it. *)
Theorem transfer_copies_graph cap src s dst ds roots root limits mode :
  heap_ok src → scratch_ok s → closed src [root] → graph_fits src [root] → graph_capped cap src root →
  (∀ order, preorder src [root] [] order → copy_ready cap dst (lenN order)) → scratch_ok ds →
  closed dst (roots ++ host_roots dst) → graph_fits dst (roots ++ host_roots dst) →
  ∃ order result s' dst' ds', preorder src [root] [] order ∧
    copy_value src s dst ds roots (VObj root) limits mode = Ret (result, s', dst', ds') ∧
    match result with
    | Ok value => within limits (graph_cost src [root] order) = true ∧ Forall (λ r, sendable_verdict src r = None) order ∧
        ∃ dst1 root', settled dst dst1 (roots ++ host_roots dst) ∧ value = VObj root' ∧
          same_graph src dst1 dst' mode root root'
    | Err fault => (dst' = dst ∧ stops limits (sendable_verdict src) order (graph_cost src [root] order) fault) ∨
        (fault = HeapLimit ∧ collected dst dst' (roots ++ host_roots dst) ∧
         (hp_cap_bytes dst < hp_used_bytes dst' + sumN (size_of src) order)%N)
    end.
Proof.
  intros Hsrc Hs Hc Hf Hcap Hr Hds Hcd Hfd. destruct (closed_preorder src [root] Hsrc Hc) as [order Hp].
  destruct (copy_value_spec cap src s dst ds roots root limits mode order) as (result & s' & dst' & ds' & E & _ & Hres);
    [done|done|done|done|done|by apply Hr|done|done|done|done|].
  exists order, result, s', dst', ds'. split_and!; [done|done|]. destruct result as [value|fault]; [|exact Hres].
  destruct Hres as (Hw & Hv & dst1 & new & Hset & Hcp & ->). split_and!; [done|done|].
  exists dst1, (forward order new root). split_and!; [done|done|]. by eapply copied_same_graph.
Qed.

(** C27. A copy inside one heap makes a second graph beside the first.  The
    source roots itself for the length of the call, so a collection that makes
    room keeps it; the call ends with the host roots it found; and the result
    is an isomorphic copy at fresh references, or everything reachable is as it
    was. *)
Theorem copy_within_copies_graph cap h s roots root limits :
  heap_ok h → scratch_ok s → (∀ order, preorder h [root] [] order → copy_ready cap h (lenN order)) →
  graph_fits h [root] → closed h (within_roots h roots root) → graph_fits h (within_roots h roots root) →
  graph_capped cap h root →
  ∃ order result h' s', preorder h [root] [] order ∧ copy_within h s roots (VObj root) limits = Ret (result, h', s') ∧
    match result with
    | Ok value => within limits (graph_cost h [root] order) = true ∧ Forall (λ r, sendable_verdict h r = None) order ∧
        ∃ h1 root', settled h h1 (within_roots h roots root) ∧ value = VObj root' ∧
          same_graph h h1 h' ModeTransfer root root'
    | Err fault => (h' = h ∧ stops limits (sendable_verdict h) order (graph_cost h [root] order) fault) ∨
        (fault = HeapLimit ∧ collected h h' (within_roots h roots root) ∧
         (hp_cap_bytes h < hp_used_bytes h' + sumN (size_of h) order)%N)
    end.
Proof.
  intros H Hs Hr Hf Hca Hfa Hcap.
  assert (Hc : closed h [root]) by (intros r Hrr; by eapply Hca, within_reachable).
  destruct (closed_preorder h [root] H Hc) as [order Hp].
  destruct (copy_within_spec cap h s roots root limits order) as (result & h' & s' & E & _ & Hres); [by apply Hr|done..|].
  exists order, result, h', s'. split_and!; [done|done|]. destruct result as [value|fault]; [|exact Hres].
  destruct Hres as (Hw & Hv & h1 & new & Hset & Hcp & ->). split_and!; [done|done|].
  exists h1, (forward order new root). split_and!; [done|done|]. by eapply copied_same_graph.
Qed.
End theorems.

(** ** Their witnesses *)

#[local] Existing Instance plain.
#[local] Existing Instance ample.

Definition demo_cap (key : N) : N := if (key =? 7)%N then 10%N else 20%N.

Lemma demo_reach r : reachable demo [demo_list] r → r = demo_list ∨ r = demo_text.
Proof.
  rewrite <-(preorder_reachable demo _ _ demo_order). intros [->|[->|H%not_elem_of_nil]%elem_of_cons]%elem_of_cons; auto.
  done.
Qed.

Lemma demo_graph_capped : graph_capped demo_cap demo demo_list.
Proof.
  intros r o Hr Eo. destruct (demo_reach r Hr) as [->| ->].
  - assert (E : object_of demo demo_list = Some demo_ring) by by_compute. rewrite E in Eo. by simplify_eq.
  - assert (E : object_of demo demo_text = Some (str 7 10)) by by_compute. rewrite E in Eo. simplify_eq.
    intros key capacity [= <- <-]. done.
Qed.

Definition target : Heap := heap_new 5000.

Lemma target_ready order : preorder demo [demo_list] [] order → copy_ready demo_cap target (lenN order).
Proof.
  intros Hp. rewrite (preorder_det demo _ _ _ _ Hp demo_order).
  constructor; [apply heap_new_ok|apply heap_new_exact|by intros k c Hk|by_compute|by_compute].
Qed.

Lemma target_closed : closed target ([] ++ host_roots target) ∧ graph_fits target ([] ++ host_roots target).
Proof.
  assert (E : [] ++ host_roots target = []) by by_compute. rewrite E. split.
  - by intros r (root & Hr%not_elem_of_nil & _).
  - intros order Hp. inversion Hp; subst. split_and!; by_compute.
Qed.

Lemma transfer_copies_graph_witness :
  ∃ value s' dst' ds', copy_value demo scratch_default target scratch_default [] (VObj demo_list) UNBOUNDED ModeTransfer
      = Ret (Ok value, s', dst', ds') ∧
    ∃ dst1 root', value = VObj root' ∧ same_graph demo dst1 dst' ModeTransfer demo_list root'.
Proof.
  destruct (transfer_copies_graph demo_cap demo scratch_default target scratch_default [] demo_list UNBOUNDED ModeTransfer
    (proj1 demo_ok) scratch_default_ok demo_closed demo_fits demo_graph_capped target_ready scratch_default_ok
    (proj1 target_closed) (proj2 target_closed)) as (order & result & s' & dst' & ds' & Hp & E & Hres).
  rewrite (preorder_det demo _ _ _ _ Hp demo_order) in Hres. destruct result as [value|fault].
  - destruct Hres as (_ & _ & dst1 & root' & _ & Ev & Hg). exists value, s', dst', ds'. split; [exact E|].
    exists dst1, root'. split; [exact Ev|exact Hg].
  - exfalso. destruct Hres as [[_ Hst]|(_ & Hcl & Hout)].
    + destruct Hst as [[_ Hw]|(v1 & r & v2 & Eo & _ & Hr)]; [revert Hw; by_compute|].
      assert (Hin : r ∈ [demo_list; demo_text]) by (rewrite Eo, elem_of_app, elem_of_cons; tauto).
      apply elem_of_cons in Hin as [->|[->|Hin%not_elem_of_nil]%elem_of_cons]; [revert Hr; by_compute..|done].
    + pose proof (cl_used _ _ _ Hcl) as Hu. assert (Ez : hp_used_bytes target = 0%N) by by_compute.
      assert (Es : (sumN (size_of demo) [demo_list; demo_text] <= hp_cap_bytes target)%N) by by_compute. lia.
Defined.

Lemma demo_ready order : preorder demo [demo_list] [] order → copy_ready demo_cap demo (lenN order).
Proof.
  intros Hp. rewrite (preorder_det demo _ _ _ _ Hp demo_order). constructor; [apply demo_ok|apply demo_ok| |by_compute|by_compute].
  intros k c Hk. assert (Em : hp_shared_allocations demo = {[7%N := mkCharge 10 1; 8%N := mkCharge 20 1]}) by by_compute.
  rewrite Em in Hk. apply lookup_insert_Some in Hk as [[<- <-]|[_ Hk]]; [done|].
  apply lookup_singleton_Some in Hk as [<- <-]. done.
Qed.

Lemma demo_within : within_roots demo [] demo_list = [demo_list].
Proof. by_compute. Qed.

Lemma copy_within_copies_graph_witness :
  ∃ value h' s', copy_within demo scratch_default [] (VObj demo_list) UNBOUNDED = Ret (Ok value, h', s') ∧
    ∃ h1 root', value = VObj root' ∧ same_graph demo h1 h' ModeTransfer demo_list root'.
Proof.
  destruct (copy_within_copies_graph demo_cap demo scratch_default [] demo_list UNBOUNDED
    (proj1 demo_ok) scratch_default_ok demo_ready demo_fits) as (order & result & h' & s' & Hp & E & Hres);
    [rewrite demo_within; exact demo_closed|rewrite demo_within; exact demo_fits|exact demo_graph_capped|].
  rewrite (preorder_det demo _ _ _ _ Hp demo_order) in Hres. destruct result as [value|fault].
  - destruct Hres as (_ & _ & h1 & root' & _ & Ev & Hg). exists value, h', s'. split; [exact E|].
    exists h1, root'. split; [exact Ev|exact Hg].
  - exfalso. destruct Hres as [[_ Hst]|(_ & Hcl & Hout)].
    + destruct Hst as [[_ Hw]|(v1 & r & v2 & Eo & _ & Hr)]; [revert Hw; by_compute|].
      assert (Hin : r ∈ [demo_list; demo_text]) by (rewrite Eo, elem_of_app, elem_of_cons; tauto).
      apply elem_of_cons in Hin as [->|[->|Hin%not_elem_of_nil]%elem_of_cons]; [revert Hr; by_compute..|done].
    + pose proof (cl_used _ _ _ Hcl) as Hu.
      assert (Es : (hp_used_bytes demo + sumN (size_of demo) [demo_list; demo_text] <= hp_cap_bytes demo)%N) by by_compute. lia.
Defined.
