(* ===== verification/Machine.v ===== *)
(** * The machine: arenas, frames, roots and callbacks

    lm-vm/src/machine: the state one machine executes on, and the operations
    every instruction is built from.  [stack.rs] gives the operand readers and
    the integer pairs, [heap.rs] the collection roots, allocation and the
    callback arena, [calls.rs] the frames.

    A call answers [machine A]: it may panic, and it answers a value or a fault
    together with the machine it leaves, because a fault keeps the operands it
    has consumed.  Vectors are lists in the order of the source, the top of a
    stack last.

    [Machine] has the fields these operations read.  The type environments of
    the world, which the source passes beside the machine, and the work tables
    of the heap are fields of it; resources, metrics and the scheduling state
    are not.  Native code is a parameter: the state it retains is a type of
    [MachineTypes], and [NativeFrames] writes it back into the arenas. *)

From stdpp Require Import base numbers option gmap list.
From S2P Require Import Prelude Fault Value Pages TextViews MapIndex Heap Objects Graph.

(** *** Data *)

Definition BAD_TYPE : FaultCode := TypeMismatch.
Definition BAD_STATE : FaultCode := MalformedState.

Inductive FrameCapture := CaptureClosure (r : ObjRef) | CaptureCallback (r : CallbackRef).

Definition capture_from_value (v : Value) : option FrameCapture :=
  match v with
  | VObj r => Some (CaptureClosure r)
  | VCallback r => Some (CaptureCallback r)
  | _ => None
  end.
Definition capture_value (c : FrameCapture) : Value :=
  match c with CaptureClosure r => VObj r | CaptureCallback r => VCallback r end.

Record Frame := mkFrame {
  fr_func : N;
  fr_block : N;
  fr_ip : N;
  fr_base_local : N;
  fr_base_operand : N;
  fr_closure : option FrameCapture;
  fr_env : TypeEnvId;
}.

Record CallbackDescriptor := mkCallback {
  cb_func : N;
  cb_captures : list Value;
  cb_env : TypeEnvId;
  cb_owner_depth : N;
}.

Record CallbackSlot := mkCallbackSlot {
  cs_generation : N;
  cs_descriptor : option CallbackDescriptor;
}.

(** The wait sources that hold a value: [WaitSource::Operation { ready }]. *)
Inductive WaitSource :=
| WaitReceive
| WaitDrive (target : N)
| WaitChoice (first second : N)
| WaitAny (roots : list N)
| WaitOperation (op : N) (ready : option Value).

Inductive Terminal := TerminalDone (v : Value) | TerminalFault (code : FaultCode).

Inductive Action := ActionPass | ActionBlock | ActionMock (r : ObjRef).

(** The limits of [VmConfig] that execution reads. *)
Record VmConfig := mkConfig {
  max_frames : N;
  max_stack_values : N;
  graph_limits : GraphLimits;
}.

(** *** Code that is not the interpreter's *)

(** What native execution retains across a quantum, the table of type
    environments of the world, and the host's answer to [try_reserve(1)] on an
    arena of that many callbacks. *)
Class MachineTypes := {
  NativeContinuation : Type;
  (** [extend_gc_roots]. *)
  continuation_roots : NativeContinuation → list ObjRef;
  TypeEnvs : Type;
  callback_reserve : N → bool;
}.

Section Machine.
Context `{PL : Payloads} `{HM : HostMemory} `{MT : MachineTypes}.

Record Machine := mkMachine {
  mc_heap : Heap;
  mc_scratch : GraphScratch;
  mc_frames : list Frame;
  mc_locals : list Value;
  mc_operands : list Value;
  mc_fuel : N;
  mc_pending : option (list Value);
  mc_waits : list (N * WaitSource);
  mc_mailbox : list Value;
  mc_terminal : option Terminal;
  mc_literals : list Value;
  mc_table : list Action;
  mc_start_body : option ObjRef;
  mc_regex_compile : option ObjRef;
  mc_callbacks : list CallbackSlot;
  mc_native : option NativeContinuation;
  mc_envs : TypeEnvs;
  mc_config : VmConfig;
}.

Definition set_heap (m : Machine) (h : Heap) (s : GraphScratch) : Machine :=
  mkMachine h s (mc_frames m) (mc_locals m) (mc_operands m) (mc_fuel m) (mc_pending m) (mc_waits m)
    (mc_mailbox m) (mc_terminal m) (mc_literals m) (mc_table m) (mc_start_body m) (mc_regex_compile m)
    (mc_callbacks m) (mc_native m) (mc_envs m) (mc_config m).
Definition set_arenas (m : Machine) frames locals operands : Machine :=
  mkMachine (mc_heap m) (mc_scratch m) frames locals operands (mc_fuel m) (mc_pending m) (mc_waits m)
    (mc_mailbox m) (mc_terminal m) (mc_literals m) (mc_table m) (mc_start_body m) (mc_regex_compile m)
    (mc_callbacks m) (mc_native m) (mc_envs m) (mc_config m).
Definition set_operands (m : Machine) operands : Machine := set_arenas m (mc_frames m) (mc_locals m) operands.
Definition set_locals (m : Machine) locals : Machine := set_arenas m (mc_frames m) locals (mc_operands m).
Definition set_frames (m : Machine) frames : Machine := set_arenas m frames (mc_locals m) (mc_operands m).
Definition set_fuel (m : Machine) (fuel : N) : Machine :=
  mkMachine (mc_heap m) (mc_scratch m) (mc_frames m) (mc_locals m) (mc_operands m) fuel (mc_pending m)
    (mc_waits m) (mc_mailbox m) (mc_terminal m) (mc_literals m) (mc_table m) (mc_start_body m)
    (mc_regex_compile m) (mc_callbacks m) (mc_native m) (mc_envs m) (mc_config m).
Definition set_callbacks (m : Machine) callbacks : Machine :=
  mkMachine (mc_heap m) (mc_scratch m) (mc_frames m) (mc_locals m) (mc_operands m) (mc_fuel m) (mc_pending m)
    (mc_waits m) (mc_mailbox m) (mc_terminal m) (mc_literals m) (mc_table m) (mc_start_body m)
    (mc_regex_compile m) callbacks (mc_native m) (mc_envs m) (mc_config m).
Definition set_envs (m : Machine) (envs : TypeEnvs) : Machine :=
  mkMachine (mc_heap m) (mc_scratch m) (mc_frames m) (mc_locals m) (mc_operands m) (mc_fuel m) (mc_pending m)
    (mc_waits m) (mc_mailbox m) (mc_terminal m) (mc_literals m) (mc_table m) (mc_start_body m)
    (mc_regex_compile m) (mc_callbacks m) (mc_native m) envs (mc_config m).

(** *** Calls on a machine *)

Definition machine (A : Type) : Type := Machine → exec (result A FaultCode * Machine).

#[global] Instance machine_ret : MRet machine := λ A a m, Ret (Ok a, m).
#[global] Instance machine_bind : MBind machine := λ A B f x m,
  match x m with
  | Ret (Ok a, m) => f a m
  | Ret (Err fault, m) => Ret (Err fault, m)
  | Panic => Panic
  | NoFuel => NoFuel
  end.

Definition fail {A} (fault : FaultCode) : machine A := λ m, Ret (Err fault, m).
(** [o.ok_or(fault)?]. *)
Definition ok_or {A} (o : option A) (fault : FaultCode) : machine A :=
  match o with Some a => mret a | None => fail fault end.
Definition try_ {A} (r : result A FaultCode) : machine A :=
  match r with Ok a => mret a | Err fault => fail fault end.
Definition reads {A} (f : Machine → A) : machine A := λ m, Ret (Ok (f m), m).
Definition writes (f : Machine → Machine) : machine unit := λ m, Ret (Ok tt, f m).
(** A heap call that may panic; [with_heap] keeps the heap it leaves. *)
Definition on_heap {A} (f : Heap → exec A) : machine A := λ m, a ← f (mc_heap m); Ret (Ok a, m).
Definition with_heap {A} (f : Heap → exec (A * Heap)) : machine A := λ m,
  '(a, h) ← f (mc_heap m); Ret (Ok a, set_heap m h (mc_scratch m)).
Definition update_heap (f : Heap → exec Heap) : machine unit := λ m,
  h ← f (mc_heap m); Ret (Ok tt, set_heap m h (mc_scratch m)).

(** [materialize_native_continuation], and the answer [is_err]. *)
Class NativeFrames := materialize_native_continuation : Machine → bool * Machine.
Context `{NF : NativeFrames}.

(** *** Operands *)

Definition push (v : Value) : machine unit := λ m,
  let '(is_err, m) := match mc_native m with Some _ => materialize_native_continuation m | None => (false, m) end in
  if (is_err : bool) then Ret (Err MalformedState, m)
  else if (max_stack_values (mc_config m) <=? lenN (mc_operands m) + lenN (mc_locals m))%N then Ret (Err StackLimit, m)
  else Ret (Ok tt, set_operands m (mc_operands m ++ [v])).

Definition local_at (slot : N) : machine N :=
  frames ← reads mc_frames;
  frame ← ok_or (last frames) BAD_STATE;
  mret (fr_base_local frame + slot)%N.

Definition peek (back : N) : machine Value := λ m,
  match checked_sub (lenN (mc_operands m)) (back + 1) with
  | None => Ret (Err BAD_STATE, m)
  | Some at_ => v ← of_option (mc_operands m !! N.to_nat at_); Ret (Ok v, m)
  end.

(** [Vec::pop] and [Vec::truncate]. *)
Definition vec_pop {A} (l : list A) : option A * list A := (last l, take (length l - 1) l).
#[global] Arguments vec_pop {A} l : simpl never.
Definition truncate {A} (l : list A) (len : N) : list A := take (N.to_nat len) l.

Definition pop : machine Value := λ m,
  let '(v, operands) := vec_pop (mc_operands m) in
  match v with Some v => Ret (Ok v, set_operands m operands) | None => Ret (Err BAD_STATE, set_operands m operands) end.

Definition pop_int : machine Z := v ← pop; match v with VInt v => mret v | _ => fail BAD_TYPE end.
Definition pop_float_bits : machine N := v ← pop; match v with VFloat bits => mret bits | _ => fail BAD_TYPE end.
Definition pop_bool : machine bool := v ← pop; match v with VBool b => mret b | _ => fail BAD_TYPE end.
Definition pop_char : machine N := v ← pop; match v with VChar c => mret c | _ => fail BAD_TYPE end.
Definition pop_obj : machine ObjRef := v ← pop; match v with VObj r => mret r | _ => fail BAD_TYPE end.

(** [Vec::split_off] at [argc] values below the top. *)
Definition take_arguments (argc : N) : machine (list Value) := λ m,
  match checked_sub (lenN (mc_operands m)) argc with
  | None => Ret (Err BAD_STATE, m)
  | Some split =>
      Ret (Ok (drop (N.to_nat split) (mc_operands m)), set_operands m (truncate (mc_operands m) split))
  end.

(** *** Integer pairs *)

Definition short_int_pair : machine (N * Z * Z) := λ m,
  let '(v, operands) := vec_pop (mc_operands m) in
  let m := set_operands m operands in
  match v with
  | None | Some (VInt _) => Ret (Err BAD_STATE, m)
  | Some _ => Ret (Err BAD_TYPE, m)
  end.

Definition int_pair : machine (N * Z * Z) := λ m,
  let len := lenN (mc_operands m) in
  if (len <? 2)%N then short_int_pair m
  else
    b ← of_option (mc_operands m !! N.to_nat (len - 1));
    match b with
    | VInt b =>
        let at_ := (len - 2)%N in
        a ← of_option (mc_operands m !! N.to_nat at_);
        match a with
        | VInt a => Ret (Ok (at_, a, b), m)
        | _ => Ret (Err BAD_TYPE, set_operands m (truncate (mc_operands m) at_))
        end
    | _ => Ret (Err BAD_TYPE, set_operands m (truncate (mc_operands m) (len - 1)))
    end.

Definition replace_pair (at_ : N) (v : Value) : machine unit := λ m,
  _ ← of_option (mc_operands m !! N.to_nat at_);
  Ret (Ok tt, set_operands m (truncate (<[N.to_nat at_ := v]> (mc_operands m)) (at_ + 1))).

Definition truncate_operands (len : N) : machine unit := writes (λ m, set_operands m (truncate (mc_operands m) len)).

Definition int_binary (op : Z → Z → option Z) : machine unit :=
  '(at_, a, b) ← int_pair;
  match op a b with
  | None => _ ← truncate_operands at_; fail IntegerOverflow
  | Some v => replace_pair at_ (VInt v)
  end.

Definition int_compare (op : Z → Z → bool) : machine unit :=
  '(at_, a, b) ← int_pair; replace_pair at_ (VBool (op a b)).

(** [left / right] and [left % right] truncate toward zero. *)
Definition int_div : machine unit :=
  '(at_, l, r) ← int_pair;
  if (r =? 0)%Z then _ ← truncate_operands at_; fail DivideByZero
  else if (l =? I64_MIN)%Z && (r =? -1)%Z then _ ← truncate_operands at_; fail IntegerOverflow
  else replace_pair at_ (VInt (Z.quot l r)).
Definition int_rem : machine unit :=
  '(at_, l, r) ← int_pair;
  if (r =? 0)%Z then _ ← truncate_operands at_; fail DivideByZero
  else if (l =? I64_MIN)%Z && (r =? -1)%Z then _ ← truncate_operands at_; fail IntegerOverflow
  else replace_pair at_ (VInt (Z.rem l r)).

(** [i64::checked_add], [checked_sub], [checked_mul] and [checked_neg]. *)
Definition checked_i64 (v : Z) : option Z := if (I64_MIN <=? v)%Z && (v <=? I64_MAX)%Z then Some v else None.
Definition checked_add (a b : Z) : option Z := checked_i64 (a + b).
Definition checked_sub_i64 (a b : Z) : option Z := checked_i64 (a - b).
Definition checked_mul (a b : Z) : option Z := checked_i64 (a * b).
Definition checked_neg (a : Z) : option Z := checked_i64 (- a).

(** *** Collection roots *)

Definition refs_of (values : list Value) : list ObjRef := omap as_obj values.

Definition frame_roots (frames : list Frame) : list ObjRef :=
  omap (λ f, match fr_closure f with Some (CaptureClosure r) => Some r | _ => None end) frames.
Definition callback_roots (callbacks : list CallbackSlot) : list ObjRef :=
  concat ((λ s, match cs_descriptor s with Some d => refs_of (cb_captures d) | None => [] end) <$> callbacks).

Definition extend_non_arena_gc_roots (m : Machine) : list ObjRef :=
  frame_roots (mc_frames m) ++
  callback_roots (mc_callbacks m) ++
  match mc_pending m with Some args => refs_of args | None => [] end ++
  omap (λ w, match snd w with WaitOperation _ (Some v) => as_obj v | _ => None end) (mc_waits m) ++
  match mc_terminal m with Some (TerminalDone (VObj r)) => [r] | _ => [] end ++
  refs_of (mc_mailbox m) ++
  omap (λ a, match a with ActionMock r => Some r | _ => None end) (mc_table m) ++
  option_list (mc_start_body m) ++
  option_list (mc_regex_compile m) ++
  refs_of (mc_literals m).

Definition gc_roots (m : Machine) (extra : list ObjRef) : list ObjRef :=
  match mc_native m with Some continuation => continuation_roots continuation | None => [] end ++
  refs_of (mc_locals m ++ mc_operands m) ++
  extend_non_arena_gc_roots m ++
  extra.

(** The roots a snapshot writes: no policy table, no retained native state. *)
Definition snapshot_roots (m : Machine) : list ObjRef :=
  frame_roots (mc_frames m) ++
  callback_roots (mc_callbacks m) ++
  refs_of (mc_locals m ++ mc_operands m) ++
  match mc_pending m with Some args => refs_of args | None => [] end ++
  match mc_terminal m with Some (TerminalDone (VObj r)) => [r] | _ => [] end ++
  refs_of (mc_mailbox m) ++
  option_list (mc_start_body m) ++
  refs_of (mc_literals m).

Definition collect_garbage (extra : list ObjRef) : machine unit := λ m,
  '(h, s) ← collect (mc_heap m) (mc_scratch m) (gc_roots m extra); Ret (Ok tt, set_heap m h s).

(** *** Allocation *)

Definition alloc_with_roots (object : Object) (values : list Value) : machine Value :=
  cost ← on_heap (λ h, allocation_cost h object);
  h ← reads mc_heap;
  _ ← (if collection_due h cost then
         _ ← collect_garbage (children object ++ refs_of values);
         cost ← on_heap (λ h, allocation_cost h object);
         h ← reads mc_heap;
         if would_exceed h cost then fail HeapLimit else mret tt
       else mret tt);
  r ← with_heap (λ h, alloc h object);
  mret (VObj r).
Definition machine_alloc (object : Object) : machine Value := alloc_with_roots object [].

(** Room for [delta] bytes of growth; [temps] are values popped from the arenas. *)
Definition reserve (delta : N) (temps : list Value) : machine unit :=
  h ← reads mc_heap;
  if collection_due h delta then
    _ ← collect_garbage (refs_of temps);
    h ← reads mc_heap;
    if would_exceed_growth h delta then fail HeapLimit else mret tt
  else mret tt.

Definition frozen_guard (r : ObjRef) : machine unit :=
  frozen ← on_heap (λ h, is_frozen h r); if (frozen : bool) then fail FrozenWrite else mret tt.

(** A read through [get], and a write through [get_mut] that leaves [object]. *)
Definition heap_get (r : ObjRef) : machine Object := on_heap (λ h, get h r).
Definition heap_put (r : ObjRef) (object : Object) : machine unit := update_heap (λ h, put h r object).
Definition heap_recharge (r : ObjRef) : machine unit := update_heap (λ h, recharge h r).
Definition heap_recharge_local (r : ObjRef) : machine unit := update_heap (λ h, recharge_local h r).

(** *** Callbacks *)

Definition callback_at (callbacks : list CallbackSlot) (r : CallbackRef) : option CallbackDescriptor :=
  slot ← callbacks !! N.to_nat (cb_slot r);
  if (cs_generation slot =? cb_generation r)%N then cs_descriptor slot else None.
Definition callback (r : CallbackRef) : machine CallbackDescriptor :=
  callbacks ← reads mc_callbacks; ok_or (callback_at callbacks r) BAD_TYPE.

#[global] Instance CallbackDescriptor_none_dec (s : CallbackSlot) : Decision (cs_descriptor s = None).
Proof. destruct (cs_descriptor s); [right; done|left; done]. Defined.

Definition alloc_callback_native (func : N) (captures : list Value) (env : TypeEnvId) (owner_depth : N) :
    machine Value := λ m,
  if (owner_depth =? 0)%N || (max_frames (mc_config m) <? owner_depth)%N then Ret (Err StackLimit, m)
  else
    let descriptor := mkCallback func captures env owner_depth in
    match list_find (λ s, cs_descriptor s = None) (mc_callbacks m) with
    | Some (slot, entry) =>
        Ret (Ok (VCallback (mkCallbackRef (as_u32 (N.of_nat slot)) (cs_generation entry))),
             set_callbacks m (<[slot := mkCallbackSlot (cs_generation entry) (Some descriptor)]> (mc_callbacks m)))
    | None =>
        if negb (callback_reserve (lenN (mc_callbacks m))) then Ret (Err StackLimit, m)
        else
          Ret (Ok (VCallback (mkCallbackRef (as_u32 (lenN (mc_callbacks m))) 0)),
               set_callbacks m (mc_callbacks m ++ [mkCallbackSlot 0 (Some descriptor)]))
    end.

Definition alloc_callback (func : N) (captures : list Value) (env : TypeEnvId) : machine Value :=
  frames ← reads mc_frames;
  if (U32_MAX <? lenN frames)%N then fail StackLimit
  else alloc_callback_native func captures env (lenN frames).

(** *** Releasing callbacks after a return *)

Definition callback_refs (values : list Value) : list CallbackRef :=
  omap (λ v, match v with VCallback r => Some r | _ => None end) values.

Definition owned_from (depth : N) (s : CallbackSlot) : bool :=
  match cs_descriptor s with Some d => (depth <=? cb_owner_depth d)%N | None => false end.

(** The work list, its last reference next; a slot is expanded once. *)
Fixpoint mark_callbacks (fuel : nat) (callbacks : list CallbackSlot) (work : list CallbackRef) (marked : list bool) :
    exec (list bool) :=
  match fuel with
  | O => NoFuel
  | S fuel =>
      match vec_pop work with
      | (None, _) => Ret marked
      | (Some r, work) =>
          match callbacks !! N.to_nat (cb_slot r) with
          | None => mark_callbacks fuel callbacks work marked
          | Some slot =>
              if negb (cs_generation slot =? cb_generation r)%N || default true (marked !! N.to_nat (cb_slot r))
              then mark_callbacks fuel callbacks work marked
              else
                mark_callbacks fuel callbacks
                  (work ++ match cs_descriptor slot with Some d => callback_refs (cb_captures d) | None => [] end)
                  (<[N.to_nat (cb_slot r) := true]> marked)
          end
      end
  end.

Definition captured_refs (callbacks : list CallbackSlot) : list CallbackRef :=
  concat ((λ s, match cs_descriptor s with Some d => callback_refs (cb_captures d) | None => [] end) <$> callbacks).

Definition release_slot (depth : N) (s : CallbackSlot) (marked : bool) : CallbackSlot :=
  if owned_from depth s && negb marked then mkCallbackSlot ((cs_generation s + 1) mod 4294967296) None else s.

Definition callback_seeds (m : Machine) : list CallbackRef :=
  callback_refs (mc_locals m ++ mc_operands m) ++
  omap (λ f, match fr_closure f with Some (CaptureCallback r) => Some r | _ => None end) (mc_frames m).

(** Every reference is pushed by a seed or by the one expansion of its slot. *)
Definition mark_fuel (callbacks : list CallbackSlot) (seeds : list CallbackRef) : nat :=
  S (length seeds + length (captured_refs callbacks)).

Definition collect_callbacks : machine unit := λ m,
  let depth := as_u32 (lenN (mc_frames m)) in
  if negb (existsb (owned_from depth) (mc_callbacks m)) then Ret (Ok tt, m)
  else
    marked ← mark_callbacks (mark_fuel (mc_callbacks m) (callback_seeds m)) (mc_callbacks m) (callback_seeds m)
               (replicate (length (mc_callbacks m)) false);
    Ret (Ok tt, set_callbacks m (zip_with (release_slot depth) (mc_callbacks m) marked)).

Definition release_callbacks : machine unit :=
  callbacks ← reads mc_callbacks; if decide (length callbacks = 0) then mret tt else collect_callbacks.

(** *** Frames *)

Definition frame_env (m : Machine) : TypeEnvId :=
  match last (mc_frames m) with Some f => fr_env f | None => TypeEnvId_EMPTY end.

(** The callee of a call: its parameters and its local slots. *)
Record Signature := mkSignature { fn_params : N; fn_local_count : N }.

Definition push_frame (callee : N) (signature : option Signature) (consume : N) (closure : option FrameCapture)
    (env : TypeEnvId) : machine unit := λ m,
  if (max_frames (mc_config m) <=? as_u32 (lenN (mc_frames m)))%N then Ret (Err StackLimit, m)
  else
    match signature with
    | None => Ret (Err BAD_STATE, m)
    | Some func =>
        let base_local := as_u32 (lenN (mc_locals m)) in
        match checked_sub (lenN (mc_operands m)) consume with
        | None => Ret (Err BAD_STATE, m)
        | Some arg_start =>
            let new_locals := (lenN (mc_locals m) + fn_local_count func)%N in
            if (max_stack_values (mc_config m) <? new_locals + lenN (mc_operands m))%N then Ret (Err StackLimit, m)
            else
              let locals := mc_locals m ++ drop (N.to_nat arg_start) (mc_operands m) in
              let operands := truncate (mc_operands m) arg_start in
              let locals := resize_vec locals new_locals VUninit in
              let frame := mkFrame callee 0 0 base_local (as_u32 (lenN operands)) closure env in
              Ret (Ok tt, set_arenas m (mc_frames m ++ [frame]) locals operands)
        end
    end.

(** [Instr::Return] and [finish_native_return]: the value that leaves the last
    frame, or [None] when a caller receives it. *)
Definition return_value (v : Value) : machine (option Value) :=
  frames ← reads mc_frames;
  match vec_pop frames with
  | (None, _) => fail BAD_STATE
  | (Some frame, frames) =>
      _ ← writes (λ m, set_arenas m frames (truncate (mc_locals m) (fr_base_local frame))
                         (truncate (mc_operands m) (fr_base_operand frame)));
      if decide (length frames = 0) then _ ← release_callbacks; mret (Some v)
      else _ ← push v; _ ← release_callbacks; mret None
  end.
End Machine.
