(* ===== verification/Collections.v ===== *)
(** * Lists and maps of a machine

    lm-vm/src/machine/heap.rs and collections.rs: key hashes and key equality,
    the lookup index of a map kept as a cache, insertion, removal with
    compaction, probe tokens, and the list and map instructions.  Native map
    keys are scalars, text and bytes; a map over other keys is driven through
    probe tokens by code that calls the guest's own equality.

    The visible bytes of text and byte objects, the bounded copy of a text and
    the private process key are the class [TextBytes]; the caches of computed
    hashes inside a text are not modelled, because they hold the value they
    would be recomputed to.  Vector capacities are not state of the model, so
    the instructions that read or reserve them are not here. *)

From stdpp Require Import base numbers option gmap list.
From S2P Require Import Prelude Fault Value Pages TextViews MapIndex MapIndexFacts Heap Objects Graph Machine.

(** *** Words *)

(** [x as i64] of a [u64], and [v as u64] of an [i64]. *)
Definition as_i64 (x : N) : Z := if (x <? 2 ^ 63)%N then Z.of_N x else (Z.of_N x - 2 ^ 64)%Z.
Definition as_u64 (v : Z) : N := Z.to_N (v mod 2 ^ 64)%Z.
Definition wrapping_mul_u64 (a b : N) : N := ((a * b) mod 2 ^ 64)%N.

(** *** Floating-point keys *)

(** [f64] equality of two bit patterns: NaN equals nothing, the zeros agree. *)
Definition is_zero_bits (bits : N) : bool := ((bits * 2) mod 2 ^ 64 =? 0)%N.
Definition f64_eq (a b : N) : bool :=
  negb (is_nan_bits a) && negb (is_nan_bits b) && ((a =? b)%N || (is_zero_bits a && is_zero_bits b)).
Definition float_eq (a b : N) : bool := f64_eq a b || (is_nan_bits a && is_nan_bits b).
Definition float_hash (bits : N) : Z :=
  let bits := canonical_float_bits bits in if is_zero_bits bits then 0%Z else as_i64 bits.

(** *** Hashes *)

Definition keyed_lookup_hash (key : N) (value : Z) : N :=
  let mixed := N.lxor (as_u64 value) key in
  let mixed := N.lxor mixed (N.shiftr mixed 30) in
  let mixed := wrapping_mul_u64 mixed 0xbf58476d1ce4e5b9 in
  let mixed := N.lxor mixed (N.shiftr mixed 27) in
  let mixed := wrapping_mul_u64 mixed 0x94d049bb133111eb in
  N.lxor mixed (N.shiftr mixed 31).

Definition semantic_hash_bytes (bytes : list N) : N :=
  foldl (λ hash byte, wrapping_mul_u64 (N.lxor hash byte) 0x100000001b3) 0xcbf29ce484222325%N bytes.

Class TextBytes `{PL : Payloads} := {
  text_bytes : SharedText → list N;
  bytes_bytes : SharedBytes → list N;
  (** A copy whose retained allocation is bounded; [None] when the host refuses. *)
  try_bounded : SharedText → option SharedText;
  process_lookup_key : N;
  bytes_slice : SharedBytes → N → N → option SharedBytes;
  utf8_view : SharedBytes → option SharedText;
}.

(** The table of type environments: [envs.close], the class and arguments of an
    instance type, and [envs.intern] of one; [env_fault] is applied. *)
Class EnvTable `{MT : MachineTypes} := {
  env_close : N → TypeEnvId → TypeEnvs → result N FaultCode * TypeEnvs;
  env_instance : TypeEnvs → N → option (N * list N);
  env_intern : N → list N → TypeEnvs → result N FaultCode * TypeEnvs;
}.

(** The core classes a namespace names, [NO_ROLE] for none. *)
Definition NO_ROLE : N := U32_MAX.
Record CoreRoles := mkRoles { role_option : N; role_some : N; role_none : N }.

(** *** Probe tokens *)

Definition map_probe_token (epoch : N) (slot : option N) : result Z FaultCode :=
  match slot with
  | Some slot =>
      if (U32_MAX <? slot + 1)%N then Err BAD_STATE
      else Ok (as_i64 (N.lor (N.shiftl epoch 32) (slot + 1)))
  | None => Ok (as_i64 (N.shiftl epoch 32))
  end.

Definition map_probe_parts (token : Z) : result (N * option N) FaultCode :=
  if (token =? 0)%Z then Err BAD_STATE
  else
    let bits := as_u64 token in
    let epoch := as_u32 (N.shiftr bits 32) in
    if (epoch =? 0)%N then Err BAD_STATE
    else
      let low := as_u32 bits in
      Ok (epoch, if (low =? 0)%N then None else Some (low - 1)%N).

Section Collections.
Context `{PL : Payloads} `{HM : HostMemory} `{MT : MachineTypes} `{NF : !NativeFrames} `{TB : !TextBytes}
  `{ET : !EnvTable} (roles : CoreRoles).

Definition process_lookup_hash (value : Z) : N := keyed_lookup_hash process_lookup_key value.
Definition map_index_hash (hash : Z) : N := process_lookup_hash hash.

Definition text_semantic_hash (t : SharedText) : Z := as_i64 (semantic_hash_bytes (text_bytes t)).
Definition bytes_semantic_hash (b : SharedBytes) : Z := as_i64 (semantic_hash_bytes (bytes_bytes b)).
Definition text_lookup_hash (t : SharedText) : N := process_lookup_hash (text_semantic_hash t).
Definition bytes_lookup_hash (b : SharedBytes) : N := process_lookup_hash (bytes_semantic_hash b).

(** The text a reference names, in either storage class. *)
Definition heap_text (h : Heap) (r : ObjRef) : option SharedText :=
  if is_reference r then (λ p, text_of_view p.1 p.2) <$> view_get (hp_text_views h) r
  else match try_get h r with Some (OStr t) | Some (OSubstring t) => Some t | _ => None end.
Definition is_compact_text (h : Heap) (r : ObjRef) : bool :=
  bool_decide (is_Some (view_get (hp_text_views h) r)).

(** *** Keys *)

Definition same_bytes (a b : list N) : bool := bool_decide (a = b).

Definition key_eq (h : Heap) (a b : Value) : exec bool :=
  match a, b with
  | VInt x, VInt y => Ret (x =? y)%Z
  | VFloat x, VFloat y => Ret (float_eq x y)
  | VBool x, VBool y => Ret (eqb x y)
  | VChar x, VChar y => Ret (x =? y)%N
  | VObj x, VObj y =>
      if decide (x = y) then Ret true
      else
        match heap_text h x, heap_text h y with
        | Some s, Some t => Ret (same_bytes (text_bytes s) (text_bytes t))
        | _, _ =>
            if is_compact_text h x || is_compact_text h y then Ret false
            else
              a ← get h x; b ← get h y;
              Ret match a, b with OBytes s, OBytes t => same_bytes (bytes_bytes s) (bytes_bytes t) | _, _ => false end
        end
  | _, _ => Ret false
  end.

Definition key_hash {A} (scalar : Z → A) (text : SharedText → A) (bytes : SharedBytes → A) (h : Heap) (key : Value) :
    exec (result A FaultCode) :=
  match key with
  | VBool b => Ret (Ok (scalar (if b then 1 else 0)%Z))
  | VInt v => Ret (Ok (scalar v))
  | VFloat bits => Ret (Ok (scalar (float_hash bits)))
  | VChar c => Ret (Ok (scalar (Z.of_N c)))
  | VObj r =>
      match heap_text h r with
      | Some t => Ret (Ok (text t))
      | None => o ← get h r; Ret match o with OBytes b => Ok (bytes b) | _ => Err BAD_TYPE end
      end
  | _ => Ret (Err BAD_TYPE)
  end.
Definition key_semantic_hash : Heap → Value → exec (result Z FaultCode) :=
  key_hash id text_semantic_hash bytes_semantic_hash.
Definition key_index_hash : Heap → Value → exec (result N FaultCode) :=
  key_hash map_index_hash text_lookup_hash bytes_lookup_hash.

(** A heap read that may panic or fault. *)
Definition try_heap {A} (f : Heap → exec (result A FaultCode)) : machine A := λ m,
  r ← f (mc_heap m); Ret (r, m).

(** *** Text queries *)

Inductive BorrowedStringKey := QueryValue (v : Value) | QueryText (t : SharedText).

Definition query_text (h : Heap) (q : BorrowedStringKey) : result SharedText FaultCode :=
  match q with
  | QueryValue (VObj r) => match heap_text h r with Some t => Ok t | None => Err BAD_TYPE end
  | QueryValue _ => Err BAD_TYPE
  | QueryText t => Ok t
  end.
Definition query_hash {A} (f : SharedText → A) (q : BorrowedStringKey) : machine A :=
  t ← try_heap (λ h, Ret (query_text h q)); mret (f t).

Definition query_matches (h : Heap) (q : BorrowedStringKey) (stored : Value) : exec (result bool FaultCode) :=
  match stored with
  | VObj r =>
      match try_get h r with
      | Some (OStr s) =>
          match query_text h q with
          | Ok t => Ret (Ok (same_bytes (text_bytes s) (text_bytes t)))
          | Err fault => Ret (Err fault)
          end
      | _ => Ret (Err BAD_TYPE)
      end
  | _ => Ret (Err BAD_TYPE)
  end.

Definition owned_object (q : BorrowedStringKey) : machine (option Object) := λ m,
  let copy t := match try_bounded t with Some t => Ret (Ok (Some (OStr t)), m) | None => Ret (Err HeapLimit, m) end in
  match q with
  | QueryValue (VObj r) =>
      match try_get (mc_heap m) r with
      | Some (OStr _) => Ret (Ok None, m)
      | _ => match heap_text (mc_heap m) r with Some t => copy t | None => Ret (Err BAD_TYPE, m) end
      end
  | QueryValue _ => Ret (Err BAD_TYPE, m)
  | QueryText t => copy t
  end.

(** *** The index *)

Definition entry_item (e : MapEntry) : option N :=
  if me_is_live e then Some (map_index_hash (me_semantic_hash e)) else None.

Definition ensure_index (entries : list MapEntry) (index : MapIndex) : exec MapIndex :=
  if (mi_built index =? lenN entries)%N then Ret index
  else
    guard_panic (mi_built index <=? lenN entries)%N;;
    extend_index index (mi_built index) (entry_item <$> drop (N.to_nat (mi_built index)) entries).

Definition lift_exec {A} (x : exec A) : machine A := λ m, a ← x; Ret (Ok a, m).

Definition ensure_map_index (r : ObjRef) : machine unit :=
  o ← heap_get r;
  match o with
  | OMap entries index => index ← lift_exec (ensure_index entries index); heap_put r (OMap entries index)
  | _ => fail BAD_TYPE
  end.

(** The first candidate whose live entry matches; [dense] skips the test for
    tombstones, when the map has none. *)
Fixpoint find_candidate (matches : Value → exec (result bool FaultCode)) (entries : list MapEntry) (dense : bool)
    (candidates : list N) : exec (result (option (N * Value)) FaultCode) :=
  match candidates with
  | [] => Ret (Ok None)
  | i :: candidates =>
      match entries !! N.to_nat i with
      | Some e =>
          if dense || me_is_live e then
            found ← matches (me_key e);
            match found with
            | Err fault => Ret (Err fault)
            | Ok true => Ret (Ok (Some (i, me_key e)))
            | Ok false => find_candidate matches entries dense candidates
            end
          else find_candidate matches entries dense candidates
      | None => find_candidate matches entries dense candidates
      end
  end.

Definition map_lookup_indexed (r : ObjRef) (hash : N) (matches : Heap → Value → exec (result bool FaultCode)) :
    machine (option (N * Value)) :=
  o ← heap_get r;
  match o with
  | OMap entries index =>
      candidates ← lift_exec (candidates index hash);
      try_heap (λ h, find_candidate (matches h) entries (mi_live index =? lenN entries)%N candidates)
  | _ => fail BAD_TYPE
  end.

Definition map_lookup (r : ObjRef) (key : Value) : machine (option N) :=
  _ ← ensure_map_index r;
  hash ← try_heap (λ h, key_index_hash h key);
  found ← map_lookup_indexed r hash (λ h stored, b ← key_eq h stored key; Ret (Ok b));
  mret (fst <$> found).

Definition map_lookup_borrowed_string (r : ObjRef) (q : BorrowedStringKey) : machine (option (N * Value)) :=
  _ ← ensure_map_index r;
  hash ← query_hash text_lookup_hash q;
  map_lookup_indexed r hash (λ h stored, query_matches h q stored).

(** *** Entries *)

(** The tail of an insertion: the epoch, the entry and its slot. *)
Definition push_entry (entries : list MapEntry) (index : MapIndex) (key value : Value) (semantic : Z) :
    exec (result (list MapEntry * MapIndex) FaultCode) :=
  match epoch_bump (mi_epoch index) with
  | Err fault => Ret (Err fault)
  | Ok epoch =>
      let position := as_u32 (lenN entries) in
      index ← push_live (mkIndex (mi_built index) (mi_live index) epoch (mi_slots index)) (map_index_hash semantic) position;
      Ret (Ok (entries ++ [mkMapEntry key value semantic], index))
  end.

Definition insert_entry (r : ObjRef) (key value : Value) (semantic : Z) : machine unit :=
  o ← heap_get r;
  match o with
  | OMap entries index =>
      '(entries, index) ← try_heap (λ _, push_entry entries index key value semantic);
      _ ← heap_put r (OMap entries index);
      heap_recharge r
  | _ => fail BAD_TYPE
  end.

Definition remove_entry (entries : list MapEntry) (index : MapIndex) (entry : N) :
    exec (result (Value * list MapEntry * MapIndex) FaultCode * MapIndex) :=
  match epoch_bump (mi_epoch index) with
  | Err fault => Ret (Err fault, index)
  | Ok epoch =>
      let index := mkIndex (mi_built index) (mi_live index) epoch (mi_slots index) in
      match entries !! N.to_nat entry with
      | None => Ret (Err BAD_STATE, index)
      | Some e =>
          '(value, tombstone) ← me_remove e;
          let entries := <[N.to_nat entry := tombstone]> entries in
          index ← record_removal index;
          if needs_compaction index (lenN entries)
          then Ret (Ok (value, filter (λ e, me_is_live e = true) entries, record_compaction index), index)
          else Ret (Ok (value, entries, index), index)
      end
  end.

Definition remove_map_entry (r : ObjRef) (entry : N) : machine Value :=
  o ← heap_get r;
  match o with
  | OMap entries index =>
      '(result, index) ← lift_exec (remove_entry entries index entry);
      match result with
      | Err fault => _ ← heap_put r (OMap entries index); fail fault
      | Ok (value, entries, index) =>
          _ ← heap_put r (OMap entries index);
          _ ← heap_recharge r;
          mret value
      end
  | _ => fail BAD_TYPE
  end.

(** *** The option family of a reply *)

Definition close_option_family (ty : N) : machine N := λ m,
  let '(closed, envs) := env_close ty (frame_env m) (mc_envs m) in
  let m := set_envs m envs in
  match closed with
  | Err fault => Ret (Err fault, m)
  | Ok closed =>
      match env_instance envs closed with
      | Some (class, [argument]) =>
          if (role_option roles =? NO_ROLE)%N then Ret (Err BAD_STATE, m)
          else if (class =? role_option roles)%N then Ret (Ok closed, m)
          else if negb (class =? role_some roles)%N && negb (class =? role_none roles)%N then Ret (Err BAD_STATE, m)
          else
            let '(family, envs) := env_intern (role_option roles) [argument] envs in
            Ret (family, set_envs m envs)
      | _ => Ret (Err BAD_STATE, m)
      end
  end.

(** The reply [None] of an operation with result type [ty], or the value. *)
Definition push_option (ty : N) (v : option Value) : machine unit :=
  match v with
  | Some v => push v
  | None => family ← close_option_family ty; push (VEmptyCase family 1)
  end.

(** *** Map insertion *)

Inductive MapKeyStorage := Declared | BorrowedString.

(** The bytes of one more entry, with an owned key. *)
Definition entry_growth (owned : option Object) : machine N :=
  cost ← match owned with Some o => on_heap (λ h, allocation_cost h o) | None => mret 0%N end;
  ok_or (checked_add_usize 40 cost) HeapLimit.

Definition alloc_owned (owned : option Object) (key : Value) : machine Value :=
  match owned with Some o => r ← with_heap (λ h, alloc h o); mret (VObj r) | None => mret key end.

(** The value an existing entry held; a discarded reply does not read it. *)
Definition replace_value (r : ObjRef) (pos : N) (value : Value) (discard : bool) : machine (option Value) :=
  o ← heap_get r;
  match o with
  | OMap entries index =>
      e ← ok_or (entries !! N.to_nat pos) BAD_STATE;
      _ ← heap_put r (OMap (<[N.to_nat pos := mkMapEntry (me_key e) value (me_semantic_hash e)]> entries) index);
      mret (if discard then None else Some (me_value e))
  | _ => fail BAD_TYPE
  end.

Definition map_put (r : ObjRef) (key value : Value) (discard : bool) (storage : MapKeyStorage) :
    machine (option Value) :=
  _ ← frozen_guard r;
  pos ← match storage with
        | Declared => map_lookup r key
        | BorrowedString => found ← map_lookup_borrowed_string r (QueryValue key); mret (fst <$> found)
        end;
  match pos with
  | Some pos => replace_value r pos value discard
  | None =>
      semantic ← match storage with
                 | Declared => try_heap (λ h, key_semantic_hash h key)
                 | BorrowedString => query_hash text_semantic_hash (QueryValue key)
                 end;
      owned ← match storage with Declared => mret None | BorrowedString => owned_object (QueryValue key) end;
      growth ← entry_growth owned;
      _ ← reserve growth [VObj r; key; value];
      key ← alloc_owned owned key;
      _ ← insert_entry r key value semantic;
      mret None
  end.

Definition exec_map_put_inner (ty : N) (discard : bool) (storage : MapKeyStorage) : machine unit :=
  value ← pop; key ← pop; r ← pop_obj;
  previous ← map_put r key value discard storage;
  if discard then mret tt else push_option ty previous.

(** The key of the map that equals a UTF-8 range of a byte object, added first
    when the map has none. *)
Definition exec_map_intern_text_range : machine unit :=
  length ← pop_int; start ← pop_int; source ← pop_obj; map ← pop_obj;
  _ ← frozen_guard map;
  _ ← (if (start <? 0)%Z || (length <? 0)%Z then fail IndexOutOfBounds else mret tt);
  end_ ← ok_or (checked_add_usize (Z.to_N start) (Z.to_N length)) IndexOutOfBounds;
  o ← heap_get source;
  bytes ← match o with
          | OBytes b => ok_or (bytes_slice b (Z.to_N start) end_) IndexOutOfBounds
          | _ => fail BAD_TYPE
          end;
  text ← ok_or (utf8_view bytes) BadCast;
  found ← map_lookup_borrowed_string map (QueryText text);
  match found with
  | Some (_, key) => push key
  | None =>
      owned ← owned_object (QueryText text);
      object ← ok_or owned BAD_STATE;
      semantic ← query_hash text_semantic_hash (QueryText text);
      growth ← entry_growth (Some object);
      _ ← reserve growth [VObj map; VObj source];
      key ← alloc_owned (Some object) VUnit;
      _ ← insert_entry map key key semantic;
      push key
  end.

(** *** Map literals and reads *)

Definition MapIndex_default : MapIndex := mkIndex 0 0 epoch_default [].

(** [index.candidates(hash).find(|i| key_eq(entries[i].key, key))]. *)
Fixpoint find_position (h : Heap) (entries : list MapEntry) (key : Value) (candidates : list N) : exec (option N) :=
  match candidates with
  | [] => Ret None
  | i :: candidates =>
      e ← of_option (entries !! N.to_nat i);
      b ← key_eq h (me_key e) key;
      if (b : bool) then Ret (Some i) else find_position h entries key candidates
  end.

Fixpoint literal_entries (h : Heap) (flat : list Value) (entries : list MapEntry) (index : MapIndex) :
    exec (result (list MapEntry * MapIndex) FaultCode) :=
  match flat with
  | key :: value :: flat =>
      semantic ← key_semantic_hash h key;
      match semantic with
      | Err fault => Ret (Err fault)
      | Ok semantic =>
          let hash := map_index_hash semantic in
          found ← candidates index hash;
          hit ← find_position h entries key found;
          match hit with
          | Some pos =>
              e ← of_option (entries !! N.to_nat pos);
              literal_entries h flat (<[N.to_nat pos := mkMapEntry (me_key e) value (me_semantic_hash e)]> entries) index
          | None =>
              index ← push_live index hash (as_u32 (lenN entries));
              literal_entries h flat (entries ++ [mkMapEntry key value semantic]) index
          end
      end
  | _ => Ret (Ok (entries, index))
  end.

Definition exec_map_new (count : N) : machine unit :=
  flat ← take_arguments (2 * count);
  '(entries, index) ← try_heap (λ h, literal_entries h flat [] MapIndex_default);
  v ← machine_alloc (OMap entries index);
  push v.

Definition exec_map_len : machine unit :=
  r ← pop_obj; o ← heap_get r;
  match o with OMap _ index => push (VInt (Z.of_N (mi_live index))) | _ => fail BAD_TYPE end.

Definition exec_map_has : machine unit :=
  key ← pop; r ← pop_obj; found ← map_lookup r key; push (VBool (bool_decide (is_Some found))).

Definition entry_value (r : ObjRef) (pos : N) : machine Value :=
  o ← heap_get r;
  match o with
  | OMap entries _ => e ← ok_or (entries !! N.to_nat pos) BAD_STATE; mret (me_value e)
  | _ => fail BAD_TYPE
  end.

Definition exec_map_at : machine unit :=
  key ← pop; r ← pop_obj; found ← map_lookup r key;
  pos ← ok_or found MissingKey;
  v ← entry_value r pos; push v.

Definition exec_map_get (ty : N) : machine unit :=
  key ← pop; r ← pop_obj; found ← map_lookup r key;
  v ← match found with Some pos => v ← entry_value r pos; mret (Some v) | None => mret None end;
  push_option ty v.

Definition exec_map_remove (ty : N) : machine unit :=
  key ← pop; r ← pop_obj;
  _ ← frozen_guard r;
  found ← map_lookup r key;
  v ← match found with Some pos => v ← remove_map_entry r pos; mret (Some v) | None => mret None end;
  push_option ty v.

Definition exec_map_clear : machine unit :=
  r ← pop_obj;
  _ ← frozen_guard r;
  o ← heap_get r;
  _ ← match o with
      | OMap entries index =>
          if (0 <? mi_live index)%N then
            epoch ← try_ (epoch_bump (mi_epoch index));
            _ ← heap_put r (OMap [] (index_reset (mkIndex (mi_built index) (mi_live index) epoch (mi_slots index))));
            heap_recharge r
          else mret tt
      | _ => fail BAD_TYPE
      end;
  push VUnit.

(** *** Traversal *)

Definition epoch_matches (epoch : StructuralEpoch) (expected : Z) : bool :=
  (0 <=? expected)%Z && (ep_value epoch =? as_u32 (as_u64 expected))%N.

Definition exec_list_epoch : machine unit :=
  r ← pop_obj; o ← heap_get r;
  match o with
  | OList items epoch =>
      let '(value, epoch) := epoch_observe epoch in
      _ ← heap_put r (OList items epoch); push (VInt (Z.of_N value))
  | _ => fail BAD_TYPE
  end.
Definition exec_list_iter_len : machine unit :=
  expected ← pop_int; r ← pop_obj; o ← heap_get r;
  match o with
  | OList items epoch =>
      if epoch_matches epoch expected then push (VInt (Z.of_N (lenN items))) else fail CollectionModified
  | _ => fail BAD_TYPE
  end.
Definition exec_map_epoch : machine unit :=
  r ← pop_obj; o ← heap_get r;
  match o with
  | OMap entries index =>
      let '(value, epoch) := epoch_observe (mi_epoch index) in
      _ ← heap_put r (OMap entries (mkIndex (mi_built index) (mi_live index) epoch (mi_slots index)));
      push (VInt (Z.of_N value))
  | _ => fail BAD_TYPE
  end.
Definition exec_map_iter_len : machine unit :=
  expected ← pop_int; r ← pop_obj; o ← heap_get r;
  match o with
  | OMap _ index =>
      if epoch_matches (mi_epoch index) expected then push (VInt (Z.of_N (mi_live index))) else fail CollectionModified
  | _ => fail BAD_TYPE
  end.

(** The position of the first live entry from [cursor] on, -1 for none. *)
Definition next_live (entries : list MapEntry) (cursor : N) : Z :=
  match list_find (λ e, me_is_live e = true) (drop (N.to_nat cursor) entries) with
  | Some (offset, _) => Z.of_N (cursor + N.of_nat offset)
  | None => (-1)%Z
  end.
Definition exec_map_next_index : machine unit :=
  expected ← pop_int; cursor ← pop_int; r ← pop_obj; o ← heap_get r;
  match o with
  | OMap entries index =>
      if epoch_matches (mi_epoch index) expected then
        if (cursor <? 0)%Z then fail IndexOutOfBounds else push (VInt (next_live entries (Z.to_N cursor)))
      else fail CollectionModified
  | _ => fail BAD_TYPE
  end.

Definition live_entry_at (entries : list MapEntry) (position : Z) : option MapEntry :=
  if (position <? 0)%Z then None
  else e ← entries !! Z.to_nat position; if me_is_live e then Some e else None.
Definition exec_map_entry (value : bool) : machine unit :=
  position ← pop_int; r ← pop_obj; o ← heap_get r;
  match o with
  | OMap entries _ =>
      e ← ok_or (live_entry_at entries position) IndexOutOfBounds;
      push (if value then me_value e else me_key e)
  | _ => fail BAD_TYPE
  end.

(** *** Probes *)

Definition map_token_entry (r : ObjRef) (token : Z) : machine (option N) :=
  '(epoch, slot) ← try_ (map_probe_parts token);
  o ← heap_get r;
  match o with
  | OMap entries index =>
      if negb (ep_value (mi_epoch index) =? epoch)%N then fail CollectionModified
      else
        match slot with
        | None => mret None
        | Some slot =>
            entry ← ok_or (index_entry_at index slot) BAD_STATE;
            match entries !! N.to_nat entry with
            | Some e => if me_is_live e then mret (Some entry) else fail BAD_STATE
            | None => fail BAD_STATE
            end
        end
  | _ => fail BAD_TYPE
  end.

(** The loop of [MapProbe]: probes past tombstones.  One round of the table
    visits every slot, so its length and one more are enough. *)
Fixpoint probe_live (fuel : nat) (entries : list MapEntry) (index : MapIndex) (hash : N) (prior : option N) :
    exec (option N) :=
  match fuel with
  | O => NoFuel
  | S fuel =>
      found ← probe index hash prior;
      match found with
      | None => Ret None
      | Some (slot, entry) =>
          match entries !! N.to_nat entry with
          | Some e => if me_is_live e then Ret (Some slot) else probe_live fuel entries index hash (Some slot)
          | None => probe_live fuel entries index hash (Some slot)
          end
      end
  end.

Definition probe_slot (r : ObjRef) (semantic : Z) (epoch : N) (prior : option N) : machine unit :=
  o ← heap_get r;
  match o with
  | OMap entries index =>
      slot ← lift_exec (probe_live (S (length (mi_slots index))) entries index (map_index_hash semantic) prior);
      token ← try_ (map_probe_token epoch slot);
      push (VInt token)
  | _ => fail BAD_TYPE
  end.

Definition exec_map_probe : machine unit :=
  prior ← pop_int; semantic ← pop_int; r ← pop_obj;
  _ ← ensure_map_index r;
  o ← heap_get r;
  match o with
  | OMap entries index =>
      if (prior =? 0)%Z then
        let '(epoch, observed) := epoch_observe (mi_epoch index) in
        _ ← heap_put r (OMap entries (mkIndex (mi_built index) (mi_live index) observed (mi_slots index)));
        probe_slot r semantic epoch None
      else
        '(epoch, slot) ← try_ (map_probe_parts prior);
        if negb (ep_value (mi_epoch index) =? epoch)%N then fail CollectionModified
        else match slot with None => push (VInt prior) | Some _ => probe_slot r semantic epoch slot end
  | _ => fail BAD_TYPE
  end.

Definition exec_map_probe_found : machine unit :=
  token ← pop_int;
  '(_, slot) ← try_ (map_probe_parts token);
  push (VBool (bool_decide (is_Some slot))).

Definition exec_map_probe_entry (value : bool) : machine unit :=
  token ← pop_int; r ← pop_obj;
  found ← map_token_entry r token;
  entry ← ok_or found MissingKey;
  o ← heap_get r;
  match o with
  | OMap entries _ =>
      e ← ok_or (entries !! N.to_nat entry) BAD_STATE;
      push (if value then me_value e else me_key e)
  | _ => fail BAD_TYPE
  end.

Definition exec_map_probe_set_value : machine unit :=
  value ← pop; token ← pop_int; r ← pop_obj;
  _ ← frozen_guard r;
  found ← map_token_entry r token;
  entry ← ok_or found BAD_STATE;
  _ ← replace_value r entry value true;
  push VUnit.

Definition exec_map_probe_remove : machine unit :=
  token ← pop_int; r ← pop_obj;
  _ ← frozen_guard r;
  found ← map_token_entry r token;
  entry ← ok_or found BAD_STATE;
  v ← remove_map_entry r entry;
  push v.

(** [verify_frozen] with its fault renamed. *)
Definition frozen_key (key : Value) : machine unit := λ m,
  match key with
  | VObj k =>
      '(verdict, s) ← verify_frozen (mc_heap m) (mc_scratch m) k (graph_limits (mc_config m));
      Ret (match verdict with
           | Ok _ => Ok tt
           | Err UnsendableValue => Err MutableMapKey
           | Err fault => Err fault
           end, set_heap m (mc_heap m) s)
  | _ => Ret (Ok tt, m)
  end.

Definition exec_map_insert_hashed : machine unit :=
  token ← pop_int; semantic ← pop_int; value ← pop; key ← pop; r ← pop_obj;
  _ ← frozen_guard r;
  found ← map_token_entry r token;
  _ ← match found with Some _ => fail BAD_STATE | None => mret tt end;
  _ ← frozen_key key;
  _ ← reserve 40 [VObj r; key; value];
  _ ← insert_entry r key value semantic;
  push VUnit.

Definition exec_map_write_guard : machine unit :=
  r ← pop_obj; _ ← frozen_guard r; push VUnit.

(** *** Lists *)

(** [index as usize] of a non-negative index, in range of [len] elements. *)
Definition list_index (index : Z) (len : N) : option nat :=
  if (0 <=? index)%Z && (Z.to_N index <? len)%N then Some (Z.to_nat index) else None.

(** The list a mutating instruction changes. *)
Definition get_list (r : ObjRef) : machine (list Value * StructuralEpoch) :=
  o ← heap_get r;
  match o with OList items epoch => mret (items, epoch) | _ => fail BAD_TYPE end.

Definition exec_list_new (count : N) : machine unit :=
  items ← take_arguments count; v ← machine_alloc (OList items epoch_default); push v.
Definition exec_list_len : machine unit :=
  r ← pop_obj; '(items, _) ← get_list r; push (VInt (Z.of_N (lenN items))).
Definition exec_list_at : machine unit :=
  index ← pop_int; r ← pop_obj; '(items, _) ← get_list r;
  match list_index index (lenN items) with
  | Some i => v ← lift_exec (of_option (items !! i)); push v
  | None => fail IndexOutOfBounds
  end.
Definition exec_list_get (ty : N) : machine unit :=
  index ← pop_int; r ← pop_obj; '(items, _) ← get_list r;
  push_option ty (if (0 <=? index)%Z then items !! Z.to_nat index else None).

(** A structural change: the epoch moves first, and the charge follows. *)
Definition change_list (r : ObjRef) (epoch : StructuralEpoch) (items : list Value) : machine unit :=
  epoch ← try_ (epoch_bump epoch);
  heap_put r (OList items epoch).

Definition exec_list_push : machine unit :=
  value ← pop; r ← pop_obj;
  _ ← frozen_guard r;
  _ ← reserve 16 [VObj r; value];
  '(items, epoch) ← get_list r;
  _ ← change_list r epoch (items ++ [value]);
  _ ← heap_recharge_local r;
  push VUnit.
Definition exec_list_set : machine unit :=
  value ← pop; index ← pop_int; r ← pop_obj;
  _ ← frozen_guard r;
  '(items, epoch) ← get_list r;
  match list_index index (lenN items) with
  | Some i => _ ← heap_put r (OList (<[i := value]> items) epoch); push VUnit
  | None => fail IndexOutOfBounds
  end.

(** [Vec::swap], [Vec::remove], [Vec::swap_remove] and [Vec::insert]. *)
Definition vec_swap (l : list Value) (i j : nat) : list Value :=
  match l !! i, l !! j with Some a, Some b => <[i := b]> (<[j := a]> l) | _, _ => l end.
Definition vec_remove (l : list Value) (i : nat) : list Value := take i l ++ drop (S i) l.
Definition vec_swap_remove (l : list Value) (i : nat) : list Value :=
  match last l with Some v => take (length l - 1) (<[i := v]> l) | None => l end.
Definition vec_insert (l : list Value) (i : nat) (v : Value) : list Value := take i l ++ v :: drop i l.

Definition exec_list_swap : machine unit :=
  second ← pop_int; first ← pop_int; r ← pop_obj;
  _ ← frozen_guard r;
  '(items, epoch) ← get_list r;
  match list_index first (lenN items), list_index second (lenN items) with
  | Some i, Some j => _ ← (if (first =? second)%Z then mret tt else change_list r epoch (vec_swap items i j)); push VUnit
  | _, _ => fail IndexOutOfBounds
  end.
Definition exec_list_pop (ty : N) : machine unit :=
  r ← pop_obj;
  _ ← frozen_guard r;
  '(items, epoch) ← get_list r;
  v ← match vec_pop items with
      | (Some v, rest) => _ ← change_list r epoch rest; _ ← heap_recharge_local r; mret (Some v)
      | (None, _) => mret None
      end;
  push_option ty v.
Definition exec_list_insert : machine unit :=
  value ← pop; index ← pop_int; r ← pop_obj;
  _ ← frozen_guard r;
  '(items, _) ← get_list r;
  if (index <? 0)%Z || (lenN items <? Z.to_N index)%N then fail IndexOutOfBounds
  else
    _ ← reserve 16 [VObj r; value];
    '(items, epoch) ← get_list r;
    _ ← change_list r epoch (vec_insert items (Z.to_nat index) value);
    _ ← heap_recharge_local r;
    push VUnit.
Definition exec_list_remove (swap : bool) : machine unit :=
  index ← pop_int; r ← pop_obj;
  _ ← frozen_guard r;
  '(items, epoch) ← get_list r;
  match list_index index (lenN items) with
  | Some i =>
      v ← lift_exec (of_option (items !! i));
      _ ← change_list r epoch (if swap then vec_swap_remove items i else vec_remove items i);
      _ ← heap_recharge_local r;
      push v
  | None => fail IndexOutOfBounds
  end.
Definition exec_list_truncate : machine unit :=
  length ← pop_int; r ← pop_obj;
  _ ← frozen_guard r;
  _ ← (if (length <? 0)%Z then fail IndexOutOfBounds else mret tt);
  '(items, epoch) ← get_list r;
  _ ← (if (Z.to_N length <? lenN items)%N
       then _ ← change_list r epoch (truncate items (Z.to_N length)); heap_recharge_local r
       else mret tt);
  push VUnit.
Definition exec_list_reorder : machine unit :=
  r ← pop_obj;
  _ ← frozen_guard r;
  '(items, epoch) ← get_list r;
  _ ← change_list r epoch items;
  push VUnit.
End Collections.
