(* ===== verification/Interp.v ===== *)
(** * The interpreter

    lm-vm/src/machine/interpreter.rs and execution.rs: the dispatch of one
    instruction, the policy that decides when execution enters native code, and
    the quantum loop with its fuel and its cache of the current block.

    The instructions of text, bytes, floats, dispatch tables, type tests,
    reflection, syntax trees and regular expressions are one call of the class
    [ColdCode]; every other arm is written out.  The events that feed tiering
    are answered by the class [TierState]. *)

From stdpp Require Import base numbers option gmap list.
From S2P Require Import Prelude Fault Value Pages TextViews MapIndex Heap Objects Graph Bytecode Machine Collections.

(** *** Integer instructions *)

Definition wrap_i64 (v : Z) : Z := as_i64 (as_u64 v).

Definition shift_amount (v : Z) : result N FaultCode :=
  if (v <? 0)%Z || (63 <? v)%Z then Err ShiftOutOfRange else Ok (Z.to_N v).
Definition rotation_amount (v : Z) (mask : N) : N := N.land (as_u64 v) mask.

(** [rotate_left] of a [width]-bit word; [rotate_right] is the other way round. *)
Definition rotate_left (width x k : N) : N :=
  N.lor ((N.shiftl x k) mod 2 ^ width) (N.shiftr x (width - k)).
Definition rotate_right (width x k : N) : N :=
  N.lor (N.shiftr x k) ((N.shiftl x (width - k)) mod 2 ^ width).

Definition int_bits (instr : NumericInstr) (l r : Z) : option (result Z FaultCode) :=
  let shifted f := match shift_amount r with Ok amount => Ok (f amount) | Err fault => Err fault end in
  match instr with
  | Num_IntBitAnd => Some (Ok (Z.land l r))
  | Num_IntBitOr => Some (Ok (Z.lor l r))
  | Num_IntBitXor => Some (Ok (Z.lxor l r))
  | Num_IntShl => Some (shifted (λ k, as_i64 ((N.shiftl (as_u64 l) k) mod 2 ^ 64)%N))
  | Num_IntShr => Some (shifted (λ k, Z.shiftr l (Z.of_N k)))
  | Num_IntUshr => Some (shifted (λ k, as_i64 (N.shiftr (as_u64 l) k)))
  | Num_IntWrappingAdd => Some (Ok (wrap_i64 (l + r)))
  | Num_IntWrappingSub => Some (Ok (wrap_i64 (l - r)))
  | Num_IntWrappingMul => Some (Ok (wrap_i64 (l * r)))
  | Num_IntRotateLeft => Some (Ok (as_i64 (rotate_left 64 (as_u64 l) (rotation_amount r 63))))
  | Num_IntRotateRight => Some (Ok (as_i64 (rotate_right 64 (as_u64 l) (rotation_amount r 63))))
  | Num_IntRotateLeft32 => Some (Ok (Z.of_N (rotate_left 32 (as_u32 (as_u64 l)) (rotation_amount r 31))))
  | Num_IntRotateRight32 => Some (Ok (Z.of_N (rotate_right 32 (as_u32 (as_u64 l)) (rotation_amount r 31))))
  | _ => None
  end.

(** [count_ones], [leading_zeros] and [trailing_zeros] of 64 bits. *)
Fixpoint ones (width : nat) (x : N) : Z :=
  match width with
  | O => 0
  | S width => ((if N.odd x then 1 else 0) + ones width (N.div2 x))%Z
  end.
Definition count_ones (x : N) : Z := ones 64 x.
Definition leading_zeros (x : N) : Z := if (x =? 0)%N then 64 else (63 - Z.of_N (N.log2 x))%Z.
Fixpoint trailing (width : nat) (x : N) : Z :=
  match width with
  | O => 0
  | S width => if N.odd x then 0%Z else (1 + trailing width (N.div2 x))%Z
  end.
Definition trailing_zeros (x : N) : Z := trailing 64 x.

Definition int_unary (instr : NumericInstr) (v : Z) : option Z :=
  match instr with
  | Num_IntBitNot => Some (Z.lnot v)
  | Num_IntCountOnes => Some (count_ones (as_u64 v))
  | Num_IntLeadingZeros => Some (leading_zeros (as_u64 v))
  | Num_IntTrailingZeros => Some (trailing_zeros (as_u64 v))
  | Num_IntSignum => Some (Z.sgn v)
  | _ => None
  end.

(** *** Code *)

Record FuncCode := mkFunc { fc_signature : Signature; fc_blocks : list (list Instr) }.
(** [fields.len()], [is_frozen], and whether the class is an enum case. *)
Record ClassCode := mkClass { cl_fields : N; cl_frozen : bool }.

Record Namespace := mkNamespace {
  ns_funcs : list FuncCode;
  ns_classes : list ClassCode;
  ns_bindings : list N;
  ns_roles : CoreRoles;
}.

Definition signature_of (ns : Namespace) (callee : N) : option Signature :=
  fc_signature <$> ns_funcs ns !! N.to_nat callee.

(** *** Outcomes *)

Inductive ExecOutcome :=
| Continue
| ContinueNative
| OutcomeTerminal (v : Value)
| OutcomeRaise (code : FaultCode)
| OutcomeReraise (fault : ObjRef)
| OutcomePerform (op : N) (args : list Value)
| OutcomePrepareWait (op argc reply_ty : N) (env : TypeEnvId)
| OutcomeLoadSlot (slot : N)
| OutcomeTableEdit (table : ObjRef) (action kind slot : N) (mock : option Value)
| OutcomeAsCall (request : ObjRef) (op ty : N) (env : TypeEnvId)
| OutcomeRequestOp (request : ObjRef)
| OutcomeCallArgs (call : ObjRef)
| OutcomeDigest (value : ObjRef) (ty : N) (env : TypeEnvId)
| OutcomeDynamic (value : Value) (ty : N)
| OutcomeCode (index : N).

(** *** Tiering *)

Inductive NativeResume :=
| NativeDisabled
| EveryDirectCall
| ReturnToDepth (depth : N)
| Tiered (resume_depth : option N) (profile : bool).

Class TierState := {
  Tier : Type;
  has_compiled_code : Tier → bool;
  (** [enter_frame(target, weight, profile).enter_native] and [note_event]. *)
  tier_enter : N → N → bool → Tier → bool * Tier;
  tier_note : N → N → bool → Tier → bool * Tier;
}.

Definition TIER_SAMPLE_INTERVAL : N := 64.

Section Interp.
Context `{TS : TierState}.

Record InterpreterNative := mkNative {
  in_policy : NativeResume;
  in_sample : N;
  in_check : bool;
  in_tier : Tier;
}.

Definition native_new (policy : NativeResume) (tier : Tier) (fuel : N) : InterpreterNative :=
  let mixed := N.lxor (N.lxor fuel (N.shiftr fuel 7)) (N.shiftr fuel 17) in
  mkNative policy (N.land (mixed mod 256) (TIER_SAMPLE_INTERVAL - 1))
    match policy with Tiered _ _ => has_compiled_code tier | _ => false end tier.

Definition sample_tier_event (n : InterpreterNative) : bool * InterpreterNative :=
  let sample := N.land ((in_sample n + 1) mod 256) (TIER_SAMPLE_INTERVAL - 1) in
  ((sample =? 0)%N, mkNative (in_policy n) sample (in_check n) (in_tier n)).

Definition set_tier (n : InterpreterNative) (tier : Tier) : InterpreterNative :=
  mkNative (in_policy n) (in_sample n) (in_check n) tier.

Definition after_call (n : InterpreterNative) (target : N) : bool * InterpreterNative :=
  match in_policy n with
  | NativeDisabled => (false, n)
  | EveryDirectCall => (true, n)
  | ReturnToDepth _ => (false, n)
  | Tiered _ profile =>
      let '(sampled, n) := sample_tier_event n in
      if in_check n then
        let '(enter, tier) := tier_enter target (if sampled then TIER_SAMPLE_INTERVAL else 0) profile (in_tier n) in
        (enter, set_tier n tier)
      else if sampled then
        let '(enter, tier) := tier_note target TIER_SAMPLE_INTERVAL profile (in_tier n) in (enter, set_tier n tier)
      else (false, n)
  end.

Definition after_return (n : InterpreterNative) (depth : N) : bool :=
  match in_policy n with
  | NativeDisabled => false
  | EveryDirectCall => true
  | ReturnToDepth target => (target =? depth)%N
  | Tiered resume_depth _ => bool_decide (resume_depth = Some depth)
  end.

Definition after_backedge (n : InterpreterNative) (function : N) : bool * InterpreterNative :=
  match in_policy n with
  | Tiered _ profile =>
      let '(sampled, n) := sample_tier_event n in
      if sampled then
        let '(enter, tier) := tier_note function TIER_SAMPLE_INTERVAL profile (in_tier n) in (enter, set_tier n tier)
      else (false, n)
  | _ => (false, n)
  end.

Context `{PL : Payloads} `{HM : HostMemory} `{MT : MachineTypes} `{NF : !NativeFrames} `{TB : !TextBytes}
  `{ET : !EnvTable}.

Class ColdCode := cold_instr : Namespace → Instr → machine ExecOutcome.
Context `{CC : ColdCode}.

Definition dispatch : Type := InterpreterNative → machine (ExecOutcome * InterpreterNative).

(** *** Arms *)

Definition references_equal (ns : Namespace) (h : Heap) (a b : ObjRef) : exec bool :=
  if decide (a = b) then Ret true
  else
    x ← get h a; y ← get h b;
    Ret match x, y with
        | OClosure f fc fe, OClosure g gc ge =>
            (f =? g)%N && (length fc =? 0)%nat && (length gc =? 0)%nat
            && env_is_empty (witness_env fe) && env_is_empty (witness_env ge)
            && existsb (N.eqb f) (ns_bindings ns)
        | _, _ => false
        end.

Definition set_top (f : Frame → Frame) (m : Machine) : Machine :=
  match vec_pop (mc_frames m) with
  | (Some frame, frames) => set_frames m (frames ++ [f frame])
  | (None, _) => m
  end.
Definition jump_to (target : N) (f : Frame) : Frame :=
  mkFrame (fr_func f) target 0 (fr_base_local f) (fr_base_operand f) (fr_closure f) (fr_env f).

(** A branch to [target]: a backward one may enter native code. *)
Definition jump (target : N) : dispatch := λ n,
  frames ← reads mc_frames;
  frame ← ok_or (last frames) BAD_STATE;
  _ ← writes (set_top (jump_to target));
  if (target <=? fr_block frame)%N then
    let '(enter, n) := after_backedge n (fr_func frame) in
    mret (if (enter : bool) then ContinueNative else Continue, n)
  else mret (Continue, n).

Definition stays (x : machine unit) : dispatch := λ n, _ ← x; mret (Continue, n).
Definition leaves (x : machine ExecOutcome) : dispatch := λ n, o ← x; mret (o, n).

Definition enter_call (callee : N) (x : machine unit) : dispatch := λ n,
  _ ← x;
  let '(enter, n) := after_call n callee in
  mret (if (enter : bool) then ContinueNative else Continue, n).

Definition exec_call_value (ns : Namespace) (argc : N) : dispatch := λ n,
  operands ← reads mc_operands;
  callee_pos ← ok_or (checked_sub (lenN operands) (argc + 1)) BAD_STATE;
  callee ← lift_exec (of_option (operands !! N.to_nat callee_pos));
  _ ← writes (λ m, set_operands m (vec_remove (mc_operands m) (N.to_nat callee_pos)));
  '(target, env, capture) ←
    match callee with
    | VObj r =>
        o ← heap_get r;
        match o with
        | OClosure func _ env => mret (func, witness_env env, CaptureClosure r)
        | _ => fail BAD_TYPE
        end
    | VCallback r => d ← callback r; mret (cb_func d, cb_env d, CaptureCallback r)
    | _ => fail BAD_TYPE
    end;
  enter_call target (push_frame target (signature_of ns target) argc (Some capture) env) n.

Definition exec_make_closure (func captures : N) : machine unit :=
  captured ← take_arguments captures;
  env ← reads frame_env;
  v ← machine_alloc (OClosure func captured (mkWitness env));
  push v.

Definition exec_make_callback (func captures : N) : machine unit :=
  captured ← take_arguments captures;
  env ← reads frame_env;
  v ← alloc_callback func captured env;
  push v.

Definition exec_as_callback : machine unit :=
  operands ← reads mc_operands;
  v ← ok_or (last operands) BAD_STATE;
  match v with
  | VObj r => o ← heap_get r; match o with OClosure _ _ _ => mret tt | _ => fail BAD_TYPE end
  | _ => fail BAD_TYPE
  end.

Definition exec_load_capture (idx : N) : machine unit :=
  frames ← reads mc_frames;
  frame ← ok_or (last frames) BAD_STATE;
  closure ← ok_or (fr_closure frame) BAD_STATE;
  v ← match closure with
      | CaptureClosure r =>
          o ← heap_get r;
          match o with
          | OClosure _ captures _ => ok_or (captures !! N.to_nat idx) BAD_TYPE
          | _ => fail BAD_TYPE
          end
      | CaptureCallback r => d ← callback r; ok_or (cb_captures d !! N.to_nat idx) BAD_TYPE
      end;
  push v.

Definition exec_load_local (slot : N) : machine unit :=
  at_ ← local_at slot;
  locals ← reads mc_locals;
  v ← ok_or (locals !! N.to_nat at_) BAD_STATE;
  push v.
Definition exec_store_local (slot : N) : machine unit :=
  v ← pop;
  at_ ← local_at slot;
  locals ← reads mc_locals;
  _ ← ok_or (locals !! N.to_nat at_) BAD_STATE;
  writes (λ m, set_locals m (<[N.to_nat at_ := v]> (mc_locals m))).

Definition exec_new (ns : Namespace) (class : N) : machine unit :=
  c ← lift_exec (of_option (ns_classes ns !! N.to_nat class));
  v ← machine_alloc (OInstance class (replicate (N.to_nat (cl_fields c)) VUninit) (mkWitness TypeEnvId_EMPTY));
  push v.
Definition exec_load_field (field : N) : machine unit :=
  r ← pop_obj; o ← heap_get r;
  v ← match o with OInstance _ fields _ => ok_or (fields !! N.to_nat field) BAD_TYPE | _ => fail BAD_TYPE end;
  if decide (v = VUninit) then fail UninitializedField else push v.
Definition exec_store_field (field : N) : machine unit :=
  v ← pop; r ← pop_obj;
  _ ← frozen_guard r;
  o ← heap_get r;
  match o with
  | OInstance class fields env =>
      _ ← ok_or (fields !! N.to_nat field) BAD_TYPE;
      heap_put r (OInstance class (<[N.to_nat field := v]> fields) env)
  | _ => fail BAD_TYPE
  end.
Definition exec_seal_instance (ns : Namespace) : machine unit :=
  r ← pop_obj; o ← heap_get r;
  match o with
  | OInstance class _ _ =>
      match ns_classes ns !! N.to_nat class with
      | Some c => if cl_frozen c then _ ← update_heap (λ h, set_frozen h r); push (VObj r) else fail BAD_STATE
      | None => fail BAD_STATE
      end
  | _ => fail BAD_TYPE
  end.

Definition exec_tuple_new (count : N) : machine unit :=
  items ← take_arguments count; v ← machine_alloc (OTuple items); push v.
Definition exec_tuple_get (index : N) : machine unit :=
  r ← pop_obj; o ← heap_get r;
  v ← match o with OTuple items => ok_or (items !! N.to_nat index) BAD_TYPE | _ => fail BAD_TYPE end;
  push v.

Definition exec_freeze : machine unit :=
  r ← pop_obj;
  _ ← (λ m, '(verdict, h, s) ← freeze (mc_heap m) (mc_scratch m) r (graph_limits (mc_config m));
            Ret (verdict, set_heap m h s) : exec (result unit FaultCode * Machine));
  push (VObj r).

Definition exec_eq_digest (want : bool) : machine unit :=
  b ← pop_obj; a ← pop_obj; x ← heap_get a; y ← heap_get b;
  match x with
  | NativeDigest x =>
      match y with
      | NativeDigest y => push (VBool (eqb (bool_decide (x = y)) want))
      | _ => fail BAD_TYPE
      end
  | _ => fail BAD_TYPE
  end.

(** *** One instruction *)

Definition exec_numeric_instr (ns : Namespace) (instr : NumericInstr) : machine ExecOutcome :=
  match instr with
  | Num_IntBitAnd | Num_IntBitOr | Num_IntBitXor | Num_IntShl | Num_IntShr | Num_IntUshr
  | Num_IntWrappingAdd | Num_IntWrappingSub | Num_IntWrappingMul
  | Num_IntRotateLeft | Num_IntRotateRight | Num_IntRotateLeft32 | Num_IntRotateRight32 =>
      r ← pop_int; l ← pop_int;
      match int_bits instr l r with
      | Some v => v ← try_ v; _ ← push (VInt v); mret Continue
      | None => lift_exec Panic
      end
  | Num_IntBitNot | Num_IntCountOnes | Num_IntLeadingZeros | Num_IntTrailingZeros | Num_IntSignum =>
      v ← pop_int;
      match int_unary instr v with
      | Some v => _ ← push (VInt v); mret Continue
      | None => lift_exec Panic
      end
  | Num_FloatHash => bits ← pop_float_bits; _ ← push (VInt (float_hash bits)); mret Continue
  | Num_FloatBits => bits ← pop_float_bits; _ ← push (VInt (as_i64 (canonical_float_bits bits))); mret Continue
  | Num_FloatFromBits => v ← pop_int; _ ← push (VFloat (canonical_float_bits (as_u64 v))); mret Continue
  | Num_FloatEq => r ← pop_float_bits; l ← pop_float_bits; _ ← push (VBool (float_eq l r)); mret Continue
  | Num_FloatNe => r ← pop_float_bits; l ← pop_float_bits; _ ← push (VBool (negb (float_eq l r))); mret Continue
  | Num_FloatIsNan => bits ← pop_float_bits; _ ← push (VBool (is_nan_bits bits)); mret Continue
  | _ => cold_instr ns (I_Numeric instr)
  end.

Definition exec_prepare_wait (op argc reply_ty : N) : machine ExecOutcome :=
  operands ← reads mc_operands;
  if (lenN operands <? argc)%N then fail BAD_STATE
  else env ← reads frame_env; mret (OutcomePrepareWait op argc reply_ty env).

Definition exec_extended (ns : Namespace) (instr : ExtendedInstr) : machine ExecOutcome :=
  let done x := _ ← x; mret Continue in
  let roles := ns_roles ns in
  match instr with
  | Ext_PrepareWait op_argc reply_ty => let '(op, argc) := wait_parts op_argc in exec_prepare_wait op argc reply_ty
  | Ext_MakeCallback func captures => done (exec_make_callback func captures)
  | Ext_AsCallback => done exec_as_callback
  | Ext_OptionSome _ => mret Continue
  | Ext_OptionNone ty => done (push_option roles ty None)
  | Ext_OptionPayload ty =>
      done (operands ← reads mc_operands;
            v ← ok_or (last operands) BAD_STATE;
            family ← close_option_family roles ty;
            if decide (v = VEmptyCase family 1) then fail BAD_TYPE else mret tt)
  | Ext_ListGet ty => done (exec_list_get roles ty)
  | Ext_MapGet ty => done (exec_map_get roles ty)
  | Ext_MapPutText ty discard => done (exec_map_put_inner roles ty discard BorrowedString)
  | Ext_MapInternTextRange => done exec_map_intern_text_range
  | Ext_ListEpoch => done exec_list_epoch
  | Ext_ListIterLen => done exec_list_iter_len
  | Ext_MapEpoch => done exec_map_epoch
  | Ext_MapIterLen => done exec_map_iter_len
  | Ext_MapNextIndex => done exec_map_next_index
  | Ext_SealInstance => done (exec_seal_instance ns)
  | Ext_MapKeyAt => done (exec_map_entry false)
  | Ext_MapValueAt => done (exec_map_entry true)
  | Ext_ListSet => done exec_list_set
  | Ext_ListSwap => done exec_list_swap
  | Ext_ListPop ty => done (exec_list_pop roles ty)
  | Ext_ListInsert => done exec_list_insert
  | Ext_ListRemove => done (exec_list_remove false)
  | Ext_ListSwapRemove => done (exec_list_remove true)
  | Ext_ListTruncate => done exec_list_truncate
  | Ext_ListReorder => done exec_list_reorder
  | Ext_MapRemove ty => done (exec_map_remove roles ty)
  | Ext_MapClear => done exec_map_clear
  | Ext_MapProbe => done exec_map_probe
  | Ext_MapProbeFound => done exec_map_probe_found
  | Ext_MapProbeKey => done (exec_map_probe_entry false)
  | Ext_MapProbeValue => done (exec_map_probe_entry true)
  | Ext_MapProbeSetValue => done exec_map_probe_set_value
  | Ext_MapProbeRemove => done exec_map_probe_remove
  | Ext_MapInsertHashed => done exec_map_insert_hashed
  | Ext_MapWriteGuard => done exec_map_write_guard
  | _ => cold_instr ns (I_Extended instr)
  end.

Definition exec_return : dispatch := λ n,
  v ← pop;
  left_ ← return_value v;
  match left_ with
  | Some v => mret (OutcomeTerminal v, n)
  | None =>
      frames ← reads mc_frames;
      mret (if after_return n (lenN frames) then ContinueNative else Continue, n)
  end.

Definition branch_if (want : bool) (target : N) : dispatch := λ n,
  b ← pop_bool; if eqb b want then jump target n else mret (Continue, n).

Definition exec_instr (ns : Namespace) (instr : Instr) : dispatch :=
  match instr with
  | I_ConstUnit => stays (push VUnit)
  | I_ConstBool b => stays (push (VBool b))
  | I_ConstInt v => stays (push (VInt v))
  | I_ConstFloat bits => stays (push (VFloat (canonical_float_bits bits)))
  | I_ConstChar c => stays (c ← ok_or (char_from_u32 c) BAD_STATE; push (VChar c))
  | I_Numeric instr => leaves (exec_numeric_instr ns instr)
  | I_LoadLocal slot => stays (exec_load_local slot)
  | I_StoreLocal slot => stays (exec_store_local slot)
  | I_Pop => stays (_ ← pop; mret tt)
  | I_Add => stays (int_binary checked_add)
  | I_Sub => stays (int_binary checked_sub_i64)
  | I_Mul => stays (int_binary checked_mul)
  | I_Div => stays int_div
  | I_Rem => stays int_rem
  | I_Neg => stays (a ← pop_int; v ← ok_or (checked_neg a) IntegerOverflow; push (VInt v))
  | I_Not => stays (b ← pop_bool; push (VBool (negb b)))
  | I_LtInt => stays (int_compare (λ a b, (a <? b)%Z))
  | I_LeInt => stays (int_compare (λ a b, (a <=? b)%Z))
  | I_GtInt => stays (int_compare (λ a b, (b <? a)%Z))
  | I_GeInt => stays (int_compare (λ a b, (b <=? a)%Z))
  | I_EqInt => stays (int_compare (λ a b, (a =? b)%Z))
  | I_NeInt => stays (int_compare (λ a b, negb (a =? b)%Z))
  | I_EqBool => stays (b ← pop_bool; a ← pop_bool; push (VBool (eqb a b)))
  | I_NeBool => stays (b ← pop_bool; a ← pop_bool; push (VBool (negb (eqb a b))))
  | I_Jump target => jump target
  | I_JumpIfFalse target => branch_if false target
  | I_JumpIfTrue target => branch_if true target
  | I_EqRef => stays (b ← pop_obj; a ← pop_obj; e ← on_heap (λ h, references_equal ns h a b); push (VBool e))
  | I_NeRef => stays (b ← pop_obj; a ← pop_obj; e ← on_heap (λ h, references_equal ns h a b); push (VBool (negb e)))
  | I_Call callee =>
      λ n, func ← lift_exec (of_option (signature_of ns callee));
           enter_call callee (push_frame callee (Some func) (fn_params func) None TypeEnvId_EMPTY) n
  | I_CallValue argc => exec_call_value ns argc
  | I_MakeClosure func captures => stays (exec_make_closure func captures)
  | I_LoadCapture idx => stays (exec_load_capture idx)
  | I_New class => stays (exec_new ns class)
  | I_TupleNew _ count => stays (exec_tuple_new count)
  | I_TupleGet index => stays (exec_tuple_get index)
  | I_LoadField field => stays (exec_load_field field)
  | I_StoreField field => stays (exec_store_field field)
  | I_ListNew _ count => stays (exec_list_new count)
  | I_ListLen => stays exec_list_len
  | I_ListAt => stays exec_list_at
  | I_ListPush => stays exec_list_push
  | I_MapNew _ count => stays (exec_map_new count)
  | I_MapLen => stays exec_map_len
  | I_MapHas => stays exec_map_has
  | I_MapAt => stays exec_map_at
  | I_MapPut ty discard => stays (exec_map_put_inner (ns_roles ns) ty discard Declared)
  | I_Freeze => stays exec_freeze
  | I_Digest ty => leaves (env ← reads frame_env; r ← pop_obj; mret (OutcomeDigest r ty env))
  | I_EqDigest => stays (exec_eq_digest true)
  | I_NeDigest => stays (exec_eq_digest false)
  | I_Return => exec_return
  | I_Unreachable => leaves (fail UnreachableCode)
  | I_Perform op argc _ => leaves (args ← take_arguments argc; mret (OutcomePerform op args))
  | I_PerformValue argc _ =>
      leaves (args ← take_arguments argc; callee ← pop;
              match callee with VOp op => mret (OutcomePerform op args) | _ => fail BAD_TYPE end)
  | I_OpConst op => stays (push (VOp op))
  | I_TableEdit action kind slot =>
      leaves (mock ← (if (action =? 2)%N then v ← pop; mret (Some v) else mret None);
              table ← pop_obj; mret (OutcomeTableEdit table action kind slot mock))
  | I_AsCall op ty => leaves (request ← pop_obj; env ← reads frame_env; mret (OutcomeAsCall request op ty env))
  | I_CallArgs => leaves (call ← pop_obj; mret (OutcomeCallArgs call))
  | I_RequestOp => leaves (request ← pop_obj; mret (OutcomeRequestOp request))
  | I_Extended instr => leaves (exec_extended ns instr)
  | _ => leaves (cold_instr ns instr)
  end.

(** *** The quantum *)

(** The block the loop keeps between instructions. *)
Record CodeCache := mkCache { cc_func : N; cc_block : N; cc_code : list Instr }.

Definition cache_empty : CodeCache := mkCache U32_MAX U32_MAX [].

Definition block_of (ns : Namespace) (func block : N) : option (list Instr) :=
  f ← ns_funcs ns !! N.to_nat func; fc_blocks f !! N.to_nat block.

Definition fetch (ns : Namespace) (cache : CodeCache) (frame : Frame) : exec (Instr * CodeCache) :=
  cache ← (if negb (fr_func frame =? cc_func cache)%N || negb (fr_block frame =? cc_block cache)%N
           then code ← of_option (block_of ns (fr_func frame) (fr_block frame));
                Ret (mkCache (fr_func frame) (fr_block frame) code)
           else Ret cache);
  instr ← of_option (cc_code cache !! N.to_nat (fr_ip frame));
  Ret (instr, cache).

Definition advance (f : Frame) : Frame :=
  mkFrame (fr_func f) (fr_block f) (fr_ip f + 1) (fr_base_local f) (fr_base_operand f) (fr_closure f) (fr_env f).

(** One round: the fuel of the instruction, its fetch, and its dispatch. *)
Definition step (ns : Namespace) (cache : CodeCache) (n : InterpreterNative) (frame : Frame) (m : Machine) :
    exec (result (ExecOutcome * InterpreterNative) FaultCode * Machine * CodeCache) :=
  '(instr, cache) ← fetch ns cache frame;
  '(r, m) ← exec_instr ns instr n (set_top advance (set_fuel m (mc_fuel m - 1)));
  Ret (r, m, cache).

(** The loop.  Each round spends one unit of the batch's fuel, so one round more
    than the fuel is enough. *)
Fixpoint quantum_loop (rounds : nat) (ns : Namespace) (cache : CodeCache) (n : InterpreterNative) (m : Machine) :
    exec (result ExecOutcome FaultCode * Machine) :=
  match rounds with
  | O => NoFuel
  | S rounds =>
      if (mc_fuel m =? 0)%N then Ret (Err OutOfFuel, m)
      else
        match last (mc_frames m) with
        | None => Ret (Err BAD_STATE, m)
        | Some frame =>
            '(r, m, cache) ← step ns cache n frame m;
            match r with
            | Ok (Continue, n) => quantum_loop rounds ns cache n m
            | Ok (ContinueNative, _) => Ret (Ok Continue, m)
            | Ok (outcome, _) => Ret (Ok outcome, m)
            | Err fault => Ret (Err fault, m)
            end
        end
  end.

Definition exec_for_quantum (ns : Namespace) (limit : N) (policy : NativeResume) (tier : Tier) (m : Machine) :
    exec (result (option ExecOutcome) FaultCode * N * Machine) :=
  guard_panic (0 <? limit)%N;;
  let original_fuel := mc_fuel m in
  let batch_fuel := N.min original_fuel limit in
  let held_fuel := (original_fuel - batch_fuel)%N in
  let count_expiry := (limit <=? original_fuel)%N in
  '(outcome, m) ← quantum_loop (S (N.to_nat batch_fuel)) ns cache_empty (native_new policy tier original_fuel)
                    (set_fuel m batch_fuel);
  retired ← sub_usize batch_fuel (mc_fuel m);
  let m := set_fuel m (mc_fuel m + held_fuel) in
  Ret (match outcome with
       | Err OutOfFuel => if count_expiry then Ok None else Err OutOfFuel
       | Ok outcome => Ok (Some outcome)
       | Err fault => Err fault
       end, retired, m).

(** *** Native frames *)

Definition finish_native_return (v : Value) : machine ExecOutcome :=
  left_ ← return_value v;
  mret match left_ with Some v => OutcomeTerminal v | None => Continue end.

Definition start_native_call (ns : Namespace) (callee : N) (env : TypeEnvId) : machine unit :=
  func ← ok_or (signature_of ns callee) BAD_STATE;
  frames ← reads mc_frames;
  frame ← ok_or (last frames) BAD_STATE;
  if (U32_MAX <? fr_ip frame + 1)%N then fail BAD_STATE
  else
    _ ← writes (set_top advance);
    push_frame callee (Some func) (fn_params func) None env.
End Interp.
