(* ===== verification/MachineFacts.v ===== *)
(** * What every instruction keeps

    A unary program logic for calls on a machine: [spec R P x] says that [x]
    moves the machine along [R], and faults only with codes of [P], whether it
    succeeds or faults.  A relation that is [stable] under the few primitive
    changes of a machine is kept by every instruction and by a whole quantum;
    the proofs follow the structure of the calls. *)

From stdpp Require Import base numbers option gmap list.
From S2P Require Import Prelude Fault Value Pages TextViews MapIndex MapIndexFacts Heap Objects Graph Bytecode Machine Collections Interp.

#[local] Open Scope nat_scope.

(** *** Vectors *)

Lemma vec_pop_app {A} (l : list A) x : vec_pop (l ++ [x]) = (Some x, l).
Proof.
  unfold vec_pop. rewrite last_snoc, length_app. simpl. replace (length l + 1 - 1) with (length l) by lia.
  by rewrite take_app_length.
Qed.
Lemma vec_pop_nil {A} : vec_pop (@nil A) = (None, []).
Proof. done. Qed.
Lemma vec_pop_length {A} (l : list A) x r : vec_pop l = (x, r) → length r ≤ length l.
Proof. unfold vec_pop. intros [= <- <-]. rewrite length_take. lia. Qed.
Lemma truncate_length {A} (l : list A) n : length (truncate l n) ≤ length l.
Proof. unfold truncate. rewrite length_take. lia. Qed.
Lemma vec_remove_length (l : list Value) i : length (vec_remove l i) ≤ length l.
Proof. unfold vec_remove. rewrite length_app, length_take, length_drop. lia. Qed.
Lemma snoc_cases {A} (l : list A) : l = [] ∨ ∃ l' x, l = l' ++ [x].
Proof. destruct l as [|x l _] using rev_ind; eauto. Qed.

Section MachineFacts.
Context `{TS : TierState} `{PL : Payloads} `{HM : HostMemory} `{MT : MachineTypes} `{NF : !NativeFrames}
  `{TB : !TextBytes} `{ET : !EnvTable} `{CC : !ColdCode}.

(** *** The logic *)

Definition spec (R : Machine → Machine → Prop) (P : FaultCode → Prop) {A} (x : machine A) : Prop :=
  ∀ m r m', x m = Ret (r, m') → R m m' ∧ ∀ fault, r = Err fault → P fault.

(** The primitive changes an instruction makes. *)
Record stable (R : Machine → Machine → Prop) : Prop := {
  st_refl : ∀ m, R m m;
  st_trans : ∀ m1 m2 m3, R m1 m2 → R m2 m3 → R m1 m3;
  st_heap : ∀ m h s, R m (set_heap m h s);
  st_envs : ∀ m envs, R m (set_envs m envs);
  st_callbacks : ∀ m callbacks, R m (set_callbacks m callbacks);
  st_native : ∀ m, R m (materialize_native_continuation m).2;
  st_operands : ∀ m operands, length operands ≤ length (mc_operands m) → R m (set_operands m operands);
  st_push : ∀ m v, (lenN (mc_operands m) + lenN (mc_locals m) < max_stack_values (mc_config m))%N →
    R m (set_operands m (mc_operands m ++ [v]));
  st_locals : ∀ m locals, length locals = length (mc_locals m) → R m (set_locals m locals);
  st_jump : ∀ m target, R m (set_top (jump_to target) m);
  st_call : ∀ m callee signature consume closure env m',
    push_frame callee signature consume closure env m = Ret (Ok tt, m') → R m m';
  st_return : ∀ m frames frame, mc_frames m = frames ++ [frame] →
    R m (set_arenas m frames (truncate (mc_locals m) (fr_base_local frame))
           (truncate (mc_operands m) (fr_base_operand frame)));
}.

(** The faults of the machine itself; running out of fuel is the loop's. *)
Definition not_fuel (fault : FaultCode) : Prop := fault ≠ OutOfFuel.

(** *** Faults of the parts *)

Lemma walk_fault (P : FaultCode → Prop) h limits visit :
  P BoundaryLimit → P BoundaryViolation →
  (∀ r ordinal object fault, visit r ordinal object = Ret (Err fault) → P fault) →
  ∀ fuel s stack cost fault s', walk_loop fuel h limits visit s stack cost = Ret (Err fault, s') → P fault.
Proof.
  intros Hl Hv Hvis. induction fuel as [|fuel IH]; intros s stack cost fault s'; [done|]. destruct stack as [|r stack]; [done|].
  cbn [walk_loop]. intros (work & _ & H)%bind_Ret. destruct (_ <? _)%N; [by simplify_eq|].
  apply bind_Ret in H as (seen & _ & H). destruct seen; [by eapply IH|].
  destruct (walk_object h r) as [object|]; [|by simplify_eq].
  apply bind_Ret in H as (objects & _ & (size & _ & (bytes & _ & H)%bind_Ret)%bind_Ret).
  destruct (_ || _); [by simplify_eq|].
  apply bind_Ret in H as ([ordinal s1] & _ & (entered & Ev & H)%bind_Ret).
  destruct entered; [|simplify_eq; by eapply Hvis]. apply bind_Ret in H as (edges & _ & H).
  destruct (_ <? _)%N; [by simplify_eq|by eapply IH].
Qed.

Lemma verify_frozen_fault h s root limits fault s' :
  verify_frozen h s root limits = Ret (Err fault, s') → not_fuel fault.
Proof.
  eapply walk_fault; [done|done|]. intros r ordinal object f (b & _ & H)%bind_Ret. destruct b; by simplify_eq.
Qed.
Lemma freeze_fault h s root limits fault h' s' :
  freeze h s root limits = Ret (Err fault, h', s') → not_fuel fault.
Proof.
  intros ([[c|f] s1] & E & H)%bind_Ret.
  - by apply bind_Ret in H as (? & _ & ?).
  - simplify_eq. revert E. by eapply walk_fault.
Qed.

Lemma key_hash_fault {A} (f : Z → A) g k h key fault : key_hash f g k h key = Ret (Err fault) → not_fuel fault.
Proof.
  destruct key; try (by intros [= <-]); try done. cbn [key_hash]. destruct (heap_text h r); [done|].
  intros (o & _ & H)%bind_Ret. by destruct o; simplify_eq.
Qed.
Lemma query_text_fault h q fault : query_text h q = Err fault → not_fuel fault.
Proof. destruct q as [[]|]; try (by intros [= <-]); try done. simpl. destruct (heap_text h r); [done|by intros [= <-]]. Qed.
Lemma query_matches_fault h q stored fault : query_matches h q stored = Ret (Err fault) → not_fuel fault.
Proof.
  destruct stored; try (by intros [= <-]). unfold query_matches. destruct (try_get h r) as [[]|]; try (by intros [= <-]).
  destruct (query_text h q) eqn:E; [done|]. intros [= <-]. by eapply query_text_fault.
Qed.
Lemma find_candidate_fault matches entries dense cands fault :
  (∀ v fault, matches v = Ret (Err fault) → not_fuel fault) →
  find_candidate matches entries dense cands = Ret (Err fault) → not_fuel fault.
Proof.
  intros Hm. induction cands as [|i cands IH]; [done|]. cbn [find_candidate].
  destruct (entries !! _) as [e|]; [|done]. destruct (dense || _); [|done].
  intros (found & Ef & H)%bind_Ret. destruct found as [[]|f]; [done|by apply IH|]. simplify_eq. by eapply Hm.
Qed.
Lemma epoch_bump_fault e fault : epoch_bump e = Err fault → not_fuel fault.
Proof. unfold epoch_bump, ensure_bumpable. repeat case_match; intros; by simplify_eq. Qed.
Lemma push_entry_fault entries index key value semantic fault :
  push_entry entries index key value semantic = Ret (Err fault) → not_fuel fault.
Proof.
  unfold push_entry. destruct (epoch_bump _) eqn:E; [by intros (? & _ & ?)%bind_Ret|]. intros [= <-]. by eapply epoch_bump_fault.
Qed.
Lemma remove_entry_fault entries index entry fault i :
  remove_entry entries index entry = Ret (Err fault, i) → not_fuel fault.
Proof.
  unfold remove_entry. destruct (epoch_bump _) eqn:E; [|intros [= <- <-]; by eapply epoch_bump_fault].
  destruct (entries !! _); [|by intros [= <- <-]]. intros ([v t] & _ & (i' & _ & H)%bind_Ret)%bind_Ret.
  by destruct (needs_compaction _ _).
Qed.
Lemma literal_fault h : ∀ n flat entries index fault, length flat ≤ n →
  literal_entries h flat entries index = Ret (Err fault) → not_fuel fault.
Proof.
  induction n as [|n IH]; intros [|key [|value flat]] entries index fault Hn; cbn [length] in Hn; try lia; try done.
  cbn [literal_entries]. intros (semantic & Es & H)%bind_Ret. destruct semantic as [z|f];
    [|simplify_eq; by eapply key_hash_fault].
  apply bind_Ret in H as (found & _ & (hit & _ & H)%bind_Ret). destruct hit.
  - apply bind_Ret in H as (e & _ & H). eapply IH; [|exact H]. lia.
  - apply bind_Ret in H as (i & _ & H). eapply IH; [|exact H]. lia.
Qed.
Lemma probe_parts_fault token fault : map_probe_parts token = Err fault → not_fuel fault.
Proof. unfold map_probe_parts. repeat case_match; intros; by simplify_eq. Qed.
Lemma probe_token_fault epoch slot fault : map_probe_token epoch slot = Err fault → not_fuel fault.
Proof. unfold map_probe_token. repeat case_match; intros; by simplify_eq. Qed.
Lemma int_bits_fault instr l r fault : int_bits instr l r = Some (Err fault) → not_fuel fault.
Proof.
  assert (H : ∀ v f, shift_amount v = Err f → not_fuel f) by (unfold shift_amount; intros; by case_match; simplify_eq).
  destruct instr; simpl; try done; destruct (shift_amount r) eqn:E; try done; intros [= <-]; by eapply H.
Qed.

(** The table of type environments answers its own faults. *)
Class EnvLaws : Prop := {
  env_close_fault : ∀ ty env envs fault envs', env_close ty env envs = (Err fault, envs') → not_fuel fault;
  env_intern_fault : ∀ class args envs fault envs', env_intern class args envs = (Err fault, envs') → not_fuel fault;
}.
Context `{EL : !EnvLaws}.

Section stable.
Context (R : Machine → Machine → Prop) (HR : stable R).
Abbreviation keeps := (spec R not_fuel).

Lemma keeps_ret {A} (a : A) : keeps (mret a).
Proof. intros m r m' [= <- <-]. split; [apply HR|done]. Qed.
Lemma keeps_fail {A} fault : not_fuel fault → keeps (fail fault : machine A).
Proof. intros H m r m' [= <- <-]. split; [apply HR|by intros ? [= <-]]. Qed.
Lemma keeps_bind {A B} (x : machine A) (f : A → machine B) : keeps x → (∀ a, keeps (f a)) → keeps (x ≫= f).
Proof.
  intros Hx Hf m r m'. unfold mbind, machine_bind. destruct (x m) as [[[a|e] m1]| |] eqn:E; intros H; simplify_eq.
  - destruct (Hx _ _ _ E) as [H1 _]. destruct (Hf a _ _ _ H) as [H2 ?]. split; [by eapply st_trans|done].
  - destruct (Hx _ _ _ E) as [H1 He]. split; [done|]. intros fault [= <-]. by apply He.
Qed.
Lemma keeps_ok_or {A} (o : option A) fault : not_fuel fault → keeps (ok_or o fault).
Proof. intros H. destruct o; [apply keeps_ret|by apply keeps_fail]. Qed.
Lemma keeps_try {A} (r : result A FaultCode) : (∀ fault, r = Err fault → not_fuel fault) → keeps (try_ r).
Proof. intros H. destruct r; [apply keeps_ret|apply keeps_fail; by apply H]. Qed.
Lemma keeps_reads {A} (f : Machine → A) : keeps (reads f).
Proof. intros m r m' [= <- <-]. split; [apply HR|done]. Qed.
Lemma keeps_writes f : (∀ m, R m (f m)) → keeps (writes f).
Proof. intros H m r m' [= <- <-]. split; [apply H|done]. Qed.
Lemma keeps_on_heap {A} (f : Heap → exec A) : keeps (on_heap f).
Proof. intros m r m' (a & _ & [= <- <-])%bind_Ret. split; [apply HR|done]. Qed.
Lemma keeps_lift {A} (x : exec A) : keeps (lift_exec x).
Proof. intros m r m' (a & _ & [= <- <-])%bind_Ret. split; [apply HR|done]. Qed.
Lemma keeps_with_heap {A} (f : Heap → exec (A * Heap)) : keeps (with_heap f).
Proof. intros m r m' ([a h] & _ & [= <- <-])%bind_Ret. split; [apply HR|done]. Qed.
Lemma keeps_update_heap (f : Heap → exec Heap) : keeps (update_heap f).
Proof. intros m r m' (h & _ & [= <- <-])%bind_Ret. split; [apply HR|done]. Qed.
Lemma keeps_try_heap {A} (f : Heap → exec (result A FaultCode)) :
  (∀ h fault, f h = Ret (Err fault) → not_fuel fault) → keeps (try_heap f).
Proof. intros H m r m' (a & E & [= <- <-])%bind_Ret. split; [apply HR|]. intros fault ->. by eapply H. Qed.

Lemma keeps_push v : keeps (push v).
Proof.
  intros m r m'. unfold push. destruct (mc_native m) eqn:En.
  - destruct (materialize_native_continuation m) as [b m1] eqn:E. pose proof (st_native _ HR m) as H1. rewrite E in H1.
    destruct b; [intros [= <- <-]; split; [done|by intros ? [= <-]]|].
    destruct (_ <=? _)%N eqn:El; intros [= <- <-]; (split; [|by intros ? [= <-]]); [done|].
    eapply st_trans; [done|done|]. apply st_push; [done|]. to_prop. lia.
  - destruct (_ <=? _)%N eqn:El; intros [= <- <-]; (split; [|by intros ? [= <-]]); [apply HR|].
    apply st_push; [done|]. to_prop. lia.
Qed.
Lemma keeps_pop : keeps pop.
Proof.
  intros m r m'. unfold pop. destruct (vec_pop (mc_operands m)) as [v ops] eqn:E. apply vec_pop_length in E.
  destruct v; intros [= <- <-]; (split; [by apply HR|by intros ? [= <-]]).
Qed.
Lemma keeps_take_arguments argc : keeps (take_arguments argc).
Proof.
  intros m r m'. unfold take_arguments. destruct (checked_sub _ _); intros [= <- <-]; (split; [|by intros ? [= <-]]).
  - apply HR, truncate_length.
  - apply HR.
Qed.
Lemma keeps_truncate len : keeps (truncate_operands len).
Proof. apply keeps_writes. intros m. apply HR, truncate_length. Qed.
Lemma keeps_int_pair : keeps int_pair.
Proof.
  intros m r m'. unfold int_pair, short_int_pair. destruct (_ <? _)%N.
  - destruct (vec_pop (mc_operands m)) as [v ops] eqn:E. apply vec_pop_length in E.
    destruct v as [[]|]; intros [= <- <-]; (split; [by apply HR|by intros ? [= <-]]).
  - intros (b & _ & H)%bind_Ret. destruct b;
      try (revert H; intros [= <- <-]; split; [apply HR, truncate_length|by intros ? [= <-]]).
    apply bind_Ret in H as (a & _ & H). destruct a; injection H as <- <-;
      (split; [|by intros ? [= <-]]); first [apply HR; fail|apply HR, truncate_length].
Qed.
Lemma keeps_replace_pair at_ v : keeps (replace_pair at_ v).
Proof.
  intros m r m' (x & _ & [= <- <-])%bind_Ret. split; [|done]. apply HR. etrans; [apply truncate_length|].
  by rewrite length_insert.
Qed.
Lemma keeps_push_frame callee signature consume closure env : keeps (push_frame callee signature consume closure env).
Proof.
  intros m r m' E. destruct r as [[]|fault].
  - split; [by eapply st_call|done].
  - revert E. unfold push_frame. repeat case_match; intros [= <- <-]; (split; [apply HR|by intros ? [= <-]]).
Qed.
Lemma keeps_collect_callbacks : keeps collect_callbacks.
Proof.
  intros m r m'. unfold collect_callbacks. destruct (negb _); [intros [= <- <-]; split; [apply HR|done]|].
  intros (marked & _ & [= <- <-])%bind_Ret. split; [apply HR|done].
Qed.
Lemma keeps_return v : keeps (return_value v).
Proof.
  intros m r m'. unfold return_value, mbind at 1, machine_bind at 1, reads at 1.
  destruct (snoc_cases (mc_frames m)) as [E|(frames & frame & E)]; rewrite E.
  - rewrite vec_pop_nil. intros [= <- <-]. split; [apply HR|by intros ? [= <-]].
  - rewrite vec_pop_app. revert m r m' E. intros m r m' E. unfold mbind at 1, machine_bind at 1, writes at 1.
    pose proof (st_return _ HR m frames frame E) as H1. intros H.
    enough (keeps (if decide (length frames = 0) then _ ← release_callbacks; mret (Some v)
                   else _ ← push v; _ ← release_callbacks; mret None)) as Hk.
    { destruct (Hk _ _ _ H) as [H2 ?]. split; [by eapply st_trans|done]. }
    assert (Hrel : keeps release_callbacks).
    { apply keeps_bind; [apply keeps_reads|]. intros c. destruct (decide (length c = 0)); [apply keeps_ret|apply keeps_collect_callbacks]. }
    destruct (decide _).
    + apply keeps_bind; [done|]. intros _. apply keeps_ret.
    + apply keeps_bind; [apply keeps_push|]. intros _. apply keeps_bind; [done|]. intros _. apply keeps_ret.
Qed.
Lemma keeps_collect_garbage extra : keeps (collect_garbage extra).
Proof. intros m r m' ([h s] & _ & [= <- <-])%bind_Ret. split; [apply HR|done]. Qed.
Lemma keeps_alloc_callback func captures env depth : keeps (alloc_callback_native func captures env depth).
Proof.
  intros m r m'. unfold alloc_callback_native. repeat case_match; intros [= <- <-];
    (split; [apply HR|by intros ? [= <-]]).
Qed.

(** One step of a proof that a call keeps [R]: the primitives, the structure. *)
Ltac keeps_step :=
  first
    [ apply keeps_ret | apply keeps_fail; discriminate | apply keeps_reads | apply keeps_push | apply keeps_pop
    | apply keeps_take_arguments | apply keeps_truncate | apply keeps_int_pair | apply keeps_replace_pair
    | apply keeps_push_frame | apply keeps_return | apply keeps_collect_garbage | apply keeps_alloc_callback
    | apply keeps_on_heap | apply keeps_with_heap | apply keeps_update_heap | apply keeps_lift
    | apply keeps_ok_or; discriminate
    | apply keeps_try; intros ?; first [apply epoch_bump_fault | apply probe_parts_fault | apply probe_token_fault]
    | apply keeps_bind; [|intros ?]
    | match goal with |- spec _ _ (match ?x with _ => _ end) => destruct x eqn:? end
    | done ].
Ltac keeps := repeat keeps_step.

Lemma keeps_pop_int : keeps pop_int. Proof. unfold pop_int. keeps. Qed.
Lemma keeps_pop_float : keeps pop_float_bits. Proof. unfold pop_float_bits. keeps. Qed.
Lemma keeps_pop_bool : keeps pop_bool. Proof. unfold pop_bool. keeps. Qed.
Lemma keeps_pop_obj : keeps pop_obj. Proof. unfold pop_obj. keeps. Qed.
Lemma keeps_local_at slot : keeps (local_at slot). Proof. unfold local_at. keeps. Qed.
Lemma keeps_reserve delta temps : keeps (reserve delta temps). Proof. unfold reserve. keeps. Qed.
Lemma keeps_alloc object : keeps (machine_alloc object). Proof. unfold machine_alloc, alloc_with_roots. keeps. Qed.
Lemma keeps_guard r : keeps (frozen_guard r). Proof. unfold frozen_guard. keeps. Qed.
Lemma keeps_callback r : keeps (callback r). Proof. unfold callback. keeps. Qed.

Lemma keeps_family roles ty : keeps (close_option_family roles ty).
Proof.
  intros m r m'. unfold close_option_family. destruct (env_close _ _ _) as [[closed|f] envs] eqn:E.
  - assert (Hfail : ∀ f, not_fuel f → ∀ r m', Ret (Err f : result N FaultCode, set_envs m envs) = Ret (r, m') →
                    R m m' ∧ ∀ fault, r = Err fault → not_fuel fault).
    { intros f Hf ? ? [= <- <-]. split; [apply HR|by intros ? [= <-]]. }
    destruct (env_instance envs closed) as [[class [|a [|]]]|]; try (by apply Hfail).
    destruct (_ =? _)%N; [by apply Hfail|]. destruct (class =? _)%N; [intros [= <- <-]; split; [apply HR|done]|].
    destruct (_ && _); [by apply Hfail|].
    destruct (env_intern _ _ _) as [family envs'] eqn:E'. intros [= <- <-]. split.
    + replace (set_envs (set_envs m envs) envs') with (set_envs m envs') by done. apply HR.
    + intros fault ->. by eapply env_intern_fault.
  - intros [= <- <-]. split; [apply HR|]. intros ? [= <-]. by eapply env_close_fault.
Qed.
Lemma keeps_option roles ty v : keeps (push_option roles ty v).
Proof. unfold push_option. destruct v; [apply keeps_push|]. apply keeps_bind; [apply keeps_family|]. intros; apply keeps_push. Qed.
Lemma keeps_get_list r : keeps (get_list r). Proof. unfold get_list. keeps. Qed.
Lemma keeps_change_list r epoch items : keeps (change_list r epoch items). Proof. unfold change_list. keeps. Qed.
Lemma keeps_ensure r : keeps (ensure_map_index r). Proof. unfold ensure_map_index. keeps. Qed.
Lemma keeps_query {A} (f : SharedText → A) q : keeps (query_hash f q).
Proof.
  unfold query_hash. apply keeps_bind; [|intros; apply keeps_ret]. apply keeps_try_heap. intros h fault [= E].
  by eapply query_text_fault.
Qed.
Lemma keeps_indexed r hash matches :
  (∀ h v fault, matches h v = Ret (Err fault) → not_fuel fault) → keeps (map_lookup_indexed r hash matches).
Proof.
  intros Hm. unfold map_lookup_indexed. keeps. apply keeps_try_heap. intros h fault. apply find_candidate_fault. apply Hm.
Qed.
Lemma keeps_lookup r key : keeps (map_lookup r key).
Proof.
  unfold map_lookup. apply keeps_bind; [apply keeps_ensure|]. intros _. apply keeps_bind.
  - apply keeps_try_heap. intros h fault. apply key_hash_fault.
  - intros hash. apply keeps_bind; [|intros; apply keeps_ret]. apply keeps_indexed. by intros h v fault (b & _ & ?)%bind_Ret.
Qed.
Lemma keeps_lookup_text r q : keeps (map_lookup_borrowed_string r q).
Proof.
  unfold map_lookup_borrowed_string. apply keeps_bind; [apply keeps_ensure|]. intros _.
  apply keeps_bind; [apply keeps_query|]. intros hash. apply keeps_indexed. intros h v fault. apply query_matches_fault.
Qed.
Lemma keeps_owned_object q : keeps (owned_object q).
Proof.
  intros m r m'. unfold owned_object. repeat case_match; intros [= <- <-]; (split; [apply HR|by intros ? [= <-]]).
Qed.
Lemma keeps_insert_entry r key value semantic : keeps (insert_entry r key value semantic).
Proof.
  unfold insert_entry. keeps. apply keeps_try_heap. intros h fault. apply push_entry_fault.
Qed.
Lemma keeps_remove_map_entry r entry : keeps (remove_map_entry r entry).
Proof.
  unfold remove_map_entry. apply keeps_bind; [apply keeps_on_heap|]. intros o.
  destruct o; try (apply keeps_fail; discriminate). intros m res m'. unfold mbind at 1, machine_bind at 1, lift_exec.
  destruct (remove_entry entries index entry) as [[[[[v es] i]|f] i']| |] eqn:E; cbn [mbind exec_bind]; try done.
  - revert m res m'. change (keeps (_ ← heap_put r (OMap es i); _ ← heap_recharge r; mret v)). keeps.
  - revert m res m'. change (keeps (_ ← heap_put r (OMap entries i'); fail f : machine Value)).
    apply keeps_bind; [apply keeps_update_heap|]. intros _. apply keeps_fail. by eapply remove_entry_fault.
Qed.
Lemma keeps_replace_value r pos value discard : keeps (replace_value r pos value discard).
Proof. unfold replace_value. keeps. Qed.
Lemma keeps_growth owned : keeps (entry_growth owned). Proof. unfold entry_growth. keeps. Qed.
Lemma keeps_alloc_owned owned key : keeps (alloc_owned owned key). Proof. unfold alloc_owned. keeps. Qed.
Lemma keeps_token r token : keeps (map_token_entry r token). Proof. unfold map_token_entry. keeps. Qed.
Lemma keeps_probe_slot r semantic epoch prior : keeps (probe_slot r semantic epoch prior).
Proof. unfold probe_slot. keeps. Qed.
Lemma keeps_frozen_key key : keeps (frozen_key key).
Proof.
  intros m r m'. unfold frozen_key. destruct key; try (by intros [= <- <-]; split; [apply HR|]).
  intros ([verdict s] & E & H)%bind_Ret. simplify_eq. split; [apply HR|]. intros fault.
  destruct verdict as [|f]; [done|]. apply verify_frozen_fault in E. destruct f; by intros [= <-].
Qed.
Lemma keeps_jump target n : keeps (jump target n).
Proof. unfold jump. keeps. apply keeps_writes. intros m. apply HR. Qed.

Ltac keeps_call :=
  first
    [ apply keeps_pop_int | apply keeps_pop_float | apply keeps_pop_bool | apply keeps_pop_obj | apply keeps_local_at
    | apply keeps_reserve | apply keeps_alloc | apply keeps_guard | apply keeps_callback | apply keeps_family
    | apply keeps_option | apply keeps_get_list | apply keeps_change_list | apply keeps_ensure | apply keeps_query
    | apply keeps_lookup | apply keeps_lookup_text | apply keeps_owned_object | apply keeps_insert_entry
    | apply keeps_remove_map_entry | apply keeps_replace_value | apply keeps_growth | apply keeps_alloc_owned
    | apply keeps_token | apply keeps_probe_slot | apply keeps_frozen_key | apply keeps_jump
    | apply keeps_writes; intros ?; apply HR; first [apply length_insert | apply vec_remove_length]
    | keeps_step ].
Ltac keeps ::= repeat keeps_call.

Lemma keeps_map_put r key value discard storage : keeps (map_put r key value discard storage).
Proof. unfold map_put. keeps. apply keeps_try_heap. intros h fault. apply key_hash_fault. Qed.
Lemma keeps_map_put_inner roles ty discard storage : keeps (exec_map_put_inner roles ty discard storage).
Proof.
  unfold exec_map_put_inner. do 3 (apply keeps_bind; [keeps|intros ?]).
  apply keeps_bind; [apply keeps_map_put|intros ?]. keeps.
Qed.
Lemma keeps_map_new count : keeps (exec_map_new count).
Proof. unfold exec_map_new. keeps. apply keeps_try_heap. intros h fault. by eapply literal_fault. Qed.
Lemma keeps_freeze : keeps exec_freeze.
Proof.
  unfold exec_freeze. keeps. intros m r m' ([[verdict h] s] & E & H)%bind_Ret. simplify_eq. split; [apply HR|].
  intros fault ->. by eapply freeze_fault.
Qed.
Lemma keeps_call_value ns argc n : keeps (exec_call_value ns argc n).
Proof. unfold exec_call_value, enter_call. keeps. Qed.

Context (Hcold : ∀ ns instr, keeps (cold_instr ns instr)).

Lemma keeps_int_bits instr :
  keeps (r ← pop_int; l ← pop_int;
         match int_bits instr l r with
         | Some v => v ← try_ v; _ ← push (VInt v); mret Continue
         | None => lift_exec Panic
         end).
Proof.
  apply keeps_bind; [apply keeps_pop_int|intros r]. apply keeps_bind; [apply keeps_pop_int|intros l].
  destruct (int_bits instr l r) as [v|] eqn:E; [|apply keeps_lift]. apply keeps_bind; [|intros ?; keeps].
  apply keeps_try. intros fault ->. by eapply int_bits_fault.
Qed.
Lemma keeps_numeric ns instr : keeps (exec_numeric_instr ns instr).
Proof. destruct instr; cbn [exec_numeric_instr]; first [apply Hcold | apply keeps_int_bits | keeps]. Qed.

Lemma keeps_extended ns instr : keeps (exec_extended ns instr).
Proof.
  destruct instr; cbn [exec_extended]; try apply Hcold; try (apply keeps_ret);
    try (apply keeps_bind; [|intros; apply keeps_ret]).
  all: try apply keeps_map_put_inner.
  all: unfold exec_make_callback, alloc_callback, exec_as_callback, exec_list_get, exec_map_get, exec_map_intern_text_range,
    exec_list_epoch, exec_list_iter_len, exec_map_epoch, exec_map_iter_len, exec_map_next_index, exec_seal_instance,
    exec_map_entry, exec_list_set, exec_list_swap, exec_list_pop, exec_list_insert, exec_list_remove, exec_list_truncate,
    exec_list_reorder, exec_map_remove, exec_map_clear, exec_map_probe, exec_map_probe_found, exec_map_probe_entry,
    exec_map_probe_set_value, exec_map_probe_remove, exec_map_insert_hashed, exec_map_write_guard, exec_prepare_wait.
  all: keeps.
Qed.

Lemma keeps_plain x n : keeps x → keeps (stays x n).
Proof. intros H. apply keeps_bind; [done|]. intros _. apply keeps_ret. Qed.
Lemma keeps_leaves x n : keeps x → keeps (leaves x n).
Proof. intros H. apply keeps_bind; [done|]. intros o. apply keeps_ret. Qed.

(** Every instruction keeps a stable relation, when the cold ones do. *)
Lemma keeps_instr ns instr n : keeps (exec_instr ns instr n).
Proof.
  destruct instr; cbn [exec_instr]; try apply keeps_plain; try apply keeps_leaves;
    first [apply Hcold | apply keeps_numeric | apply keeps_extended | apply keeps_call_value | apply keeps_map_new
          | apply keeps_map_put_inner | apply keeps_freeze | apply keeps_jump | idtac].
  all: unfold int_binary, int_compare, int_div, int_rem, exec_make_closure, exec_load_capture, exec_load_local,
    exec_store_local, exec_new, exec_load_field, exec_store_field, exec_tuple_new, exec_tuple_get, exec_eq_digest,
    exec_list_new, exec_list_len, exec_list_at, exec_list_push, exec_map_len, exec_map_has, exec_map_at, entry_value,
    branch_if, exec_return, enter_call; cbv beta.
  all: keeps.
Qed.
End stable.
End MachineFacts.
