(* ===== verification/Quantum.v ===== *)
(** * Quanta

    What the loop of [Interp] does with its fuel.  No instruction reads or
    changes the fuel ([free]), and the cache of the current block never changes
    what is fetched ([fetch_plain]); so a quantum can be cut at any instruction
    boundary without changing what the program does. *)

From stdpp Require Import base numbers option gmap list.
From S2P Require Import Prelude Fault Value Pages TextViews MapIndex MapIndexFacts Heap Objects Graph Bytecode Machine Collections Interp MachineFacts.

#[local] Open Scope nat_scope.

Section Quantum.
Context `{TS : TierState} `{PL : Payloads} `{HM : HostMemory} `{MT : MachineTypes} `{NF : !NativeFrames}
  `{TB : !TextBytes} `{ET : !EnvTable} `{CC : !ColdCode}.

(** *** Fuel *)

Section free.
Context (f : N).

Definition refuel {A} (p : A * Machine) : A * Machine := (p.1, set_fuel p.2 f).
(** The call neither reads nor changes the fuel. *)
Definition free {A} (x : machine A) : Prop := ∀ m, x (set_fuel m f) = refuel <$> x m.

Lemma free_ret {A} (a : A) : free (mret a). Proof. done. Qed.
Lemma free_fail {A} fault : free (fail fault : machine A). Proof. done. Qed.
Lemma free_bind {A B} (x : machine A) (g : A → machine B) : free x → (∀ a, free (g a)) → free (x ≫= g).
Proof.
  intros Hx Hg m. unfold mbind, machine_bind. rewrite Hx. destruct (x m) as [[[a|e] m1]| |]; simpl; try done. apply Hg.
Qed.
Lemma free_ok_or {A} (o : option A) fault : free (ok_or o fault). Proof. by destruct o. Qed.
Lemma free_try {A} (r : result A FaultCode) : free (try_ r). Proof. by destruct r. Qed.
Lemma free_reads {A} (g : Machine → A) : (∀ m, g (set_fuel m f) = g m) → free (reads g).
Proof. intros H m. unfold reads. by rewrite H. Qed.
Lemma free_writes g : (∀ m, g (set_fuel m f) = set_fuel (g m) f) → free (writes g).
Proof. intros H m. unfold writes. by rewrite H. Qed.
Lemma free_on_heap {A} (g : Heap → exec A) : free (on_heap g).
Proof. intros m. unfold on_heap. simpl. by destruct (g (mc_heap m)). Qed.
Lemma free_lift {A} (x : exec A) : free (lift_exec x).
Proof. intros m. unfold lift_exec. by destruct x. Qed.
Lemma free_with_heap {A} (g : Heap → exec (A * Heap)) : free (with_heap g).
Proof. intros m. unfold with_heap. simpl. by destruct (g (mc_heap m)) as [[]| |]. Qed.
Lemma free_update_heap g : free (update_heap g).
Proof. intros m. unfold update_heap. simpl. by destruct (g (mc_heap m)). Qed.
Lemma free_try_heap {A} (g : Heap → exec (result A FaultCode)) : free (try_heap g).
Proof. intros m. unfold try_heap. simpl. by destruct (g (mc_heap m)). Qed.

Context (Hnative : ∀ m, materialize_native_continuation (set_fuel m f) = refuel (materialize_native_continuation m)).

Lemma free_push v : free (push v).
Proof.
  intros m. unfold push. simpl. destruct (mc_native m).
  - rewrite Hnative. destruct (materialize_native_continuation m) as [[] m1]; simpl; [done|]. by destruct (_ <=? _)%N.
  - simpl. by destruct (_ <=? _)%N.
Qed.
Lemma free_pop : free pop.
Proof. intros m. unfold pop. simpl. by destruct (last (mc_operands m)). Qed.
Lemma free_take_arguments argc : free (take_arguments argc).
Proof. intros m. unfold take_arguments. simpl. by destruct (checked_sub _ _). Qed.
Lemma free_int_pair : free int_pair.
Proof.
  intros m. unfold int_pair, short_int_pair. simpl. destruct (_ <? _)%N; [by destruct (last (mc_operands m)) as [[]|]|].
  destruct (mc_operands m !! N.to_nat (_ - 1)) as [[]|]; try done. simpl.
  by destruct (mc_operands m !! N.to_nat (_ - 2)) as [[]|].
Qed.
Lemma free_replace_pair at_ v : free (replace_pair at_ v).
Proof. intros m. unfold replace_pair. simpl. by destruct (mc_operands m !! _). Qed.
Lemma free_push_frame callee signature consume closure env : free (push_frame callee signature consume closure env).
Proof. intros m. unfold push_frame. simpl. repeat case_match; done. Qed.
Lemma free_collect_callbacks : free collect_callbacks.
Proof.
  intros m. unfold collect_callbacks. change (callback_seeds (set_fuel m f)) with (callback_seeds m).
  cbn [set_fuel mc_callbacks mc_frames]. destruct (negb _); [done|]. by destruct (mark_callbacks _ _ _ _).
Qed.
Lemma free_collect_garbage extra : free (collect_garbage extra).
Proof.
  intros m. unfold collect_garbage. change (gc_roots (set_fuel m f) extra) with (gc_roots m extra). simpl.
  by destruct (collect _ _ _) as [[]| |].
Qed.
Lemma free_alloc_callback func captures env depth : free (alloc_callback_native func captures env depth).
Proof. intros m. unfold alloc_callback_native. simpl. repeat case_match; done. Qed.
Lemma free_family roles ty : free (close_option_family roles ty).
Proof.
  intros m. unfold close_option_family. change (frame_env (set_fuel m f)) with (frame_env m). simpl.
  destruct (env_close _ _ _) as [[closed|e] envs]; [|done]. destruct (env_instance envs closed) as [[class [|a [|]]]|]; try done.
  destruct (_ =? _)%N; [done|]. destruct (class =? _)%N; [done|]. destruct (_ && _); [done|]. by destruct (env_intern _ _ _).
Qed.
Lemma free_owned_object q : free (owned_object q).
Proof. intros m. unfold owned_object. simpl. repeat case_match; done. Qed.
Lemma free_frozen_key key : free (frozen_key key).
Proof. intros m. unfold frozen_key. destruct key; try done. simpl. by destruct (verify_frozen _ _ _ _) as [[]| |]. Qed.
Lemma free_freeze r :
  free (λ m, '(verdict, h, s) ← freeze (mc_heap m) (mc_scratch m) r (graph_limits (mc_config m));
             Ret (verdict, set_heap m h s) : exec (result unit FaultCode * Machine)).
Proof. intros m. simpl. by destruct (freeze _ _ _ _) as [[[] ?]| |]. Qed.

Lemma free_top g : free (writes (set_top g)).
Proof. apply free_writes. intros m. unfold set_top. simpl. by destruct (last (mc_frames m)). Qed.

Ltac free_step :=
  first
    [ apply free_ret | apply free_fail | apply free_ok_or | apply free_try | apply free_reads; intros ?; reflexivity
    | apply free_top | apply free_writes; intros ?; reflexivity
    | apply free_on_heap | apply free_lift | apply free_with_heap | apply free_update_heap | apply free_try_heap
    | apply free_push | apply free_pop | apply free_take_arguments | apply free_int_pair | apply free_replace_pair
    | apply free_push_frame | apply free_collect_callbacks | apply free_collect_garbage | apply free_alloc_callback
    | apply free_family | apply free_owned_object | apply free_frozen_key | apply free_freeze
    | apply free_bind; [|intros ?]
    | match goal with |- free (match ?x with _ => _ end) => destruct x end ].
Ltac free := repeat free_step.

Lemma free_reserve delta temps : free (reserve delta temps). Proof. unfold reserve. free. Qed.
Lemma free_alloc object : free (machine_alloc object). Proof. unfold machine_alloc, alloc_with_roots. free. Qed.
Lemma free_lookup r key : free (map_lookup r key).
Proof. unfold map_lookup, ensure_map_index, map_lookup_indexed. free. Qed.
Lemma free_lookup_text r q : free (map_lookup_borrowed_string r q).
Proof. unfold map_lookup_borrowed_string, ensure_map_index, map_lookup_indexed, query_hash. free. Qed.
Lemma free_return v : free (return_value v).
Proof.
  unfold return_value, release_callbacks. apply free_bind; [apply free_reads; reflexivity|]. intros frames.
  destruct (vec_pop frames) as [[]]; free.
Qed.
Lemma free_option roles ty v : free (push_option roles ty v). Proof. unfold push_option. free. Qed.
Lemma free_map_put r key value discard storage : free (map_put r key value discard storage).
Proof.
  unfold map_put, frozen_guard, replace_value, entry_growth, alloc_owned, insert_entry.
  apply free_bind; [free|intros _]. apply free_bind.
  - destruct storage; [apply free_lookup|]. apply free_bind; [apply free_lookup_text|intros; apply free_ret].
  - intros [pos|]; [free|]. apply free_bind; [destruct storage; [free|unfold query_hash; free]|intros semantic].
    apply free_bind; [free|intros owned]. apply free_bind; [free|intros growth].
    apply free_bind; [apply free_reserve|intros _]. free.
Qed.

Context (Hcold : ∀ ns instr, free (cold_instr ns instr)).

Ltac free_call :=
  first [apply free_reserve | apply free_alloc | apply free_lookup | apply free_lookup_text | apply free_option
        | apply free_return | free_step].
Ltac free ::= repeat free_call.

Lemma free_map_put_inner roles ty discard storage : free (exec_map_put_inner roles ty discard storage).
Proof.
  unfold exec_map_put_inner, pop_obj. do 3 (apply free_bind; [free|intros ?]).
  apply free_bind; [apply free_map_put|intros ?]. free.
Qed.
Lemma free_numeric ns instr : free (exec_numeric_instr ns instr).
Proof. destruct instr; cbn [exec_numeric_instr]; first [apply Hcold | unfold pop_int, pop_float_bits; free]. Qed.
Lemma free_extended ns instr : free (exec_extended ns instr).
Proof.
  destruct instr; cbn [exec_extended]; try apply Hcold; try (apply free_ret);
    try (apply free_bind; [|intros; apply free_ret]).
  all: try apply free_map_put_inner.
  all: unfold exec_make_callback, alloc_callback, exec_as_callback, exec_list_get, exec_map_get, exec_map_intern_text_range,
    exec_list_epoch, exec_list_iter_len, exec_map_epoch, exec_map_iter_len, exec_map_next_index, exec_seal_instance,
    exec_map_entry, exec_list_set, exec_list_swap, exec_list_pop, exec_list_insert, exec_list_remove, exec_list_truncate,
    exec_list_reorder, exec_map_remove, exec_map_clear, exec_map_probe, exec_map_probe_found, exec_map_probe_entry,
    exec_map_probe_set_value, exec_map_probe_remove, exec_map_insert_hashed, exec_map_write_guard, exec_prepare_wait,
    probe_slot, map_token_entry, replace_value, remove_map_entry, insert_entry, ensure_map_index, entry_value, entry_growth,
    alloc_owned, query_hash, frozen_guard, get_list, change_list, pop_int, pop_obj.
  all: free.
Qed.

(** No instruction reads or changes the fuel, when the cold ones do not. *)
Lemma free_instr ns instr n : free (exec_instr ns instr n).
Proof.
  destruct instr; cbn [exec_instr];
    first [apply free_map_put_inner | apply free_bind; [|intros; apply free_ret] | idtac];
    first [apply Hcold | apply free_numeric | apply free_extended | apply free_map_put_inner | idtac].
  all: unfold int_binary, int_compare, int_div, int_rem, exec_make_closure, exec_load_capture, exec_load_local,
    exec_store_local, exec_new, exec_load_field, exec_store_field, exec_tuple_new, exec_tuple_get, exec_eq_digest,
    exec_list_new, exec_list_len, exec_list_at, exec_list_push, exec_map_new, exec_map_len, exec_map_has, exec_map_at,
    entry_value, branch_if, exec_return, enter_call, exec_freeze, exec_call_value, jump, local_at, truncate_operands,
    frozen_guard, get_list, change_list, callback, pop_bool, pop_int, pop_obj; cbv beta.
  all: free.
Qed.
End free.

(** *** Fetching *)

(** Function numbers fit 32 bits, and the largest is reserved. *)
Definition ns_ok (ns : Namespace) : Prop := (lenN (ns_funcs ns) <= U32_MAX)%N.

Definition cache_ok (ns : Namespace) (c : CodeCache) : Prop :=
  c = cache_empty ∨ block_of ns (cc_func c) (cc_block c) = Some (cc_code c).

(** The instruction a frame names, straight from the code tables. *)
Definition plain_fetch (ns : Namespace) (frame : Frame) : exec Instr :=
  code ← of_option (block_of ns (fr_func frame) (fr_block frame)); of_option (code !! N.to_nat (fr_ip frame)).

Lemma block_reserved ns block : ns_ok ns → block_of ns U32_MAX block = None.
Proof.
  intros H. unfold block_of. rewrite lookup_ge_None_2; [done|]. unfold ns_ok, lenN in H. lia.
Qed.

Lemma fetch_plain ns c frame : ns_ok ns → cache_ok ns c →
  match plain_fetch ns frame with
  | Ret instr => ∃ c', fetch ns c frame = Ret (instr, c') ∧ cache_ok ns c'
  | x => fetch ns c frame = Panic ∧ x = Panic
  end.
Proof.
  intros Hns Hc. unfold fetch, plain_fetch.
  destruct (negb (fr_func frame =? cc_func c)%N || negb (fr_block frame =? cc_block c)%N) eqn:E.
  - destruct (block_of ns (fr_func frame) (fr_block frame)) as [code|] eqn:Eb; [|done]. cbn [of_option mbind exec_bind cc_code].
    destruct (code !! _) as [instr|]; [|done]. eexists. split; [done|]. by right.
  - apply orb_false_iff in E as [E1%negb_false_iff%N.eqb_eq E2%negb_false_iff%N.eqb_eq]. rewrite E1, E2.
    cbn [mbind exec_bind]. destruct Hc as [->|Hc].
    + cbn [cc_func cc_code cache_empty]. by rewrite block_reserved.
    + rewrite Hc. cbn [of_option mbind exec_bind]. destruct (cc_code c !! _) as [instr|]; [|done].
      eexists. split; [done|by right].
Qed.

(** *** Native entry without tiering *)

Definition untiered (policy : NativeResume) : Prop := match policy with Tiered _ _ => False | _ => True end.

(** Two states of the policy that answer alike. *)
Definition same_policy (n n' : InterpreterNative) : Prop := in_policy n = in_policy n' ∧ untiered (in_policy n).

Definition with_native (n' : InterpreterNative) (x : machine (ExecOutcome * InterpreterNative)) :
    machine (ExecOutcome * InterpreterNative) := λ m,
  match x m with Ret (Ok (o, _), m) => Ret (Ok (o, n'), m) | y => y end.

Definition alike (d : dispatch) : Prop :=
  ∀ n n', same_policy n n' → ∀ m, d n' m = with_native n' (d n) m ∧
    ∀ o n1 m1, d n m = Ret (Ok (o, n1), m1) → n1 = n.

Lemma alike_ret o : alike (λ n, mret (o, n)).
Proof. intros n n' H m. split; [done|]. by intros ? ? ? [= <- <- <-]. Qed.
Lemma alike_fail fault : alike (λ _, fail fault).
Proof. by intros n n' H m. Qed.
Lemma alike_bind {A} (x : machine A) (g : A → dispatch) : (∀ a, alike (g a)) → alike (λ n, x ≫= λ a, g a n).
Proof.
  intros Hg n n' H m. unfold with_native, mbind, machine_bind. destruct (x m) as [[[a|e] m1]| |]; try done.
  exact (Hg a n n' H m1).
Qed.
Lemma after_call_alike n n' target : same_policy n n' →
  ∃ b, after_call n target = (b, n) ∧ after_call n' target = (b, n').
Proof. intros [E H]. unfold after_call. rewrite <- E. destruct (in_policy n); eauto; done. Qed.
Lemma after_backedge_alike n n' func : same_policy n n' →
  after_backedge n func = (false, n) ∧ after_backedge n' func = (false, n').
Proof. intros [E H]. unfold after_backedge. rewrite <- E. by destruct (in_policy n). Qed.
Lemma after_return_alike n n' depth : same_policy n n' → after_return n depth = after_return n' depth.
Proof. intros [E H]. unfold after_return. by rewrite <- E. Qed.

Lemma alike_enter callee x : alike (enter_call callee x).
Proof.
  unfold enter_call. apply alike_bind. intros _ n n' H m. destruct (after_call_alike n n' callee H) as (b & -> & ->).
  split; [done|]. by intros ? ? ? [= <- <- <-].
Qed.
Lemma alike_jump target : alike (jump target).
Proof.
  unfold jump. apply alike_bind. intros frames. apply alike_bind. intros frame. apply alike_bind. intros _ n n' H m.
  destruct (_ <=? _)%N; [|split; [done|]; by intros ? ? ? [= <- <- <-]].
  destruct (after_backedge_alike n n' (fr_func frame) H) as [-> ->]. split; [done|]. by intros ? ? ? [= <- <- <-].
Qed.
Lemma alike_return : alike exec_return.
Proof.
  unfold exec_return. apply alike_bind. intros v. apply alike_bind. intros [w|]; [apply alike_ret|].
  apply alike_bind. intros frames n n' H m. rewrite (after_return_alike n n') by done. split; [done|].
  by intros ? ? ? [= <- <- <-].
Qed.

Lemma alike_call_value ns argc : alike (exec_call_value ns argc).
Proof.
  unfold exec_call_value. do 5 (apply alike_bind; intros ?). destruct a3 as [[target env] capture]. apply alike_enter.
Qed.
Lemma alike_instr ns instr : alike (exec_instr ns instr).
Proof.
  destruct instr; cbn [exec_instr];
    first [ apply alike_jump | apply alike_return | apply alike_call_value
          | apply alike_bind; intros ?; first [apply alike_ret | apply alike_enter | idtac] ].
  all: destruct (eqb _ _); [apply alike_jump|apply alike_ret].
Qed.

(** *** The loop *)

(** What the loop relies on of the code it calls. *)
Class ColdLaws : Prop := {
  cold_env :: EnvLaws;
  cold_free : ∀ f ns instr, free f (cold_instr ns instr);
  cold_fault : ∀ ns instr m fault m', cold_instr ns instr m = Ret (Err fault, m') → not_fuel fault;
  native_free : ∀ f m, materialize_native_continuation (set_fuel m f) = refuel f (materialize_native_continuation m);
}.
Context `{CL : !ColdLaws}.

Lemma instr_fault ns instr n m fault m' : exec_instr ns instr n m = Ret (Err fault, m') → not_fuel fault.
Proof.
  intros E. assert (HR : stable (λ _ _, True)) by done.
  eapply (keeps_instr _ HR); [|exact E|done]. intros ns' i m1 r m2 E'. split; [done|]. intros f ->. by eapply cold_fault.
Qed.

Lemma instr_free f ns instr n m : exec_instr ns instr n (set_fuel m f) = refuel f <$> exec_instr ns instr n m.
Proof. apply free_instr; [apply native_free|apply cold_free]. Qed.

Lemma instr_fuel ns instr n m r m' : exec_instr ns instr n m = Ret (r, m') → mc_fuel m' = mc_fuel m.
Proof.
  intros E. pose proof (instr_free (mc_fuel m) ns instr n m) as H. rewrite E in H.
  replace (set_fuel m (mc_fuel m)) with m in H by by destruct m. rewrite E in H.
  cbn in H. injection H as H. by rewrite H.
Qed.

(** The program itself, without fuel, cache or policy state: [k] instructions
    from [m], with the count that is left. *)
Fixpoint run (k : nat) (ns : Namespace) (n : InterpreterNative) (m : Machine) :
    exec (result ExecOutcome FaultCode * nat * Machine) :=
  match k with
  | O => Ret (Err OutOfFuel, 0, m)
  | S k =>
      match last (mc_frames m) with
      | None => Ret (Err BAD_STATE, S k, m)
      | Some frame =>
          instr ← plain_fetch ns frame;
          '(r, m) ← exec_instr ns instr n (set_top advance m);
          match r with
          | Ok (Continue, _) => run k ns n m
          | Ok (ContinueNative, _) => Ret (Ok Continue, k, m)
          | Ok (outcome, _) => Ret (Ok outcome, k, m)
          | Err fault => Ret (Err fault, k, m)
          end
      end
  end.

Lemma set_top_fuel g m f : set_top g (set_fuel m f) = set_fuel (set_top g m) f.
Proof. unfold set_top. simpl. by destruct (last (mc_frames m)). Qed.

Lemma loop_run ns n : ns_ok ns → ∀ k c n' m, cache_ok ns c → same_policy n n' →
  quantum_loop (S k) ns c n' (set_fuel m (N.of_nat k)) =
  '(o, left_, m') ← run k ns n m; Ret (o, set_fuel m' (N.of_nat left_)).
Proof.
  intros Hns. induction k as [|k IH]; intros c n' m Hc Hn; [done|]. cbn [run].
  remember (S k) as k1 eqn:Ek. cbn [quantum_loop set_fuel mc_fuel mc_frames].
  replace (N.of_nat k1 =? 0)%N with false by (subst; symmetry; apply N.eqb_neq; lia).
  destruct (last (mc_frames m)) as [frame|]; [|by subst]. unfold step. pose proof (fetch_plain ns c frame Hns Hc) as Hf.
  destruct (plain_fetch ns frame) as [instr| |]; [|by destruct Hf as [-> _]|by destruct Hf].
  destruct Hf as (c' & -> & Hc'). cbn [mbind exec_bind].
  change (set_fuel (set_fuel m (N.of_nat k1)) (mc_fuel (set_fuel m (N.of_nat k1)) - 1))
    with (set_fuel m (N.of_nat k1 - 1)).
  replace (N.of_nat k1 - 1)%N with (N.of_nat k) by lia. rewrite set_top_fuel, instr_free.
  destruct (alike_instr ns instr n n' Hn (set_top advance m)) as [-> Hsame]. unfold with_native.
  destruct (exec_instr ns instr n (set_top advance m)) as [[[[o n1]|fault] m1]| |] eqn:E; try done.
  rewrite (Hsame o n1 m1 eq_refl). cbn [fmap exec_fmap refuel mbind exec_bind fst snd].
  destruct o; subst k1; try done. by apply IH.
Qed.

Lemma run_split ns n : ∀ a b m,
  run (a + b) ns n m =
  match run a ns n m with
  | Ret (Err OutOfFuel, _, m1) => run b ns n m1
  | Ret (o, left_, m1) => Ret (o, left_ + b, m1)
  | Panic => Panic
  | NoFuel => NoFuel
  end.
Proof.
  induction a as [|a IH]; intros b m; [done|]. cbn [run Nat.add].
  destruct (last (mc_frames m)) as [frame|]; [|done]. destruct (plain_fetch ns frame) as [instr| |]; try done.
  cbn [mbind exec_bind]. destruct (exec_instr _ _ _ _) as [[[[o n1]|fault] m1]| |] eqn:E; try done; cbn [mbind exec_bind].
  - destruct o; done.
  - apply instr_fault in E. by destruct fault.
Qed.

Lemma run_left ns n : ∀ k m o left_ m', run k ns n m = Ret (o, left_, m') →
  left_ ≤ k ∧ (o = Err OutOfFuel → left_ = 0) ∧ mc_fuel m' = mc_fuel m.
Proof.
  induction k as [|k IH]; intros m o left_ m'; cbn [run]; [by intros [= <- <- <-]|].
  destruct (last (mc_frames m)) as [frame|]; [|by intros [= <- <- <-]].
  intros (instr & _ & ([r m1] & E & H)%bind_Ret)%bind_Ret.
  assert (Hf : mc_fuel m1 = mc_fuel m).
  { rewrite (instr_fuel _ _ _ _ _ _ E). unfold set_top. simpl. by destruct (last (mc_frames m)). }
  destruct r as [[o1 n1]|fault].
  - destruct o1; try (injection H as <- <- <-; split_and!; [lia|done|done]).
    destruct (IH _ _ _ _ H) as (? & ? & ?). split_and!; [lia|done|congruence].
  - injection H as <- <- <-. apply instr_fault in E. split_and!; [lia|by intros [= ->]|done].
Qed.

Lemma run_free ns n f : ∀ k m,
  run k ns n (set_fuel m f) = '(o, left_, m') ← run k ns n m; Ret (o, left_, set_fuel m' f).
Proof.
  induction k as [|k IH]; intros m; [done|]. cbn [run]. change (mc_frames (set_fuel m f)) with (mc_frames m).
  destruct (last (mc_frames m)) as [frame|]; [|done]. destruct (plain_fetch ns frame) as [instr| |]; try done.
  cbn [mbind exec_bind]. rewrite set_top_fuel, instr_free.
  destruct (exec_instr ns instr n (set_top advance m)) as [[[[o n1]|fault] m1]| |]; try done. destruct o; try done. apply IH.
Qed.

(** *** Accounts, under any policy *)

(** Where an execution stops without an answer: in a fetch outside the code, or
    inside one instruction. *)
Definition fetch_panics (ns : Namespace) : Prop := ∃ c frame, fetch ns c frame = Panic.
Definition instr_gives (ns : Namespace) (x : exec (result (ExecOutcome * InterpreterNative) FaultCode * Machine)) : Prop :=
  ∃ instr n m, exec_instr ns instr n m = x.

Lemma fetch_fuel ns c frame : fetch ns c frame ≠ NoFuel.
Proof.
  unfold fetch. destruct (_ || _).
  - destruct (block_of _ _ _); [|done]. cbn. by destruct (_ !! _).
  - cbn. by destruct (_ !! _).
Qed.

Lemma loop_accounts ns : ∀ rounds c n m, N.to_nat (mc_fuel m) < rounds →
  match quantum_loop rounds ns c n m with
  | Ret (o, m') => (mc_fuel m' <= mc_fuel m)%N ∧ (o = Err OutOfFuel → mc_fuel m' = 0%N)
  | Panic => fetch_panics ns ∨ instr_gives ns Panic
  | NoFuel => instr_gives ns NoFuel
  end.
Proof.
  induction rounds as [|rounds IH]; intros c n m Hr; [lia|]. cbn [quantum_loop].
  destruct (mc_fuel m =? 0)%N eqn:E0; [to_prop; by split|]. to_prop.
  destruct (last (mc_frames m)) as [frame|]; [|by split]. unfold step.
  destruct (fetch ns c frame) as [[instr c']| |] eqn:Ef; [|by left; exists c, frame|by apply fetch_fuel in Ef].
  cbn [mbind exec_bind]. destruct (exec_instr ns instr n _) as [[r m1]| |] eqn:E; [|by right; eexists _, _, _|by eexists _, _, _].
  cbn [mbind exec_bind]. pose proof (instr_fuel _ _ _ _ _ _ E) as Hf. rewrite set_top_fuel in Hf. cbn [set_fuel mc_fuel] in Hf.
  destruct r as [[o n1]|fault].
  - destruct o; try (split; [lia|done]). specialize (IH c' n1 m1 ltac:(lia)).
    destruct (quantum_loop rounds ns c' n1 m1) as [[o m']| |]; try done. destruct IH as [? ?]. split; [lia|done].
  - apply instr_fault in E. split; [lia|]. by intros [= ->].
Qed.
End Quantum.
