(* ===== verification/Arenas.v ===== *)
(** * The arenas of a machine

    The stack limits as an invariant of execution ([arenas_ok]), the integer
    instructions against the ordered pops they replace, the frames of a call and
    its return, and the callbacks a return releases. *)

From stdpp Require Import base numbers option gmap list.
From S2P Require Import Prelude Fault Value Pages TextViews MapIndex MapIndexFacts Heap Objects Graph Bytecode Machine Collections Interp MachineFacts Quantum.

#[local] Open Scope nat_scope.

Section Arenas.
Context `{TS : TierState} `{PL : Payloads} `{HM : HostMemory} `{MT : MachineTypes} `{NF : !NativeFrames}
  `{TB : !TextBytes} `{ET : !EnvTable} `{CC : !ColdCode} `{CL : !ColdLaws}.

(** *** Limits *)

(** The values of both arenas and the frames stay within the configuration, and
    the frames partition the locals in the order of their calls. *)
Record arenas_ok (m : Machine) : Prop := {
  ao_values : (lenN (mc_operands m) + lenN (mc_locals m) <= max_stack_values (mc_config m))%N;
  ao_depth : (lenN (mc_frames m) <= max_frames (mc_config m))%N;
  ao_bases : ∀ f, f ∈ mc_frames m → (fr_base_local f <= lenN (mc_locals m))%N;
  ao_order : ∀ i j f g, mc_frames m !! i = Some f → mc_frames m !! j = Some g → i ≤ j →
    (fr_base_local f <= fr_base_local g)%N;
  ao_config : (max_stack_values (mc_config m) <= U32_MAX)%N ∧ (max_frames (mc_config m) <= U32_MAX)%N;
}.

Definition bounded (m m' : Machine) : Prop := arenas_ok m → arenas_ok m' ∧ mc_config m' = mc_config m.

Lemma bounded_operands m operands :
  (lenN operands + lenN (mc_locals m) <= max_stack_values (mc_config m))%N → bounded m (set_operands m operands).
Proof. intros H [H1 H2 H3 H4 H5]. by split; [constructor|]. Qed.

(** A frame changed in place keeps the partition. *)
Lemma bounded_top g m : (∀ f, fr_base_local (g f) = fr_base_local f) → bounded m (set_top g m).
Proof.
  intros Hg [H1 H2 H3 H4 H5]. unfold set_top. destruct (snoc_cases (mc_frames m)) as [E|(frames & f & E)].
  - rewrite E. by split; [constructor|].
  - rewrite E, vec_pop_app. split; [|done]. constructor; simpl; try done.
    + rewrite E in H2. revert H2. unfold lenN. by rewrite !length_app.
    + intros f' [?| ->%list_elem_of_singleton]%elem_of_app; [apply H3; rewrite E; apply elem_of_app; by left|].
      rewrite Hg. apply H3. rewrite E. apply elem_of_app. right. by apply list_elem_of_singleton.
    + assert (Hsame : ∀ i h, (frames ++ [g f]) !! i = Some h →
                ∃ h', mc_frames m !! i = Some h' ∧ fr_base_local h' = fr_base_local h).
      { intros i h. rewrite E, !lookup_app. destruct (frames !! i); [by intros [= ->]; eauto|].
        destruct (i - length frames) as [|k]; [|done]. intros [= <-]. by eauto. }
      intros i j h k (h' & ? & <-)%Hsame (k' & ? & <-)%Hsame. by apply H4.
Qed.

Lemma resize_lenN {A} (l : list A) n x : lenN (resize_vec l n x) = n.
Proof. unfold lenN, resize_vec. rewrite length_app, length_take, length_replicate. lia. Qed.

Lemma bounded_call m callee signature consume closure env m' :
  push_frame callee signature consume closure env m = Ret (Ok tt, m') → bounded m m'.
Proof.
  unfold push_frame. destruct (_ <=? _)%N eqn:Ed; [done|]. destruct signature as [func|]; [|done].
  unfold checked_sub. destruct (consume <=? _)%N eqn:Ec; [|done]. destruct (_ <? _)%N eqn:El; [done|].
  intros [= <-] [H1 H2 H3 H4 [H5 H6]]. to_prop. split; [|done]. assert (Hl : (lenN (mc_locals m) <= U32_MAX)%N) by lia.
  assert (Hd : (lenN (mc_frames m) < max_frames (mc_config m))%N) by (rewrite as_u32_small in Ed; lia).
  constructor; cbn [set_arenas mc_frames mc_locals mc_operands mc_config]; [| | | |done].
  - rewrite resize_lenN. assert (Ht := truncate_length (mc_operands m) (lenN (mc_operands m) - consume)).
    unfold lenN in *. lia.
  - unfold lenN in *. rewrite length_app. simpl. lia.
  - rewrite resize_lenN. intros f [Hf| ->%list_elem_of_singleton]%elem_of_app; [specialize (H3 f Hf); lia|].
    simpl. rewrite as_u32_small by done. lia.
  - intros i j f g Hf Hg Hij. apply lookup_app_Some in Hg as [Hg|[Hj Hg]].
    + rewrite lookup_app_l in Hf by (apply lookup_lt_Some in Hg; lia). by eapply H4.
    + destruct (j - _); [|done]. injection Hg as <-. simpl. rewrite as_u32_small by done.
      apply lookup_app_Some in Hf as [Hf|[_ Hf]]; [apply H3; by eapply list_elem_of_lookup_2|].
      destruct (i - _); [|done]. injection Hf as <-. simpl. by rewrite as_u32_small.
Qed.

Lemma bounded_return m frames frame : mc_frames m = frames ++ [frame] →
  bounded m (set_arenas m frames (truncate (mc_locals m) (fr_base_local frame))
               (truncate (mc_operands m) (fr_base_operand frame))).
Proof.
  intros E [H1 H2 H3 H4 H5]. split; [|done].
  assert (Hb : (fr_base_local frame <= lenN (mc_locals m))%N).
  { apply H3. rewrite E. apply elem_of_app. right. by apply list_elem_of_singleton. }
  assert (El : lenN (truncate (mc_locals m) (fr_base_local frame)) = fr_base_local frame).
  { unfold lenN, truncate in *. rewrite length_take. lia. }
  assert (Ho := truncate_length (mc_operands m) (fr_base_operand frame)).
  constructor; cbn [set_arenas mc_frames mc_locals mc_operands mc_config]; [| | | |done].
  - rewrite El. unfold lenN in *. lia.
  - rewrite E in H2. unfold lenN in *. rewrite length_app in H2. simpl in H2. lia.
  - intros f Hf. rewrite El. apply list_elem_of_lookup_1 in Hf as [i Hi].
    apply (H4 i (length frames)); [rewrite E; by rewrite lookup_app_l by (by eapply lookup_lt_Some)| |].
    + rewrite E, lookup_app_r, Nat.sub_diag by lia. done.
    + apply lookup_lt_Some in Hi. lia.
  - intros i j f g Hf Hg. apply H4; rewrite E, lookup_app_l; try done; by eapply lookup_lt_Some.
Qed.

(** What native code keeps of the arenas it writes back. *)
Class ArenaLaws : Prop := {
  native_arenas : ∀ m, bounded m (materialize_native_continuation m).2;
  cold_arenas : ∀ ns instr m r m', cold_instr ns instr m = Ret (r, m') → bounded m m';
}.
Context `{AL : !ArenaLaws}.

Lemma bounded_stable : stable bounded.
Proof.
  constructor; try (by intros m H; split; [destruct H|]); try (by intros m ? [H1 H2 H3 H4 H5]; split; [constructor|]).
  - intros m1 m2 m3 H1 H2 H. destruct (H1 H) as [H' <-]. by apply H2.
  - by intros m h s [H1 H2 H3 H4 H5]; split; [constructor|].
  - apply native_arenas.
  - intros m operands Hl H. apply bounded_operands; [|done]. destruct H. unfold lenN in *. lia.
  - intros m v Hl. apply bounded_operands. unfold lenN in *. rewrite length_app. simpl. lia.
  - intros m locals Hl [H1 H2 H3 H4 H5]. assert (El : lenN locals = lenN (mc_locals m)) by (unfold lenN; by rewrite Hl).
    split; [|done]. constructor; cbn [set_arenas set_locals mc_frames mc_locals mc_operands mc_config]; rewrite ?El; done.
  - intros m target. by apply bounded_top.
  - intros. by eapply bounded_call.
  - intros. by apply bounded_return.
Qed.

Lemma instr_bounded ns instr n m r m' : exec_instr ns instr n m = Ret (r, m') → bounded m m'.
Proof.
  intros E. eapply (keeps_instr _ bounded_stable); [|exact E]. intros ns' i m1 r1 m2 E1.
  split; [by eapply cold_arenas|]. intros f ->. by eapply cold_fault.
Qed.

Lemma fuel_bounded m f : bounded m (set_fuel m f).
Proof. by intros [H1 H2 H3 H4 H5]; split; [constructor|]. Qed.

Lemma loop_bounded ns : ∀ rounds c n m r m', quantum_loop rounds ns c n m = Ret (r, m') → bounded m m'.
Proof.
  pose proof bounded_stable as HR. induction rounds as [|rounds IH]; intros c n m r m'; [done|]. cbn [quantum_loop].
  destruct (_ =? _)%N; [intros [= <- <-]; apply (st_refl _ HR)|].
  destruct (last (mc_frames m)) as [frame|]; [|intros [= <- <-]; apply (st_refl _ HR)].
  unfold step. intros ([[r1 m1] c1] & E & H)%bind_Ret.
  apply bind_Ret in E as ([instr c2] & _ & ([r2 m2] & E & [= <- <- <-])%bind_Ret).
  assert (H1 : bounded m m2).
  { eapply (st_trans _ HR); [apply (fuel_bounded m (mc_fuel m - 1))|].
    eapply (st_trans _ HR); [by apply (bounded_top advance)|]. by eapply instr_bounded. }
  destruct r2 as [[o n1]|]; [|by simplify_eq]. destruct o; try (by simplify_eq).
  eapply (st_trans _ HR); [done|by eapply IH].
Qed.

(** *** Integer instructions *)

(** The reference: two ordered pops, the value, and a push. *)
Definition ordered (f : Z → Z → result Value FaultCode) : machine unit :=
  b ← pop_int; a ← pop_int; v ← try_ (f a b); push v.

Definition in_place (f : Z → Z → result Value FaultCode) : machine unit :=
  '(at_, a, b) ← int_pair;
  match f a b with
  | Ok v => replace_pair at_ v
  | Err fault => _ ← truncate_operands at_; fail fault
  end.

(** Sums, differences, products and quotients, exact or refused. *)
Definition fits (v : Z) : result Value FaultCode :=
  if (I64_MIN <=? v)%Z && (v <=? I64_MAX)%Z then Ok (VInt v) else Err IntegerOverflow.
Definition exact_div (a b : Z) : result Value FaultCode := if (b =? 0)%Z then Err DivideByZero else fits (Z.quot a b).
Definition exact_rem (a b : Z) : result Value FaultCode :=
  if (b =? 0)%Z then Err DivideByZero
  else match fits (Z.quot a b) with Ok _ => Ok (VInt (a - b * Z.quot a b)) | Err fault => Err fault end.

Definition is_i64 (v : Z) : Prop := (I64_MIN <= v <= I64_MAX)%Z.

Lemma truncate_app {A} (l k : list A) : truncate (l ++ k) (lenN l) = l.
Proof. unfold truncate, lenN. by rewrite Nat2N.id, take_app_length. Qed.

Lemma lookup_lenN {A} (l k : list A) : (l ++ k) !! N.to_nat (lenN l) = k !! 0.
Proof. unfold lenN. rewrite Nat2N.id, lookup_app_r, Nat.sub_diag by lia. done. Qed.
Lemma int_or_not (v : Value) : (∃ z, v = VInt z) ∨ ∀ z, v ≠ VInt z.
Proof. destruct v; eauto; by right. Qed.

Lemma pop_app m ops v : mc_operands m = ops ++ [v] → pop m = Ret (Ok v, set_operands m ops).
Proof. intros E. unfold pop. by rewrite E, vec_pop_app. Qed.
Lemma pop_int_app m ops v : mc_operands m = ops ++ [VInt v] → pop_int m = Ret (Ok v, set_operands m ops).
Proof. intros E. unfold pop_int, mbind, machine_bind. by rewrite (pop_app _ _ _ E). Qed.
Lemma pop_int_bad m ops v : mc_operands m = ops ++ [v] → (∀ z, v ≠ VInt z) →
  pop_int m = Ret (Err BAD_TYPE, set_operands m ops).
Proof. intros E H. unfold pop_int, mbind, machine_bind. rewrite (pop_app _ _ _ E). destruct v; try done. by destruct (H v). Qed.

Lemma int_pair_app m ops a b : mc_operands m = ops ++ [a; b] →
  int_pair m =
  match b, a with
  | VInt b, VInt a => Ret (Ok (lenN ops, a, b), m)
  | VInt _, _ => Ret (Err BAD_TYPE, set_operands m ops)
  | _, _ => Ret (Err BAD_TYPE, set_operands m (ops ++ [a]))
  end.
Proof.
  intros E. unfold int_pair. rewrite E. assert (El : lenN (ops ++ [a; b]) = (lenN ops + 2)%N) by (unfold lenN; rewrite length_app; simpl; lia).
  rewrite El. replace (_ <? 2)%N with false by (symmetry; apply N.ltb_ge; lia).
  replace (lenN ops + 2 - 1)%N with (lenN (ops ++ [a])) by (unfold lenN; rewrite length_app; simpl; lia).
  replace (lenN ops + 2 - 2)%N with (lenN ops) by lia.
  replace (ops ++ [a; b]) with ((ops ++ [a]) ++ [b]) by by rewrite <- app_assoc.
  rewrite truncate_app, lookup_lenN. cbn [lookup list_lookup of_option mbind exec_bind].
  rewrite <- app_assoc. cbn [app]. rewrite truncate_app, lookup_lenN.
  by destruct b; try done; destruct a.
Qed.

Lemma push_room m v : mc_native m = None →
  (lenN (mc_operands m) + lenN (mc_locals m) < max_stack_values (mc_config m))%N →
  push v m = Ret (Ok tt, set_operands m (mc_operands m ++ [v])).
Proof. intros En Hl. unfold push. rewrite En. by rewrite (proj2 (N.leb_gt _ _) Hl). Qed.

Lemma in_place_ordered f m : mc_native m = None →
  (lenN (mc_operands m) + lenN (mc_locals m) <= max_stack_values (mc_config m))%N → in_place f m = ordered f m.
Proof.
  intros En Hm. unfold in_place, ordered, mbind, machine_bind.
  destruct (snoc_cases (mc_operands m)) as [E|(l & b & E)].
  { unfold int_pair, short_int_pair, pop_int, mbind, machine_bind, pop. rewrite E. done. }
  destruct (snoc_cases l) as [->|(ops & a & ->)].
  { unfold int_pair, short_int_pair, pop_int, mbind, machine_bind, pop. rewrite E. cbn. by destruct b. }
  rewrite <- app_assoc in E. cbn [app] in E. rewrite (int_pair_app _ _ _ _ E).
  assert (E' : mc_operands m = (ops ++ [a]) ++ [b]) by by rewrite <- app_assoc.
  destruct (int_or_not b) as [[zb ->]|Hb].
  2: { rewrite (pop_int_bad _ _ _ E') by done. destruct b; try done. by destruct (Hb v). }
  rewrite (pop_int_app _ _ _ E'). destruct (int_or_not a) as [[za ->]|Ha].
  2: { rewrite (pop_int_bad (set_operands m (ops ++ [a])) ops a) by done. destruct a; try done. by destruct (Ha v). }
  rewrite (pop_int_app (set_operands m (ops ++ [VInt za])) ops za) by done.
  destruct (f za zb) as [v|fault]; cbn [try_ mret machine_ret fail].
  - unfold replace_pair. rewrite E, lookup_lenN.
    cbn [lookup list_lookup of_option mbind exec_bind]. rewrite push_room; [|done|].
    + cbn [set_operands set_arenas mc_operands mc_frames mc_locals]. do 2 f_equal. unfold lenN. rewrite Nat2N.id.
      rewrite insert_app_r_alt, Nat.sub_diag by lia. cbn [insert list_insert]. unfold truncate.
      change [v; VInt zb] with ([v] ++ [VInt zb]). rewrite app_assoc, take_app_le; [|rewrite length_app; simpl; lia].
      by rewrite take_ge by (rewrite length_app; simpl; lia).
    + cbn [set_operands set_arenas mc_operands mc_locals mc_config]. rewrite E in Hm. unfold lenN in *. rewrite length_app in Hm. simpl in Hm. lia.
  - unfold truncate_operands, writes. rewrite E. by rewrite truncate_app.
Qed.

Definition ints_ok (m : Machine) : Prop := ∀ v, VInt v ∈ mc_operands m → is_i64 v.

Lemma ordered_ext f g m : ints_ok m → (∀ a b, is_i64 a → is_i64 b → f a b = g a b) → ordered f m = ordered g m.
Proof.
  intros Hi H. unfold ordered, mbind, machine_bind.
  destruct (snoc_cases (mc_operands m)) as [E|(l & vb & E)].
  { unfold pop_int, mbind, machine_bind, pop. by rewrite E. }
  assert (Hi' : ∀ v, VInt v ∈ l ++ [vb] → is_i64 v) by (rewrite <- E; apply Hi).
  destruct (int_or_not vb) as [[b ->]|Hb]; [|by rewrite (pop_int_bad _ _ _ E)].
  rewrite (pop_int_app _ _ _ E). destruct (snoc_cases l) as [->|(ops & va & ->)].
  { unfold pop_int, mbind, machine_bind, pop. done. }
  destruct (int_or_not va) as [[a ->]|Ha]; [|by rewrite (pop_int_bad (set_operands m (ops ++ [va])) ops va)].
  rewrite (pop_int_app (set_operands m (ops ++ [VInt a])) ops a) by done.
  rewrite (H a b); [done| |]; apply Hi'; set_solver.
Qed.

(** The quotient leaves the range exactly for the least value over -1. *)
Lemma quot_range a b : is_i64 a → b ≠ 0%Z → ¬ (a = I64_MIN ∧ b = (-1)%Z) → is_i64 (Z.quot a b).
Proof. unfold is_i64, I64_MIN, I64_MAX. intros Ha Hb Hn. Z.to_euclidean_division_equations. nia. Qed.

Lemma quot_fits a b : is_i64 a → b ≠ 0%Z →
  fits (Z.quot a b) = if (a =? I64_MIN)%Z && (b =? -1)%Z then Err IntegerOverflow else Ok (VInt (Z.quot a b)).
Proof.
  intros Ha Hz. destruct ((a =? I64_MIN)%Z && (b =? -1)%Z) eqn:E.
  - apply andb_true_iff in E as [->%Z.eqb_eq ->%Z.eqb_eq]. done.
  - destruct (quot_range a b) as [H1 H2]; [done|done| |].
    + intros [-> ->]. done.
    + unfold fits. apply Z.leb_le in H1, H2. by rewrite H1, H2.
Qed.

Lemma int_binary_in_place op m :
  int_binary op m = in_place (λ a b, match op a b with Some v => Ok (VInt v) | None => Err IntegerOverflow end) m.
Proof.
  unfold int_binary, in_place, mbind, machine_bind. destruct (int_pair m) as [[[[[at_ a] b]|] m1]| |]; try done.
  by destruct (op a b).
Qed.
Lemma int_div_in_place m :
  int_div m = in_place (λ a b, if (b =? 0)%Z then Err DivideByZero
                               else if (a =? I64_MIN)%Z && (b =? -1)%Z then Err IntegerOverflow
                               else Ok (VInt (Z.quot a b))) m.
Proof.
  unfold int_div, in_place, mbind, machine_bind. destruct (int_pair m) as [[[[[at_ a] b]|] m1]| |]; try done.
  destruct (b =? 0)%Z; [done|]. by destruct (_ && _).
Qed.
Lemma int_rem_in_place m :
  int_rem m = in_place (λ a b, if (b =? 0)%Z then Err DivideByZero
                               else if (a =? I64_MIN)%Z && (b =? -1)%Z then Err IntegerOverflow
                               else Ok (VInt (Z.rem a b))) m.
Proof.
  unfold int_rem, in_place, mbind, machine_bind. destruct (int_pair m) as [[[[[at_ a] b]|] m1]| |]; try done.
  destruct (b =? 0)%Z; [done|]. by destruct (_ && _).
Qed.

Lemma int_binary_exact op g m : mc_native m = None → arenas_ok m → ints_ok m →
  (∀ a b, op a b = checked_i64 (g a b)) → int_binary op m = ordered (λ a b, fits (g a b)) m.
Proof.
  intros En Ha Hi Hop. rewrite int_binary_in_place, in_place_ordered by (done || apply Ha). apply ordered_ext; [done|].
  intros a b _ _. rewrite Hop. unfold checked_i64, fits. by destruct (_ && _).
Qed.
Lemma int_div_exact m : mc_native m = None → arenas_ok m → ints_ok m → int_div m = ordered exact_div m.
Proof.
  intros En Ha Hi. rewrite int_div_in_place, in_place_ordered by (done || apply Ha). apply ordered_ext; [done|].
  intros a b H1 H2. unfold exact_div. destruct (b =? 0)%Z eqn:Eb; [done|]. apply Z.eqb_neq in Eb. by rewrite quot_fits.
Qed.
Lemma int_rem_exact m : mc_native m = None → arenas_ok m → ints_ok m → int_rem m = ordered exact_rem m.
Proof.
  intros En Ha Hi. rewrite int_rem_in_place, in_place_ordered by (done || apply Ha). apply ordered_ext; [done|].
  intros a b H1 H2. unfold exact_rem. destruct (b =? 0)%Z eqn:Eb; [done|]. apply Z.eqb_neq in Eb. rewrite quot_fits by done.
  destruct (_ && _); [done|]. do 2 f_equal. pose proof (Z.quot_rem' a b). lia.
Qed.
Lemma int_compare_exact op m : mc_native m = None → arenas_ok m →
  int_compare op m = ordered (λ a b, Ok (VBool (op a b))) m.
Proof. intros En Ha. rewrite <- in_place_ordered by (done || apply Ha). done. Qed.
End Arenas.
