(* ===== verification/Callbacks.v ===== *)
(** * The callbacks a return releases

    [collect_callbacks] marks from the arenas and the frames, through the
    captures of the callbacks it meets, and frees the callbacks of the frames
    that are gone.  The marking ends, and marks what is reachable. *)

From stdpp Require Import base numbers option gmap list.
From S2P Require Import Prelude Fault Value Pages TextViews MapIndex Heap Objects Graph Bytecode Machine Collections Interp MachineFacts Arenas.

#[local] Open Scope nat_scope.

Section Callbacks.
Context `{PL : Payloads} `{HM : HostMemory} `{MT : MachineTypes} `{NF : !NativeFrames}.

(** *** Reachability *)

Inductive cb_reach (callbacks : list CallbackSlot) (seeds : list CallbackRef) : CallbackRef → Prop :=
| reach_seed r : r ∈ seeds → cb_reach callbacks seeds r
| reach_capture r d c : cb_reach callbacks seeds r → callback_at callbacks r = Some d →
    c ∈ callback_refs (cb_captures d) → cb_reach callbacks seeds c.

Definition slot_ref (i : nat) (s : CallbackSlot) : CallbackRef := mkCallbackRef (N.of_nat i) (cs_generation s).
Definition slot_captures (s : CallbackSlot) : list CallbackRef :=
  match cs_descriptor s with Some d => callback_refs (cb_captures d) | None => [] end.

(** A reference that names a slot of the arena. *)
Definition names_slot (callbacks : list CallbackSlot) (r : CallbackRef) (i : nat) (s : CallbackSlot) : Prop :=
  callbacks !! i = Some s ∧ r = slot_ref i s.

Lemma reach_slot callbacks seeds i s c :
  callbacks !! i = Some s → cb_reach callbacks seeds (slot_ref i s) → c ∈ slot_captures s → cb_reach callbacks seeds c.
Proof.
  intros Hs Hr Hc. unfold slot_captures in Hc. destruct (cs_descriptor s) as [d|] eqn:Ed; [|by apply elem_of_nil in Hc].
  eapply reach_capture; [done| |done]. unfold callback_at, slot_ref. cbn [cb_slot cb_generation].
  rewrite Nat2N.id, Hs. cbn. by rewrite N.eqb_refl.
Qed.

(** *** The marking *)

Record marking (callbacks : list CallbackSlot) (seeds work : list CallbackRef) (marked : list bool) : Prop := {
  mk_length : length marked = length callbacks;
  mk_sound : ∀ i s, callbacks !! i = Some s → marked !! i = Some true → cb_reach callbacks seeds (slot_ref i s);
  mk_work : ∀ r, r ∈ work → cb_reach callbacks seeds r;
  mk_seeds : ∀ r i s, r ∈ seeds → names_slot callbacks r i s → marked !! i = Some true ∨ r ∈ work;
  mk_closed : ∀ i s r j t, callbacks !! i = Some s → marked !! i = Some true → r ∈ slot_captures s →
    names_slot callbacks r j t → marked !! j = Some true ∨ r ∈ work;
}.

(** The references still to push: the captures of the unmarked slots. *)
Definition pending_captures (callbacks : list CallbackSlot) (marked : list bool) : nat :=
  sum_list (zip_with (λ s (b : bool), if b then 0 else length (slot_captures s)) callbacks marked).

Lemma pending_mark callbacks marked i s : callbacks !! i = Some s → marked !! i = Some false →
  pending_captures callbacks (<[i := true]> marked) + length (slot_captures s) = pending_captures callbacks marked.
Proof.
  revert marked i. induction callbacks as [|t callbacks IH]; intros [|b marked] [|i] Hs Hm; try done.
  - injection Hs as ->. injection Hm as ->. cbn. lia.
  - specialize (IH marked i Hs Hm). unfold pending_captures in *. simpl. rewrite <- IH. lia.
Qed.

Lemma mark_skip callbacks seeds work r marked :
  marking callbacks seeds (work ++ [r]) marked →
  (∀ i s, names_slot callbacks r i s → marked !! i = Some true) → marking callbacks seeds work marked.
Proof.
  intros [H1 H2 H3 H4 H5] Hr. constructor; try done.
  - intros r' Hr'. apply H3. by apply elem_of_app; left.
  - intros r' i s Hs Hn. destruct (H4 r' i s Hs Hn) as [?|[?| ->%list_elem_of_singleton]%elem_of_app]; eauto.
  - intros i s r' j t Hs Hm Hr' Hn. destruct (H5 i s r' j t Hs Hm Hr' Hn) as [?|[?| ->%list_elem_of_singleton]%elem_of_app]; eauto.
Qed.

Lemma mark_slot callbacks seeds work i s marked :
  marking callbacks seeds (work ++ [slot_ref i s]) marked → callbacks !! i = Some s → marked !! i = Some false →
  marking callbacks seeds (work ++ slot_captures s) (<[i := true]> marked).
Proof.
  intros [H1 H2 H3 H4 H5] Hs Hm. assert (Hi : i < length marked) by by eapply lookup_lt_Some.
  assert (Hr : cb_reach callbacks seeds (slot_ref i s)) by (apply H3; set_solver).
  assert (Hkeep : ∀ j, marked !! j = Some true → (<[i:=true]> marked) !! j = Some true).
  { intros j Hj. destruct (decide (i = j)) as [->|]; [by rewrite list_lookup_insert_eq|by rewrite list_lookup_insert_ne]. }
  assert (Hdone : ∀ r j t, names_slot callbacks r j t → marked !! j = Some true ∨ r ∈ work ++ [slot_ref i s] →
    (<[i:=true]> marked) !! j = Some true ∨ r ∈ work ++ slot_captures s).
  { intros r j t [Hj ->] [Hd|Hd]; [left; by apply Hkeep|]. apply elem_of_app in Hd as [Hd|Hd%list_elem_of_singleton]; [right; set_solver|].
    left. injection Hd as Hd _. apply Nat2N.inj in Hd as ->. by apply list_lookup_insert_eq. }
  constructor.
  - by rewrite length_insert.
  - intros j t Hj. destruct (decide (i = j)) as [->|]; [intros _; simplify_eq; done|].
    rewrite list_lookup_insert_ne by done. by apply H2.
  - intros r [Hw|Hc]%elem_of_app; [apply H3; set_solver|by eapply reach_slot].
  - intros r j t Hs' Hn. eapply Hdone; eauto.
  - intros j t r k u Hj Hmj Hc Hn. destruct (decide (i = j)) as [->|].
    + simplify_eq. right. set_solver.
    + rewrite list_lookup_insert_ne in Hmj by done. eapply Hdone; eauto.
Qed.

Lemma mark_callbacks_spec callbacks seeds : ∀ fuel work marked,
  marking callbacks seeds work marked → length work + pending_captures callbacks marked < fuel →
  ∃ marked', mark_callbacks fuel callbacks work marked = Ret marked' ∧ marking callbacks seeds [] marked'.
Proof.
  induction fuel as [|fuel IH]; intros work marked Hm Hf; [lia|]. cbn [mark_callbacks].
  destruct (snoc_cases work) as [->|(rest & r & ->)]; [rewrite vec_pop_nil; by exists marked|]. rewrite vec_pop_app.
  rewrite length_app in Hf. cbn [length] in Hf.
  destruct (callbacks !! N.to_nat (cb_slot r)) as [s|] eqn:Es.
  - assert (Hi : N.to_nat (cb_slot r) < length marked).
    { rewrite (mk_length _ _ _ _ Hm). by eapply lookup_lt_Some. }
    apply lookup_lt_is_Some in Hi as [b Hb]. rewrite Hb. change (default true (Some b)) with b. destruct (_ || b) eqn:E.
    + apply IH; [|lia]. eapply mark_skip; [done|]. intros i t [Ht ->]. cbn in Es. rewrite Nat2N.id in Es. simplify_eq.
      cbn in E, Hb. rewrite N.eqb_refl in E. cbn in E. subst b. by rewrite Nat2N.id in Hb.
    + apply orb_false_iff in E as [Eg%negb_false_iff%N.eqb_eq ->].
      assert (Er : r = slot_ref (N.to_nat (cb_slot r)) s) by (destruct r; unfold slot_ref; cbn in *; by rewrite Eg, N2Nat.id).
      rewrite Er in Hm. apply IH; [by eapply mark_slot|].
      rewrite length_app. pose proof (pending_mark callbacks marked _ s Es Hb). unfold slot_captures in *. lia.
  - apply IH; [|lia]. eapply mark_skip; [done|]. intros i t [Ht ->]. cbn in Es. rewrite Nat2N.id in Es. congruence.
Qed.

(** At the end the marked slots are the reachable ones. *)
Lemma marked_reachable callbacks seeds marked i s : marking callbacks seeds [] marked → callbacks !! i = Some s →
  marked !! i = Some true ↔ cb_reach callbacks seeds (slot_ref i s).
Proof.
  intros Hm Hs. split; [by apply (mk_sound _ _ _ _ Hm)|]. intros Hr.
  assert (H : ∀ r, cb_reach callbacks seeds r → ∀ i s, names_slot callbacks r i s → marked !! i = Some true).
  { induction 1 as [r Hr'|r d c Hr' IH Hd Hc]; intros j t Hn.
    - destruct (mk_seeds _ _ _ _ Hm r j t Hr' Hn) as [?|[]%elem_of_nil]; done.
    - unfold callback_at in Hd. destruct (callbacks !! N.to_nat (cb_slot r)) as [u|] eqn:Eu; [|done]. cbn in Hd.
      destruct (_ =? _)%N eqn:Eg; [|done]. apply N.eqb_eq in Eg.
      assert (Hu : names_slot callbacks r (N.to_nat (cb_slot r)) u).
      { split; [done|]. destruct r; unfold slot_ref; cbn in *. by rewrite Eg, N2Nat.id. }
      destruct (mk_closed _ _ _ _ Hm _ _ c j t Eu (IH _ _ Hu)) as [?|[]%elem_of_nil]; try done.
      unfold slot_captures. by rewrite Hd. }
  by eapply H.
Qed.

Lemma start_marking callbacks seeds : marking callbacks seeds seeds (replicate (length callbacks) false).
Proof.
  constructor.
  - apply length_replicate.
  - intros i s _ [E _]%lookup_replicate. done.
  - intros r Hr. by constructor.
  - intros r i s Hr _. by right.
  - intros i s r j t _ [E _]%lookup_replicate. done.
Qed.

Lemma start_pending callbacks :
  pending_captures callbacks (replicate (length callbacks) false) = length (captured_refs callbacks).
Proof.
  induction callbacks as [|s callbacks IH]; [done|]. unfold pending_captures, captured_refs in *. cbn. rewrite IH, length_app. done.
Qed.

(** *** The release *)

(** Every slot is kept as it is, or released: [released i s] decides. *)
Record releases (m m' : Machine) : Prop := {
  re_slots : length (mc_callbacks m') = length (mc_callbacks m);
  re_reached : ∀ r, cb_reach (mc_callbacks m) (callback_seeds m) r →
    callback_at (mc_callbacks m') r = callback_at (mc_callbacks m) r;
  re_older : ∀ i s, mc_callbacks m !! i = Some s → owned_from (as_u32 (lenN (mc_frames m))) s = false →
    mc_callbacks m' !! i = Some s;
  re_gone : ∀ i s, mc_callbacks m !! i = Some s → owned_from (as_u32 (lenN (mc_frames m))) s = true →
    ¬ cb_reach (mc_callbacks m) (callback_seeds m) (slot_ref i s) →
    mc_callbacks m' !! i = Some (mkCallbackSlot ((cs_generation s + 1) mod 4294967296) None);
}.

Lemma release_kept callbacks seeds marked depth i s : marking callbacks seeds [] marked → callbacks !! i = Some s →
  (owned_from depth s = false ∨ cb_reach callbacks seeds (slot_ref i s)) →
  zip_with (release_slot depth) callbacks marked !! i = Some s.
Proof.
  intros Hm Hs Hk. assert (Hi : i < length marked) by (rewrite (mk_length _ _ _ _ Hm); by eapply lookup_lt_Some).
  apply lookup_lt_is_Some in Hi as [b Hb]. rewrite lookup_zip_with, Hs, Hb. cbn. unfold release_slot.
  destruct Hk as [->|Hr]; [done|]. apply (marked_reachable _ _ _ _ _ Hm Hs) in Hr. simplify_eq. by rewrite andb_false_r.
Qed.

Lemma collect_callbacks_spec m : ∃ m', collect_callbacks m = Ret (Ok tt, m') ∧ releases m m' ∧
  m' = set_callbacks m (mc_callbacks m').
Proof.
  unfold collect_callbacks. set (depth := as_u32 (lenN (mc_frames m))). destruct (existsb _ _) eqn:Ex; cbn [negb].
  - destruct (mark_callbacks_spec (mc_callbacks m) (callback_seeds m) (mark_fuel (mc_callbacks m) (callback_seeds m))
      (callback_seeds m) (replicate (length (mc_callbacks m)) false)) as (marked & E & Hm).
    { apply start_marking. }
    { rewrite start_pending. unfold mark_fuel. lia. }
    rewrite E. cbn [mbind exec_bind]. eexists. split; [done|]. split; [|done]. constructor; cbn [set_callbacks mc_callbacks].
    + rewrite length_zip_with, (mk_length _ _ _ _ Hm). lia.
    + intros r Hr. unfold callback_at. destruct (mc_callbacks m !! N.to_nat (cb_slot r)) as [s|] eqn:Es.
      * destruct (decide (cs_generation s = cb_generation r)) as [Eg|Eg].
        -- erewrite release_kept; [done|done|done|]. right. replace (slot_ref _ s) with r; [done|].
           destruct r; unfold slot_ref; cbn in *. by rewrite Eg, N2Nat.id.
        -- cbn. rewrite (proj2 (N.eqb_neq _ _) Eg).
           destruct (zip_with _ _ _ !! _) as [s'|] eqn:Es'; [|done]. cbn.
           apply lookup_zip_with_Some in Es' as (t & b & -> & Et & Eb). simplify_eq. unfold release_slot.
           destruct (_ && _); cbn; [by destruct (_ =? _)%N|by rewrite (proj2 (N.eqb_neq _ _) Eg)].
      * destruct (zip_with _ _ _ !! _) as [s'|] eqn:Es'; [|done].
        apply lookup_zip_with_Some in Es' as (t & b & _ & Et & _). congruence.
    + intros i s Hs Ho. eapply release_kept; [done|done|by left].
    + intros i s Hs Ho Hn. assert (Hi : i < length marked) by (rewrite (mk_length _ _ _ _ Hm); by eapply lookup_lt_Some).
      apply lookup_lt_is_Some in Hi as [b Hb]. rewrite lookup_zip_with, Hs, Hb. cbn. unfold release_slot. fold depth in Ho. rewrite Ho.
      destruct b; [|done]. by apply (marked_reachable _ _ _ _ _ Hm Hs) in Hb.
  - exists m. split; [done|]. split; [|by destruct m]. constructor; try done. intros i s Hs Ho.
    assert (existsb (owned_from depth) (mc_callbacks m) = true); [|congruence].
    apply existsb_exists. exists s. split; [|done]. apply list_elem_of_In. by eapply list_elem_of_lookup_2.
Qed.

(** *** The return *)

Lemma release_is_collect m : release_callbacks m = collect_callbacks m.
Proof.
  unfold release_callbacks, mbind, machine_bind, reads. destruct (decide (length (mc_callbacks m) = 0)) as [E|]; [|done].
  apply nil_length_inv in E. unfold collect_callbacks. by rewrite E.
Qed.

(** The machine a return leaves: the frame gone, the value on the caller's stack. *)
Definition returned (m : Machine) (frames : list Frame) (frame : Frame) (v : Value) : Machine :=
  set_arenas m frames (truncate (mc_locals m) (fr_base_local frame))
    (truncate (mc_operands m) (fr_base_operand frame) ++ [v]).

Lemma return_spec m frames frame v :
  mc_frames m = frames ++ [frame] → frames ≠ [] → mc_native m = None →
  (lenN (truncate (mc_operands m) (fr_base_operand frame)) + lenN (truncate (mc_locals m) (fr_base_local frame))
   < max_stack_values (mc_config m))%N →
  ∃ m', return_value v m = Ret (Ok None, m') ∧ releases (returned m frames frame v) m' ∧
    m' = set_callbacks (returned m frames frame v) (mc_callbacks m').
Proof.
  intros E Hne En Hl. unfold return_value, mbind at 1, machine_bind at 1, reads. rewrite E, vec_pop_app.
  unfold mbind at 1, machine_bind at 1, writes. rewrite decide_False by (by intros ?%nil_length_inv).
  unfold mbind, machine_bind. rewrite push_room by done.
  change (set_operands (set_arenas m frames (truncate (mc_locals m) (fr_base_local frame))
    (truncate (mc_operands m) (fr_base_operand frame))) _) with (returned m frames frame v).
  rewrite release_is_collect. destruct (collect_callbacks_spec (returned m frames frame v)) as (m' & -> & Hr & Hm').
  by exists m'.
Qed.
End Callbacks.
