(* ===== verification/MachineProps.v ===== *)
(** * Theorems of the interpreter

    The quantum as a cut of one execution, its accounts and its limits, the
    integer instructions, and a call with its return; a small machine witnesses
    their hypotheses. *)

From stdpp Require Import base numbers option gmap list.
From S2P Require Import Prelude Fault Value Pages TextViews MapIndex MapIndexFacts Heap Objects Graph HeapProps Bytecode Machine Collections Interp MachineFacts Quantum Arenas Callbacks.

#[local] Open Scope nat_scope.

Section theorems.
Context `{TS : TierState} `{PL : Payloads} `{HM : HostMemory} `{MT : MachineTypes} `{NF : !NativeFrames}
  `{TB : !TextBytes} `{ET : !EnvTable} `{CC : !ColdCode} `{CL : !ColdLaws}.

(** *** A quantum as a run *)





Section arenas.
Context `{AL : !ArenaLaws}.


(** C31. The integer instructions are exact.  In place of two pops and a push they
    rewrite the top of the stack, and on every stack - short, mistyped or right -
    they do what the ordered pops would: addition, subtraction, multiplication
    and division answer the mathematical result or an overflow, exactly when it
    leaves 64 bits, a zero divisor is its own fault, a remainder is refused with
    its quotient, and the operands consumed by a fault are the same. *)
Theorem int_instrs_exact m :
  arenas_ok m → ints_ok m → mc_native m = None →
  int_binary checked_add m = ordered (λ a b, fits (a + b)) m ∧
  int_binary checked_sub_i64 m = ordered (λ a b, fits (a - b)) m ∧
  int_binary checked_mul m = ordered (λ a b, fits (a * b)) m ∧
  int_div m = ordered exact_div m ∧
  int_rem m = ordered exact_rem m ∧
  ∀ op, int_compare op m = ordered (λ a b, Ok (VBool (op a b))) m.
Proof.
  intros Ha Hi En. split_and!; try (by apply int_binary_exact).
  - by apply int_div_exact.
  - by apply int_rem_exact.
  - intros op. by apply int_compare_exact.
Qed.
End arenas.

(** The split of the caller's operands at a call, and the callee's locals. *)
Lemma call_split callee func consume closure env m m1 :
  arenas_ok m → (consume <= fn_local_count func)%N →
  push_frame callee (Some func) consume closure env m = Ret (Ok tt, m1) →
  ∃ args caller, mc_operands m = caller ++ args ∧ lenN args = consume ∧ mc_operands m1 = caller ∧
    mc_locals m1 = mc_locals m ++ args ++ replicate (N.to_nat (fn_local_count func - consume)) VUninit ∧
    mc_frames m1 = mc_frames m ++ [mkFrame callee 0 0 (lenN (mc_locals m)) (lenN caller) closure env] ∧
    (lenN caller + lenN (mc_locals m) + (fn_local_count func + consume) <= max_stack_values (mc_config m))%N.
Proof.
  intros Ha Hc E. unfold push_frame in E. destruct (_ <=? _)%N; [done|].
  unfold checked_sub in E. destruct (consume <=? _)%N eqn:Ecs; [|done]. destruct (_ <? _)%N eqn:Elim; [done|].
  injection E as <-. to_prop. cbn [set_arenas mc_frames mc_operands mc_locals].
  set (start := (lenN (mc_operands m) - consume)%N) in *. set (caller := truncate (mc_operands m) start).
  set (args := drop (N.to_nat start) (mc_operands m)).
  assert (Hsplit : mc_operands m = caller ++ args) by (symmetry; apply take_drop).
  assert (Hargs : lenN args = consume) by (unfold args, lenN; rewrite length_drop; unfold lenN in *; lia).
  assert (Hcaller : (lenN caller + consume = lenN (mc_operands m))%N).
  { rewrite Hsplit. unfold lenN in *. rewrite length_app. lia. }
  destruct (ao_config _ Ha) as [Hmax _]. pose proof (ao_values _ Ha).
  exists args, caller. rewrite !as_u32_small by lia. split_and!; try done; [|lia].
  unfold resize_vec. rewrite take_ge by (rewrite length_app; unfold lenN in *; lia). rewrite app_assoc. f_equal. f_equal.
  rewrite length_app. unfold lenN in *. lia.
Qed.

(** C32. A call and its return are balanced.  A call moves its arguments into the
    callee's locals and fills the rest with the uninitialised marker; whatever
    the callee leaves above its bases, its return gives back the caller's frames
    and locals, the caller's operands without the arguments and with the value,
    and keeps every callback that the caller's arenas, frames or live callbacks
    reach, releasing those of the frames that are gone. *)
Theorem call_return_balanced callee func consume closure env m m1 m2 frame own own_locals v :
  arenas_ok m → mc_frames m ≠ [] → (consume <= fn_local_count func)%N →
  push_frame callee (Some func) consume closure env m = Ret (Ok tt, m1) →
  last (mc_frames m1) = Some frame → mc_native m2 = None → mc_config m2 = mc_config m →
  mc_frames m2 = mc_frames m ++ [frame] → mc_operands m2 = mc_operands m1 ++ own →
  mc_locals m2 = mc_locals m ++ own_locals → (0 < fn_local_count func + consume)%N →
  ∃ args caller, mc_operands m = caller ++ args ∧ lenN args = consume ∧ mc_operands m1 = caller ∧
    mc_locals m1 = mc_locals m ++ args ++ replicate (N.to_nat (fn_local_count func - consume)) VUninit ∧
    ∃ m3, return_value v m2 = Ret (Ok None, m3) ∧ mc_frames m3 = mc_frames m ∧ mc_locals m3 = mc_locals m ∧
      mc_operands m3 = caller ++ [v] ∧ mc_heap m3 = mc_heap m2 ∧
      releases (set_arenas m2 (mc_frames m) (mc_locals m) (caller ++ [v])) m3.
Proof.
  intros Ha Hne Hc E Hlast En Ec Ef Eo El Hpos.
  destruct (call_split _ _ _ _ _ _ _ Ha Hc E) as (args & caller & Hs & Hl & Ho1 & Hl1 & Hf1 & Hroom).
  rewrite Hf1, last_snoc in Hlast. injection Hlast as <-. rewrite Ho1 in Eo. exists args, caller. split_and!; try done.
  set (frame := mkFrame callee 0 0 (lenN (mc_locals m)) (lenN caller) closure env) in *.
  assert (Er : returned m2 (mc_frames m) frame v = set_arenas m2 (mc_frames m) (mc_locals m) (caller ++ [v])).
  { unfold returned. rewrite Eo, El. cbn [fr_base_local fr_base_operand frame]. by rewrite !truncate_app. }
  destruct (return_spec m2 (mc_frames m) frame v Ef Hne En) as (m3 & E3 & Hrel & Em3).
  { rewrite Eo, El, Ec. cbn [fr_base_local fr_base_operand frame]. rewrite !truncate_app. lia. }
  rewrite Er in Hrel, Em3. exists m3. split_and!; try done; by rewrite Em3.
Qed.
End theorems.

(** ** A machine to witness them on *)

#[local] Existing Instance plain.
#[local] Existing Instance ample.
#[local] Instance small_types : MachineTypes :=
  {| NativeContinuation := unit; continuation_roots := λ _, []; TypeEnvs := unit; callback_reserve := λ _, true |}.
#[local] Instance no_frames : NativeFrames := λ m, (true, m).
#[local] Instance small_text : TextBytes :=
  {| text_bytes := λ t, [t.1; t.2]; bytes_bytes := λ b, [b.1; b.2]; try_bounded := Some; process_lookup_key := 7;
     bytes_slice := λ b _ _, Some b; utf8_view := Some |}.
#[local] Instance small_envs : EnvTable :=
  {| env_close := λ ty _ e, (Ok ty, e); env_instance := λ _ _, Some (0%N, [0%N]); env_intern := λ c _ e, (Ok c, e) |}.
#[local] Instance no_cold : ColdCode := λ _ _, fail UnreachableCode.
#[local] Instance no_cold_laws : ColdLaws.
Proof. constructor; [constructor; done|done|by intros ? ? ? ? ? [= <- <-]|done]. Qed.
#[local] Instance small_arenas : ArenaLaws.
Proof.
  constructor.
  - intros m H. by split.
  - intros ns instr m r m' [= <- <-] H. by split.
Qed.

Definition demo_frame : Frame := mkFrame 0 0 0 0 0 None TypeEnvId_EMPTY.
Definition demo_machine : Machine :=
  mkMachine (heap_new 1000) scratch_default [demo_frame] [VUninit] [] 50 None [] [] None [] [] None None [] None tt
    (mkConfig 8 64 default_limits).

Lemma demo_arenas : arenas_ok demo_machine.
Proof.
  constructor; try done.
  - intros f ->%list_elem_of_singleton. done.
  - intros [|i] [|j] f g Hf Hg Hij; try done; simpl in *; simplify_eq; done.
Qed.




Definition demo_operands : Machine := set_operands demo_machine [VUnit; VInt (-9223372036854775808); VInt (-1)].

Lemma int_instrs_exact_witness :
  int_div demo_operands = ordered exact_div demo_operands ∧
  int_div demo_operands = Ret (Err IntegerOverflow, set_operands demo_operands [VUnit]).
Proof.
  split; [|reflexivity]. apply (int_instrs_exact demo_operands); [|
    intros v [|[[= ->]|[[= ->]|[]%elem_of_nil]%elem_of_cons]%elem_of_cons]%elem_of_cons; done|done].
  destruct demo_arenas. constructor; done.
Defined.

Definition demo_args : Machine := set_operands demo_machine [VUnit; VInt 20; VInt 22].
Definition demo_called : Machine :=
  (ret_or (Ok tt, demo_machine) (push_frame 1 (Some (mkSignature 2 3)) 2 None TypeEnvId_EMPTY demo_args)).2.

Lemma call_return_balanced_witness :
  mc_locals demo_called = [VUninit; VInt 20; VInt 22; VUninit] ∧
  ∃ args caller, [VUnit; VInt 20; VInt 22] = caller ++ args ∧ lenN args = 2%N ∧ mc_operands demo_called = caller ∧
    mc_locals demo_called = [VUninit] ++ args ++ replicate (N.to_nat (3 - 2)) VUninit ∧
    ∃ m3, return_value (VInt 42) demo_called = Ret (Ok None, m3) ∧ mc_frames m3 = [demo_frame] ∧
      mc_locals m3 = [VUninit] ∧ mc_operands m3 = caller ++ [VInt 42] ∧ mc_heap m3 = mc_heap demo_called ∧
      releases (set_arenas demo_called [demo_frame] [VUninit] (caller ++ [VInt 42])) m3.
Proof.
  split; [vm_compute; reflexivity|].
  apply (call_return_balanced 1 (mkSignature 2 3) 2 None TypeEnvId_EMPTY demo_args demo_called demo_called
           (mkFrame 1 0 0 1 1 None TypeEnvId_EMPTY) [] [VInt 20; VInt 22; VUninit] (VInt 42));
    try done; try (vm_compute; reflexivity).
  destruct demo_arenas. constructor; done.
Defined.
