(* ===== verification/MapKeys.v ===== *)
(** * The keys of a native map

    What a key is to a map: a scalar, a text or a byte string, with the zeros of
    a float and its NaNs as one key each, and a text the same whatever object
    stores it.  Key equality decides this relation and the hashes follow it, so
    a lookup cannot miss an equal key. *)

From stdpp Require Import base numbers option gmap list.
From S2P Require Import Prelude Fault Value Pages TextViews MapIndex MapIndexFacts Heap Objects HeapInv HeapOps HeapFrame Graph Machine Collections.

Inductive Key := KBool (b : bool) | KInt (v : Z) | KFloat (bits : N) | KChar (c : N) | KText (bytes : list N) | KBytes (bytes : list N).
#[global] Instance Key_eq_dec : EqDecision Key.
Proof. solve_decision. Defined.

(** The one bit pattern of a float key. *)
Definition float_key (bits : N) : N :=
  let bits := canonical_float_bits bits in if is_zero_bits bits then 0%N else bits.

Lemma float_eq_spec a b : float_eq a b = bool_decide (float_key a = float_key b).
Proof.
  unfold float_eq, f64_eq, float_key, canonical_float_bits. apply eq_true_iff_eq. rewrite bool_decide_eq_true.
  pose proof canonical_nan_is_nan as Hc.
  assert (Hz : is_zero_bits CANONICAL_NAN_BITS = false) by reflexivity.
  assert (H0 : is_zero_bits 0 = true) by reflexivity.
  destruct (is_nan_bits a) eqn:Ea, (is_nan_bits b) eqn:Eb; rewrite ?Hz; cbn [negb andb orb].
  - done.
  - split; [done|]. intros E. destruct (is_zero_bits b); by subst.
  - split; [done|]. intros E. destruct (is_zero_bits a); by subst.
  - rewrite orb_false_r, orb_true_iff, andb_true_iff, N.eqb_eq.
    destruct (is_zero_bits a) eqn:Za, (is_zero_bits b) eqn:Zb; split; intros; destruct_or?; destruct_and?; subst; auto; congruence.
Qed.

Section keys.
Context `{PL : Payloads} `{HM : HostMemory} `{MT : MachineTypes} `{TB : !TextBytes}.

Definition object_key (o : Object) : option Key :=
  match o with
  | OStr t | OSubstring t => Some (KText (text_bytes t))
  | OBytes b => Some (KBytes (bytes_bytes b))
  | _ => None
  end.
Definition key_of (h : Heap) (v : Value) : option Key :=
  match v with
  | VBool b => Some (KBool b)
  | VInt v => Some (KInt v)
  | VFloat bits => Some (KFloat (float_key bits))
  | VChar c => Some (KChar c)
  | VObj r => '(_, o) ← read h r; object_key o
  | _ => None
  end.

(** The guest-visible hash of a key. *)
Definition hash_of (k : Key) : Z :=
  match k with
  | KBool b => if b then 1%Z else 0%Z
  | KInt v => v
  | KFloat bits => as_i64 bits
  | KChar c => Z.of_N c
  | KText bytes | KBytes bytes => as_i64 (semantic_hash_bytes bytes)
  end.

Lemma object_text h r o f : read h r = Some (f, o) →
  heap_text h r = match o with OStr t | OSubstring t => Some t | _ => None end.
Proof.
  unfold heap_text, read, try_get, current_entry, entry_read. destruct (is_reference r).
  - destruct (view_get _ _) as [[ow v]|]; [|done]. simpl. by intros [= _ <-].
  - destruct (page_get _ _) as [e|]; [|done]. simpl. destruct (_ =? _)%N; [|done]. simpl.
    unfold en_object. destruct (en_state e) as [[hd o']|]; [|done]. simpl. by intros [= _ <-].
Qed.

Lemma read_get h r f o : is_reference r = false → read h r = Some (f, o) → get h r = Ret o.
Proof.
  intros Hr Hread. destruct (read_names h r f o Hr Hread) as (e & hd & Hn & _).
  unfold get. rewrite Hr, (names_live_entry _ _ _ _ _ Hn). done.
Qed.

Lemma compact_reference h r : is_reference r = false → is_compact_text h r = false.
Proof. intros Hr. unfold is_compact_text, view_get, view_current. by rewrite Hr, bool_decide_false by (by intros [? ?]). Qed.

(** An object key is a text, compact or stored, or a byte string. *)
Lemma obj_key h r k : key_of h (VObj r) = Some k →
  (∃ t, heap_text h r = Some t ∧ k = KText (text_bytes t) ∧
    (is_compact_text h r = true ∨ ∃ o, get h r = Ret o ∧ object_key o = Some k)) ∨
  (∃ b, heap_text h r = None ∧ is_compact_text h r = false ∧ get h r = Ret (OBytes b) ∧ k = KBytes (bytes_bytes b)).
Proof.
  intros ([f o] & Hr & Ho)%bind_Some. pose proof (object_text h r o f Hr) as Ht.
  assert (Hget : (is_compact_text h r = true ∧ ∃ t, o = OSubstring t) ∨ is_compact_text h r = false ∧ get h r = Ret o).
  { unfold is_compact_text. destruct (is_reference r) eqn:Er.
    - unfold read in Hr. rewrite Er in Hr. destruct (view_get _ _) as [[ow v]|]; [|done]. injection Hr as _ <-. left. eauto.
    - right. split; [by apply compact_reference|by eapply read_get]. }
  destruct o; try done; simplify_eq/=; [left|right|left].
  - eexists. split_and!; [done..|]. destruct Hget as [[? _]|[_ ?]]; eauto.
  - eexists. destruct Hget as [[_ [? [=]]]|[? ?]]. by split_and!.
  - eexists. split_and!; [done..|]. destruct Hget as [[? _]|[_ ?]]; eauto.
Qed.

Lemma bool_decide_iff_eq (b : bool) (P : Prop) `{!Decision P} : (b = true ↔ P) → b = bool_decide P.
Proof. intros H. apply eq_true_iff_eq. by rewrite bool_decide_eq_true. Qed.

Lemma obj_key_eq h x y k l : key_of h (VObj x) = Some k → key_of h (VObj y) = Some l →
  key_eq h (VObj x) (VObj y) = Ret (bool_decide (k = l)).
Proof.
  intros Hk Hl. unfold key_eq. destruct (decide (x = y)) as [<-|_].
  { rewrite bool_decide_true; [done|congruence]. }
  apply obj_key in Hk as [(t & Ht & -> & Hg)|(t & Ht & Hc & Hg & ->)];
  apply obj_key in Hl as [(t' & Ht' & -> & Hg')|(t' & Ht' & Hc' & Hg' & ->)]; rewrite Ht, ?Ht'.
  - unfold same_bytes. do 2 f_equal. apply bool_decide_ext. split; congruence.
  - rewrite bool_decide_false by done. destruct Hg as [->|(o & -> & Ho)]; [done|]. rewrite Hc', orb_false_r, Hg'.
    simpl. destruct (is_compact_text h x); [done|]. by destruct o.
  - rewrite bool_decide_false by done. destruct Hg' as [->|(o & -> & Ho)]; [by rewrite orb_true_r|]. rewrite Hc, Hg.
    simpl. destruct (is_compact_text h y); [done|]. by destruct o.
  - rewrite Hc, Hc', Hg, Hg'. simpl. unfold same_bytes. f_equal. apply bool_decide_ext. split; congruence.
Qed.

(** Equality decides the relation. *)
Lemma key_eq_spec h a b x y : key_of h a = Some x → key_of h b = Some y →
  key_eq h a b = Ret (bool_decide (x = y)).
Proof.
  intros Ha Hb. destruct a; try done; destruct b; try done; try (by apply obj_key_eq);
    try (apply obj_key in Ha as [(t & _ & -> & _)|(t & _ & _ & _ & ->)];
         injection Hb as <-; by rewrite bool_decide_false);
    try (apply obj_key in Hb as [(t & _ & -> & _)|(t & _ & _ & _ & ->)];
         injection Ha as <-; by rewrite bool_decide_false);
    injection Ha as <-; injection Hb as <-; try (by rewrite bool_decide_false); cbn [key_eq]; f_equal.
  - apply bool_decide_iff_eq. rewrite eqb_true_iff. split; congruence.
  - apply bool_decide_iff_eq. rewrite Z.eqb_eq. split; congruence.
  - rewrite float_eq_spec. apply bool_decide_ext. split; congruence.
  - apply bool_decide_iff_eq. rewrite N.eqb_eq. split; congruence.
Qed.

Lemma float_hash_key bits : float_hash bits = as_i64 (float_key bits).
Proof. unfold float_hash, float_key. by destruct (is_zero_bits _). Qed.

(** A hash follows the relation, whatever is made of the scalar. *)
Lemma key_hash_spec {A} (f : Z → A) h v k :
  key_of h v = Some k →
  key_hash f (λ t, f (text_semantic_hash t)) (λ b, f (bytes_semantic_hash b)) h v = Ret (Ok (f (hash_of k))).
Proof.
  destruct v; try done; intros H; try (injection H as <-; cbn [key_hash hash_of]; rewrite ?float_hash_key; by repeat case_match).
  apply obj_key in H as [(t & Ht & -> & _)|(b & Ht & _ & Hg & ->)]; cbn [key_hash]; rewrite Ht; [done|]. by rewrite Hg.
Qed.
Lemma key_semantic_hash_spec h v k : key_of h v = Some k → key_semantic_hash h v = Ret (Ok (hash_of k)).
Proof. apply (key_hash_spec id). Qed.
Lemma key_index_hash_spec h v k : key_of h v = Some k → key_index_hash h v = Ret (Ok (map_index_hash (hash_of k))).
Proof. apply (key_hash_spec map_index_hash). Qed.

Lemma key_live h v k : key_of h v = Some k → v ≠ VUninit.
Proof. by intros H ->. Qed.

(** Keys depend on the objects they name. *)
Lemma key_of_same h h' v : (∀ r, v = VObj r → read h' r = read h r) → key_of h' v = key_of h v.
Proof. intros H. destruct v; try done. simpl. by rewrite (H r). Qed.
Lemma key_of_write h h' r f entries index f' entries' index' v :
  read h r = Some (f, OMap entries index) → (∀ r', read h' r' = if decide (r' = r) then Some (f', OMap entries' index') else read h r') →
  key_of h' v = key_of h v.
Proof.
  intros Hr Hw. destruct v; try done. simpl. rewrite Hw. case_decide; [|done]. subst. by rewrite Hr.
Qed.
End keys.
