(* ===== verification/Maps.v ===== *)
(** * Maps as dictionaries

    The abstract map is a list of keys with the stored key and the value, in the
    order of insertion.  [map_ok] is the invariant of the entries and the index
    of a map object: the live count is exact, live keys differ, the stored hash
    of an entry is the hash of its key, and the indexed part covers every live
    entry.  Each change of the entries is a change of the dictionary, and keeps
    the invariant. *)

From stdpp Require Import base numbers option gmap list.
From S2P Require Import Prelude Fault Value Pages TextViews MapIndex MapIndexFacts Heap Objects HeapInv HeapOps HeapFrame Graph Machine Collections MapKeys.

(** *** Dictionaries *)

Abbreviation Dict := (list (Key * (Value * Value))).

Fixpoint dict_get (k : Key) (d : Dict) : option (Value * Value) :=
  match d with [] => None | (k', p) :: d => if decide (k = k') then Some p else dict_get k d end.
Fixpoint dict_put (k : Key) (key value : Value) (d : Dict) : Dict :=
  match d with
  | [] => [(k, (key, value))]
  | (k', (key', value')) :: d => if decide (k = k') then (k', (key', value)) :: d else (k', (key', value')) :: dict_put k key value d
  end.
Definition dict_remove (k : Key) (d : Dict) : Dict := filter (λ p, p.1 ≠ k) d.

Lemma dict_get_None k d : dict_get k d = None ↔ k ∉ d.*1.
Proof.
  induction d as [|[k' p] d IH]; simpl; [split; [intros _; apply not_elem_of_nil|done]|]. rewrite elem_of_cons.
  case_decide; [split; [done|tauto]|]. rewrite IH. tauto.
Qed.
Lemma dict_get_app k d1 p d2 : k ∉ d1.*1 → dict_get k (d1 ++ (k, p) :: d2) = Some p.
Proof.
  induction d1 as [|[k' p'] d1 IH]; simpl; intros Hn; [by rewrite decide_True|].
  apply not_elem_of_cons in Hn as [? ?]. by rewrite decide_False, IH.
Qed.
Lemma dict_put_app k key value d1 key' value' d2 : k ∉ d1.*1 →
  dict_put k key value (d1 ++ (k, (key', value')) :: d2) = d1 ++ (k, (key', value)) :: d2.
Proof.
  induction d1 as [|[k' [? ?]] d1 IH]; simpl; intros Hn; [by rewrite decide_True|].
  apply not_elem_of_cons in Hn as [? ?]. by rewrite decide_False, IH.
Qed.
Lemma dict_put_new k key value d : k ∉ d.*1 → dict_put k key value d = d ++ [(k, (key, value))].
Proof.
  induction d as [|[k' [? ?]] d IH]; simpl; intros Hn; [done|].
  apply not_elem_of_cons in Hn as [? ?]. by rewrite decide_False, IH.
Qed.
Lemma dict_remove_none k d : k ∉ d.*1 → dict_remove k d = d.
Proof.
  induction d as [|[k' p] d IH]; intros Hn; [done|]. rewrite fmap_cons in Hn.
  apply not_elem_of_cons in Hn as [? ?]. unfold dict_remove in *. rewrite filter_cons, decide_True, IH; done.
Qed.
Lemma dict_remove_app k d1 p d2 : k ∉ d1.*1 → k ∉ d2.*1 → dict_remove k (d1 ++ (k, p) :: d2) = d1 ++ d2.
Proof.
  intros H1 H2. unfold dict_remove. rewrite filter_app, filter_cons, decide_False by (by intros []).
  fold (dict_remove k d1) (dict_remove k d2). by rewrite !dict_remove_none.
Qed.

Section maps.
Context `{PL : Payloads} `{HM : HostMemory} `{MT : MachineTypes} `{TB : !TextBytes}.

(** *** The dictionary of the entries *)

Definition entry_pair (h : Heap) (e : MapEntry) : option (Key * (Value * Value)) :=
  k ← key_of h (me_key e); Some (k, (me_key e, me_value e)).
Definition contents (h : Heap) (entries : list MapEntry) : Dict := omap (entry_pair h) entries.

Definition entry_ok (h : Heap) (e : MapEntry) : Prop :=
  me_is_live e = true → ∃ k, key_of h (me_key e) = Some k ∧ me_semantic_hash e = hash_of k.

(** The positions indexed under a hash. *)
Definition indexed (content : list MapSlot) (hash : N) : list N := ms_entry <$> filter (λ s, ms_hash s = hash) content.
Definition covers (entries : list MapEntry) (built : N) (content : list MapSlot) : Prop :=
  ∀ i e, entries !! i = Some e → me_is_live e = true → (N.of_nat i < built)%N →
    N.of_nat i ∈ indexed content (map_index_hash (me_semantic_hash e)).

Record map_ok (h : Heap) (entries : list MapEntry) (index : MapIndex) : Prop := {
  mo_keys : Forall (entry_ok h) entries;
  mo_distinct : NoDup (contents h entries).*1;
  mo_len : (lenN entries <= U32_MAX)%N;
  mo_built : (mi_built index <= lenN entries)%N;
  mo_live : mi_live index = lenN (contents h entries);
  mo_index : ∃ content, index_ok index content ∧ covers entries (mi_built index) content;
}.

Lemma pair_dead h e : me_is_live e = false → entry_pair h e = None.
Proof. unfold me_is_live, entry_pair. by destruct (me_key e). Qed.
Lemma pair_key h e k : key_of h (me_key e) = Some k → entry_pair h e = Some (k, (me_key e, me_value e)).
Proof. unfold entry_pair. by intros ->. Qed.
Lemma key_is_live h e k : key_of h (me_key e) = Some k → me_is_live e = true.
Proof. unfold me_is_live. by destruct (me_key e). Qed.

Lemma contents_app h l1 l2 : contents h (l1 ++ l2) = contents h l1 ++ contents h l2.
Proof. apply omap_app. Qed.
Lemma contents_cons h e l : contents h (e :: l) = option_list (entry_pair h e) ++ contents h l.
Proof. unfold contents. simpl. by destruct (entry_pair h e). Qed.
Lemma contents_length h l : (lenN (contents h l) <= lenN l)%N.
Proof. induction l as [|e l IH]; [done|]. rewrite contents_cons. unfold lenN in *. rewrite length_app. simpl. destruct (entry_pair h e); simpl; lia. Qed.

Lemma contents_live h l : contents h (filter (λ e, me_is_live e = true) l) = contents h l.
Proof.
  induction l as [|e l IH]; [done|]. rewrite filter_cons, contents_cons. case_decide as E.
  - by rewrite contents_cons, IH.
  - rewrite pair_dead by (by destruct (me_is_live e)). done.
Qed.

Lemma contents_dense h l : lenN (contents h l) = lenN l → Forall (λ e, me_is_live e = true) l.
Proof.
  induction l as [|e l IH]; [constructor|]. rewrite contents_cons. intros El. pose proof (contents_length h l) as Hl.
  unfold lenN in *. rewrite length_app in El. destruct (me_is_live e) eqn:Ee.
  - constructor; [done|]. apply IH. destruct (entry_pair h e); simpl in *; lia.
  - rewrite pair_dead in El by done. simpl in *. lia.
Qed.

(** An entry splits the dictionary. *)
Lemma contents_split h entries i e k :
  NoDup (contents h entries).*1 → entries !! i = Some e → key_of h (me_key e) = Some k →
  contents h entries = contents h (take i entries) ++ (k, (me_key e, me_value e)) :: contents h (drop (S i) entries) ∧
  (k ∉ (contents h (take i entries)).*1) ∧ (k ∉ (contents h (drop (S i) entries)).*1).
Proof.
  intros Hd Hi Hk. rewrite <-(take_drop_middle entries i e Hi), contents_app, contents_cons, (pair_key h e k Hk) in Hd.
  rewrite <-(take_drop_middle entries i e Hi) at 1. rewrite contents_app, contents_cons, (pair_key h e k Hk).
  simpl in *. rewrite fmap_app, fmap_cons in Hd. apply NoDup_app in Hd as (_ & H1 & [H2 _]%NoDup_cons). split_and!; [done| |done].
  intros Hin. eapply H1; [done|]. apply elem_of_cons. by left.
Qed.

Lemma contents_get h entries i e k :
  NoDup (contents h entries).*1 → entries !! i = Some e → key_of h (me_key e) = Some k →
  dict_get k (contents h entries) = Some (me_key e, me_value e).
Proof. intros Hd Hi Hk. destruct (contents_split h entries i e k Hd Hi Hk) as (-> & ? & _). by apply dict_get_app. Qed.

Lemma contents_elem h entries k p : (k, p) ∈ contents h entries →
  ∃ i e, entries !! i = Some e ∧ key_of h (me_key e) = Some k ∧ p = (me_key e, me_value e).
Proof.
  unfold contents. intros (e & Hin & Hp)%list_elem_of_omap. apply list_elem_of_lookup in Hin as [i Hi]. exists i, e.
  unfold entry_pair in Hp. apply bind_Some in Hp as (k' & Hk & [= <- <-]). done.
Qed.

(** *** The changes *)

Lemma contents_replace h entries i e k value semantic :
  NoDup (contents h entries).*1 → entries !! i = Some e → key_of h (me_key e) = Some k →
  ∀ key, contents h (<[i := mkMapEntry (me_key e) value semantic]> entries) = dict_put k key value (contents h entries).
Proof.
  intros Hd Hi Hk key. destruct (contents_split h entries i e k Hd Hi Hk) as (-> & H1 & _). rewrite dict_put_app by done.
  rewrite insert_take_drop by (by eapply lookup_lt_Some). rewrite contents_app, contents_cons.
  by rewrite (pair_key h (mkMapEntry (me_key e) value semantic) k Hk).
Qed.
Lemma contents_remove h entries i e k t :
  NoDup (contents h entries).*1 → entries !! i = Some e → key_of h (me_key e) = Some k → me_is_live t = false →
  contents h (<[i := t]> entries) = dict_remove k (contents h entries).
Proof.
  intros Hd Hi Hk Ht. destruct (contents_split h entries i e k Hd Hi Hk) as (-> & H1 & H2). rewrite dict_remove_app by done.
  rewrite insert_take_drop by (by eapply lookup_lt_Some). by rewrite contents_app, contents_cons, pair_dead.
Qed.
Lemma contents_push h entries key value semantic k :
  key_of h key = Some k → k ∉ (contents h entries).*1 →
  contents h (entries ++ [mkMapEntry key value semantic]) = dict_put k key value (contents h entries).
Proof.
  intros Hk Hn. rewrite contents_app, contents_cons, (pair_key h (mkMapEntry key value semantic) k Hk), dict_put_new by done. done.
Qed.

(** The keys of a dictionary stay distinct. *)
Lemma dict_put_keys k key value d : NoDup d.*1 → NoDup (dict_put k key value d).*1.
Proof.
  intros Hd. destruct (decide (k ∈ d.*1)) as [Hin|Hn].
  - apply list_elem_of_fmap in Hin as ([k' [key' v']] & -> & Hin). apply list_elem_of_split in Hin as (d1 & d2 & ->).
    rewrite fmap_app, fmap_cons in Hd. assert (Hn : k' ∉ d1.*1).
    { intros Hin. apply NoDup_app in Hd as (_ & H & _). eapply H; [done|]. apply elem_of_cons. by left. }
    simpl. rewrite dict_put_app by done. by rewrite fmap_app, fmap_cons.
  - rewrite dict_put_new, fmap_app by done. apply NoDup_app. split_and!; [done| |apply NoDup_singleton].
    intros k' Hk' ->%list_elem_of_singleton. done.
Qed.
Lemma dict_remove_keys k d : NoDup d.*1 → NoDup (dict_remove k d).*1.
Proof.
  induction d as [|[k' p] d IH]; [done|]. rewrite fmap_cons. intros [Hn Hd]%NoDup_cons. unfold dict_remove in *.
  rewrite filter_cons. case_decide; [|by apply IH]. rewrite fmap_cons. apply NoDup_cons. split; [|by apply IH].
  intros (q & Eq & [_ Hq]%list_elem_of_filter)%list_elem_of_fmap. apply Hn. rewrite Eq. by apply list_elem_of_fmap_2.
Qed.

(** *** The index *)

Lemma entries_with_elem hash items : ∀ start i,
  i ∈ entries_with hash start items ↔ ∃ j, items !! j = Some (Some hash) ∧ i = (start + N.of_nat j)%N.
Proof.
  induction items as [|item items IH]; intros start i.
  { split; [by intros ?%elem_of_nil|by intros (j & ? & _)]. }
  rewrite entries_with_cons, elem_of_app, IH. split.
  - intros [Hin|(j & Hj & ->)]; [|exists (S j); split; [done|lia]].
    case_decide as E; [|by apply elem_of_nil in Hin]. apply list_elem_of_singleton in Hin as ->. exists 0. subst. split; [done|lia].
  - intros ([|j] & Hj & ->); simpl in Hj; [left|right; exists j; split; [done|lia]].
    injection Hj as ->. rewrite decide_True by done. apply list_elem_of_singleton. lia.
Qed.

(** Bringing the index up to date covers every entry. *)
Lemma ensure_index_spec h entries index : map_ok h entries index →
  ∃ index', ensure_index entries index = Ret index' ∧ map_ok h entries index' ∧
    mi_built index' = lenN entries ∧ mi_live index' = mi_live index ∧ mi_epoch index' = mi_epoch index.
Proof.
  intros H. unfold ensure_index. destruct (N.eqb_spec (mi_built index) (lenN entries)) as [E|Hne]; [by exists index|].
  pose proof (mo_built _ _ _ H) as Hb. pose proof (mo_len _ _ _ H) as Hl.
  rewrite (proj2 (N.leb_le _ _) Hb). cbn [guard_panic mbind exec_bind].
  destruct (mo_index _ _ _ H) as (content & Hi & Hc).
  set (items := entry_item <$> drop (N.to_nat (mi_built index)) entries).
  assert (El : (mi_built index + lenN items = lenN entries)%N).
  { unfold items, lenN in *. rewrite length_fmap, length_drop. lia. }
  destruct (extend_index_spec items index content Hi) as (index' & content' & E & Hi' & Eb & Elv & Ee & Hp); [lia|].
  exists index'. split_and!; [done| |lia|done|done]. destruct H. constructor; try done; [lia|congruence|].
  exists content'. split; [done|]. intros i e He Hlive Hlt. unfold indexed. rewrite Hp. apply elem_of_app.
  destruct (decide (N.of_nat i < mi_built index)%N) as [Hold|Hnew]; [right; by apply Hc|left].
  apply entries_with_elem. exists (i - N.to_nat (mi_built index)). split; [|lia].
  unfold items. rewrite list_lookup_fmap, lookup_drop. replace (N.to_nat (mi_built index) + (i - N.to_nat (mi_built index))) with i by lia.
  rewrite He. simpl. unfold entry_item. by rewrite Hlive.
Qed.

(** *** Lookup *)

(** What a search among candidates answers. *)
Definition found_at (h : Heap) (entries : list MapEntry) (k : Key) (cands : list N) (found : option (N * Value)) : Prop :=
  match found with
  | Some (i, key) => ∃ e, entries !! N.to_nat i = Some e ∧ key = me_key e ∧ key_of h (me_key e) = Some k
  | None => ∀ i e, i ∈ cands → entries !! N.to_nat i = Some e → key_of h (me_key e) ≠ Some k
  end.

Lemma find_candidate_spec h entries dense matches k cands :
  Forall (entry_ok h) entries → (dense = true → Forall (λ e, me_is_live e = true) entries) →
  (∀ e k', e ∈ entries → key_of h (me_key e) = Some k' → matches (me_key e) = Ret (Ok (bool_decide (k' = k)))) →
  ∃ found, find_candidate matches entries dense cands = Ret (Ok found) ∧ found_at h entries k cands found.
Proof.
  intros Hk Hd Hm. induction cands as [|i cands (found & E & Hf)]; cbn [find_candidate].
  { exists None. split; [done|]. intros i e Hin. by apply elem_of_nil in Hin. }
  assert (Hskip : (∀ e, entries !! N.to_nat i = Some e → key_of h (me_key e) ≠ Some k) →
    found_at h entries k (i :: cands) found).
  { intros Hs. destruct found as [[j key]|]; [done|]. intros j e [->|Hin]%elem_of_cons He; [by apply Hs|by eapply Hf]. }
  destruct (entries !! N.to_nat i) as [e|] eqn:He; [|exists found; split; [done|by apply Hskip]].
  assert (Hin : e ∈ entries) by (by eapply list_elem_of_lookup_2).
  destruct (dense || me_is_live e) eqn:Elive.
  - assert (Hlive : me_is_live e = true).
    { destruct dense; [|done]. specialize (Hd eq_refl). rewrite list.Forall_forall in Hd. by apply Hd. }
    rewrite list.Forall_forall in Hk. destruct (Hk e Hin Hlive) as (k' & Hke & _). rewrite (Hm e k' Hin Hke). cbn [mbind exec_bind].
    case_bool_decide as Ek; [subst; eexists; split; [done|]; by exists e|].
    exists found. split; [done|]. apply Hskip. intros e' [= <-]. congruence.
  - exists found. split; [done|]. apply Hskip. intros e' [= <-] Hke. apply key_is_live in Hke. rewrite Hke, orb_true_r in Elive. done.
Qed.

Lemma lookup_spec h entries index matches k :
  map_ok h entries index → mi_built index = lenN entries →
  (∀ e k', e ∈ entries → key_of h (me_key e) = Some k' → matches (me_key e) = Ret (Ok (bool_decide (k' = k)))) →
  ∃ cands found, candidates index (map_index_hash (hash_of k)) = Ret cands ∧
    find_candidate matches entries (mi_live index =? lenN entries)%N cands = Ret (Ok found) ∧
    match found with
    | Some (i, key) => ∃ e, entries !! N.to_nat i = Some e ∧ key = me_key e ∧ key_of h (me_key e) = Some k
    | None => k ∉ (contents h entries).*1
    end.
Proof.
  intros H Hb Hm. destruct (mo_index _ _ _ H) as (content & Hi & Hc).
  destruct (candidates_spec index content (map_index_hash (hash_of k)) Hi) as (cands & Ec & Hp).
  destruct (find_candidate_spec h entries (mi_live index =? lenN entries)%N matches k cands (mo_keys _ _ _ H)) as (found & Ef & Hf); [|done|].
  { intros E%N.eqb_eq. rewrite (mo_live _ _ _ H) in E. by eapply contents_dense. }
  exists cands, found. split_and!; [done|done|]. destruct found as [[i key]|]; [done|].
  intros ([k' p] & -> & (i & e & He & Hk & _)%contents_elem)%list_elem_of_fmap. simpl in *.
  pose proof (key_is_live _ _ _ Hk) as Hlive. pose proof (mo_keys _ _ _ H) as Hok. rewrite list.Forall_forall in Hok.
  destruct (Hok e ltac:(by eapply list_elem_of_lookup_2) Hlive) as (k2 & Hk2 & Eh). assert (k2 = k') as -> by congruence.
  eapply (Hf (N.of_nat i) e); [|by rewrite Nat2N.id|done]. rewrite Hp. fold (indexed content (map_index_hash (hash_of k'))).
  rewrite <-Eh. apply Hc; [done|done|]. rewrite Hb. apply lookup_lt_Some in He. unfold lenN. lia.
Qed.

(** *** The operations keep the invariant *)

Lemma keys_in h entries e : Forall (entry_ok h) entries → e ∈ entries → entry_ok h e.
Proof. rewrite list.Forall_forall. auto. Qed.

Lemma replace_ok h entries index i e k value :
  map_ok h entries index → entries !! i = Some e → key_of h (me_key e) = Some k →
  map_ok h (<[i := mkMapEntry (me_key e) value (me_semantic_hash e)]> entries) index.
Proof.
  intros H Hi Hk. pose proof (mo_distinct _ _ _ H) as Hd.
  pose proof (contents_replace h entries i e k value (me_semantic_hash e) Hd Hi Hk (me_key e)) as Ec.
  assert (He : entry_ok h e) by (eapply keys_in; [apply H|by eapply list_elem_of_lookup_2]).
  assert (El : lenN (dict_put k (me_key e) value (contents h entries)) = lenN (contents h entries)).
  { destruct (contents_split h entries i e k Hd Hi Hk) as (-> & Hn & _). rewrite dict_put_app by done. unfold lenN. by rewrite !length_app. }
  destruct (mo_index _ _ _ H) as (content & Hx & Hc). destruct H.
  assert (Eb : lenN (<[i := mkMapEntry (me_key e) value (me_semantic_hash e)]> entries) = lenN entries)
    by (unfold lenN; by rewrite length_insert).
  constructor; [|rewrite Ec; by apply dict_put_keys|by rewrite Eb|by rewrite Eb|by rewrite Ec, El|].
  - by apply Forall_insert.
  - exists content. split; [done|]. intros j e' Hj. rewrite list_lookup_insert in Hj. case_decide as Ej.
    + injection Hj as <-. destruct Ej as [<- _]. exact (Hc i e Hi).
    + by apply Hc.
Qed.

Lemma push_entry_spec h entries index key value k epoch :
  map_ok h entries index → mi_built index = lenN entries → (lenN entries < U32_MAX)%N →
  key_of h key = Some k → k ∉ (contents h entries).*1 → epoch_bump (mi_epoch index) = Ok epoch →
  ∃ index', push_entry entries index key value (hash_of k)
      = Ret (Ok (entries ++ [mkMapEntry key value (hash_of k)], index')) ∧
    map_ok h (entries ++ [mkMapEntry key value (hash_of k)]) index' ∧ mi_epoch index' = epoch.
Proof.
  intros H Hb Hl Hk Hn He. unfold push_entry. rewrite He, as_u32_small by lia. unfold push_live.
  cbn [mi_built mi_live mi_epoch mi_slots]. pose proof (contents_length h entries) as Hcl. pose proof (mo_live _ _ _ H) as Hlive.
  rewrite N.min_l by lia. destruct (mo_index _ _ _ H) as (content & Hx & Hc).
  set (i0 := mkIndex (mi_built index) (mi_live index + 1) epoch (mi_slots index)).
  assert (Hi0 : index_ok i0 content) by (destruct Hx; constructor; simpl; [done|done|lia|done]).
  destruct (index_insert_spec i0 content (map_index_hash (hash_of k)) Hi0) as (index' & E & Hi' & Eb & El & Ee); [simpl; lia|].
  simpl in E, Eb, El, Ee, Hi'. rewrite <-Hb, E. cbn [mbind exec_bind]. exists index'. split_and!; [done| |done].
  assert (Elen : lenN (entries ++ [mkMapEntry key value (hash_of k)]) = (lenN entries + 1)%N).
  { unfold lenN. rewrite length_app. simpl. lia. }
  pose proof (contents_push h entries key value (hash_of k) k Hk Hn) as Ec.
  constructor.
  - apply Forall_app. split; [apply H|]. apply Forall_singleton. intros _. by exists k.
  - rewrite Ec. apply dict_put_keys, H.
  - rewrite Elen. lia.
  - rewrite Elen, Eb. lia.
  - rewrite Ec, dict_put_new, El by done. rewrite Hlive. unfold lenN. rewrite length_app. simpl. lia.
  - eexists. split; [exact Hi'|]. intros i e Hi Hv Hlt. unfold indexed. rewrite filter_cons. simpl.
    apply lookup_app_Some in Hi as [Hi|[Hge Hi]].
    + assert (Hin : N.of_nat i ∈ indexed content (map_index_hash (me_semantic_hash e))).
      { apply Hc; [done|done|]. rewrite Hb. apply lookup_lt_Some in Hi. unfold lenN. lia. }
      case_decide; [rewrite fmap_cons; apply elem_of_cons; by right|done].
    + destruct (i - length entries) eqn:Ei; [|done]. injection Hi as <-. simpl. rewrite decide_True by done.
      rewrite fmap_cons. apply elem_of_cons. left. simpl. rewrite Hb. unfold lenN. lia.
Qed.

Definition tombstone : MapEntry := mkMapEntry VUninit VUninit 0.

(** A tombstone in place of an entry. *)
Lemma tombstone_ok h entries index i e k epoch :
  map_ok h entries index → entries !! i = Some e → key_of h (me_key e) = Some k →
  contents h (<[i := tombstone]> entries) = dict_remove k (contents h entries) ∧ (0 < mi_live index)%N ∧
  map_ok h (<[i := tombstone]> entries) (mkIndex (mi_built index) (mi_live index - 1) epoch (mi_slots index)).
Proof.
  intros H Hi Hk. pose proof (mo_distinct _ _ _ H) as Hd.
  pose proof (contents_remove h entries i e k tombstone Hd Hi Hk eq_refl) as Ec.
  assert (El : (lenN (dict_remove k (contents h entries)) + 1 = lenN (contents h entries))%N).
  { destruct (contents_split h entries i e k Hd Hi Hk) as (-> & Hn1 & Hn2). rewrite dict_remove_app by done.
    unfold lenN. rewrite !length_app. simpl. lia. }
  pose proof (mo_live _ _ _ H) as Hlive. split_and!; [done|lia|].
  assert (Eb : lenN (<[i := tombstone]> entries) = lenN entries) by (unfold lenN; by rewrite length_insert).
  destruct (mo_index _ _ _ H) as (content & Hx & Hc). destruct H.
  constructor; simpl; [|rewrite Ec; by apply dict_remove_keys|by rewrite Eb|by rewrite Eb|rewrite Ec; lia|].
  - apply Forall_insert; [done|]. by intros ?.
  - exists content. split; [destruct Hx; constructor; simpl; [done|done|lia|done]|].
    intros j e' Hj Hv. rewrite list_lookup_insert in Hj. case_decide as Ej; [by simplify_eq|]. by apply Hc.
Qed.

(** Compaction drops the tombstones and the index. *)
Lemma compact_ok h entries index : map_ok h entries index →
  map_ok h (filter (λ e, me_is_live e = true) entries) (record_compaction index).
Proof.
  intros H. pose proof (length_filter (λ e, me_is_live e = true) entries) as Hl.
  pose proof (contents_live h entries) as Ec. destruct H. constructor; simpl; rewrite ?Ec; try done.
  - rewrite list.Forall_forall in *. intros e [_ He]%list_elem_of_filter. auto.
  - unfold lenN in *. lia.
  - lia.
  - exists []. split; [apply index_empty; [done|]|intros i e _ _ Hlt; lia]. pose proof (contents_length h entries). lia.
Qed.

Lemma remove_entry_spec h entries index i e k epoch :
  map_ok h entries index → entries !! N.to_nat i = Some e → key_of h (me_key e) = Some k →
  epoch_bump (mi_epoch index) = Ok epoch →
  ∃ entries' index' index1, remove_entry entries index i = Ret (Ok (me_value e, entries', index'), index1) ∧
    map_ok h entries' index' ∧ contents h entries' = dict_remove k (contents h entries) ∧ mi_epoch index' = epoch.
Proof.
  intros H Hi Hk He. unfold remove_entry. rewrite He, Hi. unfold me_remove. rewrite (key_is_live _ _ _ Hk). cbn [guard_panic mbind exec_bind].
  destruct (tombstone_ok h entries index _ e k epoch H Hi Hk) as (Ec & Hlive & Hok).
  unfold record_removal. cbn [mi_live]. rewrite (proj2 (N.ltb_lt _ _) Hlive). cbn [guard_panic mbind exec_bind].
  cbn [mi_built mi_epoch mi_slots]. fold tombstone. destruct (needs_compaction _ _); eexists _, _, _; split_and!; try done.
  - by apply compact_ok.
  - by rewrite contents_live.
Qed.

Lemma clear_ok h index : map_ok h [] (index_reset index).
Proof.
  constructor; simpl; try done; [constructor|]. exists []. split; [by apply index_empty|]. intros i e Hi. done.
Qed.

(** The invariant and the dictionary depend on the keys only. *)
Lemma contents_same h h' entries :
  (∀ e, e ∈ entries → key_of h' (me_key e) = key_of h (me_key e)) → contents h' entries = contents h entries.
Proof.
  induction entries as [|e entries IH]; [done|]. intros Hk. rewrite !contents_cons, IH by (intros; apply Hk, elem_of_cons; by right).
  f_equal. unfold entry_pair. by rewrite (Hk e) by (apply elem_of_cons; by left).
Qed.
Lemma map_ok_same h h' entries index :
  (∀ e, e ∈ entries → key_of h' (me_key e) = key_of h (me_key e)) → map_ok h entries index → map_ok h' entries index.
Proof.
  intros Hk H. pose proof (contents_same h h' entries Hk) as Ec. destruct H. constructor; rewrite ?Ec; try done.
  rewrite list.Forall_forall in *. intros e He. unfold entry_ok. rewrite Hk by done. by apply mo_keys0.
Qed.
Lemma map_ok_epoch h entries index epoch :
  map_ok h entries index → map_ok h entries (mkIndex (mi_built index) (mi_live index) epoch (mi_slots index)).
Proof. intros []. constructor; try done. destruct mo_index0 as (c & [] & ?). exists c. split; [by constructor|done]. Qed.
End maps.
