(* ===== verification/MapOps.v ===== *)
(** * Map instructions on a machine

    The map object a reference names, and what lookup, replacement, insertion,
    removal and the reservation before an insertion do to it and to the rest of
    the heap.  A reservation may collect: the map, the key and the value are
    among its roots, and so are the keys the map holds. *)

From stdpp Require Import base numbers option gmap list.
From S2P Require Import Prelude Fault Value Pages TextViews MapIndex MapIndexFacts Heap Ledger Objects HeapInv HeapOps HeapFrame Graph GraphTables GraphWalk GraphModes Machine Collections Arenas MapKeys Maps.

Section MapOps.
Context `{PL : Payloads} `{HM : HostMemory} `{MT : MachineTypes} `{NF : !NativeFrames} `{TB : !TextBytes}
  `{ET : !EnvTable}.

(** *** Calls in sequence *)

Lemma mbind_ok {A B} (x : machine A) (f : A → machine B) m a m1 :
  x m = Ret (Ok a, m1) → (x ≫= f) m = f a m1.
Proof. intros E. unfold mbind, machine_bind. by rewrite E. Qed.
Lemma mbind_err {A B} (x : machine A) (f : A → machine B) m fault m1 :
  x m = Ret (Err fault, m1) → (x ≫= f) m = Ret (Err fault, m1).
Proof. intros E. unfold mbind, machine_bind. by rewrite E. Qed.

Lemma pop_obj_app m ops r : mc_operands m = ops ++ [VObj r] → pop_obj m = Ret (Ok r, set_operands m ops).
Proof. intros E. unfold pop_obj. by rewrite (mbind_ok _ _ _ _ _ (pop_app m ops _ E)). Qed.

(** *** The map a reference names *)

Record names_map (h : Heap) (r : ObjRef) (f : bool) (entries : list MapEntry) (index : MapIndex) : Prop := {
  nm_read : read h r = Some (f, OMap entries index);
  nm_ok : map_ok h entries index;
}.

(** The map at [r] is the dictionary [d], at epoch [e]. *)
Definition holds (h : Heap) (r : ObjRef) (f : bool) (e : N) (d : Dict) : Prop :=
  ∃ entries index, names_map h r f entries index ∧ contents h entries = d ∧ ep_value (mi_epoch index) = e.

(** The epoch after a structural change; an epoch that was not observed stays. *)
Definition moved (e : N) : N := if (e =? 0)%N then 0%N else (e + 1)%N.

Lemma map_reference h r f entries index : read h r = Some (f, OMap entries index) → is_reference r = false.
Proof.
  intros Hr. unfold read in Hr. destruct (is_reference r); [|done]. destruct (view_get _ _) as [[]|]; [|done]. by injection Hr.
Qed.

(** What a step on the map at [r] leaves: the machine but its heap and scratch,
    a well-formed heap, and every other kept reference. *)
Record steps (kept : ObjRef → Prop) (r : ObjRef) (m m1 : Machine) : Prop := {
  sp_machine : m1 = set_heap m (mc_heap m1) (mc_scratch m1);
  sp_heap : heap_ok (mc_heap m1);
  sp_scratch : scratch_ok (mc_scratch m1);
  sp_others : ∀ r', kept r' → r' ≠ r → read (mc_heap m1) r' = read (mc_heap m) r';
}.

Definition machine_ok (m : Machine) : Prop := heap_ok (mc_heap m) ∧ scratch_ok (mc_scratch m).

Lemma steps_refl kept r m : machine_ok m → steps kept r m m.
Proof. intros [? ?]. constructor; try done. by destruct m. Qed.
Lemma steps_trans kept r m m1 m2 : steps kept r m m1 → steps kept r m1 m2 → steps kept r m m2.
Proof.
  intros [E1 H1 S1 O1] [E2 H2 S2 O2]. constructor; try done.
  - rewrite E2 at 1. by rewrite E1.
  - intros r' Hk Hne. rewrite O2, O1; done.
Qed.
Lemma steps_ok kept r m m1 : steps kept r m m1 → machine_ok m1.
Proof. by intros []. Qed.
Lemma steps_weaken (kept kept' : ObjRef → Prop) r m m1 :
  (∀ r', kept' r' → kept r') → steps kept r m m1 → steps kept' r m m1.
Proof. intros Hk [E H S O]. constructor; auto. Qed.

(** A key in a step that keeps its object. *)
Lemma steps_write r m h f entries index f' entries' index' :
  machine_ok m → read (mc_heap m) r = Some (f, OMap entries index) → heap_ok h →
  (∀ r', read h r' = if decide (r' = r) then Some (f', OMap entries' index') else read (mc_heap m) r') →
  steps (λ _, True) r m (set_heap m h (mc_scratch m)) ∧ (∀ v, key_of h v = key_of (mc_heap m) v).
Proof.
  intros [Hh Hs] Hr Hok Hw. split.
  - constructor; [done|done|done|]. intros r' _ Hne. simpl. by rewrite Hw, decide_False.
  - intros v. by eapply key_of_write.
Qed.

(** The byte account and the host roots are as they were. *)
Definition same_accounts (h h' : Heap) : Prop :=
  hp_used_bytes h' = hp_used_bytes h ∧ hp_host_roots h' = hp_host_roots h.

Lemma put_roots h r o h' : put h r o = Ret h' → hp_host_roots h' = hp_host_roots h.
Proof. intros ([[e header] o'] & _ & [= <-])%bind_Ret. done. Qed.

Lemma heap_get_map m r f entries index : names_map (mc_heap m) r f entries index →
  heap_get r m = Ret (Ok (OMap entries index), m).
Proof.
  intros [Hr _]. unfold heap_get, on_heap. erewrite read_get; [done|by eapply map_reference|exact Hr].
Qed.

(** Writing a map object back. *)
Lemma heap_put_map m r f entries index entries' index' :
  machine_ok m → names_map (mc_heap m) r f entries index → map_ok (mc_heap m) entries' index' →
  ∃ m1, heap_put r (OMap entries' index') m = Ret (Ok tt, m1) ∧ steps (λ _, True) r m m1 ∧
    names_map (mc_heap m1) r f entries' index' ∧ same_accounts (mc_heap m) (mc_heap m1) ∧
    (∀ v, key_of (mc_heap m1) v = key_of (mc_heap m) v) ∧ contents (mc_heap m1) entries' = contents (mc_heap m) entries'.
Proof.
  intros Hm [Hr Hok] Hok'. pose proof (map_reference _ _ _ _ _ Hr) as Hn.
  destruct (put_spec (mc_heap m) r f _ (OMap entries' index') (proj1 Hm) Hn Hr) as (h & E & Hh & Eu & _ & _ & Hw).
  destruct (steps_write r m h f entries index f entries' index' Hm Hr Hh Hw) as [Hst Hk].
  exists (set_heap m h (mc_scratch m)). unfold heap_put, update_heap. rewrite E. split_and!; try done.
  - constructor; [by rewrite Hw, decide_True|]. eapply map_ok_same; [|done]. intros; apply Hk.
  - split; [done|by eapply put_roots].
  - apply contents_same. intros; apply Hk.
Qed.

(** *** Lookup *)

Lemma ensure_map_index_spec m r f entries index :
  machine_ok m → names_map (mc_heap m) r f entries index →
  ∃ m1 index1, ensure_map_index r m = Ret (Ok tt, m1) ∧ steps (λ _, True) r m m1 ∧
    names_map (mc_heap m1) r f entries index1 ∧ mi_built index1 = lenN entries ∧ mi_epoch index1 = mi_epoch index ∧
    same_accounts (mc_heap m) (mc_heap m1) ∧ (∀ v, key_of (mc_heap m1) v = key_of (mc_heap m) v) ∧
    contents (mc_heap m1) entries = contents (mc_heap m) entries.
Proof.
  intros Hm Hn. destruct (ensure_index_spec _ entries index (nm_ok _ _ _ _ _ Hn)) as (index1 & E & Hok & Hb & _ & He).
  destruct (heap_put_map m r f entries index entries index1 Hm Hn Hok) as (m1 & Ep & Hst & Hn1 & Hu & Hk & Hc).
  exists m1, index1. unfold ensure_map_index. rewrite (mbind_ok _ _ _ _ _ (heap_get_map _ _ _ _ _ Hn)).
  assert (El : lift_exec (ensure_index entries index) m = Ret (Ok index1, m)) by (unfold lift_exec; by rewrite E).
  rewrite (mbind_ok _ _ _ _ _ El). by split_and!.
Qed.

(** The answer of a lookup: the position of the entry with the key. *)
Definition positioned (h : Heap) (entries : list MapEntry) (k : Key) (pos : option N) : Prop :=
  match pos with
  | Some i => ∃ e, entries !! N.to_nat i = Some e ∧ key_of h (me_key e) = Some k
  | None => k ∉ (contents h entries).*1
  end.

Lemma map_lookup_spec m r f entries index key k :
  machine_ok m → names_map (mc_heap m) r f entries index → key_of (mc_heap m) key = Some k →
  ∃ m1 index1 pos, map_lookup r key m = Ret (Ok pos, m1) ∧ steps (λ _, True) r m m1 ∧
    names_map (mc_heap m1) r f entries index1 ∧ mi_built index1 = lenN entries ∧ mi_epoch index1 = mi_epoch index ∧
    same_accounts (mc_heap m) (mc_heap m1) ∧ (∀ v, key_of (mc_heap m1) v = key_of (mc_heap m) v) ∧
    contents (mc_heap m1) entries = contents (mc_heap m) entries ∧ positioned (mc_heap m1) entries k pos.
Proof.
  intros Hm Hn Hkey. destruct (ensure_map_index_spec m r f entries index Hm Hn) as (m1 & index1 & E & Hst & Hn1 & Hb & He & Hu & Hk & Hc).
  unfold map_lookup. rewrite (mbind_ok _ _ _ _ _ E).
  assert (Eh : try_heap (λ h, key_index_hash h key) m1 = Ret (Ok (map_index_hash (hash_of k)), m1)).
  { unfold try_heap. rewrite (key_index_hash_spec _ _ k) by (by rewrite Hk). done. }
  rewrite (mbind_ok _ _ _ _ _ Eh). unfold map_lookup_indexed.
  destruct (lookup_spec (mc_heap m1) entries index1 (λ stored, b ← key_eq (mc_heap m1) stored key; Ret (Ok b)) k (nm_ok _ _ _ _ _ Hn1) Hb)
    as (cands & found & Ec & Ef & Hf).
  { intros e k' _ He'. by rewrite (key_eq_spec _ _ _ k' k He') by (by rewrite Hk). }
  set (body := _ ≫= _ : machine (option (N * Value))).
  assert (Eb : body m1 = Ret (Ok found, m1)).
  { unfold body. rewrite (mbind_ok _ _ _ _ _ (heap_get_map _ _ _ _ _ Hn1)).
    assert (El : lift_exec (candidates index1 (map_index_hash (hash_of k))) m1 = Ret (Ok cands, m1)) by (unfold lift_exec; by rewrite Ec).
    rewrite (mbind_ok _ _ _ _ _ El). unfold try_heap. by rewrite Ef. }
  rewrite (mbind_ok _ _ _ _ _ Eb). exists m1, index1, (fst <$> found). split_and!; try done.
  destruct found as [[i key']|]; [|done]. destruct Hf as (e & Hi & _ & Hke). by exists e.
Qed.

(** *** Changes *)

(** The charges of the largest map stay far below the end of the address space. *)
Definition charge_room (h : Heap) : Prop := (hp_used_bytes h + 2 ^ 38 <= USIZE_MAX)%N.

Lemma recharge_map m r f entries index :
  machine_ok m → names_map (mc_heap m) r f entries index → charge_room (mc_heap m) →
  ∃ m1, heap_recharge r m = Ret (Ok tt, m1) ∧ steps (λ _, True) r m m1 ∧ names_map (mc_heap m1) r f entries index ∧
    (∀ v, key_of (mc_heap m1) v = key_of (mc_heap m) v).
Proof.
  intros Hm [Hr Hok] Hroom. pose proof (map_reference _ _ _ _ _ Hr) as Hn. pose proof (mo_len _ _ _ Hok) as Hl.
  destruct (recharge_spec (mc_heap m) r f (OMap entries index) (proj1 Hm) Hn Hr) as (h & E & Hh & Hw & _).
  { done. }
  { assert (Hc : (heap_base_cost (OMap entries index) <= 2 ^ 38)%N).
    { cbn [heap_base_cost objects_heap]. unfold object_base_cost, payload_cost, ENTRY_COST, HEADER_COST, VALUE_COST.
      unfold U32_MAX in Hl. change (2 ^ 38)%N with 274877906944%N. lia. }
    unfold charge_room in Hroom. change (new_charge _ _) with 0%N. lia. }
  exists (set_heap m h (mc_scratch m)). unfold heap_recharge, update_heap. rewrite E. split_and!; [done| |..].
  - by destruct Hm.
  - constructor; simpl; [by rewrite Hw|]. eapply map_ok_same; [|exact Hok]. intros. apply key_of_same. intros. apply Hw.
  - intros v. apply key_of_same. intros. apply Hw.
Qed.

Lemma insert_entry_spec m r f entries index key value k :
  machine_ok m → names_map (mc_heap m) r f entries index → charge_room (mc_heap m) →
  mi_built index = lenN entries → (lenN entries < U32_MAX)%N →
  key_of (mc_heap m) key = Some k → k ∉ (contents (mc_heap m) entries).*1 →
  match epoch_bump (mi_epoch index) with
  | Err fault => insert_entry r key value (hash_of k) m = Ret (Err fault, m)
  | Ok epoch => ∃ m1, insert_entry r key value (hash_of k) m = Ret (Ok tt, m1) ∧ steps (λ _, True) r m m1 ∧
      holds (mc_heap m1) r f (ep_value epoch) (dict_put k key value (contents (mc_heap m) entries))
  end.
Proof.
  intros Hm Hn Hroom Hb Hl Hkey Hnew. unfold insert_entry. rewrite (mbind_ok _ _ _ _ _ (heap_get_map _ _ _ _ _ Hn)).
  destruct (epoch_bump (mi_epoch index)) as [epoch|fault] eqn:Ee.
  - destruct (push_entry_spec (mc_heap m) entries index key value k epoch (nm_ok _ _ _ _ _ Hn) Hb Hl Hkey Hnew Ee)
      as (index1 & Ep & Hok & Hep).
    set (entries1 := entries ++ _) in *.
    assert (Et : try_heap (λ _, push_entry entries index key value (hash_of k)) m = Ret (Ok (entries1, index1), m))
      by (unfold try_heap; by rewrite Ep).
    rewrite (mbind_ok _ _ _ _ _ Et).
    destruct (heap_put_map m r f entries index entries1 index1 Hm Hn Hok) as (m1 & E1 & Hst1 & Hn1 & Hu & Hk1 & Hc1).
    rewrite (mbind_ok _ _ _ _ _ E1).
    destruct (recharge_map m1 r f entries1 index1 (steps_ok _ _ _ _ Hst1) Hn1) as (m2 & E2 & Hst2 & Hn2 & Hk2).
    { unfold charge_room. by rewrite (proj1 Hu). }
    exists m2. split_and!; [done|by eapply steps_trans|]. exists entries1, index1. split_and!; [done| |by rewrite Hep].
    rewrite (contents_same (mc_heap m1)) by (intros; apply Hk2). rewrite Hc1. by apply contents_push.
  - assert (Et : try_heap (λ _, push_entry entries index key value (hash_of k)) m = Ret (Err fault, m)).
    { unfold try_heap, push_entry. by rewrite Ee. }
    by rewrite (mbind_err _ _ _ _ _ Et).
Qed.

Lemma replace_value_spec m r f entries index pos e k value discard :
  machine_ok m → names_map (mc_heap m) r f entries index →
  entries !! N.to_nat pos = Some e → key_of (mc_heap m) (me_key e) = Some k →
  ∃ m1, replace_value r pos value discard m = Ret (Ok (if discard then None else Some (me_value e)), m1) ∧
    steps (λ _, True) r m m1 ∧ ∀ key, holds (mc_heap m1) r f (ep_value (mi_epoch index)) (dict_put k key value (contents (mc_heap m) entries)).
Proof.
  intros Hm Hn Hi Hk. unfold replace_value. rewrite (mbind_ok _ _ _ _ _ (heap_get_map _ _ _ _ _ Hn)). rewrite Hi.
  pose proof (replace_ok (mc_heap m) entries index _ e k value (nm_ok _ _ _ _ _ Hn) Hi Hk) as Hok.
  set (entries1 := <[N.to_nat pos := _]> entries) in *.
  destruct (heap_put_map m r f entries index entries1 index Hm Hn Hok) as (m1 & E1 & Hst1 & Hn1 & _ & _ & Hc1).
  exists m1. unfold ok_or. rewrite (mbind_ok _ _ m e m) by done. rewrite (mbind_ok _ _ _ _ _ E1).
  split_and!; [done|done|]. intros key. exists entries1, index. split_and!; [done| |done]. rewrite Hc1.
  apply contents_replace; [apply Hn|done|done].
Qed.

Lemma remove_map_entry_spec m r f entries index pos e k :
  machine_ok m → names_map (mc_heap m) r f entries index → charge_room (mc_heap m) →
  entries !! N.to_nat pos = Some e → key_of (mc_heap m) (me_key e) = Some k →
  ∃ m1, steps (λ _, True) r m m1 ∧
  match epoch_bump (mi_epoch index) with
  | Err fault => remove_map_entry r pos m = Ret (Err fault, m1) ∧ names_map (mc_heap m1) r f entries index ∧
      contents (mc_heap m1) entries = contents (mc_heap m) entries
  | Ok epoch => remove_map_entry r pos m = Ret (Ok (me_value e), m1) ∧
      holds (mc_heap m1) r f (ep_value epoch) (dict_remove k (contents (mc_heap m) entries))
  end.
Proof.
  intros Hm Hn Hroom Hi Hk. unfold remove_map_entry. rewrite (mbind_ok _ _ _ _ _ (heap_get_map _ _ _ _ _ Hn)).
  destruct (epoch_bump (mi_epoch index)) as [epoch|fault] eqn:Ee.
  - destruct (remove_entry_spec (mc_heap m) entries index pos e k epoch (nm_ok _ _ _ _ _ Hn) Hi Hk Ee)
      as (entries1 & index1 & index2 & Er & Hok & Hc & Hep).
    assert (El : lift_exec (remove_entry entries index pos) m = Ret (Ok (Ok (me_value e, entries1, index1), index2), m))
      by (unfold lift_exec; by rewrite Er).
    rewrite (mbind_ok _ _ _ _ _ El).
    destruct (heap_put_map m r f entries index entries1 index1 Hm Hn Hok) as (m1 & E1 & Hst1 & Hn1 & Hu & Hk1 & Hc1).
    destruct (recharge_map m1 r f entries1 index1 (steps_ok _ _ _ _ Hst1) Hn1) as (m2 & E2 & Hst2 & Hn2 & Hk2).
    { unfold charge_room. by rewrite (proj1 Hu). }
    exists m2. rewrite (mbind_ok _ _ _ _ _ E1), (mbind_ok _ _ _ _ _ E2). split_and!; [by eapply steps_trans|done|].
    exists entries1, index1. split_and!; [done| |by rewrite Hep]. rewrite (contents_same (mc_heap m1)) by (intros; apply Hk2). by rewrite Hc1, Hc.
  - assert (El : lift_exec (remove_entry entries index pos) m = Ret (Ok (Err fault, index), m))
      by (unfold lift_exec, remove_entry; by rewrite Ee).
    rewrite (mbind_ok _ _ _ _ _ El).
    destruct (heap_put_map m r f entries index entries index Hm Hn (nm_ok _ _ _ _ _ Hn)) as (m1 & E1 & Hst1 & Hn1 & _ & _ & Hc1).
    exists m1. rewrite (mbind_ok _ _ _ _ _ E1). by split_and!.
Qed.

(** *** Room for an entry *)

(** A map that only changes its index keeps its edges and its size. *)
Lemma reindexed h h1 r f entries index index1 :
  read h r = Some (f, OMap entries index) → read h1 r = Some (f, OMap entries index1) →
  (∀ r', r' ≠ r → read h1 r' = read h r') →
  (∀ r', children_of h1 r' = children_of h r') ∧ (∀ r', size_of h1 r' = size_of h r') ∧
  (∀ r', is_Some (read h r') → is_Some (read h1 r')).
Proof.
  intros Hr Hr1 Ho. unfold children_of, size_of, object_of. split_and!; intros r'; destruct (decide (r' = r)) as [->|Hne];
    rewrite ?Hr, ?Hr1, ?(Ho r' Hne); eauto.
Qed.

Lemma map_child entries index e x : e ∈ entries → me_key e = VObj x → x ∈ children (OMap entries index).
Proof.
  intros He Hx. cbn [children]. apply list_elem_of_In, in_concat. eexists. split.
  - apply list_elem_of_In, list_elem_of_fmap. by exists e.
  - apply list_elem_of_In. unfold me_is_live. rewrite Hx. apply elem_of_app. left. apply list_elem_of_singleton. done.
Qed.

(** The roots of a collection with [temps] popped. *)
Definition temp_roots (m : Machine) (temps : list Value) : list ObjRef :=
  gc_roots m (refs_of temps) ++ host_roots (mc_heap m).

Lemma temp_root m temps x : VObj x ∈ temps → x ∈ temp_roots m temps.
Proof.
  intros Hx. unfold temp_roots, gc_roots. rewrite !elem_of_app. left. right. right. right.
  unfold refs_of. apply list_elem_of_omap. by exists (VObj x).
Qed.

Lemma reserve_spec m r f entries index delta key value :
  machine_ok m → names_map (mc_heap m) r f entries index →
  let temps := [VObj r; key; value] in
  closed (mc_heap m) (temp_roots m temps) → graph_fits (mc_heap m) (temp_roots m temps) →
  ∃ m1 res, reserve delta temps m = Ret (res, m1) ∧
    (res = Ok tt ∨ res = Err HeapLimit ∧ would_exceed_growth (mc_heap m1) delta = true) ∧
    steps (reachable (mc_heap m) (temp_roots m temps)) r m m1 ∧ names_map (mc_heap m1) r f entries index ∧
    key_of (mc_heap m1) key = key_of (mc_heap m) key ∧ contents (mc_heap m1) entries = contents (mc_heap m) entries ∧
    (hp_used_bytes (mc_heap m1) <= hp_used_bytes (mc_heap m))%N.
Proof.
  intros Hm Hn temps Hc Hf. unfold reserve. rewrite (mbind_ok _ _ m (mc_heap m) m) by done.
  destruct (collection_due (mc_heap m) delta).
  2: { exists m, (Ok tt). split_and!; [done|by left|by apply steps_refl|done|done|done|lia]. }
  destruct (collect_cases (mc_heap m) (mc_scratch m) (gc_roots m (refs_of temps)) (proj1 Hm) (proj2 Hm) Hc Hf)
    as (h1 & s1 & E & Hs1 & Hcl).
  assert (Eg : collect_garbage (refs_of temps) m = Ret (Ok tt, set_heap m h1 s1)) by (unfold collect_garbage; by rewrite E).
  rewrite (mbind_ok _ _ _ _ _ Eg), (mbind_ok _ _ _ h1 (set_heap m h1 s1)) by done.
  assert (Hroot : ∀ x, VObj x ∈ temps → reachable (mc_heap m) (temp_roots m temps) x)
    by (intros x Hx; by apply reachable_root, temp_root).
  assert (Hr : reachable (mc_heap m) (temp_roots m temps) r) by (apply Hroot, elem_of_cons; by left).
  destruct Hn as [Hread Hok]. pose proof (cl_kept _ _ _ Hcl) as Hkept.
  assert (Hkeys : ∀ e, e ∈ entries → key_of h1 (me_key e) = key_of (mc_heap m) (me_key e)).
  { intros e He. apply key_of_same. intros x Hx. apply Hkept. eapply reachable_step; [exact Hr|].
    unfold edge, children_of, object_of. rewrite Hread. by eapply map_child. }
  exists (set_heap m h1 s1), (if would_exceed_growth h1 delta then Err HeapLimit else Ok tt). split_and!.
  - by destruct (would_exceed_growth h1 delta).
  - destruct (would_exceed_growth h1 delta) eqn:Ew; [by right|by left].
  - constructor; [done|apply Hcl|done|]. intros r' Hk _. by apply Hkept.
  - constructor; simpl; [by rewrite Hkept|by eapply map_ok_same].
  - apply key_of_same. intros x ->. apply Hkept, Hroot. apply elem_of_cons. right. apply elem_of_cons. by left.
  - by apply contents_same.
  - apply Hcl.
Qed.

(** *** Instructions *)

Lemma frozen_guard_map m r f entries index : read (mc_heap m) r = Some (f, OMap entries index) →
  frozen_guard r m = if f then Ret (Err FrozenWrite, m) else Ret (Ok tt, m).
Proof.
  intros Hr. unfold frozen_guard.
  assert (E : on_heap (λ h, is_frozen h r) m = Ret (Ok f, m)) by (unfold on_heap; by rewrite (HeapFrame.is_frozen_read _ _ _ _ Hr)).
  rewrite (mbind_ok _ _ _ _ _ E). by destruct f.
Qed.

Lemma epoch_bump_cases e :
  (∃ e', epoch_bump e = Ok e' ∧ ep_value e' = moved (ep_value e)) ∨
  epoch_bump e = Err CollectionEpochExhausted ∧ ep_value e = U32_MAX.
Proof.
  unfold epoch_bump, ensure_bumpable, moved. destruct (N.eqb_spec (ep_value e) 0) as [E|Hne]; [left; by exists e|].
  destruct (N.eqb_spec (ep_value e) U32_MAX); [by right|left; by eexists].
Qed.

Lemma positioned_get h entries index k pos : map_ok h entries index → positioned h entries k pos →
  match pos with
  | Some i => ∃ e, entries !! N.to_nat i = Some e ∧ key_of h (me_key e) = Some k ∧
      dict_get k (contents h entries) = Some (me_key e, me_value e)
  | None => dict_get k (contents h entries) = None ∧ k ∉ (contents h entries).*1
  end.
Proof.
  intros Hok. destruct pos as [i|]; simpl.
  - intros (e & He & Hk). exists e. split_and!; [done..|]. eapply contents_get; [apply Hok|done|done].
  - intros Hn. split; [by apply dict_get_None|done].
Qed.

(** The machine after the two or three pops of an instruction. *)
Lemma pops_machine m ops : machine_ok m → machine_ok (set_operands m ops).
Proof. done. Qed.

(** What an insertion answers. *)
Inductive put_result (m1 : Machine) (r : ObjRef) (f : bool) (e : N) (k : Key) (key value : Value) (d : Dict)
    (discard : bool) : result (option Value) FaultCode → Prop :=
| put_frozen : f = true → holds (mc_heap m1) r f e d → put_result m1 r f e k key value d discard (Err FrozenWrite)
| put_replaced stored old : f = false → dict_get k d = Some (stored, old) →
    holds (mc_heap m1) r f e (dict_put k key value d) →
    put_result m1 r f e k key value d discard (Ok (if discard then None else Some old))
| put_added : f = false → dict_get k d = None → holds (mc_heap m1) r f (moved e) (dict_put k key value d) →
    put_result m1 r f e k key value d discard (Ok None)
| put_full : f = false → dict_get k d = None → holds (mc_heap m1) r f e d →
    would_exceed_growth (mc_heap m1) ENTRY_COST = true → put_result m1 r f e k key value d discard (Err HeapLimit)
| put_exhausted : f = false → dict_get k d = None → holds (mc_heap m1) r f e d → e = U32_MAX →
    put_result m1 r f e k key value d discard (Err CollectionEpochExhausted).

(** The part of an insertion after a lookup that found nothing. *)
Definition add_entry (r : ObjRef) (key value : Value) : machine (option Value) :=
  semantic ← try_heap (λ h, key_semantic_hash h key);
  owned ← mret None;
  growth ← entry_growth owned;
  _ ← reserve growth [VObj r; key; value];
  key ← alloc_owned owned key;
  _ ← insert_entry r key value semantic;
  mret None.

Lemma add_entry_spec m r entries index key value k discard :
  machine_ok m → names_map (mc_heap m) r false entries index → key_of (mc_heap m) key = Some k →
  charge_room (mc_heap m) → (lenN entries < U32_MAX)%N → mi_built index = lenN entries →
  k ∉ (contents (mc_heap m) entries).*1 →
  let temps := [VObj r; key; value] in
  closed (mc_heap m) (temp_roots m temps) → graph_fits (mc_heap m) (temp_roots m temps) →
  ∃ m1 res, add_entry r key value m = Ret (res, m1) ∧
    steps (reachable (mc_heap m) (temp_roots m temps)) r m m1 ∧
    put_result m1 r false (ep_value (mi_epoch index)) k key value (contents (mc_heap m) entries) discard res.
Proof.
  intros Hm Hn Hkey Hroom Hlen Hb Hnew temps Hc Hf. pose proof (proj2 (dict_get_None _ _) Hnew) as Hget. unfold add_entry.
  assert (Es : try_heap (λ h, key_semantic_hash h key) m = Ret (Ok (hash_of k), m))
    by (unfold try_heap; by rewrite (key_semantic_hash_spec _ _ k Hkey)).
  rewrite (mbind_ok _ _ _ _ _ Es), (mbind_ok _ _ m None m) by done. rewrite (mbind_ok _ _ m ENTRY_COST m) by done.
  destruct (reserve_spec m r false entries index ENTRY_COST key value Hm Hn Hc Hf)
    as (m1 & res & Er & Hres & Hst & Hn1 & Hk1 & Hct & Hu).
  destruct Hres as [->|[-> Hw]].
  2: { exists m1, (Err HeapLimit). split_and!; [by rewrite (mbind_err _ _ _ _ _ Er)|done|].
       apply put_full; try done. by exists entries, index. }
  rewrite (mbind_ok _ _ _ _ _ Er), (mbind_ok _ _ m1 key m1) by done.
  assert (Hroom1 : charge_room (mc_heap m1)) by (unfold charge_room in *; lia).
  pose proof (insert_entry_spec m1 r false entries index key value k (steps_ok _ _ _ _ Hst) Hn1 Hroom1 Hb Hlen) as Hi.
  rewrite Hk1, Hct in Hi. specialize (Hi Hkey Hnew).
  destruct (epoch_bump_cases (mi_epoch index)) as [(e & Ee & Em)|[Ee Hx]]; rewrite Ee in Hi.
  - destruct Hi as (m2 & Ei & Hst2 & Hh2). exists m2, (Ok None). split_and!.
    + by rewrite (mbind_ok _ _ _ _ _ Ei).
    + eapply steps_trans; [exact Hst|]. by eapply steps_weaken; [|exact Hst2].
    + apply put_added; [done..|]. by rewrite <-Em.
  - exists m1, (Err CollectionEpochExhausted). split_and!; [by rewrite (mbind_err _ _ _ _ _ Hi)|done|].
    apply put_exhausted; try done. by exists entries, index.
Qed.

Lemma map_put_spec m r f e d key value k discard :
  machine_ok m → holds (mc_heap m) r f e d → key_of (mc_heap m) key = Some k → charge_room (mc_heap m) →
  (∀ entries index, read (mc_heap m) r = Some (f, OMap entries index) → (lenN entries < U32_MAX)%N) →
  let temps := [VObj r; key; value] in
  closed (mc_heap m) (temp_roots m temps) → graph_fits (mc_heap m) (temp_roots m temps) →
  ∃ m1 res, map_put r key value discard Declared m = Ret (res, m1) ∧
    steps (reachable (mc_heap m) (temp_roots m temps)) r m m1 ∧ put_result m1 r f e k key value d discard res.
Proof.
  intros Hm (entries & index & Hn & <- & <-) Hkey Hroom Hlen temps Hc Hf. pose proof (nm_read _ _ _ _ _ Hn) as Hread.
  unfold map_put. pose proof (frozen_guard_map m r f entries index Hread) as Eg. destruct f.
  { rewrite (mbind_err _ _ _ _ _ Eg). exists m, (Err FrozenWrite). split_and!; [done|by apply steps_refl|].
    apply put_frozen; [done|]. by exists entries, index. }
  rewrite (mbind_ok _ _ _ _ _ Eg).
  destruct (map_lookup_spec m r false entries index key k Hm Hn Hkey)
    as (m1 & index1 & pos & El & Hst & Hn1 & Hb & He & [Hu Hhr] & Hk & Hct & Hpos).
  rewrite (mbind_ok _ _ _ _ _ El). pose proof (positioned_get _ _ _ _ _ (nm_ok _ _ _ _ _ Hn1) Hpos) as Hg.
  assert (Hst' : steps (reachable (mc_heap m) (temp_roots m temps)) r m m1) by (by eapply steps_weaken; [|exact Hst]).
  destruct pos as [i|].
  - destruct Hg as (en & Hi & Hke & Hget).
    destruct (replace_value_spec m1 r false entries index1 i en k value discard (steps_ok _ _ _ _ Hst) Hn1 Hi Hke)
      as (m2 & E2 & Hst2 & Hh2).
    exists m2, (Ok (if discard then None else Some (me_value en))). split_and!; [done| |].
    + eapply steps_trans; [exact Hst'|]. by eapply steps_weaken; [|exact Hst2].
    + eapply put_replaced; [done| |rewrite <-Hct, <-He; apply Hh2]. by rewrite <-Hct.
  - destruct Hg as [Hget Hnew].
    destruct (reindexed (mc_heap m) (mc_heap m1) r false entries index index1 Hread (nm_read _ _ _ _ _ Hn1)) as (Hch & Hsz & Hlv).
    { intros r' Hne. by apply Hst. }
    assert (Eroots : temp_roots m1 [VObj r; key; value] = temp_roots m temps).
    { unfold temp_roots, host_roots. rewrite Hhr. by rewrite (sp_machine _ _ _ _ Hst). }
    destruct (add_entry_spec m1 r entries index1 key value k discard (steps_ok _ _ _ _ Hst) Hn1) as (m2 & res & E2 & Hst2 & Hput).
    + by rewrite Hk.
    + unfold charge_room. by rewrite Hu.
    + by eapply Hlen.
    + done.
    + done.
    + rewrite Eroots. by eapply same_closed.
    + rewrite Eroots. by eapply same_fits.
    + exists m2, res. split_and!; [exact E2| |by rewrite <-Hct, <-He].
      eapply steps_trans; [exact Hst'|]. eapply steps_weaken; [|exact Hst2]. intros r' Hr'. rewrite Eroots.
      by eapply (same_reachable (mc_heap m1) (mc_heap m)).
Qed.
End MapOps.
