(* ===== verification/MapProps.v ===== *)
(** * Theorems of maps

    The map instructions are the operations of an insertion-ordered dictionary,
    whatever the state of the index and whatever a collection frees meanwhile;
    a traversal lists the dictionary; and what a copy of a map does to the
    tokens and cursors taken before it. *)

From stdpp Require Import base numbers option gmap list.
From S2P Require Import Prelude Fault Value Pages TextViews MapIndex MapIndexFacts Heap Ledger Objects HeapInv HeapOps HeapFrame Graph GraphTables GraphWalk GraphModes HeapSteps HeapProps Machine Collections Arenas MachineProps MapKeys Maps MapOps.

Section theorems.
Context `{PL : Payloads} `{HM : HostMemory} `{MT : MachineTypes} `{NF : !NativeFrames} `{TB : !TextBytes}
  `{ET : !EnvTable} (roles : CoreRoles).

(** *** Operands *)

Lemma pop2_map {A} (f : Value → ObjRef → machine A) m rest r v :
  mc_operands m = rest ++ [VObj r; v] →
  (v ← pop; r ← pop_obj; f v r) m = f v r (set_operands m rest).
Proof.
  intros E. assert (E1 : mc_operands m = (rest ++ [VObj r]) ++ [v]) by (by rewrite <-app_assoc).
  rewrite (mbind_ok _ _ _ _ _ (pop_app m _ _ E1)). by rewrite (mbind_ok _ _ _ _ _ (pop_obj_app (set_operands m (rest ++ [VObj r])) rest r eq_refl)).
Qed.

(** The reads through one lookup. *)
Lemma entry_value_spec m r f entries index pos e : names_map (mc_heap m) r f entries index →
  entries !! N.to_nat pos = Some e → entry_value r pos m = Ret (Ok (me_value e), m).
Proof.
  intros Hn Hi. unfold entry_value. rewrite (mbind_ok _ _ _ _ _ (heap_get_map _ _ _ _ _ Hn)). by rewrite Hi.
Qed.

Lemma lookup_holds m r f e d key k :
  machine_ok m → holds (mc_heap m) r f e d → key_of (mc_heap m) key = Some k →
  ∃ m1 entries index pos, map_lookup r key m = Ret (Ok pos, m1) ∧ steps (λ _, True) r m m1 ∧
    names_map (mc_heap m1) r f entries index ∧ contents (mc_heap m1) entries = d ∧ ep_value (mi_epoch index) = e ∧
    same_accounts (mc_heap m) (mc_heap m1) ∧
    match pos with
    | Some i => ∃ en, entries !! N.to_nat i = Some en ∧ key_of (mc_heap m1) (me_key en) = Some k ∧
        dict_get k d = Some (me_key en, me_value en)
    | None => dict_get k d = None
    end.
Proof.
  intros Hm (entries & index & Hn & <- & <-) Hkey.
  destruct (map_lookup_spec m r f entries index key k Hm Hn Hkey)
    as (m1 & index1 & pos & El & Hst & Hn1 & _ & He & Hac & _ & Hct & Hpos).
  exists m1, entries, index1, pos. split_and!; try done; [by rewrite He|]. rewrite <-Hct.
  pose proof (positioned_get _ _ _ _ _ (nm_ok _ _ _ _ _ Hn1) Hpos) as Hg. destruct pos; [done|apply Hg].
Qed.

Lemma map_reads m rest r key f e d k ty :
  machine_ok m → mc_operands m = rest ++ [VObj r; key] → holds (mc_heap m) r f e d → key_of (mc_heap m) key = Some k →
  ∃ m1, steps (λ _, True) r (set_operands m rest) m1 ∧ holds (mc_heap m1) r f e d ∧
    exec_map_has m = push (VBool (bool_decide (is_Some (dict_get k d)))) m1 ∧
    exec_map_at m = match dict_get k d with Some (_, v) => push v m1 | None => Ret (Err MissingKey, m1) end ∧
    exec_map_get roles ty m = push_option roles ty (snd <$> dict_get k d) m1.
Proof.
  intros Hm Eo Hh Hk.
  destruct (lookup_holds (set_operands m rest) r f e d key k Hm Hh Hk) as (m1 & entries & index & pos & El & Hst & Hn & Hct & He & _ & Hpos).
  exists m1. split_and!; [done|by exists entries, index|..].
  - unfold exec_map_has. rewrite (pop2_map _ m rest r key Eo), (mbind_ok _ _ _ _ _ El).
    destruct pos; [destruct Hpos as (en & _ & _ & ->)|rewrite Hpos]; done.
  - unfold exec_map_at. rewrite (pop2_map _ m rest r key Eo), (mbind_ok _ _ _ _ _ El).
    destruct pos as [i|]; [destruct Hpos as (en & Hi & _ & ->)|by rewrite Hpos].
    rewrite (mbind_ok _ _ m1 i m1) by done. by rewrite (mbind_ok _ _ _ _ _ (entry_value_spec _ _ _ _ _ _ _ Hn Hi)).
  - unfold exec_map_get. rewrite (pop2_map _ m rest r key Eo), (mbind_ok _ _ _ _ _ El).
    destruct pos as [i|]; [destruct Hpos as (en & Hi & _ & ->)|by rewrite Hpos].
    assert (Ev : (v ← entry_value r i; mret (Some v)) m1 = Ret (Ok (Some (me_value en)), m1))
      by (by rewrite (mbind_ok _ _ _ _ _ (entry_value_spec _ _ _ _ _ _ _ Hn Hi))).
    by rewrite (mbind_ok _ _ _ _ _ Ev).
Qed.

(** What a removal of [k] leaves at [m1]. *)
Definition removed (m1 : Machine) (r : ObjRef) (f : bool) (e : N) (d : Dict) (k : Key) (ty : N)
    (answer : exec (result unit FaultCode * Machine)) : Prop :=
  if f then answer = Ret (Err FrozenWrite, m1) ∧ holds (mc_heap m1) r f e d
  else match dict_get k d with
  | None => answer = push_option roles ty None m1 ∧ holds (mc_heap m1) r f e d
  | Some (_, v) =>
      answer = push_option roles ty (Some v) m1 ∧ holds (mc_heap m1) r f (moved e) (dict_remove k d) ∨
      answer = Ret (Err CollectionEpochExhausted, m1) ∧ holds (mc_heap m1) r f e d ∧ e = U32_MAX
  end.

Lemma map_removes m rest r key f e d k ty :
  machine_ok m → mc_operands m = rest ++ [VObj r; key] → holds (mc_heap m) r f e d → key_of (mc_heap m) key = Some k →
  charge_room (mc_heap m) →
  ∃ m1, steps (λ _, True) r (set_operands m rest) m1 ∧ removed m1 r f e d k ty (exec_map_remove roles ty m).
Proof.
  intros Hm Eo Hh Hk Hroom. unfold exec_map_remove. rewrite (pop2_map _ m rest r key Eo). set (m0 := set_operands m rest).
  assert (Hg : frozen_guard r m0 = if f then Ret (Err FrozenWrite, m0) else Ret (Ok tt, m0)).
  { destruct Hh as (entries & index & [Hr _] & _ & _). by eapply frozen_guard_map. }
  destruct f.
  { exists m0. rewrite (mbind_err _ _ _ _ _ Hg). split; [by apply steps_refl|by split]. }
  rewrite (mbind_ok _ _ _ _ _ Hg).
  destruct (lookup_holds m0 r false e d key k Hm Hh Hk) as (m1 & entries & index & pos & El & Hst & Hn & Hct & He & [Hu _] & Hpos).
  rewrite (mbind_ok _ _ _ _ _ El). unfold removed. destruct pos as [i|].
  2: { rewrite Hpos. exists m1. rewrite (mbind_ok _ _ m1 None m1) by done. split_and!; [done|done|by exists entries, index]. }
  destruct Hpos as (en & Hi & Hke & ->).
  destruct (remove_map_entry_spec m1 r false entries index i en k (steps_ok _ _ _ _ Hst) Hn) as (m2 & Hst2 & Hrm); [|done|done|].
  { unfold charge_room. by rewrite Hu. }
  exists m2. split; [by eapply steps_trans|]. rewrite Hct in Hrm.
  destruct (epoch_bump_cases (mi_epoch index)) as [(e' & Ee & Em)|[Ee Hx]]; rewrite Ee in Hrm; [left; destruct Hrm as [Er Hh2]|right; destruct Hrm as (Er & Hn2 & Hct2)].
  - assert (Ev : (v ← remove_map_entry r i; mret (Some v)) m1 = Ret (Ok (Some (me_value en)), m2)) by (by rewrite (mbind_ok _ _ _ _ _ Er)).
    rewrite (mbind_ok _ _ _ _ _ Ev). split; [done|]. by rewrite <-He, <-Em.
  - assert (Ev : (v ← remove_map_entry r i; mret (Some v)) m1 = Ret (Err CollectionEpochExhausted, m2)) by (by rewrite (mbind_err _ _ _ _ _ Er)).
    rewrite (mbind_err _ _ _ _ _ Ev). split_and!; [done| |].
    + by exists entries, index.
    + by rewrite <-He.
Qed.

(** What clearing a map leaves at [m1]. *)
Definition cleared (m1 : Machine) (r : ObjRef) (f : bool) (e : N) (d : Dict) (answer : exec (result unit FaultCode * Machine)) : Prop :=
  if f then answer = Ret (Err FrozenWrite, m1) ∧ holds (mc_heap m1) r f e d
  else
    answer = push VUnit m1 ∧ holds (mc_heap m1) r f (if decide (d = []) then e else moved e) [] ∨
    answer = Ret (Err CollectionEpochExhausted, m1) ∧ holds (mc_heap m1) r f e d ∧ e = U32_MAX.

Lemma map_clears m rest r f e d :
  machine_ok m → mc_operands m = rest ++ [VObj r] → holds (mc_heap m) r f e d → charge_room (mc_heap m) →
  ∃ m1, steps (λ _, True) r (set_operands m rest) m1 ∧ cleared m1 r f e d (exec_map_clear m).
Proof.
  intros Hm Eo (entries & index & Hn & <- & <-) Hroom. unfold exec_map_clear. rewrite (mbind_ok _ _ _ _ _ (pop_obj_app m rest r Eo)).
  set (m0 := set_operands m rest). pose proof (frozen_guard_map m0 r f entries index (nm_read _ _ _ _ _ Hn)) as Hg.
  destruct f.
  { exists m0. rewrite (mbind_err _ _ _ _ _ Hg). split; [by apply steps_refl|]. split; [done|]. by exists entries, index. }
  rewrite (mbind_ok _ _ _ _ _ Hg), (mbind_ok _ _ _ _ _ (heap_get_map m0 r false entries index Hn)). unfold cleared.
  destruct (0 <? mi_live index)%N eqn:Elive.
  { assert (Hne : contents (mc_heap m) entries ≠ []).
    { intros E. apply N.ltb_lt in Elive. rewrite (mo_live _ _ _ (nm_ok _ _ _ _ _ Hn)), E in Elive. done. }
    rewrite decide_False by done.
    destruct (epoch_bump_cases (mi_epoch index)) as [(e & Ee & Em)|[Ee Hx]]; rewrite Ee.
    - set (index1 := index_reset (mkIndex (mi_built index) (mi_live index) e (mi_slots index))).
      destruct (heap_put_map m0 r false entries index [] index1 Hm Hn (clear_ok _ _)) as (m1 & E1 & Hst1 & Hn1 & [Hu _] & _ & _).
      destruct (recharge_map m1 r false [] index1 (steps_ok _ _ _ _ Hst1) Hn1) as (m2 & E2 & Hst2 & Hn2 & _).
      { unfold charge_room. by rewrite Hu. }
      exists m2. split; [by eapply steps_trans|]. left. split; [|by exists [], index1].
      rewrite (mbind_ok _ _ m0 tt m2); [done|]. unfold try_. rewrite (mbind_ok _ _ m0 e m0) by done.
      by rewrite (mbind_ok _ _ _ _ _ E1).
    - exists m0. split; [by apply steps_refl|]. right. split_and!; [done|by exists entries, index|done]. }
  assert (Hnil : contents (mc_heap m) entries = []).
  { apply N.ltb_ge in Elive. rewrite (mo_live _ _ _ (nm_ok _ _ _ _ _ Hn)) in Elive.
    apply nil_length_inv. unfold lenN in Elive. lia. }
  exists m0. split; [by apply steps_refl|]. rewrite (mbind_ok _ _ m0 tt m0) by done. left. split; [done|].
  rewrite decide_True by done. by exists entries, index.
Qed.

(** *** Traversal *)

(** The loop of a traversal: the next live position, its key and value, and on
    from the position after it. *)
Fixpoint traverse (fuel : nat) (entries : list MapEntry) (cursor : N) : list (Value * Value) :=
  match fuel with
  | O => []
  | S fuel =>
      let position := next_live entries cursor in
      match live_entry_at entries position with
      | Some e => (me_key e, me_value e) :: traverse fuel entries (Z.to_N position + 1)
      | None => []
      end
  end.

(** The live entries in order. *)
Definition live_pairs (entries : list MapEntry) : list (Value * Value) :=
  (λ e, (me_key e, me_value e)) <$> filter (λ e, me_is_live e = true) entries.

Lemma live_pairs_app l1 l2 : live_pairs (l1 ++ l2) = live_pairs l1 ++ live_pairs l2.
Proof. unfold live_pairs. by rewrite filter_app, fmap_app. Qed.
Lemma live_pairs_cons e l : live_pairs (e :: l) = (if me_is_live e then [(me_key e, me_value e)] else []) ++ live_pairs l.
Proof. unfold live_pairs. rewrite filter_cons. destruct (me_is_live e); [by rewrite decide_True|by rewrite decide_False]. Qed.

Lemma live_pairs_dead l : (∀ e, e ∈ l → me_is_live e ≠ true) → live_pairs l = [].
Proof.
  induction l as [|e l IH]; intros Hd; [done|]. rewrite live_pairs_cons, IH by (intros e' He'; apply Hd, elem_of_cons; by right).
  by rewrite (not_true_is_false _ (Hd e ltac:(apply elem_of_cons; by left))).
Qed.
Lemma live_pairs_all l : Forall (λ e, me_is_live e = true) l → live_pairs l = (λ e, (me_key e, me_value e)) <$> l.
Proof. induction 1 as [|e l He _ IH]; [done|]. rewrite live_pairs_cons, He, IH. done. Qed.

Lemma live_pairs_contents h entries : Forall (entry_ok h) entries → live_pairs entries = (contents h entries).*2.
Proof.
  induction 1 as [|e l He _ IH]; [done|]. rewrite live_pairs_cons, contents_cons, fmap_app, IH. f_equal.
  destruct (me_is_live e) eqn:El; [|by rewrite pair_dead]. destruct (He El) as (k & Hk & _). by rewrite (pair_key h e k Hk).
Qed.

Lemma traverse_spec entries : ∀ fuel cursor, length entries - N.to_nat cursor < fuel →
  traverse fuel entries cursor = live_pairs (drop (N.to_nat cursor) entries).
Proof.
  induction fuel as [|fuel IH]; intros cursor Hf; [lia|]. cbn [traverse]. unfold next_live.
  destruct (list_find _ (drop (N.to_nat cursor) entries)) as [[offset e]|] eqn:E.
  - apply list_find_Some in E as (He & Hlive & Hbefore). pose proof He as Hd. rewrite lookup_drop in He.
    set (p := (cursor + N.of_nat offset)%N). assert (Ep : N.to_nat p = N.to_nat cursor + offset) by lia.
    assert (El : live_entry_at entries (Z.of_N p) = Some e).
    { unfold live_entry_at. rewrite (proj2 (Z.ltb_ge _ _)) by lia. replace (Z.to_nat (Z.of_N p)) with (N.to_nat p) by lia.
      rewrite Ep, He. simpl. by rewrite Hlive. }
    rewrite El, N2Z.id, IH by (apply lookup_lt_Some in He; lia).
    rewrite <-(take_drop_middle _ _ _ Hd), live_pairs_app, live_pairs_cons, drop_drop, Hlive.
    rewrite (live_pairs_dead (take offset _)) by (intros e' [j Hj]%list_elem_of_lookup; apply lookup_take_Some in Hj as [Hj Hlt]; by eapply Hbefore).
    by replace (N.to_nat (p + 1)) with (N.to_nat cursor + S offset) by lia.
  - apply list_find_None in E. by rewrite live_pairs_dead by (intros e He; rewrite list.Forall_forall in E; by apply E).
Qed.

(** *** The theorems *)

(** C33. A map is a dictionary in insertion order.  Whatever part of the entries is
    indexed, however many tombstones lie between them and whatever hashes
    collide, the instructions on a map with native keys answer and change what
    the dictionary says, where texts are compared by their bytes, and NaNs and
    zeros are one key each: membership, reads with their missing-key answers,
    the length, removal, which compacts, and clearing.  A frozen map is never
    changed, the epoch moves exactly with the structure, and no other object of
    the heap is touched.  A traversal lists the dictionary in order. *)
Theorem map_refines_dict m r f e d :
  machine_ok m → holds (mc_heap m) r f e d → charge_room (mc_heap m) →
  (∀ rest key k ty, mc_operands m = rest ++ [VObj r; key] → key_of (mc_heap m) key = Some k →
    (∃ m1, steps (λ _, True) r (set_operands m rest) m1 ∧ holds (mc_heap m1) r f e d ∧
      exec_map_has m = push (VBool (bool_decide (is_Some (dict_get k d)))) m1 ∧
      exec_map_at m = match dict_get k d with Some (_, v) => push v m1 | None => Ret (Err MissingKey, m1) end ∧
      exec_map_get roles ty m = push_option roles ty (snd <$> dict_get k d) m1) ∧
    (∃ m1, steps (λ _, True) r (set_operands m rest) m1 ∧ removed m1 r f e d k ty (exec_map_remove roles ty m))) ∧
  (∀ rest, mc_operands m = rest ++ [VObj r] →
    exec_map_len m = push (VInt (Z.of_N (lenN d))) (set_operands m rest) ∧
    ∃ m1, steps (λ _, True) r (set_operands m rest) m1 ∧ cleared m1 r f e d (exec_map_clear m)) ∧
  (∃ entries index, read (mc_heap m) r = Some (f, OMap entries index) ∧ traverse (S (length entries)) entries 0 = d.*2).
Proof.
  intros Hm Hh Hroom. split_and!.
  - intros rest key k ty Eo Hk. split; [by eapply map_reads|by eapply map_removes].
  - intros rest Eo. split; [|by apply map_clears]. destruct Hh as (entries & index & Hn & <- & <-).
    unfold exec_map_len. rewrite (mbind_ok _ _ _ _ _ (pop_obj_app m rest r Eo)).
    rewrite (mbind_ok _ _ _ _ _ (heap_get_map (set_operands m rest) r f entries index Hn)).
    by rewrite (mo_live _ _ _ (nm_ok _ _ _ _ _ Hn)).
  - destruct Hh as (entries & index & Hn & <- & <-). exists entries, index. split; [apply Hn|].
    rewrite traverse_spec by (simpl; lia). apply live_pairs_contents, Hn.
Qed.



(** *** Images *)

(** What a snapshot restores of a map: the live entries with their references
    renumbered, no index, and the epoch as it was. *)
Definition image_map (f : ObjRef → ObjRef) (entries : list MapEntry) (index : MapIndex) : Object :=
  OMap (map_entry f <$> filter (λ e, me_is_live e = true) entries)
    (mkIndex 0 (lenN (filter (λ e, me_is_live e = true) entries)) (mi_epoch index) []).

(** C35. A restored map forgets where its entries were, and its epoch does not say
    so.  At the epoch the restored map keeps, every probe token that names a slot
    is a malformed state, a token for an absent key passes its check and the
    insertion it admits trips the index, and a traversal continued at a cursor
    leaves out one entry for every tombstone that was before the cursor. *)
Theorem map_image_strands m r fz f entries index :
  read (mc_heap m) r = Some (fz, image_map f entries index) →
  (∀ token slot, map_probe_parts token = Ok (ep_value (mi_epoch index), Some slot) →
    map_token_entry r token m = Ret (Err BAD_STATE, m)) ∧
  (∀ token key value semantic, map_probe_parts token = Ok (ep_value (mi_epoch index), None) →
    live_pairs entries ≠ [] → (lenN entries <= U32_MAX)%N → ep_value (mi_epoch index) ≠ U32_MAX →
    map_token_entry r token m = Ret (Ok None, m) ∧ insert_entry r key value semantic m = Panic) ∧
  ∀ cursor, (cursor <= lenN entries)%N →
    let mapped := λ p, (map_value f p.1, map_value f p.2) in
    let before := live_pairs (take (N.to_nat cursor) entries) in
    let restored := map_entry f <$> filter (λ e, me_is_live e = true) entries in
    live_pairs entries = before ++ traverse (S (length entries)) entries cursor ∧
    traverse (S (length entries)) restored cursor =
      drop (N.to_nat cursor - length before) (mapped <$> traverse (S (length entries)) entries cursor).
Proof.
  intros Hr. pose proof (map_reference _ _ _ _ _ Hr) as Hn.
  assert (Eg : ∀ B (g : Object → machine B), (heap_get r ≫= g) m = g (image_map f entries index) m).
  { intros B g. rewrite (mbind_ok _ _ m (image_map f entries index) m); [done|]. unfold heap_get, on_heap. by rewrite (read_get _ _ _ _ Hn Hr). }
  set (live := filter (λ e, me_is_live e = true) entries).
  assert (Hall : Forall (λ e, me_is_live e = true) (map_entry f <$> live)).
  { apply Forall_fmap, list.Forall_forall. intros e [He _]%list_elem_of_filter. simpl. by rewrite map_entry_live. }
  split_and!.
  - intros token slot Et. unfold map_token_entry, try_. rewrite Et, (mbind_ok _ _ m _ m) by done. cbv beta iota. rewrite Eg. simpl.
    by rewrite N.eqb_refl.
  - intros token key value semantic Et Hne Hl He. split.
    + unfold map_token_entry, try_. rewrite Et, (mbind_ok _ _ m _ m) by done. cbv beta iota. rewrite Eg. simpl. by rewrite N.eqb_refl.
    + unfold insert_entry. rewrite Eg. unfold image_map. cbv beta iota.
      assert (Hlen : (0 < lenN (map_entry f <$> live) <= U32_MAX)%N).
      { unfold lenN. rewrite length_fmap. pose proof (length_filter (λ e, me_is_live e = true) entries). fold live in H.
        unfold live_pairs in Hne. fold live in Hne. destruct live; [done|]. unfold lenN in Hl. simpl in *. lia. }
      fold live. unfold try_heap, push_entry, mbind, machine_bind. simpl. unfold epoch_bump, ensure_bumpable.
      rewrite (proj2 (N.eqb_neq _ U32_MAX) He). unfold push_live, index_insert. simpl. rewrite as_u32_small by lia.
      rewrite (proj2 (N.eqb_neq (lenN (map_entry f <$> live)) 0)) by lia. by destruct (ep_value (mi_epoch index) =? 0)%N.
  - intros cursor Hc mapped before restored. pose proof (length_filter (λ e, me_is_live e = true) entries) as Hlen.
    rewrite (traverse_spec entries) by lia. rewrite (traverse_spec restored) by (unfold restored, live; rewrite length_fmap; lia).
    split; [unfold before; by rewrite <-live_pairs_app, take_drop|].
    rewrite (live_pairs_all (drop _ restored)) by (apply Forall_drop; exact Hall).
    assert (Er : (λ e, (me_key e, me_value e)) <$> restored = mapped <$> live_pairs entries).
    { unfold restored, live_pairs. by rewrite <-!list_fmap_compose. }
    rewrite fmap_drop, Er. rewrite <-(take_drop (N.to_nat cursor) entries) at 1.
    rewrite live_pairs_app, fmap_app. fold before. rewrite drop_app, drop_ge, length_fmap; [done|]. rewrite length_fmap.
    unfold before, live_pairs. rewrite length_fmap. pose proof (length_filter (λ e, me_is_live e = true) (take (N.to_nat cursor) entries)) as Hl.
    rewrite length_take in Hl. lia.
Qed.
End theorems.

(** ** A map to witness them on *)

#[local] Existing Instance plain.
#[local] Existing Instance ample.
#[local] Existing Instance small_types.
#[local] Existing Instance no_frames.
#[local] Existing Instance small_text.
#[local] Existing Instance small_envs.

(** Two equal texts, and a map with a tombstone, a text key and an integer key,
    not indexed yet. *)
Definition demo_map : ObjRef := mkObjRef 1 0.
Definition demo_twin : ObjRef := mkObjRef 2 0.
Definition demo_entries : list MapEntry :=
  [tombstone; mkMapEntry (VObj demo_text) (VInt 1) (hash_of (KText [7; 10]%N)); mkMapEntry (VInt 5) (VInt 2) 5].
Definition demo_index : MapIndex := mkIndex 0 2 (mkEpoch 3) [].
Definition demo_dict : Dict := [(KText [7; 10]%N, (VObj demo_text, VInt 1)); (KInt 5, (VInt 5, VInt 2))].
Definition maps1 : Heap := (ret_or (demo_text, demo0) (alloc demo0 (str 7 10))).2.
Definition maps2 : Heap := (ret_or (demo_text, demo0) (alloc maps1 (OMap demo_entries demo_index))).2.
Definition maps_heap : Heap := (ret_or (demo_text, demo0) (alloc maps2 (str 7 10))).2.
Definition maps_machine (operands : list Value) : Machine :=
  mkMachine maps_heap scratch_default [demo_frame] [VUninit] operands 50 None [] [] None [] [] None None [] None tt
    (mkConfig 8 64 default_limits).

Lemma maps_steps : rtc heap_step demo0 maps_heap.
Proof.
  apply (rtc_l _ _ maps1); [apply (step_alloc demo0 (str 7 10) demo_text)|apply (rtc_l _ _ maps2)].
  - right; right. by_compute.
  - apply agrees_at. by_compute.
  - by_compute.
  - apply ret_or_pair; by_compute.
  - apply (step_alloc maps1 (OMap demo_entries demo_index) demo_map);
      [right; left; by_compute|done|by_compute|apply ret_or_pair; by_compute].
  - apply rtc_once, (step_alloc maps2 (str 7 10) demo_twin);
      [right; left; by_compute|apply agrees_at; by_compute|by_compute|apply ret_or_pair; by_compute].
Qed.
Lemma maps_ok operands : machine_ok (maps_machine operands).
Proof.
  split; [|apply scratch_default_ok]. apply (heap_steps_ok demo0 maps_heap maps_steps); [apply heap_new_ok|apply heap_new_exact].
Qed.

Lemma maps_holds : holds maps_heap demo_map false 3 demo_dict.
Proof.
  assert (Er : read maps_heap demo_map = Some (false, OMap demo_entries demo_index)) by by_compute.
  assert (Ek : key_of maps_heap (VObj demo_text) = Some (KText [7; 10]%N)) by by_compute.
  assert (Ec : contents maps_heap demo_entries = demo_dict) by by_compute.
  exists demo_entries, demo_index. split_and!; [|done|done]. constructor; [done|]. constructor.
  - constructor; [by intros ?|]. constructor; [intros _; by exists (KText [7; 10]%N)|]. constructor; [|constructor].
    intros _. by exists (KInt 5).
  - rewrite Ec. apply NoDup_cons. split; [by intros [=]%list_elem_of_singleton|apply NoDup_singleton].
  - by_compute.
  - by_compute.
  - by rewrite Ec.
  - exists []. split; [by apply index_empty|]. intros i e _ _ Hlt. simpl in Hlt. lia.
Qed.
Lemma maps_room : charge_room maps_heap.
Proof. by_compute. Qed.

Lemma map_refines_dict_witness :
  ∃ m1, exec_map_at (maps_machine [VObj demo_map; VObj demo_twin]) = push (VInt 1) m1 ∧ holds (mc_heap m1) demo_map false 3 demo_dict.
Proof.
  destruct (map_refines_dict (mkRoles 0 1 2) (maps_machine [VObj demo_map; VObj demo_twin]) demo_map false 3 demo_dict (maps_ok _) maps_holds maps_room)
    as (H & _ & _).
  destruct (H [] (VObj demo_twin) (KText [7; 10]%N) 0%N) as [(m1 & _ & Hh & _ & Ea & _) _]; [done|by_compute|].
  exists m1. split; [|exact Hh]. rewrite Ea. reflexivity.
Defined.





Definition image_heap : Heap := (ret_or (demo_text, demo0) (alloc maps_heap (image_map id demo_entries demo_index))).2.
Definition demo_image : ObjRef := mkObjRef 3 0.
Definition image_machine : Machine := set_heap (maps_machine []) image_heap scratch_default.

Lemma map_image_strands_witness :
  map_token_entry demo_image (3 * 2 ^ 32 + 1) image_machine = Ret (Err BAD_STATE, image_machine) ∧
  traverse 4 demo_entries 2 = [(VInt 5, VInt 2)] ∧
  traverse 4 (map_entry id <$> filter (λ e, me_is_live e = true) demo_entries) 2 = [].
Proof.
  destruct (map_image_strands image_machine demo_image false id demo_entries demo_index) as (Ht & _ & Hc); [by_compute|].
  split_and!; [apply (Ht _ 0%N); reflexivity|reflexivity|].
  destruct (Hc 2%N) as [_ E]; [by_compute|]. exact E.
Defined.
