(* ===== verification/ModuleTables.v ===== *)
(** * Module tables and the ABI bundle

    The decoded module of crates/lm-bytecode/src/lib.rs as the verifier reads
    it: classes, interfaces, conformances, functions, slots, imports, exports
    and bindings next to the types and instructions of [Bytecode]; the core
    roles of crates/lm-bytecode/src/corepin.rs; and, from crates/lm-abi, the
    manifest types, the operation slots and the lookups of an [AbiBundle]
    that decide when one effect-row name includes another. *)

From stdpp Require Import base numbers list strings gmap pretty.
From S2P Require Import Prelude Fault Codec Bytecode.

#[local] Open Scope nat_scope.

(** ** Decidable equality of the table entries *)

#[export] Instance BcRow_eq_dec : EqDecision BcRow.
Proof. solve_decision. Defined.
#[export] Instance BcType_eq_dec : EqDecision BcType.
Proof. solve_decision. Defined.
#[export] Instance BcInterfaceUse_eq_dec : EqDecision BcInterfaceUse.
Proof. solve_decision. Defined.
#[export] Instance ReflectionKind_eq_dec : EqDecision ReflectionKind.
Proof. solve_decision. Defined.

(** ** Classes, interfaces and functions *)

Definition NO_PARENT : N := U32_MAX.
Definition NO_FUNC : N := U32_MAX.

Inductive BcClassKind := Class_Normal | Class_Abstract | Class_Case.

#[export] Instance BcClassKind_eq_dec : EqDecision BcClassKind.
Proof. solve_decision. Defined.

Record BcClass := mkBcClass {
  cls_name : string;
  cls_key : string;
  cls_is_final : bool;
  cls_is_frozen : bool;
  cls_parent : N;
  cls_parent_args : list N;
  cls_type_params : N;
  cls_kind : BcClassKind;
  cls_fields : list (string * N);
  cls_methods : list (N * N);
  cls_field_defaults : list bool;
  cls_own_start : N;
  cls_has_init : bool;
}.

(** [BcClass::parent]. *)
Definition class_parent (c : BcClass) : option N :=
  if (cls_parent c =? NO_PARENT)%N then None else Some (cls_parent c).

Record BcAssociated := mkAssociated { asc_name : string; asc_bounds : list BcInterfaceUse }.

Record BcTypePremise := mkTypePremise { tp_subject : N; tp_bounds : list BcInterfaceUse }.

Record BcInterfaceMethod := mkInterfaceMethod {
  im_selector : N;
  im_mut_self : bool;
  im_type_params : N;
  im_type_bounds : list (list BcInterfaceUse);
  im_effect_params : N;
  im_premises : list BcTypePremise;
  im_params : list N;
  im_param_muts : list bool;
  im_param_names : list string;
  im_ret : N;
  im_row : list BcRow;
  im_default : N;
}.

Record BcInterface := mkInterface {
  if_name : string;
  if_key : string;
  if_type_params : N;
  if_effect_params : N;
  if_generic_is_effect : list bool;
  if_parents : list BcInterfaceUse;
  if_type_bounds : list (list BcInterfaceUse);
  if_associated : list BcAssociated;
  if_methods : list BcInterfaceMethod;
}.

Record BcConformancePremise := mkConformancePremise { cp_param : N; cp_bounds : list BcInterfaceUse }.

Record BcConformance := mkConformance {
  cf_class : N;
  cf_application : BcInterfaceUse;
  cf_premises : list BcConformancePremise;
  cf_associated : list N;
  cf_method_overrides : list bool;
}.

Inductive SlotTarget := Target_Function (f : N) | Target_Class (class constructor : N).

Record SlotSpec := mkSlotSpec {
  sl_binding : string;
  sl_late : bool;
  sl_key : list N;
  sl_contract_hash : list N;
  sl_contract : SlotContract;
  sl_initial : option SlotTarget;
}.

Record Func := mkFuncDef {
  func_name : string;
  func_type_params : N;
  func_effect_params : N;
  func_params : list N;
  func_param_muts : list bool;
  func_ret : N;
  func_row : list BcRow;
  func_captures : list N;
  func_local_types : list N;
  func_blocks : list (list Instr);
  func_param_names : list string;
}.

(** [Func::local_count]. *)
Definition local_count (f : Func) : N := as_u32 (lenN (func_local_types f)).

(** ** Imports, exports and bindings *)

Inductive ImportKind := Import_Class | Import_Ctor | Import_Method | Import_Func | Import_Constant.

#[export] Instance ImportKind_eq_dec : EqDecision ImportKind.
Proof. solve_decision. Defined.

(** [ImportKind::is_func]. *)
Definition import_is_func (k : ImportKind) : bool :=
  match k with Import_Ctor | Import_Method | Import_Func => true | _ => false end.

Record Import := mkImport {
  imp_module : string;
  imp_name : string;
  imp_kind : ImportKind;
  imp_def : N;
  imp_hash : list N;
}.

Inductive ExportKind :=
| Export_Function | Export_Class | Export_Enum | Export_EnumCase | Export_Interface | Export_Constant.

Inductive ConstValue :=
| Const_Unit
| Const_Bool (b : bool)
| Const_Int (z : Z)
| Const_Float (bits : N)
| Const_Char (c : N)
| Const_String (s : string)
| Const_Bytes (bytes : list N)
| Const_Tuple (items : list ConstValue).

Record Constant := mkConstant { con_ty : N; con_value : ConstValue }.

Record Export := mkExport {
  exp_kind : ExportKind;
  exp_name : string;
  exp_source : bool;
  exp_def : N;
  exp_ctor : N;
  exp_constant : option Constant;
}.

Record FuncBinding := mkBinding { bnd_key : string; bnd_func : N; bnd_class : N }.

Record ReflectionModule := mkReflectionModule { rm_name : string; rm_semantic_hash : list N }.

Record BcModule := mkBcModule {
  md_strings : list string;
  md_bytes : list (list N);
  md_types : list BcType;
  md_selectors : list string;
  md_apps : list TypeApp;
  md_interfaces : list BcInterface;
  md_conformances : list BcConformance;
  md_class_bounds : list (list (list BcInterfaceUse));
  md_func_bounds : list (list (list BcInterfaceUse));
  md_imports : list Import;
  md_slots : list SlotSpec;
  md_core_roles : list N;
  md_reflections : list ReflectionModule;
  md_classes : list BcClass;
  md_funcs : list Func;
  md_entry : N;
  md_exports : list Export;
  md_bindings : list FuncBinding;
  md_debug : list N;
}.

(** [Module::extern_funcs]: the functions an import declares. *)
Definition extern_funcs (m : BcModule) : list bool :=
  foldl (λ out import,
    if import_is_func (imp_kind import) && (imp_def import <? lenN out)%N
    then <[N.to_nat (imp_def import) := true]> out else out)
    (replicate (length (md_funcs m)) false) (md_imports m).

(** ** Packed instruction operands *)

Definition unpack_interface_call_site (site : N) : N * N := (N.shiftr site 16, N.land site 65535).

(** ** Core roles

    [CoreLayout] is a record of optional class indices and an array of the
    tuple classes by arity.  The roles the verifier reads are the
    constructors here, the record a function of the role. *)

Inductive CoreRole :=
| C_int | C_float | C_boolean | C_string | C_text | C_substring
| C_char_value | C_bytes | C_file_handle | C_string_builder | C_byte_buffer | C_path
| C_unit | C_option_some | C_option_none | C_option | C_result | C_io_error
| C_env_error | C_entropy_error | C_step_event | C_drive_event | C_recv | C_choice
| C_send_result | C_proc_error | C_proc_class | C_snapshot_error | C_restore_error | C_branch_error
| C_fs_error | C_open_options | C_seek_from | C_file_kind | C_file_info | C_dir_entry
| C_rename_mode | C_ip_address | C_socket_address | C_net_error | C_tcp_read | C_shutdown
| C_tcp_resource | C_tcp_stream | C_tcp_listener | C_tls_error | C_tls_stream | C_list
| C_map | C_artifact | C_verified_module | C_function_code | C_class_code | C_definition_source
| C_code_location | C_slot_spec | C_instance | C_slot | C_function_def | C_class_def
| C_function_binding | C_class_binding | C_definition_spec | C_slot_change | C_code_error | C_link_env
| C_compile_env | C_compile_options | C_compile_errors | C_dyn_value | C_syntax_tree | C_syntax_element
| C_syntax_node | C_syntax_token | C_syntax_trivia | C_syntax_builder | C_syntax_parse | C_std_stream
| C_tty_size | C_tty_error | C_raw_mode | C_signal_kind | C_signal_error | C_signal_stream
| C_pipe_error | C_pipe_end | C_pipe_reader | C_pipe_writer | C_child_input | C_child_output
| C_child_env | C_exec_spec | C_child_status | C_exec_error | C_child | C_udp_datagram
| C_udp_socket | C_regex | C_regex_match | C_module_code | C_declaration_code | C_member_code
| C_open_code | C_code_kind.
Record CoreLayout := mkCore { core : CoreRole → option N; core_tuples : list (option N) }.

(** ** Manifest types *)

Inductive AbiPrimitive :=
| AbiP_Unit | AbiP_Never | AbiP_Bool | AbiP_Int | AbiP_Float | AbiP_String
| AbiP_Bytes | AbiP_VmSnapshot | AbiP_Fault.
Inductive AbiCore :=
| AbiC_Text | AbiC_Substring | AbiC_Char | AbiC_StringBuilder | AbiC_ByteBuffer | AbiC_Path
| AbiC_OpenOptions | AbiC_SeekFrom | AbiC_FileKind | AbiC_FileInfo | AbiC_DirEntry | AbiC_RenameMode
| AbiC_IoError | AbiC_FsError | AbiC_EnvError | AbiC_EntropyError | AbiC_SnapshotError | AbiC_IpAddress
| AbiC_SocketAddress | AbiC_NetError | AbiC_TcpRead | AbiC_Shutdown | AbiC_TlsError | AbiC_Artifact
| AbiC_CompileEnv | AbiC_CompileOptions | AbiC_CompileErrors | AbiC_DynValue | AbiC_SyntaxTree | AbiC_SyntaxElement
| AbiC_SyntaxNode | AbiC_SyntaxToken | AbiC_SyntaxTrivia | AbiC_SyntaxBuilder | AbiC_SyntaxParse | AbiC_StdStream
| AbiC_TtySize | AbiC_TtyError | AbiC_SignalKind | AbiC_SignalError | AbiC_PipeError | AbiC_ChildInput
| AbiC_ChildOutput | AbiC_ChildEnv | AbiC_ExecSpec | AbiC_ChildStatus | AbiC_ExecError | AbiC_UdpDatagram
| AbiC_Regex | AbiC_RegexMatch.
Inductive AbiNative :=
| AbiN_FileHandle | AbiN_TcpResource | AbiN_TcpStream | AbiN_TcpListener | AbiN_TlsStream | AbiN_RawMode
| AbiN_SignalStream | AbiN_PipeEnd | AbiN_PipeReader | AbiN_PipeWriter | AbiN_Child | AbiN_UdpSocket.
Inductive AbiConstructor := AbiK_Option | AbiK_Result.

Inductive AbiType :=
| Abi_Primitive (p : AbiPrimitive)
| Abi_Core (c : AbiCore)
| Abi_Native (n : AbiNative)
| Abi_Var (i : N)
| Abi_List (e : AbiType)
| Abi_Map (k v : AbiType)
| Abi_Tuple (items : list AbiType)
| Abi_Apply (k : AbiConstructor) (args : list AbiType)
| Abi_Resource (identity : list N).

Definition primitive_text (p : AbiPrimitive) : string :=
  (match p with
  | AbiP_Unit => "()"
  | AbiP_Never => "Never"
  | AbiP_Bool => "Bool"
  | AbiP_Int => "Int"
  | AbiP_Float => "Float"
  | AbiP_String => "String"
  | AbiP_Bytes => "Bytes"
  | AbiP_VmSnapshot => "VmSnapshot"
  | AbiP_Fault => "Fault"
  end)%string.

Definition core_text (c : AbiCore) : string :=
  (match c with
  | AbiC_Text => "Text"
  | AbiC_Substring => "Substring"
  | AbiC_Char => "Char"
  | AbiC_StringBuilder => "StringBuilder"
  | AbiC_ByteBuffer => "ByteBuffer"
  | AbiC_Path => "Path"
  | AbiC_OpenOptions => "OpenOptions"
  | AbiC_SeekFrom => "SeekFrom"
  | AbiC_FileKind => "FileKind"
  | AbiC_FileInfo => "FileInfo"
  | AbiC_DirEntry => "DirEntry"
  | AbiC_RenameMode => "RenameMode"
  | AbiC_IoError => "IoError"
  | AbiC_FsError => "FsError"
  | AbiC_EnvError => "EnvError"
  | AbiC_EntropyError => "EntropyError"
  | AbiC_SnapshotError => "SnapshotError"
  | AbiC_IpAddress => "IpAddress"
  | AbiC_SocketAddress => "SocketAddress"
  | AbiC_NetError => "NetError"
  | AbiC_TcpRead => "TcpRead"
  | AbiC_Shutdown => "Shutdown"
  | AbiC_TlsError => "TlsError"
  | AbiC_Artifact => "Artifact"
  | AbiC_CompileEnv => "CompileEnv"
  | AbiC_CompileOptions => "CompileOptions"
  | AbiC_CompileErrors => "CompileErrors"
  | AbiC_DynValue => "DynValue"
  | AbiC_SyntaxTree => "SyntaxTree"
  | AbiC_SyntaxElement => "SyntaxElement"
  | AbiC_SyntaxNode => "SyntaxNode"
  | AbiC_SyntaxToken => "SyntaxToken"
  | AbiC_SyntaxTrivia => "SyntaxTrivia"
  | AbiC_SyntaxBuilder => "SyntaxBuilder"
  | AbiC_SyntaxParse => "SyntaxParse"
  | AbiC_StdStream => "StdStream"
  | AbiC_TtySize => "TtySize"
  | AbiC_TtyError => "TtyError"
  | AbiC_SignalKind => "SignalKind"
  | AbiC_SignalError => "SignalError"
  | AbiC_PipeError => "PipeError"
  | AbiC_ChildInput => "ChildInput"
  | AbiC_ChildOutput => "ChildOutput"
  | AbiC_ChildEnv => "ChildEnv"
  | AbiC_ExecSpec => "ExecSpec"
  | AbiC_ChildStatus => "ChildStatus"
  | AbiC_ExecError => "ExecError"
  | AbiC_UdpDatagram => "UdpDatagram"
  | AbiC_Regex => "Regex"
  | AbiC_RegexMatch => "RegexMatch"
  end)%string.

Definition native_text (n : AbiNative) : string :=
  (match n with
  | AbiN_FileHandle => "FileHandle"
  | AbiN_TcpResource => "TcpResource"
  | AbiN_TcpStream => "TcpStream"
  | AbiN_TcpListener => "TcpListener"
  | AbiN_TlsStream => "TlsStream"
  | AbiN_RawMode => "RawMode"
  | AbiN_SignalStream => "SignalStream"
  | AbiN_PipeEnd => "PipeEnd"
  | AbiN_PipeReader => "PipeReader"
  | AbiN_PipeWriter => "PipeWriter"
  | AbiN_Child => "Child"
  | AbiN_UdpSocket => "UdpSocket"
  end)%string.

Definition constructor_text (k : AbiConstructor) : string :=
  (match k with AbiK_Option => "Option" | AbiK_Result => "Result" end)%string.

Definition constructor_arity (k : AbiConstructor) : nat :=
  match k with AbiK_Option => 1 | AbiK_Result => 2 end.

Definition hex_digit (n : N) : string := String.substring (N.to_nat n) 1 "0123456789abcdef".

(** [AbiType::text]. *)
Fixpoint abi_text (t : AbiType) : string :=
  (match t with
   | Abi_Primitive p => primitive_text p
   | Abi_Core c => core_text c
   | Abi_Native n => native_text n
   | Abi_Var i => "$" +:+ pretty i
   | Abi_List e => "List[" +:+ abi_text e +:+ "]"
   | Abi_Map k v => "Map[" +:+ abi_text k +:+ ", " +:+ abi_text v +:+ "]"
   | Abi_Tuple items => "(" +:+ String.concat ", " (abi_text <$> items) +:+ ")"
   | Abi_Apply k args => constructor_text k +:+ "[" +:+ String.concat ", " (abi_text <$> args) +:+ "]"
   | Abi_Resource identity =>
       "HostResource[" +:+
       String.concat "" ((λ b, hex_digit (N.shiftr b 4) +:+ hex_digit (N.land b 15)) <$> identity) +:+ "]"
   end)%string.

(** ** Operation slots *)

Definition OP_VM_NEW : N := 7.
Definition OP_VM_ACTIVATE : N := 8.
Definition OP_VM_RUN : N := 9.
Definition OP_VM_STEP : N := 10.
Definition OP_VM_DRIVE : N := 11.
Definition OP_VM_ANSWER : N := 12.
Definition OP_VM_REJECT : N := 13.
Definition OP_VM_DISPATCH : N := 14.
Definition OP_VM_TABLE : N := 15.
Definition OP_PROC_RUN : N := 16.
Definition OP_PROC_SPAWN : N := 17.
Definition OP_PROC_SEND : N := 18.
Definition OP_PROC_CLOSE : N := 19.
Definition OP_PROC_RECV : N := 20.
Definition OP_PROC_DONE : N := 21.
Definition OP_PROC_PAUSE : N := 22.
Definition OP_PROC_RESUME : N := 23.
Definition OP_VM_SNAPSHOT_HELD : N := 24.
Definition OP_VM_SNAPSHOT_SELF : N := 25.
Definition OP_VM_LOAD_SNAPSHOT : N := 26.
Definition OP_VM_RESTORE : N := 27.
Definition OP_FS_OPEN : N := 28.
Definition OP_VM_HANDLES : N := 34.
Definition OP_VM_RESOURCE : N := 35.
Definition OP_VM_SERVE_FILE : N := 36.
Definition OP_VM_RESOURCE_IS_OPEN : N := 37.
Definition OP_VM_RESOURCE_CLOSE : N := 38.
Definition OP_VM_RESOURCE_KIND : N := 39.
Definition OP_PROC_SNAPSHOT_WAIT : N := 40.
Definition OP_VM_RESOURCE_SAME : N := 41.
Definition OP_VM_DRIVE_WAIT : N := 42.
Definition OP_PROC_RECV_WAIT : N := 43.
Definition OP_WAIT_WAIT : N := 44.
Definition OP_WAIT_CHOOSE : N := 45.
Definition OP_WAIT_CANCEL : N := 46.
Definition OP_VM_DRIVE_FOR : N := 47.
Definition OP_VM_SNAPSHOT_WAIT_HELD : N := 48.
Definition OP_TCP_CONNECT : N := 50.
Definition OP_TCP_LISTEN : N := 51.
Definition OP_TCP_ACCEPT : N := 52.
Definition OP_VM_SERVE_TCP_STREAM : N := 59.
Definition OP_VM_SERVE_TCP_LISTENER : N := 60.
Definition OP_TLS_HANDSHAKE : N := 61.
Definition OP_VM_SERVE_TLS_STREAM : N := 68.
Definition OP_VM_ARTIFACT : N := 70.
Definition OP_COMPILER_VERIFY : N := 71.
Definition OP_VM_INSTALL : N := 72.
Definition OP_VM_INSTANCE_ENTRY : N := 73.
Definition OP_VM_INSTANCE_FUNCTION : N := 74.
Definition OP_VM_INSTANCE_SLOT_FOR : N := 75.
Definition OP_VM_INSTANCE_SLOT_SPEC : N := 76.
Definition OP_VM_ACTIVATE_DEF : N := 77.
Definition OP_VM_REPLACE_FUNCTION : N := 78.
Definition OP_VM_INSTALL_WITH : N := 79.
Definition OP_VM_INSTANCE_CLASS : N := 83.
Definition OP_VM_REPLACE_CLASS : N := 84.
Definition OP_VM_REPLACE_VALUE : N := 85.
Definition OP_VM_REPLACE_PROCESS : N := 86.
Definition OP_VM_SNAPSHOT_VM : N := 87.
Definition OP_VM_RESTORE_VM : N := 88.
Definition OP_VM_ACTIVATE_OR_FAULT : N := 89.
Definition OP_VM_MODULE_ENTRY_CODE : N := 90.
Definition OP_VM_MODULE_FUNCTION_CODE : N := 91.
Definition OP_VM_MODULE_CLASS_CODE : N := 92.
Definition OP_VM_INSTANCE_ENTRY_BINDING : N := 93.
Definition OP_VM_INSTANCE_FUNCTION_BINDING : N := 94.
Definition OP_VM_INSTANCE_CLASS_BINDING : N := 95.
Definition OP_VM_BINDING_SLOT : N := 96.
Definition OP_VM_BINDING_SPEC : N := 97.
Definition OP_VM_BINDING_INSTANCE : N := 98.
Definition OP_VM_BINDING_FUNCTION_TARGET : N := 99.
Definition OP_VM_BINDING_CLASS_TARGET : N := 100.
Definition OP_VM_CHANGE_FUNCTION : N := 101.
Definition OP_VM_CHANGE_CLASS : N := 102.
Definition OP_VM_CHANGE_VALUE : N := 103.
Definition OP_VM_CHANGE_PROCESS : N := 104.
Definition OP_VM_REPLACE_ALL : N := 105.
Definition OP_VM_RUN_SNAPSHOT_BYTES : N := 106.
Definition OP_VM_SNAPSHOT_BYTES : N := 107.
Definition OP_TLS_SERVER_HANDSHAKE : N := 136.
Definition OP_PROC_RUN_CLOSURE : N := 142.
Definition OP_VM_BRANCH : N := 143.
Definition OP_WAIT_ANY : N := 144.
Definition OP_VM_BRANCH_ANSWER : N := 145.
Definition OP_VM_RESTORE_DYNAMIC : N := 146.
Definition OP_VM_STACK : N := 147.
Definition OP_VM_LINK : N := 148.

(** ** The ABI bundle *)

Inductive OpKind := Op_Fixed | Op_VmControl.
Inductive BoundaryMode := Mode_Copy | Mode_Move.

Record BundleOp := mkBundleOp {
  bo_name : string;
  bo_group : string;
  bo_member : string;
  bo_version : N;
  bo_kind : OpKind;
  bo_params : list AbiType;
  bo_reply : AbiType;
  bo_param_modes : list BoundaryMode;
  bo_reply_mode : BoundaryMode;
  bo_schema : string;
  bo_snapshot : SnapshotClass;
  bo_wait_source : bool;
}.

Record BundleGroup := mkBundleGroup { bg_name : string; bg_members : list string }.

(** The fields of [AbiBundle] that the lookups below read. *)
Record AbiBundle := mkAbiBundle {
  ab_operations : list BundleOp;
  ab_groups : list BundleGroup;
  ab_operation_slots : gmap string N;
  ab_group_slots : gmap string N;
  ab_group_bits : list (list bool);
}.

Section Bundle.
Context (b : AbiBundle).

Definition op_count : N := as_u32 (lenN (ab_operations b)).
Definition group_count : N := as_u32 (lenN (ab_groups b)).
Definition bundle_op (slot : N) : option BundleOp := ab_operations b !! N.to_nat slot.
Definition op_name (slot : N) : option string := bo_name <$> bundle_op slot.
Definition op_by_name (name : string) : option N := ab_operation_slots b !! name.
Definition group_by_name (name : string) : option N := ab_group_slots b !! name.
Definition group_name (slot : N) : option string := bg_name <$> ab_groups b !! N.to_nat slot.

(** The set bits of a row, in order. *)
Definition group_operations (group : N) : option (list N) :=
  (λ row, omap id (imap (λ i included, if (included : bool) then Some (N.of_nat i) else None) row))
    <$> ab_group_bits b !! N.to_nat group.

Definition row_name_operations (name : string) : option (list N) :=
  match op_by_name name with
  | Some operation => Some [operation]
  | None => group_by_name name ≫= group_operations
  end.

Definition row_name_included (name expected : string) : bool :=
  if bool_decide (name = expected) then true else
  match row_name_operations name with
  | None => false
  | Some actual =>
      match row_name_operations expected with
      | None => false
      | Some required =>
          negb (bool_decide (actual = [])) && negb (bool_decide (required = []))
          && forallb (λ o, bool_decide (o ∈ required)) actual
      end
  end.

End Bundle.
