(* ===== verification/VerifyCtx.v ===== *)
(** * The verification context (crates/lm-verify/src/ctx.rs, lib.rs)

    The extended type universe with its interned facts, the read-only tables
    of one module, and the checks every verifier rule shares: substitution,
    interface resolution, subtyping and the join at a control-flow merge.
    A call reads and extends the universe, so it runs in the monad [V]; the
    worklists of the source are loops with their own stack, [cx_fuel] rounds
    at most, and a loop that needs more answers [NoFuel]. *)

From stdpp Require Import base numbers list strings gmap sorting pretty.
From S2P Require Import Prelude Codec Bytecode ModuleTables.

#[local] Open Scope nat_scope.

(** The indices of the primitive types: every module's table begins with them. *)
Definition TYPE_UNIT : N := 0.
Definition TYPE_BOOL : N := 1.
Definition TYPE_INT : N := 2.
Definition TYPE_STR : N := 3.

Definition MAX_STATIC_STACK : N := 4096.

(** ** Errors *)

Record VerifyError := mkVerifyError { ve_func : option N; ve_message : string }.

Definition err (func : N) (message : string) : VerifyError := mkVerifyError (Some func) message.

(** ** Facts of one interned type *)

Record TypeFacts := mkFacts {
  tf_stores_callback : bool;
  tf_contains_projection : bool;
  tf_max_type_var : option N;
  tf_max_effect_var : option N;
}.

Definition facts_default : TypeFacts := mkFacts false false None None.

(** [Option::max]: [None] is below every [Some]. *)
Definition opt_max (a b : option N) : option N :=
  match a, b with
  | Some a, Some b => Some (N.max a b)
  | Some a, None => Some a
  | None, b => b
  end.

Definition facts_include (f other : TypeFacts) : TypeFacts :=
  mkFacts (tf_stores_callback f || tf_stores_callback other)
    (tf_contains_projection f || tf_contains_projection other)
    (opt_max (tf_max_type_var f) (tf_max_type_var other))
    (opt_max (tf_max_effect_var f) (tf_max_effect_var other)).

Definition include_type_facts (known : list TypeFacts) (f : TypeFacts) (child : N) : TypeFacts :=
  facts_include f (default facts_default (known !! N.to_nat child)).

Definition include_parameter_type_facts (known : list TypeFacts) (f : TypeFacts) (child : N) : TypeFacts :=
  match known !! N.to_nat child with
  | None => f
  | Some c =>
      mkFacts (tf_stores_callback f) (tf_contains_projection f || tf_contains_projection c)
        (opt_max (tf_max_type_var f) (tf_max_type_var c))
        (opt_max (tf_max_effect_var f) (tf_max_effect_var c))
  end.

Definition include_row_var (f : TypeFacts) (element : BcRow) : TypeFacts :=
  match element with
  | Row_Var var =>
      mkFacts (tf_stores_callback f) (tf_contains_projection f) (tf_max_type_var f)
        (opt_max (tf_max_effect_var f) (Some var))
  | _ => f
  end.

Definition type_facts (ty : BcType) (known : list TypeFacts) : TypeFacts :=
  match ty with
  | Ty_Callback params _ ret row =>
      let f := mkFacts true false None None in
      let f := foldl (include_type_facts known) f params in
      foldl include_row_var (include_type_facts known f ret) row
  | Ty_Fn params _ ret row =>
      let f := foldl (include_parameter_type_facts known) facts_default params in
      foldl include_row_var (include_type_facts known f ret) row
  | Ty_Inst _ args | Ty_Tuple args => foldl (include_type_facts known) facts_default args
  | Ty_List child | Ty_Run child | Ty_Wait child | Ty_RunSnapshot child =>
      include_type_facts known facts_default child
  | Ty_Projection base _ _ => include_type_facts known (mkFacts false true None None) base
  | Ty_Map a b | Ty_PendingCall a b | Ty_Handle a b =>
      include_type_facts known (include_type_facts known facts_default a) b
  | Ty_Op _ function => include_type_facts known facts_default function
  | Ty_Var var => mkFacts false false (Some var) None
  | _ => facts_default
  end.

(** ** The universe *)

Record Universe := mkUniverse {
  uni_types : list BcType;
  uni_index : list (BcType * N);
  uni_facts : list TypeFacts;
}.

(** [HashMap::get]; an insertion is in front of the entries it hides. *)
Fixpoint index_get (ix : list (BcType * N)) (ty : BcType) : option N :=
  match ix with
  | [] => None
  | (key, idx) :: ix => if bool_decide (key = ty) then Some idx else index_get ix ty
  end.

Definition universe_intern (u : Universe) (ty : BcType) : N * Universe :=
  match index_get (uni_index u) ty with
  | Some idx => (idx, u)
  | None =>
      let idx := as_u32 (lenN (uni_types u)) in
      (idx, mkUniverse (uni_types u ++ [ty]) ((ty, idx) :: uni_index u)
              (uni_facts u ++ [type_facts ty (uni_facts u)]))
  end.

(** The universe [verify_tables] starts from: the module's type table. *)
Definition universe_of (types : list BcType) : Universe :=
  mkUniverse types
    (reverse (imap (λ i ty, (ty, N.of_nat i)) types))
    (foldl (λ facts ty, facts ++ [type_facts ty facts]) [] types).

(** ** Calls on the universe *)

Definition V (E A : Type) : Type := Universe → exec (result (A * Universe) E).

#[export] Instance V_ret {E} : MRet (V E) := λ A a u, Ret (Ok (a, u)).
#[export] Instance V_bind {E} : MBind (V E) := λ A B f m u,
  match m u with
  | Ret (Ok (a, u)) => f a u
  | Ret (Err e) => Ret (Err e)
  | Panic => Panic
  | NoFuel => NoFuel
  end.

Definition vfail {E A} (e : E) : V E A := λ _, Ret (Err e).
Definition vpanic {E A} : V E A := λ _, Panic.
Definition vstop {E A} : V E A := λ _, NoFuel.
Definition vlift {E A} (x : exec A) : V E A := λ u, a ← x; Ret (Ok (a, u)).
(** [v[i]], [o.expect(..)]. *)
Definition vexpect {E A} (o : option A) : V E A := vlift (of_option o).
(** [o.ok_or_else(..)?]. *)
Definition vok_or {E A} (o : option A) (e : E) : V E A :=
  match o with Some a => mret a | None => vfail e end.
Definition vrequire {E} (b : bool) (e : E) : V E unit := if b then mret tt else vfail e.
Definition map_err {E E' A} (f : E → E') (m : V E A) : V E' A := λ u,
  match m u with
  | Ret (Ok x) => Ret (Ok x)
  | Ret (Err e) => Ret (Err (f e))
  | Panic => Panic
  | NoFuel => NoFuel
  end.

(** [Iterator::all], [::any], [::map] with [collect], [::find_map]. *)
Fixpoint allV {E A} (f : A → V E bool) (l : list A) : V E bool :=
  match l with
  | [] => mret true
  | x :: l => b ← f x; if (b : bool) then allV f l else mret false
  end.
Fixpoint anyV {E A} (f : A → V E bool) (l : list A) : V E bool :=
  match l with
  | [] => mret false
  | x :: l => b ← f x; if (b : bool) then mret true else anyV f l
  end.
Fixpoint mapV {E A B} (f : A → V E B) (l : list A) : V E (list B) :=
  match l with
  | [] => mret []
  | x :: l => y ← f x; ys ← mapV f l; mret (y :: ys)
  end.
Fixpoint find_mapV {E A B} (f : A → V E (option B)) (l : list A) : V E (option B) :=
  match l with
  | [] => mret None
  | x :: l => r ← f x; match r with Some y => mret (Some y) | None => find_mapV f l end
  end.
Definition andV {E} (a b : V E bool) : V E bool := x ← a; if (x : bool) then b else mret false.
Definition orV {E} (a b : V E bool) : V E bool := x ← a; if (x : bool) then mret true else b.
Definition notV {E} (a : V E bool) : V E bool := x ← a; mret (negb x).

Definition ty {E} (idx : N) : V E BcType := λ u,
  match uni_types u !! N.to_nat idx with Some t => Ret (Ok (t, u)) | None => Panic end.
Definition intern {E} (t : BcType) : V E N := λ u,
  let '(idx, u) := universe_intern u t in Ret (Ok (idx, u)).
(** [uni.index.get(&t).copied()] where a missing entry is refused. *)
Definition known {E} (t : BcType) (keep : N → bool) (e : E) : V E N := λ u,
  match index_get (uni_index u) t with
  | Some idx => if keep idx then Ret (Ok (idx, u)) else Ret (Err e)
  | None => Ret (Err e)
  end.
Definition fact {E} (idx : N) : V E (option TypeFacts) := λ u,
  Ret (Ok (uni_facts u !! N.to_nat idx, u)).

(** ** The module tables *)

Record IterableLayout := mkIterable {
  il_iterable : N;
  il_iterator : N;
  il_iterable_item : N;
  il_iterable_iter : N;
  il_iterator_item : N;
}.

Record Ctx := mkCtx {
  cx_module : BcModule;
  cx_bundle : AbiBundle;
  cx_class_ty : list (option N);
  cx_conformance_index : gmap (N * N) N;
  cx_constructor_classes : list (option N);
  cx_class_constructors : list (list N);
  cx_interface_defaults : list (option (N * N));
  cx_iterable_layout : option IterableLayout;
  cx_core : CoreLayout;
  cx_fuel : nat;
}.

(** One join step: a finished type, or the elements of two tuples. *)
Inductive Flat := Flat_Type (t : N) | Flat_Tuple (xs ys : list N).

(** ** Rows *)

Definition row_key (elem : BcRow) : N * N :=
  match elem with
  | Row_Op slot => (0, slot)
  | Row_Group slot => (1, slot)
  | Row_Var variable => (2, variable)
  end%N.

Definition key_lt (a b : N * N) : bool := (a.1 <? b.1)%N || ((a.1 =? b.1)%N && (a.2 <? b.2)%N).

Fixpoint row_canonical (row : list BcRow) : bool :=
  match row with
  | a :: (b :: _) as rest => key_lt (row_key a) (row_key b) && row_canonical rest
  | _ => true
  end.

(** [sort_unstable] and [dedup] under the derived order of [BcRow]. *)
Definition row_le (a b : BcRow) : Prop := key_lt (row_key b) (row_key a) = false.
#[export] Instance row_le_dec : RelDecision row_le := λ a b, decide (_ = false).
Fixpoint dedup (row : list BcRow) : list BcRow :=
  match row with
  | a :: (b :: _) as rest => if bool_decide (a = b) then dedup rest else a :: dedup rest
  | _ => row
  end.

Definition row_subst (row : list BcRow) (rows : list (list BcRow)) : list BcRow :=
  dedup (merge_sort row_le
    (row ≫= λ elem,
      match elem with
      | Row_Var v => default [elem] (rows !! N.to_nat v)
      | _ => [elem]
      end)).

Definition row_vars_bounded (row : list BcRow) (elimit : N) : bool :=
  forallb (λ e, match e with Row_Var v => (v <? elimit)%N | _ => true end) row.

(** ** Type shapes *)

Definition type_children (t : BcType) : list N :=
  match t with
  | Ty_Inst _ args | Ty_Tuple args => args
  | Ty_List e | Ty_Projection e _ _ | Ty_Run e | Ty_Wait e | Ty_RunSnapshot e | Ty_Op _ e => [e]
  | Ty_Map a b | Ty_PendingCall a b | Ty_Handle a b => [a; b]
  | Ty_Fn params _ ret _ | Ty_Callback params _ ret _ => params ++ [ret]
  | _ => []
  end.

Section Context_checks.
Context (cx : Ctx) {E : Type}.

Definition module : BcModule := cx_module cx.
Definition role (r : CoreRole) : option N := core (cx_core cx) r.
Definition is_role (class : N) (r : CoreRole) : bool := bool_decide (role r = Some class).

Definition class_at (class : N) : exec BcClass := of_option (md_classes module !! N.to_nat class).

Definition constructor_class (func : N) : option N :=
  mjoin (cx_constructor_classes cx !! N.to_nat func).

Definition direct_conformance (class interface : N) : option BcConformance :=
  cx_conformance_index cx !! (class, interface) ≫= λ index, md_conformances module !! N.to_nat index.

(** *** Rows under the bundle *)

Definition row_covers (name : string) (row : list BcRow) : bool :=
  existsb (λ elem,
    match elem with
    | Row_Op m => match op_name (cx_bundle cx) m with Some sup => row_name_included (cx_bundle cx) name sup | None => false end
    | Row_Group m => match group_name (cx_bundle cx) m with Some sup => row_name_included (cx_bundle cx) name sup | None => false end
    | Row_Var _ => false
    end) row.

Definition row_included (sub sup : list BcRow) : bool :=
  forallb (λ elem,
    match elem with
    | Row_Var v => bool_decide (Row_Var v ∈ sup)
    | Row_Op n => match op_name (cx_bundle cx) n with Some name => row_covers name sup | None => false end
    | Row_Group n => match group_name (cx_bundle cx) n with Some name => row_covers name sup | None => false end
    end) sub.

Definition row_has_name (row : list BcRow) (name : string) : bool := row_covers name row.

(** *** Nominal reads *)

Definition as_instance (idx : N) : V E (option (N * list N)) :=
  t ← ty idx;
  mret (match t with
        | Ty_Unit => (λ c, (c, [])) <$> role C_unit
        | Ty_Int => (λ c, (c, [])) <$> role C_int
        | Ty_Float => (λ c, (c, [])) <$> role C_float
        | Ty_Bool => (λ c, (c, [])) <$> role C_boolean
        | Ty_Str => (λ c, (c, [])) <$> role C_string
        | Ty_Bytes => (λ c, (c, [])) <$> role C_bytes
        | Ty_FileHandle => (λ c, (c, [])) <$> role C_file_handle
        | Ty_List element => (λ c, (c, [element])) <$> role C_list
        | Ty_Map key value => (λ c, (c, [key; value])) <$> role C_map
        | Ty_Tuple elements =>
            (λ c, (c, elements)) <$> mjoin (core_tuples (cx_core cx) !! length elements)
        | Ty_Class c => Some (c, [])
        | Ty_Inst c args => Some (c, args)
        | _ => None
        end).

(** The class arguments one parent link passes on. *)
Definition parent_link (class : BcClass) (parent : N) (args : list N) : exec (list N) :=
  match cls_parent_args class with
  | [] => p ← class_at parent; Ret (if (cls_type_params p =? 0)%N then [] else args)
  | parent_args => Ret parent_args
  end.

Fixpoint ancestor_loop (rounds : nat) (cur : N) (cur_args : list N) (ancestor : N) : exec (option (list N)) :=
  match rounds with
  | O => NoFuel
  | S rounds =>
      if (cur =? ancestor)%N then Ret (Some cur_args) else
      class ← class_at cur;
      match class_parent class with
      | None => Ret None
      | Some parent => args ← parent_link class parent cur_args; ancestor_loop rounds parent args ancestor
      end
  end.
Definition ancestor_args (child : N) (args : list N) (ancestor : N) : exec (option (list N)) :=
  ancestor_loop (cx_fuel cx) child args ancestor.

Fixpoint method_loop (rounds : nat) (class selector : N) : exec (option (N * N)) :=
  match rounds with
  | O => NoFuel
  | S rounds =>
      entry ← class_at class;
      match list_find (λ m, m.1 = selector) (cls_methods entry) with
      | Some (_, (_, function)) => Ret (Some (class, function))
      | None =>
          match class_parent entry with
          | None => Ret None
          | Some parent => method_loop rounds parent selector
          end
      end
  end.
Definition method_resolution (class selector : N) : exec (option (N * N)) :=
  method_loop (cx_fuel cx) class selector.
Definition method_owner (class selector : N) : exec (option N) :=
  fmap (M:=option) fst <$> method_resolution class selector.
Definition find_method (class selector : N) : exec (option N) :=
  fmap (M:=option) snd <$> method_resolution class selector.

(** [common_ancestor] and [common_applied_ancestor] walk the chain of [a]. *)
Fixpoint common_loop (rounds : nat) (ancestor : option N) (b : N) : exec (option N) :=
  match rounds with
  | O => NoFuel
  | S rounds =>
      match ancestor with
      | None => Ret None
      | Some class =>
          r ← ancestor_args b [] class;
          match r with
          | Some _ => Ret (Some class)
          | None => entry ← class_at class; common_loop rounds (class_parent entry) b
          end
      end
  end.
Definition common_ancestor (a b : N) : exec (option N) := common_loop (cx_fuel cx) (Some a) b.

Fixpoint applied_loop (rounds : nat) (ancestor : option N) (a : N) (a_args : list N) (b : N) (b_args : list N) :
    exec (option (N * list N)) :=
  match rounds with
  | O => NoFuel
  | S rounds =>
      match ancestor with
      | None => Ret None
      | Some class =>
          la ← ancestor_args a a_args class;
          match la with
          | None => Ret None
          | Some la =>
              lb ← ancestor_args b b_args class;
              if bool_decide (lb = Some la) then Ret (Some (class, la)) else
              entry ← class_at class;
              applied_loop rounds (class_parent entry) a a_args b b_args
          end
      end
  end.
Definition common_applied_ancestor (a : N) (a_args : list N) (b : N) (b_args : list N) :
    exec (option (N * list N)) :=
  applied_loop (cx_fuel cx) (Some a) a a_args b b_args.

Definition is_enum_class (class : N) : bool :=
  match md_classes module !! N.to_nat class with
  | Some c => match cls_kind c with Class_Abstract | Class_Case => true | Class_Normal => false end
  | None => false
  end.

Definition option_arg (idx : N) : V E (option N) :=
  inst ← as_instance idx;
  mret (match inst with
        | Some (class, [arg]) =>
            if is_role class C_option || is_role class C_option_some || is_role class C_option_none
            then Some arg else None
        | _ => None
        end).

(** *** Sealed and frozen classes *)

Definition native_roles : list CoreRole :=
  [C_int; C_float; C_boolean; C_string; C_substring; C_char_value; C_bytes; C_string_builder; C_byte_buffer;
   C_unit; C_list; C_map; C_tcp_resource; C_tcp_stream; C_tcp_listener; C_tls_stream; C_file_handle; C_artifact;
   C_verified_module; C_slot_spec; C_instance; C_slot; C_function_def; C_class_def; C_dyn_value; C_module_code;
   C_declaration_code; C_member_code; C_open_code].
Definition is_native_core_class (class : N) : bool :=
  existsb (is_role class) native_roles
  || existsb (λ c, bool_decide (c = Some class)) (core_tuples (cx_core cx)).

Definition is_reflection_descriptor_class (class : N) : bool :=
  existsb (is_role class) [C_module_code; C_declaration_code; C_member_code; C_open_code].

Definition is_named_code_class (class : N) : bool :=
  existsb (is_role class) [C_verified_module; C_module_code; C_declaration_code; C_member_code].

Definition class_always_frozen (class : N) : bool :=
  match md_classes module !! N.to_nat class with Some c => cls_is_frozen c | None => false end
  || existsb (is_role class)
       [C_unit; C_int; C_float; C_boolean; C_text; C_string; C_substring; C_char_value; C_bytes].

(** [levels] is what remains of the 128 levels. *)
Fixpoint type_always_frozen_inner (levels : nat) (idx : N) (allow_var : bool) : V E bool :=
  match levels with
  | O => mret false
  | S levels =>
      t ← ty idx;
      match t with
      | Ty_Unit | Ty_Bool | Ty_Int | Ty_Float | Ty_Str | Ty_Bytes | Ty_Digest | Ty_Fault | Ty_Op _ _ => mret true
      | Ty_Var _ => mret allow_var
      | Ty_Tuple items => allV (λ item, type_always_frozen_inner levels item allow_var) items
      | Ty_Class class => mret (class_always_frozen class)
      | Ty_Inst class args =>
          if class_always_frozen class
          then allV (λ arg, type_always_frozen_inner levels arg allow_var) args else mret false
      | _ => mret false
      end
  end.
Definition type_always_frozen (idx : N) (allow_var : bool) : V E bool :=
  type_always_frozen_inner 128 idx allow_var.

Definition hashable_interface : option N :=
  (λ r, N.of_nat r.1) <$> list_find (λ i, if_key i = "core.Hashable"%string) (md_interfaces module).

Definition native_map_key (idx : N) : V E bool :=
  t ← ty idx;
  mret (match t with
        | Ty_Bool | Ty_Int | Ty_Float | Ty_Str | Ty_Bytes => true
        | Ty_Class class | Ty_Inst class _ =>
            existsb (is_role class) [C_text; C_string; C_substring; C_char_value; C_bytes]
        | _ => false
        end).

Definition is_heap (idx : N) : V E bool :=
  t ← ty idx;
  mret (match t with
        | Ty_Class class => negb (is_role class C_char_value)
        | Ty_Str | Ty_Inst _ _ | Ty_List _ | Ty_Map _ _ | Ty_Tuple _ | Ty_Fn _ _ _ _ | Ty_Digest | Ty_Fault
        | Ty_Request | Ty_PolicyTable | Ty_Vm | Ty_Run _ | Ty_Wait _ | Ty_PendingCall _ _ | Ty_Handle _ _
        | Ty_VmSnapshot | Ty_RunSnapshot _ | Ty_Bytes | Ty_FileHandle | Ty_ResourceHandle | Ty_HostResource => true
        | _ => false
        end).

Definition var_below (var : option N) (limit : N) : bool :=
  match var with Some v => (v <? limit)%N | None => true end.

Definition vars_bounded (idx limit elimit : N) : V E bool :=
  f ← fact idx;
  mret (match f with
        | None => false
        | Some f => var_below (tf_max_type_var f) limit && var_below (tf_max_effect_var f) elimit
        end).

End Context_checks.
