(* ===== verification/VerifySub.v ===== *)
(** * Substitution, interfaces, subtyping and joins (crates/lm-verify/src/ctx.rs)

    The recursive checks of the verification context.  Substitution resolves
    projections, a projection needs a conformance, a conformance proves its
    premises by further applications: the source's mutual recursion is one
    [Fixpoint] whose first argument bounds its depth and the length of its
    loops together.  Subtyping and the join of two types keep the worklists
    of the source, a visited set and an answer table. *)

From stdpp Require Import base numbers list strings gmap pretty.
From S2P Require Import Prelude Codec Bytecode ModuleTables VerifyCtx.

#[local] Open Scope nat_scope.

Section Resolution.
Context (cx : Ctx) {E : Type}.

Definition bounds_table : Type := list (list BcInterfaceUse).

(** The core [Iterable] item behind an iterator projection. *)
Definition iterable_item_alias (base interface assoc : N) : V E (option (N * N * N)) :=
  match cx_iterable_layout cx with
  | None => mret None
  | Some layout =>
      if negb ((interface =? il_iterator layout)%N && (assoc =? il_iterator_item layout)%N) then mret None else
      t ← ty base;
      mret (match t with
            | Ty_Projection source owner iter_assoc =>
                if negb ((owner =? il_iterable layout)%N && (iter_assoc =? il_iterable_iter layout)%N) then None
                else Some (source, il_iterable layout, il_iterable_item layout)
            | _ => None
            end)
  end.

Fixpoint subst_with_bounds (n : nat) (idx : N) (targs : list N) (rows : list (list BcRow))
    (bounds : bounds_table) : V E N :=
  match n with
  | O => vstop
  | S n =>
      match targs, rows, bounds with
      | [], [], [] => mret idx
      | _, _, _ => done ← subst_loop n targs rows bounds [(idx, false)] ∅; mret (default idx (done !! idx))
      end
  end
with subst_loop (n : nat) (targs : list N) (rows : list (list BcRow)) (bounds : bounds_table)
    (stack : list (N * bool)) (done : gmap N N) : V E (gmap N N) :=
  match n with
  | O => vstop
  | S n =>
      match stack with
      | [] => mret done
      | (cur, expanded) :: stack =>
          match done !! cur with
          | Some _ => subst_loop n targs rows bounds stack done
          | None =>
              t ← ty cur;
              if negb expanded then
                subst_loop n targs rows bounds
                  (reverse ((λ c, (c, false)) <$> type_children t) ++ (cur, true) :: stack) done
              else
                built ← subst_node n t cur targs rows bounds done;
                subst_loop n targs rows bounds stack (<[cur:=built]> done)
          end
      end
  end
with subst_node (n : nat) (t : BcType) (cur : N) (targs : list N) (rows : list (list BcRow))
    (bounds : bounds_table) (done : gmap N N) : V E N :=
  match n with
  | O => vstop
  | S n =>
      let child c := default c (done !! c) in
      match t with
      | Ty_Var i => mret (default cur (targs !! N.to_nat i))
      | Ty_Projection base interface assoc =>
          r ← projected_type_with_bounds n (child base) interface assoc bounds;
          match r with
          | Some x => mret x
          | None => intern (Ty_Projection (child base) interface assoc)
          end
      | Ty_Inst c args => intern (Ty_Inst c (child <$> args))
      | Ty_List e => intern (Ty_List (child e))
      | Ty_Map k v => intern (Ty_Map (child k) (child v))
      | Ty_Tuple elems => intern (Ty_Tuple (child <$> elems))
      | Ty_Fn params muts ret row => intern (Ty_Fn (child <$> params) muts (child ret) (row_subst row rows))
      | Ty_Callback params muts ret row =>
          intern (Ty_Callback (child <$> params) muts (child ret) (row_subst row rows))
      | Ty_Run t => intern (Ty_Run (child t))
      | Ty_Wait t => intern (Ty_Wait (child t))
      | Ty_RunSnapshot t => intern (Ty_RunSnapshot (child t))
      | Ty_PendingCall a r => intern (Ty_PendingCall (child a) (child r))
      | Ty_Handle m r => intern (Ty_Handle (child m) (child r))
      | _ => mret cur
      end
  end
with projected_type_with_bounds (n : nat) (base interface assoc : N) (bounds : bounds_table) : V E (option N) :=
  match n with
  | O => vstop
  | S n =>
      alias ← iterable_item_alias base interface assoc;
      match alias with
      | Some (source, iterable, item) =>
          r ← projected_type_with_bounds n source iterable item bounds;
          match r with
          | Some x => mret (Some x)
          | None => x ← intern (Ty_Projection source iterable item); mret (Some x)
          end
      | None =>
          r ← concrete_conformance_with_bounds n base interface bounds 0;
          match r with
          | None => mret None
          | Some (conformance, args) =>
              match cf_associated conformance !! N.to_nat assoc with
              | None => mret None
              | Some template => x ← subst_with_bounds n template args [] []; mret (Some x)
              end
          end
      end
  end
with concrete_conformance_with_bounds (n : nat) (idx interface : N) (bounds : bounds_table) (depth : nat) :
    V E (option (BcConformance * list N)) :=
  match n with
  | O => vstop
  | S n =>
      if 128 <=? depth then mret None else
      inst ← as_instance cx idx;
      match inst with
      | None => mret None
      | Some (class, args) => conformance_loop n class args interface bounds depth
      end
  end
with conformance_loop (n : nat) (class : N) (args : list N) (interface : N) (bounds : bounds_table) (depth : nat) :
    V E (option (BcConformance * list N)) :=
  match n with
  | O => vstop
  | S n =>
      satisfied ←
        match direct_conformance cx class interface with
        | None => mret None
        | Some conformance =>
            ok ← allV (λ premise,
              match args !! N.to_nat (cp_param premise) with
              | None => mret false
              | Some actual =>
                  allV (λ bound,
                    required ← subst_interface_use_with_bounds n bound args [] [];
                    found ← interface_application_with_bounds n actual (use_interface required) bounds (S depth);
                    mret (bool_decide (found = Some required))) (cp_bounds premise)
              end) (cf_premises conformance);
            mret (if (ok : bool) then Some conformance else None)
        end;
      match satisfied with
      | Some conformance => mret (Some (conformance, args))
      | None =>
          entry ← vlift (class_at cx class);
          match class_parent entry with
          | None => mret None
          | Some parent =>
              args ←
                match cls_parent_args entry with
                | [] => p ← vlift (class_at cx parent); mret (if (cls_type_params p =? 0)%N then [] else args)
                | parent_args => mapV (λ item, subst_with_bounds n item args [] []) parent_args
                end;
              conformance_loop n parent args interface bounds depth
          end
      end
  end
with interface_application_with_bounds (n : nat) (idx interface : N) (bounds : bounds_table) (depth : nat) :
    V E (option BcInterfaceUse) :=
  match n with
  | O => vstop
  | S n =>
      if 128 <=? depth then mret None else
      t ← ty idx;
      match t with
      | Ty_Var index =>
          match bounds !! N.to_nat index with
          | None => mret None
          | Some applications =>
              find_mapV (λ application, inherited_interface_application n idx application interface (S depth)) applications
          end
      | Ty_Projection base owner assoc =>
          r ← interface_application_with_bounds n base owner bounds (S depth);
          match r with
          | None => mret None
          | Some owner_application =>
              match md_interfaces (module cx) !! N.to_nat owner ≫= λ i, if_associated i !! N.to_nat assoc with
              | None => mret None
              | Some associated =>
                  find_mapV (λ bound,
                    application ← subst_interface_use_with_bounds n bound
                      (base :: use_types owner_application) (use_rows owner_application) [];
                    inherited_interface_application n idx application interface (S depth)) (asc_bounds associated)
              end
          end
      | _ =>
          r ← concrete_conformance_with_bounds n idx interface bounds depth;
          match r with
          | None => mret None
          | Some (conformance, args) =>
              x ← subst_interface_use_with_bounds n (cf_application conformance) args [] []; mret (Some x)
          end
      end
  end
with inherited_interface_application (n : nat) (receiver : N) (application : BcInterfaceUse) (interface : N)
    (depth : nat) : V E (option BcInterfaceUse) :=
  match n with
  | O => vstop
  | S n =>
      if 128 <=? depth then mret None else
      if (use_interface application =? interface)%N then mret (Some application) else
      match md_interfaces (module cx) !! N.to_nat (use_interface application) with
      | None => mret None
      | Some contract =>
          find_mapV (λ parent,
            parent ← subst_interface_use_with_bounds n parent (receiver :: use_types application) (use_rows application) [];
            inherited_interface_application n receiver parent interface (S depth)) (if_parents contract)
      end
  end
with subst_interface_use_with_bounds (n : nat) (application : BcInterfaceUse) (types : list N)
    (rows : list (list BcRow)) (bounds : bounds_table) : V E BcInterfaceUse :=
  match n with
  | O => vstop
  | S n =>
      ts ← mapV (λ item, subst_with_bounds n item types rows bounds) (use_types application);
      mret (mkInterfaceUse (use_interface application) ts ((λ item, row_subst item rows) <$> use_rows application))
  end.

(** *** Entry points, with the context's fuel *)

Definition subst (idx : N) (targs : list N) (rows : list (list BcRow)) : V E N :=
  subst_with_bounds (cx_fuel cx) idx targs rows [].

Definition subst_interface_use (application : BcInterfaceUse) (types : list N) (rows : list (list BcRow)) :
    V E BcInterfaceUse :=
  subst_interface_use_with_bounds (cx_fuel cx) application types rows [].

Definition applied_within (idx interface : N) (bounds : bounds_table) : V E (option BcInterfaceUse) :=
  interface_application_with_bounds (cx_fuel cx) idx interface bounds 0.

(** The premises of an interface default come before the bound table. *)
Definition default_bound (func idx interface : N) : exec (option BcInterfaceUse) :=
  match mjoin (cx_interface_defaults cx !! N.to_nat func) with
  | None => Ret None
  | Some (owner, method) =>
      contract ← of_option (md_interfaces (module cx) !! N.to_nat owner);
      method ← of_option (if_methods contract !! N.to_nat method);
      Ret (match list_find (λ p, tp_subject p = idx) (im_premises method) with
           | None => None
           | Some (_, premise) => snd <$> list_find (λ b, use_interface b = interface) (tp_bounds premise)
           end)
  end.

Definition interface_application (func idx interface : N) : V E (option BcInterfaceUse) :=
  found ← vlift (default_bound func idx interface);
  match found with
  | Some bound => mret (Some bound)
  | None =>
      match md_func_bounds (module cx) !! N.to_nat func with
      | None => mret None
      | Some bounds => applied_within idx interface bounds
      end
  end.

Definition hashable_map_key (func idx : N) : V E bool :=
  match hashable_interface cx with
  | None => mret false
  | Some interface => r ← interface_application func idx interface; mret (bool_decide (is_Some r))
  end.

(** Every bound of every argument, each resolved by [lookup]. *)
Definition meet_bounds (lookup : N → N → V E (option BcInterfaceUse)) (actual_types : list N)
    (required_bounds : bounds_table) (types : list N) (rows : list (list BcRow)) : V E bool :=
  if negb (length actual_types =? length required_bounds) then mret false else
  allV (λ '(actual, bounds),
    allV (λ bound,
      required ← subst_interface_use bound types rows;
      found ← lookup actual (use_interface required);
      mret (bool_decide (found = Some required))) bounds) (zip actual_types required_bounds).

Definition type_arguments_meet_bounds (actual_types : list N) (actual_rows : list (list BcRow))
    (required_bounds scope_bounds : bounds_table) (scope_func : option N) : V E bool :=
  meet_bounds (λ actual interface,
      match scope_func with
      | Some func => interface_application func actual interface
      | None => applied_within actual interface scope_bounds
      end) actual_types required_bounds actual_types actual_rows.

Definition method_arguments_meet_bounds (actual_types : list N) (actual_rows : list (list BcRow))
    (required_bounds : bounds_table) (prefix_types : list N) (prefix_rows : list (list BcRow)) (scope_func : N) :
    V E bool :=
  meet_bounds (interface_application scope_func) actual_types required_bounds
    (prefix_types ++ actual_types) (prefix_rows ++ actual_rows).

Fixpoint projections_loop (n : nat) (stack : list N) (bounds : bounds_table) : V E bool :=
  match n with
  | O => vstop
  | S n =>
      match stack with
      | [] => mret true
      | current :: stack =>
          t ← ty current;
          ok ← match t with
               | Ty_Projection base interface _ =>
                   r ← applied_within base interface bounds; mret (bool_decide (is_Some r))
               | _ => mret true
               end;
          if (ok : bool) then projections_loop n (reverse (type_children t) ++ stack) bounds else mret false
      end
  end.

Definition projections_proven (idx : N) (bounds : bounds_table) : V E bool :=
  f ← fact idx;
  match f with
  | Some f => if tf_contains_projection f then projections_loop (cx_fuel cx) [idx] bounds else mret true
  | None => mret true
  end.

(** *** Subtyping *)

Definition muts_fit (fm em : list bool) : bool := forallb (λ '(f, e), negb f || e) (zip fm em).

(** One pair of the worklist: [None] refuses it, [Some more] adds pairs. *)
Definition fn_pairs (fp : list N) (fm : list bool) (fr : N) (frow : list BcRow)
    (ep : list N) (em : list bool) (er : N) (erow : list BcRow) : option (list (N * N)) :=
  if negb (length fp =? length ep) || negb (muts_fit fm em) || negb (row_included cx frow erow) then None
  else Some (zip ep fp ++ [(fr, er)]).

Definition nominal (a : N) (xs : list N) (b : N) (ys : list N) : V E (option (list (N * N))) :=
  r ← vlift (ancestor_args cx a xs b); mret (if bool_decide (r = Some ys) then Some [] else None).

Definition sub_pair (f e : N) : V E (option (list (N * N))) :=
  fi ← as_instance cx f; ei ← as_instance cx e;
  match fi, ei with
  | Some (a, xs), Some (b, ys) => nominal a xs b ys
  | _, _ =>
      tf ← ty f; te ← ty e;
      match tf, te with
      | Ty_Class a, Ty_Class b => nominal a [] b []
      | Ty_Class a, Ty_Inst b ys => nominal a [] b ys
      | Ty_Inst a xs, Ty_Class b => nominal a xs b []
      | Ty_Inst a xs, Ty_Inst b ys => nominal a xs b ys
      | Ty_Tuple xs, Ty_Tuple ys =>
          mret (if negb (length xs =? length ys) then None else Some (zip xs ys))
      | Ty_Fn fp fm fr frow, Ty_Fn ep em er erow => mret (fn_pairs fp fm fr frow ep em er erow)
      | Ty_Callback fp fm fr frow, Ty_Callback ep em er erow => mret (fn_pairs fp fm fr frow ep em er erow)
      | _, _ => mret None
      end
  end.

(** The worklist pops from its end; its head here is the source's last entry. *)
Fixpoint sub_loop (n : nat) (work : list (N * N)) (seen : gset (N * N)) : V E bool :=
  match n with
  | O => vstop
  | S n =>
      match work with
      | [] => mret true
      | (f, e) :: work =>
          if (f =? e)%N || bool_decide ((f, e) ∈ seen) then sub_loop n work seen else
          r ← sub_pair f e;
          match r with
          | None => mret false
          | Some more => sub_loop n (reverse more ++ work) ({[ (f, e) ]} ∪ seen)
          end
      end
  end.

Definition is_subtype (found expected : N) : V E bool := sub_loop (cx_fuel cx) [(found, expected)] ∅.

Definition is_text (text idx : N) : V E bool :=
  inst ← as_instance cx idx;
  match inst with
  | None => mret false
  | Some (class, args) => r ← vlift (ancestor_args cx class args text); mret (bool_decide (r = Some []))
  end.

Definition accepts_map_lookup_key (found expected : N) : V E bool :=
  orV (is_subtype found expected)
    (match role cx C_text with
     | None => mret false
     | Some text => andV (is_text text found) (is_text text expected)
     end).

(** *** Joins *)

Definition nominal_type (common : N) (args : list N) : V E BcType :=
  entry ← vlift (class_at cx common);
  mret (if (cls_type_params entry =? 0)%N then
          if is_role cx common C_int then Ty_Int
          else if is_role cx common C_float then Ty_Float
          else if is_role cx common C_boolean then Ty_Bool
          else if is_role cx common C_string then Ty_Str
          else if is_role cx common C_bytes then Ty_Bytes
          else Ty_Class common
        else Ty_Inst common args).

Definition join_flat (a b : N) : V E (option Flat) :=
  ta ← ty a; tb ← ty b;
  match ta, tb with
  | Ty_Tuple xs, Ty_Tuple ys =>
      mret (if negb (length xs =? length ys) then None else Some (Flat_Tuple xs ys))
  | _, _ =>
      ab ← is_subtype a b;
      if (ab : bool) then mret (Some (Flat_Type b)) else
      ba ← is_subtype b a;
      if (ba : bool) then mret (Some (Flat_Type a)) else
      ia ← as_instance cx a;
      match ia with
      | None => mret None
      | Some (ca, xs) =>
          ib ← as_instance cx b;
          match ib with
          | None => mret None
          | Some (cb, ys) =>
              common ← vlift (common_applied_ancestor cx ca xs cb ys);
              match common with
              | None => mret None
              | Some (common, args) =>
                  t ← nominal_type common args; idx ← intern t; mret (Some (Flat_Type idx))
              end
          end
      end
  end.

Abbreviation answers := (gmap (N * N) N).

(** The elements of a tuple pair once each of them has an answer. *)
Definition joined_elems (done : answers) (pairs : list (N * N)) : option (list N) :=
  mapM (λ pair, done !! pair) pairs.

Fixpoint join_loop (n : nat) (stack : list (N * N * bool)) (done : answers) : V E (option answers) :=
  match n with
  | O => vstop
  | S n =>
      match stack with
      | [] => mret (Some done)
      | (x, y, expanded) :: stack =>
          if bool_decide (is_Some (done !! (x, y))) then join_loop n stack done else
          if negb expanded then
            r ← join_flat x y;
            match r with
            | None => mret None
            | Some (Flat_Type idx) => join_loop n stack (<[(x, y) := idx]> done)
            | Some (Flat_Tuple xs ys) =>
                join_loop n
                  (((λ p, (p, false)) <$> filter (λ p, done !! p = None) (zip xs ys)) ++ (x, y, true) :: stack) done
            end
          else
            tx ← ty x; tuple_y ← ty y;
            match tx, tuple_y with
            | Ty_Tuple xs, Ty_Tuple ys =>
                match joined_elems done (zip xs ys) with
                | None => mret None
                | Some elems =>
                    if negb (length elems =? length xs) then mret None else
                    idx ← intern (Ty_Tuple elems); join_loop n stack (<[(x, y) := idx]> done)
                end
            | _, _ => mret None
            end
      end
  end.

Definition join (a b : N) : V E (option N) :=
  done ← join_loop (cx_fuel cx) [(a, b, false)] ∅;
  mret (done ≫= λ done, done !! (a, b)).

End Resolution.

(** ** Manifest types *)

Section Manifest.
Context (cx : Ctx).

Definition carry (what : string) : string :=
  ("the module does not carry the pinned core " +:+ what +:+ " definition")%string.

Definition plain_inst (parent : option N) (what : string) : V string N :=
  match parent with
  | None => vfail (carry what)
  | Some parent => intern (Ty_Class parent)
  end.

Definition result_inst (ok error : N) : V string N :=
  match role cx C_result with
  | None => vfail (carry "Result")
  | Some family => intern (Ty_Inst family [ok; error])
  end.

Definition event_inst (parent : option N) (what : string) (arg : N) : V string N :=
  match parent with
  | None => vfail (carry what)
  | Some parent => intern (Ty_Inst parent [arg])
  end.

Definition proc_mailbox {E} (idx : N) : V E (option N) :=
  match role cx C_proc_class with
  | None => mret None
  | Some proc =>
      inst ← as_instance cx idx;
      match inst with
      | None => mret None
      | Some (class, args) => found ← vlift (ancestor_args cx class args proc); mret (found ≫= head)
      end
  end.

Definition abi_core_role (c : AbiCore) : CoreRole * string :=
  (match c with
  | AbiC_Text => (C_text, "Text")
  | AbiC_Substring => (C_substring, "Substring")
  | AbiC_Char => (C_char_value, "Char")
  | AbiC_StringBuilder => (C_string_builder, "StringBuilder")
  | AbiC_ByteBuffer => (C_byte_buffer, "ByteBuffer")
  | AbiC_Path => (C_path, "Path")
  | AbiC_OpenOptions => (C_open_options, "OpenOptions")
  | AbiC_SeekFrom => (C_seek_from, "SeekFrom")
  | AbiC_FileKind => (C_file_kind, "FileKind")
  | AbiC_FileInfo => (C_file_info, "FileInfo")
  | AbiC_DirEntry => (C_dir_entry, "DirEntry")
  | AbiC_RenameMode => (C_rename_mode, "RenameMode")
  | AbiC_IoError => (C_io_error, "IoError")
  | AbiC_FsError => (C_fs_error, "FsError")
  | AbiC_EnvError => (C_env_error, "EnvError")
  | AbiC_EntropyError => (C_entropy_error, "EntropyError")
  | AbiC_SnapshotError => (C_snapshot_error, "SnapshotError")
  | AbiC_IpAddress => (C_ip_address, "IpAddress")
  | AbiC_SocketAddress => (C_socket_address, "SocketAddress")
  | AbiC_NetError => (C_net_error, "NetError")
  | AbiC_TcpRead => (C_tcp_read, "TcpRead")
  | AbiC_Shutdown => (C_shutdown, "Shutdown")
  | AbiC_TlsError => (C_tls_error, "TlsError")
  | AbiC_Artifact => (C_artifact, "Artifact")
  | AbiC_CompileEnv => (C_compile_env, "CompileEnv")
  | AbiC_CompileOptions => (C_compile_options, "CompileOptions")
  | AbiC_CompileErrors => (C_compile_errors, "CompileErrors")
  | AbiC_DynValue => (C_dyn_value, "DynValue")
  | AbiC_SyntaxTree => (C_syntax_tree, "SyntaxTree")
  | AbiC_SyntaxElement => (C_syntax_element, "SyntaxElement")
  | AbiC_SyntaxNode => (C_syntax_node, "SyntaxNode")
  | AbiC_SyntaxToken => (C_syntax_token, "SyntaxToken")
  | AbiC_SyntaxTrivia => (C_syntax_trivia, "SyntaxTrivia")
  | AbiC_SyntaxBuilder => (C_syntax_builder, "SyntaxBuilder")
  | AbiC_SyntaxParse => (C_syntax_parse, "SyntaxParse")
  | AbiC_StdStream => (C_std_stream, "StdStream")
  | AbiC_TtySize => (C_tty_size, "TtySize")
  | AbiC_TtyError => (C_tty_error, "TtyError")
  | AbiC_SignalKind => (C_signal_kind, "SignalKind")
  | AbiC_SignalError => (C_signal_error, "SignalError")
  | AbiC_PipeError => (C_pipe_error, "PipeError")
  | AbiC_ChildInput => (C_child_input, "ChildInput")
  | AbiC_ChildOutput => (C_child_output, "ChildOutput")
  | AbiC_ChildEnv => (C_child_env, "ChildEnv")
  | AbiC_ExecSpec => (C_exec_spec, "ExecSpec")
  | AbiC_ChildStatus => (C_child_status, "ChildStatus")
  | AbiC_ExecError => (C_exec_error, "ExecError")
  | AbiC_UdpDatagram => (C_udp_datagram, "UdpDatagram")
  | AbiC_Regex => (C_regex, "Regex")
  | AbiC_RegexMatch => (C_regex_match, "RegexMatch")
  end)%string.

Definition abi_native_role (n : AbiNative) : option (CoreRole * string) :=
  (match n with
  | AbiN_FileHandle => None
  | AbiN_TcpResource => Some (C_tcp_resource, "TcpResource")
  | AbiN_TcpStream => Some (C_tcp_stream, "TcpStream")
  | AbiN_TcpListener => Some (C_tcp_listener, "TcpListener")
  | AbiN_TlsStream => Some (C_tls_stream, "TlsStream")
  | AbiN_RawMode => Some (C_raw_mode, "RawMode")
  | AbiN_SignalStream => Some (C_signal_stream, "SignalStream")
  | AbiN_PipeEnd => Some (C_pipe_end, "PipeEnd")
  | AbiN_PipeReader => Some (C_pipe_reader, "PipeReader")
  | AbiN_PipeWriter => Some (C_pipe_writer, "PipeWriter")
  | AbiN_Child => Some (C_child, "Child")
  | AbiN_UdpSocket => Some (C_udp_socket, "UdpSocket")
  end)%string.

Fixpoint abi_ty (t : AbiType) : V string N :=
  match t with
  | Abi_Primitive p =>
      match p with
      | AbiP_Unit => mret TYPE_UNIT
      | AbiP_Never => vfail "Never has no runtime value"%string
      | AbiP_Bool => mret TYPE_BOOL
      | AbiP_Int => mret TYPE_INT
      | AbiP_Float => intern Ty_Float
      | AbiP_String => mret TYPE_STR
      | AbiP_Bytes => intern Ty_Bytes
      | AbiP_VmSnapshot => intern Ty_VmSnapshot
      | AbiP_Fault => intern Ty_Fault
      end
  | Abi_Core c => let '(slot, name) := abi_core_role c in plain_inst (role cx slot) name
  | Abi_Native n =>
      match abi_native_role n with
      | None => intern Ty_FileHandle
      | Some (slot, name) => plain_inst (role cx slot) name
      end
  | Abi_Var index => vfail ("the fixed ABI type names generic parameter " +:+ pretty index)%string
  | Abi_List element => e ← abi_ty element; intern (Ty_List e)
  | Abi_Map key value => k ← abi_ty key; v ← abi_ty value; intern (Ty_Map k v)
  | Abi_Tuple elements => types ← mapV abi_ty elements; intern (Ty_Tuple types)
  | Abi_Apply constructor arguments =>
      if negb (length arguments =? constructor_arity constructor)
      then vfail ("the ABI type " +:+ abi_text t +:+ " has the wrong generic arity")%string else
      class ← vok_or (match constructor with AbiK_Option => role cx C_option | AbiK_Result => role cx C_result end)
        (carry (constructor_text constructor));
      types ← mapV abi_ty arguments; intern (Ty_Inst class types)
  | Abi_Resource _ => intern Ty_HostResource
  end.

Definition bundle_slot (op : N) : V string BundleOp :=
  vok_or (bundle_op (cx_bundle cx) op) ("operation slot " +:+ pretty op +:+ " is outside the ABI bundle")%string.

Definition fixed_sig_type (op : N) : V string N :=
  def ← bundle_slot op;
  params ← mapV abi_ty (bo_params def);
  ret ← abi_ty (bo_reply def);
  intern (Ty_Fn params (replicate (length params) false) ret []).

Definition op_args_view (op : N) : V string N :=
  def ← bundle_slot op;
  match bo_params def with
  | [] => mret TYPE_UNIT
  | params => elems ← mapV abi_ty params; intern (Ty_Tuple elems)
  end.

End Manifest.
