(* ===== verification/VerifyStep.v ===== *)
(** * The transfer function of the verifier (crates/lm-verify/src/step.rs)

    The abstract state of one program point and the rules of the value,
    numeric and native-text instructions.  [st_stack] and [st_scopes] list the
    source's vectors from their last entry.  A rule runs in [T], which threads
    the state over the calls of [V] and refuses with the source's message. *)

From stdpp Require Import base numbers list strings gmap pretty.
From S2P Require Import Prelude Value Codec Bytecode ModuleTables VerifyCtx VerifySub.

#[local] Open Scope nat_scope.

(** ** States *)

(** [VerifiedBlockState]. *)
Record State := mkState {
  st_locals : list (option N);
  st_stack : list N;
  st_scopes : list N;
}.

#[export] Instance State_eq_dec : EqDecision State.
Proof. solve_decision. Defined.

Definition with_stack (s : State) (stack : list N) : State := mkState (st_locals s) stack (st_scopes s).
Definition with_locals (s : State) (locals : list (option N)) : State := mkState locals (st_stack s) (st_scopes s).
Definition with_scopes (s : State) (scopes : list N) : State := mkState (st_locals s) (st_stack s) scopes.

Definition T (A : Type) : Type := State → V VerifyError (A * State).

#[export] Instance T_ret : MRet T := λ A a s, mret (a, s).
#[export] Instance T_bind : MBind T := λ A B f m s, '(a, s) ← m s; f a s.

Definition run {A} (m : V VerifyError A) : T A := λ s, a ← m; mret (a, s).
Definition reads {A} (f : State → A) : T A := λ s, mret (f s, s).
Definition writes (f : State → State) : T unit := λ s, mret (tt, f s).
Definition ty_of (idx : N) : T BcType := run (ty idx).

(** [for x in l { f(x)? }]. *)
Fixpoint each {A} (f : A → T unit) (l : list A) : T unit :=
  match l with
  | [] => mret tt
  | x :: l => _ ← f x; each f l
  end.
(** [for _ in 0..n { x? }]. *)
Fixpoint times (n : nat) (x : T unit) : T unit :=
  match n with
  | O => mret tt
  | S n => _ ← x; times n x
  end.

(** The active generic scope: the innermost refinement's metadata function. *)
Record Scope := mkScope { sc_index : N; sc_func : Func; sc_bounds : bounds_table }.

Section Rules.
Context (cx : Ctx) (func : Func) (fidx bidx iidx : N).

Definition fail (what : string) : VerifyError :=
  err fidx ("block " +:+ pretty bidx +:+ ", instruction " +:+ pretty iidx +:+ ": " +:+ what)%string.

Definition refuse {A} (what : string) : T A := run (vfail (fail what)).
Definition require (b : bool) (what : string) : T unit := if b then mret tt else refuse what.
Definition need {A} (o : option A) (what : string) : T A :=
  match o with Some a => mret a | None => refuse what end.
(** [x.map_err(&fail)?]. *)
Definition abi {A} (m : V string A) : T A := run (map_err fail m).
Definition plain (r : CoreRole) (what : string) : T N := abi (plain_inst (role cx r) what).
Definition newty (t : BcType) : T N := run (intern t).
Definition sub (a b : N) : T bool := run (is_subtype cx a b).
Definition instance (idx : N) : T (option (N * list N)) := run (as_instance cx idx).

Definition pop : T N := λ s,
  match st_stack s with
  | [] => vfail (fail "pop from an empty stack")
  | t :: stack => mret (t, with_stack s stack)
  end.

Definition pop_expect (want : N) : T N :=
  t ← pop; ok ← sub t want;
  if (ok : bool) then mret t
  else refuse ("expected type " +:+ pretty want +:+ " on the stack, found type " +:+ pretty t)%string.

Definition push (t : N) : T unit := λ s,
  if (MAX_STATIC_STACK <=? lenN (st_stack s))%N then vfail (fail "static stack depth limit exceeded")
  else mret (tt, with_stack s (t :: st_stack s)).

Definition expects (want : N) : T unit := _ ← pop_expect want; mret tt.
Definition pop_args (params : list N) : T unit := each expects (reverse params).

Definition as_list (idx : N) : T N :=
  t ← ty_of idx;
  match t with
  | Ty_List e => mret e
  | _ => refuse ("expected a list type, found type " +:+ pretty idx)%string
  end.

Definition as_map (idx : N) : T (N * N) :=
  t ← ty_of idx;
  match t with
  | Ty_Map k v => mret (k, v)
  | _ => refuse ("expected a map type, found type " +:+ pretty idx)%string
  end.

Definition native_key (idx : N) : T unit :=
  ok ← run (native_map_key cx idx); require ok "a native map instruction needs a native key type".

Definition charge_row (row : list BcRow) : T unit :=
  require (row_included cx row (func_row func)) "the callee row is not inside the caller's declared row".

Definition in_scope (sc : Scope) (idx : N) : V VerifyError bool :=
  andV (vars_bounded idx (func_type_params (sc_func sc)) (func_effect_params (sc_func sc)))
    (projections_proven cx idx (sc_bounds sc)).

Definition check_application_scope (sc : Scope) (app : TypeApp) : T unit :=
  types ← run (allV (in_scope sc) (app_types app));
  require (types && forallb (λ row, row_vars_bounded row (func_effect_params (sc_func sc))) (app_rows app))
    "a type application uses a variable outside the active scope".

Definition hashable_map (sc : Scope) (map : N) : T (N * N) :=
  '(key, value) ← as_map map;
  ok ← run (hashable_map_key cx (sc_index sc) key);
  _ ← require ok "an interface-backed map instruction needs a Hashable key type";
  mret (key, value).

Definition scope_of (s : State) : V VerifyError Scope :=
  let scope := default fidx (head (st_scopes s)) in
  scope_func ← vok_or (md_funcs (module cx) !! N.to_nat scope)
    (fail "the active reflection scope names no metadata function");
  scope_bounds ← vok_or (md_func_bounds (module cx) !! N.to_nat scope)
    (fail "the active reflection scope has no bound table");
  mret (mkScope scope scope_func scope_bounds).

(** The types of the operands and of the initialized locals, in order. *)
Definition live_types (s : State) : list N := reverse (st_stack s) ++ omap id (st_locals s).

Definition check_live (sc : Scope) (s : State) : V VerifyError unit :=
  ok ← allV (in_scope sc) (live_types s);
  vrequire ok (fail "a live value uses a type outside the active scope").

(** The type one application instantiates, and a class slot's role. *)
Definition app_at (app : N) : T TypeApp := run (vexpect (md_apps (module cx) !! N.to_nat app)).
Definition func_at (f : N) : T Func := run (vexpect (md_funcs (module cx) !! N.to_nat f)).
Definition func_bounds_at (f : N) : T bounds_table := run (vexpect (md_func_bounds (module cx) !! N.to_nat f)).
Definition class_of (class : N) : T BcClass := run (vlift (class_at cx class)).

(** *** Common rule shapes *)

Definition int1 (answer : N) : T unit := _ ← pop_expect TYPE_INT; push answer.
Definition int2 (answer : N) : T unit := _ ← pop_expect TYPE_INT; _ ← pop_expect TYPE_INT; push answer.
Definition bool2 : T unit := _ ← pop_expect TYPE_BOOL; _ ← pop_expect TYPE_BOOL; push TYPE_BOOL.
Definition unary (operand answer : N) : T unit := _ ← pop_expect operand; push answer.
Definition binary (operand answer : N) : T unit := _ ← pop_expect operand; _ ← pop_expect operand; push answer.

Definition text_ty : T N := plain C_text "Text".
Definition char_ty : T N := plain C_char_value "Char".
Definition substring_ty : T N := plain C_substring "Substring".
Definition regex_ty : T N := plain C_regex "Regex".
Definition match_ty : T N := plain C_regex_match "RegexMatch".
Definition builder_ty : T N :=
  class ← need (role cx C_string_builder) "StringBuilder needs its core role"; newty (Ty_Class class).
Definition buffer_ty : T N :=
  class ← need (role cx C_byte_buffer) "ByteBuffer needs its core role"; newty (Ty_Class class).

(** [if ctx.ty(x) != want { return Err(..) }]. *)
Definition is_type (idx : N) (want : BcType) (what : string) : T unit :=
  t ← ty_of idx; require (bool_decide (t = want)) what.
Definition pop_bytes (what : string) : T N :=
  b ← pop; _ ← is_type b Ty_Bytes (what +:+ " on non-bytes type " +:+ pretty b)%string; mret b.
Definition two_bytes (what : string) : T N :=
  r ← pop; l ← pop; tl ← ty_of l;
  ok ← (if bool_decide (tl = Ty_Bytes) then tr ← ty_of r; mret (bool_decide (tr = Ty_Bytes)) else mret false);
  _ ← require ok what; mret l.

(** *** Numeric instructions *)

Definition step_numeric (instruction : NumericInstr) : T unit :=
  float ← newty Ty_Float; bytes ← newty Ty_Bytes;
  match instruction with
  | Num_IntBitAnd | Num_IntBitOr | Num_IntBitXor | Num_IntShl | Num_IntShr | Num_IntUshr | Num_IntWrappingAdd
  | Num_IntWrappingSub | Num_IntWrappingMul | Num_IntRotateLeft | Num_IntRotateRight | Num_IntRotateLeft32
  | Num_IntRotateRight32 => int2 TYPE_INT
  | Num_IntBitNot | Num_IntCountOnes | Num_IntLeadingZeros | Num_IntTrailingZeros | Num_IntSignum => int1 TYPE_INT
  | Num_IntToFloat => int1 float
  | Num_FloatNeg | Num_FloatAbs | Num_FloatSqrt | Num_FloatFloor | Num_FloatCeil | Num_FloatRound | Num_FloatTrunc
  | Num_FloatExp | Num_FloatExp2 | Num_FloatExpM1 | Num_FloatLn | Num_FloatLog2 | Num_FloatLog10 | Num_FloatLn1P
  | Num_FloatCbrt | Num_FloatSin | Num_FloatCos | Num_FloatTan | Num_FloatAsin | Num_FloatAcos | Num_FloatAtan
  | Num_FloatSinh | Num_FloatCosh | Num_FloatTanh | Num_FloatAsinh | Num_FloatAcosh | Num_FloatAtanh => unary float float
  | Num_FloatAdd | Num_FloatSub | Num_FloatMul | Num_FloatDiv | Num_FloatRem | Num_FloatCopySign | Num_FloatPow
  | Num_FloatHypot | Num_FloatAtan2 => binary float float
  | Num_FloatMulAdd => _ ← pop_expect float; binary float float
  | Num_FloatMin | Num_FloatMax => binary float float
  | Num_FloatEq | Num_FloatNe | Num_FloatLt | Num_FloatLe | Num_FloatGt | Num_FloatGe => binary float TYPE_BOOL
  | Num_FloatIsNan | Num_FloatIsFinite | Num_FloatIsInfinite => unary float TYPE_BOOL
  | Num_FloatHash | Num_FloatBits | Num_FloatToIntStatus | Num_FloatToIntValue => unary float TYPE_INT
  | Num_FloatFromBits => int1 float
  | Num_TextParseFloatStatus => text ← text_ty; unary text TYPE_INT
  | Num_TextParseFloatValue => text ← text_ty; unary text float
  | Num_FloatFixed => _ ← pop_expect TYPE_INT; unary float TYPE_STR
  | Num_SbAppendFloat => _ ← pop_expect float; builder ← builder_ty; unary builder builder
  | Num_BytesBitAnd | Num_BytesBitOr | Num_BytesBitXor => binary bytes bytes
  | Num_BytesBitNot => unary bytes bytes
  end.

(** *** Native instructions *)

Definition step_native (instr : NativeInstr) : T unit :=
  match instr with
  | Nat_HashCombine | Nat_HashUnorderedCombine => int2 TYPE_INT
  | Nat_EqStr | Nat_NeStr => text ← text_ty; binary text TYPE_BOOL
  | Nat_StrByteLen | Nat_StrCharCount | Nat_TextHash => text ← text_ty; unary text TYPE_INT
  | Nat_StrConcat => text ← text_ty; binary text TYPE_STR
  | Nat_StrStartsWith | Nat_StrEndsWith | Nat_StrContains => text ← text_ty; binary text TYPE_BOOL
  | Nat_StrFindIndex | Nat_TextFindByteIndex => text ← text_ty; binary text TYPE_INT
  | Nat_TextLt | Nat_TextLe | Nat_TextGt | Nat_TextGe => text ← text_ty; binary text TYPE_BOOL
  | Nat_TextAt | Nat_TextAtByte =>
      _ ← pop_expect TYPE_INT; text ← text_ty; _ ← pop_expect text; value ← char_ty; push value
  | Nat_TextSlice | Nat_TextSliceBytes =>
      _ ← pop_expect TYPE_INT; _ ← pop_expect TYPE_INT; text ← text_ty; _ ← pop_expect text;
      value ← substring_ty; push value
  | Nat_TextIsBoundary => _ ← pop_expect TYPE_INT; text ← text_ty; unary text TYPE_BOOL
  | Nat_TextBytes => text ← text_ty; _ ← pop_expect text; bytes ← newty Ty_Bytes; push bytes
  | Nat_TextTrim | Nat_TextTrimStart | Nat_TextTrimEnd =>
      text ← text_ty; _ ← pop_expect text; value ← substring_ty; push value
  | Nat_TextToLowerAscii | Nat_TextToUpperAscii => text ← text_ty; unary text TYPE_STR
  | Nat_TextReplace => text ← text_ty; _ ← pop_expect text; binary text TYPE_STR
  | Nat_TextParseIntStatus | Nat_TextParseIntValue => _ ← pop_expect TYPE_INT; text ← text_ty; unary text TYPE_INT
  | Nat_TextPadStart | Nat_TextPadEnd => _ ← pop_expect TYPE_INT; text ← text_ty; unary text TYPE_STR
  | Nat_TextSplit =>
      text ← text_ty; _ ← pop_expect text; _ ← pop_expect text;
      piece ← substring_ty; list ← newty (Ty_List piece); push list
  | Nat_TextLines =>
      text ← text_ty; _ ← pop_expect text; piece ← substring_ty; list ← newty (Ty_List piece); push list
  | Nat_BytesEndsWith | Nat_BytesContains => bytes ← newty Ty_Bytes; binary bytes TYPE_BOOL
  | Nat_TextToString => text ← text_ty; unary text TYPE_STR
  | Nat_CharCodepoint | Nat_CharUtf8Len => value ← char_ty; unary value TYPE_INT
  | Nat_EqChar | Nat_NeChar | Nat_LtChar | Nat_LeChar | Nat_GtChar | Nat_GeChar =>
      value ← char_ty; binary value TYPE_BOOL
  | Nat_RegexCompileStatus => text ← text_ty; unary text TYPE_INT
  | Nat_RegexCompileValue => text ← text_ty; _ ← pop_expect text; regex ← regex_ty; push regex
  | Nat_RegexSource => regex ← regex_ty; unary regex TYPE_STR
  | Nat_RegexIsMatch => text ← text_ty; regex ← regex_ty; _ ← pop_expect text; unary regex TYPE_BOOL
  | Nat_RegexCount => text ← text_ty; regex ← regex_ty; _ ← pop_expect text; unary regex TYPE_INT
  | Nat_RegexSplit =>
      text ← text_ty; regex ← regex_ty; _ ← pop_expect text; _ ← pop_expect regex;
      piece ← substring_ty; list ← newty (Ty_List piece); push list
  | Nat_RegexReplaceAll =>
      text ← text_ty; regex ← regex_ty; _ ← pop_expect text; _ ← pop_expect text; unary regex TYPE_STR
  | Nat_RegexMatchStart | Nat_RegexMatchEnd | Nat_RegexMatchGroupCount => matched ← match_ty; unary matched TYPE_INT
  | Nat_RegexMatchText => matched ← match_ty; unary matched TYPE_STR
  | Nat_SbNew => builder ← builder_ty; push builder
  | Nat_SbAppendStr =>
      want ← text_ty; _ ← pop_expect want; builder ← builder_ty; sb ← pop_expect builder; push sb
  | Nat_SbAppendInt => _ ← pop_expect TYPE_INT; builder ← builder_ty; sb ← pop_expect builder; push sb
  | Nat_SbAppendBool => _ ← pop_expect TYPE_BOOL; builder ← builder_ty; sb ← pop_expect builder; push sb
  | Nat_SbAppendChar =>
      want ← char_ty; _ ← pop_expect want; builder ← builder_ty; sb ← pop_expect builder; push sb
  | Nat_SbBuild | Nat_SbFinish => builder ← builder_ty; unary builder TYPE_STR
  | Nat_SbLen | Nat_SbByteLen => builder ← builder_ty; unary builder TYPE_INT
  | Nat_SbClear => builder ← builder_ty; unary builder builder
  | Nat_BbNew => buffer ← buffer_ty; push buffer
  | Nat_BbAppend => _ ← pop_expect TYPE_INT; buffer ← buffer_ty; bb ← pop_expect buffer; push bb
  | Nat_BbLen | Nat_BbCapacity => buffer ← buffer_ty; unary buffer TYPE_INT
  | Nat_BbBuild | Nat_BbFinish => buffer ← buffer_ty; _ ← pop_expect buffer; bytes ← newty Ty_Bytes; push bytes
  | Nat_BbExtend => bytes ← newty Ty_Bytes; _ ← pop_expect bytes; buffer ← buffer_ty; unary buffer buffer
  | Nat_BbReserve | Nat_BbTruncate => _ ← pop_expect TYPE_INT; buffer ← buffer_ty; unary buffer buffer
  | Nat_BbSet => _ ← pop_expect TYPE_INT; _ ← pop_expect TYPE_INT; buffer ← buffer_ty; unary buffer buffer
  | Nat_BbClear => buffer ← buffer_ty; unary buffer buffer
  | Nat_BbAt => _ ← pop_expect TYPE_INT; buffer ← buffer_ty; unary buffer TYPE_INT
  | Nat_BbFindFrom =>
      _ ← pop_expect TYPE_INT; bytes ← newty Ty_Bytes; _ ← pop_expect bytes; buffer ← buffer_ty; unary buffer TYPE_INT
  | Nat_BytesNew =>
      _ ← pop_expect TYPE_STR;
      idx ← run (known Ty_Bytes (λ _, true) (fail "Bytes is not in the type table")); push idx
  | Nat_BytesLen => _ ← pop_bytes "len"; push TYPE_INT
  | Nat_BytesHash => _ ← pop_bytes "hash"; push TYPE_INT
  | Nat_BytesText => _ ← pop_bytes "text"; push TYPE_STR
  | Nat_BytesTextRange => _ ← pop_expect TYPE_INT; _ ← pop_expect TYPE_INT; _ ← pop_bytes "text range"; push TYPE_STR
  | Nat_BytesTextView => _ ← pop_bytes "text view"; view ← substring_ty; push view
  | Nat_BytesAt | Nat_BytesGet | Nat_BytesReadU32Be | Nat_BytesReadU32Le =>
      _ ← pop_expect TYPE_INT; _ ← pop_bytes "index"; push TYPE_INT
  | Nat_BytesSlice => _ ← pop_expect TYPE_INT; _ ← pop_expect TYPE_INT; b ← pop_bytes "slice"; push b
  | Nat_BytesConcat => l ← two_bytes "concat needs two Bytes values"; push l
  | Nat_BytesStartsWith => _ ← two_bytes "starts_with needs two Bytes values"; push TYPE_BOOL
  | Nat_BytesFindIndex => _ ← two_bytes "find needs two Bytes values"; push TYPE_INT
  | Nat_BytesHex => _ ← pop_bytes "hex"; push TYPE_STR
  | Nat_BytesIsUtf8 => _ ← pop_bytes "UTF-8 test"; push TYPE_BOOL
  | Nat_EqBytes | Nat_NeBytes | Nat_LtBytes | Nat_LeBytes | Nat_GtBytes | Nat_GeBytes =>
      _ ← two_bytes "Bytes comparison needs two Bytes values"; push TYPE_BOOL
  | Nat_BytesCompact => b ← pop_bytes "compact"; push b
  end.

End Rules.
