(* ===== verification/VerifyPerform.v ===== *)
(** * The effect rules of the verifier (crates/lm-verify/src/step.rs)

    [Perform] with the built-in rule of every VM-control slot, the perform
    through an operation value, prepared waits, policy-table edits and the
    typed call views. *)

From stdpp Require Import base numbers list strings gmap pretty.
From S2P Require Import Prelude Value Codec Bytecode ModuleTables VerifyCtx VerifySub VerifyStep.

#[local] Open Scope nat_scope.

Section Effects.
Context (cx : Ctx) (func : Func) (fidx bidx iidx : N).

#[local] Abbreviation refuse := (refuse fidx bidx iidx).
#[local] Abbreviation require := (require fidx bidx iidx).
#[local] Abbreviation need := (need fidx bidx iidx).
#[local] Abbreviation abi := (abi fidx bidx iidx).
#[local] Abbreviation plain := (plain cx fidx bidx iidx).
#[local] Abbreviation pop := (pop fidx bidx iidx).
#[local] Abbreviation push := (push fidx bidx iidx).
#[local] Abbreviation pop_expect := (pop_expect cx fidx bidx iidx).
#[local] Abbreviation pop_args := (pop_args cx fidx bidx iidx).
#[local] Abbreviation is_type := (is_type fidx bidx iidx).
#[local] Abbreviation sub := (sub cx).

Definition quoted (name what : string) : string := ("`" +:+ name +:+ "` " +:+ what)%string.

(** Equality with the pushed type, never subtyping. *)
Definition check_reply_ty (reply_ty : N) : T unit :=
  stack ← reads st_stack;
  match stack with
  | [] => refuse "a perform pushed no reply"
  | pushed :: _ =>
      _ ← require (reply_ty <? lenN (md_types (module cx)))%N
            ("the perform states reply type " +:+ pretty reply_ty +:+ ", which the module has not")%string;
      require (pushed =? reply_ty)%N
        ("the perform states reply type " +:+ pretty reply_ty +:+ " and the program point proves " +:+ pretty pushed)%string
  end.

Definition is_fn (idx : N) : T bool :=
  t ← ty_of idx; mret (match t with Ty_Fn _ _ _ _ => true | _ => false end).

Definition opt_class (r : CoreRole) : T (option N) :=
  match role cx r with
  | None => mret None
  | Some class => idx ← newty (Ty_Class class); mret (Some idx)
  end.

Definition pop_run (name : string) : T N :=
  v ← pop; t ← ty_of v;
  match t with
  | Ty_Run t => mret t
  | _ => refuse (quoted name ("needs an active Run receiver, found type " +:+ pretty v))%string
  end.

Definition expect_vm : T unit := vm ← newty Ty_Vm; _ ← pop_expect vm; mret tt.
Definition code_error : T N := plain C_code_error "CodeError".
Definition result_of (ok error : N) : T N := abi (result_inst cx ok error).
Definition event_of (r : CoreRole) (what : string) (arg : N) : T N := abi (event_inst (role cx r) what arg).

(** [Result[ok, CodeError]]. *)
Definition code_result (ok : N) : T N := error ← code_error; result_of ok error.
(** The result of an operation whose reply the instruction states. *)
Definition stated (reply_ty result : N) (what : string) : T unit := require (reply_ty =? result)%N what.

Definition args_tuple (params : list N) : T N :=
  match params with [] => mret TYPE_UNIT | _ => newty (Ty_Tuple params) end.

(** *** Code and instances *)

(** A function code or binding over a function type: [class[fn]]. *)
Definition function_view (class : CoreRole) (t : BcType) : T (option (list N)) :=
  match t with
  | Ty_Inst c [arg] =>
      if is_role cx c class then fn ← is_fn arg; mret (if (fn : bool) then Some [arg] else None) else mret None
  | _ => mret None
  end.

Definition installed_type (code : N) (code_ty : BcType) (verified class_code : option N) : T N :=
  if bool_decide (verified = Some code) then plain C_instance "Instance" else
  match code_ty with
  | Ty_Inst class args =>
      match args with
      | [arg] =>
          _ ← require (is_role cx class C_function_code) "`Vm.Install` has invalid code input";
          fn ← is_fn arg;
          _ ← require fn "`Vm.Install` has invalid function code";
          binding ← need (role cx C_function_binding) (carry "FunctionBinding");
          newty (Ty_Inst binding [arg])
      | _ => refuse "`Vm.Install` has invalid code input"
      end
  | _ =>
      if bool_decide (class_code = Some code) then plain C_class_binding "ClassBinding" else
      match code_ty with
      | Ty_Fn _ _ _ _ =>
          binding ← need (role cx C_function_binding) (carry "FunctionBinding");
          newty (Ty_Inst binding [code])
      | _ => refuse "`Vm.Install` has invalid code input"
      end
  end.

Definition perform_install (op reply_ty : N) : T unit :=
  _ ← (if (op =? OP_VM_INSTALL_WITH)%N
       then links ← plain C_link_env "LinkEnv"; _ ← pop_expect links; mret tt else mret tt);
  code ← pop; code_ty ← ty_of code;
  verified ← opt_class C_verified_module; class_code ← opt_class C_class_code;
  installed ← installed_type code code_ty verified class_code;
  _ ← expect_vm;
  result ← code_result installed;
  _ ← stated reply_ty result "`Vm.Install` has the wrong result type";
  push reply_ty.

(** A reply [Result[class[fn], CodeError]] of a function lookup. *)
Definition lookup_reply (reply_ty result_class function_class error : N)
    (no_result bad_error no_function bad_function no_fn : string) : T unit :=
  t ← ty_of reply_ty;
  match t with
  | Ty_Inst found_result result_args =>
      match result_args with
      | [ok; e] =>
          _ ← require ((found_result =? result_class)%N && (e =? error)%N) bad_error;
          tf ← ty_of ok;
          match tf with
          | Ty_Inst found_function function_args =>
              match function_args with
              | [arg] =>
                  _ ← require (found_function =? function_class)%N bad_function;
                  fn ← is_fn arg; require fn no_fn
              | _ => refuse bad_function
              end
          | _ => refuse no_function
          end
      | _ => refuse bad_error
      end
  | _ => refuse no_result
  end.

Definition perform_module_function (op reply_ty : N) : T unit :=
  _ ← (if (op =? OP_VM_MODULE_FUNCTION_CODE)%N then _ ← pop_expect TYPE_STR; mret tt else mret tt);
  verified ← plain C_verified_module "VerifiedModule"; _ ← pop_expect verified;
  result_class ← need (role cx C_result) (carry "Result");
  function_code ← need (role cx C_function_code) (carry "FunctionCode");
  error ← code_error;
  _ ← lookup_reply reply_ty result_class function_code error
        "a module function lookup needs a Result reply"
        "a module function lookup has the wrong error type"
        "a module function lookup needs a FunctionCode result"
        "a module function lookup has the wrong function type"
        "a FunctionCode view must hold a function type";
  push reply_ty.

Definition perform_instance_function (op reply_ty : N) : T unit :=
  _ ← (if ((op =? OP_VM_INSTANCE_FUNCTION) || (op =? OP_VM_INSTANCE_FUNCTION_BINDING))%N
       then _ ← pop_expect TYPE_STR; mret tt else mret tt);
  instance ← plain C_instance "Instance"; _ ← pop_expect instance;
  result_class ← need (role cx C_result) (carry "Result");
  function_class ←
    need (if ((op =? OP_VM_INSTANCE_ENTRY_BINDING) || (op =? OP_VM_INSTANCE_FUNCTION_BINDING))%N
          then role cx C_function_binding else role cx C_function_def) (carry "function handle");
  error ← code_error;
  _ ← lookup_reply reply_ty result_class function_class error
        "an instance function lookup needs a Result reply"
        "an instance function lookup has the wrong error type"
        "an instance function lookup needs a FunctionDef result"
        "an instance function lookup has the wrong handle type"
        "an installed function view needs a function type";
  push reply_ty.

Definition perform_instance_class (op reply_ty : N) : T unit :=
  _ ← pop_expect TYPE_STR;
  instance ← plain C_instance "Instance"; _ ← pop_expect instance;
  class ← (if (op =? OP_VM_INSTANCE_CLASS_BINDING)%N then plain C_class_binding "ClassBinding"
           else plain C_class_def "ClassDef");
  result ← code_result class;
  _ ← stated reply_ty result "an instance class lookup has the wrong result type";
  push result.

Definition perform_instance_slot (op : N) : T unit :=
  argument ← (if (op =? OP_VM_INSTANCE_SLOT_FOR)%N then plain C_slot_spec "SlotSpec" else mret TYPE_STR);
  _ ← pop_expect argument;
  instance ← plain C_instance "Instance"; _ ← pop_expect instance;
  value ← (if (op =? OP_VM_INSTANCE_SLOT_FOR)%N then plain C_slot "Slot" else plain C_slot_spec "SlotSpec");
  result ← code_result value; push result.

Definition perform_binding (op reply_ty : N) : T unit :=
  binding ← pop; t ← ty_of binding;
  function_args ← function_view C_function_binding t;
  let is_class := match t with Ty_Class class => is_role cx class C_class_binding | _ => false end in
  _ ← require (bool_decide (is_Some function_args) || is_class) "a binding operation needs an installed binding";
  value ←
    (if (op =? OP_VM_BINDING_SLOT)%N then plain C_slot "Slot"
     else if (op =? OP_VM_BINDING_SPEC)%N then plain C_slot_spec "SlotSpec"
     else if (op =? OP_VM_BINDING_INSTANCE)%N then plain C_instance "Instance"
     else if (op =? OP_VM_BINDING_FUNCTION_TARGET)%N then
       args ← need function_args "a function target needs a FunctionBinding";
       function_def ← need (role cx C_function_def) (carry "FunctionDef");
       newty (Ty_Inst function_def args)
     else if is_class then plain C_class_def "ClassDef"
     else refuse "a class target needs a ClassBinding");
  result ← code_result value;
  _ ← stated reply_ty result "a binding operation has the wrong result type";
  push reply_ty.

Definition perform_activate (op reply_ty : N) : T unit :=
  args_ty ← pop; fn_ty ← pop; recv ← pop;
  _ ← is_type recv Ty_Vm "`Vm.Activate` needs a Vm receiver";
  t ← ty_of fn_ty;
  match t with
  | Ty_Fn params _ ret _ =>
      want ← args_tuple params; ok ← sub args_ty want;
      _ ← require ok "`Vm.Activate` arguments do not match the program parameters";
      run ← newty (Ty_Run ret);
      if (op =? OP_VM_ACTIVATE_OR_FAULT)%N then
        _ ← stated reply_ty run "`Vm.ActivateOrFault` has the wrong result type"; push run
      else
        result ← code_result run;
        _ ← stated reply_ty result "`Vm.Activate` has the wrong result type"; push result
  | _ => refuse "`Vm.Activate` needs a function value"
  end.

Definition perform_activate_def (reply_ty : N) : T unit :=
  args_ty ← pop; definition ← pop; _ ← expect_vm;
  t ← ty_of definition;
  match t with
  | Ty_Inst found parts =>
      match parts with
      | [part] =>
          _ ← require (is_role cx found C_function_def || is_role cx found C_function_binding)
                "`Vm.ActivateDef` arguments do not match the definition";
          tp ← ty_of part;
          match tp with
          | Ty_Fn params _ ret _ =>
              want ← args_tuple params; ok ← sub args_ty want;
              _ ← require ok "`Vm.ActivateDef` arguments do not match the definition";
              run ← newty (Ty_Run ret); result ← code_result run;
              _ ← stated reply_ty result "`Vm.ActivateDef` has the wrong result type"; push result
          | _ => refuse "`Vm.ActivateDef` has an invalid function type"
          end
      | _ => refuse "`Vm.ActivateDef` arguments do not match the definition"
      end
  | _ => refuse "`Vm.ActivateDef` needs an installed function"
  end.

(** *** Slot replacement *)

(** [Result[SlotChange, CodeError]] for a change, [Result[(), CodeError]] else. *)
Definition slot_result (change : bool) : T unit :=
  error ← code_error;
  success ← (if change then plain C_slot_change "SlotChange" else mret TYPE_UNIT);
  result ← result_of success error; push result.

Definition function_target (t : BcType) : T bool :=
  def ← function_view C_function_def t; binding ← function_view C_function_binding t;
  mret (bool_decide (is_Some def) || bool_decide (is_Some binding)
        || match t with Ty_Fn _ muts _ _ => negb (existsb id muts) | _ => false end).

Definition perform_replace_function (op : N) : T unit :=
  definition ← pop; slot ← pop; _ ← expect_vm;
  t ← ty_of definition; valid ← function_target t;
  _ ← require valid "`Vm.ReplaceFunction` needs a function target";
  direct_slot ← opt_class C_slot;
  ts ← ty_of slot; binding ← function_view C_function_binding ts;
  _ ← require (bool_decide (direct_slot = Some slot) || bool_decide (is_Some binding))
        "`Vm.ReplaceFunction` needs a function binding";
  slot_result (op =? OP_VM_CHANGE_FUNCTION)%N.

Definition perform_replace_class (op : N) : T unit :=
  definition ← pop; slot ← pop; _ ← expect_vm;
  class_def ← opt_class C_class_def; class_binding ← opt_class C_class_binding;
  _ ← require (bool_decide (class_def = Some definition) || bool_decide (class_binding = Some definition))
        "`Vm.ReplaceClass` needs a class target";
  slot_ty ← opt_class C_slot;
  _ ← require (bool_decide (slot_ty = Some slot) || bool_decide (class_binding = Some slot))
        "`Vm.ReplaceClass` needs a class binding";
  slot_result (op =? OP_VM_CHANGE_CLASS)%N.

Definition perform_replace_value (op : N) : T unit :=
  _ ← pop; slot ← pop; _ ← expect_vm;
  slot_ty ← plain C_slot "Slot";
  _ ← require (slot =? slot_ty)%N "`Vm.ReplaceValue` needs a Slot";
  slot_result (op =? OP_VM_CHANGE_VALUE)%N.

Definition is_handle (idx : N) (what : string) : T (N * N) :=
  t ← ty_of idx; match t with Ty_Handle m r => mret (m, r) | _ => refuse what end.

Definition perform_replace_process (op : N) : T unit :=
  process ← pop; _ ← is_handle process "`Vm.ReplaceProcess` needs a process handle";
  slot ← pop; _ ← expect_vm;
  slot_ty ← plain C_slot "Slot";
  _ ← require (slot =? slot_ty)%N "`Vm.ReplaceProcess` needs a Slot";
  slot_result (op =? OP_VM_CHANGE_PROCESS)%N.

Definition perform_replace_all : T unit :=
  changes ← pop; _ ← expect_vm;
  change ← plain C_slot_change "SlotChange";
  _ ← is_type changes (Ty_List change) "`Vm.ReplaceAll` needs a SlotChange list";
  result ← code_result TYPE_UNIT; push result.

(** *** Runs and resources *)

Definition perform_drive (op : N) (name : string) : T unit :=
  t ← pop_run name;
  event ←
    (if (op =? OP_VM_RUN)%N then fault ← newty Ty_Fault; result_of t fault
     else if (op =? OP_VM_STEP)%N then event_of C_step_event "StepEvent" t
     else event_of C_drive_event "DriveEvent" t);
  push event.

Definition perform_resource (name : string) : T unit :=
  handle ← pop; _ ← pop_run name;
  tcp ← opt_class C_tcp_resource; tls ← opt_class C_tls_stream;
  t ← ty_of handle;
  refused ←
    (if bool_decide (t = Ty_FileHandle) then mret false else
     not_tcp ← match tcp with None => mret true | Some tcp => ok ← sub handle tcp; mret (negb ok) end;
     if (not_tcp : bool) then mret (match tls with None => true | Some tls => negb (handle =? tls)%N end)
     else mret false);
  _ ← require (negb refused) "`Vm.Resource` needs a file or stream resource";
  control ← newty Ty_ResourceHandle; push control.

(** The pending call of one operation. *)
Definition call_of (op : N) : T BcType :=
  args ← abi (op_args_view cx op);
  def ← run (vexpect (bundle_op (cx_bundle cx) op));
  reply ← abi (abi_ty cx (bo_reply def));
  mret (Ty_PendingCall args reply).

Definition serve (op : N) (name what : string) : T unit :=
  call ← pop; _ ← pop_run name;
  want ← call_of op; _ ← is_type call want what;
  control ← newty Ty_ResourceHandle; push control.

Definition serve_either (call a b : N) (what : string) : T unit :=
  wa ← call_of a; wb ← call_of b; t ← ty_of call;
  _ ← require (bool_decide (t = wa) || bool_decide (t = wb)) what;
  control ← newty Ty_ResourceHandle; push control.

Definition perform_serve_tcp_stream (name : string) : T unit :=
  peer ← pop; call ← pop; _ ← pop_run name;
  address ← abi (abi_ty cx (Abi_Core AbiC_SocketAddress)); ok ← sub peer address;
  _ ← require ok "`Vm.ServeTcpStream` needs a SocketAddress";
  serve_either call OP_TCP_CONNECT OP_TCP_ACCEPT "`Vm.ServeTcpStream` needs a Tcp.Connect or Tcp.Accept call".

Definition perform_serve_tls_stream (name : string) : T unit :=
  call ← pop; _ ← pop_run name;
  serve_either call OP_TLS_HANDSHAKE OP_TLS_SERVER_HANDSHAKE "`Vm.ServeTlsStream` needs a TLS handshake call".

Definition perform_resource_same : T unit :=
  other ← pop; control ← pop; tc ← ty_of control;
  ok ← (if bool_decide (tc = Ty_ResourceHandle) then t ← ty_of other; mret (bool_decide (t = Ty_ResourceHandle))
        else mret false);
  _ ← require ok "`Vm.ResourceSame` needs two ResourceHandle values"; push TYPE_BOOL.

Definition answered (name : string) (value call : N) : T unit :=
  t ← ty_of call;
  match t with
  | Ty_PendingCall _ reply =>
      ok ← sub value reply;
      require ok (quoted name ("reply expects type " +:+ pretty reply +:+ ", found type " +:+ pretty value))%string
  | _ => refuse (quoted name "needs a PendingCall token")
  end.

Definition run_result (t : N) (r : CoreRole) (what : string) : T unit :=
  run ← newty (Ty_Run t); error ← plain r what; out ← result_of run error; push out.

Definition perform_branch_answer (name : string) : T unit :=
  value ← pop; call ← pop; t ← pop_run name;
  _ ← answered "Vm.BranchAnswer" value call;
  run_result t C_branch_error "BranchError".

Definition perform_reject (name : string) : T unit :=
  fault ← pop; request ← pop; _ ← pop_run name; tf ← ty_of fault;
  ok ← (if bool_decide (tf = Ty_Fault) then t ← ty_of request; mret (bool_decide (t = Ty_Request)) else mret false);
  _ ← require ok "`Vm.Reject` needs a Request and a Fault"; push TYPE_UNIT.

(** *** Processes and waits *)

Definition never_handle (result : N) : T unit :=
  never ← newty Ty_Never; handle ← newty (Ty_Handle never result); push handle.

Definition perform_run_closure : T unit :=
  body ← pop; t ← ty_of body;
  match t with
  | Ty_Fn params _ result _ =>
      _ ← require (bool_decide (params = [])) "`Proc.RunClosure` needs a nullary closure"; never_handle result
  | _ => refuse "`Proc.RunClosure` needs a closure"
  end.

Definition perform_spawn : T unit :=
  args_ty ← pop; body ← pop; ctor ← pop; tc ← ty_of ctor;
  match tc with
  | Ty_Fn ctor_params _ proc_ty _ =>
      found ← run (proc_mailbox cx proc_ty);
      mailbox ← need found "`Proc.Spawn` needs a constructor of a `Proc` subclass";
      tb ← ty_of body;
      match tb with
      | Ty_Fn body_params _ result _ =>
          fits ← match body_params with [param] => sub proc_ty param | _ => mret false end;
          _ ← require fits "`Proc.Spawn` body does not take the constructed proc";
          want ← args_tuple ctor_params; ok ← sub args_ty want;
          _ ← require ok "`Proc.Spawn` arguments do not match the constructor parameters";
          handle ← newty (Ty_Handle mailbox result); push handle
      | _ => refuse "`Proc.Spawn` needs a body function"
      end
  | _ => refuse "`Proc.Spawn` needs a constructor function"
  end.

Definition send_result : T unit := result ← plain C_send_result "SendResult"; push result.

Definition perform_send : T unit :=
  message ← pop; handle ← pop;
  '(mailbox, _) ← is_handle handle "`Proc.Send` needs a proc handle";
  ok ← sub message mailbox;
  _ ← require ok ("`Proc.Send` expects a message of type " +:+ pretty mailbox +:+ ", found type " +:+ pretty message)%string;
  send_result.

Definition perform_pause (op : N) (name : string) : T unit :=
  handle ← pop; '(_, result) ← is_handle handle (quoted name "needs a proc handle");
  ok ← (if (op =? OP_PROC_PAUSE)%N then newty (Ty_Run result) else mret TYPE_UNIT);
  error ← plain C_proc_error "ProcError";
  family ← need (role cx C_result) (carry "Result");
  out ← newty (Ty_Inst family [ok; error]); push out.

Definition perform_recv (op : N) : T unit :=
  recv ← pop; found ← run (proc_mailbox cx recv);
  mailbox ← need found "`Proc.Recv` needs a `Proc` subclass receiver";
  event ← event_of C_recv "Recv" mailbox;
  if (op =? OP_PROC_RECV)%N then push event else wait ← newty (Ty_Wait event); push wait.

Definition as_wait (idx : N) (what : string) : T N :=
  t ← ty_of idx; match t with Ty_Wait r => mret r | _ => refuse what end.

Definition perform_choose : T unit :=
  rw ← pop; lw ← pop;
  r ← as_wait rw "`Wait.Choose` needs two Wait values";
  l ← as_wait lw "`Wait.Choose` needs two Wait values";
  choice ← need (role cx C_choice) (carry "Choice");
  choice ← newty (Ty_Inst choice [l; r]); wait ← newty (Ty_Wait choice); push wait.

Definition perform_wait_any : T unit :=
  waits ← pop; t ← ty_of waits;
  match t with
  | Ty_List wait =>
      result ← as_wait wait "`Wait.Any` needs a list of Wait values";
      result ← newty (Ty_Tuple [TYPE_INT; result]); push result
  | _ => refuse "`Wait.Any` needs a list of Wait values"
  end.

(** *** Snapshots *)

Definition snapshot_result (ok : N) : T unit :=
  error ← plain C_snapshot_error "SnapshotError"; out ← result_of ok error; push out.

Definition perform_drive_for (name : string) : T unit :=
  count ← pop; _ ← is_type count Ty_Int "`Vm.DriveFor` needs an instruction count";
  t ← pop_run name; event ← event_of C_drive_event "DriveEvent" t;
  out ← event_of C_option "Option" event; push out.

Definition perform_snapshot_wait_held (name : string) : T unit :=
  fuel ← pop; _ ← is_type fuel Ty_Int "`Vm.SnapshotWaitHeld` needs a fuel count";
  t ← pop_run name; snapshot ← newty (Ty_RunSnapshot t); snapshot_result snapshot.

Definition perform_restore : T unit :=
  snapshot ← pop; recv ← pop; _ ← is_type recv Ty_Vm "`Vm.Restore` needs a Vm receiver";
  ts ← ty_of snapshot;
  match ts with
  | Ty_RunSnapshot t => run_result t C_restore_error "RestoreError"
  | _ => refuse "`Vm.Restore` needs a typed snapshot"
  end.

(** The error is interned before the bytes. *)
Definition bytes_result : T unit :=
  error ← plain C_snapshot_error "SnapshotError"; bytes ← newty Ty_Bytes; out ← result_of bytes error; push out.

Definition perform_run_snapshot_bytes : T unit :=
  image ← pop; t ← ty_of image;
  _ ← require (match t with Ty_RunSnapshot _ => true | _ => false end) "`Vm.RunSnapshotBytes` needs a RunSnapshot";
  bytes_result.

Definition perform_restore_vm : T unit :=
  image ← pop; _ ← is_type image Ty_VmSnapshot "`Vm.RestoreVm` needs a VmSnapshot";
  error ← plain C_restore_error "RestoreError"; vm ← newty Ty_Vm; out ← result_of vm error; push out.

Definition perform_restore_dynamic : T unit :=
  snapshot ← pop; recv ← pop;
  _ ← is_type recv Ty_Vm "`Vm.RestoreDynamic` needs a Vm receiver";
  _ ← is_type snapshot Ty_VmSnapshot "`Vm.RestoreDynamic` needs a VmSnapshot";
  dynamic ← plain C_dyn_value "DynValue"; run_result dynamic C_restore_error "RestoreError".

(** *** The VM-control slots *)

Definition vm_control (op : N) (name : string) (reply_ty : N) : T unit :=
  let slot_is slot := (op =? slot)%N in
  if slot_is OP_VM_NEW then vm ← newty Ty_Vm; push vm
  else if slot_is OP_VM_ARTIFACT then
    bytes ← newty Ty_Bytes; _ ← pop_expect bytes; artifact ← plain C_artifact "Artifact"; push artifact
  else if slot_is OP_COMPILER_VERIFY then
    artifact ← plain C_artifact "Artifact"; _ ← pop_expect artifact;
    verified ← plain C_verified_module "VerifiedModule"; result ← code_result verified; push result
  else if slot_is OP_VM_LINK then
    verified ← plain C_verified_module "VerifiedModule"; _ ← pop_expect verified;
    module ← plain C_module_code "ModuleCode"; result ← code_result module; push result
  else if slot_is OP_VM_INSTALL || slot_is OP_VM_INSTALL_WITH then perform_install op reply_ty
  else if slot_is OP_VM_MODULE_ENTRY_CODE || slot_is OP_VM_MODULE_FUNCTION_CODE then perform_module_function op reply_ty
  else if slot_is OP_VM_MODULE_CLASS_CODE then
    _ ← pop_expect TYPE_STR;
    verified ← plain C_verified_module "VerifiedModule"; _ ← pop_expect verified;
    class_code ← plain C_class_code "ClassCode"; result ← code_result class_code;
    _ ← stated reply_ty result "a module class lookup has the wrong result type"; push reply_ty
  else if slot_is OP_VM_INSTANCE_ENTRY || slot_is OP_VM_INSTANCE_FUNCTION || slot_is OP_VM_INSTANCE_ENTRY_BINDING
       || slot_is OP_VM_INSTANCE_FUNCTION_BINDING then perform_instance_function op reply_ty
  else if slot_is OP_VM_INSTANCE_CLASS || slot_is OP_VM_INSTANCE_CLASS_BINDING then perform_instance_class op reply_ty
  else if slot_is OP_VM_INSTANCE_SLOT_FOR || slot_is OP_VM_INSTANCE_SLOT_SPEC then perform_instance_slot op
  else if slot_is OP_VM_BINDING_SLOT || slot_is OP_VM_BINDING_SPEC || slot_is OP_VM_BINDING_INSTANCE
       || slot_is OP_VM_BINDING_FUNCTION_TARGET || slot_is OP_VM_BINDING_CLASS_TARGET then perform_binding op reply_ty
  else if slot_is OP_VM_ACTIVATE || slot_is OP_VM_ACTIVATE_OR_FAULT then perform_activate op reply_ty
  else if slot_is OP_VM_ACTIVATE_DEF then perform_activate_def reply_ty
  else if slot_is OP_VM_REPLACE_FUNCTION || slot_is OP_VM_CHANGE_FUNCTION then perform_replace_function op
  else if slot_is OP_VM_REPLACE_CLASS || slot_is OP_VM_CHANGE_CLASS then perform_replace_class op
  else if slot_is OP_VM_REPLACE_VALUE || slot_is OP_VM_CHANGE_VALUE then perform_replace_value op
  else if slot_is OP_VM_REPLACE_PROCESS || slot_is OP_VM_CHANGE_PROCESS then perform_replace_process op
  else if slot_is OP_VM_REPLACE_ALL then perform_replace_all
  else if slot_is OP_VM_RUN || slot_is OP_VM_STEP || slot_is OP_VM_DRIVE then perform_drive op name
  else if slot_is OP_VM_DRIVE_WAIT then
    t ← pop_run name; event ← event_of C_drive_event "DriveEvent" t; wait ← newty (Ty_Wait event); push wait
  else if slot_is OP_VM_TABLE then _ ← pop_run name; table ← newty Ty_PolicyTable; push table
  else if slot_is OP_VM_HANDLES then
    _ ← pop_run name; control ← newty Ty_ResourceHandle; list ← newty (Ty_List control); push list
  else if slot_is OP_VM_RESOURCE then perform_resource name
  else if slot_is OP_VM_SERVE_FILE then serve OP_FS_OPEN name "`Vm.ServeFile` needs an Fs.Open call"
  else if slot_is OP_VM_SERVE_TCP_STREAM then perform_serve_tcp_stream name
  else if slot_is OP_VM_SERVE_TCP_LISTENER then serve OP_TCP_LISTEN name "`Vm.ServeTcpListener` needs a Tcp.Listen call"
  else if slot_is OP_VM_SERVE_TLS_STREAM then perform_serve_tls_stream name
  else if slot_is OP_VM_RESOURCE_IS_OPEN || slot_is OP_VM_RESOURCE_CLOSE then
    control ← pop; _ ← is_type control Ty_ResourceHandle (quoted name "needs a ResourceHandle"); push TYPE_BOOL
  else if slot_is OP_VM_RESOURCE_KIND then
    control ← pop; _ ← is_type control Ty_ResourceHandle "`Vm.ResourceKind` needs a ResourceHandle"; push TYPE_STR
  else if slot_is OP_VM_RESOURCE_SAME then perform_resource_same
  else if slot_is OP_VM_ANSWER then
    value ← pop; call ← pop; _ ← pop_run name; _ ← answered "Vm.Answer" value call; push TYPE_UNIT
  else if slot_is OP_VM_BRANCH_ANSWER then perform_branch_answer name
  else if slot_is OP_VM_REJECT then perform_reject name
  else if slot_is OP_VM_DISPATCH then
    request ← pop; _ ← pop_run name; _ ← is_type request Ty_Request "`Vm.Dispatch` needs a Request"; push TYPE_UNIT
  else if slot_is OP_PROC_RUN then t ← pop_run name; never_handle t
  else if slot_is OP_PROC_RUN_CLOSURE then perform_run_closure
  else if slot_is OP_PROC_SPAWN then perform_spawn
  else if slot_is OP_PROC_SEND then perform_send
  else if slot_is OP_PROC_CLOSE then
    handle ← pop; _ ← is_handle handle "`Proc.Close` needs a proc handle"; send_result
  else if slot_is OP_PROC_DONE then
    handle ← pop; '(_, result) ← is_handle handle "`Proc.Done` needs a proc handle";
    fault ← newty Ty_Fault; event ← result_of result fault; push event
  else if slot_is OP_PROC_PAUSE || slot_is OP_PROC_RESUME then perform_pause op name
  else if slot_is OP_PROC_RECV || slot_is OP_PROC_RECV_WAIT then perform_recv op
  else if slot_is OP_WAIT_WAIT then wait ← pop; result ← as_wait wait "`Wait.Wait` needs a Wait value"; push result
  else if slot_is OP_WAIT_CHOOSE then perform_choose
  else if slot_is OP_WAIT_CANCEL then wait ← pop; _ ← as_wait wait "`Wait.Cancel` needs a Wait value"; push TYPE_BOOL
  else if slot_is OP_WAIT_ANY then perform_wait_any
  else if slot_is OP_VM_SNAPSHOT_HELD then t ← pop_run name; snapshot ← newty (Ty_RunSnapshot t); snapshot_result snapshot
  else if slot_is OP_VM_BRANCH then t ← pop_run name; run_result t C_branch_error "BranchError"
  else if slot_is OP_VM_DRIVE_FOR then perform_drive_for name
  else if slot_is OP_VM_SNAPSHOT_WAIT_HELD then perform_snapshot_wait_held name
  else if slot_is OP_PROC_SNAPSHOT_WAIT then
    _ ← pop_expect TYPE_INT; handle ← pop;
    '(_, result) ← is_handle handle "`Proc.SnapshotWait` needs a proc handle";
    snapshot ← newty (Ty_RunSnapshot result); snapshot_result snapshot
  else if slot_is OP_VM_SNAPSHOT_SELF then image ← newty Ty_VmSnapshot; snapshot_result image
  else if slot_is OP_VM_SNAPSHOT_VM then
    recv ← pop; _ ← is_type recv Ty_Vm "`Vm.SnapshotVm` needs a Vm"; image ← newty Ty_VmSnapshot; snapshot_result image
  else if slot_is OP_VM_RESTORE then perform_restore
  else if slot_is OP_VM_LOAD_SNAPSHOT then
    bytes ← pop; _ ← is_type bytes Ty_Bytes "`Vm.LoadSnapshot` needs Bytes"; image ← newty Ty_VmSnapshot; snapshot_result image
  else if slot_is OP_VM_RUN_SNAPSHOT_BYTES then perform_run_snapshot_bytes
  else if slot_is OP_VM_SNAPSHOT_BYTES then
    image ← pop; _ ← is_type image Ty_VmSnapshot "`Vm.SnapshotBytes` needs a VmSnapshot"; bytes_result
  else if slot_is OP_VM_RESTORE_VM then perform_restore_vm
  else if slot_is OP_VM_RESTORE_DYNAMIC then perform_restore_dynamic
  else if slot_is OP_VM_STACK then
    _ ← pop_run name; location ← plain C_code_location "CodeLocation"; list ← newty (Ty_List location); push list
  else run vpanic.

(** *** Performs *)

(** [for want in params.rev() { pop_expect(abi_ty(want)) }]. *)
Definition pop_abi (params : list AbiType) : T unit :=
  each (λ want, w ← abi (abi_ty cx want); _ ← pop_expect w; mret tt) (reverse params).

Definition op_at (op : N) : T BundleOp := run (vexpect (bundle_op (cx_bundle cx) op)).

Definition claims (name what : string) : T unit := require (row_has_name cx (func_row func) name) what.

Definition step_perform (op reply_ty : N) : T unit :=
  def ← op_at op;
  _ ← claims (bo_name def) ("the perform of `" +:+ bo_name def +:+ "` is not inside the claimed row")%string;
  _ ← match bo_kind def with
      | Op_Fixed => _ ← pop_abi (bo_params def); reply ← abi (abi_ty cx (bo_reply def)); push reply
      | Op_VmControl => vm_control op (bo_name def) reply_ty
      end;
  check_reply_ty reply_ty.

(** The stack entry below [argc] arguments. *)
Definition below_args (argc : N) (short : string) : T N :=
  stack ← reads st_stack; need (stack !! N.to_nat argc) short.

Definition step_perform_value (argc reply_ty : N) : T unit :=
  callee_ty ← below_args argc "perform through a value on a short stack";
  t ← ty_of callee_ty;
  match t with
  | Ty_Op op fn_ty =>
      def ← op_at op;
      _ ← claims (bo_name def) ("the perform of `" +:+ bo_name def +:+ "` is not inside the claimed row")%string;
      tf ← ty_of fn_ty;
      match tf with
      | Ty_Fn params _ ret _ =>
          _ ← require (lenN params =? argc)%N "perform argument count mismatch";
          _ ← pop_args params; _ ← pop; _ ← push ret; check_reply_ty reply_ty
      | _ => run vpanic
      end
  | _ => refuse ("perform target type " +:+ pretty callee_ty +:+ " is not an operation value")%string
  end.

Definition step_prepare_wait (op_argc reply_ty : N) : T unit :=
  let (op, _) := wait_parts op_argc in
  operation ← op_at op;
  let name := bo_name operation in
  _ ← claims name ("the wait source for `" +:+ name +:+ "` is not inside the claimed row")%string;
  _ ← pop_abi (bo_params operation);
  reply ← abi (abi_ty cx (bo_reply operation));
  ts ← ty_of reply_ty; t ← ty_of reply;
  _ ← require (bool_decide (ts = t))
        ("the wait source `" +:+ name +:+ "` has a reply type that differs from its contract")%string;
  wait ← newty (Ty_Wait reply); push wait.

Definition step_table_edit (action kind slot : N) : T unit :=
  _ ← (if (action =? 2)%N then
         handler ← pop; want ← abi (fixed_sig_type cx slot); ok ← sub handler want;
         require ok ("a mock handler must have the exact operation signature with an empty row, found type "
                     +:+ pretty handler)%string
       else mret tt);
  table ← pop;
  _ ← is_type table Ty_PolicyTable ("table edit on non-table type " +:+ pretty table)%string;
  _ ← (if (action =? 0)%N then
         name ← run (vexpect (if (kind =? 0)%N then op_name (cx_bundle cx) slot else group_name (cx_bundle cx) slot));
         claims name ("the pass of `" +:+ name +:+ "` is not inside the claimed row")%string
       else mret tt);
  push TYPE_UNIT.

Definition step_as_call (op idx : N) : T unit :=
  request ← pop;
  _ ← is_type request Ty_Request ("as_call on non-request type " +:+ pretty request)%string;
  call ← call_of op; call ← newty call;
  out ← event_of C_option "Option" call;
  a ← sub idx out; b ← (if (a : bool) then sub out idx else mret false);
  _ ← require b "as_call option type mismatch";
  push idx.

End Effects.
