(* ===== verification/VerifyRules.v ===== *)
(** * The transfer function of the verifier, continued (crates/lm-verify/src/step.rs)

    Calls, closures, classes, collections, reflection and control flow, and
    [step], which composes every rule.  The edges of an instruction go to the
    caller's [edge], which threads a state of its own: the fixpoint merges
    them into the target blocks, a replay drops them. *)

From stdpp Require Import base numbers list strings gmap pretty.
From S2P Require Import Prelude Value Codec Bytecode ModuleTables VerifyCtx VerifySub VerifyStep VerifyPerform.

#[local] Open Scope nat_scope.

Section Rules.
Context (cx : Ctx) (func : Func) (fidx bidx iidx : N).

#[local] Abbreviation fail := (fail fidx bidx iidx).
#[local] Abbreviation refuse := (refuse fidx bidx iidx).
#[local] Abbreviation require := (require fidx bidx iidx).
#[local] Abbreviation need := (need fidx bidx iidx).
#[local] Abbreviation abi := (abi fidx bidx iidx).
#[local] Abbreviation plain := (plain cx fidx bidx iidx).
#[local] Abbreviation pop := (pop fidx bidx iidx).
#[local] Abbreviation push := (push fidx bidx iidx).
#[local] Abbreviation pop_expect := (pop_expect cx fidx bidx iidx).
#[local] Abbreviation pop_args := (pop_args cx fidx bidx iidx).
#[local] Abbreviation is_type := (is_type fidx bidx iidx).
#[local] Abbreviation sub := (sub cx).
#[local] Abbreviation instance := (instance cx).
#[local] Abbreviation as_list := (as_list fidx bidx iidx).
#[local] Abbreviation as_map := (as_map fidx bidx iidx).
#[local] Abbreviation hashable_map := (hashable_map cx fidx bidx iidx).
#[local] Abbreviation native_key := (native_key cx fidx bidx iidx).
#[local] Abbreviation charge_row := (charge_row cx func fidx bidx iidx).
#[local] Abbreviation check_application_scope := (check_application_scope cx fidx bidx iidx).
#[local] Abbreviation func_at := (func_at cx).
#[local] Abbreviation app_at := (app_at cx).
#[local] Abbreviation func_bounds_at := (func_bounds_at cx).
#[local] Abbreviation class_of := (class_of cx).
#[local] Abbreviation below_args := (below_args fidx bidx iidx).
#[local] Abbreviation int1 := (int1 cx fidx bidx iidx).
#[local] Abbreviation int2 := (int2 cx fidx bidx iidx).
#[local] Abbreviation unary := (unary cx fidx bidx iidx).

Definition subst_all (l : list N) (types : list N) (rows : list (list BcRow)) : T (list N) :=
  run (mapV (λ p, subst cx p types rows) l).
Definition subst1 (idx : N) (types : list N) (rows : list (list BcRow)) : T N := run (subst cx idx types rows).

(** *** Calls *)

Definition step_call (callee : N) : T unit :=
  sig ← func_at callee;
  _ ← charge_row (func_row sig); _ ← pop_args (func_params sig); push (func_ret sig).

Definition step_call_g (sc : Scope) (callee app : N) : T unit :=
  sig ← func_at callee; app ← app_at app; _ ← check_application_scope sc app;
  bounds ← func_bounds_at callee;
  ok ← run (type_arguments_meet_bounds cx (app_types app) (app_rows app) bounds (sc_bounds sc) (Some (sc_index sc)));
  _ ← require ok "a call type argument does not meet its interface bounds";
  _ ← charge_row (row_subst (func_row sig) (app_rows app));
  params ← subst_all (func_params sig) (app_types app) (app_rows app);
  _ ← pop_args params;
  ret ← subst1 (func_ret sig) (app_types app) (app_rows app); push ret.

(** The class whose method table a plain virtual call reads. *)
Definition receiver_class (recv_ty : N) : T N :=
  t ← ty_of recv_ty;
  match t with
  | Ty_Class c => mret c
  | Ty_Int => need (role cx C_int) "an Int method call needs the Int core role"
  | Ty_Float => need (role cx C_float) "a Float method call needs the Float core role"
  | Ty_Bool => need (role cx C_boolean) "a Bool method call needs the Bool core role"
  | Ty_Str => need (role cx C_string) "a String method call needs the String core role"
  | Ty_Bytes => need (role cx C_bytes) "a Bytes method call needs the Bytes core role"
  | Ty_FileHandle => need (role cx C_file_handle) "a FileHandle method call needs the FileHandle core role"
  | _ => refuse ("virtual call receiver type " +:+ pretty recv_ty +:+ " needs the generic form or is not a class")%string
  end.

Definition not_a_method (selector : N) : string :=
  ("selector " +:+ pretty selector +:+ " is not a class method")%string.

(** The arguments, then the receiver below them. *)
Definition pop_method (params : list N) : T unit :=
  match params with
  | recv :: args => _ ← pop_args args; _ ← pop_expect recv; mret tt
  | [] => run vpanic
  end.

Definition step_call_virtual (selector argc : N) : T unit :=
  recv_ty ← below_args argc "virtual call on a short stack";
  class ← receiver_class recv_ty;
  found ← run (vlift (find_method cx class selector));
  target ← need found (not_a_method selector);
  sig ← func_at target;
  _ ← require ((func_type_params sig =? 0) && (func_effect_params sig =? 0))%N
        "a generic method call needs a type application";
  _ ← charge_row (func_row sig);
  _ ← require (lenN (func_params sig) =? argc + 1)%N "virtual call argument count mismatch";
  _ ← pop_method (func_params sig);
  push (func_ret sig).

Definition step_call_virtual_g (sc : Scope) (selector argc app : N) : T unit :=
  recv_ty ← below_args argc "virtual call on a short stack";
  inst ← instance recv_ty;
  '(class, class_args) ← need inst ("virtual call receiver type " +:+ pretty recv_ty +:+ " is not a class")%string;
  found ← run (vlift (find_method cx class selector));
  target ← need found (not_a_method selector);
  sig ← func_at target; app ← app_at app; _ ← check_application_scope sc app;
  owner ← run (vlift (method_owner cx class selector));
  owner ← need owner (not_a_method selector);
  args ← run (vlift (ancestor_args cx class class_args owner));
  args ← need args "the method owner is not an ancestor";
  let targs := args ++ app_types app in
  _ ← require ((func_type_params sig =? lenN targs) && (func_effect_params sig =? lenN (app_rows app)))%N
        "virtual call type application arity mismatch";
  bounds ← func_bounds_at target;
  ok ← run (type_arguments_meet_bounds cx targs (app_rows app) bounds (sc_bounds sc) (Some (sc_index sc)));
  _ ← require ok "a virtual call type argument does not meet its interface bounds";
  _ ← charge_row (row_subst (func_row sig) (app_rows app));
  _ ← require (lenN (func_params sig) =? argc + 1)%N "virtual call argument count mismatch";
  params ← subst_all (func_params sig) targs (app_rows app);
  _ ← pop_method params;
  ret ← subst1 (func_ret sig) targs (app_rows app); push ret.

(** Every premise of an interface method holds of its substituted subject. *)
Definition check_premises (sc : Scope) (premises : list BcTypePremise) (types : list N) (rows : list (list BcRow)) :
    T unit :=
  each (λ premise,
    subject ← run (subst_with_bounds cx (cx_fuel cx) (tp_subject premise) types rows (sc_bounds sc));
    each (λ bound,
      required ← run (subst_interface_use_with_bounds cx (cx_fuel cx) bound types rows (sc_bounds sc));
      found ← run (interface_application cx (sc_index sc) subject (use_interface required));
      require (bool_decide (found = Some required)) "an interface method premise is not satisfied")
      (tp_bounds premise)) premises.

Definition step_call_interface (sc : Scope) (site declared_recv_ty app : N) : T unit :=
  let '(interface, method) := unpack_interface_call_site site in
  contract ← run (vexpect (md_interfaces (module cx) !! N.to_nat interface));
  requirement ← run (vexpect (if_methods contract !! N.to_nat method));
  recv_ty ← below_args (lenN (im_params requirement)) "interface call on a short stack";
  ok ← run (in_scope cx sc declared_recv_ty);
  _ ← require ok "the interface receiver type is outside the active scope";
  a ← sub recv_ty declared_recv_ty; b ← (if (a : bool) then sub declared_recv_ty recv_ty else mret false);
  _ ← require b "interface receiver type mismatch";
  application ← run (interface_application cx (sc_index sc) recv_ty interface);
  application ← need application "interface call lacks a proven receiver bound";
  own ← (if (app =? NO_APP)%N then mret (mkTypeApp [] []) else
         own ← app_at app; _ ← check_application_scope sc own; mret own);
  let prefix_types := recv_ty :: use_types application in
  ok ← run (method_arguments_meet_bounds cx (app_types own) (app_rows own) (im_type_bounds requirement)
              prefix_types (use_rows application) (sc_index sc));
  _ ← require ok "an interface call type argument does not meet its interface bounds";
  let types := prefix_types ++ app_types own in
  let rows := use_rows application ++ app_rows own in
  _ ← check_premises sc (im_premises requirement) types rows;
  _ ← charge_row (row_subst (im_row requirement) rows);
  params ← subst_all (im_params requirement) types rows;
  _ ← pop_args params; _ ← pop_expect recv_ty;
  ret ← subst1 (im_ret requirement) types rows; push ret.

Definition step_call_value (argc : N) : T unit :=
  callee_ty ← below_args argc "closure call on a short stack";
  t ← ty_of callee_ty;
  match t with
  | Ty_Fn params _ ret row | Ty_Callback params _ ret row =>
      _ ← charge_row row;
      _ ← require (lenN params =? argc)%N "closure call argument count mismatch";
      _ ← pop_args params; _ ← pop; push ret
  | _ => refuse ("closure call target type " +:+ pretty callee_ty +:+ " is not a function type")%string
  end.

(** A late-bound call through a slot's contract. *)
Definition call_contract (sc : Scope) (contract : BcCallableContract) (app : N) (unmet : string) : T unit :=
  a ← (if (app =? NO_APP)%N then mret (mkTypeApp [] []) else
       a ← app_at app; _ ← check_application_scope sc a;
       ok ← run (type_arguments_meet_bounds cx (app_types a) (app_rows a) (cc_type_bounds contract) (sc_bounds sc)
                   (Some (sc_index sc)));
       _ ← require ok unmet; mret a);
  _ ← charge_row (row_subst (cc_row contract) (app_rows a));
  params ← subst_all (cc_params contract) (app_types a) (app_rows a);
  _ ← pop_args params;
  ret ← subst1 (cc_ret contract) (app_types a) (app_rows a); push ret.

Definition slot_at (slot : N) : T SlotContract :=
  spec ← run (vexpect (md_slots (module cx) !! N.to_nat slot)); mret (sl_contract spec).

(** *** Closures *)

(** The body is closed, or it has the generic scope of its creator. *)
Definition body_scope (sc : Scope) (f : N) (target : Func) : T bool :=
  if ((func_type_params target =? 0) && (func_effect_params target =? 0))%N then mret true else
  if negb ((func_type_params target =? func_type_params (sc_func sc))
           && (func_effect_params target =? func_effect_params (sc_func sc)))%N then mret false else
  bounds ← func_bounds_at f; mret (bool_decide (bounds = sc_bounds sc)).

(** A type that must be an entry of the module's own table. *)
Definition table_type (t : BcType) (what : string) : T N :=
  run (known t (λ i, (i <? lenN (md_types (module cx)))%N) (fail what)).

Definition step_make_closure (sc : Scope) (f : N) : T unit :=
  target ← func_at f; ok ← body_scope sc f target;
  _ ← require ok "a closure body does not match the active generic scope";
  _ ← pop_args (func_captures target);
  idx ← table_type (Ty_Fn (func_params target) (func_param_muts target) (func_ret target) (func_row target))
          "the closure function type is not in the type table";
  push idx.

Definition step_make_callback (sc : Scope) (f : N) : T unit :=
  target ← func_at f; ok ← body_scope sc f target;
  _ ← require ok "a callback body does not match the active generic scope";
  _ ← pop_args (func_captures target);
  idx ← table_type (Ty_Callback (func_params target) (func_param_muts target) (func_ret target) (func_row target))
          "the callback function type is not in the type table";
  push idx.

Definition step_as_callback : T unit :=
  function ← pop; t ← ty_of function;
  match t with
  | Ty_Fn params muts ret row =>
      idx ← table_type (Ty_Callback params muts ret row) "the callback type is not in the type table"; push idx
  | _ => refuse "callback conversion needs a function value"
  end.

(** *** Equality and tests *)

Definition related (a b : N) : T bool := ab ← sub a b; if (ab : bool) then mret true else sub b a.

Definition enum_side (idx : N) : T bool :=
  inst ← instance idx; mret (match inst with Some (class, _) => is_enum_class cx class | None => false end).

Definition types_text (a b : N) : string := (pretty a +:+ " and " +:+ pretty b)%string.

Definition step_eq_value : T unit :=
  b ← pop; a ← pop;
  ea ← enum_side a; eb ← (if (ea : bool) then enum_side b else mret false);
  _ ← require eb ("structural equality needs two enum values, found " +:+ types_text a b)%string;
  rel ← related a b;
  _ ← require rel ("structural equality needs related types, found " +:+ types_text a b)%string;
  push TYPE_BOOL.

(** A value whose identity the program may not observe. *)
Definition excluded (idx : N) : T bool :=
  t ← ty_of idx;
  match t with
  | Ty_Str | Ty_Bytes | Ty_Tuple _ => mret true
  | _ =>
      inst ← instance idx;
      match inst with
      | Some (class, []) =>
          text ← match role cx C_text with
                 | None => mret false
                 | Some text => r ← run (vlift (ancestor_args cx class [] text)); mret (bool_decide (is_Some r))
                 end;
          mret (text || is_role cx class C_char_value)
      | _ => mret false
      end
  end.

Definition observable (idx : N) : T bool := x ← excluded idx; mret (negb x).
Definition both (a b : T bool) : T bool := x ← a; if (x : bool) then b else mret false.

Definition step_eq_ref : T unit :=
  b ← pop; a ← pop;
  heap_ok ← both (run (is_heap cx a)) (both (run (is_heap cx b)) (both (observable a) (observable b)));
  ok ← (if (heap_ok : bool) then related a b else mret false);
  _ ← require ok ("reference equality needs related object types, found " +:+ types_text a b)%string;
  push TYPE_BOOL.

Definition step_type_test (target answer : N) : T unit :=
  value ← pop; vi ← instance value;
  '(vc, va) ← need vi ("type test on non-instance type " +:+ pretty value)%string;
  ti ← instance target;
  '(tc, ta) ← need ti ("type test target " +:+ pretty target +:+ " is not an instance type")%string;
  common ← run (vlift (common_ancestor cx vc tc));
  _ ← require (bool_decide (is_Some common)) "type test between unrelated classes";
  _ ← require (bool_decide (va = ta)) "type test changes the generic arguments";
  push answer.

Definition step_eq_digest : T unit :=
  b ← pop; a ← pop; ta ← ty_of a;
  ok ← (if bool_decide (ta = Ty_Digest) then tb ← ty_of b; mret (bool_decide (tb = Ty_Digest)) else mret false);
  _ ← require ok ("digest comparison on non-digest types " +:+ types_text a b)%string; push TYPE_BOOL.

Definition step_digest (idx : N) : T unit :=
  found ← pop;
  _ ← require (found =? idx)%N
        ("digest states type " +:+ pretty idx +:+ ", but its operand has type " +:+ pretty found)%string;
  heap ← run (is_heap cx idx);
  _ ← require heap ("digest on non-object type " +:+ pretty idx)%string;
  digest ← run (known Ty_Digest (λ _, true) (fail "Digest is not in the type table")); push digest.

(** *** Objects *)

Definition sealed (class : N) : bool := is_native_core_class cx class || is_reflection_descriptor_class cx class.

Definition step_new (class : N) : T unit :=
  _ ← require (negb (sealed class)) "New cannot allocate a sealed core class";
  idx ← run (vexpect (cx_class_ty cx !! N.to_nat class));
  idx ← need idx "the class type is not in the type table"; push idx.

Definition step_new_g (sc : Scope) (class app : N) : T unit :=
  _ ← require (negb (sealed class)) "NewG cannot allocate a sealed core class";
  app ← app_at app; _ ← check_application_scope sc app;
  bounds ← run (vexpect (md_class_bounds (module cx) !! N.to_nat class));
  ok ← run (type_arguments_meet_bounds cx (app_types app) [] bounds (sc_bounds sc) (Some (sc_index sc)));
  _ ← require ok "a class type argument does not meet its interface bounds";
  let inside_constructor := bool_decide (constructor_class cx fidx = Some class) in
  entry ← class_of class;
  frozen ← (if cls_is_frozen entry
            then run (allV (λ t, type_always_frozen cx t inside_constructor) (app_types app)) else mret true);
  _ ← require frozen "a frozen class needs always-frozen type arguments";
  idx ← newty (Ty_Inst class (app_types app)); push idx.

(** The declared type of a field, seen from its receiver. *)
Definition field_type (recv field : N) (verb option_message : string) : T N :=
  inst ← instance recv;
  '(class, class_args) ← need inst ("field " +:+ verb +:+ " on non-class type " +:+ pretty recv)%string;
  _ ← require (negb (is_reflection_descriptor_class cx class)) "a reflection descriptor has no visible fields";
  _ ← require (negb (is_role cx class C_option_some)) option_message;
  entry ← class_of class;
  '(_, fty) ← need (cls_fields entry !! N.to_nat field) "field index out of range";
  subst1 fty class_args [].

Definition step_load_field (field : N) : T unit :=
  recv ← pop; fty ← field_type recv field "load" "native Option payloads require OptionPayload"; push fty.

Definition step_store_field (field : N) : T unit :=
  value ← pop; recv ← pop;
  fty ← field_type recv field "store" "native Option payloads cannot be stored";
  ok ← sub value fty;
  require ok ("field store expects type " +:+ pretty fty +:+ ", found type " +:+ pretty value)%string.

Definition as_tuple (idx : N) (what : string) : T (list N) :=
  t ← ty_of idx; match t with Ty_Tuple elems => mret elems | _ => refuse what end.

Definition step_tuple_new (idx count : N) : T unit :=
  elems ← as_tuple idx ("expected a tuple type, found type " +:+ pretty idx)%string;
  _ ← require (lenN elems =? count)%N "tuple arity does not match its type";
  _ ← pop_args elems; push idx.

Definition step_tuple_get (index : N) : T unit :=
  t ← pop; elems ← as_tuple t ("tuple read on non-tuple type " +:+ pretty t)%string;
  elem ← need (elems !! N.to_nat index) "tuple index out of range"; push elem.

Definition step_seal_instance : T unit :=
  idx ← pop; t ← ty_of idx;
  class ← match t with
          | Ty_Class class | Ty_Inst class _ => mret class
          | _ => refuse "seal needs a class instance"
          end;
  definition ← need (md_classes (module cx) !! N.to_nat class) "seal names an unknown class";
  _ ← require (cls_is_frozen definition) "seal needs a frozen class";
  push idx.

(** *** Collections *)

Definition pinned (idx : N) : T N :=
  found ← run (option_arg cx idx); need found ("type " +:+ pretty idx +:+ " is not pinned Option")%string.

Definition pop_list : T N := l ← pop; as_list l.
Definition pop_map : T (N * N) := m ← pop; as_map m.

Definition step_list_new (idx count : N) : T unit :=
  elem ← as_list idx; _ ← times (N.to_nat count) (_ ← pop_expect elem; mret tt); push idx.

(** A value that must fit the element of the list below it. *)
Definition fits_element (value list : N) (what : N → string) : T unit :=
  elem ← as_list list; ok ← sub value elem; require ok (what elem).

Definition step_list_push : T unit :=
  value ← pop; l ← pop;
  _ ← fits_element value l (λ elem,
        ("list push expects element type " +:+ pretty elem +:+ ", found type " +:+ pretty value)%string);
  push TYPE_UNIT.

Definition step_map_new (sc : Scope) (idx count : N) : T unit :=
  '(k, v) ← as_map idx;
  ok ← run (hashable_map_key cx (sc_index sc) k);
  _ ← require ok "map construction needs a Hashable key type";
  _ ← (if (0 <? count)%N then native_key k else mret tt);
  _ ← times (N.to_nat count) (_ ← pop_expect v; _ ← pop_expect k; mret tt);
  push idx.

Definition accepts (key expected : N) (what : string) : T unit :=
  ok ← run (accepts_map_lookup_key cx key expected); require ok what.

Definition key_text (k key : N) : string := ("map key expects type " +:+ pretty k +:+ ", found type " +:+ pretty key)%string.

Definition step_map_has : T unit :=
  key ← pop; '(k, _) ← pop_map; _ ← native_key k; _ ← accepts key k (key_text k key); push TYPE_BOOL.

Definition step_map_at : T unit :=
  key ← pop; '(k, v) ← pop_map; _ ← native_key k; _ ← accepts key k (key_text k key); push v.

Definition unless (discard : bool) (idx : N) : T unit := if discard then mret tt else push idx.

Definition step_map_put (idx : N) (discard : bool) : T unit :=
  value ← pop; key ← pop; '(k, v) ← pop_map; _ ← native_key k;
  a ← sub key k; b ← (if (a : bool) then sub value v else mret false);
  _ ← require b "map put entry types do not match";
  want ← pinned idx;
  _ ← require (want =? v)%N "map put option type does not match";
  unless discard idx.

Definition step_map_put_text (idx : N) (discard : bool) : T unit :=
  value ← pop; key ← pop; '(expected_key, expected_value) ← pop_map;
  t ← ty_of expected_key;
  ok ← (if bool_decide (t = Ty_Str) then
          a ← run (accepts_map_lookup_key cx key expected_key);
          if (a : bool) then sub value expected_value else mret false
        else mret false);
  _ ← require ok "borrowed map insertion types do not match";
  want ← pinned idx;
  _ ← require (want =? expected_value)%N "map put option type does not match";
  unless discard idx.

Definition step_map_intern_text_range : T unit :=
  _ ← pop_expect TYPE_INT; _ ← pop_expect TYPE_INT;
  bytes ← pop; _ ← is_type bytes Ty_Bytes ("text range on non-bytes type " +:+ pretty bytes)%string;
  '(key, value) ← pop_map; tk ← ty_of key;
  ok ← (if bool_decide (tk = Ty_Str) then tv ← ty_of value; mret (bool_decide (tv = Ty_Str)) else mret false);
  _ ← require ok "text range interning needs Map[String, String]";
  push TYPE_STR.

Definition step_option_some (idx : N) : T unit :=
  want ← pinned idx; value ← pop; ok ← sub value want;
  _ ← require ok ("Option payload expects type " +:+ pretty want +:+ ", found type " +:+ pretty value)%string;
  push idx.

Definition step_option_payload (idx : N) : T unit :=
  option ← pop;
  a ← sub option idx; b ← (if (a : bool) then sub idx option else mret false);
  _ ← require b "OptionPayload type mismatch";
  inst ← instance idx;
  match inst with
  | Some (class, [arg]) => _ ← require (is_role cx class C_option_some) "OptionPayload needs Option.Some"; push arg
  | _ => refuse "OptionPayload needs Option.Some"
  end.

Definition step_map_get (idx : N) : T unit :=
  want ← pinned idx; key ← pop; '(expected_key, found) ← pop_map; _ ← native_key expected_key;
  _ ← accepts key expected_key (key_text expected_key key);
  _ ← require (found =? want)%N "map get option type does not match"; push idx.

Definition step_map_remove (idx : N) : T unit :=
  key ← pop; '(expected_key, value) ← pop_map; _ ← native_key expected_key;
  _ ← accepts key expected_key "map remove key type does not match";
  want ← pinned idx; _ ← require (want =? value)%N "map remove option type does not match"; push idx.

Definition step_map_probe_set_value (sc : Scope) : T unit :=
  value ← pop; _ ← pop_expect TYPE_INT; map ← pop; '(_, expected) ← hashable_map sc map;
  ok ← sub value expected; _ ← require ok "map value replacement type mismatch"; push TYPE_UNIT.

Definition step_map_insert_hashed (sc : Scope) : T unit :=
  _ ← pop_expect TYPE_INT; _ ← pop_expect TYPE_INT; value ← pop; key ← pop; map ← pop;
  '(expected_key, expected_value) ← hashable_map sc map;
  a ← sub key expected_key; b ← (if (a : bool) then sub value expected_value else mret false);
  _ ← require b "map insertion type mismatch"; push TYPE_UNIT.

End Rules.
