(* ===== verification/VerifyFunc.v ===== *)
(** * One function: every rule, the fixpoint and the replay
    (crates/lm-verify/src/step.rs, func.rs)

    Reflection scopes, the dispatch of [step], [merge], the worklist of
    [dataflow] and [states_at_points].  A block entry is [None] until an edge
    reaches it. *)

From stdpp Require Import base numbers list strings gmap sorting pretty.
From S2P Require Import Prelude Value Codec Bytecode ModuleTables VerifyCtx VerifySub VerifyStep VerifyPerform VerifyRules.

#[local] Open Scope nat_scope.

Section Dispatch.
Context (cx : Ctx) (func : Func) (fidx bidx iidx : N).

#[local] Abbreviation fail := (fail fidx bidx iidx).
#[local] Abbreviation refuse := (refuse fidx bidx iidx).
#[local] Abbreviation require := (require fidx bidx iidx).
#[local] Abbreviation need := (need fidx bidx iidx).
#[local] Abbreviation plain := (plain cx fidx bidx iidx).
#[local] Abbreviation pop := (pop fidx bidx iidx).
#[local] Abbreviation push := (push fidx bidx iidx).
#[local] Abbreviation pop_expect := (pop_expect cx fidx bidx iidx).
#[local] Abbreviation is_type := (is_type fidx bidx iidx).
#[local] Abbreviation sub := (sub cx).
#[local] Abbreviation instance := (instance cx).
#[local] Abbreviation as_list := (as_list fidx bidx iidx).
#[local] Abbreviation hashable_map := (hashable_map cx fidx bidx iidx).
#[local] Abbreviation func_at := (func_at cx).
#[local] Abbreviation int1 := (int1 cx fidx bidx iidx).
#[local] Abbreviation int2 := (int2 cx fidx bidx iidx).
#[local] Abbreviation unary := (unary cx fidx bidx iidx).
#[local] Abbreviation pinned := (pinned cx fidx bidx iidx).
#[local] Abbreviation pop_list := (pop_list fidx bidx iidx).
#[local] Abbreviation pop_map := (pop_map fidx bidx iidx).
#[local] Abbreviation text_ty := (text_ty cx fidx bidx iidx).
#[local] Abbreviation regex_ty := (regex_ty cx fidx bidx iidx).
#[local] Abbreviation match_ty := (match_ty cx fidx bidx iidx).
#[local] Abbreviation substring_ty := (substring_ty cx fidx bidx iidx).

(** *** Reflection *)

Definition open_descriptor : T unit := descriptor ← plain C_open_code "OpenCode"; _ ← pop_expect descriptor; mret tt.

(** [v.get(..n)]. *)
Definition slice_to {A} (l : list A) (n : N) : option (list A) :=
  if (n <=? lenN l)%N then Some (take (N.to_nat n) l) else None.

Definition checked_add_u32 (a b : N) : option N := if (a + b <=? U32_MAX)%N then Some (a + b)%N else None.

Definition refined_signature (kind : ReflectionKind) (metadata : Func) : T bool :=
  match func_params metadata, func_param_muts metadata, func_captures metadata with
  | [param], [false], [] =>
      match kind with
      | Refl_Constant | Refl_ClassDescriptor => mret true
      | _ => is_fn param
      end
  | _, _, _ => mret false
  end.

(** The scope a refinement opens, after its miss edge. *)
Definition refine (packed : N) : T unit :=
  let kind := pattern_kind packed in
  let pattern := pattern_function packed in
  metadata ← need (md_funcs (module cx) !! N.to_nat pattern) "reflection pattern out of range";
  ok ← refined_signature kind metadata;
  _ ← require ok "reflection pattern has an invalid refined signature";
  scopes ← reads st_scopes;
  let parent := default fidx (head scopes) in
  parent_metadata ← func_at parent;
  let base := func_type_params parent_metadata in
  extends ←
    (if ((func_type_params metadata <? base) || (func_effect_params metadata <? func_effect_params parent_metadata))%N
     then mret false else
     own ← func_bounds_at cx pattern; outer ← func_bounds_at cx parent;
     mret (bool_decide (slice_to own base = slice_to outer base)));
  _ ← require extends "reflection pattern does not extend its parent scope";
  param ← run (vexpect (head (func_params metadata)));
  _ ← (if bool_decide (kind = Refl_ClassDescriptor) then
         descriptor ←
           (if bool_decide (checked_add_u32 base 1 = Some (func_type_params metadata))
               && (func_effect_params metadata =? func_effect_params parent_metadata)%N
            then t ← ty_of param; mret (bool_decide (t = Ty_Var base)) else mret false);
         require descriptor "class descriptor refinement has invalid type metadata"
       else mret tt);
  _ ← writes (λ s, with_scopes s (pattern :: st_scopes s));
  match kind with
  | Refl_ClassDescriptor => declaration ← plain C_declaration_code "DeclarationCode"; push declaration
  | Refl_Code =>
      function_code ← need (role cx C_function_code) (carry "FunctionCode");
      idx ← newty (Ty_Inst function_code [param]); push idx
  | _ => push param
  end.

(** A type whose variables and projections the parent scope proves. *)
Definition survives (tbase ebase : N) (bounds : bounds_table) (idx : N) : V VerifyError bool :=
  andV (vars_bounded idx tbase ebase) (projections_proven cx idx bounds).

Fixpoint clear_locals (tbase ebase : N) (bounds : bounds_table) (slot : nat) (locals : list (option N)) :
    V VerifyError (list (option N)) :=
  match locals with
  | [] => mret []
  | held :: locals =>
      idx ← vexpect (func_local_types func !! slot);
      ok ← survives tbase ebase bounds idx;
      rest ← clear_locals tbase ebase bounds (S slot) locals;
      mret ((if (ok : bool) then held else None) :: rest)
  end.

Definition step_reflection_end (pattern bases : N) : T unit :=
  let tbase := bases_type_base bases in
  let ebase := bases_effect_base bases in
  scopes ← reads st_scopes;
  _ ← require (bool_decide (head scopes = Some pattern)) "reflection scopes end out of order";
  let scopes := tail scopes in
  let parent := default fidx (head scopes) in
  _ ← writes (λ s, with_scopes s scopes);
  parent_metadata ← func_at parent;
  _ ← require ((tbase =? func_type_params parent_metadata) && (ebase =? func_effect_params parent_metadata))%N
        "reflection scope base does not match its parent";
  parent_bounds ← func_bounds_at cx parent;
  stack ← reads st_stack;
  ok ← run (allV (survives tbase ebase parent_bounds) (reverse stack));
  _ ← require ok "a reflection-scoped value escapes its case arm";
  locals ← reads st_locals;
  locals ← run (clear_locals tbase ebase parent_bounds 0 locals);
  writes (λ s, with_locals s locals).

(** The code class of a definition value. *)
Definition pop_code (no_inst bad_class : string) : T unit :=
  code ← pop; inst ← instance code;
  '(class, _) ← need inst no_inst;
  require (is_role cx class C_function_code || is_role cx class C_class_code) bad_class.

(** [Option[want]] as the stated reply of a lookup. *)
Definition option_of (idx want : N) (what : string) : T unit :=
  found ← pinned idx; require (found =? want)%N what.

(** [option_arg(ty) != Some(want)]. *)
Definition option_is (idx want : N) (what : string) : T unit :=
  found ← run (option_arg cx idx); require (bool_decide (found = Some want)) what.

(** *** Extended instructions *)

Definition step_extended (sc : Scope) (instr : ExtendedInstr) : T unit :=
  match instr with
  | Ext_MakeCallback f _ => step_make_callback cx fidx bidx iidx sc f
  | Ext_AsCallback => step_as_callback cx fidx bidx iidx
  | Ext_OptionSome idx => step_option_some cx fidx bidx iidx idx
  | Ext_OptionNone idx => _ ← pinned idx; push idx
  | Ext_OptionPayload idx => step_option_payload cx fidx bidx iidx idx
  | Ext_ListGet idx =>
      want ← pinned idx; _ ← pop_expect TYPE_INT; found ← pop_list;
      _ ← require (found =? want)%N "list get option type does not match"; push idx
  | Ext_MapGet idx => step_map_get cx fidx bidx iidx idx
  | Ext_MapPutText idx discard => step_map_put_text cx fidx bidx iidx idx discard
  | Ext_MapInternTextRange => step_map_intern_text_range cx fidx bidx iidx
  | Ext_ListEpoch => _ ← pop_list; push TYPE_INT
  | Ext_ListIterLen => _ ← pop_expect TYPE_INT; _ ← pop_list; push TYPE_INT
  | Ext_MapEpoch => _ ← pop_map; push TYPE_INT
  | Ext_MapIterLen => _ ← pop_expect TYPE_INT; _ ← pop_map; push TYPE_INT
  | Ext_MapNextIndex => _ ← pop_expect TYPE_INT; _ ← pop_expect TYPE_INT; _ ← pop_map; push TYPE_INT
  | Ext_SealInstance => step_seal_instance cx fidx bidx iidx
  | Ext_MapKeyAt => _ ← pop_expect TYPE_INT; '(key, _) ← pop_map; push key
  | Ext_MapValueAt => _ ← pop_expect TYPE_INT; '(_, value) ← pop_map; push value
  | Ext_MapProbe => _ ← pop_expect TYPE_INT; _ ← pop_expect TYPE_INT; map ← pop; _ ← hashable_map sc map; push TYPE_INT
  | Ext_MapProbeFound => int1 TYPE_BOOL
  | Ext_MapProbeKey => _ ← pop_expect TYPE_INT; map ← pop; '(key, _) ← hashable_map sc map; push key
  | Ext_MapProbeValue => _ ← pop_expect TYPE_INT; map ← pop; '(_, value) ← hashable_map sc map; push value
  | Ext_MapProbeSetValue => step_map_probe_set_value cx fidx bidx iidx sc
  | Ext_MapProbeRemove => _ ← pop_expect TYPE_INT; map ← pop; '(_, value) ← hashable_map sc map; push value
  | Ext_MapInsertHashed => step_map_insert_hashed cx fidx bidx iidx sc
  | Ext_MapWriteGuard => map ← pop; _ ← hashable_map sc map; push TYPE_UNIT
  | Ext_ListCapacity => _ ← pop_list; push TYPE_INT
  | Ext_ListSet =>
      value ← pop; _ ← pop_expect TYPE_INT; l ← pop;
      _ ← fits_element cx fidx bidx iidx value l (λ _, "list set element type does not match"%string); push TYPE_UNIT
  | Ext_ListSwap => _ ← pop_expect TYPE_INT; _ ← pop_expect TYPE_INT; _ ← pop_list; push TYPE_UNIT
  | Ext_ListPop idx =>
      element ← pop_list; want ← pinned idx;
      _ ← require (want =? element)%N "list pop option type does not match"; push idx
  | Ext_ListInsert =>
      value ← pop; _ ← pop_expect TYPE_INT; l ← pop;
      _ ← fits_element cx fidx bidx iidx value l (λ _, "list insert element type does not match"%string); push TYPE_UNIT
  | Ext_ListRemove | Ext_ListSwapRemove => _ ← pop_expect TYPE_INT; element ← pop_list; push element
  | Ext_ListReserve | Ext_ListTruncate => _ ← pop_expect TYPE_INT; _ ← pop_list; push TYPE_UNIT
  | Ext_ListContains =>
      value ← pop; l ← pop;
      _ ← fits_element cx fidx bidx iidx value l (λ _, "list contains element type does not match"%string); push TYPE_BOOL
  | Ext_ListReorder => _ ← pop_list; push TYPE_UNIT
  | Ext_MapRemove idx => step_map_remove cx fidx bidx iidx idx
  | Ext_MapClear => _ ← pop_map; push TYPE_UNIT
  | Ext_MapReserve => _ ← pop_expect TYPE_INT; _ ← pop_map; push TYPE_UNIT
  | Ext_CallSlot slot app =>
      contract ← slot_at cx slot;
      match contract with
      | Slot_Function contract | Slot_Method contract =>
          call_contract cx func fidx bidx iidx sc contract app "a slot type argument does not meet its interface bounds"
      | _ => run vpanic
      end
  | Ext_NewSlot slot app =>
      contract ← slot_at cx slot;
      match contract with
      | Slot_Class _ _ _ constructor =>
          call_contract cx func fidx bidx iidx sc constructor app "a class slot type argument does not meet its interface bounds"
      | _ => run vpanic
      end
  | Ext_LoadSlot slot =>
      contract ← slot_at cx slot; match contract with Slot_Value idx => push idx | _ => run vpanic end
  | Ext_SendSlot slot =>
      contract ← slot_at cx slot;
      match contract with
      | Slot_Process message _ =>
          def ← op_at cx OP_PROC_SEND;
          _ ← claims cx func fidx bidx iidx (bo_name def)
                ("the send through a slot is not inside the claimed `" +:+ bo_name def +:+ "` row")%string;
          _ ← pop_expect message; send_result cx fidx bidx iidx
      | _ => run vpanic
      end
  | Ext_SyntaxTreeRoot =>
      tree ← plain C_syntax_tree "SyntaxTree"; result ← plain C_syntax_node "SyntaxNode"; unary tree result
  | Ext_SyntaxKind | Ext_SyntaxCategory | Ext_SyntaxRangeStart | Ext_SyntaxRangeEnd =>
      element ← plain C_syntax_element "SyntaxElement"; unary element TYPE_INT
  | Ext_SyntaxText => element ← plain C_syntax_element "SyntaxElement"; text ← substring_ty; unary element text
  | Ext_SyntaxChildren =>
      element ← plain C_syntax_element "SyntaxElement"; _ ← pop_expect element; l ← newty (Ty_List element); push l
  | Ext_SyntaxDetach => element ← plain C_syntax_element "SyntaxElement"; unary element element
  | Ext_DynPack idx =>
      value ← pop; ok ← sub value idx;
      _ ← require ok ("dynamic package expects type " +:+ pretty idx +:+ ", found type " +:+ pretty value)%string;
      package ← plain C_dyn_value "DynValue"; push package
  | Ext_DynRender => package ← plain C_dyn_value "DynValue"; unary package TYPE_STR
  | Ext_SyntaxBuildToken =>
      builder ← plain C_syntax_builder "SyntaxBuilder"; result ← plain C_syntax_token "SyntaxToken";
      _ ← pop_expect TYPE_STR; _ ← pop_expect TYPE_INT; unary builder result
  | Ext_SyntaxBuildTrivia =>
      builder ← plain C_syntax_builder "SyntaxBuilder"; result ← plain C_syntax_trivia "SyntaxTrivia";
      _ ← pop_expect TYPE_STR; _ ← pop_expect TYPE_INT; unary builder result
  | Ext_SyntaxBuildNode =>
      builder ← plain C_syntax_builder "SyntaxBuilder"; element ← plain C_syntax_element "SyntaxElement";
      result ← plain C_syntax_node "SyntaxNode"; children ← newty (Ty_List element);
      _ ← pop_expect children; _ ← pop_expect TYPE_INT; unary builder result
  | Ext_SyntaxToTree => node ← plain C_syntax_node "SyntaxNode"; tree ← plain C_syntax_tree "SyntaxTree"; unary node tree
  | Ext_FunctionCode target =>
      target ← func_at target;
      callable ← newty (Ty_Fn (func_params target) (func_param_muts target) (func_ret target) (func_row target));
      function_code ← need (role cx C_function_code) (carry "FunctionCode");
      result ← newty (Ty_Inst function_code [callable]); push result
  | Ext_ClassCode _ => code ← plain C_class_code "ClassCode"; push code
  | Ext_ModuleCode _ => code ← plain C_module_code "ModuleCode"; push code
  | Ext_ReflectionDeclarations =>
      receiver ← pop; module_code ← plain C_module_code "ModuleCode"; verified ← plain C_verified_module "VerifiedModule";
      _ ← require ((receiver =? module_code) || (receiver =? verified))%N
            "reflection declarations need ModuleCode or VerifiedModule";
      declaration ← plain C_declaration_code "DeclarationCode"; l ← newty (Ty_List declaration); push l
  | Ext_ReflectionOpen =>
      declaration ← plain C_declaration_code "DeclarationCode"; member ← plain C_member_code "MemberCode";
      found ← pop;
      _ ← require ((found =? declaration) || (found =? member))%N
            "reflection open needs a declaration or member descriptor";
      module_code ← plain C_module_code "ModuleCode"; _ ← pop_expect module_code;
      open_code ← plain C_open_code "OpenCode"; push open_code
  | Ext_ReflectionMembers =>
      declaration ← plain C_declaration_code "DeclarationCode"; _ ← pop_expect declaration;
      member ← plain C_member_code "MemberCode"; l ← newty (Ty_List member); push l
  | Ext_ReflectionName =>
      descriptor ← pop; inst ← instance descriptor;
      match inst with
      | Some (class, []) =>
          _ ← require (is_named_code_class cx class) "reflection name needs a descriptor"; push TYPE_STR
      | _ => refuse "reflection name needs a descriptor"
      end
  | Ext_ReflectionDeclarationKind =>
      declaration ← plain C_declaration_code "DeclarationCode"; _ ← pop_expect declaration;
      kind ← plain C_code_kind "CodeKind"; push kind
  | Ext_ReflectionMemberKind =>
      member ← plain C_member_code "MemberCode"; _ ← pop_expect member; kind ← plain C_code_kind "CodeKind"; push kind
  | Ext_ReflectionTypeParameterCount => declaration ← plain C_declaration_code "DeclarationCode"; unary declaration TYPE_INT
  | Ext_ReflectionInterfaceNames =>
      declaration ← plain C_declaration_code "DeclarationCode"; _ ← pop_expect declaration;
      l ← newty (Ty_List TYPE_STR); push l
  | Ext_ReflectionRefine pattern _ => _ ← open_descriptor; refine pattern
  | Ext_ReflectionEnd pattern bases => step_reflection_end pattern bases
  | Ext_CodeSource idx =>
      _ ← pop_code "code source needs a portable definition" "code source needs FunctionCode or ClassCode";
      source ← plain C_definition_source "DefinitionSource";
      _ ← option_of idx source "code source result must be Option[DefinitionSource]"; push idx
  | Ext_CodeDefinition =>
      _ ← pop_code "code definition needs portable code" "code definition needs FunctionCode or ClassCode";
      definition ← plain C_definition_spec "DefinitionSpec"; push definition
  | Ext_FaultSite idx =>
      fault ← pop; _ ← is_type fault Ty_Fault "fault site needs a Fault value";
      location ← plain C_code_location "CodeLocation";
      _ ← option_of idx location "fault site result must be Option[CodeLocation]"; push idx
  | Ext_FaultTrace idx =>
      fault ← pop; _ ← is_type fault Ty_Fault "fault trace needs a Fault value";
      location ← plain C_code_location "CodeLocation";
      _ ← is_type idx (Ty_List location) "fault trace result must be List[CodeLocation]"; push idx
  | Ext_PrepareWait op_argc reply_ty => step_prepare_wait cx func fidx bidx iidx op_argc reply_ty
  | Ext_RegexCaptures idx =>
      text ← text_ty; regex ← regex_ty; matched ← match_ty; _ ← pop_expect text; _ ← pop_expect regex;
      _ ← option_is idx matched "regex captures must return Option[RegexMatch]"; push idx
  | Ext_RegexMatchGroup idx =>
      matched ← match_ty; substring ← substring_ty; _ ← pop_expect TYPE_INT; _ ← pop_expect matched;
      _ ← option_is idx substring "regex groups must return Option[Substring]"; push idx
  | Ext_RegexMatchNamed idx =>
      text ← text_ty; matched ← match_ty; substring ← substring_ty; _ ← pop_expect text; _ ← pop_expect matched;
      _ ← option_is idx substring "named regex groups must return Option[Substring]"; push idx
  end.

(** *** Locals and constants *)

Definition step_load_local (slot : N) : T unit :=
  locals ← reads st_locals;
  held ← run (vexpect (locals !! N.to_nat slot));
  idx ← need held "load from a local without a value"; push idx.

Definition step_store_local (slot : N) : T unit :=
  idx ← pop; declared ← run (vexpect (func_local_types func !! N.to_nat slot));
  ok ← sub idx declared;
  _ ← require ok ("store to local " +:+ pretty slot +:+ " expects the declared type " +:+ pretty declared
                  +:+ ", found type " +:+ pretty idx)%string;
  locals ← reads st_locals;
  _ ← run (vexpect (locals !! N.to_nat slot));
  writes (λ s, with_locals s (<[N.to_nat slot := Some declared]> (st_locals s))).

Definition step_const_float (bits : N) : T unit :=
  _ ← require (negb (is_nan_bits bits && negb (bits =? CANONICAL_NAN_BITS)%N)) "a Float constant has a noncanonical NaN";
  float ← newty Ty_Float; push float.

Definition step_const_char (value : N) : T unit :=
  _ ← require (bool_decide (is_Some (char_from_u32 value))) "a character constant is not one Unicode scalar";
  idx ← plain C_char_value "Char"; push idx.

(** *** One instruction that has no edge *)

Definition step_instr (sc : Scope) (instr : Instr) : T unit :=
  match instr with
  | I_ConstUnit => push TYPE_UNIT
  | I_ConstBool _ => push TYPE_BOOL
  | I_ConstInt _ => push TYPE_INT
  | I_ConstFloat bits => step_const_float bits
  | I_ConstChar value => step_const_char value
  | I_ConstStr _ => push TYPE_STR
  | I_ConstBytes index =>
      _ ← require (index <? lenN (md_bytes (module cx)))%N "a byte literal index is outside its table";
      bytes ← newty Ty_Bytes; push bytes
  | I_ConstRegex index =>
      _ ← require (index <? lenN (md_strings (module cx)))%N "a regular-expression source index is outside its table";
      idx ← regex_ty; push idx
  | I_Numeric instruction => step_numeric cx fidx bidx iidx instruction
  | I_LoadLocal slot => step_load_local slot
  | I_StoreLocal slot => step_store_local slot
  | I_Pop => _ ← pop; mret tt
  | I_Add | I_Sub | I_Mul | I_Div | I_Rem => int2 TYPE_INT
  | I_Neg => int1 TYPE_INT
  | I_Not => unary TYPE_BOOL TYPE_BOOL
  | I_LtInt | I_LeInt | I_GtInt | I_GeInt | I_EqInt | I_NeInt => int2 TYPE_BOOL
  | I_EqBool | I_NeBool => bool2 cx fidx bidx iidx
  | I_Native instruction => step_native cx fidx bidx iidx instruction
  | I_EqValue | I_NeValue => step_eq_value cx fidx bidx iidx
  | I_EqRef | I_NeRef => step_eq_ref cx fidx bidx iidx
  | I_Call callee => step_call cx func fidx bidx iidx callee
  | I_CallG callee app => step_call_g cx func fidx bidx iidx sc callee app
  | I_CallVirtual selector argc => step_call_virtual cx func fidx bidx iidx selector argc
  | I_CallVirtualG selector argc app => step_call_virtual_g cx func fidx bidx iidx sc selector argc app
  | I_CallInterface site recv_ty app => step_call_interface cx func fidx bidx iidx sc site recv_ty app
  | I_CallValue argc => step_call_value cx func fidx bidx iidx argc
  | I_MakeClosure f _ => step_make_closure cx fidx bidx iidx sc f
  | I_LoadCapture index => idx ← run (vexpect (func_captures func !! N.to_nat index)); push idx
  | I_New class => step_new cx fidx bidx iidx class
  | I_NewG class app => step_new_g cx fidx bidx iidx sc class app
  | I_LoadField field => step_load_field cx fidx bidx iidx field
  | I_StoreField field => step_store_field cx fidx bidx iidx field
  | I_TupleNew idx count => step_tuple_new cx fidx bidx iidx idx count
  | I_TupleGet index => step_tuple_get fidx bidx iidx index
  | I_IsType target => step_type_test cx fidx bidx iidx target TYPE_BOOL
  | I_CastType target => step_type_test cx fidx bidx iidx target target
  | I_ListNew idx count => step_list_new cx fidx bidx iidx idx count
  | I_ListLen => _ ← pop_list; push TYPE_INT
  | I_ListAt => _ ← pop_expect TYPE_INT; elem ← pop_list; push elem
  | I_ListPush => step_list_push cx fidx bidx iidx
  | I_MapNew idx count => step_map_new cx fidx bidx iidx sc idx count
  | I_MapLen => _ ← pop_map; push TYPE_INT
  | I_MapHas => step_map_has cx fidx bidx iidx
  | I_MapAt => step_map_at cx fidx bidx iidx
  | I_MapPut idx discard => step_map_put cx fidx bidx iidx idx discard
  | I_Freeze =>
      idx ← pop; heap ← run (is_heap cx idx);
      _ ← require heap ("freeze on non-object type " +:+ pretty idx)%string; push idx
  | I_Digest idx => step_digest cx fidx bidx iidx idx
  | I_EqDigest | I_NeDigest => step_eq_digest fidx bidx iidx
  | I_Jump _ => mret tt
  | I_JumpIfFalse _ | I_JumpIfTrue _ => _ ← pop_expect TYPE_BOOL; mret tt
  | I_Return => _ ← pop_expect (func_ret func); mret tt
  | I_Perform op _ reply_ty => step_perform cx func fidx bidx iidx op reply_ty
  | I_PerformValue argc reply_ty => step_perform_value cx func fidx bidx iidx argc reply_ty
  | I_OpConst op => sig ← abi fidx bidx iidx (fixed_sig_type cx op); idx ← newty (Ty_Op op sig); push idx
  | I_TableEdit action kind slot => step_table_edit cx func fidx bidx iidx action kind slot
  | I_AsCall op idx => step_as_call cx fidx bidx iidx op idx
  | I_CallArgs =>
      call ← pop; t ← ty_of call;
      match t with
      | Ty_PendingCall view _ => push view
      | _ => refuse ("args view on non-call type " +:+ pretty call)%string
      end
  | I_FaultCode =>
      fault ← pop; _ ← is_type fault Ty_Fault ("fault code on non-fault type " +:+ pretty fault)%string; push TYPE_STR
  | I_FaultDenied => _ ← pop_expect TYPE_STR; fault ← newty Ty_Fault; push fault
  | I_RaiseUserPanic | I_RaiseAssertionFailed => _ ← pop_expect TYPE_STR; mret tt
  | I_RaiseFault =>
      fault ← pop; is_type fault Ty_Fault ("fault raise on non-fault type " +:+ pretty fault)%string
  | I_RequestOp =>
      request ← pop; _ ← is_type request Ty_Request ("request op on non-request type " +:+ pretty request)%string;
      push TYPE_STR
  | I_Unreachable => mret tt
  | I_Extended instruction => step_extended sc instruction
  end.

(** *** [step]: the scope, the live values, the rule and its edge *)

(** The operands of [ReflectionRefine]; the target of a jump. *)
Definition refinement (instr : Instr) : option (N * N) :=
  match instr with
  | I_Extended x => match x with Ext_ReflectionRefine pattern target => Some (pattern, target) | _ => None end
  | _ => None
  end.
Definition jump_target (instr : Instr) : option N :=
  match instr with I_Jump target | I_JumpIfFalse target | I_JumpIfTrue target => Some target | _ => None end.

Definition step {A} (edge : N → State → A → V VerifyError A) (instr : Instr) (s : State) (acc : A) :
    V VerifyError (State * A) :=
  sc ← scope_of cx fidx bidx iidx s;
  _ ← check_live cx fidx bidx iidx sc s;
  match refinement instr with
  | Some (pattern, target) =>
      '(_, s) ← open_descriptor s;
      acc ← edge target s acc;
      '(_, s) ← refine pattern s;
      mret (s, acc)
  | None =>
      '(_, s) ← step_instr sc instr s;
      match jump_target instr with
      | Some target => acc ← edge target s acc; mret (s, acc)
      | None => mret (s, acc)
      end
  end.

End Dispatch.

(** ** The fixpoint *)

Abbreviation entries := (list (option State)).

Section Function.
Context (cx : Ctx) (func : Func) (fidx : N).

(** The entry table and the queue that [merge] updates. *)
Record Flow := mkFlow { fl_states : entries; fl_work : list N }.

Definition block_error (target : N) (what : string) : VerifyError :=
  err fidx ("block " +:+ pretty target +:+ what)%string.

Fixpoint merge_stack (target : N) (have new : list N) : V VerifyError (list N * bool) :=
  match have, new with
  | h :: have, n :: new =>
      '(h', c) ←
        (if (h =? n)%N then mret (h, false) else
         joined ← join cx h n;
         j ← vok_or joined (block_error target " entry stack types have no common type");
         mret (j, negb (j =? h)%N));
      '(have, changed) ← merge_stack target have new;
      mret (h' :: have, c || changed)
  | have, _ => mret (have, false)
  end.

Fixpoint merge_locals (have new : list (option N)) : V VerifyError (list (option N) * bool) :=
  match have, new with
  | h :: have, n :: new =>
      m ← match h, n with
          | Some a, Some b => if (a =? b)%N then mret (Some a) else join cx a b
          | _, _ => mret None
          end;
      '(have, changed) ← merge_locals have new;
      mret (m :: have, negb (bool_decide (m = h)) || changed)
  | have, _ => mret (have, false)
  end.

Definition merge (target : N) (edge : State) (fl : Flow) : V VerifyError Flow :=
  slot ← vexpect (fl_states fl !! N.to_nat target);
  match slot with
  | None => mret (mkFlow (<[N.to_nat target := Some edge]> (fl_states fl)) (fl_work fl ++ [target]))
  | Some existing =>
      _ ← vrequire (bool_decide (st_scopes existing = st_scopes edge))
            (block_error target " enters through different reflection scopes");
      _ ← vrequire (length (st_stack existing) =? length (st_stack edge))
            (block_error target " entry stack shapes do not agree");
      '(stack, c1) ← merge_stack target (reverse (st_stack existing)) (reverse (st_stack edge));
      '(locals, c2) ← merge_locals (st_locals existing) (st_locals edge);
      mret (mkFlow (<[N.to_nat target := Some (mkState locals (reverse stack) (st_scopes existing))]> (fl_states fl))
              (if c1 || c2 then fl_work fl ++ [target] else fl_work fl))
  end.

(** Every instruction of a block from its [iidx]-th on. *)
Fixpoint run_block {A} (edge : N → State → A → V VerifyError A) (bidx iidx : N) (code : list Instr) (s : State)
    (acc : A) : V VerifyError (State * A) :=
  match code with
  | [] => mret (s, acc)
  | instr :: code =>
      '(s, acc) ← step cx func fidx bidx iidx edge instr s acc;
      run_block edge bidx (iidx + 1) code s acc
  end.

Definition block_at (bidx : N) : V VerifyError (list Instr) := vexpect (func_blocks func !! N.to_nat bidx).

Fixpoint flow_loop (rounds : nat) (fl : Flow) : V VerifyError entries :=
  match rounds with
  | O => vstop
  | S rounds =>
      match fl_work fl with
      | [] => mret (fl_states fl)
      | bidx :: work =>
          slot ← vexpect (fl_states fl !! N.to_nat bidx);
          s ← vexpect slot;
          code ← block_at bidx;
          '(_, fl) ← run_block merge bidx 0 code s (mkFlow (fl_states fl) work);
          flow_loop rounds fl
      end
  end.

(** The locals of block 0: the parameters, then empty slots. *)
Definition entry_locals : exec (list (option N)) :=
  if (lenN (func_params func) <=? local_count func)%N
  then Ret ((Some <$> func_params func) ++ replicate (N.to_nat (local_count func) - length (func_params func)) None)
  else Panic.

Definition entry_flow : exec Flow :=
  locals ← entry_locals;
  match func_blocks func with
  | [] => Panic
  | _ :: blocks => Ret (mkFlow (Some (mkState locals [] []) :: replicate (length blocks) None) [0%N])
  end.

Definition dataflow (rounds : nat) : V VerifyError entries := fl ← vlift entry_flow; flow_loop rounds fl.

(** ** Replay *)

Definition drop_edge (_ : N) (_ : State) (u : unit) : V VerifyError unit := mret u.

(** The requests of one block, by position; [sort_unstable_by_key]. *)
Definition request_le (a b : N * N) : Prop := (a.1 <= b.1)%N.
#[export] Instance request_le_dec : RelDecision request_le := λ a b, decide (_ <= _)%N.

(** One request filed under its block, the [result]-th of the caller. *)
Definition file_request (groups : list (list (N * N))) (result : N) (point : N * N) :
    V VerifyError (list (list (N * N))) :=
  let '(block, instruction) := point in
  code ← vok_or (func_blocks func !! N.to_nat block) (err fidx "a requested state has a block outside the function");
  _ ← vrequire (instruction <=? lenN code)%N (err fidx "a requested state has an instruction outside the block");
  mret (alter (λ g, g ++ [(instruction, result)]) (N.to_nat block) groups).

Fixpoint file_requests (groups : list (list (N * N))) (result : N) (points : list (N * N)) :
    V VerifyError (list (list (N * N))) :=
  match points with
  | [] => mret groups
  | point :: points => groups ← file_request groups result point; file_requests groups (result + 1) points
  end.

(** Answer the requests at the current position. *)
Fixpoint take_requests (iidx : N) (s : State) (requests : list (N * N)) (results : entries) :
    list (N * N) * entries :=
  match requests with
  | (position, result) :: rest =>
      if (position =? iidx)%N then take_requests iidx s rest (<[N.to_nat result := Some s]> results)
      else (requests, results)
  | [] => (requests, results)
  end.

Fixpoint replay_block (bidx iidx : N) (code : list Instr) (s : State) (requests : list (N * N)) (results : entries) :
    V VerifyError entries :=
  let '(requests, results) := take_requests iidx s requests results in
  match code with
  | [] => mret results
  | instr :: code =>
      '(s, _) ← step cx func fidx bidx iidx drop_edge instr s tt;
      replay_block bidx (iidx + 1) code s requests results
  end.

Fixpoint replay_blocks (bidx : N) (states : entries) (blocks : list (list Instr)) (groups : list (list (N * N)))
    (results : entries) : V VerifyError entries :=
  match blocks, groups with
  | code :: blocks, requests :: groups =>
      results ←
        match requests, states !! N.to_nat bidx with
        | _ :: _, Some (Some s) => replay_block bidx 0 code s (merge_sort request_le requests) results
        | _, _ => mret results
        end;
      replay_blocks (bidx + 1) states blocks groups results
  | _, _ => mret results
  end.

Definition states_at_points (states : entries) (points : list (N * N)) : V VerifyError entries :=
  groups ← file_requests (replicate (length (func_blocks func)) []) 0 points;
  replay_blocks 0 states (func_blocks func) groups (replicate (length points) None).

End Function.
