(* ===== verification/VerifyStable.v ===== *)
(** * Verifier calls under a growing universe

    The verifier interns types while it works, so the same call made later
    runs against a larger universe.  [grows] says how a universe extends
    another; [stable] that a call which succeeds answers the same in every
    later universe and adds nothing there.  Every check of the context and
    every rule of the transfer function is stable, which is what makes the
    replay of a verified block agree with the fixpoint. *)

From stdpp Require Import base numbers list strings gmap sorting pretty.
From S2P Require Import Prelude Value Codec Bytecode ModuleTables VerifyCtx VerifySub.

#[local] Open Scope nat_scope.

(** ** Growth *)

(** The index names the entries of the table; the table fits 32 bits. *)
Definition index_ok (u : Universe) : Prop :=
  ∀ t i, index_get (uni_index u) t = Some i → uni_types u !! N.to_nat i = Some t.
Definition fits (u : Universe) : Prop := (lenN (uni_types u) <= 4294967296)%N.

Record grows (u u' : Universe) : Prop := mkGrows {
  grows_types : uni_types u `prefix_of` uni_types u';
  grows_facts : uni_facts u `prefix_of` uni_facts u';
  grows_index : ∀ t i, index_get (uni_index u) t = Some i → index_get (uni_index u') t = Some i;
  grows_ok : index_ok u → fits u' → index_ok u';
}.

Lemma fits_prefix u u' : uni_types u `prefix_of` uni_types u' → fits u' → fits u.
Proof. unfold fits, lenN. intros H%prefix_length. lia. Qed.

#[export] Instance grows_refl : Reflexive grows.
Proof. intros u. by constructor. Qed.
#[export] Instance grows_trans : Transitive grows.
Proof.
  intros u v w [] [G2 ? ? ?]. constructor; [by etrans | by etrans | eauto|].
  intros Hok Hf. eauto using fits_prefix.
Qed.

Lemma grows_type u u' i t : grows u u' → uni_types u !! i = Some t → uni_types u' !! i = Some t.
Proof. intros [H _ _ _] Ht. by eapply prefix_lookup_Some. Qed.
Lemma grows_fact u u' i f : grows u u' → uni_facts u !! i = Some f → uni_facts u' !! i = Some f.
Proof. intros [_ H _ _] Hf. by eapply prefix_lookup_Some. Qed.

Lemma index_get_cons t i ix t' :
  index_get ((t, i) :: ix) t' = if bool_decide (t = t') then Some i else index_get ix t'.
Proof. done. Qed.

Lemma intern_grows u t i u' : universe_intern u t = (i, u') →
  grows u u' ∧ index_get (uni_index u') t = Some i.
Proof.
  unfold universe_intern. destruct (index_get (uni_index u) t) as [j|] eqn:Hj; intros [= <- <-]; [done|].
  split; [|cbn [uni_index]; by rewrite index_get_cons, bool_decide_true].
  constructor; cbn [uni_types uni_facts uni_index]; [by eexists | by eexists | |].
  - intros t' k Hk. rewrite index_get_cons. case_bool_decide; congruence.
  - unfold fits, lenN. cbn [uni_types]. rewrite length_app. cbn [length]. intros Hok Hf t' k.
    cbn [uni_types uni_index]. rewrite index_get_cons. case_bool_decide as Ht.
    + intros [= <-]. subst. rewrite as_u32_small by (unfold U32_MAX; lia). rewrite Nat2N.id.
      by rewrite lookup_app_r, Nat.sub_diag by lia.
    + intros Hk%Hok. by apply lookup_app_l_Some.
Qed.

Section Stable.
Context (u0 : Universe).

Definition stable {E A} (m : V E A) : Prop := ∀ u x u1,
  grows u0 u → m u = Ret (Ok (x, u1)) → grows u u1 ∧ ∀ u2, grows u1 u2 → m u2 = Ret (Ok (x, u2)).

(** The same for the answers in [P]: a call whose other answers are refused. *)
Definition stable_at {E A} (P : A → Prop) (m : V E A) : Prop := ∀ u x u1,
  grows u0 u → P x → m u = Ret (Ok (x, u1)) → grows u u1 ∧ ∀ u2, grows u1 u2 → m u2 = Ret (Ok (x, u2)).

Lemma bind_inv {E A B} (m : V E A) (f : A → V E B) u y u2 :
  (m ≫= f) u = Ret (Ok (y, u2)) → ∃ x u1, m u = Ret (Ok (x, u1)) ∧ f x u1 = Ret (Ok (y, u2)).
Proof. unfold mbind, V_bind. destruct (m u) as [[[x u1]|]| |]; [eauto | done..]. Qed.

Lemma bind_ok {E A B} (m : V E A) (f : A → V E B) u x u1 :
  m u = Ret (Ok (x, u1)) → (m ≫= f) u = f x u1.
Proof. unfold mbind, V_bind. by intros ->. Qed.

Lemma stable_at_bind {E A B} P Q (m : V E A) (f : A → V E B) :
  stable_at P m → (∀ x, P x → stable_at Q (f x)) →
  (∀ x u y u1, ¬ P x → Q y → f x u ≠ Ret (Ok (y, u1))) → (∀ x, P x ∨ ¬ P x) → stable_at Q (m ≫= f).
Proof.
  intros Hm Hf Hn HP u y u2 Hu HQ (x & u1 & H1 & H2)%bind_inv.
  destruct (HP x) as [Hx|Hx]; [|by destruct (Hn x u1 y u2)].
  destruct (Hm u x u1) as [G1 S1]; [done..|]. destruct (Hf x Hx u1 y u2) as [G2 S2]; [by etrans|done..|].
  split; [by etrans|]. intros u3 Hu3. erewrite bind_ok by (apply S1; by etrans). by apply S2.
Qed.

Lemma stable_is_at {E A} (m : V E A) : stable m ↔ stable_at (λ _, True) m.
Proof. unfold stable, stable_at. naive_solver. Qed.
Lemma stable_at_of {E A} P (m : V E A) : stable m → stable_at P m.
Proof. unfold stable, stable_at. eauto. Qed.

Lemma stable_ret {E A} (x : A) : stable (E:=E) (mret x).
Proof. intros u y u1 _ [= <- <-]. done. Qed.
Lemma stable_bind {E A B} (m : V E A) (f : A → V E B) : stable m → (∀ x, stable (f x)) → stable (m ≫= f).
Proof.
  intros Hm Hf. apply stable_is_at. apply (stable_at_bind (λ _, True)); [by apply stable_is_at| | |naive_solver].
  - intros x _. by apply stable_is_at.
  - naive_solver.
Qed.
Lemma stable_vfail {E A} (e : E) : stable (A:=A) (vfail e).
Proof. done. Qed.
Lemma stable_vstop {E A} : stable (E:=E) (A:=A) vstop.
Proof. done. Qed.
Lemma stable_vpanic {E A} : stable (E:=E) (A:=A) vpanic.
Proof. done. Qed.
Lemma stable_vlift {E A} (x : exec A) : stable (E:=E) (vlift x).
Proof. intros u y u1 _. unfold vlift. destruct x; [|done..]. intros [= <- <-]. done. Qed.
Lemma stable_vexpect {E A} (o : option A) : stable (E:=E) (vexpect o).
Proof. apply stable_vlift. Qed.
Lemma stable_vok_or {E A} (o : option A) (e : E) : stable (vok_or o e).
Proof. destruct o; [apply stable_ret | apply stable_vfail]. Qed.
Lemma stable_vrequire {E} b (e : E) : stable (vrequire b e).
Proof. destruct b; [apply stable_ret | apply stable_vfail]. Qed.
Lemma stable_map_err {E E' A} (f : E → E') (m : V E A) : stable m → stable (map_err f m).
Proof.
  intros Hm u x u1 Hu. unfold map_err. destruct (m u) as [[[y v]|]| |] eqn:Em; [|done..]. intros [= <- <-].
  destruct (Hm _ _ _ Hu Em) as [G S]. split; [done|]. intros u2 Hu2. by rewrite S.
Qed.
Lemma stable_ty {E} idx : stable (E:=E) (ty idx).
Proof.
  intros u x u1 _. unfold ty. destruct (_ !! _) eqn:H; [|done]. intros [= <- <-].
  split; [done|]. intros u2 Hu2. by erewrite grows_type by eauto.
Qed.
Lemma stable_intern {E} t : stable (E:=E) (intern t).
Proof.
  intros u x u1 _. unfold intern. destruct (universe_intern u t) as [i u'] eqn:Hi. intros [= <- <-].
  destruct (intern_grows _ _ _ _ Hi) as [G H]. split; [done|]. intros u2 Hu2.
  unfold universe_intern. by rewrite (grows_index _ _ Hu2 _ _ H).
Qed.
Lemma stable_known {E} t keep (e : E) : stable (known t keep e).
Proof.
  intros u x u1 _. unfold known. destruct (index_get _ _) as [i|] eqn:H; [|done].
  destruct (keep i) eqn:Hk; [|done]. intros [= <- <-]. split; [done|].
  intros u2 Hu2. by rewrite (grows_index _ _ Hu2 _ _ H), Hk.
Qed.

End Stable.

Create HintDb stab.
#[export] Hint Resolve stable_ret stable_vfail stable_vstop stable_vpanic stable_vlift stable_vexpect stable_vok_or
  stable_vrequire stable_map_err stable_ty stable_intern stable_known : stab.

(** One step of a stability proof: bind, case analysis or a known call. *)
Ltac stab_step :=
  lazymatch goal with
  | |- ∀ _, _ => intro
  | |- stable _ (mbind _ _) => apply stable_bind
  | |- stable _ (match ?x with _ => _ end) => destruct x
  | |- stable _ (let _ := _ in _) => cbv zeta
  | |- _ => solve [auto with stab nocore]
  end.
Ltac stab := repeat stab_step.

Section Stable_lists.
Context (u0 : Universe) {E : Type}.

Lemma stable_allV {A} (f : A → V E bool) l : (∀ x, stable u0 (f x)) → stable u0 (allV f l).
Proof. intros H. induction l; simpl; stab. Qed.
Lemma stable_anyV {A} (f : A → V E bool) l : (∀ x, stable u0 (f x)) → stable u0 (anyV f l).
Proof. intros H. induction l; simpl; stab. Qed.
Lemma stable_mapV {A B} (f : A → V E B) l : (∀ x, stable u0 (f x)) → stable u0 (mapV f l).
Proof. intros H. induction l; simpl; stab. Qed.
Lemma stable_find_mapV {A B} (f : A → V E (option B)) l : (∀ x, stable u0 (f x)) → stable u0 (find_mapV f l).
Proof. intros H. induction l; simpl; stab. Qed.
Lemma stable_andV (a b : V E bool) : stable u0 a → stable u0 b → stable u0 (andV a b).
Proof. intros. unfold andV. stab. Qed.
Lemma stable_orV (a b : V E bool) : stable u0 a → stable u0 b → stable u0 (orV a b).
Proof. intros. unfold orV. stab. Qed.

End Stable_lists.

(** With the list walks and the short-circuit connectives. *)
Ltac stab_more :=
  lazymatch goal with
  | |- stable _ (allV _ _) => apply stable_allV
  | |- stable _ (anyV _ _) => apply stable_anyV
  | |- stable _ (mapV _ _) => apply stable_mapV
  | |- stable _ (find_mapV _ _) => apply stable_find_mapV
  | |- stable _ (andV _ _) => apply stable_andV
  | |- stable _ (orV _ _) => apply stable_orV
  | |- stable _ (map_err _ _) => apply stable_map_err
  | |- _ => stab_step
  end.
Ltac stab ::= repeat stab_more.

Section Stable_context.
Context (u0 : Universe) (cx : Ctx) {E : Type}.

Lemma stable_as_instance idx : stable u0 (as_instance cx (E:=E) idx).
Proof. unfold as_instance. stab. Qed.
#[local] Hint Resolve stable_as_instance : stab.
Lemma stable_option_arg idx : stable u0 (option_arg cx (E:=E) idx).
Proof. unfold option_arg. stab. Qed.
Lemma stable_native_map_key idx : stable u0 (native_map_key cx (E:=E) idx).
Proof. unfold native_map_key. stab. Qed.
Lemma stable_is_heap idx : stable u0 (is_heap cx (E:=E) idx).
Proof. unfold is_heap. stab. Qed.
Lemma stable_frozen_inner n idx b : stable u0 (type_always_frozen_inner cx (E:=E) n idx b).
Proof. revert idx. induction n as [|n IH]; intros idx; simpl; stab. Qed.
Lemma stable_always_frozen idx b : stable u0 (type_always_frozen cx (E:=E) idx b).
Proof. apply stable_frozen_inner. Qed.
Lemma stable_alias a b c : stable u0 (iterable_item_alias cx (E:=E) a b c).
Proof. unfold iterable_item_alias. stab. Qed.
#[local] Hint Resolve stable_alias : stab.

(** The mutual recursion, one conjunct per function. *)
Lemma stable_resolution n :
  (∀ a b c d, stable u0 (subst_with_bounds cx (E:=E) n a b c d)) ∧
  (∀ a b c d e, stable u0 (subst_loop cx (E:=E) n a b c d e)) ∧
  (∀ a b c d e f, stable u0 (subst_node cx (E:=E) n a b c d e f)) ∧
  (∀ a b c d, stable u0 (projected_type_with_bounds cx (E:=E) n a b c d)) ∧
  (∀ a b c d, stable u0 (concrete_conformance_with_bounds cx (E:=E) n a b c d)) ∧
  (∀ a b c d e, stable u0 (conformance_loop cx (E:=E) n a b c d e)) ∧
  (∀ a b c d, stable u0 (interface_application_with_bounds cx (E:=E) n a b c d)) ∧
  (∀ a b c d, stable u0 (inherited_interface_application cx (E:=E) n a b c d)) ∧
  (∀ a b c d, stable u0 (subst_interface_use_with_bounds cx (E:=E) n a b c d)).
Proof.
  induction n as [|n (I1 & I2 & I3 & I4 & I5 & I6 & I7 & I8 & I9)]; split_and!; intros; simpl; stab.
Qed.

Lemma stable_subst_with_bounds n a b c d : stable u0 (subst_with_bounds cx (E:=E) n a b c d).
Proof. apply stable_resolution. Qed.
Lemma stable_use_with_bounds n a b c d : stable u0 (subst_interface_use_with_bounds cx (E:=E) n a b c d).
Proof. apply stable_resolution. Qed.
Lemma stable_application_with_bounds n a b c d : stable u0 (interface_application_with_bounds cx (E:=E) n a b c d).
Proof. apply stable_resolution. Qed.
#[local] Hint Resolve stable_subst_with_bounds stable_use_with_bounds stable_application_with_bounds : stab.

Lemma stable_subst a b c : stable u0 (subst cx (E:=E) a b c).
Proof. unfold subst. stab. Qed.
Lemma stable_subst_use a b c : stable u0 (subst_interface_use cx (E:=E) a b c).
Proof. unfold subst_interface_use. stab. Qed.
Lemma stable_applied_within a b c : stable u0 (applied_within cx (E:=E) a b c).
Proof. unfold applied_within. stab. Qed.
#[local] Hint Resolve stable_subst_use stable_applied_within : stab.
Lemma stable_interface_application a b c : stable u0 (interface_application cx (E:=E) a b c).
Proof. unfold interface_application. stab. Qed.
#[local] Hint Resolve stable_interface_application : stab.
Lemma stable_hashable_map_key a b : stable u0 (hashable_map_key cx (E:=E) a b).
Proof. unfold hashable_map_key. stab. Qed.
Lemma stable_meet_bounds f a b c d :
  (∀ x y, stable u0 (f x y)) → stable u0 (meet_bounds cx (E:=E) f a b c d).
Proof. intros. unfold meet_bounds. stab. Qed.
Lemma stable_type_arguments a b c d e : stable u0 (type_arguments_meet_bounds cx (E:=E) a b c d e).
Proof. apply stable_meet_bounds. stab. Qed.
Lemma stable_method_arguments a b c d e f : stable u0 (method_arguments_meet_bounds cx (E:=E) a b c d e f).
Proof. apply stable_meet_bounds. stab. Qed.
Lemma stable_projections_loop n a b : stable u0 (projections_loop cx (E:=E) n a b).
Proof. revert a. induction n; intros; simpl; stab. Qed.

Lemma stable_sub_pair a b : stable u0 (sub_pair cx (E:=E) a b).
Proof. unfold sub_pair, nominal. stab. Qed.
#[local] Hint Resolve stable_sub_pair : stab.
Lemma stable_sub_loop n a b : stable u0 (sub_loop cx (E:=E) n a b).
Proof. revert a b. induction n; intros; simpl; stab. Qed.
Lemma stable_is_subtype a b : stable u0 (is_subtype cx (E:=E) a b).
Proof. apply stable_sub_loop. Qed.
#[local] Hint Resolve stable_is_subtype : stab.
Lemma stable_accepts_key a b : stable u0 (accepts_map_lookup_key cx (E:=E) a b).
Proof. unfold accepts_map_lookup_key, is_text. stab. Qed.
Lemma stable_nominal_type a b : stable u0 (nominal_type cx (E:=E) a b).
Proof. unfold nominal_type. stab. Qed.
#[local] Hint Resolve stable_nominal_type : stab.
Lemma stable_join_flat a b : stable u0 (join_flat cx (E:=E) a b).
Proof. unfold join_flat. stab. Qed.
#[local] Hint Resolve stable_join_flat : stab.
Lemma stable_join_loop n a b : stable u0 (join_loop cx (E:=E) n a b).
Proof. revert a b. induction n; intros; simpl; stab. Qed.
#[local] Hint Resolve stable_join_loop : stab.
Lemma stable_join a b : stable u0 (join cx (E:=E) a b).
Proof. unfold join. stab. Qed.
Lemma stable_proc_mailbox a : stable u0 (proc_mailbox cx (E:=E) a).
Proof. unfold proc_mailbox. stab. Qed.

(** A type in scope stays in scope: its facts are in the table. *)
Lemma fact_ok idx u : fact (E:=E) idx u = Ret (Ok (uni_facts u !! N.to_nat idx, u)).
Proof. done. Qed.

(** The two scope tests of a type whose facts are known. *)
Definition scope_test (f : TypeFacts) (idx limit elimit : N) (bounds : bounds_table) : V E bool :=
  if var_below (tf_max_type_var f) limit && var_below (tf_max_effect_var f) elimit then
    if tf_contains_projection f then projections_loop cx (cx_fuel cx) [idx] bounds else mret true
  else mret false.

Lemma scope_test_eq f idx limit elimit bounds u : uni_facts u !! N.to_nat idx = Some f →
  andV (vars_bounded idx limit elimit) (projections_proven cx (E:=E) idx bounds) u
    = scope_test f idx limit elimit bounds u.
Proof.
  intros Hf. unfold andV, vars_bounded, projections_proven, scope_test.
  rewrite (bind_ok _ _ u (var_below (tf_max_type_var f) limit && var_below (tf_max_effect_var f) elimit) u)
    by (by rewrite (bind_ok _ _ u (Some f) u) by (by rewrite fact_ok, Hf)).
  destruct (_ && _); [|done]. by rewrite (bind_ok _ _ u (Some f) u) by (by rewrite fact_ok, Hf).
Qed.

Lemma stable_scope_test f idx limit elimit bounds : stable u0 (scope_test f idx limit elimit bounds).
Proof. unfold scope_test. stab. apply stable_projections_loop. Qed.

Lemma stable_at_scope idx limit elimit bounds :
  stable_at u0 (λ b, b = true) (andV (vars_bounded idx limit elimit) (projections_proven cx (E:=E) idx bounds)).
Proof.
  intros u x u1 Hu -> H. destruct (uni_facts u !! N.to_nat idx) as [f|] eqn:Hf.
  - rewrite (scope_test_eq f) in H by done. destruct (stable_scope_test f _ _ _ _ _ _ _ Hu H) as [G S].
    split; [done|]. intros u2 Hu2. rewrite (scope_test_eq f); [by apply S|].
    eapply grows_fact; [by trans u1|done].
  - unfold andV, vars_bounded in H. apply bind_inv in H as (b & v & H1 & H2).
    apply bind_inv in H1 as (g & w & H1 & H3). rewrite fact_ok in H1.
    injection H1 as <- <-. rewrite Hf in H3. injection H3 as <- <-. done.
Qed.

Lemma stable_scope idx limit elimit bounds f : uni_facts u0 !! N.to_nat idx = Some f →
  stable u0 (andV (vars_bounded idx limit elimit) (projections_proven cx (E:=E) idx bounds)).
Proof.
  intros Hf u x u1 Hu. pose proof (grows_fact _ _ _ _ Hu Hf) as Hf'. rewrite (scope_test_eq f) by done.
  intros H. destruct (stable_scope_test f _ _ _ _ _ _ _ Hu H) as [G S].
  split; [done|]. intros u2 Hu2. rewrite (scope_test_eq f); [by apply S|]. eapply grows_fact; [by trans u1|done].
Qed.

Lemma stable_at_allV {A} (f : A → V E bool) l :
  (∀ x, stable_at u0 (λ b, b = true) (f x)) → stable_at u0 (λ b, b = true) (allV f l).
Proof.
  intros H. induction l as [|x l IH]; simpl; [apply stable_at_of, stable_ret|].
  apply (stable_at_bind u0 (λ b, b = true)); [done | by intros ? -> | | intros []; auto].
  intros [] u y u1 Hn ->; [done|]. by intros [= ].
Qed.

End Stable_context.
#[export] Hint Resolve stable_as_instance stable_option_arg stable_native_map_key stable_is_heap stable_always_frozen
  stable_subst_with_bounds stable_use_with_bounds stable_subst stable_subst_use stable_applied_within
  stable_interface_application stable_hashable_map_key stable_type_arguments stable_method_arguments
  stable_is_subtype stable_accepts_key stable_join stable_proc_mailbox : stab.

Section Stable_manifest.
Context (u0 : Universe) (cx : Ctx).

Lemma stable_plain_inst r what : stable u0 (plain_inst r what).
Proof. unfold plain_inst. stab. Qed.
Lemma stable_result_inst a b : stable u0 (result_inst cx a b).
Proof. unfold result_inst. stab. Qed.
Lemma stable_event_inst a b c : stable u0 (event_inst a b c).
Proof. unfold event_inst. stab. Qed.
#[local] Hint Resolve stable_plain_inst : stab.

Lemma stable_abi_ty t : stable u0 (abi_ty cx t).
Proof.
  revert t. fix IH 1. intros [p|c|n|i|e|k v|items|k args|r]; cbn [abi_ty].
  1-4, 9: clear IH; stab.
  - pose proof (IH e). clear IH. stab.
  - pose proof (IH k). pose proof (IH v). clear IH. stab.
  - assert (Hm : stable u0 (mapV (abi_ty cx) items)).
    { induction items as [|x l IHl]; cbn [mapV]; [apply stable_ret|].
      apply stable_bind; [apply IH|]. intros y. apply stable_bind; [exact IHl|]. intros. apply stable_ret. }
    clear IH. apply stable_bind; [done|]. stab.
  - assert (Hm : stable u0 (mapV (abi_ty cx) args)).
    { induction args as [|x l IHl]; cbn [mapV]; [apply stable_ret|].
      apply stable_bind; [apply IH|]. intros y. apply stable_bind; [exact IHl|]. intros. apply stable_ret. }
    clear IH. destruct (negb _); [stab|]. apply stable_bind; [stab|]. intros c. apply stable_bind; [done|]. stab.
Qed.
#[local] Hint Resolve stable_abi_ty : stab.

Lemma stable_fixed_sig_type op : stable u0 (fixed_sig_type cx op).
Proof. unfold fixed_sig_type, bundle_slot. stab. Qed.
Lemma stable_op_args_view op : stable u0 (op_args_view cx op).
Proof. unfold op_args_view, bundle_slot. stab. Qed.

End Stable_manifest.
#[export] Hint Resolve stable_plain_inst stable_result_inst stable_event_inst stable_abi_ty stable_fixed_sig_type
  stable_op_args_view : stab.
