(* ===== verification/VerifyFine.v ===== *)
(** * The transfer function under a growing universe

    Every rule of the verifier is [fine]: a rule that accepts a state answers
    the same state in every later universe, and keeps the number of locals
    and the limit on the depth of the stack.
    [step] inherits both for any edge continuation that is stable. *)

From stdpp Require Import base numbers list strings gmap sorting pretty.
From S2P Require Import Prelude Value Codec Bytecode ModuleTables VerifyCtx VerifySub VerifyStep VerifyPerform.
From S2P Require Import VerifyRules VerifyFunc VerifyStable.

#[local] Open Scope nat_scope.

(** A stack within the static limit. *)
Definition shallow (s : State) : Prop := (lenN (st_stack s) <= MAX_STATIC_STACK)%N.

(** What every rule keeps of a state. *)
Definition kept (s s' : State) : Prop :=
  length (st_locals s') = length (st_locals s) ∧ (shallow s → shallow s').

#[export] Instance kept_refl : Reflexive kept.
Proof. done. Qed.
#[export] Instance kept_trans : Transitive kept.
Proof. intros a b c [H1 K1] [H2 K2]. split; [congruence | auto]. Qed.

Section Fine.
Context (u0 : Universe).

Definition fine {A} (m : T A) : Prop := ∀ s u x s' u1,
  grows u0 u → m s u = Ret (Ok ((x, s'), u1)) →
  grows u u1 ∧ kept s s' ∧
  ∀ u2, grows u1 u2 → m s u2 = Ret (Ok ((x, s'), u2)).

Lemma T_bind_inv {A B} (m : T A) (f : A → T B) s u y s2 u2 :
  (m ≫= f) s u = Ret (Ok ((y, s2), u2)) →
  ∃ x s1 u1, m s u = Ret (Ok ((x, s1), u1)) ∧ f x s1 u1 = Ret (Ok ((y, s2), u2)).
Proof. intros ([x s1] & u1 & H1 & H2)%bind_inv. eauto. Qed.

Lemma T_bind_ok {A B} (m : T A) (f : A → T B) s u x s1 u1 :
  m s u = Ret (Ok ((x, s1), u1)) → (m ≫= f) s u = f x s1 u1.
Proof. intros H. unfold mbind, T_bind. by rewrite (bind_ok _ _ _ _ _ H). Qed.

Lemma fine_ret {A} (x : A) : fine (mret x).
Proof. intros s u y s' u1 _ [= <- <- <-]. by split_and!. Qed.
Lemma fine_bind {A B} (m : T A) (f : A → T B) : fine m → (∀ x, fine (f x)) → fine (m ≫= f).
Proof.
  intros Hm Hf s u y s2 u2 Hu (x & s1 & u1 & H1 & H2)%T_bind_inv.
  destruct (Hm _ _ _ _ _ Hu H1) as (G1 & L1 & S1).
  destruct (Hf x s1 u1 y s2 u2) as (G2 & L2 & S2); [by trans u|done|].
  split_and!; [by trans u1 | by trans s1|]. intros u3 Hu3.
  rewrite (T_bind_ok m f s u3 x s1 u3) by (apply S1; by trans u2). by apply S2.
Qed.
Lemma fine_run {A} (m : V VerifyError A) : stable u0 m → fine (run m).
Proof.
  intros Hm s u x s' u1 Hu (y & v & H1 & H2)%bind_inv. injection H2 as -> -> ->.
  destruct (Hm _ _ _ Hu H1) as [G S]. split_and!; [done..|]. intros u2 Hu2.
  unfold run. rewrite (bind_ok _ _ _ x u2); [done | by apply S].
Qed.
Lemma fine_reads {A} (f : State → A) : fine (reads f).
Proof. intros s u y s' u1 _ [= <- <- <-]. by split_and!. Qed.
Lemma fine_writes (f : State → State) : (∀ s, kept s (f s)) → fine (writes f).
Proof. intros Hf s u y s' u1 _ [= <- <- <-]. by split_and!. Qed.
Lemma fine_each {A} (f : A → T unit) l : (∀ x, fine (f x)) → fine (each f l).
Proof. intros Hf. induction l; simpl; [apply fine_ret|]. by apply fine_bind. Qed.
Lemma fine_times n (x : T unit) : fine x → fine (times n x).
Proof. intros Hf. induction n; simpl; [apply fine_ret|]. by apply fine_bind. Qed.

(** A test that refuses what is not stable. *)
Lemma fine_guarded {A} (m : V VerifyError bool) (f : bool → T A) :
  stable_at u0 (λ b, b = true) m → fine (f true) →
  (∀ s u r, f false s u ≠ Ret (Ok r)) → fine (ok ← run m; f ok).
Proof.
  intros Hm Hf Hn s u y s2 u2 Hu ([] & s1 & u1 & H1 & H2)%T_bind_inv; [|by destruct (Hn _ _ _ H2)].
  apply bind_inv in H1 as (b & v & H1 & H3). injection H3 as -> -> ->.
  destruct (Hm _ _ _ Hu eq_refl H1) as [G1 S1].
  destruct (Hf s1 u1 y s2 u2) as (G2 & L2 & S2); [by trans u|done|].
  split_and!; [by trans u1 | done|]. intros u3 Hu3.
  rewrite (T_bind_ok _ _ s1 u3 true s1 u3); [by apply S2|].
  unfold run. rewrite (bind_ok _ _ _ true u3); [done | apply S1; by trans u2].
Qed.

End Fine.

#[export] Hint Resolve fine_ret fine_reads : stab.

Ltac head_of t := lazymatch t with ?f _ => head_of f | _ => t end.

(** One step: binds, cases, calls of the context; an unknown rule is unfolded. *)
Ltac fine_step :=
  lazymatch goal with
  | |- ∀ _, _ => intro
  | |- fine _ (mbind _ _) => apply fine_bind
  | |- fine _ (run _) => apply fine_run; solve [stab]
  | |- fine _ (each _ _) => apply fine_each
  | |- fine _ (times _ _) => apply fine_times
  | |- fine _ (writes _) => apply fine_writes; solve [done]
  | |- fine _ (match ?x with _ => _ end) => destruct x
  | |- fine _ (let _ := _ in _) => cbv zeta
  | |- fine _ ?m => first [solve [auto with stab nocore] | let h := head_of m in unfold h]
  end.
Ltac fine := repeat fine_step.

Section Primitives.
Context (u0 : Universe) (cx : Ctx) (func : Func) (fidx bidx iidx : N).

Lemma fine_pop : fine u0 (pop fidx bidx iidx).
Proof.
  intros s u x s' u1 _. unfold pop. destruct (st_stack s) eqn:Hs; [done|]. intros [= <- <- <-].
  split_and!; [done | | done]. split; [done|]. unfold shallow. rewrite Hs. unfold lenN. simpl. lia.
Qed.
Lemma fine_push t : fine u0 (push fidx bidx iidx t).
Proof.
  intros s u x s' u1 _. unfold push. destruct (N.leb_spec MAX_STATIC_STACK (lenN (st_stack s))) as [|Hs]; [done|].
  intros [= <- <- <-]. split_and!; [done | | done]. split; [done|]. intros _. unfold shallow, lenN in *. simpl. lia.
Qed.
#[local] Hint Resolve fine_pop fine_push : stab.
Lemma fine_require b what : fine u0 (require fidx bidx iidx b what).
Proof. fine. Qed.
#[local] Hint Resolve fine_require : stab.
Lemma fine_pop_expect t : fine u0 (pop_expect cx fidx bidx iidx t).
Proof. fine. Qed.
#[local] Hint Resolve fine_pop_expect : stab.
Lemma fine_pop_args l : fine u0 (pop_args cx fidx bidx iidx l).
Proof. fine. Qed.
Lemma fine_plain r what : fine u0 (plain cx fidx bidx iidx r what).
Proof. fine. Qed.
#[local] Hint Resolve fine_pop_args fine_plain : stab.

Lemma refused b what s u r : b = false → require fidx bidx iidx b what s u ≠ Ret (Ok r).
Proof. by intros ->. Qed.

Lemma fine_application_scope sc app : fine u0 (check_application_scope cx fidx bidx iidx sc app).
Proof.
  unfold check_application_scope. apply fine_guarded; [|fine|done].
  apply stable_at_allV. intros. apply stable_at_scope.
Qed.
#[local] Hint Resolve fine_application_scope : stab.

Lemma fine_call_interface sc a b c : fine u0 (step_call_interface cx func fidx bidx iidx sc a b c).
Proof.
  unfold step_call_interface. destruct (unpack_interface_call_site a) as [interface method].
  do 3 (apply fine_bind; [fine|intros ?]).
  apply fine_guarded; [apply stable_at_scope | fine | done].
Qed.

Lemma fine_numeric i : fine u0 (step_numeric cx fidx bidx iidx i).
Proof. fine. Qed.
Lemma fine_native i : fine u0 (step_native cx fidx bidx iidx i).
Proof. fine. Qed.
Lemma fine_vm_control op name reply : fine u0 (vm_control cx fidx bidx iidx op name reply).
Proof. fine. Qed.
End Primitives.
#[export] Hint Resolve fine_pop fine_push fine_require fine_pop_expect fine_pop_args fine_plain fine_application_scope
  fine_call_interface fine_numeric fine_native fine_vm_control : stab.

Lemma stable_expect_some u0 {E A B} (a : A) (f : A → V E B) :
  stable u0 (f a) → stable u0 (vexpect (Some a) ≫= f).
Proof. done. Qed.

Section Rules.
Context (u0 : Universe) (cx : Ctx) (func : Func) (fidx bidx iidx : N).

(** The declared types of the locals are in the first universe's table. *)
Definition locals_known : Prop :=
  Forall (λ t, is_Some (uni_facts u0 !! N.to_nat t)) (func_local_types func).
Hypothesis Hlocals : locals_known.

Lemma clear_locals_length tbase ebase bounds slot locals u r u1 :
  clear_locals cx func tbase ebase bounds slot locals u = Ret (Ok (r, u1)) → length r = length locals.
Proof.
  revert slot u r u1. induction locals as [|h l IH]; intros slot u r u1; simpl; [by intros [= <- <-]|].
  intros (t & v1 & _ & (ok & v2 & _ & (rest & v3 & Hr & [= <- <-])%bind_inv)%bind_inv)%bind_inv.
  simpl. f_equal. eauto.
Qed.

Lemma stable_clear_locals tbase ebase bounds slot locals :
  stable u0 (clear_locals cx func tbase ebase bounds slot locals).
Proof.
  revert slot. induction locals as [|h l IH]; intros slot; simpl; [stab|].
  destruct (func_local_types func !! slot) as [t|] eqn:Ht; [|done].
  destruct (proj1 (Forall_lookup _ _) Hlocals _ _ Ht) as [f Hf].
  apply stable_expect_some. apply stable_bind; [by eapply stable_scope|]. stab.
Qed.

Lemma fine_clear tbase ebase bounds :
  fine u0 (locals ← reads st_locals; locals ← run (clear_locals cx func tbase ebase bounds 0 locals);
           writes (λ s, with_locals s locals)).
Proof.
  intros s u x s' u1 Hu H. pose proof H as H'.
  apply T_bind_inv in H as (l & s1 & v1 & [= <- <- <-] & H).
  apply T_bind_inv in H as (r & s2 & v2 & H & [= <- <- <-]).
  apply bind_inv in H as (r' & v3 & H & [= <- <- <-]).
  destruct (stable_clear_locals _ _ _ _ _ _ _ _ Hu H) as [G S]. split_and!; [done | |].
  - split; [by eapply clear_locals_length | done].
  - intros u2 Hu2. rewrite (T_bind_ok _ _ s u2 (st_locals s) s u2) by done.
    rewrite (T_bind_ok _ _ s u2 r' s u2); [done|]. unfold run. rewrite (bind_ok _ _ _ r' u2); [done | by apply S].
Qed.

Lemma fine_reflection_end pattern bases : fine u0 (step_reflection_end cx func fidx bidx iidx pattern bases).
Proof.
  unfold step_reflection_end. do 7 (apply fine_bind; [fine|intros ?]).
  apply fine_guarded; [| |done].
  - apply stable_at_allV. intros. apply stable_at_scope.
  - apply fine_bind; [fine|]. intros _. apply fine_clear.
Qed.

Lemma fine_store_local slot : fine u0 (step_store_local cx func fidx bidx iidx slot).
Proof. unfold step_store_local. fine. apply fine_writes. intros s. split; [simpl; apply length_insert | done]. Qed.
#[local] Hint Resolve fine_reflection_end fine_store_local : stab.

Lemma fine_refine pattern : fine u0 (refine cx fidx bidx iidx pattern).
Proof. fine. Qed.
Lemma fine_open : fine u0 (open_descriptor cx fidx bidx iidx).
Proof. fine. Qed.
#[local] Hint Resolve fine_refine fine_open : stab.
Lemma fine_extended sc i : fine u0 (step_extended cx func fidx bidx iidx sc i).
Proof. fine. Qed.
#[local] Hint Resolve fine_extended : stab.
Lemma fine_instr sc i : fine u0 (step_instr cx func fidx bidx iidx sc i).
Proof. fine. Qed.

Lemma stable_scope_of s : stable u0 (scope_of cx fidx bidx iidx s).
Proof. unfold scope_of. stab. Qed.

Lemma stable_check_live sc s : stable u0 (check_live cx fidx bidx iidx sc s).
Proof.
  unfold check_live. apply stable_is_at. apply (stable_at_bind u0 (λ b, b = true)).
  - apply stable_at_allV. intros. apply stable_at_scope.
  - intros ? ->. apply stable_at_of. stab.
  - intros [] u y u1 Hn _; [done|]. done.
  - intros []; auto.
Qed.

End Rules.
