(* ===== verification/VerifyFlow.v ===== *)
(** * The value-flow order and the join at a merge

    [flows] is the order the verifier's merges climb: subtyping, the
    application of a common ancestor, and tuples element by element.  A join
    is an upper bound of its operands in this order, and a merged entry state
    absorbs both the state it had and the edge. *)

From stdpp Require Import base numbers list strings gmap sorting pretty.
From S2P Require Import Prelude Value Codec Bytecode ModuleTables VerifyCtx VerifySub VerifyStep VerifyPerform.
From S2P Require Import VerifyRules VerifyFunc VerifyStable VerifyFine.

#[local] Open Scope nat_scope.

Section Order.
Context (cx : Ctx).

Inductive flows (u : Universe) : N → N → Prop :=
| flows_refl a : flows u a a
| flows_sub a b : is_subtype cx (E:=VerifyError) a b u = Ret (Ok (true, u)) → flows u a b
| flows_ancestor a b ca xs common args t :
    as_instance cx (E:=VerifyError) a u = Ret (Ok (Some (ca, xs), u)) →
    ancestor_args cx ca xs common = Ret (Some args) →
    nominal_type cx (E:=VerifyError) common args u = Ret (Ok (t, u)) →
    uni_types u !! N.to_nat b = Some t → flows u a b
| flows_tuple a b xs ys :
    uni_types u !! N.to_nat a = Some (Ty_Tuple xs) → uni_types u !! N.to_nat b = Some (Ty_Tuple ys) →
    length xs = length ys → (∀ i x y, xs !! i = Some x → ys !! i = Some y → flows u x y) → flows u a b
| flows_trans a b c : flows u a b → flows u b c → flows u a c.

Lemma later {E A} (m : V E A) u x u1 u2 :
  (∀ v, stable v m) → m u = Ret (Ok (x, u1)) → grows u1 u2 → m u2 = Ret (Ok (x, u2)).
Proof. intros Hm H. by apply (Hm u u x u1). Qed.
Lemma growing {E A} (m : V E A) u x u1 : (∀ v, stable v m) → m u = Ret (Ok (x, u1)) → grows u u1.
Proof. intros Hm H. by apply (Hm u u x u1). Qed.

Lemma flows_grows u u' a b : grows u u' → flows u a b → flows u' a b.
Proof.
  intros G. induction 1 as [|a b H|a b ca xs common args t H1 H2 H3 H4|a b xs ys H1 H2 H3 _ IH|];
    [constructor | | | | by econstructor].
  - apply flows_sub. eapply later; [|done..]. stab.
  - eapply flows_ancestor; [| done | | by eapply grows_type]; eapply later; try done; intros.
    + stab.
    + apply stable_nominal_type.
  - eapply flows_tuple; [by eapply grows_type.. | done | done].
Qed.

(** *** Joins *)

Lemma applied_loop_spec n anc a xs b ys common args :
  applied_loop cx n anc a xs b ys = Ret (Some (common, args)) →
  ancestor_args cx a xs common = Ret (Some args) ∧ ancestor_args cx b ys common = Ret (Some args).
Proof.
  revert anc. induction n as [|n IH]; intros anc; simpl; [done|]. destruct anc as [class|]; [|done].
  intros (la & Ha & H)%bind_Ret. destruct la as [la|]; [|done].
  apply bind_Ret in H as (lb & Hb & H). case_bool_decide as Heq.
  - injection H as <- <-. by subst.
  - apply bind_Ret in H as (entry & _ & H). eauto.
Qed.

Lemma intern_type {E} t u i u1 :
  intern (E:=E) t u = Ret (Ok (i, u1)) → index_ok u → fits u1 → uni_types u1 !! N.to_nat i = Some t.
Proof.
  unfold intern. destruct (universe_intern u t) as [j v] eqn:Hi. intros [= <- <-] Hok Hf.
  destruct (intern_grows _ _ _ _ Hi) as [G Hget]. by apply (grows_ok _ _ G).
Qed.

Lemma vlift_ok {E A} (x : exec A) (u u1 : Universe) (a : A) :
  vlift (E:=E) x u = Ret (Ok (a, u1)) → x = Ret a ∧ u1 = u.
Proof. unfold vlift. destruct x; [|done..]. by intros [= -> ->]. Qed.

Lemma ty_ok {E} i u t u1 : ty (E:=E) i u = Ret (Ok (t, u1)) → uni_types u !! N.to_nat i = Some t ∧ u1 = u.
Proof. unfold ty. destruct (_ !! _); [|done]. by intros [= -> ->]. Qed.

Lemma as_instance_same {E} i u r u1 : as_instance cx (E:=E) i u = Ret (Ok (r, u1)) → u1 = u.
Proof. intros (t & v & [_ ->]%ty_ok & [= _ <-])%bind_inv. done. Qed.

(** Subtyping reads the universe alone. *)
Lemma sub_pair_same {E} f e u r u1 : sub_pair cx (E:=E) f e u = Ret (Ok (r, u1)) → u1 = u.
Proof.
  unfold sub_pair, nominal. intros (fi & v1 & ->%as_instance_same & H)%bind_inv.
  apply bind_inv in H as (ei & v2 & ->%as_instance_same & H).
  assert (Hn : ∀ a xs b ys v, nominal cx (E:=E) a xs b ys u = Ret (Ok (v, u1)) → u1 = u).
  { intros a xs b ys r2. unfold nominal. intros (r' & v & [_ ->]%vlift_ok & [= _ <-])%bind_inv. done. }
  assert (Ht : ∀ (k : BcType → BcType → V E (option (list (N * N)))),
    (∀ a b v, k a b u = Ret (Ok (v, u1)) → u1 = u) → (tf ← ty f; te ← ty e; k tf te) u = Ret (Ok (r, u1)) → u1 = u).
  { intros k Hk (tf & v & [_ ->]%ty_ok & (te & v' & [_ ->]%ty_ok & H')%bind_inv)%bind_inv. eauto. }
  destruct fi as [[a xs]|], ei as [[b ys]|]; [by eapply Hn | ..]; revert H; apply Ht;
    intros ta tb v; destruct ta, tb; try (by intros [= _ <-]); apply Hn.
Qed.

Lemma sub_loop_same {E} n work seen u r u1 : sub_loop cx (E:=E) n work seen u = Ret (Ok (r, u1)) → u1 = u.
Proof.
  revert work seen. induction n as [|n IH]; intros work seen; simpl; [done|].
  destruct work as [|[f e] work]; [by intros [= _ <-]|]. destruct (_ || _); [apply IH|].
  intros (r' & v & ->%sub_pair_same & H)%bind_inv. destruct r'; [by eapply IH | by injection H as _ <-].
Qed.

Lemma is_subtype_same {E} a b u r u1 : is_subtype cx (E:=E) a b u = Ret (Ok (r, u1)) → u1 = u.
Proof. apply sub_loop_same. Qed.

Lemma nominal_type_same {E} c xs u t u1 : nominal_type cx (E:=E) c xs u = Ret (Ok (t, u1)) → u1 = u.
Proof. intros (e & v & [_ ->]%vlift_ok & [= _ <-])%bind_inv. done. Qed.

Definition both_tuples (u : Universe) (a b : N) (xs ys : list N) : Prop :=
  uni_types u !! N.to_nat a = Some (Ty_Tuple xs) ∧ uni_types u !! N.to_nat b = Some (Ty_Tuple ys) ∧
  length xs = length ys.

(** The nominal part of [join_flat], after the tuple case. *)
Definition flat_rest (a b : N) : V VerifyError (option Flat) :=
  ab ← is_subtype cx a b;
  if (ab : bool) then mret (Some (Flat_Type b)) else
  ba ← is_subtype cx b a;
  if (ba : bool) then mret (Some (Flat_Type a)) else
  ia ← as_instance cx a;
  match ia with
  | None => mret None
  | Some (ca, xs) =>
      ib ← as_instance cx b;
      match ib with
      | None => mret None
      | Some (cb, ys) =>
          common ← vlift (common_applied_ancestor cx ca xs cb ys);
          match common with
          | None => mret None
          | Some (common, args) => t ← nominal_type cx common args; idx ← intern t; mret (Some (Flat_Type idx))
          end
      end
  end.

Lemma flat_rest_spec a b u r u1 : flat_rest a b u = Ret (Ok (Some r, u1)) → index_ok u → fits u1 →
  ∃ c, r = Flat_Type c ∧ flows u1 a c ∧ flows u1 b c.
Proof.
  intros H Hok Hf. unfold flat_rest in H.
  apply bind_inv in H as (ab & v & Hab & H). pose proof (is_subtype_same _ _ _ _ _ Hab) as ->. destruct ab.
  { injection H as <- <-. exists b. split_and!; [done | by apply flows_sub | constructor]. }
  apply bind_inv in H as (ba & v & Hba & H). pose proof (is_subtype_same _ _ _ _ _ Hba) as ->. destruct ba.
  { injection H as <- <-. exists a. split_and!; [done | constructor | by apply flows_sub]. }
  apply bind_inv in H as (ia & v & Hia & H). pose proof (as_instance_same _ _ _ _ Hia) as ->.
  destruct ia as [[ca xs]|]; [|done].
  apply bind_inv in H as (ib & v & Hib & H). pose proof (as_instance_same _ _ _ _ Hib) as ->.
  destruct ib as [[cb ys]|]; [|done].
  apply bind_inv in H as (common & v & [Hc ->]%vlift_ok & H). destruct common as [[common args]|]; [|done].
  apply applied_loop_spec in Hc as [Ha Hb].
  apply bind_inv in H as (t & v & Ht & H). pose proof (nominal_type_same _ _ _ _ _ Ht) as ->.
  apply bind_inv in H as (idx & v & Hi & [= <- <-]). exists idx. split; [done|].
  assert (G : grows u v) by (eapply growing; [|done]; stab).
  pose proof (intern_type _ _ _ _ Hi Hok Hf) as Hty.
  pose proof (later _ _ _ _ v ltac:(intros; apply stable_nominal_type) Ht G) as Ht'.
  split; [apply (flows_ancestor v a idx ca xs common args t) | apply (flows_ancestor v b idx cb ys common args t)];
    try done; (eapply later; [intros; apply stable_as_instance | done | done]).
Qed.

Lemma join_flat_spec a b u r u1 : join_flat cx (E:=VerifyError) a b u = Ret (Ok (Some r, u1)) → index_ok u → fits u1 →
  match r with
  | Flat_Type c => flows u1 a c ∧ flows u1 b c
  | Flat_Tuple xs ys => u1 = u ∧ both_tuples u a b xs ys
  end.
Proof.
  unfold join_flat. intros (ta & v & [Ha ->]%ty_ok & H)%bind_inv Hok Hf.
  apply bind_inv in H as (tb & v & [Hb ->]%ty_ok & H).
  assert (Hr : flat_rest a b u = Ret (Ok (Some r, u1)) →
    match r with Flat_Type c => flows u1 a c ∧ flows u1 b c | Flat_Tuple xs ys => u1 = u ∧ both_tuples u a b xs ys end).
  { intros Hr. destruct (flat_rest_spec _ _ _ _ _ Hr Hok Hf) as (c & -> & ? & ?). done. }
  destruct ta; try (by apply Hr); destruct tb; try (by apply Hr).
  destruct (negb _) eqn:Hl; [done|]. injection H as <- <-.
  apply negb_false_iff, Nat.eqb_eq in Hl. done.
Qed.

Definition answers_ok (u : Universe) (done : gmap (N * N) N) : Prop :=
  ∀ x y z, done !! (x, y) = Some z → flows u x z ∧ flows u y z.

Lemma answers_grows u u' done : grows u u' → answers_ok u done → answers_ok u' done.
Proof. intros G H x y z Hz. destruct (H _ _ _ Hz). split; by eapply flows_grows. Qed.

Lemma answers_insert u done x y z :
  answers_ok u done → flows u x z → flows u y z → answers_ok u (<[(x, y) := z]> done).
Proof.
  intros H Hx Hy x' y' z'. destruct (decide ((x, y) = (x', y'))) as [[= <- <-]|Hne].
  - rewrite lookup_insert_eq. by intros [= <-].
  - rewrite lookup_insert_ne by done. apply H.
Qed.

Lemma joined_elems_spec u done xs ys elems :
  answers_ok u done → length xs = length ys → joined_elems done (zip xs ys) = Some elems →
  length elems = length xs ∧
  (∀ i x e, xs !! i = Some x → elems !! i = Some e → flows u x e) ∧
  (∀ i y e, ys !! i = Some y → elems !! i = Some e → flows u y e).
Proof.
  intros Hd Hl H%mapM_Some. pose proof (Forall2_length _ _ _ H) as Hlen.
  rewrite length_zip_with, Hl, Nat.min_id in Hlen. split_and!; [congruence| |].
  - intros i x e Hx He. destruct (lookup_lt_is_Some_2 ys i) as [y Hy]; [rewrite <-Hl; by eapply lookup_lt_Some|].
    eapply Forall2_lookup_r in H as ([x' y'] & Hz & Hdone); [|done].
    apply lookup_zip_with_Some in Hz as (? & ? & [= -> ->] & ? & ?). simplify_eq. by apply (Hd _ _ _ Hdone).
  - intros i y e Hy He. eapply Forall2_lookup_r in H as ([x' y'] & Hz & Hdone); [|done].
    apply lookup_zip_with_Some in Hz as (? & ? & [= -> ->] & ? & ?). simplify_eq. by apply (Hd _ _ _ Hdone).
Qed.

Definition pending_ok (u : Universe) (stack : list (N * N * bool)) : Prop :=
  ∀ x y, (x, y, true) ∈ stack → ∃ xs ys, both_tuples u x y xs ys.

Lemma pending_grows u u' stack : grows u u' → pending_ok u stack → pending_ok u' stack.
Proof.
  intros G H x y (xs & ys & Hx & Hy & Hl)%H. exists xs, ys. split_and!; [by eapply grows_type.. | done].
Qed.
Lemma pending_tail u p stack : pending_ok u (p :: stack) → pending_ok u stack.
Proof. intros H x y Hin. apply H. by right. Qed.

Lemma pending_push u x y xs ys stack done :
  both_tuples u x y xs ys → pending_ok u stack →
  pending_ok u (((λ p, (p, false)) <$> filter (λ p : N * N, (done : gmap (N * N) N) !! p = None) (zip xs ys)) ++ (x, y, true) :: stack).
Proof.
  intros Hb H x' y' [(p & [= ] & _)%list_elem_of_fmap | [[= -> ->]|Hin]%elem_of_cons]%elem_of_app; eauto.
Qed.

Lemma tuple_flows u a b xs ys x y :
  both_tuples u a b xs ys → ∀ idx elems, uni_types u !! N.to_nat idx = Some (Ty_Tuple elems) →
  length elems = length xs →
  (∀ i x e, xs !! i = Some x → elems !! i = Some e → flows u x e) →
  (∀ i y e, ys !! i = Some y → elems !! i = Some e → flows u y e) →
  x = a → y = b → flows u x idx ∧ flows u y idx.
Proof.
  intros (Ha & Hb & Hl) idx elems Hi Hle Hx Hy -> ->.
  split; [apply (flows_tuple u a idx xs elems) | apply (flows_tuple u b idx ys elems)]; try done; congruence.
Qed.

Lemma join_loop_spec n stack tbl u tbl' u1 :
  join_loop cx (E:=VerifyError) n stack tbl u = Ret (Ok (Some tbl', u1)) → index_ok u → fits u1 → answers_ok u tbl →
  pending_ok u stack → answers_ok u1 tbl'.
Proof.
  revert stack tbl u. induction n as [|n IH]; intros stack tbl u H Hok Hf Hd Hp; simpl in H; [done|].
  destruct stack as [|[[x y] expanded] stack]; [by injection H as <- <-|].
  pose proof (pending_tail _ _ _ Hp) as Hp'.
  case_bool_decide; [by eapply IH|]. destruct expanded; cbn [negb] in H.
  - destruct (Hp x y) as (xs & ys & Hb); [left|]. pose proof Hb as (Hx & Hy & Hlen).
    apply bind_inv in H as (tx & v & [Hx' ->]%ty_ok & H). apply bind_inv in H as (tz & v & [Hy' ->]%ty_ok & H).
    rewrite Hx in Hx'. rewrite Hy in Hy'. injection Hx' as <-. injection Hy' as <-.
    destruct (joined_elems tbl _) as [es|] eqn:He; [|done].
    destruct (negb _) eqn:Hl; [done|].
    apply bind_inv in H as (idx & v & Hi & H).
    assert (G : grows u v) by (eapply growing; [|done]; stab).
    assert (Hfv : fits v) by (eapply fits_prefix, Hf; apply (growing _ _ _ _ ltac:(intros; apply stable_join_loop) H)).
    pose proof (intern_type _ _ _ _ Hi Hok Hfv) as Hty.
    pose proof (answers_grows _ _ _ G Hd) as Hdv.
    destruct (joined_elems_spec _ _ _ _ _ Hdv Hlen He) as (Hle & Hex & Hey).
    assert (both_tuples v x y xs ys) by (split_and!; [by eapply grows_type.. | done]).
    destruct (tuple_flows v x y xs ys x y) with (idx := idx) (elems := es); try done.
    eapply IH; [done | by apply (grows_ok _ _ G) | done | by apply answers_insert | by eapply pending_grows].
  - apply bind_inv in H as (r & v & Hr & H).
    assert (G : grows u v) by (eapply growing; [|done]; intros; apply stable_join_flat).
    destruct r as [r|]; [|done].
    assert (Hfv : fits v)
      by (destruct r; (eapply fits_prefix, Hf; apply (growing _ _ _ _ ltac:(intros; apply stable_join_loop) H))).
    pose proof (join_flat_spec _ _ _ _ _ Hr Hok Hfv) as Hs. destruct r as [c|xs ys].
    + destruct Hs. eapply IH; [done | by apply (grows_ok _ _ G) | done | | by eapply pending_grows].
      apply answers_insert; [by eapply answers_grows | done..].
    + destruct Hs as [-> Hb]. eapply IH; [done.. | by apply pending_push].
Qed.

(** A join is above both of its operands. *)
Lemma join_upper a b u c u1 : join cx (E:=VerifyError) a b u = Ret (Ok (Some c, u1)) → index_ok u → fits u1 →
  flows u1 a c ∧ flows u1 b c.
Proof.
  intros (d & v & H & [= Hc <-])%bind_inv Hok Hf. destruct d as [d|]; [|done].
  eapply (join_loop_spec _ _ _ _ _ _ H Hok Hf); [by intros ??? | | done].
  intros x y [[= ]|[]%not_elem_of_nil]%elem_of_cons.
Qed.

End Order.
