(* ===== verification/VerifyFix.v ===== *)
(** * The fixpoint of one function

    What a [dataflow] that answers leaves behind: every reached block replays
    from its entry state in the final universe, and every edge of the replay
    is absorbed by the entry state of its target. *)

From stdpp Require Import base numbers list strings gmap sorting pretty.
From S2P Require Import Prelude Value Codec Bytecode ModuleTables VerifyCtx VerifySub VerifyStep VerifyPerform.
From S2P Require Import VerifyRules VerifyFunc VerifyStable VerifyFine VerifyFlow.

#[local] Open Scope nat_scope.

(** ** The order on states *)

Section Absorb.
Context (cx : Ctx).

(** A local without a value absorbs everything. *)
Definition local_flows (u : Universe) (n h : option N) : Prop :=
  match h with None => True | Some b => ∃ a, n = Some a ∧ flows cx u a b end.

Record absorbs (u : Universe) (e s : State) : Prop := mkAbsorbs {
  absorbs_scopes : st_scopes e = st_scopes s;
  absorbs_stack : Forall2 (flows cx u) (st_stack e) (st_stack s);
  absorbs_locals : Forall2 (local_flows u) (st_locals e) (st_locals s);
}.

Lemma local_flows_refl u h : local_flows u h h.
Proof. destruct h; simpl; [|done]. eexists. split; [done | constructor]. Qed.
Lemma local_flows_trans u a b c : local_flows u a b → local_flows u b c → local_flows u a c.
Proof.
  destruct c as [c|]; simpl; [|done]. intros Hab (b' & -> & Hbc). destruct Hab as (a' & -> & Hab).
  eexists. split; [done | by eapply flows_trans].
Qed.
Lemma local_flows_grows u u' a b : grows u u' → local_flows u a b → local_flows u' a b.
Proof. intros G. destruct b; simpl; [|done]. intros (a' & -> & H). eauto using flows_grows. Qed.

Lemma Forall2_compose {A} (R : A → A → Prop) (l k m : list A) :
  (∀ a b c, R a b → R b c → R a c) → Forall2 R l k → Forall2 R k m → Forall2 R l m.
Proof.
  intros HR H. revert m. induction H; intros m Hm; inversion Hm; subst; constructor; eauto.
Qed.
Lemma Forall2_rev {A B} (R : A → B → Prop) l k : Forall2 R l k → Forall2 R (reverse l) (reverse k).
Proof.
  induction 1; [done|]. rewrite !reverse_cons. apply Forall2_app; [done | by constructor].
Qed.

Lemma absorbs_refl u s : absorbs u s s.
Proof.
  constructor; [done | |]; apply Forall_Forall2_diag, Forall_forall; intros;
    [apply flows_refl | apply local_flows_refl].
Qed.
Lemma absorbs_trans u a b c : absorbs u a b → absorbs u b c → absorbs u a c.
Proof.
  intros [] []. constructor; [congruence | |]; (eapply Forall2_compose; [|done|done]); intros ???.
  - apply flows_trans.
  - apply local_flows_trans.
Qed.
Lemma absorbs_grows u u' a b : grows u u' → absorbs u a b → absorbs u' a b.
Proof.
  intros G []. constructor; [done | |]; (eapply Forall2_impl; [done|]); intros ??.
  - by apply flows_grows.
  - by apply local_flows_grows.
Qed.

(** ** Merges *)

Context (fidx : N).

Lemma stable_merge_stack u0 t have new : stable u0 (merge_stack cx fidx t have new).
Proof. revert new. induction have; intros []; simpl; stab. Qed.
Lemma stable_merge_locals u0 have new : stable u0 (merge_locals cx have new).
Proof. revert new. induction have; intros []; simpl; stab. Qed.

Lemma later_fits {E A} (m : V E A) u x u1 : (∀ v, stable v m) → m u = Ret (Ok (x, u1)) → fits u1 → fits u.
Proof. intros Hm H. apply fits_prefix, (grows_types _ _ (growing _ _ _ _ Hm H)). Qed.

(** One position of the operand stack. *)
Lemma merge_slot_spec target h n u r c u1 :
  (if (h =? n)%N then mret (h, false) else
   joined ← join cx h n;
   j ← vok_or joined (block_error fidx target " entry stack types have no common type");
   mret (j, negb (j =? h)%N)) u = Ret (Ok ((r, c), u1)) → index_ok u → fits u1 →
  grows u u1 ∧ flows cx u1 h r ∧ flows cx u1 n r ∧ (c = false → r = h).
Proof.
  destruct (N.eqb_spec h n) as [->|Hne].
  - intros [= <- <- <-] _ _. split_and!; try done; constructor.
  - intros (j & v & Hj & H)%bind_inv Hok Hf. destruct j as [j|]; [|done].
    injection H as <- <- <-. destruct (join_upper _ _ _ _ _ _ Hj Hok Hf).
    split_and!; [by eapply growing; [|done]; stab | done | done |].
    intros Hc%negb_false_iff. by apply N.eqb_eq.
Qed.

Lemma merge_stack_spec target have new u r c u1 :
  merge_stack cx fidx target have new u = Ret (Ok ((r, c), u1)) → length have = length new → index_ok u → fits u1 →
  Forall2 (flows cx u1) have r ∧ Forall2 (flows cx u1) new r ∧ (c = false → r = have).
Proof.
  revert new u r c u1. induction have as [|h have IH]; intros [|n new] u r c u1 H Hl Hok Hf; simplify_eq/=.
  { by injection H as <- <- <-. }
  apply bind_inv in H as ([h' ch] & v & Hs & H). apply bind_inv in H as ([rest cr] & w & Hr & [= <- <- <-]).
  pose proof (growing _ _ _ _ ltac:(intros; apply stable_merge_stack) Hr) as G.
  assert (Hfv : fits v) by (eapply fits_prefix, Hf; apply G).
  destruct (merge_slot_spec _ _ _ _ _ _ _ Hs Hok Hfv) as (Gv & Hh & Hn & Hc).
  destruct (IH _ _ _ _ _ Hr) as (F1 & F2 & Hc'); [done | by apply (grows_ok _ _ Gv) | done|].
  split_and!; [constructor; [by eapply flows_grows|done].. |].
  intros [-> ->]%orb_false_iff. f_equal; auto.
Qed.

Lemma merge_local_spec h n u r u1 :
  (match h, n with
   | Some a, Some b => if (a =? b)%N then mret (Some a) else join cx a b
   | _, _ => mret None
   end : V VerifyError (option N)) u = Ret (Ok (r, u1)) → index_ok u → fits u1 →
  grows u u1 ∧ local_flows u1 h r ∧ local_flows u1 n r.
Proof.
  destruct h as [a|], n as [b|]; try (by intros [= <- <-] _ _).
  destruct (N.eqb_spec a b) as [->|Hne].
  - intros [= <- <-] _ _. split_and!; [done | apply local_flows_refl..].
  - intros H Hok Hf. split; [by eapply growing; [|done]; stab|]. destruct r as [c|]; [|done].
    destruct (join_upper _ _ _ _ _ _ H Hok Hf). split; eexists; done.
Qed.

Lemma merge_locals_spec have new u r c u1 :
  merge_locals cx have new u = Ret (Ok ((r, c), u1)) → length have = length new → index_ok u → fits u1 →
  Forall2 (local_flows u1) have r ∧ Forall2 (local_flows u1) new r ∧ (c = false → r = have).
Proof.
  revert new u r c u1. induction have as [|h have IH]; intros [|n new] u r c u1 H Hl Hok Hf; simplify_eq/=.
  { by injection H as <- <- <-. }
  apply bind_inv in H as (m & v & Hs & H). apply bind_inv in H as ([rest cr] & w & Hr & [= <- <- <-]).
  pose proof (growing _ _ _ _ ltac:(intros; apply stable_merge_locals) Hr) as G.
  assert (Hfv : fits v) by (eapply fits_prefix, Hf; apply G).
  destruct (merge_local_spec _ _ _ _ _ Hs Hok Hfv) as (Gv & Hh & Hn).
  destruct (IH _ _ _ _ _ Hr) as (F1 & F2 & Hc'); [done | by apply (grows_ok _ _ Gv) | done|].
  split_and!; [constructor; [by eapply local_flows_grows|done].. |].
  intros [Hm%negb_false_iff%bool_decide_eq_true ->]%orb_false_iff. f_equal; auto.
Qed.

Lemma stable_merge u0 target edge fl : stable u0 (merge cx fidx target edge fl).
Proof.
  unfold merge. stab; first [apply stable_merge_stack | apply stable_merge_locals].
Qed.

(** The target of a merge before and after it. *)
Record merged (u : Universe) (target : N) (edge : State) (fl fl' : Flow) (st : State) : Prop := mkMerged {
  mg_states : fl_states fl' = <[N.to_nat target := Some st]> (fl_states fl);
  mg_edge : absorbs u edge st;
  mg_before : ∃ slot, fl_states fl !! N.to_nat target = Some slot ∧
    match slot with None => True | Some old => absorbs u old st end;
  mg_work : fl_work fl' = fl_work fl ++ [target] ∨
    (fl_work fl' = fl_work fl ∧ fl_states fl !! N.to_nat target = Some (Some st));
}.

Lemma merge_spec target edge fl u fl' u1 n :
  merge cx fidx target edge fl u = Ret (Ok (fl', u1)) → index_ok u → fits u1 →
  length (st_locals edge) = n → (∀ i s, fl_states fl !! i = Some (Some s) → length (st_locals s) = n) →
  ∃ st, merged u1 target edge fl fl' st ∧ length (st_locals st) = n.
Proof.
  intros H Hok Hf Hn Hall. unfold merge in H. apply bind_inv in H as (slot & v & [Hs ->]%vlift_ok & H).
  unfold of_option in Hs. destruct (fl_states fl !! N.to_nat target) as [sl|] eqn:Hsl; [|done]. injection Hs as ->.
  destruct slot as [old|].
  2: { injection H as <- <-. exists edge. split; [|done]. constructor; [done | apply absorbs_refl | by exists None | by left]. }
  apply bind_inv in H as (? & v & Hr & H). unfold vrequire in Hr. case_bool_decide as Hsc; [|done].
  injection Hr as _ <-. apply bind_inv in H as (? & v & Hr & H). unfold vrequire in Hr.
  destruct (Nat.eqb_spec (length (st_stack old)) (length (st_stack edge))) as [Hle|]; [|done]. injection Hr as _ <-.
  apply bind_inv in H as ([stack c1] & v & Hst & H). apply bind_inv in H as ([locals c2] & w & Hlo & [= <- <-]).
  pose proof (growing _ _ _ _ ltac:(intros; apply stable_merge_stack) Hst) as Gv.
  pose proof (growing _ _ _ _ ltac:(intros; apply stable_merge_locals) Hlo) as Gw.
  assert (Hfv : fits v) by (eapply fits_prefix, Hf; apply Gw).
  pose proof (Hall _ _ Hsl) as Hlold.
  destruct (merge_stack_spec _ _ _ _ _ _ _ Hst) as (S1 & S2 & S3); [by rewrite !length_reverse|done..|].
  destruct (merge_locals_spec _ _ _ _ _ _ Hlo) as (L1 & L2 & L3); [congruence | by apply (grows_ok _ _ Gv) | done|].
  assert (Fs : ∀ l, Forall2 (flows cx v) (reverse l) stack → Forall2 (flows cx w) l (reverse stack)).
  { intros l Hl%Forall2_rev. rewrite reverse_involutive in Hl.
    eapply Forall2_impl; [done|]. intros ??. by apply flows_grows. }
  eexists. split; [constructor | simpl].
  - done.
  - by constructor; [|apply Fs|].
  - eexists. split; [done|]. by constructor; [|apply Fs|].
  - cbn [fl_work]. destruct (c1 || c2) eqn:Hc; [by left|]. right. split; [done|].
    apply orb_false_iff in Hc as [-> ->]. rewrite S3, L3, reverse_involutive by done. by destruct old.
  - rewrite <-Hlold. symmetry. by eapply Forall2_length.
Qed.

End Absorb.

(** ** One block *)

(** A continuation that only notes the edge. *)
Definition note {A} (f : N → State → A → A) (target : N) (s : State) (acc : A) : V VerifyError A := mret (f target s acc).
Definition noted {A} (f : N → State → A → A) (es : list (N * State)) (acc : A) : A := foldl (λ a e, f e.1 e.2 a) acc es.
Definition record_edge : N → State → list (N * State) → V VerifyError (list (N * State)) :=
  note (λ target s es, es ++ [(target, s)]).

Lemma noted_record es acc : noted (λ target s es, es ++ [(target, s)]) es acc = acc ++ es.
Proof.
  unfold noted. revert acc. induction es as [|[t s] es IH]; intros acc; simpl; [by rewrite app_nil_r|].
  by rewrite IH, <-app_assoc.
Qed.

(** The edges of a run, handed to the continuation in order. *)
Inductive edges_run {A} (edge : N → State → A → V VerifyError A) :
    list (N * State) → A → Universe → A → Universe → Prop :=
| edges_nil acc u u' : grows u u' → edges_run edge [] acc u acc u'
| edges_cons target s es acc u v acc1 w acc2 u' :
    grows u v → edge target s acc v = Ret (Ok (acc1, w)) → edges_run edge es acc1 w acc2 u' →
    edges_run edge ((target, s) :: es) acc u acc2 u'.

Lemma edges_weaken {A} (edge : N → State → A → V VerifyError A) es acc u v acc' u' :
  grows u v → edges_run edge es acc v acc' u' → edges_run edge es acc u acc' u'.
Proof.
  intros G H. revert G. destruct H as [|? ? ? ? ? ? ? ? ? ? G1]; intros G.
  - apply edges_nil. by etrans.
  - eapply edges_cons; [exact (grows_trans _ _ _ G G1) | done..].
Qed.

Lemma edges_app {A} (edge : N → State → A → V VerifyError A) es es' acc u acc1 v acc2 u' :
  edges_run edge es acc u acc1 v → edges_run edge es' acc1 v acc2 u' → edges_run edge (es ++ es') acc u acc2 u'.
Proof. induction 1; simpl; intros; [by eapply edges_weaken | econstructor; eauto]. Qed.

Section Runs.
Context (cx : Ctx) (func : Func) (fidx : N) (u0 : Universe).
Hypothesis Hlocals : locals_known u0 func.

(** What a run that succeeds says: the edges it took, in order, and that any
    later run with a continuation that only notes takes the same ones. *)
Record ran {A} (body : ∀ B, (N → State → B → V VerifyError B) → State → B → V VerifyError (State * B))
    (edge : N → State → A → V VerifyError A) (s : State) (acc : A) (u : Universe) (s' : State) (acc' : A)
    (u1 : Universe) (es : list (N * State)) : Prop := mkRan {
  ran_grows : grows u u1;
  ran_kept : kept s s';
  ran_edge_kept : ∀ t e, (t, e) ∈ es → kept s e;
  ran_edges : edges_run edge es acc u acc' u1;
  ran_later : ∀ B (f : N → State → B → B) b u2, grows u1 u2 →
    body B (note f) s b u2 = Ret (Ok ((s', noted f es b), u2));
}.

Definition step_body (bidx iidx : N) (instr : Instr) : ∀ B, (N → State → B → V VerifyError B) → State → B → V VerifyError (State * B) :=
  λ B edge s acc, step cx func fidx bidx iidx edge instr s acc.
Definition block_body (bidx iidx : N) (code : list Instr) : ∀ B, (N → State → B → V VerifyError B) → State → B → V VerifyError (State * B) :=
  λ B edge s acc, run_block cx func fidx edge bidx iidx code s acc.

#[local] Ltac chain :=
  match goal with
  | |- grows ?u ?u => reflexivity
  | H : grows ?u ?v |- grows ?u ?v => exact H
  | H : grows ?u ?v |- grows ?u ?w => transitivity v; [exact H|]; chain
  end.

Lemma ran_refine {A} (edge : N → State → A → V VerifyError A) bidx iidx instr pattern target s acc u s' acc' u1 :
  (∀ t s acc, stable u0 (edge t s acc)) → grows u0 u → refinement instr = Some (pattern, target) →
  step cx func fidx bidx iidx edge instr s acc u = Ret (Ok ((s', acc'), u1)) →
  ∃ es, ran (step_body bidx iidx instr) edge s acc u s' acc' u1 es.
Proof.
  intros He Hu Hr H. unfold step in H. apply bind_inv in H as (sc & v & H1 & H).
  destruct (stable_scope_of u0 cx fidx bidx iidx s u _ _ Hu H1) as [G1 S1].
  apply bind_inv in H as (ok & w & H2 & H).
  destruct (stable_check_live u0 cx fidx bidx iidx sc s v _ _ ltac:(chain) H2) as [G2 S2].
  rewrite Hr in H. apply bind_inv in H as ([x s1] & v1 & H3 & H).
  destruct (fine_open u0 cx fidx bidx iidx s w _ _ _ ltac:(chain) H3) as (G3 & L3 & S3).
  apply bind_inv in H as (acc1 & v2 & H4 & H). destruct (He _ _ _ v1 _ _ ltac:(chain) H4) as [G4 _].
  apply bind_inv in H as ([y s2] & v3 & H5 & [= <- <- <-]).
  destruct (fine_refine u0 cx fidx bidx iidx pattern s1 v2 _ _ _ ltac:(chain) H5) as (G5 & L5 & S5).
  exists [(target, s1)]. constructor; [chain | by trans s1 | | |].
  - intros t e [[= -> ->]|[]%not_elem_of_nil]%elem_of_cons. done.
  - apply (edges_cons edge target s1 [] acc u v1 acc1 v2 acc1 v3); [chain | done | by constructor].
  - intros B f b u2 Hu2. unfold step_body, step.
    rewrite (bind_ok _ _ _ _ _ (S1 u2 ltac:(chain))), (bind_ok _ _ _ _ _ (S2 u2 ltac:(chain))), Hr.
    rewrite (bind_ok _ _ _ _ _ (S3 u2 ltac:(chain))), (bind_ok (note f target s1 b) _ u2 (f target s1 b) u2) by done.
    by rewrite (bind_ok _ _ _ _ _ (S5 u2 Hu2)).
Qed.

Lemma ran_instr {A} (edge : N → State → A → V VerifyError A) bidx iidx instr s acc u s' acc' u1 :
  (∀ t s acc, stable u0 (edge t s acc)) → grows u0 u → refinement instr = None →
  step cx func fidx bidx iidx edge instr s acc u = Ret (Ok ((s', acc'), u1)) →
  ∃ es, ran (step_body bidx iidx instr) edge s acc u s' acc' u1 es.
Proof.
  intros He Hu Hr H. unfold step in H. apply bind_inv in H as (sc & v & H1 & H).
  destruct (stable_scope_of u0 cx fidx bidx iidx s u _ _ Hu H1) as [G1 S1].
  apply bind_inv in H as (ok & w & H2 & H).
  destruct (stable_check_live u0 cx fidx bidx iidx sc s v _ _ ltac:(chain) H2) as [G2 S2].
  rewrite Hr in H. apply bind_inv in H as ([x s1] & v1 & H3 & H).
  destruct (fine_instr u0 cx func fidx bidx iidx Hlocals sc instr s w _ _ _ ltac:(chain) H3) as (G3 & L3 & S3).
  destruct (jump_target instr) as [target|] eqn:Hj.
  - apply bind_inv in H as (acc1 & v2 & H4 & [= <- <- <-]). destruct (He _ _ _ v1 _ _ ltac:(chain) H4) as [G4 _].
    exists [(target, s1)]. constructor; [chain | done | | |].
    + intros t e [[= -> ->]|[]%not_elem_of_nil]%elem_of_cons. done.
    + apply (edges_cons edge target s1 [] acc u v1 acc1 v2 acc1 v2); [chain | done | by constructor].
    + intros B f b u2 Hu2. unfold step_body, step.
      rewrite (bind_ok _ _ _ _ _ (S1 u2 ltac:(chain))), (bind_ok _ _ _ _ _ (S2 u2 ltac:(chain))), Hr.
      by rewrite (bind_ok _ _ _ _ _ (S3 u2 ltac:(chain))), Hj.
  - injection H as <- <- <-. exists []. constructor; [chain | done | | |].
    + by intros t e []%not_elem_of_nil.
    + constructor. chain.
    + intros B f b u2 Hu2. unfold step_body, step.
      rewrite (bind_ok _ _ _ _ _ (S1 u2 ltac:(chain))), (bind_ok _ _ _ _ _ (S2 u2 ltac:(chain))), Hr.
      by rewrite (bind_ok _ _ _ _ _ (S3 u2 ltac:(chain))), Hj.
Qed.

Lemma step_ran {A} (edge : N → State → A → V VerifyError A) bidx iidx instr s acc u s' acc' u1 :
  (∀ t s acc, stable u0 (edge t s acc)) → grows u0 u →
  step cx func fidx bidx iidx edge instr s acc u = Ret (Ok ((s', acc'), u1)) →
  ∃ es, ran (step_body bidx iidx instr) edge s acc u s' acc' u1 es.
Proof. intros. destruct (refinement instr) as [[]|] eqn:?; [by eapply ran_refine | by apply ran_instr]. Qed.

Lemma noted_app {A} (f : N → State → A → A) es es' acc : noted f (es ++ es') acc = noted f es' (noted f es acc).
Proof. apply foldl_app. Qed.

Lemma block_ran {A} (edge : N → State → A → V VerifyError A) bidx iidx code s acc u s' acc' u1 :
  (∀ t s acc, stable u0 (edge t s acc)) → grows u0 u →
  run_block cx func fidx edge bidx iidx code s acc u = Ret (Ok ((s', acc'), u1)) →
  ∃ es, ran (block_body bidx iidx code) edge s acc u s' acc' u1 es.
Proof.
  intros He. revert iidx s acc u. induction code as [|instr code IH]; intros iidx s acc u Hu H.
  { injection H as <- <- <-. exists []. constructor; [done | done | | by constructor | done].
    by intros t e []%not_elem_of_nil. }
  apply bind_inv in H as ([s1 acc1] & v & H1 & H).
  apply step_ran in H1 as (es1 & [G1 L1 E1 R1 S1]); [|done..].
  apply IH in H as (es2 & [G2 L2 E2 R2 S2]); [|chain].
  exists (es1 ++ es2). constructor; [chain | by trans s1 | | by eapply edges_app |].
  - intros t e [Hin|Hin]%elem_of_app; [by eapply E1 | trans s1; [done | by eapply E2]].
  - intros B f b u2 Hu2. unfold block_body. cbn [run_block].
    rewrite (bind_ok _ _ _ _ _ (S1 B f b u2 ltac:(chain))), noted_app. by apply S2.
Qed.
Lemma run_block_app {A} (edge : N → State → A → V VerifyError A) bidx iidx c1 c2 s acc u r :
  run_block cx func fidx edge bidx iidx (c1 ++ c2) s acc u = Ret (Ok r) →
  ∃ s1 acc1 v, run_block cx func fidx edge bidx iidx c1 s acc u = Ret (Ok ((s1, acc1), v)) ∧
    run_block cx func fidx edge bidx (iidx + lenN c1) c2 s1 acc1 v = Ret (Ok r).
Proof.
  destruct r as [r u']. revert iidx s acc u. induction c1 as [|i c1 IH]; intros iidx s acc u H.
  - exists s, acc, u. split; [done|]. by rewrite N.add_0_r.
  - apply bind_inv in H as ([s1 acc1] & v & H1 & H). apply IH in H as (s2 & acc2 & w & H2 & H).
    exists s2, acc2, w. split; [cbn [run_block]; by rewrite (bind_ok _ _ _ _ _ H1)|].
    replace (iidx + lenN (i :: c1))%N with (iidx + 1 + lenN c1)%N by (unfold lenN; simpl; lia). done.
Qed.

(** A run of a block is a run of each of its prefixes. *)
Lemma prefix_ran {A} (edge : N → State → A → V VerifyError A) bidx code s acc u s' acc' u1 i :
  (∀ t s acc, stable u0 (edge t s acc)) → grows u0 u →
  run_block cx func fidx edge bidx 0 code s acc u = Ret (Ok ((s', acc'), u1)) →
  ∃ si acci v es, grows v u1 ∧ ran (block_body bidx 0 (take i code)) edge s acc u si acci v es.
Proof.
  intros He Hu H. rewrite <-(take_drop i code) in H. apply run_block_app in H as (si & acci & v & H1 & H2).
  pose proof H1 as (es & R)%block_ran; [|done..]. exists si, acci, v, es. split; [|done].
  apply block_ran in H2 as (es2 & R2); [apply R2 | done |]. etrans; [done | apply R].
Qed.
End Runs.
