(* ===== verification/VerifySound.v ===== *)
(** * The worklist invariant

    Between two rounds of [dataflow] every reached block is queued or
    settled: it replays from its entry state in the current universe and the
    entry state of each target absorbs the edge.  When the queue is empty
    every reached block is settled, in the universe the loop leaves. *)

From stdpp Require Import base numbers list strings gmap sorting pretty.
From S2P Require Import Prelude Value Codec Bytecode ModuleTables VerifyCtx VerifySub VerifyStep VerifyPerform.
From S2P Require Import VerifyRules VerifyFunc VerifyStable VerifyFine VerifyFlow VerifyFix.

#[local] Open Scope nat_scope.

Section Worklist.
Context (cx : Ctx) (func : Func) (fidx : N) (u0 : Universe).
Hypothesis Hlocals : locals_known u0 func.

#[local] Abbreviation merge := (merge cx fidx).
#[local] Abbreviation absorbs := (absorbs cx).

(** The targets of the edges absorb them. *)
Definition edges_held (u : Universe) (states : entries) (es : list (N * State)) : Prop :=
  ∀ t e, (t, e) ∈ es → ∃ st, states !! N.to_nat t = Some (Some st) ∧ absorbs u e st.

(** The code runs from [s], now and in every later universe. *)
Definition replays (u : Universe) (b : nat) (code : list Instr) (s s' : State) (es : list (N * State)) : Prop :=
  ∀ B (f : N → State → B → B) acc u2, grows u u2 →
    run_block cx func fidx (note f) (N.of_nat b) 0 code s acc u2 = Ret (Ok ((s', noted f es acc), u2)).

(** A settled block: it replays from [s], and so does each of its prefixes. *)
Definition settled (u : Universe) (states : entries) (b : nat) (s : State) : Prop :=
  ∃ code s' es, func_blocks func !! b = Some code ∧ edges_held u states es ∧ replays u b code s s' es ∧
    ∀ i, ∃ si esi, kept s si ∧ replays u b (take i code) s si esi.

Lemma replays_later u v b code s s' es : grows u v → replays u b code s s' es → replays v b code s s' es.
Proof. intros G H B f acc u2 G2. apply H. by etrans. Qed.

(** Entry states only climb. *)
Definition climbs (u : Universe) (states states' : entries) : Prop :=
  ∀ i s, states !! i = Some (Some s) → ∃ s', states' !! i = Some (Some s') ∧ absorbs u s s'.

Lemma climbs_refl u states : climbs u states states.
Proof. intros i s H. eauto using absorbs_refl. Qed.
Lemma climbs_trans u v a b c : grows u v → climbs u a b → climbs v b c → climbs v a c.
Proof.
  intros G H1 H2 i s (s1 & H & Ha)%H1. apply H2 in H as (s2 & H & Hb).
  exists s2. split; [done|]. eapply absorbs_trans; [by eapply absorbs_grows|done].
Qed.

Lemma held_later u v states states' es :
  grows u v → climbs v states states' → edges_held u states es → edges_held v states' es.
Proof.
  intros G Hc H t e (st & Hst & Ha)%H. apply Hc in Hst as (st' & Hst & Hb).
  exists st'. split; [done|]. eapply absorbs_trans; [by eapply absorbs_grows|done].
Qed.
Lemma settled_later u v states states' b s :
  grows u v → climbs v states states' → settled u states b s → settled v states' b s.
Proof.
  intros G Hc (code & s' & es & Hb & He & Hr & Hp). exists code, s', es.
  split_and!; [done | by eapply held_later | by eapply replays_later |].
  intros i. destruct (Hp i) as (si & esi & ? & ?). exists si, esi. split; [done | by eapply replays_later].
Qed.

(** The shape of a recorded state. *)
Definition shaped (n : nat) (s : State) : Prop := length (st_locals s) = n ∧ shallow s.

Lemma shaped_kept n s s' : shaped n s → kept s s' → shaped n s'.
Proof. intros [Hn Hs] [Hl Hk]. split; [congruence | auto]. Qed.

(** The invariant; [except] is the block being run, from the state it had. *)
Record flow_inv (n : nat) (except : nat → State → Prop) (u : Universe) (fl : Flow) : Prop := mkFlowInv {
  fi_from : grows u0 u;
  fi_ok : index_ok u;
  fi_shape : ∀ i s, fl_states fl !! i = Some (Some s) → shaped n s;
  fi_blocks : ∀ i s, fl_states fl !! i = Some (Some s) →
    N.of_nat i ∈ fl_work fl ∨ settled u (fl_states fl) i s ∨ except i s;
}.

Lemma merged_climbs u target edge fl fl' st : merged cx u target edge fl fl' st → climbs u (fl_states fl) (fl_states fl').
Proof.
  intros [Hs _ (slot & Hslot & Hold) _] i s Hi. rewrite Hs. destruct (decide (i = N.to_nat target)) as [->|Hne].
  - rewrite list_lookup_insert_eq by (by eapply lookup_lt_Some). simplify_eq. eauto.
  - rewrite list_lookup_insert_ne by done. eauto using absorbs_refl.
Qed.

Lemma merge_inv n except target edge fl u fl' u1 :
  merge target edge fl u = Ret (Ok (fl', u1)) → fits u1 → shaped n edge → flow_inv n except u fl →
  flow_inv n except u1 fl' ∧ climbs u1 (fl_states fl) (fl_states fl') ∧ edges_held u1 (fl_states fl') [(target, edge)].
Proof.
  intros H Hf Hn [I1 I2 I3 I4]. pose proof (growing _ _ _ _ ltac:(intros; apply stable_merge) H) as G.
  destruct (merge_spec _ _ _ _ _ _ _ _ n H I2 Hf (proj1 Hn) (λ i s Hs, proj1 (I3 i s Hs))) as (st & Hm & Hl).
  pose proof (merged_climbs _ _ _ _ _ _ Hm) as Hc. destruct Hm as [Hs He (slot & Hslot & Hold) Hw].
  assert (Hsh : shallow st) by (unfold shallow, lenN; rewrite <-(Forall2_length _ _ _ (absorbs_stack _ _ _ _ He)); apply Hn).
  assert (Hlt : N.to_nat target < length (fl_states fl)) by (by eapply lookup_lt_Some).
  assert (Hst : fl_states fl' !! N.to_nat target = Some (Some st)) by (by rewrite Hs, list_lookup_insert_eq).
  split_and!; [constructor | done |].
  - by etrans.
  - by apply (grows_ok _ _ G).
  - intros i s. rewrite Hs. destruct (decide (i = N.to_nat target)) as [->|Hne].
    + rewrite list_lookup_insert_eq by done. by intros [= <-].
    + rewrite list_lookup_insert_ne by done. apply I3.
  - intros i s Hi.
    assert (Hback : fl_states fl !! i = Some (Some s) ∨ fl_work fl' = fl_work fl ++ [N.of_nat i]).
    { rewrite Hs in Hi. destruct (decide (i = N.to_nat target)) as [->|Hne].
      - rewrite list_lookup_insert_eq in Hi by done. rewrite N2Nat.id. simplify_eq. destruct Hw as [|[_ ?]]; auto.
      - rewrite list_lookup_insert_ne in Hi by done. auto. }
    destruct Hback as [Hb| ->]; [|left; apply elem_of_app; right; by left].
    destruct (I4 _ _ Hb) as [Hin|[Hset|Hex]].
    + left. destruct Hw as [-> | [-> _]]; [apply elem_of_app; by left | done].
    + right; left. by eapply settled_later.
    + by right; right.
  - intros t e [[= -> ->]|[]%not_elem_of_nil]%elem_of_cons. eauto.
Qed.

Lemma edges_run_fits es fl u fl' u1 : edges_run merge es fl u fl' u1 → fits u1 → fits u.
Proof.
  induction 1 as [? ? ? [Hp _ _ _]|? ? ? ? ? ? ? ? ? ? [Hp _ _ _] Hm _ IH]; intros Hf; [by eapply fits_prefix|].
  eapply fits_prefix; [done|]. eapply later_fits; [|done|by apply IH]. intros. apply stable_merge.
Qed.

Lemma flow_inv_grows n except u v fl : grows u v → fits v → flow_inv n except u fl → flow_inv n except v fl.
Proof.
  intros G Hf [I1 I2 I3 I4]. constructor; [by etrans | by apply (grows_ok _ _ G) | done |].
  intros i s Hi. destruct (I4 _ _ Hi) as [|[|]]; [by left | | by right; right].
  right; left. eapply settled_later; [done | apply climbs_refl | done].
Qed.

(** A run of merges keeps the invariant and holds its edges. *)
Lemma edges_inv n except es fl u fl' u1 :
  edges_run merge es fl u fl' u1 → fits u1 → (∀ t e, (t, e) ∈ es → shaped n e) →
  flow_inv n except u fl →
  flow_inv n except u1 fl' ∧ climbs u1 (fl_states fl) (fl_states fl') ∧ edges_held u1 (fl_states fl') es.
Proof.
  induction 1 as [fl u u' G|t s es fl u v fl1 w fl2 u' G Hm Hr IH]; intros Hf Hl Hi.
  { split_and!; [by eapply flow_inv_grows | apply climbs_refl | by intros t e []%not_elem_of_nil]. }
  pose proof (edges_run_fits _ _ _ _ _ Hr Hf) as Hfw.
  assert (Hfv : fits v) by (eapply later_fits; [|done|done]; intros; apply stable_merge).
  assert (Hfi : flow_inv n except v fl) by (by eapply flow_inv_grows).
  destruct (merge_inv _ _ _ _ _ _ _ _ Hm Hfw (Hl _ _ ltac:(left)) Hfi) as (Hi1 & Hc1 & He1).
  destruct IH as (Hi2 & Hc2 & He2); [done | intros ?? Hin; eapply Hl; by right | done|].
  assert (Gw : grows w u').
  { clear -Hr. induction Hr; [done|]. etrans; [done|]. etrans; [|done].
    eapply growing; [|done]. intros. apply stable_merge. }
  split_and!; [done | by eapply climbs_trans|].
  intros t' e [[= -> ->]|Hin]%elem_of_cons; [|by apply He2].
  eapply (held_later w u' _ _ [(t, s)]); [done..|]. by left.
Qed.

(** One round: the head of the queue is run and becomes settled. *)
Lemma round_inv n b work states s code s' fl' u u1 :
  flow_inv n (λ _ _, False) u (mkFlow states (b :: work)) → states !! N.to_nat b = Some (Some s) →
  func_blocks func !! N.to_nat b = Some code →
  run_block cx func fidx merge b 0 code s (mkFlow states work) u = Ret (Ok ((s', fl'), u1)) → fits u1 →
  flow_inv n (λ _ _, False) u1 fl' ∧ climbs u1 states (fl_states fl').
Proof.
  intros Hi Hs Hb Hrun Hf. pose proof Hi as [I1 I2 I3 I4].
  destruct (block_ran cx func fidx u0 Hlocals merge b 0 code s (mkFlow states work) u s' fl' u1)
    as (es & [G L E R S]); [intros; apply stable_merge | done | done|].
  destruct (edges_inv n (λ i st, i = N.to_nat b ∧ st = s) es (mkFlow states work) u fl' u1) as (J & Hc & He);
    [done | done | intros t e Hin; eapply shaped_kept; [by eapply I3 | by eapply E] | |].
  { constructor; [done..|]. intros i st Hst. destruct (I4 _ _ Hst) as [[Hib|Hin]%elem_of_cons|[?|[]]]; [|by left|by right; left].
    right; right. subst b. rewrite Nat2N.id in *. simpl in *. split; [done|congruence]. }
  split; [|done]. destruct J as [J1 J2 J3 J4]. constructor; [done..|].
  intros i st Hst. destruct (J4 _ _ Hst) as [|[|[-> ->]]]; [by left | by right; left | right; left].
  exists code, s', es. unfold replays. rewrite N2Nat.id. split_and!; [done | done | exact S |].
  intros k. destruct (prefix_ran cx func fidx u0 Hlocals merge b code s (mkFlow states work) u s' fl' u1 k)
    as (si & acci & v & esi & Gv & R2); [intros; apply stable_merge | done | done|].
  exists si, esi. split; [apply R2|]. intros B f acc u2 Hu2. apply (ran_later _ _ _ _ _ _ _ _ _ R2). by etrans.
Qed.

(** The parts of a round that returned. *)
Lemma round_parts rounds fl u states u1 b work :
  flow_loop cx func fidx (S rounds) fl u = Ret (Ok (states, u1)) → fl_work fl = b :: work →
  ∃ s code s' fl' v, fl_states fl !! N.to_nat b = Some (Some s) ∧ func_blocks func !! N.to_nat b = Some code ∧
    run_block cx func fidx merge b 0 code s (mkFlow (fl_states fl) work) u = Ret (Ok ((s', fl'), v)) ∧
    flow_loop cx func fidx rounds fl' v = Ret (Ok (states, u1)).
Proof.
  intros H Hw. simpl in H. rewrite Hw in H. apply bind_inv in H as (slot & v & [Hslot ->]%vlift_ok & H).
  apply bind_inv in H as (s & v & [Hs ->]%vlift_ok & H). apply bind_inv in H as (code & v & [Hc ->]%vlift_ok & H).
  apply bind_inv in H as ([s' fl'] & v & Hrun & H). unfold of_option in *. repeat case_match; simplify_eq.
  eexists _, _, _, _, _. done.
Qed.

Lemma flow_loop_grows rounds fl u states u1 :
  flow_loop cx func fidx rounds fl u = Ret (Ok (states, u1)) → grows u0 u → grows u u1.
Proof.
  revert fl u. induction rounds as [|rounds IH]; intros fl u H Hu; [done|].
  destruct (fl_work fl) as [|b work] eqn:Hw; [simpl in H; rewrite Hw in H; by injection H as <- <-|].
  eapply round_parts in H as (s & code & s' & fl' & v & _ & _ & Hrun & H); [|done].
  destruct (block_ran cx func fidx u0 Hlocals merge b 0 code s (mkFlow (fl_states fl) work) u s' fl' v)
    as (es & R); [intros; apply stable_merge | done | done|].
  pose proof (ran_grows _ _ _ _ _ _ _ _ _ R). etrans; [done|]. eapply IH; [done|]. by etrans.
Qed.

Lemma flow_loop_inv n rounds fl u states u1 :
  flow_loop cx func fidx rounds fl u = Ret (Ok (states, u1)) → fits u1 → flow_inv n (λ _ _, False) u fl →
  flow_inv n (λ _ _, False) u1 (mkFlow states []) ∧ climbs u1 (fl_states fl) states.
Proof.
  revert fl u. induction rounds as [|rounds IH]; intros fl u H Hf Hi; [done|].
  destruct (fl_work fl) as [|b work] eqn:Hw.
  { simpl in H. rewrite Hw in H. injection H as <- <-. split; [|apply climbs_refl]. destruct fl. by simplify_eq/=. }
  eapply round_parts in H as (s & code & s' & fl' & v & Hs & Hb & Hrun & H); [|done].
  destruct (block_ran cx func fidx u0 Hlocals merge b 0 code s (mkFlow (fl_states fl) work) u s' fl' v)
    as (es & R); [intros; apply stable_merge | by apply Hi | done|]. apply ran_grows in R.
  assert (G : grows v u1). { eapply flow_loop_grows; [done|]. etrans; [by apply Hi|done]. }
  assert (Hfv : fits v) by (eapply fits_prefix, Hf; apply G).
  destruct fl as [st wk]. simpl in *. subst wk.
  destruct (round_inv n b work st s code s' fl' u v) as [Hi' Hc']; [done..|].
  destruct (IH _ _ H Hf Hi') as [Hi2 Hc2]. split; [done|]. by eapply climbs_trans.
Qed.

(** The entry of block 0 is the state the call leaves. *)
Definition called (s : State) : Prop := ∃ locals, entry_locals func = Ret locals ∧ s = mkState locals [] [].

Lemma entry_locals_length locals : entry_locals func = Ret locals → length locals = N.to_nat (local_count func).
Proof.
  unfold entry_locals. destruct (N.leb_spec (lenN (func_params func)) (local_count func)) as [Hle|]; [|done].
  intros [= <-]. rewrite length_app, length_fmap, length_replicate. unfold lenN in Hle. lia.
Qed.

Lemma entry_flow_inv fl : entry_flow func = Ret fl → index_ok u0 →
  ∃ s, called s ∧ fl_states fl !! 0 = Some (Some s) ∧ flow_inv (N.to_nat (local_count func)) (λ _ _, False) u0 fl.
Proof.
  intros (locals & Hl & H)%bind_Ret Hok. destruct (func_blocks func) as [|c blocks]; [done|]. injection H as <-.
  exists (mkState locals [] []). split_and!; [by exists locals | done|].
  assert (Hone : ∀ i s, (Some (mkState locals [] []) :: replicate (length blocks) None) !! i = Some (Some s) →
    i = 0 ∧ s = mkState locals [] []).
  { intros [|i] s; simpl; [by intros [= <-]|]. by intros [? ?]%lookup_replicate. }
  constructor; [done | done | intros i s [_ ->]%Hone; split; [by apply entry_locals_length | done] |].
  intros i s [-> ->]%Hone. left. by left.
Qed.

(** What the fixpoint proves, with every later replay. *)
Lemma dataflow_inv rounds states u :
  dataflow cx func fidx rounds u0 = Ret (Ok (states, u)) → index_ok u0 → fits u →
  grows u0 u ∧
  (∃ s st, called s ∧ states !! 0 = Some (Some st) ∧ absorbs u s st) ∧
  (∀ b s, states !! b = Some (Some s) → settled u states b s ∧ shaped (N.to_nat (local_count func)) s).
Proof.
  intros (fl & v & [Hfl ->]%vlift_ok & H)%bind_inv Hok Hf.
  destruct (entry_flow_inv _ Hfl Hok) as (s & Hcall & H0 & Hi).
  destruct (flow_loop_inv _ _ _ _ _ _ H Hf Hi) as [J Hc]. split_and!.
  - by eapply flow_loop_grows.
  - destruct (Hc _ _ H0) as (st & ? & ?). exists s, st. done.
  - intros b st Hst. split; [|by apply (fi_shape _ _ _ _ J _ _ Hst)].
    by destruct (fi_blocks _ _ _ _ J _ _ Hst) as [[]%not_elem_of_nil|[|[]]].
Qed.

End Worklist.
