(* ===== verification/VerifyReplay.v ===== *)
(** * The states at points

    [states_at_points] files the requests by block, sorts each block's by
    position and answers them in one pass over the block.  On settled blocks
    the pass cannot fail, and the answer to each request is the state a
    replay of that prefix leaves. *)

From stdpp Require Import base numbers list strings gmap sorting pretty.
From S2P Require Import Prelude Value Codec Bytecode ModuleTables VerifyCtx VerifySub VerifyStep VerifyPerform.
From S2P Require Import VerifyRules VerifyFunc VerifyStable VerifyFine VerifyFlow VerifyFix VerifySound.

#[local] Open Scope nat_scope.

(** ** Answers written into a list *)

Section Answers.
Context {A : Type}.

(** Each request [(position, slot)] answered by [f position]. *)
Definition answer (f : N → option A) (requests : list (N * N)) (results : list (option A)) : list (option A) :=
  foldl (λ rs q, <[N.to_nat q.2 := f q.1]> rs) results requests.

Lemma answer_length f requests results : length (answer f requests results) = length results.
Proof.
  revert results. induction requests as [|q l IH]; intros results; simpl; [done|].
  unfold answer in *. simpl. by rewrite IH, length_insert.
Qed.
Lemma answer_other f requests results k :
  k ∉ (N.to_nat ∘ snd <$> requests) → answer f requests results !! k = results !! k.
Proof.
  revert results. induction requests as [|q l IH]; intros results; [done|].
  rewrite fmap_cons, not_elem_of_cons. intros [Hq Hl]. unfold answer in *. simpl. rewrite IH by done.
  by rewrite list_lookup_insert_ne.
Qed.
Lemma answer_at f requests results i k :
  NoDup (snd <$> requests) → (i, k) ∈ requests → N.to_nat k < length results →
  answer f requests results !! N.to_nat k = Some (f i).
Proof.
  revert results. induction requests as [|q l IH]; intros results; [by intros _ []%not_elem_of_nil|].
  rewrite fmap_cons, NoDup_cons. intros [Hq Hl] [<-|Hin]%elem_of_cons Hk.
  - unfold answer. simpl. fold (answer f l (<[N.to_nat k:=f i]> results)). rewrite answer_other.
    + by rewrite list_lookup_insert_eq.
    + intros (q' & E & Hq')%list_elem_of_fmap. apply Hq. simpl in *.
      apply list_elem_of_fmap. exists q'. split; [lia|done].
  - unfold answer. simpl. apply IH; [done..|]. by rewrite length_insert.
Qed.

End Answers.

(** ** Filing *)

Section Filing.
Context (func : Func) (fidx : N).

Definition in_range (point : N * N) : Prop :=
  ∃ code, func_blocks func !! N.to_nat point.1 = Some code ∧ (point.2 <= lenN code)%N.

#[export] Instance in_range_dec point : Decision (in_range point).
Proof.
  destruct (func_blocks func !! N.to_nat point.1) as [code|] eqn:H.
  - destruct (decide (point.2 <= lenN code)%N); [left; by exists code | right].
    intros (c & Hc & ?). rewrite Hc in H. by simplify_eq.
  - right. intros (c & Hc & _). by rewrite Hc in H.
Defined.

Definition filed (groups : list (list (N * N))) (b : nat) (i k : N) : Prop :=
  ∃ g, groups !! b = Some g ∧ (i, k) ∈ g.

Record filing (result : N) (groups : list (list (N * N))) : Prop := mkFiling {
  filing_len : length groups = length (func_blocks func);
  filing_below : ∀ b i k, filed groups b i k → (k < result)%N;
  filing_once : ∀ b g, groups !! b = Some g → NoDup (snd <$> g);
}.

Lemma file_request_ok groups result point u : in_range point →
  file_request func fidx groups result point u
    = Ret (Ok (alter (λ g, g ++ [(point.2, result)]) (N.to_nat point.1) groups, u)).
Proof.
  destruct point as [b i]. intros (code & Hc & Hi). simpl in *. unfold file_request. rewrite Hc.
  rewrite (bind_ok _ _ u code u), (bind_ok _ _ u tt u); [done | | done].
  apply N.leb_le in Hi. unfold vrequire. by rewrite Hi.
Qed.
Lemma file_request_err groups result point u : ¬ in_range point →
  ∃ e, file_request func fidx groups result point u = Ret (Err e).
Proof.
  destruct point as [b i]. intros Hn. unfold file_request.
  destruct (func_blocks func !! N.to_nat b) as [code|] eqn:Hc; [|by eexists].
  destruct (N.leb_spec i (lenN code)); [by destruct Hn; exists code|].
  rewrite (bind_ok _ _ u code u) by done. eexists. unfold mbind, V_bind, vrequire. apply N.leb_gt in H. by rewrite H.
Qed.

Lemma alter_filed groups b i k b' i' k' : b < length groups →
  filed (alter (λ g, g ++ [(i, k)]) b groups) b' i' k' ↔ filed groups b' i' k' ∨ (b', i', k') = (b, i, k).
Proof.
  intros Hb. unfold filed. destruct (decide (b = b')) as [<-|Hne].
  - rewrite list_lookup_alter_eq. destruct (lookup_lt_is_Some_2 groups b Hb) as [g ->]. simpl. split.
    + intros (? & [= <-] & [?|[= -> ->]%list_elem_of_singleton]%elem_of_app); eauto.
    + intros [(? & [= <-] & ?)|[= -> ->]]; (eexists; split; [done|]); apply elem_of_app; [by left|].
      right. by apply list_elem_of_singleton.
  - rewrite list_lookup_alter_ne by done. split; [auto|]. intros [?|[= -> ]]; done.
Qed.
Lemma filing_next result groups point : in_range point → filing result groups →
  filing (result + 1) (alter (λ g, g ++ [(point.2, result)]) (N.to_nat point.1) groups).
Proof.
  intros (code & Hc & _) [F1 F2 F3].
  assert (Hlt : N.to_nat point.1 < length groups) by (rewrite F1; by eapply lookup_lt_Some). constructor.
  - by rewrite length_alter.
  - intros b i k [?%F2|[= -> -> ->]]%alter_filed; [lia..|done].
  - intros b g. destruct (decide (N.to_nat point.1 = b)) as [<-|Hne].
    + rewrite list_lookup_alter_eq. intros (g0 & Hg & ->)%fmap_Some. rewrite fmap_app. apply NoDup_app.
      split_and!; [by eapply F3 | | by apply NoDup_singleton].
      intros k ([i k'] & -> & Hin)%list_elem_of_fmap Hk%list_elem_of_singleton. simpl in *.
      assert (k' < result)%N by (eapply F2; exists g0; done). lia.
    + rewrite list_lookup_alter_ne by done. apply F3.
Qed.

Lemma file_requests_ok groups result points u : Forall in_range points → filing result groups →
  ∃ groups', file_requests func fidx groups result points u = Ret (Ok (groups', u)) ∧
    (∃ result', filing result' groups') ∧
    ∀ b i k, filed groups' b i k ↔
      filed groups b i k ∨ ∃ j, points !! j = Some (N.of_nat b, i) ∧ k = (result + N.of_nat j)%N.
Proof.
  intros H. revert groups result. induction H as [|point points Hp _ IH]; intros groups result Hf.
  { exists groups. split_and!; [done | by eexists |]. intros b i k. split; [auto|]. intros [?|(j & [=] & _)]. done. }
  destruct (IH _ _ (filing_next _ _ _ Hp Hf)) as (groups' & Hr & Hf' & Hm). exists groups'. split_and!; [|done|].
  { cbn [file_requests]. rewrite (bind_ok _ _ u _ u) by (by apply file_request_ok). done. }
  intros b i k. rewrite Hm, alter_filed.
  2: { destruct Hp as (code & Hc & _). rewrite (filing_len _ _ Hf). by eapply lookup_lt_Some. }
  destruct point as [pb pi]. simpl. split.
  - intros [[?|[= -> -> ->]]|(j & Hj & ->)]; [by left | right; exists 0 | right; exists (S j)];
      (split; [|lia]); [simpl; by rewrite N2Nat.id | done].
  - intros [?|([|j] & Hj & ->)]; [by do 2 left | left; right | right; exists j]; [|split; [done|lia]].
    injection Hj as -> ->. by rewrite Nat2N.id, N.add_0_r.
Qed.

Lemma file_requests_err groups result points u : ¬ Forall in_range points →
  ∃ e, file_requests func fidx groups result points u = Ret (Err e).
Proof.
  revert groups result. induction points as [|point points IH]; intros groups result Hn; [by destruct Hn|].
  cbn [file_requests]. destruct (decide (in_range point)) as [Hp|Hp].
  - rewrite (bind_ok _ _ u _ u) by (by apply file_request_ok). apply IH. intros ?. apply Hn. by constructor.
  - destruct (file_request_err groups result point u Hp) as [e He]. exists e. unfold mbind, V_bind. by rewrite He.
Qed.

Lemma filing_empty : filing 0 (replicate (length (func_blocks func)) []).
Proof.
  constructor; [by rewrite length_replicate | |].
  - intros b i k (g & [-> _]%lookup_replicate & []%not_elem_of_nil).
  - intros b g [-> _]%lookup_replicate. constructor.
Qed.
End Filing.

(** ** One block *)

Section Replay.
Context (cx : Ctx) (func : Func) (fidx : N).

(** The state after [i] instructions of a block entered with [s]. *)
Definition state_after (u : Universe) (b : N) (code : list Instr) (s : State) (i : N) : option State :=
  match run_block cx func fidx drop_edge b 0 (take (N.to_nat i) code) s tt u with
  | Ret (Ok ((st, _), _)) => Some st
  | _ => None
  end.

(** Every prefix of the block replays without growing the universe. *)
Definition replayable (u : Universe) (b : N) (code : list Instr) (s : State) : Prop :=
  ∀ i, ∃ si, run_block cx func fidx drop_edge b 0 (take i code) s tt u = Ret (Ok ((si, tt), u)).

Lemma answer_ext {A} (f g : N → option A) requests results :
  Forall (λ q, f q.1 = g q.1) requests → answer f requests results = answer g requests results.
Proof.
  intros H. revert results. induction H as [|q l Hq _ IH]; intros results; [done|].
  unfold answer in *. simpl. by rewrite Hq, IH.
Qed.

Lemma take_requests_spec iidx s requests results :
  StronglySorted request_le requests → Forall (λ q, iidx <= q.1)%N requests →
  ∃ taken rest, requests = taken ++ rest ∧ Forall (λ q, q.1 = iidx) taken ∧ Forall (λ q, iidx < q.1)%N rest ∧
    take_requests iidx s requests results = (rest, answer (λ _, Some s) taken results).
Proof.
  intros Hs. revert results. induction Hs as [|[p r] l Hs IH Hle]; intros results Hge; [by exists [], []|].
  inversion Hge as [|? ? Hp Hge']; subst. simpl in *. destruct (N.eqb_spec p iidx) as [->|Hne].
  - destruct (IH (<[N.to_nat r:=Some s]> results) Hge') as (taken & rest & -> & Ht & Hr & E).
    exists ((iidx, r) :: taken), rest. split_and!; [done | by constructor | done | done].
  - exists [], ((p, r) :: l). split_and!; [done | done | | done]. constructor; [simpl; lia|].
    eapply Forall_impl; [exact Hle|]. unfold request_le. simpl. intros q Hq. lia.
Qed.

Lemma next_step u b pre instr rest s si :
  replayable u b (pre ++ instr :: rest) s →
  run_block cx func fidx drop_edge b 0 pre s tt u = Ret (Ok ((si, tt), u)) →
  ∃ sn, step cx func fidx b (lenN pre) drop_edge instr si tt u = Ret (Ok ((sn, tt), u)) ∧
    run_block cx func fidx drop_edge b 0 (pre ++ [instr]) s tt u = Ret (Ok ((sn, tt), u)).
Proof.
  intros Hr Hpre. destruct (Hr (length pre + 1)) as [sn Hsn].
  replace (take (length pre + 1) (pre ++ instr :: rest)) with (pre ++ [instr]) in Hsn
    by (by rewrite firstn_app_2).
  exists sn. split; [|done]. apply run_block_app in Hsn as (s1 & [] & v & H1 & H2).
  rewrite Hpre in H1. injection H1 as <- <-. cbn [run_block] in H2.
  apply bind_inv in H2 as ([s2 []] & w & H2 & [= <- <-]). by rewrite N.add_0_l in H2.
Qed.

Lemma state_after_at u b pre code s si :
  run_block cx func fidx drop_edge b 0 pre s tt u = Ret (Ok ((si, tt), u)) →
  state_after u b (pre ++ code) s (lenN pre) = Some si.
Proof. intros H. unfold state_after, lenN. rewrite Nat2N.id, take_app_length. by rewrite H. Qed.

(** The requests at the current position, answered. *)
Lemma take_here u b pre code s si requests results :
  run_block cx func fidx drop_edge b 0 pre s tt u = Ret (Ok ((si, tt), u)) →
  StronglySorted request_le requests → Forall (λ q, lenN pre <= q.1)%N requests →
  ∃ taken rest, requests = taken ++ rest ∧ Forall (λ q, lenN pre < q.1)%N rest ∧
    take_requests (lenN pre) si requests results = (rest, answer (state_after u b (pre ++ code) s) taken results).
Proof.
  intros Hpre Hs Hb. destruct (take_requests_spec (lenN pre) si requests results) as (taken & rest & -> & Ht & Hr & E);
    [done..|]. exists taken, rest. split_and!; [done..|]. rewrite E. f_equal. apply answer_ext.
  eapply Forall_impl; [exact Ht|]. intros q ->. by erewrite state_after_at.
Qed.

Lemma replay_block_spec u b pre code s si requests results :
  replayable u b (pre ++ code) s → run_block cx func fidx drop_edge b 0 pre s tt u = Ret (Ok ((si, tt), u)) →
  StronglySorted request_le requests → Forall (λ q, lenN pre <= q.1 ∧ q.1 <= lenN (pre ++ code))%N requests →
  replay_block cx func fidx b (lenN pre) code si requests results u
    = Ret (Ok (answer (state_after u b (pre ++ code) s) requests results, u)).
Proof.
  intros Hr Hpre Hs Hb. revert pre si requests results Hr Hpre Hs Hb.
  induction code as [|instr code IH]; intros pre si requests results Hr Hpre Hs [Hb1 Hb2]%Forall_and.
  - destruct (take_here u b pre [] s si requests results Hpre Hs Hb1) as (taken & rest & -> & Hrest & E).
    cbn [replay_block]. rewrite E. destruct rest as [|q rest]; [by rewrite (app_nil_r taken)|].
    apply Forall_app in Hb2 as [_ Hb2]. inversion Hb2. inversion Hrest. rewrite app_nil_r in *. lia.
  - destruct (take_here u b pre (instr :: code) s si requests results Hpre Hs Hb1) as (taken & rest & -> & Hrest & E).
    cbn [replay_block]. rewrite E. destruct (next_step _ _ _ _ _ _ _ Hr Hpre) as (sn & Hstep & Hpre').
    rewrite (bind_ok _ _ _ _ _ Hstep).
    rewrite (cons_middle instr), app_assoc in Hr, Hb2 |- *.
    assert (Hlen : lenN (pre ++ [instr]) = (lenN pre + 1)%N) by (unfold lenN; rewrite length_app; simpl; lia).
    rewrite <-Hlen. rewrite (IH (pre ++ [instr]) sn rest _ Hr Hpre').
    + unfold answer. by rewrite foldl_app.
    + by eapply StronglySorted_app_1_r.
    + apply Forall_and. apply Forall_app in Hb2 as [_ Hb2]. split; [|done].
      eapply Forall_impl; [exact Hrest|]. simpl. rewrite Hlen. lia.
Qed.

(** ** Every block *)

Context (u : Universe) (states : entries).
Hypothesis Hstates : ∀ b s code, states !! b = Some (Some s) → func_blocks func !! b = Some code →
  replayable u (N.of_nat b) code s.

(** The state at a point: none where the block is unreached. *)
Definition expected (b : nat) (i : N) : option State :=
  match states !! b, func_blocks func !! b with
  | Some (Some s), Some code => state_after u (N.of_nat b) code s i
  | _, _ => None
  end.

(** [results'] answers the requests of [asks] and keeps the other slots. *)
Record answered (asks : nat → N → N → Prop) (results results' : entries) : Prop := mkAnswered {
  ans_len : length results' = length results;
  ans_keep : ∀ k, (∀ b i, ¬ asks b i k) → results' !! N.to_nat k = results !! N.to_nat k;
  ans_at : ∀ b i k, asks b i k → results !! N.to_nat k = Some None → results' !! N.to_nat k = Some (expected b i);
}.

Lemma sorted_requests g : StronglySorted request_le (merge_sort request_le g).
Proof.
  apply Sorted_StronglySorted; [intros a b c; unfold request_le; lia|].
  apply Sorted_merge_sort. unfold Total, request_le. lia.
Qed.

Lemma replay_one b code g results :
  func_blocks func !! b = Some code → NoDup (snd <$> g) → (∀ i k, (i, k) ∈ g → i <= lenN code)%N →
  ∃ results',
    match g, states !! N.to_nat (N.of_nat b) with
    | _ :: _, Some (Some s) => replay_block cx func fidx (N.of_nat b) 0 code s (merge_sort request_le g) results
    | _, _ => mret results
    end u = Ret (Ok (results', u)) ∧ answered (λ b' i k, b' = b ∧ (i, k) ∈ g) results results'.
Proof.
  intros Hc Hn Hle. rewrite Nat2N.id. destruct (decide (g = [])) as [->|Hg].
  { exists results. split; [done|]. constructor; [done..|]. by intros ? ? ? [_ []%not_elem_of_nil]. }
  destruct (states !! b) as [[s|]|] eqn:Hs.
  2, 3: exists results; (split; [by destruct g|]); (constructor; [done..|]);
    intros b' i k [-> _] H; by rewrite H; unfold expected; rewrite Hs.
  exists (answer (state_after u (N.of_nat b) code s) (merge_sort request_le g) results).
  pose proof (merge_sort_Permutation request_le g) as Hp. split.
  { destruct g; [done|]. apply (replay_block_spec u (N.of_nat b) [] code s s); [by eapply Hstates | done | |].
    - apply sorted_requests.
    - rewrite Hp. apply Forall_forall. intros [i k] Hin. split; [unfold lenN; simpl; lia | by eapply Hle]. }
  constructor; [apply answer_length | |].
  - intros k Hk. apply answer_other. rewrite Hp. intros ([i k'] & Ek & Hin)%list_elem_of_fmap.
    apply N2Nat.inj in Ek. subst. by destruct (Hk b i).
  - intros b' i k [-> Hin] Hk. unfold expected. rewrite Hs, Hc. apply answer_at; [by rewrite Hp | by rewrite Hp |].
    by eapply lookup_lt_Some.
Qed.

(** The groups from block [n] on, positions within their blocks, each slot in one group. *)
Record requests_ok (n : nat) (blocks : list (list Instr)) (groups : list (list (N * N))) : Prop := mkRequestsOk {
  rq_blocks : ∀ b code, blocks !! b = Some code → func_blocks func !! (n + b) = Some code;
  rq_len : length groups = length blocks;
  rq_once : ∀ b g, groups !! b = Some g → NoDup (snd <$> g);
  rq_range : ∀ b i k code, filed groups b i k → blocks !! b = Some code → (i <= lenN code)%N;
  rq_apart : ∀ b b' i i' k, filed groups b i k → filed groups b' i' k → b = b';
}.

Lemma filed_cons g groups b i k : filed (g :: groups) b i k ↔ match b with O => (i, k) ∈ g | S b => filed groups b i k end.
Proof. unfold filed. destruct b; simpl; [|done]. split; [by intros (? & [= <-] & ?) | eauto]. Qed.

Lemma requests_tail n code blocks g groups :
  requests_ok n (code :: blocks) (g :: groups) → requests_ok (S n) blocks groups.
Proof.
  intros [R1 R2 R3 R4 R5]. constructor.
  - intros b c Hb. rewrite <-(R1 (S b) c Hb). f_equal. lia.
  - by injection R2.
  - intros b g' Hg. by apply (R3 (S b)).
  - intros b i k c Hf Hb. apply (R4 (S b) i k c); [by apply filed_cons | done].
  - intros b b' i i' k H1 H2. assert (S b = S b') by (eapply R5; by apply filed_cons). lia.
Qed.

Lemma replay_blocks_spec n blocks groups results : requests_ok n blocks groups →
  ∃ results', replay_blocks cx func fidx (N.of_nat n) states blocks groups results u = Ret (Ok (results', u)) ∧
    answered (λ b i k, n <= b ∧ filed groups (b - n) i k) results results'.
Proof.
  revert n groups results. induction blocks as [|code blocks IH]; intros n [|g groups] results Hok;
    try (by destruct Hok as [_ [=] _ _ _]).
  { exists results. split; [done|]. constructor; [done..|]. by intros b i k [_ (? & ? & _)]. }
  pose proof Hok as [R1 R2 R3 R4 R5].
  destruct (replay_one n code g results) as (results1 & H1 & [A1 A2 A3]).
  { rewrite <-(R1 0 code) by done. f_equal. lia. }
  { by apply (R3 0). }
  { intros i k Hin. apply (R4 0 i k); [by apply filed_cons | done]. }
  destruct (IH (S n) groups results1 (requests_tail _ _ _ _ _ Hok)) as (results2 & H2 & [B1 B2 B3]).
  exists results2. split.
  { cbn [replay_blocks]. rewrite (bind_ok _ _ _ _ _ H1). by replace (N.of_nat n + 1)%N with (N.of_nat (S n)) by lia. }
  assert (Hapart : ∀ i k b i', (i, k) ∈ g → S n <= b → ¬ filed groups (b - S n) i' k).
  { intros i k b i' Hin Hb Hf. assert (0 = S (b - S n)); [|lia]. eapply R5; apply filed_cons; done. }
  constructor; [congruence | |].
  - intros k Hk. rewrite B2, A2; [done | |].
    + intros b i [-> Hin]. apply (Hk n i). split; [done|]. by rewrite Nat.sub_diag, filed_cons.
    + intros b i [Hb Hf]. apply (Hk b i). split; [lia|]. replace (b - n) with (S (b - S n)) by lia. by apply filed_cons.
  - intros b i k [Hb Hf] Hnone. destruct (decide (b = n)) as [->|Hne].
    + rewrite Nat.sub_diag, filed_cons in Hf. rewrite B2; [by apply A3|]. intros b i' [Hb' Hf']. by eapply Hapart.
    + replace (b - n) with (S (b - S n)) in Hf by lia. apply filed_cons in Hf.
      apply B3; [split; [lia|done]|]. rewrite A2; [done|]. intros b' i' [-> Hin]. eapply (Hapart i' k b i); [done|lia|done].
Qed.

(** The whole call on points in range. *)
Lemma states_at_points_spec points : Forall (in_range func) points →
  ∃ results, states_at_points cx func fidx states points u = Ret (Ok (results, u)) ∧ length results = length points ∧
    ∀ j b i, points !! j = Some (b, i) → results !! j = Some (expected (N.to_nat b) i).
Proof.
  intros Hr. destruct (file_requests_ok func fidx _ 0 points u Hr (filing_empty func)) as (groups & Hg & [r Hf] & Hm).
  assert (Hm' : ∀ b i k, filed groups b i k ↔ points !! N.to_nat k = Some (N.of_nat b, i)).
  { intros b i k. rewrite Hm. split.
    - intros [(g & [-> _]%lookup_replicate & []%not_elem_of_nil)|(j & Hj & ->)]. by rewrite N.add_0_l, Nat2N.id.
    - intros Hk. right. exists (N.to_nat k). split; [done|]. lia. }
  destruct (replay_blocks_spec 0 (func_blocks func) groups (replicate (length points) None)) as (results & Hrun & [A1 A2 A3]).
  { constructor; [done | apply Hf | apply Hf | |].
    - intros b i k code Hk%Hm' Hc. destruct (proj1 (Forall_lookup _ _) Hr _ _ Hk) as (c & Hc' & Hi).
      simpl in *. rewrite Nat2N.id in Hc'. by simplify_eq.
    - intros b b' i i' k H1%Hm' H2%Hm'. rewrite H1 in H2. injection H2. lia. }
  exists results. split_and!; [|by rewrite A1, length_replicate|].
  { unfold states_at_points. by rewrite (bind_ok _ _ _ _ _ Hg). }
  intros j b i Hj. rewrite <-(Nat2N.id j). apply A3.
  - split; [lia|]. rewrite Nat.sub_0_r. apply Hm'. by rewrite Nat2N.id, N2Nat.id.
  - rewrite Nat2N.id. apply lookup_replicate_2. by eapply lookup_lt_Some.
Qed.

End Replay.

(** A block the fixpoint settled is replayable, and keeps its shape. *)
Lemma settled_prefix cx func fidx u states b s code i :
  settled cx func fidx u states b s → func_blocks func !! b = Some code →
  ∃ si, kept s si ∧ run_block cx func fidx drop_edge (N.of_nat b) 0 (take i code) s tt u = Ret (Ok ((si, tt), u)).
Proof.
  intros (c & s' & es & Hc & _ & _ & Hp) Hb. destruct (Hp i) as (si & esi & Hk & H). exists si. split; [done|].
  assert (c = code) as -> by congruence. pose proof (H unit (λ _ _ x, x) tt u ltac:(done)) as E.
  by destruct (noted _ _ _).
Qed.
Lemma settled_replayable cx func fidx u states b s code :
  settled cx func fidx u states b s → func_blocks func !! b = Some code → replayable cx func fidx u (N.of_nat b) code s.
Proof. intros Hs Hb i. destruct (settled_prefix _ _ _ _ _ _ _ _ i Hs Hb) as (si & _ & ?). eauto. Qed.
