(* ===== verification/VerifyShape.v ===== *)
(** * Signatures and the structural pass
    (crates/lm-verify/src/func.rs, lib.rs, tables.rs)

    [verify_signatures] checks every signature and local-type table;
    [verify_func] bounds the size of the function, checks that every block
    ends with its only terminator and that every operand is inside its table,
    and then runs the fixpoint. *)

From stdpp Require Import base numbers list strings gmap sorting pretty.
From S2P Require Import Prelude Value Codec Bytecode ModuleTables VerifyCtx VerifySub VerifyStep VerifyPerform.
From S2P Require Import VerifyRules VerifyFunc.

#[local] Open Scope nat_scope.

Definition MAX_LOCAL_SLOTS : N := 65536.
Definition MAX_DATAFLOW_CELLS : N := 16777216.

Definition op_in (op : N) (ops : list N) : bool := existsb (N.eqb op) ops.

Section Shape.
Context (cx : Ctx).

(** [Ctx::is_interface_default]. *)
Definition is_interface_default (f : N) : bool :=
  bool_decide (is_Some (mjoin (cx_interface_defaults cx !! N.to_nat f))).

(** The operand count of a perform, the receiver of a VM control included. *)
Definition control_argc (op : N) : exec N :=
  if op_in op [OP_VM_NEW] then Ret 0%N
  else if op_in op [OP_VM_RUN; OP_VM_STEP; OP_VM_DRIVE; OP_VM_DRIVE_WAIT; OP_VM_TABLE; OP_VM_HANDLES;
    OP_VM_RESOURCE_IS_OPEN; OP_VM_RESOURCE_CLOSE; OP_VM_RESOURCE_KIND; OP_VM_ARTIFACT; OP_COMPILER_VERIFY; OP_VM_LINK;
    OP_VM_INSTANCE_ENTRY; OP_VM_STACK] then Ret 1%N
  else if op_in op [OP_VM_DISPATCH] then Ret 2%N
  else if op_in op [OP_VM_ACTIVATE; OP_VM_ACTIVATE_OR_FAULT; OP_VM_ANSWER; OP_VM_BRANCH_ANSWER; OP_VM_REJECT;
    OP_VM_SERVE_TCP_STREAM] then Ret 3%N
  else if op_in op [OP_VM_ACTIVATE_DEF; OP_VM_REPLACE_FUNCTION; OP_VM_REPLACE_CLASS; OP_VM_REPLACE_VALUE;
    OP_VM_REPLACE_PROCESS; OP_VM_CHANGE_FUNCTION; OP_VM_CHANGE_CLASS; OP_VM_CHANGE_VALUE; OP_VM_CHANGE_PROCESS] then Ret 3%N
  else if op_in op [OP_PROC_RUN; OP_PROC_RUN_CLOSURE; OP_PROC_CLOSE; OP_PROC_DONE; OP_PROC_PAUSE; OP_PROC_RESUME;
    OP_PROC_RECV; OP_PROC_RECV_WAIT; OP_WAIT_WAIT; OP_WAIT_CANCEL; OP_WAIT_ANY; OP_VM_MODULE_ENTRY_CODE;
    OP_VM_INSTANCE_ENTRY_BINDING; OP_VM_BINDING_SLOT; OP_VM_BINDING_SPEC; OP_VM_BINDING_INSTANCE;
    OP_VM_BINDING_FUNCTION_TARGET; OP_VM_BINDING_CLASS_TARGET; OP_VM_BRANCH] then Ret 1%N
  else if op_in op [OP_PROC_SEND] then Ret 2%N
  else if op_in op [OP_PROC_SPAWN] then Ret 3%N
  else if op_in op [OP_VM_SNAPSHOT_SELF] then Ret 0%N
  else if op_in op [OP_VM_SNAPSHOT_HELD; OP_VM_LOAD_SNAPSHOT; OP_VM_SNAPSHOT_VM; OP_VM_RUN_SNAPSHOT_BYTES;
    OP_VM_SNAPSHOT_BYTES; OP_VM_RESTORE_VM] then Ret 1%N
  else if op_in op [OP_VM_RESTORE; OP_VM_RESTORE_DYNAMIC; OP_VM_RESOURCE; OP_VM_SERVE_FILE; OP_VM_SERVE_TCP_LISTENER;
    OP_VM_SERVE_TLS_STREAM; OP_VM_DRIVE_FOR; OP_VM_SNAPSHOT_WAIT_HELD; OP_PROC_SNAPSHOT_WAIT; OP_VM_RESOURCE_SAME;
    OP_VM_REPLACE_ALL; OP_WAIT_CHOOSE] then Ret 2%N
  else if op_in op [OP_VM_INSTALL; OP_VM_INSTANCE_FUNCTION; OP_VM_INSTANCE_CLASS; OP_VM_INSTANCE_SLOT_FOR;
    OP_VM_INSTANCE_SLOT_SPEC; OP_VM_INSTANCE_FUNCTION_BINDING; OP_VM_INSTANCE_CLASS_BINDING] then Ret 2%N
  else if op_in op [OP_VM_MODULE_FUNCTION_CODE; OP_VM_MODULE_CLASS_CODE] then Ret 2%N
  else if op_in op [OP_VM_INSTALL_WITH] then Ret 3%N
  else Panic.

Definition perform_argc (op : N) : exec N :=
  def ← of_option (bundle_op (cx_bundle cx) op);
  match bo_kind def with
  | Op_Fixed => Ret (as_u32 (lenN (bo_params def)))
  | Op_VmControl => control_argc op
  end.

Section Instruction.
Context (func : Func) (fidx bidx iidx : N) (possible_scopes : list N).

#[local] Abbreviation at_ := (fail fidx bidx iidx).

Definition demand (b : bool) (what : string) : V VerifyError unit := vrequire b (at_ what).
Definition indexed {A} (o : option A) (what : string) : V VerifyError A := vok_or o (at_ what).

(** [module.funcs[scope]], [module.func_bounds[scope]]. *)
Definition scope_func (scope : N) : V VerifyError Func := vexpect (md_funcs (module cx) !! N.to_nat scope).
Definition scope_bounds (scope : N) : V VerifyError bounds_table :=
  vexpect (md_func_bounds (module cx) !! N.to_nat scope).

(** What is wrong with the type arguments of an application. *)
Fixpoint argument_fault (caller : Func) (scope : N) (types : list N) : V VerifyError (option string) :=
  match types with
  | [] => mret None
  | t :: types =>
      bounded ← vars_bounded t (func_type_params caller) (func_effect_params caller);
      if negb bounded then mret (Some "type application uses a variable outside the caller scope"%string) else
      bounds ← scope_bounds scope;
      proven ← projections_proven cx t bounds;
      if negb proven then mret (Some "type application uses an unproven associated type"%string)
      else argument_fault caller scope types
  end.

(** [check_app] with its message: a failed check keeps the types it interned. *)
Definition app_fault (scope app_idx want_types want_rows : N) : V VerifyError (option string) :=
  match md_funcs (module cx) !! N.to_nat scope with
  | None => mret (Some "generic scope function out of range"%string)
  | Some caller =>
      match md_apps (module cx) !! N.to_nat app_idx with
      | None => mret (Some "type application index out of range"%string)
      | Some app =>
          if negb (lenN (app_types app) =? want_types)%N then mret (Some "type application arity mismatch"%string)
          else if negb (lenN (app_rows app) =? want_rows)%N
          then mret (Some "type application row arity mismatch"%string)
          else
          fault ← argument_fault caller scope (app_types app);
          match fault with
          | Some what => mret (Some what)
          | None =>
              mret (if forallb (λ row, row_vars_bounded row (func_effect_params caller)) (app_rows app) then None
                    else Some "type application row uses a variable outside the caller scope"%string)
          end
      end
  end.

Definition check_app (scope app_idx want_types want_rows : N) : V VerifyError unit :=
  fault ← app_fault scope app_idx want_types want_rows;
  match fault with None => mret tt | Some what => vfail (at_ what) end.

Definition check_app_in_possible_scope (app_idx want_types want_rows : N) : V VerifyError unit :=
  ok ← anyV (λ scope, fault ← app_fault scope app_idx want_types want_rows; mret (bool_decide (fault = None)))
         possible_scopes;
  if (ok : bool) then mret tt else check_app (default fidx (head possible_scopes)) app_idx want_types want_rows.

Definition bounds_hold (types : list N) (rows : list (list BcRow)) (bounds : bounds_table) : V VerifyError bool :=
  anyV (λ scope, outer ← scope_bounds scope; type_arguments_meet_bounds cx types rows bounds outer (Some scope))
    possible_scopes.

(** [class] is frozen and some argument is not. *)
Definition frozen_misuse (class : option N) (types : list N) : V VerifyError bool :=
  match class with
  | None => mret false
  | Some class =>
      c ← vlift (class_at cx class);
      if cls_is_frozen c then anyV (λ t, notV (type_always_frozen cx t false)) types else mret false
  end.

(** A direct callee of either call. *)
Definition call_target (callee : N) : V VerifyError Func :=
  target ← indexed (md_funcs (module cx) !! N.to_nat callee) "call target out of range";
  _ ← demand (bool_decide (func_captures target = [])) "direct call to a function with captures";
  _ ← demand (negb (is_interface_default callee)) "an interface default needs interface dispatch";
  mret target.

Definition is_generic (types effects : N) : bool := negb ((types =? 0) && (effects =? 0))%N.

Definition check_call_g (callee app : N) : V VerifyError unit :=
  target ← call_target callee;
  _ ← demand (is_generic (func_type_params target) (func_effect_params target))
        "a type application on a non-generic callee";
  _ ← check_app_in_possible_scope app (func_type_params target) (func_effect_params target);
  application ← vexpect (md_apps (module cx) !! N.to_nat app);
  bounds ← scope_bounds callee;
  hold ← bounds_hold (app_types application) (app_rows application) bounds;
  _ ← demand hold "a call type argument does not meet its interface bounds";
  misuse ← frozen_misuse (constructor_class cx callee) (app_types application);
  demand (negb misuse) "a frozen constructor needs always-frozen type arguments".

(** Every type and row of the application is inside the scope. *)
Definition app_in_scope (a : TypeApp) (scope : N) : V VerifyError bool :=
  f ← scope_func scope;
  types ← allV (λ t, andV (vars_bounded t (func_type_params f) (func_effect_params f))
                       (bounds ← scope_bounds scope; projections_proven cx t bounds)) (app_types a);
  mret (types && forallb (λ row, row_vars_bounded row (func_effect_params f)) (app_rows a)).

Definition check_selector (selector : N) : V VerifyError unit :=
  demand (selector <? lenN (md_selectors (module cx)))%N "selector index out of range".

Definition check_call_virtual_g (selector app : N) : V VerifyError unit :=
  _ ← check_selector selector;
  a ← indexed (md_apps (module cx) !! N.to_nat app) "type application index out of range";
  ok ← anyV (app_in_scope a) possible_scopes;
  demand ok "type application uses a variable outside every reachable scope".

(** The scope has the generic arity and the bounds of the body [f]. *)
Definition scope_matches (f : N) (target : Func) (scope : N) : V VerifyError bool :=
  s ← scope_func scope;
  if (func_type_params target =? func_type_params s)%N && (func_effect_params target =? func_effect_params s)%N then
    own ← scope_bounds f; outer ← scope_bounds scope; mret (bool_decide (own = outer))
  else mret false.

(** [MakeClosure] and [MakeCallback]. *)
Definition check_closure (f captures : N) : V VerifyError unit :=
  target ← indexed (md_funcs (module cx) !! N.to_nat f) "closure function out of range";
  _ ← demand (lenN (func_captures target) =? captures)%N "closure capture count mismatch";
  matching ← anyV (scope_matches f target) possible_scopes;
  demand (negb (is_generic (func_type_params target) (func_effect_params target)) || matching)
    "a closure body must keep the enclosing generic arity".

(** A class an allocation names. *)
Definition new_class (class : N) (native : string) : V VerifyError BcClass :=
  c ← indexed (md_classes (module cx) !! N.to_nat class) "class index out of range";
  _ ← demand (negb (bool_decide (cls_kind c = Class_Abstract))) "cannot allocate an abstract enum parent";
  _ ← demand (negb (is_native_core_class cx class)) native;
  mret c.

Definition check_new_g (class app : N) : V VerifyError unit :=
  c ← new_class class "NewG cannot allocate a native core class";
  _ ← demand (negb (cls_type_params c =? 0)%N) "a type application on a non-generic class";
  _ ← check_app_in_possible_scope app (cls_type_params c) 0;
  application ← vexpect (md_apps (module cx) !! N.to_nat app);
  bounds ← vexpect (md_class_bounds (module cx) !! N.to_nat class);
  hold ← bounds_hold (app_types application) [] bounds;
  demand hold "a class type argument does not meet its interface bounds".

Definition check_type (idx : N) (what : string) : V VerifyError unit :=
  demand (idx <? lenN (md_types (module cx)))%N what.

Definition check_perform (op argc reply_ty : N) : V VerifyError unit :=
  _ ← indexed (bundle_op (cx_bundle cx) op) "perform operation slot out of range";
  want ← vlift (perform_argc op);
  _ ← demand (argc =? want)%N "perform argument count mismatch";
  check_type reply_ty "perform reply type index out of range".

Definition is_fixed (op : N) : bool :=
  match bundle_op (cx_bundle cx) op with
  | Some def => match bo_kind def with Op_Fixed => true | Op_VmControl => false end
  | None => false
  end.

Definition receiver_in_scope (recv_ty scope : N) : V VerifyError bool :=
  f ← scope_func scope;
  andV (vars_bounded recv_ty (func_type_params f) (func_effect_params f))
    (bounds ← scope_bounds scope; projections_proven cx recv_ty bounds).

Definition check_call_interface (site recv_ty app : N) : V VerifyError unit :=
  let '(interface, method) := unpack_interface_call_site site in
  contract ← indexed (md_interfaces (module cx) !! N.to_nat interface) "interface index out of range";
  requirement ← indexed (if_methods contract !! N.to_nat method) "interface method index out of range";
  ok ← anyV (receiver_in_scope recv_ty) possible_scopes;
  _ ← demand ok "interface receiver type uses a variable outside the caller scope";
  if negb (is_generic (im_type_params requirement) (im_effect_params requirement)) then
    demand (app =? NO_APP)%N "a non-generic interface method has a type application"
  else
    _ ← demand (negb (app =? NO_APP)%N) "a generic interface method needs a type application";
    check_app_in_possible_scope app (im_type_params requirement) (im_effect_params requirement).

Definition check_prepare_wait (op_argc reply_ty : N) : V VerifyError unit :=
  let '(op, argc) := wait_parts op_argc in
  operation ← indexed (bundle_op (cx_bundle cx) op) "wait operation slot out of range";
  _ ← demand (is_fixed op && bo_wait_source operation) "operation is not a wait source";
  _ ← demand (argc =? as_u32 (lenN (bo_params operation)))%N "wait argument count mismatch";
  check_type reply_ty "wait reply type index out of range".

(** The application of a slot call; [then_] runs after an application that fits. *)
Definition slot_application (c : BcCallableContract) (app : N) (missing extra unmet : string)
    (then_ : TypeApp → V VerifyError unit) : V VerifyError unit :=
  if (app =? NO_APP)%N then demand (negb (is_generic (cc_type_params c) (cc_effect_params c))) missing
  else if negb (is_generic (cc_type_params c) (cc_effect_params c)) then vfail (at_ extra)
  else
  _ ← check_app_in_possible_scope app (cc_type_params c) (cc_effect_params c);
  application ← vexpect (md_apps (module cx) !! N.to_nat app);
  hold ← bounds_hold (app_types application) (app_rows application) (cc_type_bounds c);
  _ ← demand hold unmet;
  then_ application.

Definition spec_at (slot : N) : V VerifyError SlotContract :=
  spec ← indexed (md_slots (module cx) !! N.to_nat slot) "slot index out of range"; mret (sl_contract spec).

Definition check_call_slot (slot app : N) : V VerifyError unit :=
  contract ← spec_at slot;
  match contract with
  | Slot_Function c | Slot_Method c =>
      slot_application c app "a generic slot call needs a type application"
        "a non-generic slot call has a type application"
        "a slot type argument does not meet its interface bounds" (λ _, mret tt)
  | _ => vfail (at_ "CALL_SLOT needs a callable slot")
  end.

Definition check_new_slot (slot app : N) : V VerifyError unit :=
  contract ← spec_at slot;
  match contract with
  | Slot_Class _ _ _ constructor =>
      slot_application constructor app "a generic class slot needs a type application"
        "a plain class slot has a type application"
        "a class slot type argument does not meet its interface bounds"
        (λ application,
          t ← ty (cc_ret constructor);
          misuse ← frozen_misuse (match t with Ty_Class class | Ty_Inst class _ => Some class | _ => None end)
                     (app_types application);
          demand (negb misuse) "a frozen class slot needs always-frozen type arguments")
  | _ => vfail (at_ "NEW_SLOT needs a class slot")
  end.

Definition check_extended (instr : ExtendedInstr) : V VerifyError unit :=
  match instr with
  | Ext_PrepareWait op_argc reply_ty => check_prepare_wait op_argc reply_ty
  | Ext_MakeCallback f captures => check_closure f captures
  | Ext_FunctionCode target =>
      target ← indexed (md_funcs (module cx) !! N.to_nat target) "function code target out of range";
      demand (negb (is_generic (func_type_params target) (func_effect_params target))
              && bool_decide (func_captures target = [])) "function code target is not portable"
  | Ext_ClassCode class =>
      _ ← indexed (md_classes (module cx) !! N.to_nat class) "class code target out of range"; mret tt
  | Ext_ModuleCode reflection =>
      _ ← indexed (md_reflections (module cx) !! N.to_nat reflection) "reflection module out of range"; mret tt
  | Ext_ReflectionRefine pattern target =>
      _ ← indexed (md_funcs (module cx) !! N.to_nat (pattern_function pattern)) "reflection pattern out of range";
      demand (target <? lenN (func_blocks func))%N "reflection failure block out of range"
  | Ext_ReflectionEnd pattern _ =>
      _ ← indexed (md_funcs (module cx) !! N.to_nat pattern) "reflection pattern out of range"; mret tt
  | Ext_OptionSome idx | Ext_OptionNone idx | Ext_OptionPayload idx | Ext_ListGet idx | Ext_MapGet idx
  | Ext_MapPutText idx _ | Ext_ListPop idx | Ext_MapRemove idx | Ext_DynPack idx | Ext_CodeSource idx
  | Ext_FaultSite idx | Ext_FaultTrace idx => check_type idx "type index out of range"
  | Ext_CallSlot slot app => check_call_slot slot app
  | Ext_NewSlot slot app => check_new_slot slot app
  | Ext_LoadSlot slot =>
      contract ← spec_at slot;
      match contract with Slot_Value _ => mret tt | _ => vfail (at_ "LOAD_SLOT needs a value slot") end
  | Ext_SendSlot slot =>
      contract ← spec_at slot;
      match contract with Slot_Process _ _ => mret tt | _ => vfail (at_ "SEND_SLOT needs a process slot") end
  | _ => mret tt
  end.

Definition check_table_edit (action kind slot : N) : V VerifyError unit :=
  _ ← demand (negb ((3 <? action) || (1 <? kind))%N) "invalid table edit encoding";
  _ ← demand (slot <? (if (kind =? 0)%N then op_count (cx_bundle cx) else group_count (cx_bundle cx)))%N
        "table edit target out of range";
  if (action =? 2)%N then
    if negb (kind =? 0)%N then vfail (at_ "a mock target must be an exact fixed operation")
    else
    _ ← vexpect (bundle_op (cx_bundle cx) slot);
    demand (is_fixed slot) "a mock target must be an exact fixed operation"
  else mret tt.

Definition check_as_call (op idx : N) : V VerifyError unit :=
  answerable ←
    (if (op <? op_count (cx_bundle cx))%N then
       _ ← vexpect (bundle_op (cx_bundle cx) op); mret (is_fixed op || (op =? OP_VM_SNAPSHOT_SELF)%N)
     else mret false);
  _ ← demand answerable "as_call operation slot is out of range or not answerable";
  check_type idx "as_call type index out of range".

Definition check_store_local (slot : N) : V VerifyError unit :=
  _ ← demand (slot <? local_count func)%N "local slot out of range";
  declared ← vexpect (func_local_types func !! N.to_nat slot);
  t ← ty declared;
  match t with Ty_Callback _ _ _ _ => vfail (at_ "a callback cannot be stored in a local") | _ => mret tt end.

Definition check_instr (instr : Instr) : V VerifyError unit :=
  match instr with
  | I_ConstStr idx => demand (idx <? lenN (md_strings (module cx)))%N "string index out of range"
  | I_LoadLocal slot => demand (slot <? local_count func)%N "local slot out of range"
  | I_StoreLocal slot => check_store_local slot
  | I_Call callee =>
      target ← call_target callee;
      demand (negb (is_generic (func_type_params target) (func_effect_params target)))
        "a generic callee needs a type application"
  | I_CallG callee app => check_call_g callee app
  | I_CallVirtual selector _ => check_selector selector
  | I_CallVirtualG selector _ app => check_call_virtual_g selector app
  | I_MakeClosure f captures => check_closure f captures
  | I_LoadCapture idx => demand (idx <? lenN (func_captures func))%N "capture index out of range"
  | I_New class =>
      c ← new_class class "New cannot allocate a native core class";
      demand (cls_type_params c =? 0)%N "a generic class needs a type application"
  | I_NewG class app => check_new_g class app
  | I_ListNew idx _ | I_MapNew idx _ | I_TupleNew idx _ | I_IsType idx | I_CastType idx | I_MapPut idx _ =>
      check_type idx "type index out of range"
  | I_Jump target | I_JumpIfFalse target | I_JumpIfTrue target =>
      demand (target <? lenN (func_blocks func))%N "jump target is not a block"
  | I_Perform op argc reply_ty => check_perform op argc reply_ty
  | I_PerformValue _ reply_ty => check_type reply_ty "perform reply type index out of range"
  | I_OpConst op => demand (is_fixed op) "first-class operation slot is out of range or not fixed"
  | I_CallInterface site recv_ty app => check_call_interface site recv_ty app
  | I_Extended instr => check_extended instr
  | I_AsCall op idx => check_as_call op idx
  | I_TableEdit action kind slot => check_table_edit action kind slot
  | _ => mret tt
  end.

End Instruction.

(** *** Blocks and the whole function *)

Section Blocks.
Context (func : Func) (fidx : N).

(** The generic scopes a body can be in: its own and its patterns'. *)
Definition possible_scopes : list N :=
  foldl (λ scopes instr,
    match refinement instr with
    | Some (pattern, _) =>
        if bool_decide (pattern_function pattern ∈ scopes) then scopes else scopes ++ [pattern_function pattern]
    | None => scopes
    end) [fidx] (concat (func_blocks func)).

Fixpoint check_instrs (bidx iidx : N) (code : list Instr) : V VerifyError unit :=
  match code with
  | [] => mret tt
  | instr :: code =>
      _ ← vrequire (negb (is_terminator instr && negb (bool_decide (length code = 0))))
            (block_error fidx bidx " has a terminator before its end");
      _ ← check_instr func fidx bidx iidx possible_scopes instr;
      check_instrs bidx (iidx + 1) code
  end.

Definition check_block (bidx : N) (block : list Instr) : V VerifyError unit :=
  _ ← vrequire (match last block with Some i => is_terminator i | None => false end)
        (block_error fidx bidx " does not end with a terminator");
  check_instrs bidx 0 block.

Fixpoint check_blocks (bidx : N) (blocks : list (list Instr)) : V VerifyError unit :=
  match blocks with
  | [] => mret tt
  | block :: blocks => _ ← check_block bidx block; check_blocks (bidx + 1) blocks
  end.

Definition structural_pass : V VerifyError unit :=
  _ ← vrequire (local_count func <=? MAX_LOCAL_SLOTS)%N
        (err fidx ("the local slot count " +:+ pretty (local_count func) +:+ " exceeds the portable limit "
                   +:+ pretty MAX_LOCAL_SLOTS)%string);
  _ ← vrequire (lenN (func_blocks func) * (local_count func + 1) <=? MAX_DATAFLOW_CELLS)%N
        (err fidx "the function exceeds the verifier state budget; split it");
  _ ← vrequire (negb (bool_decide (length (func_blocks func) = 0))) (err fidx "the function has no blocks");
  check_blocks 0 (func_blocks func).

Definition verify_func (rounds : nat) : V VerifyError entries :=
  _ ← structural_pass; dataflow cx func fidx rounds.

End Blocks.

(** *** Signatures (crates/lm-verify/src/tables.rs) *)

(** [Ctx::stores_callback]. *)
Definition stores_callback (idx : N) : V VerifyError bool :=
  f ← fact idx; mret (match f with Some f => tf_stores_callback f | None => false end).

Section Signature.
Context (fidx : N) (func : Func).

#[local] Abbreviation sig_require b what := (vrequire b (err fidx what)).

Definition signature_bounds : V VerifyError bounds_table := scope_bounds fidx.

Fixpoint check_signature_types (types : list N) : V VerifyError unit :=
  match types with
  | [] => mret tt
  | t :: types =>
      _ ← sig_require (t <? lenN (md_types (module cx)))%N "the signature references an invalid type index";
      ok ← vars_bounded t (func_type_params func) (func_effect_params func);
      _ ← sig_require ok "the signature uses a variable outside the declared generic arity";
      bounds ← signature_bounds;
      ok ← projections_proven cx t bounds;
      _ ← sig_require ok "the signature uses an associated type without its interface bound";
      check_signature_types types
  end.

Definition reflection_pattern (instr : Instr) : option N :=
  match instr with
  | I_Extended x =>
      match x with
      | Ext_ReflectionRefine pattern _ => Some (pattern_function pattern)
      | Ext_ReflectionEnd pattern _ => Some pattern
      | _ => None
      end
  | _ => None
  end.
Definition reflection_patterns : list N := omap reflection_pattern (concat (func_blocks func)).

Definition in_pattern_scope (idx pattern : N) : V VerifyError bool :=
  match md_funcs (module cx) !! N.to_nat pattern with
  | None => mret false
  | Some scope =>
      andV (vars_bounded idx (func_type_params scope) (func_effect_params scope))
        (bounds ← scope_bounds pattern; projections_proven cx idx bounds)
  end.

Fixpoint check_local_types (types : list N) : V VerifyError unit :=
  match types with
  | [] => mret tt
  | t :: types =>
      _ ← sig_require (t <? lenN (md_types (module cx)))%N "the local-type table references an invalid type index";
      own ← andV (vars_bounded t (func_type_params func) (func_effect_params func))
              (bounds ← signature_bounds; projections_proven cx t bounds);
      pattern ← anyV (in_pattern_scope t) reflection_patterns;
      _ ← sig_require (own || pattern) "a local type uses variables outside every active scope";
      check_local_types types
  end.

Definition direct_callback (idx : N) : V VerifyError bool :=
  stored ← stores_callback idx;
  if negb stored then mret true
  else t ← ty idx; mret (match t with Ty_Callback _ _ _ _ => true | _ => false end).

Definition check_row_elem (elem : BcRow) : V VerifyError unit :=
  match elem with
  | Row_Op slot => sig_require (slot <? op_count (cx_bundle cx))%N "the declared row has an invalid operation slot"
  | Row_Group slot => sig_require (slot <? group_count (cx_bundle cx))%N "the declared row has an invalid group slot"
  | Row_Var v =>
      sig_require (v <? func_effect_params func)%N "the declared row uses an effect variable outside the arity"
  end.
Fixpoint check_row (row : list BcRow) : V VerifyError unit :=
  match row with [] => mret tt | elem :: row => _ ← check_row_elem elem; check_row row end.

Definition verify_signature (imported : bool) : V VerifyError unit :=
  let params := func_params func in
  _ ← sig_require (negb imported || bool_decide (length (func_blocks func) = 0)) "an imported function must have no body";
  _ ← sig_require (negb imported || (length (func_local_types func) =? length params))
        "an imported function must declare only its parameter slots";
  _ ← sig_require (length (func_param_muts func) =? length params)
        "the parameter mut markers do not align with the parameters";
  _ ← sig_require (length params <=? length (func_local_types func)) "more parameters than local slots";
  _ ← sig_require (bool_decide (take (length params) (func_local_types func) = params))
        "the local-type table prefix does not equal the parameter types";
  _ ← check_signature_types (params ++ func_captures func ++ [func_ret func]);
  _ ← check_local_types (func_local_types func);
  ok ← allV direct_callback params;
  _ ← sig_require ok "a callback must be a direct function parameter";
  stored ← anyV stores_callback (func_captures func);
  _ ← sig_require (negb stored) "a closure cannot capture a nonescaping callback";
  stored ← anyV stores_callback (drop (length params) (func_local_types func));
  _ ← sig_require (negb stored) "a local cannot store a nonescaping callback";
  stored ← stores_callback (func_ret func);
  _ ← sig_require (negb stored) "a function cannot return a nonescaping callback";
  _ ← check_row (func_row func);
  sig_require (row_canonical (func_row func)) "the declared row is not canonical".

End Signature.

(** The loop of [verify_signatures], after the core roles. *)
Fixpoint verify_signatures_from (idx : N) (funcs : list Func) (imported : list bool) : V VerifyError unit :=
  match funcs with
  | [] => mret tt
  | func :: funcs =>
      here ← vexpect (imported !! N.to_nat idx);
      _ ← verify_signature idx func here;
      verify_signatures_from (idx + 1) funcs imported
  end.
Definition verify_signatures : V VerifyError unit :=
  verify_signatures_from 0 (md_funcs (module cx)) (extern_funcs (module cx)).

(** *** The module after its tables *)

(** The entry function of [verify_structure]. *)
Definition check_entry : V VerifyError unit :=
  let m := module cx in
  entry ← vok_or (md_funcs m !! N.to_nat (md_entry m))
            (err (md_entry m) ("entry index " +:+ pretty (md_entry m) +:+ " is not inside the function table of length "
                               +:+ pretty (lenN (md_funcs m)))%string);
  _ ← vrequire (bool_decide (func_params entry = [])) (err (md_entry m) "the entry function must not have parameters");
  _ ← vrequire (bool_decide (func_captures entry = [])) (err (md_entry m) "the entry function must not have captures");
  vrequire (negb (is_generic (func_type_params entry) (func_effect_params entry)))
    (err (md_entry m) "the entry function must not be generic").

(** [verify_module_with_bundle] after [verify_structure]: every body. *)
Fixpoint verify_funcs (rounds : nat) (idx : N) (funcs : list Func) (imported : list bool) : V VerifyError unit :=
  match funcs with
  | [] => mret tt
  | func :: funcs =>
      here ← vexpect (imported !! N.to_nat idx);
      _ ← (if (here : bool) then mret tt else _ ← verify_func func idx rounds; mret tt);
      verify_funcs rounds (idx + 1) funcs imported
  end.
Definition verify_bodies (rounds : nat) : V VerifyError unit :=
  verify_funcs rounds 0 (md_funcs (module cx)) (extern_funcs (module cx)).

(** A function with a body, by index. *)
Definition body_at (function : N) : V VerifyError Func :=
  func ← vok_or (md_funcs (module cx) !! N.to_nat function) (err function "the function index is out of range");
  imported ← vexpect (extern_funcs (module cx) !! N.to_nat function);
  _ ← vrequire (negb imported) (err function "an imported function has no body");
  mret func.

Record VerifiedFunctionMetadata := mkMetadata {
  vm_blocks : entries;
  vm_points : entries;
  vm_types : list BcType;
}.

(** [ctx.uni.borrow().types.clone()]. *)
Definition types_now : V VerifyError (list BcType) := λ u, Ret (Ok (uni_types u, u)).

Definition verify_function_metadata_at (rounds : nat) (function : N) (points : list (N * N)) :
    V VerifyError VerifiedFunctionMetadata :=
  func ← body_at function;
  states ← verify_func func function rounds;
  requested ← states_at_points cx func function states points;
  types ← types_now;
  mret (mkMetadata states requested types).

End Shape.
