(* ===== verification/VerifyAccept.v ===== *)
(** * What acceptance by the structural pass says

    The pass only extends the type table, so the fixpoint starts from a table
    that grew from the module's; and an accepted function has the shape the
    interpreter relies on. *)

From stdpp Require Import base numbers list strings gmap sorting pretty.
From S2P Require Import Prelude Value Codec Bytecode ModuleTables VerifyCtx VerifySub VerifyStep VerifyPerform.
From S2P Require Import VerifyRules VerifyFunc VerifyStable VerifyFine VerifyFlow VerifyFix VerifySound VerifyShape.

#[local] Open Scope nat_scope.

(** ** The table only grows *)

Lemma vrequire_ok {E} b (e : E) u x u1 : vrequire b e u = Ret (Ok (x, u1)) → b = true ∧ u1 = u.
Proof. destruct b; [by intros [= _ <-] | done]. Qed.

Definition extends {E A} (m : V E A) : Prop := ∀ u x u1, m u = Ret (Ok (x, u1)) → grows u u1.

Lemma extends_stable {E A} (m : V E A) : (∀ v, stable v m) → extends m.
Proof. intros H u x u1. by apply growing. Qed.
Lemma extends_bind {E A B} (m : V E A) (f : A → V E B) : extends m → (∀ x, extends (f x)) → extends (m ≫= f).
Proof. intros Hm Hf u y u2 (x & u1 & H1 & H2)%bind_inv. etrans; [by eapply Hm | by eapply Hf]. Qed.
Lemma extends_anyV {E A} (f : A → V E bool) l : (∀ x, extends (f x)) → extends (anyV f l).
Proof.
  intros Hf. induction l; simpl; [apply extends_stable; stab|].
  apply extends_bind; [done|]. intros []; [apply extends_stable; stab | done].
Qed.
Lemma extends_allV {E A} (f : A → V E bool) l : (∀ x, extends (f x)) → extends (allV f l).
Proof.
  intros Hf. induction l; simpl; [apply extends_stable; stab|].
  apply extends_bind; [done|]. intros []; [done | apply extends_stable; stab].
Qed.
Lemma extends_fact {E} idx : extends (E:=E) (fact idx).
Proof. intros u x u1. rewrite fact_ok. by intros [= <- <-]. Qed.

(** Reads that are not stable still leave the table alone or extend it. *)
Ltac extend_step :=
  lazymatch goal with
  | |- ∀ _, _ => intro
  | |- extends (mbind _ _) => apply extends_bind
  | |- extends (anyV _ _) => apply extends_anyV
  | |- extends (allV _ _) => apply extends_allV
  | |- extends (fact _) => apply extends_fact
  | |- extends (match ?x with _ => _ end) => destruct x
  | |- extends (let _ := _ in _) => cbv zeta
  | |- extends ?m =>
      first [solve [auto with extends nocore] | solve [apply extends_stable; stab] | let h := head_of m in unfold h]
  end.
Ltac extend := repeat extend_step.
Create HintDb extends.

Section Extends.
Context (cx : Ctx).

Lemma extends_projections idx bounds : extends (E:=VerifyError) (projections_proven cx idx bounds).
Proof.
  unfold projections_proven. extend. apply extends_stable. intros. apply stable_projections_loop.
Qed.
#[local] Hint Resolve extends_projections : extends.

Context (func : Func) (fidx : N).

Lemma extends_argument_fault caller scope types : extends (argument_fault cx caller scope types).
Proof. induction types; simpl; extend. Qed.
#[local] Hint Resolve extends_argument_fault : extends.
Lemma extends_app_fault scope app t r : extends (app_fault cx scope app t r).
Proof. unfold app_fault. extend. Qed.
#[local] Hint Resolve extends_app_fault : extends.
Lemma extends_check_app bidx iidx scopes app t r : extends (check_app_in_possible_scope cx fidx bidx iidx scopes app t r).
Proof. extend. Qed.
#[local] Hint Resolve extends_check_app : extends.
Lemma extends_bounds_hold scopes t r b : extends (bounds_hold cx scopes t r b).
Proof. unfold bounds_hold. extend. Qed.
#[local] Hint Resolve extends_bounds_hold : extends.

Lemma extends_check_instr bidx iidx scopes instr : extends (check_instr cx func fidx bidx iidx scopes instr).
Proof. unfold check_instr. extend. Qed.
#[local] Hint Resolve extends_check_instr : extends.
Lemma extends_check_instrs bidx iidx code : extends (check_instrs cx func fidx bidx iidx code).
Proof. revert iidx. induction code; intros; simpl; extend. Qed.
#[local] Hint Resolve extends_check_instrs : extends.
Lemma extends_check_blocks bidx blocks : extends (check_blocks cx func fidx bidx blocks).
Proof. revert bidx. induction blocks; intros; simpl; extend. Qed.

Lemma extends_structural : extends (structural_pass cx func fidx).
Proof. unfold structural_pass. extend. apply extends_check_blocks. Qed.

End Extends.

(** ** From acceptance to the fixpoint *)

Lemma locals_known_grows u u' func : grows u u' → locals_known u func → locals_known u' func.
Proof.
  intros G H. eapply Forall_impl; [exact H|]. intros t [f Hf]. exists f. by eapply grows_fact.
Qed.

Lemma dataflow_grows cx func fidx rounds u states u1 :
  dataflow cx func fidx rounds u = Ret (Ok (states, u1)) → locals_known u func → grows u u1.
Proof. intros (fl & v & [_ ->]%vlift_ok & H)%bind_inv Hl. by eapply (flow_loop_grows cx func fidx u Hl). Qed.

(** An accepted function ran the fixpoint from a table that grew from [u0]. *)
Lemma accepted_flow cx func fidx rounds u0 states u :
  verify_func cx func fidx rounds u0 = Ret (Ok (states, u)) → index_ok u0 → locals_known u0 func → fits u →
  ∃ v, grows u0 v ∧ index_ok v ∧ locals_known v func ∧ dataflow cx func fidx rounds v = Ret (Ok (states, u)).
Proof.
  intros (x & v & Hs & Hd)%bind_inv Hok Hl Hf. pose proof (extends_structural _ _ _ _ _ _ Hs) as G.
  pose proof (locals_known_grows _ _ _ G Hl) as Hlv. pose proof (dataflow_grows _ _ _ _ _ _ _ Hd Hlv) as Gv.
  exists v. split_and!; [done | | done | done]. apply (grows_ok _ _ G Hok). eapply fits_prefix, Hf. apply Gv.
Qed.

(** ** From the signatures to the types of the locals *)

Lemma index_ok_universe types : index_ok (universe_of types).
Proof.
  intros t i H. cbn [universe_of uni_index uni_types] in *.
  assert (Hin : ∀ l, index_get l t = Some i → (t, i) ∈ l).
  { induction l as [|[k v] l IH]; [done|]. rewrite index_get_cons. case_bool_decide as Hk.
    - intros [= ->]. subst. by left.
    - intros. right. auto. }
  apply Hin in H. rewrite elem_of_reverse in H. apply elem_of_lookup_imap in H as (j & y & [= <- ->] & Hy).
  by rewrite Nat2N.id.
Qed.

Lemma universe_facts types : length (uni_facts (universe_of types)) = length types.
Proof.
  cbn [universe_of uni_facts]. assert (H : ∀ l acc, length (foldl (λ facts ty, facts ++ [type_facts ty facts]) acc l)
    = length acc + length l); [|by rewrite H].
  induction l as [|t l IH]; intros acc; simpl; [lia|]. rewrite IH, length_app. simpl. lia.
Qed.

Lemma check_local_types_inside cx fidx func types u x u1 :
  check_local_types cx fidx func types u = Ret (Ok (x, u1)) → Forall (λ t, (t < lenN (md_types (module cx)))%N) types.
Proof.
  revert u. induction types as [|t types IH]; intros u H; [constructor|].
  apply bind_inv in H as (y & v & Ht & H). apply vrequire_ok in Ht as [Ht%N.ltb_lt ->].
  apply bind_inv in H as (own & v1 & _ & H). apply bind_inv in H as (pattern & v2 & _ & H).
  apply bind_inv in H as (z & v3 & _ & H). constructor; [done | by eapply IH].
Qed.

(** The two facts of a signature the fixpoint starts from. *)
Lemma signature_ok cx fidx func imported u x u1 :
  verify_signature cx fidx func imported u = Ret (Ok (x, u1)) →
  length (func_params func) <= length (func_local_types func) ∧
  Forall (λ t, (t < lenN (md_types (module cx)))%N) (func_local_types func).
Proof.
  intros (a1 & v1 & _ & H)%bind_inv. do 2 apply bind_inv in H as (? & ? & _ & H).
  apply bind_inv in H as (? & ? & Hp & H). apply vrequire_ok in Hp as [Hp%Nat.leb_le ->].
  do 2 apply bind_inv in H as (? & ? & _ & H). apply bind_inv in H as (? & ? & Hl & H).
  split; [done | by eapply check_local_types_inside].
Qed.

(** The table the bodies start from: it grew from the module's. *)
Definition module_universe (cx : Ctx) (u : Universe) : Prop := grows (universe_of (md_types (module cx))) u.

Lemma module_universe_ok cx u : module_universe cx u → fits u → index_ok u.
Proof. intros G Hf. apply (grows_ok _ _ G); [apply index_ok_universe | done]. Qed.

Lemma signature_locals cx fidx func imported us x u u' :
  verify_signature cx fidx func imported us = Ret (Ok (x, u)) → module_universe cx u' → locals_known u' func.
Proof.
  intros H G. apply signature_ok in H as [_ H]. eapply Forall_impl; [exact H|]. intros t Ht.
  destruct (lookup_lt_is_Some_2 (uni_facts (universe_of (md_types (module cx)))) (N.to_nat t)) as [f Hf].
  { rewrite universe_facts. unfold lenN in Ht. simpl in Ht. lia. }
  exists f. by eapply grows_fact.
Qed.

Lemma verify_func_grows cx func fidx rounds u states u1 :
  verify_func cx func fidx rounds u = Ret (Ok (states, u1)) → locals_known u func → grows u u1.
Proof.
  intros (x & v & Hs & Hd)%bind_inv Hl. pose proof (extends_structural _ _ _ _ _ _ Hs) as G.
  etrans; [exact G|]. eapply dataflow_grows; [done|]. by eapply locals_known_grows.
Qed.

(** A body whose signature passed, in a table that grew from the module's. *)
Lemma admitted_flow cx func fidx rounds imported us us' u0 states u :
  verify_signature cx fidx func imported us = Ret (Ok (tt, us')) → module_universe cx u0 →
  verify_func cx func fidx rounds u0 = Ret (Ok (states, u)) → fits u →
  ∃ v, index_ok v ∧ locals_known v func ∧ dataflow cx func fidx rounds v = Ret (Ok (states, u)).
Proof.
  intros Hs G Hv Hf. pose proof (signature_locals _ _ _ _ _ _ _ _ Hs G) as Hl.
  assert (Hok : index_ok u0).
  { apply (module_universe_ok cx); [done|]. eapply fits_prefix, Hf. apply (verify_func_grows _ _ _ _ _ _ _ Hv Hl). }
  destruct (accepted_flow _ _ _ _ _ _ _ Hv Hok Hl Hf) as (v & _ & ? & ? & ?). eauto.
Qed.

(** ** The shape of an accepted function *)

(** The slot a local access names. *)
Definition local_slot (instr : Instr) : option N :=
  match instr with I_LoadLocal slot | I_StoreLocal slot => Some slot | _ => None end.

(** Branch targets and local slots inside the function. *)
Record operands_inside (func : Func) (instr : Instr) : Prop := mkOperands {
  oi_jump : ∀ t, jump_target instr = Some t → (t < lenN (func_blocks func))%N;
  oi_miss : ∀ p t, refinement instr = Some (p, t) → (t < lenN (func_blocks func))%N;
  oi_local : ∀ slot, local_slot instr = Some slot → (slot < local_count func)%N;
}.

(** One terminator, at the end. *)
Definition one_terminator (code : list Instr) : Prop :=
  ∃ body t, code = body ++ [t] ∧ is_terminator t = true ∧ Forall (λ i, is_terminator i = false) body.

Section Shape_facts.
Context (cx : Ctx) (func : Func) (fidx : N).

Lemma refinement_inv instr p t : refinement instr = Some (p, t) → instr = I_Extended (Ext_ReflectionRefine p t).
Proof. destruct instr; try done. simpl. case_match; try done. by intros [= -> ->]. Qed.

Lemma check_instr_inside bidx iidx scopes instr u x u1 :
  check_instr cx func fidx bidx iidx scopes instr u = Ret (Ok (x, u1)) → operands_inside func instr.
Proof.
  intros H. constructor.
  - intros t Ht. destruct instr; try done; injection Ht as ->; by apply vrequire_ok in H as [H%N.ltb_lt _].
  - intros p t Ht. pose proof (refinement_inv _ _ _ Ht) as ->.
    apply bind_inv in H as (y & v & _ & H). by apply vrequire_ok in H as [H%N.ltb_lt _].
  - intros slot Hs. destruct instr; try done; injection Hs as ->.
    + by apply vrequire_ok in H as [H%N.ltb_lt _].
    + apply bind_inv in H as (y & v & H & _). by apply vrequire_ok in H as [H%N.ltb_lt _].
Qed.

Lemma check_instrs_inside bidx iidx code u x u1 :
  check_instrs cx func fidx bidx iidx code u = Ret (Ok (x, u1)) →
  Forall (operands_inside func) code ∧
  ∀ body t, code = body ++ [t] → Forall (λ i, is_terminator i = false) body.
Proof.
  revert iidx u. induction code as [|i code IH]; intros iidx u H.
  { split; [constructor|]. intros body t Hc. by destruct body. }
  apply bind_inv in H as (y & v & Ht & H). apply vrequire_ok in Ht as [Ht ->].
  apply bind_inv in H as (y' & v & Hi & H). destruct (IH _ _ H) as [Hall Hbody].
  split; [constructor; [by eapply check_instr_inside | done]|].
  intros [|b body] t [= -> Hc]; [constructor|]. constructor; [|by eapply Hbody].
  apply negb_true_iff, andb_false_iff in Ht as [Ht|Ht]; [done|].
  apply negb_false_iff, bool_decide_eq_true in Ht. subst. rewrite length_app in Ht. simpl in Ht. lia.
Qed.

Lemma check_blocks_shape bidx blocks u x u1 :
  check_blocks cx func fidx bidx blocks u = Ret (Ok (x, u1)) →
  Forall (λ code, one_terminator code ∧ Forall (operands_inside func) code) blocks.
Proof.
  revert bidx u. induction blocks as [|code blocks IH]; intros bidx u H; [constructor|].
  apply bind_inv in H as (y & v & Hb & H). constructor; [|by eapply IH].
  apply bind_inv in Hb as (z & w & Hl & Hb). apply vrequire_ok in Hl as [Hl ->].
  destruct (check_instrs_inside _ _ _ _ _ _ Hb) as [Hall Hbody]. split; [|done].
  destruct (last code) as [t|] eqn:Ht; [|done]. apply last_Some in Ht as [body ->].
  exists body, t. split_and!; [done..|]. by eapply Hbody.
Qed.

Lemma structural_shape u x u1 : structural_pass cx func fidx u = Ret (Ok (x, u1)) →
  func_blocks func ≠ [] ∧ (local_count func <= MAX_LOCAL_SLOTS)%N ∧
  (lenN (func_blocks func) * (local_count func + 1) <= MAX_DATAFLOW_CELLS)%N ∧
  Forall (λ code, one_terminator code ∧ Forall (operands_inside func) code) (func_blocks func).
Proof.
  intros (y1 & v1 & H1 & H)%bind_inv. apply vrequire_ok in H1 as [H1%N.leb_le ->].
  apply bind_inv in H as (y2 & v2 & H2 & H). apply vrequire_ok in H2 as [H2%N.leb_le ->].
  apply bind_inv in H as (y3 & v3 & H3 & H). apply vrequire_ok in H3 as [H3 ->].
  apply negb_true_iff, bool_decide_eq_false in H3.
  split_and!; [|done|done|by eapply check_blocks_shape]. intros E. apply H3. by rewrite E.
Qed.
End Shape_facts.

(** ** Every body of a module *)

(** Entry states that hold inductively in the table [u]. *)
Definition inductive_typing (cx : Ctx) (func : Func) (fidx : N) (u : Universe) (states : entries) : Prop :=
  (∃ locals st, entry_locals func = Ret locals ∧ states !! 0 = Some (Some st) ∧
    absorbs cx u (mkState locals [] []) st) ∧
  ∀ b s, states !! b = Some (Some s) → ∃ code s' es,
    func_blocks func !! b = Some code ∧
    run_block cx func fidx record_edge (N.of_nat b) 0 code s [] u = Ret (Ok ((s', es), u)) ∧
    ∀ t e, (t, e) ∈ es → ∃ st, states !! N.to_nat t = Some (Some st) ∧ absorbs cx u e st.

Lemma accepted_typing cx func fidx rounds u0 states u u2 :
  verify_func cx func fidx rounds u0 = Ret (Ok (states, u)) → index_ok u0 → locals_known u0 func → fits u → grows u u2 →
  inductive_typing cx func fidx u2 states.
Proof.
  intros Hv Hok0 Hl0 Hf G. destruct (accepted_flow _ _ _ _ _ _ _ Hv Hok0 Hl0 Hf) as (v & _ & Hok & Hl & H).
  destruct (dataflow_inv cx func fidx v Hl rounds states u H Hok Hf) as (_ & Hentry & Hset). split.
  - destruct Hentry as (s & st & (locals & Hlo & ->) & H0 & Ha). exists locals, st. eauto using absorbs_grows.
  - intros b s Hs. destruct (Hset _ _ Hs) as [Hst _].
    destruct (settled_later _ _ _ _ _ _ _ _ _ G (climbs_refl _ _ _) Hst) as (code & s' & es & Hc & He & Hr & _).
    exists code, s', es. split_and!; [done | | done].
    pose proof (Hr _ (λ t s es, es ++ [(t, s)]) [] u2 ltac:(done)) as E. by rewrite noted_record in E.
Qed.

Lemma verify_funcs_each cx rounds idx funcs imported u x u1 :
  verify_funcs cx rounds idx funcs imported u = Ret (Ok (x, u1)) → Forall (locals_known u) funcs →
  grows u u1 ∧ ∀ i func, funcs !! i = Some func → imported !! N.to_nat (idx + N.of_nat i) = Some false →
    ∃ v states v', grows u v ∧ grows v' u1 ∧ verify_func cx func (idx + N.of_nat i) rounds v = Ret (Ok (states, v')).
Proof.
  revert idx u. induction funcs as [|func funcs IH]; intros idx u H Hl; [by injection H as <- <-|].
  inversion Hl as [|? ? Hf Hrest]; subst.
  apply bind_inv in H as (here & v & [Hh ->]%vlift_ok & H). apply bind_inv in H as (y & v & Hv & H).
  assert (Gv : grows u v ∧ (here = false → ∃ states, verify_func cx func idx rounds u = Ret (Ok (states, v)))).
  { destruct here; [by injection Hv as _ <-|]. apply bind_inv in Hv as (states & w & Hv & [= _ <-]).
    split; [by eapply verify_func_grows | eauto]. }
  destruct Gv as [Gv Hhere].
  destruct (IH _ _ H) as [G1 Heach].
  { eapply Forall_impl; [exact Hrest|]. intros f. by apply locals_known_grows. }
  split; [by etrans|]. intros [|i] f Hi Himp; simpl in Hi.
  - injection Hi as ->. change (N.of_nat 0) with 0%N in *. rewrite N.add_0_r in Himp |- *. unfold of_option in Hh. rewrite Himp in Hh. injection Hh as <-.
    destruct (Hhere eq_refl) as [states Hs]. by exists u, states, v.
  - replace (idx + N.of_nat (S i))%N with (idx + 1 + N.of_nat i)%N in Himp |- * by lia.
    destruct (Heach _ _ Hi Himp) as (w & states & w' & ? & ? & ?). exists w, states, w'. split_and!; [by etrans | done..].
Qed.

Lemma verify_signatures_each cx idx funcs imported u x u1 :
  verify_signatures_from cx idx funcs imported u = Ret (Ok (x, u1)) →
  Forall (λ func, ∃ i here us us', verify_signature cx i func here us = Ret (Ok (tt, us'))) funcs.
Proof.
  revert idx u. induction funcs as [|func funcs IH]; intros idx u H; [constructor|].
  apply bind_inv in H as (here & v & _ & H). apply bind_inv in H as ([] & w & Hs & H).
  constructor; [by eexists _, _, _, _ | by eapply IH].
Qed.

(** The bodies of a module whose signatures were accepted. *)
Lemma bodies_typed cx rounds us us' u0 u :
  verify_signatures cx us = Ret (Ok (tt, us')) → module_universe cx u0 →
  verify_bodies cx rounds u0 = Ret (Ok (tt, u)) → fits u →
  ∀ f func, md_funcs (module cx) !! f = Some func → extern_funcs (module cx) !! f = Some false →
    ∃ states, inductive_typing cx func (N.of_nat f) u states.
Proof.
  intros Hs0 G Hb Hf. pose proof (verify_signatures_each cx 0 _ _ us tt us' Hs0) as Hs. clear Hs0.
  assert (Hl : Forall (locals_known u0) (md_funcs (module cx))).
  { eapply Forall_impl; [exact Hs|]. intros func (i & here & v & v' & H). by eapply signature_locals. }
  destruct (verify_funcs_each cx rounds 0 _ _ u0 tt u Hb Hl) as [Gu Heach]. intros f func Hfunc Himp.
  destruct (Heach f func Hfunc) as (v & states & v' & Gv & Gv' & Hv); [by rewrite N.add_0_l, Nat2N.id|].
  exists states. rewrite N.add_0_l in Hv. assert (Hl' : locals_known v func).
  { eapply locals_known_grows; [exact Gv|]. by eapply (proj1 (Forall_lookup _ _) Hl). }
  assert (Hfv : fits v') by (eapply fits_prefix, Hf; apply Gv').
  eapply accepted_typing; [exact Hv | | done | done | done].
  apply (module_universe_ok cx); [unfold module_universe in *; by etrans|].
  eapply fits_prefix, Hfv. apply (verify_func_grows _ _ _ _ _ _ _ Hv Hl').
Qed.
