(* ===== verification/VerifyProps.v ===== *)
(** * What the verifier establishes

    The properties of the fixpoint: the states it leaves are inductive, the
    states at points are the states of a replay, a join is an upper bound;
    and a function on which the fixpoint never ends. *)

From stdpp Require Import base numbers list strings gmap sorting pretty.
From S2P Require Import Prelude Value Fault Codec Bytecode ModuleTables VerifyCtx VerifySub VerifyStep VerifyPerform.
From S2P Require Import VerifyRules VerifyFunc VerifyStable VerifyFine VerifyFlow VerifyFix VerifySound VerifyReplay VerifyShape VerifyAccept.

#[local] Open Scope nat_scope.

(** ** A module of one function *)

(** One operation in one group; two rows that grant the same operations. *)
Definition sample_bundle : AbiBundle :=
  mkAbiBundle
    [mkBundleOp "G.Do" "G" "Do" 1 Op_Fixed [] (Abi_Primitive AbiP_Unit) [] Mode_Copy "" HostAttachment false]
    [mkBundleGroup "G" ["Do"%string]] {["G.Do"%string := 0%N]} {["G"%string := 0%N]} [[true]].

Definition sample_types : list BcType :=
  [Ty_Unit; Ty_Bool; Ty_Int; Ty_Str; Ty_Fn [] [] 0 [Row_Group 0]; Ty_Fn [] [] 0 [Row_Op 0; Row_Group 0]].

Definition sample_ctx_of (fs : list Func) : Ctx :=
  mkCtx (mkBcModule [] [] sample_types [] [] [] [] [] ((λ f, replicate (N.to_nat (func_type_params f)) []) <$> fs)
           [] [] [] [] [] fs 0 [] [] []) sample_bundle
    [] ∅ [] [] (replicate (length fs) None) None (mkCore (λ _, None) (replicate 17 None)) 60.
Definition sample_ctx (f : Func) : Ctx := sample_ctx_of [f].

(** Local 0 or local 1 reaches block 1, in turn. *)
Definition seesaw : Func :=
  mkFuncDef "seesaw" 0 0 [4; 5]%N [false; false] 0 [] [] [4; 5]%N
    [[I_LoadLocal 0; I_Jump 1]; [I_ConstBool true; I_JumpIfFalse 2; I_Jump 3];
     [I_Pop; I_LoadLocal 0; I_Jump 1]; [I_Jump 4]; [I_Pop; I_LoadLocal 1; I_Jump 1]]%N [].

(** A loop with a branch and a block no edge reaches. *)
Definition countdown : Func :=
  mkFuncDef "countdown" 0 0 [2]%N [false] 2 [] [] [2; 1]%N
    [[I_Jump 1]; [I_LoadLocal 0; I_ConstInt 0; I_LtInt; I_StoreLocal 1; I_LoadLocal 1; I_JumpIfTrue 3; I_Jump 2];
     [I_LoadLocal 0; I_ConstInt 1; I_Sub; I_StoreLocal 0; I_Jump 1]; [I_LoadLocal 0; I_Return]; [I_Unreachable]]%N [].

(** ** Rounds that lead back *)

Section Cycle.
Context (cx : Ctx) (func : Func) (fidx : N).

(** One round that did not fail. *)
Definition flow_round (fl : Flow) (u : Universe) : option (Flow * Universe) :=
  match fl_work fl with
  | [] => None
  | b :: work =>
      slot ← fl_states fl !! N.to_nat b; s ← slot; code ← func_blocks func !! N.to_nat b;
      match run_block cx func fidx (merge cx fidx) b 0 code s (mkFlow (fl_states fl) work) u with
      | Ret (Ok ((_, fl), u)) => Some (fl, u)
      | _ => None
      end
  end.

Fixpoint flow_rounds (k : nat) (fl : Flow) (u : Universe) : option (Flow * Universe) :=
  match k with O => Some (fl, u) | S k => '(fl, u) ← flow_round fl u; flow_rounds k fl u end.

Lemma flow_round_loop r fl u fl' u' :
  flow_round fl u = Some (fl', u') → flow_loop cx func fidx (S r) fl u = flow_loop cx func fidx r fl' u'.
Proof.
  unfold flow_round. cbn [flow_loop]. destruct (fl_work fl) as [|b work]; [done|].
  destruct (fl_states fl !! N.to_nat b) as [[s|]|]; [|done..]. cbn [mbind option_bind].
  unfold block_at. destruct (func_blocks func !! N.to_nat b) as [code|]; [|done]. cbn [mbind option_bind].
  intros H. rewrite (bind_ok _ _ u (Some s) u), (bind_ok _ _ u s u), (bind_ok _ _ u code u) by done.
  destruct (run_block _ _ _ _ _ _ _ _ _ u) as [[[[? ?] ?]|]| |] eqn:E; [|done..]. simplify_eq.
  by rewrite (bind_ok _ _ _ _ _ E).
Qed.

Lemma flow_rounds_loop k r fl u fl' u' :
  flow_rounds k fl u = Some (fl', u') → flow_loop cx func fidx (k + r) fl u = flow_loop cx func fidx r fl' u'.
Proof.
  revert fl u. induction k as [|k IH]; intros fl u; simpl flow_rounds; [by intros [= <- <-]|].
  intros ([fl1 u1] & H1 & H)%bind_Some. cbn [Nat.add]. rewrite (flow_round_loop _ _ _ _ _ H1). auto.
Qed.
Lemma flow_rounds_short k r fl u fl' u' :
  flow_rounds k fl u = Some (fl', u') → r <= k → flow_loop cx func fidx r fl u = NoFuel.
Proof.
  revert r fl u. induction k as [|k IH]; intros [|r] fl u; [done | lia | done |]. simpl flow_rounds.
  intros ([fl1 u1] & H1 & H)%bind_Some Hr. rewrite (flow_round_loop _ _ _ _ _ H1). eapply IH; [done|lia].
Qed.

(** A flow that comes back to itself is run for ever. *)
Lemma flow_cycle k r fl u : flow_rounds (S k) fl u = Some (fl, u) → flow_loop cx func fidx r fl u = NoFuel.
Proof.
  intros H. induction r as [r IH] using lt_wf_ind. destruct (decide (r <= S k)) as [Hr|Hr].
  - by eapply flow_rounds_short.
  - replace r with (S k + (r - S k)) by lia. rewrite (flow_rounds_loop _ _ _ _ _ _ H). apply IH. lia.
Qed.
End Cycle.

Definition seesaw_state (stack : list N) : option State := Some (mkState [Some 4; Some 5]%N stack []).
(** The flow between two rounds that comes back every ten rounds. *)
Definition seesaw_flow : Flow :=
  mkFlow [seesaw_state []; seesaw_state [4]; seesaw_state [4]; seesaw_state [4]; seesaw_state [4]]%N [4%N].

(** ** Properties *)

(** C10. A module the verifier accepts is typed inductively.  Once the
    signatures and the bodies pass, every function with a body has entry
    states such that block 0 absorbs the state a call leaves, every reached
    block replays from its entry state in the final type table without
    refusal or panic, and the entry state of the target of each of its edges
    absorbs the edge: same depth and scopes, each type flowing to the
    recorded one, each local known at the target known at the source. *)
Theorem verified_module_sound (cx : Ctx) (rounds : nat) (us us' u0 u : Universe) :
  verify_signatures cx us = Ret (Ok (tt, us')) → grows (universe_of (md_types (cx_module cx))) u0 →
  verify_bodies cx rounds u0 = Ret (Ok (tt, u)) → fits u →
  ∀ f func, md_funcs (cx_module cx) !! f = Some func → extern_funcs (cx_module cx) !! f = Some false →
    ∃ states : entries,
      (∃ locals st, entry_locals func = Ret locals ∧ states !! 0 = Some (Some st) ∧
        absorbs cx u (mkState locals [] []) st) ∧
      ∀ b s, states !! b = Some (Some s) → ∃ code s' es,
        func_blocks func !! b = Some code ∧
        run_block cx func (N.of_nat f) record_edge (N.of_nat b) 0 code s [] u = Ret (Ok ((s', es), u)) ∧
        ∀ t e, (t, e) ∈ es → ∃ st, states !! N.to_nat t = Some (Some st) ∧ absorbs cx u e st.
Proof. exact (bodies_typed cx rounds us us' u0 u). Qed.

Lemma verified_module_sound_witness :
  ∃ u, verify_bodies (sample_ctx countdown) 20 (universe_of sample_types) = Ret (Ok (tt, u)) ∧
    ∃ states : entries, (∃ locals st, entry_locals countdown = Ret locals ∧ states !! 0 = Some (Some st) ∧
      absorbs (sample_ctx countdown) u (mkState locals [] []) st).
Proof.
  eexists. split; [vm_compute; reflexivity|].
  destruct (verified_module_sound (sample_ctx countdown) 20 (universe_of sample_types) (universe_of sample_types)
    (universe_of sample_types) _ ltac:(vm_compute; reflexivity) (grows_refl _) ltac:(vm_compute; reflexivity)
    ltac:(vm_compute; discriminate) 0 countdown eq_refl ltac:(vm_compute; reflexivity)) as (states & Hentry & _).
  exists states. exact Hentry.
Defined.

(** C36. In a function the verifier accepts, the states at any list of points
    are answered in the order asked, without refusal or panic
    and without growing the type table: the state after the given number of
    instructions of the block, nothing for a block no edge reaches.  A list
    with a point outside the function is refused. *)
Theorem states_at_points_exact (cx : Ctx) (func : Func) (fidx : N) (rounds : nat) (us us' u0 u : Universe)
    (states : entries) (points : list (N * N)) :
  verify_signature cx fidx func false us = Ret (Ok (tt, us')) → grows (universe_of (md_types (cx_module cx))) u0 →
  verify_func cx func fidx rounds u0 = Ret (Ok (states, u)) → fits u →
  (Forall (in_range func) points → ∃ results,
    states_at_points cx func fidx states points u = Ret (Ok (results, u)) ∧ length results = length points ∧
    ∀ j b i, points !! j = Some (b, i) →
      match states !! N.to_nat b with
      | Some (Some s) => ∃ code si, func_blocks func !! N.to_nat b = Some code ∧
          run_block cx func fidx drop_edge b 0 (take (N.to_nat i) code) s tt u = Ret (Ok ((si, tt), u)) ∧
          results !! j = Some (Some si)
      | _ => results !! j = Some None
      end) ∧
  (¬ Forall (in_range func) points → ∃ e, states_at_points cx func fidx states points u = Ret (Err e)).
Proof.
  intros Hs0 G Hv Hf. destruct (admitted_flow _ _ _ _ _ _ _ _ _ _ Hs0 G Hv Hf) as (v & Hok & Hl & H).
  destruct (dataflow_inv cx func fidx v Hl rounds states u H Hok Hf) as (_ & _ & Hset). split.
  - intros Hr. destruct (states_at_points_spec cx func fidx u states) with (points := points)
      as (results & Hrun & Hlen & Hat); [|done|].
    { intros b s code Hs Hc. by eapply settled_replayable; [apply (Hset _ _ Hs)|]. }
    exists results. split_and!; [done..|]. intros j b i Hj. rewrite (Hat _ _ _ Hj). unfold expected.
    destruct (states !! N.to_nat b) as [[s|]|] eqn:Hs; [|done..].
    destruct (proj1 (Forall_lookup _ _) Hr _ _ Hj) as (code & Hc & _). simpl in Hc. rewrite Hc.
    destruct (settled_replayable _ _ _ _ _ _ _ _ (proj1 (Hset _ _ Hs)) Hc (N.to_nat i)) as [si Hsi].
    rewrite N2Nat.id in Hsi. exists code, si. unfold state_after. by rewrite N2Nat.id, Hsi.
  - intros Hn. destruct (file_requests_err func fidx (replicate (length (func_blocks func)) []) 0 points u Hn) as [e He].
    exists e. unfold states_at_points, mbind, V_bind. by rewrite He.
Qed.

Lemma states_at_points_exact_witness :
  ∃ states u, verify_func (sample_ctx countdown) countdown 0 20 (universe_of sample_types) = Ret (Ok (states, u)) ∧
    (∃ results, states_at_points (sample_ctx countdown) countdown 0 states [(2, 3); (4, 0); (1, 1); (2, 0)]%N u
       = Ret (Ok (results, u)) ∧ length results = 4) ∧
    ∃ e, states_at_points (sample_ctx countdown) countdown 0 states [(3, 3)]%N u = Ret (Err e).
Proof.
  eexists _, _. split; [vm_compute; reflexivity|].
  pose proof (λ points, states_at_points_exact (sample_ctx countdown) countdown 0 20 (universe_of sample_types) _
    (universe_of sample_types) _ _ points ltac:(vm_compute; reflexivity) (grows_refl _) ltac:(vm_compute; reflexivity)
    ltac:(vm_compute; discriminate)) as W. split.
  - destruct (proj1 (W [(2, 3); (4, 0); (1, 1); (2, 0)]%N)) as (results & Hr & Hl & _).
    + repeat constructor; (eexists; split; [reflexivity | vm_compute; discriminate]).
    + by exists results.
  - apply (W [(3, 3)]%N). intros Hall. inversion Hall as [|? ? (code & Hc & Hle) _]. injection Hc as <-.
    by apply Hle.
Defined.

(** C37. The static bounds of a verified function: every recorded entry state
    and every state answered at a point has one slot per declared local and
    an operand stack of at most [MAX_STATIC_STACK] types. *)
Theorem verified_states_bounded (cx : Ctx) (func : Func) (fidx : N) (rounds : nat) (us us' u0 u : Universe)
    (states : entries) (points : list (N * N)) (results : entries) (u1 : Universe) :
  verify_signature cx fidx func false us = Ret (Ok (tt, us')) → grows (universe_of (md_types (cx_module cx))) u0 →
  verify_func cx func fidx rounds u0 = Ret (Ok (states, u)) → fits u →
  states_at_points cx func fidx states points u = Ret (Ok (results, u1)) →
  ∀ s, Some s ∈ states ++ results →
    lenN (st_locals s) = local_count func ∧ (lenN (st_stack s) <= MAX_STATIC_STACK)%N.
Proof.
  intros Hs0 G Hv Hf Hp. destruct (admitted_flow _ _ _ _ _ _ _ _ _ _ Hs0 G Hv Hf) as (v & Hok & Hl & H).
  destruct (dataflow_inv cx func fidx v Hl rounds states u H Hok Hf) as (_ & _ & Hset).
  assert (Hshape : ∀ s, shaped (N.to_nat (local_count func)) s →
    lenN (st_locals s) = local_count func ∧ (lenN (st_stack s) <= MAX_STATIC_STACK)%N).
  { intros s [Hn Hs]. split; [|done]. unfold lenN. rewrite Hn. lia. }
  intros s [[b Hb]%list_elem_of_lookup_1|[j Hj]%list_elem_of_lookup_1]%elem_of_app; apply Hshape; [by eapply Hset|].
  destruct (decide (Forall (in_range func) points)) as [Hr|Hn].
  2: { destruct (file_requests_err func fidx (replicate (length (func_blocks func)) []) 0 points u Hn) as [e He].
       unfold states_at_points, mbind, V_bind in Hp. by rewrite He in Hp. }
  destruct (states_at_points_spec cx func fidx u states) with (points := points) as (results' & Hrun & Hlen & Hat); [|done|].
  { intros b s' code Hs Hc. by eapply settled_replayable; [apply (Hset _ _ Hs)|]. }
  rewrite Hrun in Hp. injection Hp as <- <-.
  destruct (lookup_lt_is_Some_2 points j) as [[b i] Hpt]; [rewrite <-Hlen; by eapply lookup_lt_Some|].
  rewrite (Hat _ _ _ Hpt) in Hj. injection Hj as Hj. unfold expected in Hj.
  destruct (states !! N.to_nat b) as [[s'|]|] eqn:Hs; [|done..].
  destruct (func_blocks func !! N.to_nat b) as [code|] eqn:Hc; [|done].
  destruct (settled_prefix _ _ _ _ _ _ _ _ (N.to_nat i) (proj1 (Hset _ _ Hs)) Hc) as (si & Hk & Hsi).
  unfold state_after in Hj. rewrite Hsi in Hj. injection Hj as ->. eapply shaped_kept; [by eapply Hset | done].
Qed.

Lemma verified_states_bounded_witness :
  ∃ states u results, verify_func (sample_ctx countdown) countdown 0 20 (universe_of sample_types) = Ret (Ok (states, u)) ∧
    states_at_points (sample_ctx countdown) countdown 0 states [(1, 2)]%N u = Ret (Ok (results, u)) ∧
    ∀ s, Some s ∈ states ++ results → lenN (st_locals s) = 2%N ∧ (lenN (st_stack s) <= 4096)%N.
Proof.
  eexists _, _, _. split; [vm_compute; reflexivity|]. split; [vm_compute; reflexivity|].
  eapply (verified_states_bounded (sample_ctx countdown) countdown 0 20 (universe_of sample_types) _
    (universe_of sample_types) _ _ [(1, 2)]%N).
  - vm_compute. reflexivity.
  - apply grows_refl.
  - vm_compute. reflexivity.
  - vm_compute. discriminate.
  - vm_compute. reflexivity.
Defined.

(** C38. The shape of an accepted function: it has a block, its slots and its
    dataflow cells are within the portable limits, every block ends with its
    only terminator, and every branch target, miss edge and local slot is
    inside the function. *)
Theorem accepted_shape (cx : Ctx) (func : Func) (fidx : N) (rounds : nat) (u0 u : Universe) (states : entries) :
  verify_func cx func fidx rounds u0 = Ret (Ok (states, u)) →
  func_blocks func ≠ [] ∧ (local_count func <= 65536)%N ∧
  (lenN (func_blocks func) * (local_count func + 1) <= 2 ^ 24)%N ∧
  ∀ b code, func_blocks func !! b = Some code →
    (∃ body t, code = body ++ [t] ∧ is_terminator t = true ∧ Forall (λ i, is_terminator i = false) body) ∧
    ∀ instr, instr ∈ code →
      (∀ t, jump_target instr = Some t ∨ (∃ p, refinement instr = Some (p, t)) → (t < lenN (func_blocks func))%N) ∧
      (∀ slot, instr = I_LoadLocal slot ∨ instr = I_StoreLocal slot → (slot < local_count func)%N).
Proof.
  intros (x & v & Hs & _)%bind_inv. destruct (structural_shape _ _ _ _ _ _ Hs) as (Hne & Hl & Hc & Hall).
  split_and!; [done..|]. intros b code Hb. destruct (proj1 (Forall_lookup _ _) Hall _ _ Hb) as [Ht Hop].
  split; [done|]. intros instr Hin. apply (proj1 (Forall_forall _ _) Hop) in Hin as [H1 H2 H3].
  split; [intros t [?|[p ?]]; eauto | intros slot [-> | ->]; by apply H3].
Qed.

Lemma accepted_shape_witness :
  func_blocks countdown ≠ [] ∧ (local_count countdown <= 65536)%N ∧
  (lenN (func_blocks countdown) * (local_count countdown + 1) <= 2 ^ 24)%N.
Proof.
  destruct (accepted_shape (sample_ctx countdown) countdown 0 20 (universe_of sample_types) _ _
    ltac:(vm_compute; reflexivity)) as (H1 & H2 & H3 & _). exact (conj H1 (conj H2 H3)).
Defined.

(** C39. The fixpoint need not end: subtyping of function types compares rows
    by the operations they grant, so two canonical rows can be subtypes of
    each other, the join of two such types is its second operand, and a loop
    that brings both to one block changes its entry in every visit.  The
    structural pass accepts [seesaw] and no number of rounds finishes it. *)
Theorem verify_diverges :
  row_canonical [Row_Group 0] = true ∧ row_canonical [Row_Op 0; Row_Group 0] = true ∧
  join (sample_ctx seesaw) (E:=VerifyError) 4 5 (universe_of sample_types)
    = Ret (Ok (Some 5%N, universe_of sample_types)) ∧
  join (sample_ctx seesaw) (E:=VerifyError) 5 4 (universe_of sample_types)
    = Ret (Ok (Some 4%N, universe_of sample_types)) ∧
  structural_pass (sample_ctx seesaw) seesaw 0 (universe_of sample_types) = Ret (Ok (tt, universe_of sample_types)) ∧
  ∀ rounds, verify_func (sample_ctx seesaw) seesaw 0 rounds (universe_of sample_types) = NoFuel.
Proof.
  do 4 (split; [vm_compute; reflexivity|]). assert (Hs : structural_pass (sample_ctx seesaw) seesaw 0
    (universe_of sample_types) = Ret (Ok (tt, universe_of sample_types))) by (vm_compute; reflexivity).
  split; [done|]. intros rounds. unfold verify_func. rewrite (bind_ok _ _ _ _ _ Hs). unfold dataflow.
  assert (H0 : ∃ fl, entry_flow seesaw = Ret fl ∧
    flow_rounds (sample_ctx seesaw) seesaw 0 4 fl (universe_of sample_types) = Some (seesaw_flow, universe_of sample_types))
    by (eexists; split; [vm_compute; reflexivity | vm_compute; reflexivity]).
  destruct H0 as (fl & Hfl & H4). rewrite Hfl. rewrite (bind_ok _ _ _ fl (universe_of sample_types)) by done.
  assert (H10 : flow_rounds (sample_ctx seesaw) seesaw 0 10 seesaw_flow (universe_of sample_types)
    = Some (seesaw_flow, universe_of sample_types)) by (vm_compute; reflexivity).
  destruct (decide (rounds <= 4)) as [Hr|Hr]; [by eapply flow_rounds_short|].
  replace rounds with (4 + (rounds - 4)) by lia. rewrite (flow_rounds_loop _ _ _ _ _ _ _ _ _ H4).
  by apply (flow_cycle _ _ _ 9).
Qed.


